(* ===== verification/_CoqProject ===== *)
-Q . S2P
Prelude.v
ResponseCode.v
Text.v
Env.v
Strategy.v
StrategyResolver.v
FsQueueDepth.v
MountInfo.v
Alignment.v
FsConfig.v
CompletionMapper.v
MountCapabilities.v
ScratchPool.v
SharedQueue.v
ThreadPool.v
DrainingWorker.v
Task.v
ChunkSplitter.v
Batch.v
BatchExecute.v
Transfer.v
Batches.v
Assigner.v
SubmissionsMgr.v
StorageUri.v
Workload.v
Credentials.v
BackendApi.v
ClientMgr.v
Submission.v
BackendPools.v
StreamerApi.v
CapacityQueue.v
InflightChunks.v
DirectPass.v
IoEngine.v
LibaioEngine.v
UringEngine.v
EngineFactory.v
StagingPool.v
DeviceWriter.v
Reporting.v
AsyncIoWorker.v
FsAsyncRouter.v
AsyncIoScenario.v
DeviceScenario.v
AsyncIoAnswers.v
AsyncIoTracking.v
AsyncIoRunning.v
AsyncIoTurn.v
AsyncIoEnqueue.v
AsyncIoLife.v
ObjectStorageRetry.v
ObjectStorageIo.v
ObjectStorageWorker.v
ObjectStorageBooks.v
ObjectStorageChunks.v
ObjectStorageTurn.v
ObjectStorageEnqueue.v
ObjectStorageScenario.v
ObjectStorageLife.v
DeviceIssuer.v
DeviceRead.v
FileSystemWorker.v
WindowBringUp.v
Semver.v
S3Client.v
ObjectPlugin.v
S3Wrapper.v
S3Reader.v
Fd.v
FileRead.v
PartedRead.v
AzCacheLoader.v
AzureClient.v
GcsClient.v
CudaDevice.v
AsyncIoStats.v
Semaphore.v
