(* ===== verification/Prelude.v ===== *)
(** The model-streamer: a verification of its C++ core (src/cpp).

    The streamer loads tensors of model files into host or device memory.  A caller submits the ranges it wants
    of some files; the streamer cuts them into tasks and chunks, spreads them over the workers of a pool, reads
    them synchronously, through libaio or io_uring, or from object storage, copies what a device is to get, and
    pushes one response per range on a queue that the caller consumes.

    ** How the development follows the program

    A definition carries the name of the function it translates and takes the state the function changes as an
    argument, answering the new state.  Exceptions are [outcome] (ResponseCode): a value, a common::Exception
    with its code, a failed ASSERT, or an exception of the standard library.  size_t and unsigned are [Z] with
    the wrapping operations below; pointers are addresses.  Objects that several owners point to live in a store
    (the requests, Task; the files of the asynchronous worker).  What runs under a mutex is one function and
    what threads do is a sequence of such functions, or a step relation over them.  Code that is not the
    program's (the kernel, liburing, libaio, the CUDA driver, the storage plugins, the C library's allocator) is
    a class of operations with laws that state what its documentation promises; each class has an instance that
    keeps its laws, and the witnesses run on it.  Logging, statistics over the clock and diagnostics are left out.

    Loops that are not structural take fuel.  It is computed from the state and enough by a lemma of the same
    file: the items queued, the credit in flight, the chunks of a workload, the tasks of a batch.  Where a wait
    has no bound in the code it is bounded by what the environment's laws say (the patience of an engine, the credit
    and the copies of an object storage worker), and past its bound it throws, so that a worker that does not throw
    does not wait forever either.  A few fields are history that the code does not keep, so that a theorem can say in
    which order things happened (the batches a worker finished with, the engine at each report, the events of a lane).

    ** The parts

    - Foundations.  ResponseCode (common/response_code), Text (std::string), Env (utils/env), Semver (utils/semver),
      Semaphore (utils/semaphore), Fd (utils/fd and the synchronous File reader), Task (streamer/impl/request, task),
      Workload (workload, common/device), StorageUri (common/storage_uri), Credentials (common/s3_credentials).
    - Choosing how to read.  FsConfig (config, async_io_settings) and FsQueueDepth (fs_queue_depth): what the
      environment asks for.  Strategy and StrategyResolver (posix_io/strategy, strategy_resolver): the preference
      list and the one answer of a streamer; EngineFactory (io_uring_probe, libaio_probe, engine_factory): what the
      host can do, and the engine for it.  MountInfo and MountCapabilities (mount_capabilities): what a mount is
      and the block its direct reads need; FsAsyncRouter (fs_async_router): the reader and the engine of each file.
    - A submission.  StreamerApi (streamer.cc and the C interface) and Submission (Streamer::async_request) are what
      a caller reaches.  Assigner and Transfer (streamer/impl/assigner): ranges joined into transfers and divided
      between workloads; Batches (batches): transfers cut into tasks; ChunkSplitter (chunk_splitter): tasks
      grouped into chunks; SubmissionsMgr (submissions) and SharedQueue (common/shared_queue), the registry and
      the queue of responses; AsyncIoStats (async_io_stats), what is remembered of it.
    - Threads.  ThreadPool (utils/threadpool, deque) and DrainingWorker (utils/draining_worker) are step relations
      over the states of the threads; BackendPools (streamer/impl/pools) is where a workload goes.
    - Answering.  Batch and BatchExecute (batch): what each handler does to the shared requests, and the
      synchronous reader, FileRead its reads on a file; DeviceRead the same reader with a device destination;
      FileSystemWorker (filesystem_worker, Workload::execute) the worker that runs them.  Reporting holds what both
      asynchronous workers share of finishing a workload.
    - Asynchronous file reading.  IoEngine (posix_io/io_engine) is the interface, LibaioEngine and UringEngine
      keep its laws; CompletionMapper, Alignment, ScratchPool (posix_io); InflightChunks and DirectPass
      (async_io), CapacityQueue (utils/capacity_queue).  AsyncIoWorker translates the worker; AsyncIoAnswers,
      AsyncIoTracking, AsyncIoRunning, AsyncIoTurn and AsyncIoEnqueue prove what its operations keep, and
      AsyncIoLife what holds in every state that its pool can bring it to.  AsyncIoScenario runs it.
    - Devices.  StagingPool (device_io/staging_pool), DeviceWriter (device_writer, device_writer_client,
      stream_waiter, event_pool) over a class of drivers, DeviceIssuer (device_issuer), CudaDevice (device/cuda, a
      driver over the CUDA library), and DeviceScenario, the asynchronous worker over them.
    - Object storage.  ObjectStorageRetry, ObjectStorageIo and ObjectStorageWorker translate the retry policy,
      what the worker relies on and the worker; ObjectStorageBooks, ObjectStorageChunks, ObjectStorageTurn and
      ObjectStorageEnqueue prove what its operations keep; ObjectStorageLife and ObjectStorageScenario as above.
      WindowBringUp is the part of both workers before their window is up.
    - Storage plugins.  BackendApi (common/backend_api) is what crosses the interface, S3Wrapper
      (common/s3_wrapper) the streamer's side of it, and S3Reader the reader of the object storage worker over all
      of it.  ClientMgr (common/client_mgr) is the manager of clients every plugin has.  S3Client and ObjectPlugin
      (s3) are the S3 plugin; PartedRead, AzureClient, AzCacheLoader (azure) and GcsClient (gcs) the others.

    ** What the theorems show

    - A submission that is accepted is accepted whole, reads exactly its ranges into their destinations, and is
      answered exactly once per range once its tasks finish, however its handlers interleave (StreamerApi,
      Submission, Batch, Batches, Assigner, ChunkSplitter).
    - The workers neither throw nor hang, owe nothing when idle, and end in one turn when stopped, in every
      reachable state and over any environment that keeps its laws (AsyncIoLife, ObjectStorageLife,
      BatchExecute, DeviceRead, FileSystemWorker, WindowBringUp).  The engines, the device client, the CUDA backend
      and the S3 plugin keep the laws the workers rely on (LibaioEngine, UringEngine, DeviceWriter, CudaDevice,
      S3Reader: refinement): the CUDA backend all of them with allocated pinned memory, and with registered memory
      for requests whose rounding to pages stays in the address space; the S3 plugin while no stop is cut in two by a
      read that it began in, which S3Reader makes precise and shows to be needed.
    - Threads deliver every message once and stop when told to (ThreadPool, DrainingWorker); what threads share is
      handed out to one of them at a time (ClientMgr, StagingPool, DeviceIssuer) and shut down by the last
      (AzCacheLoader).
    - Reads land where they should: direct passes, staging buffers, registered regions, short reads, ranges read in
      parts (DirectPass, StagingPool, UringEngine, InflightChunks, Alignment, FileRead, PartedRead, GcsClient).
    - The queues, windows and registries keep their promises under any interleaving (SharedQueue, CapacityQueue,
      SubmissionsMgr, BackendPools); the configuration is read as it is written (Env, Strategy, StorageUri,
      FsQueueDepth, MountInfo, Semver); a plugin's clients keep the credentials they were built with (S3Client,
      AzureClient, S3Wrapper).
    - Where the code does not do what it says, a theorem runs it (AsyncIoScenario, DeviceScenario,
      ObjectStorageScenario, S3Wrapper, S3Reader, AzureClient, AzCacheLoader, GcsClient, Fd).

    ** Not modelled

    The SDKs behind the plugins, the kernel and the CUDA library are arguments or classes with laws.  Floating
    point - the margin of a window, the depth averaged over time - is left out or an argument, and so are clocks.
    Logging, the wrappers of one call (threads, dynamic libraries, descriptor limits), random values and temporary
    files have no state of their own to reason about; the Python bindings and the mocks are not the core.  What the
    Azure and GCS plugins have in common with the S3 plugin - the answers about configuration and shutdown - is
    modelled once, in ObjectPlugin.  *)

From stdpp Require Export base numbers list strings gmap.
From Stdlib Require Export ZArith Lia.

#[export] Set Default Goal Selector "!".
Open Scope Z_scope.

(** ** Machine integers

    [size_t], [uint64_t] and [unsigned long] are 64 bits wide, [unsigned] is 32: each is a [Z] in
    range, and every arithmetic operation of the source on them is one of the wrapping operations
    below.  [char *] values are addresses, plain [Z]. *)

Definition size_modulus : Z := 18446744073709551616.
Definition unsigned_modulus : Z := 4294967296.

Definition is_size (x : Z) : Prop := 0 <= x < size_modulus.
Definition is_unsigned (x : Z) : Prop := 0 <= x < unsigned_modulus.

Definition wrap64 (x : Z) : Z := x mod size_modulus.
Definition wrap32 (x : Z) : Z := x mod unsigned_modulus.

Definition add64 (x y : Z) : Z := wrap64 (x + y).
Definition sub64 (x y : Z) : Z := wrap64 (x - y).
Definition mul64 (x y : Z) : Z := wrap64 (x * y).
Definition add32 (x y : Z) : Z := wrap32 (x + y).
Definition sub32 (x y : Z) : Z := wrap32 (x - y).

Declare Scope machine_scope.
Delimit Scope machine_scope with machine.
Infix "⊕" := add64 (at level 50, left associativity) : machine_scope.
Infix "⊖" := sub64 (at level 50, left associativity) : machine_scope.
Infix "⊗" := mul64 (at level 40, left associativity) : machine_scope.
Open Scope machine_scope.

Lemma size_modulus_pow : size_modulus = 2 ^ 64.
Proof. reflexivity. Qed.

Lemma wrap64_small x : is_size x → wrap64 x = x.
Proof. intros. by apply Z.mod_small. Qed.

Lemma wrap32_small x : is_unsigned x → wrap32 x = x.
Proof. intros. by apply Z.mod_small. Qed.

Lemma wrap64_is_size x : is_size (wrap64 x).
Proof. apply Z.mod_pos_bound. reflexivity. Qed.

Lemma wrap32_is_unsigned x : is_unsigned (wrap32 x).
Proof. apply Z.mod_pos_bound. reflexivity. Qed.

Lemma add64_small x y : is_size (x + y) → x ⊕ y = x + y.
Proof. apply wrap64_small. Qed.

Lemma sub64_small x y : is_size (x - y) → x ⊖ y = x - y.
Proof. apply wrap64_small. Qed.

Lemma mul64_small x y : is_size (x * y) → x ⊗ y = x * y.
Proof. apply wrap64_small. Qed.

Lemma add32_small x y : is_unsigned (x + y) → add32 x y = x + y.
Proof. apply wrap32_small. Qed.

Lemma sub32_small x y : is_unsigned (x - y) → sub32 x y = x - y.
Proof. apply wrap32_small. Qed.

Create HintDb machine.
#[export] Hint Resolve wrap64_is_size wrap32_is_unsigned : machine.

(** [mlia] is linear arithmetic that knows what the ranges are; [mdiv] also knows division. *)
Ltac munfold :=
  unfold is_size, is_unsigned, size_modulus, unsigned_modulus in *.
Ltac mlia := munfold; lia.
Ltac mdiv := munfold; Z.div_mod_to_equations; nia.

(** [unwrap] replaces a wrapping operation by the plain one where the operands are in range. *)
Ltac unwrap_step :=
  match goal with
  | |- context [?x ⊕ ?y] => rewrite (add64_small x y) by mlia
  | |- context [?x ⊖ ?y] => rewrite (sub64_small x y) by mlia
  | |- context [?x ⊗ ?y] => rewrite (mul64_small x y) by mlia
  | |- context [add32 ?x ?y] => rewrite (add32_small x y) by mlia
  | |- context [sub32 ?x ?y] => rewrite (sub32_small x y) by mlia
  | |- context [wrap64 ?x] => rewrite (wrap64_small x) by mlia
  | |- context [wrap32 ?x] => rewrite (wrap32_small x) by mlia
  end.
Ltac unwrap := repeat unwrap_step.

Ltac unwrap_in_step H :=
  match type of H with
  | context [?x ⊕ ?y] => rewrite (add64_small x y) in H by mlia
  | context [?x ⊖ ?y] => rewrite (sub64_small x y) in H by mlia
  | context [?x ⊗ ?y] => rewrite (mul64_small x y) in H by mlia
  | context [add32 ?x ?y] => rewrite (add32_small x y) in H by mlia
  | context [sub32 ?x ?y] => rewrite (sub32_small x y) in H by mlia
  | context [wrap64 ?x] => rewrite (wrap64_small x) in H by mlia
  | context [wrap32 ?x] => rewrite (wrap32_small x) in H by mlia
  end.
Ltac unwrap_in H := repeat unwrap_in_step H.

(** A field of a state that is known. *)
Ltac find_rewrite := match goal with H : ?f ?w = _ |- context [?f ?w] => rewrite H end.

(** Case analysis on the boolean tests the models branch on. *)
Ltac case_bool :=
  match goal with
  | |- context [?a =? ?b] => destruct (Z.eqb_spec a b)
  | |- context [?a <? ?b] => destruct (Z.ltb_spec a b)
  | |- context [?a <=? ?b] => destruct (Z.leb_spec a b)
  | |- context [?a >=? ?b] => rewrite (Z.geb_leb a b); destruct (Z.leb_spec b a)
  | |- context [?a >? ?b] => rewrite (Z.gtb_ltb a b); destruct (Z.ltb_spec b a)
  end.
Ltac case_bool_in H :=
  match type of H with
  | context [?a =? ?b] => destruct (Z.eqb_spec a b)
  | context [?a <? ?b] => destruct (Z.ltb_spec a b)
  | context [?a <=? ?b] => destruct (Z.leb_spec a b)
  | context [?a >=? ?b] => rewrite (Z.geb_leb a b) in H; destruct (Z.leb_spec b a)
  | context [?a >? ?b] => rewrite (Z.gtb_ltb a b) in H; destruct (Z.ltb_spec b a)
  end.

(** ** Blocks: rounding to a multiple *)

Lemma round_down_bound a b : 0 < b → a - a mod b <= a < a - a mod b + b.
Proof. intros. pose proof (Z.mod_pos_bound a b). lia. Qed.

Lemma round_down_mod a b : 0 < b → (a - a mod b) mod b = 0.
Proof.
  intros. rewrite Zminus_mod_idemp_r, Z.sub_diag. apply Z.mod_0_l. lia.
Qed.

Lemma round_up_mod a b : 0 < b → (a + b - 1) / b * b mod b = 0.
Proof. intros. apply Z.mod_mul. lia. Qed.

Lemma round_up_bound a b : 0 < b → a <= (a + b - 1) / b * b < a + b.
Proof. intros. Z.div_mod_to_equations. nia. Qed.

Lemma add_multiple_mod a b k : 0 < b → k mod b = 0 → (a + k) mod b = a mod b.
Proof.
  intros Hb Hk. rewrite <- Zplus_mod_idemp_r, Hk, Z.add_0_r. done.
Qed.

Lemma mod_eq_sub a b n : 0 < n → a mod n = b mod n → (a - b) mod n = 0.
Proof. intros Hn H. rewrite Zminus_mod, H, Z.sub_diag. apply Z.mod_0_l. lia. Qed.

(** ** Sums *)

Definition sumZ (l : list Z) : Z := foldr Z.add 0 l.

Lemma sumZ_nil : sumZ [] = 0.
Proof. done. Qed.

Lemma sumZ_cons x l : sumZ (x :: l) = x + sumZ l.
Proof. done. Qed.

Lemma sumZ_app l k : sumZ (l ++ k) = sumZ l + sumZ k.
Proof. induction l; simpl in *; lia. Qed.

Lemma sumZ_nonneg l : Forall (λ x, 0 <= x) l → 0 <= sumZ l.
Proof. induction 1; simpl; lia. Qed.

#[export] Instance sumZ_perm : Proper ((≡ₚ) ==> eq) sumZ.
Proof. intros l k H. induction H; simpl in *; lia. Qed.

Create Rewrite HintDb sums.
#[export] Hint Rewrite sumZ_nil sumZ_cons sumZ_app : sums.

(** ** Tilings

    A list of pieces, each with an offset and a length, tiles the interval from [o] to [e] when every
    piece starts where the one before it ended.  Transfers, worker slices, tasks and chunks are all
    tilings of a file interval. *)

Section Tiling.
Context {A : Type} (off len : A → Z).

Inductive tiles : Z → list A → Z → Prop :=
| tiles_nil o : tiles o [] o
| tiles_cons x l o e :
    off x = o → 0 <= len x → tiles (o + len x) l e → tiles o (x :: l) e.

Lemma tiles_nil_inv o e : tiles o [] e → o = e.
Proof. by inversion 1. Qed.

Lemma tiles_cons_inv x l o e :
  tiles o (x :: l) e → off x = o ∧ 0 <= len x ∧ tiles (o + len x) l e.
Proof. by inversion 1. Qed.

Lemma tiles_app l k o m e : tiles o l m → tiles m k e → tiles o (l ++ k) e.
Proof. induction 1; simpl; [done|]. intros. constructor; auto. Qed.

Lemma tiles_app_inv l k o e : tiles o (l ++ k) e → ∃ m, tiles o l m ∧ tiles m k e.
Proof.
  revert o. induction l as [|x l IH]; intros o H; simpl in *.
  - exists o. split; [constructor|done].
  - apply tiles_cons_inv in H as (? & ? & H).
    destruct (IH _ H) as (m & ? & ?). exists m. split; [by constructor|done].
Qed.

Lemma tiles_snoc l x o : ∀ m, tiles o l m → off x = m → 0 <= len x → tiles o (l ++ [x]) (m + len x).
Proof. intros m H ? ?. eapply tiles_app; [done|]. constructor; auto. constructor. Qed.

Lemma tiles_snoc_inv l x o e :
  tiles o (l ++ [x]) e → tiles o l (off x) ∧ 0 <= len x ∧ e = off x + len x.
Proof.
  intros (m & H1 & H2)%tiles_app_inv.
  apply tiles_cons_inv in H2 as (<- & ? & H2). apply tiles_nil_inv in H2. eauto.
Qed.

Lemma tiles_end l o e : tiles o l e → e = o + sumZ (map len l).
Proof. induction 1; simpl in *; lia. Qed.

Lemma tiles_le l o e : tiles o l e → o <= e.
Proof. induction 1; lia. Qed.

Lemma tiles_elem l o e x : tiles o l e → x ∈ l → o <= off x ∧ 0 <= len x ∧ off x + len x <= e.
Proof.
  induction 1 as [|y l o e Hy ? Hl IH]; intros Hx; [by apply not_elem_of_nil in Hx|].
  apply elem_of_cons in Hx as [->|Hx].
  - apply tiles_le in Hl. lia.
  - specialize (IH Hx). lia.
Qed.

Lemma tiles_split l o e i x : tiles o l e → l !! i = Some x →
  ∃ l1 l2, l = l1 ++ x :: l2 ∧ length l1 = i ∧ tiles o l1 (off x) ∧ 0 <= len x ∧ tiles (off x + len x) l2 e.
Proof.
  intros H (l1 & l2 & -> & Hi)%list_elem_of_split_length.
  apply tiles_app_inv in H as (m & H1 & H2). apply tiles_cons_inv in H2 as (<- & ? & H2).
  by exists l1, l2.
Qed.

Lemma tiles_next l o e i x y : tiles o l e → l !! i = Some x → l !! S i = Some y → off y = off x + len x.
Proof.
  intros H Hx Hy. destruct (tiles_split _ _ _ _ _ H Hx) as (l1 & l2 & -> & <- & _ & _ & H2).
  rewrite lookup_app_r in Hy by lia. replace (S (length l1) - length l1)%nat with 1%nat in Hy by lia.
  simpl in Hy. destruct l2 as [|z l2]; [done|]. injection Hy as ->. by apply tiles_cons_inv in H2 as (? & _).
Qed.

Lemma tiles_last l o e i x : tiles o l e → l !! i = Some x → (length l <= S i)%nat → e = off x + len x.
Proof.
  intros H Hx Hl. destruct (tiles_split _ _ _ _ _ H Hx) as (l1 & l2 & -> & <- & _ & _ & H2).
  rewrite length_app in Hl. destruct l2; [by apply tiles_nil_inv in H2|simpl in Hl; lia].
Qed.

Lemma tiles_lookup l o e i x : tiles o l e → l !! i = Some x → off x = o + sumZ (map len (take i l)).
Proof.
  intros H Hx. destruct (tiles_split _ _ _ _ _ H Hx) as (l1 & l2 & -> & <- & H1 & _ & _).
  rewrite take_app_length. by apply tiles_end.
Qed.
End Tiling.

#[export] Hint Constructors tiles : core.

Lemma tiles_map {A B} (f : A → B) (off len : B → Z) l : ∀ o e,
  tiles off len o (map f l) e ↔ tiles (λ x, off (f x)) (λ x, len (f x)) o l e.
Proof.
  induction l as [|x l IH]; intros o e; split; intros H; inversion H; subst; simpl; constructor; auto;
    by apply IH.
Qed.

(** ** Lists *)

Lemma Forall2_impl_elem {A B} (P Q : A → B → Prop) l k :
  Forall2 P l k → (∀ x y, x ∈ l → P x y → Q x y) → Forall2 Q l k.
Proof.
  induction 1 as [|x y l k Hxy Hl IH]; intros HPQ; constructor.
  - apply HPQ; [left|done].
  - apply IH. intros ?? ?. apply HPQ. by right.
Qed.

Lemma filter_none {A} (P : A → Prop) `{!∀ x, Decision (P x)} (l : list A) : (∀ x, x ∈ l → ¬ P x) → filter P l = [].
Proof.
  induction l as [|x l IH]; intros Hl; [done|]. rewrite filter_cons_False by (apply Hl; left).
  apply IH. intros y Hy. apply Hl. by right.
Qed.

Lemma filter_all {A} (P : A → Prop) `{!∀ x, Decision (P x)} (l : list A) : (∀ x, x ∈ l → P x) → filter P l = l.
Proof.
  induction l as [|x l IH]; intros Hl; [done|]. rewrite filter_cons_True by (apply Hl; left). f_equal.
  apply IH. intros y Hy. apply Hl. by right.
Qed.

Lemma NoDup_snoc {A} (l : list A) x : NoDup (l ++ [x]) ↔ (x ∉ l) ∧ NoDup l.
Proof. rewrite (Permutation_app_comm l [x]). apply NoDup_cons. Qed.
