(* ===== verification/ResponseCode.v ===== *)
(** Published response codes (common/response_code) and the error monad.

    [ResponseCode] has the source's enumerators; [to_int] gives the published numbers of
    streamer/response_code.h, [response_code_from] and [description] are the two conversions.
    [outcome] is what a C++ function that may throw produces: a value, or an exception, which is a
    [common::Exception] carrying a code, a failed ASSERT (a bare std::exception), or an exception of
    the standard library. *)

From S2P Require Import Prelude.

Inductive ResponseCode :=
| Success | FinishedError | FileAccessError | EofError | S3NotSupported | GlibcPrerequisite
| InsufficientFdLimit | InvalidParameterError | EmptyRequestError | BusyError | CaFileNotFound
| UnknownError | ObjPluginLoadError | GCSNotSupported | AzureBlobNotSupported | FileTruncatedError
| TimedOut | UnsupportedBackendMix | CredentialsAlreadySet | RetryableFileAccessError
| FsStrategyConflict | FsStrategyUnavailable | FsAsyncEngineError | UnsupportedDeviceType
| DeviceUnavailable | InvalidDevice | DeviceOutOfMemory | DeviceTransferError | DeviceDriverError.

#[export] Instance ResponseCode_eq_dec : EqDecision ResponseCode.
Proof. solve_decision. Defined.

(** The enumerators in declaration order; [__Max] is their number. *)
Definition all_codes : list ResponseCode :=
  [ Success; FinishedError; FileAccessError; EofError; S3NotSupported; GlibcPrerequisite;
    InsufficientFdLimit; InvalidParameterError; EmptyRequestError; BusyError; CaFileNotFound;
    UnknownError; ObjPluginLoadError; GCSNotSupported; AzureBlobNotSupported; FileTruncatedError;
    TimedOut; UnsupportedBackendMix; CredentialsAlreadySet; RetryableFileAccessError;
    FsStrategyConflict; FsStrategyUnavailable; FsAsyncEngineError; UnsupportedDeviceType;
    DeviceUnavailable; InvalidDevice; DeviceOutOfMemory; DeviceTransferError; DeviceDriverError ].

Definition max_code : Z := 29.

(** The published number of each code. *)
Definition to_int (c : ResponseCode) : Z :=
  match c with
  | Success => 0 | FinishedError => 1 | FileAccessError => 2 | EofError => 3 | S3NotSupported => 4
  | GlibcPrerequisite => 5 | InsufficientFdLimit => 6 | InvalidParameterError => 7
  | EmptyRequestError => 8 | BusyError => 9 | CaFileNotFound => 10 | UnknownError => 11
  | ObjPluginLoadError => 12 | GCSNotSupported => 13 | AzureBlobNotSupported => 14
  | FileTruncatedError => 15 | TimedOut => 16 | UnsupportedBackendMix => 17
  | CredentialsAlreadySet => 18 | RetryableFileAccessError => 19 | FsStrategyConflict => 20
  | FsStrategyUnavailable => 21 | FsAsyncEngineError => 22 | UnsupportedDeviceType => 23
  | DeviceUnavailable => 24 | InvalidDevice => 25 | DeviceOutOfMemory => 26
  | DeviceTransferError => 27 | DeviceDriverError => 28
  end.

(** ** The error monad *)

Inductive exn :=
| Code (c : ResponseCode)   (** common::Exception *)
| AssertFailed              (** ASSERT: throws std::exception in every build *)
| StdException.             (** std::invalid_argument, std::out_of_range, ... *)

#[export] Instance exn_eq_dec : EqDecision exn.
Proof. solve_decision. Defined.

Inductive outcome (A : Type) :=
| Ret (x : A)
| Throw (e : exn).
Arguments Ret {A} x.
Arguments Throw {A} e.

#[export] Instance outcome_eq_dec `{EqDecision A} : EqDecision (outcome A).
Proof. solve_decision. Defined.

Definition obind {A B} (m : outcome A) (k : A → outcome B) : outcome B :=
  match m with Ret x => k x | Throw e => Throw e end.

(** [try { m } catch (const common::Exception &)] and [catch (...)] *)
Definition catch_code {A} (m : outcome A) (h : ResponseCode → outcome A) : outcome A :=
  match m with Throw (Code c) => h c | _ => m end.
Definition catch_all {A} (m : outcome A) (h : exn → outcome A) : outcome A :=
  match m with Throw e => h e | _ => m end.

Definition ASSERT (b : bool) : outcome () := if b then Ret () else Throw AssertFailed.

Declare Scope outcome_scope.
Delimit Scope outcome_scope with outcome.
Notation "'let!' x ':=' m 'in' k" := (obind m (λ x, k))
  (at level 10, x pattern, m at level 100, k at level 200) : outcome_scope.
Notation "m ';;!' k" := (obind m (λ _, k))
  (at level 100, k at level 200, right associativity) : outcome_scope.
Open Scope outcome_scope.

Lemma ASSERT_true b : b = true → ASSERT b = Ret ().
Proof. by intros ->. Qed.

Lemma obind_Ret_inv {A B} (m : outcome A) (k : A → outcome B) y :
  obind m k = Ret y → ∃ x, m = Ret x ∧ k x = Ret y.
Proof. destruct m; simpl; [eauto|done]. Qed.

Lemma ASSERT_Ret_inv b x : ASSERT b = Ret x → b = true.
Proof. by destruct b. Qed.

(** [invert_ret H] opens a monadic computation that returned. *)
Ltac invert_ret H :=
  repeat match type of H with
  | obind _ _ = Ret _ =>
      let x := fresh "r" in let H1 := fresh "Hr" in
      apply obind_Ret_inv in H as (x & H1 & H)
  end.

(** ** Conversions *)

(** [throw;] with no exception in flight calls std::terminate, which is not an exception: [None]. *)
Definition response_code_from (value : Z) : option ResponseCode :=
  if (value <? 0) || (value >=? max_code) then None
  else all_codes !! Z.to_nat value.

Definition response_invalid : string := "Invalid response code".

Definition messages : list string :=
  [ "Request sent successfuly";
    "Finished all responses";
    "File access error";
    "End of file reached";
    "S3 not supported";
    "GLIBC version should be at least 2.28";
    "Increase process fd limit or decrease the concurrency level. Recommended value for the streamer alone is the concurrency multiplied by 64, in addition to your application fd usage";
    "Invalid request parameters";
    "Empty request parameters";
    "Streamer is handling previous request";
    "CA bundle file not found";
    "Unknown Error";
    "Error loading object storage plugin";
    "GCS not supported";
    "Azure Blob not supported";
    "Object storage returned an unexpected number of bytes for the requested range (truncated or over-length response)";
    "Timed out waiting for a response";
    "Streamer is locked to a single object-storage backend (S3/GCS/Azure); mixing object-storage backends in one streamer or submission is not supported";
    "Credentials were already set to a different value; create a new streamer to use different credentials";
    "Retryable object storage file access error";
    "The filesystem read strategy was already set to a different value; set RUNAI_STREAMER_FS_STRATEGY, or call runai_file_streamer_set_fs_strategy, once before the first request";
    "None of the filesystem read strategies in the list can be served on this host; add sync_buffered to the list to allow the synchronous reader";
    "The asynchronous filesystem reader for this mount failed and will not be used again; the storage itself is healthy, and re-requesting these ranges reads them through the synchronous reader";
    "The requested device type is not supported by this build of the streamer; only RUNAI_FILE_STREAMER_DEVICE_CPU can be read into";
    "No usable device is present: the device driver could not be loaded, or it reports no devices";
    "There is no device with the requested ordinal";
    "An allocation on the device path was refused - device memory, or host memory to be pinned; ask for less, or release what is already held";
    "The transfer to the device failed; these ranges were not written and the destination is unchanged";
    "The device driver failed; the driver and the installed libraries do not agree, or the context is gone" ]%string.

(** [None] is the value-initialised slot of the source's std::array, a null pointer. *)
Definition description (response_code : Z) : option string :=
  if (response_code <? 0) || (response_code >=? max_code) then Some response_invalid
  else messages !! Z.to_nat response_code.

Lemma all_codes_lookup c : all_codes !! Z.to_nat (to_int c) = Some c.
Proof. by destruct c. Qed.

Lemma all_codes_number n c : all_codes !! n = Some c → to_int c = Z.of_nat n.
Proof. do 29 (destruct n as [|n]; [by intros [= <-]|]). done. Qed.

Lemma to_int_range c : 0 <= to_int c < max_code.
Proof. unfold max_code. destruct c; simpl; lia. Qed.

Lemma code_in_range_test v : (v <? 0) || (v >=? max_code) = false ↔ 0 <= v < max_code.
Proof. rewrite orb_false_iff, Z.geb_leb, Z.ltb_ge, Z.leb_gt. tauto. Qed.

(** The enumeration and the published numbers correspond one to one: converting a code's number
    gives the code back, a number converts exactly when it is in range, and then it is the number
    published for the code it converts to. *)
Theorem response_code_roundtrip :
  (∀ c, response_code_from (to_int c) = Some c) ∧
  (∀ v c, response_code_from v = Some c ↔ to_int c = v) ∧
  (∀ v, is_Some (response_code_from v) ↔ 0 <= v < max_code).
Proof.
  assert (Hfrom : ∀ c, response_code_from (to_int c) = Some c).
  { intros c. unfold response_code_from.
    rewrite (proj2 (code_in_range_test _)) by apply to_int_range. apply all_codes_lookup. }
  assert (Hto : ∀ v, 0 <= v < max_code → ∃ c, to_int c = v).
  { intros v Hv. unfold max_code in Hv.
    destruct (lookup_lt_is_Some_2 all_codes (Z.to_nat v)) as [c Hc]; [simpl; lia|].
    exists c. rewrite (all_codes_number _ _ Hc). lia. }
  assert (Hnone : ∀ v, ¬ 0 <= v < max_code → response_code_from v = None).
  { intros v Hv. unfold response_code_from.
    destruct ((v <? 0) || (v >=? max_code)) eqn:E; [done|].
    by apply code_in_range_test in E. }
  split_and!; [done| |].
  - intros v c. split; [|by intros <-]. intros H.
    destruct (decide (0 <= v < max_code)) as [Hv|Hv]; [|by rewrite Hnone in H].
    destruct (Hto v Hv) as [c' <-]. rewrite Hfrom in H. by simplify_eq.
  - intros v. destruct (decide (0 <= v < max_code)) as [Hv|Hv].
    + destruct (Hto v Hv) as [c <-]. rewrite Hfrom. split; [done|eauto].
    + rewrite Hnone by done. split; [by intros [??]|done].
Qed.

(** [description] never hands out a null pointer, whatever integer it is given, and it answers
    the invalid-code text exactly for a number that is not a published code. *)
Theorem description_total v :
  ∃ text, description v = Some text ∧ (text = response_invalid ↔ response_code_from v = None).
Proof.
  unfold description, response_code_from.
  destruct ((v <? 0) || (v >=? max_code)) eqn:E; [by exists response_invalid|].
  apply code_in_range_test in E. unfold max_code in E.
  destruct (lookup_lt_is_Some_2 messages (Z.to_nat v)) as [t Ht]; [simpl; lia|].
  destruct (lookup_lt_is_Some_2 all_codes (Z.to_nat v)) as [c Hc]; [simpl; lia|].
  exists t. split; [done|]. rewrite Hc. split; [|done]. intros ->.
  assert (Hd : Forall (λ m, m ≠ response_invalid) messages) by (repeat constructor; done).
  rewrite Forall_forall in Hd. exfalso. apply (Hd response_invalid); [|done].
  apply list_elem_of_lookup. eauto.
Qed.
