(* ===== verification/Text.v ===== *)
(** std::string as the source uses it: byte lists with find, substr, trimming, splitting at a
    separator, lower-casing, and the decimal conversions std::stoul / std::stoi / operator<<. *)

From S2P Require Import Prelude ResponseCode.
From Stdlib Require Export Ascii.

(** A std::string is its bytes. *)
Abbreviation text := (list ascii).

Definition txt : string → text := String.list_ascii_of_string.

(** ** Characters *)

Definition code (c : ascii) : Z := Z.of_N (N_of_ascii c).

(** The white space std::stoul skips: blank, \t, \n, \v, \f, \r. *)
Definition is_space (c : ascii) : bool := (code c =? 32) || ((9 <=? code c) && (code c <=? 13)).
Definition is_blank (c : ascii) : bool := (code c =? 32) || (code c =? 9).
Definition is_digit (c : ascii) : bool := (48 <=? code c) && (code c <=? 57).
Definition digit_value (c : ascii) : Z := code c - 48.
Definition digit_char (d : Z) : ascii := ascii_of_N (Z.to_N (48 + d)).

(** std::tolower in the C locale *)
Definition to_lower (c : ascii) : ascii :=
  if (65 <=? code c) && (code c <=? 90) then ascii_of_N (Z.to_N (code c + 32)) else c.

Definition lowered (t : text) : text := map to_lower t.

(** ** Searching and cutting *)

Fixpoint drop_while (p : ascii → bool) (t : text) : text :=
  match t with
  | [] => []
  | c :: t' => if p c then drop_while p t' else t
  end.

(** The longest prefix whose characters satisfy [p]. *)
Fixpoint take_while (p : ascii → bool) (t : text) : text :=
  match t with
  | [] => []
  | c :: t' => if p c then c :: take_while p t' else []
  end.

(** find_first_not_of / find_last_not_of and substr: cut the blanks off both ends. *)
Definition trimmed (t : text) : text :=
  reverse (drop_while is_blank (reverse (drop_while is_blank t))).

(** [find c t]: the text before the first [c] and the text after it, [None] when there is none. *)
Fixpoint find_char (c : ascii) (t : text) : option (text * text) :=
  match t with
  | [] => None
  | x :: t' =>
      if decide (x = c) then Some ([], t')
      else match find_char c t' with
           | Some (before, after) => Some (x :: before, after)
           | None => None
           end
  end.

(** The elements of a loop that cuts a string at every [c]: one more element than there are [c]. *)
Fixpoint split_on (c : ascii) (t : text) : list text :=
  match t with
  | [] => [[]]
  | x :: t' =>
      if decide (x = c) then [] :: split_on c t'
      else match split_on c t' with
           | e :: es => (x :: e) :: es
           | [] => [[x]]
           end
  end.

Fixpoint join (sep : text) (l : list text) : text :=
  match l with
  | [] => []
  | [e] => e
  | e :: es => e ++ sep ++ join sep es
  end.

(** ** Decimal numbers *)

Fixpoint digits_value (acc : Z) (t : text) : Z :=
  match t with
  | [] => acc
  | c :: t' => digits_value (acc * 10 + digit_value c) t'
  end.

(** std::stoul in base 10: the value and the number of characters it consumed.  A negative number
    is negated in unsigned arithmetic, as strtoul does. *)
Definition stoul (t : text) : outcome (Z * nat) :=
  let rest := drop_while is_space t in
  let spaces := (length t - length rest)%nat in
  let '(negative, sign, body) :=
    match rest with
    | c :: body => if code c =? 45 then (true, 1%nat, body)
                   else if code c =? 43 then (false, 1%nat, body) else (false, 0%nat, rest)
    | [] => (false, 0%nat, [])
    end in
  let ds := take_while is_digit body in
  match ds with
  | [] => Throw StdException
  | _ =>
      let v := digits_value 0 ds in
      if v >=? size_modulus then Throw StdException
      else Ret (if negative : bool then wrap64 (- v) else v, (spaces + sign + length ds)%nat)
  end.

(** std::stoi in base 10: out of the range of int throws. *)
Definition stoi (t : text) : outcome (Z * nat) :=
  let rest := drop_while is_space t in
  let spaces := (length t - length rest)%nat in
  let '(negative, sign, body) :=
    match rest with
    | c :: body => if code c =? 45 then (true, 1%nat, body)
                   else if code c =? 43 then (false, 1%nat, body) else (false, 0%nat, rest)
    | [] => (false, 0%nat, [])
    end in
  let ds := take_while is_digit body in
  match ds with
  | [] => Throw StdException
  | _ =>
      let v := if negative : bool then - digits_value 0 ds else digits_value 0 ds in
      if (v <? -2147483648) || (v >? 2147483647) then Throw StdException else Ret (v, (spaces + sign + length ds)%nat)
  end.

(** operator<< of an unsigned number *)
Fixpoint print_digits (fuel : nat) (n : Z) (acc : text) : text :=
  match fuel with
  | O => acc
  | S fuel =>
      let acc := digit_char (n mod 10) :: acc in
      if n / 10 =? 0 then acc else print_digits fuel (n / 10) acc
  end.

(** 20 digits are enough for any 64 bit number. *)
Definition print_Z (n : Z) : text := print_digits 20 n [].

(** ** Lemmas *)

Lemma code_range c : 0 <= code c < 256.
Proof. unfold code. pose proof (N_ascii_bounded c). lia. Qed.

Lemma code_of_N n : 0 <= n < 256 → code (ascii_of_N (Z.to_N n)) = n.
Proof. intros. unfold code. rewrite N_ascii_embedding by lia. lia. Qed.

Lemma digit_char_digit d : 0 <= d < 10 → is_digit (digit_char d) = true.
Proof.
  intros. unfold is_digit, digit_char. rewrite code_of_N by lia.
  rewrite andb_true_iff, !Z.leb_le. lia.
Qed.

Lemma digit_char_value d : 0 <= d < 10 → digit_value (digit_char d) = d.
Proof. intros. unfold digit_value, digit_char. rewrite code_of_N by lia. lia. Qed.

Lemma digit_not_space c : is_digit c = true → is_space c = false.
Proof.
  unfold is_digit, is_space. rewrite andb_true_iff, !Z.leb_le. intros.
  destruct (Z.eqb_spec (code c) 32); [lia|]. destruct (Z.leb_spec (code c) 13); [lia|].
  by rewrite andb_false_r.
Qed.

Lemma take_while_all p t k : forallb p t = true →
  take_while p (t ++ k) = t ++ take_while p k.
Proof. induction t; simpl; [done|]. intros [-> ?]%andb_true_iff. f_equal. auto. Qed.

Lemma take_while_full p t : forallb p t = true → take_while p t = t.
Proof. induction t; simpl; [done|]. intros [-> ?]%andb_true_iff. f_equal. auto. Qed.

Lemma drop_while_length p t : (length (drop_while p t) <= length t)%nat.
Proof. induction t; simpl; [lia|]. case_match; simpl; lia. Qed.

Lemma drop_while_head p c t : p c = false → drop_while p (c :: t) = c :: t.
Proof. intros H. simpl. by rewrite H. Qed.

Lemma digits_value_app acc t k :
  digits_value acc (t ++ k) = digits_value (digits_value acc t) k.
Proof. revert acc. induction t; simpl; auto. Qed.

Lemma digits_value_nonneg t : ∀ acc, forallb is_digit t = true → 0 <= acc → 0 <= digits_value acc t.
Proof.
  induction t as [|c t IH]; simpl; [done|]. intros acc [Hc Ht]%andb_true_iff H. apply IH; [done|].
  unfold is_digit in Hc. rewrite andb_true_iff, !Z.leb_le in Hc. unfold digit_value. lia.
Qed.

Lemma print_digits_spec fuel n acc : 0 <= n < 10 ^ Z.of_nat fuel → (0 < fuel)%nat →
  ∃ ds, print_digits fuel n acc = ds ++ acc ∧ forallb is_digit ds = true ∧ ds ≠ [] ∧
        digits_value 0 ds = n.
Proof.
  revert n acc. induction fuel as [|fuel IH]; intros n acc Hn Hf; [lia|].
  assert (Hm : 0 <= n mod 10 < 10) by (apply Z.mod_pos_bound; lia). simpl.
  destruct (Z.eqb_spec (n / 10) 0) as [E|E].
  - exists [digit_char (n mod 10)]. simpl. rewrite digit_char_digit, digit_char_value by lia.
    split_and!; auto. pose proof (Z.div_mod n 10). lia.
  - rewrite Nat2Z.inj_succ, Z.pow_succ_r in Hn by lia.
    destruct fuel as [|fuel]; [simpl in Hn; Z.div_mod_to_equations; lia|].
    destruct (IH (n / 10) (digit_char (n mod 10) :: acc)) as (ds & -> & Hd & ? & Hv);
      [Z.div_mod_to_equations; lia | lia |].
    exists (ds ++ [digit_char (n mod 10)]). rewrite <- app_assoc. split_and!; [done| | |].
    + rewrite forallb_app. simpl. by rewrite Hd, digit_char_digit.
    + by destruct ds.
    + rewrite digits_value_app, Hv. simpl. rewrite digit_char_value by lia.
      pose proof (Z.div_mod n 10). lia.
Qed.

Lemma print_Z_spec n : is_size n →
  forallb is_digit (print_Z n) = true ∧ print_Z n ≠ [] ∧ digits_value 0 (print_Z n) = n.
Proof.
  intros Hn. destruct (print_digits_spec 20 n []) as (ds & E & ?); [mlia|lia|].
  unfold print_Z. rewrite app_nil_r in E. by rewrite E.
Qed.

(** Reading a run of digits that is a 64 bit number consumes all of it. *)
Lemma stoul_digits t : forallb is_digit t = true → t ≠ [] → digits_value 0 t < size_modulus →
  stoul t = Ret (digits_value 0 t, length t).
Proof.
  intros Hd Hn Hv. destruct t as [|c t]; [done|]. unfold stoul.
  assert (Hc : is_digit c = true) by (simpl in Hd; by apply andb_true_iff in Hd as [? ?]).
  rewrite (drop_while_head is_space) by (by apply digit_not_space).
  assert ((code c =? 45) = false ∧ (code c =? 43) = false) as [-> ->].
  { unfold is_digit in Hc. rewrite andb_true_iff, !Z.leb_le in Hc. rewrite !Z.eqb_neq. lia. }
  rewrite take_while_full by done. rewrite Z.geb_leb, (proj2 (Z.leb_gt _ _)) by done.
  do 2 f_equal. rewrite Nat.sub_diag. simpl. lia.
Qed.

Lemma stoul_print n : is_size n → stoul (print_Z n) = Ret (n, length (print_Z n)).
Proof.
  intros Hn. destruct (print_Z_spec n Hn) as (? & ? & Hv).
  rewrite stoul_digits; [by rewrite Hv|done|done|]. rewrite Hv. mlia.
Qed.

Lemma drop_while_split p t :
  ∃ k, t = k ++ drop_while p t ∧ forallb p k = true.
Proof.
  induction t as [|c t (k & Hk & ?)]; [by exists []|]. simpl.
  destruct (p c) eqn:E; [|by exists []]. exists (c :: k). simpl. rewrite E. split; [by f_equal|done].
Qed.

Lemma drop_while_app p k t : forallb p k = true → drop_while p (k ++ t) = drop_while p t.
Proof. induction k; simpl; [done|]. by intros [-> ?]%andb_true_iff; auto. Qed.

(** ** Cutting at a separator *)

Lemma split_on_nonempty c t : split_on c t ≠ [].
Proof. destruct t; simpl; [done|]. by repeat case_match. Qed.

Lemma join_split_on c t : join [c] (split_on c t) = t.
Proof.
  induction t as [|x t IH]; [done|]. simpl. destruct (decide (x = c)) as [->|].
  - destruct (split_on c t) as [|e es] eqn:E; [by apply split_on_nonempty in E|].
    by rewrite <- IH.
  - destruct (split_on c t) as [|e es] eqn:E; [by apply split_on_nonempty in E|].
    rewrite <- IH. by destruct es.
Qed.

Lemma split_on_without c t : Forall (λ e, c ∉ e) (split_on c t).
Proof.
  induction t as [|x t IH]; simpl; [by repeat constructor; apply not_elem_of_nil|].
  destruct (decide (x = c)) as [->|Hx]; [by constructor; [apply not_elem_of_nil|]|].
  destruct (split_on c t) as [|e es]; decompose_Forall_hyps; constructor; auto.
  - by apply not_elem_of_cons; split; [|apply not_elem_of_nil].
  - by apply not_elem_of_cons.
Qed.

Lemma split_on_single c e : c ∉ e → split_on c e = [e].
Proof.
  induction e as [|x e IH]; [done|]. intros [Hx He]%not_elem_of_cons. simpl.
  rewrite decide_False by congruence. by rewrite IH.
Qed.

Lemma split_on_app c e t : c ∉ e → split_on c (e ++ c :: t) = e :: split_on c t.
Proof.
  induction e as [|x e IH]; simpl; [by rewrite decide_True|]. intros [Hx He]%not_elem_of_cons.
  rewrite decide_False by congruence. by rewrite IH.
Qed.

Lemma split_on_join c ts : ts ≠ [] → Forall (λ e, c ∉ e) ts → split_on c (join [c] ts) = ts.
Proof.
  intros Hn H. induction H as [|e es He Hes IH]; [done|]. destruct es as [|e' es]; [by apply split_on_single|].
  change (join [c] (e :: e' :: es)) with (e ++ c :: join [c] (e' :: es)).
  by rewrite split_on_app, IH by done.
Qed.

Lemma find_char_Some c t b p : find_char c t = Some (b, p) ↔ t = b ++ c :: p ∧ c ∉ b.
Proof.
  revert b p. induction t as [|x t IH]; intros b p; simpl.
  - split; [done|]. intros [H _]. by destruct b.
  - case_decide as Hx.
    + subst x. split; [intros [= <- <-]; split; [done|apply not_elem_of_nil]|].
      intros [H Hn]. destruct b as [|y b]; simpl in H; [by injection H as ->|]. injection H as <- _. destruct Hn. left.
    + destruct (find_char c t) as [[b' p']|].
      * split.
        -- intros [= <- <-]. destruct (proj1 (IH b' p') eq_refl) as [-> Hn]. split; [done|].
           intros [->|Hin]%elem_of_cons; [done|by apply Hn].
        -- intros [H Hn]. destruct b as [|y b]; simpl in H; [by injection H as -> _|]. injection H as -> ->.
           assert (Hb : Some (b', p') = Some (b, p)); [|by injection Hb as -> ->].
           apply IH. split; [done|]. intros Hin. apply Hn. by right.
      * split; [done|]. intros [H Hn]. destruct b as [|y b]; simpl in H; [by injection H as -> _|]. injection H as -> ->.
        assert (Hb : None = Some (b, p)); [|done]. apply IH. split; [done|]. intros Hin. apply Hn. by right.
Qed.

(** ** Trimming *)

Lemma forallb_reverse p (t : text) : forallb p (reverse t) = forallb p t.
Proof.
  induction t as [|c t IH]; [done|]. rewrite reverse_cons, forallb_app. simpl. rewrite IH.
  destruct (p c), (forallb p t); done.
Qed.

Lemma drop_while_all p t : forallb p t = true → drop_while p t = [].
Proof. induction t; simpl; [done|]. intros [-> ?]%andb_true_iff. auto. Qed.

Lemma drop_while_stop p t k : forallb p t = false → drop_while p (t ++ k) = drop_while p t ++ k.
Proof. induction t as [|c t IH]; simpl; [done|]. by destruct (p c); simpl; auto. Qed.

Lemma drop_while_none p t : forallb (λ c, negb (p c)) t = true → drop_while p t = t.
Proof. destruct t as [|c t]; simpl; [done|]. intros [H _]%andb_true_iff. by destruct (p c). Qed.

Lemma trimmed_pad a k b : forallb is_blank a = true → forallb is_blank b = true → trimmed (a ++ k ++ b) = trimmed k.
Proof.
  intros Ha Hb. unfold trimmed. rewrite drop_while_app by done.
  destruct (forallb is_blank k) eqn:Hk.
  - by rewrite (drop_while_all is_blank (k ++ b)), (drop_while_all is_blank k) by (by rewrite ?forallb_app, ?Hk).
  - rewrite drop_while_stop, reverse_app, drop_while_app; [done| |done]. by rewrite forallb_reverse.
Qed.

Lemma trimmed_id k : forallb (λ c, negb (is_blank c)) k = true → trimmed k = k.
Proof.
  intros Hk. unfold trimmed. rewrite (drop_while_none _ k) by done.
  rewrite drop_while_none by (by rewrite forallb_reverse). apply reverse_involutive.
Qed.

Lemma trimmed_split t : ∃ a b, t = a ++ trimmed t ++ b ∧ forallb is_blank a = true ∧ forallb is_blank b = true.
Proof.
  unfold trimmed. destruct (drop_while_split is_blank t) as (a & Ht & Ha).
  set (u := drop_while is_blank t) in *. destruct (drop_while_split is_blank (reverse u)) as (b & Hu & Hb).
  exists a, (reverse b). rewrite Ht at 1. rewrite forallb_reverse. split_and!; [|done|done]. f_equal.
  rewrite <- (reverse_involutive u) at 1. by rewrite Hu at 1; rewrite reverse_app.
Qed.
