(* ===== verification/Env.v ===== *)
(** The process environment (utils/env): reading text, integers, booleans and positive counts.

    The environment is a finite map from names to values, an argument of every function that reads
    it.  Numbers go through std::stoul, with the checks parse_unsigned adds; a malformed value
    throws. *)

From S2P Require Import Prelude ResponseCode Text.

Abbreviation environment := (gmap string text).

(** [first] is find_first_not_of the white space; a minus there is refused before std::stoul could
    wrap it.  The last check is the ASSERT on trailing garbage. *)
Definition parse_unsigned (s : text) : outcome Z :=
  match drop_while is_space s with
  | c :: _ => if code c =? 45 then Throw StdException else Ret ()
  | [] => Ret ()
  end ;;!
  let! (value, idx) := stoul s in
  ASSERT (bool_decide (idx = length s)) ;;!
  Ret value.

Definition try_getenv_string (env : environment) (variable : string) : option text := env !! variable.

Definition try_getenv_ulong (env : environment) (variable : string) : outcome (option Z) :=
  match try_getenv_string env variable with
  | None => Ret None
  | Some s => let! v := parse_unsigned s in Ret (Some v)
  end.

Definition env_exists (env : environment) (variable : string) : bool :=
  bool_decide (is_Some (try_getenv_string env variable)).

Definition getenv_ulong (env : environment) (variable : string) (def : Z) : outcome Z :=
  match try_getenv_string env variable with
  | None => Ret def
  | Some raw => parse_unsigned raw
  end.

(** The checks of the accessors of int. *)
Definition parse_int (s : text) : outcome Z :=
  let! (i, idx) := stoi s in
  ASSERT (bool_decide (idx = length s)) ;;!
  Ret i.

Definition try_getenv_int (env : environment) (variable : string) : outcome (option Z) :=
  match try_getenv_string env variable with
  | None => Ret None
  | Some s => let! i := parse_int s in Ret (Some i)
  end.

Definition try_getenv_bool (env : environment) (variable : string) : outcome (option bool) :=
  let! i := try_getenv_int env variable in
  Ret (match i with None => None | Some i => Some (negb (i =? 0)) end).

Definition getenv_int (env : environment) (variable : string) (def : Z) : outcome Z :=
  match try_getenv_string env variable with
  | None => Ret def
  | Some raw => parse_int raw
  end.

Definition getenv_bool (env : environment) (variable : string) (def : bool) : outcome bool :=
  let! i := getenv_int env variable (if def then 1 else 0) in Ret (negb (i =? 0)).

(** Without a default, an unset variable throws. *)
Definition required_string (env : environment) (variable : string) : outcome text :=
  match try_getenv_string env variable with None => Throw StdException | Some value => Ret value end.

Definition required_int (env : environment) (variable : string) : outcome Z :=
  let! s := required_string env variable in parse_int s.

Definition required_ulong (env : environment) (variable : string) : outcome Z :=
  let! s := required_string env variable in parse_unsigned s.

Definition required_bool (env : environment) (variable : string) : outcome bool :=
  let! i := required_int env variable in Ret (negb (i =? 0)).

Definition getenv_string (env : environment) (variable : string) (def : text) : text :=
  match try_getenv_string env variable with None => def | Some value => value end.

(** [limit] is std::numeric_limits<T>::max(): read wide, cap into T, then floor. *)
Definition getenv_positive (env : environment) (limit : Z) (variable : string) (def minimum : Z) :
    outcome Z :=
  let! configured := getenv_ulong env variable def in
  Ret (Z.max (Z.min configured limit) minimum).

(** ** What a parsed number is *)

(** [spells s v]: [s] is white space, an optional plus sign and the decimal digits of [v]. *)
Definition spells (s : text) (v : Z) : Prop :=
  ∃ spaces sign ds,
    s = spaces ++ sign ++ ds ∧ forallb is_space spaces = true ∧ (sign = [] ∨ sign = ["+"%char]) ∧
    ds ≠ [] ∧ forallb is_digit ds = true ∧ digits_value 0 ds = v ∧ is_size v.

Lemma take_while_split p t :
  ∃ k, t = take_while p t ++ k ∧ forallb p (take_while p t) = true.
Proof.
  induction t as [|c t (k & Hk & ?)]; [by exists []|]. simpl.
  destruct (p c) eqn:E; [|by exists (c :: t)]. exists k. simpl. rewrite E. split; [by f_equal|done].
Qed.

Lemma stoul_whole s v n : stoul s = Ret (v, n) → n = length s →
  (∀ c t, drop_while is_space s = c :: t → code c ≠ 45) → spells s v.
Proof.
  intros H Hn Hneg. destruct (drop_while_split is_space s) as (k & Hs & Hk).
  unfold stoul in H. set (rest := drop_while is_space s) in *.
  assert (Hbody : ∃ sign body,
    match rest with
    | c :: body => if code c =? 45 then (true, 1%nat, body)
                   else if code c =? 43 then (false, 1%nat, body) else (false, 0%nat, rest)
    | [] => (false, 0%nat, [])
    end = (false, length sign, body) ∧ rest = sign ++ body ∧ (sign = [] ∨ sign = ["+"%char])).
  { destruct rest as [|c body] eqn:E; [exists [], []; auto|].
    rewrite (proj2 (Z.eqb_neq _ _)) by eauto.
    destruct (Z.eqb_spec (code c) 43) as [Ec|]; [|exists [], (c :: body); auto].
    exists [c], body. split_and!; auto. right. f_equal.
    rewrite <- (ascii_N_embedding c). unfold code in Ec. by replace (N_of_ascii c) with 43%N by lia. }
  destruct Hbody as (sign & body & E & Hrest & Hsign). rewrite E in H.
  destruct (take_while_split is_digit body) as (tail & Hb & Hd).
  destruct (take_while is_digit body) as [|d ds] eqn:Et; [done|].
  rewrite Z.geb_leb in H. case_bool_in H; [done|]. injection H as Hv Hlen.
  assert (Hl : length s = (length k + length sign + length (d :: ds) + length tail)%nat)
    by (rewrite Hs, Hrest, Hb, !length_app; lia).
  assert (Hr : (length s - length rest)%nat = length k)
    by (rewrite Hs at 1; rewrite length_app; lia).
  assert (tail = []) as ->.
  { apply nil_length_inv. simpl in *. lia. }
  rewrite app_nil_r in Hb. exists k, sign, (d :: ds). subst body.
  rewrite Hrest in Hs. rewrite <- Hv. repeat apply conj; auto.
  by apply (digits_value_nonneg (d :: ds) 0).
Qed.

(** Behind white space and an optional plus, std::stoul reads the digits alone. *)
Lemma stoul_spaces spaces sign ds : forallb is_space spaces = true → sign = [] ∨ sign = ["+"%char] →
  forallb is_digit ds = true → ds ≠ [] → digits_value 0 ds < size_modulus →
  stoul (spaces ++ sign ++ ds) = Ret (digits_value 0 ds, length (spaces ++ sign ++ ds)).
Proof.
  intros Hs Hg Hd Hn Hv. destruct ds as [|c t]; [done|].
  assert (Hc : is_digit c = true) by (simpl in Hd; by apply andb_true_iff in Hd as [? ?]).
  assert (Hm : (code c =? 45) = false ∧ (code c =? 43) = false).
  { unfold is_digit in Hc. rewrite andb_true_iff, !Z.leb_le in Hc. rewrite !Z.eqb_neq. lia. }
  unfold stoul. rewrite drop_while_app by done.
  destruct Hg as [-> | ->]; simpl app.
  - rewrite (drop_while_head is_space) by (by apply digit_not_space).
    destruct Hm as [-> ->]. rewrite take_while_full by done.
    rewrite Z.geb_leb, (proj2 (Z.leb_gt _ _)) by done.
    do 2 f_equal. rewrite length_app. simpl. lia.
  - rewrite (drop_while_head is_space) by done.
    change (code "+" =? 45) with false. change (code "+" =? 43) with true. cbv iota.
    rewrite take_while_full by done.
    rewrite Z.geb_leb, (proj2 (Z.leb_gt _ _)) by done.
    do 2 f_equal. rewrite length_app. simpl. lia.
Qed.

(** A number read from the environment is exactly the decimal number written there:
    parse_unsigned returns [v] for the texts that are white space, an optional plus and the digits of
    a 64 bit [v], and for no other.  A minus sign, trailing garbage and overflow throw. *)
Theorem parse_unsigned_spec s v : parse_unsigned s = Ret v ↔ spells s v.
Proof.
  split.
  - intros H. unfold parse_unsigned in H. invert_ret H. destruct r0 as [value idx].
    invert_ret H. apply ASSERT_Ret_inv, bool_decide_eq_true in Hr1. injection H as ->.
    eapply stoul_whole; [done|done|]. intros c t Hc Hm. rewrite Hc in Hr.
    by rewrite Hm, Z.eqb_refl in Hr.
  - intros (spaces & sign & ds & -> & Hs & Hg & Hn & Hd & <- & Hv).
    unfold parse_unsigned. rewrite stoul_spaces by (auto; mlia).
    rewrite drop_while_app by done. destruct ds as [|c t]; [done|].
    assert (Hc : is_digit c = true) by (simpl in Hd; by apply andb_true_iff in Hd as [? ?]).
    assert (Hm : (code c =? 45) = false).
    { unfold is_digit in Hc. rewrite andb_true_iff, !Z.leb_le in Hc. rewrite Z.eqb_neq. lia. }
    destruct Hg as [-> | ->]; simpl app.
    + rewrite (drop_while_head is_space), Hm by (by apply digit_not_space).
      simpl. by rewrite ASSERT_true by (by apply bool_decide_eq_true).
    + rewrite (drop_while_head is_space) by done.
      change (code "+" =? 45) with false. simpl. by rewrite ASSERT_true by (by apply bool_decide_eq_true).
Qed.

(** A number printed in decimal is read back. *)
Lemma parse_unsigned_print n : is_size n → parse_unsigned (print_Z n) = Ret n.
Proof.
  intros Hn. destruct (print_Z_spec n Hn) as (Hd & Hne & Hv).
  unfold parse_unsigned. rewrite stoul_print by done.
  destruct (print_Z n) as [|c t] eqn:E; [done|].
  assert (Hc : is_digit c = true) by (simpl in Hd; by apply andb_true_iff in Hd as [??]).
  rewrite drop_while_head by (by apply digit_not_space).
  rewrite (proj2 (Z.eqb_neq _ _)).
  - simpl. by rewrite ASSERT_true by (by apply bool_decide_eq_true).
  - unfold is_digit in Hc. rewrite andb_true_iff, !Z.leb_le in Hc. lia.
Qed.

(** A count read with getenv_positive lies between its floor and the largest value of its type,
    so narrowing it cannot produce the zero the source divides by. *)
Theorem getenv_positive_bounds env limit variable def minimum v :
  minimum <= limit → getenv_positive env limit variable def minimum = Ret v → minimum <= v <= limit.
Proof. intros Hm H. unfold getenv_positive in H. invert_ret H. injection H as <-. lia. Qed.

Lemma getenv_positive_bounds_witness :
  getenv_positive {["N" := txt "4294967296"]} 4294967295 "N" 1 1 = Ret 4294967295 ∧
  1 <= 4294967295 <= 4294967295.
Proof.
  split; [vm_compute; reflexivity|].
  apply (getenv_positive_bounds {["N" := txt "4294967296"]} 4294967295 "N" 1 1 4294967295);
    [lia | vm_compute; reflexivity].
Defined.
