(* ===== verification/Strategy.v ===== *)
(** How the filesystem is read (posix_io/strategy): the strategies, their names, and the preference list that
    RUNAI_STREAMER_FS_STRATEGY spells. *)

From S2P Require Import Prelude ResponseCode Text.

Inductive Strategy := IoUringDirect | IoUringBuffered | LibaioDirect | SyncBuffered.

#[export] Instance Strategy_eq_dec : EqDecision Strategy.
Proof. solve_decision. Defined.

(** The table, in the order of the enumerators, which is the order of its keys. *)
Definition names : list (Strategy * text) :=
  [(IoUringDirect, txt "io_uring_direct"); (IoUringBuffered, txt "io_uring_buffered");
   (LibaioDirect, txt "libaio_direct"); (SyncBuffered, txt "sync_buffered")].

Definition is_async (s : Strategy) : bool := negb (bool_decide (s = SyncBuffered)).
Definition is_direct (s : Strategy) : bool := bool_decide (s = IoUringDirect) || bool_decide (s = LibaioDirect).

Definition name (s : Strategy) : text :=
  match list_find (λ x, x.1 = s) names with None => txt "unknown" | Some (_, x) => x.2 end.

Definition strategy_from_name (t : text) : option Strategy :=
  match list_find (λ x, t = x.2) names with None => None | Some (_, x) => Some x.1 end.

(** One turn of the loop: the strategy a token names, which the list must not have yet. *)
Definition read_candidate (token : text) (candidates : list Strategy) : outcome (list Strategy) :=
  let token := trimmed token in
  if bool_decide (token = []) then Throw (Code InvalidParameterError)
  else
    match strategy_from_name token with
    | None => Throw (Code InvalidParameterError)
    | Some s => if bool_decide (s ∈ candidates) then Throw (Code InvalidParameterError) else Ret (candidates ++ [s])
    end.

Fixpoint read_candidates (tokens : list text) (candidates : list Strategy) : outcome (list Strategy) :=
  match tokens with
  | [] => Ret candidates
  | token :: tokens => let! candidates := read_candidate token candidates in read_candidates tokens candidates
  end.

Definition parse_candidates (value : text) : outcome (list Strategy) :=
  let! candidates := read_candidates (split_on ","%char value) [] in
  if bool_decide (candidates = []) then Throw (Code InvalidParameterError) else Ret candidates.

(** ** What a list spells *)

(** A token is a name with blanks around it. *)
Definition names_strategy (token : text) (s : Strategy) : Prop :=
  ∃ a b, token = a ++ name s ++ b ∧ forallb is_blank a = true ∧ forallb is_blank b = true.

Definition spells_list (value : text) (l : list Strategy) : Prop :=
  ∃ tokens, value = join [","%char] tokens ∧ Forall2 names_strategy tokens l.

Lemma strategy_from_name_spec t s : strategy_from_name t = Some s ↔ t = name s.
Proof.
  split; [|intros ->; by destruct s]. unfold strategy_from_name.
  destruct (list_find _ names) as [[i x]|] eqn:E; [|done]. intros [= <-].
  apply list_find_Some in E as (Hx & -> & _). repeat (destruct i as [|i]; [by injection Hx as <-|]). done.
Qed.

Lemma name_plain s : name s ≠ [] ∧ forallb (λ c, negb (is_blank c)) (name s) = true ∧ ","%char ∉ name s.
Proof. split_and!; [by destruct s | by destruct s |]. apply (bool_decide_unpack _). by destruct s. Qed.

Lemma read_candidate_spec token l l' :
  read_candidate token l = Ret l' ↔ (∃ s, trimmed token = name s ∧ (s ∉ l) ∧ l' = (l ++ [s])).
Proof.
  unfold read_candidate. split.
  - case_bool_decide as Ht; [done|]. destruct (strategy_from_name _) as [s|] eqn:E; [|done].
    apply strategy_from_name_spec in E. case_bool_decide; [done|]. intros [= <-]. by exists s.
  - intros (s & -> & Hs & ->). rewrite bool_decide_false by apply name_plain.
    rewrite (proj2 (strategy_from_name_spec _ s)) by done. by rewrite bool_decide_false.
Qed.

Lemma read_candidate_throws token l e : read_candidate token l = Throw e → e = Code InvalidParameterError.
Proof. unfold read_candidate. repeat case_match; congruence. Qed.

Lemma read_candidates_spec tokens : ∀ l l', NoDup l →
  read_candidates tokens l = Ret l' ↔
  ∃ k, l' = l ++ k ∧ NoDup l' ∧ Forall2 (λ token s, trimmed token = name s) tokens k.
Proof.
  induction tokens as [|token tokens IH]; intros l l' Hl; simpl.
  - split; [intros [= <-]; exists []; by rewrite app_nil_r|]. intros (k & -> & _ & Hk).
    inversion Hk; subst. by rewrite app_nil_r.
  - split.
    + intros H. invert_ret H. apply read_candidate_spec in Hr as (s & Hs & Hn & ->).
      apply IH in H as (k & -> & Hd & Hk); [|by apply NoDup_snoc].
      exists (s :: k). rewrite <- app_assoc in *. by split_and!; [| |constructor].
    + intros (k & -> & Hd & Hk). inversion Hk as [|? s ? k' Hs Hk' E1 E2]; subst.
      assert (Hn : s ∉ l) by (apply NoDup_app in Hd as (_ & Hd & _); intros Hin; apply (Hd s Hin); left).
      rewrite (proj2 (read_candidate_spec token l (l ++ [s]))) by eauto. simpl. apply IH.
      * by apply NoDup_snoc.
      * exists k'. rewrite <- app_assoc. auto.
Qed.

Lemma read_candidates_throws tokens : ∀ l e, read_candidates tokens l = Throw e → e = Code InvalidParameterError.
Proof.
  induction tokens as [|token tokens IH]; intros l e; simpl; [done|].
  destruct (read_candidate token l) as [l'|e'] eqn:E; simpl; [apply IH|].
  intros [= <-]. by eapply read_candidate_throws.
Qed.

Lemma names_strategy_trimmed token s : names_strategy token s ↔ trimmed token = name s.
Proof.
  split.
  - intros (a & b & -> & Ha & Hb). rewrite trimmed_pad by done. apply trimmed_id, name_plain.
  - unfold names_strategy. intros <-. apply trimmed_split.
Qed.

Lemma names_strategy_no_comma token s : names_strategy token s → ","%char ∉ token.
Proof.
  intros (a & b & -> & Ha & Hb).
  assert (Hblank : ∀ t, forallb is_blank t = true → ","%char ∉ t).
  { intros t Ht Hin. rewrite forallb_forall in Ht. apply list_elem_of_In, Ht in Hin. done. }
  rewrite !elem_of_app. pose proof (name_plain s) as (_ & _ & ?). by intros [?%Hblank|[?|?%Hblank]].
Qed.

Lemma parse_candidates_throws value e : parse_candidates value = Throw e → e = Code InvalidParameterError.
Proof.
  unfold parse_candidates. destruct (read_candidates _ []) as [l|e'] eqn:E; simpl.
  - case_bool_decide; congruence.
  - apply read_candidates_throws in E as ->. congruence.
Qed.

(** The preference list is what the text spells: parse_candidates returns [l] exactly for the texts that
    write the names of [l], blanks around them allowed, with commas between, and only when [l] is not empty
    and names no strategy twice; any other text throws InvalidParameterError. *)
Theorem parse_candidates_spec value l :
  (parse_candidates value = Ret l ↔ l ≠ [] ∧ NoDup l ∧ spells_list value l) ∧
  (∀ e, parse_candidates value = Throw e → e = Code InvalidParameterError).
Proof.
  split.
  - unfold parse_candidates. split.
    + intros H. invert_ret H. apply read_candidates_spec in Hr as (k & -> & Hd & Hk); [|constructor].
      simpl in *. case_bool_decide; [done|]. injection H as <-. split_and!; [done|done|].
      exists (split_on ","%char value). split; [by rewrite join_split_on|].
      eapply Forall2_impl; [exact Hk|]. intros token s. apply names_strategy_trimmed.
    + intros (Hl & Hd & tokens & -> & Hk). rewrite split_on_join.
      * rewrite (proj2 (read_candidates_spec tokens [] l (NoDup_nil_2))); simpl; [by rewrite bool_decide_false|].
        exists l. split_and!; [done|done|]. eapply Forall2_impl; [exact Hk|].
        intros token s. apply names_strategy_trimmed.
      * intros ->. by inversion Hk; subst.
      * clear -Hk. induction Hk; constructor; [by eapply names_strategy_no_comma|done].
  - apply parse_candidates_throws.
Qed.

Lemma parse_candidates_Ret value l : parse_candidates value = Ret l → l ≠ [] ∧ NoDup l.
Proof.
  unfold parse_candidates. intros H. invert_ret H. apply read_candidates_spec in Hr as (k & -> & Hd & _); [|constructor].
  case_bool_decide; [done|]. by injection H as <-.
Qed.
