(* ===== verification/StrategyResolver.v ===== *)
(** Which strategy a streamer uses (streamer/impl/strategy_resolver): set at most once, settled by the first
    request that finds a candidate the host can serve.

    The methods run under one mutex, so what the threads of a program do is a sequence of calls.  Whether a
    strategy can be served is asked of the probes at each walk: an argument of the call. *)

From S2P Require Import Prelude ResponseCode Text Strategy.

Record Resolver := mkResolver {
  sr_candidates : option text; sr_resolved_from : option text; sr_resolved : option Strategy }.

Definition new_resolver : Resolver := mkResolver None None None.

(** The first candidate that can be served. *)
Fixpoint first_served (availability : Strategy → ResponseCode) (l : list Strategy) : option Strategy :=
  match l with
  | [] => None
  | s :: l => if decide (availability s = Success) then Some s else first_served availability l
  end.

Definition set_candidates (candidates : text) (r : Resolver) : ResponseCode * Resolver :=
  match parse_candidates candidates with
  | Throw _ => (InvalidParameterError, r)
  | Ret _ =>
      match sr_resolved_from r with
      | Some from => (if decide (from = candidates) then Success else FsStrategyConflict, r)
      | None =>
          if match sr_candidates r with Some set => negb (bool_decide (set = candidates)) | None => false end
          then (FsStrategyConflict, r)
          else (Success, mkResolver (Some candidates) (sr_resolved_from r) (sr_resolved r))
      end
  end.

Section Resolver.
Context (default_candidates : text).

Definition resolve (availability : Strategy → ResponseCode) (r : Resolver) : ResponseCode * Resolver :=
  match sr_resolved r with
  | Some _ => (Success, r)
  | None =>
      let candidates := match sr_candidates r with Some c => c | None => default_candidates end in
      match parse_candidates candidates with
      | Throw _ => (InvalidParameterError, r)
      | Ret l =>
          match first_served availability l with
          | Some s => (Success, mkResolver (sr_candidates r) (Some candidates) (Some s))
          | None => (FsStrategyUnavailable, mkResolver (sr_candidates r) (Some candidates) (sr_resolved r))
          end
      end
  end.

Definition resolved (r : Resolver) : outcome Strategy :=
  match sr_resolved r with Some s => Ret s | None => Throw AssertFailed end.

Definition is_resolved (r : Resolver) : bool := bool_decide (is_Some (sr_resolved r)).

Definition resolved_from (r : Resolver) : text := match sr_resolved_from r with Some f => f | None => [] end.

(** ** The life of a resolver *)

Inductive Call := Set_ (candidates : text) | Resolve (availability : Strategy → ResponseCode).

Definition call (c : Call) (r : Resolver) : ResponseCode * Resolver :=
  match c with Set_ candidates => set_candidates candidates r | Resolve availability => resolve availability r end.

(** The calls made so far with their answers, oldest first. *)
Inductive calls : list (Call * ResponseCode) → Resolver → Prop :=
| no_calls : calls [] new_resolver
| one_call l r c code r' : calls l r → call c r = (code, r') → calls (l ++ [(c, code)]) r'.

Lemma first_served_spec availability l s : first_served availability l = Some s ↔
  ∃ l1 l2, l = l1 ++ s :: l2 ∧ availability s = Success ∧ Forall (λ s, availability s ≠ Success) l1.
Proof.
  induction l as [|x l IH]; simpl.
  - split; [done|]. by intros ([] & l2 & ? & _).
  - destruct (decide (availability x = Success)) as [Hx|Hx].
    + split; [intros [= <-]; by exists [], l|]. intros ([|y l1] & l2 & [= -> ->] & _ & Hl); [done|].
      by inversion Hl.
    + rewrite IH. split.
      * intros (l1 & l2 & -> & ? & ?). exists (x :: l1), l2. auto.
      * intros ([|y l1] & l2 & [= -> ->] & Hs & Hl); [done|]. inversion Hl. by exists l1, l2.
Qed.

(** What is settled: the list walked is the one set, or the default when none was; the strategy is the first of
    it that could be served when it was walked. *)
Record settled (l : list (Call * ResponseCode)) (r : Resolver) : Prop := {
  st_from from : sr_resolved_from r = Some from →
    from = match sr_candidates r with Some c => c | None => default_candidates end;
  st_resolved s : sr_resolved r = Some s → ∃ from list availability,
    sr_resolved_from r = Some from ∧ parse_candidates from = Ret list ∧
    (Resolve availability, Success) ∈ l ∧ first_served availability list = Some s;
  st_set c : (Set_ c, Success) ∈ l → sr_candidates r = Some c ∨ sr_resolved_from r = Some c;
  st_answered availability : (Resolve availability, Success) ∈ l → is_Some (sr_resolved r) }.

Lemma snoc_other {A} (x y : A) l : x ∈ l ++ [y] → x ≠ y → x ∈ l.
Proof. by intros [?|?%list_elem_of_singleton]%elem_of_app. Qed.

Lemma elem_of_app_l {A} (x : A) l k : x ∈ l → x ∈ l ++ k.
Proof. intros. apply elem_of_app. by left. Qed.

(** A call that changes nothing, when what it answers is borne out. *)
Lemma settled_kept l r c code : settled l r →
  (code = Success → match c with
                    | Set_ cs => sr_candidates r = Some cs ∨ sr_resolved_from r = Some cs
                    | Resolve _ => is_Some (sr_resolved r)
                    end) → settled (l ++ [(c, code)]) r.
Proof.
  intros [Hf Hr Hs Ha] Hc. constructor; [done| | |].
  - intros s (from & list & av & ? & ? & ? & ?)%Hr. exists from, list, av. auto using elem_of_app_l.
  - intros cs [?|[= <- <-]%list_elem_of_singleton]%elem_of_app; auto.
  - intros av [?|[= <- <-]%list_elem_of_singleton]%elem_of_app; eauto.
Qed.

Lemma settled_call l r c code r' : settled l r → call c r = (code, r') → settled (l ++ [(c, code)]) r'.
Proof.
  intros Hst E. destruct c as [cs|av]; simpl in E.
  - unfold set_candidates in E. destruct (parse_candidates cs) as [ls|e].
    2: { injection E as <- <-. by apply settled_kept. }
    destruct (sr_resolved_from r) as [from|] eqn:Er.
    { injection E as <- <-. apply settled_kept; [done|]. case_decide; [|done]. subst. auto. }
    destruct (match sr_candidates r with Some _ => _ | None => false end) eqn:Ec; injection E as <- <-.
    { by apply settled_kept. }
    destruct Hst as [Hf Hr Hs Ha].
    assert (Hn : sr_resolved r = None) by (destruct (sr_resolved r); [|done];
      destruct (Hr _ eq_refl) as (? & ? & ? & ? & _); congruence).
    constructor; simpl; rewrite ?Er, ?Hn; try done.
    + intros c [Hc|Hc%list_elem_of_singleton]%elem_of_app; [|by injection Hc as ->; left].
      destruct (Hs c Hc) as [Hc'|Hc']; [|congruence]. rewrite Hc' in Ec.
      apply negb_false_iff, bool_decide_eq_true in Ec. subst. by left.
    + intros av Hav. rewrite <- Hn. eapply Ha. by eapply snoc_other.
  - unfold resolve in E. destruct (sr_resolved r) as [s0|] eqn:Ers.
    { injection E as <- <-. apply settled_kept; [done|]. by rewrite Ers. }
    destruct (parse_candidates _) as [ls|e] eqn:Ep.
    2: { injection E as <- <-. by apply settled_kept. }
    destruct Hst as [Hf Hr Hs Ha].
    assert (Hset : ∀ c, (Set_ c, Success) ∈ l → sr_candidates r = Some c ∨
              Some (match sr_candidates r with Some c => c | None => default_candidates end) = Some c).
    { intros c Hc. destruct (Hs c Hc) as [?|Hc']; [by left|]. right. by rewrite <- (Hf c Hc'). }
    destruct (first_served av ls) as [s|] eqn:Efs; injection E as <- <-; constructor; simpl; try done.
    + intros from [= <-]. done.
    + intros s' [= <-]. eexists _, ls, av. split_and!; [done|done|apply elem_of_app; right; left|done].
    + intros c Hc. apply Hset. by eapply snoc_other.
    + intros from [= <-]. done.
    + intros c Hc. apply Hset. by eapply snoc_other.
    + intros av' Hav. destruct (Ha av') as [? ?]; [by eapply snoc_other|congruence].
Qed.

Lemma calls_settled l r : calls l r → settled l r.
Proof.
  induction 1 as [|l r c code r' _ IH E]; [|by eapply settled_call].
  constructor; try done; by intros ? ?%not_elem_of_nil.
Qed.

(** One answer for the streamer's whole life.  Whatever sequence of calls a streamer's threads make: a
    setting that was accepted is the list every strategy is taken from, from the environment or not, and two
    accepted settings are the same; once a resolution succeeded the strategy is fixed, is the first of that
    list that could be served when it was walked, and resolving again answers Success without asking. *)
Theorem strategy_is_settled_once l r : calls l r →
  (∀ c c', (Set_ c, Success) ∈ l → (Set_ c', Success) ∈ l → c = c') ∧
  (∀ c, (Set_ c, Success) ∈ l → sr_resolved_from r = None ∨ sr_resolved_from r = Some c) ∧
  (∀ availability, (Resolve availability, Success) ∈ l → ∃ s list walk,
     resolved r = Ret s ∧ parse_candidates (resolved_from r) = Ret list ∧ (Resolve walk, Success) ∈ l ∧
     first_served walk list = Some s ∧
     ∀ c code r', call c r = (code, r') → resolved r' = Ret s ∧ resolved_from r' = resolved_from r ∧
       (match c with Resolve _ => code = Success | Set_ c => code = Success → c = resolved_from r end)).
Proof.
  intros H. destruct (calls_settled l r H) as [Hf Hr Hs Ha].
  assert (Hone : ∀ c, (Set_ c, Success) ∈ l → sr_resolved_from r = None ∨ sr_resolved_from r = Some c).
  { intros c Hc. destruct (sr_resolved_from r) as [from|] eqn:Er; [|by left]. right.
    destruct (Hs c Hc) as [E|E]; [|done]. by rewrite (Hf from), E. }
  split_and!; [|done|].
  - intros c c' Hc Hc'. destruct (Hs c Hc) as [E|E], (Hs c' Hc') as [E'|E']; try congruence.
    + destruct (Hone c Hc); congruence.
    + destruct (Hone c' Hc'); congruence.
  - intros av Hav. destruct (Ha av Hav) as [s Es]. destruct (Hr s Es) as (from & list & walk & Ef & Ep & Hw & Hfs).
    exists s, list, walk. unfold resolved, resolved_from. rewrite Es, Ef. split_and!; try done.
    intros [cs|av'] code r'; simpl.
    + unfold set_candidates. rewrite Ef. destruct (parse_candidates cs); [|intros [= <- <-]; by rewrite Es, Ef].
      case_decide; intros [= <- <-]; rewrite Es, Ef; by subst.
    + unfold resolve. rewrite Es. intros [= <- <-]. by rewrite Es, Ef.
Qed.
End Resolver.

Definition some_list : text := txt "io_uring_direct, sync_buffered".

(** A setting before the first request is what it resolves from; one after is refused. *)
Lemma strategy_is_settled_once_witness :
  let only_sync (s : Strategy) := if decide (s = SyncBuffered) then Success else FileAccessError in
  let l := [(Set_ some_list, Success); (Resolve only_sync, Success); (Set_ (txt "sync_buffered"), FsStrategyConflict)] in
  ∃ r, calls (txt "libaio_direct") l r ∧ resolved r = Ret SyncBuffered ∧ sr_resolved_from r = Some some_list ∧
  (sr_resolved_from r = None ∨ sr_resolved_from r = Some some_list).
Proof.
  intros only_sync l. exists (mkResolver (Some some_list) (Some some_list) (Some SyncBuffered)).
  assert (H : calls (txt "libaio_direct") l (mkResolver (Some some_list) (Some some_list) (Some SyncBuffered))).
  { apply (one_call _ (firstn 2 l) (mkResolver (Some some_list) (Some some_list) (Some SyncBuffered))
             (Set_ (txt "sync_buffered")) FsStrategyConflict); [|vm_compute; reflexivity].
    apply (one_call _ (firstn 1 l) (mkResolver (Some some_list) None None) (Resolve only_sync) Success);
      [|vm_compute; reflexivity].
    apply (one_call _ [] new_resolver (Set_ some_list) Success); [constructor|vm_compute; reflexivity]. }
  split; [exact H|]. split; [reflexivity|]. split; [reflexivity|].
  apply (strategy_is_settled_once _ _ _ H). left.
Defined.
