(* ===== verification/FsQueueDepth.v ===== *)
(** The queue depth of the file system (streamer/impl/config/fs_queue_depth): a default and entries by file
    system type, as RUNAI_STREAMER_FS_QUEUE_DEPTH spells them. *)

From S2P Require Import Prelude ResponseCode Text.

Record DepthEntry := mkDepthEntry { de_type : text; de_value : Z }.
Record FsQueueDepth := mkFsQueueDepth { qd_default : Z; qd_entries : list DepthEntry }.

Definition of_value (value : Z) : FsQueueDepth := mkFsQueueDepth value [].

(** Of what std::stoul throws only out_of_range is caught; digits alone cannot make it throw another. *)
Definition positive_count (t : text) : outcome Z :=
  if bool_decide (t = []) || negb (forallb is_digit t) then Throw (Code InvalidParameterError)
  else
    match stoul t with
    | Throw _ => Throw (Code InvalidParameterError)
    | Ret (value, _) =>
        if (value =? 0) || (value >? unsigned_modulus - 1) then Throw (Code InvalidParameterError) else Ret value
    end.

(** The first element: no key before the default. *)
Definition read_default (element : text) : outcome Z :=
  let element := trimmed element in
  match find_char "="%char element with
  | Some _ => Throw (Code InvalidParameterError)
  | None => positive_count element
  end.

(** An element after the first; [entries] holds the types seen. *)
Definition read_depth_entry (element : text) (entries : list DepthEntry) : outcome (list DepthEntry) :=
  match find_char "="%char (trimmed element) with
  | None => Throw (Code InvalidParameterError)
  | Some (before, after) =>
      let type := lowered (trimmed before) in
      if bool_decide (type = []) then Throw (Code InvalidParameterError)
      else if bool_decide (type ∈ map de_type entries) then Throw (Code InvalidParameterError)
      else let! value := positive_count (trimmed after) in Ret (entries ++ [mkDepthEntry type value])
  end.

Fixpoint read_depth_entries (elements : list text) (entries : list DepthEntry) : outcome (list DepthEntry) :=
  match elements with
  | [] => Ret entries
  | element :: elements => let! entries := read_depth_entry element entries in read_depth_entries elements entries
  end.

Definition parse_depth (value : text) : outcome FsQueueDepth :=
  let whole := trimmed value in
  if bool_decide (whole = []) then Throw (Code InvalidParameterError)
  else
    match split_on ","%char whole with
    | [] => Throw AssertFailed
    | first :: rest =>
        let! default := read_default first in
        let! entries := read_depth_entries rest [] in
        Ret (mkFsQueueDepth default entries)
    end.

Fixpoint starts_with (prefix t : text) : bool :=
  match prefix, t with
  | [], _ => true
  | _, [] => false
  | c :: prefix, x :: t => if decide (c = x) then starts_with prefix t else false
  end.

Fixpoint first_match (type : text) (entries : list DepthEntry) (default : Z) : Z :=
  match entries with
  | [] => default
  | e :: entries => if starts_with (de_type e) type then de_value e else first_match type entries default
  end.

Definition for_type (fs_type : text) (d : FsQueueDepth) : Z := first_match (lowered fs_type) (qd_entries d) (qd_default d).

(** operator<< *)
Definition print_depth (d : FsQueueDepth) : text :=
  print_Z (qd_default d) ++ concat (map (λ e, txt ", " ++ de_type e ++ txt "=" ++ print_Z (de_value e)) (qd_entries d)).

(** ** Prefixes *)

Lemma starts_with_spec prefix t : starts_with prefix t = true ↔ ∃ rest, t = prefix ++ rest.
Proof.
  revert t. induction prefix as [|c prefix IH]; intros t; simpl; [split; [by eexists|done]|].
  destruct t as [|x t]; [split; [done|]; by intros [rest ?]|]. case_decide as E.
  - subst x. rewrite IH. split; intros [rest H]; exists rest; congruence.
  - split; [done|]. intros [rest H]. congruence.
Qed.

(** ** Numbers *)

Definition is_count (v : Z) : Prop := 1 <= v < unsigned_modulus.

(** Decimal digits, leading zeros allowed. *)
Definition spells_count (t : text) (v : Z) : Prop :=
  t ≠ [] ∧ forallb is_digit t = true ∧ digits_value 0 t = v ∧ is_count v.

Lemma positive_count_spec t v : positive_count t = Ret v ↔ spells_count t v.
Proof.
  unfold positive_count, spells_count, is_count. case_bool_decide as Hn; [by split; [|intros [? _]]|]. simpl.
  destruct (forallb is_digit t) eqn:Hd; simpl; [|split; [done|by intros (_ & ? & _)]].
  pose proof (digits_value_nonneg t 0 Hd ltac:(lia)) as H0.
  destruct (decide (digits_value 0 t < size_modulus)) as [Hs|Hs].
  - rewrite stoul_digits, Z.gtb_ltb by done. destruct (Z.eqb_spec (digits_value 0 t) 0); simpl.
    { split; [done|]. intros (_ & _ & <- & ?). lia. }
    destruct (Z.ltb_spec (unsigned_modulus - 1) (digits_value 0 t)); simpl.
    + split; [done|]. intros (_ & _ & <- & ?). lia.
    + split; [intros [= <-]|by intros (_ & _ & <- & _)]. split_and!; [done|done|done|lia|lia].
  - split; [|intros (_ & _ & <- & ?); mlia]. destruct (stoul t) as [[w n]|] eqn:E; [|done].
    unfold stoul in E. destruct t as [|c t]; [done|].
    assert (Hc : is_digit c = true) by (simpl in Hd; by apply andb_true_iff in Hd as [? ?]).
    rewrite (drop_while_head is_space) in E by (by apply digit_not_space).
    assert ((code c =? 45) = false ∧ (code c =? 43) = false) as [E1 E2].
    { unfold is_digit in Hc. rewrite andb_true_iff, !Z.leb_le in Hc. rewrite !Z.eqb_neq. lia. }
    rewrite E1, E2, take_while_full, Z.geb_leb, (proj2 (Z.leb_le _ _)) in E by (done || lia). done.
Qed.

Lemma positive_count_throws t e : positive_count t = Throw e → e = Code InvalidParameterError.
Proof. unfold positive_count. repeat case_match; congruence. Qed.

(** ** Blanks do not matter *)

Lemma blank_not c t : is_blank c = false → forallb is_blank t = true → c ∉ t.
Proof. intros Hc Ht Hin. rewrite forallb_forall in Ht. apply list_elem_of_In, Ht in Hin. congruence. Qed.

Lemma trimmed_twice t : trimmed (trimmed t) = trimmed t.
Proof.
  destruct (trimmed_split t) as (a & b & Ht & Ha & Hb). rewrite <- (trimmed_pad a (trimmed t) b) by done. by rewrite <- Ht.
Qed.

Lemma trimmed_pad_left a t : forallb is_blank a = true → trimmed (a ++ t) = trimmed t.
Proof. intros Ha. rewrite <- (app_nil_r t) at 1. by apply trimmed_pad. Qed.

Lemma trimmed_pad_right t b : forallb is_blank b = true → trimmed (t ++ b) = trimmed t.
Proof. intros Hb. by apply (trimmed_pad []). Qed.

Lemma split_on_prefix c a t : c ∉ a →
  split_on c (a ++ t) = match split_on c t with e :: es => (a ++ e) :: es | [] => [] end.
Proof.
  induction a as [|x a IH]; intros Ha; simpl; [by case_match|]. apply not_elem_of_cons in Ha as [Hx Ha].
  rewrite decide_False, IH by congruence. destruct (split_on c t) eqn:E; [by apply split_on_nonempty in E|done].
Qed.

Lemma split_on_suffix c t b : c ∉ b → ∃ es e, split_on c t = es ++ [e] ∧ split_on c (t ++ b) = es ++ [e ++ b].
Proof.
  intros Hb. induction t as [|x t (es & e & E1 & E2)]; simpl.
  - exists [], []. by rewrite split_on_single.
  - rewrite E1, E2. destruct (decide (x = c)); [by exists ([] :: es), e|].
    destruct es as [|e0 es]; [by exists [], (x :: e)|by exists ((x :: e0) :: es), e].
Qed.

(** The elements of the trimmed text are those of the text, blanks apart. *)
Lemma split_on_trimmed c t : is_blank c = false → map trimmed (split_on c (trimmed t)) = map trimmed (split_on c t).
Proof.
  intros Hc. destruct (trimmed_split t) as (a & b & Ht & Ha & Hb). rewrite Ht at 2.
  rewrite split_on_prefix by by apply blank_not.
  destruct (split_on_suffix c (trimmed t) b) as (es & e & E1 & E2); [by apply blank_not|]. rewrite E1, E2.
  destruct es as [|e0 es]; simpl; [by rewrite trimmed_pad_left, trimmed_pad_right|].
  rewrite trimmed_pad_left, !map_app by done. cbn [map]. by rewrite trimmed_pad_right.
Qed.

Lemma find_char_split c (t : text) : (c ∉ t) ∨ ∃ k v, t = k ++ c :: v ∧ c ∉ k.
Proof.
  destruct (find_char c t) as [[k v]|] eqn:E; [right; exists k, v; by apply find_char_Some|]. left.
  intros Hin. apply list_elem_of_split_l in Hin as (k & v & -> & Hk).
  by rewrite (proj2 (find_char_Some c (k ++ c :: v) k v)) in E.
Qed.

Lemma find_char_None c (t : text) : find_char c t = None ↔ (c ∉ t).
Proof.
  split.
  - intros E. destruct (find_char_split c t) as [?|(k & v & -> & Hk)]; [done|].
    by rewrite (proj2 (find_char_Some c (k ++ c :: v) k v)) in E.
  - intros Hn. destruct (find_char c t) as [[k v]|] eqn:E; [|done]. apply find_char_Some in E as [-> _].
    exfalso. apply Hn, elem_of_app. right. left.
Qed.

(** A key is cut from its value at the same place, blanks apart. *)
Lemma find_char_trimmed c t : is_blank c = false →
  match find_char c t, find_char c (trimmed t) with
  | Some (k, v), Some (k', v') => trimmed k' = trimmed k ∧ trimmed v' = trimmed v
  | None, None => True
  | _, _ => False
  end.
Proof.
  intros Hc. destruct (trimmed_split t) as (a & b & Ht & Ha & Hb).
  destruct (find_char_split c (trimmed t)) as [Hn|(k & v & Hk & Hn)].
  - rewrite (proj2 (find_char_None c (trimmed t))), (proj2 (find_char_None c t)); [done| |done].
    rewrite Ht, !elem_of_app. pose proof (blank_not c a Hc Ha). pose proof (blank_not c b Hc Hb). tauto.
  - rewrite (proj2 (find_char_Some c (trimmed t) k v)) by done.
    rewrite (proj2 (find_char_Some c t (a ++ k) (v ++ b))).
    + by rewrite trimmed_pad_left, trimmed_pad_right.
    + split; [by rewrite Ht, Hk, <- !app_assoc|]. rewrite elem_of_app. pose proof (blank_not c a Hc Ha). tauto.
Qed.

(** ** What a depth spells *)

Definition spells_entry (element : text) (e : DepthEntry) : Prop :=
  ∃ k v, element = k ++ "="%char :: v ∧ ("="%char ∉ k) ∧ lowered (trimmed k) = de_type e ∧ de_type e ≠ [] ∧
         spells_count (trimmed v) (de_value e).

Lemma read_depth_entry_spec element l l' : read_depth_entry element l = Ret l' ↔
  ∃ e, spells_entry element e ∧ (de_type e ∉ map de_type l) ∧ l' = l ++ [e].
Proof.
  unfold read_depth_entry, spells_entry. pose proof (find_char_trimmed "="%char element eq_refl) as Hf.
  destruct (find_char_split "="%char element) as [Hn|(k & v & E & Hn)].
  - rewrite (proj2 (find_char_None _ _) Hn) in Hf. destruct (find_char _ (trimmed element)); [done|]. split; [done|].
    intros (e & (k & v & -> & _) & _). destruct Hn. apply elem_of_app. right. left.
  - rewrite (proj2 (find_char_Some _ element k v)) in Hf by done.
    destruct (find_char _ (trimmed element)) as [[k' v']|]; [|done]. destruct Hf as [-> ->]. split.
    + intros H. case_bool_decide as H1; [done|]. case_bool_decide as H2; [done|]. invert_ret H.
      apply positive_count_spec in Hr. injection H as <-. refine (ex_intro _ _ (conj _ (conj _ eq_refl))); [|done].
      exists k, v. cbn. by split_and!.
    + intros ([type value] & (k0 & v0 & -> & Hk0 & Ht & Hne & Hv) & Hin & ->). simpl in *.
      assert (Some (k, v) = Some (k0, v0)) as [= -> ->].
      { by rewrite <- (proj2 (find_char_Some "="%char _ k v) (conj E Hn)),
          <- (proj2 (find_char_Some "="%char _ k0 v0) (conj eq_refl Hk0)). }
      rewrite Ht, !bool_decide_false by done. by rewrite (proj2 (positive_count_spec _ _) Hv).
Qed.

Lemma read_depth_entry_throws element l e : read_depth_entry element l = Throw e → e = Code InvalidParameterError.
Proof.
  unfold read_depth_entry. repeat case_match; try congruence.
  destruct (positive_count _) eqn:E; simpl; [done|]. intros [= <-]. by eapply positive_count_throws.
Qed.

Lemma read_depth_entries_spec elements : ∀ l l', NoDup (map de_type l) →
  read_depth_entries elements l = Ret l' ↔
  ∃ k, l' = l ++ k ∧ NoDup (map de_type l') ∧ Forall2 spells_entry elements k.
Proof.
  induction elements as [|element elements IH]; intros l l' Hl; simpl.
  - split; [intros [= <-]; exists []; by rewrite app_nil_r|]. intros (k & -> & _ & Hk).
    inversion Hk; subst. by rewrite app_nil_r.
  - split.
    + intros H. invert_ret H. apply read_depth_entry_spec in Hr as (e & He & Hn & ->).
      apply IH in H as (k & -> & Hd & Hk); [|rewrite map_app; by apply NoDup_snoc].
      exists (e :: k). rewrite <- app_assoc in *. by split_and!; [| |constructor].
    + intros (k & -> & Hd & Hk). inversion Hk as [|? e ? k' He Hk' E1 E2]; subst.
      assert (Hn : de_type e ∉ map de_type l).
      { rewrite map_app in Hd. apply NoDup_app in Hd as (_ & Hd & _). intros Hin. apply (Hd _ Hin). left. }
      rewrite (proj2 (read_depth_entry_spec element l (l ++ [e]))) by eauto. simpl. apply IH.
      * rewrite map_app. by apply NoDup_snoc.
      * exists k'. rewrite <- app_assoc. auto.
Qed.

Lemma read_depth_entries_throws elements : ∀ l e, read_depth_entries elements l = Throw e → e = Code InvalidParameterError.
Proof.
  induction elements as [|element elements IH]; intros l e; simpl; [done|].
  destruct (read_depth_entry element l) as [l'|e'] eqn:E; simpl; [apply IH|].
  intros [= <-]. by eapply read_depth_entry_throws.
Qed.

(** Only the trimmed elements are looked at. *)
Lemma read_depth_entries_trimmed l : ∀ l' entries, map trimmed l = map trimmed l' →
  read_depth_entries l entries = read_depth_entries l' entries.
Proof.
  induction l as [|x l IH]; intros [|x' l'] entries; try done. intros [= Hx Hl]. simpl.
  assert (read_depth_entry x entries = read_depth_entry x' entries) as -> by (unfold read_depth_entry; by rewrite Hx).
  destruct (read_depth_entry x' entries); simpl; auto.
Qed.

Lemma parse_depth_split value : parse_depth value =
  match split_on ","%char value with
  | [] => Throw AssertFailed
  | first :: rest =>
      let! default := read_default first in
      let! entries := read_depth_entries rest [] in
      Ret (mkFsQueueDepth default entries)
  end.
Proof.
  unfold parse_depth. pose proof (split_on_trimmed ","%char value eq_refl) as Hs.
  destruct (split_on ","%char value) as [|f r] eqn:E; [by apply split_on_nonempty in E|].
  case_bool_decide as Hw.
  - rewrite Hw in Hs. simpl in Hs. injection Hs as Hf _. unfold read_default. rewrite <- Hf. done.
  - destruct (split_on ","%char (trimmed value)) as [|f' r']; [done|]. injection Hs as Hf Hr.
    assert (read_default f = read_default f') as -> by (unfold read_default; by rewrite Hf).
    destruct (read_default f'); simpl; [|done]. by erewrite read_depth_entries_trimmed.
Qed.

Definition spells_depth (value : text) (d : FsQueueDepth) : Prop :=
  ∃ first rest, value = join [","%char] (first :: rest) ∧ spells_count (trimmed first) (qd_default d) ∧
                Forall (λ e, ","%char ∉ e) rest ∧ Forall2 spells_entry rest (qd_entries d).

Lemma digits_no c t : is_digit c = false → forallb is_digit t = true → c ∉ t.
Proof. intros Hc Ht Hin. rewrite forallb_forall in Ht. apply list_elem_of_In, Ht in Hin. congruence. Qed.

Lemma read_default_spec element v : read_default element = Ret v ↔ spells_count (trimmed element) v.
Proof.
  unfold read_default. destruct (find_char _ _) as [[k w]|] eqn:E; [|apply positive_count_spec].
  split; [done|]. intros (_ & Hd & _). apply find_char_Some in E as [E _].
  exfalso. apply (digits_no "="%char _ eq_refl Hd). rewrite E. apply elem_of_app. right. left.
Qed.

Lemma trimmed_no c t : is_blank c = false → c ∉ trimmed t → c ∉ t.
Proof.
  intros Hc Hn. destruct (trimmed_split t) as (a & b & -> & Ha & Hb). rewrite !elem_of_app.
  pose proof (blank_not c a Hc Ha). pose proof (blank_not c b Hc Hb). tauto.
Qed.

(** A queue depth is what the text spells: parse_depth returns [d] exactly for the texts that write, between
    commas and with blanks anywhere around them, the digits of a positive 32 bit default and then
    type=value elements with the types of [d] in any case, each value a positive 32 bit number, no type empty
    and none twice.  Any other text throws InvalidParameterError. *)
Theorem parse_depth_spec value d :
  (parse_depth value = Ret d ↔ NoDup (map de_type (qd_entries d)) ∧ spells_depth value d) ∧
  (∀ e, parse_depth value = Throw e → e = Code InvalidParameterError).
Proof.
  rewrite parse_depth_split. split.
  - split.
    + pose proof (join_split_on ","%char value) as Hj. pose proof (split_on_without ","%char value) as Hw.
      destruct (split_on ","%char value) as [|f r]; [done|]. intros H.
      invert_ret H. invert_ret H. apply read_default_spec in Hr. injection H as <-.
      apply read_depth_entries_spec in Hr0 as (k & -> & Hd & Hk); [|constructor]. split; [done|].
      inversion Hw; subst. by exists f, r.
    + intros (Hd & f & r & -> & Hf & Hr & Hk). rewrite split_on_join; [|done|constructor; [|done]].
      * rewrite (proj2 (read_default_spec f _) Hf). simpl.
        rewrite (proj2 (read_depth_entries_spec r [] (qd_entries d) (NoDup_nil_2))) by eauto. by destruct d.
      * apply trimmed_no; [done|]. apply (digits_no ","%char _ eq_refl). apply Hf.
  - intros e. destruct (split_on ","%char value) as [|f r] eqn:E; [by apply split_on_nonempty in E|].
    destruct (read_default f) as [v|e'] eqn:Ef; simpl.
    + destruct (read_depth_entries r []) eqn:Er; simpl; [done|]. intros [= <-]. by eapply read_depth_entries_throws.
    + intros [= <-]. revert Ef. unfold read_default. case_match; [congruence|]. apply positive_count_throws.
Qed.

(** ** What a parsed depth is *)

Record depth_ok (d : FsQueueDepth) : Prop := {
  dk_default : is_count (qd_default d);
  dk_entries : Forall (λ e, de_type e ≠ [] ∧ is_count (de_value e)) (qd_entries d);
  dk_distinct : NoDup (map de_type (qd_entries d)) }.

Lemma parse_depth_ok value d : parse_depth value = Ret d → depth_ok d.
Proof.
  intros [Hd (f & r & _ & Hf & _ & Hk)]%parse_depth_spec. split; [apply Hf| |done].
  clear -Hk. induction Hk as [|e x l k (? & ? & _ & _ & _ & ? & Hx) Hk IH]; constructor; [|done].
  split; [done|]. apply Hx.
Qed.

Lemma of_value_ok v : is_count v → depth_ok (of_value v).
Proof. intros. split; [done|constructor|constructor]. Qed.

Lemma for_type_count d fs_type : depth_ok d → is_count (for_type fs_type d).
Proof.
  intros [Hd He _]. unfold for_type. induction He as [|e l [_ He] Hl IH]; simpl; [done|]. by case_match.
Qed.

(** The entry that applies is the first that begins the type, and its value is used. *)
Lemma for_type_first d fs_type i e : qd_entries d !! i = Some e →
  (∃ rest, lowered fs_type = de_type e ++ rest) →
  (∀ j e', (j < i)%nat → qd_entries d !! j = Some e' → ∀ rest, lowered fs_type ≠ de_type e' ++ rest) →
  for_type fs_type d = de_value e.
Proof.
  unfold for_type. destruct d as [def l]. simpl. revert i. induction l as [|x l IH]; intros i Hi He Hlow; [done|]. simpl.
  destruct i as [|i]; simpl in Hi.
  - injection Hi as ->. by rewrite (proj2 (starts_with_spec _ _)).
  - destruct (starts_with (de_type x) (lowered fs_type)) eqn:E.
    + apply starts_with_spec in E as [rest E]. by destruct (Hlow 0%nat x ltac:(lia) eq_refl rest).
    + apply (IH i); [done|done|]. intros j e' Hj. apply (Hlow (S j)). lia.
Qed.

Lemma for_type_default d fs_type :
  (∀ e, e ∈ qd_entries d → ∀ rest, lowered fs_type ≠ de_type e ++ rest) → for_type fs_type d = qd_default d.
Proof.
  unfold for_type. destruct d as [def l]. simpl. induction l as [|x l IH]; intros Hn; [done|]. simpl.
  destruct (starts_with (de_type x) (lowered fs_type)) eqn:E.
  - apply starts_with_spec in E as [rest E]. by destruct (Hn x (list_elem_of_here _ _) rest).
  - apply IH. intros e He. apply Hn. by right.
Qed.

(** ** What is printed is read back *)

Record plain_type (t : text) : Prop := {
  pt_some : t ≠ [];
  pt_trimmed : trimmed t = t;
  pt_lowered : lowered t = t;
  pt_separators : (","%char ∉ t) ∧ ("="%char ∉ t) }.

Definition print_entry (e : DepthEntry) : text := " "%char :: de_type e ++ "="%char :: print_Z (de_value e).

Lemma print_depth_join d : print_depth d = join [","%char] (print_Z (qd_default d) :: map print_entry (qd_entries d)).
Proof.
  unfold print_depth. destruct d as [v l]. cbn [qd_default qd_entries]. generalize (print_Z v) as t.
  induction l as [|e l IH]; intros t; [cbn; apply app_nil_r|].
  change (join [","%char] (t :: map print_entry (e :: l))) with (t ++ ","%char :: join [","%char] (map print_entry (e :: l))).
  cbn [map]. rewrite <- (IH (print_entry e)). cbn [map concat]. unfold print_entry.
  change (txt ", ") with [","%char; " "%char]. change (txt "=") with ["="%char]. cbn [app].
  by rewrite <- !app_assoc.
Qed.

Lemma digits_no_blank t : forallb is_digit t = true → forallb (λ c, negb (is_blank c)) t = true.
Proof.
  intros Ht. rewrite forallb_forall in *. intros c Hc. apply Ht in Hc. unfold is_digit, is_blank in *.
  rewrite andb_true_iff, !Z.leb_le in Hc. rewrite negb_true_iff, orb_false_iff, !Z.eqb_neq. lia.
Qed.

Lemma print_Z_count v : is_count v → spells_count (trimmed (print_Z v)) v ∧ (","%char ∉ print_Z v).
Proof.
  intros Hv. destruct (print_Z_spec v) as (Hd & Hn & E); [unfold is_count in Hv; mlia|].
  rewrite trimmed_id by by apply digits_no_blank. split; [done|]. by apply digits_no.
Qed.

(** What operator<< writes of a depth, parse reads back, for the types mountinfo can give. *)
Theorem print_parse_depth d : depth_ok d → Forall (λ e, plain_type (de_type e)) (qd_entries d) →
  parse_depth (print_depth d) = Ret d.
Proof.
  intros [Hd He Hn] Hp. apply parse_depth_spec. split; [done|]. rewrite print_depth_join.
  exists (print_Z (qd_default d)), (map print_entry (qd_entries d)). split; [done|]. split; [by apply print_Z_count|].
  clear Hn Hd. induction (qd_entries d) as [|e l IH]; [by split|].
  rewrite !Forall_cons in *. destruct He as [[Hne Hc] He], Hp as [[Ht1 Ht2 Ht3 [Ht4 Ht5]] Hp], (IH He Hp) as [IH1 IH2].
  destruct (print_Z_count _ Hc) as [Hs Hcomma]. cbn [map]. split; constructor; try done.
  - unfold print_entry. rewrite not_elem_of_cons, not_elem_of_app, not_elem_of_cons. by split_and!.
  - exists (" "%char :: de_type e), (print_Z (de_value e)). split_and!; [done| | |done|done].
    + by apply not_elem_of_cons.
    + change (" "%char :: de_type e) with ([" "%char] ++ de_type e). rewrite trimmed_pad_left by done. by rewrite Ht2.
Qed.

(** The example of the header. *)
Example parse_depth_example : parse_depth (txt " 512, NFS=64,virtiofs = 256") =
  Ret (mkFsQueueDepth 512 [mkDepthEntry (txt "nfs") 64; mkDepthEntry (txt "virtiofs") 256]).
Proof. vm_compute. done. Qed.

Lemma print_parse_depth_witness :
  let d := mkFsQueueDepth 512 [mkDepthEntry (txt "nfs") 64; mkDepthEntry (txt "virtiofs") 256] in
  print_depth d = txt "512, nfs=64, virtiofs=256" ∧ parse_depth (print_depth d) = Ret d.
Proof.
  split; [reflexivity|]. apply (print_parse_depth (mkFsQueueDepth 512 [mkDepthEntry (txt "nfs") 64; mkDepthEntry (txt "virtiofs") 256])).
  - split; cbn; [done|repeat constructor; done|]. apply (bool_decide_unpack _). vm_compute. exact I.
  - repeat constructor; try done; apply (bool_decide_unpack _); vm_compute; exact I.
Defined.
