(* ===== verification/MountInfo.v ===== *)
(** Device numbers and /proc/self/mountinfo (posix_io/mount_capabilities): which file system each device holds.

    The text of the file is an argument, [None] when it cannot be opened; the code reads it once and keeps the
    map.  std::getline, operator>> and std::stoul are as the standard library has them, makedev and its inverses
    as glibc. *)

From S2P Require Import Prelude ResponseCode Text.

(** ** Device numbers *)

Definition makedev (M m : Z) : Z :=
  Z.lor (Z.lor (Z.shiftl (Z.land M 4095) 8) (Z.shiftl (Z.land M 4294963200) 32))
        (Z.lor (Z.land m 255) (Z.shiftl (Z.land m 4294967040) 12)).

Definition dev_major (d : Z) : Z := Z.lor (Z.land (Z.shiftr d 8) 4095) (Z.land (Z.shiftr d 32) 4294963200).
Definition dev_minor (d : Z) : Z := Z.lor (Z.land d 255) (Z.land (Z.shiftr d 12) 4294967040).

(** ** Lines and fields *)

Definition newline : ascii := "010"%char.

(** What a loop over std::getline is given: an empty piece after the last newline is not a line. *)
Definition lines (t : text) : list text :=
  let l := split_on newline t in if bool_decide (last l = Some []) then removelast l else l.

(** What a loop over operator>> is given; [word] is the current one, backwards. *)
Fixpoint words_from (word t : text) : list text :=
  match t with
  | [] => if decide (word = []) then [] else [reverse word]
  | c :: t =>
      if is_space c then (if decide (word = []) then words_from [] t else reverse word :: words_from [] t)
      else words_from (c :: word) t
  end.

Definition words (t : text) : list text := words_from [] t.

(** The fields before the separator and those after it. *)
Fixpoint split_fields (fields : list text) : option (list text * list text) :=
  match fields with
  | [] => None
  | field :: fields =>
      if decide (field = txt "-") then Some ([], fields)
      else match split_fields fields with None => None | Some (before, after) => Some (field :: before, after) end
  end.

(** The entry a line makes, if it makes one. *)
Definition read_line (line : text) : option (Z * text) :=
  match split_fields (words line) with
  | Some (before, type :: _) =>
      match before !! 2%nat with
      | None => None
      | Some device =>
          match find_char ":"%char device with
          | None => None
          | Some (major_text, minor_text) =>
              match stoul major_text, stoul minor_text with
              | Ret (M, _), Ret (m, _) => Some (makedev (wrap32 M) (wrap32 m), type)
              | _, _ => None
              end
          end
      end
  | _ => None
  end.

(** std::map::try_emplace *)
Definition try_emplace {A} (k : Z) (x : A) (m : gmap Z A) : gmap Z A :=
  match m !! k with Some _ => m | None => <[k := x]> m end.

Fixpoint read_lines (l : list text) (types : gmap Z text) : gmap Z text :=
  match l with
  | [] => types
  | line :: l =>
      read_lines l (match read_line line with Some (d, type) => try_emplace d type types | None => types end)
  end.

Definition fs_types_by_device (mountinfo : option text) : gmap Z text :=
  match mountinfo with None => ∅ | Some t => read_lines (lines t) ∅ end.

(** ** Device numbers give their parts back *)

(** A number below 2^k has no bit from the [k]-th on. *)
Lemma testbit_small b k n : 0 <= b < 2 ^ k → k <= n → Z.testbit b n = false.
Proof.
  intros Hb Hn. destruct (decide (0 <= k)); [|rewrite Z.pow_neg_r in Hb; lia].
  rewrite <- (Z.mod_small b (2 ^ k)) by done. apply Z.mod_pow2_bits_high. lia.
Qed.

(** Two numbers that do not overlap are joined by adding them. *)
Lemma lor_low a k b : 0 <= k → 0 <= b < 2 ^ k → Z.lor (a * 2 ^ k) b = a * 2 ^ k + b.
Proof.
  intros Hk Hb. rewrite <- Z.shiftl_mul_pow2 by done. symmetry. apply Z.add_nocarry_lor.
  apply Z.bits_inj'. intros n Hn. rewrite Z.land_spec, Z.testbit_0_l.
  destruct (decide (n < k)); [by rewrite Z.shiftl_spec_low|].
  by rewrite (testbit_small b k n), andb_false_r by lia.
Qed.

(** The bits from the [k]-th to the last of an unsigned. *)
Lemma land_high x k : 0 <= k <= 32 → Z.land x (unsigned_modulus - 2 ^ k) = wrap32 x / 2 ^ k * 2 ^ k.
Proof.
  intros Hk. assert (E : unsigned_modulus - 2 ^ k = Z.shiftl (Z.ones (32 - k)) k).
  { rewrite Z.shiftl_mul_pow2, Z.ones_equiv by lia. change unsigned_modulus with (2 ^ 32).
    replace (2 ^ 32) with (2 ^ (32 - k) * 2 ^ k) by (rewrite <- Z.pow_add_r by lia; f_equal; lia). lia. }
  unfold wrap32. rewrite E. change unsigned_modulus with (2 ^ 32).
  rewrite <- Z.shiftr_div_pow2, <- Z.shiftl_mul_pow2 by lia. apply Z.bits_inj'. intros n Hn.
  rewrite Z.land_spec. destruct (decide (n < k)).
  - by rewrite !Z.shiftl_spec_low, andb_false_r by lia.
  - rewrite !Z.shiftl_spec_high, Z.shiftr_spec by lia. replace (n - k + k) with n by lia.
    destruct (decide (n < 32)).
    + by rewrite Z.ones_spec_low, andb_true_r, Z.mod_pow2_bits_low by lia.
    + by rewrite Z.ones_spec_high, andb_false_r, Z.mod_pow2_bits_high by lia.
Qed.

Lemma makedev_sum M m : is_unsigned M → is_unsigned m →
  makedev M m = M / 4096 * 2 ^ 44 + m / 256 * 2 ^ 20 + M mod 4096 * 2 ^ 8 + m mod 256.
Proof.
  intros HM Hm. unfold makedev. change 4095 with (Z.ones 12). change 255 with (Z.ones 8).
  change 4294963200 with (unsigned_modulus - 2 ^ 12). change 4294967040 with (unsigned_modulus - 2 ^ 8).
  rewrite !Z.land_ones, !land_high, !Z.shiftl_mul_pow2 by lia. rewrite !wrap32_small by done.
  change (2 ^ 12) with 4096. change (2 ^ 8) with 256.
  replace (M / 4096 * 4096 * 2 ^ 32) with (M / 4096 * 2 ^ 44) by lia.
  replace (m / 256 * 256 * 4096) with (m / 256 * 2 ^ 20) by lia.
  assert (0 <= M mod 4096 < 4096 ∧ 0 <= m mod 256 < 256) as [? ?] by (split; apply Z.mod_pos_bound; lia).
  assert (0 <= m / 256 < 2 ^ 24) by (munfold; Z.div_mod_to_equations; lia).
  rewrite (Z.lor_comm (M mod 4096 * 256)), (Z.lor_comm (m mod 256)), <- Z.lor_assoc, (Z.lor_assoc (M mod 4096 * 256)),
    (Z.lor_comm (M mod 4096 * 256)), <- Z.lor_assoc.
  change (M mod 4096 * 256) with (M mod 4096 * 2 ^ 8).
  rewrite (lor_low (M mod _) 8), (lor_low (m / 256) 20), (lor_low (M / 4096) 44) by lia. lia.
Qed.

(** A device number gives its two parts back. *)
Lemma makedev_parts M m : is_unsigned M → is_unsigned m → dev_major (makedev M m) = M ∧ dev_minor (makedev M m) = m.
Proof.
  intros HM Hm. rewrite makedev_sum by done. set (d := _ + m mod 256). unfold dev_major, dev_minor.
  change 4095 with (Z.ones 12). change 255 with (Z.ones 8).
  change 4294963200 with (unsigned_modulus - 2 ^ 12). change 4294967040 with (unsigned_modulus - 2 ^ 8).
  rewrite !land_high, !Z.land_ones, !Z.shiftr_div_pow2 by lia. unfold wrap32.
  change (2 ^ 12) with 4096. change (2 ^ 8) with 256. change (2 ^ 32) with 4294967296.
  assert (Hd : d / 256 mod 4096 = M mod 4096 ∧ d / 4294967296 mod unsigned_modulus / 4096 = M / 4096 ∧
    d mod 256 = m mod 256 ∧ d / 4096 mod unsigned_modulus / 256 = m / 256).
  { subst d. munfold. split_and!; Z.div_mod_to_equations; lia. }
  destruct Hd as (-> & -> & -> & ->). rewrite (Z.lor_comm (M mod _)), (Z.lor_comm (m mod _)).
  rewrite (lor_low (M / 4096) 12), (lor_low (m / 256) 8) by (try lia; apply Z.mod_pos_bound; lia).
  split; symmetry; rewrite Z.add_comm; [rewrite Z.add_comm|]; Z.div_mod_to_equations; lia.
Qed.

Lemma makedev_inj M m M' m' : is_unsigned M → is_unsigned m → is_unsigned M' → is_unsigned m' →
  makedev M m = makedev M' m' → M = M' ∧ m = m'.
Proof.
  intros HM Hm HM' Hm' E. destruct (makedev_parts M m) as [E1 E2]; [done..|].
  destruct (makedev_parts M' m') as [E1' E2']; [done..|]. rewrite E in E1, E2. split; congruence.
Qed.

(** ** What the kernel writes is what is read *)

(** A field: not empty, and without white space. *)
Definition is_field (t : text) : Prop := t ≠ [] ∧ forallb (λ c, negb (is_space c)) t = true.

(** One mount, as /proc/self/mountinfo shows it: the fields before the device and after it, the optional ones
    among them, and what follows the type. *)
Record Mount := mkMount {
  mt_id : text; mt_parent : text; mt_major : Z; mt_minor : Z; mt_fields : list text; mt_type : text; mt_rest : list text }.

Definition print_mount (x : Mount) : text :=
  join [" "%char] ([mt_id x; mt_parent x; print_Z (mt_major x) ++ ":"%char :: print_Z (mt_minor x)] ++ mt_fields x ++
                   txt "-" :: mt_type x :: mt_rest x).

Definition print_mounts (l : list Mount) : text := concat (map (λ x, print_mount x ++ [newline]) l).

Record mount_ok (x : Mount) : Prop := {
  mo_fields : Forall is_field (mt_id x :: mt_parent x :: mt_type x :: mt_fields x ++ mt_rest x);
  mo_separator : mt_id x ≠ txt "-" ∧ mt_parent x ≠ txt "-" ∧ txt "-" ∉ mt_fields x;
  mo_device : is_unsigned (mt_major x) ∧ is_unsigned (mt_minor x) }.

Definition mount_dev (x : Mount) : Z := makedev (mt_major x) (mt_minor x).

Lemma words_from_field word e t : forallb (λ c, negb (is_space c)) e = true →
  words_from word (e ++ t) = words_from (reverse e ++ word) t.
Proof.
  revert word. induction e as [|c e IH]; intros word; simpl; [done|]. intros [Hc He]%andb_true_iff.
  apply negb_true_iff in Hc. rewrite Hc, IH by done. by rewrite reverse_cons, <- app_assoc.
Qed.

Lemma reverse_not_nil (e : text) : e ≠ [] → reverse e ≠ [].
Proof. intros Hne E%(f_equal length). rewrite length_reverse in E. by destruct e. Qed.

Lemma words_join l : Forall is_field l → words (join [" "%char] l) = l.
Proof.
  unfold words. induction 1 as [|e l [Hne He] Hl IH]; [done|]. destruct l as [|e' l].
  - simpl. rewrite <- (app_nil_r e) at 1. rewrite words_from_field by done. simpl.
    rewrite app_nil_r, decide_False, reverse_involutive; [done|]. by apply reverse_not_nil.
  - change (join [" "%char] (e :: e' :: l)) with (e ++ " "%char :: join [" "%char] (e' :: l)).
    rewrite words_from_field by done. simpl words_from. rewrite decide_False.
    + rewrite app_nil_r, reverse_involutive. by f_equal.
    + rewrite app_nil_r. by apply reverse_not_nil.
Qed.

Lemma split_fields_at before after : txt "-" ∉ before → split_fields (before ++ txt "-" :: after) = Some (before, after).
Proof.
  induction before as [|field before IH]; [done|]. intros [Hf Hb]%not_elem_of_cons. cbn [app split_fields].
  rewrite decide_False by (by intros ->). by rewrite IH.
Qed.

(** Digits are not white space, nor a colon. *)
Lemma digits_plain t : forallb is_digit t = true → forallb (λ c, negb (is_space c)) t = true ∧ (":"%char ∉ t).
Proof.
  induction t as [|c t IH]; simpl; [split; [done|apply not_elem_of_nil]|]. intros [Hc Ht]%andb_true_iff.
  destruct (IH Ht) as [-> Hn]. rewrite digit_not_space by done. split; [done|]. apply not_elem_of_cons. split; [|done].
  by intros <-.
Qed.

Lemma device_field M m : is_unsigned M → is_unsigned m →
  is_field (print_Z M ++ ":"%char :: print_Z m) ∧
  find_char ":"%char (print_Z M ++ ":"%char :: print_Z m) = Some (print_Z M, print_Z m) ∧
  print_Z M ++ ":"%char :: print_Z m ≠ txt "-".
Proof.
  intros HM Hm. destruct (print_Z_spec M) as (HdM & HnM & _); [mlia|]. destruct (print_Z_spec m) as (Hdm & Hnm & _); [mlia|].
  destruct (digits_plain _ HdM) as [HsM HcM], (digits_plain _ Hdm) as [Hsm _]. split_and!.
  - split; [by destruct (print_Z M)|]. rewrite forallb_app. simpl. by rewrite HsM, Hsm.
  - by apply find_char_Some.
  - intros E%(f_equal length). rewrite length_app in E. simpl in E.
    destruct (print_Z M); [done|]. simpl in E. lia.
Qed.

Lemma print_mount_fields x : mount_ok x → Forall is_field
  ([mt_id x; mt_parent x; print_Z (mt_major x) ++ ":"%char :: print_Z (mt_minor x)] ++ mt_fields x ++
   txt "-" :: mt_type x :: mt_rest x).
Proof.
  intros [Hf _ [HM Hm]]. rewrite !Forall_cons, Forall_app in Hf. destruct Hf as (? & ? & ? & ? & ?).
  destruct (device_field (mt_major x) (mt_minor x)) as (? & _); [done..|].
  rewrite !Forall_app, !Forall_cons. split_and!; done.
Qed.

Lemma read_print_mount x : mount_ok x → read_line (print_mount x) = Some (mount_dev x, mt_type x).
Proof.
  intros Hx. pose proof Hx as [_ (Hid & Hparent & Hsep) [HM Hm]]. unfold read_line, print_mount.
  rewrite words_join by by apply print_mount_fields.
  destruct (device_field (mt_major x) (mt_minor x)) as (_ & Hd & Hn); [done..|].
  set (device := print_Z (mt_major x) ++ _) in *.
  change ([mt_id x; mt_parent x; device] ++ mt_fields x ++ ?t) with ((mt_id x :: mt_parent x :: device :: mt_fields x) ++ t).
  rewrite split_fields_at by (rewrite !not_elem_of_cons; by split_and!).
  simpl. rewrite Hd, !stoul_print by mlia. unfold mount_dev. by rewrite !wrap32_small.
Qed.

Lemma field_no_newline l : Forall is_field l → newline ∉ join [" "%char] l.
Proof.
  assert (Hf : ∀ e, is_field e → newline ∉ e).
  { intros e [_ He] Hin. rewrite forallb_forall in He. apply list_elem_of_In, He in Hin. done. }
  induction 1 as [|e l He Hl IH]; [apply not_elem_of_nil|]. destruct l as [|e' l]; [by apply Hf|].
  change (join [" "%char] (e :: e' :: l)) with (e ++ " "%char :: join [" "%char] (e' :: l)).
  rewrite not_elem_of_app, not_elem_of_cons. auto.
Qed.

Lemma print_mounts_join l : print_mounts l = join [newline] (map print_mount l ++ [[]]).
Proof.
  induction l as [|x l IH]; [done|]. unfold print_mounts in *. simpl map. simpl concat. rewrite IH, <- app_assoc.
  by destruct (map print_mount l).
Qed.

Lemma lines_print_mounts l : Forall mount_ok l → lines (print_mounts l) = map print_mount l.
Proof.
  intros Hl. unfold lines. rewrite print_mounts_join, split_on_join.
  - rewrite last_snoc, bool_decide_true by done. apply removelast_last.
  - by destruct (map print_mount l).
  - apply Forall_app. split; [|constructor; [apply not_elem_of_nil|constructor]]. apply Forall_map.
    eapply Forall_impl; [exact Hl|]. intros x Hx. by apply field_no_newline, print_mount_fields.
Qed.

Lemma read_lines_spec l : Forall mount_ok l → ∀ types d,
  read_lines (map print_mount l) types !! d =
  match types !! d with
  | Some t => Some t
  | None => mt_type <$> (snd <$> list_find (λ x, mount_dev x = d) l)
  end.
Proof.
  induction 1 as [|x l Hx Hl IH]; intros types d; simpl; [by destruct (types !! d)|].
  rewrite IH, read_print_mount by done. unfold try_emplace.
  destruct (decide (mount_dev x = d)) as [<-|Hd].
  - destruct (types !! mount_dev x) eqn:E; by rewrite ?E, ?lookup_insert_eq.
  - assert ((match types !! mount_dev x with Some _ => types | None => <[mount_dev x:=mt_type x]> types end) !! d = types !! d)
      as -> by (destruct (types !! mount_dev x); by rewrite ?lookup_insert_ne).
    destruct (types !! d); [done|]. by destruct (list_find _ l) as [[i y]|].
Qed.

(** C35: The file system types are read back: for the text the kernel writes for any list of mounts, with any number
    of optional fields, the map gives for each device the type of the first mount of that device, and nothing
    for a device that is not mounted. *)
Theorem mountinfo_roundtrip l M m : Forall mount_ok l → is_unsigned M → is_unsigned m →
  fs_types_by_device (Some (print_mounts l)) !! makedev M m =
  mt_type <$> (snd <$> list_find (λ x, mt_major x = M ∧ mt_minor x = m) l).
Proof.
  intros Hl HM Hm. unfold fs_types_by_device. rewrite lines_print_mounts, read_lines_spec, lookup_empty by done. f_equal. f_equal.
  induction Hl as [|x l [_ _ [? ?]] Hl IH]; [done|]. simpl.
  destruct (decide (mount_dev x = makedev M m)) as [E|E].
  - apply makedev_inj in E as [-> ->]; [|done..]. by rewrite decide_True.
  - rewrite decide_False; [by rewrite IH|]. intros [<- <-]. by apply E.
Qed.

Definition root_mount : Mount := mkMount (txt "36") (txt "25") 252 1 [txt "/"; txt "/mnt"; txt "rw,relatime"; txt "shared:1"]
  (txt "ext4") [txt "/dev/sda1"; txt "rw"].
Definition nfs_mount : Mount := mkMount (txt "40") (txt "36") 0 55 [txt "/"; txt "/data"; txt "rw"] (txt "nfs4")
  [txt "server:/data"; txt "rw"].

Lemma mountinfo_roundtrip_witness :
  fs_types_by_device (Some (print_mounts [root_mount; nfs_mount])) !! makedev 0 55 = Some (txt "nfs4").
Proof.
  apply (mountinfo_roundtrip [root_mount; nfs_mount] 0 55); [|split; [discriminate|reflexivity]..].
  repeat constructor; try discriminate; try reflexivity; apply (bool_decide_unpack _); reflexivity.
Defined.
