(* ===== verification/Alignment.v ===== *)
(** Direct-read alignment arithmetic (posix_io/alignment, posix_io/io_engine).

    Block sizes, congruence of a file offset with an address, the expansion of a read to whole blocks,
    the rules for a configured block, and the kernel's read cap.  Lengths and offsets are [size_t]
    with wrap-around, addresses are plain integers. *)

From S2P Require Import Prelude ResponseCode Text Env.

Record Limits := mkLimits { max_read : Z; offset_alignment : Z; buffer_alignment : Z }.

Record Requested := mkRequested { req_offset : Z; req_bytesize : Z; req_buffer : Z }.

Definition DirectBlockSize : Z := 65536.
Definition MaxProbeBlock : Z := 65536.

Definition usable (block : Z) : Z := if block =? 0 then 1 else block.

Definition block_size (limits : Limits) : Z :=
  Z.max (Z.max (usable (offset_alignment limits)) (usable (buffer_alignment limits))) 1.

(** [address] is reinterpret_cast<uintptr_t>(buffer). *)
Definition is_congruent (file_offset address block : Z) : bool :=
  let step := usable block in
  address mod step =? file_offset mod step.

Record AlignedRead := mkAlignedRead { ar_offset : Z; ar_bytesize : Z; ar_buffer : Z; ar_head : Z }.

Definition expand (offset bytesize buffer block : Z) : AlignedRead :=
  let step := usable block in
  let out_offset := offset ⊖ (offset mod step) in
  let head := offset ⊖ out_offset in
  let wanted_end := head ⊕ bytesize in
  {| ar_offset := out_offset;
     ar_bytesize := wanted_end ⊕ ((step ⊖ (wanted_end mod step)) mod step);
     ar_buffer := buffer - head;
     ar_head := head |}.

(** The four verdicts of the diagnosis text, in the order it prints them. *)
Record Diagnosis := mkDiagnosis { offset_ok : bool; buffer_ok : bool; length_ok : bool; congruent : bool }.

Definition alignment_diagnosis (requested : Requested) (limits : Limits) : Diagnosis :=
  let address := req_buffer requested in
  let block := block_size limits in
  {| offset_ok := (offset_alignment limits =? 0) || (req_offset requested mod offset_alignment limits =? 0);
     length_ok := (offset_alignment limits =? 0) || (req_bytesize requested mod offset_alignment limits =? 0);
     buffer_ok := (buffer_alignment limits =? 0) || (address mod buffer_alignment limits =? 0);
     congruent := is_congruent (req_offset requested) address block |}.

(** ** The configured block *)

Definition usable_direct_block (configured : Z) : outcome Z :=
  let power_of_two := negb (configured =? 0) && (Z.land configured (configured ⊖ 1) =? 0) in
  if negb power_of_two || (configured <? 512) || (configured >? MaxProbeBlock)
  then Throw (Code InvalidParameterError)
  else Ret configured.

Definition configured_direct_block (env : environment) : outcome Z :=
  getenv_ulong env "RUNAI_STREAMER_DIRECT_BLOCK" DirectBlockSize.

(** Both are cached by the process on first use, so they are functions of the environment it started
    with. *)
Definition direct_block_override (env : environment) : outcome Z :=
  if negb (env_exists env "RUNAI_STREAMER_DIRECT_BLOCK") then Ret 0
  else let! c := configured_direct_block env in usable_direct_block c.

Definition direct_block_size (env : environment) : outcome Z :=
  let! c := configured_direct_block env in usable_direct_block c.

(** ** The kernel's cap on one read: INT_MAX rounded down to a page *)

Definition INT_MAX : Z := 2147483647.

Definition max_read_bytesize (page_size : Z) : Z := Z.land INT_MAX (Z.lnot (page_size ⊖ 1)).

(** ** Lemmas *)

Lemma usable_pos block : 0 <= block → 0 < usable block.
Proof. unfold usable. case_bool; lia. Qed.

Lemma usable_eq block : 0 < block → usable block = block.
Proof. unfold usable. case_bool; lia. Qed.

Lemma is_congruent_mod file_offset address block :
  is_congruent file_offset address block = true ↔ address mod usable block = file_offset mod usable block.
Proof. apply Z.eqb_eq. Qed.

(** A positive number is a power of two when its bits and its predecessor's are disjoint. *)
Lemma land_pred_power c : 0 < c → Z.land c (c - 1) = 0 ↔ ∃ k, 0 <= k ∧ c = 2 ^ k.
Proof.
  intros Hc. split.
  - intros H. exists (Z.log2 c). split; [apply Z.log2_nonneg|].
    destruct (Z.log2_spec c Hc) as [Hlo Hhi].
    destruct (decide (c = 2 ^ Z.log2 c)) as [|Hne]; [done|exfalso].
    assert (Hp : Z.log2 (c - 1) = Z.log2 c).
    { apply Z.log2_unique; [apply Z.log2_nonneg|]. lia. }
    assert (Hpos : 0 < c - 1).
    { assert (0 < 2 ^ Z.log2 c) by (apply Z.pow_pos_nonneg; [lia|apply Z.log2_nonneg]). lia. }
    assert (Hb : Z.testbit (Z.land c (c - 1)) (Z.log2 c) = true).
    { rewrite Z.land_spec, Z.bit_log2 by done. rewrite <- Hp. by rewrite Z.bit_log2. }
    by rewrite H, Z.testbit_0_l in Hb.
  - intros (k & Hk & ->).
    rewrite Z.land_comm.
    apply Z.bits_inj'. intros n Hn. rewrite Z.land_spec, Z.testbit_0_l.
    rewrite Z.pow2_bits_eqb by done. destruct (Z.eqb_spec k n) as [<-|]; [|by rewrite andb_false_r].
    rewrite Z.sub_1_r, <- Z.ones_equiv, Z.ones_spec_high by lia. done.
Qed.

(** ** Properties *)

(** Congruence is exactly the existence of a directly readable part: an offset and an address are
    congruent for a block if and only if some distance [k] moves both onto block boundaries. *)
Theorem is_congruent_iff_alignable file_offset address block :
  0 <= block →
  is_congruent file_offset address block = true ↔
  ∃ k, 0 <= k ∧ (file_offset + k) mod usable block = 0 ∧ (address + k) mod usable block = 0.
Proof.
  intros Hb. rewrite is_congruent_mod. pose proof (usable_pos _ Hb) as Hs.
  set (s := usable block) in *. split.
  - intros H. exists (s - file_offset mod s).
    pose proof (Z.mod_pos_bound file_offset s). split; [lia|].
    assert (Hz : ∀ a, (a + (s - a mod s)) mod s = 0).
    { intros a. replace (a + (s - a mod s)) with (a - a mod s + 1 * s) by lia.
      rewrite Z.mod_add by lia. by apply round_down_mod. }
    split; [apply Hz|]. rewrite <- H. apply Hz.
  - intros (k & ? & Hf & Ha).
    assert (Hsub : ∀ a, (a + k) mod s = 0 → a mod s = (- k) mod s).
    { intros a Hak. replace a with ((a + k) + - k) by lia.
      by rewrite <- Zplus_mod_idemp_l, Hak. }
    by rewrite (Hsub _ Hf), (Hsub _ Ha).
Qed.

(** The two remainders the code compares agree with the wrapped subtraction of the header's rule,
    (B - F) % block == 0, for every power-of-two block of 64 bits. *)
Theorem is_congruent_wrapped_difference file_offset address k :
  0 <= k < 64 →
  is_congruent file_offset address (2 ^ k) = true ↔ (address ⊖ file_offset) mod 2 ^ k = 0.
Proof.
  intros Hk. assert (Hp : 0 < 2 ^ k) by (apply Z.pow_pos_nonneg; lia).
  rewrite is_congruent_mod, usable_eq by done.
  unfold sub64, wrap64. rewrite Z.mod_mod_divide.
  - split.
    + intros H. rewrite Zminus_mod, H, Z.sub_diag. apply Z.mod_0_l. lia.
    + intros H. replace address with (address - file_offset + file_offset) by lia.
      by rewrite <- Zplus_mod_idemp_l, H.
  - exists (2 ^ (64 - k)). rewrite <- Z.pow_add_r by lia. by replace (64 - k + k) with 64 by lia.
Qed.

(** The expanded read is aligned, covers what was asked, wastes less than a block on each side,
    and puts every file byte where the request wanted it: for a congruent read, offset, length and
    address are block multiples, and the address moved by what the offset moved by. *)
Theorem expand_correct offset bytesize buffer block :
  0 < block → is_size offset → 0 <= bytesize →
  offset + bytesize + 2 * block < size_modulus →
  is_congruent offset buffer block = true →
  let r := expand offset bytesize buffer block in
  ar_offset r mod block = 0 ∧ ar_bytesize r mod block = 0 ∧ ar_buffer r mod block = 0 ∧
  ar_offset r <= offset ∧ offset + bytesize <= ar_offset r + ar_bytesize r ∧
  ar_head r = offset - ar_offset r ∧ ar_head r < block ∧
  ar_offset r + ar_bytesize r < offset + bytesize + block ∧
  ar_buffer r + ar_head r = buffer.
Proof.
  intros Hb Ho Hz Hmax Hc. apply is_congruent_mod in Hc. rewrite usable_eq in Hc by done.
  unfold expand. rewrite usable_eq by done. simpl.
  pose proof (Z.mod_pos_bound offset block Hb) as Hm.
  assert (offset mod block <= offset) by (apply Z.mod_le; mlia).
  unwrap. replace (offset - (offset - offset mod block)) with (offset mod block) by lia.
  unwrap. set (we := offset mod block + bytesize).
  pose proof (Z.mod_pos_bound we block Hb) as Hw.
  unwrap.
  pose proof (Z.mod_pos_bound (block - we mod block) block Hb) as Hp.
  assert (Hend : (we + (block - we mod block) mod block) mod block = 0).
  { rewrite Zplus_mod_idemp_r. replace (we + (block - we mod block)) with (we - we mod block + 1 * block) by lia.
    rewrite Z.mod_add by lia. by apply round_down_mod. }
  assert (Hbuf : (buffer - offset mod block) mod block = 0) by (rewrite <- Hc; by apply round_down_mod).
  unwrap. split_and!; [by apply round_down_mod|done|done|lia..].
Qed.

(** The configured block is accepted exactly when it is a power of two from 512 to 65536, and then
    it is used as it is; anything else throws InvalidParameterError. *)
Theorem usable_direct_block_spec configured :
  is_size configured →
  (∀ b, usable_direct_block configured = Ret b ↔
        b = configured ∧ ∃ k, 9 <= k <= 16 ∧ configured = 2 ^ k) ∧
  (∀ e, usable_direct_block configured = Throw e → e = Code InvalidParameterError).
Proof.
  intros Hc. split.
  - intros b. unfold usable_direct_block, MaxProbeBlock. rewrite Z.gtb_ltb.
    destruct (Z.eqb_spec configured 0) as [->|Hz]; simpl.
    + split; [done|]. intros (_ & k & Hk & Hp).
      assert (0 < 2 ^ k) by (apply Z.pow_pos_nonneg; lia). lia.
    + unwrap. pose proof (land_pred_power configured ltac:(mlia)) as Hl.
      destruct (Z.eqb_spec (Z.land configured (configured - 1)) 0) as [E|E]; simpl.
      * destruct (proj1 Hl E) as (k & Hk & Hp).
        assert (Hr : 9 <= k <= 16 ↔ 512 <= configured <= 65536).
        { rewrite Hp. change 512 with (2 ^ 9). change 65536 with (2 ^ 16).
          by rewrite <- !Z.pow_le_mono_r_iff by lia. }
        assert (Hu : ∀ j, 9 <= j <= 16 → configured = 2 ^ j → j = k).
        { intros j Hj Hpj. apply (Z.pow_inj_r 2); lia. }
        repeat case_bool; simpl.
        -- split; [done|]. intros (_ & j & Hj & Hpj). rewrite (Hu j) in Hj by done. lia.
        -- split; [done|]. intros (_ & j & Hj & Hpj). rewrite (Hu j) in Hj by done. lia.
        -- split; [done|]. intros (_ & j & Hj & Hpj). rewrite (Hu j) in Hj by done. lia.
        -- split; [|by intros [-> _]]. intros [= <-]. split; [done|]. exists k. split; [lia|done].
      * split; [done|]. intros (_ & k & Hk & Hp). exfalso. apply E, Hl. exists k. split; [lia|done].
  - intros e. unfold usable_direct_block. case_match; [|done]. by intros [= <-].
Qed.

Lemma pow2_divides_max a b : (∃ i, 0 <= i ∧ a = 2 ^ i) → (∃ j, 0 <= j ∧ b = 2 ^ j) → (a | Z.max a b).
Proof.
  intros (i & Hi & ->) (j & Hj & ->).
  destruct (Z.max_spec (2 ^ i) (2 ^ j)) as [[H ->]|[_ ->]]; [|done].
  apply Z.pow_lt_mono_r_iff in H; [|lia|lia].
  exists (2 ^ (j - i)). rewrite <- Z.pow_add_r by lia. by replace (j - i + i) with j by lia.
Qed.

Lemma divide_mod0 a b n : 0 < a → (a | b) → n mod b = 0 → n mod a = 0.
Proof. intros Ha Hd H. rewrite <- (Z.mod_mod_divide n b a) by done. rewrite H. by apply Z.mod_0_l; lia. Qed.

(** One block for all three checks is enough: a congruent read expanded to the block the code
    derives from the kernel's limits passes every rule of the diagnosis, whichever of the two
    power-of-two alignments is larger. *)
Theorem expand_passes_diagnosis limits offset bytesize buffer :
  (∃ i, 0 <= i <= 32 ∧ offset_alignment limits = 2 ^ i) →
  (∃ j, 0 <= j <= 32 ∧ buffer_alignment limits = 2 ^ j) →
  is_size offset → 0 <= bytesize → offset + bytesize < 2 ^ 63 →
  is_congruent offset buffer (block_size limits) = true →
  let r := expand offset bytesize buffer (block_size limits) in
  alignment_diagnosis (mkRequested (ar_offset r) (ar_bytesize r) (ar_buffer r)) limits =
  mkDiagnosis true true true true.
Proof.
  intros (i & Hi & Ei) (j & Hj & Ej) Ho Hz Hmax Hc r.
  assert (Hoa : 0 < offset_alignment limits) by (rewrite Ei; apply Z.pow_pos_nonneg; lia).
  assert (Hba : 0 < buffer_alignment limits) by (rewrite Ej; apply Z.pow_pos_nonneg; lia).
  assert (Hblk : block_size limits = Z.max (offset_alignment limits) (buffer_alignment limits))
    by (unfold block_size; rewrite !usable_eq by lia; lia).
  assert (Hle : ∀ k, 0 <= k <= 32 → 2 ^ k <= 2 ^ 32) by (intros; apply Z.pow_le_mono_r; lia).
  pose proof (Hle i Hi). pose proof (Hle j Hj).
  assert (Hd1 : (offset_alignment limits | block_size limits))
    by (rewrite Hblk; apply pow2_divides_max; [exists i|exists j]; split; (done || lia)).
  assert (Hd2 : (buffer_alignment limits | block_size limits))
    by (rewrite Hblk, Z.max_comm; apply pow2_divides_max; [exists j|exists i]; split; (done || lia)).
  destruct (expand_correct offset bytesize buffer (block_size limits)) as (H1 & H2 & H3 & _);
    [lia|done|done| |done|].
  { assert (2 * 2 ^ 32 <= 2 ^ 62) by (vm_compute; discriminate).
    assert (2 ^ 63 + 2 ^ 62 < size_modulus) by (vm_compute; reflexivity). lia. }
  fold r in H1, H2, H3. clearbody r. unfold alignment_diagnosis. simpl.
  f_equal; try (apply orb_true_iff; right; apply Z.eqb_eq; by eapply divide_mod0).
  apply is_congruent_mod. rewrite usable_eq by lia. by rewrite H1, H3.
Qed.

(** the read cap is the largest page multiple that does not exceed INT_MAX. *)
Theorem max_read_bytesize_spec k :
  0 <= k < 31 →
  max_read_bytesize (2 ^ k) mod 2 ^ k = 0 ∧
  max_read_bytesize (2 ^ k) <= INT_MAX < max_read_bytesize (2 ^ k) + 2 ^ k.
Proof.
  intros Hk. assert (Hp : 0 < 2 ^ k) by (apply Z.pow_pos_nonneg; lia).
  assert (2 ^ k < 2 ^ 31) by (apply Z.pow_lt_mono_r; lia).
  assert (E : max_read_bytesize (2 ^ k) = INT_MAX - INT_MAX mod 2 ^ k).
  { unfold max_read_bytesize. unwrap. rewrite Z.sub_1_r, <- Z.ones_equiv, <- Z.ldiff_land.
    rewrite Z.ldiff_ones_r, Z.shiftr_div_pow2, Z.shiftl_mul_pow2 by lia.
    pose proof (Z.div_mod INT_MAX (2 ^ k)). lia. }
  rewrite E. pose proof (Z.mod_pos_bound INT_MAX (2 ^ k) Hp).
  split; [by apply round_down_mod|lia].
Qed.

(** ** Witnesses *)

Lemma is_congruent_iff_alignable_witness :
  is_congruent 4608 512 4096 = true ∧
  ∃ k, 0 <= k ∧ (4608 + k) mod usable 4096 = 0 ∧ (512 + k) mod usable 4096 = 0.
Proof.
  split; [reflexivity|]. apply (is_congruent_iff_alignable 4608 512 4096); [lia|reflexivity].
Defined.

Lemma is_congruent_wrapped_difference_witness :
  is_congruent 8704 512 (2 ^ 12) = true ∧ (512 ⊖ 8704) mod 2 ^ 12 = 0.
Proof.
  split; [reflexivity|]. apply (is_congruent_wrapped_difference 8704 512 12); [lia|reflexivity].
Defined.

Lemma expand_correct_witness :
  let r := expand 4608 1000 8704 4096 in
  r = mkAlignedRead 4096 4096 8192 512 ∧ ar_buffer r + ar_head r = 8704.
Proof.
  split; [reflexivity|].
  apply (expand_correct 4608 1000 8704 4096); try reflexivity; unfold is_size, size_modulus; lia.
Defined.

Lemma usable_direct_block_spec_witness :
  usable_direct_block 4096 = Ret 4096 ∧ usable_direct_block 3000 = Throw (Code InvalidParameterError).
Proof.
  split.
  - apply (usable_direct_block_spec 4096); [unfold is_size, size_modulus; lia|].
    split; [reflexivity|]. exists 12. split; [lia|reflexivity].
  - reflexivity.
Defined.

Lemma expand_passes_diagnosis_witness :
  let l := mkLimits INT_MAX 512 4096 in
  let r := expand 4608 1000 8704 (block_size l) in
  alignment_diagnosis (mkRequested (ar_offset r) (ar_bytesize r) (ar_buffer r)) l =
  mkDiagnosis true true true true ∧
  alignment_diagnosis (mkRequested 512 1024 4096) l = mkDiagnosis true true true false.
Proof.
  split; [|reflexivity].
  apply (expand_passes_diagnosis (mkLimits INT_MAX 512 4096) 4608 1000 8704).
  - exists 9. split; [lia|reflexivity].
  - exists 12. split; [lia|reflexivity].
  - unfold is_size, size_modulus; lia.
  - lia.
  - reflexivity.
  - reflexivity.
Defined.

Lemma max_read_bytesize_spec_witness :
  max_read_bytesize 4096 = 2147479552 ∧ max_read_bytesize (2 ^ 12) mod 2 ^ 12 = 0.
Proof. split; [reflexivity|]. apply (max_read_bytesize_spec 12). lia. Defined.
