(* ===== verification/FsConfig.v ===== *)
(** The configuration (streamer/impl/config/config) and what a process makes of it
    (streamer/impl/async_io/async_io_settings).

    The process environment is an argument.  C++ leaves the order in which the variables are read open; here
    they are read in the order they are written, which decides only which of two malformed ones is reported.
    Warnings are left out. *)

From S2P Require Import Prelude ResponseCode Text Env Alignment FsQueueDepth.

Definition min_fs_sync_read_block_bytesize : Z := 2 * 1024 * 1024.
Definition default_fs_async_chunk_bytesize : Z := 8 * 1024 * 1024.
Definition default_fs_async_queue_depth : Z := 64.
Definition default_fs_no_register_buffers : text := txt "nfs".
Definition default_fs_register_buffers : bool := true.
Definition default_concurrency : Z := 16.
Definition default_s3_concurrency : Z := 8.
Definition max_concurrency : Z := 1024.
Definition default_fs_strategy_candidates : text := txt "io_uring_direct,libaio_direct,sync_buffered".

(** S3ClientWrapper *)
Definition min_chunk_bytesize : Z := 5 * 1024 * 1024.
Definition default_chunk_bytesize : Z := 8 * 1024 * 1024.

Record Config := mkConfig {
  cf_concurrency : Z; cf_s3_concurrency : Z; cf_s3_block_bytesize : Z; cf_fs_sync_read_block_bytesize : Z;
  cf_fs_async_chunk_bytesize : Z; cf_fs_strategy_candidates : text; cf_fs_async_queue_depth : FsQueueDepth;
  cf_fs_no_register_buffers : list text; cf_fs_register_buffers : bool; cf_object_storage_retry_timeout : Z }.

(** ** File system types *)

Definition split_types (value : text) : list text :=
  filter (λ type, type ≠ []) (map lowered (split_on ","%char value)).

Fixpoint any_prefix (denied : list text) (type : text) : bool :=
  match denied with [] => false | d :: denied => starts_with d type || any_prefix denied type end.

Definition registers_buffers (fs_type : text) (c : Config) : bool :=
  if negb (cf_fs_register_buffers c) then false else negb (any_prefix (cf_fs_no_register_buffers c) (lowered fs_type)).

(** ** Building *)

Definition to_concurrency (value : Z) : Z := if value >? max_concurrency then max_concurrency else wrap32 value.

(** std::chrono::seconds of an unsigned long *)
Definition to_seconds (v : Z) : Z := if v <? 2 ^ 63 then v else v - 2 ^ 64.

Section Building.
Context (env : environment).

Definition new_config (concurrency s3_concurrency s3_block_bytesize fs_sync_read_block_bytesize : Z) (enforce_minimum : bool)
    (fs_async_chunk_bytesize : Z) (fs_async_queue_depth : FsQueueDepth) (fs_strategy_candidates : text)
    (object_storage_retry_timeout_seconds : Z) (fs_no_register_buffers : text) (fs_register_buffers : bool) : outcome Config :=
  let! _ := direct_block_size env in
  ASSERT (negb (concurrency =? 0)) ;;!
  ASSERT (negb (s3_concurrency =? 0)) ;;!
  ASSERT (negb (s3_block_bytesize =? 0)) ;;!
  ASSERT (negb (fs_async_chunk_bytesize =? 0)) ;;!
  ASSERT (negb (qd_default fs_async_queue_depth =? 0)) ;;!
  let s3_block :=
    if enforce_minimum && (s3_block_bytesize <? min_chunk_bytesize) then min_chunk_bytesize else s3_block_bytesize in
  let sync_block :=
    if enforce_minimum && (fs_sync_read_block_bytesize <? min_fs_sync_read_block_bytesize)
    then min_fs_sync_read_block_bytesize else fs_sync_read_block_bytesize in
  ASSERT (negb (sync_block =? 0)) ;;!
  Ret (mkConfig (to_concurrency concurrency) (to_concurrency s3_concurrency) s3_block sync_block fs_async_chunk_bytesize
                fs_strategy_candidates fs_async_queue_depth (split_types fs_no_register_buffers) fs_register_buffers
                (to_seconds object_storage_retry_timeout_seconds)).

Definition resolve_obj_concurrency : outcome Z :=
  let! configured := try_getenv_ulong env "RUNAI_STREAMER_OBJ_CONCURRENCY" in
  match configured with
  | Some configured => Ret (to_concurrency configured)
  | None =>
      let! legacy := getenv_ulong env "RUNAI_STREAMER_CONCURRENCY" default_s3_concurrency in
      Ret (to_concurrency legacy)
  end.

Definition resolve_fs_settings : outcome (FsQueueDepth * Z) :=
  match try_getenv_string env "RUNAI_STREAMER_FS_QUEUE_DEPTH" with
  | Some configured => let! depth := parse_depth configured in Ret (depth, qd_default depth)
  | None =>
      let! legacy := try_getenv_ulong env "RUNAI_STREAMER_CONCURRENCY" in
      Ret (match legacy with
           | Some legacy => (of_value (to_concurrency legacy), to_concurrency legacy)
           | None => (of_value default_fs_async_queue_depth, default_concurrency)
           end)
  end.

Definition config_of_settings (fs : FsQueueDepth * Z) (enforce_minimum : bool) : outcome Config :=
  let! s3_concurrency := resolve_obj_concurrency in
  let! s3_block := getenv_ulong env "RUNAI_STREAMER_CHUNK_BYTESIZE" default_chunk_bytesize in
  let! sync_block := getenv_ulong env "RUNAI_STREAMER_CHUNK_BYTESIZE" min_fs_sync_read_block_bytesize in
  let! chunk := getenv_ulong env "RUNAI_STREAMER_FS_CHUNK_BYTESIZE" default_fs_async_chunk_bytesize in
  let candidates := getenv_string env "RUNAI_STREAMER_FS_STRATEGY" default_fs_strategy_candidates in
  let! timeout := getenv_ulong env "RUNAI_STREAMER_S3_TIMEOUT" 0 in
  let denied := getenv_string env "RUNAI_STREAMER_FS_NO_REGISTER_BUFFERS" default_fs_no_register_buffers in
  let! register := getenv_bool env "RUNAI_STREAMER_FS_REGISTER_BUFFERS" default_fs_register_buffers in
  new_config fs.2 s3_concurrency s3_block sync_block enforce_minimum chunk fs.1 candidates timeout denied register.

Definition config_from_env (enforce_minimum : bool) : outcome Config :=
  let! fs := resolve_fs_settings in config_of_settings fs enforce_minimum.

(** ** What one process may use *)

Definition MinDepth : Z := 3.
Definition MaxDepth : Z := 1024.

Record AsyncIoSettings := mkAsyncIoSettings { as_process_group_size : Z; as_depth : Z; as_chunk_bytesize : Z }.

Definition async_io_settings (config : Config) (node_wide_depth max_read : Z) : outcome AsyncIoSettings :=
  let! group := getenv_positive env (unsigned_modulus - 1) "RUNAI_STREAMER_PROCESS_GROUP_SIZE" 1 1 in
  Ret (mkAsyncIoSettings group (Z.min (Z.max (node_wide_depth / group) MinDepth) MaxDepth)
                         (Z.min (cf_fs_async_chunk_bytesize config) max_read)).

Definition host_async_io_settings (page_size : Z) (config : Config) (node_wide_depth : Z) : outcome AsyncIoSettings :=
  async_io_settings config node_wide_depth (max_read_bytesize page_size).
End Building.

(** ** What a configuration keeps *)

Definition is_lowered (t : text) : Prop := t ≠ [] ∧ lowered t = t.

Record config_ok (enforced : bool) (c : Config) : Prop := {
  ck_concurrency : 1 <= cf_concurrency c <= max_concurrency;
  ck_s3_concurrency : 1 <= cf_s3_concurrency c <= max_concurrency;
  ck_s3_block : 1 <= cf_s3_block_bytesize c ∧ (enforced = true → min_chunk_bytesize <= cf_s3_block_bytesize c);
  ck_sync_block : 1 <= cf_fs_sync_read_block_bytesize c ∧
                  (enforced = true → min_fs_sync_read_block_bytesize <= cf_fs_sync_read_block_bytesize c);
  ck_sizes : is_size (cf_s3_block_bytesize c) ∧ is_size (cf_fs_sync_read_block_bytesize c) ∧
             is_size (cf_fs_async_chunk_bytesize c);
  ck_chunk : 1 <= cf_fs_async_chunk_bytesize c;
  ck_depth : depth_ok (cf_fs_async_queue_depth c);
  ck_denied : Forall is_lowered (cf_fs_no_register_buffers c) }.

Lemma to_concurrency_bounds v : 0 <= v → 0 <= to_concurrency v <= max_concurrency ∧ (to_concurrency v = 0 ↔ v = 0).
Proof.
  intros Hv. unfold to_concurrency. rewrite Z.gtb_ltb. destruct (Z.ltb_spec max_concurrency v); [unfold max_concurrency in *; lia|].
  rewrite wrap32_small by (unfold max_concurrency in *; mlia). lia.
Qed.

Lemma to_lower_twice c : to_lower (to_lower c) = to_lower c.
Proof.
  unfold to_lower. destruct ((65 <=? code c) && (code c <=? 90)) eqn:E; [|by rewrite E].
  rewrite andb_true_iff, !Z.leb_le in E. rewrite code_of_N by lia.
  by rewrite (proj2 (Z.leb_gt (code c + 32) 90)), andb_false_r by lia.
Qed.

Lemma lowered_twice t : lowered (lowered t) = lowered t.
Proof. unfold lowered. rewrite map_map. apply map_ext. apply to_lower_twice. Qed.

(** The deny list: the lowered pieces of the text that are not empty, in order. *)
Lemma split_types_lowered value : Forall is_lowered (split_types value).
Proof.
  unfold split_types. apply Forall_forall. intros t [Hn Hin]%list_elem_of_filter. split; [done|].
  apply list_elem_of_In, in_map_iff in Hin as (u & <- & _). apply lowered_twice.
Qed.

Lemma parse_unsigned_size s v : parse_unsigned s = Ret v → is_size v.
Proof. intros (? & ? & ? & _ & _ & _ & _ & _ & _ & ?)%parse_unsigned_spec. done. Qed.

Lemma getenv_ulong_size env variable def v : is_size def → getenv_ulong env variable def = Ret v → is_size v.
Proof. unfold getenv_ulong. case_match; [intros _; apply parse_unsigned_size|]. by intros ? [= <-]. Qed.

Lemma try_getenv_ulong_size env variable v : try_getenv_ulong env variable = Ret (Some v) → is_size v.
Proof.
  unfold try_getenv_ulong. case_match; [|done]. intros H1. invert_ret H1. injection H1 as <-. by eapply parse_unsigned_size.
Qed.

Lemma new_config_ok env concurrency s3_concurrency s3_block sync_block enforced chunk depth candidates timeout denied register c :
  is_unsigned concurrency → is_unsigned s3_concurrency → is_size s3_block → is_size sync_block → is_size chunk →
  (qd_default depth ≠ 0 → depth_ok depth) →
  new_config env concurrency s3_concurrency s3_block sync_block enforced chunk depth candidates timeout denied register = Ret c →
  config_ok enforced c ∧ ∃ b, direct_block_size env = Ret b.
Proof.
  intros Hc Hs Hb Hy Hk Hd H. unfold new_config in H. invert_ret H. injection H as <-.
  apply ASSERT_Ret_inv in Hr0, Hr1, Hr2, Hr3, Hr4, Hr5. rewrite !negb_true_iff, !Z.eqb_neq in *. split; [|eauto].
  assert (Hbound : ∀ x m, is_size x → is_size m → 0 < m → (if enforced && (x <? m) then m else x) ≠ 0 →
    is_size (if enforced && (x <? m) then m else x) ∧ 1 <= (if enforced && (x <? m) then m else x) ∧
    (enforced = true → m <= (if enforced && (x <? m) then m else x))).
  { intros x m Hx Hm Hpos. destruct enforced; simpl; [destruct (Z.ltb_spec x m)|]; munfold; intros; split_and!; try done; lia. }
  assert (Hmin : is_size min_chunk_bytesize ∧ is_size min_fs_sync_read_block_bytesize) by (split; split; done).
  destruct Hmin as [Hm1 Hm2].
  destruct (Hbound s3_block min_chunk_bytesize) as (? & ? & ?); [done..| |].
  { destruct enforced; simpl; [|done]. destruct (s3_block <? _); [by vm_compute|done]. }
  destruct (Hbound sync_block min_fs_sync_read_block_bytesize) as (? & ? & ?); [done..|].
  destruct (to_concurrency_bounds concurrency) as [? ?]; [mlia|].
  destruct (to_concurrency_bounds s3_concurrency) as [? ?]; [mlia|].
  split; cbn; [lia|lia|done|done|done|mlia|by apply Hd|apply split_types_lowered].
Qed.

Lemma is_unsigned_concurrency v : 0 <= v → is_unsigned (to_concurrency v).
Proof. intros Hv. destruct (to_concurrency_bounds v Hv) as [? _]. unfold max_concurrency in *. mlia. Qed.

Lemma resolve_obj_concurrency_range env v : resolve_obj_concurrency env = Ret v → is_unsigned v.
Proof.
  unfold resolve_obj_concurrency. intros H. invert_ret H. destruct r as [configured|].
  - injection H as <-. apply is_unsigned_concurrency. apply try_getenv_ulong_size in Hr. mlia.
  - invert_ret H. injection H as <-. apply is_unsigned_concurrency. apply getenv_ulong_size in Hr0; [mlia|by split].
Qed.

Lemma resolve_fs_settings_ok env fs : resolve_fs_settings env = Ret fs →
  is_unsigned fs.2 ∧ (qd_default fs.1 ≠ 0 → depth_ok fs.1).
Proof.
  unfold resolve_fs_settings. case_match; intros H1; invert_ret H1; injection H1 as <-; cbn [fst snd].
  - apply parse_depth_ok in Hr. split; [|done]. destruct Hr as [[? ?] _ _]. mlia.
  - destruct r as [legacy|]; cbn [fst snd].
    + apply try_getenv_ulong_size in Hr. split; [apply is_unsigned_concurrency; mlia|].
      intros Hn. apply of_value_ok. cbn in Hn. destruct (to_concurrency_bounds legacy) as [? _]; [mlia|].
      unfold is_count, max_concurrency in *. mlia.
    + split; [by split|]. intros _. by apply of_value_ok.
Qed.

(** Whatever the environment says, a configuration that is built can be used: both counts of workers are
    between 1 and 1024, no block size is zero and none is under its minimum when the minimum is enforced, the
    depth of every mount is a positive 32 bit number, the deny list holds lowered names and no empty one (which
    would be a prefix of every type), and the direct block of the process is known to be well formed. *)
Theorem config_from_env_ok env enforce_minimum c : config_from_env env enforce_minimum = Ret c →
  config_ok enforce_minimum c ∧ (∃ b, direct_block_size env = Ret b) ∧
  ∀ fs_type, is_count (for_type fs_type (cf_fs_async_queue_depth c)).
Proof.
  unfold config_from_env. intros H. invert_ret H. apply resolve_fs_settings_ok in Hr as [Hf Hd].
  unfold config_of_settings in H. invert_ret H. apply new_config_ok in H as [Hc Hb]; [|done|..].
  - split_and!; [done|done|]. intros fs_type. apply for_type_count, Hc.
  - by eapply resolve_obj_concurrency_range.
  - eapply getenv_ulong_size; [|done]. by split.
  - eapply getenv_ulong_size; [|done]. by split.
  - eapply getenv_ulong_size; [|done]. by split.
  - done.
Qed.

(** The environment that sets nothing gives the documented defaults. *)
Example default_config : config_from_env ∅ true =
  Ret (mkConfig 16 8 8388608 2097152 8388608 default_fs_strategy_candidates (of_value 64) [txt "nfs"] true 0).
Proof. vm_compute. done. Qed.

(** The legacy variable sets both counts, the specific ones win over it, a count is capped, the denied types are lowered. *)
Example legacy_config : config_from_env
    {["RUNAI_STREAMER_CONCURRENCY" := txt "4294967301"; "RUNAI_STREAMER_FS_QUEUE_DEPTH" := txt "5000,nfs=64";
      "RUNAI_STREAMER_FS_NO_REGISTER_BUFFERS" := txt "NFS,,Fuse,"]} true =
  Ret (mkConfig 1024 1024 8388608 2097152 8388608 default_fs_strategy_candidates
         (mkFsQueueDepth 5000 [mkDepthEntry (txt "nfs") 64]) [txt "nfs"; txt "fuse"] true 0).
Proof. vm_compute. done. Qed.

Lemma config_from_env_ok_witness :
  let c := mkConfig 16 8 8388608 2097152 8388608 default_fs_strategy_candidates (of_value 64) [txt "nfs"] true 0 in
  config_ok true c ∧ for_type (txt "ext4") (cf_fs_async_queue_depth c) = 64.
Proof.
  split; [|reflexivity].
  destruct (config_from_env_ok ∅ true (mkConfig 16 8 8388608 2097152 8388608 default_fs_strategy_candidates (of_value 64) [txt "nfs"] true 0))
    as [H _]; [vm_compute; reflexivity|exact H].
Defined.

(** A type is registered unless an element of the deny list begins it, in any case of its letters. *)
Lemma registers_buffers_spec fs_type c :
  registers_buffers fs_type c = true ↔
  cf_fs_register_buffers c = true ∧ ∀ d, d ∈ cf_fs_no_register_buffers c → ∀ rest, lowered fs_type ≠ d ++ rest.
Proof.
  unfold registers_buffers. destruct (cf_fs_register_buffers c); cbn [negb]; [|split; [done|by intros [? _]]].
  induction (cf_fs_no_register_buffers c) as [|d l IH]; cbn [any_prefix negb].
  - split; [|done]. intros _. split; [done|]. intros d Hd. by apply elem_of_nil in Hd.
  - rewrite negb_orb, andb_true_iff, IH, negb_true_iff. split.
    + intros [Hd [_ Hl]]. split; [done|]. intros x [->|Hx]%elem_of_cons rest E; [|by apply (Hl x Hx rest)].
      by rewrite (proj2 (starts_with_spec _ _)) in Hd by eauto.
    + intros [_ Hl]. split; [|split; [done|]; intros x Hx; apply Hl; by right].
      destruct (starts_with d (lowered fs_type)) eqn:E; [|done]. apply starts_with_spec in E as [rest E].
      by destruct (Hl d (list_elem_of_here _ _) rest).
Qed.

(** ** What one process may use *)

(** What a process is given can be used, and the node gets what was configured for it: the depth is between 3
    and 1024, the group size is never zero, the processes of a group together stay within the depth of the node
    unless the floor raised them, each has the floor of its share unless the ceiling cut it, and a chunk is
    positive and no longer than what the kernel reads at once. *)
Theorem async_io_settings_bounds env enforced config node_wide_depth max_read s :
  config_ok enforced config → is_unsigned node_wide_depth → 0 < max_read →
  async_io_settings env config node_wide_depth max_read = Ret s →
  MinDepth <= as_depth s <= MaxDepth ∧ 1 <= as_process_group_size s < unsigned_modulus ∧
  (as_depth s * as_process_group_size s <= node_wide_depth ∨ as_depth s = MinDepth) ∧
  (node_wide_depth < (as_depth s + 1) * as_process_group_size s ∨ as_depth s = MaxDepth) ∧
  0 < as_chunk_bytesize s <= max_read ∧ as_chunk_bytesize s <= cf_fs_async_chunk_bytesize config.
Proof.
  intros Hc Hn Hm H. unfold async_io_settings in H. invert_ret H. injection H as <-. cbn.
  unfold getenv_positive in Hr. invert_ret Hr. injection Hr as <-. pose proof (ck_chunk _ _ Hc) as Hk.
  set (group := Z.max (Z.min _ _) 1). assert (Hg : 1 <= group < unsigned_modulus) by (subst group; mlia). clearbody group.
  pose proof (Z.mul_div_le node_wide_depth group ltac:(lia)) as Hle.
  pose proof (Z.mul_succ_div_gt node_wide_depth group ltac:(lia)) as Hgt.
  set (share := node_wide_depth / group) in *. clearbody share. unfold MinDepth, MaxDepth.
  split; [lia|]. split; [lia|]. split; [|split; [|lia]].
  - destruct (decide (share <= 3)); [right; lia|left]. transitivity (group * share); [|done].
    rewrite Z.mul_comm. apply Z.mul_le_mono_nonneg_l; lia.
  - destruct (decide (1024 <= share)); [right; lia|left]. eapply Z.lt_le_trans; [exact Hgt|].
    rewrite Z.mul_comm. apply Z.mul_le_mono_nonneg_r; lia.
Qed.

Lemma async_io_settings_bounds_witness :
  let s := mkAsyncIoSettings 8 8 8388608 in
  async_io_settings {["RUNAI_STREAMER_PROCESS_GROUP_SIZE" := txt "8"]}
    (mkConfig 16 8 8388608 2097152 8388608 [] (of_value 64) [] true 0) 64 2147479552 = Ret s ∧
  as_depth s * as_process_group_size s <= 64.
Proof.
  split; [vm_compute; reflexivity|].
  destruct (async_io_settings_bounds {["RUNAI_STREAMER_PROCESS_GROUP_SIZE" := txt "8"]} true
    (mkConfig 16 8 8388608 2097152 8388608 [] (of_value 64) [] true 0) 64 2147479552 (mkAsyncIoSettings 8 8 8388608))
    as (_ & _ & [H|H] & _).
  - split; cbn; try done; split; try done; constructor.
  - by split.
  - done.
  - vm_compute. reflexivity.
  - exact H.
  - discriminate H.
Defined.
