(* ===== verification/CompletionMapper.v ===== *)
(** Kernel results of one read, turned into response codes (posix_io/completion_mapper). *)

From S2P Require Import Prelude ResponseCode.

Record FileRef := mkFileRef { fd : Z; direct : bool }.

(** The Linux errno values the table names. *)
Definition EINTR : Z := 4.
Definition EBADF : Z := 9.
Definition EAGAIN : Z := 11.
Definition EFAULT : Z := 14.
Definition EBUSY : Z := 16.
Definition EINVAL : Z := 22.
Definition ECANCELED : Z := 125.

Definition is_internal_error (res : Z) (file : FileRef) : bool :=
  if res >=? 0 then false
  else
    let err := - res in
    if (err =? EFAULT) || (err =? EBADF) then true
    else (err =? EINVAL) && direct file.

(** ERESTARTSYS, ERESTARTNOINTR, ERESTARTNOHAND, ERESTART_RESTARTBLOCK and EINTR *)
Definition is_transient (res : Z) : bool :=
  if res >=? 0 then false
  else
    let err := - res in
    (err =? 512) || (err =? 513) || (err =? 514) || (err =? 516) || (err =? EINTR).

Definition submit_can_defer (error : Z) : bool :=
  if (error =? EAGAIN) || (error =? EBUSY) then true else is_transient (- error).

Definition map_completion (res : Z) (file : FileRef) : ResponseCode :=
  if res >=? 0 then Success
  else
    let err := - res in
    if err =? ECANCELED then FinishedError
    else if is_internal_error res file then UnknownError
    else FileAccessError.

(** A code that ends the whole submission, as opposed to one file. *)
Definition aborts_submission (c : ResponseCode) : bool := bool_decide (c = UnknownError).

Ltac err_cases :=
  unfold map_completion, is_internal_error, is_transient, submit_can_defer, ECANCELED, EFAULT, EBADF,
    EINVAL, EINTR, EAGAIN, EBUSY in *;
  repeat case_bool; simpl in *; try done; try lia.

(** The table blames the right party.  A non-negative result is a success, cancellation is
    reported as teardown whatever the file, and the submission is aborted only by the three results
    that are the engine's own fault: a bad address, a closed descriptor, or EINVAL on a direct
    descriptor.  Every other result, including a directory, a stale handle or an errno nobody listed,
    fails this file alone. *)
Theorem map_completion_table res file :
  (map_completion res file = Success ↔ 0 <= res) ∧
  (map_completion res file = FinishedError ↔ res = - ECANCELED) ∧
  (map_completion res file = UnknownError ↔
     res = - EFAULT ∨ res = - EBADF ∨ (res = - EINVAL ∧ direct file = true)) ∧
  (map_completion res file = FileAccessError ↔
     res < 0 ∧ res ≠ - ECANCELED ∧ is_internal_error res file = false).
Proof.
  destruct file as [fd [|]]; split_and!; split; err_cases; naive_solver lia.
Qed.

(** A read that an interruption left undone never ends the submission, even once its retries are
    spent: a transient result is neither an internal error nor a cancellation, so it maps to
    FileAccessError; and an interrupted submit is deferred just as an interrupted read is retried. *)
Theorem transient_is_never_fatal res file :
  is_transient res = true →
  map_completion res file = FileAccessError ∧ submit_can_defer (- res) = true ∧
  aborts_submission (map_completion res file) = false.
Proof.
  intros H. assert (Hm : map_completion res file = FileAccessError)
    by (revert H; destruct file as [fd [|]]; err_cases).
  split_and!; [done| |by rewrite Hm].
  unfold submit_can_defer. rewrite Z.opp_involutive, H. by case_match.
Qed.

Lemma transient_is_never_fatal_witness :
  map_completion (-512) (mkFileRef 3 true) = FileAccessError ∧ submit_can_defer 512 = true.
Proof.
  destruct (transient_is_never_fatal (-512) (mkFileRef 3 true) eq_refl) as (H & H' & _).
  exact (conj H H').
Defined.
