(* ===== verification/MountCapabilities.v ===== *)
(** What a mount can do (posix_io/mount_capabilities): its file system, whether memory backs it, and the
    smallest block it serves direct reads at, measured once and remembered by device.

    The system calls are a class over the state of the machine; a call may answer differently each time.  The
    object has one mutex: a method is made of critical sections, and [others] is what the other threads do to
    the object between two of them.  Logging is left out. *)

From stdpp Require Import sorting.
From S2P Require Import Prelude ResponseCode Text Env Alignment CompletionMapper MountInfo.

(** stat, statfs, statx and open go by path; a failed open is -1 with its errno, as is a failed pread.
    [statx_dio] answers nothing when the call fails or the kernel left the fields out.  [open_fds] is a view. *)
Class MountHost (W : Type) := {
  stat_dev : text → W → option Z * W;
  fstat_dev : Z → W → option Z * W;
  statfs_magic : text → W → option Z * W;
  fstatfs_magic : Z → W → option Z * W;
  statx_dio : text → W → option (Z * Z) * W;
  open_direct : text → W → (Z * Z) * W;
  close_fd : Z → W → W;
  file_size : Z → W → option Z * W;
  memalign : Z → Z → W → option Z * W;
  free_mem : Z → W → W;
  pread : Z → Z → Z → Z → W → (Z * Z) * W;
  open_fds : W → list Z }.

(** What the calls promise: memory is aligned as asked, and only open and close change what is open. *)
Class MountLaws (W : Type) `{!MountHost W} : Prop := {
  stat_law p w : open_fds (stat_dev p w).2 = open_fds w;
  statx_law p w : open_fds (statx_dio p w).2 = open_fds w;
  open_law p w fd error w' : open_direct p w = ((fd, error), w') →
    open_fds w' ≡ₚ (if fd <? 0 then [] else [fd]) ++ open_fds w;
  close_law fd w l : open_fds w ≡ₚ fd :: l → open_fds (close_fd fd w) ≡ₚ l;
  size_law fd w : open_fds (file_size fd w).2 = open_fds w;
  memalign_law a n w base w' : memalign a n w = (base, w') →
    open_fds w' = open_fds w ∧ (∀ b, base = Some b → b mod a = 0);
  free_law b w : open_fds (free_mem b w) = open_fds w;
  pread_law fd buffer n offset w : open_fds (pread fd buffer n offset w).2 = open_fds w }.

Definition EOPNOTSUPP : Z := 95.
Definition TMPFS_MAGIC : Z := 16914836.
Definition RAMFS_MAGIC : Z := 2240043254.

Definition is_memory_backed (magic : Z) : bool := (magic =? TMPFS_MAGIC) || (magic =? RAMFS_MAGIC).

Record MountCapability := mkMountCapability { mc_dev : Z; mc_memory_backed : bool; mc_fs_type : text }.

Inductive DirectSupport := SupportUnknown | SupportYes | SupportNo.

Record LadderBlock := mkLadderBlock { lb_block : Z; lb_measured : bool }.

(** [mounts] and [direct] are the two maps. *)
Record MountCapabilities := mkMountCapabilities { mc_mounts : gmap Z MountCapability; mc_direct : gmap Z Z }.

Definition new_mount_capabilities : MountCapabilities := mkMountCapabilities ∅ ∅.

Definition ladder : list Z := [512; 4096; 16384; MaxProbeBlock].

(** What the ladder is checked for when the program is built; [below] is the rung before. *)
Fixpoint ladder_is_usable_from (below : option Z) (rungs : list Z) : bool :=
  match rungs with
  | [] => match below with Some rung => rung =? MaxProbeBlock | None => false end
  | rung :: rungs =>
      if (rung =? 0) || negb (Z.land rung (rung - 1) =? 0) then false
      else if (rung >? MaxProbeBlock) || negb (MaxProbeBlock mod rung =? 0) then false
      else if match below with Some b => rung <=? b | None => false end then false
      else ladder_is_usable_from (Some rung) rungs
  end.

Definition ladder_is_usable (rungs : list Z) : bool := ladder_is_usable_from None rungs.

Example ladder_passes : ladder_is_usable ladder = true.
Proof. done. Qed.

Section Ladder.
Context {W : Type} (accepts : Z → Z → W → bool * W).

(** The rungs in order: the block decided, [None] after the last, or the first rung there is no room for. *)
Fixpoint climb (rungs : list Z) (size : Z) (w : W) : (option Z * option Z) * W :=
  match rungs with
  | [] => ((None, None), w)
  | candidate :: rungs =>
      let offset := candidate in
      if size <? offset + candidate then ((None, Some candidate), w)
      else
        let '(ok, w) := accepts candidate offset w in
        if ok : bool then ((Some candidate, None), w) else climb rungs size w
  end.

Definition ladder_direct_block (size page : Z) (w : W) : LadderBlock * W :=
  let '((accepted, untested), w) := climb ladder size w in
  (match accepted, untested with
   | Some candidate, _ => mkLadderBlock candidate true
   | None, Some candidate => mkLadderBlock (Z.max candidate page) false
   | None, None => mkLadderBlock 0 true
   end, w).
End Ladder.

Section Mounts.
Context {W : Type} `{!MountHost W}.

(** The process: the file system types it read, its environment and its page size. *)
Context (types : gmap Z text) (env : environment) (page_size : Z).

(** ** Measuring *)

Definition direct_read_at (fd block offset : Z) (w : W) : bool * W :=
  let '(raw, w) := memalign MaxProbeBlock (2 * MaxProbeBlock) w in
  match raw with
  | None => (false, w)
  | Some base =>
      let '((got, error), w) := pread fd (base + block) block offset w in
      ((got >=? 0) || negb (error =? EINVAL), free_mem base w)
  end.

Definition statx_dio_align (path : text) (w : W) : (Z * Z) * W :=
  let '(answer, w) := statx_dio path w in
  (match answer with None => (0, 0) | Some x => x end, w).

Definition measure_direct_block (path : text) (w : W) : Z * W :=
  let '((mem, offset), w) := statx_dio_align path w in
  if negb (mem =? 0) && negb (offset =? 0) then (Z.max mem offset, w)
  else
    let '((fd, _), w) := open_direct path w in
    if fd <? 0 then (0, w)
    else
      let '(info, w) := file_size fd w in
      let size := match info with Some size => size | None => 0 end in
      let '(decided, w) := ladder_direct_block (λ block offset, direct_read_at fd block offset) size page_size w in
      (lb_block decided, close_fd fd w).

(** ** The critical sections *)

Definition find_mount (dev : Z) (m : MountCapabilities) : option MountCapability := mc_mounts m !! dev.

Definition remember (dev : Z) (memory_backed : bool) (m : MountCapabilities) : MountCapability * MountCapabilities :=
  let capability := mkMountCapability dev memory_backed (match types !! dev with None => [] | Some type => type end) in
  let mounts := try_emplace dev capability (mc_mounts m) in
  (match mounts !! dev with Some c => c | None => capability end, mkMountCapabilities mounts (mc_direct m)).

Definition settle (dev block : Z) (m : MountCapabilities) : MountCapabilities :=
  mkMountCapabilities (mc_mounts m) (try_emplace dev block (mc_direct m)).

Definition answer_of (block : Z) : ResponseCode * Z := (if block =? 0 then FileAccessError else Success, block).

(** ** The methods *)

Context (others : MountCapabilities → MountCapabilities).

Definition of_stat (stat : option Z * W) (statfs : W → option Z * W) (m : MountCapabilities) :
    outcome MountCapability * (MountCapabilities * W) :=
  let '(dev, w) := stat in
  match dev with
  | None => (Throw (Code FileAccessError), (m, w))
  | Some dev =>
      match find_mount dev m with
      | Some capability => (Ret capability, (m, w))
      | None =>
          let '(magic, w) := statfs w in
          match magic with
          | None => (Throw (Code FileAccessError), (others m, w))
          | Some magic => let '(c, m) := remember dev (is_memory_backed magic) (others m) in (Ret c, (m, w))
          end
      end
  end.

Definition of_path (path : text) (m : MountCapabilities) (w : W) : outcome MountCapability * (MountCapabilities * W) :=
  of_stat (stat_dev path w) (statfs_magic path) m.

Definition of_fd (fd : Z) (m : MountCapabilities) (w : W) : outcome MountCapability * (MountCapabilities * W) :=
  of_stat (fstat_dev fd w) (fstatfs_magic fd) m.

Definition direct_block (dev : Z) (path : text) (m : MountCapabilities) (w : W) :
    outcome (ResponseCode * Z) * (MountCapabilities * W) :=
  match mc_direct m !! dev with
  | Some block => (Ret (answer_of block), (m, w))
  | None =>
      let '((fd, error), w) := open_direct path w in
      if fd <? 0 then
        if (error =? EINVAL) || (error =? EOPNOTSUPP) then (Ret (FileAccessError, 0), (settle dev 0 (others m), w))
        else (Ret (UnknownError, 0), (others m, w))
      else
        let w := close_fd fd w in
        match direct_block_override env with
        | Throw e => (Throw e, (others m, w))
        | Ret forced =>
            let '(block, w) := if negb (forced =? 0) then (forced, w) else measure_direct_block path w in
            let m := settle dev block (others m) in
            (match mc_direct m !! dev with Some block => Ret (answer_of block) | None => Throw StdException end, (m, w))
        end
  end.

Definition direct_support (dev : Z) (path : text) (m : MountCapabilities) (w : W) :
    outcome DirectSupport * (MountCapabilities * W) :=
  let '(r, s) := direct_block dev path m w in
  ((let! x := r in Ret (match x.1 with Success => SupportYes | FileAccessError => SupportNo | _ => SupportUnknown end)), s).

Definition mounts_seen (m : MountCapabilities) : nat := size (mc_mounts m).
End Mounts.

(** ** The ladder *)

(** The first rung that passes, when the answers do not depend on the state. *)
Lemma climb_spec {W : Type} (accepts : Z → Z → W → bool * W) (ok : Z → bool) size : ∀ rungs w,
  (∀ c w, c ∈ rungs → (accepts c c w).1 = ok c) →
  ∃ tried, match (climb accepts rungs size w).1 with
           | (Some c, _) => ∃ rest, rungs = tried ++ c :: rest ∧ ok c = true ∧ 2 * c <= size
           | (None, Some c) => ∃ rest, rungs = tried ++ c :: rest ∧ size < 2 * c
           | (None, None) => rungs = tried
           end ∧ Forall (λ c, ok c = false ∧ 2 * c <= size) tried.
Proof.
  induction rungs as [|c rungs IH]; intros w Hok; simpl; [by exists []|].
  destruct (Z.ltb_spec size (c + c)).
  { exists []. split; [|done]. exists rungs. split; [done|lia]. }
  pose proof (Hok c w (list_elem_of_here _ _)) as Ha. destruct (accepts c c w) as [[|] w']; simpl in *.
  - exists []. split; [|done]. exists rungs. split_and!; [done|done|lia].
  - destruct (IH w') as (tried & Hc & Ht); [intros x w0 Hx; apply Hok; by right|]. exists (c :: tried).
    split; [|constructor; [split; [done|lia]|done]].
    destruct (climb _ _ _ _) as [[[c'|] [u|]] w'']; simpl in *; [..|by subst];
      destruct Hc as (rest & -> & ?); by exists rest.
Qed.

Lemma ladder_sorted tried c rest x : ladder = tried ++ c :: rest → x ∈ ladder → x < c → x ∈ tried.
Proof.
  intros E. assert (Hs : StronglySorted Z.lt ladder) by (repeat constructor).
  rewrite E. rewrite E in Hs. clear E. induction tried as [|a tried IH]; simpl in *; inversion Hs as [|? ? Hs' Hf]; subst.
  - intros [->|Hx]%elem_of_cons Hlt; [lia|]. rewrite Forall_forall in Hf. specialize (Hf x Hx). lia.
  - intros [->|Hx]%elem_of_cons Hlt; [left|right]. by apply IH.
Qed.

(** ** What a mount requires *)

(** A mount that serves a direct read when the address, the length and the offset are multiples of three
    powers of two; one says that it does not look. *)
Record Requirement := mkRequirement { rq_address : Z; rq_length : Z; rq_offset : Z }.

Definition power_of_two (r : Z) : Prop := ∃ k, 0 <= k ∧ r = 2 ^ k.

Definition serves (q : Requirement) (address n offset : Z) : Prop :=
  address mod rq_address q = 0 ∧ n mod rq_length q = 0 ∧ offset mod rq_offset q = 0.

#[export] Instance serves_dec q address n offset : Decision (serves q address n offset).
Proof. unfold serves. apply _. Defined.

(** No requirement passes the largest rung. *)
Record requirement_ok (q : Requirement) : Prop := {
  ro_powers : power_of_two (rq_address q) ∧ power_of_two (rq_length q) ∧ power_of_two (rq_offset q);
  ro_largest : rq_address q <= MaxProbeBlock ∧ rq_length q <= MaxProbeBlock ∧ rq_offset q <= MaxProbeBlock }.

Definition required (q : Requirement) : Z := Z.max (Z.max (rq_address q) (rq_length q)) (rq_offset q).

Lemma power_divides r c : power_of_two r → power_of_two c → c mod r = 0 ↔ r <= c.
Proof.
  intros (j & Hj & ->) (k & Hk & ->). assert (0 < 2 ^ j ∧ 0 < 2 ^ k) as [? ?] by (split; apply Z.pow_pos_nonneg; lia).
  split; intros H1.
  - destruct (decide (2 ^ j <= 2 ^ k)); [done|]. rewrite Z.mod_small in H1; lia.
  - assert (j <= k) by (apply (Z.pow_le_mono_r_iff 2); lia).
    replace (2 ^ k) with (2 ^ (k - j) * 2 ^ j) by (rewrite <- Z.pow_add_r by lia; f_equal; lia).
    apply Z.mod_mul. lia.
Qed.

Lemma rung_power c : c ∈ ladder → power_of_two c ∧ 512 <= c <= MaxProbeBlock ∧ MaxProbeBlock mod c = 0.
Proof.
  intros Hc. assert (Hl : Forall (λ c, 0 <= Z.log2 c ∧ c = 2 ^ Z.log2 c ∧ 512 <= c <= MaxProbeBlock ∧ MaxProbeBlock mod c = 0) ladder)
    by (repeat constructor; discriminate).
  rewrite Forall_forall in Hl. destruct (Hl c Hc) as (? & ? & ? & ?). split_and!; [by exists (Z.log2 c)|lia|lia|done].
Qed.

(** A probe of a rung passes exactly when the rung is no less than what the mount requires: the address is
    aligned to the rung, and to what the mount asks only if that divides it. *)
Lemma rung_passes q c base : requirement_ok q → c ∈ ladder → base mod MaxProbeBlock = 0 →
  serves q (base + c) c c ↔ required q <= c.
Proof.
  intros [(Ha & Hl & Ho) (Ha' & Hl' & Ho')] Hc Hb. apply rung_power in Hc as (Hc & Hr & Hm).
  assert (Hmax : power_of_two MaxProbeBlock) by (exists 16; done).
  assert (Hba : base mod rq_address q = 0).
  { apply (power_divides _ _ Ha Hmax) in Ha'. apply Z.mod_divide in Hb; [|done].
    assert (0 < rq_address q) by (destruct Ha as (k & ? & ->); apply Z.pow_pos_nonneg; lia).
    apply Z.mod_divide; [lia|]. apply Z.mod_divide in Ha'; [|lia]. by etransitivity. }
  assert (Hbc : (base + c) mod rq_address q = c mod rq_address q) by (rewrite <- Zplus_mod_idemp_l; by rewrite Hba).
  unfold serves, required. rewrite Hbc, !power_divides by done. lia.
Qed.

(** The smallest rung a requirement allows. *)
Definition rung_for (r : Z) : Z := if r <=? 512 then 512 else if r <=? 4096 then 4096 else if r <=? 16384 then 16384 else MaxProbeBlock.

Lemma rung_for_spec r : r <= MaxProbeBlock → rung_for r ∈ ladder ∧ r <= rung_for r ∧ ∀ c, c ∈ ladder → r <= c → rung_for r <= c.
Proof.
  intros Hr. unfold rung_for. split_and!.
  - repeat case_match; apply (bool_decide_unpack _); reflexivity.
  - repeat case_bool; unfold MaxProbeBlock in *; lia.
  - intros c Hc Hle. unfold ladder, MaxProbeBlock in *. repeat case_bool; try lia;
      rewrite !elem_of_cons, elem_of_nil in Hc; lia.
Qed.

(** The smallest rung a file is too short for. *)
Definition unplaced (size : Z) : Z :=
  if size <? 1024 then 512 else if size <? 8192 then 4096 else if size <? 32768 then 16384 else MaxProbeBlock.

Lemma unplaced_spec size tried u rest : ladder = tried ++ u :: rest → size < 2 * u →
  Forall (λ c, 2 * c <= size) tried → u = unplaced size.
Proof.
  intros E Hu Ht. unfold unplaced.
  assert (Hin : u ∈ ladder) by (rewrite E; apply elem_of_app; right; left).
  assert (Hlow : ∀ x, x ∈ ladder → x < u → 2 * x <= size).
  { intros x Hx Hlt. rewrite Forall_forall in Ht. by eapply Ht, ladder_sorted. }
  unfold ladder, MaxProbeBlock in *.
  pose proof (Hlow 512). pose proof (Hlow 4096). pose proof (Hlow 16384). clear Hlow E Ht.
  rewrite !elem_of_cons, elem_of_nil in *. repeat case_bool; lia.
Qed.

Section Measuring.
Context {W : Type} `{!MountHost W, !MountLaws W}.
Context (page_size : Z).

(** A file of [size] bytes, on a mount with the requirement [q], on a machine that has memory. *)
Context (q : Requirement) (fd size : Z).
Context (Hq : requirement_ok q).
Context (Hread : ∀ buffer n offset w, 0 <= (pread fd buffer n offset w).1.1 ∨ (pread fd buffer n offset w).1.2 ≠ EINVAL ↔
                   serves q buffer n offset).
Context (Hmem : ∀ a n w, is_Some (memalign a n w).1).

Lemma direct_read_at_spec c w : c ∈ ladder → (direct_read_at fd c c w).1 = bool_decide (required q <= c).
Proof.
  intros Hc. unfold direct_read_at. destruct (memalign MaxProbeBlock _ w) as [raw w1] eqn:Em.
  destruct (Hmem MaxProbeBlock (2 * MaxProbeBlock) w) as [base Eb]. rewrite Em in Eb. simpl in Eb. subst raw.
  pose proof (memalign_law _ _ _ _ _ Em) as [_ Hb]. specialize (Hb base eq_refl).
  pose proof (Hread (base + c) c c w1) as Hr. destruct (pread _ _ _ _ _) as [[got error] w2]. simpl in *.
  rewrite (rung_passes q c base Hq Hc Hb) in Hr. apply eq_bool_prop_intro.
  rewrite orb_True, negb_True, !Is_true_true, Z.geb_leb, Z.leb_le, bool_decide_eq_true, Z.eqb_eq. exact Hr.
Qed.

Lemma ladder_measures w :
  (ladder_direct_block (λ block offset, direct_read_at fd block offset) size page_size w).1 =
  if 2 * rung_for (required q) <=? size then mkLadderBlock (rung_for (required q)) true
  else mkLadderBlock (Z.max (unplaced size) page_size) false.
Proof.
  unfold ladder_direct_block.
  assert (Hr : required q <= MaxProbeBlock) by (destruct Hq as [_ (? & ? & ?)]; unfold required; lia).
  destruct (rung_for_spec _ Hr) as (Hin & Hle & Hleast).
  destruct (climb_spec (λ block offset, direct_read_at fd block offset)
              (λ c, bool_decide (required q <= c)) size ladder w) as (tried & Hc & Ht).
  { intros c w0. apply direct_read_at_spec. }
  assert (Htried : ∀ c, c ∈ tried → c < required q ∧ 2 * c <= size).
  { intros c Hct. rewrite Forall_forall in Ht. destruct (Ht c Hct) as [Hf ?]. apply bool_decide_eq_false in Hf. lia. }
  destruct (climb _ _ _ _) as [[[c|] untested] w']; simpl in *; [|destruct untested as [u|]]; cbn [fst].
  - destruct Hc as (rest & E & Hp%bool_decide_eq_true & Hs).
    assert (c = rung_for (required q)) as <-.
    { destruct (Z.lt_total (rung_for (required q)) c) as [Hlt|[->|Hlt]]; [|done|].
      - apply (ladder_sorted tried c rest) in Hlt; [|done..]. apply Htried in Hlt. lia.
      - assert (Hin' : c ∈ ladder) by (rewrite E; apply elem_of_app; right; left). specialize (Hleast c Hin' Hp). lia. }
    by rewrite (proj2 (Z.leb_le _ _)).
  - destruct Hc as (rest & E & Hs).
    rewrite <- (unplaced_spec size tried u rest); [|done..|].
    + rewrite (proj2 (Z.leb_gt _ _)); [done|]. apply Z.nle_gt. intros Hfit.
      destruct (Z.lt_ge_cases (rung_for (required q)) u) as [Hlt|]; [|lia].
      apply (ladder_sorted tried u rest) in Hlt; [|done..]. apply Htried in Hlt. lia.
    + apply Forall_forall. intros c Hct. by apply Htried.
  - subst tried. apply Htried in Hin. lia.
Qed.
End Measuring.

(** ** The object over its life *)

(** One critical section that writes, by any thread. *)
Inductive mount_step (types : gmap Z text) : MountCapabilities → MountCapabilities → Prop :=
| step_remember dev memory_backed m : mount_step types m (remember types dev memory_backed m).2
| step_settle dev block m : mount_step types m (settle dev block m).

Lemma try_emplace_subseteq {A} k (x : A) m : m ⊆ try_emplace k x m.
Proof. unfold try_emplace. destruct (m !! k) eqn:E; [done|]. by apply insert_subseteq. Qed.

Lemma try_emplace_lookup {A} k (x : A) m : try_emplace k x m !! k = Some (default x (m !! k)).
Proof. unfold try_emplace. destruct (m !! k) eqn:E; [done|]. apply lookup_insert_eq. Qed.

(** What is in the maps stays. *)
Lemma mount_steps_grow types m m' : rtc (mount_step types) m m' → mc_mounts m ⊆ mc_mounts m' ∧ mc_direct m ⊆ mc_direct m'.
Proof.
  induction 1 as [m|m m1 m' Hs _ [IH1 IH2]]; [done|].
  split; (etransitivity; [|eassumption]); destruct Hs; simpl; done || apply try_emplace_subseteq.
Qed.

(** A mount is kept under its own device. *)
Definition mounts_ok (m : MountCapabilities) : Prop := map_Forall (λ dev c, mc_dev c = dev) (mc_mounts m).

Lemma mounts_ok_new : mounts_ok new_mount_capabilities.
Proof. apply map_Forall_empty. Qed.

Lemma mount_steps_ok types m m' : rtc (mount_step types) m m' → mounts_ok m → mounts_ok m'.
Proof.
  induction 1 as [|m m1 m' Hs _ IH]; [done|]. intros Hm. apply IH. destruct Hs; [|done]. unfold mounts_ok, remember. simpl.
  unfold try_emplace. case_match; [done|]. by apply map_Forall_insert_2.
Qed.

Section Sections.
Context {W : Type} `{!MountHost W}.
Context (types : gmap Z text) (env : environment) (page_size : Z) (others : MountCapabilities → MountCapabilities).
Context (Hothers : ∀ m, rtc (mount_step types) m (others m)).

(** Asking about a path answers what is kept of its mount, or FileAccessError. *)
Lemma of_path_spec path m w r m' w' : of_path types others path m w = (r, (m', w')) → mounts_ok m →
  rtc (mount_step types) m m' ∧
  match r with Ret c => mc_mounts m' !! mc_dev c = Some c | Throw e => e = Code FileAccessError end.
Proof.
  unfold of_path, of_stat. intros H Hm. destruct (stat_dev path w) as [[dev|] w1]; [|by injection H as <- <- <-].
  unfold find_mount in H. destruct (mc_mounts m !! dev) as [c|] eqn:E.
  { injection H as <- <- <-. split; [done|]. by rewrite (Hm _ _ E). }
  destruct (statfs_magic path w1) as [[magic|] w2]; [|injection H as <- <- <-; split; [apply Hothers|done]].
  assert (Hok : mounts_ok (others m)) by (eapply mount_steps_ok; [apply Hothers|done]).
  unfold remember in H. injection H as <- <- <-. rewrite try_emplace_lookup. split.
  - eapply rtc_r; [apply Hothers|]. apply (step_remember types dev (is_memory_backed magic) (others m)).
  - cbn [mc_mounts]. set (cap := mkMountCapability _ _ _).
    assert (Hd : mc_dev (default cap (mc_mounts (others m) !! dev)) = dev).
    { destruct (mc_mounts (others m) !! dev) as [c|] eqn:E2; [exact (Hok _ _ E2)|done]. }
    rewrite Hd. apply try_emplace_lookup.
Qed.

(** With an environment that can be read, a question about direct reads has an answer. *)
Lemma direct_block_returns dev path m w forced : direct_block_override env = Ret forced →
  ∃ code block m' w', direct_block env page_size others dev path m w = (Ret (code, block), (m', w')).
Proof.
  intros He. unfold direct_block. destruct (mc_direct m !! dev) as [b|]; [unfold answer_of; eauto|].
  destruct (open_direct path w) as [[fd error] w1]. destruct (fd <? 0); [case_match; eauto|]. rewrite He.
  destruct (if negb (forced =? 0) then _ else _) as [b w2]. cbn. rewrite try_emplace_lookup. unfold answer_of. eauto.
Qed.
End Sections.

Section Answers.
Context {W : Type} `{!MountHost W, !MountLaws W}.
Context (types : gmap Z text) (env : environment) (page_size : Z).
Implicit Types (m later : MountCapabilities) (w : W).

Lemma direct_read_at_fds fd block offset w : open_fds (direct_read_at fd block offset w).2 = open_fds w.
Proof.
  unfold direct_read_at. destruct (memalign _ _ w) as [base w1] eqn:Em. apply memalign_law in Em as [Hf _].
  destruct base as [base|]; [|exact Hf]. pose proof (pread_law fd (base + block) block offset w1) as Hp.
  destruct (pread _ _ _ _ _) as [[got error] w2]. simpl in *. by rewrite free_law, Hp, Hf.
Qed.

Lemma climb_fds fd size rungs : ∀ w, open_fds (climb (λ block offset, direct_read_at fd block offset) rungs size w).2 = open_fds w.
Proof.
  induction rungs as [|c rungs IH]; intros w; simpl; [done|]. destruct (size <? c + c); [done|].
  pose proof (direct_read_at_fds fd c c w) as Hf. destruct (direct_read_at _ _ _ _) as [[] w']; [done|].
  by rewrite IH.
Qed.

Lemma measure_direct_block_fds path w : open_fds (measure_direct_block page_size path w).2 ≡ₚ open_fds w.
Proof.
  unfold measure_direct_block, statx_dio_align. pose proof (statx_law path w) as Hx.
  destruct (statx_dio path w) as [answer w1]. simpl in *. destruct (match answer with None => _ | Some x => x end) as [mem offset].
  destruct (negb _ && _); [by rewrite <- Hx|]. destruct (open_direct path w1) as [[fd error] w2] eqn:Eo.
  apply open_law in Eo. destruct (fd <? 0); [by simpl in *; rewrite Eo, Hx|].
  pose proof (size_law fd w2) as Hs. destruct (file_size fd w2) as [info w3]. simpl in *. unfold ladder_direct_block.
  pose proof (climb_fds fd (match info with Some s => s | None => 0 end) ladder w3) as Hc.
  destruct (climb _ _ _ _) as [[accepted untested] w4]. simpl in *.
  apply close_law. by rewrite Hc, Hs, Eo, Hx.
Qed.

Lemma settle_answer dev block m : mc_direct (settle dev block m) !! dev = Some (default block (mc_direct m !! dev)).
Proof. apply try_emplace_lookup. Qed.

(** A settled device is answered from the map, whatever the machine would say. *)
Lemma direct_block_settled others dev path m w block : mc_direct m !! dev = Some block →
  direct_block env page_size others dev path m w = (Ret (answer_of block), (m, w)).
Proof. intros E. unfold direct_block. by rewrite E. Qed.

(** A question that returns settles the device, but for UnknownError, which leaves the maps to the others. *)
Lemma direct_block_settles others dev path m w code block m' w' :
  direct_block env page_size others dev path m w = (Ret (code, block), (m', w')) →
  (m' = m ∨ m' = others m ∨ ∃ b, m' = settle dev b (others m)) ∧
  ((code, block) = (UnknownError, 0) ∧ m' = others m ∨
   ∃ b, mc_direct m' !! dev = Some b ∧ ((code, block) = answer_of b ∨ (code, block) = (FileAccessError, 0))).
Proof.
  unfold direct_block. destruct (mc_direct m !! dev) as [b|] eqn:E.
  { intros [= <- <- <- <-]. split; [by left|]. right. exists b. auto. }
  destruct (open_direct path w) as [[fd error] w1]. destruct (fd <? 0).
  { destruct ((error =? EINVAL) || _).
    - intros [= <- <- <- <-]. split; [eauto|]. right. rewrite settle_answer. eauto.
    - intros [= <- <- <- <-]. split; [eauto|]. by left. }
  destruct (direct_block_override env) as [forced|e]; [|done].
  destruct (if negb (forced =? 0) then _ else _) as [b w2]. rewrite settle_answer.
  intros [= <- <- <- <-]. split; [eauto|]. right. rewrite settle_answer. eexists. split; [done|]. by left.
Qed.

(** What was answered stays answered.  Whatever the other threads do meanwhile: once a device was said to serve
    direct reads at a block, every later question about it, by any path and whatever the machine would answer
    now, gets that block, which is not zero; once it was said not to, there is one answer that every later
    question gets; and a question that could not be answered is UnknownError and leaves nothing behind.  No
    descriptor stays open. *)
Theorem direct_answers_are_final others dev path m w code block m' w' :
  rtc (mount_step types) m (others m) →
  direct_block env page_size others dev path m w = (Ret (code, block), (m', w')) →
  rtc (mount_step types) m m' ∧ open_fds w' ≡ₚ open_fds w ∧
  match code with
  | Success => block ≠ 0 ∧ ∀ later others' path' w2, rtc (mount_step types) m' later →
      direct_block env page_size others' dev path' later w2 = (Ret (Success, block), (later, w2))
  | FileAccessError => block = 0 ∧ ∃ answer, ∀ later others' path' w2, rtc (mount_step types) m' later →
      direct_block env page_size others' dev path' later w2 = (Ret answer, (later, w2))
  | _ => code = UnknownError ∧ block = 0 ∧ m' = others m
  end.
Proof.
  intros Ho H. destruct (direct_block_settles _ _ _ _ _ _ _ _ _ H) as [Hm Hc]. split_and!.
  - destruct Hm as [->|[->|(b & ->)]]; [done|done|]. eapply rtc_r; [exact Ho|]. constructor.
  - revert H. unfold direct_block. destruct (mc_direct m !! dev); [by intros [= <- <- <- <-]|].
    destruct (open_direct path w) as [[fd error] w1] eqn:Eo. apply open_law in Eo. destruct (fd <? 0).
    { destruct (_ || _); intros [= <- <- <- <-]; by rewrite Eo. }
    apply close_law in Eo. destruct (direct_block_override env) as [forced|e]; [|done].
    pose proof (measure_direct_block_fds path (close_fd fd w1)) as Hf.
    destruct (negb (forced =? 0)).
    + rewrite settle_answer. intros [= _ _ _ <-]. exact Eo.
    + destruct (measure_direct_block _ _ _) as [b w2]. rewrite settle_answer. intros [= _ _ _ <-].
      simpl in Hf. by rewrite Hf.
  - assert (Hlater : ∀ b, mc_direct m' !! dev = Some b → ∀ later others' path' w2, rtc (mount_step types) m' later →
      direct_block env page_size others' dev path' later w2 = (Ret (answer_of b), (later, w2))).
    { intros b Hb later others' path' w2 Hl. apply direct_block_settled. apply mount_steps_grow in Hl as [_ Hl].
      by eapply lookup_weaken. }
    destruct Hc as [[[= -> ->] ->]|(b & Hb & [E|[= -> ->]])]; [done| |split; [done|eauto]].
    unfold answer_of in E. destruct (Z.eqb_spec b 0); injection E as -> ->; [split; [done|eauto]|].
    split; [done|]. intros later others' path' w2 Hl. rewrite (Hlater b Hb) by done. unfold answer_of.
    by rewrite (proj2 (Z.eqb_neq _ _)).
Qed.

(** C30: The block a mount is given is the smallest there is.  On a mount that serves a direct read when address,
    length and offset are multiples of what it requires, each a power of two of at most 64 KiB, with a file of
    128 KiB or more and no answer from statx, direct_block gives the smallest rung of the ladder that every
    requirement divides: any read aligned to it is served, and no smaller rung passes for it. *)
Theorem measured_block_is_exact (q : Requirement) others dev path m w fd1 fd2 size w1 w2 w3 w4 error1 error2 :
  requirement_ok q → 2 * MaxProbeBlock <= size →
  (∀ buffer n offset w, 0 <= (pread fd2 buffer n offset w).1.1 ∨ (pread fd2 buffer n offset w).1.2 ≠ EINVAL ↔
     serves q buffer n offset) →
  (∀ a n w, is_Some (memalign a n w).1) →
  mc_direct m !! dev = None → mc_direct (others m) !! dev = None → direct_block_override env = Ret 0 →
  open_direct path w = ((fd1, error1), w1) → 0 <= fd1 →
  statx_dio path (close_fd fd1 w1) = (None, w2) →
  open_direct path w2 = ((fd2, error2), w3) → 0 <= fd2 → file_size fd2 w3 = (Some size, w4) →
  let block := rung_for (required q) in
  (direct_block env page_size others dev path m w).1 = Ret (Success, block) ∧
  (∀ address n offset, address mod block = 0 → n mod block = 0 → offset mod block = 0 → serves q address n offset) ∧
  (∀ c, c ∈ ladder → c < block → ¬ serves q c c c).
Proof.
  intros Hq Hsize Hread Hmem Hm Hom Henv Ho1 Hfd1 Hx Ho2 Hfd2 Hs block.
  assert (Hr : required q <= MaxProbeBlock) by (destruct Hq as [_ (? & ? & ?)]; unfold required; lia).
  destruct (rung_for_spec _ Hr) as (Hin & Hle & Hleast). destruct (rung_power _ Hin) as (Hpow & Hrange & _).
  assert (Eb : rung_for (required q) = block) by done. clearbody block. rewrite Eb in *. split_and!.
  - unfold direct_block. rewrite Hm, Ho1, (proj2 (Z.ltb_ge fd1 0)) by done. rewrite Henv. simpl negb. cbv iota.
    unfold measure_direct_block, statx_dio_align. rewrite Hx. cbn [negb Z.eqb andb].
    rewrite Ho2, (proj2 (Z.ltb_ge fd2 0)), Hs by done.
    pose proof (ladder_measures page_size q fd2 size Hq Hread Hmem w4) as Hl.
    rewrite Eb, (proj2 (Z.leb_le (2 * block) size)) in Hl by lia.
    destruct (ladder_direct_block _ _ _ _) as [decided w5]. cbn [fst] in Hl. subst decided.
    cbn [lb_block]. rewrite settle_answer, Hom. cbn [default fst]. unfold answer_of.
    by rewrite (proj2 (Z.eqb_neq block 0)) by lia.
  - intros address n offset Ha Hn Hf. destruct Hq as [(Pa & Pl & Po) _]. unfold required in Hle.
    assert (Hdiv : ∀ r x, power_of_two r → r <= block → x mod block = 0 → x mod r = 0).
    { intros r x Hp Hrb Hxb. apply (power_divides r block) in Hrb; [|done..].
      assert (0 < r) by (destruct Hp as (k & ? & ->); apply Z.pow_pos_nonneg; lia).
      apply Z.mod_divide in Hxb; [|lia]. apply Z.mod_divide; [lia|].
      apply Z.mod_divide in Hrb; [|lia]. by etransitivity. }
    split_and!; apply Hdiv; auto; lia.
  - intros c Hc Hlt Hserves. pose proof (rung_passes q c 0 Hq Hc) as Hp. rewrite Z.add_0_l in Hp.
    apply Hp in Hserves; [|done]. specialize (Hleast c Hc Hserves). lia.
Qed.
End Answers.

(** ** A machine with one mount, that wants addresses aligned to 4096 and the rest to 512: what its opens answer
    is a script of errnos, zero for a descriptor *)

Definition disk : Requirement := mkRequirement 4096 512 512.

Record Machine := mkMachine { ma_opens : list Z; ma_next : Z; ma_open : list Z }.

Definition open_scripted (x : Machine) : (Z * Z) * Machine :=
  match ma_opens x with
  | error :: rest =>
      if error =? 0 then ((Z.abs (ma_next x), 0), mkMachine rest (ma_next x + 1) (Z.abs (ma_next x) :: ma_open x))
      else ((-1, error), mkMachine rest (ma_next x) (ma_open x))
  | [] => ((-1, 2), x)
  end.

Fixpoint remove_fd (fd : Z) (l : list Z) : list Z :=
  match l with [] => [] | x :: l => if decide (x = fd) then l else x :: remove_fd fd l end.

#[export] Instance machine : MountHost Machine := {
  stat_dev _ x := (Some 66305, x);
  fstat_dev _ x := (Some 66305, x);
  statfs_magic _ x := (Some 61267, x);
  fstatfs_magic _ x := (Some 61267, x);
  statx_dio _ x := (None, x);
  open_direct _ := open_scripted;
  close_fd fd x := mkMachine (ma_opens x) (ma_next x) (remove_fd fd (ma_open x));
  file_size _ x := (Some 1048576, x);
  memalign a _ x := (Some (3 * a), x);
  free_mem _ x := x;
  pread _ buffer n offset x := ((if decide (serves disk buffer n offset) then Z.abs n else -1, EINVAL), x);
  open_fds := ma_open }.

Lemma remove_fd_perm fd l k : l ≡ₚ fd :: k → remove_fd fd l ≡ₚ k.
Proof.
  revert k. induction l as [|x l IH]; intros k H; [by apply Permutation_nil_cons in H|]. simpl.
  destruct (decide (x = fd)) as [->|Hx]; [by apply Permutation.Permutation_cons_inv in H|].
  assert (Hin : x ∈ k) by (assert (Hin : x ∈ fd :: k) by (rewrite <- H; left); by apply elem_of_cons in Hin as [?|?]).
  apply elem_of_Permutation in Hin as (k' & Hk). rewrite Hk. apply perm_skip, IH.
  rewrite Hk, Permutation_swap in H. by apply Permutation.Permutation_cons_inv in H.
Qed.

#[export] Instance machine_laws : MountLaws Machine.
Proof.
  split; try done; simpl.
  - intros _ x fd error x'. unfold open_scripted. destruct (ma_opens x) as [|e rest]; [by intros [= <- <- <-]|].
    destruct (e =? 0); intros [= <- <- <-]; [|done]. by rewrite (proj2 (Z.ltb_ge _ 0)) by lia.
  - intros fd x l. apply remove_fd_perm.
  - intros a n x base x' [= <- <-]. split; [done|]. intros b [= <-]. apply Z_mod_mult.
Qed.

Lemma machine_reads fd buffer n offset (x : Machine) :
  0 <= (pread fd buffer n offset x).1.1 ∨ (pread fd buffer n offset x).1.2 ≠ EINVAL ↔ serves disk buffer n offset.
Proof. simpl. destruct (decide _) as [H|H]; [split; [done|lia]|]. split; [|done]. intros [?|?]; [lia|done]. Qed.

Definition alone (m : MountCapabilities) : MountCapabilities := m.
Definition shard : text := txt "/models/shard-1".
Definition fresh_machine (opens : list Z) : Machine := mkMachine opens 10 [].

Lemma measured_block_is_exact_witness :
  rung_for (required disk) = 4096 ∧
  (direct_block ∅ 4096 alone 66305 shard new_mount_capabilities (fresh_machine [0; 0])).1 = Ret (Success, 4096).
Proof.
  split; [reflexivity|].
  apply (measured_block_is_exact ∅ 4096 disk alone 66305 shard new_mount_capabilities (fresh_machine [0; 0]) 10 11 1048576
           (mkMachine [0] 11 [10]) (mkMachine [0] 11 []) (mkMachine [] 12 [11]) (mkMachine [] 12 [11]) 0 0).
  - split; [|split_and!; discriminate]. split_and!; [exists 12|exists 9|exists 9]; done.
  - discriminate.
  - apply machine_reads.
  - intros a n x. by exists (3 * a).
  - reflexivity.
  - reflexivity.
  - reflexivity.
  - reflexivity.
  - discriminate.
  - reflexivity.
  - reflexivity.
  - discriminate.
  - reflexivity.
Defined.

(** The answer is final: with the device settled, an open that now fails is not even tried. *)
Lemma direct_answers_are_final_witness :
  let m := mkMountCapabilities ∅ {[66305 := 4096]} in
  direct_block ∅ 4096 alone 66305 shard m (fresh_machine [22]) = (Ret (Success, 4096), (m, fresh_machine [22])).
Proof.
  destruct (direct_answers_are_final (W := Machine) ∅ ∅ 4096 alone 66305 shard new_mount_capabilities (fresh_machine [0; 0])
              Success 4096 (mkMountCapabilities ∅ {[66305 := 4096]}) (mkMachine [] 12 [])) as (_ & _ & _ & H).
  - apply rtc_refl.
  - vm_compute. reflexivity.
  - apply H, rtc_refl.
Defined.

(** A mount can be condemned by one failed open.  direct_block opens the file to ask whether the mount serves
    direct reads, and measure_direct_block opens it again to measure.  When the second open fails, for want of
    descriptors say (EMFILE, 24), the mount is remembered as serving none, and every later question is answered
    so, though the mount serves direct reads at 4096 and the first question alone would have said it cannot
    tell. *)
Theorem second_open_failure_condemns_the_mount :
  let first := direct_block ∅ 4096 alone 66305 shard new_mount_capabilities (fresh_machine [0; 24; 0; 0]) in
  let later := direct_block ∅ 4096 alone 66305 (txt "/models/shard-2") first.2.1 first.2.2 in
  first.1 = Ret (FileAccessError, 0) ∧ later.1 = Ret (FileAccessError, 0) ∧
  (direct_block ∅ 4096 alone 66305 shard new_mount_capabilities (fresh_machine [24])).1 = Ret (UnknownError, 0) ∧
  (direct_block ∅ 4096 alone 66305 shard new_mount_capabilities (fresh_machine [0; 0])).1 = Ret (Success, 4096).
Proof. vm_compute. done. Qed.

(** The topmost probe is not as strict as its comment says: memory aligned to 64 KiB may be aligned to more
    after it, and then a mount that requires 128 KiB of addresses alone is said to serve 64 KiB. *)
Example top_rung_may_be_too_aligned :
  let base := MaxProbeBlock in
  base mod MaxProbeBlock = 0 ∧ serves (mkRequirement 131072 1 1) (base + MaxProbeBlock) MaxProbeBlock MaxProbeBlock.
Proof. by split. Qed.
