(* ===== verification/ScratchPool.v ===== *)
(** The pool of block-sized aligned buffers for bounced reads (posix_io/scratch_pool).

    posix_memalign is a parameter: given an alignment and a size it answers an address or fails.  The
    pool's state is its block and its stack of free buffers. *)

From S2P Require Import Prelude ResponseCode.

(** ** allocatable: the smallest power of two posix_memalign accepts that holds a block *)

Definition sizeof_ptr : Z := 8.

(** [while (alignment < block && alignment != 0) alignment <<= 1;], [None] when the fuel runs out. *)
Fixpoint allocatable_loop (fuel : nat) (alignment block : Z) : option Z :=
  match fuel with
  | O => None
  | S fuel =>
      if (alignment <? block) && negb (alignment =? 0)
      then allocatable_loop fuel (wrap64 (Z.shiftl alignment 1)) block
      else Some alignment
  end.

(** Sixty-two rounds reach 2^64, which wraps to zero and ends the loop. *)
Definition allocatable (block : Z) : Z :=
  match allocatable_loop 63 sizeof_ptr block with
  | Some alignment => if alignment =? 0 then sizeof_ptr else alignment
  | None => 0
  end.

Lemma allocatable_loop_spec block : 0 <= block <= 2 ^ 63 →
  ∀ n k, Z.of_nat n = 63 - k → 3 <= k → (k = 3 ∨ 2 ^ (k - 1) < block) →
  ∃ m, k <= m <= 63 ∧ allocatable_loop (S n) (2 ^ k) block = Some (2 ^ m) ∧ block <= 2 ^ m ∧
       (m = 3 ∨ 2 ^ (m - 1) < block).
Proof.
  intros Hb. induction n as [|n IH]; intros k Hn Hk Hlo.
  - assert (k = 63) as -> by lia. simpl. exists 63.
    rewrite (proj2 (Z.ltb_ge _ _)) by lia. simpl. split_and!; auto; lia.
  - assert (Hpos : 0 < 2 ^ k) by (apply Z.pow_pos_nonneg; lia).
    cbn [allocatable_loop]. destruct (Z.ltb_spec (2 ^ k) block) as [Hlt|Hge].
    + rewrite (proj2 (Z.eqb_neq _ _)) by lia. simpl.
      rewrite Z.shiftl_mul_pow2, Z.pow_1_r by lia.
      assert (Hs : 2 ^ k * 2 = 2 ^ (k + 1)) by (rewrite Z.pow_add_r; lia).
      assert (2 ^ (k + 1) <= 2 ^ 63) by (apply Z.pow_le_mono_r; lia).
      rewrite Hs, wrap64_small by (split; [lia|]; apply Z.le_lt_trans with (2 ^ 63); [done|reflexivity]).
      destruct (IH (k + 1)) as (m & ? & Hm & ?); [lia|lia|right; by replace (k + 1 - 1) with k by lia|].
      exists m. split; [lia|]. split; [exact Hm|done].
    + simpl. exists k. split_and!; auto; lia.
Qed.

(** Allocatable terminates within its fuel and answers the least power of two that is at least
    the size of a pointer and at least the block, so every buffer holds a whole block and the
    alignment is one posix_memalign accepts. *)
Theorem allocatable_spec block :
  0 <= block <= 2 ^ 63 →
  ∃ m, 3 <= m <= 63 ∧ allocatable block = 2 ^ m ∧ block <= allocatable block ∧
       (∀ j, 3 <= j → block <= 2 ^ j → allocatable block <= 2 ^ j).
Proof.
  intros Hb. destruct (allocatable_loop_spec block Hb 60 3) as (m & Hm & E & Hle & Hlo); [done|done|by left|].
  assert (Hmono : ∀ n a r, allocatable_loop n a block = Some r → ∀ k, allocatable_loop (n + k) a block = Some r).
  { induction n as [|n IH]; intros a r; simpl; [done|]. intros H k. case_match; auto. }
  assert (Ha : allocatable block = 2 ^ m).
  { pose proof (Hmono 61%nat 8 (2 ^ m) E 2%nat) as E2. change (61 + 2)%nat with 63%nat in E2.
    unfold allocatable, sizeof_ptr. rewrite E2, (proj2 (Z.eqb_neq _ _)); [done|].
    assert (0 < 2 ^ m) by (apply Z.pow_pos_nonneg; lia). lia. }
  exists m. rewrite Ha. split_and!; auto; try lia.
  intros j Hj Hbj. apply Z.pow_le_mono_r; [lia|].
  destruct Hlo as [->|Hlo]; [done|].
  destruct (decide (m <= j)) as [|Hmj]; [done|]. exfalso.
  assert (2 ^ j <= 2 ^ (m - 1)) by (apply Z.pow_le_mono_r; lia). lia.
Qed.

Lemma allocatable_spec_witness :
  allocatable 3000 = 4096 ∧ allocatable 1 = 8 ∧ 3000 <= allocatable 3000.
Proof.
  split; [reflexivity|]. split; [reflexivity|].
  destruct (allocatable_spec 3000) as (m & _ & _ & H & _); [lia|exact H].
Defined.

(** ** The pool *)

Record ScratchPool := mkPool { block : Z; memory : Z; free : list Z }.

Section Pool.
(** [memalign alignment size]: the address, or [None] when the allocation is refused. *)
Context (memalign : Z → Z → option Z).

Definition slices (base blk : Z) (count : nat) : list Z :=
  map (λ i, base + Z.of_nat i * blk) (seq 0 count).

Definition make_pool (count : nat) (blk : Z) : outcome ScratchPool :=
  let b := allocatable blk in
  if decide (count = 0%nat) then Ret (mkPool b 0 [])
  else match memalign b (Z.of_nat count ⊗ b) with
       | None => Throw (Code UnknownError)
       | Some raw => Ret (mkPool b raw (slices raw b count))
       end.

(** The back of the vector is the last element of the list. *)
Definition take (p : ScratchPool) : option Z * ScratchPool :=
  match last (free p) with
  | None => (None, p)
  | Some buffer => (Some buffer, mkPool (block p) (memory p) (removelast (free p)))
  end.

Definition give (buffer : Z) (p : ScratchPool) : outcome ScratchPool :=
  ASSERT (negb (buffer =? 0)) ;;!
  Ret (mkPool (block p) (memory p) (free p ++ [buffer])).

(** What a worker does with a pool: it takes buffers and gives back ones it holds. *)
Inductive step : ScratchPool * list Z → ScratchPool * list Z → Prop :=
| step_take p held b p' : take p = (Some b, p') → step (p, held) (p', b :: held)
| step_take_none p held : take p = (None, p) → step (p, held) (p, held)
| step_give p held1 b held2 p' :
    give b p = Ret p' → step (p, held1 ++ b :: held2) (p', held1 ++ held2).

Inductive reachable (p0 : ScratchPool) : ScratchPool * list Z → Prop :=
| reach_init : reachable p0 (p0, [])
| reach_step s s' : reachable p0 s → step s s' → reachable p0 s'.

(** The documented promise of posix_memalign: a non-null address that is a multiple of the
    alignment. *)
Definition memalign_ok : Prop :=
  ∀ alignment size base, memalign alignment size = Some base → base ≠ 0 ∧ base mod alignment = 0.

Lemma last_removelast (l : list Z) b : last l = Some b → l = removelast l ++ [b].
Proof.
  intros H. destruct l as [|x l] using rev_ind; [done|].
  rewrite last_snoc in H. injection H as ->. by rewrite removelast_last.
Qed.

(** Free and held buffers together are always the slots the pool was built with. *)
Lemma reachable_slots p0 p held : reachable p0 (p, held) →
  Permutation (free p ++ held) (free p0) ∧ block p = block p0.
Proof.
  remember (p, held) as s eqn:Es. intros H. revert p held Es.
  induction H as [|s s' Hr IH Hs]; intros p held Es.
  - injection Es as <- <-. by rewrite app_nil_r.
  - subst s'. inversion Hs as [q h b p1 Ht|q h Ht|q h1 b h2 p1 Hg]; subst.
    + destruct (IH _ _ eq_refl) as [IH1 IH2]. unfold take in Ht.
      destruct (last (free q)) as [b'|] eqn:El; [|done]. injection Ht as -> <-. simpl.
      split; [|done]. rewrite <- IH1. rewrite (last_removelast _ _ El) at 2.
      by rewrite <- app_assoc.
    + by apply IH.
    + destruct (IH _ _ eq_refl) as [IH1 IH2]. unfold give in Hg. invert_ret Hg.
      injection Hg as <-. simpl. split; [|done]. rewrite <- IH1, <- app_assoc.
      apply Permutation_app_head. simpl. apply Permutation_middle.
Qed.

Lemma slices_NoDup base blk count : 0 < blk → NoDup (slices base blk count).
Proof.
  intros Hb. apply NoDup_fmap_2_strong; [|apply NoDup_seq]. intros i j _ _ E. nia.
Qed.

Lemma slices_elem base blk count b :
  b ∈ slices base blk count ↔ ∃ i, (i < count)%nat ∧ b = base + Z.of_nat i * blk.
Proof.
  unfold slices. rewrite list_elem_of_fmap. split.
  - intros (i & -> & Hi). apply elem_of_seq in Hi. exists i. split; [lia|done].
  - intros (i & Hi & ->). exists i. split; [done|]. apply elem_of_seq. lia.
Qed.

(** Whatever a worker takes and gives back, the buffers it holds are distinct whole blocks of
    the one allocation, aligned and non-overlapping, and a take fails only when every buffer of the
    pool is already held. *)
Theorem pool_safe count blk p0 p held :
  memalign_ok → 0 <= blk <= 2 ^ 63 → make_pool count blk = Ret p0 →
  reachable p0 (p, held) →
  NoDup held ∧
  (∀ b, b ∈ held → b mod block p = 0 ∧ blk <= block p ∧
        memory p0 <= b ∧ b + block p <= memory p0 + Z.of_nat count * block p) ∧
  (∀ b b', b ∈ held → b' ∈ held → b ≠ b' → b + block p <= b' ∨ b' + block p <= b) ∧
  (is_Some (take p).1 ↔ (length held < count)%nat).
Proof.
  intros Hma Hblk Hmk Hr. destruct (reachable_slots _ _ _ Hr) as [Hperm Hb].
  destruct (allocatable_spec blk Hblk) as (m & Hm & Ha & Hle & _).
  assert (Hpos : 0 < allocatable blk) by (rewrite Ha; apply Z.pow_pos_nonneg; lia).
  assert (Hp0 : block p0 = allocatable blk ∧ free p0 = slices (memory p0) (allocatable blk) count ∧
                (count ≠ 0%nat → memory p0 mod allocatable blk = 0)).
  { unfold make_pool in Hmk. destruct (decide (count = 0%nat)) as [->|Hc].
    - by injection Hmk as <-.
    - destruct (memalign _ _) as [raw|] eqn:E; [|done]. injection Hmk as <-. simpl.
      split_and!; [done|done|]. intros _. by apply (Hma _ _ _ E). }
  destruct Hp0 as (Hb0 & Hf0 & Hal). rewrite Hb, Hb0. rewrite Hf0 in Hperm.
  assert (Hnd : NoDup (free p ++ held)) by (rewrite Hperm; by apply slices_NoDup).
  apply NoDup_app in Hnd as (_ & _ & Hnd).
  assert (Hin : ∀ b, b ∈ held → ∃ i, (i < count)%nat ∧ b = memory p0 + Z.of_nat i * allocatable blk).
  { intros b Hbin. apply slices_elem. rewrite <- Hperm. apply elem_of_app. by right. }
  split_and!; [done| | |].
  - intros b (i & Hi & ->)%Hin. split_and!; [|done|nia|nia].
    rewrite Z.mod_add by lia. apply Hal. lia.
  - intros b b' (i & Hi & ->)%Hin (j & Hj & ->)%Hin Hne.
    destruct (decide (i < j)%nat); [left; nia|]. right. assert (i ≠ j) by (intros ->; done). nia.
  - apply Permutation_length in Hperm. unfold slices in Hperm.
    rewrite length_app, length_map, length_seq in Hperm.
    unfold take. destruct (free p) as [|x l] using rev_ind; simpl.
    + simpl in Hperm. split; [by intros [??]|lia].
    + rewrite last_snoc. rewrite length_app in Hperm. simpl in Hperm. split; [lia|eauto].
Qed.
End Pool.

Definition example_memalign (alignment size : Z) : option Z :=
  if alignment =? 4096 then Some 40960 else None.

Lemma pool_safe_witness :
  ∃ p0 p, make_pool example_memalign 2 3000 = Ret p0 ∧ reachable p0 (p, [45056]) ∧
          (is_Some (take p).1 ↔ (1 < 2)%nat).
Proof.
  exists (mkPool 4096 40960 [40960; 45056]), (mkPool 4096 40960 [40960]).
  assert (Hr : reachable (mkPool 4096 40960 [40960; 45056]) (mkPool 4096 40960 [40960], [45056]))
    by (eapply reach_step; [apply reach_init|]; by apply step_take).
  split_and!; [reflexivity|exact Hr|].
  refine (proj2 (proj2 (proj2 (pool_safe example_memalign 2 3000 _ _ [45056] _ _ _ Hr)))).
  - intros a sz base. unfold example_memalign. destruct (Z.eqb_spec a 4096) as [->|]; [|done].
    intros [= <-]. by split.
  - lia.
  - reflexivity.
Defined.
