(* ===== verification/SharedQueue.v ===== *)
(** The response queue (common/shared_queue, common/response) and its concurrent use.

    [queue] is the state behind the mutex together with the semaphore's count.  The critical sections
    are functions; [step] interleaves them with the semaphore operations that run outside the lock, so
    the reachable states are those of any number of producers, stoppers and consumers.  [Responder] is
    what a producer relies on; the queue implements it. *)

From S2P Require Import Prelude ResponseCode.

Record Response := mkResponse
  { submission_id : Z; file_index : Z; index : Z; ret : ResponseCode }.

#[export] Instance Response_eq_dec : EqDecision Response.
Proof. solve_decision. Defined.

(** The one-argument constructor: sentinel responses carry no file and no range. *)
Definition response_of_code (c : ResponseCode) : Response := mkResponse 0 0 0 c.

Inductive QueueMode := FINISH_ON_DRAIN | PERSISTENT.

#[export] Instance QueueMode_eq_dec : EqDecision QueueMode.
Proof. solve_decision. Defined.

(** What the template asks of its responses: one for a code alone, and the code of one. *)
Class QueueResponse (A : Type) := { of_code : ResponseCode → A; code_of : A → ResponseCode }.

#[export] Instance response_queued : QueueResponse Response := { of_code := response_of_code; code_of := ret }.

Section Queue.
Context {A : Type}.

Record shared_queue := mkQueue {
  mode : QueueMode;
  running : Z;               (** expected responses, [unsigned] *)
  responses : list A;
  ready : nat;               (** the semaphore *)
  stopped : bool;
  total_bytesize : Z;
  successful : bool;
  unexpected_push_error : bool }.

Definition make_queue (running : Z) (m : QueueMode) : shared_queue :=
  mkQueue m running [] 0 false 0 true false.

(** ** The operations' critical sections *)

Definition increment (n : Z) (q : shared_queue) : shared_queue :=
  mkQueue (mode q) (add32 (running q) n) (responses q) (ready q) (stopped q) (total_bytesize q)
          (successful q) (unexpected_push_error q).

Definition finished (q : shared_queue) : bool :=
  (running q =? 0) && match responses q with [] => true | _ :: _ => false end.

Definition valid (q : shared_queue) : ResponseCode :=
  if unexpected_push_error q then UnknownError else Success.

(** push up to the release of the mutex; the boolean is [posted_to_semaphore]. *)
Definition push_locked `{!QueueResponse A} (r : A) (q : shared_queue) : shared_queue * bool :=
  if stopped q then (q, false)
  else
    let ok := successful q && bool_decide (code_of r = Success) in
    if running q >? 0
    then (mkQueue (mode q) (sub32 (running q) 1) (responses q ++ [r]) (ready q) (stopped q)
                  (total_bytesize q) ok (unexpected_push_error q), true)
    else (mkQueue (mode q) (running q) (responses q) (ready q) (stopped q)
                  (total_bytesize q) ok true, false).

Definition add_bytes (n : Z) (q : shared_queue) : shared_queue :=
  mkQueue (mode q) (running q) (responses q) (ready q) (stopped q) (total_bytesize q ⊕ n)
          (successful q) (unexpected_push_error q).

Definition set_ready (n : nat) (q : shared_queue) : shared_queue :=
  mkQueue (mode q) (running q) (responses q) n (stopped q) (total_bytesize q)
          (successful q) (unexpected_push_error q).

Definition post (q : shared_queue) : shared_queue := set_ready (S (ready q)) q.

(** stop up to the release of the mutex; the boolean is [needs_post]. *)
Definition stop_locked (q : shared_queue) : shared_queue * bool :=
  (mkQueue (mode q) (running q) (responses q) (ready q) true (total_bytesize q)
           (successful q) (unexpected_push_error q), negb (stopped q)).

(** pop before the wait: a result ends the call there. *)
Definition pop_entry `{!QueueResponse A} (q : shared_queue) : option A :=
  if stopped q then Some (of_code FinishedError)
  else if bool_decide (mode q = FINISH_ON_DRAIN) && finished q
       then Some (of_code FinishedError)
       else None.

(** pop after the wait, under the mutex. *)
Definition pop_locked `{!QueueResponse A} (q : shared_queue) : outcome (A * shared_queue) :=
  if stopped q then Ret (of_code FinishedError, q)
  else match responses q with
       | [] => Throw AssertFailed
       | r :: rs =>
           Ret (r, mkQueue (mode q) (running q) rs (ready q) (stopped q) (total_bytesize q)
                           (successful q) (unexpected_push_error q))
       end.

(** push and stop as a caller sees them, the post included. *)
Definition push `{!QueueResponse A} (r : A) (bytesize : Z) (q : shared_queue) : shared_queue :=
  let '(q', posted) := push_locked r (add_bytes bytesize q) in
  if posted : bool then post q' else q'.

Definition stop (q : shared_queue) : shared_queue :=
  let '(q', posted) := stop_locked q in if posted : bool then post q' else q'.
End Queue.
Arguments shared_queue : clear implicits.

(** The queue of the streamer's own responses. *)
Abbreviation queue := (shared_queue Response).

(** ** What a producer relies on *)

(** A responder that still expects [n] responses takes each of them once, in order. *)
Class Responder (R : Type) := {
  responder_push : Response → Z → R → R;
  responder_log : R → list Response;
  responder_expects : R → nat → Prop;
  responder_push_log : ∀ r x b n, responder_expects r (S n) →
    responder_log (responder_push x b r) = responder_log r ++ [x] ∧
    responder_expects (responder_push x b r) n;
  responder_expects_le : ∀ r n m, responder_expects r n → (m <= n)%nat → responder_expects r m }.

#[export] Program Instance queue_responder : Responder queue := {
  responder_push := push;
  responder_log := responses;
  responder_expects q n := stopped q = false ∧ is_unsigned (running q) ∧ Z.of_nat n <= running q }.
Next Obligation.
  intros q x b n (Hs & Hr & Hn). unfold push, push_locked. simpl. rewrite Hs.
  rewrite Z.gtb_ltb, (proj2 (Z.ltb_lt _ _)) by lia. simpl.
  split_and!; [done|done|unwrap; mlia..].
Qed.
Next Obligation. intros q n m (? & ? & ?) ?. split_and!; [done|done|lia]. Qed.

(** ** Concurrent executions *)

(** [posting] counts the threads that left a critical section and have not posted yet, [holding] the
    consumers that took a token and have not locked yet.  The ghost history: responses the queue
    [accepted], responses [delivered] by pop, how many were [expected] in all, whether the ASSERT of
    pop ever fired, and how many pops ended after stop. *)
Record system := mkSystem {
  q : queue; posting : nat; holding : nat;
  accepted : list Response; delivered : list Response; expected : Z;
  assert_failed : bool; ended : nat }.

Definition initial (running : Z) (m : QueueMode) : system :=
  mkSystem (make_queue running m) 0 0 [] [] running false 0.

Inductive step : system → system → Prop :=
| step_increment s n : is_unsigned n →
    step s (mkSystem (increment n (q s)) (posting s) (holding s) (accepted s) (delivered s)
                     (expected s + n) (assert_failed s) (ended s))
| step_push s r bytes q' : push_locked r (add_bytes bytes (q s)) = (q', true) →
    step s (mkSystem q' (S (posting s)) (holding s) (accepted s ++ [r]) (delivered s)
                     (expected s) (assert_failed s) (ended s))
| step_push_refused s r bytes q' : push_locked r (add_bytes bytes (q s)) = (q', false) →
    step s (mkSystem q' (posting s) (holding s) (accepted s) (delivered s)
                     (expected s) (assert_failed s) (ended s))
| step_stop s q' needs_post : stop_locked (q s) = (q', needs_post) →
    step s (mkSystem q' (if needs_post : bool then S (posting s) else posting s) (holding s)
                     (accepted s) (delivered s) (expected s) (assert_failed s) (ended s))
| step_post s n : posting s = S n →
    step s (mkSystem (post (q s)) n (holding s) (accepted s) (delivered s)
                     (expected s) (assert_failed s) (ended s))
| step_wait s n : ready (q s) = S n →
    step s (mkSystem (set_ready n (q s)) (posting s) (S (holding s)) (accepted s) (delivered s)
                     (expected s) (assert_failed s) (ended s))
| step_take s n r q' : holding s = S n → pop_locked (q s) = Ret (r, q') → stopped (q s) = false →
    step s (mkSystem q' (posting s) n (accepted s) (delivered s ++ [r])
                     (expected s) (assert_failed s) (ended s))
| step_take_stopped s n r q' : holding s = S n → pop_locked (q s) = Ret (r, q') → stopped (q s) = true →
    step s (mkSystem q' (posting s) n (accepted s) (delivered s)
                     (expected s) (assert_failed s) (S (ended s)))
| step_take_assert s n e : holding s = S n → pop_locked (q s) = Throw e →
    step s (mkSystem (q s) (posting s) n (accepted s) (delivered s)
                     (expected s) true (ended s)).

Inductive reachable (running : Z) (m : QueueMode) : system → Prop :=
| reach_initial : reachable running m (initial running m)
| reach_step s s' : reachable running m s → step s s' → reachable running m s'.

(** Tokens: posted, about to be posted, or taken by a consumer that has not popped yet. *)
Definition tokens (s : system) : nat := ready (q s) + posting s + holding s.

Record invariant (s : system) : Prop := {
  inv_fifo : accepted s = delivered s ++ responses (q s);
  inv_tokens : stopped (q s) = false → tokens s = length (responses (q s)) ∧ ended s = 0%nat;
  inv_stop : stopped (q s) = true → (tokens s + ended s > length (responses (q s)))%nat;
  inv_running : is_unsigned (expected s) → running (q s) + Z.of_nat (length (accepted s)) = expected s;
  inv_range : is_unsigned (running (q s));
  inv_expected : 0 <= expected s;
  inv_assert : assert_failed s = false }.

Lemma invariant_initial running m : is_unsigned running → invariant (initial running m).
Proof. intros H. constructor; simpl; try done; unfold tokens; simpl; try lia; mlia. Qed.

Lemma push_locked_cases r b (x q' : queue) posted : push_locked r (add_bytes b x) = (q', posted) →
  mode q' = mode x ∧ ready q' = ready x ∧ stopped q' = stopped x ∧
  if posted then stopped x = false ∧ 0 < running x ∧ running q' = sub32 (running x) 1 ∧
                 responses q' = responses x ++ [r]
  else running q' = running x ∧ responses q' = responses x.
Proof.
  unfold push_locked. simpl. destruct (stopped x) eqn:E; [intros [= <- <-]; simpl; by rewrite E|].
  rewrite Z.gtb_ltb. case_bool; intros [= <- <-]; simpl; by split_and!.
Qed.

Lemma pop_locked_open (x : queue) r q' : stopped x = false → pop_locked x = Ret (r, q') →
  responses x = r :: responses q' ∧ stopped q' = false ∧ ready q' = ready x ∧ running q' = running x.
Proof.
  unfold pop_locked. intros ->. destruct (responses x) as [|y l]; [done|].
  intros [= <- <-]. by split_and!.
Qed.

Lemma stop_locked_spec (x q' : queue) np : stop_locked x = (q', np) →
  np = negb (stopped x) ∧ stopped q' = true ∧ running q' = running x ∧ responses q' = responses x ∧
  ready q' = ready x.
Proof. by intros [= <- <-]. Qed.

Lemma push_preserves s r b q' : invariant s → push_locked r (add_bytes b (q s)) = (q', true) →
  invariant (mkSystem q' (S (posting s)) (holding s) (accepted s ++ [r]) (delivered s)
                      (expected s) (assert_failed s) (ended s)).
Proof.
  intros [Hf Ht Hs Hr Hg He Ha] Hp. unfold tokens in *.
  apply push_locked_cases in Hp as (_ & Hrd & Hst & Ho & Hpos & Hrun & Hresp).
  specialize (Ht Ho) as [Ht He0]. assert (Hsub : running q' = running (q s) - 1) by (rewrite Hrun; unwrap; done).
  constructor; simpl; unfold tokens; simpl; rewrite ?Hresp, ?Hsub, ?Hst, ?Hrd, ?length_app; simpl.
  - by rewrite Hf, app_assoc.
  - intros _. lia.
  - congruence.
  - intros Hx. specialize (Hr Hx). lia.
  - mlia.
  - done.
  - done.
Qed.

Lemma refused_preserves s r b q' : invariant s → push_locked r (add_bytes b (q s)) = (q', false) →
  invariant (mkSystem q' (posting s) (holding s) (accepted s) (delivered s)
                      (expected s) (assert_failed s) (ended s)).
Proof.
  intros [Hf Ht Hs Hr Hg He Ha] Hp. unfold tokens in *.
  apply push_locked_cases in Hp as (_ & Hrd & Hst & Hrun & Hresp).
  constructor; simpl; unfold tokens; simpl; by rewrite ?Hresp, ?Hrun, ?Hst, ?Hrd.
Qed.

Lemma stop_preserves s q' np : invariant s → stop_locked (q s) = (q', np) →
  invariant (mkSystem q' (if np : bool then S (posting s) else posting s) (holding s)
                      (accepted s) (delivered s) (expected s) (assert_failed s) (ended s)).
Proof.
  intros [Hf Ht Hs Hr Hg He Ha] (-> & Hst & Hrun & Hresp & Hrd)%stop_locked_spec. unfold tokens in *.
  constructor; simpl; unfold tokens; simpl; rewrite ?Hresp, ?Hrun, ?Hst, ?Hrd; try done.
  intros _. destruct (stopped (q s)); simpl; [apply Hs|destruct Ht]; auto; lia.
Qed.

Lemma take_preserves s n r q' : invariant s → holding s = S n → pop_locked (q s) = Ret (r, q') →
  stopped (q s) = false →
  invariant (mkSystem q' (posting s) n (accepted s) (delivered s ++ [r])
                      (expected s) (assert_failed s) (ended s)).
Proof.
  intros [Hf Ht Hs Hr Hg He Ha] Hn Hp Ho. unfold tokens in *. specialize (Ht Ho) as [Ht He0].
  apply pop_locked_open in Hp as (Hresp & Hst & Hrd & Hrun); [|done].
  rewrite Hresp in *. simpl in *.
  constructor; simpl; unfold tokens; simpl; rewrite ?Hrun, ?Hst, ?Hrd; try done.
  - by rewrite Hf, <- app_assoc.
  - intros _. lia.
Qed.

Lemma invariant_step s s' : invariant s → step s s' → invariant s'.
Proof.
  intros Hi Hstep. destruct Hstep as [s n Hn|s r b q' Hp|s r b q' Hp|s q' np Hp|s n Hn|s n Hn|s n r q' Hn Hp Ho
                     |s n r q' Hn Hp Ho|s n e Hn Hp];
    eauto using push_preserves, refused_preserves, stop_preserves, take_preserves;
    destruct Hi as [Hf Ht Hs Hr Hg He Ha]; unfold tokens in *.
  - constructor; simpl; unfold tokens; simpl; try done; [|apply wrap32_is_unsigned|mlia].
    intros Hx. assert (is_unsigned (expected s)) by mlia. specialize (Hr ltac:(done)). unwrap. lia.
  - constructor; simpl; unfold tokens; simpl; try done; intros H; [destruct (Ht H)|specialize (Hs H)]; lia.
  - constructor; simpl; unfold tokens; simpl; try done; intros H; [destruct (Ht H)|specialize (Hs H)]; lia.
  - unfold pop_locked in Hp. rewrite Ho in Hp. injection Hp as <- <-.
    constructor; simpl; unfold tokens; simpl; try done; [by rewrite Ho|].
    intros _. specialize (Hs Ho). lia.
  - exfalso. unfold pop_locked in Hp. destruct (stopped (q s)) eqn:Ho; [done|].
    destruct (responses (q s)); [|done]. destruct (Ht eq_refl). simpl in *. lia.
Qed.

Lemma reachable_invariant running m s : is_unsigned running → reachable running m s → invariant s.
Proof. intros H. induction 1; eauto using invariant_initial, invariant_step. Qed.

(** ** Properties *)

(** C24: under any interleaving of producers, stoppers and consumers the queue loses, duplicates and
    reorders nothing: what pop delivered followed by what is queued is what push accepted, a consumer
    that got a token always finds a response (the ASSERT never fires), and until stop there is
    exactly one token per queued response, so no response waits without a wake-up. *)
Theorem queue_fifo_no_assert n m s :
  is_unsigned n → reachable n m s →
  accepted s = delivered s ++ responses (q s) ∧
  assert_failed s = false ∧
  (stopped (q s) = false → tokens s = length (responses (q s))).
Proof.
  intros Hn Hr. destruct (reachable_invariant _ _ _ Hn Hr) as [Hf Ht _ _ _ _ Ha].
  split_and!; [done|done|]. intros H. by destruct (Ht H).
Qed.

(** Stop always wakes the consumer: from the moment the queue is stopped until a pop has ended
    because of it, a token is available, about to be posted, or already held, so a consumer blocked
    in pop cannot wait for ever; and that pop answers FinishedError. *)
Theorem stop_wakes_consumer n m s :
  is_unsigned n → reachable n m s → stopped (q s) = true →
  (ended s = 0%nat → (0 < tokens s)%nat) ∧
  pop_entry (q s) = Some (response_of_code FinishedError) ∧
  pop_locked (q s) = Ret (response_of_code FinishedError, q s).
Proof.
  intros Hn Hr Ho. destruct (reachable_invariant _ _ _ Hn Hr) as [_ _ Hs _ _ _ _].
  specialize (Hs Ho). unfold pop_entry, pop_locked. rewrite Ho. split_and!; [lia|done|done].
Qed.

(** A drained FINISH_ON_DRAIN queue has delivered everything: when pop answers FinishedError at
    entry without stop, as many responses were delivered as were announced, and a persistent queue
    never ends a pop that way. *)
Theorem drain_means_all_delivered n m s :
  is_unsigned n → reachable n m s → is_unsigned (expected s) → stopped (q s) = false →
  pop_entry (q s) ≠ None →
  Z.of_nat (length (delivered s)) = expected s ∧ mode (q s) = FINISH_ON_DRAIN.
Proof.
  intros Hn Hr He Ho Hp. destruct (reachable_invariant _ _ _ Hn Hr) as [Hf _ _ Hrun _ _ _].
  unfold pop_entry, finished in Hp. rewrite Ho in Hp.
  destruct (bool_decide_reflect (mode (q s) = FINISH_ON_DRAIN)) as [Hm|]; [|done].
  destruct (Z.eqb_spec (running (q s)) 0) as [Hz|]; [|done].
  destruct (responses (q s)) as [|x l] eqn:Hnil; [|done].
  rewrite app_nil_r in Hf. specialize (Hrun He). rewrite Hf in Hrun. split; [lia|done].
Qed.

(** ** Witnesses: one response pushed and popped, then stop *)

Definition r0 : Response := mkResponse 1 0 0 Success.

Definition q_pushed : queue := mkQueue FINISH_ON_DRAIN 0 [r0] 0 false 8 true false.

Lemma run_pushed : reachable 1 FINISH_ON_DRAIN (mkSystem q_pushed 1 0 [r0] [] 1 false 0).
Proof. eapply reach_step; [apply reach_initial|]. by apply (step_push (initial 1 FINISH_ON_DRAIN) r0 8). Qed.

Lemma run_posted : reachable 1 FINISH_ON_DRAIN (mkSystem (post q_pushed) 0 0 [r0] [] 1 false 0).
Proof. eapply reach_step; [apply run_pushed|]. by apply (step_post (mkSystem q_pushed 1 0 [r0] [] 1 false 0) 0). Qed.

Lemma run_waited : reachable 1 FINISH_ON_DRAIN (mkSystem q_pushed 0 1 [r0] [] 1 false 0).
Proof.
  eapply reach_step; [apply run_posted|].
  by apply (step_wait (mkSystem (post q_pushed) 0 0 [r0] [] 1 false 0) 0).
Qed.

Lemma run_delivered : reachable 1 FINISH_ON_DRAIN
  (mkSystem (mkQueue FINISH_ON_DRAIN 0 [] 0 false 8 true false) 0 0 [r0] [r0] 1 false 0).
Proof.
  eapply reach_step; [apply run_waited|].
  by apply (step_take (mkSystem q_pushed 0 1 [r0] [] 1 false 0) 0 r0).
Qed.

Lemma run_stopped : reachable 1 FINISH_ON_DRAIN
  (mkSystem (mkQueue FINISH_ON_DRAIN 1 [] 0 true 0 true false) 1 0 [] [] 1 false 0).
Proof.
  eapply reach_step; [apply reach_initial|]. by apply (step_stop (initial 1 FINISH_ON_DRAIN) _ true).
Qed.

Lemma queue_fifo_no_assert_witness :
  tokens (mkSystem q_pushed 1 0 [r0] [] 1 false 0) = 1%nat.
Proof.
  destruct (queue_fifo_no_assert 1 FINISH_ON_DRAIN _ ltac:(unfold is_unsigned, unsigned_modulus; lia) run_pushed)
    as (_ & _ & H). exact (H eq_refl).
Defined.

Lemma stop_wakes_consumer_witness :
  (0 < tokens (mkSystem (mkQueue FINISH_ON_DRAIN 1 [] 0 true 0 true false) 1 0 [] [] 1 false 0))%nat.
Proof.
  destruct (stop_wakes_consumer 1 FINISH_ON_DRAIN _ ltac:(unfold is_unsigned, unsigned_modulus; lia)
              run_stopped eq_refl) as (H & _). exact (H eq_refl).
Defined.

Lemma drain_means_all_delivered_witness :
  Z.of_nat (length [r0]) = 1 ∧ FINISH_ON_DRAIN = FINISH_ON_DRAIN.
Proof.
  apply (drain_means_all_delivered 1 FINISH_ON_DRAIN _ ltac:(unfold is_unsigned, unsigned_modulus; lia)
           run_delivered ltac:(unfold is_unsigned, unsigned_modulus; simpl; lia) eq_refl).
  simpl. discriminate.
Defined.
