(* ===== verification/ThreadPool.v ===== *)
(** Thread pools (utils/threadpool, utils/deque): threads over one first in, first out queue.

    The queue's critical sections are functions; [step] interleaves them with the semaphore operations that run
    outside the lock, the pushes, the destructor and the threads of the pool, each at a point of its loop.  What
    a worker does with a request, and how long it takes, is the worker's: a relation. *)

From S2P Require Import Prelude ResponseCode.

(** ** The queue *)

Record Deque (M : Type) := mkDeque { dq_sem : nat; dq_items : list M; dq_stopped : bool }.
Arguments mkDeque {M}.
Arguments dq_sem {M}.
Arguments dq_items {M}.
Arguments dq_stopped {M}.

Section Deque.
Context {M : Type}.
Implicit Types d : Deque M.

Definition new_deque : Deque M := mkDeque 0 [] false.

Definition dq_post d : Deque M := mkDeque (S (dq_sem d)) (dq_items d) (dq_stopped d).

(** push up to the release of the mutex; the post is outside. *)
Definition dq_push (message : M) d : outcome (Deque M) :=
  ASSERT (negb (dq_stopped d)) ;;!
  Ret (mkDeque (dq_sem d) (dq_items d ++ [message]) (dq_stopped d)).

(** sem_trywait *)
Definition dq_try_wait d : option (Deque M) :=
  match dq_sem d with O => None | S n => Some (mkDeque n (dq_items d) (dq_stopped d)) end.

(** What pop does once it has a token; the front of an empty queue is undefined. *)
Definition dq_pop d : outcome (option M * Deque M) :=
  if dq_stopped d then Ret (None, d)
  else match dq_items d with
       | [] => Throw StdException
       | m :: items => Ret (Some m, mkDeque (dq_sem d) items (dq_stopped d))
       end.

(** try_pop with a token: a stopped queue gets it back. *)
Definition dq_try_pop d : outcome (option M * Deque M) :=
  if dq_stopped d then Ret (None, dq_post d) else dq_pop d.

Definition dq_stop d : Deque M := mkDeque (dq_sem d) (dq_items d) true.

Definition dq_size d : nat := length (dq_items d).
End Deque.

(** ** Workers *)

(** How a call may leave the worker, returning or throwing; [drains stopped] is a batch begun with the flag at
    [stopped]. *)
Class Worker (W M : Type) := {
  executes : M → W → W → Prop;
  drains : bool → W → W → Prop;
  worker_idle : W → bool }.

(** A call ends, and a batch under a stopping pool leaves nothing. *)
Class WorkerLaws (W M : Type) `{!Worker W M} : Prop := {
  executes_ends (m : M) (w : W) : ∃ w', executes m w w';
  drains_ends (stopped : bool) (w : W) : ∃ w', drains stopped w w';
  drains_stopped (w w' : W) : drains true w w' → worker_idle w' = true }.

(** ** The pool *)

(** Where a thread is: before try_pop, with its token, between try_pop and idle, in drain, in pop before and
    after the wait, with a request, in execute, out of its loop. *)
Inductive Place (M : Type) :=
| Trying | Tried | Choosing | Draining (stopped : bool) | Waiting | Waited | Holding (m : M) | Running (m : M) | Done.
Arguments Trying {M}.
Arguments Tried {M}.
Arguments Choosing {M}.
Arguments Draining {M}.
Arguments Waiting {M}.
Arguments Waited {M}.
Arguments Holding {M}.
Arguments Running {M}.
Arguments Done {M}.

Section Pool.
Context {W M : Type} `{!Worker W M}.
Context (per_worker : bool).       (** worker_routine, or routine *)

Record Thread := mkThread { th_place : Place M; th_worker : W }.

(** [tp_posting] are the posts that are due; the history: what was pushed, what was taken, in order, what was
    handed to a worker, what was dropped, and whether an empty queue was ever popped. *)
Record ThreadPool := mkPool {
  tp_deque : Deque M; tp_stopped : bool; tp_posting : nat; tp_threads : list Thread;
  tp_pushed : list M; tp_taken : list M; tp_executed : list M; tp_dropped : list M; tp_broken : bool }.

Definition home : Place M := if per_worker then Trying else Waiting.

Definition new_thread_pool (workers : list W) : ThreadPool :=
  mkPool new_deque false 0 (map (mkThread home) workers) [] [] [] [] false.

Definition with_deque (d : Deque M) (p : ThreadPool) : ThreadPool :=
  mkPool d (tp_stopped p) (tp_posting p) (tp_threads p) (tp_pushed p) (tp_taken p) (tp_executed p) (tp_dropped p) (tp_broken p).

Definition set_thread (i : nat) (t : Thread) (p : ThreadPool) : ThreadPool :=
  mkPool (tp_deque p) (tp_stopped p) (tp_posting p) (<[i := t]> (tp_threads p)) (tp_pushed p) (tp_taken p) (tp_executed p)
         (tp_dropped p) (tp_broken p).

Definition pool_push (m : M) (p : ThreadPool) : outcome ThreadPool :=
  let! d := dq_push m (tp_deque p) in
  Ret (mkPool d (tp_stopped p) (S (tp_posting p)) (tp_threads p) (tp_pushed p ++ [m]) (tp_taken p) (tp_executed p)
              (tp_dropped p) (tp_broken p)).

Definition post_one (p : ThreadPool) : ThreadPool :=
  mkPool (dq_post (tp_deque p)) (tp_stopped p) (pred (tp_posting p)) (tp_threads p) (tp_pushed p) (tp_taken p) (tp_executed p)
         (tp_dropped p) (tp_broken p).

(** The destructor: the flag, then the queue, which owes a post to each thread. *)
Definition raise_flag (p : ThreadPool) : ThreadPool :=
  mkPool (tp_deque p) true (tp_posting p) (tp_threads p) (tp_pushed p) (tp_taken p) (tp_executed p) (tp_dropped p) (tp_broken p).

Definition stop_queue (p : ThreadPool) : ThreadPool :=
  mkPool (dq_stop (tp_deque p)) (tp_stopped p) (tp_posting p + length (tp_threads p)) (tp_threads p) (tp_pushed p) (tp_taken p)
         (tp_executed p) (tp_dropped p) (tp_broken p).

Definition pending (p : ThreadPool) : nat := dq_size (tp_deque p).

(** Thread [i] leaves a critical section of the queue: with a request, or for [otherwise]. *)
Definition popped (i : nat) (w : W) (otherwise : Place M) (r : outcome (option M * Deque M)) (p : ThreadPool) : ThreadPool :=
  match r with
  | Throw _ => mkPool (tp_deque p) (tp_stopped p) (tp_posting p) (tp_threads p) (tp_pushed p) (tp_taken p) (tp_executed p) (tp_dropped p) true
  | Ret (None, d) => with_deque d (set_thread i (mkThread otherwise w) p)
  | Ret (Some m, d) =>
      mkPool d (tp_stopped p) (tp_posting p) (<[i := mkThread (Holding m) w]> (tp_threads p)) (tp_pushed p) (tp_taken p ++ [m])
             (tp_executed p) (tp_dropped p) (tp_broken p)
  end.

Definition hand_over (m : M) (p : ThreadPool) : ThreadPool :=
  mkPool (tp_deque p) (tp_stopped p) (tp_posting p) (tp_threads p) (tp_pushed p) (tp_taken p) (tp_executed p ++ [m]) (tp_dropped p) (tp_broken p).

Definition drop_request (m : M) (p : ThreadPool) : ThreadPool :=
  mkPool (tp_deque p) (tp_stopped p) (tp_posting p) (tp_threads p) (tp_pushed p) (tp_taken p) (tp_executed p) (tp_dropped p ++ [m]) (tp_broken p).

(** One step of thread [i] with worker [w]. *)
Inductive thread_step (i : nat) (w : W) (p : ThreadPool) : Place M → ThreadPool → Prop :=
| t_token d : dq_try_wait (tp_deque p) = Some d →
    thread_step i w p Trying (with_deque d (set_thread i (mkThread Tried w) p))
| t_none : dq_try_wait (tp_deque p) = None → thread_step i w p Trying (set_thread i (mkThread Choosing w) p)
| t_try_pop : thread_step i w p Tried (popped i w Choosing (dq_try_pop (tp_deque p)) p)
| t_park : worker_idle w = true → thread_step i w p Choosing (set_thread i (mkThread Waiting w) p)
| t_drain : worker_idle w = false → thread_step i w p Choosing (set_thread i (mkThread (Draining (tp_stopped p)) w) p)
| t_drained stopped w' : drains stopped w w' → thread_step i w p (Draining stopped) (set_thread i (mkThread Trying w') p)
| t_wait d : dq_try_wait (tp_deque p) = Some d →
    thread_step i w p Waiting (with_deque d (set_thread i (mkThread Waited w) p))
| t_pop : thread_step i w p Waited (popped i w Done (dq_pop (tp_deque p)) p)
| t_drop m : tp_stopped p = true →
    thread_step i w p (Holding m) (drop_request m (set_thread i (mkThread (if per_worker then Trying else Done) w) p))
| t_execute m : tp_stopped p = false →
    thread_step i w p (Holding m) (hand_over m (set_thread i (mkThread (Running m) w) p))
| t_return m w' : executes m w w' → thread_step i w p (Running m) (set_thread i (mkThread home w') p).

Inductive step : ThreadPool → ThreadPool → Prop :=
| s_push m p p' : pool_push m p = Ret p' → step p p'
| s_post p : (0 < tp_posting p)%nat → step p (post_one p)
| s_flag p : tp_stopped p = false → step p (raise_flag p)
| s_stop p : tp_stopped p = true → dq_stopped (tp_deque p) = false → step p (stop_queue p)
| s_thread i t p p' : tp_threads p !! i = Some t → thread_step i (th_worker t) p (th_place t) p' → step p p'.

Definition reachable (workers : list W) (p : ThreadPool) : Prop := rtc step (new_thread_pool workers) p.
End Pool.

(** ** Sums over threads *)

Section Sums.
Context {A : Type}.
Implicit Types (f : A → nat) (l : list A).

Fixpoint sum_by f l : nat := match l with [] => 0 | x :: l => f x + sum_by f l end.

Lemma sum_by_insert f l : ∀ i x y, l !! i = Some x → (sum_by f (<[i := y]> l) + f x = sum_by f l + f y)%nat.
Proof.
  induction l as [|z l IH]; intros [|i] x y H; simpl in *; try done; [injection H as ->; lia|].
  specialize (IH i x y H). lia.
Qed.

Lemma sum_by_ge f l i x : l !! i = Some x → (f x <= sum_by f l)%nat.
Proof.
  revert i. induction l as [|z l IH]; intros [|i] H; simpl in *; try done; [injection H as ->; lia|].
  specialize (IH i H). lia.
Qed.

(** A sum of at most one each that reaches the length is one each. *)
Lemma sum_by_full f l : (∀ x, f x <= 1)%nat → (length l <= sum_by f l)%nat → ∀ x, x ∈ l → f x = 1%nat.
Proof.
  intros Hf. assert (Hle : ∀ l, (sum_by f l <= length l)%nat).
  { intros k. induction k as [|z k IH]; simpl; [lia|]. pose proof (Hf z). lia. }
  induction l as [|z l IH]; intros H x Hx; simpl in *; [by apply elem_of_nil in Hx|].
  pose proof (Hf z). pose proof (Hle l). apply elem_of_cons in Hx as [->|Hx]; [lia|apply IH; [lia|done]].
Qed.
End Sums.

Section Invariant.
Context {W M : Type} `{!Worker W M, !WorkerLaws W M} (per_worker : bool).
Implicit Types (p : ThreadPool (W := W) (M := M)) (t : Thread (W := W) (M := M)).

Definition has_token t : nat := match th_place t with Tried | Waited => 1 | _ => 0 end.
Definition is_done t : nat := match th_place t with Done => 1 | _ => 0 end.
Definition hand t : list M := match th_place t with Holding m => [m] | _ => [] end.
Definition in_hand p : list M := concat (map hand (tp_threads p)).
Definition tokens p : nat := dq_sem (tp_deque p) + tp_posting p + sum_by has_token (tp_threads p).

Record pool_ok p : Prop := {
  po_open : dq_stopped (tp_deque p) = false → tokens p = length (dq_items (tp_deque p));
  po_closed : dq_stopped (tp_deque p) = true →
    (length (dq_items (tp_deque p)) + length (tp_threads p) <= tokens p + sum_by is_done (tp_threads p))%nat;
  po_fifo : tp_taken p ++ dq_items (tp_deque p) = tp_pushed p;
  po_hands : tp_executed p ++ tp_dropped p ++ in_hand p ≡ₚ tp_taken p;
  po_dropped : tp_stopped p = false → tp_dropped p = [];
  po_flag : dq_stopped (tp_deque p) = true → tp_stopped p = true;
  po_sound : tp_broken p = false }.

Lemma in_hand_insert (l : list Thread) i t t' : l !! i = Some t →
  concat (map hand (<[i := t']> l)) ++ hand t ≡ₚ concat (map hand l) ++ hand t'.
Proof.
  revert i. induction l as [|z l IH]; intros [|i] H; simpl in *; try done.
  - injection H as ->. rewrite (Permutation_app_comm (hand t')), (Permutation_app_comm (hand t)), <- !app_assoc.
    apply Permutation_app_head, Permutation_app_comm.
  - rewrite <- !app_assoc. by apply Permutation_app_head, IH.
Qed.

(** A thread that moves with nothing in its hand before and after changes only the tokens. *)
Lemma move_ok p p' i t t' : pool_ok p → tp_threads p !! i = Some t → hand t = [] → hand t' = [] →
  tp_threads p' = <[i := t']> (tp_threads p) → tp_pushed p' = tp_pushed p → tp_taken p' = tp_taken p →
  tp_executed p' = tp_executed p → tp_dropped p' = tp_dropped p → tp_broken p' = tp_broken p → tp_stopped p' = tp_stopped p →
  tp_posting p' = tp_posting p → dq_items (tp_deque p') = dq_items (tp_deque p) → dq_stopped (tp_deque p') = dq_stopped (tp_deque p) →
  (dq_sem (tp_deque p') + has_token t' = dq_sem (tp_deque p) + has_token t)%nat ∨
    dq_stopped (tp_deque p) = true ∧
    (dq_sem (tp_deque p) + has_token t + is_done t <= dq_sem (tp_deque p') + has_token t' + is_done t')%nat →
  (is_done t <= is_done t')%nat → pool_ok p'.
Proof.
  intros [H1 H2 H3 H4 H5 H6 H7] Hi Hh Hh' Eth E1 E2 E3 E4 E5 E6 E7 E8 E9 Htok Hdone.
  pose proof (sum_by_insert has_token _ i t t' Hi) as St. pose proof (sum_by_insert is_done _ i t t' Hi) as Sd.
  unfold tokens in *.
  split; unfold tokens, in_hand; rewrite ?Eth, ?E1, ?E2, ?E3, ?E4, ?E5, ?E6, ?E7, ?E8, ?E9, ?length_insert; try done.
  - intros Hs. specialize (H1 Hs). destruct Htok as [?|[? _]]; [lia|congruence].
  - intros Hs. specialize (H2 Hs). destruct Htok as [?|[_ ?]]; lia.
  - pose proof (in_hand_insert _ i t t' Hi) as Hp. rewrite Hh, Hh', !app_nil_r in Hp. rewrite Hp. exact H4.
Qed.

Lemma home_hand w : hand (mkThread (home per_worker) w) = [].
Proof. unfold home. by destruct per_worker. Qed.

Lemma home_token w : has_token (mkThread (home per_worker) w) = 0%nat.
Proof. unfold home. by destruct per_worker. Qed.

Lemma home_done w : is_done (mkThread (home per_worker) w) = 0%nat.
Proof. unfold home. by destruct per_worker. Qed.

Lemma new_thread_pool_ok workers : pool_ok (new_thread_pool per_worker workers).
Proof.
  assert (Hs : sum_by has_token (map (mkThread (M := M) (home per_worker)) workers) = 0%nat).
  { induction workers as [|w ws IH]; simpl; [done|]. by rewrite home_token, IH. }
  assert (Hh : concat (map hand (map (mkThread (M := M) (home per_worker)) workers)) = []).
  { induction workers as [|w ws IH]; simpl; [done|].
    rewrite home_hand. apply IH. cbn [map sum_by] in Hs. lia. }
  split; try done. unfold in_hand. cbn [new_thread_pool tp_threads tp_executed tp_dropped tp_taken]. by rewrite Hh.
Qed.

(** A thread with its token in an open queue finds a message, the first. *)
Lemma popped_ok p i t otherwise : pool_ok p → tp_threads p !! i = Some t → has_token t = 1%nat →
  dq_stopped (tp_deque p) = false → pool_ok (popped i (th_worker t) otherwise (dq_pop (tp_deque p)) p).
Proof.
  intros [H1 H2 H3 H4 H5 H6 H7] Hi Ht Ho. unfold dq_pop. rewrite Ho. specialize (H1 Ho). unfold tokens in H1.
  pose proof (sum_by_ge has_token _ i t Hi) as Hge.
  assert (Hh : hand t = []) by (unfold has_token in Ht; unfold hand; destruct (th_place t); done).
  destruct (dq_items (tp_deque p)) as [|m items] eqn:Ei; [simpl in H1; lia|].
  pose proof (sum_by_insert has_token _ i t (mkThread (Holding m) (th_worker t)) Hi) as St.
  pose proof (in_hand_insert _ i t (mkThread (Holding m) (th_worker t)) Hi) as Hp.
  rewrite Hh, app_nil_r in Hp. cbn [hand has_token th_place] in *. cbn [length] in H1.
  split; cbn [popped tp_deque dq_stopped dq_items dq_sem tp_stopped tp_taken tp_pushed tp_executed tp_dropped tp_broken tp_threads];
    unfold tokens, in_hand; cbn [tp_deque dq_sem tp_posting tp_threads]; try done; try (rewrite Ho; done).
  - intros _. change (has_token (mkThread (Holding m) (th_worker t))) with 0%nat in St. lia.
  - rewrite <- H3, <- app_assoc. done.
  - rewrite Hp. unfold in_hand in H4. rewrite <- H4, <- !app_assoc. done.
Qed.

(** What a thread does with the request in its hand. *)
Lemma settle_ok p p' i t t' m : pool_ok p → tp_threads p !! i = Some t → th_place t = Holding m → hand t' = [] → has_token t' = 0%nat →
  tp_threads p' = <[i := t']> (tp_threads p) → tp_pushed p' = tp_pushed p → tp_taken p' = tp_taken p →
  tp_broken p' = tp_broken p → tp_stopped p' = tp_stopped p → tp_posting p' = tp_posting p → tp_deque p' = tp_deque p →
  tp_executed p' = tp_executed p ++ [m] ∧ tp_dropped p' = tp_dropped p ∨
    tp_executed p' = tp_executed p ∧ tp_dropped p' = tp_dropped p ++ [m] ∧ tp_stopped p = true → pool_ok p'.
Proof.
  intros [H1 H2 H3 H4 H5 H6 H7] Hi Hpl Hh' Ht' Eth E1 E2 E5 E6 E7 E8 Hm.
  assert (Hh : hand t = [m]) by (unfold hand; by rewrite Hpl).
  assert (Ht : has_token t = 0%nat) by (unfold has_token; by rewrite Hpl).
  assert (Hd : is_done t = 0%nat) by (unfold is_done; by rewrite Hpl).
  pose proof (sum_by_insert has_token _ i t t' Hi) as St. pose proof (sum_by_insert is_done _ i t t' Hi) as Sd.
  pose proof (in_hand_insert _ i t t' Hi) as Hp. rewrite Hh, Hh', app_nil_r in Hp.
  split; unfold tokens, in_hand in *; rewrite ?Eth, ?E1, ?E2, ?E5, ?E6, ?E7, ?E8, ?length_insert; try done.
  - intros Hs. specialize (H1 Hs). lia.
  - intros Hs. specialize (H2 Hs). lia.
  - rewrite <- H4, <- Hp. destruct Hm as [[-> ->]|(-> & -> & _)]; rewrite <- !app_assoc; apply Permutation_app_head.
    + rewrite (Permutation_app_comm [m]), <- app_assoc. done.
    + apply Permutation_app_head, Permutation_app_comm.
  - intros Hs. destruct Hm as [[_ ->]|(_ & _ & ?)]; [by apply H5|congruence].
Qed.

Lemma thread_step_ok p p' i t : pool_ok p → tp_threads p !! i = Some t →
  thread_step per_worker i (th_worker t) p (th_place t) p' → pool_ok p'.
Proof.
  intros Hp Hi Hs. destruct t as [pl w]. cbn [th_place th_worker] in *.
  assert (Hwait : ∀ d pl', dq_try_wait (tp_deque p) = Some d → hand (mkThread pl w) = [] → has_token (mkThread pl w) = 0%nat →
    is_done (mkThread pl w) = 0%nat → hand (mkThread pl' w) = [] → has_token (mkThread pl' w) = 1%nat → pool_ok (with_deque d (set_thread i (mkThread pl' w) p))).
  { intros d pl' Hd Ha Hb Hc Ha' Hb'. unfold dq_try_wait in Hd. destruct (dq_sem (tp_deque p)) as [|n] eqn:En; [done|].
    injection Hd as <-. eapply (move_ok p _ i (mkThread pl w) (mkThread pl' w)); eauto; [|lia].
    left. cbn. lia. }
  assert (Hgo : ∀ pl' w', hand (mkThread pl w) = [] → has_token (mkThread pl w) = 0%nat → is_done (mkThread pl w) = 0%nat →
    hand (mkThread pl' w') = [] → has_token (mkThread pl' w') = 0%nat → pool_ok (set_thread i (mkThread pl' w') p)).
  { intros pl' w' Ha Hb Hc Ha' Hb'. eapply (move_ok p _ i (mkThread pl w) (mkThread pl' w')); eauto; [|lia].
    left. cbn [set_thread tp_deque]. lia. }
  destruct Hs as [d Hd|Hd| |Hidle|Hidle|stopped w' Hdr|d Hd| |m Hst|m Hst|m w' Hex].
  - by apply Hwait.
  - by apply Hgo.
  - destruct (dq_stopped (tp_deque p)) eqn:Eo.
    + unfold dq_try_pop. rewrite Eo. eapply (move_ok p _ i _ (mkThread Choosing w)); eauto; cbn; solve [lia | left; lia].
    + unfold dq_try_pop. rewrite Eo. exact (popped_ok p i _ Choosing Hp Hi eq_refl Eo).
  - by apply Hgo.
  - by apply Hgo.
  - by apply Hgo.
  - by apply Hwait.
  - destruct (dq_stopped (tp_deque p)) eqn:Eo; [|exact (popped_ok p i _ Done Hp Hi eq_refl Eo)].
    unfold dq_pop. rewrite Eo. eapply (move_ok p _ i _ (mkThread Done w)); eauto; cbn; solve [lia | right; split; [done|lia]].
  - eapply (settle_ok p _ i _ _ m Hp Hi); eauto; solve [by destruct per_worker | by right].
  - eapply (settle_ok p _ i _ _ m Hp Hi); eauto; solve [done | by left].
  - apply Hgo; try reflexivity; [apply home_hand|apply home_token].
Qed.

Lemma tp_step_ok p p' : pool_ok p → step per_worker p p' → pool_ok p'.
Proof.
  intros Hp Hs. destruct Hs as [m p p' Hpush|p Hpost|p Hf|p Hf Ho|i t p p' Hi Ht]; [| | | |by eapply thread_step_ok].
  all: destruct Hp as [H1 H2 H3 H4 H5 H6 H7].
  - unfold pool_push, dq_push in Hpush. destruct (dq_stopped (tp_deque p)) eqn:Eo; [done|].
    injection Hpush as <-. split; unfold tokens, in_hand in *; cbn; try done.
    + intros _. specialize (H1 eq_refl). rewrite length_app. cbn. lia.
    + by rewrite <- H3, app_assoc.
  - split; unfold tokens, in_hand in *; cbn; try done; intros Hs; [specialize (H1 Hs)|specialize (H2 Hs)]; lia.
  - split; unfold tokens, in_hand in *; cbn; done.
  - split; unfold tokens, in_hand in *; cbn; try done. intros _. specialize (H1 Ho). lia.
Qed.

Lemma reachable_ok workers p : reachable per_worker workers p → pool_ok p.
Proof.
  unfold reachable. generalize (new_thread_pool_ok workers). generalize (new_thread_pool (M := M) per_worker workers). intros q Hq Hr.
  induction Hr as [|q q' p Hs _ IH]; [done|]. by apply IH, (tp_step_ok q).
Qed.

(** *** The end of a pool *)

(** A per-worker thread parks only with an idle worker, and leaves its loop from there. *)
Definition parked_idle t : Prop :=
  match th_place t with Waiting | Waited | Done => per_worker = true → worker_idle (th_worker t) = true | _ => True end.

Lemma set_thread_idle (l : list (Thread (W := W) (M := M))) i t' :
  Forall parked_idle l → parked_idle t' → Forall parked_idle (<[i := t']> l).
Proof. intros H Ht. by apply Forall_insert. Qed.

Lemma step_idle p p' : Forall parked_idle (tp_threads p) → step per_worker p p' → Forall parked_idle (tp_threads p').
Proof.
  intros Hp Hs. destruct Hs as [m p p' Hpush|p Hpost|p Hf|p Hf Ho|i t p p' Hi Ht]; try exact Hp.
  { unfold pool_push, dq_push in Hpush. destruct (dq_stopped (tp_deque p)); [done|]. by injection Hpush as <-. }
  pose proof (Forall_lookup_1 _ _ _ _ Hp Hi) as Hti. destruct t as [pl w]. cbn [th_place th_worker] in *.
  assert (Hpop : ∀ r o, parked_idle (mkThread o w) → Forall parked_idle (tp_threads (popped i w o r p))).
  { intros [[[m|] d]|] o Hpo; cbn; [by apply set_thread_idle|by apply set_thread_idle|done]. }
  destruct Ht; cbn; try (apply set_thread_idle; [done|]); try (by apply Hpop); try done.
  - by intros _.
  - unfold parked_idle. by destruct per_worker.
  - unfold parked_idle, home. by destruct per_worker.
Qed.

(** What a thread of a stopped pool has left to do. *)
Definition weight t : nat :=
  let idle := worker_idle (th_worker t) in
  match th_place t with
  | Done => 0 | Waited => 1 | Waiting => 2
  | Choosing => if idle then 3 else 7
  | Tried => if idle then 4 else 8
  | Trying => if idle then 5 else 9
  | Draining stopped => if stopped then 6 else 10
  | Holding _ | Running _ => 10
  end.

Definition left p : nat := tp_posting p + sum_by weight (tp_threads p).

Lemma trying_weight w : (weight (mkThread Trying w) <= 9)%nat.
Proof. unfold weight. cbn. destruct (worker_idle w); lia. Qed.

Lemma home_weight w : (weight (mkThread (home per_worker) w) <= 9)%nat.
Proof. unfold home. destruct per_worker; [apply trying_weight|cbn; lia]. Qed.

Lemma stopped_step p p' : pool_ok p → dq_stopped (tp_deque p) = true → step per_worker p p' →
  dq_stopped (tp_deque p') = true ∧ (left p' < left p)%nat.
Proof.
  intros Hp Ho Hs. pose proof (po_flag _ Hp Ho) as Hst.
  destruct Hs as [m p p' Hpush|p Hpost|p Hf|p Hf Ho'|i t p p' Hi Ht]; try congruence.
  { unfold pool_push, dq_push in Hpush. by rewrite Ho in Hpush. }
  { split; [done|]. unfold left. cbn. lia. }
  destruct t as [pl w]. cbn [th_place th_worker] in *.
  assert (Hgo : ∀ t', (weight t' < weight (mkThread pl w))%nat →
    (tp_posting p + sum_by weight (<[i := t']> (tp_threads p)) < left p)%nat).
  { intros t' Hw. pose proof (sum_by_insert weight _ i _ t' Hi) as Hsum. unfold left. lia. }
  pose proof (trying_weight w) as Hw9.
  destruct Ht as [d Hd|Hd| |Hidle|Hidle|stopped w' Hdr|d Hd| |m Hst'|m Hst'|m w' Hex]; try congruence.
  all: unfold dq_try_pop, dq_pop; try rewrite Ho; try (unfold dq_try_wait in Hd; destruct (dq_sem (tp_deque p)); [done|]; try injection Hd as <-).
  all: cbn [popped with_deque set_thread drop_request hand_over tp_deque dq_stopped dq_post]; split; try done.
  all: unfold left at 1; cbn [tp_posting tp_threads]; apply Hgo; unfold weight at 1 2; cbn [th_place th_worker].
  all: try (destruct (worker_idle w); lia); try (rewrite ?Hidle, ?Hst; lia).
  - destruct stopped; [rewrite (drains_stopped _ _ Hdr); lia|destruct (worker_idle w'); lia].
  - destruct per_worker; [destruct (worker_idle w)|]; lia.
  - unfold home. destruct per_worker; [destruct (worker_idle w')|]; lia.
Qed.

Lemma thread_moves p i t : th_place t ≠ Done → (th_place t = Waiting → dq_sem (tp_deque p) ≠ 0%nat) →
  ∃ p', thread_step per_worker i (th_worker t) p (th_place t) p'.
Proof.
  destruct t as [pl w]. cbn [th_place th_worker]. intros Hd Hw. destruct pl as [| | |stopped| | |m|m|]; [| | | | | | | |done].
  - destruct (dq_try_wait (tp_deque p)) as [d|] eqn:Ed; eexists; [by eapply t_token|by apply t_none].
  - eexists. apply t_try_pop.
  - destruct (worker_idle w) eqn:Ew; eexists; [by apply t_park|by apply t_drain].
  - destruct (drains_ends (M := M) stopped w) as [w' Hdr]. eexists. by eapply t_drained.
  - specialize (Hw eq_refl). destruct (dq_sem (tp_deque p)) as [|n] eqn:En; [done|].
    eexists. apply t_wait. unfold dq_try_wait. by rewrite En.
  - eexists. apply t_pop.
  - destruct (tp_stopped p) eqn:Est; eexists; [by apply t_drop|by apply t_execute].
  - destruct (executes_ends m w) as [w' Hex]. eexists. by eapply t_return.
Qed.

Definition resting p t : Prop :=
  match th_place t with Done => True | Waiting => dq_sem (tp_deque p) = 0%nat | _ => False end.

#[export] Instance resting_dec p t : Decision (resting p t).
Proof. unfold resting. destruct (th_place t); apply _. Defined.

(** Until every thread has left its loop, a stopped pool can move: the last waits would have a token. *)
Lemma stopped_progress p : pool_ok p → dq_stopped (tp_deque p) = true →
  Forall (λ t, th_place t = Done) (tp_threads p) ∨ ∃ p', step per_worker p p'.
Proof.
  intros Hp Ho. destruct (decide (tp_posting p = 0%nat)) as [Epo|Hpo]; [|right; eexists; apply s_post; lia].
  destruct (decide (Forall (resting p) (tp_threads p))) as [Hall|Hex].
  - left. destruct (decide (dq_sem (tp_deque p) = 0%nat)) as [Hs|Hs].
    + assert (Htok : sum_by has_token (tp_threads p) = 0%nat).
      { clear -Hall. induction Hall as [|t l Ht _ IH]; [done|]. cbn. rewrite IH.
        unfold resting in Ht. unfold has_token. by destruct (th_place t). }
      pose proof (po_closed _ Hp Ho) as Hc. unfold tokens in Hc.
      apply Forall_forall. intros t Ht.
      assert (H1 : is_done t = 1%nat).
      { refine (sum_by_full is_done (tp_threads p) _ _ t Ht); [|lia]. intros x. unfold is_done. destruct (th_place x); lia. }
      unfold is_done in H1. by destruct (th_place t).
    + apply (Forall_impl _ _ _ Hall). intros t Ht. unfold resting in Ht. by destruct (th_place t).
  - right. apply not_Forall_Exists in Hex; [|apply _]. apply Exists_exists in Hex as (t & Hin & Hn).
    apply list_elem_of_lookup_1 in Hin as [i Hi].
    destruct (thread_moves p i t) as [p' Hp']; [| |by eexists; eapply s_thread].
    + intros Hd. apply Hn. unfold resting. by rewrite Hd.
    + intros Hw Hs. apply Hn. unfold resting. by rewrite Hw.
Qed.

Lemma stopped_ends p : pool_ok p → dq_stopped (tp_deque p) = true → sn (step per_worker) p.
Proof.
  intros Hp Ho. remember (left p) as n eqn:Hn. revert p Hp Ho Hn.
  induction (lt_wf n) as [n _ IH]. intros p Hp Ho ->. constructor. intros p' Hs.
  destruct (stopped_step p p' Hp Ho Hs) as [Ho' Hlt]. by apply (IH _ Hlt p' (tp_step_ok p p' Hp Hs)).
Qed.

Lemma done_hands p : Forall (λ t, th_place t = Done) (tp_threads p) → in_hand p = [].
Proof.
  unfold in_hand. induction 1 as [|t l Ht _ IH]; [done|]. cbn. rewrite IH. unfold hand. by rewrite Ht.
Qed.
End Invariant.

(** ** Properties *)

Section Claims.
Context {W M : Type} `{!Worker W M, !WorkerLaws W M} (per_worker : bool).
Implicit Types p : ThreadPool (W := W) (M := M).

(** C27: In every interleaving of pushes, posts, the destructor and the threads, a popped queue is never empty;
    requests leave the queue in the order they were pushed; each is handed to at most one worker, none is lost
    between queue and workers, and none is dropped before the stop flag is up. *)
Theorem pool_delivers (workers : list W) p : reachable per_worker workers p →
  tp_broken p = false ∧ tp_taken p ++ dq_items (tp_deque p) = tp_pushed p ∧
  tp_executed p ++ tp_dropped p ++ in_hand p ≡ₚ tp_taken p ∧ (tp_stopped p = false → tp_dropped p = []).
Proof. intros Hr. pose proof (reachable_ok per_worker workers p Hr) as []. by split_and!. Qed.

(** C26: Once the queue is stopped the pool comes to an end in every schedule: no run is infinite, and every run
    can be continued until all threads have left their loops, every request taken is with a worker or dropped,
    and in per-worker mode no worker has work left. *)
Theorem pool_stops (workers : list W) p : reachable per_worker workers p → dq_stopped (tp_deque p) = true →
  sn (step per_worker) p ∧
  ∀ p', rtc (step per_worker) p p' →
    (∃ p'', step per_worker p' p'') ∨
    Forall (λ t, th_place t = Done ∧ (per_worker = true → worker_idle (th_worker t) = true)) (tp_threads p') ∧
    tp_executed p' ++ tp_dropped p' ≡ₚ tp_taken p'.
Proof.
  intros Hr Ho. pose proof (reachable_ok per_worker workers p Hr) as Hp.
  split; [by apply stopped_ends|]. intros p' Hr'.
  assert (Hend : pool_ok p' ∧ dq_stopped (tp_deque p') = true).
  { clear Hr. induction Hr' as [|p q p' Hs _ IH]; [done|].
    apply IH; [by apply (stopped_step per_worker p q)|by apply (tp_step_ok per_worker p q)]. }
  assert (Hidle : Forall (parked_idle per_worker) (tp_threads p')).
  { assert (H0 : Forall (parked_idle per_worker) (tp_threads (new_thread_pool (M := M) per_worker workers))).
    { cbn. apply Forall_map, Forall_true. intros w. unfold parked_idle, home. by destruct per_worker. }
    assert (Hall : rtc (step per_worker) (new_thread_pool per_worker workers) p') by (by eapply rtc_trans).
    clear -H0 Hall. induction Hall as [|q q' p' Hs _ IH]; [done|]. by apply IH, (step_idle per_worker q). }
  destruct Hend as [Hp' Ho']. destruct (stopped_progress per_worker p' Hp' Ho') as [Hd|Hs]; [right|by left].
  split.
  - apply Forall_forall. intros t Ht. rewrite Forall_forall in Hd, Hidle. specialize (Hidle t Ht). specialize (Hd t Ht).
    unfold parked_idle in Hidle. by rewrite Hd in Hidle.
  - pose proof (po_hands _ Hp') as Hh. by rewrite (done_hands p' Hd), app_nil_r in Hh.
Qed.
End Claims.

(** ** A pool of one worker *)

Module Counting.
(** A worker that counts the pieces it has in flight; a batch completes one, a stopping batch all. *)
#[export] Instance counting : Worker nat nat := {|
  executes m w w' := w' = (w + m)%nat;
  drains stopped w w' := w' = if stopped then 0%nat else pred w;
  worker_idle w := (w =? 0)%nat |}.

#[export] Instance counting_laws : WorkerLaws nat nat.
Proof. split; cbn; [eauto|eauto|by intros w w' ->]. Qed.

Ltac thread_moves_by tac := eapply rtc_l; [eapply (s_thread true 0%nat); [reflexivity|tac]|].

(** One request taken and submitted, one left in the queue when the pool is destroyed. *)
Lemma run : ∃ p, reachable (M := nat) true [0%nat] p ∧ dq_stopped (tp_deque p) = true ∧ tp_stopped p = true ∧
  tp_executed p = [2%nat] ∧ dq_items (tp_deque p) = [5%nat] ∧ tp_dropped p = [] ∧ th_worker <$> tp_threads p = [2%nat].
Proof.
  eexists. split.
  - eapply rtc_l; [apply (s_push true 2%nat); reflexivity|]. eapply rtc_l; [apply s_post; cbn; lia|].
    thread_moves_by ltac:(eapply t_token; reflexivity). thread_moves_by ltac:(apply t_try_pop).
    eapply rtc_l; [apply (s_push true 5%nat); reflexivity|].
    thread_moves_by ltac:(apply t_execute; reflexivity). thread_moves_by ltac:(eapply t_return; reflexivity).
    eapply rtc_l; [apply s_flag; reflexivity|]. eapply rtc_l; [apply s_stop; reflexivity|]. apply rtc_refl.
  - vm_compute. by split_and!.
Defined.

Lemma pool_delivers_witness : ∃ p, reachable (M := nat) true [0%nat] p ∧ tp_executed p = [2%nat] ∧
  tp_taken p ++ dq_items (tp_deque p) = tp_pushed p.
Proof.
  destruct run as (p & Hr & _ & _ & He & _). exists p. split; [done|]. split; [done|].
  apply (pool_delivers true [0%nat] p Hr).
Defined.

Lemma pool_stops_witness : ∃ p, reachable (M := nat) true [0%nat] p ∧ th_worker <$> tp_threads p = [2%nat] ∧ sn (step true) p.
Proof.
  destruct run as (p & Hr & Ho & _ & _ & _ & _ & Hw). exists p. split; [done|]. split; [done|].
  apply (pool_stops true [0%nat] p Hr Ho).
Defined.
End Counting.
