(* ===== verification/DrainingWorker.v ===== *)
(** Draining workers (utils/draining_worker): one thread that handles what was pushed, in order, and finishes it
    before it stops.

    The operations run as steps between which the thread moves; the posts of the queue's semaphore are steps of
    their own.  The precondition of stop, that no push is in flight, is why a push is one step up to its post. *)

From S2P Require Import Prelude ResponseCode ThreadPool.

Record Entry (M : Type) := mkEntry { last : bool; message : M }.
Arguments mkEntry {M}.
Arguments last {M}.
Arguments message {M}.

(** Where the thread is: before call_once created it, before and after the wait of pop, in the handler, ended. *)
Inductive RunPlace (M : Type) := Unborn | AtWait | AtPop | Handling (m : M) | Ended.
Arguments Unborn {M}.
Arguments AtWait {M}.
Arguments AtPop {M}.
Arguments Handling {M}.
Arguments Ended {M}.

Section DrainingWorker.
Context {M : Type} `{!Inhabited M}.    (** Message{} *)

(** [dw_posting] are posts that are due, [dw_sentinel_due] a stop that has yet to push its sentinel; [dw_pushed]
    and [dw_done] are the history; [dw_broken] whether an empty queue was ever popped. *)
Record DrainingWorker := mkDrainingWorker {
  dw_queue : Deque (Entry M); dw_started : bool; dw_stopped : bool; dw_handled : nat; dw_place : RunPlace M;
  dw_posting : nat; dw_sentinel_due : bool; dw_pushed : list M; dw_done : list M; dw_broken : bool }.
Implicit Types w : DrainingWorker.

Definition new_draining : DrainingWorker := mkDrainingWorker new_deque false false 0 Unborn 0 false [] [] false.

Definition draining_push (m : M) w : outcome DrainingWorker :=
  ASSERT (negb (dw_stopped w)) ;;!
  let! q := dq_push (mkEntry false m) (dw_queue w) in
  Ret (mkDrainingWorker q true (dw_stopped w) (dw_handled w)
         (if dw_started w then dw_place w else AtWait)      (* call_once *)
         (S (dw_posting w)) (dw_sentinel_due w) (dw_pushed w ++ [m]) (dw_done w) (dw_broken w)).

(** stop up to its push: a second call, or a worker never used, has nothing to do. *)
Definition draining_stop w : DrainingWorker :=
  mkDrainingWorker (dw_queue w) (dw_started w) true (dw_handled w) (dw_place w) (dw_posting w)
    (if dw_stopped w then dw_sentinel_due w else dw_started w) (dw_pushed w) (dw_done w) (dw_broken w).

Definition push_sentinel w : outcome DrainingWorker :=
  let! q := dq_push (mkEntry true inhabitant) (dw_queue w) in
  Ret (mkDrainingWorker q (dw_started w) (dw_stopped w) (dw_handled w) (dw_place w) (S (dw_posting w)) false
         (dw_pushed w) (dw_done w) (dw_broken w)).

Definition running w : bool := dw_started w && negb (dw_stopped w).

Definition handled w : nat := dw_handled w.

Definition draining_post w : DrainingWorker :=
  mkDrainingWorker (dq_post (dw_queue w)) (dw_started w) (dw_stopped w) (dw_handled w) (dw_place w) (pred (dw_posting w))
    (dw_sentinel_due w) (dw_pushed w) (dw_done w) (dw_broken w).

Definition at_place (pl : RunPlace M) (q : Deque (Entry M)) w : DrainingWorker :=
  mkDrainingWorker q (dw_started w) (dw_stopped w) (dw_handled w) pl (dw_posting w) (dw_sentinel_due w) (dw_pushed w)
    (dw_done w) (dw_broken w).

(** After the wait of pop. *)
Definition run_pop w : DrainingWorker :=
  match dq_pop (dw_queue w) with
  | Throw _ => mkDrainingWorker (dw_queue w) (dw_started w) (dw_stopped w) (dw_handled w) (dw_place w) (dw_posting w)
                 (dw_sentinel_due w) (dw_pushed w) (dw_done w) true
  | Ret (None, q) => at_place Ended q w
  | Ret (Some e, q) => if last e then at_place Ended q w else at_place (Handling (message e)) q w
  end.

(** The handler returns. *)
Definition handler_returns (m : M) w : DrainingWorker :=
  mkDrainingWorker (dw_queue w) (dw_started w) (dw_stopped w) (S (dw_handled w)) AtWait (dw_posting w)
    (dw_sentinel_due w) (dw_pushed w) (dw_done w ++ [m]) (dw_broken w).

(** join returns when the thread has ended. *)
Definition joined w : Prop := dw_stopped w = true ∧ dw_sentinel_due w = false ∧ (dw_started w = true → dw_place w = Ended).

Inductive draining_step : DrainingWorker → DrainingWorker → Prop :=
| ds_push m w w' : draining_push m w = Ret w' → draining_step w w'
| ds_stop w : dw_stopped w = false → draining_step w (draining_stop w)
| ds_sentinel w w' : dw_sentinel_due w = true → push_sentinel w = Ret w' → draining_step w w'
| ds_post w : (0 < dw_posting w)%nat → draining_step w (draining_post w)
| ds_wait w q : dw_place w = AtWait → dq_try_wait (dw_queue w) = Some q → draining_step w (at_place AtPop q w)
| ds_pop w : dw_place w = AtPop → draining_step w (run_pop w)
| ds_return m w : dw_place w = Handling m → draining_step w (handler_returns m w).
End DrainingWorker.
Arguments DrainingWorker : clear implicits.

(** ** Invariant *)

Section Invariant.
Context {M : Type} `{!Inhabited M}.
Implicit Types w : DrainingWorker M.

Definition in_handler w : list M := match dw_place w with Handling m => [m] | _ => [] end.
Definition token w : nat := match dw_place w with AtPop => 1 | _ => 0 end.

(** What is still to be read: the messages, and the sentinel after them once it was pushed. *)
Definition queued w (rest : list M) : Prop :=
  dq_items (dw_queue w) =
  (mkEntry false <$> rest) ++
  (if dw_started w && dw_stopped w && negb (dw_sentinel_due w) && negb (match dw_place w with Ended => true | _ => false end)
   then [mkEntry true inhabitant] else []).

Record draining_ok w : Prop := {
  do_open : dq_stopped (dw_queue w) = false;
  do_tokens : (dq_sem (dw_queue w) + dw_posting w + token w)%nat = length (dq_items (dw_queue w));
  do_queue : ∃ rest, queued w rest ∧ dw_done w ++ in_handler w ++ rest = dw_pushed w ∧ (dw_place w = Ended → rest = []);
  do_count : dw_handled w = length (dw_done w);
  do_due : dw_sentinel_due w = true → dw_started w = true ∧ dw_stopped w = true;
  do_unborn : dw_place w = Unborn ↔ dw_started w = false;
  do_fresh : dw_started w = false → dw_pushed w = [];
  do_ended : dw_place w = Ended → dw_stopped w = true ∧ dw_sentinel_due w = false;
  do_sound : dw_broken w = false }.

Lemma new_draining_ok : draining_ok (new_draining (M := M)).
Proof. split; try done. by exists []. Qed.

Lemma push_keeps_ok m w w' : draining_ok w → draining_push m w = Ret w' → draining_ok w'.
Proof.
  intros [H1 H2 (rest & Hq & Hs & He) H4 H5 H6 H7 H8 H9] Hp. unfold draining_push in Hp.
  destruct (dw_stopped w) eqn:Es; [done|]. cbn in Hp. unfold dq_push in Hp. rewrite H1 in Hp.
  injection Hp as <-. unfold queued in Hq. rewrite Es, andb_false_r in Hq. cbn in Hq. rewrite app_nil_r in Hq.
  set (pl := if dw_started w then dw_place w else AtWait).
  assert (Hpl : (pl = dw_place w ∨ dw_place w = Unborn ∧ pl = AtWait) ∧ pl ≠ Unborn ∧ pl ≠ Ended).
  { unfold pl. destruct (dw_started w) eqn:Est.
    - split_and!; [by left|intros E; apply H6 in E; congruence|intros E; destruct (H8 E); congruence].
    - split_and!; [right; split; [by apply H6|done]|done|done]. }
  destruct Hpl as (Hpl & Hu & Hn). split; cbn [dw_queue dq_stopped dq_sem dq_items dw_posting dw_handled dw_done dw_stopped dw_sentinel_due
    dw_started dw_place dw_pushed dw_broken]; try done; fold pl.
  - rewrite length_app. cbn [length]. rewrite <- H2. unfold token. cbn [dw_place]. fold pl.
    destruct Hpl as [->|[-> ->]]; lia.
  - exists (rest ++ [m]). unfold queued, in_handler. cbn [dw_queue dq_items dw_started dw_stopped dw_sentinel_due dw_place]. fold pl.
    cbn [andb negb]. rewrite app_nil_r, Hq, fmap_app. split_and!; [done| |done].
    rewrite <- Hs, <- !app_assoc. unfold in_handler. by destruct Hpl as [->|[-> ->]].
  - intros Hd. split; [done|]. by apply H5.
Qed.

Lemma sentinel_ok w w' : draining_ok w → dw_sentinel_due w = true → push_sentinel w = Ret w' → draining_ok w'.
Proof.
  intros [H1 H2 (rest & Hq & Hs & He) H4 H5 H6 H7 H8 H9] Hd Hp. unfold push_sentinel, dq_push in Hp. rewrite H1 in Hp.
  injection Hp as <-. destruct (H5 Hd) as [Est Esp]. unfold queued in Hq. rewrite Est, Esp, Hd in Hq. cbn in Hq.
  rewrite app_nil_r in Hq. split; cbn; try done.
  - rewrite length_app, <- H2. cbn. unfold token. cbn. lia.
  - exists rest. unfold queued. cbn. rewrite Est, Esp, Hq. split_and!; try done. f_equal.
    destruct (dw_place w) eqn:Epl; try done. destruct (H8 eq_refl); congruence.
Qed.

Lemma stop_ok w : draining_ok w → dw_stopped w = false → draining_ok (draining_stop w).
Proof.
  intros [H1 H2 (rest & Hq & Hs & He) H4 H5 H6 H7 H8 H9] Es.
  unfold queued in Hq. rewrite Es, andb_false_r in Hq. cbn in Hq. rewrite app_nil_r in Hq.
  unfold draining_stop. rewrite Es. split; cbn; try done.
  - exists rest. unfold queued. cbn. split_and!; try done. destruct (dw_started w); by rewrite Hq, app_nil_r.
  - intros E. split; [done|]. destruct (H8 E). congruence.
Qed.

(** Steps of the thread and of the posts leave everything but the tokens, or the place, as it was. *)
Lemma run_wait_ok w q : draining_ok w → dw_place w = AtWait → dq_try_wait (dw_queue w) = Some q → draining_ok (at_place AtPop q w).
Proof.
  intros [H1 H2 (rest & Hq & Hs & He) H4 H5 H6 H7 H8 H9] Hpl Hw. unfold dq_try_wait in Hw. unfold token in H2. rewrite Hpl in H2.
  destruct (dq_sem (dw_queue w)) as [|n] eqn:En; [done|]. injection Hw as <-.
  unfold queued, in_handler in *. rewrite Hpl in *.
  split; cbn; try done; [unfold token; cbn; lia|by exists rest|].
  split; [done|]. intros E. apply H6 in E. congruence.
Qed.

Lemma pop_ok w : draining_ok w → dw_place w = AtPop → draining_ok (run_pop w).
Proof.
  intros [H1 H2 (rest & Hq & Hs & He) H4 H5 H6 H7 H8 H9] Hpl. unfold token in H2. unfold queued, in_handler in *. rewrite Hpl in *.
  assert (Hst : dw_started w = true) by (destruct (dw_started w); [done|destruct H6 as [_ H6]; by specialize (H6 eq_refl)]).
  unfold run_pop, dq_pop. rewrite H1.
  destruct (dq_items (dw_queue w)) as [|e items] eqn:Ei; [cbn in H2; lia|]. cbn [length] in H2.
  destruct rest as [|m rest]; cbn in Hq.
  - rewrite Hst in Hq. destruct (dw_stopped w) eqn:Esp; [|done]. destruct (dw_sentinel_due w) eqn:Ed; [done|]. cbn in Hq.
    injection Hq as -> ->. cbn. cbn in H2. split; cbn; try done; [unfold token; cbn; lia| |by rewrite Hst].
    exists []. unfold queued. cbn. by rewrite andb_false_r.
  - injection Hq as -> Hq. cbn. split; cbn; try done; [unfold token; cbn; lia| |by rewrite Hst].
    exists rest. unfold queued. by cbn.
Qed.

Lemma return_ok m w : draining_ok w → dw_place w = Handling m → draining_ok (handler_returns m w).
Proof.
  intros [H1 H2 (rest & Hq & Hs & He) H4 H5 H6 H7 H8 H9] Hpl. unfold token in H2. unfold queued, in_handler in *. rewrite Hpl in *.
  split; cbn; try done.
  - exists rest. unfold queued, in_handler. cbn. split_and!; [done| |done]. by rewrite <- Hs, <- app_assoc.
  - rewrite length_app. cbn. lia.
  - split; [done|]. intros E. apply H6 in E. congruence.
Qed.

Lemma draining_step_ok w w' : draining_ok w → draining_step w w' → draining_ok w'.
Proof.
  intros Hw Hst. destruct Hst as [m v v' Hp|v Hs|v v' Hd Hp|v Hp|v q Hpl Hq|v Hpl|m v Hpl].
  - by eapply push_keeps_ok.
  - by apply stop_ok.
  - by eapply sentinel_ok.
  - destruct Hw as [H1 H2 (rest & Hq & Hs & He) H4 H5 H6 H7 H8 H9]. split; cbn; try done; [unfold token in *; cbn; lia|by exists rest].
  - by apply run_wait_ok.
  - by apply pop_ok.
  - by apply return_ok.
Qed.

Lemma draining_reachable_ok w : rtc draining_step new_draining w → draining_ok w.
Proof.
  generalize new_draining_ok. generalize (new_draining (M := M)). intros v Hv Hr.
  induction Hr as [|v v' w Hs _ IH]; [done|]. by apply IH, (draining_step_ok v).
Qed.

(** *** The end *)

Definition place_weight w : nat :=
  match dw_place w with Unborn => 0 | AtWait => 2 | AtPop => 1 | Handling _ => 3 | Ended => 0 end.

Definition to_do w : nat :=
  4 * length (dq_items (dw_queue w)) + dw_posting w + (if dw_sentinel_due w then 6 else 0) + place_weight w.

Lemma stopped_decreases w w' : draining_ok w → dw_stopped w = true → draining_step w w' →
  dw_stopped w' = true ∧ (to_do w' < to_do w)%nat.
Proof.
  intros Hw Hs Hst. pose proof (do_open _ Hw) as Ho. unfold to_do, place_weight.
  destruct Hst as [m v v' Hp|v Hs'|v v' Hd Hp|v Hp|v q Hpl Hq|v Hpl|m v Hpl]; try congruence.
  - unfold draining_push in Hp. by rewrite Hs in Hp.
  - unfold push_sentinel, dq_push in Hp. rewrite Ho in Hp. injection Hp as <-. cbn. rewrite length_app, Hd. cbn. split; [done|lia].
  - cbn. split; [done|lia].
  - unfold dq_try_wait in Hq. destruct (dq_sem (dw_queue v)); [done|]. injection Hq as <-. cbn. rewrite Hpl. split; [done|lia].
  - unfold run_pop, dq_pop. rewrite Ho. pose proof (do_tokens _ Hw) as Ht. unfold token in Ht. rewrite Hpl in *.
    destruct (dq_items (dw_queue v)) as [|e items] eqn:Ei; [cbn in Ht; lia|]. cbn [length] in *.
    destruct (last e); cbn; (split; [done|lia]).
  - cbn. rewrite Hpl. split; [done|lia].
Qed.

Lemma draining_progress w : draining_ok w → dw_stopped w = true → joined w ∨ ∃ w', draining_step w w'.
Proof.
  intros Hw Hs. pose proof Hw as [H1 H2 (rest & Hq & Hr & He) H4 H5 H6 H7 H8 H9].
  destruct (dw_sentinel_due w) eqn:Ed.
  { right. eexists. apply ds_sentinel; [done|]. unfold push_sentinel, dq_push. by rewrite H1. }
  destruct (decide (dw_posting w = 0%nat)) as [Ep|Ep]; [|right; eexists; apply ds_post; lia].
  destruct (dw_place w) as [| | |m|] eqn:Epl.
  - left. split_and!; try done. destruct H6 as [H6 _]. intros E. rewrite H6 in E; done.
  - right. assert (Hsem : dq_sem (dw_queue w) ≠ 0%nat).
    { intros E. unfold token in H2. rewrite E, Ep, Epl in H2. unfold queued in Hq. rewrite Epl, Hs, Ed in Hq.
      destruct (dw_started w) eqn:Est; [|by destruct H6 as [_ H6]; specialize (H6 eq_refl)].
      rewrite Hq, length_app in H2. cbn in H2. lia. }
    destruct (dq_sem (dw_queue w)) as [|n] eqn:En; [done|]. eexists. apply ds_wait; [done|]. unfold dq_try_wait. by rewrite En.
  - right. eexists. by apply ds_pop.
  - right. eexists. by eapply ds_return.
  - by left.
Qed.

Lemma joined_done w : draining_ok w → joined w → dw_done w = dw_pushed w.
Proof.
  intros Hw (_ & _ & Hj). destruct (do_queue _ Hw) as (rest & _ & Hp & He). destruct (dw_started w) eqn:Est.
  - specialize (Hj eq_refl). rewrite (He Hj) in Hp. unfold in_handler in Hp. by rewrite Hj, app_nil_r in Hp.
  - rewrite (do_fresh _ Hw Est) in Hp. rewrite (do_fresh _ Hw Est). by apply app_nil in Hp as [? _].
Qed.

Lemma stopped_draining_ends w : draining_ok w → dw_stopped w = true → sn draining_step w.
Proof.
  intros Hw Hs. remember (to_do w) as n eqn:Hn. revert w Hw Hs Hn.
  induction (lt_wf n) as [n _ IH]. intros w Hw Hs ->. constructor. intros w' Hst.
  destruct (stopped_decreases w w' Hw Hs Hst) as [Hs' Hlt]. by apply (IH _ Hlt w' (draining_step_ok w w' Hw Hst)).
Qed.
End Invariant.

(** ** Properties *)

(** In every interleaving the handler gets the messages in the order of their pushes, none twice, and handled()
    counts those it has returned from. *)
Theorem draining_worker_in_order {M : Type} `{!Inhabited M} (w : DrainingWorker M) : rtc draining_step new_draining w →
  dw_broken w = false ∧ handled w = length (dw_done w) ∧ ∃ rest, dw_done w ++ in_handler w ++ rest = dw_pushed w.
Proof.
  intros Hr. pose proof (draining_reachable_ok w Hr) as Hw. destruct (do_queue _ Hw) as (rest & _ & Hs & _).
  split_and!; [apply (do_sound _ Hw)|apply (do_count _ Hw)|by exists rest].
Qed.

(** After stop a draining worker ends in every schedule, and when its join can return every message ever pushed
    has been handled: none is left in the queue. *)
Theorem draining_worker_drains {M : Type} `{!Inhabited M} (w : DrainingWorker M) :
  rtc draining_step new_draining w → dw_stopped w = true →
  sn draining_step w ∧
  ∀ w', rtc draining_step w w' → (∃ w'', draining_step w' w'') ∨ joined w' ∧ dw_done w' = dw_pushed w'.
Proof.
  intros Hr Hs. pose proof (draining_reachable_ok w Hr) as Hw.
  split; [by apply stopped_draining_ends|]. intros w' Hr'.
  assert (Hend : draining_ok w' ∧ dw_stopped w' = true).
  { clear Hr. induction Hr' as [|v v' w' Hst _ IH]; [done|].
    apply IH; [by apply (stopped_decreases v v')|by apply (draining_step_ok v v')]. }
  destruct Hend as [Hw' Hs']. destruct (draining_progress w' Hw' Hs') as [Hj|Hx]; [right|by left]. split; [done|].
  by apply joined_done.
Qed.

(** ** One run *)

Module Numbers.
Lemma run_of_two : ∃ w, rtc draining_step (new_draining (M := nat)) w ∧ dw_stopped w = true ∧ dw_done w = [3%nat] ∧
  dw_pushed w = [3%nat; 8%nat].
Proof.
  eexists. split.
  - eapply rtc_l; [apply (ds_push 3%nat); reflexivity|]. eapply rtc_l; [apply ds_post; cbn; lia|].
    eapply rtc_l; [apply ds_wait; reflexivity|]. eapply rtc_l; [apply ds_pop; reflexivity|].
    eapply rtc_l; [apply (ds_push 8%nat); reflexivity|]. eapply rtc_l; [by eapply ds_return|].
    eapply rtc_l; [apply ds_stop; reflexivity|]. apply rtc_refl.
  - vm_compute. by split_and!.
Defined.

Lemma draining_worker_in_order_witness : ∃ w, rtc draining_step (new_draining (M := nat)) w ∧ dw_done w = [3%nat] ∧
  handled w = length (dw_done w).
Proof.
  destruct run_of_two as (w & Hr & _ & Hd & _). exists w. split; [done|]. split; [done|].
  apply (draining_worker_in_order w Hr).
Defined.

Lemma draining_worker_drains_witness : ∃ w, rtc draining_step (new_draining (M := nat)) w ∧
  dw_pushed w = [3%nat; 8%nat] ∧ sn draining_step w.
Proof.
  destruct run_of_two as (w & Hr & Hs & _ & Hp). exists w. split; [done|]. split; [done|].
  apply (draining_worker_drains w Hr Hs).
Defined.
End Numbers.
