(* ===== verification/Task.v ===== *)
(** Requests and tasks (streamer/impl/request, streamer/impl/task).

    A request is one range the caller asked for and owes one response; it is shared by the tasks it
    was cut into, so requests live in a store and a task holds the key of its own (the
    std::shared_ptr).  A task finishes once; the last one to finish completes its request. *)

From S2P Require Import Prelude ResponseCode.

(** One range as the caller supplies it. *)
Record ReadRange := mkReadRange { rr_offset : Z; rr_size : Z; rr_dst : Z }.
Record FileRanges := mkFileRanges { fr_path : list Ascii.ascii; fr_ranges : list ReadRange }.

Record Request := mkRequest {
  r_offset : Z; r_file_index : Z; r_index : Z; r_bytesize : Z; r_dst : Z;
  r_tasks : Z;               (** unfinished tasks, std::atomic<unsigned> *)
  r_ret : ResponseCode }.

Abbreviation store := (gmap nat Request).

Definition make_request (offset file_index index tasks bytesize dst : Z) : Request :=
  mkRequest offset file_index index bytesize dst (wrap32 tasks) Success.

(** Request::finished: the boolean says this was the last task. *)
Definition finished (result : ResponseCode) (r : Request) : Request * bool :=
  let ret := if decide (result = Success) then r_ret r else result in
  let running := r_tasks r in
  (mkRequest (r_offset r) (r_file_index r) (r_index r) (r_bytesize r) (r_dst r) (sub32 running 1) ret,
   running =? 1).

(** Task::Info; [end] is a keyword of Rocq. *)
Record Info := mkInfo { i_offset : Z; i_bytesize : Z; i_end : Z; i_relative_offset : Z }.

Definition make_info (offset bytesize relative_offset : Z) : Info :=
  mkInfo offset bytesize (offset ⊕ bytesize) relative_offset.

Record Task := mkTask { request : nat; info : Info; t_finished : bool }.

Definition make_task (req : nat) (i : Info) : Task := mkTask req i false.

Definition t_offset (t : Task) : Z := i_offset (info t).
Definition t_bytesize (t : Task) : Z := i_bytesize (info t).
Definition t_end (t : Task) : Z := i_end (info t).

Definition set_finished (t : Task) : Task := mkTask (request t) (info t) true.

(** Task::finished_request.  A dangling key does not arise from a shared_ptr; [None]. *)
Definition finished_request (ret : ResponseCode) (t : Task) (s : store) :
    option (Task * store * bool) :=
  if t_finished t then Some (t, s, false)
  else
    match s !! request t with
    | None => None
    | Some r =>
        let '(r', last) := finished ret r in
        Some (set_finished t, <[request t := r']> s, last)
    end.

Definition destination (s : store) (t : Task) : outcome Z :=
  match s !! request t with
  | None => Throw AssertFailed
  | Some r => Ret (r_dst r + i_relative_offset (info t))
  end.

(** ** Accounting *)

(** Unfinished tasks of request [k] among [ts]. *)
Definition pending (k : nat) (ts : list Task) : nat :=
  length (filter (λ t, request t = k ∧ t_finished t = false) ts).

Lemma pending_nil k : pending k [] = 0%nat.
Proof. done. Qed.

Lemma pending_cons k t ts : pending k (t :: ts) =
  ((if decide (request t = k ∧ t_finished t = false) then 1 else 0) + pending k ts)%nat.
Proof. unfold pending. rewrite filter_cons. by case_decide. Qed.

Lemma pending_app k l1 l2 : pending k (l1 ++ l2) = (pending k l1 + pending k l2)%nat.
Proof. unfold pending. by rewrite filter_app, length_app. Qed.

Lemma pending_set_finished k t ts :
  pending k (set_finished t :: ts) = pending k ts.
Proof. rewrite pending_cons. destruct (decide _) as [[_ ?]|]; done. Qed.

Lemma pending_elem t ts : t ∈ ts → t_finished t = false → (0 < pending (request t) ts)%nat.
Proof.
  intros (l1 & l2 & ->)%list_elem_of_split Hf. rewrite pending_app, pending_cons, decide_True by done. lia.
Qed.

Lemma pending_perm k l1 l2 : l1 ≡ₚ l2 → pending k l1 = pending k l2.
Proof. intros H. unfold pending. by rewrite H. Qed.

#[export] Instance pending_proper k : Proper ((≡ₚ) ==> eq) (pending k).
Proof. intros l1 l2. apply pending_perm. Qed.

(** Tasks just made for one request. *)
Lemma pending_new k req infos :
  pending k (map (make_task req) infos) = if decide (k = req) then length infos else 0%nat.
Proof.
  induction infos as [|i infos IH]; [by case_decide|].
  simpl map. rewrite pending_cons, IH. simpl. repeat case_decide; destruct_and?; simpl; try done; try lia;
    exfalso; subst; intuition done.
Qed.

Lemma pending_dead k (s : store) ts : (∀ t, t ∈ ts → is_Some (s !! request t)) → s !! k = None → pending k ts = 0%nat.
Proof.
  intros Hl Hk. induction ts as [|t ts IH]; [done|]. rewrite pending_cons, IH by (intros; apply Hl; by right).
  rewrite decide_False; [done|]. intros [<- _]. destruct (Hl t) as [r Hr]; [left|]. congruence.
Qed.

Lemma pending_le k ts : (pending k ts <= length ts)%nat.
Proof. induction ts; [done|]. rewrite pending_cons. case_decide; simpl; lia. Qed.

(** A store agrees with the tasks that point into it: every request's counter is the number of its
    unfinished tasks, and every task's request exists. *)
Record consistent (s : store) (ts : list Task) : Prop := {
  cons_count : ∀ k r, s !! k = Some r → r_tasks r = Z.of_nat (pending k ts);
  cons_bound : Z.of_nat (length ts) < unsigned_modulus;
  cons_live : ∀ t, t ∈ ts → is_Some (s !! request t) }.

(** One more request, all of whose tasks are new. *)
Lemma consistent_insert (s : store) k r ts new : s !! k = None → consistent s ts →
  r_tasks r = Z.of_nat (length new) → Z.of_nat (length ts + length new) < unsigned_modulus →
  consistent (<[k:=r]> s) (ts ++ map (make_task k) new).
Proof.
  intros Hk [Hc Hb Hl] Hr Hlen.
  assert (Hz : pending k ts = 0%nat) by by eapply pending_dead.
  split.
  - intros k' r' Hk'. rewrite pending_app, pending_new. destruct (decide (k' = k)) as [->|Hne].
    + rewrite lookup_insert_eq in Hk'. injection Hk' as <-. rewrite Hz. done.
    + rewrite lookup_insert_ne in Hk' by done. rewrite Nat.add_0_r. by apply Hc.
  - rewrite length_app, length_map. lia.
  - intros t [Ht|(i & -> & _)%list_elem_of_fmap]%elem_of_app.
    + destruct (decide (request t = k)) as [->|]; [rewrite lookup_insert_eq; eauto|].
      rewrite lookup_insert_ne by done. by apply Hl.
    + simpl. rewrite lookup_insert_eq. eauto.
Qed.

#[export] Instance consistent_proper s : Proper ((≡ₚ) ==> iff) (consistent s).
Proof.
  assert (∀ l1 l2, l1 ≡ₚ l2 → consistent s l1 → consistent s l2) as H.
  { intros l1 l2 Hl [Hc Hb Hli]. split.
    - intros k r Hk. rewrite <- Hl. by apply Hc.
    - by rewrite <- Hl.
    - intros t. rewrite <- Hl. apply Hli. }
  intros l1 l2 Hl. split; by apply H.
Qed.
(** What one finish does, in an arbitrary position among the tasks of the system. *)
Record finish_effect (ret : ResponseCode) (s : store) (t : Task) (s' : store) (t' : Task) (last : bool)
    (before after : list Task) : Prop := {
  fin_consistent : consistent s' (before ++ t' :: after);
  fin_task : t' = set_finished t;
  fin_last : last = true ↔ t_finished t = false ∧ pending (request t) (before ++ t' :: after) = 0%nat;
  fin_request : ∀ k r, s !! k = Some r → ∃ r', s' !! k = Some r' ∧
     r_index r' = r_index r ∧ r_file_index r' = r_file_index r ∧ r_dst r' = r_dst r ∧
     r_bytesize r' = r_bytesize r ∧
     r_ret r' = if decide (k = request t ∧ t_finished t = false ∧ ret ≠ Success) then ret else r_ret r;
  fin_dom : ∀ k, is_Some (s' !! k) ↔ is_Some (s !! k) }.

Lemma pending_finish k t before after :
  pending k (before ++ t :: after) =
  ((if decide (request t = k ∧ t_finished t = false) then 1 else 0) +
   pending k (before ++ set_finished t :: after))%nat.
Proof. rewrite !pending_app, pending_set_finished, pending_cons. lia. Qed.

Lemma set_finished_id t : t_finished t = true → set_finished t = t.
Proof. destruct t as [q i f]. simpl. by intros ->. Qed.

Lemma finished_request_effect ret s t before after :
  consistent s (before ++ t :: after) →
  ∃ t' s' last, finished_request ret t s = Some (t', s', last) ∧
                finish_effect ret s t s' t' last before after.
Proof.
  intros Hc. unfold finished_request. destruct (t_finished t) eqn:Ef.
  - exists t, s, false. split; [done|]. split; [done|by rewrite set_finished_id| | |done].
    { split; [done|intros [? _]; congruence]. }
    intros k r Hr. exists r. split_and!; auto. by rewrite decide_False by (intros ?; destruct_and?; congruence).
  - destruct Hc as [Hcount Hb Hlive].
    destruct (Hlive t) as [r Hr]; [apply elem_of_app; right; left|]. rewrite Hr. simpl.
    pose proof (Hcount _ _ Hr) as Hn. rewrite pending_finish, decide_True in Hn by done.
    assert (Hle : (pending (request t) (before ++ set_finished t :: after) <= length (before ++ t :: after))%nat)
      by (rewrite pending_le, !length_app; simpl; lia).
    eexists _, _, _. split; [done|]. split.
    + split.
      * intros k r' Hk. destruct (decide (k = request t)) as [->|Hne].
        -- rewrite lookup_insert_eq in Hk. injection Hk as <-. simpl. rewrite Hn. unwrap. lia.
        -- rewrite lookup_insert_ne in Hk by done. rewrite (Hcount _ _ Hk), pending_finish.
           rewrite decide_False by (intros ?; destruct_and?; congruence). lia.
      * rewrite !length_app in *. simpl in *. lia.
      * intros t' Ht'. destruct (decide (request t' = request t)) as [->|Hne];
          [rewrite lookup_insert_eq; eauto|]. rewrite lookup_insert_ne by done. apply Hlive.
        rewrite elem_of_app, elem_of_cons in *.
        destruct Ht' as [|[->|]]; [tauto|done|tauto].
    + done.
    + rewrite Z.eqb_eq, Hn, Ef. split; [intros; split; [done|lia]|]. intros [_ ?]. lia.
    + intros k r' Hk. destruct (decide (k = request t)) as [->|Hne].
      * rewrite lookup_insert_eq. eexists. split; [done|]. simplify_eq. simpl. split_and!; auto.
        destruct (decide (ret = Success)); [rewrite decide_False by (intros ?; destruct_and?; congruence)|rewrite decide_True by done]; done.
      * rewrite lookup_insert_ne by done. exists r'. split_and!; auto.
        by rewrite decide_False by (intros ?; destruct_and?; congruence).
    + intros k. destruct (decide (k = request t)) as [->|Hne];
        [rewrite lookup_insert_eq, Hr; split; eauto|by rewrite lookup_insert_ne].
Qed.
