(* ===== verification/ChunkSplitter.v ===== *)
(** Grouping a batch's tasks into read requests (streamer/impl/chunk_splitter). *)

From S2P Require Import Prelude ResponseCode Task.

Record Chunk := mkChunk {
  c_offset : Z; c_bytesize : Z; c_buffer : Z; first_task : Z; task_count : Z }.

#[export] Instance Chunk_eq_dec : EqDecision Chunk.
Proof. solve_decision. Defined.

Section Splitter.
Context (s : store) (chunk_bytesize : Z).

Definition extend (c : Chunk) (t : Task) : Chunk :=
  mkChunk (c_offset c) (c_bytesize c ⊕ t_bytesize t) (c_buffer c) (first_task c)
          (add32 (task_count c) 1).

(** The loop over the tasks.  [chunks] is the vector with its back first: the chunk that a task may
    extend is the head. *)
Fixpoint split_loop (ts : list Task) (i chunk_end expected_offset : Z) (chunks : list Chunk) :
    outcome (list Chunk) :=
  match ts with
  | [] => Ret chunks
  | t :: ts =>
      ASSERT (t_offset t =? expected_offset) ;;!
      let expected_offset := t_end t in
      let starts_a_chunk :=
        bool_decide (chunks = []) || ((t_bytesize t >? 0) && (t_offset t >=? chunk_end)) in
      if starts_a_chunk then
        let chunk_end := (t_offset t / chunk_bytesize ⊕ 1) ⊗ chunk_bytesize in
        let! dst := destination s t in
        split_loop ts (add32 i 1) chunk_end expected_offset
                   (mkChunk (t_offset t) (t_bytesize t) dst i 1 :: chunks)
      else
        match chunks with
        | [] => Throw AssertFailed
        | c :: cs =>
            let c := extend c t in
            ASSERT (c_offset c ⊕ c_bytesize c <=? chunk_end) ;;!
            split_loop ts (add32 i 1) chunk_end expected_offset (c :: cs)
        end
  end.

Definition split_into_chunks (tasks : list Task) : outcome (list Chunk) :=
  ASSERT (negb (chunk_bytesize =? 0)) ;;!
  match tasks with
  | [] => Ret []
  | first :: _ =>
      let! chunks := split_loop tasks 0 0 (t_offset first) [] in
      match reverse chunks with
      | [c] => Ret (if c_bytesize c =? 0 then [] else [c])
      | chunks => Ret chunks
      end
  end.

(** ** What the chunks are *)

Definition info_ok (t : Task) : Prop :=
  t_end t = t_offset t ⊕ t_bytesize t ∧ is_Some (s !! request t).

(** A task cut on chunk boundaries: its bytes lie in one cell of the chunk grid. *)
Definition cut (t : Task) : Prop :=
  0 < t_bytesize t → t_offset t mod chunk_bytesize + t_bytesize t <= chunk_bytesize.

Definition chunk_cut (c : Chunk) : Prop := c_offset c mod chunk_bytesize + c_bytesize c <= chunk_bytesize.

(** [c] is the read of the tasks [g], the first of which is task number [i] of the batch. *)
Record covers (i : Z) (g : list Task) (c : Chunk) : Prop := {
  cov_head : ∃ t g', g = t :: g' ∧ c_offset c = t_offset t ∧ destination s t = Ret (c_buffer c);
  cov_bytes : c_bytesize c = sumZ (map t_bytesize g);
  cov_first : first_task c = i;
  cov_count : task_count c = Z.of_nat (length g) }.

Inductive grouped : Z → list Task → list Chunk → Prop :=
| grouped_nil i : grouped i [] []
| grouped_cons i g ts c cs :
    covers i g c → grouped (i + Z.of_nat (length g)) ts cs → grouped i (g ++ ts) (c :: cs).

Lemma destination_some t : is_Some (s !! request t) → ∃ d, destination s t = Ret d.
Proof. intros [r Hr]. unfold destination. rewrite Hr. eauto. Qed.

Lemma cell_end o : 0 < chunk_bytesize → 0 <= o → o + chunk_bytesize < size_modulus →
  (o / chunk_bytesize ⊕ 1) ⊗ chunk_bytesize = o - o mod chunk_bytesize + chunk_bytesize.
Proof.
  intros Hc Ho Hm. pose proof (Z.div_mod o chunk_bytesize). pose proof (Z.mod_pos_bound o chunk_bytesize Hc).
  assert (0 <= o / chunk_bytesize <= o) by (split; [apply Z.div_pos|apply Z.div_le_upper_bound]; nia).
  assert (0 <= (o / chunk_bytesize + 1) * chunk_bytesize < size_modulus) by nia.
  unwrap. lia.
Qed.

Definition all_positive (cs : list Chunk) : Prop :=
  Forall (λ c, 0 < c_bytesize c) cs ∨ ∃ c, cs = [c] ∧ c_bytesize c = 0.

Lemma covers_snoc i g c t : covers i g c → is_size (c_bytesize c + t_bytesize t) →
  Z.of_nat (length g) + 1 < unsigned_modulus → covers i (g ++ [t]) (extend c t).
Proof.
  intros [(x & g' & -> & ? & ?) Hb Hf Hn] Hs Hl. split; simpl in *.
  - exists x, (g' ++ [t]). done.
  - unwrap. rewrite Hb, map_app, sumZ_app. simpl. lia.
  - done.
  - rewrite Hn, length_app. simpl. unwrap. lia.
Qed.

Lemma covers_single i t d : destination s t = Ret d →
  covers i [t] (mkChunk (t_offset t) (t_bytesize t) d i 1).
Proof. intros H. split; simpl; [by exists t, []|lia|done|done]. Qed.

(** The two ways one task goes through the loop. *)
Lemma split_loop_extend t ts i chunk_end expected c cs :
  t_offset t = expected → c_offset c + c_bytesize c = expected →
  t_bytesize t = 0 ∨ t_offset t < chunk_end →
  c_offset c + (c_bytesize c + t_bytesize t) <= chunk_end → chunk_end < size_modulus →
  0 <= c_offset c → 0 <= c_bytesize c → 0 <= t_bytesize t →
  split_loop (t :: ts) i chunk_end expected (c :: cs) =
  split_loop ts (add32 i 1) chunk_end (t_end t) (extend c t :: cs).
Proof.
  intros Ho He Hs Hc Hm H1 H2 H3. cbn [split_loop]. rewrite (proj2 (Z.eqb_eq _ _)) by done.
  simpl ASSERT. cbn [obind]. rewrite bool_decide_false by done. rewrite orb_false_l.
  rewrite Z.gtb_ltb, Z.geb_leb.
  assert (((0 <? t_bytesize t) && (chunk_end <=? t_offset t)) = false) as ->.
  { destruct Hs as [->|Hs]; [done|]. rewrite (proj2 (Z.leb_gt _ _)) by done. by rewrite andb_false_r. }
  rewrite ASSERT_true; [done|]. apply Z.leb_le. simpl. unwrap. done.
Qed.

Lemma split_loop_start t ts i chunk_end chunks d :
  chunks = [] ∨ (0 < t_bytesize t ∧ chunk_end <= t_offset t) → destination s t = Ret d →
  0 < chunk_bytesize → 0 <= t_offset t → t_offset t + chunk_bytesize < size_modulus →
  split_loop (t :: ts) i chunk_end (t_offset t) chunks =
  split_loop ts (add32 i 1) (t_offset t - t_offset t mod chunk_bytesize + chunk_bytesize) (t_end t)
             (mkChunk (t_offset t) (t_bytesize t) d i 1 :: chunks).
Proof.
  intros Hs Hd Hc Ho Hm. cbn [split_loop]. rewrite Z.eqb_refl. simpl ASSERT. cbn [obind].
  rewrite Z.gtb_ltb, Z.geb_leb.
  assert ((bool_decide (chunks = []) || (0 <? t_bytesize t) && (chunk_end <=? t_offset t)) = true) as ->.
  { destruct Hs as [->|[? ?]]; [done|]. rewrite (proj2 (Z.ltb_lt _ _)), (proj2 (Z.leb_le _ _)) by done.
    by rewrite orb_true_r. }
  rewrite Hd, cell_end by done. done.
Qed.

(** A positive task that starts inside the open chunk's cell ends inside it. *)
Lemma cut_in_cell t c : 0 < chunk_bytesize → cut t → chunk_cut c → 0 <= c_bytesize c →
  t_offset t = c_offset c + c_bytesize c → 0 < t_bytesize t →
  t_offset t < c_offset c - c_offset c mod chunk_bytesize + chunk_bytesize →
  c_offset c mod chunk_bytesize + c_bytesize c + t_bytesize t <= chunk_bytesize.
Proof.
  intros Hcb Hct Hcc Hb Ho Hp Hlt. specialize (Hct Hp). unfold chunk_cut in Hcc.
  pose proof (Z.mod_pos_bound (c_offset c) chunk_bytesize Hcb).
  replace (t_offset t mod chunk_bytesize) with (c_offset c mod chunk_bytesize + c_bytesize c) in Hct; [lia|].
  rewrite Ho. rewrite <- Zplus_mod_idemp_l. symmetry. apply Z.mod_small. lia.
Qed.

(** The loop's invariant: the open chunk [c] covers the tasks [g] it took so far, ends where the
    next task starts, and lies in its cell, which ends at [chunk_end]. *)
Record open_chunk (i : Z) (g : list Task) (c : Chunk) : Prop := {
  oc_covers : covers (i - Z.of_nat (length g)) g c;
  oc_cut : chunk_cut c;
  oc_offset : 0 <= c_offset c;
  oc_bytes : 0 <= c_bytesize c;
  oc_index : 0 <= i - Z.of_nat (length g) }.

Lemma open_extend i g c t : open_chunk i g c → 0 <= t_bytesize t →
  c_offset c mod chunk_bytesize + c_bytesize c + t_bytesize t <= chunk_bytesize →
  is_size (c_bytesize c + t_bytesize t) → i + 1 < unsigned_modulus →
  open_chunk (i + 1) (g ++ [t]) (extend c t).
Proof.
  intros [Hcov Hcut Ho Hb Hi] Ht Hc Hs Hl. split; try (rewrite length_app; simpl).
  - replace (i + 1 - _) with (i - Z.of_nat (length g)) by lia. apply covers_snoc; [done|done|lia].
  - unfold chunk_cut. simpl. unwrap. lia.
  - done.
  - simpl. unwrap. lia.
  - lia.
Qed.

Lemma open_start i t d : destination s t = Ret d → 0 < chunk_bytesize → 0 < t_bytesize t ∨ t_bytesize t = 0 →
  0 <= i → cut t → 0 <= t_offset t →
  open_chunk (i + 1) [t] (mkChunk (t_offset t) (t_bytesize t) d i 1).
Proof.
  intros Hd Hc Hp Hi Hcut Ho. split; simpl; try lia.
  - replace (i + 1 - Z.of_nat 1) with i by lia. by apply covers_single.
  - unfold chunk_cut. simpl. pose proof (Z.mod_pos_bound (t_offset t) chunk_bytesize Hc).
    destruct Hp as [Hp| ->]; [by apply Hcut|lia].
Qed.

Lemma split_loop_spec ts : ∀ i g c cs e,
  0 < chunk_bytesize → open_chunk i g c →
  tiles t_offset t_bytesize (c_offset c + c_bytesize c) ts e →
  e + chunk_bytesize < size_modulus →
  i + Z.of_nat (length ts) < unsigned_modulus →
  Forall cut ts → Forall info_ok ts →
  ∃ new, split_loop ts i (c_offset c - c_offset c mod chunk_bytesize + chunk_bytesize)
                    (c_offset c + c_bytesize c) (c :: cs) = Ret (reverse new ++ cs) ∧
    grouped (i - Z.of_nat (length g)) (g ++ ts) new ∧ Forall chunk_cut new ∧ all_positive new ∧
    tiles c_offset c_bytesize (c_offset c) new e.
Proof.
  induction ts as [|t ts IH]; intros i g c cs e Hcb Hop Ht He Hlen Hcut Hinfo;
    destruct (Hop) as [Hcov Hcc Hco Hb Hi].
  - exists [c]. apply tiles_nil_inv in Ht as <-. split_and!; [done| | | |by repeat constructor].
    + rewrite app_nil_r. rewrite <- (app_nil_r g) at 2. constructor; [done|constructor].
    + by constructor.
    + destruct (decide (c_bytesize c = 0)); [right; eauto|left]. constructor; [lia|constructor].
  - apply tiles_cons_inv in Ht as (Hto & Htb & Ht). apply Forall_cons in Hcut as [Hct Hcuts].
    apply Forall_cons in Hinfo as [[Hend Hreq] Hinfos]. pose proof (tiles_le _ _ _ _ _ Ht) as Hle.
    pose proof (Z.mod_pos_bound (c_offset c) chunk_bytesize Hcb) as Hmod.
    assert (Hend' : t_end t = t_offset t + t_bytesize t) by (rewrite Hend; unwrap; lia).
    simpl in Hlen. assert (Hi1 : add32 i 1 = i + 1) by (unwrap; lia).
    destruct (decide (0 < t_bytesize t ∧
      c_offset c - c_offset c mod chunk_bytesize + chunk_bytesize <= t_offset t)) as [[Hpos Hnew]|Hext].
    + destruct (destination_some t Hreq) as [d Hd]. set (c' := mkChunk (t_offset t) (t_bytesize t) d i 1).
      destruct (IH (i + 1) [t] c' (c :: cs) e) as (new & Hl & Hg & Hc & Hp & Htl); try done.
      { apply open_start; (done || lia || auto). }
      { simpl. by rewrite Hto. }
      { lia. }
      exists (c :: new). rewrite <- Hto, (split_loop_start _ _ _ _ _ d), Hi1, Hend' by (auto; lia).
      subst c'. simpl in Hl, Htl. rewrite Hl, reverse_cons, <- app_assoc. split_and!; [done| |by constructor| |].
      * constructor; [done|]. simpl in Hg. replace (i + 1 - Z.of_nat 1) with i in Hg by lia.
        by replace (i - Z.of_nat (length g) + Z.of_nat (length g)) with i by lia.
      * left. constructor; [unfold chunk_cut in Hcc; lia|]. destruct Hp as [Hp|(x & -> & Hx)]; [done|].
        apply tiles_cons_inv in Htl as (Hxo & _ & Htl). apply tiles_nil_inv in Htl. lia.
      * constructor; [done|done|]. by rewrite <- Hto.
    + assert (Hroom : c_offset c mod chunk_bytesize + c_bytesize c + t_bytesize t <= chunk_bytesize).
      { destruct (decide (0 < t_bytesize t)) as [Hpos|]; [|unfold chunk_cut in Hcc; lia].
        apply cut_in_cell; (done || lia). }
      rewrite split_loop_extend, Hi1, Hend' by lia.
      assert (Hcb' : c_bytesize (extend c t) = c_bytesize c + t_bytesize t) by (simpl; unwrap; done).
      destruct (IH (i + 1) (g ++ [t]) (extend c t) cs e) as (new & Hl & Hg & Hrest); try done.
      { apply open_extend; (done || mlia). }
      { rewrite Hcb'. simpl. by replace (c_offset c + (c_bytesize c + t_bytesize t))
          with (c_offset c + c_bytesize c + t_bytesize t) by lia. }
      { lia. }
      exists new. rewrite Hcb', length_app in *. simpl in Hl, Hg, Hrest.
      replace (t_offset t + t_bytesize t) with (c_offset c + (c_bytesize c + t_bytesize t)) by lia.
      split; [done|]. replace (i + 1 - _) with (i - Z.of_nat (length g)) in Hg by lia.
      by rewrite <- app_assoc in Hg.
Qed.

Lemma split_into_chunks_spec tasks b e :
  0 < chunk_bytesize → 0 <= b → tiles t_offset t_bytesize b tasks e →
  e + chunk_bytesize < size_modulus → Z.of_nat (length tasks) < unsigned_modulus →
  Forall cut tasks → Forall info_ok tasks →
  ∃ chunks, split_into_chunks tasks = Ret chunks ∧
    if decide (b = e) then chunks = []
    else grouped 0 tasks chunks ∧ Forall chunk_cut chunks ∧
         Forall (λ c, 0 < c_bytesize c) chunks ∧ tiles c_offset c_bytesize b chunks e.
Proof.
  intros Hcb Hb Ht He Hlen Hcut Hinfo. unfold split_into_chunks.
  rewrite ASSERT_true by (apply negb_true_iff, Z.eqb_neq; lia). cbn [obind].
  destruct tasks as [|t ts].
  { apply tiles_nil_inv in Ht as <-. exists []. by rewrite decide_True. }
  apply tiles_cons_inv in Ht as (Hto & Htb & Ht). apply Forall_cons in Hcut as [Hct Hcuts].
  apply Forall_cons in Hinfo as [[Hend Hreq] Hinfos]. pose proof (tiles_le _ _ _ _ _ Ht) as Hle.
  destruct (destination_some t Hreq) as [d Hd]. simpl in Hlen.
  assert (Hend' : t_end t = t_offset t + t_bytesize t) by (rewrite Hend; unwrap; lia).
  rewrite (split_loop_start _ _ _ _ _ d), Hend' by (auto; lia).
  replace (add32 0 1) with 1 by done.
  destruct (split_loop_spec ts 1 [t] (mkChunk (t_offset t) (t_bytesize t) d 0 1) [] e)
    as (new & Hl & Hg & Hc & Hp & Htl); try done.
  { change 1 with (0 + 1). apply open_start; (done || lia || auto). }
  { simpl. by rewrite Hto. }
  { lia. }
  simpl in Hl, Hg, Htl. rewrite Hl. cbn [obind]. rewrite app_nil_r, reverse_involutive.
  rewrite Hto in Htl. destruct Hp as [Hp|(x & -> & Hx)].
  - assert (Hne : b ≠ e).
    { intros ->. destruct new as [|c new]; [by inversion Hg|]. inversion Hp; subst.
      apply tiles_cons_inv in Htl as (? & ? & Htl). apply tiles_le in Htl. lia. }
    exists new. rewrite decide_False by done. split; [|done].
    destruct new as [|c [|c' new]]; try done. inversion Hp; subst.
    by rewrite (proj2 (Z.eqb_neq _ _)) by lia.
  - apply tiles_cons_inv in Htl as (? & ? & Htl). apply tiles_nil_inv in Htl.
    exists []. rewrite decide_True by lia. rewrite Hx. done.
Qed.

(** C23: tasks cut on chunk boundaries are grouped without loss: the splitter returns (no ASSERT
    fires), the chunks are the tasks in order, each chunk reads exactly its tasks' bytes starting at
    its first task's destination, every chunk is non-empty and lies in one cell of the chunk grid,
    and together they read the batch's interval from end to end.  A batch with no bytes yields no
    chunk. *)
Theorem split_into_chunks_correct tasks b e :
  0 < chunk_bytesize → 0 <= b → tiles t_offset t_bytesize b tasks e →
  e + chunk_bytesize < size_modulus → Z.of_nat (length tasks) < unsigned_modulus →
  Forall cut tasks → Forall info_ok tasks →
  ∃ chunks, split_into_chunks tasks = Ret chunks ∧
    if decide (b = e) then chunks = []
    else grouped 0 tasks chunks ∧ Forall chunk_cut chunks ∧
         Forall (λ c, 0 < c_bytesize c) chunks ∧ tiles c_offset c_bytesize b chunks e.
Proof. apply split_into_chunks_spec. Qed.

Lemma grouped_task i ts cs t : grouped i ts cs → t ∈ ts →
  ∃ c g, c ∈ cs ∧ t ∈ g ∧ covers (first_task c) g c ∧ task_count c = Z.of_nat (length g).
Proof.
  induction 1 as [|i g ts c cs Hcov Hg IH]; intros Ht; [by apply not_elem_of_nil in Ht|].
  apply elem_of_app in Ht as [Ht|Ht].
  - exists c, g. split_and!; [left|done|by rewrite (cov_first _ _ _ Hcov)|apply Hcov].
  - destruct (IH Ht) as (c' & g' & ? & ?). exists c', g'. split; [by right|done].
Qed.
End Splitter.

(** ** Witness: three tasks, the middle one empty, cut at multiples of 8 *)

Definition example_store : store :=
  {[0%nat := make_request 4 0 0 2 8 104; 1%nat := make_request 12 0 1 1 0 112]}.

Definition example_tasks : list Task :=
  [ make_task 0 (make_info 4 4 0); make_task 0 (make_info 8 4 4); make_task 1 (make_info 12 0 0) ].

Lemma split_into_chunks_correct_witness :
  split_into_chunks example_store 8 example_tasks =
    Ret [mkChunk 4 4 104 0 1; mkChunk 8 4 108 1 2] ∧
  ∃ chunks, split_into_chunks example_store 8 example_tasks = Ret chunks ∧
            tiles c_offset c_bytesize 4 chunks 12.
Proof.
  split; [vm_compute; reflexivity|].
  destruct (split_into_chunks_correct example_store 8 example_tasks 4 12) as (chunks & Hs & Hc).
  - lia.
  - lia.
  - repeat (constructor; [reflexivity|vm_compute; discriminate|]). constructor.
  - reflexivity.
  - reflexivity.
  - repeat constructor; unfold cut; simpl; vm_compute; intros; discriminate.
  - repeat constructor; unfold example_store; vm_compute; eexists; reflexivity.
  - exists chunks. split; [exact Hs|]. apply Hc.
Defined.
