(* ===== verification/Batch.v ===== *)
(** A batch: the tasks of one worker in one contiguous transfer (streamer/impl/batch), and how their
    completions become responses.

    [world] is what batches share: the store of requests and the responder.  The handlers return the
    batch and the world they leave behind, or the exception they throw before changing anything.
    [step] interleaves the handlers of any number of batches. *)

From S2P Require Import Prelude ResponseCode SharedQueue Task ChunkSplitter.

Record Range := mkRange { start : Z; size : Z; range_end : Z }.

Definition make_range (start_offset end_offset : Z) : outcome Range :=
  if end_offset <? start_offset then Throw (Code InvalidParameterError)
  else Ret (mkRange start_offset (end_offset ⊖ start_offset) end_offset).

Definition calculate_start (tasks : list Task) : Z :=
  match tasks with [] => 0 | t :: _ => t_offset t end.

Definition calculate_end (tasks : list Task) : Z :=
  match last tasks with None => 0 | Some t => t_end t end.

Record Batch := mkBatch {
  b_submission_id : Z; workload_index : Z; b_file_index : Z; is_object_storage : bool;
  tasks : list Task; chunks : list Chunk; range : Range; unfinished : nat }.

Definition make_batch (s : store) (sid widx fidx : Z) (object_storage : bool) (ts : list Task)
    (chunk_bytesize : Z) : outcome Batch :=
  let! cs := split_into_chunks s chunk_bytesize ts in
  let! r := make_range (calculate_start ts) (calculate_end ts) in
  Ret (mkBatch sid widx fidx object_storage ts cs r 0).

Definition set_tasks (b : Batch) (ts : list Task) (u : nat) : Batch :=
  mkBatch (b_submission_id b) (workload_index b) (b_file_index b) (is_object_storage b) ts (chunks b)
          (range b) u.

Section Handlers.
Context {R : Type} `{!Responder R}.

Record world := mkWorld { requests : store; responder : R }.

(** One task finishes; the last one of its request pushes the response. *)
Definition finish_task (sid fidx : Z) (ret : ResponseCode) (t : Task) (w : world) :
  outcome (Task * world) :=
match finished_request ret t (requests w) with
| None => Throw AssertFailed
| Some (t', s', false) => Ret (t', mkWorld s' (responder w))
| Some (t', s', true) =>
    match s' !! request t with
    | None => Throw AssertFailed
    | Some r => Ret (t', mkWorld s' (responder_push (mkResponse sid fidx (r_index r) (r_ret r))
                                                    (r_bytesize r) (responder w)))
    end
end.

Fixpoint finish_list (sid fidx : Z) (ret : ResponseCode) (ts : list Task) (w : world) :
  outcome (list Task * world) :=
match ts with
| [] => Ret ([], w)
| t :: ts =>
    let! (t', w) := finish_task sid fidx ret t w in
    let! (ts', w) := finish_list sid fidx ret ts w in
    Ret (t' :: ts', w)
end.

Definition handle_error (code : ResponseCode) (b : Batch) (w : world) : outcome (Batch * world) :=
if decide (code = Success) then Ret (b, w)
else
  let! (ts, w) := finish_list (b_submission_id b) (b_file_index b) code (tasks b) w in
  Ret (set_tasks b ts (unfinished b), w).

(** The loop of finished_until over the tasks from [_unfinished] on; the number is how many it
  passed. *)
Fixpoint finish_until (sid fidx : Z) (ret : ResponseCode) (file_offset : Z) (ts : list Task) (w : world) :
  outcome (list Task * nat * world) :=
match ts with
| [] => Ret ([], 0%nat, w)
| t :: ts' =>
    if file_offset <? t_end t then Ret (ts, 0%nat, w)
    else
      let! (t', w) := finish_task sid fidx ret t w in
      let! (ts'', n, w) := finish_until sid fidx ret file_offset ts' w in
      Ret (t' :: ts'', S n, w)
end.

Definition finished_until (file_offset : Z) (ret : ResponseCode) (b : Batch) (w : world) :
  outcome (Batch * world) :=
let! (ts, n, w) := finish_until (b_submission_id b) (b_file_index b) ret file_offset
                                (drop (unfinished b) (tasks b)) w in
Ret (set_tasks b (take (unfinished b) (tasks b) ++ ts) (unfinished b + n), w).

(** [i] is the position of the task the response belongs to, [None] a null pointer. *)
Definition handle_response (ret : ResponseCode) (i : option nat) (b : Batch) (w : world) :
  outcome (Batch * world) :=
if negb (bool_decide (ret = Success)) then Throw (Code ret)
else
  match i with
  | None => Throw AssertFailed
  | Some i =>
      match tasks b !! i with
      | None => Throw AssertFailed
      | Some t =>
          match requests w !! request t with
          | None => Throw AssertFailed
          | Some r =>
              ASSERT (r_file_index r =? b_file_index b) ;;!
              let! (t', w) := finish_task (b_submission_id b) (b_file_index b) ret t w in
              Ret (set_tasks b (<[i := t']> (tasks b)) (unfinished b), w)
          end
      end
  end.

(** ** Executions over several batches *)

Inductive step : list Batch * world → list Batch * world → Prop :=
| step_until before b after w off ret b' w' :
  finished_until off ret b w = Ret (b', w') →
  step (before ++ b :: after, w) (before ++ b' :: after, w')
| step_error before b after w code b' w' :
  handle_error code b w = Ret (b', w') →
  step (before ++ b :: after, w) (before ++ b' :: after, w')
| step_response before b after w ret i b' w' :
  handle_response ret i b w = Ret (b', w') →
  step (before ++ b :: after, w) (before ++ b' :: after, w').

Inductive steps : list Batch * world → list Batch * world → Prop :=
| steps_refl x : steps x x
| steps_step x y z : steps x y → step y z → steps x z.

(** ** The invariant of the submissions

  [owner] is the submission each request belongs to; [answered] lists the completed requests in the order
  their responses were pushed. *)

Definition response_of (sid : Z) (r : Request) : Response :=
mkResponse sid (r_file_index r) (r_index r) (r_ret r).

Definition logged (s : store) (owner : nat → Z) (k : nat) (x : Response) : Prop :=
∃ r, s !! k = Some r ∧ x = response_of (owner k) r.

Record accounted (owner : nat → Z) (log0 : list Response) (ts : list Task) (answered : list nat) (w : world) :
  Prop := {
acc_consistent : consistent (requests w) ts;
acc_nodup : NoDup answered;
acc_answered : ∀ k, k ∈ answered ↔ is_Some (requests w !! k) ∧ pending k ts = 0%nat;
acc_log : ∃ l, responder_log (responder w) = log0 ++ l ∧
               Forall2 (logged (requests w) owner) answered l;
acc_room : responder_expects (responder w) (base.size (requests w) - length answered) }.

Lemma answered_bound ks (s : store) : NoDup ks → (∀ k, k ∈ ks → is_Some (s !! k)) →
(length ks <= base.size s)%nat.
Proof.
intros Hnd Hin. rewrite <- (size_list_to_set (C := gset nat)) by done.
rewrite <- size_dom. apply subseteq_size. intros k Hk%elem_of_list_to_set.
by apply elem_of_dom, Hin.
Qed.

Lemma same_dom_size (s s' : store) : (∀ k, is_Some (s' !! k) ↔ is_Some (s !! k)) → base.size s' = base.size s.
Proof.
intros H. rewrite <- !size_dom. f_equal. apply set_eq. intros k. by rewrite !elem_of_dom.
Qed.

(** The tasks of a batch belong to its submission's file. *)
Definition owned (fidx : Z) (s : store) (t : Task) : Prop :=
∃ r, s !! request t = Some r ∧ r_file_index r = fidx.

Lemma finish_task_accounted owner sid fidx ret t w log0 before after answered :
accounted owner log0 (before ++ t :: after) answered w →
owned fidx (requests w) t → owner (request t) = sid →
∃ w' answered', finish_task sid fidx ret t w = Ret (set_finished t, w') ∧
  accounted owner log0 (before ++ set_finished t :: after) answered' w' ∧
  (∃ last, finish_effect ret (requests w) t (requests w') (set_finished t) last before after).
Proof.
intros [Hc Hnd Ha (l & Hlog & Hl) Hroom] (r0 & Hr0 & Hf0) <-.
destruct (finished_request_effect ret _ _ _ _ Hc) as (t' & s' & last & E & He).
unfold finish_task. rewrite E. destruct (He) as [Hc' -> Hlast Hreq Hdom].
assert (Hl' : Forall2 (logged s' owner) answered l).
{ eapply Forall2_impl_elem; [exact Hl|]. intros k x Hk (r & Hr & ->).
  destruct (Hreq _ _ Hr) as (r' & Hr' & ? & ? & ? & ? & Hret).
  exists r'. split; [done|]. unfold response_of. rewrite Hret, decide_False; [congruence|].
  intros (-> & Hf & _). apply Ha in Hk as [_ Hk].
  rewrite pending_finish, decide_True in Hk by done. lia. }
pose proof (pending_finish (request t) t before after) as Hpt.
pose proof (same_dom_size _ _ Hdom) as Hsize.
destruct last.
- destruct Hlast as [Hlast _]. destruct (Hlast eq_refl) as [Hf Hp0].
  rewrite decide_True in Hpt by done.
  destruct (proj2 (Hdom (request t)) ltac:(eauto)) as [r Hr]. rewrite Hr.
  assert (Hfi : r_file_index r = fidx).
  { destruct (Hreq _ _ Hr0) as (r' & Hr' & _ & Hfi & _). simplify_eq. congruence. }
  assert (Hnew : request t ∉ answered) by (rewrite Ha; intros [_ ?]; lia).
  assert (Hbound : (length (answered ++ [request t]) <= base.size (requests w))%nat).
  { apply answered_bound.
    - apply NoDup_app. split_and!; [done| |apply NoDup_singleton].
      intros k Hk ->%list_elem_of_singleton. done.
    - intros k [Hk|Hk%list_elem_of_singleton]%elem_of_app; [by apply Ha in Hk as [? _]|]. subst. eauto. }
  rewrite length_app in Hbound. simpl in Hbound.
  destruct (responder_push_log (responder w) (mkResponse (owner (request t)) fidx (r_index r) (r_ret r)) (r_bytesize r)
              (base.size (requests w) - length answered - 1)) as [Hlog' Hexp'].
  { eapply responder_expects_le; [exact Hroom|lia]. }
  eexists _, (answered ++ [request t]). split; [done|]. split; [|by exists true].
  split; simpl.
  + done.
  + apply NoDup_app. split_and!; [done| |apply NoDup_singleton].
    intros k Hk ->%list_elem_of_singleton. done.
  + intros k. rewrite elem_of_app, list_elem_of_singleton, Ha, Hdom, pending_finish.
    destruct (decide (request t = k ∧ t_finished t = false)) as [[<- _]|Hne].
    * rewrite Hp0. split; [intros _; split; [eauto|done]|by right].
    * assert (k ≠ request t) by (intros ->; by apply Hne). simpl. tauto.
  + exists (l ++ [mkResponse (owner (request t)) fidx (r_index r) (r_ret r)]).
    rewrite Hlog', Hlog, <- app_assoc. split; [done|].
    apply Forall2_app; [done|]. constructor; [|constructor]. exists r. split; [done|].
    unfold response_of. by rewrite Hfi.
  + rewrite length_app. simpl. rewrite Hsize. by rewrite Nat.sub_add_distr.
- eexists _, answered. split; [done|]. split; [|by exists false]. split; simpl; try done.
  + intros k. rewrite Ha, Hdom, pending_finish.
    destruct (decide (request t = k ∧ t_finished t = false)) as [[<- Hf]|Hne]; [|done].
    split; [intros [_ ?]; lia|]. intros [_ Hp]. pose proof (proj2 Hlast (conj Hf Hp)). done.
  + by exists l.
  + by rewrite Hsize.
Qed.

(** What finishing the tasks [ts] with [ret] does to the requests: nothing but the result of the
  requests that still had one of them unfinished, when the result is an error. *)
Definition list_effect (ret : ResponseCode) (ts : list Task) (s s' : store) : Prop :=
∀ k r, s !! k = Some r → ∃ r', s' !! k = Some r' ∧
  r_index r' = r_index r ∧ r_file_index r' = r_file_index r ∧ r_dst r' = r_dst r ∧
  r_bytesize r' = r_bytesize r ∧
  r_ret r' = if decide (ret ≠ Success ∧ (0 < pending k ts)%nat) then ret else r_ret r.

Lemma list_effect_nil ret s : list_effect ret [] s s.
Proof. intros k r Hr. exists r. split_and!; auto. by rewrite decide_False by (intros [_ Hp]; rewrite pending_nil in Hp; lia). Qed.

Lemma list_effect_cons ret t ts s s1 s2 last before after :
finish_effect ret s t s1 (set_finished t) last before after →
list_effect ret ts s1 s2 → list_effect ret (t :: ts) s s2.
Proof.
intros He Hl k r Hr. destruct (fin_request _ _ _ _ _ _ _ _ He k r Hr) as (r1 & Hr1 & ? & ? & ? & ? & Hret1).
destruct (Hl k r1 Hr1) as (r2 & Hr2 & ? & ? & ? & ? & Hret2).
exists r2. split_and!; [done|congruence..|]. rewrite Hret2, Hret1, pending_cons.
destruct (decide (ret = Success)) as [->|Hne].
- rewrite !decide_False by (intros ?; destruct_and?; congruence). done.
- destruct (decide (request t = k ∧ t_finished t = false)) as [[<- Hf]|Hn].
  + rewrite (decide_True (P := _ = _ ∧ _)) by done. rewrite (decide_True (P := _ ∧ (_ < 1 + _)%nat)) by (split; [done|lia]).
    by case_decide.
  + simpl. case_decide; [done|]. rewrite decide_False by (intros (-> & ? & ?); by apply Hn). done.
Qed.

Lemma owned_effect ret ts s s' fidx t : list_effect ret ts s s' → owned fidx s t → owned fidx s' t.
Proof. intros He (r & Hr & <-). destruct (He _ _ Hr) as (r' & ? & _ & ? & _). by exists r'. Qed.

Lemma effect_single ret s s' t last before after :
finish_effect ret s t s' (set_finished t) last before after → list_effect ret [t] s s'.
Proof. intros He. eapply list_effect_cons; [done|apply list_effect_nil]. Qed.

Lemma finish_list_accounted owner sid fidx ret log0 ts : ∀ before after answered w,
accounted owner log0 (before ++ ts ++ after) answered w →
Forall (owned fidx (requests w)) ts → Forall (λ t, owner (request t) = sid) ts →
∃ w' answered', finish_list sid fidx ret ts w = Ret (map set_finished ts, w') ∧
  accounted owner log0 (before ++ map set_finished ts ++ after) answered' w' ∧
  list_effect ret ts (requests w) (requests w').
Proof.
induction ts as [|t ts IH]; intros before after answered w Ha Ho Hs.
- exists w, answered. split_and!; [done|done|apply list_effect_nil].
- apply Forall_cons in Ho as [Hot Ho]. apply Forall_cons in Hs as [Hst Hs]. simpl.
  destruct (finish_task_accounted _ _ _ ret _ _ _ _ _ _ Ha Hot Hst) as (w1 & a1 & E & Ha1 & [last He]).
  rewrite E. cbn [obind].
  destruct (IH (before ++ [set_finished t]) after a1 w1) as (w2 & a2 & E2 & Ha2 & He2).
  + by rewrite <- app_assoc.
  + eapply Forall_impl; [exact Ho|]. intros x. eapply owned_effect, effect_single, He.
  + done.
  + rewrite E2. cbn [obind]. exists w2, a2. split_and!; [done| |by eapply list_effect_cons].
    by rewrite <- app_assoc in Ha2.
Qed.

(** finished_until stops at the first task the offset has not reached. *)
Fixpoint reached (file_offset : Z) (ts : list Task) : nat :=
match ts with
| [] => 0
| t :: ts => if file_offset <? t_end t then 0 else S (reached file_offset ts)
end.

Lemma reached_le off ts : (reached off ts <= length ts)%nat.
Proof. induction ts; simpl; [lia|]. case_match; lia. Qed.

Lemma finish_until_list sid fidx ret off ts : ∀ w,
finish_until sid fidx ret off ts w =
let! (ts', w') := finish_list sid fidx ret (take (reached off ts) ts) w in
Ret (ts' ++ drop (reached off ts) ts, reached off ts, w').
Proof.
induction ts as [|t ts IH]; intros w; simpl; [done|].
destruct (off <? t_end t); simpl; [done|].
destruct (finish_task sid fidx ret t w) as [[t' w1]|]; simpl; [|done].
rewrite IH. by destruct (finish_list _ _ _ _ w1) as [[ts' w2]|].
Qed.

(** ** The invariant over batches *)

Definition all_tasks (bs : list Batch) : list Task := concat (map tasks bs).

Definition batch_ok (sid : Z) (s : store) (b : Batch) : Prop :=
b_submission_id b = sid ∧ Forall (owned (b_file_index b) s) (tasks b).

(** The requests of a batch's tasks belong to its file and to its submission. *)
Record batch_owned (owner : nat → Z) (s : store) (b : Batch) : Prop := {
  bo_owned : Forall (owned (b_file_index b) s) (tasks b);
  bo_owner : Forall (λ t, owner (request t) = b_submission_id b) (tasks b) }.

Lemma batch_ok_owned sid s b : batch_ok sid s b → batch_owned (λ _, sid) s b.
Proof. intros [<- Ho]. split; [done|]. apply Forall_forall. done. Qed.

Record system_ok (owner : nat → Z) (log0 : list Response) (answered : list nat) (bs : list Batch) (w : world) :
  Prop := {
sys_accounted : accounted owner log0 (all_tasks bs) answered w;
sys_batches : Forall (batch_owned owner (requests w)) bs }.

Lemma all_tasks_focus before b after :
all_tasks (before ++ b :: after) = all_tasks before ++ tasks b ++ all_tasks after.
Proof. unfold all_tasks. by rewrite map_app, concat_app. Qed.

Lemma owned_set_finished fidx s t : owned fidx s t → owned fidx s (set_finished t).
Proof. done. Qed.

(** Finishing a segment of one batch's tasks keeps the invariant. *)
Lemma finish_segment owner log0 answered before b after w ret l1 ts l2 u :
system_ok owner log0 answered (before ++ b :: after) w → tasks b = l1 ++ ts ++ l2 →
∃ w' answered', finish_list (b_submission_id b) (b_file_index b) ret ts w = Ret (map set_finished ts, w') ∧
  system_ok owner log0 answered'
            (before ++ set_tasks b (l1 ++ map set_finished ts ++ l2) u :: after) w' ∧
  list_effect ret ts (requests w) (requests w').
Proof.
intros [Ha Hb] Hts. apply Forall_app in Hb as [Hb1 Hb2]. apply Forall_cons in Hb2 as [[Hown Hsid] Hb3].
rewrite all_tasks_focus, Hts in Ha. rewrite Hts in Hown, Hsid.
apply Forall_app in Hown as [Ho1 Hown]. apply Forall_app in Hown as [Ho2 Ho3].
pose proof Hsid as Hsids. apply Forall_app in Hsid as [_ Hsid]. apply Forall_app in Hsid as [Hsid _].
destruct (finish_list_accounted owner (b_submission_id b) (b_file_index b) ret log0 ts
            (all_tasks before ++ l1) (l2 ++ all_tasks after) answered w) as (w' & a' & E & Ha' & He);
  [by rewrite <- !app_assoc in *|done|done|].
exists w', a'. split; [done|]. split; [|done].
assert (Hkeep : ∀ fidx l, Forall (owned fidx (requests w)) l → Forall (owned fidx (requests w')) l)
  by (intros ?? Hl; eapply Forall_impl; [exact Hl|]; intros ?; by eapply owned_effect).
assert (Hkeepb : ∀ l, Forall (batch_owned owner (requests w)) l → Forall (batch_owned owner (requests w')) l)
  by (intros l Hl; eapply Forall_impl; [exact Hl|]; intros x [? ?]; split; auto).
split.
- rewrite all_tasks_focus. simpl. by rewrite <- !app_assoc in *.
- apply Forall_app; split; [by apply Hkeepb|]. apply Forall_cons; split; [|by apply Hkeepb].
  split; simpl.
  + rewrite !Forall_app. split_and!; [by apply Hkeep| |by apply Hkeep].
    apply Forall_map. eapply Forall_impl; [by apply Hkeep|]. intros x. apply owned_set_finished.
  + rewrite !Forall_app in *. destruct Hsids as (? & ? & ?). split_and!; [done| |done]. by apply Forall_map.
Qed.

Lemma handle_error_ok owner log0 answered before b after w code :
system_ok owner log0 answered (before ++ b :: after) w → code ≠ Success →
∃ b' w' answered', handle_error code b w = Ret (b', w') ∧
  system_ok owner log0 answered' (before ++ b' :: after) w' ∧
  b' = set_tasks b (map set_finished (tasks b)) (unfinished b) ∧
  list_effect code (tasks b) (requests w) (requests w').
Proof.
intros Hs Hc. unfold handle_error. rewrite decide_False by done.
destruct (finish_segment owner log0 answered before b after w code [] (tasks b) [] (unfinished b) Hs)
  as (w' & a' & E & Hs' & He); [by rewrite app_nil_r|].
rewrite E. cbn [obind]. rewrite app_nil_r in Hs'. eauto 10.
Qed.

Lemma finished_until_ok owner log0 answered before b after w off ret :
system_ok owner log0 answered (before ++ b :: after) w →
let n := reached off (drop (unfinished b) (tasks b)) in
∃ b' w' answered', finished_until off ret b w = Ret (b', w') ∧
  system_ok owner log0 answered' (before ++ b' :: after) w' ∧
  unfinished b' = (unfinished b + n)%nat ∧ range b' = range b ∧
  tasks b' = take (unfinished b) (tasks b) ++
             map set_finished (take n (drop (unfinished b) (tasks b))) ++
             drop n (drop (unfinished b) (tasks b)) ∧
  list_effect ret (take n (drop (unfinished b) (tasks b))) (requests w) (requests w').
Proof.
intros Hs n. unfold finished_until.
destruct (finish_segment owner log0 answered before b after w ret (take (unfinished b) (tasks b))
            (take n (drop (unfinished b) (tasks b))) (drop n (drop (unfinished b) (tasks b)))
            (unfinished b + n) Hs) as (w' & a' & E & Hs' & He); [by rewrite !take_drop|].
rewrite finish_until_list. fold n. rewrite E. cbn [obind]. eauto 10.
Qed.

Lemma handle_response_ok owner log0 answered before b after w ret i b' w' :
system_ok owner log0 answered (before ++ b :: after) w →
handle_response ret i b w = Ret (b', w') →
∃ answered', system_ok owner log0 answered' (before ++ b' :: after) w'.
Proof.
intros Hs Hr. unfold handle_response in Hr. case_match; [done|]. destruct i as [i|]; [|done].
destruct (tasks b !! i) as [t|] eqn:Ht; [|done]. destruct (requests w !! request t); [|done].
invert_ret Hr. destruct r1 as [t' w1]. injection Hr as <- <-.
apply list_elem_of_split_length in Ht as (l1 & l2 & Hl & ->).
destruct (finish_segment owner log0 answered before b after w ret l1 [t] l2 (unfinished b) Hs)
  as (w' & a' & E & Hs' & _); [by rewrite Hl|].
simpl in E. rewrite Hr1 in E. simpl in E. injection E as -> ->.
exists a'. by rewrite Hl, insert_app_r_alt, Nat.sub_diag by lia.
Qed.

Lemma step_ok owner log0 answered x y :
system_ok owner log0 answered x.1 x.2 → step x y →
∃ answered', system_ok owner log0 answered' y.1 y.2.
Proof.
intros Hs Hstep. destruct Hstep as [before b after w off ret b' w' H|before b after w code b' w' H
                                    |before b after w ret i b' w' H]; simpl in *.
- edestruct finished_until_ok as (b1 & w1 & a1 & E & Hs1 & _); [exact Hs|].
  rewrite H in E. injection E as <- <-. eauto.
- destruct (decide (code = Success)) as [->|Hc]; [by injection H as <- <-; eauto|].
  edestruct handle_error_ok as (b1 & w1 & a1 & E & Hs1 & _); [exact Hs|exact Hc|].
  rewrite H in E. injection E as <- <-. eauto.
- by eapply handle_response_ok.
Qed.

Lemma steps_ok owner log0 x y answered :
system_ok owner log0 answered x.1 x.2 → steps x y →
∃ answered', system_ok owner log0 answered' y.1 y.2.
Proof.
intros Hs H. induction H as [|x y z Hxy IH Hyz]; [eauto|].
destruct (IH Hs) as [a Ha]. by eapply step_ok.
Qed.

(** Requests keep their identity along an execution. *)
Definition same_requests (s s' : store) : Prop := ∀ k,
  (is_Some (s' !! k) → is_Some (s !! k)) ∧
  ∀ r, s !! k = Some r → ∃ r', s' !! k = Some r' ∧ r_index r' = r_index r ∧ r_file_index r' = r_file_index r.

Lemma same_requests_refl s : same_requests s s.
Proof. intros k. split; [done|]. eauto. Qed.

Lemma same_requests_trans s1 s2 s3 : same_requests s1 s2 → same_requests s2 s3 → same_requests s1 s3.
Proof.
  intros H1 H2 k. destruct (H1 k) as [A1 B1], (H2 k) as [A2 B2]. split; [auto|].
  intros r Hr. destruct (B1 r Hr) as (r1 & Hr1 & ? & ?). destruct (B2 r1 Hr1) as (r2 & Hr2 & ? & ?).
  exists r2. split_and!; congruence.
Qed.

Lemma finish_task_same sid fidx ret t w t' w' : finish_task sid fidx ret t w = Ret (t', w') →
  same_requests (requests w) (requests w').
Proof.
  unfold finish_task, finished_request, Task.finished. destruct (t_finished t).
  { intros [= _ <-]. apply same_requests_refl. }
  destruct (requests w !! request t) as [r|] eqn:Hr; [|done].
  assert (Hsame : ∀ r', r_index r' = r_index r → r_file_index r' = r_file_index r →
    same_requests (requests w) (<[request t := r']> (requests w))).
  { intros r' Hi Hf k. destruct (decide (request t = k)) as [<-|Hne].
    - rewrite lookup_insert_eq, Hr. split; [eauto|]. intros ? [= <-]. eauto.
    - rewrite lookup_insert_ne by done. split; [done|eauto]. }
  destruct (r_tasks r =? 1).
  - rewrite lookup_insert_eq. intros [= _ <-]. by apply Hsame.
  - intros [= _ <-]. by apply Hsame.
Qed.

Lemma finish_list_same sid fidx ret ts : ∀ w ts' w', finish_list sid fidx ret ts w = Ret (ts', w') →
  same_requests (requests w) (requests w').
Proof.
  induction ts as [|t ts IH]; intros w ts' w' E; simpl in E.
  - injection E as _ <-. apply same_requests_refl.
  - destruct (finish_task sid fidx ret t w) as [[t1 w1]|] eqn:E1; simpl in E; [|done].
    destruct (finish_list sid fidx ret ts w1) as [[ts1 w2]|] eqn:E2; simpl in E; [|done].
    injection E as _ <-. eapply same_requests_trans; [by eapply finish_task_same|by eapply IH].
Qed.

Lemma step_same x y : step x y → same_requests (requests x.2) (requests y.2).
Proof.
  destruct 1 as [before b after w off ret b' w' H|before b after w code b' w' H|before b after w ret i b' w' H]; simpl.
  - unfold finished_until in H. rewrite finish_until_list in H.
    destruct (finish_list _ _ _ _ w) as [[ts w1]|] eqn:E; simpl in H; [|done]. injection H as _ <-.
    by eapply finish_list_same.
  - unfold handle_error in H. case_decide; [injection H as _ <-; apply same_requests_refl|].
    destruct (finish_list _ _ _ _ w) as [[ts w1]|] eqn:E; simpl in H; [|done]. injection H as _ <-.
    by eapply finish_list_same.
  - unfold handle_response in H. case_match; [done|]. destruct i as [i|]; [|done].
    destruct (tasks b !! i) as [t|]; [|done]. destruct (requests w !! request t); [|done].
    invert_ret H. destruct r1 as [t' w1]. injection H as _ <-. by eapply finish_task_same.
Qed.

Lemma steps_effect owner log0 x y answered :
  system_ok owner log0 answered x.1 x.2 → steps x y →
  ∃ answered', system_ok owner log0 answered' y.1 y.2 ∧ same_requests (requests x.2) (requests y.2).
Proof.
  intros Hs H. induction H as [|x y z Hxy IH Hyz]; [eauto using same_requests_refl|].
  destruct (IH Hs) as (a & Ha & Hsame). destruct (step_ok _ _ _ _ _ Ha Hyz) as [a' Ha'].
  exists a'. split; [done|]. eapply same_requests_trans; [done|]. by apply step_same.
Qed.

(** Submissions before anything was read: every request exists, counts its tasks, and has one. *)
Record fresh (owner : nat → Z) (bs : list Batch) (w : world) : Prop := {
fr_consistent : consistent (requests w) (all_tasks bs);
fr_open : ∀ k, is_Some (requests w !! k) → pending k (all_tasks bs) ≠ 0%nat;
fr_batches : Forall (batch_owned owner (requests w)) bs;
fr_room : responder_expects (responder w) (base.size (requests w)) }.

Lemma fresh_ok owner bs w : fresh owner bs w → system_ok owner (responder_log (responder w)) [] bs w.
Proof.
intros [Hc Ho Hb Hr]. split; [|done]. split; simpl.
- done.
- constructor.
- intros k. split; [by intros ?%not_elem_of_nil|]. intros [Hk Hp]. by destruct (Ho k Hk).
- exists []. by rewrite app_nil_r.
- by rewrite Nat.sub_0_r.
Qed.

(** C18: exactly one response per range, whatever order reads, errors and completions arrive in: after
  any interleaving of the handlers of the batches of any number of submissions, the responder holds, on top of what
  it held before, exactly one response for each request all of whose tasks have finished, none for
  the others, and each response carries the request's file, index and final result. *)
Theorem one_response_per_request owner bs w bs' w' :
fresh owner bs w → steps (bs, w) (bs', w') →
∃ answered l, responder_log (responder w') = responder_log (responder w) ++ l ∧
  Forall2 (logged (requests w') owner) answered l ∧ NoDup answered ∧
  (∀ k, k ∈ answered ↔ is_Some (requests w' !! k) ∧ pending k (all_tasks bs') = 0%nat).
Proof.
intros Hf Hsteps. destruct (steps_ok owner _ (bs, w) (bs', w') _ (fresh_ok _ _ _ Hf) Hsteps) as [a [[_ Hnd Ha (l & Hl & Hfa) _] _]].
exists a, l. done.
Qed.

(** An error answers for the whole batch: handle_error never throws, leaves no task of the batch
  unfinished, and every request that still had one of them unfinished now reports the error. *)
Theorem handle_error_finishes_batch owner log0 answered before b after w code :
system_ok owner log0 answered (before ++ b :: after) w → code ≠ Success →
∃ b' w', handle_error code b w = Ret (b', w') ∧
  Forall (λ t, t_finished t = true) (tasks b') ∧
  (∀ t, t ∈ tasks b → t_finished t = false →
     ∃ r, requests w' !! request t = Some r ∧ r_ret r = code) ∧
  (∀ k r, requests w !! k = Some r → pending k (tasks b) = 0%nat →
     ∃ r', requests w' !! k = Some r' ∧ r_ret r' = r_ret r).
Proof.
intros Hs Hc. destruct (handle_error_ok _ _ _ _ _ _ _ _ Hs Hc) as (b' & w' & a' & E & _ & -> & He).
exists (set_tasks b (map set_finished (tasks b)) (unfinished b)), w'. split; [done|].
split_and!.
- simpl. by apply Forall_map, Forall_true.
- intros t Ht Hf. destruct Hs as [_ Hb]. apply Forall_app in Hb as [_ Hb].
  apply Forall_cons in Hb as [[Hown _] _]. rewrite Forall_forall in Hown.
  destruct (Hown t Ht) as (r & Hr & _). destruct (He _ _ Hr) as (r' & Hr' & _ & _ & _ & _ & Hret).
  exists r'. split; [done|]. rewrite Hret, decide_True; [done|]. split; [done|].
  by apply pending_elem.
- intros k r Hr Hp. destruct (He _ _ Hr) as (r' & Hr' & _ & _ & _ & _ & Hret).
  exists r'. split; [done|]. by rewrite Hret, decide_False by (intros [_ ?]; lia).
Qed.
End Handlers.

(** ** Witnesses: one batch of three tasks, two requests, and a response queue *)

Lemma example_store_lookup k r : example_store !! k = Some r →
  (k = 0%nat ∧ r = make_request 4 0 0 2 8 104) ∨ (k = 1%nat ∧ r = make_request 12 0 1 1 0 112).
Proof.
  unfold example_store. intros [[<- <-]|[_ Hk]]%lookup_insert_Some; [by left|].
  apply lookup_singleton_Some in Hk as [<- <-]. by right.
Qed.

Definition example_batch : Batch :=
  mkBatch 7 0 0 false example_tasks [mkChunk 4 4 104 0 1; mkChunk 8 4 108 1 2] (mkRange 4 8 12) 0.

Definition example_world : world (R := queue) := mkWorld example_store (make_queue 2 FINISH_ON_DRAIN).

Lemma example_batch_made : make_batch example_store 7 0 0 false example_tasks 8 = Ret example_batch.
Proof. vm_compute. reflexivity. Qed.

Lemma example_fresh : fresh (λ _, 7) [example_batch] example_world.
Proof.
  assert (Hown : Forall (owned 0 example_store) example_tasks).
  { repeat constructor; eexists; (split; [vm_compute; reflexivity|reflexivity]). }
  split.
  - split; simpl.
    + intros k r [[-> ->]|[-> ->]]%example_store_lookup; vm_compute; reflexivity.
    + reflexivity.
    + intros t Ht. change (t ∈ example_tasks) in Ht. rewrite Forall_forall in Hown. destruct (Hown t Ht) as (r & Hr & _).
      by exists r.
  - intros k [r [[-> ->]|[-> ->]]%example_store_lookup]; vm_compute; discriminate.
  - apply Forall_singleton. split; [exact Hown|by apply Forall_forall].
  - vm_compute. repeat split; discriminate.
Qed.

Lemma one_response_per_request_witness :
  ∃ b' w', steps ([example_batch], example_world) ([b'], w') ∧
    ∃ answered l, responder_log (responder w') = [] ++ l ∧
      Forall2 (logged (requests w') (λ _, 7)) answered l ∧ NoDup answered ∧
      (∀ k, k ∈ answered ↔ is_Some (requests w' !! k) ∧ pending k (all_tasks [b']) = 0%nat).
Proof.
  destruct (finished_until_ok (λ _, 7) _ _ [] example_batch [] _ 9 Success (fresh_ok _ _ _ example_fresh))
    as (b1 & w1 & a1 & E1 & Hs1 & _).
  destruct (handle_error_ok (λ _, 7) _ _ [] b1 [] w1 FileAccessError Hs1) as (b2 & w2 & a2 & E2 & _); [discriminate|].
  exists b2, w2. assert (Hsteps : steps ([example_batch], example_world) ([b2], w2)).
  { eapply steps_step; [eapply steps_step; [apply steps_refl|]|].
    - exact (step_until [] _ [] _ _ _ _ _ E1).
    - exact (step_error [] _ [] _ _ _ _ E2). }
  split; [exact Hsteps|].
  exact (one_response_per_request (λ _, 7) [example_batch] example_world [b2] w2 example_fresh Hsteps).
Defined.

Lemma handle_error_finishes_batch_witness :
  ∃ b' w', handle_error FileAccessError example_batch example_world = Ret (b', w') ∧
    Forall (λ t, t_finished t = true) (tasks b') ∧
    responses (responder w') = [mkResponse 7 0 0 FileAccessError; mkResponse 7 0 1 FileAccessError].
Proof.
  destruct (handle_error_finishes_batch (λ _, 7) [] [] [] example_batch [] example_world FileAccessError)
    as (b' & w' & E & Hf & _).
  - exact (fresh_ok _ _ _ example_fresh).
  - discriminate.
  - exists b', w'. split; [exact E|]. split; [exact Hf|].
    revert E. vm_compute. intros [= <- <-]. reflexivity.
Defined.
