(* ===== verification/BatchExecute.v ===== *)
(** Batch::execute: the synchronous reader of one batch into host memory (streamer/impl/batch).

    The file reader and the stop flag are the environment: [reads i] is what the i-th call of the
    reader does (opening the file is call 0, the seek call 1), [stops i] what the i-th look at the atomic [stopped]
    sees.  A computation keeps the state it reached when it throws, as the C++ objects do. *)

From S2P Require Import Prelude ResponseCode SharedQueue Task ChunkSplitter Batch.

Section Execute.
Context {R : Type} `{!Responder R}.
Context (block : Z).                      (** fs_sync_read_block_bytesize *)
Context (reads : nat → outcome ()) (stops : nat → bool).

(** One successful reader call: file offset, length, destination. *)
Record read_call := mkCall { rc_offset : Z; rc_bytesize : Z; rc_buffer : Z }.

Record exec := mkExec {
  x_batch : Batch; x_world : world (R := R); x_reads : nat; x_stops : nat; x_trace : list read_call }.

Definition X (A : Type) : Type := exec → exec * outcome A.

Definition xret {A} (a : A) : X A := λ x, (x, Ret a).
Definition xthrow {A} (e : exn) : X A := λ x, (x, Throw e).
Definition xbind {A B} (m : X A) (k : A → X B) : X B := λ x,
  match m x with
  | (x', Ret a) => k a x'
  | (x', Throw e) => (x', Throw e)
  end.
Notation "'do!' a ':=' m 'in' k" := (xbind m (λ a, k))
  (at level 10, a pattern, m at level 100, k at level 200).

Definition sample_stopped : X bool := λ x,
  (mkExec (x_batch x) (x_world x) (x_reads x) (S (x_stops x)) (x_trace x), Ret (stops (x_stops x))).

(** A reader call that moves no bytes: opening the file, and the seek. *)
Definition reader_call : X () := λ x,
  (mkExec (x_batch x) (x_world x) (S (x_reads x)) (x_stops x) (x_trace x), reads (x_reads x)).

Definition reader_read (offset bytesize buffer : Z) : X () := λ x,
  match reads (x_reads x) with
  | Ret _ => (mkExec (x_batch x) (x_world x) (S (x_reads x)) (x_stops x)
                     (x_trace x ++ [mkCall offset bytesize buffer]), Ret ())
  | Throw e => (mkExec (x_batch x) (x_world x) (S (x_reads x)) (x_stops x) (x_trace x), Throw e)
  end.

Definition notify (file_offset : Z) : X () := λ x,
  match finished_until file_offset Success (x_batch x) (x_world x) with
  | Ret (b, w) => (mkExec b w (x_reads x) (x_stops x) (x_trace x), Ret ())
  | Throw e => (x, Throw e)
  end.

(** [n] is num_chunks - i; the result is the file offset and the buffer after the loop. *)
Fixpoint read_loop (n : nat) (file_offset buffer : Z) : X (Z * Z) :=
  match n with
  | O => xret (file_offset, buffer)
  | S n =>
      do! stopped := sample_stopped in
      if stopped : bool then xret (file_offset, buffer)
      else
        do! _ := reader_read file_offset block buffer in
        do! _ := notify (file_offset ⊕ block) in
        read_loop n (file_offset ⊕ block) (buffer + block)
  end.

Definition read : X () := λ x0,
  let b := x_batch x0 in
  match tasks b with
  | [] => (x0, Ret ())
  | t :: _ =>
      match destination (requests (x_world x0)) t with
      | Throw e => (x0, Throw e)
      | Ret buffer =>
          let num_chunks := Batch.size (range b) / block in
          (do! _ := reader_call in
           do! (file_offset, buffer) := read_loop (Z.to_nat num_chunks) (start (range b)) buffer in
           do! _ := (if file_offset <? range_end (range b) then
                       do! stopped := sample_stopped in
                       if stopped : bool then xret ()
                       else
                         do! _ := reader_read file_offset (range_end (range b) ⊖ file_offset) buffer in
                         notify (range_end (range b))
                     else xret ()) in
           do! stopped := sample_stopped in
           do! _ := (if stopped : bool then xret () else notify (range_end (range b))) in
           do! stopped := sample_stopped in
           if stopped : bool then xthrow (Code FinishedError) else xret ()) x0
      end
  end.

(** The body of the try block for a host destination. *)
Definition execute_body : X () :=
  do! _ := (λ x, (x, ASSERT (negb (is_object_storage (x_batch x))))) in
  do! _ := reader_call in
  read.

Definition caught (r : outcome ()) : ResponseCode :=
  match r with Ret _ => Success | Throw (Code c) => c | Throw _ => UnknownError end.

Definition execute : X () := λ x0,
  let '(x, r) := execute_body x0 in
  match handle_error (caught r) (x_batch x) (x_world x) with
  | Ret (b, w) => (mkExec b w (x_reads x) (x_stops x) (x_trace x), Ret ())
  | Throw e => (x, Throw e)
  end.

(** ** Triples over executions *)

Definition hoare {A} (P : exec → Prop) (m : X A) (Q : A → exec → Prop) (E : exn → exec → Prop) : Prop :=
  ∀ x, P x → match m x with (x', Ret a) => Q a x' | (x', Throw e) => E e x' end.

Lemma hoare_bind {A B} P (m : X A) Q (k : A → X B) Q' E :
  hoare P m Q E → (∀ a, hoare (Q a) (k a) Q' E) → hoare P (xbind m k) Q' E.
Proof. intros Hm Hk x Hx. specialize (Hm x Hx). unfold xbind. destruct (m x) as [x' [a|e]]; [by apply Hk|done]. Qed.

Lemma hoare_ret {A} (a : A) (Q : A → exec → Prop) E : hoare (Q a) (xret a) Q E.
Proof. by intros x Hx. Qed.

Lemma hoare_weaken {A} (P P' : exec → Prop) (m : X A) (Q Q' : A → exec → Prop) E :
  hoare P m Q E → (∀ x, P' x → P x) → (∀ a x, Q a x → Q' a x) → hoare P' m Q' E.
Proof. intros Hm HP HQ x Hx. specialize (Hm x (HP x Hx)). destruct (m x) as [x' [a|e]]; auto. Qed.

Lemma hoare_pure {A} (phi : Prop) (P : exec → Prop) (m : X A) Q E :
  (phi → hoare P m Q E) → hoare (λ x, phi ∧ P x) m Q E.
Proof. intros H x [Hphi Hx]. by apply H. Qed.

Lemma hoare_from {A} (P : exec → Prop) (m : X A) Q E :
  (∀ x, P x → hoare P m Q E) → hoare P m Q E.
Proof. intros H x Hx. by apply (H x). Qed.

(** ** The invariant of the reading loop *)

Context (owner : nat → Z) (log0 : list Response) (before after : list Batch) (ts0 : list Task) (r0 : Range)
        (s0 : store) (buffer0 : Z).

(** The calls so far read a contiguous stretch from the range's start to [m], into the destination
    in lockstep; the tasks keep their intervals; those before [_unfinished] are done; a task that
    became finished ends at or before [m]; and no request's result changed. *)
Record reading (m : Z) (x : exec) : Prop := {
  rd_system : ∃ answered, system_ok owner log0 answered (before ++ x_batch x :: after) (x_world x);
  rd_range : range (x_batch x) = r0;
  rd_within : start r0 <= m <= range_end r0;
  rd_tasks : Forall2 (λ t t0, request t = request t0 ∧ info t = info t0 ∧
                (t_finished t = true → t_finished t0 = true ∨ t_end t <= m)) (tasks (x_batch x)) ts0;
  rd_trace : tiles rc_offset rc_bytesize (start r0) (x_trace x) m;
  rd_lockstep : Forall (λ c, rc_buffer c = buffer0 + (rc_offset c - start r0)) (x_trace x);
  rd_prefix : Forall (λ t, t_finished t = true) (take (unfinished (x_batch x)) (tasks (x_batch x)));
  rd_results : ∀ k r, s0 !! k = Some r →
                 ∃ r', requests (x_world x) !! k = Some r' ∧ r_ret r' = r_ret r }.

Definition failed (e : exn) (x : exec) : Prop := e ≠ Code Success ∧ ∃ m, reading m x.

Definition saw_stop (x : exec) : Prop := ∃ i, (i < x_stops x)%nat ∧ stops i = true.

Definition all_finished (x : exec) : Prop := Forall (λ t, t_finished t = true) (tasks (x_batch x)).

Context (Hblock : 0 < block) (Hstart : 0 <= start r0) (Hbound : range_end r0 + block < size_modulus)
        (Hsize : Batch.size r0 = range_end r0 - start r0)
        (Hends : Forall (λ t, t_end t <= range_end r0) ts0)
        (Hstops : ∀ i j, (i <= j)%nat → stops i = true → stops j = true)
        (Hreads : ∀ i, reads i ≠ Throw (Code Success)).

Lemma reached_take off ts : Forall (λ t, t_end t <= off) (take (reached off ts) ts).
Proof.
  induction ts as [|t ts IH]; simpl; [constructor|].
  destruct (Z.ltb_spec off (t_end t)); simpl; constructor; [lia|done].
Qed.

Lemma reached_all off ts : Forall (λ t, t_end t <= off) ts → reached off ts = length ts.
Proof.
  induction 1; simpl; [done|]. rewrite (proj2 (Z.ltb_ge _ _)) by done. by f_equal.
Qed.

Lemma reader_call_spec m : hoare (reading m) reader_call (λ _, reading m) failed.
Proof.
  intros x Hx. unfold reader_call. pose proof (Hreads (x_reads x)).
  destruct (reads (x_reads x)) as [[]|e]; [by destruct Hx|].
  split; [congruence|]. exists m. by destruct Hx.
Qed.

Lemma sample_spec m :
  hoare (reading m) sample_stopped (λ b x, reading m x ∧ (b = true → saw_stop x)) failed.
Proof.
  intros x Hx. simpl. split; [by destruct Hx|]. intros H. exists (x_stops x). simpl. split; [lia|done].
Qed.

(** A stop that was seen stays. *)
Lemma sample_again m :
  hoare (λ x, reading m x ∧ saw_stop x) sample_stopped
        (λ b x, reading m x ∧ saw_stop x ∧ b = true) failed.
Proof.
  intros x [Hx (i & Hi & Hs)]. simpl. split_and!; [by destruct Hx|exists i; simpl; split; [lia|done]|].
  apply Hstops with i; [lia|done].
Qed.

Lemma reading_mono m m' x : reading m x → m <= m' → m' <= range_end r0 →
  Forall2 (λ t t0, request t = request t0 ∧ info t = info t0 ∧
            (t_finished t = true → t_finished t0 = true ∨ t_end t <= m')) (tasks (x_batch x)) ts0.
Proof.
  intros Hx H1 H2. eapply Forall2_impl; [apply (rd_tasks _ _ Hx)|]. intros t t0 (? & ? & Hf). split_and!; auto.
  intros Ht. destruct (Hf Ht); [by left|right; lia].
Qed.

Lemma reader_read_spec m len : 0 <= len → m + len <= range_end r0 →
  hoare (reading m) (reader_read m len (buffer0 + (m - start r0))) (λ _, reading (m + len)) failed.
Proof.
  intros Hl Hm x Hx. unfold reader_read. pose proof (Hreads (x_reads x)).
  destruct (reads (x_reads x)) as [[]|e].
  - pose proof (reading_mono m (m + len) x Hx ltac:(lia) ltac:(lia)). destruct Hx. split; simpl; try done.
    + lia.
    + by apply (tiles_snoc rc_offset rc_bytesize _ (mkCall m len _)).
    + apply Forall_app. split; [done|]. by repeat constructor.
  - split; [congruence|]. exists m. by destruct Hx.
Qed.

Lemma Forall2_set_finished n m (l ts : list Task) :
  Forall2 (λ t t0, request t = request t0 ∧ info t = info t0 ∧
            (t_finished t = true → t_finished t0 = true ∨ t_end t <= m)) l ts →
  Forall (λ t, t_end t <= m) (take n l) →
  Forall2 (λ t t0, request t = request t0 ∧ info t = info t0 ∧
            (t_finished t = true → t_finished t0 = true ∨ t_end t <= m))
          (map set_finished (take n l) ++ drop n l) ts.
Proof.
  intros H. revert n. induction H as [|t t0 l ts (? & ? & ?) _ IH]; intros [|n] Hn; simpl in *.
  - constructor.
  - constructor.
  - constructor; [done|]. by apply (IH 0%nat).
  - apply Forall_cons in Hn as [? Hn]. constructor; [|by apply IH]. simpl. split_and!; auto.
Qed.

Lemma notify_spec m :
  hoare (reading m) (notify m) (λ _ x, reading m x ∧ (m = range_end r0 → all_finished x)) failed.
Proof.
  intros x [(a & Hs) Hr Hw Ht Htr Hl Hp Hres]. unfold notify.
  destruct (finished_until_ok _ _ _ _ _ _ _ m Success Hs) as (b' & w' & a' & -> & Hs' & Hu & Hrg & Hts & He).
  set (u := unfinished (x_batch x)) in *. set (l := tasks (x_batch x)) in *.
  set (n := reached m (drop u l)) in *.
  assert (Hn : Forall (λ t, t_end t <= m) (take n (drop u l))) by apply reached_take.
  assert (Hpre : Forall (λ t, t_finished t = true) (take u l ++ map set_finished (take n (drop u l))))
    by (apply Forall_app; split; [done|]; by apply Forall_map, Forall_true).
  pose proof Ht as Ht2. rewrite <- (take_drop u l) in Ht2. apply Forall2_app_inv_l in Ht2 as (ts1 & ts2 & Ht1 & Ht2 & Hts0).
  split.
  - split; simpl; try done.
    + eauto.
    + by rewrite Hrg.
    + rewrite Hts, Hts0. apply Forall2_app; [done|]. by apply Forall2_set_finished.
    + rewrite Hts, Hu, app_assoc. destruct (decide (u <= length l)%nat).
      * rewrite take_app_length'; [done|]. rewrite length_app, length_map, !length_take_le; [done| |lia].
        apply reached_le.
      * assert (Hd : drop u l = []) by (apply drop_ge; lia).
        rewrite Hd, take_nil, drop_nil in *. simpl. rewrite !app_nil_r in *. by apply Forall_take.
    + intros k r Hk. destruct (Hres k r Hk) as (r1 & Hr1 & Hret1). destruct (He k r1 Hr1) as (r2 & Hr2 & _ & _ & _ & _ & Hret2).
      exists r2. split; [done|]. by rewrite Hret2, decide_False by (intros [? _]; congruence).
  - intros ->. unfold all_finished. simpl. rewrite Hts.
    assert (Hall : n = length (drop u l)).
    { apply reached_all, Forall_drop, Forall_forall. intros t Hin. apply list_elem_of_lookup in Hin as [i Hi].
      destruct (Forall2_lookup_l _ _ _ _ _ Ht Hi) as (t0 & Hi0 & _ & Hi1 & _).
      unfold t_end. rewrite Hi1. rewrite Forall_forall in Hends. apply Hends. by eapply list_elem_of_lookup_2. }
    rewrite Hall in *. rewrite skipn_all, app_nil_r. done.
Qed.

(** The loop ends at [m'], every block read and notified, or a stop was seen. *)
Lemma read_loop_spec n : ∀ m, m + Z.of_nat n * block <= range_end r0 →
  hoare (reading m) (read_loop n m (buffer0 + (m - start r0)))
        (λ '(m', buffer) x, reading m' x ∧ buffer = buffer0 + (m' - start r0) ∧
                            (m' = m + Z.of_nat n * block ∨ saw_stop x)) failed.
Proof.
  induction n as [|n IH]; intros m Hm; simpl.
  - intros x Hx. simpl. split_and!; [done|done|left; lia].
  - apply hoare_from. intros x0 Hx0. assert (Hadd : m ⊕ block = m + block).
    { pose proof (rd_within _ _ Hx0). unwrap. lia. }
    eapply hoare_bind; [apply sample_spec|]. intros [].
    + intros x [Hx Hs]. simpl. split_and!; [done|done|right; auto].
    + rewrite Hadd. eapply (hoare_weaken (reading m)); [|by intros x [? _]|exact (λ _ _ H, H)].
      eapply hoare_bind; [apply reader_read_spec; lia|]. intros ?. cbn beta.
      eapply hoare_bind; [apply notify_spec|]. intros ?. cbn beta.
      replace (buffer0 + (m - start r0) + block) with (buffer0 + (m + block - start r0)) by lia.
      eapply hoare_weaken; [apply (IH (m + block)); lia|by intros x [? _]|].
      intros [m' buffer] x (? & ? & ?). split_and!; [done|done|]. destruct_or?; [left; lia|by right].
Qed.

(** What follows the loop: the tail shorter than a block. *)
Lemma read_tail_spec m :
  hoare (λ x, reading m x ∧ (range_end r0 - block < m ∨ saw_stop x))
        (if m <? range_end r0 then
           do! stopped := sample_stopped in
           if stopped : bool then xret ()
           else do! _ := reader_read m (range_end r0 ⊖ m) (buffer0 + (m - start r0)) in
                notify (range_end r0)
         else xret ())
        (λ _ x, (∃ m', reading m' x) ∧ (reading (range_end r0) x ∨ saw_stop x)) failed.
Proof.
  apply hoare_from. intros x0 [Hx0 _]. pose proof (rd_within _ _ Hx0).
  destruct (Z.ltb_spec m (range_end r0)).
  - eapply hoare_bind; [eapply hoare_weaken; [apply (sample_spec m)|by intros x [? _]|exact (λ _ _ H, H)]|].
    intros []; [intros x [Hx Hs]; simpl; eauto 6|].
    replace (range_end r0 ⊖ m) with (range_end r0 - m) by (unwrap; lia).
    eapply (hoare_weaken (reading m)); [|by intros x [? _]|exact (λ _ _ H, H)].
    eapply hoare_bind; [apply reader_read_spec; lia|]. intros ?. cbn beta.
    replace (m + (range_end r0 - m)) with (range_end r0) by lia.
    eapply hoare_weaken; [apply notify_spec|done|]. intros _ x [Hx _]. eauto 6.
  - intros x [Hx Hs]. simpl. replace m with (range_end r0) in * by lia. eauto 6.
Qed.

Definition read_end : X () :=
  do! stopped := sample_stopped in
  do! _ := (if stopped : bool then xret () else notify (range_end r0)) in
  do! stopped := sample_stopped in
  if stopped : bool then xthrow (Code FinishedError) else xret ().

Lemma stopped_end_spec m x : reading m x → saw_stop x →
  ∃ x', read_end x = (x', Throw (Code FinishedError)) ∧ reading m x'.
Proof.
  intros Hx (i & Hi & Hs). unfold read_end, xbind. simpl.
  rewrite (Hstops i) by (done || lia). simpl. rewrite (Hstops i) by (done || lia). simpl.
  eexists. split; [done|]. by destruct Hx.
Qed.

Lemma read_end_spec :
  hoare (λ x, (∃ m', reading m' x) ∧ (reading (range_end r0) x ∨ saw_stop x)) read_end
        (λ _ x, reading (range_end r0) x ∧ all_finished x) failed.
Proof.
  intros x [[m Hx] [He|Hs]].
  - destruct (stops (x_stops x)) eqn:Hs.
    + unfold read_end, xbind. simpl. rewrite Hs. simpl. rewrite (Hstops (x_stops x)) by (done || lia). simpl.
      split; [done|]. exists m. by destruct Hx.
    + clear Hx. revert x He Hs. cut (hoare (reading (range_end r0)) (
        do! _ := notify (range_end r0) in
        do! stopped := sample_stopped in
        if stopped : bool then xthrow (Code FinishedError) else xret ())
        (λ _ x, reading (range_end r0) x ∧ all_finished x) failed).
      { intros H x He Hs. unfold read_end, xbind at 1. simpl. rewrite Hs. apply H. by destruct He. }
      eapply hoare_bind; [apply notify_spec|]. intros ? x [Hx Hf]. unfold xbind. simpl.
      destruct (stops (x_stops x)); simpl.
      * split; [done|]. exists (range_end r0). by destruct Hx.
      * split; [by destruct Hx|by apply Hf].
  - destruct (stopped_end_spec _ _ Hx Hs) as (x' & -> & Hx'). split; [done|eauto].
Qed.

Lemma read_spec t ts x :
  reading (start r0) x → tasks (x_batch x) = t :: ts →
  destination (requests (x_world x)) t = Ret buffer0 →
  match read x with
  | (x', Ret _) => reading (range_end r0) x' ∧ all_finished x'
  | (x', Throw e) => failed e x'
  end.
Proof.
  intros Hx Hts Hd. unfold read. rewrite Hts, Hd, (rd_range _ _ Hx).
  pose proof (rd_within _ _ Hx) as Hw.
  assert (Hn : 0 <= Batch.size r0 / block) by (apply Z.div_pos; lia).
  pose proof (Z.div_mod (Batch.size r0) block). pose proof (Z.mod_pos_bound (Batch.size r0) block).
  revert x Hx Hts Hd. cut (hoare (reading (start r0))
    (do! _ := reader_call in
     do! (file_offset, buffer) := read_loop (Z.to_nat (Batch.size r0 / block)) (start r0) buffer0 in
     do! _ := (if file_offset <? range_end r0 then
                 do! stopped := sample_stopped in
                 if stopped : bool then xret ()
                 else
                   do! _ := reader_read file_offset (range_end r0 ⊖ file_offset) buffer in
                   notify (range_end r0)
               else xret ()) in read_end)
    (λ _ x, reading (range_end r0) x ∧ all_finished x) failed).
  { intros Hh x Hx _ _. by apply (Hh x Hx). }
  eapply hoare_bind; [apply reader_call_spec|]. intros ?. cbn beta.
  replace buffer0 with (buffer0 + (start r0 - start r0)) at 1 by lia.
  eapply hoare_bind; [apply read_loop_spec; nia|]. intros [m buffer].
  intros x (Hx & -> & Hm). revert x Hx Hm.
  cut (hoare (λ x, reading m x ∧ (m = start r0 + Z.of_nat (Z.to_nat (Batch.size r0 / block)) * block ∨ saw_stop x))
    (do! _ := (if m <? range_end r0 then
                 do! stopped := sample_stopped in
                 if stopped : bool then xret ()
                 else
                   do! _ := reader_read m (range_end r0 ⊖ m) (buffer0 + (m - start r0)) in
                   notify (range_end r0)
               else xret ()) in read_end)
    (λ _ x, reading (range_end r0) x ∧ all_finished x) failed).
  { intros Hh x ? ?. by apply (Hh x). }
  eapply hoare_bind; [|intros ?; cbn beta; apply read_end_spec].
  eapply hoare_weaken; [apply (read_tail_spec m)|cbn beta|exact (λ _ _ H, H)].
  intros x [Hx [->|Hs]]; (split; [done|]); [left; nia|by right].
Qed.

(** The first body, on a batch nothing of which was read. *)
Lemma execute_body_spec t ts x :
  reading (start r0) x → tasks (x_batch x) = t :: ts →
  destination (requests (x_world x)) t = Ret buffer0 →
  match execute_body x with
  | (x', Ret _) => reading (range_end r0) x' ∧ all_finished x'
  | (x', Throw e) => failed e x'
  end.
Proof.
  intros Hx Hts Hd. unfold execute_body, xbind. destruct (is_object_storage (x_batch x)); simpl.
  - split; [done|eauto].
  - unfold reader_call. pose proof (Hreads (x_reads x)). destruct (reads (x_reads x)) as [[]|e].
    + eapply read_spec; [by destruct Hx|done|done].
    + split; [congruence|]. exists (start r0). by destruct Hx.
Qed.

Lemma caught_failed e : e ≠ Code Success → caught (Throw e) ≠ Success.
Proof. destruct e; simpl; congruence. Qed.

(** A batch nothing of which was read. *)
Lemma fresh_reading b w n k answered : system_ok owner log0 answered (before ++ b :: after) w →
  requests w = s0 → range b = r0 → tasks b = ts0 → unfinished b = 0%nat → start r0 <= range_end r0 →
  reading (start r0) (mkExec b w n k []).
Proof.
  intros Hs Hw Hr Hts Hu Hle. split; simpl; try done.
  - eauto.
  - rewrite Hts. clear. induction ts0; constructor; auto.
  - rewrite Hu. constructor.
  - rewrite Hw. eauto.
Qed.

(** What handle_error leaves when the body of execute ended with [r]: everything is answered, and a task beyond
    what was read reports the failure. *)
Lemma answer_all x r :
  match r with Ret _ => reading (range_end r0) x ∧ all_finished x | Throw e => failed e x end →
  ∃ b' w' m, handle_error (caught r) (x_batch x) (x_world x) = Ret (b', w') ∧
    Forall (λ t, t_finished t = true) (tasks b') ∧
    (∃ answered', system_ok owner log0 answered' (before ++ b' :: after) w') ∧
    tiles rc_offset rc_bytesize (start r0) (x_trace x) m ∧ m <= range_end r0 ∧
    Forall (λ c, rc_buffer c = buffer0 + (rc_offset c - start r0)) (x_trace x) ∧
    (∀ t, t ∈ ts0 → t_finished t = false → m < t_end t →
       ∃ r', requests w' !! request t = Some r' ∧ r_ret r' = caught r ∧ caught r ≠ Success) ∧
    (caught r = Success → m = range_end r0 ∧ ∀ k r, s0 !! k = Some r →
       ∃ r', requests w' !! k = Some r' ∧ r_ret r' = r_ret r).
Proof.
  destruct r as [u|e].
  - intros [Hx' Hf]. exists (x_batch x), (x_world x), (range_end r0). simpl.
    split_and!; try apply Hx'; try done.
    + intros t' Hin _ Hgt. rewrite Forall_forall in Hends. specialize (Hends t' Hin). simpl in Hends. lia.
    + intros _. split; [done|]. apply Hx'.
  - intros [He%caught_failed [m [(a & Hs') Hrg Hwi Htk Htr Hlk Hp Hres]]].
    destruct (handle_error_ok _ _ _ _ _ _ _ _ Hs' He) as (b' & w' & a' & E & Hs2 & -> & Heff).
    rewrite E. eexists _, w', m. split; [done|].
    split_and!; try done; [by apply Forall_map, Forall_true|eauto|lia|].
    intros t' Hin Hf Hgt. apply list_elem_of_lookup in Hin as [i Hi].
    destruct (Forall2_lookup_r _ _ _ _ _ Htk Hi) as (t1 & Hi1 & Hreq & Hinf & Hfin).
    apply list_elem_of_lookup_2 in Hi1.
    assert (Hf1 : t_finished t1 = false).
    { apply not_true_is_false. intros Hf1. destruct (Hfin Hf1) as [|Hle']; [congruence|].
      unfold t_end in *. rewrite Hinf in Hle'. lia. }
    destruct Hs' as [_ Hbs]. apply Forall_app in Hbs as [_ Hbs]. apply Forall_cons in Hbs as [[Hown _] _].
    rewrite Forall_forall in Hown. destruct (Hown t1 Hi1) as (r & Hr1 & _).
    destruct (Heff _ _ Hr1) as (r' & Hr' & _ & _ & _ & _ & Hret). exists r'. rewrite <- Hreq.
    split_and!; [done| |done]. rewrite Hret, decide_True; [done|]. split; [done|]. by apply pending_elem.
Qed.

(** C19: Batch::execute answers for every task of the batch, whatever the reader throws and whenever the
    stop flag is raised: it returns, every task of the batch is finished afterwards and the accounting
    of responses is preserved.  The reads it made are contiguous from the start of the batch's range,
    each into the destination of its first byte.  A request is reported successful only if all its
    bytes in this batch were read, and when execute ends with Success the whole range was read and no
    request's result changed. *)
Theorem execute_correct b w answered t ts :
  system_ok owner log0 answered (before ++ b :: after) w →
  requests w = s0 → range b = r0 → tasks b = ts0 → unfinished b = 0%nat → start r0 <= range_end r0 →
  ts0 = t :: ts → destination (requests w) t = Ret buffer0 →
  ∃ x m code, execute (mkExec b w 0 0 []) = (x, Ret ()) ∧ all_finished x ∧
    (∃ answered', system_ok owner log0 answered' (before ++ x_batch x :: after) (x_world x)) ∧
    tiles rc_offset rc_bytesize (start r0) (x_trace x) m ∧ m <= range_end r0 ∧
    Forall (λ c, rc_buffer c = buffer0 + (rc_offset c - start r0)) (x_trace x) ∧
    (∀ t, t ∈ ts0 → t_finished t = false → m < t_end t →
       ∃ r, requests (x_world x) !! request t = Some r ∧ r_ret r = code ∧ code ≠ Success) ∧
    (code = Success → m = range_end r0 ∧ ∀ k r, requests w !! k = Some r →
       ∃ r', requests (x_world x) !! k = Some r' ∧ r_ret r' = r_ret r).
Proof.
  intros Hs Hw Hr Hts Hu Hle Ht0 Hd.
  pose proof (fresh_reading b w 0 0 answered Hs Hw Hr Hts Hu Hle) as Hx.
  pose proof (execute_body_spec t ts _ Hx ltac:(simpl; congruence) Hd) as Hb. unfold execute.
  destruct (execute_body (mkExec b w 0 0 [])) as [x r].
  destruct (answer_all x r) as (b' & w' & m & E & H1 & H2 & H3 & H4 & H5 & H6 & H7); [by destruct r|].
  rewrite E. eexists _, m, (caught r). split; [done|]. simpl x_batch. simpl x_world. simpl x_trace.
  rewrite Hw. by split_and!.
Qed.
End Execute.

(** ** Witness: blocks of 4 bytes, the second read fails *)

Definition example_reads (i : nat) : outcome () :=
  if decide (i = 3%nat) then Throw (Code FileAccessError) else Ret ().

Lemma execute_correct_witness :
  ∃ x, execute 4 example_reads (λ _, false) (mkExec example_batch example_world 0 0 []) = (x, Ret ()) ∧
    all_finished x ∧ x_trace x = [mkCall 4 4 104] ∧
    responses (responder (x_world x)) = [mkResponse 7 0 0 FileAccessError; mkResponse 7 0 1 FileAccessError].
Proof.
  destruct (execute_correct 4 example_reads (λ _, false) (λ _, 7) [] [] [] example_tasks (mkRange 4 8 12) example_store 104)
    with (b := example_batch) (w := example_world) (answered := @nil nat)
         (t := make_task 0 (make_info 4 4 0)) (ts := tail example_tasks) as (x & m & code & E & Hf & _).
  - lia.
  - simpl. lia.
  - reflexivity.
  - reflexivity.
  - repeat constructor; vm_compute; discriminate.
  - discriminate.
  - intros i. unfold example_reads. case_decide; discriminate.
  - exact (fresh_ok _ _ _ example_fresh).
  - reflexivity.
  - reflexivity.
  - reflexivity.
  - reflexivity.
  - simpl. lia.
  - reflexivity.
  - vm_compute. reflexivity.
  - exists x. split; [exact E|]. split; [exact Hf|]. revert E. vm_compute. intros [= <-]. split; reflexivity.
Defined.
