(* ===== verification/Transfer.v ===== *)
(** The data the assigner hands to the batches: slices of contiguous transfers
    (streamer/impl/assigner/assigner.h, streamer/impl/assigner/file_read_task). *)

From S2P Require Import Prelude.

(** One worker's slice of a transfer. *)
Record FileReadTask := mkFileReadTask {
  frt_workload : Z; frt_file : Z; frt_offset : Z; frt_size : Z; frt_destination : Z }.

(** A stretch of one file whose ranges are adjacent both in the file and in memory. *)
Record ContiguousTransfer := mkTransfer {
  tr_file_index : Z; tr_offset : Z; tr_size : Z; tr_destination : Z;
  tr_first_range_index : Z; tr_range_sizes : list Z; tr_tasks : list FileReadTask }.

Definition add_task (t : FileReadTask) (x : ContiguousTransfer) : ContiguousTransfer :=
  mkTransfer (tr_file_index x) (tr_offset x) (tr_size x) (tr_destination x)
             (tr_first_range_index x) (tr_range_sizes x) (tr_tasks x ++ [t]).

(** The destination moves with the file offset. *)
Definition lockstep (offset destination : Z) (t : FileReadTask) : Prop :=
  frt_destination t = destination + (frt_offset t - offset).

(** What the batches of a transfer rely on: the slices tile it, in order, in lockstep. *)
Record sliced (x : ContiguousTransfer) : Prop := {
  sl_tiles : tiles frt_offset frt_size (tr_offset x) (tr_tasks x) (tr_offset x + tr_size x);
  sl_lockstep : Forall (lockstep (tr_offset x) (tr_destination x)) (tr_tasks x);
  sl_file : Forall (λ t, frt_file t = tr_file_index x) (tr_tasks x);
  sl_some : tr_tasks x ≠ [] }.
