(* ===== verification/Batches.v ===== *)
(** One contiguous transfer cut into tasks, one batch per worker (streamer/impl/batches). *)

From S2P Require Import Prelude ResponseCode SharedQueue Task ChunkSplitter Batch Transfer.

(** Batches::BatchItr: which slice is being filled and how much of it is left. *)
Record BatchItr := mkItr {
  current_task_index : nat; current_workload_index : Z; current_worker_bytesize : Z }.

(** What build_tasks accumulates.  [next] is the key the next request is allocated under. *)
Record building := mkBuilding {
  bld_store : store; bld_next : nat; bld_itr : BatchItr; bld_tasks : list (list Task) }.

(** The chunk size tasks are cut at is the backend's. *)
Definition task_chunk_bytesize (object_storage : bool) (s3_block_bytesize fs_async_chunk_bytesize : Z) : Z :=
  if object_storage then s3_block_bytesize else fs_async_chunk_bytesize.

Section Batches.
Context (slices : list FileReadTask) (chunk_bytesize : Z).

Definition read_task (index : nat) : outcome FileReadTask :=
  match slices !! index with None => Throw AssertFailed | Some t => Ret t end.

Definition make_itr : outcome BatchItr :=
  ASSERT (negb (bool_decide (slices = []))) ;;!
  let! t := read_task 0 in
  Ret (mkItr 0 (frt_workload t) (frt_size t)).

Definition consume (bytesize : Z) (itr : BatchItr) : outcome (Z * BatchItr) :=
  let! itr :=
    if (current_worker_bytesize itr =? 0) && negb (bytesize =? 0) then
      let i := S (current_task_index itr) in
      let! t := read_task i in
      Ret (mkItr i (frt_workload t) (frt_size t))
    else Ret itr in
  let to_read := Z.min (current_worker_bytesize itr) bytesize in
  Ret (to_read, mkItr (current_task_index itr) (current_workload_index itr)
                      (current_worker_bytesize itr ⊖ to_read)).

(** The do-while loop of handle_request.  Running out of fuel is a throw; [build_tasks_correct] shows
    that handle_request passes enough. *)
Fixpoint cut_loop (fuel : nat) (task_offset bytes_to_request destination_offset : Z) (itr : BatchItr) :
    outcome (list (nat * Info) * BatchItr) :=
  match fuel with
  | O => Throw StdException
  | S fuel =>
      let to_chunk_boundary := chunk_bytesize ⊖ task_offset mod chunk_bytesize in
      let want := Z.min bytes_to_request to_chunk_boundary in
      let! (to_read, itr) := consume want itr in
      let info := (current_task_index itr, make_info task_offset to_read destination_offset) in
      if bytes_to_request ⊖ to_read >? 0 then
        let! (infos, itr) := cut_loop fuel (task_offset ⊕ to_read) (bytes_to_request ⊖ to_read)
                                      (destination_offset ⊕ to_read) itr in
        Ret (info :: infos, itr)
      else Ret ([info], itr)
  end.

Definition cut_fuel (request_size : Z) : nat :=
  Z.to_nat (request_size / chunk_bytesize + 2) + length slices.

Definition push_task (i : nat) (t : Task) (v_tasks : list (list Task)) : list (list Task) :=
  alter (λ l, l ++ [t]) i v_tasks.

Fixpoint create_tasks (req : nat) (infos : list (nat * Info)) (v_tasks : list (list Task)) :
    outcome (list (list Task)) :=
  match infos with
  | [] => Ret v_tasks
  | (batch_id, info) :: infos =>
      ASSERT (bool_decide (batch_id < length v_tasks)%nat) ;;!
      create_tasks req infos (push_task batch_id (make_task req info) v_tasks)
  end.

Definition handle_request (file_index range_index request_file_offset request_size destination : Z)
    (b : building) : outcome building :=
  let! (infos, itr) := cut_loop (cut_fuel request_size) request_file_offset request_size 0 (bld_itr b) in
  let r := make_request request_file_offset file_index range_index (Z.of_nat (length infos))
                        request_size destination in
  let! v_tasks := create_tasks (bld_next b) infos (bld_tasks b) in
  Ret (mkBuilding (<[bld_next b := r]> (bld_store b)) (S (bld_next b)) itr v_tasks).

Fixpoint handle_requests (file_index range_index request_file_offset : Z) (range_sizes : list Z)
    (destination : Z) (b : building) : outcome building :=
  match range_sizes with
  | [] => Ret b
  | request_size :: range_sizes =>
      let! b := handle_request file_index range_index request_file_offset request_size destination b in
      handle_requests file_index (add32 range_index 1) (request_file_offset ⊕ request_size) range_sizes
                      (destination + request_size) b
  end.

(** One batch per worker that got a task. *)
Fixpoint make_batches (s : store) (sid file_index : Z) (object_storage : bool)
    (work : list (FileReadTask * list Task)) : outcome (list Batch) :=
  match work with
  | [] => Ret []
  | (slice, ts) :: work =>
      match ts with
      | [] => make_batches s sid file_index object_storage work
      | _ :: _ =>
          let! b := make_batch s sid (frt_workload slice) file_index object_storage ts chunk_bytesize in
          let! bs := make_batches s sid file_index object_storage work in
          Ret (b :: bs)
      end
  end.

(** The constructor and build_tasks: the batches, their total bytes, and the store with the new
    requests. *)
Definition build_tasks (sid file_index first_range_index : Z) (object_storage : bool)
    (range_sizes : list Z) (s : store) (next : nat) : outcome (list Batch * Z * store) :=
  let! itr := make_itr in
  let! first := read_task 0 in
  let! b := handle_requests file_index first_range_index (frt_offset first) range_sizes
              (frt_destination first) (mkBuilding s next itr (replicate (length slices) [])) in
  let! bs := make_batches (bld_store b) sid file_index object_storage (zip slices (bld_tasks b)) in
  Ret (bs, foldl (λ total b, total ⊕ Batch.size (range b)) 0 bs, bld_store b).

(** ** Filling the slices in file order *)

Context (off0 e : Z) (Hslices : tiles frt_offset frt_size off0 slices e)
        (Hoff0 : 0 <= off0) (Hchunk : 0 < chunk_bytesize) (Hbound : e + chunk_bytesize < size_modulus).

(** The tasks created so far cover [off0, p): the slices before the current one are full, the current
    one is filled up to [p], the later ones are empty. *)
Record fed (v : list (list Task)) (itr : BatchItr) (p : Z) : Prop := {
  fed_length : length v = length slices;
  fed_slice : ∃ sl, slices !! current_task_index itr = Some sl ∧
                p + current_worker_bytesize itr = frt_offset sl + frt_size sl ∧
                0 <= current_worker_bytesize itr <= frt_size sl;
  fed_done : ∀ i sl ts, (i < current_task_index itr)%nat → slices !! i = Some sl → v !! i = Some ts →
               tiles t_offset t_bytesize (frt_offset sl) ts (frt_offset sl + frt_size sl);
  fed_open : ∀ sl ts, slices !! current_task_index itr = Some sl → v !! current_task_index itr = Some ts →
               tiles t_offset t_bytesize (frt_offset sl) ts p;
  fed_rest : ∀ i ts, (current_task_index itr < i)%nat → v !! i = Some ts → ts = [] }.

Lemma fed_range v itr p : fed v itr p →
  off0 <= p <= e ∧ (current_task_index itr < length slices)%nat ∧ 0 <= current_worker_bytesize itr.
Proof.
  intros [Hl (sl & Hsl & Hp & Hc) _ _ _]. pose proof (lookup_lt_Some _ _ _ Hsl).
  apply list_elem_of_lookup_2 in Hsl. pose proof (tiles_elem _ _ _ _ _ _ Hslices Hsl). lia.
Qed.

Lemma fed_advance v itr p : fed v itr p → current_worker_bytesize itr = 0 → p < e →
  ∃ t, slices !! S (current_task_index itr) = Some t ∧
    fed v (mkItr (S (current_task_index itr)) (frt_workload t) (frt_size t)) p.
Proof.
  intros Hf Hc Hp. destruct (fed_range _ _ _ Hf) as (Hpr & Hi & _).
  destruct Hf as [Hl (sl & Hsl & Hpe & _) Hd Ho Hr].
  destruct (lookup_lt_is_Some_2 slices (S (current_task_index itr))) as [t Ht].
  { destruct (decide (S (current_task_index itr) < length slices)%nat); [done|exfalso].
    pose proof (tiles_last _ _ _ _ _ _ _ Hslices Hsl ltac:(lia)). lia. }
  exists t. split; [done|]. pose proof (tiles_next _ _ _ _ _ _ _ _ Hslices Hsl Ht) as Hnext.
  pose proof (tiles_elem _ _ _ _ _ _ Hslices (list_elem_of_lookup_2 _ _ _ Ht)) as Hte.
  split; simpl.
  - done.
  - exists t. split; [done|]. lia.
  - intros i sl' ts Hlt Hsl' Hts. destruct (decide (i = current_task_index itr)) as [->|].
    + simplify_eq. replace (frt_offset sl + frt_size sl) with p by lia. by apply Ho.
    + apply Hd with i; [lia|done..].
  - intros t' ts Ht' Hts. simplify_eq. rewrite (Hr (S (current_task_index itr)) _ ltac:(lia) Hts). replace p with (frt_offset t) by lia. constructor.
  - intros i ts Hlt Hts. apply Hr with i; [lia|done].
Qed.

Lemma fed_read v itr p n req rel : fed v itr p → 0 <= n <= current_worker_bytesize itr →
  fed (push_task (current_task_index itr) (make_task req (make_info p n rel)) v)
      (mkItr (current_task_index itr) (current_workload_index itr) (current_worker_bytesize itr ⊖ n)) (p + n).
Proof.
  intros Hf Hn. destruct (fed_range _ _ _ Hf) as (Hpr & Hi & _).
  destruct Hf as [Hl (sl & Hsl & Hpe & Hc) Hd Ho Hr].
  pose proof (tiles_elem _ _ _ _ _ _ Hslices (list_elem_of_lookup_2 _ _ _ Hsl)) as Hte.
  unfold push_task. split; simpl.
  - by rewrite length_alter.
  - exists sl. split; [done|]. unwrap. lia.
  - intros i sl' ts Hlt Hsl' Hts. rewrite list_lookup_alter_ne in Hts by lia. by apply Hd with i.
  - intros sl' ts Hsl' Hts. rewrite list_lookup_alter_eq in Hts.
    destruct (v !! current_task_index itr) as [l|] eqn:Hv; [|done]. injection Hts as <-.
    apply tiles_snoc with (x := make_task req (make_info p n rel)) (m := p); [by apply Ho|done|unfold t_bytesize; simpl; lia].
  - intros i ts Hlt Hts. rewrite list_lookup_alter_ne in Hts by lia. by apply Hr with i.
Qed.

Definition advances (bytes : Z) (itr : BatchItr) : nat :=
  if (current_worker_bytesize itr =? 0) && negb (bytes =? 0) then 1 else 0.

Lemma consume_spec v itr p want : fed v itr p → 0 <= want → p + want <= e →
  ∃ n itr', consume want itr = Ret (n, itr') ∧ 0 <= n <= want ∧
    current_task_index itr' = (current_task_index itr + advances want itr)%nat ∧
    (n = want ∨ current_worker_bytesize itr' = 0) ∧
    ∀ req rel, fed (push_task (current_task_index itr') (make_task req (make_info p n rel)) v) itr' (p + n).
Proof.
  intros Hf Hw Hp.
  assert (∃ itr1, (if (current_worker_bytesize itr =? 0) && negb (want =? 0) then
             let! t := read_task (S (current_task_index itr)) in
             Ret (mkItr (S (current_task_index itr)) (frt_workload t) (frt_size t)) else Ret itr) = Ret itr1 ∧
           current_task_index itr1 = (current_task_index itr + advances want itr)%nat ∧ fed v itr1 p)
    as (itr1 & E & Hi & Hf1).
  { unfold advances.
    destruct ((current_worker_bytesize itr =? 0) && negb (want =? 0)) eqn:Hb; [|exists itr; split_and!; [done|lia|done]].
    apply andb_true_iff in Hb as [Hc0%Z.eqb_eq Hw0%negb_true_iff%Z.eqb_neq].
    destruct (fed_advance _ _ _ Hf) as (t & Ht & Hft); [lia..|]. unfold read_task. rewrite Ht. simpl.
    eexists. split_and!; [done|simpl; lia|done]. }
  unfold consume. rewrite E. cbn [obind]. pose proof (fed_range _ _ _ Hf1) as (_ & _ & Hc).
  eexists _, _. split; [done|]. simpl. split; [lia|]. split; [done|]. split.
  - destruct (Z.min_spec (current_worker_bytesize itr1) want) as [[? ->]|[? ->]]; [right|by left].
    unfold sub64. by rewrite Z.sub_diag.
  - intros req rel. apply fed_read; [done|lia].
Qed.

(** ** Cutting one range *)

Definition place (req : nat) (infos : list (nat * Info)) (v : list (list Task)) : list (list Task) :=
  foldl (λ v '(i, info), push_task i (make_task req info) v) v infos.

Lemma place_length req infos : ∀ v, length (place req infos v) = length v.
Proof.
  induction infos as [|[i info] infos IH]; intros v; simpl; [done|]. rewrite IH. apply length_alter.
Qed.

Lemma create_tasks_place req infos : ∀ v, Forall (λ x, (x.1 < length v)%nat) infos →
  create_tasks req infos v = Ret (place req infos v).
Proof.
  induction infos as [|[i info] infos IH]; intros v H; simpl; [done|]. apply Forall_cons in H as [Hi H].
  rewrite ASSERT_true by (by apply bool_decide_true). cbn [obind]. apply IH.
  unfold push_task. by rewrite length_alter.
Qed.

(** A piece of the range that starts at [base]. *)
Record piece (base : Z) (info : Info) : Prop := {
  pc_end : i_end info = i_offset info ⊕ i_bytesize info;
  pc_relative : i_relative_offset info = i_offset info - base;
  pc_cut : 0 < i_bytesize info → i_offset info mod chunk_bytesize + i_bytesize info <= chunk_bytesize }.

(** Chunk boundaries in (p, p + n]. *)
Definition boundaries (p n : Z) : Z := (p + n) / chunk_bytesize - p / chunk_bytesize.

Lemma boundaries_nonneg p n : 0 <= n → 0 <= boundaries p n.
Proof. intros. unfold boundaries. pose proof (Z.div_le_mono p (p + n) chunk_bytesize). lia. Qed.

Lemma boundaries_bound p n : boundaries p n <= n / chunk_bytesize + 1.
Proof. unfold boundaries. Z.div_mod_to_equations. nia. Qed.

Lemma boundaries_step p n bytes : 0 <= n <= bytes → boundaries (p + n) (bytes - n) <= boundaries p bytes.
Proof.
  intros. unfold boundaries. pose proof (Z.div_le_mono p (p + n) chunk_bytesize).
  replace (p + n + (bytes - n)) with (p + bytes) by lia. lia.
Qed.

Lemma boundaries_cross p n bytes : n = chunk_bytesize - p mod chunk_bytesize →
  boundaries (p + n) (bytes - n) = boundaries p bytes - 1.
Proof.
  intros ->. unfold boundaries. replace (p + _ + (bytes - _)) with (p + bytes) by lia.
  replace (p + (chunk_bytesize - p mod chunk_bytesize)) with ((p / chunk_bytesize + 1) * chunk_bytesize).
  - rewrite Z.div_mul by lia. lia.
  - pose proof (Z.div_mod p chunk_bytesize). lia.
Qed.

Lemma cut_loop_spec req fuel : ∀ v itr p bytes base,
  fed v itr p → 0 <= base <= p → 0 <= bytes → p + bytes <= e →
  boundaries p bytes + Z.of_nat (length slices) <=
    Z.of_nat fuel + Z.of_nat (current_task_index itr + advances bytes itr) →
  ∃ infos itr', cut_loop fuel p bytes (p - base) itr = Ret (infos, itr') ∧
    fed (place req infos v) itr' (p + bytes) ∧
    Forall (λ x, (x.1 < length slices)%nat ∧ piece base x.2) infos ∧
    tiles i_offset i_bytesize p (map snd infos) (p + bytes) ∧
    0 < Z.of_nat (length infos) <= 1 + boundaries p bytes +
       (Z.of_nat (current_task_index itr') - Z.of_nat (current_task_index itr + advances bytes itr)).
Proof.
  induction fuel as [|fuel IH]; intros v itr p bytes base Hf Hb Hn Hp Hfuel;
    destruct (fed_range _ _ _ Hf) as (Hpr & Hi & _);
    pose proof (boundaries_nonneg p bytes Hn) as Hbd;
    pose proof (Z.mod_pos_bound p chunk_bytesize Hchunk) as Hmod;
    set (want := Z.min bytes (chunk_bytesize - p mod chunk_bytesize));
    assert (Hadv : advances want itr = advances bytes itr) by
      (unfold advances; destruct (Z.eqb_spec want 0), (Z.eqb_spec bytes 0); (done || lia));
    destruct (consume_spec v itr p want Hf) as (n & itr1 & E & Hnw & Hi1 & Hfull & Hfed); try lia;
    destruct (fed_range _ _ _ (Hfed 0%nat 0)) as (_ & Hi1' & _); rewrite Hadv in Hi1.
  - exfalso. lia.
  - simpl. replace (chunk_bytesize ⊖ p mod chunk_bytesize) with (chunk_bytesize - p mod chunk_bytesize)
      by (unwrap; lia).
    fold want. rewrite E. cbn [obind].
    assert (Hpiece : piece base (make_info p n (p - base))) by (split; simpl; [done|done|lia]).
    specialize (Hfed req (p - base)). rewrite Z.gtb_ltb.
    replace (bytes ⊖ n) with (bytes - n) by (unwrap; lia).
    destruct (Z.ltb_spec 0 (bytes - n)) as [Hmore|Hlast].
    + replace (p ⊕ n) with (p + n) by (unwrap; lia).
      replace ((p - base) ⊕ n) with (p + n - base) by (unwrap; lia).
      pose proof (boundaries_step p n bytes ltac:(lia)) as Hstep.
      assert (Hcase : boundaries (p + n) (bytes - n) = boundaries p bytes - 1 ∨
                      advances (bytes - n) itr1 = 1%nat).
      { destruct Hfull as [->|Hc]; [left; apply boundaries_cross; lia|right].
        unfold advances. rewrite Hc, (proj2 (Z.eqb_neq (bytes - n) 0)) by lia. done. }
      destruct (IH _ itr1 (p + n) (bytes - n) base Hfed) as (infos & itr' & -> & Hf' & Hall & Htile & Hlen); try lia.
      replace (p + n + (bytes - n)) with (p + bytes) in * by lia. cbn [obind]. eexists _, itr'. split; [done|]. split_and!.
      * done.
      * constructor; [done|exact Hall].
      * simpl. constructor; [done|simpl; lia|done].
      * simpl. lia.
      * simpl. lia.
    + eexists _, itr1. split; [done|]. split_and!; simpl.
      * by replace (p + bytes) with (p + n) by lia.
      * by constructor.
      * constructor; [done|simpl; lia|]. simpl. replace (p + bytes) with (p + n) by lia. constructor.
      * lia.
      * lia.
Qed.

(** ** The requests and tasks of a transfer *)

Lemma push_task_perm i t v : (i < length v)%nat → concat (push_task i t v) ≡ₚ concat v ++ [t].
Proof.
  intros Hi. destruct (lookup_lt_is_Some_2 _ _ Hi) as [l Hl].
  apply list_elem_of_split_length in Hl as (v1 & v2 & -> & ->). unfold push_task.
  rewrite alter_app_r_alt, Nat.sub_diag by lia. simpl. rewrite !concat_app. simpl. solve_Permutation.
Qed.

Lemma place_perm req infos : ∀ v, Forall (λ x, (x.1 < length v)%nat) infos →
  concat (place req infos v) ≡ₚ concat v ++ map (make_task req) (map snd infos).
Proof.
  induction infos as [|[i info] infos IH]; intros v H; simpl.
  - by rewrite app_nil_r.
  - apply Forall_cons in H as [Hi H]. rewrite IH by (unfold push_task; by rewrite length_alter).
    rewrite push_task_perm by done. rewrite <- app_assoc. done.
Qed.

(** [s0], [ts0]: the requests and tasks that existed before this transfer. *)
Context (s0 : store) (ts0 : list Task) (next0 : nat) (fidx first dst0 : Z).

Definition task_ok (s : store) (t : Task) : Prop :=
  info_ok s t ∧ cut chunk_bytesize t ∧ destination s t = Ret (dst0 + (t_offset t - off0)) ∧
  owned fidx s t ∧ t_finished t = false.

(** The request of a range of [size] bytes that [before] bytes of the transfer precede. *)
Definition range_request (r : Request) (j : nat) (before size : Z) : Prop :=
  r_offset r = off0 + before ∧ r_file_index r = fidx ∧ r_index r = wrap32 (first + Z.of_nat j) ∧
  r_bytesize r = size ∧ r_dst r = dst0 + before ∧ r_ret r = Success.

Record built (done : list Z) (p : Z) (b : building) : Prop := {
  bt_fed : fed (bld_tasks b) (bld_itr b) p;
  bt_position : p = off0 + sumZ done;
  bt_next : bld_next b = (next0 + length done)%nat;
  bt_fresh : ∀ k, (bld_next b <= k)%nat → bld_store b !! k = None;
  bt_old : s0 ⊆ bld_store b;
  bt_only : ∀ k, is_Some (bld_store b !! k) → is_Some (s0 !! k) ∨ (next0 <= k < bld_next b)%nat;
  bt_requests : ∀ j size, done !! j = Some size →
    ∃ r, bld_store b !! (next0 + j)%nat = Some r ∧ range_request r j (sumZ (take j done)) size;
  bt_pieces : ∀ j size, done !! j = Some size →
    ∃ ts, filter (λ t, request t = (next0 + j)%nat) (concat (bld_tasks b)) ≡ₚ ts ∧
          tiles t_offset t_bytesize (off0 + sumZ (take j done)) ts (off0 + sumZ (take j done) + size);
  bt_new : Forall (λ t, next0 <= request t)%nat (concat (bld_tasks b));
  bt_tasks : Forall (task_ok (bld_store b)) (concat (bld_tasks b));
  bt_consistent : consistent (bld_store b) (ts0 ++ concat (bld_tasks b));
  bt_open : ∀ k, is_Some (bld_store b !! k) → pending k (ts0 ++ concat (bld_tasks b)) ≠ 0%nat;
  bt_count : Z.of_nat (length (concat (bld_tasks b))) <=
             boundaries off0 (p - off0) + Z.of_nat (length done) + Z.of_nat (current_task_index (bld_itr b)) }.

Lemma task_ok_insert s k r t : s !! k = None → task_ok s t → task_ok (<[k:=r]> s) t.
Proof.
  intros Hk ([He [r' Hr']] & Hc & Hd & (r'' & Ho & Hf) & Hu).
  assert (request t ≠ k) by congruence. simplify_eq.
  split_and!; try done.
  - split; [done|]. rewrite lookup_insert_ne by done. eauto.
  - unfold destination in *. by rewrite lookup_insert_ne.
  - exists r'. by rewrite lookup_insert_ne.
Qed.

Lemma piece_task_ok s k r base info : s !! k = Some r → piece base info →
  r_file_index r = fidx → r_dst r = dst0 + (base - off0) → task_ok s (make_task k info).
Proof.
  intros Hk [He Hr Hc] Hf Hd. split_and!.
  - split; [done|]. simpl. eauto.
  - done.
  - unfold destination. simpl. rewrite Hk, Hr, Hd. f_equal. unfold t_offset. simpl. lia.
  - by exists r.
  - done.
Qed.


Lemma boundaries_sum p n m : boundaries p n + boundaries (p + n) m = boundaries p (n + m).
Proof. unfold boundaries. replace (p + (n + m)) with (p + n + m) by lia. lia. Qed.

Lemma handle_request_spec done p b size :
  built done p b → 0 <= size → p + size <= e →
  Z.of_nat (length ts0 + length done + 1 + length slices) + (e - off0) / chunk_bytesize + 1 < unsigned_modulus →
  ∃ b', handle_request fidx (wrap32 (first + Z.of_nat (length done))) p size (dst0 + (p - off0)) b = Ret b' ∧
        built (done ++ [size]) (p + size) b'.
Proof.
  intros [Hf Hpos Hnext Hfresh Hold Honly Hreqs Hpieces Hnew Htasks Hcons Hopen Hcount] Hsize Hp Hroom.
  destruct (fed_range _ _ _ Hf) as (Hpr & Hi & _).
  set (k := bld_next b) in *. set (s := bld_store b) in *.
  destruct (cut_loop_spec k (cut_fuel size) (bld_tasks b) (bld_itr b) p size p Hf) as (infos & itr' & E & Hf' & Hall & Htile & Hlen);
    try lia.
  { unfold cut_fuel. pose proof (boundaries_bound p size). pose proof (Z.div_pos size chunk_bytesize Hsize Hchunk). lia. }
  rewrite Z.sub_diag in E. unfold handle_request. rewrite E. cbn [obind].
  assert (Hidx : Forall (λ x, (x.1 < length (bld_tasks b))%nat) infos).
  { rewrite (fed_length _ _ _ Hf). eapply Forall_impl; [exact Hall|]. by intros x [? _]. }
  rewrite create_tasks_place by done. cbn [obind]. eexists. split; [done|].
  set (r := make_request p fidx (wrap32 (first + Z.of_nat (length done))) (Z.of_nat (length infos)) size (dst0 + (p - off0))).
  assert (Hk : s !! k = None) by (by apply Hfresh).
  destruct (fed_range _ _ _ Hf') as (_ & Hi' & _).
  assert (Hcells : boundaries off0 (p - off0) + boundaries p size = boundaries off0 (p + size - off0)).
  { replace p with (off0 + (p - off0)) at 2 by lia. rewrite boundaries_sum. f_equal. lia. }
  assert (Hbounded : boundaries off0 (p + size - off0) <= (e - off0) / chunk_bytesize + 1).
  { etransitivity; [apply boundaries_bound|]. apply Z.add_le_mono_r, Z.div_le_mono; lia. }
  pose proof (place_perm k infos (bld_tasks b) Hidx) as Hperm.
  assert (Hlength : length (concat (place k infos (bld_tasks b))) = (length (concat (bld_tasks b)) + length infos)%nat)
    by (rewrite Hperm, length_app, !length_map; done).
  assert (Hcount' : Z.of_nat (length (concat (bld_tasks b)) + length infos) <=
    boundaries off0 (p + size - off0) + Z.of_nat (length done + 1) + Z.of_nat (current_task_index itr')) by lia.
  assert (Hr : r_tasks r = Z.of_nat (length (map snd infos))).
  { simpl. rewrite length_map. unwrap. lia. }
  split; simpl; fold s k; fold r; try rewrite Hperm.
  - exact Hf'.
  - rewrite sumZ_app. simpl. lia.
  - rewrite length_app. simpl. lia.
  - intros k' Hk'. rewrite lookup_insert_ne by lia. apply Hfresh. lia.
  - apply insert_subseteq_r; [by eapply lookup_weaken_None|done].
  - intros k' Hk'. destruct (decide (k = k')) as [<-|]; [right; lia|].
    rewrite lookup_insert_ne in Hk' by done. destruct (Honly _ Hk'); [by left|right; lia].
  - intros j sz Hj. destruct (decide (j = length done)) as [->|Hne].
    + rewrite lookup_app_r, Nat.sub_diag in Hj by done. injection Hj as <-. rewrite <- Hnext.
      rewrite lookup_insert_eq. eexists. split; [done|]. rewrite take_app_length.
      repeat split; simpl; lia.
    + assert (j < length done)%nat by (apply lookup_lt_Some in Hj; rewrite length_app in Hj; simpl in Hj; lia).
      rewrite lookup_app_l in Hj by done. destruct (Hreqs _ _ Hj) as (r' & Hr' & Hrr).
      exists r'. rewrite lookup_insert_ne by lia. rewrite take_app_le by lia. done.
  - assert (Hnone : filter (λ t, request t = k) (concat (bld_tasks b)) = []).
    { apply filter_none. rewrite Forall_forall in Htasks. intros t Ht.
      destruct (Htasks t Ht) as ([_ [r' Hr']] & _). intros Heq. rewrite Heq in Hr'. congruence. }
    intros j sz Hj. destruct (decide (j = length done)) as [->|Hne].
    + rewrite lookup_app_r, Nat.sub_diag in Hj by done. injection Hj as <-. rewrite <- Hnext.
      exists (map (make_task k) (map snd infos)). rewrite Hperm, filter_app, Hnone, take_app_length, <- Hpos. split.
      * rewrite filter_all; [done|]. by intros t (i & -> & _)%list_elem_of_fmap.
      * by apply tiles_map.
    + assert (j < length done)%nat by (apply lookup_lt_Some in Hj; rewrite length_app in Hj; simpl in Hj; lia).
      rewrite lookup_app_l in Hj by done. destruct (Hpieces _ _ Hj) as (ts & Hts & Htl).
      exists ts. rewrite take_app_le by lia. split; [|done]. rewrite Hperm, filter_app, Hts, (filter_none _ (map _ _)); [by rewrite app_nil_r|].
      intros t (i & -> & _)%list_elem_of_fmap. simpl. lia.
  - apply Forall_app. split; [done|]. apply Forall_map, Forall_true. simpl. lia.
  - apply Forall_app. split.
    + eapply Forall_impl; [exact Htasks|]. intros t. by apply task_ok_insert.
    + apply Forall_map, Forall_map. eapply Forall_impl; [exact Hall|]. intros [i info] [_ Hpc]. simpl in *.
      eapply piece_task_ok; [apply lookup_insert_eq|exact Hpc|done|simpl; lia].
  - rewrite app_assoc. apply consistent_insert; [done|done|done|].
    rewrite length_app, length_map. lia.
  - intros k' Hk'. rewrite Hperm, app_assoc, pending_app, pending_new, length_map.
    destruct (decide (k' = k)) as [->|Hne]; [lia|]. rewrite lookup_insert_ne in Hk' by done.
    pose proof (Hopen _ Hk'). lia.
  - rewrite !length_app, !length_map. simpl. lia.
Qed.

Lemma handle_requests_spec sizes : ∀ done p b,
  built done p b → Forall (λ n, 0 <= n) sizes → p + sumZ sizes <= e →
  Z.of_nat (length ts0 + length done + length sizes + length slices) + (e - off0) / chunk_bytesize + 1 < unsigned_modulus →
  ∃ b', handle_requests fidx (wrap32 (first + Z.of_nat (length done))) p sizes (dst0 + (p - off0)) b = Ret b' ∧
        built (done ++ sizes) (p + sumZ sizes) b'.
Proof.
  induction sizes as [|size sizes IH]; intros done p b Hb Hs Hp Hroom; simpl in *.
  - exists b. split; [done|]. by rewrite app_nil_r, Z.add_0_r.
  - apply Forall_cons in Hs as [Hs Hss]. pose proof (sumZ_nonneg _ Hss). destruct (fed_range _ _ _ (bt_fed _ _ _ Hb)) as (? & _).
    destruct (handle_request_spec done p b size Hb) as (b1 & E & Hb1); [lia..|]. rewrite E. cbn [obind].
    destruct (IH (done ++ [size]) (p + size) b1 Hb1) as (b2 & E2 & Hb2); [done|lia|rewrite length_app; simpl; lia|].
    exists b2. split.
    + rewrite <- E2. f_equal; [|unwrap; lia|lia]. rewrite length_app. simpl.
      unfold add32, wrap32. rewrite Zplus_mod_idemp_l. f_equal. lia.
    + by rewrite <- app_assoc, <- Z.add_assoc in Hb2.
Qed.

(** ** One batch per slice *)

Record batch_built (s : store) (b : Batch) : Prop := {
  bb_tasks : tiles t_offset t_bytesize (start (range b)) (tasks b) (range_end (range b));
  bb_size : Batch.size (range b) = range_end (range b) - start (range b);
  bb_unfinished : unfinished b = 0%nat;
  bb_some : tasks b ≠ [];
  bb_ok : Forall (task_ok s) (tasks b);
  bb_chunks : if decide (start (range b) = range_end (range b)) then chunks b = []
              else grouped s 0 (tasks b) (chunks b) ∧
                   tiles c_offset c_bytesize (start (range b)) (chunks b) (range_end (range b)) ∧
                   Forall (chunk_cut chunk_bytesize) (chunks b) }.

Lemma tiles_calculate (s : store) o ts m : tiles t_offset t_bytesize o ts m → ts ≠ [] → 0 <= o → m < size_modulus →
  Forall (info_ok s) ts → calculate_start ts = o ∧ calculate_end ts = m.
Proof.
  intros Ht Hne Ho Hm Hi. split.
  - destruct ts as [|t ts]; [done|]. by apply tiles_cons_inv in Ht as [? _].
  - unfold calculate_end. destruct ts as [|t ts _] using rev_ind; [done|]. rewrite last_snoc.
    pose proof Ht as (Hl & ? & ->)%tiles_snoc_inv. apply tiles_le in Hl.
    apply Forall_app in Hi as [_ Hi]. apply Forall_singleton in Hi as [-> _]. unwrap. lia.
Qed.

Lemma make_batch_spec (s : store) sid w obj ts o m :
  tiles t_offset t_bytesize o ts m → ts ≠ [] → 0 <= o → m + chunk_bytesize < size_modulus →
  Forall (task_ok s) ts → Z.of_nat (length ts) < unsigned_modulus →
  ∃ b, make_batch s sid w fidx obj ts chunk_bytesize = Ret b ∧ batch_built s b ∧ tasks b = ts ∧
    start (range b) = o ∧ range_end (range b) = m ∧ batch_ok sid s b ∧ workload_index b = w ∧
    b_file_index b = fidx ∧ is_object_storage b = obj.
Proof.
  intros Ht Hne Ho Hm Hok Hlen.
  assert (Hinfo : Forall (info_ok s) ts) by (eapply Forall_impl; [exact Hok|]; by intros t [? _]).
  assert (Hcut : Forall (cut chunk_bytesize) ts) by (eapply Forall_impl; [exact Hok|]; by intros t (_ & ? & _)).
  destruct (split_into_chunks_spec s chunk_bytesize ts o m) as (cs & E & Hcs); try done.
  destruct (tiles_calculate s o ts m) as [Hs He]; [done..|lia|done|].
  unfold make_batch. rewrite E, Hs, He. cbn [obind]. unfold make_range.
  pose proof (tiles_le _ _ _ _ _ Ht). rewrite (proj2 (Z.ltb_ge _ _)) by done. cbn [obind].
  eexists. split; [done|]. split_and!; try done.
  - split; simpl; try done; [unwrap; lia|]. case_decide; [done|]. destruct Hcs as (? & ? & _ & ?). done.
  - split; [done|]. simpl. eapply Forall_impl; [exact Hok|]. by intros t (_ & _ & _ & ? & _).
Qed.

Definition slice_filled (sl : FileReadTask) (ts : list Task) : Prop :=
  tiles t_offset t_bytesize (frt_offset sl) ts (frt_offset sl + frt_size sl).

Lemma make_batches_spec (s : store) sid obj work : ∀ o,
  tiles (λ x, frt_offset x.1) (λ x, frt_size x.1) o work e → off0 <= o →
  Forall (λ x, slice_filled x.1 x.2) work →
  Forall (task_ok s) (concat (map snd work)) → Z.of_nat (length (concat (map snd work))) < unsigned_modulus →
  ∃ bs, make_batches s sid fidx obj work = Ret bs ∧ all_tasks bs = concat (map snd work) ∧
    Forall (batch_built s) bs ∧ Forall (batch_ok sid s) bs ∧
    tiles (λ b, start (range b)) (λ b, Batch.size (range b)) o bs e ∧
    Forall (λ b, (b_file_index b = fidx ∧ is_object_storage b = obj) ∧ ∃ x, x ∈ work ∧ workload_index b = frt_workload x.1 ∧ tasks b = x.2) bs.
Proof.
  induction work as [|[sl ts] work IH]; intros o Ht Ho Hfill Hok Hlen; simpl in *.
  - exists []. split_and!; try constructor. apply tiles_nil_inv in Ht as ->. constructor.
  - apply tiles_cons_inv in Ht as (<- & Hs & Ht). apply Forall_cons in Hfill as [Hsl Hfill]. simpl in *.
    apply Forall_app in Hok as [Hok1 Hok2]. rewrite length_app in Hlen.
    destruct (IH _ Ht) as (bs & E & Hall & Hbb & Hbo & Htl & Hwk); [lia|done|done|lia|].
    assert (Hwk' : Forall (λ b, (b_file_index b = fidx ∧ is_object_storage b = obj) ∧ ∃ x, x ∈ (sl, ts) :: work ∧
               workload_index b = frt_workload x.1 ∧ tasks b = x.2) bs).
    { eapply Forall_impl; [exact Hwk|]. intros b (? & x & Hx & ?). split; [done|]. exists x. split; [by right|done]. }
    pose proof (tiles_le _ _ _ _ _ Ht).
    destruct ts as [|t ts].
    + apply tiles_nil_inv in Hsl. exists bs. split_and!; try done. by rewrite Hsl.
    + destruct (make_batch_spec s sid (frt_workload sl) obj (t :: ts) _ _ Hsl) as (b & Eb & Hb & Hts & Hst & Hen & Hok' & Hw & Hf & Hobj);
        [done|lia|lia|done|lia|].
      rewrite Eb, E. cbn [obind]. exists (b :: bs). split; [done|]. split_and!.
      * unfold all_tasks in *. simpl. by rewrite Hall, Hts.
      * by constructor.
      * by constructor.
      * pose proof (bb_size _ _ Hb). constructor; [done|lia|]. replace (_ + _) with (frt_offset sl + frt_size sl) by lia. done.
      * constructor; [|done]. split; [done|]. exists (sl, t :: ts). split; [left|done].
Qed.

(** At the end every slice is full. *)
Lemma fed_full v itr : fed v itr e → Forall2 slice_filled slices v.
Proof.
  intros Hf. pose proof (fed_range _ _ _ Hf) as (_ & _ & Hc0).
  destruct Hf as [Hl (sl & Hsl & Hp & Hc) Hd Ho Hr]. apply Forall2_same_length_lookup. split; [done|].
  intros i x ts Hx Hts. pose proof (tiles_elem _ _ _ _ _ _ Hslices (list_elem_of_lookup_2 _ _ _ Hsl)).
  assert (Hcur : current_worker_bytesize itr = 0) by lia. unfold slice_filled.
  destruct (lt_eq_lt_dec i (current_task_index itr)) as [[Hlt| ->]|Hgt].
  - by apply Hd with i.
  - simplify_eq. replace (frt_offset sl + frt_size sl) with e by lia. by apply Ho.
  - rewrite (Hr _ _ Hgt Hts).
    destruct (tiles_split _ _ _ _ _ _ _ Hslices Hsl) as (l1 & l2 & Hsplit & Hl1 & _ & _ & H2).
    rewrite Hsplit, lookup_app_r in Hx by lia. destruct (i - length l1)%nat as [|j] eqn:Hj; [lia|]. simpl in Hx.
    pose proof (tiles_elem _ _ _ _ _ _ H2 (list_elem_of_lookup_2 _ _ _ Hx)).
    replace (frt_offset x + frt_size x) with (frt_offset x) by lia. constructor.
Qed.

Lemma total_spec bs : ∀ o acc, tiles (λ b, start (range b)) (λ b, Batch.size (range b)) o bs e →
  off0 <= o → acc = o - off0 →
  foldl (λ total b, total ⊕ Batch.size (range b)) acc bs = e - off0.
Proof.
  induction bs as [|b bs IH]; intros o acc Ht Ho ->; simpl.
  - by apply tiles_nil_inv in Ht as ->.
  - apply tiles_cons_inv in Ht as (_ & Hs & Ht). pose proof (tiles_le _ _ _ _ _ Ht).
    apply (IH _ _ Ht); [lia|]. unwrap. lia.
Qed.

(** What build_tasks leaves behind: the submission [s0], [ts0] extended by the transfer. *)
Record transfer_built (sid : Z) (obj : bool) (range_sizes : list Z) (bs : list Batch) (s : store) : Prop := {
  tb_batches : Forall (batch_built s) bs;
  tb_owner : Forall (batch_ok sid s) bs;
  tb_file : Forall (λ b, b_file_index b = fidx ∧ is_object_storage b = obj) bs;
  tb_workloads : Forall (λ b, ∃ sl, sl ∈ slices ∧ workload_index b = frt_workload sl ∧
                    tiles t_offset t_bytesize (frt_offset sl) (tasks b) (frt_offset sl + frt_size sl)) bs;
  tb_tiles : tiles (λ b, start (range b)) (λ b, Batch.size (range b)) off0 bs e;
  tb_old : s0 ⊆ s;
  tb_requests : ∀ j size, range_sizes !! j = Some size →
    ∃ r, s !! (next0 + j)%nat = Some r ∧ range_request r j (sumZ (take j range_sizes)) size;
  tb_pieces : ∀ j size, range_sizes !! j = Some size →
    ∃ ts, filter (λ t, request t = (next0 + j)%nat) (all_tasks bs) ≡ₚ ts ∧
          tiles t_offset t_bytesize (off0 + sumZ (take j range_sizes)) ts (off0 + sumZ (take j range_sizes) + size);
  tb_new : Forall (λ t, next0 <= request t)%nat (all_tasks bs);
  tb_count : Z.of_nat (length (all_tasks bs)) <=
    (e - off0) / chunk_bytesize + 1 + Z.of_nat (length range_sizes) + Z.of_nat (length slices);
  tb_only : ∀ k, is_Some (s !! k) → is_Some (s0 !! k) ∨ (next0 <= k < next0 + length range_sizes)%nat;
  tb_consistent : consistent s (ts0 ++ all_tasks bs);
  tb_open : ∀ k, is_Some (s !! k) → pending k (ts0 ++ all_tasks bs) ≠ 0%nat }.

Lemma build_tasks_spec sid obj sl0 range_sizes :
  slices !! 0%nat = Some sl0 → frt_destination sl0 = dst0 → is_unsigned first →
  Forall (λ n, 0 <= n) range_sizes → sumZ range_sizes = e - off0 →
  (∀ k, (next0 <= k)%nat → s0 !! k = None) → consistent s0 ts0 →
  (∀ k, is_Some (s0 !! k) → pending k ts0 ≠ 0%nat) →
  Z.of_nat (length ts0 + length range_sizes + length slices) + (e - off0) / chunk_bytesize + 1 < unsigned_modulus →
  ∃ bs s, build_tasks sid fidx first obj range_sizes s0 next0 = Ret (bs, e - off0, s) ∧
          transfer_built sid obj range_sizes bs s.
Proof.
  intros Hsl Hd Hfirst Hsizes Hsum Hfresh Hcons Hopen Hroom.
  pose proof (tiles_elem _ _ _ _ _ _ Hslices (list_elem_of_lookup_2 _ _ _ Hsl)) as He0.
  assert (Hoff : frt_offset sl0 = off0).
  { destruct slices as [|x l]; [done|]. injection Hsl as ->. by apply tiles_cons_inv in Hslices as [? _]. }
  set (b0 := mkBuilding s0 next0 (mkItr 0 (frt_workload sl0) (frt_size sl0)) (replicate (length slices) [])).
  assert (Hconcat : concat (replicate (length slices) (@nil Task)) = []) by (clear; induction (length slices) as [|n IH]; [done|exact IH]).
  assert (Hb0 : built [] off0 b0).
  { split; simpl; rewrite ?Hconcat, ?app_nil_r, ?Nat.add_0_r; try done.
    - split; simpl.
      + apply length_replicate.
      + exists sl0. split; [done|]. lia.
      + lia.
      + intros sl ts Hsl' Hts. apply lookup_replicate in Hts as [-> _]. assert (sl = sl0) as -> by congruence. rewrite Hoff. constructor.
      + intros i ts _ Hts. by apply lookup_replicate in Hts as [-> _].
    - lia.
    - intros k Hk. by left.
    - unfold boundaries. replace (off0 + (off0 - off0)) with off0 by lia. simpl. lia. }
  destruct (handle_requests_spec range_sizes [] off0 b0 Hb0) as (b & E & Hb); [done|lia|simpl; lia|].
  simpl in E. rewrite Z.add_0_r, Z.sub_diag, Z.add_0_r in E. replace (wrap32 first) with first in E by (unwrap; done).
  rewrite Hsum in Hb. replace (off0 + (e - off0)) with e in Hb by lia.
  destruct Hb as [Hf _ Hnext _ Hold Honly Hreqs Hpieces Hnew Htasks Hc Ho Hcnt]. simpl in Hreqs, Hpieces, Hnext, Hcnt.
  pose proof (fed_full _ _ Hf) as Hfull.
  assert (Hz1 : map fst (zip slices (bld_tasks b)) = slices) by (apply fst_zip; rewrite (fed_length _ _ _ Hf); done).
  assert (Hz2 : map snd (zip slices (bld_tasks b)) = bld_tasks b) by (apply snd_zip; rewrite (fed_length _ _ _ Hf); done).
  destruct (make_batches_spec (bld_store b) sid obj (zip slices (bld_tasks b)) off0) as (bs & Ebs & Hall & Hbb & Hbo & Htl & Hwk).
  { apply (tiles_map fst frt_offset frt_size). by rewrite Hz1. }
  { lia. }
  { apply Forall_forall. intros [sl ts] Hin. apply list_elem_of_lookup in Hin as [i Hi].
    apply lookup_zip_Some in Hi as [H1 H2]. simpl. by eapply Forall2_lookup_lr. }
  { by rewrite Hz2. }
  { rewrite Hz2. pose proof (cons_bound _ _ Hc) as Hlen. rewrite length_app in Hlen. lia. }
  unfold build_tasks, make_itr, read_task. rewrite Hsl.
  rewrite ASSERT_true by (by destruct slices). cbn [obind]. rewrite Hoff, Hd.
  fold b0. rewrite E. cbn [obind]. rewrite Ebs. cbn [obind]. rewrite (total_spec bs off0 0 Htl) by lia.
  eexists bs, _. split; [done|]. rewrite Hz2 in Hall. rewrite Hnext in Honly.
  split; rewrite ?Hall; try done.
  - eapply Forall_impl; [exact Hwk|]. by intros x [? _].
  - eapply Forall_impl; [exact Hwk|]. intros x (_ & [sl ts] & Hin & Hw & Hts). exists sl.
    apply list_elem_of_lookup in Hin as [i Hi]. apply lookup_zip_Some in Hi as [H1 H2]. simpl in *.
    split; [by eapply list_elem_of_lookup_2|]. split; [done|]. rewrite Hts.
    exact (Forall2_lookup_lr _ _ _ _ _ _ Hfull H1 H2).
  - pose proof (boundaries_bound off0 (e - off0)). destruct (fed_range _ _ _ Hf) as (_ & Hi & _). lia.
Qed.

(** C17: cutting a transfer loses nothing and never trips an ASSERT, for any chunk size and any division
    between workers: build_tasks returns, the batches tile the transfer, each batch's tasks tile its
    slice in file order and lie inside cells of the chunk grid, its chunks read exactly its tasks, every
    task's destination is in lockstep with its file offset, every range gets one request that counts
    exactly its tasks and owes at least one, and the total is the transfer's size. *)
Theorem build_tasks_correct sid obj sl0 range_sizes :
  slices !! 0%nat = Some sl0 → frt_destination sl0 = dst0 → is_unsigned first →
  Forall (λ n, 0 <= n) range_sizes → sumZ range_sizes = e - off0 →
  (∀ k, (next0 <= k)%nat → s0 !! k = None) → consistent s0 ts0 →
  (∀ k, is_Some (s0 !! k) → pending k ts0 ≠ 0%nat) →
  Z.of_nat (length ts0 + length range_sizes + length slices) + (e - off0) / chunk_bytesize + 1 < unsigned_modulus →
  ∃ bs s, build_tasks sid fidx first obj range_sizes s0 next0 = Ret (bs, e - off0, s) ∧
          transfer_built sid obj range_sizes bs s.
Proof. apply build_tasks_spec. Qed.
End Batches.

(** ** Witness: twelve bytes from offset 4, two workers, chunks of 8, three ranges, one of them empty *)

Definition example_slices : list FileReadTask :=
  [mkFileReadTask 0 0 4 8 100; mkFileReadTask 1 0 12 4 108].

Lemma build_tasks_correct_witness :
  ∃ bs s, build_tasks example_slices 8 7 0 0 false [6; 0; 6] ∅ 0 = Ret (bs, 12, s) ∧
    transfer_built example_slices 8 4 16 ∅ [] 0 0 0 100 7 false [6; 0; 6] bs s ∧
    map (λ b, map (λ t, (request t, t_offset t, t_bytesize t)) (tasks b)) bs =
      [[(0%nat, 4, 4); (0%nat, 8, 2); (1%nat, 10, 0); (2%nat, 10, 2)]; [(2%nat, 12, 4)]].
Proof.
  destruct (build_tasks_correct example_slices 8 4 16) with (s0 := ∅ : store) (ts0 := @nil Task) (next0 := 0%nat)
    (fidx := 0) (first := 0) (dst0 := 100) (sid := 7) (obj := false) (sl0 := mkFileReadTask 0 0 4 8 100)
    (range_sizes := [6; 0; 6]) as (bs & s & E & Hb).
  - repeat (constructor; [reflexivity|vm_compute; discriminate|]). constructor.
  - lia.
  - lia.
  - reflexivity.
  - reflexivity.
  - reflexivity.
  - split; [lia|reflexivity].
  - repeat constructor; lia.
  - reflexivity.
  - intros k _. apply lookup_empty.
  - split; simpl; [intros k r Hk; by rewrite lookup_empty in Hk|reflexivity|intros t Ht; by apply not_elem_of_nil in Ht].
  - intros k [r Hk]. by rewrite lookup_empty in Hk.
  - reflexivity.
  - exists bs, s. split; [exact E|]. split; [exact Hb|]. revert E. vm_compute. by intros [= <- <-].
Defined.
