(* ===== verification/Assigner.v ===== *)
(** Merging the ranges of a request into contiguous transfers and dividing them between the workers
    (streamer/impl/assigner). *)

From S2P Require Import Prelude ResponseCode Task Transfer.

(** ** Step 1: coalesce *)

Definition open_transfer (file_index i : Z) (range : ReadRange) : ContiguousTransfer :=
  mkTransfer file_index (rr_offset range) (rr_size range) (rr_dst range) i [rr_size range] [].

Definition adjacent (current : ContiguousTransfer) (range : ReadRange) : bool :=
  (tr_offset current ⊕ tr_size current =? rr_offset range) &&
  (tr_destination current + tr_size current =? rr_dst range).

Definition extend_transfer (current : ContiguousTransfer) (range : ReadRange) : ContiguousTransfer :=
  mkTransfer (tr_file_index current) (tr_offset current) (tr_size current ⊕ rr_size range)
             (tr_destination current) (tr_first_range_index current)
             (tr_range_sizes current ++ [rr_size range]) (tr_tasks current).

(** The loop over one file's ranges.  [transfers] is the vector with its back first, so the transfer
    open for extension, when [open] holds, is the head. *)
Fixpoint coalesce_file (file_index i : Z) (ranges : list ReadRange) (open : bool) (total_bytes : Z)
    (transfers : list ContiguousTransfer) : outcome (Z * list ContiguousTransfer) :=
  match ranges with
  | [] => Ret (total_bytes, transfers)
  | range :: ranges =>
      if total_bytes >? (size_modulus - 1) ⊖ rr_size range then Throw (Code InvalidParameterError)
      else
        let total_bytes := total_bytes ⊕ rr_size range in
        let transfers :=
          match open, transfers with
          | true, current :: rest =>
              if adjacent current range then extend_transfer current range :: rest
              else open_transfer file_index i range :: transfers
          | _, _ => open_transfer file_index i range :: transfers
          end in
        coalesce_file file_index (add32 i 1) ranges true total_bytes transfers
  end.

Fixpoint coalesce_files (file_index : Z) (request : list FileRanges) (total_bytes : Z)
    (transfers : list ContiguousTransfer) : outcome (Z * list ContiguousTransfer) :=
  match request with
  | [] => Ret (total_bytes, transfers)
  | file :: request =>
      let! (total_bytes, transfers) := coalesce_file file_index 0 (fr_ranges file) false total_bytes transfers in
      coalesce_files (add32 file_index 1) request total_bytes transfers
  end.

Definition coalesce (request : list FileRanges) : outcome (Z * list ContiguousTransfer) :=
  let! (total_bytes, transfers) := coalesce_files 0 request 0 [] in
  Ret (total_bytes, reverse transfers).

(** ** Step 2: assign *)

(** What assign works on: the transfers, each workload's bytes, each workload's group. *)
Record assigning := mkAssigning {
  as_transfers : list ContiguousTransfer; as_totals : list Z; as_groups : list Z }.

(** The base share, the remainder, and the number of workloads. *)
Definition bytes_per_worker_for (block_bytesize group_bytes max_workers : Z) : Z * Z * Z :=
  let num_blocks := group_bytes / block_bytesize in
  let workloads := wrap32 (Z.max (Z.min num_blocks max_workers) 1) in
  let base_bytes_per_worker := num_blocks / workloads ⊗ block_bytesize in
  (base_bytes_per_worker, group_bytes ⊖ workloads ⊗ base_bytes_per_worker, workloads).

(** The inner loop: one workload takes bytes until its target.  [indices] are the entries from
    [position] on; they index [as_transfers], so the lookup succeeds.  Running out of fuel is a throw,
    which [fill_fuel] excludes. *)
Fixpoint fill (fuel : nat) (workload_idx : nat) (target : Z) (indices : list nat) (consumed assigned : Z)
    (st : assigning) : outcome (list nat * Z * assigning) :=
  match fuel with
  | O => Throw StdException
  | S fuel =>
      match indices with
      | [] => Ret ([], consumed, st)
      | i :: rest =>
          match as_transfers st !! i with
          | None => Throw StdException
          | Some transfer =>
              if (tr_size transfer >? 0) && (assigned >=? target) then Ret (indices, consumed, st)
              else
                let remaining := tr_size transfer ⊖ consumed in
                let to_assign := Z.min remaining (target ⊖ assigned) in
                let t := mkFileReadTask (Z.of_nat workload_idx) (tr_file_index transfer)
                           (tr_offset transfer ⊕ consumed) to_assign (tr_destination transfer + consumed) in
                let st := mkAssigning (alter (add_task t) i (as_transfers st))
                                      (alter (λ total, total ⊕ to_assign) workload_idx (as_totals st))
                                      (as_groups st) in
                let assigned := assigned ⊕ to_assign in
                let consumed := consumed ⊕ to_assign in
                if consumed =? tr_size transfer
                then fill fuel workload_idx target rest 0 assigned st
                else fill fuel workload_idx target indices consumed assigned st
          end
      end
  end.

Definition fill_fuel (indices : list nat) : nat := length indices + 2.

(** The loop over the slots; [todo] is workloads - slot.  The number is [used]. *)
Fixpoint fill_slots (todo slot first_workload : nat) (base remainder group : Z) (indices : list nat)
    (consumed : Z) (st : assigning) : outcome (nat * assigning) :=
  match todo, indices with
  | S todo, _ :: _ =>
      let workload_idx := (first_workload + slot)%nat in
      let target := if decide (slot = 0%nat) then base ⊕ remainder else base in
      let! (indices, consumed, st) := fill (fill_fuel indices) workload_idx target indices consumed 0 st in
      let st := mkAssigning (as_transfers st) (as_totals st) (<[workload_idx := group]> (as_groups st)) in
      let! (used, st) := fill_slots todo (S slot) first_workload base remainder group indices consumed st in
      Ret (Nat.max (S slot) used, st)
  | _, _ => Ret (0%nat, st)
  end.

Definition assign_group (block_bytesize : Z) (indices : list nat) (workers : Z) (first_workload : nat)
    (group_bytes group : Z) (st : assigning) : outcome (nat * assigning) :=
  match indices with
  | [] => Ret (0%nat, st)
  | _ :: _ =>
      let '(base, remainder, workloads) := bytes_per_worker_for block_bytesize group_bytes workers in
      fill_slots (Z.to_nat workloads) 0 first_workload base remainder group indices 0 st
  end.

Definition group_of_file (group_by_file : list Z) (file_index : Z) : Z :=
  match group_by_file !! Z.to_nat file_index with Some group => group | None => -1 end.

Definition group_of_workload (group_by_workload : list Z) (workload_index : Z) : Z :=
  match group_by_workload !! Z.to_nat workload_index with Some group => group | None => -1 end.

(** async_indices and async_bytes, the two std::maps with the same keys, as one list sorted by key. *)
Fixpoint add_to_group (group : Z) (i : nat) (bytes : Z) (m : list (Z * (list nat * Z))) :
    list (Z * (list nat * Z)) :=
  match m with
  | [] => [(group, ([i], 0 ⊕ bytes))]
  | (g, (ids, n)) :: m' =>
      if group <? g then (group, ([i], 0 ⊕ bytes)) :: m
      else if group =? g then (g, (ids ++ [i], n ⊕ bytes)) :: m'
      else (g, (ids, n)) :: add_to_group group i bytes m'
  end.

Fixpoint split_groups (group_by_file : list Z) (i : nat) (transfers : list ContiguousTransfer)
    (sync : list nat * Z) (async : list (Z * (list nat * Z))) : list nat * Z * list (Z * (list nat * Z)) :=
  match transfers with
  | [] => (sync, async)
  | transfer :: transfers =>
      let group := group_of_file group_by_file (tr_file_index transfer) in
      if group <? 0
      then split_groups group_by_file (S i) transfers (sync.1 ++ [i], sync.2 ⊕ tr_size transfer) async
      else split_groups group_by_file (S i) transfers sync (add_to_group group i (tr_size transfer) async)
  end.

Fixpoint assign_async (block_bytesize : Z) (groups : list (Z * (list nat * Z))) (used : nat) (st : assigning) :
    outcome (nat * assigning) :=
  match groups with
  | [] => Ret (used, st)
  | (group, (indices, bytes)) :: groups =>
      let! (n, st) := assign_group block_bytesize indices 1 used bytes group st in
      assign_async block_bytesize groups (used + n) st
  end.

Definition sum64 (l : list Z) : Z := foldl add64 0 l.

Definition covered (x : ContiguousTransfer) : bool := sum64 (map frt_size (tr_tasks x)) =? tr_size x.

Definition assign (block_bytesize num_workers : Z) (group_by_file : list Z) (total_bytes_to_read : Z)
    (transfers : list ContiguousTransfer) : outcome (nat * assigning) :=
  let '(sync_indices, sync_bytes, async) := split_groups group_by_file 0 transfers ([], 0) [] in
  let ceiling := (Z.to_nat num_workers + length async + 1)%nat in
  let st := mkAssigning transfers (replicate ceiling 0) (replicate ceiling (-1)) in
  let! (used, st) := assign_group block_bytesize sync_indices num_workers 0 sync_bytes (-1) st in
  let! (used, st) := assign_async block_bytesize async used st in
  let num_workloads := Nat.max used 1 in
  let st := mkAssigning (as_transfers st) (resize num_workloads 0 (as_totals st))
                        (resize num_workloads (-1) (as_groups st)) in
  ASSERT (sum64 (as_totals st) =? total_bytes_to_read) ;;!
  ASSERT (forallb covered (as_transfers st)) ;;!
  Ret (num_workloads, st).

(** ** The constructor *)

(** The first file with ranges decides; [is_uri] is whether the path parses as a StorageUri. *)
Fixpoint check_object_storage (is_uri : list Ascii.ascii → bool) (request : list FileRanges) : bool :=
  match request with
  | [] => false
  | file :: request =>
      match fr_ranges file with
      | [] => check_object_storage is_uri request
      | _ :: _ => is_uri (fr_path file)
      end
  end.

(** The figures of Config the assigner reads. *)
Record AssignerConfig := mkAssignerConfig {
  ac_concurrency : Z; ac_s3_concurrency : Z; ac_s3_block_bytesize : Z; ac_fs_block_bytesize : Z }.

Definition assigner (is_uri : list Ascii.ascii → bool) (config : AssignerConfig) (group_by_file : list Z)
    (request : list FileRanges) : outcome (nat * assigning) :=
  let is_object_storage := check_object_storage is_uri request in
  let num_workers := if is_object_storage then ac_s3_concurrency config else ac_concurrency config in
  let block_bytesize := if is_object_storage then ac_s3_block_bytesize config else ac_fs_block_bytesize config in
  match request with
  | [] => Ret (0%nat, mkAssigning [] [] [])
  | _ :: _ =>
      let! (total_bytes_to_read, transfers) := coalesce request in
      match transfers with
      | [] => Ret (0%nat, mkAssigning [] [] [])
      | _ :: _ => assign block_bytesize num_workers group_by_file total_bytes_to_read transfers
      end
  end.

(** ** Sums *)

Lemma sum64_sumZ l : sum64 l = wrap64 (sumZ l).
Proof.
  unfold sum64. change (sumZ l) with (0 + sumZ l). change 0 with (wrap64 0) at 1. generalize 0.
  induction l as [|x l IH]; intros z; simpl; [by rewrite Z.add_0_r|].
  replace (wrap64 z ⊕ x) with (wrap64 (z + x)); [rewrite IH; f_equal; lia|].
  unfold add64, wrap64. by rewrite Zplus_mod_idemp_l.
Qed.

Lemma sumZ_alter (w : nat) n (l : list Z) : (w < length l)%nat → ∀ f, (∀ t, ∃ q, f t = t + n + q * size_modulus) →
  ∃ q, sumZ (alter f w l) = sumZ l + n + q * size_modulus.
Proof.
  intros Hw f Hf. revert w Hw. induction l as [|x l IH]; intros [|w] Hw; simpl in *; try lia.
  - destruct (Hf x) as [q ->]. exists q. lia.
  - destruct (IH w) as [q Hq]; [lia|]. exists q. change (list_alter f w l) with (alter f w l). lia.
Qed.

Lemma sum64_alter (w : nat) n (l : list Z) : (w < length l)%nat →
  sum64 (alter (λ t, t ⊕ n) w l) = sum64 l ⊕ n.
Proof.
  intros Hw. rewrite !sum64_sumZ. destruct (sumZ_alter w n l Hw (λ t, t ⊕ n)) as [q ->].
  - intros t. exists (- ((t + n) / size_modulus)). unfold add64, wrap64.
    pose proof (Z.div_mod (t + n) size_modulus ltac:(done)). lia.
  - unfold add64, wrap64. by rewrite Z.mod_add, Zplus_mod_idemp_l.
Qed.

(** ** Dividing one group *)

Definition erase (x : ContiguousTransfer) : ContiguousTransfer :=
  mkTransfer (tr_file_index x) (tr_offset x) (tr_size x) (tr_destination x)
             (tr_first_range_index x) (tr_range_sizes x) [].

Section Groups.
Context (tr0 : list ContiguousTransfer).

(** The transfers as coalesced. *)
Definition valid (x : ContiguousTransfer) : Prop :=
  0 <= tr_offset x ∧ 0 <= tr_size x ∧ tr_offset x + tr_size x < size_modulus ∧ tr_tasks x = [].

Context (Hvalid : Forall valid tr0).

Definition static (st : assigning) : Prop := ∀ i, erase <$> as_transfers st !! i = tr0 !! i.

(** The first [consumed] bytes of a transfer are divided between the workloads lo .. hi - 1. *)
Record partial (lo hi : nat) (x : ContiguousTransfer) (consumed : Z) : Prop := {
  pt_tiles : tiles frt_offset frt_size (tr_offset x) (tr_tasks x) (tr_offset x + consumed);
  pt_lockstep : Forall (lockstep (tr_offset x) (tr_destination x)) (tr_tasks x);
  pt_file : Forall (λ t, frt_file t = tr_file_index x) (tr_tasks x);
  pt_workloads : Forall (λ t, Z.of_nat lo <= frt_workload t < Z.of_nat hi) (tr_tasks x) }.

Definition finished (lo hi : nat) (st : assigning) (i : nat) : Prop :=
  ∃ x, as_transfers st !! i = Some x ∧ partial lo hi x (tr_size x) ∧ tr_tasks x ≠ [].

Definition untouched (st : assigning) (i : nat) : Prop :=
  ∃ x, as_transfers st !! i = Some x ∧ tr_tasks x = [].

Definition size_of (i : nat) : Z := match tr0 !! i with Some x => tr_size x | None => 0 end.

(** What a group still waits for. *)
Record waiting (lo hi : nat) (st : assigning) (indices : list nat) (consumed : Z) : Prop := {
  wt_static : static st;
  wt_nodup : NoDup indices;
  wt_totals : Forall is_size (as_totals st);
  wt_head : match indices with
            | [] => consumed = 0
            | i :: rest =>
                (∃ x, as_transfers st !! i = Some x ∧ partial lo hi x consumed ∧
                      (consumed = 0 ∨ 0 < consumed < tr_size x)) ∧ Forall (untouched st) rest
            end }.

Definition to_go (indices : list nat) (consumed : Z) : Z := sumZ (map size_of indices) - consumed.

Lemma static_lookup st i x : static st → as_transfers st !! i = Some x →
  tr0 !! i = Some (erase x) ∧ size_of i = tr_size x ∧
  0 <= tr_offset x ∧ 0 <= tr_size x ∧ tr_offset x + tr_size x < size_modulus.
Proof.
  intros Hs Hx. specialize (Hs i). rewrite Hx in Hs. simpl in Hs. unfold size_of. rewrite <- Hs.
  symmetry in Hs. rewrite Forall_lookup in Hvalid. destruct (Hvalid _ _ Hs) as (? & ? & ? & _). done.
Qed.

Lemma static_alter st i t totals groups : static st →
  static (mkAssigning (alter (add_task t) i (as_transfers st)) totals groups).
Proof.
  intros Hs j. simpl. specialize (Hs j). destruct (decide (i = j)) as [<-|].
  - rewrite list_lookup_alter_eq. rewrite <- Hs. by destruct (as_transfers st !! i).
  - by rewrite list_lookup_alter_ne.
Qed.

Lemma size_of_nonneg i : 0 <= size_of i.
Proof.
  unfold size_of. destruct (tr0 !! i) as [x|] eqn:Hx; [|done]. rewrite Forall_lookup in Hvalid.
  by destruct (Hvalid _ _ Hx) as (? & ? & _).
Qed.

Lemma sum_sizes_nonneg indices : 0 <= sumZ (map size_of indices).
Proof. apply sumZ_nonneg, Forall_map, Forall_true. apply size_of_nonneg. Qed.

Lemma partial_wider lo hi hi' x c : (hi <= hi')%nat → partial lo hi x c → partial lo hi' x c.
Proof.
  intros Hh [? ? ? Hw]. split; try done. eapply Forall_impl; [exact Hw|]. simpl. lia.
Qed.

Lemma partial_zero lo hi x : tr_tasks x = [] → partial lo hi x 0.
Proof. intros Ht. split; rewrite Ht; try constructor. rewrite Z.add_0_r. constructor. Qed.

(** Taking [n] more bytes of a transfer. *)
Lemma partial_take lo hi w x c n : partial lo hi x c → (lo <= w < hi)%nat →
  0 <= tr_offset x → 0 <= c → 0 <= n → c + n <= tr_size x → tr_offset x + tr_size x < size_modulus →
  partial lo hi (add_task (mkFileReadTask (Z.of_nat w) (tr_file_index x) (tr_offset x ⊕ c) n (tr_destination x + c)) x)
          (c + n).
Proof.
  intros [Ht Hl Hf Hw] Hlo Ho Hc Hn Hs Hm. replace (tr_offset x ⊕ c) with (tr_offset x + c) by (unwrap; done).
  split; simpl; try (apply Forall_app; split; [done|]; apply Forall_singleton); simpl; try lia.
  - rewrite Z.add_assoc.
    by apply (tiles_snoc frt_offset frt_size _ (mkFileReadTask (Z.of_nat w) (tr_file_index x) (tr_offset x + c) n (tr_destination x + c))).
  - unfold lockstep. simpl. lia.
Qed.

(** The state after one more slice of transfer [i]. *)
Definition take_slice (w i : nat) (x : ContiguousTransfer) (consumed n : Z) (st : assigning) : assigning :=
  mkAssigning
    (alter (add_task (mkFileReadTask (Z.of_nat w) (tr_file_index x) (tr_offset x ⊕ consumed) n
                                     (tr_destination x + consumed))) i (as_transfers st))
    (alter (λ total, total ⊕ n) w (as_totals st)) (as_groups st).

Lemma Forall_alter_size n (w : nat) (totals : list Z) : Forall is_size totals → Forall is_size (alter (λ t, t ⊕ n) w totals).
Proof.
  intros H. apply Forall_lookup. intros j y Hy. destruct (decide (w = j)) as [<-|].
  - rewrite list_lookup_alter_eq in Hy. destruct (totals !! w); [|done]. injection Hy as <-. apply wrap64_is_size.
  - rewrite list_lookup_alter_ne in Hy by done. rewrite Forall_lookup in H. eauto.
Qed.

Lemma alter_add_zero (w : nat) (totals : list Z) : Forall is_size totals → alter (λ t, t ⊕ 0) w totals = totals.
Proof.
  intros H. apply list_eq. intros j. destruct (decide (w = j)) as [<-|]; [|by rewrite list_lookup_alter_ne].
  rewrite list_lookup_alter_eq. destruct (totals !! w) as [t|] eqn:Ht; [|done]. simpl. f_equal.
  rewrite Forall_lookup in H. specialize (H _ _ Ht). unwrap. lia.
Qed.

Lemma alter_add_add (w : nat) a b (totals : list Z) :
  alter (λ t, t ⊕ b) w (alter (λ t, t ⊕ a) w totals) = alter (λ t, t ⊕ (a + b)) w totals.
Proof.
  rewrite list_alter_alter_eq. apply list_alter_ext; [|done]. intros t _. unfold compose, add64, wrap64.
  rewrite Zplus_mod_idemp_l. f_equal. lia.
Qed.

(** Taking a slice: the head is either used up or still the head. *)
Lemma take_slice_spec lo w i rest x consumed n st :
  waiting lo (S w) st (i :: rest) consumed → as_transfers st !! i = Some x → (lo <= w)%nat →
  0 <= n → consumed + n <= tr_size x → (consumed + n < tr_size x → 0 < n) →
  let st' := take_slice w i x consumed n st in
  (if decide (consumed + n = tr_size x)
   then finished lo (S w) st' i ∧ waiting lo (S w) st' rest 0
   else waiting lo (S w) st' (i :: rest) (consumed + n)) ∧
  (∀ j, j ≠ i → as_transfers st' !! j = as_transfers st !! j).
Proof.
  intros [Hs Hnd Htot [(x' & Hx' & Hp & Hc) Hrest]] Hx Hlo Hn Hle Hpos st'.
  assert (x' = x) as -> by congruence.
  destruct (static_lookup _ _ _ Hs Hx) as (_ & _ & Ho & Hsz & Hm). apply NoDup_cons in Hnd as [Hni Hnd].
  assert (Hframe : ∀ j, j ≠ i → as_transfers st' !! j = as_transfers st !! j)
    by (intros j Hj; simpl; by rewrite list_lookup_alter_ne).
  pose proof (partial_take lo (S w) w x consumed n Hp) as Hp'.
  assert (Hi : as_transfers st' !! i = Some (add_task (mkFileReadTask (Z.of_nat w) (tr_file_index x)
            (tr_offset x ⊕ consumed) n (tr_destination x + consumed)) x))
    by (simpl; rewrite list_lookup_alter_eq, Hx; done).
  assert (Hrest' : Forall (untouched st') rest).
  { apply Forall_forall. intros j Hj. rewrite Forall_forall in Hrest. destruct (Hrest j Hj) as (y & Hy & ?).
    exists y. by rewrite Hframe by (intros ->; done). }
  split; [|exact Hframe]. case_decide as Hd.
  - split.
    + eexists. split; [exact Hi|]. split; [|].
      { match goal with |- partial _ _ ?y _ => change (partial lo (S w) y (tr_size x)) end. rewrite <- Hd. apply Hp'; lia. }
      simpl. by destruct (tr_tasks x).
    + split; [by apply static_alter|done|by apply Forall_alter_size|].
      destruct rest as [|j rest]; [done|]. apply Forall_cons in Hrest' as [(y & Hy & Hyt) Hrest']. split; [|done].
      exists y. split; [done|]. split; [by apply partial_zero|by left].
  - split; [by apply static_alter|by apply NoDup_cons|by apply Forall_alter_size|]. split; [|done].
    eexists. split; [exact Hi|]. split; [apply Hp'; lia|]. right. simpl. lia.
Qed.

Lemma to_go_cons i rest consumed : to_go (i :: rest) consumed = size_of i - consumed + to_go rest 0.
Proof. unfold to_go. simpl. lia. Qed.

Lemma to_go_nonneg indices : 0 <= to_go indices 0.
Proof. unfold to_go. pose proof (sum_sizes_nonneg indices). lia. Qed.

(** What one workload's turn does to the entries it works on: it uses up a prefix of them, takes [a]
    bytes in all, and stops before an entry that still has bytes, or at the end. *)
Record turn (lo w : nat) (a : Z) (st : assigning) (indices : list nat) (consumed : Z)
    (st' : assigning) (indices' : list nat) (consumed' : Z) : Prop := {
  tn_split : ∃ pre, indices = pre ++ indices' ∧ Forall (finished lo (S w) st') pre;
  tn_waiting : waiting lo (S w) st' indices' consumed';
  tn_frame : ∀ j, j ∉ indices → as_transfers st' !! j = as_transfers st !! j;
  tn_to_go : to_go indices' consumed' = to_go indices consumed - a;
  tn_head : ∀ i rest, indices' = i :: rest → 0 < size_of i;
  tn_totals : as_totals st' = alter (λ t, t ⊕ a) w (as_totals st);
  tn_groups : as_groups st' = as_groups st }.

Lemma fill_spec fuel w lo target : ∀ indices consumed assigned st,
  waiting lo (S w) st indices consumed → (lo <= w)%nat → 0 <= assigned <= target → target < size_modulus →
  Z.of_nat (length indices) + (if assigned <? target then 2 else 1) <= Z.of_nat fuel →
  ∃ indices' consumed' st', fill fuel w target indices consumed assigned st = Ret (indices', consumed', st') ∧
    turn lo w (Z.min (target - assigned) (to_go indices consumed)) st indices consumed st' indices' consumed'.
Proof.
  induction fuel as [|fuel IH]; intros indices consumed assigned st Hw Hlo Ha Ht Hfuel;
    [destruct (assigned <? target); lia|].
  pose proof (wt_totals _ _ _ _ _ Hw) as Htot.
  destruct indices as [|i rest]; simpl.
  { pose proof (wt_head _ _ _ _ _ Hw) as Hc. simpl in Hc. subst consumed. eexists [], 0, st. split; [done|].
    change (to_go [] 0) with 0. replace (Z.min _ _) with 0 by lia.
    split; try done; [by exists []|by rewrite alter_add_zero]. }
  pose proof (wt_head _ _ _ _ _ Hw) as [(x & Hx & Hp & Hc) Hrest]. rewrite Hx.
  destruct (static_lookup _ _ _ (wt_static _ _ _ _ _ Hw) Hx) as (_ & Hsz & Ho & Hs & Hm).
  pose proof (to_go_nonneg rest) as Hgo. rewrite to_go_cons, Hsz.
  rewrite Z.gtb_ltb, Z.geb_leb.
  destruct ((0 <? tr_size x) && (target <=? assigned)) eqn:Hbreak.
  { apply andb_true_iff in Hbreak as [Hpos%Z.ltb_lt Hfull%Z.leb_le].
    eexists _, _, st. split; [done|]. replace (Z.min _ _) with 0 by lia.
    split; try done; [by exists []|rewrite to_go_cons; lia| |by rewrite alter_add_zero].
    intros i' rest' [= -> ->]. lia. }
  assert (Hroom : tr_size x = 0 ∨ assigned < target).
  { apply andb_false_iff in Hbreak as [?%Z.ltb_ge|?%Z.leb_gt]; [left|right]; lia. }
  replace (tr_size x ⊖ consumed) with (tr_size x - consumed) by (unwrap; lia).
  replace (target ⊖ assigned) with (target - assigned) by (unwrap; lia).
  set (n := Z.min (tr_size x - consumed) (target - assigned)).
  replace (assigned ⊕ n) with (assigned + n) by (unwrap; lia).
  replace (consumed ⊕ n) with (consumed + n) by (unwrap; lia).
  fold (take_slice w i x consumed n st).
  destruct (take_slice_spec lo w i rest x consumed n st Hw Hx Hlo) as [Hcase Hframe]; try lia.
  pose proof (wt_nodup _ _ _ _ _ Hw) as Hnd. apply NoDup_cons in Hnd as [Hni _].
  destruct (Z.eqb_spec (consumed + n) (tr_size x)) as [Hdone|Hmore].
  - rewrite decide_True in Hcase by done. destruct Hcase as [Hfin Hw'].
    destruct (IH rest 0 (assigned + n) (take_slice w i x consumed n st) Hw' Hlo) as (is' & c' & st' & -> & Hturn);
      [lia|lia| |].
    { destruct (Z.ltb_spec (assigned + n) target), (Z.ltb_spec assigned target); simpl in Hfuel; lia. }
    exists is', c', st'. split; [done|]. destruct Hturn as [(pre & -> & Hpre) Hwt Hfr Hto Hhd Htt Hgr].
    assert (Hmin : n + Z.min (target - (assigned + n)) (to_go (pre ++ is') 0) =
                   Z.min (target - assigned) (tr_size x - consumed + to_go (pre ++ is') 0)) by lia.
    split; try done.
    + exists (i :: pre). split; [done|]. constructor; [|done].
      destruct Hfin as (y & Hy & ?). exists y. by rewrite Hfr.
    + intros j [Hj1 Hj2]%not_elem_of_cons. rewrite Hfr by done. by apply Hframe.
    + rewrite Hto, to_go_cons. lia.
    + rewrite Htt. simpl. by rewrite alter_add_add, Hmin.
  - rewrite decide_False in Hcase by done.
    destruct (IH (i :: rest) (consumed + n) (assigned + n) (take_slice w i x consumed n st) Hcase Hlo)
      as (is' & c' & st' & -> & Hturn); [lia|lia| |].
    { rewrite (proj2 (Z.ltb_ge _ _)) by lia. rewrite (proj2 (Z.ltb_lt assigned _)) in Hfuel by lia. lia. }
    exists is', c', st'. split; [done|]. destruct Hturn as [Hpre Hwt Hfr Hto Hhd Htt Hgr].
    rewrite to_go_cons, Hsz in Hto, Htt.
    assert (Hmin : n + Z.min (target - (assigned + n)) (tr_size x - (consumed + n) + to_go rest 0) =
                   Z.min (target - assigned) (tr_size x - consumed + to_go rest 0)) by lia.
    split; try done.
    + intros j Hj. rewrite Hfr by done. apply Hframe. intros ->. apply Hj. left.
    + rewrite Hto, to_go_cons. lia.
    + rewrite Htt. simpl. by rewrite alter_add_add, Hmin.
Qed.

Lemma waiting_wider lo hi hi' st indices consumed : (hi <= hi')%nat →
  waiting lo hi st indices consumed → waiting lo hi' st indices consumed.
Proof.
  intros Hh [Hs Hnd Ht Hhd]. split; try done. destruct indices as [|i rest]; [done|].
  destruct Hhd as [(x & ? & Hp & ?) ?]. split; [|done]. exists x. split; [done|].
  split; [by eapply partial_wider|done].
Qed.

Lemma finished_wider lo hi hi' st st' i : (hi <= hi')%nat → as_transfers st' !! i = as_transfers st !! i →
  finished lo hi st i → finished lo hi' st' i.
Proof.
  intros Hh He (x & Hx & Hp & ?). exists x. rewrite He. split; [done|]. split; [by eapply partial_wider|done].
Qed.

(** Nothing left means nothing to read. *)
Lemma waiting_nothing lo hi st indices consumed : waiting lo hi st indices consumed →
  (∀ i rest, indices = i :: rest → 0 < size_of i) → (indices = [] ↔ to_go indices consumed <= 0).
Proof.
  intros [Hs _ _ Hhd] Hpos. destruct indices as [|i rest].
  - simpl in Hhd. subst. unfold to_go. done.
  - split; [done|]. destruct Hhd as [(x & Hx & _ & Hc) _]. destruct (static_lookup _ _ _ Hs Hx) as (_ & Hsz & _).
    specialize (Hpos i rest eq_refl). rewrite to_go_cons. pose proof (to_go_nonneg rest). lia.
Qed.

(** The share of each slot. *)
Definition share (base remainder : Z) (slot : nat) : Z := if decide (slot = 0%nat) then base + remainder else base.

(** The workloads lo .. lo + n - 1 of the group, from [slot] on, got their shares and their group. *)
Record divided (lo slot n : nat) (base remainder group : Z) (indices : list nat) (st st' : assigning) : Prop := {
  dv_static : static st';
  dv_finished : Forall (finished lo (lo + n) st') indices;
  dv_frame : ∀ j, j ∉ indices → as_transfers st' !! j = as_transfers st !! j;
  dv_totals_size : Forall is_size (as_totals st');
  dv_totals : ∀ v, as_totals st' !! v = (λ t, if decide (lo + slot <= v < lo + n)%nat
                then t ⊕ share base remainder (v - lo) else t) <$> as_totals st !! v;
  dv_groups : ∀ v, as_groups st' !! v = (λ g, if decide (lo + slot <= v < lo + n)%nat then group else g) <$> as_groups st !! v;
  dv_sum : sum64 (as_totals st') = sum64 (as_totals st) ⊕ (Z.of_nat (n - slot) * base + if decide (slot = 0%nat) then remainder else 0) }.

Lemma fill_slots_step todo slot lo base remainder group indices consumed st : indices ≠ [] →
  fill_slots (S todo) slot lo base remainder group indices consumed st =
  let! (indices', consumed', st1) := fill (fill_fuel indices) (lo + slot)
    (if decide (slot = 0%nat) then base ⊕ remainder else base) indices consumed 0 st in
  let! (used, st2) := fill_slots todo (S slot) lo base remainder group indices' consumed'
    (mkAssigning (as_transfers st1) (as_totals st1) (<[(lo + slot)%nat := group]> (as_groups st1))) in
  Ret (Nat.max (S slot) used, st2).
Proof. by destruct indices. Qed.

Lemma fill_slots_spec todo lo base remainder group : ∀ slot indices consumed st,
  waiting lo (lo + slot) st indices consumed →
  0 <= base → 0 <= remainder → base + remainder < size_modulus →
  to_go indices consumed = Z.of_nat todo * base + (if decide (slot = 0%nat) then remainder else 0) →
  (indices = [] ↔ todo = 0%nat) → (todo = 0%nat → slot ≠ 0%nat) → (0 < base ∨ (slot + todo <= 1)%nat) →
  (lo + slot + todo <= length (as_totals st))%nat → length (as_groups st) = length (as_totals st) →
  ∃ st', fill_slots todo slot lo base remainder group indices consumed st =
           Ret (if decide (todo = 0%nat) then 0%nat else (slot + todo)%nat, st') ∧
    divided lo slot (slot + todo) base remainder group indices st st'.
Proof.
  induction todo as [|todo IH]; intros slot indices consumed st Hw Hb Hr Hbr Hgo Hempty Hslot Hprog Hroom Hgl.
  - rewrite (proj2 Hempty eq_refl). exists st. split; [done|]. destruct Hw as [Hs _ Ht _].
    rewrite Nat.add_0_r. split; try done.
    + intros v. destruct (as_totals st !! v); simpl; [|done]. by rewrite decide_False by lia.
    + intros v. destruct (as_groups st !! v); simpl; [|done]. by rewrite decide_False by lia.
    + rewrite Nat.sub_diag, decide_False by auto. rewrite sum64_sumZ. unfold add64. simpl. rewrite Z.add_0_r. unfold wrap64. by rewrite Zmod_mod.
  - assert (Hne : indices ≠ []) by (rewrite Hempty; lia). rewrite fill_slots_step by done. clear Hempty.
    set (w := (lo + slot)%nat) in *.
    replace (if decide (slot = 0%nat) then base ⊕ remainder else base) with (share base remainder slot)
      by (unfold share; case_decide; unwrap; done).
    assert (Hshare : 0 <= share base remainder slot < size_modulus) by (unfold share; case_decide; lia).
    destruct (fill_spec (fill_fuel indices) w lo (share base remainder slot) indices consumed 0 st)
      as (is' & c' & st1 & E & Hturn).
    { eapply waiting_wider; [|exact Hw]. lia. }
    { lia. } { lia. } { lia. }
    { unfold fill_fuel. destruct (0 <? _); lia. }
    rewrite E. cbn [obind].
    assert (Hmin : Z.min (share base remainder slot - 0) (to_go indices consumed) = share base remainder slot).
    { rewrite Hgo. unfold share. case_decide; nia. }
    rewrite Hmin in Hturn. destruct Hturn as [(pre & Hpre & Hfin) Hwt Hfr Hto Hhd Htt Hgr].
    set (st2 := mkAssigning (as_transfers st1) (as_totals st1) (<[w:=group]> (as_groups st1))).
    assert (Hw2 : waiting lo (lo + S slot) st2 is' c').
    { replace (lo + S slot)%nat with (S w) by lia. destruct Hwt. by split. }
    assert (Hgo2 : to_go is' c' = Z.of_nat todo * base + (if decide (S slot = 0%nat) then remainder else 0)).
    { rewrite Hto, Hgo. rewrite (decide_False (P := S slot = 0%nat)) by lia. unfold share. case_decide; lia. }
    pose proof (waiting_nothing _ _ _ _ _ Hw2 Hhd) as Hnothing. rewrite Hgo2 in Hnothing.
    rewrite (decide_False (P := S slot = 0%nat)) in Hnothing by lia.
    destruct (IH (S slot) is' c' st2 Hw2) as (st3 & E3 & [Hst3 Hf3 Hfr3 Hts3 Ht3 Hg3 Hsum3]); try done; try lia.
    { rewrite Hnothing. destruct Hprog; [|assert (todo = 0%nat) by lia]; nia. }
    { simpl. rewrite Htt, length_alter. lia. }
    { simpl. by rewrite length_insert, Htt, length_alter, Hgr. }
    rewrite E3. cbn [obind]. exists st3. rewrite (decide_False (P := S todo = 0%nat)) by lia.
    assert (Nat.max (S slot) (if decide (todo = 0%nat) then 0%nat else (S slot + todo)%nat) = (slot + S todo)%nat) as ->
      by (destruct (decide (todo = 0%nat)); lia).
    split; [done|].
    replace (S slot + todo)%nat with (slot + S todo)%nat in * by lia.
    split; try done.
    + rewrite Hpre. apply Forall_app. split; [|done]. apply Forall_forall. intros j Hj.
      rewrite Forall_forall in Hfin. eapply finished_wider; [|apply Hfr3|apply (Hfin j Hj)].
      * lia.
      * pose proof (wt_nodup _ _ _ _ _ Hw) as Hnd. rewrite Hpre in Hnd. apply NoDup_app in Hnd as (_ & Hd & _). by apply Hd.
    + intros j Hj. rewrite Hfr3; [by apply Hfr|]. intros Hj'. apply Hj. rewrite Hpre. apply elem_of_app. by right.
    + intros v. rewrite Ht3. simpl. rewrite Htt. destruct (decide (w = v)) as [<-|Hwv].
      * rewrite list_lookup_alter_eq. destruct (as_totals st !! w); simpl; [|done].
        rewrite decide_False, decide_True by lia. f_equal. f_equal. f_equal. lia.
      * rewrite list_lookup_alter_ne by done. destruct (as_totals st !! v); simpl; [|done]. f_equal.
        repeat case_decide; try done; lia.
    + intros v. rewrite Hg3. simpl. rewrite Hgr. destruct (decide (w = v)) as [<-|Hwv].
      * rewrite list_lookup_insert_eq by lia. destruct (lookup_lt_is_Some_2 (as_groups st) w) as [g ->]; [lia|].
        simpl. rewrite decide_False, decide_True by lia. done.
      * rewrite list_lookup_insert_ne by done. destruct (as_groups st !! v); simpl; [|done]. f_equal.
        repeat case_decide; try done; lia.
    + rewrite Hsum3. simpl as_totals. rewrite Htt, sum64_alter by lia. rewrite (decide_False (P := S slot = 0%nat)) by lia.
      unfold add64, wrap64. rewrite Zplus_mod_idemp_l. f_equal. unfold share.
      replace (slot + S todo - S slot)%nat with todo by lia. replace (slot + S todo - slot)%nat with (S todo) by lia.
      destruct (decide (slot = 0%nat)); lia.
Qed.

(** ** How much each workload gets *)

Lemma bytes_per_worker_spec block group_bytes max_workers :
  0 < block → is_size group_bytes → is_unsigned max_workers →
  let '(base, remainder, workloads) := bytes_per_worker_for block group_bytes max_workers in
  1 <= workloads <= Z.max max_workers 1 ∧ 0 <= base ∧ base mod block = 0 ∧
  workloads * base + remainder = group_bytes ∧ 0 <= remainder < workloads * block ∧
  (0 < base ∨ workloads = 1) ∧ (workloads < max_workers → base <= block).
Proof.
  intros Hb Hg Hm. unfold bytes_per_worker_for.
  set (blocks := group_bytes / block). set (n := Z.max (Z.min blocks max_workers) 1).
  assert (Hblocks : 0 <= blocks) by (apply Z.div_pos; mlia).
  assert (Hn : 1 <= n <= Z.max max_workers 1) by lia.
  replace (wrap32 n) with n by (unwrap; done).
  pose proof (Z.div_mod group_bytes block ltac:(lia)) as Hdiv. fold blocks in Hdiv.
  pose proof (Z.mod_pos_bound group_bytes block Hb) as Hmod.
  pose proof (Z.div_mod blocks n ltac:(lia)) as Hdiv2. pose proof (Z.mod_pos_bound blocks n ltac:(lia)) as Hmod2.
  assert (Hq : 0 <= blocks / n) by (apply Z.div_pos; lia).
  set (q := blocks / n) in *. set (r := blocks mod n) in *.
  assert (Hprod : n * (q * block) <= group_bytes) by nia.
  assert (Hqb : 0 <= q * block <= group_bytes) by nia.
  replace (q ⊗ block) with (q * block) by (unwrap; mlia).
  replace (n ⊗ (q * block)) with (n * (q * block)) by (unwrap; mlia).
  replace (group_bytes ⊖ n * (q * block)) with (group_bytes - n * (q * block)) by (unwrap; mlia).
  split_and!; try lia.
  - apply Z.mod_mul. lia.
  - nia.
  - destruct (decide (n = 1)); [by right|left]. assert (1 <= q) by (subst n; apply Z.div_le_lower_bound; lia). nia.
  - intros Hlt. destruct (decide (blocks <= 1)).
    + assert (q <= 1) by (apply Z.div_le_upper_bound; lia). nia.
    + assert (n = blocks) as Heq by lia. assert (q = 1) as ->; [|lia].
      unfold q. rewrite Heq. apply Z.div_same. lia.
Qed.

(** One group's effect on the state. *)
Record assigned_group (lo n : nat) (group : Z) (indices : list nat) (bytes : Z) (st st' : assigning) : Prop := {
  ag_static : static st';
  ag_finished : Forall (finished lo (lo + n) st') indices;
  ag_frame : ∀ j, j ∉ indices → as_transfers st' !! j = as_transfers st !! j;
  ag_totals_size : Forall is_size (as_totals st');
  ag_totals : ∀ v, (v < lo ∨ lo + n <= v)%nat → as_totals st' !! v = as_totals st !! v;
  ag_groups : ∀ v, as_groups st' !! v = (λ g, if decide (lo <= v < lo + n)%nat then group else g) <$> as_groups st !! v;
  ag_length : length (as_totals st') = length (as_totals st) ∧ length (as_groups st') = length (as_groups st);
  ag_sum : sum64 (as_totals st') = sum64 (as_totals st) ⊕ bytes }.

Lemma lookup_fmap_length {A} (f : nat → A → A) (l k : list A) :
  (∀ v, k !! v = f v <$> l !! v) → length k = length l.
Proof.
  intros H. apply Nat.le_antisymm; apply Nat.nlt_ge; intros Hlt.
  - specialize (H (length l)). rewrite (lookup_ge_None_2 l) in H by lia.
    apply lookup_lt_is_Some_2 in Hlt as [x Hx]. by rewrite Hx in H.
  - specialize (H (length k)). rewrite (lookup_ge_None_2 k) in H by lia.
    apply lookup_lt_is_Some_2 in Hlt as [x Hx]. by rewrite Hx in H.
Qed.

Lemma assign_group_divided block indices workers lo group bytes st :
  0 < block → is_unsigned workers → static st → NoDup indices → Forall (untouched st) indices →
  Forall is_size (as_totals st) → to_go indices 0 = bytes → is_size bytes → indices ≠ [] →
  (lo + Z.to_nat (Z.max workers 1) <= length (as_totals st))%nat →
  length (as_groups st) = length (as_totals st) →
  let '(base, remainder, workloads) := bytes_per_worker_for block bytes workers in
  ∃ st', assign_group block indices workers lo bytes group st = Ret (Z.to_nat workloads, st') ∧
    (0 < Z.to_nat workloads <= Z.to_nat (Z.max workers 1))%nat ∧ Z.of_nat (Z.to_nat workloads) * base + remainder = bytes ∧
    divided lo 0 (Z.to_nat workloads) base remainder group indices st st'.
Proof.
  intros Hb Hw Hs Hnd Hun Htot Hgo Hbytes Hne Hroom Hlen.
  pose proof (bytes_per_worker_spec block bytes workers Hb Hbytes Hw) as Hbpw.
  assert (Eag : assign_group block indices workers lo bytes group st =
    let '(base, remainder, workloads) := bytes_per_worker_for block bytes workers in
    fill_slots (Z.to_nat workloads) 0 lo base remainder group indices 0 st) by (by destruct indices).
  rewrite Eag. destruct (bytes_per_worker_for block bytes workers) as [[base remainder] n].
  destruct Hbpw as (Hn & Hbase & _ & Hsum & Hrem & Hprog & _).
  destruct (fill_slots_spec (Z.to_nat n) lo base remainder group 0 indices 0 st) as (st' & E & Hd); try done; try lia.
  - split; try done. destruct indices as [|i rest]; [done|]. apply Forall_cons in Hun as [(x & Hx & Hxt) Hun].
    split; [|done]. exists x. split; [done|]. split; [by apply partial_zero|by left].
  - unfold is_size in Hbytes. nia.
  - rewrite Z2Nat.id by lia. rewrite Hgo. simpl. lia.
  - split; [done|lia].
  - exists st'. rewrite E. rewrite decide_False by lia. split; [done|]. split; [lia|]. split; [|done].
    rewrite Z2Nat.id by lia. lia.
Qed.

Lemma assign_group_spec block indices workers lo group bytes st :
  0 < block → is_unsigned workers → static st → NoDup indices → Forall (untouched st) indices →
  Forall is_size (as_totals st) → to_go indices 0 = bytes → is_size bytes →
  (lo + Z.to_nat (Z.max workers 1) <= length (as_totals st))%nat →
  length (as_groups st) = length (as_totals st) →
  ∃ n st', assign_group block indices workers lo bytes group st = Ret (n, st') ∧
    (n <= Z.to_nat (Z.max workers 1))%nat ∧ (indices ≠ [] → 0 < n)%nat ∧
    assigned_group lo n group indices bytes st st'.
Proof.
  intros Hb Hw Hs Hnd Hun Htot Hgo Hbytes Hroom Hlen.
  destruct (decide (indices = [])) as [->|Hne].
  { exists 0%nat, st. split; [done|]. split; [lia|]. split; [done|]. change (to_go [] 0) with 0 in Hgo. subst bytes.
    split; try done.
    - intros v. destruct (as_groups st !! v); simpl; [|done]. by rewrite decide_False by lia.
    - rewrite sum64_sumZ. unfold add64. rewrite Z.add_0_r. unfold wrap64. by rewrite Zmod_mod. }
  pose proof (assign_group_divided block indices workers lo group bytes st Hb Hw Hs Hnd Hun Htot Hgo Hbytes Hne Hroom Hlen) as H.
  destruct (bytes_per_worker_for block bytes workers) as [[base remainder] n].
  destruct H as (st' & E & Hn & Hsum & [Hst Hf Hfr Hts Ht Hg Hsm]).
  exists (Z.to_nat n), st'. split; [done|]. split; [lia|]. split; [lia|].
  simpl in *. rewrite !Nat.add_0_r in *. split; try done.
  - intros v Hv. rewrite Ht. destruct (as_totals st !! v); simpl; [|done]. by rewrite decide_False by lia.
  - split; eapply lookup_fmap_length; [exact Ht|exact Hg].
  - rewrite Hsm, Nat.sub_0_r. f_equal. lia.
Qed.

(** ** Which group serves which transfer *)

Context (group_by_file : list Z).

Definition transfer_group (i : nat) : Z :=
  match tr0 !! i with None => -1 | Some x => group_of_file group_by_file (tr_file_index x) end.

(** What group_of_workload reports for it: every negative group is the synchronous pool. *)
Definition served_by (i : nat) : Z := if transfer_group i <? 0 then -1 else transfer_group i.

Definition entry_ok (e : Z * (list nat * Z)) : Prop :=
  0 <= e.1 ∧ Forall (λ i, transfer_group i = e.1) e.2.1 ∧ e.2.2 = wrap64 (sumZ (map size_of e.2.1)) ∧ e.2.1 ≠ [].

Definition indices_of (m : list (Z * (list nat * Z))) : list nat := concat (map (λ e, e.2.1) m).

Lemma wrap_add n l : wrap64 (sumZ l) ⊕ n = wrap64 (sumZ (l ++ [n])).
Proof. rewrite sumZ_app. simpl. rewrite Z.add_0_r. unfold add64, wrap64. by rewrite Zplus_mod_idemp_l. Qed.

Lemma add_to_group_spec g i m : 0 <= g → transfer_group i = g → Forall entry_ok m →
  Forall entry_ok (add_to_group g i (size_of i) m) ∧ indices_of (add_to_group g i (size_of i) m) ≡ₚ i :: indices_of m.
Proof.
  intros Hg Hi. assert (Hnew : entry_ok (g, ([i], 0 ⊕ size_of i))).
  { split_and!; simpl; [done|by constructor| |done]. unfold add64. by rewrite Z.add_0_r. }
  induction m as [|[g' [ids n]] m IH]; intros Hm; simpl.
  - split; [by constructor|done].
  - pose proof Hm as Hm'. apply Forall_cons in Hm' as [(Hg' & Hids & Hn & Hne) Hm']. simpl in *.
    destruct (Z.ltb_spec g g'); [split; [by constructor|done]|].
    destruct (Z.eqb_spec g g') as [->|Hneq].
    + split.
      * constructor; [|done]. split_and!; simpl; [done| | |by destruct ids].
        -- apply Forall_app. split; [done|]. by constructor.
        -- by rewrite Hn, wrap_add, map_app.
      * unfold indices_of. simpl. rewrite <- app_assoc. simpl. symmetry. apply Permutation_middle.
    + destruct (IH Hm') as [IH1 IH2]. split; [by constructor|].
      unfold indices_of in *. simpl. rewrite IH2. symmetry. apply Permutation_middle.
Qed.

Lemma add_to_group_length g i n m : (length (add_to_group g i n m) <= S (length m))%nat.
Proof. induction m as [|[g' [ids n']] m IH]; simpl; [lia|]. repeat case_match; simpl; lia. Qed.

(** The groups partition the transfers; each knows its bytes. *)
Lemma split_groups_spec l : ∀ i sync async,
  (∀ j x, l !! j = Some x → tr0 !! (i + j)%nat = Some x) →
  sync.2 = wrap64 (sumZ (map size_of sync.1)) → Forall (λ j, transfer_group j < 0) sync.1 →
  Forall entry_ok async →
  let '(sync', async') := split_groups group_by_file i l sync async in
  sync'.2 = wrap64 (sumZ (map size_of sync'.1)) ∧ Forall (λ j, transfer_group j < 0) sync'.1 ∧
  Forall entry_ok async' ∧
  sync'.1 ++ indices_of async' ≡ₚ sync.1 ++ indices_of async ++ seq i (length l).
Proof.
  induction l as [|x l IH]; intros i sync async Hl Hs Hsg Ha; simpl.
  { split_and!; [done..|]. by rewrite app_nil_r. }
  pose proof (Hl 0%nat x eq_refl) as Hx. rewrite Nat.add_0_r in Hx.
  assert (Hg : transfer_group i = group_of_file group_by_file (tr_file_index x)) by (unfold transfer_group; by rewrite Hx).
  assert (Hsz : size_of i = tr_size x) by (unfold size_of; by rewrite Hx).
  assert (Hl' : ∀ j y, l !! j = Some y → tr0 !! (S i + j)%nat = Some y).
  { intros j y Hj. replace (S i + j)%nat with (i + S j)%nat by lia. by apply Hl. }
  rewrite <- Hg, <- Hsz. destruct (Z.ltb_spec (transfer_group i) 0) as [Hneg|Hpos].
  - specialize (IH (S i) (sync.1 ++ [i], sync.2 ⊕ size_of i) async Hl').
    destruct (split_groups _ _ _ _ _) as [sync' async']. destruct IH as (H1 & H2 & H3 & H4); simpl.
    + by rewrite Hs, wrap_add, map_app.
    + apply Forall_app. split; [done|]. by constructor.
    + done.
    + split_and!; [done..|]. rewrite H4. simpl. rewrite <- app_assoc. apply Permutation_app_head.
      simpl. apply Permutation_middle.
  - destruct (add_to_group_spec (transfer_group i) i async Hpos eq_refl Ha) as [Ha' Hp].
    specialize (IH (S i) sync (add_to_group (transfer_group i) i (size_of i) async) Hl' Hs Hsg Ha').
    destruct (split_groups _ _ _ _ _) as [sync' async']. destruct IH as (H1 & H2 & H3 & H4).
    split_and!; [done..|]. rewrite H4, Hp. apply Permutation_app_head. simpl. apply Permutation_middle.
Qed.

(** ** All groups *)

(** A transfer whose division is final. *)
Definition settled (n : nat) (st : assigning) (i : nat) : Prop :=
  ∃ x, as_transfers st !! i = Some x ∧ partial 0 n x (tr_size x) ∧ tr_tasks x ≠ [] ∧
       Forall (λ t, as_groups st !! Z.to_nat (frt_workload t) = Some (served_by i)) (tr_tasks x).

Record progress (n : nat) (done todo : list nat) (bytes : Z) (st : assigning) : Prop := {
  pr_static : static st;
  pr_settled : Forall (settled n st) done;
  pr_untouched : Forall (untouched st) todo;
  pr_nodup : NoDup (done ++ todo);
  pr_size : Forall is_size (as_totals st);
  pr_zero : ∀ v t, (n <= v)%nat → as_totals st !! v = Some t → t = 0;
  pr_sum : sum64 (as_totals st) = wrap64 bytes;
  pr_length : length (as_groups st) = length (as_totals st) }.

Lemma partial_lower lo lo' hi x c : (lo' <= lo)%nat → partial lo hi x c → partial lo' hi x c.
Proof. intros Hh [? ? ? Hw]. split; try done. eapply Forall_impl; [exact Hw|]. simpl. lia. Qed.

Lemma settled_mono n m lo k group indices bytes st st' i :
  assigned_group lo k group indices bytes st st' → i ∉ indices → (n <= lo)%nat → (n <= m)%nat →
  settled n st i → settled m st' i.
Proof.
  intros Hag Hi Hn Hm (x & Hx & Hp & Hne & Hg). exists x. rewrite (ag_frame _ _ _ _ _ _ _ Hag) by done.
  split; [done|]. split; [by eapply partial_wider|]. split; [done|].
  pose proof (pt_workloads _ _ _ _ Hp) as Hw. rewrite Forall_forall in *. intros t Ht.
  rewrite (ag_groups _ _ _ _ _ _ _ Hag), (Hg t Ht). simpl. specialize (Hw t Ht). simpl in Hw.
  by rewrite decide_False by lia.
Qed.

Lemma finished_settled lo k group indices bytes st st' i :
  assigned_group lo k group indices bytes st st' → i ∈ indices → served_by i = group →
  (lo + k <= length (as_groups st'))%nat → settled (lo + k) st' i.
Proof.
  intros Hag Hi Hs Hlen. pose proof (ag_finished _ _ _ _ _ _ _ Hag) as Hf. rewrite Forall_forall in Hf.
  destruct (Hf i Hi) as (x & Hx & Hp & Hne). exists x. split; [done|].
  split; [eapply partial_lower; [|done]; lia|]. split; [done|].
  pose proof (pt_workloads _ _ _ _ Hp) as Hw. eapply Forall_impl; [exact Hw|]. simpl. intros t Ht.
  rewrite (ag_groups _ _ _ _ _ _ _ Hag). destruct (ag_length _ _ _ _ _ _ _ Hag) as [_ Hl].
  destruct (lookup_lt_is_Some_2 (as_groups st) (Z.to_nat (frt_workload t))) as [g ->]; [lia|].
  simpl. rewrite decide_True by lia. by rewrite Hs.
Qed.

(** One group's turn. *)
Lemma progress_group n ids rest bytes st block workers group :
  progress n rest ids bytes st →
  0 < block → is_unsigned workers → Forall (λ i, served_by i = group) ids → sumZ (map size_of ids) < size_modulus →
  (n + Z.to_nat (Z.max workers 1) <= length (as_totals st))%nat →
  ∃ k st', assign_group block ids workers n (wrap64 (sumZ (map size_of ids))) group st = Ret (k, st') ∧
    (k <= Z.to_nat (Z.max workers 1))%nat ∧ (ids ≠ [] → 0 < k)%nat ∧ length (as_totals st') = length (as_totals st) ∧
    progress (n + k) (rest ++ ids) [] (bytes + sumZ (map size_of ids)) st' ∧
    (∀ j, j ∉ ids → as_transfers st' !! j = as_transfers st !! j).
Proof.
  intros [Hs Hset Hun Hnd Hsz Hz Hsum Hlen] Hb Hw Hser Hbytes Hroom.
  apply NoDup_app in Hnd as (Hnd1 & Hdisj & Hnd2). pose proof (sum_sizes_nonneg ids).
  assert (Hwrap : wrap64 (sumZ (map size_of ids)) = sumZ (map size_of ids)) by (unwrap; done).
  destruct (assign_group_spec block ids workers n group (sumZ (map size_of ids)) st Hb Hw Hs Hnd2 Hun Hsz)
    as (k & st' & E & Hk & Hk0 & Hag); [unfold to_go; lia|done|done|done|].
  exists k, st'. rewrite Hwrap. split; [done|]. split; [done|]. split; [done|].
  destruct (ag_length _ _ _ _ _ _ _ Hag) as [Hl1 Hl2]. split; [done|]. split; [|apply Hag].
  split.
  - apply Hag.
  - apply Forall_app. split.
    + rewrite Forall_forall in Hset. apply Forall_forall. intros i Hi.
      eapply settled_mono; [exact Hag|by apply Hdisj|done|lia|by apply Hset].
    + rewrite Forall_forall in Hser. apply Forall_forall. intros i Hi.
      eapply finished_settled; [exact Hag|done|by apply Hser|lia].
  - constructor.
  - rewrite app_nil_r. by apply NoDup_app.
  - apply Hag.
  - intros v t Hv. rewrite (ag_totals _ _ _ _ _ _ _ Hag) by lia. apply Hz. lia.
  - rewrite (ag_sum _ _ _ _ _ _ _ Hag), Hsum. unfold add64, wrap64. by rewrite Zplus_mod_idemp_l.
  - lia.
Qed.

(** The same with other groups still waiting. *)
Lemma progress_next n settled0 ids rest bytes st block workers group :
  progress n settled0 (ids ++ rest) bytes st →
  0 < block → is_unsigned workers → Forall (λ i, served_by i = group) ids → sumZ (map size_of ids) < size_modulus →
  (n + Z.to_nat (Z.max workers 1) <= length (as_totals st))%nat →
  ∃ k st', assign_group block ids workers n (wrap64 (sumZ (map size_of ids))) group st = Ret (k, st') ∧
    (k <= Z.to_nat (Z.max workers 1))%nat ∧ (ids ≠ [] → 0 < k)%nat ∧ length (as_totals st') = length (as_totals st) ∧
    progress (n + k) (settled0 ++ ids) rest (bytes + sumZ (map size_of ids)) st'.
Proof.
  intros [Hs Hset Hun Hnd Hsz Hz Hsum Hlen] Hb Hw Hser Hbytes Hroom.
  apply Forall_app in Hun as [Hun1 Hun2]. rewrite app_assoc in Hnd.
  pose proof Hnd as (Hnd1 & Hdisj & _)%NoDup_app.
  destruct (progress_group n ids settled0 bytes st block workers group) as (k & st' & E & Hk & Hk0 & Hl & [] & Hframe);
    [by split|done..|].
  exists k, st'. split_and!; [done..|]. split; try done.
  rewrite Forall_forall in *. intros i Hi. destruct (Hun2 i Hi) as (x & Hx & Hxt).
  exists x. rewrite Hframe; [done|]. intros Hi'. apply (Hdisj i); [|done]. apply elem_of_app. by right.
Qed.

Lemma assign_async_spec block groups : ∀ n settled0 bytes st,
  0 < block → Forall entry_ok groups → progress n settled0 (indices_of groups) bytes st →
  sumZ (map size_of (indices_of groups)) < size_modulus →
  (n + length groups <= length (as_totals st))%nat →
  ∃ n' st', assign_async block groups n st = Ret (n', st') ∧ n' = (n + length groups)%nat ∧
    length (as_totals st') = length (as_totals st) ∧
    progress n' (settled0 ++ indices_of groups) [] (bytes + sumZ (map size_of (indices_of groups))) st'.
Proof.
  induction groups as [|[g [ids nb]] groups IH]; intros n settled0 bytes st Hb Hok Hp Hlt Hroom; simpl in *.
  - exists n, st. split; [done|]. split; [lia|]. split; [done|]. rewrite app_nil_r. by rewrite Z.add_0_r.
  - apply Forall_cons in Hok as [(Hg & Hids & Hnb & Hne) Hok]. simpl in *. subst nb.
    change (indices_of ((g, (ids, wrap64 (sumZ (map size_of ids)))) :: groups)) with (ids ++ indices_of groups) in *.
    rewrite map_app, sumZ_app in *. pose proof (sum_sizes_nonneg (indices_of groups)). pose proof (sum_sizes_nonneg ids).
    destruct (progress_next n settled0 ids (indices_of groups) bytes st block 1 g Hp Hb) as (k & st1 & -> & Hk & Hk0 & Hl & Hp1);
      [by split|..|lia|simpl; lia|].
    { eapply Forall_impl; [exact Hids|]. intros i Hi. unfold served_by. by rewrite Hi, (proj2 (Z.ltb_ge _ _)). }
    specialize (Hk0 Hne). simpl in Hk. cbn [obind].
    destruct (IH (n + k)%nat (settled0 ++ ids) (bytes + sumZ (map size_of ids)) st1 Hb Hok Hp1)
      as (n' & st2 & E & Hn' & Hl2 & Hp2); [lia|lia|].
    exists n', st2. split; [done|]. split; [lia|]. split; [congruence|].
    by rewrite <- app_assoc, <- Z.add_assoc in Hp2.
Qed.

Lemma sum64_resize n (l : list Z) : (∀ v t, (n <= v)%nat → l !! v = Some t → t = 0) → (n <= length l)%nat →
  sum64 (resize n 0 l) = sum64 l.
Proof.
  intros Hz Hn. rewrite resize_le by done. rewrite !sum64_sumZ. f_equal.
  rewrite <- (take_drop n l) at 2. rewrite sumZ_app.
  assert (sumZ (drop n l) = 0) as ->; [|lia].
  assert (Forall (λ t, t = 0) (drop n l)) as Hd.
  { apply Forall_lookup. intros v t Ht. rewrite lookup_drop in Ht. apply (Hz (n + v)%nat); [lia|done]. }
  induction Hd as [|t l' -> _ IH]; [done|]. simpl. by rewrite IH.
Qed.

(** What a submission relies on. *)
Record divided_all (n : nat) (st : assigning) : Prop := {
  da_transfers : ∀ i x0, tr0 !! i = Some x0 → ∃ x, as_transfers st !! i = Some x ∧ erase x = x0 ∧ sliced x ∧
     Forall (λ t, 0 <= frt_workload t < Z.of_nat n ∧
                  group_of_workload (as_groups st) (frt_workload t) = served_by i) (tr_tasks x);
  da_same : length (as_transfers st) = length tr0;
  da_groups : length (as_groups st) = n;
  da_totals : length (as_totals st) = n }.

Lemma settled_sliced n st i : settled n st i → ∃ x, as_transfers st !! i = Some x ∧ sliced x ∧
  Forall (λ t, 0 <= frt_workload t < Z.of_nat n ∧ as_groups st !! Z.to_nat (frt_workload t) = Some (served_by i)) (tr_tasks x).
Proof.
  intros (x & Hx & [Ht Hl Hf Hw] & Hne & Hg). exists x. split; [done|]. split; [by split|].
  rewrite Forall_forall in *. intros t Hin. split; [apply (Hw t Hin)|by apply Hg].
Qed.

Lemma covered_sliced x : sliced x → 0 <= tr_size x < size_modulus → covered x = true.
Proof.
  intros [Ht _ _ _] Hs. unfold covered. apply Z.eqb_eq. rewrite sum64_sumZ. pose proof (tiles_end _ _ _ _ _ Ht). unwrap. lia.
Qed.

Lemma sizes_seq : map size_of (seq 0 (length tr0)) = map tr_size tr0.
Proof.
  apply list_eq. intros i. rewrite !list_lookup_fmap. destruct (decide (i < length tr0)%nat).
  - rewrite lookup_seq_lt by done. simpl. unfold size_of.
    destruct (lookup_lt_is_Some_2 tr0 i) as [x ->]; done.
  - by rewrite !lookup_ge_None_2 by (rewrite ?length_seq; lia).
Qed.

(** Before anything is assigned. *)
Lemma progress_initial todo ceiling : todo ≡ₚ seq 0 (length tr0) →
  progress 0 [] todo 0 (mkAssigning tr0 (replicate ceiling 0) (replicate ceiling (-1))).
Proof.
  intros Hp. rewrite Forall_lookup in Hvalid. split; simpl.
  - intros i. simpl. destruct (tr0 !! i) as [x|] eqn:Hx; [|done]. simpl. f_equal.
    destruct (Hvalid _ _ Hx) as (_ & _ & _ & Ht). destruct x; simpl in *. by subst.
  - constructor.
  - rewrite Forall_forall. intros i Hi. rewrite Hp in Hi. apply elem_of_seq in Hi.
    destruct (lookup_lt_is_Some_2 tr0 i) as [x Hx]; [lia|]. exists x. split; [done|]. by destruct (Hvalid _ _ Hx) as (_ & _ & _ & ?).
  - rewrite Hp. apply NoDup_seq.
  - apply Forall_replicate. done.
  - intros v t _ Ht. by apply lookup_replicate in Ht as [? _].
  - rewrite sum64_sumZ. f_equal. induction ceiling; simpl in *; lia.
  - by rewrite !length_replicate.
Qed.

Lemma assign_spec block workers total : tr0 ≠ [] → 0 < block → is_unsigned workers →
  sumZ (map tr_size tr0) = total → total < size_modulus →
  ∃ n st, assign block workers group_by_file total tr0 = Ret (n, st) ∧ divided_all n st ∧ (0 < n)%nat.
Proof.
  intros Hne Hb Hw Htotal Hlt. unfold assign.
  pose proof (split_groups_spec tr0 0 ([], 0) []) as Hsplit.
  destruct (split_groups group_by_file 0 tr0 ([], 0) []) as [[sy sb] asy].
  destruct Hsplit as (Hsb & Hneg & Hok & Hperm); try done. simpl in Hsb, Hneg, Hperm. subst sb.
  assert (Hsum : sumZ (map size_of sy) + sumZ (map size_of (indices_of asy)) = total)
    by (rewrite <- sumZ_app, <- map_app, Hperm, sizes_seq; done).
  pose proof (sum_sizes_nonneg sy). pose proof (sum_sizes_nonneg (indices_of asy)).
  set (ceiling := (Z.to_nat workers + length asy + 1)%nat).
  destruct (progress_next 0 [] sy (indices_of asy) 0 _ block workers (-1) (progress_initial (sy ++ indices_of asy) ceiling Hperm) Hb Hw)
    as (k & st1 & -> & Hk & Hk0 & Hl1 & Hp1).
  { eapply Forall_impl; [exact Hneg|]. intros i Hi. unfold served_by. by rewrite (proj2 (Z.ltb_lt _ _)). }
  { lia. }
  { simpl. rewrite length_replicate. lia. }
  simpl in Hl1. rewrite length_replicate in Hl1. cbn [obind].
  destruct (assign_async_spec block asy (0 + k) ([] ++ sy) _ st1 Hb Hok Hp1) as (n & st2 & E & -> & Hl2 & Hp2); [lia|lia|].
  simpl in E. rewrite E. cbn [obind]. simpl in Hp2.
  assert (Hn : (0 < k + length asy)%nat).
  { destruct sy as [|i sy]; [|specialize (Hk0 ltac:(done)); lia]. destruct asy; [|simpl; lia].
    simpl in Hperm. apply Permutation_nil_l in Hperm. destruct tr0; [done|discriminate]. }
  replace (Nat.max (k + length asy) 1) with (k + length asy)%nat by lia.
  set (n := (k + length asy)%nat) in *.
  destruct Hp2 as [Hs2 Hset2 _ _ Hsz2 Hz2 Hsum2 Hlen2].
  set (st := mkAssigning (as_transfers st2) (resize n 0 (as_totals st2)) (resize n (-1) (as_groups st2))).
  assert (Hdiv : ∀ i x0, tr0 !! i = Some x0 → ∃ x, as_transfers st !! i = Some x ∧ erase x = x0 ∧ sliced x ∧
     Forall (λ t, 0 <= frt_workload t < Z.of_nat n ∧
                  group_of_workload (as_groups st) (frt_workload t) = served_by i) (tr_tasks x)).
  { intros i x0 Hx0. rewrite Forall_forall in Hset2.
    assert (Hin : i ∈ sy ++ indices_of asy).
    { rewrite Hperm. apply elem_of_seq. apply lookup_lt_Some in Hx0. lia. }
    destruct (settled_sliced _ _ _ (Hset2 i Hin)) as (x & Hx & Hsl & Hwk). exists x. split; [done|].
    specialize (Hs2 i). rewrite Hx, Hx0 in Hs2. injection Hs2 as He. split; [done|]. split; [done|].
    eapply Forall_impl; [exact Hwk|]. intros t [Hr Hg]. split; [done|]. unfold group_of_workload. simpl.
    rewrite lookup_resize by lia. by rewrite Hg. }
  assert (Hsame : length (as_transfers st) = length tr0).
  { apply Nat.le_antisymm; apply Nat.nlt_ge; intros Hlt2.
    - apply lookup_lt_is_Some_2 in Hlt2 as [y Hy]. specialize (Hs2 (length tr0)). simpl in Hy.
      rewrite Hy, lookup_ge_None_2 in Hs2 by lia. done.
    - apply lookup_lt_is_Some_2 in Hlt2 as [y Hy]. destruct (Hdiv _ _ Hy) as (x & Hx & _).
      apply lookup_lt_Some in Hx. lia. }
  exists n, st. split; [|split; [|done]].
  - change (as_totals st) with (resize n 0 (as_totals st2)). rewrite sum64_resize, Hsum2 by (done || lia). rewrite ASSERT_true.
    + cbn [obind]. rewrite ASSERT_true; [done|]. apply forallb_forall. intros x Hx.
      apply list_elem_of_In, list_elem_of_lookup in Hx as [i Hi].
      destruct (lookup_lt_is_Some_2 tr0 i) as [x0 Hx0]; [rewrite <- Hsame; by eapply lookup_lt_Some|].
      destruct (Hdiv _ _ Hx0) as (x' & Hx' & He & Hsl & _). assert (x' = x) as -> by congruence. subst x0.
      apply covered_sliced; [done|]. rewrite Forall_lookup in Hvalid. destruct (Hvalid _ _ Hx0) as (? & ? & ? & _).
      simpl in *. lia.
    + apply Z.eqb_eq. unwrap. lia.
  - split; [done|done| |]; simpl; by rewrite length_resize.
Qed.
End Groups.

(** ** Coalescing *)

Definition valid_range (r : ReadRange) : Prop :=
  0 <= rr_offset r ∧ 0 <= rr_size r ∧ rr_offset r + rr_size r < size_modulus.

(** A transfer stands for the ranges [rs]: they tile it, in the file and in memory. *)
Record covers_ranges (x : ContiguousTransfer) (rs : list ReadRange) : Prop := {
  cr_sizes : tr_range_sizes x = map rr_size rs;
  cr_tiles : tiles rr_offset rr_size (tr_offset x) rs (tr_offset x + tr_size x);
  cr_lockstep : Forall (λ r, rr_dst r = tr_destination x + (rr_offset r - tr_offset x)) rs;
  cr_some : rs ≠ [];
  cr_tasks : tr_tasks x = [] }.

(** One file's ranges, from number [i] on, partitioned into transfers, none of which could have been
    extended by the range after it. *)
Inductive coalesced (file_index : Z) : Z → list ReadRange → list ContiguousTransfer → Prop :=
| coalesced_nil i : coalesced file_index i [] []
| coalesced_cons i rs1 rs2 x xs :
    covers_ranges x rs1 → tr_file_index x = file_index → tr_first_range_index x = i →
    (∀ r rest, rs2 = r :: rest → adjacent x r = false) →
    coalesced file_index (i + Z.of_nat (length rs1)) rs2 xs →
    coalesced file_index i (rs1 ++ rs2) (x :: xs).

Inductive coalesced_files : Z → list FileRanges → list ContiguousTransfer → Prop :=
| coalesced_files_nil f : coalesced_files f [] []
| coalesced_files_cons f file request xs1 xs2 :
    coalesced f 0 (fr_ranges file) xs1 → coalesced_files (f + 1) request xs2 →
    coalesced_files f (file :: request) (xs1 ++ xs2).

Definition bytes_of (rs : list ReadRange) : Z := sumZ (map rr_size rs).
Definition request_bytes (request : list FileRanges) : Z := sumZ (map (λ f, bytes_of (fr_ranges f)) request).

Lemma covers_open f i r : valid_range r → covers_ranges (open_transfer f i r) [r].
Proof.
  intros (? & ? & ?). split; simpl; try done.
  - constructor; [done|done|constructor].
  - constructor; [|constructor]. lia.
Qed.

Lemma covers_bound x rs : covers_ranges x rs → Forall valid_range rs →
  0 <= tr_offset x ∧ 0 <= tr_size x ∧ tr_offset x + tr_size x < size_modulus.
Proof.
  intros [_ Ht _ Hne _] Hv. destruct rs as [|r rs _] using rev_ind; [done|].
  apply Forall_app in Hv as [Hv1 Hv2]. apply Forall_singleton in Hv2 as (? & ? & ?).
  pose proof (tiles_le _ _ _ _ _ Ht). apply tiles_snoc_inv in Ht as (Ht & ? & ->).
  destruct rs as [|r0 rs]; [apply tiles_nil_inv in Ht; lia|].
  apply tiles_cons_inv in Ht as (<- & _ & _). apply Forall_cons in Hv1 as [(? & ? & ?) _]. lia.
Qed.

Lemma covers_extend x rs r : covers_ranges x rs → Forall valid_range rs → valid_range r → adjacent x r = true →
  covers_ranges (extend_transfer x r) (rs ++ [r]).
Proof.
  intros Hc Hv (Hr1 & Hr2 & Hr3) Hadj. destruct (covers_bound _ _ Hc Hv) as (Ho & Hs & Hb). destruct Hc as [Hsz Ht Hl Hne Htk].
  unfold adjacent in Hadj. apply andb_true_iff in Hadj as [Ho1%Z.eqb_eq Hd1%Z.eqb_eq]. unwrap_in Ho1.
  split; simpl; try done.
  - by rewrite Hsz, map_app.
  - unwrap. rewrite Z.add_assoc. apply tiles_snoc; [done|lia|done].
  - apply Forall_app. split; [done|]. apply Forall_singleton. lia.
  - by destruct rs.
Qed.

(** The overflow test is exact. *)
Lemma total_overflow total size : 0 <= total < size_modulus → 0 <= size < size_modulus →
  (total >? (size_modulus - 1) ⊖ size) = negb (total + size <? size_modulus).
Proof.
  intros Ht Hs. unwrap. rewrite Z.gtb_ltb. apply eq_true_iff_eq. rewrite negb_true_iff, Z.ltb_lt, Z.ltb_ge. lia.
Qed.

Lemma bytes_of_nonneg rs : Forall valid_range rs → 0 <= bytes_of rs.
Proof. intros H. apply sumZ_nonneg, Forall_map. eapply Forall_impl; [exact H|]. by intros r (_ & ? & _). Qed.

Lemma coalesce_open f rs : ∀ i total x rest prev,
  Forall valid_range prev → Forall valid_range rs → covers_ranges x prev → tr_file_index x = f →
  tr_first_range_index x = i - Z.of_nat (length prev) → 0 <= i → i + Z.of_nat (length rs) < unsigned_modulus →
  0 <= total < size_modulus →
  if total + bytes_of rs <? size_modulus
  then ∃ xs, coalesce_file f i rs true total (x :: rest) = Ret (total + bytes_of rs, reverse xs ++ rest) ∧
             coalesced f (i - Z.of_nat (length prev)) (prev ++ rs) xs
  else coalesce_file f i rs true total (x :: rest) = Throw (Code InvalidParameterError).
Proof.
  induction rs as [|r rs IH]; intros i total x rest prev Hvp Hv Hc Hf Hi Hi0 Hlen Ht.
  - change (bytes_of []) with 0. rewrite Z.add_0_r, (proj2 (Z.ltb_lt _ _)) by lia. exists [x]. split; [done|].
    apply coalesced_cons; try done. constructor.
  - apply Forall_cons in Hv as [Hr Hv]. pose proof (bytes_of_nonneg rs Hv) as Hb. simpl coalesce_file.
    change (bytes_of (r :: rs)) with (rr_size r + bytes_of rs). destruct (Hr) as (Hr1 & Hr2 & Hr3).
    rewrite total_overflow by lia. destruct (Z.ltb_spec (total + rr_size r) size_modulus) as [Hfit|Hover]; simpl;
      [|by rewrite (proj2 (Z.ltb_ge _ _)) by lia].
    replace (total ⊕ rr_size r) with (total + rr_size r) by (unwrap; done).
    simpl in Hlen. replace (add32 i 1) with (i + 1) by (unwrap; done).
    rewrite Z.add_assoc. destruct (adjacent x r) eqn:Hadj.
    + specialize (IH (i + 1) (total + rr_size r) (extend_transfer x r) rest (prev ++ [r])).
      rewrite length_app in IH. simpl in IH. replace (i + 1 - _) with (i - Z.of_nat (length prev)) in IH by lia.
      rewrite <- app_assoc in IH. apply IH; try done; try lia.
      * apply Forall_app. split; [done|]. by constructor.
      * by apply covers_extend.
    + specialize (IH (i + 1) (total + rr_size r) (open_transfer f i r) (x :: rest) [r]). simpl in IH.
      replace (i + 1 - Z.of_nat 1) with i in IH by lia.
      assert (H : if total + rr_size r + bytes_of rs <? size_modulus
        then ∃ xs, coalesce_file f (i + 1) rs true (total + rr_size r) (open_transfer f i r :: x :: rest)
                   = Ret (total + rr_size r + bytes_of rs, reverse xs ++ x :: rest) ∧ coalesced f i (r :: rs) xs
        else coalesce_file f (i + 1) rs true (total + rr_size r) (open_transfer f i r :: x :: rest)
             = Throw (Code InvalidParameterError)).
      { apply IH; try done; try lia; [by constructor|by apply covers_open]. }
      destruct (_ <? _); [|done]. destruct H as (xs & E & Hco). exists (x :: xs).
      rewrite E, reverse_cons, <- app_assoc. split; [done|].
      constructor; try done.
      * intros r' rest' [= <- <-]. done.
      * by replace (i - Z.of_nat (length prev) + Z.of_nat (length prev)) with i by lia.
Qed.

Lemma coalesce_file_spec f rs total rest :
  Forall valid_range rs → Z.of_nat (length rs) < unsigned_modulus → 0 <= total < size_modulus →
  if total + bytes_of rs <? size_modulus
  then ∃ xs, coalesce_file f 0 rs false total rest = Ret (total + bytes_of rs, reverse xs ++ rest) ∧
             coalesced f 0 rs xs
  else coalesce_file f 0 rs false total rest = Throw (Code InvalidParameterError).
Proof.
  intros Hv Hlen Ht. destruct rs as [|r rs].
  - change (bytes_of []) with 0. rewrite Z.add_0_r, (proj2 (Z.ltb_lt _ _)) by lia. exists []. split; [done|constructor].
  - apply Forall_cons in Hv as [Hr Hv]. pose proof (bytes_of_nonneg rs Hv) as Hb. simpl coalesce_file.
    change (bytes_of (r :: rs)) with (rr_size r + bytes_of rs). destruct (Hr) as (Hr1 & Hr2 & Hr3).
    rewrite total_overflow by lia. destruct (Z.ltb_spec (total + rr_size r) size_modulus) as [Hfit|Hover]; simpl;
      [|by rewrite (proj2 (Z.ltb_ge _ _)) by lia].
    replace (total ⊕ rr_size r) with (total + rr_size r) by (unwrap; done).
    rewrite Z.add_assoc. replace (add32 0 1) with 1 by done. simpl in Hlen.
    apply (coalesce_open f rs 1 (total + rr_size r) (open_transfer f 0 r) rest [r]); try done; try lia;
      [by constructor|by apply covers_open].
Qed.

Definition valid_request (request : list FileRanges) : Prop :=
  Forall (λ f, Forall valid_range (fr_ranges f) ∧ Z.of_nat (length (fr_ranges f)) < unsigned_modulus) request.

Lemma request_bytes_nonneg request : valid_request request → 0 <= request_bytes request.
Proof.
  intros H. apply sumZ_nonneg, Forall_map. eapply Forall_impl; [exact H|]. intros f [? _]. by apply bytes_of_nonneg.
Qed.

Lemma coalesce_files_spec request : ∀ f total rest,
  valid_request request → 0 <= f → f + Z.of_nat (length request) < unsigned_modulus → 0 <= total < size_modulus →
  if total + request_bytes request <? size_modulus
  then ∃ xs, coalesce_files f request total rest = Ret (total + request_bytes request, reverse xs ++ rest) ∧
             coalesced_files f request xs
  else coalesce_files f request total rest = Throw (Code InvalidParameterError).
Proof.
  induction request as [|file request IH]; intros f total rest Hv Hf Hlen Ht.
  - change (request_bytes []) with 0. rewrite Z.add_0_r, (proj2 (Z.ltb_lt _ _)) by lia. exists []. split; [done|constructor].
  - apply Forall_cons in Hv as [[Hr Hrl] Hv]. pose proof (request_bytes_nonneg _ Hv) as Hb.
    change (request_bytes (file :: request)) with (bytes_of (fr_ranges file) + request_bytes request).
    simpl. simpl in Hlen. pose proof (coalesce_file_spec f (fr_ranges file) total rest Hr Hrl Ht) as H1.
    pose proof (bytes_of_nonneg _ Hr).
    destruct (Z.ltb_spec (total + bytes_of (fr_ranges file)) size_modulus) as [Hfit|Hover].
    + destruct H1 as (xs1 & -> & Hc1). cbn [obind]. replace (add32 f 1) with (f + 1) by (unwrap; done).
      specialize (IH (f + 1) (total + bytes_of (fr_ranges file)) (reverse xs1 ++ rest) Hv ltac:(lia) ltac:(lia) ltac:(lia)).
      rewrite Z.add_assoc. destruct (_ <? _); [|done]. destruct IH as (xs2 & -> & Hc2).
      exists (xs1 ++ xs2). rewrite reverse_app, <- app_assoc. split; [done|]. by constructor.
    + rewrite H1. simpl. by rewrite (proj2 (Z.ltb_ge _ _)) by lia.
Qed.

Lemma coalesced_valid f i rs xs : coalesced f i rs xs → Forall valid_range rs →
  Forall valid xs ∧ sumZ (map tr_size xs) = bytes_of rs.
Proof.
  induction 1 as [|i rs1 rs2 x xs Hc Hf Hi _ _ IH]; intros Hv; [by split|].
  apply Forall_app in Hv as [Hv1 Hv2]. destruct (IH Hv2) as [IH1 IH2]. split.
  - constructor; [|done]. destruct (covers_bound _ _ Hc Hv1) as (? & ? & ?). split_and!; try done. apply Hc.
  - simpl. rewrite IH2. unfold bytes_of. rewrite map_app, sumZ_app. f_equal.
    pose proof (tiles_end _ _ _ _ _ (cr_tiles _ _ Hc)). lia.
Qed.

Lemma coalesced_files_valid f request xs : coalesced_files f request xs → valid_request request →
  Forall valid xs ∧ sumZ (map tr_size xs) = request_bytes request.
Proof.
  induction 1 as [|f file request xs1 xs2 Hc _ IH]; intros Hv; [by split|].
  apply Forall_cons in Hv as [[Hr _] Hv]. destruct (IH Hv) as [H1 H2]. destruct (coalesced_valid _ _ _ _ Hc Hr) as [H3 H4].
  split; [by apply Forall_app|]. rewrite map_app, sumZ_app, H2, H4. done.
Qed.

Lemma coalesce_spec request : valid_request request → Z.of_nat (length request) < unsigned_modulus →
  if request_bytes request <? size_modulus
  then ∃ xs, coalesce request = Ret (request_bytes request, xs) ∧ coalesced_files 0 request xs
  else coalesce request = Throw (Code InvalidParameterError).
Proof.
  intros Hv Hl. unfold coalesce. pose proof (coalesce_files_spec request 0 0 [] Hv ltac:(lia) ltac:(lia) ltac:(done)) as H.
  simpl in H. destruct (_ <? _); [|by rewrite H]. destruct H as (xs & -> & Hc). exists xs. simpl.
  by rewrite app_nil_r, reverse_involutive.
Qed.

Record config_ok (c : AssignerConfig) : Prop := {
  ck_concurrency : is_unsigned (ac_concurrency c);
  ck_s3_concurrency : is_unsigned (ac_s3_concurrency c);
  ck_s3_block : 0 < ac_s3_block_bytesize c;
  ck_fs_block : 0 < ac_fs_block_bytesize c }.

Lemma assigner_spec is_uri config group_by_file request :
  config_ok config → valid_request request → Z.of_nat (length request) < unsigned_modulus →
  if request_bytes request <? size_modulus
  then ∃ xs n st, assigner is_uri config group_by_file request = Ret (n, st) ∧
         coalesced_files 0 request xs ∧ divided_all xs group_by_file n st
  else assigner is_uri config group_by_file request = Throw (Code InvalidParameterError).
Proof.
  intros [Hc1 Hc2 Hc3 Hc4] Hv Hl.
  assert (Hnil : ∀ g, divided_all [] g 0 (mkAssigning [] [] [])) by (by split).
  pose proof (coalesce_spec request Hv Hl) as Hco. unfold assigner.
  destruct request as [|file request].
  { exists [], 0%nat, (mkAssigning [] [] []). split; [done|]. split; [constructor|done]. }
  set (rq := file :: request) in *. clearbody rq. destruct (Z.ltb_spec (request_bytes rq) size_modulus) as [Hfit|_].
  - destruct Hco as (xs & -> & Hxs). cbn [obind]. destruct (coalesced_files_valid _ _ _ Hxs Hv) as [Hvalid Hsum].
    destruct (decide (xs = [])) as [->|Hne]; [exists [], 0%nat, (mkAssigning [] [] []); done|].
    destruct (assign_spec xs Hvalid group_by_file
      (if check_object_storage is_uri rq then ac_s3_block_bytesize config else ac_fs_block_bytesize config)
      (if check_object_storage is_uri rq then ac_s3_concurrency config else ac_concurrency config)
      (request_bytes rq)) as (n & st & E & Hd & _); try done; [by case_match..|].
    exists xs, n, st. split; [|done]. rewrite <- E. by destruct xs.
  - by rewrite Hco.
Qed.

(** What a coalesced list says of each transfer and each range. *)
Lemma coalesced_elem f i rs xs x : coalesced f i rs xs → x ∈ xs →
  ∃ rs1, covers_ranges x rs1 ∧ tr_file_index x = f ∧ (∀ r, r ∈ rs1 → r ∈ rs) ∧
    i <= tr_first_range_index x ∧ tr_first_range_index x + Z.of_nat (length rs1) <= i + Z.of_nat (length rs).
Proof.
  induction 1 as [|i rs1 rs2 y xs Hc Hf Hi _ _ IH]; [by intros ?%not_elem_of_nil|].
  rewrite length_app. intros [->|Hx]%elem_of_cons.
  - exists rs1. split_and!; [done|done| |lia|lia]. intros r Hr. apply elem_of_app. by left.
  - destruct (IH Hx) as (rs' & ? & ? & Hin & ? & ?). exists rs'. split_and!; [done|done| |lia|lia].
    intros r Hr. apply elem_of_app. right. by apply Hin.
Qed.

Lemma coalesced_range f i rs xs j r : coalesced f i rs xs → rs !! j = Some r →
  ∃ x rs1 k, x ∈ xs ∧ covers_ranges x rs1 ∧ rs1 !! k = Some r ∧ tr_file_index x = f ∧
    tr_first_range_index x + Z.of_nat k = i + Z.of_nat j.
Proof.
  intros H. revert j. induction H as [|i rs1 rs2 y xs Hc Hf Hi _ _ IH]; intros j Hj; [done|].
  destruct (decide (j < length rs1)%nat) as [Hlt|Hge].
  - rewrite lookup_app_l in Hj by done. exists y, rs1, j. split_and!; [by left|done|done|done|lia].
  - rewrite lookup_app_r in Hj by lia. destruct (IH _ Hj) as (x & rs' & k & ? & ? & ? & ? & ?).
    exists x, rs', k. split_and!; [by right|done|done|done|lia].
Qed.

Lemma coalesced_count f i rs xs : coalesced f i rs xs → length (concat (map tr_range_sizes xs)) = length rs.
Proof.
  induction 1 as [|i rs1 rs2 y xs Hc _ _ _ _ IH]; [done|]. simpl. rewrite !length_app, IH, (cr_sizes _ _ Hc).
  by rewrite length_map.
Qed.

Lemma coalesced_files_elem f request xs x : coalesced_files f request xs → x ∈ xs →
  ∃ n file rs1, request !! n = Some file ∧ tr_file_index x = f + Z.of_nat n ∧ covers_ranges x rs1 ∧
    (∀ r, r ∈ rs1 → r ∈ fr_ranges file) ∧ 0 <= tr_first_range_index x ∧
    tr_first_range_index x + Z.of_nat (length rs1) <= Z.of_nat (length (fr_ranges file)).
Proof.
  induction 1 as [|f file request xs1 xs2 Hc _ IH]; [by intros ?%not_elem_of_nil|].
  intros [Hx|Hx]%elem_of_app.
  - destruct (coalesced_elem _ _ _ _ _ Hc Hx) as (rs1 & ? & ? & ? & ? & ?).
    exists 0%nat, file, rs1. split_and!; [done|lia|done|done|lia|lia].
  - destruct (IH Hx) as (n & file' & rs1 & ? & ? & ?). exists (S n), file', rs1. split; [done|]. split; [lia|done].
Qed.

Lemma coalesced_files_range f request xs n file j r : coalesced_files f request xs →
  request !! n = Some file → fr_ranges file !! j = Some r →
  ∃ x rs1 k, x ∈ xs ∧ covers_ranges x rs1 ∧ rs1 !! k = Some r ∧ tr_file_index x = f + Z.of_nat n ∧
    tr_first_range_index x + Z.of_nat k = Z.of_nat j.
Proof.
  intros H. revert n. induction H as [|f file0 request xs1 xs2 Hc _ IH]; intros n Hn Hj; [done|].
  destruct n as [|n]; simpl in Hn.
  - injection Hn as ->. destruct (coalesced_range _ _ _ _ _ _ Hc Hj) as (x & rs1 & k & ? & ? & ? & ? & ?).
    exists x, rs1, k. split_and!; [apply elem_of_app; by left|done|done|lia|lia].
  - destruct (IH n Hn Hj) as (x & rs1 & k & ? & ? & ? & ? & ?).
    exists x, rs1, k. split_and!; [apply elem_of_app; by right|done|done|lia|lia].
Qed.

Definition range_count (request : list FileRanges) : nat := length (concat (map fr_ranges request)).

Lemma coalesced_files_count f request xs : coalesced_files f request xs →
  length (concat (map tr_range_sizes xs)) = range_count request.
Proof.
  unfold range_count. induction 1 as [|f file request xs1 xs2 Hc _ IH]; [done|].
  rewrite map_app, concat_app. simpl. rewrite !length_app, IH. by rewrite (coalesced_count _ _ _ _ Hc).
Qed.

(** ** Properties *)

(** Coalescing partitions the request: unless the byte total overflows size_t, in which case the
    request is rejected with InvalidParameterError and nothing else is, the transfers of each file are
    its ranges in the order given, cut into runs that are contiguous both in the file and in memory, no
    run could have taken the range that follows it, and the total returned is the sum of all sizes. *)
Theorem coalesce_partitions request : valid_request request → Z.of_nat (length request) < unsigned_modulus →
  if request_bytes request <? size_modulus
  then ∃ xs, coalesce request = Ret (request_bytes request, xs) ∧ coalesced_files 0 request xs
  else coalesce request = Throw (Code InvalidParameterError).
Proof. apply coalesce_spec. Qed.

(** C16: the assigner loses no byte and never fails its own verification: unless the total overflows, it
    returns, and every coalesced transfer is tiled by its worker slices in order, with destinations in
    lockstep, at least one slice each (a transfer of zero bytes included), every slice's workload is
    within the count reported, and that workload is routed to the pool group that serves the file. *)
Theorem assigner_correct is_uri config group_by_file request :
  config_ok config → valid_request request → Z.of_nat (length request) < unsigned_modulus →
  if request_bytes request <? size_modulus
  then ∃ xs n st, assigner is_uri config group_by_file request = Ret (n, st) ∧
         coalesced_files 0 request xs ∧ divided_all xs group_by_file n st
  else assigner is_uri config group_by_file request = Throw (Code InvalidParameterError).
Proof. apply assigner_spec. Qed.

(** the division of a group's bytes is fair and exact: the number of workloads is at most the
    workers and at least one, the base share is a whole number of blocks, the shares add up to the
    group's bytes, the first workload's extra is less than one block per workload, and fewer workloads
    than workers are used only when each gets at most one block. *)
Theorem bytes_per_worker_fair block group_bytes max_workers :
  0 < block → is_size group_bytes → is_unsigned max_workers →
  let '(base, remainder, workloads) := bytes_per_worker_for block group_bytes max_workers in
  1 <= workloads <= Z.max max_workers 1 ∧ 0 <= base ∧ base mod block = 0 ∧
  workloads * base + remainder = group_bytes ∧ 0 <= remainder < workloads * block ∧
  (0 < base ∨ workloads = 1) ∧ (workloads < max_workers → base <= block).
Proof. apply bytes_per_worker_spec. Qed.

(** The loop that hands out a group realises exactly that division: from fresh totals, workload
    first + s ends with the base share, the first one with the remainder as well, and no other
    workload's total or group changes. *)
Theorem assign_group_balanced tr0 block indices workers lo group bytes st :
  Forall valid tr0 → 0 < block → is_unsigned workers → static tr0 st → NoDup indices →
  Forall (untouched st) indices → Forall (λ t, t = 0) (as_totals st) → to_go tr0 indices 0 = bytes →
  is_size bytes → indices ≠ [] → (lo + Z.to_nat (Z.max workers 1) <= length (as_totals st))%nat →
  length (as_groups st) = length (as_totals st) →
  let '(base, remainder, workloads) := bytes_per_worker_for block bytes workers in
  ∃ st', assign_group block indices workers lo bytes group st = Ret (Z.to_nat workloads, st') ∧
    ∀ v t, as_totals st !! v = Some t →
      as_totals st' !! v = Some (if decide (lo <= v < lo + Z.to_nat workloads)%nat
                                 then (if decide (v = lo) then base + remainder else base) else 0) ∧
      as_groups st' !! v = (if decide (lo <= v < lo + Z.to_nat workloads)%nat then Some group else as_groups st !! v).
Proof.
  intros Hv Hb Hw Hs Hnd Hun Hz Hgo Hbytes Hne Hroom Hlen.
  assert (Hts : Forall is_size (as_totals st)) by (eapply Forall_impl; [exact Hz|]; by intros ? ->).
  pose proof (assign_group_divided tr0 Hv block indices workers lo group bytes st Hb Hw Hs Hnd Hun Hts Hgo Hbytes Hne Hroom Hlen) as H.
  pose proof (bytes_per_worker_spec block bytes workers Hb Hbytes Hw) as Hbpw.
  destruct (bytes_per_worker_for block bytes workers) as [[base remainder] n].
  destruct H as (st' & E & Hn & Hsum & [_ _ _ _ Ht Hg _]). exists st'. split; [done|]. intros v t Hvt.
  destruct Hbpw as (H1 & H2 & _ & H4 & H5 & _). unfold is_size in Hbytes.
  rewrite Ht, Hg, Hvt, Nat.add_0_r. simpl. rewrite Forall_lookup in Hz. rewrite (Hz _ _ Hvt).
  destruct (lookup_lt_is_Some_2 (as_groups st) v) as [g ->]; [rewrite Hlen; by eapply lookup_lt_Some|]. simpl.
  destruct (decide (lo <= v < lo + Z.to_nat n)%nat); [|done]. split; [|done]. f_equal.
  assert (Hfit : 0 <= base + remainder <= bytes) by nia.
  unfold share. destruct (decide (v = lo)) as [->|].
  - rewrite decide_True by lia. unwrap. lia.
  - rewrite decide_False by lia. unwrap. lia.
Qed.

(** ** Witnesses: two files; the second, of zero bytes, goes to async group 0 *)

Definition example_request : list FileRanges :=
  [ mkFileRanges [] [mkReadRange 0 4 100; mkReadRange 4 5 104; mkReadRange 20 2 200];
    mkFileRanges [] [mkReadRange 0 0 300] ].

Definition example_config : AssignerConfig := mkAssignerConfig 2 1 8 3.

Lemma example_valid : valid_request example_request.
Proof. repeat (constructor || split || (vm_compute; congruence)). Qed.

Lemma coalesce_partitions_witness :
  map (λ x, (tr_file_index x, tr_offset x, tr_range_sizes x)) <$>
    (match coalesce example_request with Ret (_, xs) => Some xs | Throw _ => None end) =
    Some [(0, 0, [4; 5]); (0, 20, [2]); (1, 0, [0])] ∧
  ∃ xs, coalesce example_request = Ret (11, xs) ∧ coalesced_files 0 example_request xs.
Proof.
  split; [vm_compute; reflexivity|].
  exact (coalesce_partitions example_request example_valid eq_refl).
Defined.

Lemma assigner_correct_witness :
  ∃ xs n st, assigner (λ _, false) example_config [-1; 0] example_request = Ret (n, st) ∧
    coalesced_files 0 example_request xs ∧ divided_all xs [-1; 0] n st ∧
    n = 3%nat ∧ as_totals st = [8; 3; 0] ∧ as_groups st = [-1; -1; 0].
Proof.
  destruct (assigner_correct (λ _, false) example_config [-1; 0] example_request)
    as (xs & n & st & E & Hc & Hd).
  - split; vm_compute; try split; congruence.
  - exact example_valid.
  - reflexivity.
  - exists xs, n, st. split; [exact E|]. split; [exact Hc|]. split; [exact Hd|].
    revert E. vm_compute. intros [= <- <-]. repeat split.
Defined.

Lemma bytes_per_worker_fair_witness :
  bytes_per_worker_for 3 11 2 = (3, 5, 2) ∧
  (let '(base, remainder, workloads) := (3, 5, 2) in
   1 <= workloads <= Z.max 2 1 ∧ 0 <= base ∧ base mod 3 = 0 ∧
   workloads * base + remainder = 11 ∧ 0 <= remainder < workloads * 3 ∧
   (0 < base ∨ workloads = 1) ∧ (workloads < 2 → base <= 3)).
Proof.
  split; [reflexivity|]. apply (bytes_per_worker_fair 3 11 2); [lia|vm_compute; split; congruence..].
Defined.

Definition example_transfers : list ContiguousTransfer :=
  [mkTransfer 0 0 9 100 0 [4; 5] []; mkTransfer 0 20 2 200 2 [2] []].

Lemma assign_group_balanced_witness :
  ∃ st', assign_group 3 [0%nat; 1%nat] 2 0 11 (-1) (mkAssigning example_transfers [0; 0; 0] [-1; -1; -1]) = Ret (2%nat, st') ∧
         as_totals st' = [8; 3; 0].
Proof.
  destruct (assign_group_balanced example_transfers 3 [0%nat; 1%nat] 2 0 (-1) 11
              (mkAssigning example_transfers [0; 0; 0] [-1; -1; -1])) as (st' & E & _).
  - repeat constructor; vm_compute; congruence.
  - lia.
  - vm_compute. split; congruence.
  - intros i. destruct i as [|[|i]]; reflexivity.
  - apply NoDup_cons. split; [intros H%list_elem_of_singleton; discriminate|apply NoDup_singleton].
  - repeat constructor; eexists; split; reflexivity.
  - repeat constructor.
  - reflexivity.
  - vm_compute. split; congruence.
  - congruence.
  - vm_compute. lia.
  - reflexivity.
  - exists st'. split; [exact E|]. revert E. vm_compute. by intros [= <-].
Defined.
