(* ===== verification/SubmissionsMgr.v ===== *)
(** The registry of live submissions (streamer/impl/submissions): ids and outstanding responses.

    The clock is a parameter of the operations that read it, in milliseconds. *)

From S2P Require Import Prelude ResponseCode.

Record Entry := mkEntry { remaining : Z; total_bytes : Z; submit_time : Z }.

Record SubmissionsMgr := mkMgr { next_id : Z; submissions : gmap Z Entry }.

Inductive Outcome := Pending | Completed.

#[export] Instance Outcome_eq_dec : EqDecision Outcome.
Proof. solve_decision. Defined.

Record Result := mkResult {
  outcome_ : Outcome; res_total_bytes : Z; elapsed_ms : Z; throughput_bps : Z }.

Definition new_mgr : SubmissionsMgr := mkMgr 1 ∅.

(** The do-while loop: the id found and the next one to try.  [None] is out of fuel. *)
Fixpoint generate_loop (fuel : nat) (next : Z) (live : gmap Z Entry) : option (Z * Z) :=
  match fuel with
  | O => None
  | S fuel =>
      let id := next in
      let next := next ⊕ 1 in
      let '(id, next) := if id =? 0 then (next, next ⊕ 1) else (id, next) in
      if bool_decide (is_Some (live !! id)) then generate_loop fuel next live else Some (id, next)
  end.

Definition generate (m : SubmissionsMgr) : option (Z * SubmissionsMgr) :=
  match generate_loop (S (base.size (submissions m))) (next_id m) (submissions m) with
  | None => None
  | Some (id, next) => Some (id, mkMgr next (submissions m))
  end.

Definition add (submission_id expected bytes now : Z) (m : SubmissionsMgr) : outcome SubmissionsMgr :=
  ASSERT (negb (bool_decide (is_Some (submissions m !! submission_id)))) ;;!
  Ret (mkMgr (next_id m) (<[submission_id := mkEntry expected bytes now]> (submissions m))).

Definition consume (submission_id now : Z) (m : SubmissionsMgr) : outcome (Result * SubmissionsMgr) :=
  match submissions m !! submission_id with
  | None => Throw AssertFailed
  | Some e =>
      let e' := mkEntry (sub32 (remaining e) 1) (total_bytes e) (submit_time e) in
      if remaining e' =? 0 then
        let ms := now - submit_time e in
        let bps := if ms >? 0 then total_bytes e ⊗ 1000 / ms else 0 in
        Ret (mkResult Completed (total_bytes e) ms bps, mkMgr (next_id m) (delete submission_id (submissions m)))
      else Ret (mkResult Pending 0 0 0, mkMgr (next_id m) (<[submission_id := e']> (submissions m)))
  end.

(** ** Ids *)

(** How far [id] is ahead of [b] on the circle of 64-bit numbers. *)
Definition ahead (b id : Z) : Z := (id - b) mod size_modulus.

Lemma ahead_add b n k : 0 <= k → ahead b n + k < size_modulus → ahead b (n ⊕ k) = ahead b n + k.
Proof.
  intros Hk Hlt. unfold ahead, add64, wrap64 in *. rewrite Zminus_mod_idemp_l.
  replace (n + k - b) with (n - b + k) by lia. rewrite <- Zplus_mod_idemp_l. apply Z.mod_small.
  pose proof (Z.mod_pos_bound (n - b) size_modulus ltac:(done)). lia.
Qed.

(** When the loop runs out of fuel it has seen that many different live ids. *)
Lemma generate_loop_none b fuel : ∀ n live, is_size n → 0 <= ahead b n →
  ahead b n + 2 * Z.of_nat fuel < size_modulus →
  generate_loop fuel n live = None →
  ∃ l, length l = fuel ∧ NoDup l ∧ Forall (λ id, is_Some (live !! id) ∧ ahead b n <= ahead b id) l.
Proof.
  induction fuel as [|fuel IH]; intros n live Hn Hb Hlt Hg.
  { exists []. split_and!; [done|constructor..]. }
  simpl in Hg. pose proof (ahead_add b n 1 ltac:(lia) ltac:(lia)) as H1.
  pose proof (ahead_add b (n ⊕ 1) 1 ltac:(lia) ltac:(lia)) as H2.
  destruct (Z.eqb_spec n 0) as [->|Hn0]; case_bool_decide as Hl; try done.
  - destruct (IH (0 ⊕ 1 ⊕ 1) live ltac:(apply wrap64_is_size) ltac:(lia) ltac:(lia) Hg) as (l & Hlen & Hnd & Hall).
    exists (0 ⊕ 1 :: l). split_and!; [by simpl; f_equal| |].
    + apply NoDup_cons. split; [|done]. intros Hin. rewrite Forall_forall in Hall. destruct (Hall _ Hin). lia.
    + constructor; [split; [done|lia]|]. eapply Forall_impl; [exact Hall|]. intros id [? ?]. split; [done|lia].
  - destruct (IH (n ⊕ 1) live ltac:(apply wrap64_is_size) ltac:(lia) ltac:(lia) Hg) as (l & Hlen & Hnd & Hall).
    exists (n :: l). split_and!; [by simpl; f_equal| |].
    + apply NoDup_cons. split; [|done]. intros Hin. rewrite Forall_forall in Hall. destruct (Hall _ Hin). lia.
    + constructor; [split; [done|lia]|]. eapply Forall_impl; [exact Hall|]. intros id [? ?]. split; [done|lia].
Qed.

Lemma generate_loop_some fuel : ∀ n live id next, is_size n →
  generate_loop fuel n live = Some (id, next) → live !! id = None ∧ id ≠ 0 ∧ is_size id ∧ next = id ⊕ 1.
Proof.
  induction fuel as [|fuel IH]; intros n live id next Hn; simpl; [done|].
  destruct (Z.eqb_spec n 0) as [->|Hn0]; case_bool_decide as Hl.
  - apply IH, wrap64_is_size.
  - intros [= <- <-]. split_and!; [by apply eq_None_not_Some|done|apply wrap64_is_size|done].
  - apply IH, wrap64_is_size.
  - intros [= <- <-]. split_and!; [by apply eq_None_not_Some|done|done|done].
Qed.

Lemma generate_spec m : is_size (next_id m) → 2 * (Z.of_nat (base.size (submissions m)) + 1) < size_modulus →
  ∃ id m', generate m = Some (id, m') ∧ submissions m' = submissions m ∧
    id ≠ 0 ∧ is_size id ∧ submissions m !! id = None ∧ next_id m' = id ⊕ 1.
Proof.
  intros Hn Hsz. unfold generate. destruct (generate_loop _ _ _) as [[id next]|] eqn:E.
  - apply generate_loop_some in E as (? & ? & ? & ->); [|done]. by eexists _, _.
  - exfalso. assert (Ha : ahead (next_id m) (next_id m) = 0) by (unfold ahead; by rewrite Z.sub_diag).
    apply (generate_loop_none (next_id m)) in E as (l & Hlen & Hnd & Hall); [|done|lia|lia].
    assert (Hsub : (length l <= base.size (submissions m))%nat); [|lia].
    rewrite <- (size_list_to_set (C := gset Z)) by done. rewrite <- size_dom. apply subseteq_size.
    intros id Hid%elem_of_list_to_set. rewrite Forall_forall in Hall. by apply elem_of_dom, Hall.
Qed.

(** ** Responses *)

(** Consuming the responses of any number of submissions in any order. *)
Fixpoint consume_all (ids : list (Z * Z)) (m : SubmissionsMgr) : outcome (list (Z * Outcome) * SubmissionsMgr) :=
  match ids with
  | [] => Ret ([], m)
  | (id, now) :: ids =>
      let! (r, m) := consume id now m in
      let! (rs, m) := consume_all ids m in
      Ret ((id, outcome_ r) :: rs, m)
  end.

Definition count (id : Z) (ids : list (Z * Z)) : Z := Z.of_nat (length (filter (λ x, x.1 = id) ids)).
Definition completions (id : Z) (rs : list (Z * Outcome)) : nat := length (filter (λ x, x = (id, Completed)) rs).

Definition live_ok (m : SubmissionsMgr) : Prop :=
  ∀ id e, submissions m !! id = Some e → 0 < remaining e < unsigned_modulus.

Definition outstanding (m : SubmissionsMgr) (id : Z) : Z :=
  match submissions m !! id with None => 0 | Some e => remaining e end.

Lemma outstanding_ok m id : live_ok m → 0 <= outstanding m id.
Proof. intros H. unfold outstanding. destruct (_ !! id) eqn:E; [|done]. apply H in E. lia. Qed.

Lemma consume_mgr_spec id now m : live_ok m → 0 < outstanding m id →
  ∃ r m', consume id now m = Ret (r, m') ∧ live_ok m' ∧ next_id m' = next_id m ∧
    (∀ k, outstanding m' k = outstanding m k - (if decide (k = id) then 1 else 0)) ∧
    outcome_ r = (if decide (outstanding m id = 1) then Completed else Pending) ∧
    (∀ k, k ≠ id → submissions m' !! k = submissions m !! k).
Proof.
  intros Hm Ho. unfold consume, outstanding in *. destruct (submissions m !! id) as [e|] eqn:E; [|lia].
  pose proof (Hm _ _ E) as He. simpl. replace (sub32 (remaining e) 1) with (remaining e - 1) by (unwrap; done).
  destruct (Z.eqb_spec (remaining e - 1) 0).
  - eexists _, _. split; [done|]. rewrite decide_True by lia. split_and!; try done.
    + intros k e' Hk. simpl in Hk. apply lookup_delete_Some in Hk as [_ Hk]. by apply Hm in Hk.
    + intros k. simpl. destruct (decide (k = id)) as [->|Hne].
      * rewrite lookup_delete_eq, E. lia.
      * rewrite lookup_delete_ne by done. lia.
    + intros k Hk. simpl. by rewrite lookup_delete_ne.
  - eexists _, _. split; [done|]. rewrite decide_False by lia. split_and!; try done.
    + intros k e' Hk. simpl in Hk. apply lookup_insert_Some in Hk as [[_ <-]|[_ Hk]]; [simpl; lia|by apply Hm in Hk].
    + intros k. simpl. destruct (decide (k = id)) as [->|Hne].
      * rewrite lookup_insert_eq, E. done.
      * rewrite lookup_insert_ne by done. lia.
    + intros k Hk. simpl. by rewrite lookup_insert_ne.
Qed.

Lemma count_cons id x l : count id (x :: l) = (if decide (x.1 = id) then 1 else 0) + count id l.
Proof. unfold count. rewrite filter_cons. case_decide; simpl; lia. Qed.

Lemma count_nonneg id l : 0 <= count id l.
Proof. unfold count. lia. Qed.

Lemma consume_all_spec ids : ∀ m, live_ok m → (∀ id, count id ids <= outstanding m id) →
  ∃ rs m', consume_all ids m = Ret (rs, m') ∧ live_ok m' ∧ map fst rs = map fst ids ∧
    (∀ id, outstanding m' id = outstanding m id - count id ids) ∧
    (∀ id, completions id rs = if decide (0 < outstanding m id ∧ count id ids = outstanding m id) then 1%nat else 0%nat).
Proof.
  induction ids as [|[id now] ids IH]; intros m Hm Hc; simpl.
  - exists [], m. split_and!; try done.
    + intros id. unfold count. simpl. lia.
    + intros id. unfold count. simpl. rewrite decide_False by lia. done.
  - assert (Ho : 0 < outstanding m id).
    { specialize (Hc id). rewrite count_cons, decide_True in Hc by done. pose proof (count_nonneg id ids). lia. }
    destruct (consume_mgr_spec id now m Hm Ho) as (r & m1 & -> & Hm1 & _ & Ho1 & Hr & _). cbn [obind].
    destruct (IH m1 Hm1) as (rs & m2 & -> & Hm2 & Hf & Ho2 & Hcm).
    { intros k. specialize (Hc k). rewrite count_cons in Hc. rewrite Ho1. simpl in Hc.
      destruct (decide (k = id)) as [->|]; [rewrite decide_True in Hc by done|rewrite decide_False in Hc by done]; lia. }
    cbn [obind]. eexists _, m2. split; [done|]. split; [done|]. split; [simpl; by f_equal|]. split.
    + intros k. rewrite Ho2, Ho1, count_cons. simpl. destruct (decide (k = id)) as [->|];
        [rewrite decide_True by done|rewrite decide_False by done]; lia.
    + intros k. unfold completions in *. rewrite filter_cons, Hr, count_cons. simpl. specialize (Hcm k). rewrite Ho1 in Hcm.
      pose proof (count_nonneg k ids). specialize (Hc k). rewrite count_cons in Hc. simpl in Hc.
      destruct (decide (k = id)) as [->|Hne].
      * rewrite (decide_True (P := id = id)) in * by done.
        destruct (decide (outstanding m id = 1)) as [H1|H1].
        -- rewrite decide_True by done. simpl. rewrite Hcm. rewrite decide_False by lia. rewrite decide_True by lia. done.
        -- rewrite decide_False by done. rewrite Hcm. destruct (decide (0 < outstanding m id ∧ _)); repeat case_decide; try done; lia.
      * rewrite (decide_False (P := id = k)) in * by done. rewrite decide_False by (intros [= ? _]; congruence).
        rewrite Hcm, Z.sub_0_r. destruct (decide _), (decide _); try done; lia.
Qed.

(** ** Properties *)

(** Generate always finds an id, within one more step than there are live submissions: the id is
    not 0, which is reserved, and belongs to no live submission, however often the counter wrapped. *)
Theorem generate_fresh m :
  is_size (next_id m) → 2 * (Z.of_nat (base.size (submissions m)) + 1) < size_modulus →
  ∃ id m', generate m = Some (id, m') ∧ submissions m' = submissions m ∧
    id ≠ 0 ∧ is_size id ∧ submissions m !! id = None ∧ next_id m' = id ⊕ 1.
Proof. apply generate_spec. Qed.

(** A submission completes exactly on its last response: consuming the responses of any live
    submissions, interleaved in any order and at most as many as are outstanding, never fails; each
    submission reports Completed exactly once if all of its responses were consumed and never
    otherwise, and what stays outstanding is the difference. *)
Theorem completes_on_last_response ids m : live_ok m → (∀ id, count id ids <= outstanding m id) →
  ∃ rs m', consume_all ids m = Ret (rs, m') ∧ live_ok m' ∧ map fst rs = map fst ids ∧
    (∀ id, outstanding m' id = outstanding m id - count id ids) ∧
    (∀ id, completions id rs = if decide (0 < outstanding m id ∧ count id ids = outstanding m id) then 1%nat else 0%nat).
Proof. apply consume_all_spec. Qed.

(** ** Witnesses *)

Definition example_mgr : SubmissionsMgr :=
  mkMgr 0 {[1 := mkEntry 2 64 0; 2 := mkEntry 3 64 0]}.

Lemma generate_fresh_witness :
  (next_id <$> (snd <$> generate example_mgr)) = Some 4 ∧
  ∃ id m', generate example_mgr = Some (id, m') ∧ id ≠ 0 ∧ submissions example_mgr !! id = None.
Proof.
  split; [vm_compute; reflexivity|].
  destruct (generate_fresh example_mgr) as (id & m' & E & _ & H0 & _ & Hl & _).
  - vm_compute. split; congruence.
  - vm_compute. reflexivity.
  - exists id, m'. split; [exact E|]. split; [exact H0|exact Hl].
Defined.

Lemma completes_on_last_response_witness :
  ∃ rs m', consume_all [(2, 5); (1, 6); (2, 7); (1, 8)] example_mgr = Ret (rs, m') ∧
    rs = [(2, Pending); (1, Pending); (2, Pending); (1, Completed)].
Proof.
  destruct (completes_on_last_response [(2, 5); (1, 6); (2, 7); (1, 8)] example_mgr) as (rs & m' & E & _).
  - intros id e H. unfold example_mgr in H. simpl in H.
    apply lookup_insert_Some in H as [[_ <-]|[_ H]]; [vm_compute; split; congruence|].
    apply lookup_singleton_Some in H as [_ <-]. vm_compute. split; congruence.
  - intros id. rewrite !count_cons. unfold outstanding, example_mgr. simpl.
    destruct (decide (2 = id)) as [<-|H2]; [vm_compute; congruence|].
    destruct (decide (1 = id)) as [<-|H1]; [vm_compute; congruence|].
    rewrite lookup_insert_ne, lookup_singleton_ne by done. vm_compute. congruence.
  - exists rs, m'. split; [exact E|]. revert E. vm_compute. by intros [= <- <-].
Defined.
