(* ===== verification/StorageUri.v ===== *)
(** Object storage URIs (common/storage_uri): what the regular expression
    ^(s3|gs|az)://([^/]+)/(.+)$ accepts, and the three groups it captures. *)

From S2P Require Import Prelude ResponseCode Text.

Record StorageUri := mkUri { scheme : text; bucket : text; path : text }.

#[export] Instance StorageUri_eq_dec : EqDecision StorageUri.
Proof. solve_decision. Defined.

Definition slash : ascii := "/"%char.

Fixpoint strip_prefix (p t : text) : option text :=
  match p, t with
  | [], _ => Some t
  | x :: p, y :: t => if decide (x = y) then strip_prefix p t else None
  | _ :: _, [] => None
  end.

(** The dot of an ECMAScript expression matches anything but a line terminator. *)
Definition is_dot (c : ascii) : bool := negb ((code c =? 10) || (code c =? 13)).

Definition schemes : list text := [txt "s3"; txt "gs"; txt "az"].

(** The expression after the scheme: [^/]+ takes everything up to the first slash. *)
Definition match_rest (s rest : text) : option StorageUri :=
  match find_char slash rest with
  | Some (b, p) =>
      if negb (bool_decide (b = [])) && negb (bool_decide (p = [])) && forallb is_dot p
      then Some (mkUri s b p) else None
  | None => None
  end.

Definition match_scheme (s uri : text) : option StorageUri :=
  match strip_prefix (s ++ txt "://") uri with
  | Some rest => match_rest s rest
  | None => None
  end.

(** The first scheme that matches; [None] is the std::exception of the constructor. *)
Fixpoint parse_with (l : list text) (uri : text) : option StorageUri :=
  match l with
  | [] => None
  | s :: l => match match_scheme s uri with Some u => Some u | None => parse_with l uri end
  end.

Definition parse_uri (uri : text) : option StorageUri := parse_with schemes uri.

Definition is_uri (uri : text) : bool := bool_decide (is_Some (parse_uri uri)).
Definition is_gcs (u : StorageUri) : bool := bool_decide (scheme u = txt "gs").
Definition is_azure (u : StorageUri) : bool := bool_decide (scheme u = txt "az").

Definition print_uri (u : StorageUri) : text := scheme u ++ txt "://" ++ bucket u ++ slash :: path u.

(** ** Correctness *)

Record well_formed (u : StorageUri) : Prop := {
  wf_scheme : scheme u ∈ schemes;
  wf_bucket : bucket u ≠ [] ∧ slash ∉ bucket u;
  wf_path : path u ≠ [] ∧ Forall (λ c, is_dot c = true) (path u) }.

Lemma strip_prefix_Some p t rest : strip_prefix p t = Some rest ↔ t = p ++ rest.
Proof.
  revert t. induction p as [|x p IH]; intros [|y t]; simpl.
  - split; [by intros [= <-]|by intros <-].
  - split; [by intros [= <-]|by intros <-].
  - done.
  -   case_decide as H; [subst; rewrite IH; split; [by intros ->|by intros [= ->]]|].
    split; [done|]. by intros [= -> ->].
Qed.

Lemma match_scheme_Some s uri u : match_scheme s uri = Some u ↔
  scheme u = s ∧ uri = print_uri u ∧ (bucket u ≠ [] ∧ slash ∉ bucket u) ∧
  (path u ≠ [] ∧ Forall (λ c, is_dot c = true) (path u)).
Proof.
  unfold match_scheme, match_rest, print_uri. split.
  - destruct (strip_prefix _ uri) as [rest|] eqn:Hp; [|done]. apply strip_prefix_Some in Hp as ->.
    destruct (find_char slash rest) as [[b p]|] eqn:Hf; [|done]. apply find_char_Some in Hf as [-> Hn].
    destruct (_ && _) eqn:Hc; [|done]. intros [= <-]. simpl.
    apply andb_true_iff in Hc as [[Hb Hp]%andb_true_iff Hd].
    rewrite negb_true_iff, bool_decide_eq_false in Hb, Hp. rewrite <- app_assoc. split_and!; try done.
    apply Forall_forall. intros c Hc. rewrite forallb_forall in Hd. by apply Hd, list_elem_of_In.
  - intros (<- & -> & [Hb Hn] & [Hp Hd]).
    rewrite (proj2 (strip_prefix_Some _ _ (bucket u ++ slash :: path u))) by (by rewrite <- app_assoc).
    rewrite (proj2 (find_char_Some _ _ (bucket u) (path u))) by done.
    rewrite !bool_decide_false by done. simpl. rewrite (proj2 (forallb_forall _ _)).
    + by destruct u.
    + rewrite Forall_forall in Hd. intros c Hc. by apply Hd, list_elem_of_In.
Qed.

(** C37: the parser accepts exactly the printed form of well-formed URIs, and captures their parts:
    one of the three schemes, a non-empty bucket without a slash, and a non-empty path without a line
    terminator.  So parsing is injective, and every other path is a filesystem path. *)
Theorem parse_uri_correct uri u : parse_uri uri = Some u ↔ uri = print_uri u ∧ well_formed u.
Proof.
  unfold parse_uri, schemes. split.
  - cbn [parse_with]. destruct (match_scheme (txt "s3") uri) eqn:E1; [intros [= <-]|
      destruct (match_scheme (txt "gs") uri) eqn:E2; [intros [= <-]|
      destruct (match_scheme (txt "az") uri) eqn:E3; [intros [= <-]|done]]];
    match goal with E : match_scheme _ _ = Some _ |- _ => apply match_scheme_Some in E as (Hs & -> & Hb & Hp) end;
    (split; [done|split; [rewrite Hs; apply list_elem_of_In; simpl; tauto|done|done]]).
  - intros [-> [Hs Hb Hp]].
    assert (Hm : ∀ s, scheme u = s → match_scheme s (print_uri u) = Some u) by (intros; by apply match_scheme_Some).
    assert (Hn : ∀ s, s ∈ schemes → scheme u ≠ s → match_scheme s (print_uri u) = None).
    { intros s Hin Hne. destruct (match_scheme s (print_uri u)) as [u'|] eqn:E; [|done]. exfalso.
      apply match_scheme_Some in E as (<- & E & _ & _). unfold print_uri in E.
      assert (Hlen : ∀ x, x ∈ schemes → length x = 2%nat).
      { intros x. unfold schemes. rewrite !elem_of_cons. intros [->|[->|[->|[]%not_elem_of_nil]]]; done. }
      apply app_inj_1 in E as [E _]; [done|]. by rewrite !Hlen. }
    cbn [parse_with]. unfold schemes in Hs. rewrite !elem_of_cons in Hs. destruct Hs as [Hs|[Hs|[Hs|[]%not_elem_of_nil]]].
    + by rewrite (Hm _ Hs).
    + rewrite (Hn (txt "s3")), (Hm _ Hs); [done|by left|by rewrite Hs].
    + rewrite (Hn (txt "s3")), (Hn (txt "gs")), (Hm _ Hs); [done|by right; left|by rewrite Hs|by left|by rewrite Hs].
Qed.

Example parse_s3 : parse_uri (txt "s3://bucket/a/b") = Some (mkUri (txt "s3") (txt "bucket") (txt "a/b")).
Proof. vm_compute. reflexivity. Qed.

Example parse_path : parse_uri (txt "/mnt/s3://x/y") = None ∧ parse_uri (txt "s3:///y") = None.
Proof. vm_compute. split; reflexivity. Qed.
