(* ===== verification/Workload.v ===== *)
(** Devices (common/device) and workloads, the unit a pool's worker executes (streamer/impl/workload). *)

From S2P Require Import Prelude ResponseCode SharedQueue Task ChunkSplitter Batch.

Inductive DeviceType := Cpu | Cuda.

#[export] Instance DeviceType_eq_dec : EqDecision DeviceType.
Proof. solve_decision. Defined.

Record Device := mkDevice { dev_type : DeviceType; dev_id : Z }.

Definition device_type_to_int (t : DeviceType) : Z := match t with Cpu => 0 | Cuda => 1 end.

Definition host : Device := mkDevice Cpu 0.
Definition cuda (ordinal : Z) : Device := mkDevice Cuda ordinal.
Definition is_host (d : Device) : bool := bool_decide (dev_type d = Cpu).

(** operator==: the id of a host device means nothing. *)
Definition device_eqb (left right : Device) : bool :=
  bool_decide (dev_type left = dev_type right) && (is_host left || (dev_id left =? dev_id right)).

(** operator<, the order of the maps keyed by device. *)
Definition device_ltb (left right : Device) : bool :=
  if negb (bool_decide (dev_type left = dev_type right))
  then device_type_to_int (dev_type left) <? device_type_to_int (dev_type right)
  else if is_host left then false else dev_id left <? dev_id right.

(** A batch travels with its device. *)
Record Workload := mkWorkload {
  wl_batches : list Batch; wl_object_storage : bool; wl_device : Device; direct_block : Z }.

Definition empty_workload : Workload := mkWorkload [] false host 0.

Definition verify_batch (batch : Batch) (device : Device) (w : Workload) : ResponseCode :=
  if negb (Bool.eqb (is_object_storage batch) (wl_object_storage w)) then InvalidParameterError
  else if negb (device_eqb device (wl_device w)) then InvalidParameterError
  else Success.

Definition push_batch (batch : Batch) (w : Workload) : Workload :=
  mkWorkload (wl_batches w ++ [batch]) (wl_object_storage w) (wl_device w) (direct_block w).

Definition add_batch (batch : Batch) (device : Device) (w : Workload) : ResponseCode * Workload :=
  match wl_batches w with
  | [] => (Success, push_batch batch (mkWorkload [] (is_object_storage batch) device (direct_block w)))
  | _ :: _ =>
      let res := verify_batch batch device w in
      if decide (res = Success) then (Success, push_batch batch w) else (res, w)
  end.

(** Workload::fail: every batch reports the error. *)
Fixpoint fail_batches `{!Responder R} (code : ResponseCode) (bs : list Batch) (w : world) :
    outcome (list Batch * world) :=
  match bs with
  | [] => Ret ([], w)
  | b :: bs =>
      let! (b, w) := handle_error code b w in
      let! (bs, w) := fail_batches code bs w in
      Ret (b :: bs, w)
  end.

(** ** Devices *)

(** operator< on devices is a strict weak order whose equivalence is operator==, as std::map needs:
    irreflexive, transitive, and two devices are unordered exactly when they are equal; host devices
    are all equal and come first. *)
Theorem device_order a b c :
  device_ltb a a = false ∧
  (device_ltb a b = true ∧ device_ltb b c = true → device_ltb a c = true) ∧
  (device_ltb a b = false ∧ device_ltb b a = false ↔ device_eqb a b = true) ∧
  (device_ltb a b = true ↔ (is_host a = true ∧ is_host b = false) ∨
                            (is_host a = false ∧ is_host b = false ∧ dev_id a < dev_id b)).
Proof.
  destruct a as [[] i], b as [[] j], c as [[] k]; unfold device_ltb, device_eqb, is_host; simpl;
    rewrite ?andb_true_iff, ?Z.eqb_eq, ?Z.ltb_lt, ?Z.ltb_ge; intuition (congruence || lia).
Qed.

(** ** Workloads *)

(** Everything in a workload shares its backend. *)
Definition homogeneous (w : Workload) : Prop :=
  Forall (λ b, is_object_storage b = wl_object_storage w) (wl_batches w).

Lemma device_eqb_refl d : device_eqb d d = true.
Proof. unfold device_eqb. rewrite bool_decide_true, Z.eqb_refl by done. by rewrite orb_true_r. Qed.

Lemma add_batch_spec batch device w : homogeneous w →
  let '(code, w') := add_batch batch device w in
  homogeneous w' ∧
  (if decide (code = Success) then wl_batches w' = wl_batches w ++ [batch]
   else w' = w ∧ code = InvalidParameterError).
Proof.
  unfold homogeneous, add_batch, verify_batch. intros Hw. destruct (wl_batches w) as [|b0 bs0] eqn:Hb; simpl.
  - split; [by constructor|done].
  - destruct (Bool.eqb_spec (is_object_storage batch) (wl_object_storage w)) as [He|Hne]; simpl.
    + destruct (device_eqb device (wl_device w)); simpl.
      * rewrite Hb. split; [|done].
        change (b0 :: bs0 ++ [batch]) with ((b0 :: bs0) ++ [batch]). apply Forall_app. split; [done|]. by constructor.
      * by rewrite Hb.
    + by rewrite Hb.
Qed.

(** A workload that only ever took batches of one backend for one device takes another. *)
Definition for_device (obj : bool) (device : Device) (w : Workload) : Prop :=
  wl_batches w = [] ∨ (wl_object_storage w = obj ∧ wl_device w = device).

Lemma add_batch_accepts batch device w : for_device (is_object_storage batch) device w →
  ∃ w', add_batch batch device w = (Success, w') ∧ wl_batches w' = wl_batches w ++ [batch] ∧
        for_device (is_object_storage batch) device w'.
Proof.
  unfold for_device, add_batch, verify_batch. destruct (wl_batches w) as [|b0 bs0] eqn:Hb; simpl.
  - intros _. eexists. split; [done|]. simpl. split; [done|by right].
  - intros [?|[Ho Hd]]; [done|]. rewrite Ho, Hd, eqb_reflx, device_eqb_refl. simpl.
    eexists. split; [done|]. simpl. rewrite Hb. split; [done|by right].
Qed.

Section Fail.
Context {R : Type} `{!Responder R}.

Lemma list_effect_app code l1 l2 s s1 s2 : code ≠ Success →
  list_effect code l1 s s1 → list_effect code l2 s1 s2 → list_effect code (l1 ++ l2) s s2.
Proof.
  intros Hc H1 H2 k r Hr. destruct (H1 _ _ Hr) as (r1 & Hr1 & ? & ? & ? & ? & E1). destruct (H2 _ _ Hr1) as (r2 & Hr2 & ? & ? & ? & ? & E2).
  exists r2. split_and!; [done|congruence..|]. rewrite E2, E1, pending_app.
  destruct (decide (code ≠ Success ∧ (0 < pending k l2)%nat)) as [[_ Hp]|Hn]; [rewrite decide_True; [done|split; [done|lia]]|].
  destruct (decide (code ≠ Success ∧ (0 < pending k l1)%nat)) as [[_ Hp]|Hn']; [rewrite decide_True; [done|split; [done|lia]]|].
  rewrite decide_False; [done|]. intros [_ Hp]. destruct (decide (0 < pending k l1)%nat); [by apply Hn'|]. apply Hn. split; [done|lia].
Qed.

(** What failing batches does: everything in them is finished, with the code for each request that waited for one of their
    tasks, and nothing else changes. *)
Lemma fail_batches_spec owner log0 code bs : ∀ answered before after w,
  system_ok owner log0 answered (before ++ bs ++ after) w → code ≠ Success →
  ∃ bs' w' answered', fail_batches code bs w = Ret (bs', w') ∧
    system_ok owner log0 answered' (before ++ bs' ++ after) w' ∧
    Forall (λ t, t_finished t = true) (all_tasks bs') ∧ list_effect code (all_tasks bs) (requests w) (requests w').
Proof.
  induction bs as [|b bs IH]; intros answered before after w Hs Hc; simpl.
  - exists [], w, answered. split_and!; [done|done|constructor|apply list_effect_nil].
  - destruct (handle_error_ok _ _ _ _ _ _ _ _ Hs Hc) as (b' & w1 & a1 & -> & Hs1 & -> & He). cbn [obind].
    set (b' := set_tasks b (map set_finished (tasks b)) (unfinished b)) in *.
    destruct (IH a1 (before ++ [b']) after w1) as (bs' & w2 & a2 & -> & Hs2 & Hf & He2); [by rewrite <- app_assoc|done|].
    cbn [obind]. exists (b' :: bs'), w2, a2. split; [done|]. rewrite <- app_assoc in Hs2. split; [done|].
    unfold all_tasks in *. simpl. split; [apply Forall_app; split; [by apply Forall_map, Forall_true|done]|].
    by eapply list_effect_app.
Qed.

Lemma fail_batches_ok owner log0 code bs answered before after w :
  system_ok owner log0 answered (before ++ bs ++ after) w → code ≠ Success →
  ∃ bs' w' answered', fail_batches code bs w = Ret (bs', w') ∧
    system_ok owner log0 answered' (before ++ bs' ++ after) w' ∧
    Forall (λ t, t_finished t = true) (all_tasks bs').
Proof.
  intros Hs Hc. destruct (fail_batches_spec owner log0 code bs answered before after w Hs Hc) as (bs' & w' & a & H1 & H2 & H3 & _). eauto 10.
Qed.

(** Failing a workload answers everything in it: fail never throws, every task of every batch is
    finished afterwards, and the accounting of responses is preserved, so the submission can still be
    drained. *)
Theorem workload_fail_answers owner log0 code answered before after w (wl : Workload) :
  system_ok owner log0 answered (before ++ wl_batches wl ++ after) w → code ≠ Success →
  ∃ bs' w' answered', fail_batches code (wl_batches wl) w = Ret (bs', w') ∧
    system_ok owner log0 answered' (before ++ bs' ++ after) w' ∧
    Forall (λ t, t_finished t = true) (all_tasks bs').
Proof. apply fail_batches_ok. Qed.
End Fail.

Lemma workload_fail_answers_witness :
  ∃ bs' w', fail_batches UnknownError (wl_batches (mkWorkload [example_batch] false host 0)) example_world = Ret (bs', w') ∧
    responses (responder w') = [mkResponse 7 0 0 UnknownError; mkResponse 7 0 1 UnknownError].
Proof.
  destruct (workload_fail_answers (λ _, 7) [] UnknownError [] [] [] example_world (mkWorkload [example_batch] false host 0))
    as (bs' & w' & a & E & _).
  - exact (fresh_ok _ _ _ example_fresh).
  - discriminate.
  - exists bs', w'. split; [exact E|]. revert E. vm_compute. by intros [= <- <-].
Defined.
