(* ===== verification/Credentials.v ===== *)
(** Object storage credentials (common/s3_credentials, Streamer::CredentialsState): a dictionary of parameters, set
    once per streamer.

    The C arrays are lists of possibly null strings, a null array is [None].  [None] of [credentials_of_arrays] is
    a read past an array the caller declared too long. *)

From stdpp Require Import sorting.
From S2P Require Import Prelude ResponseCode Text.

(** ** The dictionary *)

Abbreviation Credentials := (gmap text text).

Definition ACCESS_KEY_ID_KEY : text := txt "access_key_id".
Definition SECRET_ACCESS_KEY_KEY : text := txt "secret_access_key".
Definition SESSION_TOKEN_KEY : text := txt "session_token".
Definition REGION_KEY : text := txt "region".
Definition ENDPOINT_KEY : text := txt "endpoint".

Fixpoint read_params (n i : nat) (keys values : list (option text)) (c : Credentials) : option Credentials :=
  match n with
  | O => Some c
  | S n =>
      match keys !! i, values !! i with
      | Some (Some key), Some (Some value) => read_params n (S i) keys values (<[key := value]> c)
      | Some _, Some _ => read_params n (S i) keys values c        (* a null key or value is skipped *)
      | _, _ => None
      end
  end.

Definition credentials_of_arrays (keys values : option (list (option text))) (num_params : nat) : option Credentials :=
  match num_params, keys, values with
  | O, _, _ => Some ∅
  | _, Some keys, Some values => read_params num_params 0 keys values ∅
  | _, _, _ => Some ∅
  end.

Definition put_param (key : text) (value : option text) (c : Credentials) : Credentials :=
  match value with None => c | Some v => <[key := v]> c end.

Definition s3_credentials (access_key_id secret_access_key session_token region endpoint : option text) : Credentials :=
  put_param ENDPOINT_KEY endpoint (put_param REGION_KEY region (put_param SESSION_TOKEN_KEY session_token
    (put_param SECRET_ACCESS_KEY_KEY secret_access_key (put_param ACCESS_KEY_ID_KEY access_key_id ∅)))).

Definition set_param (key value : text) (c : Credentials) : Credentials := <[key := value]> c.
Definition has_param (key : text) (c : Credentials) : bool := bool_decide (is_Some (c !! key)).
Definition get_param (key : text) (c : Credentials) : option text := c !! key.
Definition endpoint (c : Credentials) : option text := get_param ENDPOINT_KEY c.

(** The order of a std::map's keys: bytes, then length. *)
Fixpoint text_le (a b : text) : bool :=
  match a, b with
  | [], _ => true
  | _ :: _, [] => false
  | x :: a, y :: b => (code x <? code y) || ((code x =? code y) && text_le a b)
  end.

Definition key_le (x y : text * text) : Prop := text_le x.1 y.1 = true.

#[export] Instance key_le_dec x y : Decision (key_le x y).
Proof. unfold key_le. apply _. Defined.

Definition in_order (c : Credentials) : list (text * text) := merge_sort key_le (map_to_list c).

Definition to_object_client_config (c : Credentials) (config : list (text * text)) : list (text * text) :=
  config ++ filter (λ x, x.1 ≠ ENDPOINT_KEY) (in_order c).

(** ** Set once *)

Definition set_credentials (credentials : Credentials) (state : option Credentials) : ResponseCode * option Credentials :=
  match state with
  | None => (Success, Some credentials)
  | Some set_ => (if decide (set_ = credentials) then Success else CredentialsAlreadySet, state)
  end.

Definition get_credentials (state : option Credentials) : Credentials := default ∅ state.

(** The calls of any number of threads, under the mutex one after another. *)
Fixpoint set_all (l : list Credentials) (state : option Credentials) : list ResponseCode * option Credentials :=
  match l with
  | [] => ([], state)
  | c :: l => let '(r, state) := set_credentials c state in let '(rs, state) := set_all l state in (r :: rs, state)
  end.

(** ** Lemmas *)

Lemma code_inj x y : code x = code y → x = y.
Proof.
  unfold code. intros H. assert (E : N_of_ascii x = N_of_ascii y) by lia.
  by rewrite <- (ascii_N_embedding x), E, ascii_N_embedding.
Qed.

Lemma text_le_refl a : text_le a a = true.
Proof. induction a as [|x a IH]; [done|]. cbn. rewrite IH, Z.eqb_refl. by rewrite orb_true_r. Qed.

Lemma text_le_total a : ∀ b, text_le a b = true ∨ text_le b a = true.
Proof.
  induction a as [|x a IH]; intros [|y b]; cbn; auto. destruct (IH b) as [H|H]; rewrite H;
    destruct (Z.ltb_spec (code x) (code y)), (Z.ltb_spec (code y) (code x)), (Z.eqb_spec (code x) (code y)), (Z.eqb_spec (code y) (code x)); cbn; auto; lia.
Qed.

Lemma text_le_trans a : ∀ b c, text_le a b = true → text_le b c = true → text_le a c = true.
Proof.
  induction a as [|x a IH]; intros [|y b] [|z c]; cbn; try done. intros H1 H2.
  apply orb_true_iff in H1, H2. apply orb_true_iff.
  rewrite !andb_true_iff, !Z.ltb_lt, !Z.eqb_eq in *.
  destruct H1 as [H1|[H1 H1']], H2 as [H2|[H2 H2']]; [left; lia|left; lia|left; lia|right; split; [lia|by eapply IH]].
Qed.

#[export] Instance key_le_transitive : Transitive key_le.
Proof. intros x y z. unfold key_le. apply text_le_trans. Qed.

#[export] Instance key_le_total : Total key_le.
Proof. intros x y. unfold key_le. apply text_le_total. Qed.

Lemma in_order_elem c key value : (key, value) ∈ in_order c ↔ c !! key = Some value.
Proof. unfold in_order. rewrite merge_sort_Permutation. apply elem_of_map_to_list. Qed.

Lemma in_order_nodup c : NoDup (in_order c).*1.
Proof. unfold in_order. rewrite merge_sort_Permutation. apply NoDup_fst_map_to_list. Qed.

Lemma filter_sorted {A} (R : relation A) (P : A → Prop) `{∀ x, Decision (P x)} l : StronglySorted R l → StronglySorted R (filter P l).
Proof.
  induction 1 as [|x l _ IH Hx]; [constructor|]. rewrite filter_cons. case_decide; [|done]. constructor; [done|].
  apply Forall_forall. intros y Hy. apply list_elem_of_filter in Hy as [_ Hy]. rewrite Forall_forall in Hx. by apply Hx.
Qed.

Lemma filter_nodup {A B} (P : A * B → Prop) `{∀ x, Decision (P x)} (l : list (A * B)) : NoDup l.*1 → NoDup (filter P l).*1.
Proof.
  induction l as [|x l IH]; [done|]. rewrite filter_cons, fmap_cons, NoDup_cons. intros [Hx Hl].
  case_decide; [|by apply IH]. cbn. apply NoDup_cons. split; [|by apply IH]. intros Hin. apply Hx.
  apply list_elem_of_fmap in Hin as (y & -> & Hy). apply list_elem_of_filter in Hy as [_ Hy]. by apply list_elem_of_fmap_2.
Qed.

Lemma set_all_settled l c : ∃ rs, set_all l (Some c) = (rs, Some c) ∧
  Forall2 (λ x r, r = if decide (c = x) then Success else CredentialsAlreadySet) l rs.
Proof.
  induction l as [|x l (rs & IH & Hrs)]; [by exists []|]. cbn. rewrite IH. eexists. split; [done|]. by constructor.
Qed.

(** The entries of the arrays that are no null. *)
Definition whole (x : option text * option text) : option (text * text) :=
  match x with (Some k, Some v) => Some (k, v) | _ => None end.

Lemma read_params_spec n : ∀ i keys values c, (i + n <= length keys)%nat → (i + n <= length values)%nat →
  read_params n i keys values c =
    Some (foldl (λ c x, <[x.1 := x.2]> c) c (omap whole (zip (take n (drop i keys)) (take n (drop i values))))).
Proof.
  induction n as [|n IH]; intros i keys values c Hk Hv; [done|]. cbn [read_params].
  destruct (lookup_lt_is_Some_2 keys i) as [k Ek]; [lia|]. destruct (lookup_lt_is_Some_2 values i) as [v Ev]; [lia|].
  rewrite Ek, Ev, (drop_S _ _ _ Ek), (drop_S _ _ _ Ev). destruct k as [k|], v as [v|]; rewrite IH by lia; done.
Qed.

Lemma foldl_insert (l : list (text * text)) : ∀ c : Credentials, foldl (λ c x, <[x.1 := x.2]> c) c l = list_to_map (reverse l) ∪ c.
Proof.
  induction l as [|[k v] l IH] using rev_ind; intros c; [symmetry; apply map_empty_union|].
  rewrite foldl_app, reverse_snoc. cbn. by rewrite IH, <- insert_union_l.
Qed.

Lemma omap_whole (l : list (text * text)) : omap whole (zip (Some <$> l.*1) (Some <$> l.*2)) = l.
Proof. induction l as [|[k v] l IH]; [done|]. cbn. by rewrite IH. Qed.

Lemma list_of_credentials (l : list (text * text)) c : l ≡ₚ map_to_list c → list_to_map (reverse l) = c.
Proof.
  intros Hl. rewrite <- (list_to_map_to_list (M := gmap text) c). apply list_to_map_proper.
  - rewrite reverse_Permutation, Hl. apply NoDup_fst_map_to_list.
  - by rewrite reverse_Permutation, Hl.
Qed.

(** ** Properties *)

(** Arrays of a dictionary's parameters in any order, with nulls anywhere, are read back as the dictionary, whatever
    the caller calls their length beyond them is not read. *)
Theorem credentials_roundtrip c keys values : length keys = length values →
  omap whole (zip keys values) ≡ₚ map_to_list c →
  credentials_of_arrays (Some keys) (Some values) (length keys) = Some c.
Proof.
  intros Hlen Hp. unfold credentials_of_arrays. destruct (length keys) as [|n] eqn:En.
  - destruct keys; [|done]. cbn in Hp. symmetry in Hp. apply Permutation_nil_r, map_to_list_empty_iff in Hp. by subst.
  - rewrite read_params_spec by lia. rewrite !drop_0, !take_ge by lia. rewrite foldl_insert, map_union_empty.
    f_equal. by apply list_of_credentials.
Qed.

(** What a client is configured with: every parameter but the endpoint, each once, in the order of the keys. *)
Theorem client_config_complete c config : ∃ params, to_object_client_config c config = config ++ params ∧
  NoDup params.*1 ∧ StronglySorted key_le params ∧
  ∀ key value, (key, value) ∈ params ↔ key ≠ ENDPOINT_KEY ∧ c !! key = Some value.
Proof.
  exists (filter (λ x, x.1 ≠ ENDPOINT_KEY) (in_order c)). split; [done|]. split_and!.
  - apply filter_nodup, in_order_nodup.
  - apply filter_sorted, StronglySorted_merge_sort; apply _.
  - intros key value. rewrite list_elem_of_filter, in_order_elem. done.
Qed.

(** Whatever sets are tried, the first one wins for good: the others are answered Success exactly when they say
    the same. *)
Theorem credentials_set_once first l : ∃ rs, set_all (first :: l) None = (Success :: rs, Some first) ∧
  Forall2 (λ c r, r = if decide (first = c) then Success else CredentialsAlreadySet) l rs.
Proof.
  destruct (set_all_settled l first) as (rs & E & H). exists rs. split; [|done]. cbn. by rewrite E.
Qed.
