(* ===== verification/BackendApi.v ===== *)
(** What the streamer and an object storage plugin exchange (common/backend_api): the configuration of a client, and the
    listing of a prefix, whose entries and paths share one allocation. *)

From S2P Require Import Prelude ResponseCode Text SharedQueue.

Record ObjectClientConfig := mkClientConfig {
  oc_endpoint_url : option text; oc_chunk_bytesize : Z; oc_initial_params : list (text * option text); oc_concurrent_readers : Z }.

(** What a plugin reports of a read: its handle, and how it ended. *)
Record BackendResponse := mkBackendResponse { br_handle : Z; br_ret : ResponseCode }.

(** The one-argument constructor: a code that belongs to no read. *)
Definition backend_response_of_code (ret : ResponseCode) : BackendResponse := mkBackendResponse 0 ret.

#[export] Instance backend_response_queued : QueueResponse BackendResponse := {
  of_code := backend_response_of_code; code_of := br_ret }.

(** ** The listing *)

Definition NUL : ascii := ascii_of_N 0.
Definition sizeof_entry : Z := 16.

(** The allocation: where it is, the entries at its start (the address of a path and the size of the file), and the
    bytes behind them. *)
Record FileList := mkFileList { fl_buffer : Z; fl_entries : list (Z * Z); fl_area : list ascii }.

Definition entries_bytes (n : nat) : Z := Z.of_nat n ⊗ sizeof_entry.

Fixpoint path_bytes (results : list (text * Z)) : Z :=
  match results with
  | [] => 0
  | r :: results => Z.of_nat (length r.1) ⊕ 1 ⊕ path_bytes results
  end.

(** What new is asked for. *)
Definition allocated (results : list (text * Z)) : Z := entries_bytes (length results) ⊕ path_bytes results.

Fixpoint write_entries (path_area : Z) (results : list (text * Z)) : list (Z * Z) * list ascii :=
  match results with
  | [] => ([], [])
  | r :: results =>
      let '(entries, area) := write_entries (path_area + Z.of_nat (length r.1) + 1) results in
      ((path_area, r.2) :: entries, r.1 ++ NUL :: area)
  end.

Definition make_entries (buffer : Z) (results : list (text * Z)) : FileList :=
  let '(entries, area) := write_entries (buffer + entries_bytes (length results)) results in
  mkFileList buffer entries area.

(** The string at an address of the allocation, as its reader finds it. *)
Definition c_string (t : list ascii) : text := take_while (λ c, negb (bool_decide (c = NUL))) t.
Definition path_at (f : FileList) (address : Z) : text :=
  c_string (drop (Z.to_nat (address - fl_buffer f - entries_bytes (length (fl_entries f)))) (fl_area f)).

(** impl_obj_list_files: [None] when the outputs are left untouched.  [answer] is the list_files of the client. *)
Definition impl_obj_list_files (null_argument : bool) (buffer : Z) (answer : outcome (ResponseCode * list (text * Z))) :
    ResponseCode * option (option FileList * Z) :=
  if null_argument then (InvalidParameterError, None)
  else
    match answer with
    | Throw _ => (UnknownError, None)
    | Ret (code, results) =>
        if negb (bool_decide (code = Success)) then (code, None)
        else if bool_decide (results = []) then (Success, Some (None, 0))
        else (Success, Some (Some (make_entries buffer results), wrap32 (Z.of_nat (length results))))
    end.

(** ** What the reader of a listing finds *)

Definition listed (f : FileList) : list (text * Z) := map (λ e, (path_at f e.1, e.2)) (fl_entries f).

Lemma c_string_app t rest : NUL ∉ t → c_string (t ++ NUL :: rest) = t.
Proof.
  intros Hn. unfold c_string. rewrite take_while_all.
  - simpl. by rewrite app_nil_r.
  - apply forallb_forall. intros c Hc. apply negb_true_iff, bool_decide_false. intros ->. by apply Hn, list_elem_of_In.
Qed.

Definition path_length (r : text * Z) : Z := Z.of_nat (length r.1) + 1.

Lemma path_bytes_sum results : sumZ (map path_length results) < size_modulus →
  path_bytes results = sumZ (map path_length results) ∧ 0 <= path_bytes results.
Proof.
  induction results as [|r results IH]; [by split|]. cbn [path_bytes map]. rewrite sumZ_cons. unfold path_length at 1 3. intros H.
  assert (Hpos : 0 <= sumZ (map path_length results)).
  { clear. induction results; [done|]. cbn [map]. rewrite sumZ_cons. unfold path_length at 1. lia. }
  destruct IH as [-> _]; [lia|]. unwrap. lia.
Qed.

Lemma write_entries_spec results : ∀ start,
  let '(entries, area) := write_entries start results in
  length entries = length results ∧ Z.of_nat (length area) = sumZ (map path_length results) ∧
  Forall2 (λ e r, start <= e.1 ∧ e.1 + path_length r <= start + Z.of_nat (length area) ∧ e.2 = r.2 ∧
                  (NUL ∉ r.1 → c_string (drop (Z.to_nat (e.1 - start)) area) = r.1)) entries results.
Proof.
  induction results as [|r results IH]; intros start; cbn [write_entries]; [by repeat split|].
  specialize (IH (start + Z.of_nat (length r.1) + 1)). destruct (write_entries _ results) as [entries area].
  destruct IH as (Hl & Ha & Hf). cbn [map]. rewrite sumZ_cons, length_app. cbn [length]. unfold path_length at 1.
  split; [by rewrite Hl|]. split; [lia|]. constructor.
  - simpl. unfold path_length. split; [lia|]. split; [lia|]. split; [done|]. intros Hn. rewrite Z.sub_diag. simpl. by apply c_string_app.
  - eapply Forall2_impl; [exact Hf|]. intros [a s] r' (H1 & H2 & H3 & H4). simpl in *. split; [lia|]. split; [lia|]. split; [done|].
    intros Hn. etransitivity; [|exact (H4 Hn)]. f_equal.
    rewrite drop_app_ge by lia. replace (Z.to_nat (a - start) - length r.1)%nat with (S (Z.to_nat (a - (start + Z.of_nat (length r.1) + 1)))) by lia.
    done.
Qed.

(** C34: A reader of the entries of a listing finds the paths and the sizes the client answered, in their order, as long as
    no path holds a zero byte; every path, with its terminator, lies in the one allocation, behind the entries. *)
Theorem listing_roundtrip buffer results :
  Forall (λ r, NUL ∉ r.1) results → 0 <= buffer → Z.of_nat (length results) * sizeof_entry + sumZ (map path_length results) < size_modulus →
  let f := make_entries buffer results in
  listed f = results ∧ entries_bytes (length results) + Z.of_nat (length (fl_area f)) = allocated results ∧
  Forall2 (λ e r, buffer + entries_bytes (length results) <= e.1 ∧ e.1 + path_length r <= buffer + allocated results) (fl_entries f) results.
Proof.
  intros Hn Hb Hs. unfold make_entries, listed, path_at.
  pose proof (write_entries_spec results (buffer + entries_bytes (length results))) as H.
  destruct (write_entries _ results) as [entries area]. simpl. destruct H as (Hl & Ha & Hf). unfold sizeof_entry in Hs.
  assert (He : entries_bytes (length results) = Z.of_nat (length results) * 16) by (unfold entries_bytes, sizeof_entry; unwrap; lia).
  assert (Hal : allocated results = entries_bytes (length results) + Z.of_nat (length area)).
  { unfold allocated. destruct (path_bytes_sum results) as [Hp ?]; [lia|]. rewrite Hp, He. unwrap. lia. }
  rewrite Hl, Hal. split; [|split; [lia|]].
  - clear - Hn Hf. set (off := entries_bytes (length results)) in *. clearbody off.
    assert (H : ∀ address, Z.to_nat (address - buffer - off) = Z.to_nat (address - (buffer + off))) by (intros; f_equal; lia).
    induction Hf as [|e r entries' results' (_ & _ & Hs & Hp) Hf IH]; [done|]. apply Forall_cons in Hn as [Hr Hn].
    simpl. rewrite H, Hs, (Hp Hr), (IH Hn). by destruct r.
  - eapply Forall2_impl; [exact Hf|]. intros e r (H1 & H2 & _). split; [done|]. lia.
Qed.

Lemma listing_roundtrip_witness :
  let results := [(txt "s3://b/a", 7); (txt "s3://b/bc", 0)] in
  make_entries 4096 results = mkFileList 4096 [(4128, 7); (4137, 0)] (txt "s3://b/a" ++ NUL :: txt "s3://b/bc" ++ [NUL]) ∧
  allocated results = 51 ∧ listed (make_entries 4096 results) = results.
Proof.
  split; [vm_compute; reflexivity|]. split; [vm_compute; reflexivity|].
  apply (listing_roundtrip 4096 [(txt "s3://b/a", 7); (txt "s3://b/bc", 0)]).
  - repeat constructor; vm_compute; intros H; repeat (apply elem_of_cons in H as [H|H]; [discriminate H|]); by apply elem_of_nil in H.
  - lia.
  - vm_compute. reflexivity.
Defined.
