(* ===== verification/ClientMgr.v ===== *)
(** The manager of object storage clients (common/client_mgr): clients are reused while their credentials still
    match, each handed to one reader at a time.

    A call is a sequence of critical sections of the manager's mutex: pop looks for a client to reuse, builds one outside
    the lock when there is none, and registers it.  Every interleaving of callers is a sequence of the steps below. *)

From stdpp Require Import gmap.
From S2P Require Import Prelude ResponseCode.

(** What the manager asks of a client: IClient::verify_credentials, and stop. *)
Class ManagedClient (Client Config : Type) := {
  verify_credentials : Client → Config → bool;
  stop_client : Client → Client }.

Section Manager.
Context {Client Config : Type} `{!ManagedClient Client Config}.

(** The set and the map of the clients, by their addresses. *)
Record Manager := mkManager { unused_clients : gset Z; clients : gmap Z Client }.

Definition new_manager : Manager := mkManager ∅ ∅.

(** begin() of the set: pointers are ordered by address. *)
Definition begin (s : gset Z) : option Z :=
  foldr (λ p m, Some (match m with None => p | Some q => Z.min p q end)) None (elements s).

(** The first critical section of pop; [None] is the use of a client that is gone.  [n] bounds the loop. *)
Fixpoint reuse_loop (n : nat) (config : Config) (m : Manager) : option (option Z * Manager) :=
  match begin (unused_clients m) with
  | None => Some (None, m)
  | Some ptr =>
      match n with
      | O => None
      | S n =>
          match clients m !! ptr with
          | None => None
          | Some client =>
              let unused := unused_clients m ∖ {[ptr]} in
              if verify_credentials client config then Some (Some ptr, mkManager unused (clients m))
              else reuse_loop n config (mkManager unused (delete ptr (clients m)))
          end
      end
  end.

Definition reuse (config : Config) (m : Manager) : option (option Z * Manager) :=
  reuse_loop (base.size (unused_clients m)) config m.

(** The second: the client that was built is kept. *)
Definition register_client (ptr : Z) (client : Client) (m : Manager) : Manager :=
  mkManager (unused_clients m) (<[ptr := client]> (clients m)).

Definition push (client : Z) (m : Manager) : Manager := mkManager ({[client]} ∪ unused_clients m) (clients m).

(** Nothing happens while a client is used. *)
Definition clear (m : Manager) : Manager :=
  if negb (base.size (unused_clients m) =? base.size (clients m))%nat then m else new_manager.

Definition stop (m : Manager) : Manager := mkManager (unused_clients m) (stop_client <$> clients m).

Definition size (m : Manager) : nat := base.size (clients m).
Definition unused (m : Manager) : nat := base.size (unused_clients m).

(** ** Concurrent callers *)

(** [held] are the clients that were handed out and not given back, [asking] the callers that found none to reuse, and
    [built] the clients that are not registered yet. *)
Record system := mkSystem { mgr : Manager; held : list Z; asking : list Config; built : list (Z * Client) }.

Definition initial : system := mkSystem new_manager [] [] [].

(** Addresses of live clients. *)
Definition live (s : system) : gset Z := dom (clients (mgr s)) ∪ list_to_set (map fst (built s)).

(** A caller gives back what it holds, once; make_unique answers an address that is not in use, or throws. *)
Inductive step : system → system → Prop :=
| step_reuse m h a b config ptr m' : reuse config m = Some (Some ptr, m') →
    step (mkSystem m h a b) (mkSystem m' (ptr :: h) a b)
| step_none m h a b config m' : reuse config m = Some (None, m') →
    step (mkSystem m h a b) (mkSystem m' h (config :: a) b)
| step_build m h a1 config a2 b ptr client : ptr ∉ live (mkSystem m h (a1 ++ config :: a2) b) →
    step (mkSystem m h (a1 ++ config :: a2) b) (mkSystem m h (a1 ++ a2) ((ptr, client) :: b))
| step_throw m h a1 config a2 b : step (mkSystem m h (a1 ++ config :: a2) b) (mkSystem m h (a1 ++ a2) b)
| step_register m h a b1 ptr client b2 :
    step (mkSystem m h a (b1 ++ (ptr, client) :: b2)) (mkSystem (register_client ptr client m) (ptr :: h) a (b1 ++ b2))
| step_push m h1 ptr h2 a b : step (mkSystem m (h1 ++ ptr :: h2) a b) (mkSystem (push ptr m) (h1 ++ h2) a b)
| step_clear m h a b : step (mkSystem m h a b) (mkSystem (clear m) h a b)
| step_stop m h a b : step (mkSystem m h a b) (mkSystem (stop m) h a b).

Inductive reachable : system → Prop :=
| reach_initial : reachable initial
| reach_step s s' : reachable s → step s s' → reachable s'.

(** ** The set of the unused clients *)

Lemma begin_none s : begin s = None ↔ s = ∅.
Proof.
  unfold begin. split; [|by intros ->; rewrite elements_empty]. intros H. apply leibniz_equiv, elements_empty_inv.
  by destruct (elements s).
Qed.

Lemma begin_fold l p : foldr (λ p m, Some (match m with None => p | Some q => Z.min p q end)) None l = Some p →
  p ∈ l ∧ ∀ q, q ∈ l → p <= q.
Proof.
  revert p. induction l as [|x l IH]; intros p; simpl; [done|].
  destruct (foldr _ None l) as [q|] eqn:E; intros [= <-].
  - destruct (IH q eq_refl) as [Hq Hmin]. split.
    + destruct (Z.min_spec x q) as [[_ ->]|[_ ->]]; [by left|by right].
    + intros y [->|Hy]%elem_of_cons; [lia|]. specialize (Hmin y Hy). lia.
  - split; [by left|]. intros y [->|Hy]%elem_of_cons; [lia|]. destruct l as [|z l]; [by apply elem_of_nil in Hy|done].
Qed.

Lemma begin_some s p : begin s = Some p → p ∈ s ∧ ∀ q, q ∈ s → p <= q.
Proof.
  intros [Hp Hmin]%begin_fold. split; [by apply elem_of_elements|]. intros q Hq. by apply Hmin, elem_of_elements.
Qed.

(** ** What pop may hand out *)

(** Every client that is unused is one the manager keeps. *)
Definition unused_kept (m : Manager) : Prop := unused_clients m ⊆ dom (clients m).

Lemma reuse_loop_spec n config : ∀ m, unused_kept m → (base.size (unused_clients m) <= n)%nat →
  ∃ r m', reuse_loop n config m = Some (r, m') ∧ unused_kept m' ∧
    (∃ stale : gset Z, stale ⊆ unused_clients m ∧ clients m' = filter (λ pc : Z * Client, pc.1 ∉ stale) (clients m) ∧
       (∀ p c, p ∈ stale → clients m !! p = Some c → verify_credentials c config = false) ∧
       match r with
       | Some ptr => ptr ∈ unused_clients m ∧ ptr ∉ stale ∧ unused_clients m' = unused_clients m ∖ stale ∖ {[ptr]} ∧
                     (∃ c, clients m' !! ptr = Some c ∧ verify_credentials c config = true) ∧
                     (∀ q, q ∈ unused_clients m' → ptr <= q)
       | None => stale = unused_clients m ∧ unused_clients m' = ∅
       end).
Proof.
  induction n as [|n IH]; intros m Hk Hn; cbn [reuse_loop]; destruct (begin (unused_clients m)) as [ptr|] eqn:Hb.
  - exfalso. apply begin_some in Hb as [Hb _]. assert (Hz : base.size (unused_clients m) = 0%nat) by lia.
    apply size_empty_inv in Hz. set_solver.
  - apply begin_none in Hb. eexists None, m. split; [done|]. split; [done|]. exists ∅. rewrite Hb.
    split; [done|]. split; [|split; [set_solver|done]]. symmetry. apply map_filter_id. set_solver.
  - apply begin_some in Hb as [Hp Hmin]. destruct (proj1 (elem_of_dom _ _) (Hk _ Hp)) as [client Hc]. rewrite Hc.
    destruct (verify_credentials client config) eqn:Hv.
    + eexists (Some ptr), _. split; [done|]. split; [unfold unused_kept; simpl; set_solver|]. exists ∅. simpl.
      split; [set_solver|]. split; [symmetry; apply map_filter_id; set_solver|]. split; [set_solver|].
      split; [done|]. split; [set_solver|]. split; [set_solver|]. split; [by eauto|]. intros q Hq. apply Hmin. set_solver.
    + destruct (IH (mkManager (unused_clients m ∖ {[ptr]}) (delete ptr (clients m)))) as (r & m' & Hr & Hk' & stale & Hs & Hcl & Hst & Hrest).
      { unfold unused_kept. simpl. rewrite dom_delete_L. unfold unused_kept in Hk. set_solver. }
      { simpl. rewrite size_difference by set_solver. rewrite size_singleton. lia. }
      exists r, m'. split; [done|]. split; [done|]. exists ({[ptr]} ∪ stale). simpl in *.
      split; [set_solver|]. split; [|split].
      * rewrite Hcl. apply map_eq. intros p. apply option_eq. intros c. rewrite !map_lookup_filter_Some, lookup_delete_Some. simpl. set_solver.
      * intros p c Hpc Hl. destruct (decide (p = ptr)) as [->|Hne]; [congruence|]. apply (Hst p); [set_solver|by rewrite lookup_delete_ne].
      * destruct r as [q|].
        -- destruct Hrest as (Hq & Hqs & Hu & Hver & Hord). split; [set_solver|]. split; [set_solver|]. split; [rewrite Hu; set_solver|]. by split.
        -- destruct Hrest as [-> ->]. split; [|done]. apply set_eq. intros p. destruct (decide (p = ptr)); set_solver.
  - apply begin_none in Hb. eexists None, m. split; [done|]. split; [done|]. exists ∅. rewrite Hb.
    split; [done|]. split; [|split; [set_solver|done]]. symmetry. apply map_filter_id. set_solver.
Qed.

Lemma reuse_spec config m : unused_kept m → ∃ r m', reuse config m = Some (r, m') ∧ unused_kept m' ∧
  (∃ stale : gset Z, stale ⊆ unused_clients m ∧ clients m' = filter (λ pc : Z * Client, pc.1 ∉ stale) (clients m) ∧
     (∀ p c, p ∈ stale → clients m !! p = Some c → verify_credentials c config = false) ∧
     match r with
     | Some ptr => ptr ∈ unused_clients m ∧ ptr ∉ stale ∧ unused_clients m' = unused_clients m ∖ stale ∖ {[ptr]} ∧
                   (∃ c, clients m' !! ptr = Some c ∧ verify_credentials c config = true) ∧ (∀ q, q ∈ unused_clients m' → ptr <= q)
     | None => stale = unused_clients m ∧ unused_clients m' = ∅
     end).
Proof. intros Hk. by apply reuse_loop_spec. Qed.

(** ** What every interleaving keeps *)

Record manager_ok (s : system) : Prop := {
  mk_held : NoDup (held s);
  mk_apart : ∀ p, p ∈ held s → p ∉ unused_clients (mgr s);
  mk_all : dom (clients (mgr s)) = list_to_set (held s) ∪ unused_clients (mgr s);
  mk_built : NoDup (map fst (built s)) ∧ ∀ p, p ∈ map fst (built s) → p ∉ dom (clients (mgr s)) }.

Lemma ok_kept s : manager_ok s → unused_kept (mgr s).
Proof. intros H p Hp. rewrite (mk_all _ H). set_solver. Qed.

Lemma reuse_keeps_ok m h a b a' config r m' : manager_ok (mkSystem m h a b) → reuse config m = Some (r, m') →
  manager_ok (mkSystem m' (match r with Some ptr => ptr :: h | None => h end) a' b).
Proof.
  intros Hok Hr. destruct (reuse_spec config m (ok_kept _ Hok)) as (r0 & m0 & E & _ & stale & Hs & Hc & _ & Hrest).
  rewrite Hr in E. injection E as <- <-. destruct Hok as [Hh Ha Hall [Hb1 Hb2]]. simpl in *.
  assert (Hdom : dom (clients m') = dom (clients m) ∖ stale).
  { apply set_eq. intros p. rewrite Hc, elem_of_difference, !elem_of_dom. split.
    - intros [c Hl]. apply map_lookup_filter_Some in Hl as [Hl Hp]. split; [by exists c|done].
    - intros [[c Hl] Hp]. exists c. by apply map_lookup_filter_Some. }
  assert (Hb : NoDup (map fst b) ∧ ∀ p, p ∈ map fst b → p ∉ dom (clients m')).
  { split; [done|]. intros p Hp. rewrite Hdom. specialize (Hb2 p Hp). set_solver. }
  destruct r as [ptr|].
  - destruct Hrest as (Hp & Hps & Hu & _). split; simpl; [|set_solver| |done].
    + constructor; [|done]. intros Hin. by apply (Ha ptr).
    + rewrite Hdom, Hu, Hall. apply set_eq. intros p. destruct (decide (p = ptr)); [set_solver|].
      specialize (Ha p). simpl. set_solver.
  - destruct Hrest as [-> Hu]. split; simpl; [done|rewrite Hu; set_solver| |done].
    rewrite Hdom, Hu, Hall. apply set_eq. intros p. specialize (Ha p). set_solver.
Qed.

Lemma clear_spec m : unused_kept m → clear m = if decide (dom (clients m) = unused_clients m) then new_manager else m.
Proof.
  intros Hk. unfold clear. rewrite <- size_dom. destruct (Nat.eqb_spec (base.size (unused_clients m)) (base.size (dom (clients m)))) as [E|E]; simpl.
  - rewrite decide_True; [done|]. symmetry. apply set_subseteq_size_eq; [done|lia].
  - rewrite decide_False; [done|]. intros Hd. apply E. by rewrite Hd.
Qed.

Lemma client_step_ok s s' : manager_ok s → step s s' → manager_ok s'.
Proof.
  intros Hok Hstep. destruct Hstep as [m h a b config ptr m' Hr|m h a b config m' Hr|m h a1 config a2 b ptr client Hf|m h a1 config a2 b
    |m h a b1 ptr client b2|m h1 ptr h2 a b|m h a b|m h a b].
  - by apply (reuse_keeps_ok _ _ _ _ a _ _ _ Hok Hr).
  - by apply (reuse_keeps_ok _ _ _ _ (config :: a) _ _ _ Hok Hr).
  - destruct Hok as [Hh Ha Hall [Hb1 Hb2]]. unfold live in Hf. simpl in *. split; simpl; [done|done|done|].
    split; [constructor; [set_solver|done]|]. intros p [->|Hp]%elem_of_cons; [set_solver|by apply Hb2].
  - by destruct Hok as [Hh Ha Hall Hb].
  - destruct Hok as [Hh Ha Hall [Hb1 Hb2]]. simpl in *. rewrite map_app in Hb1, Hb2. simpl in Hb1, Hb2.
    assert (Hn : ptr ∉ dom (clients m)) by (apply Hb2; set_solver).
    apply NoDup_app in Hb1 as (H1 & H12 & H2). apply NoDup_cons in H2 as [Hp H2].
    split; simpl; rewrite ?dom_insert_L, ?map_app.
    + constructor; [|done]. intros Hin. apply Hn. rewrite Hall. set_solver.
    + intros p [->|Hin]%elem_of_cons; [|by apply Ha]. intros Hu. apply Hn. rewrite Hall. set_solver.
    + rewrite Hall. set_solver.
    + split; [apply NoDup_app; split; [done|]; split; [|done]; intros p Hp1; specialize (H12 p Hp1); set_solver|].
      intros p Hin. specialize (Hb2 p). assert (p ≠ ptr).
      { intros ->. apply elem_of_app in Hin as [Hin|Hin]; [|done]. apply (H12 ptr Hin). by left. }
      set_solver.
  - destruct Hok as [Hh Ha Hall Hb]. simpl in *. apply NoDup_app in Hh as (H1 & H12 & H2). apply NoDup_cons in H2 as [Hp H2].
    split; simpl; [| | |done].
    + apply NoDup_app. split; [done|]. split; [|done]. intros p Hp1. specialize (H12 p Hp1). set_solver.
    + intros p Hin. specialize (Ha p). assert (p ≠ ptr); [|set_solver].
      intros ->. apply elem_of_app in Hin as [Hin|Hin]; [|done]. apply (H12 ptr Hin). by left.
    + rewrite Hall, !list_to_set_app_L. simpl. set_solver.
  - pose proof (clear_spec m (ok_kept _ Hok)) as Hc. simpl in Hc. rewrite Hc. destruct (decide _) as [Hd|]; [|done].
    destruct Hok as [Hh Ha Hall [Hb1 Hb2]]. simpl in *. assert (h = []) as ->.
    { destruct h as [|p h]; [done|]. exfalso. apply (Ha p); [by left|]. rewrite <- Hd, Hall. set_solver. }
    split; simpl; [done|set_solver|set_solver|]. split; [done|]. intros p _. set_solver.
  - destruct Hok as [Hh Ha Hall [Hb1 Hb2]]. simpl in *. split; simpl; try done.
    + by rewrite dom_fmap_L.
    + split; [done|]. intros p Hp. rewrite dom_fmap_L. by apply Hb2.
Qed.

Lemma client_reachable_ok s : reachable s → manager_ok s.
Proof.
  induction 1 as [|s s' _ IH Hs]; [|by eapply client_step_ok].
  split; simpl; [constructor|set_solver|set_solver|]. split; [constructor|set_solver].
Qed.

(** C31: Whatever callers do at the same time, a client has one reader: what is handed out is known to the manager and
    unused by anybody else, pop never follows a client that is gone and reuses only one whose credentials still match,
    destroying only unused ones whose credentials do not; and the clients are cleared together, when nobody holds any. *)
Theorem clients_have_one_reader s config : reachable s →
  NoDup (held s) ∧ dom (clients (mgr s)) = list_to_set (held s) ∪ unused_clients (mgr s) ∧
  (∃ r m', reuse config (mgr s) = Some (r, m') ∧
     (∀ p c, clients (mgr s) !! p = Some c → clients m' !! p = Some c ∨
             p ∉ held s ∧ verify_credentials c config = false ∧ clients m' !! p = None) ∧
     match r with
     | Some ptr => ptr ∉ held s ∧ ∃ c, clients (mgr s) !! ptr = Some c ∧ verify_credentials c config = true
     | None => unused_clients m' = ∅ ∧ dom (clients m') = list_to_set (held s)
     end) ∧
  clear (mgr s) = (if decide (held s = []) then new_manager else mgr s).
Proof.
  intros Hr. pose proof (client_reachable_ok _ Hr) as Hok. pose proof (ok_kept _ Hok) as Hk.
  destruct (reuse_spec config (mgr s) Hk) as (r & m' & E & _ & stale & Hs & Hc & Hst & Hrest).
  destruct s as [m h a b]. destruct Hok as [Hh Ha Hall Hb]. simpl in *. split; [done|]. split; [done|]. split.
  - exists r, m'. split; [done|]. split.
    + intros p c Hl. destruct (decide (p ∈ stale)) as [Hp|Hp].
      * right. split; [intros Hin; apply (Ha p Hin); by apply Hs|]. split; [by apply (Hst p)|].
        rewrite Hc. apply map_lookup_filter_None. right. intros x _ Hx. by apply Hx.
      * left. rewrite Hc. by apply map_lookup_filter_Some.
    + destruct r as [ptr|].
      * destruct Hrest as (Hp & Hps & _ & (c & Hl & Hv) & _). split; [intros Hin; by apply (Ha ptr)|].
        exists c. split; [|done]. rewrite Hc in Hl. by apply map_lookup_filter_Some in Hl as [Hl _].
      * destruct Hrest as [-> Hu]. split; [done|]. apply set_eq. intros p. rewrite Hc, elem_of_dom. split.
        -- intros [c Hl]. apply map_lookup_filter_Some in Hl as [Hl Hp]. apply (elem_of_dom_2 (D := gset Z)) in Hl. simpl in Hp. set_solver.
        -- intros Hp. assert (Hd : p ∈ dom (clients m)) by set_solver. apply elem_of_dom in Hd as [c Hl]. exists c.
           apply map_lookup_filter_Some. split; [done|]. simpl. intros Hu'. apply (Ha p); [by apply elem_of_list_to_set in Hp|done].
  - rewrite clear_spec by done. destruct h as [|p h]; simpl.
    + rewrite decide_True; [done|]. rewrite Hall. simpl. set_solver.
    + rewrite decide_False; [done|]. intros Hd. apply (Ha p); [by left|]. rewrite <- Hd, Hall. simpl. set_solver.
Qed.
End Manager.

(** ** Examples *)
Module Keys.
(** A client is the key it was built with and whether it was stopped. *)
#[export] Instance keyed : ManagedClient (Z * bool) Z := {
  verify_credentials c key := c.1 =? key; stop_client c := (c.1, true) }.

(** Two clients of key 7, one of them given back; a reader with the key 8 finds none and the stale one is gone. *)
Definition both : system (Client := Z * bool) (Config := Z) :=
  mkSystem (mkManager {[4096]} {[4096 := (7, false); 8192 := (7, false)]}) [8192] [] [].

Lemma reach_as s s' s'' : reachable s → step s s' → s' = s'' → reachable s''.
Proof. intros Hr Hs <-. by eapply reach_step. Qed.

Definition one : system (Client := Z * bool) (Config := Z) := mkSystem (mkManager ∅ {[4096 := (7, false)]}) [4096] [] [].

Lemma build_two : reachable both.
Proof.
  assert (H1 : reachable one).
  { eapply (reach_as _ _ _); [eapply reach_step; [eapply reach_step; [apply reach_initial|]|]| |].
    - by apply (step_none new_manager [] [] [] 7 new_manager).
    - apply (step_build new_manager [] [] 7 [] [] 4096 (7, false)). unfold live. simpl. set_solver.
    - apply (step_register new_manager [] [] [] 4096 (7, false) []).
    - vm_compute. reflexivity. }
  eapply (reach_as _ _ _); [eapply reach_step; [eapply reach_step; [eapply reach_step; [apply H1|]|]|]| |].
  - by apply (step_none _ _ [] [] 7 (mgr one)).
  - apply (step_build (mgr one) [4096] [] 7 [] [] 8192 (7, false)). unfold live. simpl. set_solver.
  - apply (step_register (mgr one) [4096] [] [] 8192 (7, false) []).
  - apply (step_push _ [8192] 4096 [] [] []).
  - vm_compute. reflexivity.
Qed.

Lemma clients_have_one_reader_witness :
  clear (mgr both) = mgr both ∧ reuse 7 (mgr both) = Some (Some 4096, mkManager ∅ {[4096 := (7, false); 8192 := (7, false)]}) ∧
  reuse 8 (mgr both) = Some (None, mkManager ∅ {[8192 := (7, false)]}).
Proof.
  destruct (clients_have_one_reader both 8 build_two) as (_ & _ & _ & Hclear). split; [|split; vm_compute; reflexivity].
  rewrite Hclear. reflexivity.
Defined.
End Keys.
