(* ===== verification/Submission.v ===== *)
(** Streamer::async_request: from a caller's request to the workloads the pools execute
    (streamer/impl/streamer).

    The model covers the verification of the request, the choice of the object storage plugin, the id,
    the assigner, the batches of every transfer, the workloads, the registration and the dispatch, with
    the draining of what could not be dispatched.  The router, the initialisation of the object storage
    library, the clock and the pools are the environment.  A request that throws is reported by the
    exception alone. *)

From S2P Require Import Prelude ResponseCode Text SharedQueue Task ChunkSplitter Batch Transfer Batches.
From S2P Require Import Assigner SubmissionsMgr StorageUri Workload.

Inductive Plugin := S3 | GCS | Azure.

#[export] Instance Plugin_eq_dec : EqDecision Plugin.
Proof. solve_decision. Defined.

(** What a streamer keeps between submissions. *)
Record Streamer := mkStreamer {
  st_plugin : option Plugin; st_submissions : SubmissionsMgr; st_responder : queue }.

(** What a submission meets outside: the router's answer and groups, the object storage start-up, the
    clock, and whether the pool takes workload [i]. *)
Record Environment := mkEnvironment {
  env_config : AssignerConfig; env_fs_async_chunk_bytesize : Z;
  env_resolve : ResponseCode; env_groups : list Z; env_s3_init : outcome (); env_now : Z;
  env_dispatch : nat → outcome () }.

(** ** Before the submission is built *)

Definition range_verified (r : ReadRange) : bool := negb ((rr_size r >? 0) && (rr_dst r =? 0)).

Definition verify_requests (request : list FileRanges) : outcome () :=
  if forallb (λ f, forallb range_verified (fr_ranges f)) request then Ret ()
  else Throw (Code InvalidParameterError).

Definition plugin_of (u : StorageUri) : Plugin :=
  if is_gcs u then GCS else if is_azure u then Azure else S3.

(** The loop of lock_object_plugin: the plugin found and whether a filesystem path was seen; [None] is
    the early return for two different plugins. *)
Fixpoint scan_plugins (request : list FileRanges) (plugin : option Plugin) (has_filesystem : bool) :
    option (option Plugin * bool) :=
  match request with
  | [] => Some (plugin, has_filesystem)
  | file :: request =>
      match fr_ranges file with
      | [] => scan_plugins request plugin has_filesystem
      | _ :: _ =>
          match parse_uri (fr_path file) with
          | None => scan_plugins request plugin true
          | Some u =>
              match plugin with
              | Some p => if decide (p = plugin_of u) then scan_plugins request (Some (plugin_of u)) has_filesystem
                          else None
              | None => scan_plugins request (Some (plugin_of u)) has_filesystem
              end
          end
      end
  end.

(** BackendPools::lock_object_plugin: the first plugin wins for the streamer's lifetime. *)
Definition pools_lock_plugin (plugin : Plugin) (locked : option Plugin) : ResponseCode * option Plugin :=
  match locked with
  | None => (Success, Some plugin)
  | Some q => if decide (q = plugin) then (Success, locked) else (UnsupportedBackendMix, locked)
  end.

Definition lock_object_plugin (request : list FileRanges) (locked : option Plugin) :
    ResponseCode * option Plugin :=
  match scan_plugins request None false with
  | None => (UnsupportedBackendMix, locked)
  | Some (None, _) => (Success, locked)
  | Some (Some _, true) => (UnsupportedBackendMix, locked)
  | Some (Some p, false) => pools_lock_plugin p locked
  end.

Definition total_ranges (request : list FileRanges) : Z :=
  foldl (λ n f, n ⊕ Z.of_nat (length (fr_ranges f))) 0 request.

Definition total_request_bytes (request : list FileRanges) : Z :=
  foldl (λ n f, foldl (λ n r, n ⊕ rr_size r) n (fr_ranges f)) 0 request.

Definition is_object_storage_submission (request : list FileRanges) : bool :=
  check_object_storage is_uri request.

(** ** Building the workloads *)

Record Building := mkBuild { bd_store : store; bd_next : nat; bd_workloads : list Workload }.

(** The batches of one transfer join their workloads.  The index is in range by [divided_all]. *)
Fixpoint add_batches (bs : list Batch) (device : Device) (workloads : list Workload) :
    outcome (ResponseCode * list Workload) :=
  match bs with
  | [] => Ret (Success, workloads)
  | b :: bs =>
      if bool_decide (tasks b = []) then add_batches bs device workloads
      else
        let i := Z.to_nat (workload_index b) in
        match workloads !! i with
        | None => Throw StdException
        | Some w =>
            let '(result, w) := add_batch b device w in
            if decide (result = Success) then add_batches bs device (<[i := w]> workloads)
            else Ret (result, workloads)
        end
  end.

Fixpoint build_transfers (env : Environment) (request : list FileRanges) (sid : Z) (device : Device)
    (transfers : list ContiguousTransfer) (b : Building) : outcome (ResponseCode * Building) :=
  match transfers with
  | [] => Ret (Success, b)
  | x :: transfers =>
      match request !! Z.to_nat (tr_file_index x) with
      | None => Throw StdException
      | Some file =>
          let object_storage := is_uri (fr_path file) in
          (if object_storage then env_s3_init env else Ret ()) ;;!
          let chunk := task_chunk_bytesize object_storage (ac_s3_block_bytesize (env_config env))
                                           (env_fs_async_chunk_bytesize env) in
          let! (bs, _, s) := build_tasks (tr_tasks x) chunk sid (tr_file_index x) (tr_first_range_index x)
                                         object_storage (tr_range_sizes x) (bd_store b) (bd_next b) in
          let! (result, workloads) := add_batches bs device (bd_workloads b) in
          let b := mkBuild s (bd_next b + length (tr_range_sizes x)) workloads in
          if decide (result = Success) then build_transfers env request sid device transfers b
          else Ret (result, b)
      end
  end.

(** ** Dispatch *)

(** The loop over the workloads: how many were looked at before a push threw, [None] when none did. *)
Fixpoint dispatch (env : Environment) (next : nat) (workloads : list Workload) : option nat :=
  match workloads with
  | [] => None
  | w :: workloads =>
      if bool_decide (wl_batches w = []) then dispatch env (S next) workloads
      else match env_dispatch env next with
           | Ret _ => dispatch env (S next) workloads
           | Throw _ => Some next
           end
  end.

(** drain_undispatched *)
Definition drain_undispatched (workloads : list Workload) (from : nat) (w : world (R := queue)) :
    outcome (list Batch * world) :=
  fail_batches UnknownError (concat (map wl_batches (drop from workloads))) w.

(** What a submission leaves behind: the response, the id reported, the streamer, the workloads the
    pools took, and the submission's requests. *)
Record Submitted := mkSubmitted {
  sub_code : ResponseCode; sub_id : Z; sub_streamer : Streamer; sub_workloads : list Workload;
  sub_requests : store }.

Definition refused (code : ResponseCode) (id : Z) (st : Streamer) : Submitted := mkSubmitted code id st [] ∅.

Definition async_request (env : Environment) (request : list FileRanges) (device : Device) (st : Streamer) :
    outcome Submitted :=
  verify_requests request ;;!
  let '(locked, plugin) := lock_object_plugin request (st_plugin st) in
  if negb (bool_decide (locked = Success)) then Ret (refused locked 0 st)
  else
    let st := mkStreamer plugin (st_submissions st) (st_responder st) in
    let n := total_ranges request in
    if n >? unsigned_modulus - 1 then Ret (refused InvalidParameterError 0 st)
    else
      let object_storage := is_object_storage_submission request in
      if negb object_storage && negb (n =? 0) && negb (bool_decide (env_resolve env = Success))
      then Ret (refused (env_resolve env) 0 st)
      else
        match generate (st_submissions st) with
        | None => Throw StdException
        | Some (id, mgr) =>
            let st := mkStreamer plugin mgr (st_responder st) in
            if n =? 0 then Ret (refused Success id st)
            else
              let groups := if object_storage then [] else env_groups env in
              let! (num_workloads, assigned) := assigner is_uri (env_config env) groups request in
              let! (result, b) := build_transfers env request id device (as_transfers assigned)
                                    (mkBuild ∅ 0 (replicate num_workloads empty_workload)) in
              if negb (bool_decide (result = Success)) then Ret (refused result id st)
              else
                let! mgr := add id (wrap32 n) (total_request_bytes request) (env_now env) mgr in
                let responder := increment (wrap32 n) (st_responder st) in
                let workloads := bd_workloads b in
                match dispatch env 0 workloads with
                | None => Ret (mkSubmitted Success id (mkStreamer plugin mgr responder) workloads (bd_store b))
                | Some from =>
                    let! (_, w) := drain_undispatched workloads from (mkWorld (bd_store b) responder) in
                    Ret (mkSubmitted UnknownError id (mkStreamer plugin mgr (Batch.responder w))
                                     (take from workloads) (requests w))
                end
        end.

(** ** Backends do not mix *)

(** Every file with ranges is an object storage URI, or none is. *)
Definition uniform (request : list FileRanges) (obj : bool) : Prop :=
  Forall (λ f, fr_ranges f ≠ [] → is_uri (fr_path f) = obj) request.

Lemma scan_plugins_spec request : ∀ p fs p' fs', scan_plugins request p fs = Some (p', fs') →
  (p' = None → p = None ∧ uniform request false) ∧ (fs' = false → fs = false ∧ uniform request true).
Proof.
  unfold uniform. induction request as [|file request IH]; intros p fs p' fs' E; simpl in E.
  { injection E as <- <-. split; intros; split; (done || constructor). }
  assert (Hcons : ∀ obj, (fr_ranges file ≠ [] → is_uri (fr_path file) = obj) →
    Forall (λ f, fr_ranges f ≠ [] → is_uri (fr_path f) = obj) request →
    Forall (λ f, fr_ranges f ≠ [] → is_uri (fr_path f) = obj) (file :: request)) by (intros; by constructor).
  destruct (fr_ranges file) as [|r rs] eqn:Hr.
  - destruct (IH _ _ _ _ E) as [H1 H2].
    split; intros H; [destruct (H1 H)|destruct (H2 H)]; (split; [done|]); by apply Hcons.
  - unfold is_uri in Hcons. destruct (parse_uri (fr_path file)) as [u|] eqn:Hu.
    + assert (E' : scan_plugins request (Some (plugin_of u)) fs = Some (p', fs')).
      { destruct p as [q|]; [|done]. destruct (decide (q = plugin_of u)); [done|done]. }
      destruct (IH _ _ _ _ E') as [H1 H2]. split; intros H; [by destruct (H1 H)|]. destruct (H2 H). split; [done|].
      apply Hcons; [|done]. intros _. rewrite bool_decide_true; eauto.
    + destruct (IH _ _ _ _ E) as [H1 H2]. split; intros H; [|by destruct (H2 H)]. destruct (H1 H). split; [done|].
      apply Hcons; [|done]. intros _. rewrite bool_decide_false; [done|]. by intros [? ?].
Qed.

Lemma check_uniform request obj : uniform request obj →
  is_object_storage_submission request = obj ∨ Forall (λ f, fr_ranges f = []) request.
Proof.
  unfold is_object_storage_submission. induction 1 as [|file request Hf Hu IH]; simpl; [by right|].
  destruct (fr_ranges file) eqn:Hr; [|left; by apply Hf].
  destruct IH as [IH|IH]; [by left|right; by constructor].
Qed.

Lemma lock_uniform request locked locked' : lock_object_plugin request locked = (Success, locked') →
  uniform request (is_object_storage_submission request).
Proof.
  unfold lock_object_plugin. destruct (scan_plugins request None false) as [[p fs]|] eqn:E; [|done].
  apply scan_plugins_spec in E as [H1 H2]. intros Hl.
  assert (∃ obj, uniform request obj) as [obj Hu].
  { destruct p as [p|]; [|destruct (H1 eq_refl); eauto]. destruct fs; [done|]. destruct (H2 eq_refl). eauto. }
  destruct (check_uniform _ _ Hu) as [->|He]; [done|].
  eapply Forall_impl; [exact He|]. by intros f ->.
Qed.

(** ** Adding batches to workloads *)

Abbreviation batches_of := (λ ws, concat (map wl_batches ws)).

Lemma insert_batch (ws : list Workload) i w w' b : ws !! i = Some w → wl_batches w' = wl_batches w ++ [b] →
  batches_of (<[i := w']> ws) ≡ₚ batches_of ws ++ [b].
Proof.
  intros (l1 & l2 & -> & ->)%list_elem_of_split_length Hw'.
  rewrite insert_app_r_alt, Nat.sub_diag by lia. simpl. rewrite !map_app, !concat_app. simpl. rewrite Hw'.
  solve_Permutation.
Qed.

Lemma add_batches_spec obj device bs : ∀ ws,
  Forall (for_device obj device) ws →
  Forall (λ b, tasks b ≠ [] ∧ is_object_storage b = obj ∧ (Z.to_nat (workload_index b) < length ws)%nat) bs →
  ∃ ws', add_batches bs device ws = Ret (Success, ws') ∧ Forall (for_device obj device) ws' ∧
    length ws' = length ws ∧ batches_of ws' ≡ₚ batches_of ws ++ bs.
Proof.
  induction bs as [|b bs IH]; intros ws Hws Hbs; simpl.
  - exists ws. split_and!; [done..|]. by rewrite app_nil_r.
  - apply Forall_cons in Hbs as [(Hne & <- & Hi) Hbs]. rewrite bool_decide_false by done.
    destruct (lookup_lt_is_Some_2 _ _ Hi) as [w Hw]. rewrite Hw.
    pose proof Hws as Hws'. rewrite Forall_lookup in Hws'.
    destruct (add_batch_accepts b device w (Hws' _ _ Hw)) as (w' & -> & Hb & Hd). rewrite decide_True by done.
    destruct (IH (<[Z.to_nat (workload_index b) := w']> ws)) as (ws' & E & Hall & Hlen & Hp).
    + by apply Forall_insert.
    + by rewrite length_insert.
    + rewrite length_insert in Hlen. exists ws'. split_and!; [done..|].
      rewrite Hp, (insert_batch _ _ _ _ _ Hw Hb), <- app_assoc. done.
Qed.

(** ** Building *)

Section Build.
Context (env : Environment) (request : list FileRanges) (sid : Z) (device : Device) (obj : bool) (num : nat).

Definition chunk : Z :=
  task_chunk_bytesize obj (ac_s3_block_bytesize (env_config env)) (env_fs_async_chunk_bytesize env).

(** What the assigner promises of a transfer, and the request of its ranges. *)
Record ready (x : ContiguousTransfer) : Prop := {
  rd_sliced : sliced x;
  rd_bounds : 0 <= tr_offset x ∧ tr_offset x + tr_size x + chunk < size_modulus;
  rd_sizes : Forall (λ n, 0 <= n) (tr_range_sizes x);
  rd_sum : sumZ (tr_range_sizes x) = tr_size x;
  rd_first : is_unsigned (tr_first_range_index x);
  rd_workloads : Forall (λ t, 0 <= frt_workload t < Z.of_nat num) (tr_tasks x);
  rd_file : ∃ file, request !! Z.to_nat (tr_file_index x) = Some file ∧ is_uri (fr_path file) = obj }.

(** An upper bound on the tasks of a transfer. *)
Definition weight (x : ContiguousTransfer) : Z :=
  tr_size x / chunk + 1 + Z.of_nat (length (tr_range_sizes x)) + Z.of_nat (length (tr_tasks x)).

(** The [j]-th range of transfer [x], in bytes after the transfer's start, is read by its tasks. *)
Definition served (s : store) (ts : list Task) (x : ContiguousTransfer) (j : nat) (size : Z) : Prop :=
  let before := sumZ (take j (tr_range_sizes x)) in
  ∃ k r, s !! k = Some r ∧
    range_request (tr_offset x) (tr_file_index x) (tr_first_range_index x) (tr_destination x) r j before size ∧
    ∃ ts', filter (λ t, Task.request t = k) ts ≡ₚ ts' ∧
      tiles t_offset t_bytesize (tr_offset x + before) ts' (tr_offset x + before + size) ∧
      Forall (λ t, destination s t = Ret (tr_destination x + (t_offset t - tr_offset x))) ts'.

Record assembled (xs : list ContiguousTransfer) (b : Building) : Prop := {
  as_consistent : consistent (bd_store b) (all_tasks (batches_of (bd_workloads b)));
  as_open : ∀ k, is_Some (bd_store b !! k) → pending k (all_tasks (batches_of (bd_workloads b))) ≠ 0%nat;
  as_owner : Forall (batch_ok sid (bd_store b)) (batches_of (bd_workloads b));
  as_keys : ∀ k, is_Some (bd_store b !! k) ↔ (k < bd_next b)%nat;
  as_next : bd_next b = length (concat (map tr_range_sizes xs));
  as_devices : Forall (for_device obj device) (bd_workloads b);
  as_number : length (bd_workloads b) = num;
  as_served : Forall (λ x, ∀ j size, tr_range_sizes x !! j = Some size →
                served (bd_store b) (all_tasks (batches_of (bd_workloads b))) x j size) xs;
  as_count : Z.of_nat (length (all_tasks (batches_of (bd_workloads b)))) <= sumZ (map weight xs) }.

Lemma all_tasks_perm bs1 bs2 : bs1 ≡ₚ bs2 → all_tasks bs1 ≡ₚ all_tasks bs2.
Proof. intros H. unfold all_tasks. by rewrite H. Qed.

Lemma all_tasks_app bs1 bs2 : all_tasks (bs1 ++ bs2) = all_tasks bs1 ++ all_tasks bs2.
Proof. unfold all_tasks. by rewrite map_app, concat_app. Qed.

Lemma elem_of_all_tasks t bs : t ∈ all_tasks bs ↔ ∃ b, b ∈ bs ∧ t ∈ tasks b.
Proof.
  unfold all_tasks. induction bs as [|b bs IH]; simpl.
  - split; [by intros ?%not_elem_of_nil|]. intros (b & ?%not_elem_of_nil & _). done.
  - rewrite elem_of_app, IH. split.
    + intros [Ht|(y & Hy & Ht)]; [exists b; split; [left|done]|exists y; split; [by right|done]].
    + intros (y & [->|Hy]%elem_of_cons & Ht); [by left|right; eauto].
Qed.

Lemma destination_weaken (s s' : store) t d : s ⊆ s' → destination s t = Ret d → destination s' t = Ret d.
Proof.
  unfold destination. intros Hs Hd. destruct (s !! Task.request t) as [r|] eqn:Hr; [|done].
  by rewrite (lookup_weaken _ _ _ _ Hr Hs).
Qed.

Lemma owned_weaken fidx (s s' : store) t : s ⊆ s' → owned fidx s t → owned fidx s' t.
Proof. intros Hs (r & Hr & Hf). exists r. split; [by eapply lookup_weaken|done]. Qed.

Lemma batch_ok_weaken (s s' : store) b : s ⊆ s' → batch_ok sid s b → batch_ok sid s' b.
Proof.
  intros Hs [Hsid Ho]. split; [done|]. eapply Forall_impl; [exact Ho|]. intros t. by apply owned_weaken.
Qed.

(** What was served stays served when new requests bring tasks of their own. *)
Lemma served_weaken (s s' : store) ts ts' new x j size : s ⊆ s' → ts' ≡ₚ ts ++ new →
  (∀ t k, t ∈ new → is_Some (s !! k) → Task.request t ≠ k) →
  served s ts x j size → served s' ts' x j size.
Proof.
  intros Hs Hp Hnew (k & r & Hk & Hr & ts1 & Hts & Htl & Hd).
  exists k, r. split; [by eapply lookup_weaken|]. split; [done|]. exists ts1. split_and!; [|done|].
  - rewrite Hp, filter_app, Hts, (filter_none _ new); [by rewrite app_nil_r|]. intros t Ht. eauto.
  - eapply Forall_impl; [exact Hd|]. intros t. by apply destination_weaken.
Qed.

Lemma build_transfer_spec xs x b :
  assembled xs b → ready x → (obj = true → env_s3_init env = Ret ()) → 0 < chunk →
  sumZ (map weight (xs ++ [x])) < unsigned_modulus →
  ∃ bs total s ws, build_tasks (tr_tasks x) chunk sid (tr_file_index x) (tr_first_range_index x) obj
                     (tr_range_sizes x) (bd_store b) (bd_next b) = Ret (bs, total, s) ∧
    add_batches bs device (bd_workloads b) = Ret (Success, ws) ∧
    assembled (xs ++ [x]) (mkBuild s (bd_next b + length (tr_range_sizes x)) ws).
Proof.
  intros [Hcons Hopen Hown Hkeys Hnext Hdev Hnum Hserved Hcount] [Hsl [Ho Hb] Hsz Hsum Hf Hw _] _ Hc Hroom.
  rewrite map_app, sumZ_app in Hroom. simpl in Hroom. unfold weight in Hroom at 2.
  set (ts0 := all_tasks (batches_of (bd_workloads b))) in *.
  destruct (tr_tasks x) as [|sl0 sls] eqn:Htk; [by destruct (sl_some _ Hsl)|]. rewrite <- Htk in *.
  assert (Hsl0 : tr_tasks x !! 0%nat = Some sl0) by (by rewrite Htk).
  assert (Hdst : frt_destination sl0 = tr_destination x).
  { pose proof (sl_lockstep _ Hsl) as Hl. pose proof (sl_tiles _ Hsl) as Ht. rewrite Htk in Hl, Ht.
    apply Forall_cons in Hl as [Hl _]. apply tiles_cons_inv in Ht as [Ht _]. unfold lockstep in Hl. lia. }
  destruct (build_tasks_spec (tr_tasks x) chunk (tr_offset x) (tr_offset x + tr_size x) (sl_tiles _ Hsl) Ho Hc Hb
    (bd_store b) ts0 (bd_next b) (tr_file_index x) (tr_first_range_index x) (tr_destination x) sid obj sl0
    (tr_range_sizes x)) as (bs & s & E & [Hbb Hbo Hbf Hbw _ Hold Hreq Hpc Hnew Hcnt Honly Hcons' Hopen']); try done.
  { lia. }
  { intros k Hk. apply eq_None_not_Some. rewrite Hkeys. lia. }
  { replace (tr_offset x + tr_size x - tr_offset x) with (tr_size x) by lia. lia. }
  replace (tr_offset x + tr_size x - tr_offset x) with (tr_size x) in * by lia.
  destruct (add_batches_spec obj device bs (bd_workloads b) Hdev) as (ws & Ew & Hdev' & Hlen & Hp).
  { rewrite Forall_forall in Hbb. rewrite Forall_forall in Hbf. rewrite Forall_forall in Hbw.
    rewrite Forall_forall in Hw. apply Forall_forall. intros y Hy. split; [apply (bb_some _ _ _ _ _ _ (Hbb y Hy))|].
    split; [apply (Hbf y Hy)|]. destruct (Hbw y Hy) as (sl & Hin & -> & _). specialize (Hw sl Hin). simpl in Hw. lia. }
  exists bs, (tr_size x), s, ws. split; [done|]. split; [done|].
  pose proof (all_tasks_perm _ _ Hp) as Hpt. rewrite all_tasks_app in Hpt.
  assert (Hkeys' : ∀ k, is_Some (s !! k) ↔ (k < bd_next b + length (tr_range_sizes x))%nat).
  { intros k. split.
    - intros Hk. destruct (Honly k Hk) as [Hk'|]; [apply Hkeys in Hk'|]; lia.
    - intros Hk. destruct (decide (k < bd_next b)%nat) as [Hlt|Hge].
      + apply Hkeys in Hlt as [r Hr]. exists r. by eapply lookup_weaken.
      + destruct (lookup_lt_is_Some_2 (tr_range_sizes x) (k - bd_next b)) as [size Hj]; [lia|].
        destruct (Hreq _ _ Hj) as (r & Hr & _). replace (bd_next b + (k - bd_next b))%nat with k in Hr by lia. eauto. }
  assert (Hdestall : ∀ t, t ∈ all_tasks bs → destination s t = Ret (tr_destination x + (t_offset t - tr_offset x))).
  { intros t (y & Hy & Ht)%elem_of_all_tasks. rewrite Forall_forall in Hbb.
    pose proof (bb_ok _ _ _ _ _ _ (Hbb y Hy)) as Hok. rewrite Forall_forall in Hok. by destruct (Hok t Ht) as (_ & _ & ? & _). }
  assert (Holdnew : ∀ t k, t ∈ all_tasks bs → is_Some (bd_store b !! k) → Task.request t ≠ k).
  { intros t k Ht Hk Heq. rewrite Forall_forall in Hnew. specialize (Hnew t Ht). apply Hkeys in Hk. simpl in Hnew. lia. }
  split; simpl.
  - by rewrite Hpt.
  - intros k Hk. rewrite Hpt. by apply Hopen'.
  - rewrite Hp. apply Forall_app. split; [|done]. eapply Forall_impl; [exact Hown|]. intros y. by apply batch_ok_weaken.
  - done.
  - rewrite map_app, concat_app, length_app. simpl. rewrite app_nil_r. lia.
  - done.
  - lia.
  - apply Forall_app. split.
    + eapply Forall_impl; [exact Hserved|]. intros y Hy j size Hj. eapply served_weaken; [exact Hold|exact Hpt|done|by apply Hy].
    + apply Forall_singleton. intros j size Hj. destruct (Hreq _ _ Hj) as (r & Hr & Hrr).
      destruct (Hpc _ _ Hj) as (ts' & Hts' & Htl).
      exists (bd_next b + j)%nat, r. split; [done|]. split; [done|]. exists ts'. split_and!; [|done|].
      * rewrite Hpt, filter_app, filter_none; [done|]. intros t Ht Heq.
        destruct (cons_live _ _ Hcons t Ht) as [r' Hr']. rewrite Heq in Hr'.
        assert (is_Some (bd_store b !! (bd_next b + j)%nat)) as Hlt%Hkeys by eauto. lia.
      * apply Forall_forall. intros t Ht. apply Hdestall. rewrite <- Hts' in Ht.
        by apply list_elem_of_filter in Ht as [_ ?].
  - rewrite Hpt, length_app, map_app, sumZ_app. simpl. unfold weight at 2. fold ts0. lia.
Qed.

Lemma build_transfers_spec xs' : ∀ xs b,
  assembled xs b → Forall ready xs' → (obj = true → env_s3_init env = Ret ()) → 0 < chunk →
  sumZ (map weight (xs ++ xs')) < unsigned_modulus → Forall (λ x, 0 <= tr_size x) xs' →
  ∃ b', build_transfers env request sid device xs' b = Ret (Success, b') ∧ assembled (xs ++ xs') b'.
Proof.
  induction xs' as [|x xs' IH]; intros xs b Hb Hr Hs3 Hc Hroom Hpos; simpl.
  - exists b. by rewrite app_nil_r.
  - apply Forall_cons in Hr as [Hx Hr]. apply Forall_cons in Hpos as [Hp0 Hpos].
    replace (xs ++ x :: xs') with ((xs ++ [x]) ++ xs') in * by by rewrite <- app_assoc.
    assert (Hrest : 0 <= sumZ (map weight xs')).
    { apply sumZ_nonneg, Forall_map. eapply Forall_impl; [exact Hpos|]. intros y Hy. simpl in Hy. unfold weight.
      pose proof (Z.div_pos (tr_size y) chunk Hy Hc). lia. }
    rewrite map_app, sumZ_app in Hroom.
    destruct (build_transfer_spec xs x b Hb Hx Hs3 Hc) as (bs & total & s & ws & E & Ew & Hb'); [lia|].
    destruct (rd_file _ Hx) as (file & -> & ->).
    assert ((if obj then env_s3_init env else Ret ()) = Ret ()) as -> by (destruct obj; auto). cbn [obind].
    fold chunk. rewrite E. cbn [obind]. rewrite Ew. cbn [obind]. rewrite decide_True by done.
    apply (IH (xs ++ [x])); try done. by rewrite map_app, sumZ_app.
Qed.

Lemma assembled_initial : assembled [] (mkBuild ∅ 0 (replicate num empty_workload)).
Proof.
  assert (Hb : batches_of (replicate num empty_workload) = []) by (clear; induction num as [|n IH]; [done|exact IH]).
  split; simpl; rewrite ?Hb; try done.
  - split; [intros k r Hk; by rewrite lookup_empty in Hk|done|intros t Ht; by apply not_elem_of_nil in Ht].
  - intros k [r Hk]. by rewrite lookup_empty in Hk.
  - intros k. rewrite lookup_empty. split; [intros [? ?]; done|lia].
  - apply Forall_replicate. by left.
  - apply length_replicate.
Qed.
End Build.

(** ** The whole submission *)

Lemma total_ranges_spec request : Z.of_nat (range_count request) < size_modulus →
  total_ranges request = Z.of_nat (range_count request).
Proof.
  unfold total_ranges, range_count.
  cut (∀ acc, 0 <= acc → acc + Z.of_nat (length (concat (map fr_ranges request))) < size_modulus →
    foldl (λ n f, n ⊕ Z.of_nat (length (fr_ranges f))) acc request =
    acc + Z.of_nat (length (concat (map fr_ranges request)))).
  { intros H Hlt. rewrite (H 0); lia. }
  induction request as [|f request IH]; intros acc Ha Hlt; simpl in *; [lia|].
  rewrite length_app in *. replace (acc ⊕ Z.of_nat (length (fr_ranges f))) with (acc + Z.of_nat (length (fr_ranges f)))
    by (unwrap; lia). rewrite IH by lia. lia.
Qed.

(** Range [r], number [j] of file [f], is owed one response, and its tasks read exactly its bytes into
    its destination. *)
Definition range_served (s : store) (ts : list Task) (f j : Z) (r : ReadRange) : Prop :=
  ∃ k q, s !! k = Some q ∧ r_file_index q = f ∧ r_index q = j ∧ r_offset q = rr_offset r ∧
    r_bytesize q = rr_size r ∧ r_dst q = rr_dst r ∧ r_ret q = Success ∧
    ∃ ts', filter (λ t, Task.request t = k) ts ≡ₚ ts' ∧
      tiles t_offset t_bytesize (rr_offset r) ts' (rr_offset r + rr_size r) ∧
      Forall (λ t, destination s t = Ret (rr_dst r + (t_offset t - rr_offset r))) ts'.

Lemma served_range s ts x rs k r j : served s ts x k (rr_size r) → covers_ranges x rs → rs !! k = Some r →
  tr_first_range_index x + Z.of_nat k = j → is_unsigned j → range_served s ts (tr_file_index x) j r.
Proof.
  intros (key & q & Hq & (Ho & Hf & Hi & Hb & Hd & Hr) & ts' & Hts & Htl & Hdest) Hc Hk <- Hj.
  destruct Hc as [Hsz Ht Hl _ _].
  assert (Hoff : tr_offset x + sumZ (take k (tr_range_sizes x)) = rr_offset r).
  { rewrite Hsz. rewrite (tiles_lookup _ _ _ _ _ _ _ Ht Hk). rewrite <- firstn_map. done. }
  rewrite Hoff in Htl. rewrite Forall_lookup in Hl. pose proof (Hl _ _ Hk) as Hdst. simpl in Hdst.
  exists key, q. split_and!; try done; try lia.
  - rewrite Hi. unwrap. done.
  - exists ts'. split; [done|]. split; [done|]. eapply Forall_impl; [exact Hdest|]. intros t Hdt. rewrite Hdt. f_equal. lia.
Qed.

Section Accepted.
Context (env : Environment) (request : list FileRanges) (device : Device) (st : Streamer).

Abbreviation obj := (is_object_storage_submission request).
Abbreviation chunk_bytes := (chunk env obj).

(** A well-formed request, and an environment that lets it through. *)
Record acceptable : Prop := {
  ok_config : config_ok (env_config env);
  ok_chunk : 0 < env_fs_async_chunk_bytesize env;
  ok_request : valid_request request;
  ok_files : Z.of_nat (length request) < unsigned_modulus;
  ok_bytes : request_bytes request < size_modulus;
  ok_ends : Forall (λ f, Forall (λ r, rr_offset r + rr_size r + chunk_bytes < size_modulus) (fr_ranges f)) request;
  ok_count : 0 < Z.of_nat (range_count request) < unsigned_modulus;
  ok_tasks : ∀ n asg, assigner is_uri (env_config env) (if obj then [] else env_groups env) request = Ret (n, asg) →
               sumZ (map (weight env obj) (as_transfers asg)) < unsigned_modulus;
  ok_verified : verify_requests request = Ret ();
  ok_plugin : (lock_object_plugin request (st_plugin st)).1 = Success;
  ok_resolve : obj = false → env_resolve env = Success;
  ok_s3 : obj = true → env_s3_init env = Ret ();
  ok_dispatch : ∀ i, env_dispatch env i = Ret ();
  ok_ids : is_size (next_id (st_submissions st)) ∧
           2 * (Z.of_nat (base.size (submissions (st_submissions st))) + 1) < size_modulus;
  ok_queue : stopped (st_responder st) = false ∧ 0 <= running (st_responder st) ∧
             running (st_responder st) + Z.of_nat (range_count request) < unsigned_modulus }.

Lemma dispatch_all i ws : (∀ i, env_dispatch env i = Ret ()) → dispatch env i ws = None.
Proof.
  intros H. revert i. induction ws as [|w ws IH]; intros i; simpl; [done|]. case_bool_decide; [done|]. by rewrite H.
Qed.

(** The transfers the assigner returns are ready to be built. *)
Lemma assigned_ready xs num asg groups : acceptable → coalesced_files 0 request xs →
  divided_all xs groups num asg → uniform request obj →
  Forall (ready env request obj num) (as_transfers asg) ∧ Forall (λ x, 0 <= tr_size x) (as_transfers asg).
Proof.
  intros Hok Hco [Hd Hsame _ _] Hu.
  assert (H : ∀ x, x ∈ as_transfers asg → ready env request obj num x ∧ 0 <= tr_size x).
  { intros x Hx. apply list_elem_of_lookup in Hx as [i Hi].
    destruct (lookup_lt_is_Some_2 xs i) as [x0 Hx0]; [rewrite <- Hsame; by eapply lookup_lt_Some|].
    destruct (Hd _ _ Hx0) as (x' & Hx' & He & Hsl & Hw). assert (x' = x) as -> by congruence.
    pose proof (list_elem_of_lookup_2 _ _ _ Hx0) as Hin.
    destruct (coalesced_files_elem _ _ _ _ Hco Hin) as (n & file & rs1 & Hn & Hf & Hc & Hrs & Hfirst & Hlast).
    pose proof (ok_request Hok) as Hv. unfold valid_request in Hv. rewrite Forall_lookup in Hv.
    destruct (Hv _ _ Hn) as [Hvr Hvl].
    assert (Hvr1 : Forall valid_range rs1).
    { rewrite Forall_forall in *. intros r Hr. by apply Hvr, Hrs. }
    pose proof (covers_bound _ _ Hc Hvr1) as (H1 & H2 & H3).
    assert (Hends : Forall (λ r, rr_offset r + rr_size r + chunk_bytes < size_modulus) rs1).
    { pose proof (ok_ends Hok) as He2. rewrite Forall_lookup in He2. specialize (He2 _ _ Hn). simpl in He2.
      rewrite Forall_forall in *. intros r Hr. by apply He2, Hrs. }
    destruct Hc as [Hcs Hct Hcl Hcn Hck]. subst x0. simpl in *.
    assert (Hend : tr_offset x + tr_size x + chunk_bytes < size_modulus).
    { destruct rs1 as [|r rs1 _] using rev_ind; [done|]. apply tiles_snoc_inv in Hct as (_ & _ & ->).
      apply Forall_app in Hends as [_ Hends]. apply Forall_cons in Hends as [Hends _]. exact Hends. }
    split; [|done]. split; try done.
    - rewrite Hcs. apply Forall_map. eapply Forall_impl; [exact Hvr1|]. by intros r (_ & ? & _).
    - rewrite Hcs. pose proof (tiles_end _ _ _ _ _ Hct). lia.
    - split; [done|]. lia.
    - eapply Forall_impl; [exact Hw|]. by intros t [? _].
    - exists file. rewrite Hf. replace (Z.to_nat (0 + Z.of_nat n)) with n by lia. split; [done|].
      unfold uniform in Hu. rewrite Forall_lookup in Hu. apply (Hu _ _ Hn).
      intros Hnil. rewrite Hnil in Hrs. destruct rs1 as [|r rs1]; [done|]. by apply (not_elem_of_nil r), Hrs; left. }
  split; apply Forall_forall; intros x Hx; by apply H.
Qed.

Record accepted (s : Submitted) : Prop := {
  ac_code : sub_code s = Success;
  ac_id : sub_id s ≠ 0 ∧ submissions (st_submissions st) !! sub_id s = None;
  ac_fresh : fresh (λ _, sub_id s) (batches_of (sub_workloads s)) (mkWorld (sub_requests s) (st_responder (sub_streamer s)));
  ac_served : ∀ f file j r, request !! f = Some file → fr_ranges file !! j = Some r →
    range_served (sub_requests s) (all_tasks (batches_of (sub_workloads s))) (Z.of_nat f) (Z.of_nat j) r;
  ac_size : base.size (sub_requests s) = range_count request;
  ac_homogeneous : Forall (for_device obj device) (sub_workloads s);
  ac_running : running (st_responder (sub_streamer s)) = running (st_responder st) + Z.of_nat (range_count request);
  ac_log : responses (st_responder (sub_streamer s)) = responses (st_responder st);
  ac_registered : outstanding (st_submissions (sub_streamer s)) (sub_id s) = Z.of_nat (range_count request) }.

Lemma keys_size (s : store) n : (∀ k, is_Some (s !! k) ↔ (k < n)%nat) → base.size s = n.
Proof.
  intros H. rewrite <- size_dom. transitivity (length (seq 0 n)); [|apply length_seq].
  rewrite <- (size_list_to_set (C := gset nat)) by apply NoDup_seq.
  f_equal. apply set_eq. intros k. rewrite elem_of_dom, H, elem_of_list_to_set, elem_of_seq. lia.
Qed.

Lemma chunk_pos : acceptable → 0 < chunk_bytes.
Proof.
  intros Hok. unfold chunk, task_chunk_bytesize. destruct obj; [apply (ck_s3_block _ (ok_config Hok))|apply (ok_chunk Hok)].
Qed.

Lemma erase_sizes xs groups n asg : divided_all xs groups n asg →
  concat (map tr_range_sizes (as_transfers asg)) = concat (map tr_range_sizes xs).
Proof.
  intros [Hd Hsame _ _]. f_equal. apply list_eq. intros i. rewrite !list_lookup_fmap.
  destruct (xs !! i) as [x0|] eqn:Hx0.
  - destruct (Hd _ _ Hx0) as (x & -> & <- & _). done.
  - rewrite lookup_ge_None_2; [done|]. rewrite Hsame. by apply lookup_ge_None.
Qed.

Lemma async_request_spec : acceptable → ∃ s, async_request env request device st = Ret s ∧ accepted s.
Proof.
  intros Hok. unfold async_request. rewrite (ok_verified Hok). cbn [obind].
  pose proof (ok_plugin Hok) as Hpl. destruct (lock_object_plugin request (st_plugin st)) as [code plugin] eqn:Elock.
  simpl in Hpl. subst code. apply lock_uniform in Elock as Huni. cbn [negb bool_decide].
  destruct (ok_count Hok) as [Hc1 Hc2]. rewrite total_ranges_spec by mlia.
  rewrite bool_decide_true by done. simpl negb. cbv iota.
  rewrite Z.gtb_ltb, (proj2 (Z.ltb_ge _ _)) by lia.
  rewrite (proj2 (Z.eqb_neq _ _)) by lia. rewrite andb_true_r.
  assert ((negb obj && negb (bool_decide (env_resolve env = Success))) = false) as ->.
  { destruct obj eqn:Ho; [done|]. by rewrite (ok_resolve Hok Ho), bool_decide_true. }
  simpl st_submissions. simpl st_responder.
  destruct (ok_ids Hok) as [Hid1 Hid2].
  destruct (generate_spec (st_submissions st) Hid1 Hid2) as (id & mgr & -> & Hsub & Hid0 & _ & Hnew & _).
  set (groups := if obj then [] else env_groups env).
  pose proof (assigner_spec is_uri (env_config env) groups request (ok_config Hok) (ok_request Hok) (ok_files Hok)) as Has.
  rewrite (proj2 (Z.ltb_lt _ _)) in Has by apply (ok_bytes Hok).
  destruct Has as (xs & num & asg & Ea & Hco & Hdiv). rewrite Ea. cbn [obind].
  destruct (assigned_ready xs num asg groups Hok Hco Hdiv Huni) as [Hready Hpos].
  destruct (build_transfers_spec env request id device obj num (as_transfers asg) [] _
              (assembled_initial env id device obj num) Hready (ok_s3 Hok) (chunk_pos Hok)) as (b & Eb & Hb);
    [by apply (ok_tasks Hok num)|done|].
  rewrite Eb. cbn [obind]. rewrite bool_decide_true by done. simpl negb. cbv iota.
  replace (wrap32 (Z.of_nat (range_count request))) with (Z.of_nat (range_count request)) by (unwrap; done).
  unfold add. rewrite ASSERT_true by (by rewrite Hsub, Hnew).
  cbn [obind]. rewrite dispatch_all by apply (ok_dispatch Hok).
  eexists. split; [done|]. destruct Hb as [Hcons Hopen Hown Hkeys Hnext Hdev Hnum Hserved _].
  assert (Hsize : base.size (bd_store b) = range_count request).
  { rewrite (keys_size _ _ Hkeys), Hnext. simpl. rewrite (erase_sizes _ _ _ _ Hdiv). by apply coalesced_files_count with 0. }
  destruct (ok_queue Hok) as (Hq1 & Hq2 & Hq3).
  assert (Hrun : add32 (running (st_responder st)) (Z.of_nat (range_count request)) =
                 running (st_responder st) + Z.of_nat (range_count request)) by (unwrap; done).
  split; simpl; try done.
  - split; simpl; try done.
    + eapply Forall_impl; [exact Hown|]. intros y. apply batch_ok_owned.
    + rewrite Hrun, Hsize. split_and!; [done|mlia|lia].
  - intros f file j r Hf Hj. destruct (coalesced_files_range _ _ _ _ _ _ _ Hco Hf Hj) as (x0 & rs1 & k & Hx0 & Hc & Hk & Hfi & Hji).
    apply list_elem_of_lookup in Hx0 as [i Hi]. destruct Hdiv as [Hd _ _ _].
    destruct (Hd _ _ Hi) as (x & Hx & He & _). apply list_elem_of_lookup_2 in Hx.
    rewrite Forall_forall in Hserved. simpl in Hserved.
    assert (Hsz : tr_range_sizes x !! k = Some (rr_size r)).
    { replace (tr_range_sizes x) with (tr_range_sizes x0) by by rewrite <- He. rewrite (cr_sizes _ _ Hc), list_lookup_fmap, Hk. done. }
    pose proof (Hserved x Hx k _ Hsz) as Hs.
    assert (Hfx : tr_file_index x = Z.of_nat f) by (replace (tr_file_index x) with (tr_file_index x0) by (by rewrite <- He); lia).
    assert (Hjx : tr_first_range_index x + Z.of_nat k = Z.of_nat j)
      by (replace (tr_first_range_index x) with (tr_first_range_index x0) by (by rewrite <- He); lia).
    rewrite <- Hfx. replace (tr_file_index x) with (tr_file_index x0) by by rewrite <- He.
    eapply served_range; [|exact Hc|exact Hk| |].
    + unfold served in *. by rewrite <- He.
    + by rewrite <- He.
    + pose proof (ok_request Hok) as Hv. unfold valid_request in Hv. rewrite Forall_lookup in Hv.
      destruct (Hv _ _ Hf) as [_ Hvl]. apply lookup_lt_Some in Hj. mlia.
  - unfold outstanding. simpl. by rewrite lookup_insert_eq.
Qed.

Lemma drained_submission s bs' w' :
  acceptable → async_request env request device st = Ret s →
  steps (batches_of (sub_workloads s), mkWorld (sub_requests s) (st_responder (sub_streamer s))) (bs', w') →
  Forall (λ t, t_finished t = true) (all_tasks bs') →
  ∃ l, responses (Batch.responder w') = responses (st_responder st) ++ l ∧
    length l = range_count request ∧
    ∀ f file j r, request !! f = Some file → fr_ranges file !! j = Some r →
      ∃ code, mkResponse (sub_id s) (Z.of_nat f) (Z.of_nat j) code ∈ l.
Proof.
  intros Hok E Hsteps Hdone. destruct (async_request_spec Hok) as (s' & E' & Hacc).
  assert (s' = s) as -> by congruence. destruct Hacc as [_ _ Hfresh Hserved Hsize _ _ Hlog _].
  pose proof (fresh_ok _ _ _ Hfresh) as Hsys.
  destruct (steps_effect (λ _, sub_id s) _ (batches_of (sub_workloads s),
    mkWorld (sub_requests s) (st_responder (sub_streamer s))) (bs', w') [] Hsys Hsteps) as (a & [Hacct _] & Hsame).
  destruct Hacct as [_ Hnd Ha (l & Hl & Hfa) _]. simpl in *. rewrite Hlog in Hl.
  assert (Hpend : ∀ k, pending k (all_tasks bs') = 0%nat).
  { intros k. unfold pending. rewrite filter_none; [done|]. rewrite Forall_forall in Hdone. intros t Ht [_ Hf].
    rewrite (Hdone t Ht) in Hf. done. }
  assert (Hall : ∀ k, k ∈ a ↔ is_Some (sub_requests s !! k)).
  { intros k. rewrite Ha, Hpend. split; [intros [[r Hr] _]|intros [r Hr]].
    - apply Hsame. eauto.
    - destruct (Hsame k) as [Hsm Hsm2]. destruct (Hsm2 _ Hr) as (r' & Hr' & _). eauto. }
  exists l. split; [done|]. split.
  - rewrite <- (Forall2_length _ _ _ Hfa), <- Hsize, <- size_dom.
    rewrite <- (size_list_to_set (C := gset nat)) by done. f_equal. apply set_eq. intros k.
    by rewrite elem_of_list_to_set, elem_of_dom.
  - intros f file j r Hf Hj. destruct (Hserved _ _ _ _ Hf Hj) as (k & q & Hq & Hqf & Hqi & _).
    assert (Hk : k ∈ a) by (apply Hall; eauto). apply list_elem_of_lookup in Hk as [i Hi].
    destruct (Forall2_lookup_l _ _ _ _ _ Hfa Hi) as (x & Hx & r' & Hr' & ->).
    destruct (Hsame k) as [_ Hsm]. destruct (Hsm _ Hq) as (r2 & Hr2 & Hi2 & Hf2).
    rewrite Hr' in Hr2. injection Hr2 as <-.
    exists (r_ret r'). apply list_elem_of_lookup_2 in Hx. unfold response_of in Hx. by rewrite Hf2, Hi2, Hqf, Hqi in Hx.
Qed.

(** An acceptable submission is accepted whole: async_request returns Success with a fresh id; the
    workloads hold batches whose tasks, range by range, read exactly the bytes asked for into the
    destination asked for, for any chunk size, worker count and grouping of files; there is exactly one
    request per range; the responder and the registry both expect exactly that many responses. *)
Theorem async_request_accepts : acceptable → ∃ s, async_request env request device st = Ret s ∧ accepted s.
Proof. apply async_request_spec. Qed.

(** C5: an accepted submission drains with one response per range: once the handlers of its batches, in
    any interleaving, have finished every task, the responder holds exactly as many new responses as
    there are ranges, and every range of every file has its own. *)
Theorem submission_drains s bs' w' :
  acceptable → async_request env request device st = Ret s →
  steps (batches_of (sub_workloads s), mkWorld (sub_requests s) (st_responder (sub_streamer s))) (bs', w') →
  Forall (λ t, t_finished t = true) (all_tasks bs') →
  ∃ l, responses (Batch.responder w') = responses (st_responder st) ++ l ∧
    length l = range_count request ∧
    ∀ f file j r, request !! f = Some file → fr_ranges file !! j = Some r →
      ∃ code, mkResponse (sub_id s) (Z.of_nat f) (Z.of_nat j) code ∈ l.
Proof. apply drained_submission. Qed.
End Accepted.

(** ** A concrete submission: two adjacent ranges of one file, tasks of at most four bytes, one worker *)

Definition submitted_request : list FileRanges :=
  [mkFileRanges (txt "/m") [mkReadRange 4 6 100; mkReadRange 10 2 106]].

Definition submitted_env : Environment :=
  mkEnvironment (mkAssignerConfig 1 1 8 8) 4 Success [-1] (Ret ()) 0 (λ _, Ret ()).

Definition submitted_streamer : Streamer := mkStreamer None new_mgr (make_queue 0 PERSISTENT).

Definition submitted : Submitted :=
  match async_request submitted_env submitted_request host submitted_streamer with
  | Ret s => s
  | Throw _ => refused UnknownError 0 submitted_streamer
  end.

Definition submitted_transfers : list ContiguousTransfer :=
  match assigner is_uri (env_config submitted_env) [-1] submitted_request with
  | Ret (_, asg) => as_transfers asg
  | Throw _ => []
  end.

Lemma submitted_run : async_request submitted_env submitted_request host submitted_streamer = Ret submitted.
Proof. vm_compute. reflexivity. Qed.

Lemma submitted_acceptable : acceptable submitted_env submitted_request submitted_streamer.
Proof.
  split.
  - split; vm_compute; try split; congruence.
  - done.
  - repeat constructor; vm_compute; congruence.
  - done.
  - done.
  - repeat constructor.
  - done.
  - intros n asg E. assert (as_transfers asg = submitted_transfers) as -> by (revert E; vm_compute; by intros [= _ <-]).
    vm_compute. reflexivity.
  - done.
  - vm_compute. reflexivity.
  - done.
  - done.
  - done.
  - split; [vm_compute; split; congruence|done].
  - split_and!; [done|vm_compute; congruence|done].
Qed.

Lemma async_request_accepts_witness :
  ∃ s, async_request submitted_env submitted_request host submitted_streamer = Ret s ∧
    accepted submitted_request host submitted_streamer s ∧
    map (λ t, (t_offset t, t_bytesize t)) (all_tasks (concat (map wl_batches (sub_workloads s)))) = [(4, 4); (8, 2); (10, 2)].
Proof.
  destruct (async_request_accepts submitted_env submitted_request host submitted_streamer submitted_acceptable)
    as (s & E & Hs).
  exists s. split; [done|]. split; [done|]. assert (submitted = s) as <- by (rewrite submitted_run in E; congruence).
  vm_compute. reflexivity.
Defined.

Definition submitted_batches : list Batch := concat (map wl_batches (sub_workloads submitted)).
Definition submitted_world : world (R := queue) :=
  mkWorld (sub_requests submitted) (st_responder (sub_streamer submitted)).

Definition submitted_batch : Batch :=
  match submitted_batches with [b] => b | _ => mkBatch 0 0 0 false [] [] (mkRange 0 0 0) 0 end.

Definition submitted_done : Batch * world (R := queue) :=
  match finished_until 12 Success submitted_batch submitted_world with
  | Ret x => x
  | Throw _ => (submitted_batch, submitted_world)
  end.

Lemma submission_drains_witness :
  steps (submitted_batches, submitted_world) ([submitted_done.1], submitted_done.2) ∧
  ∃ l, responses (Batch.responder submitted_done.2) = responses (st_responder submitted_streamer) ++ l ∧
    l = [mkResponse (sub_id submitted) 0 0 Success; mkResponse (sub_id submitted) 0 1 Success].
Proof.
  assert (Hb : submitted_batches = [] ++ submitted_batch :: []) by (vm_compute; reflexivity).
  assert (E : finished_until 12 Success submitted_batch submitted_world = Ret (submitted_done.1, submitted_done.2))
    by (vm_compute; reflexivity).
  assert (Hsteps : steps (submitted_batches, submitted_world) ([submitted_done.1], submitted_done.2)).
  { eapply steps_step; [apply steps_refl|]. rewrite Hb. exact (step_until [] _ [] _ 12 Success _ _ E). }
  split; [exact Hsteps|].
  destruct (submission_drains submitted_env submitted_request host submitted_streamer submitted [submitted_done.1]
              submitted_done.2 submitted_acceptable submitted_run Hsteps) as (l & Hl & _).
  { vm_compute. repeat constructor. }
  exists l. split; [exact Hl|].
  assert (Hr : responses (Batch.responder submitted_done.2) =
    responses (st_responder submitted_streamer) ++
      [mkResponse (sub_id submitted) 0 0 Success; mkResponse (sub_id submitted) 0 1 Success])
    by (vm_compute; reflexivity).
  rewrite Hr in Hl. by apply app_inv_head in Hl.
Defined.
