(* ===== verification/BackendPools.v ===== *)
(** The pools of a streamer (streamer/impl/pools): where a workload goes.

    One pool for the synchronous reader, one for object storage behind the plugin lock, and for asynchronous reads
    engines of one thread: each mount keeps the engine it was given, and above the cap mounts share one built for
    the same queue depth and registration.  What a factory or a thread's creation answers is [built]; the pools
    are those of the thread pool's model and move on their own between the calls. *)

From S2P Require Import Prelude ResponseCode Text Env FsConfig ThreadPool Workload Submission.

Inductive Dest := FileSystem | FileSystemAsync | ObjectStorage.

(** [FileSystemAsync]'s key: the depth and the registration an engine was built with. *)
Abbreviation Key := (Z * bool)%type.

Section BackendPools.
Context {W : Type} `{!Worker W Workload}.

Definition TP : Type := ThreadPool (W := W) (M := Workload).

Record AsyncEngine := mkAsyncEngine {
  ae_device : Z; ae_block : Z; ae_depth : Z; ae_register : bool; ae_pool : TP }.

(** A ThreadPool pointer of [_async_by_device] is the key and the index of its engine. *)
Record BackendPools := mkBackendPools {
  bp_filesystem : option TP; bp_async : gmap Key (list AsyncEngine); bp_by_device : gmap Z (Key * nat);
  bp_max : Z; bp_shared : Z; bp_object : option TP; bp_plugin : option Plugin; bp_ready : option Plugin }.
Implicit Types p : BackendPools.

Definition new_backend_pools (env : environment) : outcome BackendPools :=
  let! v := getenv_positive env (unsigned_modulus - 1) "RUNAI_STREAMER_FS_MAX_ENGINES" 1 1 in
  Ret (mkBackendPools None ∅ ∅ (to_concurrency v) 0 None None None).

Definition build_pool (built : outcome (list W)) : outcome TP :=
  let! workers := built in Ret (new_thread_pool true workers).

Definition with_async (async : gmap Key (list AsyncEngine)) p : BackendPools :=
  mkBackendPools (bp_filesystem p) async (bp_by_device p) (bp_max p) (bp_shared p) (bp_object p) (bp_plugin p) (bp_ready p).

Definition assign_mount (device : Z) (at_ : Key * nat) (shared : Z) p : BackendPools :=
  mkBackendPools (bp_filesystem p) (bp_async p) (<[device := at_]> (bp_by_device p)) (bp_max p) shared (bp_object p) (bp_plugin p) (bp_ready p).

(** push: synchronous workloads and object storage. *)
Definition push (pool : Dest) (w : Workload) (built : outcome (list W)) p : outcome BackendPools :=
  match pool with
  | ObjectStorage =>
      match bp_object p with
      | None => Throw AssertFailed
      | Some q =>
          let! q := pool_push w q in
          Ret (mkBackendPools (bp_filesystem p) (bp_async p) (bp_by_device p) (bp_max p) (bp_shared p) (Some q) (bp_plugin p) (bp_ready p))
      end
  | FileSystemAsync => Throw AssertFailed
  | FileSystem =>
      let! q := match bp_filesystem p with Some q => Ret q | None => build_pool built end in
      let! q := pool_push w q in
      Ret (mkBackendPools (Some q) (bp_async p) (bp_by_device p) (bp_max p) (bp_shared p) (bp_object p) (bp_plugin p) (bp_ready p))
  end.

Definition queued (e : AsyncEngine) : nat := pending (ae_pool e).

(** The loop of least_loaded_async from engine [i] on: the best so far and its queue. *)
Fixpoint least_loaded_loop (engines : list AsyncEngine) (i : nat) (best : option nat) (fewest : nat) : option nat :=
  match engines with
  | [] => best
  | e :: engines =>
      if match best with None => true | Some _ => (queued e <? fewest)%nat end
      then least_loaded_loop engines (S i) (Some i) (queued e)
      else least_loaded_loop engines (S i) best fewest
  end.

Definition least_loaded_async (engines : list AsyncEngine) : outcome nat :=
  match least_loaded_loop engines 0 None 0 with None => Throw AssertFailed | Some i => Ret i end.

(** The critical section of push_async: the engine of the mount, with the maps as they are left. *)
Definition choose_engine (device block depth : Z) (register_buffers : bool) (built : outcome W) p :
    BackendPools * outcome (Key * nat) :=
  match bp_by_device p !! device with
  | Some at_ => (p, Ret at_)
  | None =>
      let key := (depth, register_buffers) in
      let engines := default [] (bp_async p !! key) in
      let p := with_async (<[key := engines]> (bp_async p)) p in
      if Z.of_nat (length engines) <? bp_max p then
        match build_pool (let! w := built in Ret [w]) with
        | Throw e => (p, Throw e)
        | Ret pool =>
            let p := with_async (<[key := engines ++ [mkAsyncEngine device block depth register_buffers pool]]> (bp_async p)) p in
            let at_ := (key, length engines) in
            (assign_mount device at_ (bp_shared p) p, Ret at_)
        end
      else
        match least_loaded_async engines with
        | Throw e => (p, Throw e)
        | Ret i => (assign_mount device (key, i) (add32 (bp_shared p) 1) p, Ret (key, i))
        end
  end.

Definition engine_at (at_ : Key * nat) p : option AsyncEngine := bp_async p !! at_.1 ≫= (.!! at_.2).

Definition set_engine (at_ : Key * nat) (e : AsyncEngine) p : BackendPools :=
  with_async (alter (λ engines, <[at_.2 := e]> engines) at_.1 (bp_async p)) p.

Definition with_pool (q : TP) (e : AsyncEngine) : AsyncEngine :=
  mkAsyncEngine (ae_device e) (ae_block e) (ae_depth e) (ae_register e) q.

(** pool->push, after the mutex; a pointer to no engine is undefined. *)
Definition engine_push (at_ : Key * nat) (w : Workload) p : outcome BackendPools :=
  match engine_at at_ p with
  | None => Throw StdException
  | Some e => let! q := pool_push w (ae_pool e) in Ret (set_engine at_ (with_pool q e) p)
  end.

Definition push_async (device block depth : Z) (register_buffers : bool) (w : Workload) (built : outcome W) p :
    BackendPools * outcome () :=
  let '(p, chosen) := choose_engine device block depth register_buffers built p in
  match chosen with
  | Throw e => (p, Throw e)
  | Ret at_ => match engine_push at_ w p with Throw e => (p, Throw e) | Ret p => (p, Ret ()) end
  end.

(** The load of [_ready_plugin]: an answer, or the way to the mutex. *)
Definition lock_fast (plugin : Plugin) p : option ResponseCode :=
  match bp_ready p with
  | None => None
  | Some ready => Some (if decide (ready = plugin) then Success else UnsupportedBackendMix)
  end.

(** Under the mutex. *)
Definition lock_slow (plugin : Plugin) (built : outcome (list W)) p : BackendPools * outcome ResponseCode :=
  match bp_plugin p with
  | None =>
      match build_pool built with
      | Throw e => (p, Throw e)
      | Ret q => (mkBackendPools (bp_filesystem p) (bp_async p) (bp_by_device p) (bp_max p) (bp_shared p) (Some q) (Some plugin) (Some plugin),
                  Ret Success)
      end
  | Some locked => (p, Ret (if decide (locked = plugin) then Success else UnsupportedBackendMix))
  end.

Definition async_pool_used p : bool := negb (bool_decide (bp_async p = ∅)).

Definition shared_engine_mounts p : Z := bp_shared p.

Definition count_async_engines p : Z := wrap32 (map_fold (λ _ engines total, Z.of_nat (length engines) + total) 0 (bp_async p)).

Definition async_engines p : Z := count_async_engines p.

Definition pools_created p : Z :=
  add32 (add32 (if bp_filesystem p is Some _ then 1 else 0) (count_async_engines p)) (if bp_object p is Some _ then 1 else 0).

(** A pool moves on its own: a post that was due, or one of its threads. *)
Inductive pool_runs : TP → TP → Prop :=
| pr_post q : (0 < tp_posting q)%nat → pool_runs q (post_one q)
| pr_thread i t q q' : tp_threads q !! i = Some t → thread_step true i (th_worker t) q (th_place t) q' → pool_runs q q'.

(** The calls of any number of threads, at the granularity of their critical sections. *)
Inductive pools_step : BackendPools → BackendPools → Prop :=
| ps_push pool w built p p' : push pool w built p = Ret p' → pools_step p p'
| ps_choose device block depth register_buffers built p :
    pools_step p (choose_engine device block depth register_buffers built p).1
| ps_engine at_ w p p' : engine_push at_ w p = Ret p' → pools_step p p'
| ps_lock plugin built p : pools_step p (lock_slow plugin built p).1
| ps_runs at_ e q p : engine_at at_ p = Some e → pool_runs (ae_pool e) q → pools_step p (set_engine at_ (with_pool q e) p).

Definition pools_reachable (env : environment) p : Prop :=
  ∃ p0, new_backend_pools env = Ret p0 ∧ rtc pools_step p0 p.
End BackendPools.
Arguments AsyncEngine W : clear implicits.
Arguments BackendPools W : clear implicits.

(** ** Invariant *)

Section Invariant.
Context {W : Type} `{!Worker W Workload}.
Implicit Types (p : BackendPools W) (e : AsyncEngine W) (q : TP (W := W)).

Definition open_pool q : Prop := dq_stopped (tp_deque q) = false.

Definition total_engines (async : gmap Key (list (AsyncEngine W))) : Z :=
  map_fold (λ _ engines total, Z.of_nat (length engines) + total) 0 async.

Lemma total_insert (async : gmap Key (list (AsyncEngine W))) key es :
  total_engines (<[key := es]> async) = total_engines async - Z.of_nat (length (default [] (async !! key))) + Z.of_nat (length es).
Proof.
  assert (Hnew : ∀ (m : gmap Key (list (AsyncEngine W))) x, m !! key = None →
    total_engines (<[key := x]> m) = Z.of_nat (length x) + total_engines m).
  { intros m x Hm. unfold total_engines. apply (map_fold_insert_L (λ _ x total, Z.of_nat (length x) + total)); [|done]. intros; lia. }
  destruct (async !! key) as [old|] eqn:Eo; cbn [default]; [|rewrite Hnew by done; cbn; lia].
  pose proof (Hnew (delete key async) es (lookup_delete_eq _ _)) as H1.
  pose proof (Hnew (delete key async) old (lookup_delete_eq _ _)) as H2.
  rewrite insert_delete_eq in H1. rewrite insert_delete_id in H2 by done. cbn. lia.
Qed.

Record pools_ok p : Prop := {
  pk_max : 1 <= bp_max p <= max_concurrency;
  pk_engines : ∀ key es, bp_async p !! key = Some es → Z.of_nat (length es) <= bp_max p ∧
    ∀ i e, es !! i = Some e → (ae_depth e, ae_register e) = key ∧ bp_by_device p !! ae_device e = Some (key, i) ∧ open_pool (ae_pool e);
  pk_mounts : ∀ d key i, bp_by_device p !! d = Some (key, i) → ∃ es e, bp_async p !! key = Some es ∧ es !! i = Some e ∧
    (ae_device e = d ∨ Z.of_nat (length es) = bp_max p);
  pk_shared : bp_shared p = wrap32 (Z.of_nat (size (bp_by_device p)) - total_engines (bp_async p));
  pk_plugin : bp_ready p = bp_plugin p ∧ (is_Some (bp_plugin p) ↔ is_Some (bp_object p));
  pk_open : (∀ q, bp_object p = Some q → open_pool q) ∧ (∀ q, bp_filesystem p = Some q → open_pool q) }.

Lemma new_backend_pools_ok env p : new_backend_pools env = Ret p → pools_ok p.
Proof.
  intros Hn. unfold new_backend_pools in Hn. invert_ret Hn. injection Hn as <-.
  pose proof (getenv_positive_bounds env (unsigned_modulus - 1) _ 1 1 r ltac:(done) Hr) as Hb.
  split; cbn; try done.
  - assert (Hv : 0 <= r) by (unfold unsigned_modulus in *; lia). destruct (to_concurrency_bounds r Hv) as [? [H0 _]].
    split; [|lia]. destruct (Z.eq_dec (to_concurrency r) 0) as [E0|]; [specialize (H0 E0); unfold unsigned_modulus in *; lia|lia].
Qed.

(** The pool of one engine moves, and stays open. *)
Lemma set_engine_ok p key i es e q : pools_ok p → bp_async p !! key = Some es → es !! i = Some e → open_pool q →
  pools_ok (set_engine (key, i) (with_pool q e) p).
Proof.
  intros [Hm He Hd Hs Hp Ho] Hk Hi Hq.
  assert (Hal : alter (λ engines, <[i := with_pool q e]> engines) key (bp_async p) = <[key := <[i := with_pool q e]> es]> (bp_async p)).
  { apply map_eq. intros k. destruct (decide (k = key)) as [->|Hne].
    - by rewrite lookup_alter_eq, lookup_insert_eq, Hk.
    - by rewrite lookup_alter_ne, lookup_insert_ne. }
  unfold set_engine, with_async. cbn [fst snd]. rewrite Hal. split; cbn; try done.
  - intros k es' Hk'. destruct (decide (k = key)) as [->|Hne]; [|rewrite lookup_insert_ne in Hk' by done; by apply He].
    rewrite lookup_insert_eq in Hk'. injection Hk' as <-. rewrite length_insert. destruct (He key es Hk) as [Hl Hes]. split; [done|].
    intros j x Hx. apply list_lookup_insert_Some in Hx as [(<- & <- & _)|[_ Hx]]; [|by apply Hes].
    destruct (Hes i e Hi) as (H1 & H2 & _). by cbn.
  - intros d k j Hdk. destruct (Hd d k j Hdk) as (es' & x & Hk' & Hx & Hor). destruct (decide (k = key)) as [->|Hne].
    + rewrite Hk in Hk'. injection Hk' as <-. exists (<[i := with_pool q e]> es). rewrite lookup_insert_eq, length_insert.
      destruct (decide (j = i)) as [->|Hji].
      * exists (with_pool q e). split; [done|]. rewrite list_lookup_insert_eq by by eapply lookup_lt_Some.
        split; [done|]. rewrite Hi in Hx. by injection Hx as ->.
      * exists x. split; [done|]. split; [by rewrite list_lookup_insert_ne|done].
    + exists es', x. rewrite lookup_insert_ne by done. done.
  - rewrite total_insert, Hk, length_insert. cbn. rewrite Hs. f_equal. lia.
Qed.

(** *** The least loaded engine *)

Lemma least_loaded_loop_spec (es : list (AsyncEngine W)) : ∀ i b f, ∃ j, least_loaded_loop es i (Some b) f = Some j ∧
  (j = b ∧ (∀ k e, es !! k = Some e → (f <= queued e)%nat) ∨
   ∃ k e, j = (i + k)%nat ∧ es !! k = Some e ∧ (queued e < f)%nat ∧
     ∀ k' e', es !! k' = Some e' → (queued e <= queued e')%nat ∧ ((k' < k)%nat → (queued e < queued e')%nat)).
Proof.
  induction es as [|x es IH]; intros i b f; cbn [least_loaded_loop]; [exists b; split; [done|by left]|].
  destruct (Nat.ltb_spec (queued x) f) as [Hlt|Hge].
  - destruct (IH (S i) i (queued x)) as (j & Hj & Hor). exists j. split; [done|]. right.
    destruct Hor as [[-> Hmin]|(k & e & -> & Hk & Hq & Hmin)].
    + exists 0%nat, x. split_and!; [lia|done|done|]. intros [|k'] e' He'; [injection He' as <-; lia|]. specialize (Hmin k' e' He'). lia.
    + exists (S k), e. split_and!; [lia|done|lia|]. intros [|k'] e' He'; [injection He' as <-; lia|].
      specialize (Hmin k' e' He'). lia.
  - destruct (IH (S i) b f) as (j & Hj & Hor). exists j. split; [done|].
    destruct Hor as [[-> Hmin]|(k & e & -> & Hk & Hq & Hmin)]; [left|right].
    + split; [done|]. intros [|k] e He; [by injection He as <-|by eapply Hmin].
    + exists (S k), e. split_and!; [lia|done|done|]. intros [|k'] e' He'; [injection He' as <-; lia|].
      specialize (Hmin k' e' He'). lia.
Qed.

Lemma least_loaded_spec (es : list (AsyncEngine W)) : es ≠ [] → ∃ j e, least_loaded_async es = Ret j ∧ es !! j = Some e ∧
  ∀ k e', es !! k = Some e' → (queued e <= queued e')%nat ∧ ((k < j)%nat → (queued e < queued e')%nat).
Proof.
  destruct es as [|x es]; [done|]. intros _. unfold least_loaded_async. cbn [least_loaded_loop].
  destruct (least_loaded_loop_spec es 1 0 (queued x)) as (j & -> & Hor).
  destruct Hor as [[-> Hmin]|(k & e & -> & Hk & Hq & Hmin)].
  - exists 0%nat, x. split_and!; [done|done|]. intros [|k'] e' He'; [injection He' as <-; lia|]. specialize (Hmin k' e' He'). lia.
  - exists (S k), e. split_and!; [done|done|]. intros [|k'] e' He'; [injection He' as <-; lia|]. specialize (Hmin k' e' He'). lia.
Qed.

(** *** Every step keeps the invariant *)

Definition fresh_engine (device block depth : Z) (register_buffers : bool) (w : W) : AsyncEngine W :=
  mkAsyncEngine device block depth register_buffers (new_thread_pool true [w]).

(** What the critical section of push_async does: by the mount's own, a new, or the least loaded engine. *)
Lemma choose_engine_cases device block depth reg (built : outcome W) p : pools_ok p →
  let key := (depth, reg) in
  let es := default [] (bp_async p !! key) in
  (∃ at_, bp_by_device p !! device = Some at_ ∧ choose_engine device block depth reg built p = (p, Ret at_)) ∨
  bp_by_device p !! device = None ∧
  ((∃ x, built = Throw x ∧ Z.of_nat (length es) < bp_max p ∧
      choose_engine device block depth reg built p = (with_async (<[key := es]> (bp_async p)) p, Throw x)) ∨
   (∃ w, built = Ret w ∧ Z.of_nat (length es) < bp_max p ∧
      choose_engine device block depth reg built p =
        (assign_mount device (key, length es) (bp_shared p)
           (with_async (<[key := es ++ [fresh_engine device block depth reg w]]> (bp_async p)) p), Ret (key, length es))) ∨
   (∃ j e, bp_async p !! key = Some es ∧ Z.of_nat (length es) = bp_max p ∧ es !! j = Some e ∧
      (∀ k e', es !! k = Some e' → (queued e <= queued e')%nat ∧ ((k < j)%nat → (queued e < queued e')%nat)) ∧
      choose_engine device block depth reg built p = (assign_mount device (key, j) (add32 (bp_shared p) 1) p, Ret (key, j)))).
Proof.
  intros [Hm He Hd _ _ _] key es. unfold choose_engine. fold key. fold es.
  destruct (bp_by_device p !! device) as [at_|] eqn:Edev; [left; by exists at_|right]. split; [done|].
  cbn [with_async bp_max]. destruct (Z.ltb_spec (Z.of_nat (length es)) (bp_max p)) as [Hlt|Hge].
  - destruct built as [w|x]; cbn [build_pool obind]; [right; left; exists w|left; exists x]; split_and!; try done.
    unfold assign_mount, with_async. cbn. by rewrite insert_insert_eq.
  - right. right. unfold es in *. destruct (bp_async p !! key) as [engines|] eqn:Ek; [|cbn in Hge; lia].
    change (default [] (Some engines)) with engines in *.
    destruct (least_loaded_spec engines) as (j & e & -> & Hj & Hmin); [intros ->; cbn in Hge; lia|].
    exists j, e. destruct (He key engines Ek) as [Hl _]. split_and!; try done; [lia|].
    unfold assign_mount, with_async. cbn. by rewrite insert_id.
Qed.

Lemma open_new (w : W) : open_pool (new_thread_pool true [w]).
Proof. done. Qed.

(** A key without engines changes nothing; a new engine is its mount's. *)
Lemma empty_key_ok p key : pools_ok p → pools_ok (with_async (<[key := default [] (bp_async p !! key)]> (bp_async p)) p).
Proof.
  intros Hok. destruct (bp_async p !! key) as [es|] eqn:Ek; cbn.
  { unfold with_async. rewrite insert_id by done. by destruct p. }
  destruct Hok as [Hm He Hd Hs Hp Ho]. split; cbn; try done.
  - intros k es Hk. destruct (decide (k = key)) as [->|Hne]; [|rewrite lookup_insert_ne in Hk by done; by apply He].
    rewrite lookup_insert_eq in Hk. injection Hk as <-. cbn. split; [lia|]. by intros i e Hi.
  - intros d k i Hdk. destruct (Hd d k i Hdk) as (es & e & Hk & Hrest). exists es, e. rewrite lookup_insert_ne by congruence. done.
  - rewrite total_insert, Ek. cbn. rewrite Hs. f_equal. lia.
Qed.

Lemma new_engine_ok p device block depth reg (w : W) : pools_ok p → bp_by_device p !! device = None →
  let key := (depth, reg) in let es := default [] (bp_async p !! key) in
  Z.of_nat (length es) < bp_max p →
  pools_ok (assign_mount device (key, length es) (bp_shared p)
             (with_async (<[key := es ++ [fresh_engine device block depth reg w]]> (bp_async p)) p)).
Proof.
  intros Hok Hdev key es Hlt. pose proof (empty_key_ok p key Hok) as Hok'. fold es in Hok'.
  destruct Hok as [Hm _ _ Hs Hp Ho]. destruct Hok' as [_ He Hd _ _ _]. cbn [with_async bp_async bp_by_device bp_max] in He, Hd.
  assert (Hkey := lookup_insert_eq (bp_async p) key es).
  split; cbn; try done.
  - intros k es' Hk. destruct (decide (k = key)) as [->|Hne].
    + rewrite lookup_insert_eq in Hk. injection Hk as <-. destruct (He key es Hkey) as [_ Hes].
      split; [rewrite length_app; cbn; lia|]. intros i e Hi. apply lookup_app_Some in Hi as [Hi|[Hle Hi]].
      * destruct (Hes i e Hi) as (H1 & H2 & H3). split_and!; [done| |done].
        rewrite lookup_insert_ne; [done|]. intros Hx. by rewrite <- Hx, Hdev in H2.
      * apply list_lookup_singleton_Some in Hi as [Hz <-]. cbn. rewrite lookup_insert_eq. split_and!; [done| |done].
        by replace i with (length es) by lia.
    + rewrite lookup_insert_ne in Hk by done. destruct (He k es') as [Hl Hes]; [by rewrite lookup_insert_ne|]. split; [done|].
      intros i e Hi. destruct (Hes i e Hi) as (H1 & H2 & H3). split_and!; [done| |done].
        rewrite lookup_insert_ne; [done|]. intros Hx. by rewrite <- Hx, Hdev in H2.
  - intros d k i Hdk. destruct (decide (d = device)) as [->|Hne].
    + rewrite lookup_insert_eq in Hdk. injection Hdk as <- <-. exists (es ++ [fresh_engine device block depth reg w]), (fresh_engine device block depth reg w).
      rewrite lookup_insert_eq. split_and!; [done| |by left]. by rewrite lookup_app_r, Nat.sub_diag by lia.
    + rewrite lookup_insert_ne in Hdk by done. destruct (Hd d k i Hdk) as (es' & e & Hk & Hi & Hor).
      destruct (decide (k = key)) as [->|Hk'].
      * rewrite lookup_insert_eq in Hk. injection Hk as <-. exists (es ++ [fresh_engine device block depth reg w]), e. rewrite lookup_insert_eq.
        split_and!; [done|by apply lookup_app_l_Some|]. destruct Hor as [?|?]; [by left|lia].
      * exists es', e. rewrite lookup_insert_ne in Hk by done. by rewrite lookup_insert_ne.
  - rewrite total_insert. fold es. rewrite length_app, map_size_insert_None by done. cbn. rewrite Hs. f_equal. lia.
Qed.

Lemma shared_engine_ok p device key es j e : pools_ok p → bp_by_device p !! device = None → bp_async p !! key = Some es →
  Z.of_nat (length es) = bp_max p → es !! j = Some e →
  pools_ok (assign_mount device (key, j) (add32 (bp_shared p) 1) p).
Proof.
  intros [Hm He Hd Hs Hp Ho] Hdev Hk Hl Hj. split; cbn; try done.
  - intros k es' Hk'. destruct (He k es' Hk') as [Hl' Hes]. split; [done|]. intros i x Hi.
    destruct (Hes i x Hi) as (H1 & H2 & H3). split_and!; [done| |done].
        rewrite lookup_insert_ne; [done|]. intros Hx. by rewrite <- Hx, Hdev in H2.
  - intros d k i Hdk. destruct (decide (d = device)) as [->|Hne]; [|rewrite lookup_insert_ne in Hdk by done; by apply Hd].
    rewrite lookup_insert_eq in Hdk. injection Hdk as <- <-. exists es, e. split_and!; [done|done|by right].
  - rewrite map_size_insert_None by done. rewrite Hs. unfold add32, wrap32. rewrite Zplus_mod_idemp_l. f_equal. lia.
Qed.

Lemma choose_engine_ok device block depth reg (built : outcome W) p : pools_ok p →
  pools_ok (choose_engine device block depth reg built p).1.
Proof.
  intros Hok. destruct (choose_engine_cases device block depth reg built p Hok) as [(at_ & _ & ->)|[Hd [(x & _ & _ & ->)|[(w & _ & Hl & ->)|(j & e & Hk & Hl & Hj & _ & ->)]]]]; cbn [fst].
  - done.
  - by apply empty_key_ok.
  - by apply new_engine_ok.
  - by eapply shared_engine_ok.
Qed.

Lemma pool_push_open (w : Workload) q : open_pool q → ∃ q', pool_push w q = Ret q' ∧ open_pool q' ∧ tp_pushed q' = tp_pushed q ++ [w].
Proof. intros Hq. unfold pool_push, dq_push. rewrite Hq. eexists. split; [done|]. by split. Qed.

Lemma pool_push_keeps_open (w : Workload) q q' : pool_push w q = Ret q' → open_pool q'.
Proof. unfold pool_push, dq_push. destruct (dq_stopped (tp_deque q)) eqn:Eo; [done|]. intros Hp. by injection Hp as <-. Qed.

Lemma try_wait_open (d d' : Deque Workload) : dq_try_wait d = Some d' → dq_stopped d' = dq_stopped d.
Proof. unfold dq_try_wait. destruct (dq_sem d); [done|]. intros Hd. by injection Hd as <-. Qed.

Lemma pool_runs_open q q' : open_pool q → pool_runs q q' → open_pool q' ∧ tp_pushed q' = tp_pushed q.
Proof.
  intros Hq Hr. destruct Hr as [q Hp|i t q q' Hi Ht]; [done|]. unfold open_pool in *.
  destruct Ht; cbn; try done.
  - split; [|done]. rewrite <- Hq. by apply try_wait_open.
  - unfold dq_try_pop, dq_pop. rewrite Hq. by destruct (dq_items _).
  - split; [|done]. rewrite <- Hq. by apply try_wait_open.
  - unfold dq_pop. rewrite Hq. by destruct (dq_items _).
Qed.

Lemma engine_at_lookup p key i e : engine_at (key, i) p = Some e ↔ ∃ es, bp_async p !! key = Some es ∧ es !! i = Some e.
Proof. unfold engine_at. cbn. destruct (bp_async p !! key) as [es|]; cbn; [split; [by exists es|by intros (? & [= <-] & ?)]|split; [done|by intros (? & ? & _)]]. Qed.

Lemma engine_at_set p at_ e e' : engine_at at_ p = Some e → engine_at at_ (set_engine at_ e' p) = Some e'.
Proof.
  destruct at_ as [key i]. intros He. apply engine_at_lookup in He as (es & Hk & Hi). apply engine_at_lookup.
  exists (<[i := e']> es). cbn. rewrite lookup_alter_eq, Hk. split; [done|]. apply list_lookup_insert_eq. by eapply lookup_lt_Some.
Qed.

Lemma engine_at_set_ne p at_ at' e : at' ≠ at_ → engine_at at' (set_engine at_ e p) = engine_at at' p.
Proof.
  destruct at_ as [key i], at' as [key' i']. intros Hne. unfold engine_at, set_engine, with_async. cbn.
  destruct (decide (key' = key)) as [->|Hk]; [|by rewrite lookup_alter_ne].
  rewrite lookup_alter_eq. destruct (bp_async p !! key) as [es|]; [|done]. cbn. apply list_lookup_insert_ne. congruence.
Qed.

Lemma engine_at_extended p device key e shared at' : let es := default [] (bp_async p !! key) in
  at' ≠ (key, length es) →
  engine_at at' (assign_mount device (key, length es) shared (with_async (<[key := es ++ [e]]> (bp_async p)) p)) = engine_at at' p.
Proof.
  destruct at' as [key' i']. intros es Hne. unfold engine_at, assign_mount, with_async. cbn.
  destruct (decide (key' = key)) as [->|Hk]; [|by rewrite lookup_insert_ne]. rewrite lookup_insert_eq. cbn.
  destruct (decide (i' < length es)%nat) as [Hlt|Hge].
  - rewrite lookup_app_l by done. unfold es in *. by destruct (bp_async p !! key).
  - rewrite lookup_ge_None_2 by (rewrite length_app; cbn; assert (i' ≠ length es) by congruence; lia).
    unfold es in *. destruct (bp_async p !! key); [|done]. cbn. symmetry. apply lookup_ge_None_2. cbn in Hge. lia.
Qed.

Lemma set_engine_at_ok p at_ e q : pools_ok p → engine_at at_ p = Some e → open_pool q → pools_ok (set_engine at_ (with_pool q e) p).
Proof. destruct at_ as [key i]. intros Hok He Hq. apply engine_at_lookup in He as (es & Hk & Hi). by eapply set_engine_ok. Qed.

Lemma engine_open p at_ e : pools_ok p → engine_at at_ p = Some e → open_pool (ae_pool e).
Proof.
  destruct at_ as [key i]. intros Hok He. apply engine_at_lookup in He as (es & Hk & Hi).
  destruct (pk_engines _ Hok key es Hk) as [_ He]. by apply (He i e Hi).
Qed.

Lemma pools_step_ok p p' : pools_ok p → pools_step p p' → pools_ok p'.
Proof.
  intros Hok Hs. destruct Hs as [pool w built p p' Hp|device block depth reg built p|at_ w p p' Hp|plugin built p|at_ e q p He Hr].
  - destruct Hok as [Hm He Hd Hsh [Hpl Hobj] [Ho Hf]]. destruct pool; unfold push in Hp; [|done|].
    + invert_ret Hp. injection Hp as <-. split; cbn; try done. split; [done|]. intros q [= <-]. by eapply pool_push_keeps_open.
    + destruct (bp_object p) as [q|] eqn:Eq; [|done]. invert_ret Hp. injection Hp as <-. split; cbn; try done.
      * split; [done|]. split; [done|]. intros _. by apply Hobj.
      * split; [|done]. intros q' [= <-]. by eapply pool_push_keeps_open.
  - by apply choose_engine_ok.
  - unfold engine_push in Hp. destruct (engine_at at_ p) as [e|] eqn:Ee; [|done]. invert_ret Hp. injection Hp as <-.
    apply set_engine_at_ok; [done|done|by eapply pool_push_keeps_open].
  - unfold lock_slow. destruct (bp_plugin p) as [locked|] eqn:Epl; [done|]. destruct built as [ws|x]; [|done]. cbn.
    destruct Hok as [Hm He Hd Hsh [Hpl Hobj] [Ho Hf]]. split; cbn; try done. split; [by intros q [= <-]|done].
  - apply set_engine_at_ok; [done|done|]. by apply (pool_runs_open (ae_pool e)); [eapply engine_open|].
Qed.

Lemma pools_run_ok p p' : pools_ok p → rtc pools_step p p' → pools_ok p'.
Proof. intros Hok Hr. induction Hr as [|p q p' Hs _ IH]; [done|]. by apply IH, (pools_step_ok p). Qed.

(** A mount keeps its engine. *)
Lemma pools_step_keeps p p' d at_ : pools_ok p → pools_step p p' → bp_by_device p !! d = Some at_ → bp_by_device p' !! d = Some at_.
Proof.
  intros Hok Hs Hd. destruct Hs as [pool w built p p' Hp|device block depth reg built p|at' w p p' Hp|plugin built p|at' e q p He Hr]; try done.
  - destruct pool; unfold push in Hp; [|done|]; [invert_ret Hp; by injection Hp as <-|].
    destruct (bp_object p); [|done]. invert_ret Hp. by injection Hp as <-.
  - destruct (choose_engine_cases device block depth reg built p Hok) as [(at' & _ & ->)|[Hn [(x & _ & _ & ->)|[(w & _ & _ & ->)|(j & e & _ & _ & _ & _ & ->)]]]];
      cbn; try done; rewrite lookup_insert_ne; try done; intros ->; congruence.
  - unfold engine_push in Hp. destruct (engine_at at' p); [|done]. invert_ret Hp. by injection Hp as <-.
  - unfold lock_slow. destruct (bp_plugin p); [done|]. by destruct built.
Qed.

Lemma plugin_run_keeps p p' : is_Some (bp_plugin p) → rtc pools_step p p' → bp_plugin p' = bp_plugin p.
Proof.
  intros Hs Hr. induction Hr as [|p q p' Hst _ IH]; [done|].
  assert (Hq : bp_plugin q = bp_plugin p); [|rewrite <- Hq in *; by apply IH]. clear IH.
  destruct Hst as [pool w built p q Hp|device block depth reg built p|at' w p q Hp|plugin built p|at' e q p He Hr]; try done.
  - destruct pool; unfold push in Hp; [|done|]; [invert_ret Hp; by injection Hp as <-|].
    destruct (bp_object p); [|done]. invert_ret Hp. by injection Hp as <-.
  - unfold choose_engine. destruct (bp_by_device p !! device); [done|]. cbn. destruct (_ <? _); [by destruct built|].
    by destruct (least_loaded_async _).
  - unfold engine_push in Hp. destruct (engine_at at' p); [|done]. invert_ret Hp. by injection Hp as <-.
  - unfold lock_slow. destruct Hs as [locked Hl]. by rewrite Hl.
Qed.

Lemma pools_run_keeps p p' d at_ : pools_ok p → rtc pools_step p p' → bp_by_device p !! d = Some at_ → bp_by_device p' !! d = Some at_.
Proof.
  intros Hok Hr. induction Hr as [|p q p' Hs _ IH]; [done|]. intros Hd.
  apply IH; [by apply (pools_step_ok p)|by apply (pools_step_keeps p q)].
Qed.
End Invariant.

(** ** Properties *)

Section Claims.
Context {W : Type} `{!Worker W Workload}.
Implicit Types (p : BackendPools W).

(** C25: Whatever the callers and the pools do, no key has more engines than the cap; a mount's engine exists, was
    built for the mount's key and stays its own for good; two mounts share an engine only once their key has as
    many engines as the cap allows; and shared_engine_mounts counts the mounts without an engine of their own. *)
Theorem mounts_keep_their_engines (env : environment) p : pools_reachable env p →
  1 <= bp_max p <= max_concurrency ∧
  (∀ key es, bp_async p !! key = Some es → Z.of_nat (length es) <= bp_max p) ∧
  (∀ d key i, bp_by_device p !! d = Some (key, i) →
     (∃ e, engine_at (key, i) p = Some e ∧ (ae_depth e, ae_register e) = key) ∧
     (∀ p', rtc pools_step p p' → bp_by_device p' !! d = Some (key, i)) ∧
     (∀ d', d' ≠ d → bp_by_device p !! d' = Some (key, i) →
        ∃ es, bp_async p !! key = Some es ∧ Z.of_nat (length es) = bp_max p)) ∧
  shared_engine_mounts p = wrap32 (Z.of_nat (size (bp_by_device p)) - total_engines (bp_async p)).
Proof.
  intros (p0 & Hn & Hr). pose proof (pools_run_ok _ _ (new_backend_pools_ok _ _ Hn) Hr) as Hok.
  split; [apply Hok|]. split; [intros key es Hk; by destruct (pk_engines _ Hok key es Hk)|]. split; [|apply (pk_shared _ Hok)].
  intros d key i Hd. destruct (pk_mounts _ Hok d key i Hd) as (es & e & Hk & Hi & Hor). split_and!.
  - exists e. split; [apply engine_at_lookup; by exists es|]. destruct (pk_engines _ Hok key es Hk) as [_ He]. by apply (He i e Hi).
  - intros p' Hr'. by eapply pools_run_keeps.
  - intros d' Hne Hd'. destruct (pk_mounts _ Hok d' key i Hd') as (es' & e' & Hk' & Hi' & Hor').
    exists es. split; [done|]. rewrite Hk in Hk'. injection Hk' as <-. rewrite Hi in Hi'. injection Hi' as <-.
    destruct Hor as [<-|?], Hor' as [?|?]; done.
Qed.

(** With a factory that answers, push_async never throws: the workload is queued on exactly the engine of its
    mount - the one it had, else a new one while its key is below the cap, else the least loaded of the key - and
    no other queue changes. *)
Theorem push_async_routes (env : environment) p device block depth register_buffers (w : Workload) (worker : W) :
  pools_reachable env p →
  ∃ p' at_ e q, push_async device block depth register_buffers w (Ret worker) p = (p', Ret ()) ∧
    bp_by_device p' = <[device := at_]> (bp_by_device p) ∧
    engine_at at_ p' = Some (with_pool q e) ∧ tp_pushed q = tp_pushed (ae_pool e) ++ [w] ∧
    (∀ at', at' ≠ at_ → engine_at at' p' = engine_at at' p) ∧
    match bp_by_device p !! device with
    | Some at0 => at_ = at0 ∧ engine_at at_ p = Some e
    | None =>
        let es := default [] (bp_async p !! (depth, register_buffers)) in
        at_.1 = (depth, register_buffers) ∧
        if decide (Z.of_nat (length es) < bp_max p) then
          at_.2 = length es ∧ e = fresh_engine device block depth register_buffers worker
        else es !! at_.2 = Some e ∧
          ∀ k e', es !! k = Some e' → (queued e <= queued e')%nat ∧ ((k < at_.2)%nat → (queued e < queued e')%nat)
    end.
Proof.
  intros (p0 & Hn & Hr). pose proof (pools_run_ok _ _ (new_backend_pools_ok _ _ Hn) Hr) as Hok. unfold push_async.
  pose proof (choose_engine_ok device block depth register_buffers (Ret worker) p Hok) as Hok1.
  pose proof (choose_engine_cases device block depth register_buffers (Ret worker) p Hok) as Hc.
  assert (Hpush : ∀ p1 at_ e, pools_ok p1 → engine_at at_ p1 = Some e → ∃ q, tp_pushed q = tp_pushed (ae_pool e) ++ [w] ∧
    engine_push at_ w p1 = Ret (set_engine at_ (with_pool q e) p1)).
  { intros p1 at_ e Hok' He. destruct (pool_push_open w (ae_pool e)) as (q & Hq & _ & Hpq); [by eapply engine_open|].
    exists q. split; [done|]. unfold engine_push. by rewrite He, Hq. }
  set (es := default [] (bp_async p !! (depth, register_buffers))) in *.
  destruct Hc as [([key i] & Hd & Hc)|[Hd [(x & ? & _)|[(w' & [= <-] & Hl & Hc)|(j & e & Hk & Hl & Hj & Hmin & Hc)]]]]; [|done| |];
    rewrite Hc in *; cbn [fst] in Hok1.
  - destruct (pk_mounts _ Hok _ _ _ Hd) as (es' & e & Hk & Hi & _).
    assert (He : engine_at (key, i) p = Some e) by (apply engine_at_lookup; by exists es').
    destruct (Hpush p (key, i) e Hok He) as (q & Hq & ->). eexists _, (key, i), e, q.
    split; [done|]. rewrite Hd. split_and!; [by rewrite insert_id|by eapply engine_at_set|done|intros at' Hne; by apply engine_at_set_ne|done|done].
  - set (p1 := assign_mount _ _ _ _) in *. set (at_ := ((depth, register_buffers), length es)) in *.
    assert (He : engine_at at_ p1 = Some (fresh_engine device block depth register_buffers worker)).
    { apply engine_at_lookup. eexists. split; [apply lookup_insert_eq|]. exact (list_lookup_middle es [] _ _ eq_refl). }
    fold es. fold at_. destruct (Hpush p1 at_ _ Hok1 He) as (q & Hq & ->). eexists _, at_, _, q. split; [done|]. rewrite Hd, decide_True by done.
    split_and!; [done|by eapply engine_at_set|done| |done|done|done].
    intros at' Hne. rewrite engine_at_set_ne by done. by apply engine_at_extended.
  - set (p1 := assign_mount _ _ _ _) in *. assert (He : engine_at (depth, register_buffers, j) p1 = Some e) by (apply engine_at_lookup; by exists es).
    destruct (Hpush p1 _ _ Hok1 He) as (q & Hq & ->). eexists _, (depth, register_buffers, j), e, q.
    split; [done|]. rewrite Hd. assert (Hge : ¬ Z.of_nat (length es) < bp_max p) by (unfold es; lia).
    rewrite decide_False by exact Hge. cbn [fst snd].
    split_and!; [done|by eapply engine_at_set|done| |done|done|done]. intros at' Hne. by rewrite engine_at_set_ne.
Qed.

(** Lock_object_plugin is the first plugin wins of the submission's model: the load of the ready flag answers as
    the lock stands, the mutex answers and locks the same way however the lock moved in between, a pool that could
    not be built leaves nothing locked, and a locked plugin has its pool and stays. *)
Theorem plugin_lock_first_wins (env : environment) p plugin : pools_reachable env p →
  match lock_fast plugin p with
  | Some answer => pools_lock_plugin plugin (bp_plugin p) = (answer, bp_plugin p) ∧
      ∀ w built, ∃ p', push ObjectStorage w built p = Ret p'
  | None => bp_plugin p = None
  end ∧
  ∀ p', rtc pools_step p p' →
    (is_Some (bp_plugin p) → bp_plugin p' = bp_plugin p) ∧
    (∀ workers, let r := pools_lock_plugin plugin (bp_plugin p') in
       ∃ p2, lock_slow plugin (Ret workers) p' = (p2, Ret r.1) ∧ bp_plugin p2 = r.2 ∧ bp_ready p2 = r.2 ∧
         ∀ w built, ∃ p3, push ObjectStorage w built p2 = Ret p3) ∧
    (∀ x, bp_plugin p' = None → lock_slow plugin (Throw x) p' = (p', Throw x)).
Proof.
  intros (p0 & Hn & Hr). pose proof (pools_run_ok _ _ (new_backend_pools_ok _ _ Hn) Hr) as Hok.
  assert (Hpush : ∀ p1, pools_ok p1 → is_Some (bp_plugin p1) → ∀ w built, ∃ p', push ObjectStorage w built p1 = Ret p').
  { intros p1 Hok1 Hs w built. apply (pk_plugin _ Hok1) in Hs as [q Hq]. unfold push. rewrite Hq.
    destruct (pool_push_open w q) as (q' & -> & _); [by apply (proj1 (pk_open _ Hok1))|]. by eexists. }
  split.
  - unfold lock_fast. destruct (pk_plugin _ Hok) as [-> _]. destruct (bp_plugin p) as [locked|] eqn:El; [|done].
    split; [cbn; by destruct (decide (locked = plugin))|]. apply Hpush; [done|by eexists].
  - intros p' Hr'. pose proof (pools_run_ok _ _ Hok Hr') as Hok'. split_and!.
    + intros Hs. by apply plugin_run_keeps.
    + intros workers r. assert (Hok2 : pools_ok (lock_slow plugin (Ret workers) p').1) by (by eapply pools_step_ok, ps_lock).
      exists (lock_slow plugin (Ret workers) p').1. unfold r. pose proof (pk_plugin _ Hok2) as [Hready _]. unfold lock_slow in *.
      destruct (bp_plugin p') as [locked|] eqn:El; cbn in *.
      * destruct (decide (locked = plugin)); (split_and!; [done|done|by rewrite Hready|exact (Hpush _ Hok2 (ex_intro _ _ El))]).
      * split_and!; try done. exact (Hpush _ Hok2 (ex_intro _ _ eq_refl)).
    + intros x Hx. unfold lock_slow. by rewrite Hx.
Qed.
End Claims.

(** ** Three mounts and two engines *)

Module Mounts.
#[export] Instance resting : Worker nat Workload := {|
  executes _ w w' := w' = w; drains _ w w' := w' = w; worker_idle _ := true |}.

Definition two : environment := {["RUNAI_STREAMER_FS_MAX_ENGINES" := txt "2"]}.

Definition choose (device depth : Z) (p : BackendPools nat) : BackendPools nat :=
  (choose_engine device 4096 depth false (Ret 0%nat) p).1.

Lemma choose_reachable env device depth p : pools_reachable env p → pools_reachable env (choose device depth p).
Proof. intros (p0 & Hn & Hr). exists p0. split; [done|]. eapply rtc_r; [done|]. apply ps_choose. Qed.

Definition start : BackendPools nat := mkBackendPools None ∅ ∅ 2 0 None None None.

Lemma start_reachable : pools_reachable two start.
Proof. exists start. split; [vm_compute; reflexivity|apply rtc_refl]. Qed.

Definition three : BackendPools nat := choose 30 64 (choose 20 64 (choose 10 64 start)).

Lemma mounts_keep_their_engines_witness : pools_reachable two three ∧ bp_by_device three !! 30 = Some ((64, false), 0%nat) ∧
  shared_engine_mounts three = 1 ∧ ∃ e, engine_at ((64, false), 0%nat) three = Some e ∧ (ae_depth e, ae_register e) = (64, false).
Proof.
  assert (Hr : pools_reachable two three) by (do 3 apply choose_reachable; apply start_reachable).
  assert (Hd : bp_by_device three !! 30 = Some ((64, false), 0%nat)) by (vm_compute; reflexivity).
  split; [exact Hr|]. split; [exact Hd|]. split; [vm_compute; reflexivity|].
  destruct (mounts_keep_their_engines two three Hr) as (_ & _ & Hm & _). apply (Hm 30 (64, false) 0%nat Hd).
Defined.

Lemma push_async_routes_witness : pools_reachable two three ∧
  ∃ p', push_async 40 4096 64 false empty_workload (Ret 0%nat) three = (p', Ret ()).
Proof.
  assert (Hr : pools_reachable two three) by (do 3 apply choose_reachable; apply start_reachable).
  split; [exact Hr|]. destruct (push_async_routes two three 40 4096 64 false empty_workload 0%nat Hr) as (p' & _ & _ & _ & Hp & _).
  by exists p'.
Defined.

Lemma plugin_lock_first_wins_witness : let p := (lock_slow GCS (Ret [0%nat; 0%nat]) start).1 in
  pools_reachable two p ∧ lock_fast S3 p = Some UnsupportedBackendMix ∧
  pools_lock_plugin S3 (bp_plugin p) = (UnsupportedBackendMix, bp_plugin p).
Proof.
  intros p. assert (Hr : pools_reachable two p).
  { destruct start_reachable as (p0 & Hn & Hr). exists p0. split; [done|]. eapply rtc_r; [done|]. apply ps_lock. }
  split; [exact Hr|]. split; [vm_compute; reflexivity|]. destruct (plugin_lock_first_wins two p S3 Hr) as [H _]. exact (proj1 H).
Defined.
End Mounts.
