(* ===== verification/StreamerApi.v ===== *)
(** What a program calls: the rest of Streamer's methods (streamer/impl/streamer) and the C interface over them
    (streamer/streamer.cc).

    A C array is the list of what is allocated, [None] a null pointer; the result [None] is a read of memory the
    caller did not give, and of response a wait that has not ended.  What the process, its libraries and the file
    system answer - a configuration, the construction, fnmatch, listings, descriptor limits - are arguments. *)

From S2P Require Import Prelude ResponseCode Text StorageUri SharedQueue Task Batch SubmissionsMgr Transfer Assigner Workload.
From S2P Require Import Env FsConfig StrategyResolver Credentials Submission.

(** ** Responses *)

(** SharedQueue::pop.  The semaphore has a token or the wait ends with the timeout, if there is one. *)
Definition pop (timeout_ms : Z) (q : queue) : option (outcome (Response * queue)) :=
  match pop_entry q with
  | Some r => Some (Ret (r, q))
  | None =>
      match SharedQueue.ready q with
      | S n => Some (pop_locked (set_ready n q))
      | O => if timeout_ms =? 0 then None else Some (Ret (response_of_code TimedOut, q))
      end
  end.

Definition consume_submission_response (submission_id now : Z) (m : SubmissionsMgr) : outcome (bool * SubmissionsMgr) :=
  let! (result, m) := consume submission_id now m in Ret (bool_decide (outcome_ result = Completed), m).

Definition response (timeout_ms now : Z) (st : Streamer) : option (outcome (Response * bool * Streamer)) :=
  match pop timeout_ms (st_responder st) with
  | None => None
  | Some popped => Some (
      let! (r, q) := popped in
      let st := mkStreamer (st_plugin st) (st_submissions st) q in
      if bool_decide (ret r = FinishedError) || bool_decide (ret r = TimedOut) then Ret (r, false, st)
      else
        let! (submission_done, m) := consume_submission_response (submission_id r) now (st_submissions st) in
        Ret (r, submission_done, mkStreamer (st_plugin st) m q))
  end.

(** ** One range, or consecutive ranges, of one file *)

Fixpoint consecutive_ranges (offset destination : Z) (internal_sizes : list Z) : list ReadRange :=
  match internal_sizes with
  | [] => []
  | size :: sizes => mkReadRange offset size destination :: consecutive_ranges (offset ⊕ size) (destination + size) sizes
  end.

(** A code that was thrown is returned, and nothing is said of the submission. *)
Definition async_read (env : Environment) (path : text) (file_offset dst : Z) (internal_sizes : list Z) (st : Streamer) :
    outcome (ResponseCode * option Submitted) :=
  catch_code
    (let! s := async_request env [mkFileRanges path (consecutive_ranges file_offset dst internal_sizes)] host st in
     Ret (sub_code s, Some s))
    (λ code, Ret (code, None)).

(** [workers] is what the pools do to the streamer until the wait of response ends. *)
Definition sync_read (env : Environment) (workers : Submitted → Streamer) (path : text) (file_offset bytesize dst now : Z) (st : Streamer) :
    option (outcome (ResponseCode * Streamer)) :=
  match async_read env path file_offset dst [bytesize] st with
  | Throw e => Some (Throw e)
  | Ret (r, None) => Some (Ret (r, st))
  | Ret (r, Some s) =>
      if negb (bool_decide (r = Success)) then Some (Ret (r, sub_streamer s))
      else match response 0 now (workers s) with
           | None => None
           | Some answer => Some (let! (r, _, st) := answer in Ret (ret r, st))
           end
  end.

(** ** Listing *)

Section Listing.
Context (fnmatch : text → text → bool).       (** fnmatch(pattern, path, 0) == 0 *)

Definition keep (allow_patterns ignore_patterns : list text) (path : text) : bool :=
  (bool_decide (allow_patterns = []) || existsb (λ p, fnmatch p path) allow_patterns)
  && negb (existsb (λ p, fnmatch p path) ignore_patterns).

(** What the directory iterator yields. *)
Record DirectoryEntry := mkDirectoryEntry { de_path : text; de_regular : bool; de_size : outcome Z }.

Fixpoint list_directory (allow_patterns ignore_patterns : list text) (entries : list DirectoryEntry) : outcome (list (text * Z)) :=
  match entries with
  | [] => Ret []
  | e :: entries =>
      if de_regular e && keep allow_patterns ignore_patterns (de_path e) then
        let! size := de_size e in
        let! results := list_directory allow_patterns ignore_patterns entries in
        Ret ((de_path e, size) :: results)
      else list_directory allow_patterns ignore_patterns entries
  end.

(** [objects] is the answer of S3ClientWrapper::list_files, [exists_] and [entries] of the file system. *)
Definition list_files (prefix : text) (allow_patterns ignore_patterns : list text) (objects : ResponseCode * list (text * Z))
    (exists_ : outcome bool) (entries : outcome (list DirectoryEntry)) : outcome (list (text * Z)) :=
  if is_uri prefix then
    if negb (bool_decide (objects.1 = Success)) then Throw (Code objects.1)
    else Ret (List.filter (λ o, keep allow_patterns ignore_patterns o.1) objects.2)
  else
    let! found := exists_ in
    if negb found then Throw (Code FileAccessError)
    else let! entries := entries in list_directory allow_patterns ignore_patterns entries.
End Listing.

(** ** Descriptors for object storage *)

(** The once of handle_s3: the new soft limit, if it has to be raised. *)
Definition desired_fd_limit (s3_concurrency : Z) : Z := wrap32 (s3_concurrency * 64).

Definition s3_fd_limit (current maximum s3_concurrency : Z) : outcome (option Z) :=
  let desired := desired_fd_limit s3_concurrency in
  if current <? desired then
    if desired >? maximum then Throw (Code InsufficientFdLimit) else Ret (Some desired)
  else Ret None.

(** ** The C interface *)

(** catch (const common::Exception &), then catch (...) *)
Definition api_code (r : outcome Z) : Z :=
  match r with Ret code => code | Throw (Code c) => to_int c | Throw _ => to_int UnknownError end.

Definition InvalidParameter : Z := to_int InvalidParameterError.

(** An element of an array the caller gave. *)
Definition at_ {A} (array : option (list A)) (i : nat) : option A := match array with None => None | Some l => l !! i end.

Fixpoint sum_ranges (num_ranges : option (list Z)) (n i : nat) (total_ranges : Z) : option Z :=
  match n with
  | O => Some total_ranges
  | S n => match at_ num_ranges i with None => None | Some r => sum_ranges num_ranges n (S i) (total_ranges ⊕ r) end
  end.

Record RangeArrays := mkRangeArrays {
  range_offsets : option (list Z); range_sizes : option (list Z); range_dsts : option (list Z) }.

Definition range_at (a : RangeArrays) (i : nat) : option ReadRange :=
  match at_ (range_offsets a) i, at_ (range_sizes a) i, at_ (range_dsts a) i with
  | Some offset, Some size, Some dst => Some (mkReadRange offset size dst)
  | _, _, _ => None
  end.

Fixpoint ranges_at (a : RangeArrays) (base n : nat) : option (list ReadRange) :=
  match n with
  | O => Some []
  | S n =>
      match range_at a base with
      | None => None
      | Some r => match ranges_at a (S base) n with None => None | Some rs => Some (r :: rs) end
      end
  end.

(** The loop over the files from [i] on: the request, or a path that is null. *)
Fixpoint files_at (paths : option (list (option text))) (num_ranges : option (list Z)) (a : RangeArrays) (n i base : nat) :
    option (option (list FileRanges)) :=
  match n with
  | O => Some (Some [])
  | S n =>
      match at_ paths i with
      | None => None
      | Some None => Some None
      | Some (Some path) =>
          match at_ num_ranges i with
          | None => None
          | Some k =>
              match ranges_at a base (Z.to_nat k) with
              | None => None
              | Some ranges =>
                  match files_at paths num_ranges a n (S i) (base + Z.to_nat k) with
                  | Some (Some request) => Some (Some (mkFileRanges path ranges :: request))
                  | r => r
                  end
              end
          end
      end
  end.

Record CDevice := mkCDevice { cd_type : Z; cd_id : Z }.

Definition RUNAI_FILE_STREAMER_DEVICE_CPU : Z := 0.
Definition RUNAI_FILE_STREAMER_DEVICE_CUDA : Z := 1.

Definition null {A} (p : option A) : bool := match p with None => true | Some _ => false end.

(** What a call answers: its code, and the submission if one was made. *)
Definition Answer : Type := Z * option Submitted.

Definition submit_request (env : Environment) (num_files : nat) (paths : option (list (option text))) (num_ranges : option (list Z))
    (a : RangeArrays) (device : CDevice) (st : Streamer) : option (outcome Answer) :=
  if (cd_type device =? RUNAI_FILE_STREAMER_DEVICE_CUDA) && (cd_id device <? 0) then Some (Ret (to_int InvalidDevice, None))
  else if negb (cd_type device =? RUNAI_FILE_STREAMER_DEVICE_CPU) && negb (cd_type device =? RUNAI_FILE_STREAMER_DEVICE_CUDA)
  then Some (Ret (to_int UnsupportedDeviceType, None))
  else if (0 <? num_files)%nat && (null paths || null num_ranges) then Some (Ret (InvalidParameter, None))
  else
    match sum_ranges num_ranges num_files 0 0 with
    | None => None
    | Some total_ranges =>
        if (total_ranges >? 0) && (null (range_offsets a) || null (range_sizes a) || null (range_dsts a))
        then Some (Ret (InvalidParameter, None))
        else
          match files_at paths num_ranges a num_files 0 0 with
          | None => None
          | Some None => Some (Ret (InvalidParameter, None))
          | Some (Some request) =>
              let destination := mkDevice (if cd_type device =? RUNAI_FILE_STREAMER_DEVICE_CPU then Cpu else Cuda) (wrap32 (cd_id device)) in
              Some (let! s := async_request env request destination st in Ret (to_int (sub_code s), Some s))
          end
    end.

(** The streamer as the handle of the interface holds it. *)
Record Handle := mkHandle { hd_streamer : Streamer; hd_credentials : option Credentials; hd_resolver : Resolver }.

Definition runai_file_streamer_start (config : outcome Config) (construct : Config → outcome Handle) : Z * option Handle :=
  match config with
  | Throw _ => (InvalidParameter, None)
  | Ret c => match construct c with Throw _ => (to_int UnknownError, None) | Ret h => (to_int Success, Some h) end
  end.

Definition runai_file_streamer_set_credentials (streamer : option Handle) (keys values : option (list (option text))) (num_params : nat) :
    option (Z * option Handle) :=
  match streamer with
  | None => Some (InvalidParameter, None)
  | Some h =>
      match credentials_of_arrays keys values num_params with
      | None => None
      | Some c => let '(code, state) := set_credentials c (hd_credentials h) in
                  Some (to_int code, Some (mkHandle (hd_streamer h) state (hd_resolver h)))
      end
  end.

Definition runai_file_streamer_set_fs_strategy (streamer : option Handle) (candidates : option text) : Z * option Handle :=
  match streamer, candidates with
  | Some h, Some c => let '(code, r) := set_candidates c (hd_resolver h) in
                      (to_int code, Some (mkHandle (hd_streamer h) (hd_credentials h) r))
  | _, _ => (InvalidParameter, streamer)
  end.

Definition runai_file_streamer_request (env : Environment) (streamer : option Handle) (num_files : nat) (paths : option (list (option text)))
    (num_ranges : option (list Z)) (a : RangeArrays) (device : CDevice) : option Answer :=
  match streamer with
  | None => Some (InvalidParameter, None)
  | Some h =>
      match submit_request env num_files paths num_ranges a device (hd_streamer h) with
      | None => None
      | Some (Ret answer) => Some answer
      | Some (Throw e) => Some (api_code (Throw e), None)
      end
  end.

(** The out parameters: file index, index, submission id and whether the submission is done. *)
Record ResponseOut := mkResponseOut { out_file_index : Z; out_index : Z; out_submission_id : Z; out_submission_done : Z }.

Definition runai_file_streamer_response (streamer : option Handle) (file_index index : bool) (timeout_ms now : Z) :
    option (Z * option ResponseOut * option Handle) :=
  match streamer with
  | None => Some (InvalidParameter, None, None)
  | Some h =>
      if negb file_index || negb index then Some (InvalidParameter, None, Some h)
      else match response timeout_ms now (hd_streamer h) with
           | None => None
           | Some (Throw e) => Some (api_code (Throw e), None, Some h)
           | Some (Ret (r, done_, st)) =>
               Some (to_int (ret r), Some (mkResponseOut (SharedQueue.file_index r) (SharedQueue.index r) (submission_id r) (if done_ : bool then 1 else 0)),
                     Some (mkHandle st (hd_credentials h) (hd_resolver h)))
           end
  end.

(** Streamer::direct_block_for asks the router about the paths that are no URI. *)
Definition filesystem_paths (paths : list text) : list text := List.filter (λ p, negb (is_uri p)) paths.

Fixpoint given_paths (paths : option (list (option text))) (n i : nat) : option (list text) :=
  match n with
  | O => Some []
  | S n =>
      match at_ paths i, given_paths paths n (S i) with
      | Some (Some p), Some l => Some (p :: l)
      | Some None, Some l => Some l
      | _, _ => None
      end
  end.

(** The code and what [*out_block] is left at; [probe] is the router's direct_block_for. *)
Definition runai_file_streamer_probe_direct_block_size (page_size : Z) (probe : list text → outcome (ResponseCode * Z))
    (streamer : option Handle) (paths : option (list (option text))) (num_paths : nat) (out_block : bool) : option (Z * option Z) :=
  if negb out_block then Some (InvalidParameter, None)
  else
    let block := wrap64 page_size in
    match streamer with
    | None => Some (InvalidParameter, Some block)
    | Some _ =>
        if negb (num_paths =? 0)%nat && null paths then Some (InvalidParameter, Some block)
        else match given_paths paths num_paths 0 with
             | None => None
             | Some l => match probe (filesystem_paths l) with
                         | Ret (code, measured) => Some (to_int code, Some measured)
                         | Throw e => Some (api_code (Throw e), Some block)
                         end
             end
    end.

Definition unexpected_error : string := "Unexpected error occured".

Definition runai_file_streamer_response_str (response_code : Z) : string :=
  match description response_code with Some s => s | None => unexpected_error end.

Definition runai_file_streamer_list_files (fnmatch : text → text → bool) (streamer : option Handle) (prefix : option text) (callback : bool)
    (allow_patterns ignore_patterns : list text) (objects : ResponseCode * list (text * Z)) (exists_ : outcome bool)
    (entries : outcome (list DirectoryEntry)) : Z * list (text * Z) :=
  match streamer, prefix with
  | Some _, Some prefix =>
      if negb callback then (InvalidParameter, [])
      else match list_files fnmatch prefix allow_patterns ignore_patterns objects exists_ entries with
           | Ret files => (to_int Success, files)
           | Throw e => (api_code (Throw e), [])
           end
  | _, _ => (InvalidParameter, [])
  end.

(** ** Marshalling *)

Definition paths_of (request : list FileRanges) : list (option text) := map (λ f, Some (fr_path f)) request.
Definition counts_of (request : list FileRanges) : list Z := map (λ f, Z.of_nat (length (fr_ranges f))) request.
Definition flat (request : list FileRanges) : list ReadRange := concat (map fr_ranges request).

(** The flat arrays of a request, which may go on after it. *)
Record arrays_of (request : list FileRanges) (a : RangeArrays) : Prop := {
  ar_offsets : ∃ more, range_offsets a = Some (map rr_offset (flat request) ++ more);
  ar_sizes : ∃ more, range_sizes a = Some (map rr_size (flat request) ++ more);
  ar_dsts : ∃ more, range_dsts a = Some (map rr_dst (flat request) ++ more) }.

Lemma range_at_flat request a i r : arrays_of request a → flat request !! i = Some r → range_at a i = Some r.
Proof.
  intros [[m1 H1] [m2 H2] [m3 H3]] Hi. unfold range_at, at_. rewrite H1, H2, H3.
  pose proof (lookup_lt_Some _ _ _ Hi) as Hlt.
  rewrite !lookup_app_l by (rewrite length_map; done). rewrite !list_lookup_fmap, Hi. by destruct r.
Qed.

Lemma ranges_at_read a rs : ∀ base, (∀ i r, rs !! i = Some r → range_at a (base + i) = Some r) →
  ranges_at a base (length rs) = Some rs.
Proof.
  induction rs as [|r rs IH]; intros base H; [done|]. cbn [length ranges_at].
  pose proof (H 0%nat r eq_refl) as H0. rewrite Nat.add_0_r in H0. rewrite H0, IH; [done|].
  intros i x Hi. rewrite Nat.add_succ_comm. by apply (H (S i)).
Qed.

Lemma files_at_read request a : arrays_of request a → ∀ before suffix, request = before ++ suffix →
  files_at (Some (paths_of request)) (Some (counts_of request)) a (length suffix) (length before) (length (flat before)) = Some (Some suffix).
Proof.
  intros Ha before suffix. revert before. induction suffix as [|f suffix IH]; intros before Hr; [done|]. cbn [length files_at at_].
  assert (Hf : request !! length before = Some f) by (subst; by apply list_lookup_middle).
  unfold paths_of, counts_of. rewrite !list_lookup_fmap, Hf. cbn [fmap option_fmap option_map].
  rewrite Nat2Z.id, ranges_at_read.
  - specialize (IH (before ++ [f])). rewrite length_app, Nat.add_1_r in IH. unfold flat in IH at 1.
    rewrite map_app, concat_app, length_app in IH. cbn [map concat] in IH. rewrite app_nil_r in IH.
    unfold paths_of, counts_of, flat in *. rewrite IH; [by destruct f|]. by rewrite <- app_assoc.
  - intros i r Hi. apply (range_at_flat request a); [done|]. subst request. unfold flat.
    rewrite map_app, concat_app. cbn [map concat]. rewrite lookup_app_r by (unfold flat; lia).
    rewrite lookup_app_l by (apply lookup_lt_Some in Hi; lia). rewrite <- Hi. f_equal. lia.
Qed.

Lemma sum_ranges_total l : ∀ n i acc, (i + n <= length l)%nat → ∃ t, sum_ranges (Some l) n i acc = Some t.
Proof.
  induction n as [|n IH]; intros i acc Hl; [by exists acc|]. cbn [sum_ranges at_].
  destruct (lookup_lt_is_Some_2 l i) as [x ->]; [lia|]. apply IH. lia.
Qed.

Definition served_device (d : CDevice) : bool :=
  (cd_type d =? RUNAI_FILE_STREAMER_DEVICE_CPU) || (cd_type d =? RUNAI_FILE_STREAMER_DEVICE_CUDA) && (0 <=? cd_id d).

Definition destination_of (d : CDevice) : Device :=
  mkDevice (if cd_type d =? RUNAI_FILE_STREAMER_DEVICE_CPU then Cpu else Cuda) (wrap32 (cd_id d)).

Lemma submit_request_marshals env request a device st : served_device device = true → arrays_of request a →
  submit_request env (length request) (Some (paths_of request)) (Some (counts_of request)) a device st =
    Some (let! s := async_request env request (destination_of device) st in Ret (to_int (sub_code s), Some s)).
Proof.
  intros Hd Ha. unfold submit_request, served_device in *.
  assert (Hneg : (cd_type device =? RUNAI_FILE_STREAMER_DEVICE_CUDA) && (cd_id device <? 0) = false).
  { unfold RUNAI_FILE_STREAMER_DEVICE_CUDA, RUNAI_FILE_STREAMER_DEVICE_CPU in *.
    destruct (Z.eqb_spec (cd_type device) 1) as [E|]; [|done]. rewrite E in Hd. cbn in *. lia. }
  rewrite Hneg. rewrite <- negb_orb.
  assert (Htype : (cd_type device =? RUNAI_FILE_STREAMER_DEVICE_CPU) || (cd_type device =? RUNAI_FILE_STREAMER_DEVICE_CUDA) = true).
  { destruct (cd_type device =? RUNAI_FILE_STREAMER_DEVICE_CPU); [done|]. cbn in *. by apply andb_true_iff in Hd as [-> _]. }
  rewrite Htype. cbn [negb null orb]. rewrite andb_false_r.
  destruct (sum_ranges_total (counts_of request) (length request) 0 0) as [t ->]; [unfold counts_of; rewrite length_map; lia|].
  pose proof (files_at_read request a Ha [] request eq_refl) as Hf. cbn [length flat map concat] in Hf. rewrite Hf.
  destruct Ha as [[m1 ->] [m2 ->] [m3 ->]]. cbn [null orb]. by rewrite andb_false_r.
Qed.

(** ** No array is read past its end *)

Definition holds {A} (n : nat) (array : option (list A)) : Prop := ∀ l, array = Some l → (n <= length l)%nat.

(** The caller's part: what is not null is as long as the counts say. *)
Record arrays_given (num_files : nat) (paths : option (list (option text))) (num_ranges : option (list Z)) (a : RangeArrays) : Prop := {
  ag_files : Z.of_nat num_files < unsigned_modulus;
  ag_paths : holds num_files paths;
  ag_counts : ∀ l, num_ranges = Some l → (num_files <= length l)%nat ∧ Forall is_unsigned l;
  ag_ranges : ∀ l, num_ranges = Some l →
    let n := Z.to_nat (sumZ (take num_files l)) in
    holds n (range_offsets a) ∧ holds n (range_sizes a) ∧ holds n (range_dsts a) }.

Lemma sumZ_counts l : Forall is_unsigned l → 0 <= sumZ l <= Z.of_nat (length l) * (unsigned_modulus - 1).
Proof.
  induction 1 as [|x l Hx _ IH]; [done|]. unfold is_unsigned in Hx. rewrite sumZ_cons. cbn [length]. rewrite Nat2Z.inj_succ, Z.mul_succ_l. lia.
Qed.

Lemma sum_ranges_spec l : Forall is_unsigned l → ∀ n i acc, (i + n <= length l)%nat →
  0 <= acc → acc + sumZ (take n (drop i l)) < size_modulus → sum_ranges (Some l) n i acc = Some (acc + sumZ (take n (drop i l))).
Proof.
  intros Hl. induction n as [|n IH]; intros i acc Hlen Hacc Hlt; [cbn; by rewrite Z.add_0_r|]. cbn [sum_ranges at_].
  destruct (lookup_lt_is_Some_2 l i) as [x Ex]; [lia|]. rewrite Ex. rewrite (drop_S _ _ _ Ex) in *. cbn [take] in *. rewrite sumZ_cons in *.
  pose proof (Forall_lookup_1 _ _ _ _ Hl Ex) as Hx. unfold is_unsigned in Hx.
  pose proof (sumZ_counts (take n (drop (S i) l)) ltac:(by apply Forall_take, Forall_drop)) as Hs.
  rewrite IH by (unwrap; lia). f_equal. unwrap. lia.
Qed.

Lemma ranges_at_given a n : ∀ base, (∀ i, (i < base + n)%nat → is_Some (range_at a i)) → is_Some (ranges_at a base n).
Proof.
  induction n as [|n IH]; intros base H; cbn [ranges_at]; [by eexists|].
  destruct (H base) as [r ->]; [lia|]. destruct (IH (S base)) as [rs ->]; [|by eexists].
  intros i Hi. apply H. lia.
Qed.

Lemma files_at_given lp lc a : Forall is_unsigned lc → ∀ n i base, (i + n <= length lp)%nat → (i + n <= length lc)%nat →
  (∀ j, (j < base + Z.to_nat (sumZ (take n (drop i lc))))%nat → is_Some (range_at a j)) →
  is_Some (files_at (Some lp) (Some lc) a n i base).
Proof.
  intros Hlc. induction n as [|n IH]; intros i base Hp Hc H; cbn [files_at at_]; [by eexists|].
  destruct (lookup_lt_is_Some_2 lp i) as [p ->]; [lia|]. destruct p as [path|]; [|by eexists].
  destruct (lookup_lt_is_Some_2 lc i) as [k Ek]; [lia|]. rewrite Ek. rewrite (drop_S _ _ _ Ek) in H. cbn [take] in H. rewrite sumZ_cons in H.
  pose proof (Forall_lookup_1 _ _ _ _ Hlc Ek) as Hk. unfold is_unsigned in Hk.
  pose proof (sumZ_counts (take n (drop (S i) lc)) ltac:(by apply Forall_take, Forall_drop)) as Hs.
  destruct (ranges_at_given a (Z.to_nat k) base) as [rs ->]; [intros j Hj; apply H; lia|].
  destruct (IH (S i) (base + Z.to_nat k)%nat) as [x Ex]; [lia|lia|intros j Hj; apply H; lia|]. rewrite Ex.
  by destruct x; eexists.
Qed.

Lemma submit_request_given env num_files paths num_ranges a device st : arrays_given num_files paths num_ranges a →
  is_Some (submit_request env num_files paths num_ranges a device st).
Proof.
  intros [Hn Hp Hc Hr]. unfold submit_request.
  destruct (_ && (cd_id device <? 0)); [by eexists|]. destruct (_ && negb _); [by eexists|].
  destruct (Nat.ltb_spec 0 num_files) as [Hpos|Hz].
  - cbn [andb]. destruct paths as [lp|]; [|by eexists]. destruct num_ranges as [lc|]; [|by eexists]. cbn [null orb].
    destruct (Hc lc eq_refl) as [Hlc Hu]. specialize (Hr lc eq_refl). specialize (Hp lp eq_refl). cbn zeta in Hr.
    pose proof (sumZ_counts (take num_files lc) ltac:(by apply Forall_take)) as Hs. rewrite length_take in Hs.
    assert (Hbound : Z.of_nat (num_files `min` length lc) * (unsigned_modulus - 1) < size_modulus).
    { unfold size_modulus, unsigned_modulus in *. nia. }
    rewrite (sum_ranges_spec lc Hu num_files 0 0) by (rewrite ?drop_0; lia). rewrite drop_0, Z.add_0_l.
    rewrite Z.gtb_ltb. destruct (Z.ltb_spec 0 (sumZ (take num_files lc))) as [Ht|Ht].
    + cbn [andb]. destruct (range_offsets a) as [lo|] eqn:Eo; [|by eexists]. destruct (range_sizes a) as [ls|] eqn:Es; [|by eexists].
      destruct (range_dsts a) as [ld|] eqn:Ed; [|by eexists]. cbn [null orb]. destruct Hr as (H1 & H2 & H3).
      specialize (H1 lo eq_refl). specialize (H2 ls eq_refl). specialize (H3 ld eq_refl).
      destruct (files_at_given lp lc a Hu num_files 0 0) as [x ->]; [lia|lia| |by destruct x; eexists].
      intros j Hj. rewrite drop_0 in Hj. unfold range_at, at_. rewrite Eo, Es, Ed.
      destruct (lookup_lt_is_Some_2 lo j) as [? ->]; [lia|]. destruct (lookup_lt_is_Some_2 ls j) as [? ->]; [lia|].
      destruct (lookup_lt_is_Some_2 ld j) as [? ->]; [lia|]. by eexists.
    + cbn [andb]. destruct (files_at_given lp lc a Hu num_files 0 0) as [x ->]; [lia|lia| |by destruct x; eexists].
      intros j Hj. rewrite drop_0 in Hj. lia.
  - replace num_files with 0%nat by lia. cbn. by eexists.
Qed.

(** ** Responses at the interface *)

(** Calling response again and again. *)
Fixpoint respond_all (nows : list Z) (h : Handle) : option (list (Z * ResponseOut) * Handle) :=
  match nows with
  | [] => Some ([], h)
  | now :: nows =>
      match runai_file_streamer_response (Some h) true true 0 now with
      | Some (code, Some out, Some h) =>
          match respond_all nows h with None => None | Some (outs, h) => Some ((code, out) :: outs, h) end
      | _ => None
      end
  end.

(** A streamer with what its workers delivered: every token is a response, every response is owed. *)
Record delivered_ok (h : Handle) : Prop := {
  dl_running : stopped (st_responder (hd_streamer h)) = false;
  dl_mode : mode (st_responder (hd_streamer h)) = PERSISTENT;
  dl_ready : SharedQueue.ready (st_responder (hd_streamer h)) = length (responses (st_responder (hd_streamer h)));
  dl_codes : Forall (λ r, ret r ≠ FinishedError ∧ ret r ≠ TimedOut) (responses (st_responder (hd_streamer h)));
  dl_live : live_ok (st_submissions (hd_streamer h));
  dl_owed : ∀ id, Z.of_nat (length (filter (λ r, submission_id r = id) (responses (st_responder (hd_streamer h))))) <=
    outstanding (st_submissions (hd_streamer h)) id }.

Definition reported (m : SubmissionsMgr) (before : list Response) (r : Response) : Z * ResponseOut :=
  (to_int (ret r), mkResponseOut (SharedQueue.file_index r) (SharedQueue.index r) (submission_id r)
     (if decide (Z.of_nat (length (filter (λ x, submission_id x = submission_id r) before)) + 1 = outstanding m (submission_id r)) then 1 else 0)).

Lemma response_once h now r rs : delivered_ok h → responses (st_responder (hd_streamer h)) = r :: rs →
  ∃ h', runai_file_streamer_response (Some h) true true 0 now =
    Some ((reported (st_submissions (hd_streamer h)) [] r).1, Some (reported (st_submissions (hd_streamer h)) [] r).2, Some h') ∧
    delivered_ok h' ∧ responses (st_responder (hd_streamer h')) = rs ∧
    (∀ id, outstanding (st_submissions (hd_streamer h')) id =
           outstanding (st_submissions (hd_streamer h)) id - (if decide (id = submission_id r) then 1 else 0)).
Proof.
  intros [Hs Hm Hr Hc Hl Ho] Hq. destruct h as [[plugin mgr q] credentials resolver]. cbn in *. rewrite Hq in *.
  apply Forall_cons in Hc as [[Hf Ht] Hc].
  assert (Hpos : 0 < outstanding mgr (submission_id r)).
  { specialize (Ho (submission_id r)). rewrite filter_cons, decide_True in Ho by done. cbn in Ho. lia. }
  destruct (consume_mgr_spec (submission_id r) now mgr Hl Hpos) as (res & mgr' & Hcons & Hl' & _ & Ho' & Hres & _).
  unfold runai_file_streamer_response, response, pop, pop_entry. cbn [negb orb hd_streamer st_responder]. rewrite Hs, Hm, Hr.
  unfold pop_locked, set_ready. cbn [bool_decide decide_rel QueueMode_eq_dec andb length stopped responses]. rewrite Hs, Hq.
  cbn [andb obind mode running responses SharedQueue.ready stopped total_bytesize successful unexpected_push_error].
  rewrite !bool_decide_false by done. cbn [andb orb obind st_submissions st_plugin]. rewrite !bool_decide_false by done. cbn [orb].
  unfold consume_submission_response. cbn [hd_streamer st_submissions]. rewrite Hcons. cbn [obind].
  eexists. split.
  { unfold reported. cbn [fst snd filter list_filter length]. rewrite Hres. do 3 f_equal.
    destruct (decide (outstanding mgr (submission_id r) = 1)) as [E|E]; [rewrite decide_True by lia|rewrite decide_False by lia]; done. }
  split; [|by split].
  split; cbn; try done.
  intros id. rewrite Ho'. specialize (Ho id). rewrite filter_cons in Ho.
  destruct (decide (submission_id r = id)) as [E|E]; cbn [length] in Ho.
  - rewrite decide_True by done. lia.
  - rewrite decide_False by done. lia.
Qed.

Lemma respond_all_spec nows : ∀ h before, delivered_ok h → length nows = length (responses (st_responder (hd_streamer h))) →
  ∀ m, (∀ id, outstanding m id = outstanding (st_submissions (hd_streamer h)) id + Z.of_nat (length (filter (λ x, submission_id x = id) before))) →
  ∃ outs h', respond_all nows h = Some (outs, h') ∧ delivered_ok h' ∧ responses (st_responder (hd_streamer h')) = [] ∧
    (∀ id, outstanding (st_submissions (hd_streamer h')) id = outstanding (st_submissions (hd_streamer h)) id -
       Z.of_nat (length (filter (λ x, submission_id x = id) (responses (st_responder (hd_streamer h)))))) ∧
    ∀ i r, responses (st_responder (hd_streamer h)) !! i = Some r →
      outs !! i = Some (reported m (before ++ take i (responses (st_responder (hd_streamer h)))) r).
Proof.
  induction nows as [|now nows IH]; intros h before Hh Hlen m Hm.
  - destruct (responses (st_responder (hd_streamer h))) as [|r rs] eqn:Eq; [|done].
    exists [], h. split_and!; try done. intros id. cbn. lia.
  - destruct (responses (st_responder (hd_streamer h))) as [|r rs] eqn:Eq; [done|]. injection Hlen as Hlen.
    destruct (response_once h now r rs Hh Eq) as (h1 & E1 & Hh1 & Eq1 & Ho1). cbn [respond_all]. rewrite E1.
    destruct (IH h1 (before ++ [r]) Hh1) with (m := m) as (outs & h2 & E2 & Hh2 & Eq2 & Ho2 & Hout); [by rewrite Eq1| |].
    { intros id. rewrite Hm, Ho1, filter_app, length_app, filter_cons. destruct (decide (submission_id r = id)) as [E|E].
      - rewrite decide_True by done. cbn. lia.
      - rewrite decide_False by done. cbn. lia. }
    rewrite E2. eexists _, h2. split_and!; [done|done|done| |].
    + intros id. rewrite Ho2, Ho1, Eq1, filter_cons. destruct (decide (submission_id r = id)) as [E|E].
      * rewrite decide_True by done. cbn [length]. lia.
      * rewrite decide_False by done. lia.
    + intros [|i] x Hx.
      * injection Hx as <-. cbn [take lookup list_lookup]. rewrite app_nil_r. f_equal. unfold reported. cbn [length filter list_filter].
        rewrite Hm. cbn [fst snd]. f_equal. f_equal. repeat case_decide; try done; exfalso; cbn in *; lia.
      * cbn [lookup list_lookup] in Hx. rewrite Eq1 in Hout. specialize (Hout i x Hx). cbn [lookup list_lookup take].
        rewrite <- app_assoc in Hout. exact Hout.
Qed.

(** ** Properties *)

(** C1: An acceptable request given as the flat arrays of the interface is the request the pools get: the call
    answers Success with the submission of exactly these files and ranges, for the device the C struct names. *)
Theorem request_accepted_through_api env request a device h : served_device device = true → arrays_of request a →
  acceptable env request (hd_streamer h) →
  ∃ s, runai_file_streamer_request env (Some h) (length request) (Some (paths_of request)) (Some (counts_of request)) a device =
         Some (to_int Success, Some s) ∧ accepted request (destination_of device) (hd_streamer h) s.
Proof.
  intros Hd Ha Hok. destruct (async_request_spec env request (destination_of device) (hd_streamer h) Hok) as (s & E & Hs).
  exists s. split; [|done]. unfold runai_file_streamer_request. rewrite submit_request_marshals by done. rewrite E.
  cbn [obind]. by rewrite (ac_code _ _ _ _ Hs).
Qed.

(** C4: Whatever the caller passes, as long as what is not null is as long as the counts say, the call reads nothing
    past an array or through a null pointer and answers one of the published codes. *)
Theorem request_reads_what_it_was_given env streamer num_files paths num_ranges a device :
  arrays_given num_files paths num_ranges a →
  ∃ code s, runai_file_streamer_request env streamer num_files paths num_ranges a device = Some (to_int code, s).
Proof.
  intros Ha. unfold runai_file_streamer_request. destruct streamer as [h|]; [|by eexists _, _].
  destruct (submit_request_given env num_files paths num_ranges a device (hd_streamer h) Ha) as [r Er]. rewrite Er.
  destruct r as [[code s]|[c| |]]; [|by eexists c, _|by eexists UnknownError, _|by eexists UnknownError, _].
  assert (H : ∃ c, code = to_int c); [|destruct H as [c ->]; by exists c, s]. unfold submit_request in Er.
  repeat match type of Er with
  | (if ?b then _ else _) = _ => destruct b; [injection Er as <- _; first [by exists InvalidDevice|by exists UnsupportedDeviceType|by exists InvalidParameterError]|]
  | match ?x with _ => _ end = _ => destruct x; try done
  end.
  - injection Er as Er. apply obind_Ret_inv in Er as (x & _ & Hx). injection Hx as <- _. by eexists.
  - injection Er as <- _. by exists InvalidParameterError.
Qed.

(** C2: Response by response the interface hands out what the workers delivered, oldest first, each once with its
    file, range, submission and code; submission_done is 1 exactly for the response that completes its submission,
    whatever else is in flight; afterwards a timed wait times out and an untimed one waits. *)
Theorem responses_handed_out h nows : delivered_ok h → length nows = length (responses (st_responder (hd_streamer h))) →
  ∃ outs h', respond_all nows h = Some (outs, h') ∧
    (∀ i r, responses (st_responder (hd_streamer h)) !! i = Some r → ∃ o, outs !! i = Some (to_int (ret r), o) ∧
       out_file_index o = SharedQueue.file_index r ∧ out_index o = SharedQueue.index r ∧ out_submission_id o = submission_id r ∧
       (out_submission_done o = 1 ↔
          Z.of_nat (length (filter (λ x, submission_id x = submission_id r) (take (S i) (responses (st_responder (hd_streamer h)))))) =
            outstanding (st_submissions (hd_streamer h)) (submission_id r))) ∧
    (∀ now timeout_ms, runai_file_streamer_response (Some h') true true timeout_ms now =
       if timeout_ms =? 0 then None else Some (to_int TimedOut, Some (mkResponseOut 0 0 0 0), Some h')).
Proof.
  intros Hh Hlen. destruct (respond_all_spec nows h [] Hh Hlen (st_submissions (hd_streamer h))) as (outs & h' & E & Hh' & Hq & _ & Hout).
  { intros id. cbn. lia. }
  exists outs, h'. split; [done|]. split.
  - intros i r Hi. eexists. split; [by apply Hout|]. cbn [snd reported out_file_index out_index out_submission_id out_submission_done].
    split_and!; try done. rewrite app_nil_l. rewrite (take_S_r _ _ _ Hi), filter_app, length_app, filter_cons.
    rewrite (decide_True (P := submission_id r = submission_id r)) by done. cbn [filter list_filter length]. rewrite Nat2Z.inj_add. cbn [Z.of_nat]. case_decide; (split; [intros; lia|intros; first [done|exfalso; lia]]).
  - intros now timeout_ms. destruct Hh' as [Hs Hm Hr _ _ _]. rewrite Hq in Hr. destruct h' as [[plugin mgr q] cs rs]. cbn in *.
    unfold runai_file_streamer_response, response, pop, pop_entry. cbn [negb orb hd_streamer st_responder]. rewrite Hs, Hm, Hr.
    by destruct (timeout_ms =? 0).
Qed.


(** However the probe ends the caller has a block it can lay its buffers out by, and only the null pointer leaves
    none; nothing is read past the paths. *)
Theorem probe_always_leaves_a_block page_size probe streamer paths num_paths :
  0 < page_size < size_modulus → (∀ l code block, probe l = Ret (code, block) → 0 < block) → holds num_paths paths →
  ∃ code block, runai_file_streamer_probe_direct_block_size page_size probe streamer paths num_paths true = Some (to_int code, Some block) ∧ 0 < block.
Proof.
  intros Hp Hb Hl. unfold runai_file_streamer_probe_direct_block_size. cbn [negb].
  assert (Hw : 0 < wrap64 page_size) by (unwrap; lia).
  destruct streamer as [h|]; [|by exists InvalidParameterError, (wrap64 page_size)].
  assert (Hg : ∀ l n i, paths = Some l → (i + n <= length l)%nat → is_Some (given_paths paths n i)).
  { intros l n. induction n as [|n IH]; intros i E Hi; [by eexists|]. cbn [given_paths]. rewrite E. cbn [at_].
    destruct (lookup_lt_is_Some_2 l i) as [x ->]; [lia|]. rewrite E in IH. destruct (IH (S i) eq_refl) as [r ->]; [lia|]. by destruct x; eexists. }
  destruct (Nat.eqb_spec num_paths 0) as [->|Hn]; cbn [negb andb].
  - cbn [given_paths]. destruct (probe (filesystem_paths [])) as [[code block]|[c| |]] eqn:E;
      [exists code, block; split; [done|by eapply Hb]|exists c, (wrap64 page_size)|exists UnknownError, (wrap64 page_size)..]; done.
  - destruct paths as [l|]; cbn [null]; [|by exists InvalidParameterError, (wrap64 page_size)].
    destruct (Hg l num_paths 0%nat eq_refl) as [r ->]; [apply Hl; done|].
    destruct (probe (filesystem_paths r)) as [[code block]|[c| |]] eqn:E;
      [exists code, block; split; [done|by eapply Hb]|exists c, (wrap64 page_size)|exists UnknownError, (wrap64 page_size)..]; done.
Qed.

(** ** One program *)

Module Calls.
Definition arrays : RangeArrays := mkRangeArrays (Some [4; 10]) (Some [6; 2]) (Some [100; 106; 7]).
Definition handle : Handle := mkHandle submitted_streamer None new_resolver.

Lemma request_accepted_through_api_witness :
  ∃ s, runai_file_streamer_request submitted_env (Some handle) 1 (Some [Some (txt "/m")]) (Some [2]) arrays (mkCDevice 0 (-1)) =
    Some (to_int Success, Some s) ∧ accepted submitted_request (mkDevice Cpu 4294967295) submitted_streamer s.
Proof.
  apply (request_accepted_through_api submitted_env submitted_request arrays (mkCDevice 0 (-1)) handle).
  - reflexivity.
  - split; [by exists []|by exists []|by exists [7]].
  - exact submitted_acceptable.
Defined.

Lemma request_reads_what_it_was_given_witness :
  runai_file_streamer_request submitted_env (Some handle) 2 (Some [Some (txt "/m"); None]) (Some [1; 1]) arrays (mkCDevice 0 0) =
    Some (to_int InvalidParameterError, None) ∧
  ∃ code s, runai_file_streamer_request submitted_env (Some handle) 2 (Some [Some (txt "/m"); None]) (Some [1; 1]) arrays (mkCDevice 0 0) =
    Some (to_int code, s).
Proof.
  split; [reflexivity|]. apply request_reads_what_it_was_given. split; [reflexivity| | |].
  - intros l [= <-]. cbn. lia.
  - intros l [= <-]. split; [cbn; lia|]. repeat constructor; done.
  - intros l [= <-]. cbn. split_and!; intros l [= <-]; cbn; lia.
Defined.

(** Two submissions, the responses of one done and one of the other's two delivered. *)
Definition delivered_queue : queue :=
  mkQueue PERSISTENT 1 [mkResponse 2 0 1 Success; mkResponse 1 0 0 EofError] 2 false 0 true false.
Definition delivered : Handle :=
  mkHandle (mkStreamer None (mkMgr 3 {[1 := mkEntry 1 8 0; 2 := mkEntry 2 64 0]}) delivered_queue) None new_resolver.

Lemma responses_handed_out_witness : ∃ h',
  respond_all [10; 11] delivered =
    Some ([(to_int Success, mkResponseOut 0 1 2 0); (to_int EofError, mkResponseOut 0 0 1 1)], h') ∧
  runai_file_streamer_response (Some h') true true 50 12 = Some (to_int TimedOut, Some (mkResponseOut 0 0 0 0), Some h').
Proof.
  destruct (responses_handed_out delivered [10; 11]) as (outs & h' & E & _ & Hlast).
  - split; try reflexivity; try (repeat constructor; discriminate).
    + intros id e H. cbn in H. apply lookup_insert_Some in H as [[_ <-]|[_ H]]; [vm_compute; split; congruence|].
      apply lookup_singleton_Some in H as [_ <-]. vm_compute. split; congruence.
    + intros id. unfold outstanding. cbn [delivered hd_streamer st_responder delivered_queue responses st_submissions submissions].
      rewrite !filter_cons, filter_nil. cbn [submission_id].
      destruct (decide (2 = id)) as [<-|H2]; [vm_compute; congruence|].
      destruct (decide (1 = id)) as [<-|H1]; [vm_compute; congruence|].
      rewrite lookup_insert_ne, lookup_singleton_ne by done. vm_compute. congruence.
  - reflexivity.
  - exists h'. split; [|exact (Hlast 12 50)]. rewrite E. f_equal. f_equal. revert E. vm_compute. by intros [= <- _].
Defined.

Definition read_request : list FileRanges := [mkFileRanges (txt "/m") [mkReadRange 4 6 100]].

Definition read_submitted : Submitted :=
  match async_request submitted_env read_request host submitted_streamer with
  | Ret s => s
  | Throw _ => refused UnknownError 0 submitted_streamer
  end.

Definition read_transfers : list ContiguousTransfer :=
  match assigner is_uri (env_config submitted_env) [-1] read_request with
  | Ret (_, asg) => as_transfers asg
  | Throw _ => []
  end.

Lemma read_acceptable : acceptable submitted_env read_request submitted_streamer.
Proof.
  split.
  - split; vm_compute; try split; congruence.
  - done.
  - repeat constructor; vm_compute; congruence.
  - done.
  - done.
  - repeat constructor.
  - done.
  - intros n asg E. assert (as_transfers asg = read_transfers) as -> by (revert E; vm_compute; by intros [= _ <-]).
    vm_compute. reflexivity.
  - done.
  - vm_compute. reflexivity.
  - done.
  - done.
  - done.
  - split; [vm_compute; split; congruence|done].
  - split_and!; [done|vm_compute; congruence|done].
Qed.

Definition read_batches : list Batch := batches_of (sub_workloads read_submitted).
Definition read_world : world (R := queue) := mkWorld (sub_requests read_submitted) (st_responder (sub_streamer read_submitted)).

Definition read_done : Batch * world (R := queue) :=
  match read_batches with
  | [b] => match finished_until 10 Success b read_world with Ret x => x | Throw _ => (b, read_world) end
  | _ => (mkBatch 0 0 0 false [] [] (mkRange 0 0 0) 0, read_world)
  end.

Definition pools (s : Submitted) : Streamer :=
  mkStreamer (st_plugin (sub_streamer s)) (st_submissions (sub_streamer s)) (Batch.responder read_done.2).

End Calls.
