(* ===== verification/CapacityQueue.v ===== *)
(** The credit-bounded queue of an asynchronous worker (utils/capacity_queue): items wait in order, and
    the cost of the items taken and not yet completed is kept within the capacity. *)

From S2P Require Import Prelude.

(** ** The queue *)

Section Queue.
Context {T : Type}.

Record CapacityQueue := mkCapacityQueue {
  capacity : Z; inflight : Z; queued : list (T * Z) }.

Definition make_capacity_queue (capacity : Z) : CapacityQueue := mkCapacityQueue capacity 0 [].

Definition enqueue (item : T) (cost : Z) (q : CapacityQueue) : CapacityQueue :=
  mkCapacityQueue (capacity q) (inflight q) (queued q ++ [(item, cost)]).

Definition enqueue_front (item : T) (cost : Z) (q : CapacityQueue) : CapacityQueue :=
  mkCapacityQueue (capacity q) (inflight q) ((item, cost) :: queued q).

Definition try_take (q : CapacityQueue) : option T * CapacityQueue :=
  match queued q with
  | [] => (None, q)
  | (item, cost) :: rest =>
      if negb (inflight q =? 0) && (inflight q ⊕ cost >? capacity q) then (None, q)
      else (Some item, mkCapacityQueue (capacity q) (inflight q ⊕ cost) rest)
  end.

Definition complete (cost : Z) (q : CapacityQueue) : CapacityQueue :=
  mkCapacityQueue (capacity q) (if inflight q >=? cost then inflight q ⊖ cost else 0) (queued q).

Definition clear (q : CapacityQueue) : CapacityQueue := mkCapacityQueue (capacity q) 0 [].

Definition abort_pending (q : CapacityQueue) : CapacityQueue :=
  mkCapacityQueue (capacity q) (inflight q) [].

Definition empty (q : CapacityQueue) : bool := bool_decide (queued q = []).

Definition idle (q : CapacityQueue) : bool := empty q && (inflight q =? 0).

(** ** What its owner sees: items are taken in order, each completed once at its own cost *)

(** [taken] are the items in flight, oldest first; no cost exceeds [most]. *)
Inductive step (most : Z) : CapacityQueue * list (T * Z) → CapacityQueue * list (T * Z) → Prop :=
| step_enqueue item cost q taken :
  0 < cost <= most → step most (q, taken) (enqueue item cost q, taken)
| step_enqueue_front item cost q taken :
  0 < cost <= most → step most (q, taken) (enqueue_front item cost q, taken)
| step_take item cost rest q q' taken :
  queued q = (item, cost) :: rest → try_take q = (Some item, q') → step most (q, taken) (q', taken ++ [(item, cost)])
| step_complete item cost before after q :
  step most (q, before ++ (item, cost) :: after) (complete cost q, before ++ after)
| step_clear q taken : step most (q, taken) (clear q, [])
| step_abort q taken : step most (q, taken) (abort_pending q, taken).

Inductive reachable (cap most : Z) : CapacityQueue * list (T * Z) → Prop :=
| reach_start : reachable cap most (make_capacity_queue cap, [])
| reach_step s s' : reachable cap most s → step most s s' → reachable cap most s'.

(** ** The window *)

Definition total (l : list (T * Z)) : Z := sumZ (map snd l).

Definition costs_ok (most : Z) (l : list (T * Z)) : Prop := Forall (λ x, 0 < x.2 <= most) l.

(** The credit reserved is that of the items in flight, and it exceeds the capacity only for a single
    item that could never fit. *)
Record window (cap most : Z) (q : CapacityQueue) (taken : list (T * Z)) : Prop := {
  wd_capacity : capacity q = cap;
  wd_queued : costs_ok most (queued q);
  wd_taken : costs_ok most taken;
  wd_inflight : inflight q = total taken;
  wd_bound : inflight q <= cap ∨ ∃ x, taken = [x] }.

Lemma total_app l k : total (l ++ k) = total l + total k.
Proof. unfold total. by rewrite map_app, sumZ_app. Qed.

Lemma total_nonneg most l : costs_ok most l → 0 <= total l.
Proof. intros H. apply sumZ_nonneg, Forall_map. eapply Forall_impl; [exact H|]. simpl. lia. Qed.

Lemma total_zero most l : costs_ok most l → total l = 0 → l = [].
Proof.
  destruct l as [|x l]; [done|]. intros [Hx Hl]%Forall_cons H. pose proof (total_nonneg _ _ Hl).
  unfold total in *. simpl in *. lia.
Qed.

Lemma total_most most x : costs_ok most [x] → total [x] <= most.
Proof. intros [Hx _]%Forall_cons. unfold total. simpl. lia. Qed.

Lemma window_take cap most q q' taken item cost rest :
  is_size cap → 0 <= most → cap + most < size_modulus → most + most < size_modulus →
  window cap most q taken → queued q = (item, cost) :: rest → try_take q = (Some item, q') →
  window cap most q' (taken ++ [(item, cost)]).
Proof.
  intros Hcap Hm Hc1 Hc2 [Hw1 Hw2 Hw3 Hw4 Hw5] Hq. unfold try_take. rewrite Hq.
  pose proof (total_nonneg _ _ Hw3) as Hpos.
  rewrite Hq in Hw2. apply Forall_cons in Hw2 as [Hcost Hrest]. simpl in Hcost.
  assert (Hle : inflight q <= Z.max cap most).
  { destruct Hw5 as [|[x ->]]; [lia|]. rewrite Hw4. pose proof (total_most _ _ Hw3). lia. }
  assert (Hsum : inflight q ⊕ cost = inflight q + cost) by (unwrap; mlia).
  rewrite Hsum. destruct (negb _ && _) eqn:E; [congruence|]. intros [= <-].
  split; simpl; [done|done| | |].
  - apply Forall_app. split; [done|]. constructor; [done|constructor].
  - rewrite total_app. unfold total at 2. simpl. lia.
  - apply andb_false_iff in E as [E|E].
    + right. apply negb_false_iff, Z.eqb_eq in E. rewrite (total_zero _ _ Hw3) by lia. eauto.
    + left. rewrite Z.gtb_ltb in E. apply Z.ltb_ge in E. lia.
Qed.

Lemma window_complete cap most q item cost before after :
  is_size cap → most + most < size_modulus →
  window cap most q (before ++ (item, cost) :: after) → window cap most (complete cost q) (before ++ after).
Proof.
  intros Hcap Hm [Hw1 Hw2 Hw3 Hw4 Hw5].
  apply Forall_app in Hw3 as [Hb Ha]. apply Forall_cons in Ha as [Hcost Ha]. simpl in Hcost.
  pose proof (total_nonneg _ _ Hb). pose proof (total_nonneg _ _ Ha).
  assert (Htot : inflight q = total before + cost + total after)
    by (rewrite Hw4, total_app; unfold total; simpl; lia).
  assert (Hin : (if inflight q >=? cost then inflight q ⊖ cost else 0) = total before + total after).
  { rewrite Z.geb_leb, (proj2 (Z.leb_le _ _)) by lia. destruct Hw5 as [|[x Hx]]; [unwrap; mlia|].
    destruct before as [|y before]; [|by destruct before].
    destruct after as [|y after]; [|done]. unfold total in *. simpl in *. unwrap. mlia. }
  split; simpl; [done|done| | |].
  - by apply Forall_app.
  - by rewrite Hin, total_app.
  - left. rewrite Hin. destruct Hw5 as [|[x Hx]]; [mlia|].
    destruct before as [|y before]; [|by destruct before].
    destruct after as [|y after]; [|done]. unfold total. simpl. mlia.
Qed.

Lemma window_step cap most q taken q' taken' :
  is_size cap → 0 <= most → cap + most < size_modulus → most + most < size_modulus →
  window cap most q taken → step most (q, taken) (q', taken') → window cap most q' taken'.
Proof.
  intros Hcap Hm Hc1 Hc2 Hw Hs.
  inversion Hs; subst; [| |by eapply window_take|by eapply window_complete| |];
    destruct Hw as [Hw1 Hw2 Hw3 Hw4 Hw5]; (split; simpl; [done| | | |]).
  all: try done; try (by constructor); try (left; mlia).
  apply Forall_app. split; [done|]. by constructor; [|constructor].
Qed.

(** An asynchronous worker's window is safe under any interleaving of enqueues, takes, completions
    and aborts: the reserved credit is always the total cost of the items in flight; it stays within the
    capacity unless one single oversized item is in flight; and the window never wedges - when an item is
    waiting and none can be taken, something is in flight whose completion releases credit. *)
Theorem window_safe cap most q taken :
  is_size cap → 0 <= most → cap + most < size_modulus → most + most < size_modulus →
  reachable cap most (q, taken) →
  inflight q = total taken ∧ (inflight q <= cap ∨ ∃ x, taken = [x]) ∧
  (queued q ≠ [] → (try_take q).1 = None → taken ≠ []).
Proof.
  intros Hcap Hm Hc1 Hc2 Hr.
  assert (Hw : window cap most q taken).
  { remember (q, taken) as s eqn:Es. revert q taken Es.
    induction Hr as [|[q0 t0] s' Hr IH Hs]; intros q taken Es; [|subst s'].
    - injection Es as <- <-. split; simpl; [done|constructor|constructor|done|left; mlia].
    - eapply window_step; eauto. }
  destruct Hw as [Hw1 Hw2 Hw3 Hw4 Hw5]. split; [done|]. split; [done|].
  unfold try_take. destruct (queued q) as [|[item cost] rest]; [done|]. intros _ Hn ->.
  rewrite Hw4 in Hn. done.
Qed.
End Queue.

Arguments CapacityQueue : clear implicits.

Lemma window_safe_witness :
  let q1 := enqueue "b"%string 2 (enqueue "a"%string 9 (make_capacity_queue 4)) in
  ∃ q2, try_take q1 = (Some "a"%string, q2) ∧ inflight q2 = 9 ∧ (try_take q2).1 = None ∧
    (inflight q2 = total [("a"%string, 9)] ∧ (inflight q2 <= 4 ∨ ∃ x, [("a"%string, 9)] = [x]) ∧
      (queued q2 ≠ [] → (try_take q2).1 = None → [("a"%string, 9)] ≠ [])).
Proof.
  intros q1. exists (mkCapacityQueue 4 9 [("b"%string, 2)]). split; [reflexivity|]. split; [reflexivity|].
  split; [reflexivity|].
  apply (window_safe 4 16); [split; vm_compute; congruence|lia|reflexivity|reflexivity|].
  eapply reach_step; [|apply (step_take 16 "a"%string 9 [("b"%string, 2)] q1 _ []); reflexivity].
  eapply reach_step; [|apply step_enqueue; lia].
  eapply reach_step; [|apply step_enqueue; lia]. apply reach_start.
Defined.
