(* ===== verification/InflightChunks.v ===== *)
(** The chunks an asynchronous worker has in flight (streamer/impl/async_io/inflight_chunks): a table
    from request id to how far the chunk was read, where it goes, and what its current pass holds. *)

From S2P Require Import Prelude ResponseCode Task ChunkSplitter.

(** A pinned buffer on loan; a null [sb_data] is no buffer. *)
Record StagingBuffer := mkStaging { sb_data : Z; sb_bytesize : Z; sb_index : Z; sb_slab : Z }.

Definition no_staging : StagingBuffer := mkStaging 0 0 0 0.
Definition staging_valid (b : StagingBuffer) : bool := negb (sb_data b =? 0).

(** The extent, then what changes: where the next pass resumes and what it owes, the scratch of the
    current pass, the staging buffer, and the interruptions so far. *)
Record InflightChunk := mkInflight {
  chunk : Chunk; cursor : Z; remaining : Z;
  workload_id : Z; batch_index : Z;
  scratch : Z; scratch_skip : Z; scratch_wanted : Z;
  staging : StagingBuffer; staging_skip : Z;
  transient_retries : Z }.

Inductive Progress := Complete | Partial | Eof.

#[export] Instance Progress_eq_dec : EqDecision Progress.
Proof. solve_decision. Defined.

Record InflightChunks := mkTable { next_request : Z; live : gmap Z InflightChunk }.

Definition new_table : InflightChunks := mkTable 1 ∅.

Definition find (id : Z) (t : InflightChunks) : option InflightChunk := live t !! id.

Definition update (id : Z) (e : InflightChunk) (t : InflightChunks) : InflightChunks :=
  mkTable (next_request t) (<[id := e]> (live t)).

(** The lookup every operation but [clear_bounce] and [may_retry_transient] asserts. *)
Definition entry (id : Z) (t : InflightChunks) : outcome InflightChunk :=
  match find id t with Some e => Ret e | None => Throw AssertFailed end.

Definition start_entry (c : Chunk) (workload batch : Z) : InflightChunk :=
  mkInflight c (c_offset c) (c_bytesize c) workload batch 0 0 0 no_staging 0 0.

Definition add (c : Chunk) (workload batch : Z) (t : InflightChunks) : outcome (Z * InflightChunks) :=
  let id := next_request t in
  ASSERT (bool_decide (find id t = None)) ;;!
  Ret (id, mkTable (id ⊕ 1) (<[id := start_entry c workload batch]> (live t))).

Definition advance (bytes : Z) (e : InflightChunk) : InflightChunk :=
  mkInflight (chunk e) (cursor e ⊕ bytes) (remaining e ⊖ bytes) (workload_id e) (batch_index e)
             (scratch e) (scratch_skip e) (scratch_wanted e) (staging e) (staging_skip e) (transient_retries e).

Definition record (id bytes_transferred : Z) (t : InflightChunks) : outcome (Progress * InflightChunks) :=
  let! e := entry id t in
  if bytes_transferred >=? remaining e then Ret (Complete, update id (advance (remaining e) e) t)
  else if bytes_transferred =? 0 then Ret (Eof, t)
  else Ret (Partial, update id (advance bytes_transferred e) t).

(** Where byte [off] of the chunk goes while it is read. *)
Definition landing (e : InflightChunk) (off : Z) : Z :=
  (if staging_valid (staging e) then sb_data (staging e) + staging_skip e else c_buffer (chunk e)) +
  (off - c_offset (chunk e)).

Definition pending (id : Z) (t : InflightChunks) : outcome Chunk :=
  let! e := entry id t in
  Ret (mkChunk (cursor e) (remaining e) (landing e (cursor e)) (first_task (chunk e)) (task_count (chunk e))).

Definition set_staging (id : Z) (b : StagingBuffer) (t : InflightChunks) : outcome InflightChunks :=
  let! e := entry id t in
  Ret (update id (mkInflight (chunk e) (cursor e) (remaining e) (workload_id e) (batch_index e) (scratch e)
                    (scratch_skip e) (scratch_wanted e) b (staging_skip e) (transient_retries e)) t).

Definition set_staging_skip (id skip : Z) (t : InflightChunks) : outcome InflightChunks :=
  let! e := entry id t in
  ASSERT (staging_valid (staging e)) ;;!
  Ret (update id (mkInflight (chunk e) (cursor e) (remaining e) (workload_id e) (batch_index e) (scratch e)
                    (scratch_skip e) (scratch_wanted e) (staging e) skip (transient_retries e)) t).

Definition release (id : Z) (t : InflightChunks) : outcome (Chunk * InflightChunks) :=
  let! e := entry id t in
  Ret (chunk e, mkTable (next_request t) (delete id (live t))).

Definition with_bounce (buffer skip wanted : Z) (e : InflightChunk) : InflightChunk :=
  mkInflight (chunk e) (cursor e) (remaining e) (workload_id e) (batch_index e) buffer skip wanted
             (staging e) (staging_skip e) (transient_retries e).

Definition set_bounce (id buffer skip wanted : Z) (t : InflightChunks) : outcome InflightChunks :=
  let! e := entry id t in
  ASSERT ((scratch e =? 0) && (scratch_wanted e =? 0)) ;;!
  Ret (update id (with_bounce buffer skip wanted e) t).

(** The scratch to give back, null when there is none. *)
Definition clear_bounce (id : Z) (t : InflightChunks) : Z * InflightChunks :=
  match find id t with
  | None => (0, t)
  | Some e => (scratch e, update id (with_bounce 0 0 0 e) t)
  end.

Definition MaxTransientRetries : Z := 1024.

Definition count_retry (e : InflightChunk) : InflightChunk :=
  mkInflight (chunk e) (cursor e) (remaining e) (workload_id e) (batch_index e) (scratch e) (scratch_skip e)
             (scratch_wanted e) (staging e) (staging_skip e) (add32 (transient_retries e) 1).

Definition may_retry_transient (id : Z) (t : InflightChunks) : bool * InflightChunks :=
  match find id t with
  | None => (false, t)
  | Some e =>
      if transient_retries e >=? MaxTransientRetries then (false, t)
      else (true, update id (count_retry e) t)
  end.

(** The buffers handed to [give] (in what order is not kept) and the table afterwards. *)
Definition release_all_scratch (t : InflightChunks) : list Z * InflightChunks :=
  (omap (λ x, if scratch x.2 =? 0 then None else Some (scratch x.2)) (map_to_list (live t)),
   mkTable (next_request t) ((λ e, if scratch e =? 0 then e else with_bounce 0 0 0 e) <$> live t)).

Definition release_all_staging (t : InflightChunks) : list StagingBuffer * InflightChunks :=
  (omap (λ x, if staging_valid (staging x.2) then Some (staging x.2) else None) (map_to_list (live t)),
   mkTable (next_request t)
     ((λ e, if staging_valid (staging e)
            then mkInflight (chunk e) (cursor e) (remaining e) (workload_id e) (batch_index e) (scratch e)
                   (scratch_skip e) (scratch_wanted e) no_staging (staging_skip e) (transient_retries e)
            else e) <$> live t)).

Definition clear (t : InflightChunks) : InflightChunks := mkTable (next_request t) ∅.

Definition table_size (t : InflightChunks) : nat := base.size (live t).

(** ** One chunk, read in several passes *)

Lemma entry_Some id t e : find id t = Some e → entry id t = Ret e.
Proof. unfold entry. by intros ->. Qed.

Lemma find_update id e t : find id (update id e t) = Some e.
Proof. unfold find, update. simpl. apply lookup_insert_eq. Qed.

Lemma find_update_ne id id' e t : id ≠ id' → find id (update id' e t) = find id t.
Proof. intros H. unfold find, update. simpl. by apply lookup_insert_ne. Qed.

(** The bytes before the cursor have landed and [remaining] are owed. *)
Record progressing (e : InflightChunk) : Prop := {
  pg_start : 0 <= c_offset (chunk e) <= cursor e;
  pg_owed : 0 <= remaining e;
  pg_end : cursor e + remaining e = c_offset (chunk e) + c_bytesize (chunk e);
  pg_room : c_offset (chunk e) + c_bytesize (chunk e) < size_modulus }.

Lemma start_progressing c workload batch :
  0 <= c_offset c → 0 <= c_bytesize c → c_offset c + c_bytesize c < size_modulus →
  progressing (start_entry c workload batch).
Proof. intros. split; simpl; lia. Qed.

Lemma advance_progressing bytes e : progressing e → 0 <= bytes <= remaining e →
  progressing (advance bytes e) ∧ cursor (advance bytes e) = cursor e + bytes ∧
  remaining (advance bytes e) = remaining e - bytes.
Proof.
  intros [H1 H2 H3 H4] Hb. unfold advance. simpl.
  assert (Hc : cursor e ⊕ bytes = cursor e + bytes) by (unwrap; mlia).
  assert (Hr : remaining e ⊖ bytes = remaining e - bytes) by (unwrap; mlia).
  rewrite Hc, Hr. split; [|done]. split; simpl; rewrite ?Hc, ?Hr; lia.
Qed.

(** What [record] does to a live entry that received no more than it owed. *)
Lemma record_spec id bytes t e : find id t = Some e → progressing e → 0 <= bytes <= remaining e →
  record id bytes t =
    if decide (bytes = remaining e) then Ret (Complete, update id (advance bytes e) t)
    else if decide (bytes = 0) then Ret (Eof, t) else Ret (Partial, update id (advance bytes e) t).
Proof.
  intros Hf Hp Hb. unfold record. rewrite (entry_Some _ _ _ Hf). simpl.
  rewrite Z.geb_leb. destruct (decide (bytes = remaining e)) as [->|Hne].
  - by rewrite Z.leb_refl.
  - rewrite (proj2 (Z.leb_gt _ _)) by lia. destruct (decide (bytes = 0)) as [->|H0]; [done|].
    by rewrite (proj2 (Z.eqb_neq _ _)).
Qed.

(** Successive passes over request [id], the [i]-th one landing the [i]-th count: what each was asked
    to read, how many bytes landed, and what that meant. *)
Fixpoint passes (id : Z) (counts : list Z) (t : InflightChunks) :
    outcome (list (Chunk * Z * Progress) * InflightChunks) :=
  match counts with
  | [] => Ret ([], t)
  | n :: counts =>
      let! c := pending id t in
      let! (p, t) := record id n t in
      let! (l, t) := passes id counts t in
      Ret ((c, n, p) :: l, t)
  end.

Abbreviation pass_asked := (λ x : Chunk * Z * Progress, x.1.1).
Abbreviation pass_landed := (λ x : Chunk * Z * Progress, x.1.2).

Lemma passes_spec id counts : ∀ t e,
  find id t = Some e → progressing e → counts ≠ [] → Forall (λ n, 0 < n) counts → sumZ counts = remaining e →
  ∃ l t', passes id counts t = Ret (l, t') ∧ map pass_landed l = counts ∧
    tiles (λ x, c_offset (pass_asked x)) pass_landed (cursor e) l (cursor e + remaining e) ∧
    Forall (λ x, c_buffer (pass_asked x) = landing e (c_offset (pass_asked x)) ∧
                 c_offset (pass_asked x) + c_bytesize (pass_asked x) = cursor e + remaining e) l ∧
    map snd l = replicate (length counts - 1) Partial ++ [Complete] ∧
    (∃ e', find id t' = Some e' ∧ chunk e' = chunk e ∧ remaining e' = 0) ∧
    ∀ k, k ≠ id → find k t' = find k t.
Proof.
  induction counts as [|n counts IH]; intros t e Hf Hp Hne Hpos Hsum; [done|]. clear Hne.
  apply Forall_cons in Hpos as [Hn Hpos].
  assert (Hrest : 0 <= sumZ counts) by (apply sumZ_nonneg; eapply Forall_impl; [exact Hpos|]; simpl; lia).
  simpl in Hsum. simpl. unfold pending at 1. rewrite (entry_Some _ _ _ Hf). simpl.
  rewrite (record_spec _ _ _ _ Hf Hp) by lia.
  destruct (advance_progressing n e Hp) as (Hp' & Hc' & Hr'); [lia|].
  destruct counts as [|m counts].
  - simpl in Hsum. rewrite decide_True by lia. simpl. eexists _, _. split; [reflexivity|].
    split; [done|]. split; [constructor; simpl; [done|lia|]; replace (remaining e) with n by lia; constructor|].
    split; [constructor; [done|constructor]|]. split; [done|]. split.
    + eexists. split; [apply find_update|]. split; [done|]. lia.
    + intros k Hk. by apply find_update_ne.
  - assert (Hm : 0 < m + sumZ counts).
    { apply Forall_cons in Hpos as [Hm Hpos].
      assert (0 <= sumZ counts) by (apply sumZ_nonneg; eapply Forall_impl; [exact Hpos|]; simpl; lia). lia. }
    simpl in Hsum. rewrite decide_False, decide_False by lia. cbn [obind].
    destruct (IH (update id (advance n e) t) (advance n e)) as (l & t' & -> & Hl & Ht & Hall & Hpr & He & Hk).
    { apply find_update. } { done. } { done. } { done. } { simpl in *. lia. }
    cbn [obind]. eexists _, t'. split; [reflexivity|]. rewrite Hc', Hr' in Ht, Hall.
    change (landing (advance n e)) with (landing e) in Hall.
    replace (cursor e + n + (remaining e - n)) with (cursor e + remaining e) in Ht, Hall by lia.
    split; [by rewrite <- Hl|]. split; [constructor; simpl; [done|lia|done]|].
    split; [constructor; [done|exact Hall]|]. split.
    + simpl in *. rewrite Hpr. by rewrite Nat.sub_0_r.
    + split; [done|]. intros k Hne. rewrite Hk by done. by apply find_update_ne.
Qed.

(** ** The life of the table *)

(** [ids] were returned by [add] and [granted] are the ids a transient retry was allowed for, newest
    first. *)
Record history := mkHistory { table : InflightChunks; ids : list Z; granted : list Z }.

Definition with_table (h : history) (t : InflightChunks) : history := mkHistory t (ids h) (granted h).

Inductive step (h : history) : history → Prop :=
| step_add c w b id t : add c w b (table h) = Ret (id, t) → step h (mkHistory t (id :: ids h) (granted h))
| step_record id n p t : record id n (table h) = Ret (p, t) → step h (with_table h t)
| step_set_staging id b t : set_staging id b (table h) = Ret t → step h (with_table h t)
| step_set_staging_skip id n t : set_staging_skip id n (table h) = Ret t → step h (with_table h t)
| step_release id c t : release id (table h) = Ret (c, t) → step h (with_table h t)
| step_set_bounce id b skip n t : set_bounce id b skip n (table h) = Ret t → step h (with_table h t)
| step_clear_bounce id : step h (with_table h (clear_bounce id (table h)).2)
| step_retry id t : may_retry_transient id (table h) = (true, t) → step h (mkHistory t (ids h) (id :: granted h))
| step_no_retry id t : may_retry_transient id (table h) = (false, t) → step h (with_table h t)
| step_release_all_scratch : step h (with_table h (release_all_scratch (table h)).2)
| step_release_all_staging : step h (with_table h (release_all_staging (table h)).2)
| step_clear : step h (with_table h (clear (table h))).

Inductive reachable : history → Prop :=
| reach_start : reachable (mkHistory new_table [] [])
| reach_step h h' : reachable h → step h h' → reachable h'.

Definition times (id : Z) (l : list Z) : Z := Z.of_nat (length (filter (λ x, x = id) l)).

Lemma times_cons id x l : times id (x :: l) = times id l + (if decide (x = id) then 1 else 0).
Proof. unfold times. rewrite filter_cons. destruct (decide (x = id)); simpl length; lia. Qed.

(** How an operation may change the table without adding a request: no request becomes live, the next
    id stays, and no budget changes. *)
Definition tame (t t' : InflightChunks) : Prop :=
  next_request t' = next_request t ∧
  ∀ id e', find id t' = Some e' → ∃ e, find id t = Some e ∧ transient_retries e' = transient_retries e.

Lemma tame_refl t : tame t t.
Proof. split; eauto. Qed.

Lemma tame_update id e e' t : find id t = Some e → transient_retries e' = transient_retries e → tame t (update id e' t).
Proof.
  intros Hf Hr. split; [done|]. intros k f Hk. destruct (decide (k = id)) as [->|Hne].
  - rewrite find_update in Hk. injection Hk as <-. eauto.
  - rewrite find_update_ne in Hk by done. eauto.
Qed.

Lemma tame_fmap (f : InflightChunk → InflightChunk) t : (∀ e, transient_retries (f e) = transient_retries e) →
  tame t (mkTable (next_request t) (f <$> live t)).
Proof.
  unfold tame, find. simpl. intros Hf. split; [done|]. intros id e' (e & <- & He)%lookup_fmap_Some. exists e. by rewrite Hf.
Qed.

Lemma entry_Ret_inv id t e : entry id t = Ret e → find id t = Some e.
Proof. unfold entry. destruct (find id t); [by intros [= ->]|done]. Qed.

(** Every operation but [add] and an allowed retry is tame. *)
Lemma step_cases h h' : step h h' →
  (tame (table h) (table h') ∧ ids h' = ids h ∧ granted h' = granted h) ∨
  (∃ c w b id, add c w b (table h) = Ret (id, table h') ∧ ids h' = id :: ids h ∧ granted h' = granted h) ∨
  (∃ id, may_retry_transient id (table h) = (true, table h') ∧ ids h' = ids h ∧ granted h' = id :: granted h).
Proof.
  intros Hs. destruct Hs as [c w b id t E|id n p t E|id b t E|id n t E|id c t E|id b skip n t E|id|id t E|id t E| | |];
    simpl; [right; left; by eauto 10|left|left|left|left|left|left|right; right; by eauto|left..]; (split; [|done]).
  - unfold record in E. apply obind_Ret_inv in E as (e & He%entry_Ret_inv & E).
    destruct (_ >=? _); [injection E as _ <-; by eapply tame_update|].
    destruct (_ =? _); injection E as _ <-; [apply tame_refl|by eapply tame_update].
  - unfold set_staging in E. apply obind_Ret_inv in E as (e & He%entry_Ret_inv & [= <-]). by eapply tame_update.
  - unfold set_staging_skip in E. apply obind_Ret_inv in E as (e & He%entry_Ret_inv & E).
    apply obind_Ret_inv in E as (_ & _ & [= <-]). by eapply tame_update.
  - unfold release in E. apply obind_Ret_inv in E as (e & He & [= _ <-]). split; [done|]. unfold find. simpl.
    intros k e' [_ Hk]%lookup_delete_Some. eauto.
  - unfold set_bounce in E. apply obind_Ret_inv in E as (e & He%entry_Ret_inv & E).
    apply obind_Ret_inv in E as (_ & _ & [= <-]). by eapply tame_update.
  - unfold clear_bounce. destruct (find id (table h)) eqn:Hf; [by eapply tame_update|apply tame_refl].
  - unfold may_retry_transient in E. destruct (find id (table h)); [|injection E as <-; apply tame_refl].
    destruct (_ >=? _); [injection E as <-; apply tame_refl|done].
  - apply tame_fmap. intros e. by destruct (scratch e =? 0).
  - apply tame_fmap. intros e. by destruct (staging_valid (staging e)).
  - split; [done|]. intros id e' He. unfold find in He. simpl in He. by rewrite lookup_empty in He.
Qed.

(** Ids count up from 1, a live request is one that was added, and its budget is what it was granted. *)
Record accounted (h : history) : Prop := {
  ah_next : next_request (table h) = 1 + Z.of_nat (length (ids h));
  ah_ids : Forall (λ id, 0 < id < next_request (table h)) (ids h);
  ah_distinct : NoDup (ids h);
  ah_live : ∀ id e, find id (table h) = Some e → id ∈ ids h ∧ times id (granted h) = transient_retries e;
  ah_budget : ∀ id, times id (granted h) <= MaxTransientRetries;
  ah_unused : ∀ id, id ∉ ids h → times id (granted h) = 0 }.

Lemma accounted_step h h' : accounted h → step h h' → Z.of_nat (length (ids h)) + 2 < size_modulus → accounted h'.
Proof.
  intros [Hn Hi Hd Hl Hb Hu] Hs Hroom.
  destruct (step_cases _ _ Hs) as [([Hn' Ht] & Ei & Eg)|[(c & w & b & id & E & Ei & Eg)|(id & E & Ei & Eg)]].
  - split; rewrite ?Ei, ?Eg, ?Hn'; try done. intros id e' He'. destruct (Ht _ _ He') as (e & He & ->). by apply Hl.
  - unfold add in E. apply obind_Ret_inv in E as (_ & _ & [= <- Et]).
    assert (Hfresh : next_request (table h) ∉ ids h)
      by (intros Hin; rewrite Forall_forall in Hi; specialize (Hi _ Hin); simpl in Hi; lia).
    assert (Hnext : next_request (table h') = next_request (table h) + 1) by (rewrite <- Et; simpl; unwrap; mlia).
    split; rewrite ?Ei, ?Eg; simpl length.
    + lia.
    + constructor; [lia|]. eapply Forall_impl; [exact Hi|]. simpl. lia.
    + by constructor.
    + intros k e. rewrite <- Et. unfold find. simpl. destruct (decide (k = next_request (table h))) as [->|Hne].
      * rewrite lookup_insert_eq. intros [= <-]. split; [left|]. by apply Hu.
      * rewrite lookup_insert_ne by done. intros Hk. destruct (Hl _ _ Hk). split; [by right|done].
    + done.
    + intros k Hk. apply Hu. intros Hin. apply Hk. by right.
  - unfold may_retry_transient in E. destruct (find id (table h)) as [e|] eqn:He; [|done].
    rewrite Z.geb_leb in E. destruct (Z.leb_spec MaxTransientRetries (transient_retries e)) as [|Hlt]; [done|].
    injection E as Et. destruct (Hl _ _ He) as [Hid Hcount].
    assert (0 <= times id (granted h)) by (unfold times; lia).
    assert (Hinc : transient_retries (count_retry e) = transient_retries e + 1)
      by (simpl; unfold MaxTransientRetries in *; unwrap; mlia).
    split; rewrite ?Ei, ?Eg; try (rewrite <- Et; assumption); try assumption.
    + intros k e'. rewrite <- Et, times_cons. destruct (decide (id = k)) as [<-|Hne].
      * rewrite find_update. intros [= <-]. split; [done|]. rewrite Hinc. lia.
      * rewrite find_update_ne by done. intros Hk. destruct (Hl _ _ Hk). split; [done|]. lia.
    + intros k. rewrite times_cons. specialize (Hb k). destruct (decide (id = k)) as [<-|Hne]; lia.
    + intros k Hk. rewrite times_cons, Hu by done. by rewrite decide_False by (intros ->; done).
Qed.

Lemma accounted_reachable h : reachable h → Z.of_nat (length (ids h)) + 2 < size_modulus → accounted h.
Proof.
  induction 1 as [|h h' Hr IH Hs]; intros Hroom.
  - split; simpl; [done|constructor|constructor| |intros id; vm_compute; congruence|done].
    intros id e He. unfold find in He. simpl in He. by rewrite lookup_empty in He.
  - assert (Z.of_nat (length (ids h)) <= Z.of_nat (length (ids h'))).
    { destruct (step_cases _ _ Hs) as [(_ & -> & _)|[(c & w & b & id & _ & -> & _)|(id & _ & -> & _)]]; simpl; lia. }
    eapply accounted_step; [apply IH; lia|done|lia].
Qed.

(** ** Claims *)

(** A short read loses nothing.  However the kernel cuts a chunk up - any positive counts that add up
    to what is owed - the passes tile exactly the owed bytes, each asks for everything still owed at the
    place where the byte it starts with belongs, all but the last are Partial, the last is Complete, the
    chunk is then released unchanged, and no other request is touched. *)
Theorem passes_reassemble id counts t e :
  find id t = Some e → progressing e → counts ≠ [] → Forall (λ n, 0 < n) counts → sumZ counts = remaining e →
  ∃ l t', passes id counts t = Ret (l, t') ∧ map pass_landed l = counts ∧
    tiles (λ x, c_offset (pass_asked x)) pass_landed (cursor e) l (cursor e + remaining e) ∧
    Forall (λ x, c_buffer (pass_asked x) = landing e (c_offset (pass_asked x)) ∧
                 c_offset (pass_asked x) + c_bytesize (pass_asked x) = cursor e + remaining e) l ∧
    map snd l = replicate (length counts - 1) Partial ++ [Complete] ∧
    (∃ t'', release id t' = Ret (chunk e, t'') ∧ find id t'' = None) ∧
    ∀ k, k ≠ id → find k t' = find k t.
Proof.
  intros Hf Hp Hne Hpos Hsum.
  destruct (passes_spec id counts t e Hf Hp Hne Hpos Hsum) as (l & t' & E & Hl & Ht & Hall & Hpr & (e' & He' & Hc & _) & Hk).
  exists l, t'. do 5 (split; [done|]). split; [|done].
  eexists. unfold release. rewrite (entry_Some _ _ _ He'). simpl. rewrite Hc. split; [reflexivity|].
  unfold find. simpl. apply lookup_delete_eq.
Qed.

(** Request ids are never reused and the transient budget is per chunk, for the table's whole life:
    ids returned by add are distinct and never 0, add's collision assert never fires and returns an id
    no earlier request had - so a completion for a released or dropped request finds nothing for ever -
    and no request is allowed more than MaxTransientRetries retries, whatever happens in between. *)
Theorem ids_fresh_budget_bounded h :
  reachable h → Z.of_nat (length (ids h)) + 2 < size_modulus →
  NoDup (ids h) ∧ (0 ∉ ids h) ∧ (∀ id e, find id (table h) = Some e → id ∈ ids h) ∧
  (∀ c w b, ∃ id t, add c w b (table h) = Ret (id, t) ∧ id ∉ ids h) ∧
  ∀ id, times id (granted h) <= MaxTransientRetries.
Proof.
  intros Hr Hroom. destruct (accounted_reachable h Hr Hroom) as [Hn Hi Hd Hl Hb Hu].
  rewrite Forall_forall in Hi. split; [done|]. split; [intros H0; specialize (Hi _ H0); simpl in Hi; lia|].
  split; [intros id e He; by destruct (Hl _ _ He)|]. split; [|done].
  assert (Hfresh : next_request (table h) ∉ ids h) by (intros Hin; specialize (Hi _ Hin); simpl in Hi; lia).
  intros c w b. eexists _, _. split; [|exact Hfresh].
  unfold add. rewrite ASSERT_true; [reflexivity|]. apply bool_decide_true.
  destruct (find (next_request (table h)) (table h)) as [e|] eqn:He; [|done]. by destruct (Hl _ _ He).
Qed.

(** ** Witnesses: a chunk of ten bytes read as three, five and two *)

Definition example_table : InflightChunks :=
  update 1 (start_entry (mkChunk 4096 10 70000 0 1) 1 0) (mkTable 2 ∅).

Lemma passes_reassemble_witness :
  ∃ l t', passes 1 [3; 5; 2] example_table = Ret (l, t') ∧
    map (λ x, (c_offset (pass_asked x), c_bytesize (pass_asked x), c_buffer (pass_asked x), x.2)) l =
      [(4096, 10, 70000, Partial); (4099, 7, 70003, Partial); (4104, 2, 70008, Complete)].
Proof.
  destruct (passes_reassemble 1 [3; 5; 2] example_table (start_entry (mkChunk 4096 10 70000 0 1) 1 0))
    as (l & t' & E & _).
  - reflexivity.
  - split; vm_compute; try split; congruence.
  - done.
  - repeat constructor.
  - reflexivity.
  - exists l, t'. split; [done|]. revert E. vm_compute. by intros [= <- <-].
Defined.

Lemma ids_fresh_budget_bounded_witness :
  let t := mkTable 2 {[1 := start_entry (mkChunk 0 8 512 0 1) 1 0]} in
  NoDup [1] ∧ ∃ id t', add (mkChunk 8 8 520 1 1) 1 0 t = Ret (id, t') ∧ id ∉ [1].
Proof.
  intros t.
  destruct (ids_fresh_budget_bounded (mkHistory t [1] [])) as (Hd & _ & _ & Ha & _).
  - eapply reach_step; [apply reach_start|].
    apply (step_add (mkHistory new_table [] []) (mkChunk 0 8 512 0 1) 1 0 1 t). reflexivity.
  - reflexivity.
  - split; [exact Hd|]. apply Ha.
Defined.
