(* ===== verification/DirectPass.v ===== *)
(** Direct reads (streamer/impl/async_io/async_io_worker): the room a staging buffer needs, the aligned
    pass issued for what a chunk still owes, and what a completion of that pass delivers.

    The kernel and memcpy act on a memory of bytes, so that where the bytes end up can be stated. *)

From S2P Require Import Prelude ResponseCode Alignment Task ChunkSplitter.

(** ** The code *)

Definition staging_bytesize (chunk_bytesize block : Z) (direct : bool) : Z :=
  if negb direct then chunk_bytesize
  else
    let worst := chunk_bytesize ⊕ block ⊖ 1 in
    (worst ⊕ block ⊖ 1) / block ⊗ block.

Record DirectPass := mkPass {
  dp_offset : Z; dp_bytesize : Z; dp_buffer : Z; dp_scratch : Z; dp_skip : Z; dp_wanted : Z }.

(** The pass of a buffered read: exactly what is owed. *)
Definition buffered_pass (pending : Chunk) : DirectPass :=
  mkPass (c_offset pending) (c_bytesize pending) (c_buffer pending) 0 0 0.

(** [taken] is what ScratchPool::take answers, [None] also without a pool; it is asked only for a pass
    that bounces. *)
Definition plan_direct_pass (pending : Chunk) (block : Z) (staged : bool) (taken : option Z) : option DirectPass :=
  let head := c_offset pending mod block in
  if staged then
    Some (mkPass (c_offset pending ⊖ head)
                 ((head ⊕ c_bytesize pending ⊕ block ⊖ 1) / block ⊗ block)
                 (c_buffer pending - head) 0 head (c_bytesize pending))
  else if negb (head =? 0) then
    match taken with
    | None => None
    | Some scratch =>
        Some (mkPass (c_offset pending ⊖ head) block scratch scratch head
                     (Z.min (block ⊖ head) (c_bytesize pending)))
    end
  else if c_bytesize pending >=? block then
    Some (mkPass (c_offset pending) (c_bytesize pending ⊖ c_bytesize pending mod block) (c_buffer pending) 0 0 0)
  else
    match taken with
    | None => None
    | Some scratch => Some (mkPass (c_offset pending) block scratch scratch 0 (c_bytesize pending))
    end.

(** land_bounced_pass: the wanted bytes among the [n] the kernel reported, given the three scratch
    fields of the entry. *)
Definition useful_bytes (scratch skip wanted n : Z) : Z :=
  if (scratch =? 0) && (skip =? 0) && (wanted =? 0) then n
  else if n <=? skip then 0 else Z.min wanted (n ⊖ skip).

(** ** Memory *)

Section Memory.
Context {A : Type} (file : Z → A).

(** The kernel puts the [n] bytes of the file from [offset] at [buffer]. *)
Definition kernel_read (offset n buffer : Z) (mem : Z → A) : Z → A :=
  λ a, if (buffer <=? a) && (a <? buffer + n) then file (offset + (a - buffer)) else mem a.

Definition memcpy (dst src n : Z) (mem : Z → A) : Z → A :=
  λ a, if (dst <=? a) && (a <? dst + n) then mem (src + (a - dst)) else mem a.

(** A completion of [n] bytes for [pass], then land_bounced_pass. *)
Definition land_pass (pending : Chunk) (pass : DirectPass) (n : Z) (mem : Z → A) : Z * (Z → A) :=
  let mem := kernel_read (dp_offset pass) n (dp_buffer pass) mem in
  let useful := useful_bytes (dp_scratch pass) (dp_skip pass) (dp_wanted pass) n in
  (useful,
   if (useful >? 0) && negb (dp_scratch pass =? 0)
   then memcpy (c_buffer pending) (dp_scratch pass + dp_skip pass) useful mem else mem).
End Memory.

(** ** Legality *)

(** What the kernel requires of a direct read. *)
Record legal (block : Z) (pass : DirectPass) : Prop := {
  lg_offset : dp_offset pass mod block = 0;
  lg_bytesize : dp_bytesize pass mod block = 0;
  lg_buffer : dp_buffer pass mod block = 0;
  lg_some : 0 < dp_bytesize pass }.

(** What the plan of [pending] may assume. *)
Record plannable (pending : Chunk) (block : Z) (staged : bool) (taken : option Z) : Prop := {
  pl_block : 0 < block;
  pl_offset : 0 <= c_offset pending;
  pl_some : 0 < c_bytesize pending;
  pl_room : c_offset pending + c_bytesize pending + block + block < size_modulus;
  pl_congruent : is_congruent (c_offset pending) (c_buffer pending) block = true;
  pl_taken : ∀ s, taken = Some s → s ≠ 0 ∧ s mod block = 0 }.

Lemma congruent_mod offset buffer block : 0 < block → is_congruent offset buffer block = true →
  buffer mod block = offset mod block.
Proof.
  intros Hb. unfold is_congruent, usable. rewrite (proj2 (Z.eqb_neq block 0)) by lia. by intros ?%Z.eqb_eq.
Qed.

Lemma round_up_eq head n block : 0 <= head < block → 0 < n → head + n + block + block < size_modulus →
  (head ⊕ n ⊕ block ⊖ 1) / block ⊗ block = (head + n + block - 1) / block * block ∧
  head + n <= (head + n + block - 1) / block * block < head + n + block.
Proof.
  intros Hh Hn Hr. pose proof (round_up_bound (head + n) block ltac:(lia)) as Hb.
  assert (Hw : head ⊕ n ⊕ block ⊖ 1 = head + n + block - 1) by (unwrap; mlia).
  rewrite Hw. set (up := (head + n + block - 1) / block) in *. split; [|lia]. unwrap. done.
Qed.

(** The plan, spelled without wrapping. *)
Inductive planned (p : Chunk) (block : Z) (staged : bool) (taken : option Z) : DirectPass → Prop :=
| planned_staged head : staged = true → head = c_offset p mod block →
    planned p block staged taken
      (mkPass (c_offset p - head) ((head + c_bytesize p + block - 1) / block * block) (c_buffer p - head) 0 head
              (c_bytesize p))
| planned_head head s : staged = false → head = c_offset p mod block → head ≠ 0 → taken = Some s →
    planned p block staged taken
      (mkPass (c_offset p - head) block s s head (Z.min (block - head) (c_bytesize p)))
| planned_middle : staged = false → c_offset p mod block = 0 → block <= c_bytesize p →
    planned p block staged taken
      (mkPass (c_offset p) (c_bytesize p - c_bytesize p mod block) (c_buffer p) 0 0 0)
| planned_tail s : staged = false → c_offset p mod block = 0 → c_bytesize p < block → taken = Some s →
    planned p block staged taken (mkPass (c_offset p) block s s 0 (c_bytesize p)).

Lemma plan_planned p block staged taken pass : plannable p block staged taken →
  plan_direct_pass p block staged taken = Some pass → planned p block staged taken pass.
Proof.
  intros [Hb Ho Hn Hr _ _]. unfold plan_direct_pass.
  pose proof (Z.mod_pos_bound (c_offset p) block Hb) as Hm.
  pose proof (Z.mod_le (c_offset p) block Ho Hb) as Hle.
  pose proof (Z.mod_pos_bound (c_bytesize p) block Hb) as Hm2.
  pose proof (Z.mod_le (c_bytesize p) block ltac:(lia) Hb) as Hle2.
  assert (Hoff : c_offset p ⊖ c_offset p mod block = c_offset p - c_offset p mod block) by (unwrap; mlia).
  destruct staged.
  - destruct (round_up_eq (c_offset p mod block) (c_bytesize p) block) as [-> _]; [lia..|].
    rewrite Hoff. intros [= <-]. by apply planned_staged.
  - destruct (Z.eqb_spec (c_offset p mod block) 0) as [H0|H0]; cbn [negb].
    + rewrite Z.geb_leb. destruct (Z.leb_spec block (c_bytesize p)) as [Hge|Hlt].
      * intros [= <-]. replace (c_bytesize p ⊖ c_bytesize p mod block) with (c_bytesize p - c_bytesize p mod block)
          by (unwrap; mlia). by apply planned_middle.
      * destruct taken as [s|]; [|done]. intros [= <-]. by apply planned_tail.
    + destruct taken as [s|]; [|done]. rewrite Hoff. intros [= <-].
      replace (block ⊖ c_offset p mod block) with (block - c_offset p mod block) by (unwrap; mlia).
      by apply planned_head.
Qed.

Lemma planned_legal p block staged taken pass :
  plannable p block staged taken → planned p block staged taken pass → legal block pass.
Proof.
  intros [Hb Ho Hn Hr Hc Ht] Hp. pose proof (congruent_mod _ _ _ Hb Hc) as Hcm.
  pose proof (Z.mod_pos_bound (c_offset p) block Hb) as Hm.
  pose proof (round_down_mod (c_offset p) block Hb) as Hd.
  pose proof (Z.mod_pos_bound (c_bytesize p) block Hb) as Hm2.
  destruct Hp as [head _ ->|head s _ -> Hh Hs|_ H0 Hge|s _ H0 Hlt Hs]; split; simpl; try done; try lia.
  - by apply Z.mod_mul; lia.
  - rewrite <- Hcm. by apply round_down_mod.
  - pose proof (round_up_bound (c_offset p mod block + c_bytesize p) block Hb). lia.
  - by apply Z.mod_same; lia.
  - by apply (Ht s).
  - by apply round_down_mod.
  - by apply Z.mod_same; lia.
  - by apply (Ht s).
Qed.

(** What the pass has to do with the chunk: where the chunk's first byte is in it, how much of the chunk it
    can deliver, and which memory the kernel writes. *)
Record serves (p : Chunk) (block : Z) (staged : bool) (pass : DirectPass) : Prop := {
  sv_start : dp_offset pass + dp_skip pass = c_offset p;
  sv_skip : 0 <= dp_skip pass < dp_bytesize pass;
  sv_place : dp_scratch pass = 0 → dp_buffer pass + dp_skip pass = c_buffer p;
  sv_scratch : dp_scratch pass ≠ 0 → staged = false ∧ dp_buffer pass = dp_scratch pass ∧ dp_bytesize pass = block;
  sv_exact : staged = false → dp_scratch pass = 0 → dp_skip pass = 0 ∧ dp_bytesize pass <= c_bytesize p }.

Lemma planned_serves p block staged taken pass :
  plannable p block staged taken → planned p block staged taken pass → serves p block staged pass.
Proof.
  intros [Hb Ho Hn Hr Hc Ht] Hp.
  pose proof (Z.mod_pos_bound (c_offset p) block Hb) as Hm.
  pose proof (Z.mod_pos_bound (c_bytesize p) block Hb) as Hm2.
  pose proof (Z.mod_le (c_bytesize p) block ltac:(lia) Hb) as Hle2.
  pose proof (round_up_bound (c_offset p mod block + c_bytesize p) block Hb) as Hup.
  destruct Hp as [head Hst ->|head s Hst -> Hh Hs|Hst H0 Hge|s Hst H0 Hlt Hs]; split; simpl; try done; try lia;
    intros; solve [congruence | by destruct (Ht s Hs)].
Qed.

Lemma useful_spec p block staged taken pass n : plannable p block staged taken → planned p block staged taken pass →
  0 <= n <= dp_bytesize pass →
  let u := useful_bytes (dp_scratch pass) (dp_skip pass) (dp_wanted pass) n in
  0 <= u <= c_bytesize p ∧ u <= Z.max 0 (n - dp_skip pass) ∧
  (n = dp_bytesize pass → 0 < u ∧ (dp_wanted pass ≠ 0 → u = dp_wanted pass) ∧ (dp_wanted pass = 0 → u = n)).
Proof.
  intros [Hb Ho Hs0 Hr Hc Ht] Hp Hn. unfold useful_bytes.
  pose proof (Z.mod_pos_bound (c_offset p) block Hb) as Hm.
  pose proof (Z.mod_pos_bound (c_bytesize p) block Hb) as Hm2.
  pose proof (Z.mod_le (c_bytesize p) block ltac:(lia) Hb) as Hle2.
  pose proof (round_up_eq (c_offset p mod block) (c_bytesize p) block Hm Hs0) as Hup.
  pose proof (Z.mod_le (c_offset p) block Ho Hb) as Hle.
  destruct Hp as [head Hst ->|head s Hst -> Hh Hs|Hst H0 Hge|s Hst H0 Hlt Hs]; simpl in *.
  - rewrite (proj2 (Z.eqb_neq (c_bytesize p) 0)), andb_false_r by lia. destruct Hup as [_ Hup]; [lia|].
    set (up := (c_offset p mod block + c_bytesize p + block - 1) / block) in *.
    destruct (Z.leb_spec n (c_offset p mod block)); [lia|]. unwrap. lia.
  - destruct (Ht s Hs) as [Hs1 _]. rewrite (proj2 (Z.eqb_neq s 0)) by lia. simpl.
    destruct (Z.leb_spec n (c_offset p mod block)); [lia|]. unwrap. lia.
  - lia.
  - destruct (Ht s Hs) as [Hs1 _]. rewrite (proj2 (Z.eqb_neq s 0)) by lia. simpl.
    destruct (Z.leb_spec n 0); [lia|]. unwrap. lia.
Qed.

(** ** Claims *)

(** Every planned direct pass is one the kernel accepts - offset, length and address are block
    multiples and it reads something - and it holds the chunk's next byte; without staging the kernel
    writes only the chunk's own destination or one whole block of scratch. *)
Theorem direct_pass_legal p block staged taken pass :
  plannable p block staged taken → plan_direct_pass p block staged taken = Some pass →
  legal block pass ∧ serves p block staged pass.
Proof.
  intros Hp E. apply plan_planned in E; [|done].
  split; [by eapply planned_legal|by eapply planned_serves].
Qed.

(** C28: however many bytes the kernel delivers, landing a direct pass moves exactly the next useful bytes
    of the file to where the chunk wants them, never counts more than the chunk owes, makes progress
    whenever the kernel delivered the whole pass, and, but for the pass's own extent, writes no address
    outside the chunk's destination. *)
Theorem direct_pass_lands {A} (file : Z → A) p block staged taken pass n mem :
  plannable p block staged taken → plan_direct_pass p block staged taken = Some pass →
  0 <= n <= dp_bytesize pass →
  (dp_scratch pass ≠ 0 → dp_scratch pass + block <= c_buffer p ∨ c_buffer p + c_bytesize p <= dp_scratch pass) →
  let '(useful, mem') := land_pass file p pass n mem in
  0 <= useful <= c_bytesize p ∧ (n = dp_bytesize pass → 0 < useful) ∧
  (∀ i, 0 <= i < useful → mem' (c_buffer p + i) = file (c_offset p + i)) ∧
  (∀ a, ¬ (c_buffer p <= a < c_buffer p + c_bytesize p) →
        ¬ (dp_buffer pass <= a < dp_buffer pass + dp_bytesize pass) → mem' a = mem a).
Proof.
  intros Hp E Hn Hdis. apply plan_planned in E; [|done].
  destruct (planned_serves _ _ _ _ _ Hp E) as [S1 S2 S3 S4 S5].
  destruct (useful_spec _ _ _ _ _ n Hp E Hn) as (U1 & U2 & U3).
  unfold land_pass. set (u := useful_bytes _ _ _ n) in *. split; [done|]. split; [intros Hf; by apply U3|].
  destruct (decide (dp_scratch pass = 0)) as [H0|H0].
  - rewrite H0. simpl. rewrite andb_false_r. specialize (S3 H0). split.
    + intros i Hi. unfold kernel_read. rewrite (proj2 (Z.leb_le _ _)), (proj2 (Z.ltb_lt _ _)) by lia. simpl. f_equal. lia.
    + intros a _ Ha. unfold kernel_read. destruct (Z.leb_spec (dp_buffer pass) a); [|done].
      rewrite (proj2 (Z.ltb_ge _ _)) by lia. done.
  - rewrite (proj2 (Z.eqb_neq (dp_scratch pass) 0)), andb_true_r by done.
    destruct (S4 H0) as (_ & Hbuf & Hlen). specialize (Hdis H0).
    destruct (Z.gtb_spec u 0) as [Hu|Hu]; split.
    + intros i Hi. unfold memcpy. rewrite (proj2 (Z.leb_le _ _)), (proj2 (Z.ltb_lt _ _)) by lia. simpl.
      unfold kernel_read. rewrite (proj2 (Z.leb_le _ _)), (proj2 (Z.ltb_lt _ _)) by lia. simpl. f_equal. lia.
    + intros a Ha Hb. unfold memcpy.
      assert ((c_buffer p <=? a) && (a <? c_buffer p + u) = false) as ->.
      { destruct (Z.leb_spec (c_buffer p) a); [|done]. apply Z.ltb_ge. lia. }
      unfold kernel_read. assert ((dp_buffer pass <=? a) && (a <? dp_buffer pass + n) = false) as ->; [|done].
      destruct (Z.leb_spec (dp_buffer pass) a); [|done]. apply Z.ltb_ge. lia.
    + intros i Hi. lia.
    + intros a Ha Hb. unfold kernel_read. assert ((dp_buffer pass <=? a) && (a <? dp_buffer pass + n) = false) as ->; [|done].
      destruct (Z.leb_spec (dp_buffer pass) a); [|done]. apply Z.ltb_ge. lia.
Qed.

(** ** The room of a staging buffer *)

Lemma round_up_least x b m : 0 < b → x <= m → m mod b = 0 → (x + b - 1) / b * b <= m.
Proof.
  intros Hb Hx Hm. apply Z.mod_divide in Hm as [k ->]; [|lia].
  assert ((x + b - 1) / b < k + 1); [|nia]. apply Z.div_lt_upper_bound; nia.
Qed.

Lemma divides_mod a b m : (a | b) → m mod b = 0 → 0 < a → 0 < b → m mod a = 0.
Proof.
  intros Hab Hm Ha Hb. apply Z.mod_divide; [lia|]. apply Z.mod_divide in Hm; [|lia]. by etransitivity.
Qed.

(** A chunk of at most [chunk_bytesize] bytes from [o], placed in a buffer made for [block0] when a direct
    pass was first planned with [block1]. *)
Definition staged_at (data o skip cur n : Z) : Chunk := mkChunk cur (o + n - cur) (data + skip + (cur - o)) 0 0.

(** A staged direct read stays inside its staging buffer.  The buffer was sized and aligned for the
    block in force when the worker came up, the chunk's place in it was fixed by the block of its first
    pass, and any later pass may use a smaller block still: wherever the cursor is, the whole-block pass
    lies between the buffer's ends, and offset and address stay congruent. *)
Theorem staged_pass_in_buffer chunk_bytesize block0 block1 block2 data o n cur taken pass :
  0 < block2 → (block2 | block1) → 0 < block1 → (block1 | block0) → 0 < block0 →
  data mod block0 = 0 → 0 <= o → o <= cur < o + n → n <= chunk_bytesize →
  o + chunk_bytesize + block0 + block0 < size_modulus →
  let p := staged_at data o (o mod block1) cur n in
  plan_direct_pass p block2 true taken = Some pass →
  is_congruent (c_offset p) (c_buffer p) block2 = true ∧
  data <= dp_buffer pass ∧ dp_buffer pass + dp_bytesize pass <= data + staging_bytesize chunk_bytesize block0 true.
Proof.
  intros Hb2 H21 Hb1 H10 Hb0 Hdata Ho Hcur Hn Hroom p.
  assert (Hle21 : block2 <= block1) by (by apply Z.divide_pos_le).
  assert (Hle10 : block1 <= block0) by (by apply Z.divide_pos_le).
  pose proof (Z.mod_pos_bound o block1 Hb1) as Hskip. pose proof (Z.mod_le o block1 Ho Hb1) as Hso.
  pose proof (round_down_mod o block1 Hb1) as Hbase.
  assert (Hbase2 : (o - o mod block1) mod block2 = 0) by (by eapply divides_mod).
  assert (Hdata1 : data mod block1 = 0) by (by eapply divides_mod).
  assert (Hdata2 : data mod block2 = 0) by (by eapply divides_mod; [exact H21| | |]).
  pose proof (Z.mod_pos_bound cur block2 Hb2) as Hhead. pose proof (Z.mod_le cur block2 ltac:(lia) Hb2) as Hhc.
  assert (Hcong : is_congruent (c_offset p) (c_buffer p) block2 = true).
  { unfold is_congruent, usable, p. simpl. rewrite (proj2 (Z.eqb_neq block2 0)) by lia. apply Z.eqb_eq.
    replace (data + o mod block1 + (cur - o)) with (cur + (data - (o - o mod block1))) by lia.
    apply add_multiple_mod; [done|]. by rewrite Zminus_mod, Hdata2, Hbase2, Z.mod_0_l by lia. }
  intros E. split; [done|].
  unfold plan_direct_pass in E. injection E as <-. simpl.
  destruct (round_up_eq (cur mod block2) (o + n - cur) block2 Hhead) as [-> _]; [lia..|].
  assert (Hfloor : o - o mod block1 <= cur - cur mod block2).
  { pose proof (round_down_mod cur block2 Hb2) as Hcd.
    assert (Hx : (cur - cur mod block2 - (o - o mod block1)) mod block2 = 0)
      by (by rewrite Zminus_mod, Hcd, Hbase2, Z.mod_0_l by lia).
    apply Z.mod_divide in Hx as [k Hk]; [|lia]. assert (- block2 < k * block2) by lia. assert (0 <= k) by (apply Z.lt_succ_r, (Z.mul_lt_mono_pos_r block2); lia).
    pose proof (Z.mul_nonneg_nonneg k block2). lia. }
  split; [lia|].
  (* the end of the pass, measured from the base of the buffer *)
  set (worst := chunk_bytesize + block0 - 1).
  assert (Hsz : staging_bytesize chunk_bytesize block0 true = (worst + block0 - 1) / block0 * block0).
  { unfold staging_bytesize. simpl. subst worst. pose proof (round_up_bound (chunk_bytesize + block0 - 1) block0 Hb0) as Hup.
    replace (chunk_bytesize ⊕ block0 ⊖ 1) with (chunk_bytesize + block0 - 1) by (unwrap; mlia).
    replace (chunk_bytesize + block0 - 1 ⊕ block0 ⊖ 1) with (chunk_bytesize + block0 - 1 + block0 - 1) by (unwrap; mlia).
    set (q := (chunk_bytesize + block0 - 1 + block0 - 1) / block0) in *. unwrap. done. }
  rewrite Hsz. set (cap := (worst + block0 - 1) / block0 * block0).
  assert (Hcapm : cap mod block2 = 0).
  { eapply divides_mod; [etransitivity; [exact H21|exact H10]| |done|done]. by apply round_up_mod. }
  assert (Hcap : worst <= cap) by (by apply round_up_bound).
  assert (Hend : (cur mod block2 + (o + n - cur) + block2 - 1) / block2 * block2 <=
                 cap + (o - o mod block1) - (cur - cur mod block2)).
  { apply round_up_least; [done|subst worst; lia|].
    pose proof (round_down_mod cur block2 Hb2) as Hcd.
    rewrite Zminus_mod, Hcd, Zplus_mod, Hcapm, Hbase2. by rewrite Z.mod_0_l by lia. }
  lia.
Qed.

(** ** A whole chunk, when every pass is delivered in full *)

Definition rest (p : Chunk) (useful : Z) : Chunk :=
  mkChunk (c_offset p + useful) (c_bytesize p - useful) (c_buffer p + useful) (first_task p) (task_count p).

Fixpoint direct_read (fuel : nat) (p : Chunk) (block : Z) (taken : option Z) : option (list DirectPass) :=
  match fuel with
  | O => None
  | S fuel =>
      match plan_direct_pass p block false taken with
      | None => None
      | Some pass =>
          let useful := useful_bytes (dp_scratch pass) (dp_skip pass) (dp_wanted pass) (dp_bytesize pass) in
          if useful >=? c_bytesize p then Some [pass]
          else cons pass <$> direct_read fuel (rest p useful) block taken
      end
  end.

Lemma rest_plannable p block taken u : plannable p block false taken → 0 <= u < c_bytesize p →
  plannable (rest p u) block false taken.
Proof.
  intros [Hb Ho Hn Hr Hc Ht] Hu. split; simpl; [done|lia..| |done].
  unfold is_congruent, usable in *. rewrite (proj2 (Z.eqb_neq block 0)) in * by lia.
  apply Z.eqb_eq. apply Z.eqb_eq in Hc. by rewrite Zplus_mod, Hc, <- Zplus_mod.
Qed.

(** One pass of a fully delivered read, by where it starts and how much is left. *)
Lemma direct_read_step fuel p block s : plannable p block false (Some s) →
  let head := c_offset p mod block in
  ∃ pass u, useful_bytes (dp_scratch pass) (dp_skip pass) (dp_wanted pass) (dp_bytesize pass) = u ∧
    0 < u <= c_bytesize p ∧ 0 <= dp_wanted pass < block ∧
    (head ≠ 0 → u = Z.min (block - head) (c_bytesize p)) ∧
    (head = 0 → block <= c_bytesize p → u = c_bytesize p - c_bytesize p mod block ∧ dp_wanted pass = 0) ∧
    (head = 0 → c_bytesize p < block → u = c_bytesize p) ∧
    direct_read (S fuel) p block (Some s) =
      if decide (u = c_bytesize p) then Some [pass] else cons pass <$> direct_read fuel (rest p u) block (Some s).
Proof.
  intros Hp head. pose proof Hp as [Hb Ho Hn Hr _ Ht].
  pose proof (Z.mod_pos_bound (c_offset p) block Hb) as Hm.
  assert (∃ pass, plan_direct_pass p block false (Some s) = Some pass) as [pass E].
  { unfold plan_direct_pass. destruct (negb _); [eauto|]. destruct (_ >=? _); eauto. }
  pose proof (plan_planned _ _ _ _ _ Hp E) as Hpl.
  pose proof (planned_legal _ _ _ _ _ Hp Hpl) as [_ _ _ Hpos].
  destruct (useful_spec _ _ _ _ _ (dp_bytesize pass) Hp Hpl) as (U1 & _ & U3); [lia|].
  destruct (U3 eq_refl) as (U4 & U5 & U6). cbv zeta in U1.
  set (u := useful_bytes _ _ _ _) in *.
  exists pass, u. split; [done|]. split; [lia|].
  assert (Hcases : 0 <= dp_wanted pass < block ∧ (head ≠ 0 → u = Z.min (block - head) (c_bytesize p)) ∧
    (head = 0 → block <= c_bytesize p → u = c_bytesize p - c_bytesize p mod block ∧ dp_wanted pass = 0) ∧
    (head = 0 → c_bytesize p < block → u = c_bytesize p)).
  { subst head. clearbody u. destruct Hpl as [h Hst ->|h s' Hst -> Hh Hs|Hst H0 Hge|s' Hst H0 Hlt Hs]; simpl in *; [done| | |].
    - split; [lia|]. split; [intros _; lia|]. split; intros; lia.
    - split; [lia|]. split; [lia|]. split; [intros; split; lia|lia].
    - split; [lia|]. split; [lia|]. split; lia. }
  destruct Hcases as (C1 & C2 & C3 & C4). do 4 (split; [done|]).
  cbn [direct_read]. rewrite E. fold u. rewrite Z.geb_leb. destruct (decide (u = c_bytesize p)) as [->|Hne].
  - by rewrite Z.leb_refl.
  - by rewrite (proj2 (Z.leb_gt _ _)) by lia.
Qed.

(** A congruent destination is read directly in at most three passes - the ragged head, the whole
    blocks, the ragged tail - when the kernel delivers each in full, and fewer than two blocks go through
    scratch however long the chunk is; on block boundaries it is one pass and nothing is copied. *)
Theorem direct_read_three_passes p block s :
  plannable p block false (Some s) →
  ∃ l, direct_read 3 p block (Some s) = Some l ∧ (length l <= 3)%nat ∧ sumZ (map dp_wanted l) < 2 * block ∧
    (c_offset p mod block = 0 → c_bytesize p mod block = 0 → length l = 1%nat ∧ sumZ (map dp_wanted l) = 0).
Proof.
  intros Hp. pose proof Hp as [Hb Ho Hn _ _ _].
  assert (Hboundary : ∀ fuel q, plannable q block false (Some s) → c_offset q mod block = 0 →
    ∃ l, direct_read (S (S fuel)) q block (Some s) = Some l ∧ (length l <= 2)%nat ∧ 0 <= sumZ (map dp_wanted l) < block ∧
      (c_bytesize q mod block = 0 → length l = 1%nat ∧ sumZ (map dp_wanted l) = 0)).
  { intros fuel q Hq H0. pose proof Hq as [_ _ Hqn _ _ _].
    destruct (direct_read_step (S fuel) q block s Hq) as (pass & u & _ & Hu & Hw & _ & Hmid & Htail & ->).
    pose proof (Z.mod_pos_bound (c_bytesize q) block Hb) as Hqm.
    destruct (decide (u = c_bytesize q)) as [Hall|Hne].
    - exists [pass]. split; [done|]. simpl. split; [lia|]. split; [lia|]. intros Hq0. split; [done|].
      assert (block <= c_bytesize q) by (apply Z.divide_pos_le; [lia|by apply Z.mod_divide; [lia|]]).
      destruct (Hmid H0) as [_ ->]; lia.
    - assert (block <= c_bytesize q) as Hge by (destruct (Z.lt_ge_cases (c_bytesize q) block); [by rewrite Htail in Hne|done]).
      destruct (Hmid H0 Hge) as [Hue Hw0].
      assert (Hr : plannable (rest q u) block false (Some s)) by (apply rest_plannable; [done|lia]).
      destruct (direct_read_step fuel (rest q u) block s Hr) as (pass2 & u2 & _ & Hu2 & Hw2 & _ & _ & Htail2 & ->).
      simpl in Htail2. assert (Hr0 : (c_offset q + u) mod block = 0).
      { rewrite Zplus_mod, H0, Hue, round_down_mod by done. by rewrite Z.mod_0_l by lia. }
      rewrite (Htail2 Hr0) by lia. simpl. rewrite decide_True by done.
      exists [pass; pass2]. split; [done|]. simpl. split; [lia|]. split; [lia|]. intros Hq0. lia. }
  destruct (decide (c_offset p mod block = 0)) as [H0|H0].
  - destruct (Hboundary 1%nat p Hp H0) as (l & -> & Hl & Hw & Hz). exists l. split; [done|]. split; [lia|]. split; [lia|]. auto.
  - destruct (direct_read_step 2 p block s Hp) as (pass & u & _ & Hu & Hw & Hhead & _ & _ & ->).
    specialize (Hhead H0). destruct (decide (u = c_bytesize p)).
    + exists [pass]. split; [done|]. simpl. split; [lia|]. split; [lia|]. done.
    + assert (Hr : plannable (rest p u) block false (Some s)) by (apply rest_plannable; [done|lia]).
      destruct (Hboundary 0%nat (rest p u) Hr) as (l & -> & Hl & Hw2 & _).
      { simpl. replace u with (block - c_offset p mod block) by lia.
        replace (c_offset p + (block - c_offset p mod block)) with (c_offset p - c_offset p mod block + 1 * block) by lia.
        rewrite Z.mod_add by lia. by apply round_down_mod. }
      exists (pass :: l). split; [done|]. simpl. split; [lia|]. split; [lia|]. done.
Qed.

(** ** Witnesses: 10000 bytes at offset 1000, blocks of 4096 *)

Definition ragged_chunk : Chunk := mkChunk 1000 10000 41960 0 1.

Lemma ragged_plannable : plannable ragged_chunk 4096 false (Some 8192).
Proof. split; try (vm_compute; congruence). intros s [= <-]. done. Qed.

Lemma direct_pass_legal_witness :
  let pass := mkPass 0 4096 8192 8192 1000 3096 in
  plan_direct_pass ragged_chunk 4096 false (Some 8192) = Some pass ∧ legal 4096 pass ∧ serves ragged_chunk 4096 false pass.
Proof. intros pass. split; [reflexivity|]. by apply (direct_pass_legal _ _ _ _ _ ragged_plannable). Defined.

Lemma direct_pass_lands_witness :
  let pass := mkPass 0 4096 8192 8192 1000 3096 in
  let '(useful, mem') := land_pass (λ off, off) ragged_chunk pass 2000 (λ _, -1) in
  useful = 1000 ∧ mem' 41960 = 1000 ∧ mem' 42960 = -1 ∧
  (∀ i, 0 <= i < useful → mem' (c_buffer ragged_chunk + i) = c_offset ragged_chunk + i).
Proof.
  intros pass.
  pose proof (direct_pass_lands (λ off, off) ragged_chunk 4096 false (Some 8192) pass 2000 (λ _, -1) ragged_plannable eq_refl)
    as H.
  destruct (land_pass _ _ _ _ _) as [useful mem'] eqn:E.
  destruct H as (_ & _ & Hi & _).
  { simpl. lia. }
  { simpl. left. lia. }
  split; [by injection E|]. split; [by injection E as _ <-|]. split; [by injection E as _ <-|]. exact Hi.
Defined.

Lemma staged_pass_in_buffer_witness :
  let p := staged_at 65536 5000 (5000 mod 4096) 6000 8192 in
  let pass := mkPass 5632 7680 67072 0 368 7192 in
  plan_direct_pass p 512 true None = Some pass ∧ staging_bytesize 8192 65536 true = 131072 ∧
  is_congruent (c_offset p) (c_buffer p) 512 = true ∧
  65536 <= dp_buffer pass ∧ dp_buffer pass + dp_bytesize pass <= 65536 + staging_bytesize 8192 65536 true.
Proof.
  intros p pass. split; [reflexivity|]. split; [reflexivity|].
  apply (staged_pass_in_buffer 8192 65536 4096 512 65536 5000 8192 6000 None pass); try lia; try reflexivity.
  - by exists 8.
  - by exists 16.
Defined.

Lemma direct_read_three_passes_witness :
  ∃ l, direct_read 3 ragged_chunk 4096 (Some 8192) = Some l ∧
    map (λ x, (dp_offset x, dp_bytesize x, dp_wanted x)) l = [(0, 4096, 3096); (4096, 4096, 0); (8192, 4096, 2808)].
Proof.
  destruct (direct_read_three_passes ragged_chunk 4096 8192 ragged_plannable) as (l & E & _).
  exists l. split; [done|]. revert E. vm_compute. by intros [= <-].
Defined.
