(* ===== verification/IoEngine.v ===== *)
(** What an asynchronous worker relies on: the I/O engine (posix_io/io_engine), the device client
    (streamer/impl/device_io/device_writer_client) and the descriptors of the operating system.

    Each is a class of operations on a state of its own, which also decides how the kernel, the device and
    the file system behave; its laws are the promises the header files make to the worker.  The views are
    what the laws speak of: the reads staged and issued, and the copies and buffers that are out. *)

From S2P Require Import Prelude ResponseCode Text CompletionMapper InflightChunks Workload.

Record Registration := mkRegistration { rg_base : Z; rg_bytesize : Z; rg_id : Z }.

Definition no_registration : Registration := mkRegistration 0 0 0.
Definition registration_valid (r : Registration) : bool := negb (rg_base r =? 0).

(** [cp_res] is the kernel's result: a count of bytes, or minus an errno. *)
Record Completion := mkCompletion { cp_id : Z; cp_res : Z }.

Definition bytes_transferred (c : Completion) : Z := if cp_res c >? 0 then cp_res c else 0.
Definition failed (c : Completion) : bool := cp_res c <? 0.

Inductive WaitMode := NonBlocking | Block.

#[export] Instance WaitMode_eq_dec : EqDecision WaitMode.
Proof. solve_decision. Defined.

(** One read as it is staged. *)
Record StagedRead := mkRead {
  sr_id : Z; sr_file : FileRef; sr_offset : Z; sr_bytesize : Z; sr_buffer : Z; sr_registration : Registration }.

Class IoEngine (E : Type) := {
  depth : E → Z;
  stage : StagedRead → E → ResponseCode * E;
  flush : E → ResponseCode * (Z * bool) * E;
  wait_for_completions : Z → WaitMode → E → ResponseCode * list Completion * E;
  staged_reads : E → list StagedRead;
  issued_reads : E → list StagedRead;
  (** how many more empty blocking waits the kernel will impose *)
  patience : E → nat }.

(** A completion answers a read that was issued, with no more bytes than it asked for. *)
Definition answers (c : Completion) (r : StagedRead) : Prop := cp_id c = sr_id r ∧ cp_res c <= Z.max 0 (sr_bytesize r).

(** [stage] takes a read or refuses it; [flush] issues the oldest staged reads and counts them, even when
    it fails, and the rest stays staged in order; a wait reaps issued reads, each once, and a blocking one
    does not come back empty-handed for ever; a failed wait reaps nothing.  FinishedError is the worker's
    own code, for a stop: no engine answers it. *)
Class EngineLaws (E : Type) `{!IoEngine E} : Prop := {
  stage_law r e code e' : stage r e = (code, e') →
    depth e' = depth e ∧ issued_reads e' = issued_reads e ∧
    staged_reads e' = staged_reads e ++ (if decide (code = Success) then [r] else []);
  flush_law e code n deferred e' : flush e = (code, (n, deferred), e') →
    depth e' = depth e ∧ code ≠ FinishedError ∧ ∃ sent, staged_reads e = sent ++ staged_reads e' ∧
      issued_reads e' ≡ₚ issued_reads e ++ sent ∧ n = Z.of_nat (length sent);
  wait_law most mode e code cs e' : wait_for_completions most mode e = (code, cs, e') →
    depth e' = depth e ∧ staged_reads e' = staged_reads e ∧ code ≠ FinishedError ∧
    (code ≠ Success → cs = []) ∧
    ∃ reaped, issued_reads e ≡ₚ reaped ++ issued_reads e' ∧ Forall2 answers cs reaped;
  depth_law e : 0 < depth e;
  wait_ends most e cs e' : wait_for_completions most Block e = (Success, cs, e') → 0 < most → issued_reads e ≠ [] →
    (length (issued_reads e') + patience e' < length (issued_reads e) + patience e)%nat }.

(** ** The device client *)

Class DeviceClient (D : Type) := {
  client_take : Device → D → ResponseCode * StagingBuffer * D;
  client_write : Device → StagingBuffer → Z → Z → Z → Z → D → ResponseCode * D;
  client_release : StagingBuffer → D → outcome D;
  client_slab_at : Z → D → option (Z * Z);
  (** the worker's queue of finished copies: [true] waits for one *)
  copies_pop : bool → D → option (Z * ResponseCode) * D;
  copying : D → list Z;
  lent : D → list StagingBuffer }.

(** A buffer is lent by [client_take] and comes back by [client_release] or [client_write], whose copy
    reports exactly when it returned Success. *)
Class ClientLaws (D : Type) `{!DeviceClient D} : Prop := {
  take_law device d code b d' : client_take device d = (code, b, d') →
    copying d' = copying d ∧
    lent d' ≡ₚ (if decide (code = Success ∧ staging_valid b = true) then [b] else []) ++ lent d;
  write_law device b skip bytes dst id d code d' l : client_write device b skip bytes dst id d = (code, d') →
    lent d ≡ₚ b :: l →
    copying d' ≡ₚ (if decide (code = Success) then [id] else []) ++ copying d ∧ lent d' ≡ₚ l;
  release_law b d l : lent d ≡ₚ b :: l →
    ∃ d', client_release b d = Ret d' ∧ copying d' = copying d ∧ lent d' ≡ₚ l;
  pop_law wait d r d' : copies_pop wait d = (r, d') →
    lent d' = lent d ∧
    match r with
    | Some (id, _) => copying d ≡ₚ id :: copying d'
    | None => copying d' = copying d ∧ (wait = true → copying d = [])
    end }.

(** ** Descriptors *)

Class Files (F : Type) := {
  open_for_read : text → bool → F → option Z * F;
  dup2 : Z → Z → F → bool * F;
  close : Z → F → F }.
