(* ===== verification/LibaioEngine.v ===== *)
(** The libaio engine (posix_io/libaio_engine): staged reads go to the kernel one at a time, a read the
    kernel refuses outright comes back as a completion, and the promises of [IoEngine] hold.

    The kernel's AIO context is a class: what io_submit and io_getevents document.  The statistics over the
    clock are not modelled. *)

From S2P Require Import Prelude ResponseCode CompletionMapper Alignment IoEngine.

(** ** The kernel *)

(** An event names its iocb by slot; [ev_res] is read back as signed. *)
Record AioEvent := mkEvent { ev_data : Z; ev_obj : nat; ev_res : Z }.

(** A submission offers iocbs in order, each a slot and the read prepared in it.  A negative result is
    minus an errno. *)
Class AioKernel (K : Type) := {
  io_submit : list (nat * StagedRead) → K → Z * K;
  io_getevents : Z → Z → K → (Z * list AioEvent) * K;
  in_kernel : K → list (nat * StagedRead);
  kernel_patience : K → nat }.

Definition event_of (ev : AioEvent) (x : nat * StagedRead) : Prop :=
  ev_data ev = sr_id x.2 ∧ ev_obj ev = x.1 ∧ ev_res ev <= Z.max 0 (sr_bytesize x.2).

(** A failed submission takes nothing and a successful one a prefix; getevents returns finished reads,
    each once, and does not answer a wait for one with nothing for ever. *)
Class AioLaws (K : Type) `{!AioKernel K} : Prop := {
  submit_law l k ret k' : io_submit l k = (ret, k') →
    if ret <? 0 then in_kernel k' = in_kernel k
    else ret <= Z.of_nat (length l) ∧ in_kernel k' ≡ₚ in_kernel k ++ take (Z.to_nat ret) l;
  getevents_law min_nr nr k ret evs k' : io_getevents min_nr nr k = ((ret, evs), k') →
    if ret <? 0 then in_kernel k' = in_kernel k
    else ret = Z.of_nat (length evs) ∧ ∃ got, in_kernel k ≡ₚ got ++ in_kernel k' ∧ Forall2 event_of evs got;
  getevents_ends nr k ret evs k' : io_getevents 1 nr k = ((ret, evs), k') → 0 < nr → in_kernel k ≠ [] →
    0 <= ret ∨ ret = - EINTR →
    (length (in_kernel k') + kernel_patience k' < length (in_kernel k) + kernel_patience k)%nat }.

(** ** Setting the context up *)

(** An unsigned read as a signed int. *)
Definition int_of (x : Z) : Z := if x <? 2147483648 then x else x - unsigned_modulus.

(** Halving while io_setup says EAGAIN; [io_setup i n] is its answer to the [i]-th attempt. *)
Fixpoint setup_loop (fuel i : nat) (io_setup : nat → Z → Z) (events : Z) : outcome Z :=
  match fuel with
  | O => Throw (Code UnknownError)
  | S fuel =>
      if events >=? 1 then
        let ret := io_setup i (int_of events) in
        if ret =? 0 then Ret events
        else if negb (- ret =? EAGAIN) then Throw (Code UnknownError)
        else setup_loop fuel (S i) io_setup (events / 2)
      else Throw (Code UnknownError)
  end.

(** An unsigned value halves to zero in thirty-three steps. *)
Definition setup_context (io_setup : nat → Z → Z) (wanted : Z) : outcome Z :=
  if wanted =? 0 then Throw (Code UnknownError) else setup_loop 33 0 io_setup wanted.

(** ** The engine *)

Section Engine.
Context {K : Type} `{!AioKernel K}.

(** [la_iocbs] are the structs, by slot.  With each completion of its own the engine's state keeps here
    the read it answers, which the code does not. *)
Record Libaio := mkLibaio {
  la_depth : Z; la_iocbs : list StagedRead; la_free : list nat; la_pending : list nat;
  la_failures : list (Completion * StagedRead); la_limits : Limits; la_kernel : K }.

Definition unprepared : StagedRead := mkRead 0 (mkFileRef 0 false) 0 0 0 no_registration.

Definition iocb (e : Libaio) (slot : nat) : StagedRead := nth slot (la_iocbs e) unprepared.

Definition SubmitBatch : nat := 1.

Definition make_libaio (io_setup : nat → Z → Z) (config_depth config_block default_block max_read_bytesize : Z)
    (kernel : K) : outcome Libaio :=
  let! depth := setup_context io_setup config_depth in
  let blk := if negb (config_block =? 0) then config_block else default_block in
  Ret (mkLibaio depth (replicate (Z.to_nat depth) unprepared) (seq 0 (Z.to_nat depth)) [] []
         (mkLimits max_read_bytesize blk blk) kernel).

Definition libaio_stage (r : StagedRead) (e : Libaio) : ResponseCode * Libaio :=
  match last (la_free e) with
  | None => (UnknownError, e)
  | Some slot =>
      (Success, mkLibaio (la_depth e) (<[slot := r]> (la_iocbs e)) (removelast (la_free e)) (la_pending e ++ [slot])
                         (la_failures e) (la_limits e) (la_kernel e))
  end.

Definition with_pending (pending : list nat) (k : K) (e : Libaio) : Libaio :=
  mkLibaio (la_depth e) (la_iocbs e) (la_free e) pending (la_failures e) (la_limits e) k.

(** The head is answered as a failed read and its iocb freed. *)
Definition refuse_head (error : Z) (e : Libaio) : Libaio :=
  match la_pending e with
  | [] => e
  | head :: rest =>
      let r := iocb e head in
      mkLibaio (la_depth e) (la_iocbs e) (la_free e ++ [head]) rest
               (la_failures e ++ [(mkCompletion (sr_id r) (- error), r)]) (la_limits e) (la_kernel e)
  end.

Fixpoint flush_loop (fuel : nat) (issued : Z) (e : Libaio) : outcome ((ResponseCode * (Z * bool)) * Libaio) :=
  match la_pending e, fuel with
  | [], _ => Ret ((Success, (issued, false)), e)
  | _, O => Throw StdException
  | pending, S fuel =>
      let batch := Nat.min (length pending) SubmitBatch in
      let '(ret, k) := io_submit (map (λ slot, (slot, iocb e slot)) (take batch pending)) (la_kernel e) in
      let e := with_pending pending k e in
      if ret <? 0 then
        let error := - ret in
        if submit_can_defer error then Ret ((Success, (issued, true)), e)
        else Ret ((Success, (add32 issued 1, false)), refuse_head error e)
      else
        ASSERT (ret <=? Z.of_nat batch) ;;!
        let issued := add32 issued (wrap32 ret) in
        let e := with_pending (drop (Z.to_nat ret) pending) k e in
        if ret =? 0 then Ret ((Success, (issued, true)), e) else flush_loop fuel issued e
  end.

Definition libaio_flush (e : Libaio) : outcome ((ResponseCode * (Z * bool)) * Libaio) :=
  flush_loop (length (la_pending e)) 0 e.

(** The events, each giving its iocb back. *)
Fixpoint reap (evs : list AioEvent) (e : Libaio) : outcome (list Completion * Libaio) :=
  match evs with
  | [] => Ret ([], e)
  | ev :: evs =>
      ASSERT (Nat.ltb (ev_obj ev) (length (la_iocbs e))) ;;!
      let e := mkLibaio (la_depth e) (la_iocbs e) (la_free e ++ [ev_obj ev]) (la_pending e) (la_failures e)
                        (la_limits e) (la_kernel e) in
      let! (cs, e) := reap evs e in
      Ret (mkCompletion (ev_data ev) (ev_res ev) :: cs, e)
  end.

Definition libaio_wait (most : Z) (mode : WaitMode) (e : Libaio) : outcome ((ResponseCode * list Completion) * Libaio) :=
  if most =? 0 then Ret ((Success, []), e)
  else if negb (bool_decide (la_failures e = [])) then
    let taken := Z.to_nat (Z.min most (Z.of_nat (length (la_failures e)))) in
    Ret ((Success, map fst (take taken (la_failures e))),
         mkLibaio (la_depth e) (la_iocbs e) (la_free e) (la_pending e) (drop taken (la_failures e)) (la_limits e) (la_kernel e))
  else
    let nr := Z.min most (la_depth e) in
    let min_nr := match mode with Block => 1 | NonBlocking => 0 end in
    let '((ret, evs), k) := io_getevents min_nr nr (la_kernel e) in
    let e := with_pending (la_pending e) k e in
    if ret <? 0 then
      if negb (- ret =? EINTR) then Ret ((FsAsyncEngineError, []), e) else Ret ((Success, []), e)
    else
      let! (cs, e) := reap evs e in Ret ((Success, cs), e).
End Engine.

(** ** The context *)

Lemma setup_loop_spec io_setup : ∀ fuel i events, 0 <= events < 2 ^ Z.of_nat fuel →
  match setup_loop fuel i io_setup events with
  | Ret depth => ∃ k, depth = events / 2 ^ Z.of_nat k ∧ 1 <= depth ∧ io_setup (i + k)%nat (int_of depth) = 0 ∧
      ∀ j, (j < k)%nat → io_setup (i + j)%nat (int_of (events / 2 ^ Z.of_nat j)) = - EAGAIN
  | Throw e => e = Code UnknownError ∧ ∃ k,
      (∀ j, (j < k)%nat → io_setup (i + j)%nat (int_of (events / 2 ^ Z.of_nat j)) = - EAGAIN) ∧
      (events / 2 ^ Z.of_nat k = 0 ∨
       io_setup (i + k)%nat (int_of (events / 2 ^ Z.of_nat k)) ≠ 0 ∧
       io_setup (i + k)%nat (int_of (events / 2 ^ Z.of_nat k)) ≠ - EAGAIN)
  end.
Proof.
  induction fuel as [|fuel IH]; intros i events Hev; simpl.
  - split; [done|]. exists 0%nat. split; [lia|]. left. rewrite Z.div_1_r. simpl in Hev. lia.
  - assert (Hhalf : ∀ k, events / 2 ^ Z.of_nat (S k) = events / 2 / 2 ^ Z.of_nat k).
    { intros k. rewrite Nat2Z.inj_succ, Z.pow_succ_r, Z.div_div by lia. done. }
    assert (H0 : events / 2 ^ Z.of_nat 0 = events) by apply Z.div_1_r.
    rewrite Z.geb_leb. destruct (Z.leb_spec 1 events).
    2: { split; [done|]. exists 0%nat. split; [lia|]. left. rewrite H0. lia. }
    case_bool.
    { exists 0%nat. rewrite H0, Nat.add_0_r. split; [done|]. split; [done|]. split; [done|]. lia. }
    case_bool; simpl.
    2: { split; [done|]. exists 0%nat. rewrite H0, Nat.add_0_r. split; [lia|]. right. split; [done|lia]. }
    rewrite Nat2Z.inj_succ, Z.pow_succ_r in Hev by lia.
    specialize (IH (S i) (events / 2)). destruct (setup_loop _ _ _ _) as [depth|x].
    + destruct IH as (k & -> & Hd & Hk & Hj); [Z.div_mod_to_equations; lia|]. exists (S k). rewrite Hhalf.
      split; [done|]. split; [done|]. split; [by rewrite Nat.add_succ_r|].
      intros [|j] Hlt; [rewrite H0, Nat.add_0_r; lia|]. rewrite Hhalf, Nat.add_succ_r. apply Hj. lia.
    + destruct IH as (-> & k & Hj & Hk); [Z.div_mod_to_equations; lia|]. split; [done|]. exists (S k).
      rewrite Hhalf, Nat.add_succ_r. split; [|done].
      intros [|j] Hlt; [rewrite H0, Nat.add_0_r; lia|]. rewrite Hhalf, Nat.add_succ_r. apply Hj. lia.
Qed.

(** ** Every iocb is free, pending or with the kernel *)

Section Laws.
Context {K : Type} `{!AioKernel K, !AioLaws K}.
Implicit Type e : Libaio (K := K).

Definition staged_in e : list StagedRead := map (iocb e) (la_pending e).
Definition issued_in e : list StagedRead := map snd (in_kernel (la_kernel e)) ++ map snd (la_failures e).

Record libaio_ok e : Prop := {
  ok_depth : 0 < la_depth e < unsigned_modulus;
  ok_iocbs : length (la_iocbs e) = Z.to_nat (la_depth e);
  ok_slots : la_free e ++ la_pending e ++ map fst (in_kernel (la_kernel e)) ≡ₚ seq 0 (length (la_iocbs e));
  ok_failures : Forall (λ x, answers x.1 x.2) (la_failures e) }.

Lemma slot_lt e s : libaio_ok e → s ∈ la_free e ++ la_pending e ++ map fst (in_kernel (la_kernel e)) →
  (s < length (la_iocbs e))%nat.
Proof. intros Hok. rewrite (ok_slots e Hok), elem_of_seq. lia. Qed.

Lemma pending_bound e : libaio_ok e → Z.of_nat (length (la_pending e)) < unsigned_modulus.
Proof.
  intros Hok. pose proof (Permutation_length (ok_slots e Hok)) as Hl.
  rewrite !length_app, length_seq, (ok_iocbs e Hok) in Hl. pose proof (ok_depth e Hok). lia.
Qed.

Lemma libaio_stage_spec r e code e' : libaio_ok e → libaio_stage r e = (code, e') →
  libaio_ok e' ∧ la_depth e' = la_depth e ∧ issued_in e' = issued_in e ∧
  staged_in e' = staged_in e ++ (if decide (code = Success) then [r] else []).
Proof.
  intros Hok E. unfold libaio_stage in E. destruct (last (la_free e)) as [slot|] eqn:Hl.
  2: { injection E as <- <-. by rewrite app_nil_r. }
  apply last_Some in Hl as (free & Hf). injection E as <- <-. rewrite Hf, removelast_last.
  pose proof (ok_slots e Hok) as Hs. rewrite Hf in Hs.
  assert (Hlt : (slot < length (la_iocbs e))%nat) by (apply slot_lt; [done|]; rewrite Hf; set_solver).
  assert (Hnew : slot ∉ la_pending e).
  { intros Hin. assert (Hnd := NoDup_seq 0 (length (la_iocbs e))). rewrite <- Hs in Hnd.
    apply NoDup_app in Hnd as (_ & Hnd & _). apply (Hnd slot); set_solver. }
  split.
  - split; cbn [la_depth la_iocbs la_free la_pending la_failures la_kernel]; try apply Hok.
    + rewrite length_insert. apply Hok.
    + rewrite length_insert, <- Hs, <- !app_assoc. f_equiv. rewrite !app_assoc. f_equiv. apply Permutation_app_comm.
  - split; [done|]. split; [done|]. unfold staged_in, iocb.
    cbn [la_iocbs la_pending]. rewrite map_app. f_equal.
    + apply map_ext_in. intros s Hs'%list_elem_of_In.
      rewrite !nth_lookup, list_lookup_insert_ne by (intros <-; done). done.
    + simpl. rewrite nth_lookup, list_lookup_insert_eq by done. done.
Qed.

(** ** Submitting *)

Lemma take_pending_ok e k pending free failures :
  libaio_ok e → in_kernel k = in_kernel (la_kernel e) →
  free ++ pending ≡ₚ la_free e ++ la_pending e → Forall (λ x, answers x.1 x.2) failures →
  libaio_ok (mkLibaio (la_depth e) (la_iocbs e) free pending failures (la_limits e) k).
Proof.
  intros Hok Hk Hp Hf. split; cbn [la_depth la_iocbs la_free la_pending la_failures la_kernel]; try apply Hok; [|done].
  rewrite Hk, app_assoc, Hp, <- app_assoc. apply Hok.
Qed.

Lemma flush_loop_spec : ∀ fuel issued e, libaio_ok e → (length (la_pending e) <= fuel)%nat →
  0 <= issued → issued + Z.of_nat (length (la_pending e)) < unsigned_modulus →
  ∃ n deferred e' sent, flush_loop fuel issued e = Ret ((Success, (n, deferred)), e') ∧
    libaio_ok e' ∧ la_depth e' = la_depth e ∧ n = issued + Z.of_nat (length sent) ∧
    staged_in e = sent ++ staged_in e' ∧ issued_in e' ≡ₚ issued_in e ++ sent.
Proof.
  induction fuel as [|fuel IH]; intros issued e Hok Hlen H0 Hmax; simpl;
    destruct (la_pending e) as [|head rest] eqn:Hp; simpl in Hlen; try lia.
  1, 2: exists issued, false, e, []; rewrite app_nil_r; simpl; split_and!; try done; lia.
  assert (Hstaged : staged_in e = iocb e head :: map (iocb e) rest) by (unfold staged_in; by rewrite Hp).
  destruct (io_submit _ _) as [ret k] eqn:Hsub. apply submit_law in Hsub. simpl in Hsub, Hmax.
  rewrite Nat.min_0_r, take_0 in *. change (Z.of_nat 1) with 1.
  destruct (ret <? 0) eqn:Hneg.
  - destruct (submit_can_defer (- ret)).
    + exists issued, true, (with_pending (head :: rest) k e), [].
      split; [done|]. split. { apply take_pending_ok; try done; [by rewrite Hp|apply Hok]. }
      split; [done|]. split; [simpl; lia|]. split; [by rewrite Hstaged|].
      unfold issued_in. simpl. by rewrite Hsub, app_nil_r.
    + eexists _, _, _, [_]. split; [reflexivity|]. split_and!.
      * apply (take_pending_ok e); try done.
        -- rewrite Hp. simpl. by rewrite <- app_assoc.
        -- apply Forall_app. split; [apply Hok|]. constructor; [|constructor]. split; simpl; [done|lia].
      * done.
      * unwrap. simpl. lia.
      * rewrite Hstaged. done.
      * unfold issued_in. simpl. rewrite Hsub, map_app, <- app_assoc. done.
  - destruct Hsub as [Hret Hk]. simpl in Hret.
    rewrite (proj2 (Z.leb_le ret 1)) by lia. simpl.
    destruct (Z.eqb_spec ret 0) as [->|Hne]; simpl.
    + simpl in Hk. rewrite app_nil_r in Hk.
      exists issued, true, (with_pending (head :: rest) k e), []. split.
      { unfold with_pending. do 4 f_equal. unwrap. lia. }
      split.
      { split; try apply Hok. simpl. rewrite Hk. change (head :: rest ++ ?l) with ((head :: rest) ++ l).
        rewrite <- Hp. apply Hok. }
      split; [done|]. split; [simpl; lia|]. split; [by rewrite Hstaged|].
      unfold issued_in. simpl. by rewrite Hk, app_nil_r.
    + assert (ret = 1) as -> by lia. simpl in Hk. set (e1 := with_pending (drop 1 (head :: rest)) k (with_pending (head :: rest) k e)).
      destruct (IH (issued + 1) e1) as (n & d & e' & sent & E & Hok' & Hd & -> & Hs & Hi).
      * split; try apply Hok. simpl. rewrite Hk, map_app. simpl.
        rewrite <- (ok_slots e Hok), Hp. solve_Permutation.
      * simpl. rewrite drop_0; lia.
      * lia.
      * simpl. rewrite drop_0. lia.
      * exists (issued + 1 + Z.of_nat (length sent)), d, e', (iocb e head :: sent).
        split. { rewrite <- E. f_equal. unwrap. done. }
        split_and!; try done; [simpl; lia|rewrite Hstaged; simpl; f_equal; apply Hs|].
        rewrite Hi. unfold issued_in. simpl. rewrite Hk, map_app. simpl. solve_Permutation.
Qed.

Lemma libaio_flush_spec e : libaio_ok e → ∃ n deferred e' sent,
  libaio_flush e = Ret ((Success, (n, deferred)), e') ∧
  libaio_ok e' ∧ la_depth e' = la_depth e ∧ n = Z.of_nat (length sent) ∧
  staged_in e = sent ++ staged_in e' ∧ issued_in e' ≡ₚ issued_in e ++ sent.
Proof.
  intros Hok. destruct (flush_loop_spec (length (la_pending e)) 0 e) as (n & d & e' & sent & H); try done.
  - by apply pending_bound.
  - by exists n, d, e', sent.
Qed.

(** ** Reaping *)

Lemma Forall2_fst_snd (evs : list AioEvent) (got : list (nat * StagedRead)) : Forall2 event_of evs got →
  map ev_obj evs = map fst got ∧
  Forall2 answers (map (λ ev, mkCompletion (ev_data ev) (ev_res ev)) evs) (map snd got).
Proof.
  induction 1 as [|ev x evs got (Hid & Hobj & Hres) _ [IH1 IH2]]; simpl; [done|].
  split; [by rewrite Hobj, IH1|]. constructor; [by split|done].
Qed.

Lemma reap_spec evs : ∀ e, Forall (λ ev, (ev_obj ev < length (la_iocbs e))%nat) evs →
  reap evs e = Ret (map (λ ev, mkCompletion (ev_data ev) (ev_res ev)) evs,
    mkLibaio (la_depth e) (la_iocbs e) (la_free e ++ map ev_obj evs) (la_pending e) (la_failures e) (la_limits e)
             (la_kernel e)).
Proof.
  induction evs as [|ev evs IH]; intros e Hevs; simpl.
  - rewrite app_nil_r. by destruct e.
  - inversion_clear Hevs as [|? ? Hev Hevs']. rewrite (proj2 (Nat.ltb_lt _ _) Hev). simpl.
    rewrite IH by done. simpl. by rewrite <- app_assoc.
Qed.

Lemma libaio_wait_spec most mode e : libaio_ok e → ∃ code cs e',
  libaio_wait most mode e = Ret ((code, cs), e') ∧
  libaio_ok e' ∧ la_depth e' = la_depth e ∧ staged_in e' = staged_in e ∧
  (code = Success ∨ code = FsAsyncEngineError ∧ cs = []) ∧
  (∃ reaped, issued_in e ≡ₚ reaped ++ issued_in e' ∧ Forall2 answers cs reaped) ∧
  (0 < most → mode = Block → code = Success → issued_in e ≠ [] →
    (length (issued_in e') + kernel_patience (la_kernel e') < length (issued_in e) + kernel_patience (la_kernel e))%nat).
Proof.
  intros Hok. unfold libaio_wait. case_bool.
  { eexists _, [], e. split_and!; [done..|by left|exists []; done|lia]. }
  destruct (decide (la_failures e = [])) as [Hnone|Hsome].
  2: { rewrite bool_decide_eq_false_2 by done. simpl. set (m := Z.to_nat (_ `min` _)).
    assert (Hfs := ok_failures e Hok). rewrite <- (take_drop m), Forall_app in Hfs. destruct Hfs as [Ht Hd].
    eexists _, _, _. split; [reflexivity|]. split.
    { by apply take_pending_ok. }
    split_and!; [done|done|by left| |].
    - exists (map snd (take m (la_failures e))). split.
      + unfold issued_in. cbn [la_kernel la_failures]. rewrite <- (take_drop m (la_failures e)) at 1. rewrite map_app. solve_Permutation.
      + apply Forall2_fmap, Forall_Forall2_diag, Ht.
    - intros Hmost _ _ _. unfold issued_in. cbn [la_kernel la_failures].
      rewrite !length_app, !length_map, length_drop. subst m. destruct (la_failures e); [done|]. simpl. lia. }
  rewrite bool_decide_eq_true_2 by done. simpl.
  destruct (io_getevents _ _ _) as [[ret evs] k] eqn:Hget. assert (Hend := Hget). apply getevents_law in Hget.
  destruct (ret <? 0) eqn:Hneg; apply Z.ltb_ge in Hneg || apply Z.ltb_lt in Hneg.
  - assert (Hok' : libaio_ok (with_pending (la_pending e) k e)) by (apply take_pending_ok; try done; apply Hok).
    assert (Hi : issued_in (with_pending (la_pending e) k e) = issued_in e) by (unfold issued_in; simpl; by rewrite Hget).
    destruct (Z.eqb_spec (- ret) EINTR) as [Heintr|Hne]; simpl.
    + eexists _, _, _. split; [reflexivity|]. split; [done|]. split_and!; [done|done|by left|exists []; by rewrite Hi|].
      intros Hmost -> _ Hne. apply getevents_ends in Hend; [|pose proof (ok_depth e Hok); lia| |right; lia].
      * rewrite Hi. revert Hend. simpl. rewrite Hget. lia.
      * unfold issued_in in Hne. rewrite Hnone, app_nil_r in Hne. by intros Hin; rewrite Hin in Hne.
    + eexists _, _, _. split; [reflexivity|]. split; [done|]. split_and!; [done|done|by right|exists []; by rewrite Hi|done].
  - destruct Hget as (Hret & got & Hp & Hevs). destruct (Forall2_fst_snd _ _ Hevs) as [Hobj Hans].
    assert (Hslots := ok_slots e Hok). rewrite Hp, map_app, <- Hobj in Hslots.
    rewrite reap_spec.
    2: { apply Forall_forall. intros ev Hev. apply (slot_lt e _ Hok). rewrite Hp, map_app, <- Hobj.
         apply elem_of_app. right. apply elem_of_app. right. apply elem_of_app. left. by apply list_elem_of_fmap_2. }
    simpl. eexists _, _, _. split; [reflexivity|]. split.
    { split; cbn [la_depth la_iocbs la_free la_pending la_failures la_kernel]; try apply Hok.
      rewrite <- Hslots. solve_Permutation. }
    split_and!; [done|done|by left| |].
    + exists (map snd got). split; [|done]. unfold issued_in. simpl. rewrite Hp, map_app. solve_Permutation.
    + intros Hmost -> _ Hne. apply getevents_ends in Hend; [|pose proof (ok_depth e Hok); lia| |left; lia].
      * revert Hend. unfold issued_in. simpl. rewrite !length_app, !length_map. lia.
      * unfold issued_in in Hne. rewrite Hnone, app_nil_r in Hne. by intros Hin; rewrite Hin in Hne.
Qed.

Lemma make_libaio_spec io_setup config_depth config_block default_block max_read_bytesize kernel e :
  is_unsigned config_depth → in_kernel kernel = [] →
  make_libaio io_setup config_depth config_block default_block max_read_bytesize kernel = Ret e →
  libaio_ok e ∧ 1 <= la_depth e <= config_depth ∧ staged_in e = [] ∧ issued_in e = [].
Proof.
  intros Hd Hk E. unfold make_libaio, setup_context in E.
  destruct (Z.eqb_spec config_depth 0); [done|].
  pose proof (setup_loop_spec io_setup 33 0 config_depth) as Hs.
  destruct (setup_loop _ _ _ _) as [depth|]; [|done]. simpl in E. injection E as <-.
  destruct Hs as (j & Hn & H1 & _ & _); [mlia|].
  assert (depth <= config_depth).
  { rewrite Hn. apply Z.div_le_upper_bound; [lia|]. assert (0 < 2 ^ Z.of_nat j) by (apply Z.pow_pos_nonneg; lia). munfold. nia. }
  split; [|split; [simpl; lia|split; [done|unfold issued_in; simpl; by rewrite Hk]]].
  split; simpl; [mlia|by rewrite length_replicate| |constructor].
  by rewrite Hk, app_nil_r, length_replicate.
Qed.

(** ** The engine the workers see *)

Record LibaioEngine := mkEngine { the_engine : Libaio (K := K); the_engine_ok : libaio_ok the_engine }.

(** The result of an operation of the code, with the proof that its state is again one of the engine's;
    an exception, which no operation throws, would answer [A0]. *)
Definition lift {A} (A0 : A) (o : outcome (A * Libaio)) (e : LibaioEngine) :
    (∀ a e', o = Ret (a, e') → libaio_ok e') → A * LibaioEngine :=
  match o with
  | Ret (a, e') => λ ok, (a, mkEngine e' (ok a e' eq_refl))
  | Throw _ => λ _, (A0, e)
  end.

Lemma lift_Ret {A} (A0 : A) (o : outcome (A * Libaio)) (e : LibaioEngine) ok : (∃ a e', o = Ret (a, e')) →
  ∃ a (e' : LibaioEngine), o = Ret (a, the_engine e') ∧ lift A0 o e ok = (a, e').
Proof. intros (a & e' & ->). by exists a, (mkEngine e' (ok a e' eq_refl)). Qed.

Lemma libaio_stage_ok r e : ∀ code e', Ret (libaio_stage r e) = Ret (code, e') → libaio_ok e → libaio_ok e'.
Proof. intros code e' [= E] Hok. by apply (libaio_stage_spec _ _ _ _ Hok) in E as (? & _). Qed.

Lemma libaio_flush_ok e : ∀ x e', libaio_flush e = Ret (x, e') → libaio_ok e → libaio_ok e'.
Proof.
  intros x e' E Hok. destruct (libaio_flush_spec e Hok) as (n & d & e2 & sent & E2 & Hok' & _).
  rewrite E in E2. by injection E2 as -> ->.
Qed.

Lemma libaio_wait_ok most mode e : ∀ x e', libaio_wait most mode e = Ret (x, e') → libaio_ok e → libaio_ok e'.
Proof.
  intros x e' E Hok. destruct (libaio_wait_spec most mode e Hok) as (code & cs & e2 & E2 & Hok' & _).
  rewrite E in E2. by injection E2 as -> ->.
Qed.

#[export] Instance libaio_engine : IoEngine LibaioEngine := {
  depth s := la_depth (the_engine s);
  stage r s := lift UnknownError (Ret (libaio_stage r (the_engine s))) s
                 (λ a e' H, libaio_stage_ok r _ a e' H (the_engine_ok s));
  flush s := lift (UnknownError, (0, false)) (libaio_flush (the_engine s)) s
               (λ a e' H, libaio_flush_ok _ a e' H (the_engine_ok s));
  wait_for_completions most mode s := lift (UnknownError, []) (libaio_wait most mode (the_engine s)) s
                                        (λ a e' H, libaio_wait_ok most mode _ a e' H (the_engine_ok s));
  staged_reads s := staged_in (the_engine s);
  issued_reads s := issued_in (the_engine s);
  patience s := kernel_patience (la_kernel (the_engine s)) }.

Lemma engine_stage r (s : LibaioEngine) : ∃ code s',
  libaio_stage r (the_engine s) = (code, the_engine s') ∧ stage r s = (code, s').
Proof.
  destruct (lift_Ret UnknownError (Ret (libaio_stage r (the_engine s))) s
              (λ a e' H, libaio_stage_ok r _ a e' H (the_engine_ok s))) as (code & s' & [= E] & E').
  { destruct (libaio_stage r (the_engine s)) as [code e']. by exists code, e'. }
  by exists code, s'.
Qed.

Lemma engine_flush (s : LibaioEngine) : ∃ x s',
  libaio_flush (the_engine s) = Ret (x, the_engine s') ∧ flush s = (x, s').
Proof.
  apply lift_Ret. destruct (libaio_flush_spec _ (the_engine_ok s)) as (n & d & e' & _ & E & _). by eexists _, _.
Qed.

Lemma engine_wait most mode (s : LibaioEngine) : ∃ x s',
  libaio_wait most mode (the_engine s) = Ret (x, the_engine s') ∧ wait_for_completions most mode s = (x, s').
Proof.
  apply lift_Ret. destruct (libaio_wait_spec most mode _ (the_engine_ok s)) as (code & cs & e' & E & _). by eexists _, _.
Qed.

#[export] Instance libaio_laws : EngineLaws LibaioEngine.
Proof.
  split.
  - intros r e code e' E. destruct (engine_stage r e) as (c & e2 & Es & E2). rewrite E in E2. injection E2 as <- <-.
    apply libaio_stage_spec in Es as (_ & ?); [done|apply e].
  - intros e code n d e' E. destruct (engine_flush e) as (x & e2 & Es & E2). rewrite E in E2. injection E2 as <- <-.
    destruct (libaio_flush_spec _ (the_engine_ok e)) as (n' & d' & e3 & sent & E3 & _ & Hd & Hn & Hs & Hi).
    rewrite Es in E3. injection E3 as -> -> -> <-. split; [done|]. split; [done|]. by exists sent.
  - intros most mode e code cs e' E. destruct (engine_wait most mode e) as (x & e2 & Es & E2). rewrite E in E2.
    injection E2 as <- <-.
    destruct (libaio_wait_spec most mode _ (the_engine_ok e)) as (c & cs' & e3 & E3 & _ & Hd & Hs & Hc & Hr & _).
    rewrite Es in E3. injection E3 as -> -> <-. split; [done|]. split; [done|].
    split; [by destruct Hc as [->|[-> _]]|]. split; [by destruct Hc as [->|[_ ->]]|done].
  - intros e. apply (ok_depth _ (the_engine_ok e)).
  - intros most e cs e' E Hmost Hne. destruct (engine_wait most Block e) as (x & e2 & Es & E2). rewrite E in E2.
    injection E2 as <- <-.
    destruct (libaio_wait_spec most Block _ (the_engine_ok e)) as (c & cs' & e3 & E3 & _ & _ & _ & _ & _ & Hend).
    rewrite Es in E3. injection E3 as <- -> <-. by apply Hend.
Qed.

(** C12: [LibaioEngine] implements the promises of [IoEngine].  Whatever the kernel's AIO context answers
    within its documentation, partial submissions, refusals of the head, interruptions and errors
    included: staging appends or refuses; a flush issues the staged reads from the front and counts exactly
    those issued, with a read the kernel refuses outright among them; waits answer issued reads, each once;
    and no assertion of the three operations fails. *)
Theorem libaio_refines_io_engine : EngineLaws LibaioEngine ∧ ∀ s : LibaioEngine,
  (∀ r, ∃ code s', libaio_stage r (the_engine s) = (code, the_engine s') ∧ stage r s = (code, s')) ∧
  (∃ x s', libaio_flush (the_engine s) = Ret (x, the_engine s') ∧ flush s = (x, s')) ∧
  (∀ most mode, ∃ x s', libaio_wait most mode (the_engine s) = Ret (x, the_engine s') ∧
                        wait_for_completions most mode s = (x, s')).
Proof.
  split; [apply _|]. intros e. split_and!; [intros r; apply engine_stage|apply engine_flush|intros most mode; apply engine_wait].
Qed.

(** Setting the context up.  The constructor's engine has the depth asked for, or that halved some
    number of times, at least one, granted by io_setup, every larger attempt having been refused with
    EAGAIN; every iocb is free and nothing is staged or issued.  It throws when io_setup fails otherwise,
    or not even one event can be had, or none was asked for. *)
Theorem context_is_halved_while_refused io_setup config_depth config_block default_block max_read_bytesize kernel :
  is_unsigned config_depth → in_kernel kernel = [] →
  let attempt k := config_depth / 2 ^ Z.of_nat k in
  let refused k := ∀ j, (j < k)%nat → io_setup j (int_of (attempt j)) = - EAGAIN in
  match make_libaio io_setup config_depth config_block default_block max_read_bytesize kernel with
  | Ret e => libaio_ok e ∧ staged_in e = [] ∧ issued_in e = [] ∧
      ∃ k, la_depth e = attempt k ∧ 1 <= attempt k <= config_depth ∧ io_setup k (int_of (attempt k)) = 0 ∧ refused k
  | Throw x => x = Code UnknownError ∧ ∃ k, refused k ∧
      (attempt k = 0 ∨ io_setup k (int_of (attempt k)) ≠ 0 ∧ io_setup k (int_of (attempt k)) ≠ - EAGAIN)
  end.
Proof.
  intros Hd Hk attempt refused. destruct (make_libaio _ _ _ _ _ _) as [e|x] eqn:E.
  - destruct (make_libaio_spec _ _ _ _ _ _ _ Hd Hk E) as (? & Hb & ? & ?). split_and!; try done.
    unfold make_libaio, setup_context in E. destruct (config_depth =? 0); [done|].
    pose proof (setup_loop_spec io_setup 33 0 config_depth) as Hs.
    destruct (setup_loop _ _ _ _) as [depth|]; [|done]. simpl in E. injection E as <-.
    destruct Hs as (k & -> & Ha1 & Ha2 & Ha3); [mlia|]. exists k. split; [done|]. split; [done|]. by split.
  - unfold make_libaio, setup_context in E. destruct (Z.eqb_spec config_depth 0) as [->|].
    { injection E as <-. split; [done|]. exists 0%nat. split; [|by left]. intros j Hj. lia. }
    pose proof (setup_loop_spec io_setup 33 0 config_depth) as Hs.
    destruct (setup_loop _ _ _ _) as [depth|y]; [done|]. injection E as <-. apply Hs. mlia.
Qed.
End Laws.

(** ** A kernel: a context of so many events, that reads in full, in order, and refuses a descriptor that
    is not open *)

Record SmallAio := mkSmallAio { sa_events : nat; sa_reads : list (nat * StagedRead) }.

#[export] Instance small_aio : AioKernel SmallAio := {
  io_submit l k :=
    match l with
    | [] => (0, k)
    | x :: _ =>
        if fd (sr_file x.2) <? 0 then (- EBADF, k)
        else if Nat.ltb (length (sa_reads k)) (sa_events k) then (1, mkSmallAio (sa_events k) (sa_reads k ++ [x]))
        else (- EAGAIN, k)
    end;
  io_getevents min_nr nr k :=
    let got := take (Z.to_nat nr) (sa_reads k) in
    ((Z.of_nat (length got), map (λ x, mkEvent (sr_id x.2) x.1 (sr_bytesize x.2)) got),
     mkSmallAio (sa_events k) (drop (Z.to_nat nr) (sa_reads k)));
  in_kernel := sa_reads;
  kernel_patience _ := 0%nat }.

#[export] Instance small_aio_laws : AioLaws SmallAio.
Proof.
  split; simpl.
  - intros [|x l] k ret k' E; [by injection E as <- <-; rewrite app_nil_r|].
    destruct (_ <? 0); [by injection E as <- <-|]. destruct (Nat.ltb _ _); injection E as <- <-; simpl; [|done].
    split; [lia|done].
  - intros min_nr nr k ret evs k' [= <- <- <-]. rewrite (proj2 (Z.ltb_ge _ 0)) by lia. rewrite length_map.
    split; [done|]. exists (take (Z.to_nat nr) (sa_reads k)). simpl. rewrite take_drop. split; [done|].
    apply Forall2_fmap_l, Forall_Forall2_diag, Forall_true. intros x. split; [done|]. split; [done|]. simpl. lia.
  - intros nr k ret evs k' [= <- <- <-] Hnr Hne _. simpl. rewrite length_drop.
    destruct (sa_reads k); [done|]. simpl. lia.
Qed.

Definition a_read (id fd : Z) : StagedRead := mkRead id (mkFileRef fd true) 0 4096 4096 no_registration.

Definition a_submission : outcome ((ResponseCode * (Z * bool)) * Libaio) :=
  let! e := make_libaio (λ _ n, if n >? 3 then - EAGAIN else 0) 4 0 4096 1048576 (mkSmallAio 1 []) in
  let e := (libaio_stage (a_read 11 5) e).2 in
  let e := (libaio_stage (a_read 12 6) e).2 in
  libaio_flush e.

(** The node grants two events, of which the kernel has room for one. *)
Example second_read_is_deferred : match a_submission with
  | Ret ((code, (n, deferred)), e) => code = Success ∧ n = 1 ∧ deferred = true ∧ la_depth e = 2 ∧
      map sr_id (staged_in e) = [12] ∧ map sr_id (issued_in e) = [11]
  | Throw _ => False
  end.
Proof. vm_compute. done. Qed.

Lemma libaio_refines_io_engine_witness : EngineLaws (LibaioEngine (K := SmallAio)).
Proof. apply (libaio_refines_io_engine (K := SmallAio)). Defined.

Lemma context_is_halved_while_refused_witness : ∃ e,
  make_libaio (λ _ n, if n >? 3 then - EAGAIN else 0) 4 0 4096 1048576 (mkSmallAio 1 []) = Ret e ∧ libaio_ok e.
Proof.
  assert (H := context_is_halved_while_refused (λ _ n, if n >? 3 then - EAGAIN else 0) 4 0 4096 1048576
                 (mkSmallAio 1 []) ltac:(by split) eq_refl).
  destruct (make_libaio _ _ _ _ _ _) as [e|x] eqn:E; [|vm_compute in E; discriminate].
  exists e. split; [reflexivity|exact (proj1 H)].
Defined.
