(* ===== verification/UringEngine.v ===== *)
(** The io_uring engine (posix_io/io_uring_engine): reads prepared in the submission ring, a sparse table of
    registered buffers filled in as regions appear, and the promises of [IoEngine].

    The ring (liburing and the kernel) is a class: what its documentation says of io_uring_get_sqe,
    io_uring_submit, io_uring_wait_cqe and the buffer registration.  How long a wait lasts is the ring's
    affair; the statistics over the clock and the overflow counter, which is only logged, are left out. *)

From S2P Require Import Prelude ResponseCode CompletionMapper Alignment IoEngine.

(** ** The ring *)

(** A submission entry: the read prepared in it, the registered buffer it goes through, or -1, and whether
    IOSQE_ASYNC is set. *)
Record Sqe := mkSqe { sqe_read : StagedRead; sqe_index : Z; sqe_async : bool }.

(** [push_sqe] is io_uring_get_sqe with the preparation that follows.  A negative result is minus an
    errno.  [prepared] entries the kernel has not seen; [in_ring] it has, and they are not reaped. *)
Class Ring (R : Type) := {
  ring_entries : R → Z;
  push_sqe : Sqe → R → option R;
  register_sparse : Z → R → Z * R;
  register_update : Z → Z * Z → R → Z * R;
  ring_submit : R → Z * R;
  wait_cqe : R → Z * R;
  cqes : R → list Completion;
  cq_advance : nat → R → R;
  prepared : R → list Sqe;
  in_ring : R → list Sqe;
  ring_table : R → Z → option (Z * Z);
  ring_patience : R → nat }.

Definition ETIME : Z := 62.

Definition nothing_arrived (error : Z) : bool := (error =? ETIME) || (error =? EINTR) || (error =? EAGAIN).

(** Entries are submitted from the front and each is answered once; waits for a ring with reads in it do
    not come back empty for ever; nothing but registration changes the table. *)
Class RingLaws (R : Type) `{!Ring R} : Prop := {
  entries_law (r : R) : 0 < ring_entries r < unsigned_modulus ∧ Z.of_nat (length (prepared r)) <= ring_entries r;
  push_law s (r r' : R) : push_sqe s r = Some r' →
    ring_entries r' = ring_entries r ∧ prepared r' = prepared r ++ [s] ∧ in_ring r' = in_ring r ∧
    ∀ i, ring_table r' i = ring_table r i;
  sparse_law n (r : R) ret r' : register_sparse n r = (ret, r') →
    ring_entries r' = ring_entries r ∧ prepared r' = prepared r ∧ in_ring r' = in_ring r ∧
    ∀ i, ring_table r' i = if ret <? 0 then ring_table r i else None;
  update_law id region (r : R) ret r' : register_update id region r = (ret, r') →
    ring_entries r' = ring_entries r ∧ prepared r' = prepared r ∧ in_ring r' = in_ring r ∧
    ∀ i, ring_table r' i = if ret <? 0 then ring_table r i else if i =? id then Some region else ring_table r i;
  ring_submit_law (r : R) ret r' : ring_submit r = (ret, r') →
    ring_entries r' = ring_entries r ∧ (∀ i, ring_table r' i = ring_table r i) ∧
    ∃ sent, prepared r = sent ++ prepared r' ∧ in_ring r' ≡ₚ in_ring r ++ sent ∧
            (if ret <? 0 then sent = [] else ret = Z.of_nat (length sent));
  wait_cqe_law (r : R) ret r' : wait_cqe r = (ret, r') →
    ring_entries r' = ring_entries r ∧ prepared r' = prepared r ∧ in_ring r' = in_ring r ∧
    ∀ i, ring_table r' i = ring_table r i;
  advance_law n (r : R) : (n <= length (cqes r))%nat →
    ring_entries (cq_advance n r) = ring_entries r ∧ prepared (cq_advance n r) = prepared r ∧
    (∀ i, ring_table (cq_advance n r) i = ring_table r i) ∧
    (ring_patience (cq_advance n r) <= ring_patience r)%nat ∧
    ∃ got, in_ring r ≡ₚ got ++ in_ring (cq_advance n r) ∧
           Forall2 (λ c s, answers c (sqe_read s)) (take n (cqes r)) got;
  wait_cqe_ends (r : R) ret r' : wait_cqe r = (ret, r') → in_ring r ≠ [] →
    0 <= ret ∨ nothing_arrived (- ret) = true →
    (ring_patience r' <= ring_patience r)%nat ∧ (cqes r' ≠ [] ∨ (ring_patience r' < ring_patience r)%nat) }.

(** ** The engine *)

Inductive RegionState := Unknown | Registered | Refused.

#[export] Instance RegionState_eq_dec : EqDecision RegionState.
Proof. solve_decision. Defined.

Definition MaxRegisteredRegions : Z := 1024.

Definition offers_this_buffer (registration : Registration) (buffer bytesize : Z) : bool :=
  if negb (registration_valid registration) then false
  else (buffer >=? rg_base registration) && (buffer + bytesize <=? rg_base registration + rg_bytesize registration).

Section Engine.
Context {R : Type} `{!Ring R}.

Record IoUring := mkIoUring {
  iu_regions : list RegionState; iu_over_table_reads : Z; iu_table : bool; iu_fixed_buffers : bool;
  iu_staged : Z; iu_ring : R; iu_limits : Limits; iu_depth : Z }.

(** [init] is io_uring_queue_init_params, [probed] what the host's probe says of fixed buffers. *)
Definition make_io_uring (init : Z → Z * R) (register_buffers probed : bool)
    (config_depth config_block default_block max_read_bytesize : Z) : outcome IoUring :=
  let '(ret, ring) := init config_depth in
  if ret <? 0 then Throw (Code UnknownError)
  else
    let blk := if negb (config_block =? 0) then config_block else default_block in
    Ret (mkIoUring [] 0 false (register_buffers && probed) 0 ring (mkLimits max_read_bytesize blk blk)
           (ring_entries ring)).

Definition registered_regions (e : IoUring) : nat := length (filter (λ s, s = Registered) (iu_regions e)).
Definition refused_regions (e : IoUring) : nat := length (filter (λ s, s = Refused) (iu_regions e)).

Definition set_region (id : Z) (s : RegionState) (e : IoUring) : IoUring :=
  mkIoUring (<[Z.to_nat id := s]> (iu_regions e)) (iu_over_table_reads e) (iu_table e) (iu_fixed_buffers e)
            (iu_staged e) (iu_ring e) (iu_limits e) (iu_depth e).

Definition with_ring (table fixed : bool) (ring : R) (e : IoUring) : IoUring :=
  mkIoUring (iu_regions e) (iu_over_table_reads e) table fixed (iu_staged e) ring (iu_limits e) (iu_depth e).

(** [_regions] is as long as the largest id seen. *)
Definition grow_regions (id : Z) (e : IoUring) : IoUring :=
  if Z.of_nat (length (iu_regions e)) <=? id then
    mkIoUring (iu_regions e ++ replicate (Z.to_nat (id + 1) - length (iu_regions e)) Unknown)
              (iu_over_table_reads e) (iu_table e) (iu_fixed_buffers e) (iu_staged e) (iu_ring e) (iu_limits e) (iu_depth e)
  else e.

(** The table is created on the first region; [None] when the ring refuses it. *)
Definition have_table (e : IoUring) : bool * IoUring :=
  if iu_table e then (true, e)
  else
    let '(ret, ring) := register_sparse MaxRegisteredRegions (iu_ring e) in
    if ret <? 0 then (false, with_ring false false ring e) else (true, with_ring true (iu_fixed_buffers e) ring e).

Definition registered_index (registration : Registration) (e : IoUring) : Z * IoUring :=
  let id := rg_id registration in
  if negb (registration_valid registration) || negb (iu_fixed_buffers e) then (-1, e)
  else if id >=? MaxRegisteredRegions then
    (-1, mkIoUring (iu_regions e) (add64 (iu_over_table_reads e) 1) (iu_table e) (iu_fixed_buffers e) (iu_staged e)
                   (iu_ring e) (iu_limits e) (iu_depth e))
  else
    let e := grow_regions id e in
    match iu_regions e !! Z.to_nat id with
    | Some Registered => (id, e)
    | Some Refused => (-1, e)
    | _ =>
        let '(ready, e) := have_table e in
        if negb ready then (-1, e)
        else
          let '(ret, ring) := register_update id (rg_base registration, rg_bytesize registration) (iu_ring e) in
          let e := with_ring (iu_table e) (iu_fixed_buffers e) ring e in
          if ret <? 0 then (-1, set_region id Refused e) else (id, set_region id Registered e)
    end.

Definition with_staged (staged : Z) (ring : R) (e : IoUring) : IoUring :=
  mkIoUring (iu_regions e) (iu_over_table_reads e) (iu_table e) (iu_fixed_buffers e) staged ring (iu_limits e) (iu_depth e).

Definition io_uring_stage (r : StagedRead) (e : IoUring) : ResponseCode * IoUring :=
  let '(index, e) :=
    if offers_this_buffer (sr_registration r) (sr_buffer r) (sr_bytesize r) then registered_index (sr_registration r) e
    else (-1, e) in
  match push_sqe (mkSqe r index (negb (direct (sr_file r)))) (iu_ring e) with
  | None => (UnknownError, e)
  | Some ring => (Success, with_staged (add32 (iu_staged e) 1) ring e)
  end.

Definition io_uring_flush (e : IoUring) : (ResponseCode * (Z * bool)) * IoUring :=
  if iu_staged e =? 0 then ((Success, (0, false)), e)
  else
    let '(ret, ring) := ring_submit (iu_ring e) in
    if ret <? 0 then
      let e := with_staged (iu_staged e) ring e in
      if submit_can_defer (- ret) then ((Success, (0, true)), e) else ((FsAsyncEngineError, (0, false)), e)
    else
      let issued := wrap32 ret in
      if issued >? iu_staged e then ((FsAsyncEngineError, (iu_staged e, false)), with_staged 0 ring e)
      else
        let staged := sub32 (iu_staged e) issued in
        ((Success, (issued, negb (staged =? 0))), with_staged staged ring e).

(** What is ready, at most [most], however the wait ended. *)
Definition io_uring_wait (most : Z) (mode : WaitMode) (e : IoUring) : (ResponseCode * list Completion) * IoUring :=
  let '(ret, ring) := match mode with Block => wait_cqe (iu_ring e) | NonBlocking => (0, iu_ring e) end in
  if (ret <? 0) && negb (nothing_arrived (- ret)) then ((FsAsyncEngineError, []), with_staged (iu_staged e) ring e)
  else
    let taken := Nat.min (Z.to_nat most) (length (cqes ring)) in
    ((Success, take taken (cqes ring)), with_staged (iu_staged e) (cq_advance taken ring) e).
End Engine.

Section Laws.
Context {R : Type} `{!Ring R, !RingLaws R}.
Implicit Type e : IoUring (R := R).

(** [_depth] is the ring's size, and [_staged] counts the entries prepared in it. *)
Record io_uring_ok e : Prop := {
  ur_depth : iu_depth e = ring_entries (iu_ring e);
  ur_staged : iu_staged e = Z.of_nat (length (prepared (iu_ring e))) }.

(** What registering a region may not touch. *)
Definition same_reads e e' : Prop :=
  iu_depth e' = iu_depth e ∧ iu_staged e' = iu_staged e ∧ ring_entries (iu_ring e') = ring_entries (iu_ring e) ∧
  prepared (iu_ring e') = prepared (iu_ring e) ∧ in_ring (iu_ring e') = in_ring (iu_ring e).

Lemma same_reads_refl e : same_reads e e.
Proof. done. Qed.

Lemma same_reads_trans e1 e2 e3 : same_reads e1 e2 → same_reads e2 e3 → same_reads e1 e3.
Proof. unfold same_reads. intuition congruence. Qed.

Lemma same_reads_ok e e' : same_reads e e' → io_uring_ok e → io_uring_ok e'.
Proof. intros (H1 & H2 & H3 & H4 & _) [Hd Hs]. split; congruence. Qed.

Lemma grow_same id e : same_reads e (grow_regions id e).
Proof. unfold grow_regions. by destruct (_ <=? _). Qed.

Lemma have_table_same e b e' : have_table e = (b, e') → same_reads e e'.
Proof.
  unfold have_table. destruct (iu_table e); [by intros [= <- <-]|].
  destruct (register_sparse _ _) as [ret ring] eqn:E. apply sparse_law in E as (? & ? & ? & _).
  destruct (ret <? 0); intros [= <- <-]; done.
Qed.

Lemma registered_index_same reg e i e' : registered_index reg e = (i, e') → same_reads e e'.
Proof.
  unfold registered_index. destruct (_ || _); [by intros [= <- <-]|]. destruct (_ >=? _); [by intros [= <- <-]|].
  pose proof (grow_same (rg_id reg) e) as Hg. revert Hg. generalize (grow_regions (rg_id reg) e). intros e1 Hg.
  assert (Hnew : (let '(ready, e) := have_table e1 in
    if negb ready then (-1, e)
    else
      let '(ret, ring) := register_update (rg_id reg) (rg_base reg, rg_bytesize reg) (iu_ring e) in
      let e := with_ring (iu_table e) (iu_fixed_buffers e) ring e in
      if ret <? 0 then (-1, set_region (rg_id reg) Refused e) else (rg_id reg, set_region (rg_id reg) Registered e))
    = (i, e') → same_reads e e').
  { destruct (have_table e1) as [ready e2] eqn:Ht. apply have_table_same in Ht. destruct ready; simpl.
    2: { intros [= <- <-]. by eapply same_reads_trans. }
    destruct (register_update _ _ _) as [ret ring] eqn:E. apply update_law in E as (? & ? & ? & _).
    assert (∀ b s, same_reads e2 (set_region b s (with_ring (iu_table e2) (iu_fixed_buffers e2) ring e2))) by done.
    destruct (ret <? 0); intros [= <- <-]; (eapply same_reads_trans; [by eapply same_reads_trans|done]). }
  destruct (iu_regions e1 !! _) as [[]|]; try exact Hnew; by intros [= <- <-].
Qed.

(** ** The operations *)

Lemma io_uring_stage_spec r e code e' : io_uring_ok e → io_uring_stage r e = (code, e') →
  io_uring_ok e' ∧ iu_depth e' = iu_depth e ∧ in_ring (iu_ring e') = in_ring (iu_ring e) ∧
  map sqe_read (prepared (iu_ring e')) = map sqe_read (prepared (iu_ring e)) ++ (if decide (code = Success) then [r] else []).
Proof.
  intros Hok E. unfold io_uring_stage in E.
  destruct (if offers_this_buffer _ _ _ then _ else _) as [index e1] eqn:Hi.
  assert (Hs : same_reads e e1).
  { destruct (offers_this_buffer _ _ _); [by eapply registered_index_same|by injection Hi as _ <-]. }
  apply (same_reads_ok _ _ Hs) in Hok as [Hd Hst]. destruct Hs as (Hd' & _ & _ & Hp & Hr).
  destruct (push_sqe _ _) as [ring|] eqn:Hpush; injection E as <- <-.
  2: { split; [done|]. split; [done|]. split; [done|]. by rewrite Hp, app_nil_r. }
  apply push_law in Hpush as (He & Hp1 & Hr1 & _).
  split.
  - split; simpl; [congruence|]. destruct (entries_law ring) as [Hb Hl]. rewrite Hp1, length_app in *. simpl in *.
    rewrite Hst. unwrap. lia.
  - split; [done|]. split; [simpl; congruence|]. simpl. rewrite Hp1, map_app, Hp. done.
Qed.

Lemma io_uring_flush_spec e code n deferred e' : io_uring_ok e → io_uring_flush e = ((code, (n, deferred)), e') →
  io_uring_ok e' ∧ iu_depth e' = iu_depth e ∧ (code = Success ∨ code = FsAsyncEngineError) ∧
  (deferred = true → prepared (iu_ring e') ≠ []) ∧
  ∃ sent, prepared (iu_ring e) = sent ++ prepared (iu_ring e') ∧
    in_ring (iu_ring e') ≡ₚ in_ring (iu_ring e) ++ sent ∧ n = Z.of_nat (length sent).
Proof.
  intros [Hd Hs] E. unfold io_uring_flush in E.
  destruct (Z.eqb_spec (iu_staged e) 0) as [H0|H0].
  { injection E as <- <- <- <-. split; [done|]. split; [done|]. split; [by left|]. split; [done|].
    exists []. by rewrite app_nil_r. }
  destruct (ring_submit _) as [ret ring] eqn:Hsub. apply ring_submit_law in Hsub as (He & _ & sent & Hp & Hr & Hret).
  assert (Hlen := f_equal length Hp). rewrite length_app in Hlen.
  assert (Hne : ∀ l : list Sqe, length l ≠ 0%nat → l ≠ []) by (intros [|]; done).
  destruct (ret <? 0) eqn:Hneg.
  - subst sent. simpl in Hp, Hlen. rewrite app_nil_r in Hr.
    assert (Hok : io_uring_ok (with_staged (iu_staged e) ring e)) by (split; simpl; [congruence|lia]).
    destruct (submit_can_defer _); injection E as <- <- <- <-.
    + split; [done|]. split; [done|]. split; [by left|]. split; [intros _; apply Hne; simpl; lia|].
      exists []. by rewrite app_nil_r.
    + split; [done|]. split; [done|]. split; [by right|]. split; [done|]. exists []. by rewrite app_nil_r.
  - destruct (entries_law (iu_ring e)) as [Hb Hl].
    assert (Hw : wrap32 ret = ret) by (apply wrap32_small; mlia). rewrite Hw in E.
    rewrite Z.gtb_ltb, (proj2 (Z.ltb_ge _ _)) in E by lia.
    assert (Hsub' : sub32 (iu_staged e) ret = Z.of_nat (length (prepared ring))) by (rewrite sub32_small; mlia).
    rewrite Hsub' in E. injection E as <- <- <- <-. split; [split; simpl; [congruence|done]|].
    split; [done|]. split; [by left|]. split; [|by exists sent].
    simpl. destruct (Z.eqb_spec (Z.of_nat (length (prepared ring))) 0); [done|]. intros _. apply Hne. lia.
Qed.

Lemma io_uring_wait_spec most mode e code cs e' : io_uring_ok e → io_uring_wait most mode e = ((code, cs), e') →
  io_uring_ok e' ∧ iu_depth e' = iu_depth e ∧ prepared (iu_ring e') = prepared (iu_ring e) ∧
  (code = Success ∨ code = FsAsyncEngineError ∧ cs = []) ∧
  (∃ got, in_ring (iu_ring e) ≡ₚ got ++ in_ring (iu_ring e') ∧ Forall2 (λ c s, answers c (sqe_read s)) cs got) ∧
  (0 < most → mode = Block → code = Success → in_ring (iu_ring e) ≠ [] →
    (length (in_ring (iu_ring e')) + ring_patience (iu_ring e') <
     length (in_ring (iu_ring e)) + ring_patience (iu_ring e))%nat).
Proof.
  intros [Hd Hs] E. unfold io_uring_wait in E.
  destruct (match mode with Block => wait_cqe (iu_ring e) | NonBlocking => (0, iu_ring e) end) as [ret ring] eqn:Hw.
  assert (Hsame : ring_entries ring = ring_entries (iu_ring e) ∧ prepared ring = prepared (iu_ring e) ∧
    in_ring ring = in_ring (iu_ring e)).
  { destruct mode; [by injection Hw as <- <-|]. apply wait_cqe_law in Hw as (? & ? & ? & _). done. }
  destruct Hsame as (He & Hp & Hr).
  destruct ((ret <? 0) && negb (nothing_arrived (- ret))) eqn:Hfail; injection E as <- <- <-.
  { split; [split; simpl; congruence|]. split; [done|]. split; [done|]. split; [by right|].
    split; [exists []; simpl; by rewrite Hr|done]. }
  set (taken := Nat.min (Z.to_nat most) (length (cqes ring))).
  assert (Hle : (taken <= length (cqes ring))%nat) by lia.
  destruct (advance_law taken ring Hle) as (He' & Hp' & _ & Hpat & got & Hgot & Hans).
  split; [split; simpl; congruence|]. split; [done|]. split; [simpl; congruence|]. split; [by left|].
  split; [exists got; simpl; by rewrite <- Hr|].
  intros Hmost -> _ Hne. simpl. apply wait_cqe_ends in Hw as [Hpat' Hprog]; [|done|].
  2: { apply andb_false_iff in Hfail as [H%Z.ltb_ge|H%negb_false_iff]; [by left|by right]. }
  apply Permutation_length in Hgot. apply Forall2_length in Hans. rewrite length_app, length_take in *. rewrite <- Hr.
  destruct Hprog as [Hc|Hlt]; [|lia]. destruct (cqes ring) as [|c l]; [done|]. simpl in *. lia.
Qed.

Lemma make_io_uring_spec init register_buffers probed depth blk default most e :
  make_io_uring init register_buffers probed depth blk default most = Ret e →
  prepared (iu_ring e) = [] → io_uring_ok e.
Proof.
  unfold make_io_uring. destruct (init depth) as [ret ring]. destruct (ret <? 0); [done|].
  intros [= <-] Hp. split; simpl in *; [done|by rewrite Hp].
Qed.

(** ** The engine the workers see *)

Record UringEngine := mkUring { the_uring : IoUring (R := R); the_uring_ok : io_uring_ok the_uring }.

Definition keep {A} (p : A * IoUring) (ok : ∀ a e', p = (a, e') → io_uring_ok e') : A * UringEngine :=
  (fst p, mkUring (snd p) (ok (fst p) (snd p) (surjective_pairing p))).

Lemma stage_keeps r e : io_uring_ok e → ∀ code e', io_uring_stage r e = (code, e') → io_uring_ok e'.
Proof. intros Hok code e' E. by apply (io_uring_stage_spec _ _ _ _ Hok) in E as (? & _). Qed.

Lemma flush_keeps e : io_uring_ok e → ∀ x e', io_uring_flush e = (x, e') → io_uring_ok e'.
Proof. intros Hok [code [n d]] e' E. by apply (io_uring_flush_spec _ _ _ _ _ Hok) in E as (? & _). Qed.

Lemma wait_keeps most mode e : io_uring_ok e → ∀ x e', io_uring_wait most mode e = (x, e') → io_uring_ok e'.
Proof. intros Hok [code cs] e' E. by apply (io_uring_wait_spec _ _ _ _ _ _ Hok) in E as (? & _). Qed.

#[export] Instance uring_engine : IoEngine UringEngine := {
  depth s := iu_depth (the_uring s);
  stage r s := keep (io_uring_stage r (the_uring s)) (stage_keeps r _ (the_uring_ok s));
  flush s := keep (io_uring_flush (the_uring s)) (flush_keeps _ (the_uring_ok s));
  wait_for_completions most mode s := keep (io_uring_wait most mode (the_uring s)) (wait_keeps most mode _ (the_uring_ok s));
  staged_reads s := map sqe_read (prepared (iu_ring (the_uring s)));
  issued_reads s := map sqe_read (in_ring (iu_ring (the_uring s)));
  patience s := ring_patience (iu_ring (the_uring s)) }.

Lemma keep_inv {A} (p : A * IoUring) ok a (s' : UringEngine) : keep p ok = (a, s') → p = (a, the_uring s').
Proof. intros [= <- <-]. apply surjective_pairing. Qed.

#[export] Instance uring_laws : EngineLaws UringEngine.
Proof.
  split.
  - intros r s code s' E%keep_inv. apply io_uring_stage_spec in E as (_ & Hd & Hi & Hp); [|apply s].
    split; [done|]. split; [by simpl; rewrite Hi|done].
  - intros s code n d s' E%keep_inv. apply io_uring_flush_spec in E as (_ & Hd & Hc & _ & sent & Hp & Hi & Hn); [|apply s].
    split; [done|]. split; [by destruct Hc as [->| ->]|]. exists (map sqe_read sent). simpl.
    rewrite Hp, Hi, !map_app, length_map. done.
  - intros most mode s code cs s' E%keep_inv.
    apply io_uring_wait_spec in E as (_ & Hd & Hp & Hc & (got & Hi & Ha) & _); [|apply s].
    split; [done|]. split; [by simpl; rewrite Hp|]. split; [by destruct Hc as [->|[-> _]]|].
    split; [by destruct Hc as [->|[_ ->]]|]. exists (map sqe_read got). simpl. rewrite Hi, map_app.
    split; [done|by apply Forall2_fmap_r].
  - intros s. simpl. rewrite (ur_depth _ (the_uring_ok s)). apply entries_law.
  - intros most s cs s' E%keep_inv Hmost Hne.
    apply io_uring_wait_spec in E as (_ & _ & _ & _ & _ & Hend); [|apply s]. simpl in *. rewrite !length_map.
    apply Hend; try done. intros H. by rewrite H in Hne.
Qed.

(** C13: [IoUringEngine] implements the promises of [IoEngine], each operation being the code's.  Whatever
    the ring answers within its documentation: staging appends or refuses, whether or not the buffer can be
    registered; a flush issues the prepared reads from the front and counts exactly those issued, deferral
    and failure included; waits answer issued reads, each once, and a blocking wait that returns nothing
    uses up the ring's patience. *)
Theorem io_uring_refines_io_engine : EngineLaws UringEngine ∧ ∀ s : UringEngine,
  (∀ r code s', stage r s = (code, s') → io_uring_stage r (the_uring s) = (code, the_uring s')) ∧
  (∀ x s', flush s = (x, s') → io_uring_flush (the_uring s) = (x, the_uring s')) ∧
  (∀ most mode x s', wait_for_completions most mode s = (x, s') →
     io_uring_wait most mode (the_uring s) = (x, the_uring s')).
Proof.
  split; [apply _|]. intros s. split; [intros r code s' E|split; [intros x s' E|intros most mode x s' E]];
    by apply keep_inv in E.
Qed.

(** ** Registered buffers

    The caller's promise: the same id always means the same memory. *)

Context (memory : nat → Z * Z).

Definition inside (region : Z * Z) (r : StagedRead) : Prop :=
  fst region <= sr_buffer r ∧ sr_buffer r + sr_bytesize r <= fst region + snd region.

Definition honest (reg : Registration) : Prop :=
  registration_valid reg = true → 0 <= rg_id reg ∧ (rg_base reg, rg_bytesize reg) = memory (Z.to_nat (rg_id reg)).

Definition held e (n : nat) : Prop := iu_regions e !! n = Some Registered.

Definition through e (s : Sqe) : Prop :=
  sqe_index s = -1 ∨ ∃ n, sqe_index s = Z.of_nat n ∧ held e n ∧ inside (memory n) (sqe_read s).

Definition reads_of e : list Sqe := prepared (iu_ring e) ++ in_ring (iu_ring e).

(** A region held is in the ring's table, and every read through the table lands in its region. *)
Record fixed_ok e : Prop := {
  fx_regions n : held e n →
    iu_table e = true ∧ ring_table (iu_ring e) (Z.of_nat n) = Some (memory n) ∧ Z.of_nat n < MaxRegisteredRegions;
  fx_reads : Forall (through e) (reads_of e) }.

Lemma held_grow id e n : held (grow_regions id e) n ↔ held e n.
Proof.
  unfold held, grow_regions. destruct (Z.leb_spec (Z.of_nat (length (iu_regions e))) id); [|done]. simpl.
  destruct (decide (n < length (iu_regions e))%nat) as [Hn|Hn]; [by rewrite lookup_app_l|].
  rewrite lookup_app_r by lia. rewrite (lookup_ge_None_2 (iu_regions e)) by lia. split; [|done].
  intros [[=] _]%lookup_replicate.
Qed.

(** More regions held and the same reads: the reads stay in their regions. *)
Lemma through_mono e e' : same_reads e e' → (∀ n, held e n → held e' n) →
  Forall (through e) (reads_of e) → Forall (through e') (reads_of e').
Proof.
  intros (_ & _ & _ & Hp & Hr) Hh. unfold reads_of. rewrite Hp, Hr.
  intros H. eapply Forall_impl; [exact H|]. intros s [?|(n & ? & ? & ?)]; [by left|].
  right. exists n. auto.
Qed.

Lemma grow_fixed id e : fixed_ok e → fixed_ok (grow_regions id e).
Proof.
  intros [Hr Hf]. assert (Hgr : iu_table (grow_regions id e) = iu_table e ∧ iu_ring (grow_regions id e) = iu_ring e).
  { unfold grow_regions. by destruct (_ <=? _). }
  destruct Hgr as [Htab Hring]. split.
  - intros n Hn%held_grow. rewrite Hring, Htab. by apply Hr.
  - apply (through_mono e); [apply grow_same| |done]. intros n. by rewrite held_grow.
Qed.

Lemma have_table_fixed e b e' : fixed_ok e → have_table e = (b, e') →
  fixed_ok e' ∧ iu_regions e' = iu_regions e ∧ (b = true → iu_table e' = true).
Proof.
  intros Hok E. assert (Hs := have_table_same _ _ _ E). unfold have_table in E.
  destruct (iu_table e) eqn:Ht; [by injection E as <- <-|].
  destruct Hok as [Hr Hf].
  destruct (register_sparse _ _) as [ret ring]. destruct (ret <? 0); injection E as <- <-; (split; [|done]);
    (split; [intros n Hn; destruct (Hr n Hn) as [H _]; congruence|by apply (through_mono e)]).
Qed.

(** The region's state after the kernel was asked to register it. *)
Lemma set_region_fixed id reg e ret ring : fixed_ok e → iu_table e = true → 0 <= id < MaxRegisteredRegions →
  reg = memory (Z.to_nat id) → (Z.to_nat id < length (iu_regions e))%nat → ¬ held e (Z.to_nat id) →
  register_update id reg (iu_ring e) = (ret, ring) →
  let s := if ret <? 0 then Refused else Registered in
  let e' := set_region id s (with_ring (iu_table e) (iu_fixed_buffers e) ring e) in
  fixed_ok e' ∧ (s = Registered → held e' (Z.to_nat id)).
Proof.
  intros [Hr Hf] Ht Hid -> Hlt Hnot E s e'. apply update_law in E as (He & Hp & Hi & Htab).
  assert (Hsame : same_reads e e') by done.
  assert (Hother : ∀ n, n ≠ Z.to_nat id → held e' n ↔ held e n).
  { intros n Hn. unfold held, e'. simpl. by rewrite list_lookup_insert_ne. }
  assert (Hself : held e' (Z.to_nat id) ↔ s = Registered).
  { unfold held, e'. simpl. rewrite list_lookup_insert_eq by done. split; [by intros [=]|by intros ->]. }
  split; [|by apply Hself]. split.
  - intros n Hn. split; [done|]. simpl. rewrite Htab. destruct (decide (n = Z.to_nat id)) as [->|Hne].
    + apply Hself in Hn. unfold s in Hn. destruct (ret <? 0); [done|]. rewrite Z2Nat.id by lia. rewrite Z.eqb_refl. split; [done|lia].
    + apply Hother in Hn; [|done]. apply Hr in Hn as (_ & Hn & ?). destruct (ret <? 0); [done|].
      rewrite (proj2 (Z.eqb_neq (Z.of_nat n) id)) by lia. done.
  - apply (through_mono e); [done| |done]. intros n Hn. apply Hother; [|done]. by intros ->.
Qed.

Lemma grown id e : 0 <= id → (Z.to_nat id < length (iu_regions (grow_regions id e)))%nat.
Proof.
  intros Hid. unfold grow_regions. destruct (Z.leb_spec (Z.of_nat (length (iu_regions e))) id); [|lia].
  simpl. rewrite length_app, length_replicate. lia.
Qed.

Lemma registered_index_fixed reg e i e' : honest reg → fixed_ok e → registered_index reg e = (i, e') →
  fixed_ok e' ∧ (i = -1 ∨ registration_valid reg = true ∧ i = Z.of_nat (Z.to_nat (rg_id reg)) ∧
                         held e' (Z.to_nat (rg_id reg))).
Proof.
  intros Hhon Hok E. unfold registered_index in E.
  destruct (negb (registration_valid reg) || _) eqn:Hv; [injection E as <- <-; auto|].
  apply orb_false_iff in Hv as [Hv%negb_false_iff _]. destruct (Hhon Hv) as [Hid Hmem].
  destruct (rg_id reg >=? _) eqn:Hmax.
  { injection E as <- <-. split; [|by left]. destruct Hok as [Hr Hf]. by split. }
  rewrite Z.geb_leb in Hmax. apply Z.leb_gt in Hmax.
  apply (grow_fixed (rg_id reg)) in Hok. assert (Hlt := grown (rg_id reg) e Hid).
  revert Hok Hlt E. generalize (grow_regions (rg_id reg) e). clear e. intros e Hok Hlt E.
  destruct (decide (iu_regions e !! Z.to_nat (rg_id reg) = Some Registered)) as [Hreg|Hreg].
  { rewrite Hreg in E. injection E as <- <-. split; [done|]. right. split; [done|]. split; [lia|done]. }
  destruct (decide (iu_regions e !! Z.to_nat (rg_id reg) = Some Refused)) as [Href|Href].
  { rewrite Href in E. injection E as <- <-. auto. }
  destruct (have_table e) as [ready e1] eqn:Ht.
  apply (have_table_fixed _ _ _ Hok) in Ht as (Hok1 & Hregs & Hready).
  assert (E' : (if negb ready then (-1, e1)
    else
      let '(ret, ring) := register_update (rg_id reg) (rg_base reg, rg_bytesize reg) (iu_ring e1) in
      let e := with_ring (iu_table e1) (iu_fixed_buffers e1) ring e1 in
      if ret <? 0 then (-1, set_region (rg_id reg) Refused e) else (rg_id reg, set_region (rg_id reg) Registered e))
    = (i, e')) by (destruct (iu_regions e !! _) as [[]|]; done).
  destruct ready; simpl in E'; [|injection E' as <- <-; auto].
  destruct (register_update _ _ _) as [ret ring] eqn:Hup.
  destruct (set_region_fixed (rg_id reg) (rg_base reg, rg_bytesize reg) e1 ret ring Hok1 (Hready eq_refl)) as [Hok2 Hheld]; try done;
    [unfold held; by rewrite Hregs| unfold held; by rewrite Hregs|].
  destruct (ret <? 0); injection E' as <- <-; (split; [done|]); [by left|right; split; [done|]; split; [lia|auto]].
Qed.

Lemma offers_inside reg r : offers_this_buffer reg (sr_buffer r) (sr_bytesize r) = true →
  registration_valid reg = true ∧ inside (rg_base reg, rg_bytesize reg) r.
Proof.
  unfold offers_this_buffer. destruct (registration_valid reg); [|done]. simpl.
  intros [H1 H2]%andb_true_iff. rewrite Z.geb_leb in H1. apply Z.leb_le in H1, H2. done.
Qed.

Lemma stage_fixed r e code e' : honest (sr_registration r) → fixed_ok e → io_uring_stage r e = (code, e') → fixed_ok e'.
Proof.
  intros Hhon Hok E. unfold io_uring_stage in E.
  destruct (if offers_this_buffer _ _ _ then _ else _) as [index e1] eqn:Hi.
  assert (H1 : fixed_ok e1 ∧ through e1 (mkSqe r index (negb (direct (sr_file r))))).
  { destruct (offers_this_buffer _ _ _) eqn:Hoff; [|injection Hi as <- <-; split; [done|by left]].
    apply offers_inside in Hoff as [Hv Hin]. apply (registered_index_fixed _ _ _ _ Hhon Hok) in Hi as [Hok1 Hix].
    split; [done|]. destruct Hix as [->|(_ & -> & Hheld)]; [by left|]. right. exists (Z.to_nat (rg_id (sr_registration r))).
    split; [done|]. split; [done|]. destruct (Hhon Hv) as [_ <-]. exact Hin. }
  destruct H1 as [[Hr Hf] Hnew].
  destruct (push_sqe _ _) as [ring|] eqn:Hpush; injection E as <- <-; [|done].
  apply push_law in Hpush as (_ & Hp & Hring & Htab). split.
  - intros n Hn. simpl. rewrite Htab. by apply Hr.
  - unfold reads_of in *. simpl. rewrite Hp, Hring, <- app_assoc. apply Forall_app in Hf as [Hfp Hfr].
    apply Forall_app. split; [exact Hfp|]. by constructor.
Qed.

(** Fewer reads, or the same ones elsewhere, and the same table. *)
Lemma fixed_fewer e ring staged : fixed_ok e → (∀ i, ring_table ring i = ring_table (iu_ring e) i) →
  (∀ s, s ∈ prepared ring ++ in_ring ring → s ∈ reads_of e) → fixed_ok (with_staged staged ring e).
Proof.
  intros [Hr Hf] Htab Hsub. split.
  - intros n Hn. simpl. rewrite Htab. by apply Hr.
  - apply Forall_forall. intros s Hs. rewrite Forall_forall in Hf. apply Hf, Hsub, Hs.
Qed.

Lemma flush_fixed e : fixed_ok e → fixed_ok (io_uring_flush e).2.
Proof.
  intros Hok. unfold io_uring_flush. destruct (_ =? 0); [done|].
  destruct (ring_submit _) as [ret ring] eqn:E. apply ring_submit_law in E as (_ & Htab & sent & Hp & Hr & _).
  assert (Hall : ∀ staged, fixed_ok (with_staged staged ring e)).
  { intros staged. apply fixed_fewer; [done|done|]. unfold reads_of. intros s. rewrite Hp, Hr, !elem_of_app. tauto. }
  destruct (ret <? 0); [destruct (submit_can_defer _); apply Hall|]. simpl. destruct (_ >? _); apply Hall.
Qed.

Lemma wait_fixed most mode e : fixed_ok e → fixed_ok (io_uring_wait most mode e).2.
Proof.
  intros Hok. unfold io_uring_wait.
  destruct (match mode with Block => wait_cqe (iu_ring e) | NonBlocking => (0, iu_ring e) end) as [ret ring] eqn:Hw.
  assert (Hsame : prepared ring = prepared (iu_ring e) ∧ in_ring ring = in_ring (iu_ring e) ∧
    ∀ i, ring_table ring i = ring_table (iu_ring e) i).
  { destruct mode; [by injection Hw as <- <-|]. apply wait_cqe_law in Hw as (_ & ? & ? & ?). done. }
  destruct Hsame as (Hp & Hr & Htab). destruct (_ && _); simpl.
  - apply fixed_fewer; [done|done|]. unfold reads_of. by rewrite Hp, Hr.
  - set (taken := Nat.min _ _). assert (Hle : (taken <= length (cqes ring))%nat) by lia.
    destruct (advance_law taken ring Hle) as (_ & Hp' & Htab' & _ & got & Hgot & _).
    apply fixed_fewer; [done|intros i; by rewrite Htab'|].
    unfold reads_of. intros s. rewrite Hp', Hp, <- Hr, Hgot, !elem_of_app. tauto.
Qed.

(** One call of the engine's caller, who keeps to its promise. *)
Inductive uring_step : IoUring → IoUring → Prop :=
| step_stage r e code e' : honest (sr_registration r) → io_uring_stage r e = (code, e') → uring_step e e'
| step_flush e : uring_step e (io_uring_flush e).2
| step_wait most mode e : uring_step e (io_uring_wait most mode e).2.

Lemma steps_fixed e e' : rtc uring_step e e' → fixed_ok e → fixed_ok e'.
Proof.
  induction 1 as [|e1 e2 e3 Hstep _ IH]; intros Hok; [done|]. apply IH.
  destruct Hstep; [by eapply stage_fixed|by apply flush_fixed|by apply wait_fixed].
Qed.

(** A read through the table of registered buffers lands inside the memory registered under its index.
    From the engine's construction on, whatever the ring answers, every read prepared or with the kernel is
    an ordinary one or names a slot of the table that holds a region its buffer is inside of: no read
    can fail because of its registration.  The caller's part is that one id always means the same memory. *)
Theorem fixed_reads_land_in_their_region init register_buffers probed depth blk default most e0 e :
  make_io_uring init register_buffers probed depth blk default most = Ret e0 → reads_of e0 = [] →
  rtc uring_step e0 e →
  Forall (λ s, sqe_index s = -1 ∨
    0 <= sqe_index s < MaxRegisteredRegions ∧
    ∃ region, ring_table (iu_ring e) (sqe_index s) = Some region ∧ inside region (sqe_read s)) (reads_of e).
Proof.
  intros Hmake Hnone Hsteps. apply steps_fixed in Hsteps as [Hr Hf].
  - eapply Forall_impl; [exact Hf|]. intros s [?|(n & -> & Hn & Hin)]; [by left|]. right.
    destruct (Hr n Hn) as (_ & Htab & Hmax). split; [lia|]. by exists (memory n).
  - split; [|rewrite Hnone; constructor]. intros n. unfold make_io_uring in Hmake. destruct (init depth) as [ret ring].
    destruct (ret <? 0); [done|]. injection Hmake as <-. unfold held. simpl. by rewrite lookup_nil.
Qed.
End Laws.

(** ** A ring: four entries, reads in full and in order, and a limit on the memory of one region *)

Record SmallRing := mkSmallRing {
  ri_prepared : list Sqe; ri_reads : list Sqe; ri_table : Z → option (Z * Z) }.

Definition ri_entries : nat := 4.

#[export] Instance small_ring : Ring SmallRing := {
  ring_entries _ := Z.of_nat ri_entries;
  push_sqe s r :=
    if Nat.ltb (length (ri_prepared r)) ri_entries then
      Some (mkSmallRing (ri_prepared r ++ [s]) (ri_reads r) (ri_table r))
    else None;
  register_sparse n r := (0, mkSmallRing (ri_prepared r) (ri_reads r) (λ _, None));
  register_update id region r :=
    if snd region >? 65536 then (-12, r)
    else (1, mkSmallRing (ri_prepared r) (ri_reads r) (λ i, if i =? id then Some region else ri_table r i));
  ring_submit r :=
    let sent := take ri_entries (ri_prepared r) in (Z.of_nat (length sent), mkSmallRing [] (ri_reads r ++ sent) (ri_table r));
  wait_cqe r := (0, r);
  cqes r := map (λ s, mkCompletion (sr_id (sqe_read s)) (sr_bytesize (sqe_read s))) (ri_reads r);
  cq_advance n r := mkSmallRing (ri_prepared r) (drop n (ri_reads r)) (ri_table r);
  prepared r := take ri_entries (ri_prepared r);
  in_ring := ri_reads;
  ring_table := ri_table;
  ring_patience _ := 0%nat }.

#[export] Instance small_ring_laws : RingLaws SmallRing.
Proof.
  split; cbn [ring_entries push_sqe register_sparse register_update ring_submit wait_cqe cqes cq_advance prepared in_ring
    ring_table ring_patience small_ring].
  - intros r. rewrite length_take. unfold ri_entries. mlia.
  - intros s r r' E. destruct (Nat.ltb_spec (length (ri_prepared r)) ri_entries); [|done]. injection E as <-. simpl ri_prepared.
    rewrite !take_ge by (rewrite ?length_app; simpl; lia). done.
  - intros n r ret r' [= <- <-]. done.
  - intros id region r ret r' E. destruct (_ >? _); by injection E as <- <-.
  - intros r ret r' [= <- <-]. split; [done|]. split; [done|]. exists (take ri_entries (ri_prepared r)).
    split; [by simpl; rewrite app_nil_r|]. split; [done|]. by rewrite (proj2 (Z.ltb_ge _ 0)) by lia.
  - intros r ret r' [= <- <-]. done.
  - intros n r _. do 4 (split; [done|]). exists (take n (ri_reads r)). split; [simpl; by rewrite take_drop|].
    change (map ?f) with (fmap (M := list) f). rewrite <- fmap_take. apply Forall2_fmap_l, Forall_Forall2_diag, Forall_true.
    intros s. split; simpl; [done|lia].
  - intros r ret r' [= <- <-] Hne _. split; [done|]. left. intros H%fmap_nil_inv. done.
Qed.

Definition slab (base bytesize id : Z) : Registration := mkRegistration base bytesize id.

Definition two_slabs (n : nat) : Z * Z := nth n [(65536, 65536); (1048576, 1048576)] (0, 0).

Definition a_ring_run : IoUring :=
  let e0 := mkIoUring [] 0 false true 0 (mkSmallRing [] [] (λ _, None)) (mkLimits 1048576 4096 4096) 4 in
  let e1 := (io_uring_stage (mkRead 1 (mkFileRef 5 true) 0 4096 65536 (slab 65536 65536 0)) e0).2 in
  let e2 := (io_uring_stage (mkRead 2 (mkFileRef 5 true) 4096 4096 1048576 (slab 1048576 1048576 1)) e1).2 in
  (io_uring_stage (mkRead 3 (mkFileRef 6 false) 0 4096 69632 (slab 65536 65536 0)) e2).2.

(** The second slab is refused, and read the ordinary way. *)
Example one_slab_is_registered :
  map sqe_index (reads_of a_ring_run) = [0; -1; 0] ∧ map sqe_async (reads_of a_ring_run) = [false; false; true] ∧
  registered_regions a_ring_run = 1%nat ∧ refused_regions a_ring_run = 1%nat.
Proof. vm_compute. done. Qed.

Lemma io_uring_refines_io_engine_witness : EngineLaws (UringEngine (R := SmallRing)).
Proof. apply (io_uring_refines_io_engine (R := SmallRing)). Defined.

Lemma fixed_reads_land_in_their_region_witness :
  Forall (λ s, sqe_index s = -1 ∨
    0 <= sqe_index s < MaxRegisteredRegions ∧
    ∃ region, ring_table (iu_ring a_ring_run) (sqe_index s) = Some region ∧ inside region (sqe_read s))
    (reads_of a_ring_run).
Proof.
  apply (fixed_reads_land_in_their_region two_slabs (λ _, (0, mkSmallRing [] [] (λ _, None))) true true 4 4096 4096 1048576
    (mkIoUring [] 0 false true 0 (mkSmallRing [] [] (λ _, None)) (mkLimits 1048576 4096 4096) 4)); [reflexivity|reflexivity|].
  unfold a_ring_run. do 3 (eapply rtc_r; [|eapply step_stage; [|apply surjective_pairing]; intros _; by split]).
  apply rtc_refl.
Defined.
