(* ===== verification/EngineFactory.v ===== *)
(** What this host can do (posix_io/io_uring_probe, posix_io/libaio_probe) and the engine a strategy is served
    by (posix_io/engine_factory).

    The probes are process-wide, each behind its own mutex: their operations are critical sections and every
    interleaving of them is a sequence of the calls.  What the kernel answers to a probe is an argument. *)

From S2P Require Import Prelude ResponseCode CompletionMapper Strategy IoEngine LibaioEngine UringEngine.

Definition EPERM : Z := 1.
Definition EACCES : Z := 13.

(** ** The io_uring probe *)

Record IoUringCapability := mkRingCap {
  rc_available : bool; rc_error : ResponseCode; rc_timed_wait_is_free : bool; rc_fixed_buffers : bool }.

(** The answers to one probe: io_uring_queue_init, IORING_FEAT_EXT_ARG, whether IORING_OP_READ and
    IORING_OP_READ_FIXED are supported ([None] when there is no io_uring_probe), and the two registration calls. *)
Record RingHost := mkRingHost {
  rh_init : Z; rh_ext_arg : bool; rh_ops : option (bool * bool); rh_sparse : Z; rh_update : Z }.

Definition io_uring_reason (error : Z) : ResponseCode :=
  if (error =? EPERM) || (error =? EACCES) then FileAccessError else UnknownError.

Definition trial_registration (h : RingHost) : bool := if rh_sparse h <? 0 then false else negb (rh_update h <? 0).

Definition probe_io_uring (h : RingHost) : IoUringCapability :=
  if rh_init h <? 0 then mkRingCap false (io_uring_reason (- rh_init h)) false false
  else
    let free := rh_ext_arg h in
    let op_read := match rh_ops h with Some (r, _) => r | None => false end in
    let op_read_fixed := match rh_ops h with Some (_, f) => f | None => false end in
    let fixed := if op_read && free then op_read_fixed && trial_registration h else false in
    if negb op_read then mkRingCap false UnknownError free fixed
    else if negb free then mkRingCap false UnknownError free fixed
    else mkRingCap true Success free fixed.

Record IoUringProbe := mkRingProbe { rp_probed : bool; rp_capability : IoUringCapability }.

Definition new_ring_probe : IoUringProbe := mkRingProbe false (mkRingCap false Success false false).

Definition ring_capability (h : RingHost) (p : IoUringProbe) : IoUringCapability * IoUringProbe :=
  let p := if negb (rp_probed p) then mkRingProbe true (probe_io_uring h) else p in
  (rp_capability p, p).

Definition ring_mark_unavailable (reason : ResponseCode) (p : IoUringProbe) : IoUringProbe :=
  if rp_probed p && negb (rc_available (rp_capability p)) then p
  else mkRingProbe true (mkRingCap false reason (rc_timed_wait_is_free (rp_capability p)) false).

(** ** The libaio probe *)

Record LibaioCapability := mkAioCap { ac_available : bool; ac_error : ResponseCode }.

Definition libaio_reason (error : Z) : ResponseCode := if error =? EAGAIN then FileAccessError else UnknownError.

(** [setup] is what io_setup answers; what io_destroy answers is only logged. *)
Definition probe_libaio (setup : Z) : LibaioCapability :=
  if setup <? 0 then mkAioCap false (libaio_reason (- setup)) else mkAioCap true Success.

Record LibaioProbe := mkAioProbe { ap_probed : bool; ap_capability : LibaioCapability }.

Definition new_aio_probe : LibaioProbe := mkAioProbe false (mkAioCap false Success).

Definition aio_capability (setup : Z) (p : LibaioProbe) : LibaioCapability * LibaioProbe :=
  let p := if negb (ap_probed p) then mkAioProbe true (probe_libaio setup) else p in
  (ap_capability p, p).

Definition aio_mark_unavailable (reason : ResponseCode) (p : LibaioProbe) : LibaioProbe :=
  if ap_probed p && negb (ac_available (ap_capability p)) then p
  else mkAioProbe true (mkAioCap false reason).

(** ** Both, with what the kernel would answer now *)

Record Host := mkHost { h_ring : RingHost; h_aio : Z }.
Record Probes := mkProbes { pr_ring : IoUringProbe; pr_aio : LibaioProbe }.

Definition new_probes : Probes := mkProbes new_ring_probe new_aio_probe.

(** Why a strategy cannot serve here, or Success (strategy_resolver). *)
Definition availability_of (h : Host) (s : Strategy) (p : Probes) : ResponseCode * Probes :=
  match s with
  | SyncBuffered => (Success, p)
  | IoUringBuffered | IoUringDirect =>
      let '(c, ring) := ring_capability (h_ring h) (pr_ring p) in (rc_error c, mkProbes ring (pr_aio p))
  | LibaioDirect =>
      let '(c, aio) := aio_capability (h_aio h) (pr_aio p) in (ac_error c, mkProbes (pr_ring p) aio)
  end.

(** ** The engines *)

Record AsyncIoConfig := mkIoConfig {
  ic_depth : Z; ic_chunk_bytesize : Z; ic_direct_block : Z; ic_register_buffers : bool }.

Section Factory.
Context {R K : Type} `{!Ring R, !AioKernel K}.

Inductive Engine := RingBacked (e : IoUring (R := R)) | AioBacked (e : Libaio (K := K)).

(** What the kernel answers when an engine is built: io_uring_queue_init_params, the attempts of io_setup, and
    the context it sets up. *)
Context (init : Z → Z * R) (io_setup : nat → Z → Z) (kernel : K) (default_block most : Z).

Definition build_io_uring (h : Host) (config : AsyncIoConfig) (p : Probes) : outcome Engine * Probes :=
  let '(fixed, ring) :=
    if ic_register_buffers config then
      let '(c, ring) := ring_capability (h_ring h) (pr_ring p) in (rc_fixed_buffers c, ring)
    else (false, pr_ring p) in
  (let! e := make_io_uring init (ic_register_buffers config) fixed (ic_depth config) (ic_direct_block config)
                           default_block most in Ret (RingBacked e),
   mkProbes ring (pr_aio p)).

Definition make_io_uring_engine (h : Host) (config : AsyncIoConfig) (p : Probes) : outcome (option Engine) * Probes :=
  let '(c, ring) := ring_capability (h_ring h) (pr_ring p) in
  let p := mkProbes ring (pr_aio p) in
  if negb (rc_available c) then (Ret None, p)
  else
    let '(r, p) := build_io_uring h config p in
    match r with
    | Ret e => (Ret (Some e), p)
    | Throw (Code reason) => (Ret None, mkProbes (ring_mark_unavailable reason (pr_ring p)) (pr_aio p))
    | Throw e => (Throw e, p)
    end.

Definition make_libaio_engine (h : Host) (config : AsyncIoConfig) (p : Probes) : outcome (option Engine) * Probes :=
  let '(c, aio) := aio_capability (h_aio h) (pr_aio p) in
  let p := mkProbes (pr_ring p) aio in
  if negb (ac_available c) then (Ret None, p)
  else
    match make_libaio io_setup (ic_depth config) (ic_direct_block config) default_block most kernel with
    | Ret e => (Ret (Some (AioBacked e)), p)
    | Throw (Code reason) => (Ret None, mkProbes (pr_ring p) (aio_mark_unavailable reason (pr_aio p)))
    | Throw e => (Throw e, p)
    end.

Definition make_io_engine (h : Host) (s : Strategy) (config : AsyncIoConfig) (p : Probes) :
    outcome (option Engine) * Probes :=
  if negb (is_async s) then (Throw AssertFailed, p)
  else
    match s with
    | IoUringDirect | IoUringBuffered => make_io_uring_engine h config p
    | LibaioDirect => make_libaio_engine h config p
    | SyncBuffered => (Ret None, p)
    end.
End Factory.

(** ** The probes over the life of the process *)

(** One critical section of either probe, by any thread. *)
Inductive probe_step : Probes → Probes → Prop :=
| ask_ring h p : probe_step p (mkProbes (ring_capability h (pr_ring p)).2 (pr_aio p))
| ask_aio h p : probe_step p (mkProbes (pr_ring p) (aio_capability h (pr_aio p)).2)
| demote_ring reason p : reason ≠ Success → probe_step p (mkProbes (ring_mark_unavailable reason (pr_ring p)) (pr_aio p))
| demote_aio reason p : reason ≠ Success → probe_step p (mkProbes (pr_ring p) (aio_mark_unavailable reason (pr_aio p))).

(** The two fields a capability is read through agree, and fixed buffers describe a ring that exists. *)
Definition ring_cap_ok (c : IoUringCapability) : Prop :=
  (rc_available c = true ↔ rc_error c = Success) ∧
  (rc_available c = true → rc_timed_wait_is_free c = true) ∧ (rc_fixed_buffers c = true → rc_available c = true).
Definition aio_cap_ok (c : LibaioCapability) : Prop := ac_available c = true ↔ ac_error c = Success.

Record probes_ok (p : Probes) : Prop := {
  ring_ok : rp_probed (pr_ring p) = true → ring_cap_ok (rp_capability (pr_ring p));
  aio_ok : ap_probed (pr_aio p) = true → aio_cap_ok (ap_capability (pr_aio p)) }.

Definition ring_gone (p : Probes) : Prop := rp_probed (pr_ring p) = true ∧ rc_available (rp_capability (pr_ring p)) = false.
Definition aio_gone (p : Probes) : Prop := ap_probed (pr_aio p) = true ∧ ac_available (ap_capability (pr_aio p)) = false.

Lemma probe_io_uring_ok h : ring_cap_ok (probe_io_uring h).
Proof.
  unfold ring_cap_ok, probe_io_uring, io_uring_reason. destruct (rh_init h <? 0); simpl; [by case_match|].
  destruct (rh_ops h) as [[[] []]|], (rh_ext_arg h); simpl; try by split_and!.
Qed.

Lemma probe_libaio_ok h : aio_cap_ok (probe_libaio h).
Proof. unfold aio_cap_ok, probe_libaio, libaio_reason. by repeat case_match. Qed.

Lemma ring_capability_ok h p : (rp_probed p = true → ring_cap_ok (rp_capability p)) →
  ring_cap_ok (ring_capability h p).1 ∧ rp_capability (ring_capability h p).2 = (ring_capability h p).1 ∧
  rp_probed (ring_capability h p).2 = true.
Proof.
  unfold ring_capability. destruct (rp_probed p) eqn:E; simpl; intros H; [by auto|].
  split; [apply probe_io_uring_ok|done].
Qed.

Lemma aio_capability_ok h p : (ap_probed p = true → aio_cap_ok (ap_capability p)) →
  aio_cap_ok (aio_capability h p).1 ∧ ap_capability (aio_capability h p).2 = (aio_capability h p).1 ∧
  ap_probed (aio_capability h p).2 = true.
Proof.
  unfold aio_capability. destruct (ap_probed p) eqn:E; simpl; intros H; [by auto|].
  split; [apply probe_libaio_ok|done].
Qed.

Lemma ring_mark_ok reason p : reason ≠ Success → (rp_probed p = true → ring_cap_ok (rp_capability p)) →
  ring_cap_ok (rp_capability (ring_mark_unavailable reason p)) ∧
  rp_probed (ring_mark_unavailable reason p) = true ∧
  rc_available (rp_capability (ring_mark_unavailable reason p)) = false.
Proof.
  unfold ring_mark_unavailable. intros Hr H. destruct (rp_probed p) eqn:E, (rc_available (rp_capability p)) eqn:Ea; simpl;
    try (split_and!; [|done|done]; by split_and!). split_and!; auto.
Qed.

Lemma aio_mark_ok reason p : reason ≠ Success → (ap_probed p = true → aio_cap_ok (ap_capability p)) →
  aio_cap_ok (ap_capability (aio_mark_unavailable reason p)) ∧
  ap_probed (aio_mark_unavailable reason p) = true ∧
  ac_available (ap_capability (aio_mark_unavailable reason p)) = false.
Proof.
  unfold aio_mark_unavailable. intros Hr H. destruct (ap_probed p) eqn:E, (ac_available (ap_capability p)) eqn:Ea; simpl;
    try (split_and!; [|done|done]; by split_and!). split_and!; auto.
Qed.

Lemma probe_step_ok p p' : probe_step p p' → probes_ok p → probes_ok p'.
Proof.
  intros H [Hr Ha]. destruct H as [h p|h p|reason p Hn|reason p Hn]; constructor; simpl; auto; intros _.
  - destruct (ring_capability_ok h (pr_ring p) Hr) as (Hok & Hc & _). by rewrite <- Hc in Hok.
  - destruct (aio_capability_ok h (pr_aio p) Ha) as (Hok & Hc & _). by rewrite <- Hc in Hok.
  - by apply ring_mark_ok.
  - by apply aio_mark_ok.
Qed.

Lemma probes_reach_ok p p' : rtc probe_step p p' → probes_ok p → probes_ok p'.
Proof. induction 1; eauto using probe_step_ok. Qed.

Lemma new_probes_ok : probes_ok new_probes.
Proof. by constructor. Qed.

(** Settled answers only ever get worse. *)
Lemma probe_step_settled p p' : probe_step p p' →
  (rp_probed (pr_ring p) = true → rp_probed (pr_ring p') = true ∧
     (rc_available (rp_capability (pr_ring p')) = true → pr_ring p' = pr_ring p)) ∧
  (ap_probed (pr_aio p) = true → ap_probed (pr_aio p') = true ∧
     (ac_available (ap_capability (pr_aio p')) = true → pr_aio p' = pr_aio p)) ∧
  (ring_gone p → pr_ring p' = pr_ring p) ∧ (aio_gone p → pr_aio p' = pr_aio p).
Proof.
  unfold ring_gone, aio_gone. intros H. destruct H as [h p|h p|reason p Hn|reason p Hn]; simpl.
  - unfold ring_capability. destruct (rp_probed (pr_ring p)) eqn:Ed; simpl; intuition congruence.
  - unfold aio_capability. destruct (ap_probed (pr_aio p)) eqn:Ed; simpl; intuition congruence.
  - unfold ring_mark_unavailable.
    destruct (rp_probed _) eqn:Ed, (rc_available _) eqn:Ea; simpl; intuition (try congruence).
  - unfold aio_mark_unavailable.
    destruct (ap_probed _) eqn:Ed, (ac_available _) eqn:Ea; simpl; intuition (try congruence).
Qed.

Lemma ring_stays_gone p p' : rtc probe_step p p' → ring_gone p → pr_ring p' = pr_ring p.
Proof.
  induction 1 as [|p q p' Hs _ IH]; [done|]. intros Hg. apply probe_step_settled in Hs as (_ & _ & Hs & _).
  specialize (Hs Hg). rewrite IH; [done|]. unfold ring_gone in *. by rewrite Hs.
Qed.

Lemma aio_stays_gone p p' : rtc probe_step p p' → aio_gone p → pr_aio p' = pr_aio p.
Proof.
  induction 1 as [|p q p' Hs _ IH]; [done|]. intros Hg. apply probe_step_settled in Hs as (_ & _ & _ & Hs).
  specialize (Hs Hg). rewrite IH; [done|]. unfold aio_gone in *. by rewrite Hs.
Qed.

(** What a strategy needs is gone for good. *)
Definition gone (s : Strategy) (p : Probes) : Prop :=
  match s with IoUringBuffered | IoUringDirect => ring_gone p | LibaioDirect => aio_gone p | SyncBuffered => False end.

Lemma gone_unavailable s p p' h : probes_ok p → gone s p → rtc probe_step p p' → (availability_of h s p').1 ≠ Success.
Proof.
  intros Hp Hg Hs.
  assert (Hr : ring_gone p → rc_error (rp_capability (pr_ring p)) ≠ Success).
  { intros [Hd Ha]. destruct (ring_ok p Hp Hd) as [Hok _]. intros E. apply Hok in E. congruence. }
  assert (Ha : aio_gone p → ac_error (ap_capability (pr_aio p)) ≠ Success).
  { intros [Hd Ha]. pose proof (aio_ok p Hp Hd) as Hok. intros E. apply Hok in E. congruence. }
  destruct s; simpl in *; try done.
  - rewrite (ring_stays_gone p p') by done. unfold ring_capability. rewrite (proj1 Hg). by apply Hr.
  - rewrite (ring_stays_gone p p') by done. unfold ring_capability. rewrite (proj1 Hg). by apply Hr.
  - rewrite (aio_stays_gone p p') by done. unfold aio_capability. rewrite (proj1 Hg). by apply Ha.
Qed.

(** ** What the factory answers *)

Section FactoryLemmas.
Context {R K : Type} `{!Ring R, !AioKernel K}.
Context (init : Z → Z * R) (io_setup : nat → Z → Z) (kernel : K) (default_block most : Z).

Lemma make_io_uring_throws register probed depth blk e :
  make_io_uring init register probed depth blk default_block most = Throw e → e = Code UnknownError.
Proof. unfold make_io_uring. destruct (init depth). by case_match; intros [= <-]. Qed.

Lemma make_libaio_throws depth blk e :
  make_libaio io_setup depth blk default_block most kernel = Throw e → e = Code UnknownError.
Proof.
  assert (Hl : ∀ fuel i events, setup_loop fuel i io_setup events = Throw e → e = Code UnknownError).
  { induction fuel as [|fuel IH]; intros i events; cbn [setup_loop]; [by intros [= <-]|].
    destruct (events >=? 1); [|by intros [= <-]]. cbv zeta. destruct (io_setup i _ =? 0); [done|].
    destruct (negb _); [by intros [= <-]|apply IH]. }
  unfold make_libaio, setup_context. destruct (depth =? 0); [by intros [= <-]|].
  destruct (setup_loop _ _ _ _) eqn:E; cbn [obind]; [done|]. intros [= <-]. by apply Hl in E.
Qed.

(** An engine, or none and then what it needs is gone. *)
Lemma make_io_uring_engine_spec h config p r p' : probes_ok p →
  make_io_uring_engine (K := K) init default_block most h config p = (r, p') →
  probes_ok p' ∧ ((∃ e, r = Ret (Some e)) ∨ (r = Ret None ∧ ring_gone p')).
Proof.
  intros [Hr Ha]. unfold make_io_uring_engine, build_io_uring.
  destruct (ring_capability_ok (h_ring h) (pr_ring p) Hr) as (Hc & Hcap & Hd).
  destruct (ring_capability (h_ring h) (pr_ring p)) as [c ring] eqn:E. simpl in *. subst c.
  destruct (rc_available (rp_capability ring)) eqn:Eav; simpl.
  2: { intros [= <- <-]. split; [by constructor|]. right. by split; [|split]. }
  destruct (if ic_register_buffers config then _ else _) as [fixed ring'] eqn:Ef.
  assert (ring' = ring) as ->.
  { unfold ring_capability in Ef. rewrite Hd in Ef. by destruct (ic_register_buffers config); injection Ef. }
  destruct (make_io_uring _ _ _ _ _ _ _) as [e|x] eqn:Em; simpl.
  - intros [= <- <-]. split; [by constructor|]. eauto.
  - apply make_io_uring_throws in Em as ->. intros [= <- <-].
    destruct (ring_mark_ok UnknownError ring) as (? & ? & ?); [done|done|].
    split; [by constructor|]. right. by split; [|split].
Qed.

Lemma make_libaio_engine_spec h config p r p' : probes_ok p →
  make_libaio_engine (R := R) io_setup kernel default_block most h config p = (r, p') →
  probes_ok p' ∧ ((∃ e, r = Ret (Some e)) ∨ (r = Ret None ∧ aio_gone p')).
Proof.
  intros [Hr Ha]. unfold make_libaio_engine.
  destruct (aio_capability_ok (h_aio h) (pr_aio p) Ha) as (Hc & Hcap & Hd).
  destruct (aio_capability (h_aio h) (pr_aio p)) as [c aio] eqn:E. simpl in *. subst c.
  destruct (ac_available (ap_capability aio)) eqn:Eav; simpl.
  2: { intros [= <- <-]. split; [by constructor|]. right. by split; [|split]. }
  destruct (make_libaio _ _ _ _ _ _) as [e|x] eqn:Em.
  - intros [= <- <-]. split; [by constructor|]. eauto.
  - apply make_libaio_throws in Em as ->. intros [= <- <-].
    destruct (aio_mark_ok UnknownError aio) as (? & ? & ?); [done|done|].
    split; [by constructor|]. right. by split; [|split].
Qed.

Lemma make_io_engine_spec h s config p r p' : probes_ok p → is_async s = true →
  make_io_engine init io_setup kernel default_block most h s config p = (r, p') →
  probes_ok p' ∧ ((∃ e, r = Ret (Some e)) ∨ (r = Ret None ∧ gone s p')).
Proof.
  intros Hp Hs H. destruct s; [| | |done].
  - by apply make_io_uring_engine_spec in H.
  - by apply make_io_uring_engine_spec in H.
  - by apply make_libaio_engine_spec in H.
Qed.
End FactoryLemmas.

(** ** Properties *)

(** Whether a strategy has been asked about, so that its answer is settled but for a demotion. *)
Definition settled_for (s : Strategy) (p : Probes) : Prop :=
  match s with
  | IoUringBuffered | IoUringDirect => rp_probed (pr_ring p) = true
  | LibaioDirect => ap_probed (pr_aio p) = true
  | SyncBuffered => True
  end.

Definition reason_of (s : Strategy) (p : Probes) : ResponseCode :=
  match s with
  | IoUringBuffered | IoUringDirect => rc_error (rp_capability (pr_ring p))
  | LibaioDirect => ac_error (ap_capability (pr_aio p))
  | SyncBuffered => Success
  end.

(** A settled question is not asked of the kernel again. *)
Lemma availability_settled h s p : settled_for s p → availability_of h s p = (reason_of s p, p).
Proof.
  destruct s, p as [ring aio]; simpl; unfold ring_capability, aio_capability; [intros Hd; rewrite Hd..|]; done.
Qed.

Lemma availability_step h s p : (availability_of h s p).2 = p ∨ probe_step p (availability_of h s p).2.
Proof.
  assert (Hring : probe_step p (let '(c, ring) := ring_capability (h_ring h) (pr_ring p) in
                                (rc_error c, mkProbes ring (pr_aio p))).2).
  { pose proof (ask_ring (h_ring h) p) as Hs. destruct (ring_capability _ _) as [c ring]. exact Hs. }
  destruct s; [by right|by right| |by left]. right. exact (ask_aio (h_aio h) p).
Qed.

Lemma settled_step s p p' : probe_step p p' → probes_ok p → settled_for s p →
  settled_for s p' ∧ (reason_of s p' = Success → reason_of s p = Success).
Proof.
  intros H Hp Hs. apply probe_step_settled in H as H'. destruct H' as (Hr & Ha & _ & _).
  apply (probe_step_ok _ _ H) in Hp.
  assert (Hring : rp_probed (pr_ring p) = true → rp_probed (pr_ring p') = true ∧
    (rc_error (rp_capability (pr_ring p')) = Success → rc_error (rp_capability (pr_ring p)) = Success)).
  { intros Hd. destruct (Hr Hd) as [Hd' Hk]. split; [done|]. destruct (ring_ok _ Hp Hd') as [Hav _].
    intros E. pose proof (Hk (proj2 Hav E)) as Heq. by rewrite Heq in E. }
  destruct s; simpl in *; [by apply Hring|by apply Hring| |done].
  destruct (Ha Hs) as [Hd' Hk]. split; [done|]. pose proof (aio_ok _ Hp Hd') as Hav.
  intros E. pose proof (Hk (proj2 Hav E)) as Heq. rewrite Heq in E. done.
Qed.

(** What the host can do never flaps: whatever the threads of the process ask and demote in between, a
    strategy that was asked about and is served later was served all along, one that could not be served
    never is again, and what the probes say of availability and of the reason always agrees, fixed buffers
    being offered only with a ring that is. *)
Theorem host_support_never_flaps s p p' h h' : rtc probe_step new_probes p → rtc probe_step p p' →
  probes_ok p' ∧
  (settled_for s p → (availability_of h' s p').1 = Success → (availability_of h s p).1 = Success) ∧
  (settled_for s p → (availability_of h s p).1 ≠ Success → (availability_of h' s p').1 ≠ Success).
Proof.
  intros H0 H. assert (Hp : probes_ok p) by eauto using probes_reach_ok, new_probes_ok.
  assert (Hback : settled_for s p → (availability_of h' s p').1 = Success → (availability_of h s p).1 = Success).
  { clear H0. intros Hd. rewrite (availability_settled h s p Hd). simpl.
    induction H as [p|p q p' Hs Hr IH]; [by rewrite availability_settled|]. intros E.
    destruct (settled_step s p q Hs Hp Hd) as [Hd' Hk]. apply Hk, IH; [by eapply probe_step_ok|done..]. }
  split_and!; [by eapply probes_reach_ok|done|]. intros Hd Hn E. by apply Hn, Hback.
Qed.

Definition seccomp : Host := mkHost (mkRingHost (- 1) false None 0 0) 0.
Definition willing : Host := mkHost (mkRingHost 0 true (Some (true, true)) 0 1) 0.

(** A host that refuses the ring once is not asked again. *)
Lemma host_support_never_flaps_witness :
  let p := (availability_of seccomp IoUringDirect new_probes).2 in
  (availability_of seccomp IoUringDirect p).1 = FileAccessError ∧ (availability_of willing IoUringDirect p).1 ≠ Success.
Proof.
  split; [done|].
  apply (host_support_never_flaps IoUringDirect (availability_of seccomp IoUringDirect new_probes).2 (availability_of seccomp IoUringDirect new_probes).2 seccomp willing).
  - apply rtc_once, (ask_ring (h_ring seccomp)).
  - apply rtc_refl.
  - done.
  - done.
Defined.

(** A strategy that can be chosen can be built, or is never chosen again: when the host said it serves a
    strategy, then, whatever other threads ask and demote meanwhile, building its engine gives an engine, or
    gives none and no later question is answered Success.  The factory never throws. *)
Theorem chosen_strategy_is_built_or_dropped {R K : Type} `{!Ring R, !AioKernel K}
    (init : Z → Z * R) (io_setup : nat → Z → Z) (kernel : K) default_block most h h' s config p p' r p'' :
  rtc probe_step new_probes p → is_async s = true → (availability_of h s p).1 = Success →
  rtc probe_step (availability_of h s p).2 p' →
  make_io_engine init io_setup kernel default_block most h' s config p' = (r, p'') →
  (∃ e, r = Ret (Some e)) ∨
  (r = Ret None ∧ ∀ later host, rtc probe_step p'' later → (availability_of host s later).1 ≠ Success).
Proof.
  intros H0 Hs Hav H Hm. assert (Hp : probes_ok p) by eauto using probes_reach_ok, new_probes_ok.
  assert (Hp' : probes_ok p').
  { apply (probes_reach_ok _ _ H).
    by destruct (availability_step h s p) as [->|Hst]; [|eapply probe_step_ok]. }
  destruct (make_io_engine_spec init io_setup kernel default_block most h' s config p' r p'') as (Hok & [He|[-> Hg]]); auto.
  right. split; [done|]. intros later host Hl. by eapply gone_unavailable.
Qed.

Definition no_memory (depth : Z) : Z * SmallRing := (- 12, mkSmallRing [] [] (λ _, None)).
Definition asked : Probes := (availability_of willing IoUringDirect new_probes).2.
Definition built : outcome (option Engine) * Probes :=
  make_io_engine no_memory (λ _ _, 0) (mkSmallAio 4 []) 4096 1048576 willing IoUringDirect (mkIoConfig 64 8388608 0 true) asked.

(** A ring that does not fit takes io_uring out for good. *)
Lemma chosen_strategy_is_built_or_dropped_witness :
  built.1 = Ret None ∧ (availability_of willing IoUringBuffered built.2).1 = UnknownError ∧
  (availability_of willing IoUringDirect built.2).1 ≠ Success.
Proof.
  split; [vm_compute; reflexivity|]. split; [vm_compute; reflexivity|].
  destruct (chosen_strategy_is_built_or_dropped no_memory (λ _ _, 0) (mkSmallAio 4 []) 4096 1048576 willing willing
              IoUringDirect (mkIoConfig 64 8388608 0 true) new_probes asked (Ret None) built.2) as [(e & He)|(_ & H)].
  - apply rtc_refl.
  - reflexivity.
  - reflexivity.
  - apply rtc_refl.
  - vm_compute. reflexivity.
  - discriminate He.
  - apply H, rtc_refl.
Defined.
