(* ===== verification/StagingPool.v ===== *)
(** Pinned host buffers on loan (streamer/impl/device_io/staging_pool): slabs are registered on demand, cut
    into aligned buffers, and every buffer is free, out, or retired for good.

    Each critical section is a function and [step] interleaves them: a slab is pinned with no lock held, so
    other threads may take, return and register in between.  Pinning is the driver's: a parameter. *)

From S2P Require Import Prelude ResponseCode Alignment InflightChunks.

#[export] Instance StagingBuffer_eq_dec : EqDecision StagingBuffer.
Proof. solve_decision. Defined.

Record Params := mkParams { buffer_bytesize : Z; slab_bytesize : Z; max_buffers : Z; alignment : Z }.

(** Sizes are settled once: the alignment a power of two and the buffer a multiple of it. *)
Definition normalised (p : Params) : outcome Params :=
  let a := Z.max (alignment p) 1 in
  ASSERT (Z.land a (a ⊖ 1) =? 0) ;;!
  Ret (mkParams (((buffer_bytesize p ⊕ a ⊖ 1) / a) ⊗ a) (slab_bytesize p) (max_buffers p) a).

Record SlabRecord := mkSlab { sl_base : Z; sl_bytesize : Z }.

(** [sp_out] and [sp_gone], the buffers taken and the buffers retired, are not in the code. *)
Record StagingPool := mkPool {
  sp_params : Params; sp_stopped : bool; sp_slabs : list SlabRecord; sp_buffers : list StagingBuffer;
  sp_free : list Z; sp_retired : Z; sp_retired_code : ResponseCode; sp_leaked : gset Z;
  sp_out : list StagingBuffer; sp_gone : list StagingBuffer }.

Definition new_pool (p : Params) : outcome StagingPool :=
  let! p := normalised p in Ret (mkPool p false [] [] [] 0 Success ∅ [] []).

Definition with_free (free : list Z) (out : list StagingBuffer) (p : StagingPool) : StagingPool :=
  mkPool (sp_params p) (sp_stopped p) (sp_slabs p) (sp_buffers p) free (sp_retired p) (sp_retired_code p)
         (sp_leaked p) out (sp_gone p).

Definition hand_out (p : StagingPool) : option StagingBuffer * StagingPool :=
  match sp_free p with
  | [] => (None, p)
  | i :: rest =>
      match sp_buffers p !! Z.to_nat i with
      | None => (None, p)
      | Some b => (Some b, with_free rest (b :: sp_out p) p)
      end
  end.

(** How many buffers the next slab yields, and its bytes. *)
Definition plan_slab (p : StagingPool) : Z * Z :=
  let q := sp_params p in
  let room := sub32 (max_buffers q) (wrap32 (Z.of_nat (length (sp_buffers p)))) in
  if room =? 0 then (0, 0)
  else if buffer_bytesize q =? 0 then (0, 0)
  else
    let whole := slab_bytesize q / buffer_bytesize q ⊕ (if slab_bytesize q mod buffer_bytesize q =? 0 then 0 else 1) in
    let per_slab := Z.max (wrap32 (Z.min whole room)) 1 in
    (per_slab, per_slab ⊗ buffer_bytesize q ⊕ alignment q ⊖ 1).

(** The first aligned address of a slab. *)
Definition first_aligned (base alignment : Z) : Z := base + wrap64 (- base) mod alignment.

Definition cut_buffer (q : Params) (first : Z) (index0 slab i : nat) : StagingBuffer :=
  mkStaging (first + Z.of_nat i * buffer_bytesize q) (buffer_bytesize q) (Z.of_nat (index0 + i)) (Z.of_nat slab).

(** The locked part of add_slab: a slab that would pass the ceiling is dropped. *)
Definition publish (base bytesize per_slab : Z) (p : StagingPool) : option StagingBuffer * StagingPool :=
  let q := sp_params p in
  let n := length (sp_buffers p) in
  let p :=
    if Z.of_nat n + per_slab <=? max_buffers q then
      let fresh := map (cut_buffer q (first_aligned base (alignment q)) n (length (sp_slabs p))) (seq 0 (Z.to_nat per_slab)) in
      mkPool q (sp_stopped p) (sp_slabs p ++ [mkSlab base bytesize]) (sp_buffers p ++ fresh)
             (sp_free p ++ map sb_index fresh) (sp_retired p) (sp_retired_code p) (sp_leaked p) (sp_out p) (sp_gone p)
    else p in
  hand_out p.

(** The locked part of try_acquire: an answer, or a slab to register. *)
Inductive Turn := Answer (code : ResponseCode) (b : StagingBuffer) | Grow (per_slab bytesize : Z) | Wait.

Definition acquire_turn (wait : bool) (p : StagingPool) : Turn * StagingPool :=
  if sp_stopped p then (Answer Success no_staging, p)
  else
    match hand_out p with
    | (Some b, p) => (Answer Success b, p)
    | (None, p) =>
        let '(per_slab, bytesize) := plan_slab p in
        if per_slab =? 0 then
          if bool_decide (sp_buffers p = []) then (Answer UnknownError no_staging, p)
          else if sp_retired p >=? Z.of_nat (length (sp_buffers p)) then (Answer (sp_retired_code p) no_staging, p)
          else if wait then (Wait, p) else (Answer Success no_staging, p)
        else (Grow per_slab bytesize, p)
    end.

Section Acquire.
Context {V : Type} (host_alloc : Z → V → ResponseCode * Z * V).

(** try_acquire of a thread nobody races with; the pool's one consumer, as the streamer uses it. *)
Definition try_acquire (p : StagingPool) (v : V) : ResponseCode * StagingBuffer * StagingPool * V :=
  match acquire_turn false p with
  | (Answer code b, p) => (code, b, p, v)
  | (Wait, p) => (Success, no_staging, p, v)
  | (Grow per_slab bytesize, p) =>
      let '(code, base, v) := host_alloc bytesize v in
      if negb (bool_decide (code = Success)) then (code, no_staging, p, v)
      else let '(b, p) := publish base bytesize per_slab p in (Success, default no_staging b, p, v)
  end.
End Acquire.

Fixpoint remove_one (b : StagingBuffer) (l : list StagingBuffer) : list StagingBuffer :=
  match l with [] => [] | x :: l => if decide (x = b) then l else x :: remove_one b l end.

Definition retire (b : StagingBuffer) (code : ResponseCode) (p : StagingPool) : StagingPool :=
  mkPool (sp_params p) (sp_stopped p) (sp_slabs p) (sp_buffers p) (sp_free p) (add32 (sp_retired p) 1)
         (if decide (sp_retired_code p = Success) then code else sp_retired_code p) ({[ sb_slab b ]} ∪ sp_leaked p)
         (remove_one b (sp_out p)) (b :: sp_gone p).

Definition pool_release (b : StagingBuffer) (p : StagingPool) : StagingPool :=
  if Nat.leb (length (sp_buffers p)) (length (sp_free p)) then p
  else with_free (sp_free p ++ [sb_index b]) (remove_one b (sp_out p)) p.

Definition pool_stop (p : StagingPool) : StagingPool :=
  mkPool (sp_params p) true (sp_slabs p) (sp_buffers p) (sp_free p) (sp_retired p) (sp_retired_code p) (sp_leaked p)
         (sp_out p) (sp_gone p).

Definition pool_slab_at (index : Z) (p : StagingPool) : option SlabRecord := sp_slabs p !! Z.to_nat index.

(** The destructor: the slabs it frees; one a retired buffer was cut from is leaked. *)
Definition freed (p : StagingPool) : list nat :=
  filter (λ i, Z.of_nat i ∉ sp_leaked p) (seq 0 (length (sp_slabs p))).

(** ** The invariant *)

(** Powers of two, sizes that do not overflow, and a ceiling an unsigned holds. *)
Record params_ok (q : Params) : Prop := {
  po_alignment : ∃ k, 0 <= k < 64 ∧ alignment q = 2 ^ k;
  po_bytesize : 0 <= buffer_bytesize q ∧ buffer_bytesize q mod alignment q = 0;
  po_ceiling : is_unsigned (max_buffers q);
  po_total : max_buffers q * buffer_bytesize q + alignment q < size_modulus }.

(** A buffer is cut from its slab, at an aligned address. *)
Definition buffer_ok (p : StagingPool) (i : nat) (b : StagingBuffer) : Prop :=
  sb_index b = Z.of_nat i ∧ sb_bytesize b = buffer_bytesize (sp_params p) ∧ 0 < sb_data b ∧
  sb_data b mod alignment (sp_params p) = 0 ∧ 0 <= sb_slab b ∧
  ∃ s, sp_slabs p !! Z.to_nat (sb_slab b) = Some s ∧ sl_base s <= sb_data b ∧
       sb_data b + sb_bytesize b <= sl_base s + sl_bytesize s.

Definition apart (b b' : StagingBuffer) : Prop :=
  sb_data b + sb_bytesize b <= sb_data b' ∨ sb_data b' + sb_bytesize b' <= sb_data b.

Record pool_ok (p : StagingPool) : Prop := {
  pk_params : params_ok (sp_params p);
  pk_ceiling : Z.of_nat (length (sp_buffers p)) <= max_buffers (sp_params p);
  pk_buffers : ∀ i b, sp_buffers p !! i = Some b → buffer_ok p i b;
  pk_apart : ∀ i j b b', sp_buffers p !! i = Some b → sp_buffers p !! j = Some b' → i ≠ j → apart b b';
  pk_known : Forall (λ b, sp_buffers p !! Z.to_nat (sb_index b) = Some b) (sp_out p ++ sp_gone p);
  pk_places : sp_free p ++ map sb_index (sp_out p) ++ map sb_index (sp_gone p) ≡ₚ map sb_index (sp_buffers p);
  pk_retired : sp_retired p = Z.of_nat (length (sp_gone p));
  pk_leaked : Forall (λ b, sb_slab b ∈ sp_leaked p) (sp_gone p);
  pk_code : sp_gone p ≠ [] → sp_retired_code p ≠ Success }.

(** A block the driver pins: not null, in the address space, and apart from every slab. *)
Definition fresh_block (base bytesize : Z) (p : StagingPool) : Prop :=
  0 < base ∧ base + bytesize <= size_modulus ∧
  Forall (λ s, sl_base s + sl_bytesize s <= base ∨ base + bytesize <= sl_base s) (sp_slabs p).

Lemma remove_one_perm b l : b ∈ l → l ≡ₚ b :: remove_one b l.
Proof.
  induction l as [|x l IH]; simpl; [by intros ?%not_elem_of_nil|]. intros H.
  destruct (decide (x = b)) as [->|Hne]; [done|]. apply elem_of_cons in H as [->|H]; [done|].
  rewrite (IH H) at 1. apply Permutation_swap.
Qed.

Lemma remove_one_cons b l l' : l ≡ₚ b :: l' → remove_one b l ≡ₚ l'.
Proof.
  intros Hl. apply (Permutation_cons_inv (a := b)). rewrite <- Hl. symmetry. apply remove_one_perm. rewrite Hl. by left.
Qed.

Lemma new_pool_ok q p : 0 <= buffer_bytesize q → 0 <= alignment q → is_unsigned (max_buffers q) → 0 < max_buffers q →
  max_buffers q * (buffer_bytesize q + Z.max (alignment q) 1) + Z.max (alignment q) 1 < size_modulus →
  new_pool q = Ret p → pool_ok p ∧ sp_out p = [] ∧ sp_gone p = [] ∧ max_buffers (sp_params p) = max_buffers q ∧
    buffer_bytesize q <= buffer_bytesize (sp_params p).
Proof.
  intros Hb Ha Hm Hmax Ht E. unfold new_pool, normalised in E.
  set (a := Z.max (alignment q) 1) in *. assert (H1 : 1 <= a) by lia.
  destruct (Z.eqb_spec (Z.land a (a ⊖ 1)) 0) as [H0|]; [|done]. simpl in E. injection E as <-.
  assert (Hbig : buffer_bytesize q + a < size_modulus - a) by (munfold; nia).
  rewrite sub64_small in H0 by mlia. apply land_pred_power in H0 as (k & Hk & Hak); [|lia].
  pose proof (round_up_bound (buffer_bytesize q) a ltac:(lia)) as Hr.
  pose proof (round_up_mod (buffer_bytesize q) a ltac:(lia)) as Hrm.
  replace (buffer_bytesize q ⊕ a ⊖ 1) with (buffer_bytesize q + a - 1) by (unwrap; lia).
  rewrite mul64_small by mlia. split; [|simpl; split_and!; [done..|lia]].
  split; simpl.
  - split; simpl; [|split; [lia|done]|done|].
    + exists k. split; [|done]. split; [done|]. apply (Z.pow_lt_mono_r_iff 2); [lia|lia|].
      rewrite <- Hak. change (2 ^ 64) with size_modulus. lia.
    + munfold. nia.
  - lia.
  - intros i b. by rewrite lookup_nil.
  - intros i j b b'. by rewrite lookup_nil.
  - constructor.
  - done.
  - done.
  - constructor.
  - done.
Qed.

Lemma mod_wrap a x : (∃ k, 0 <= k < 64 ∧ a = 2 ^ k) → wrap64 x mod a = x mod a.
Proof.
  intros (k & Hk & ->). assert (0 < 2 ^ k) by (apply Z.pow_pos_nonneg; lia). unfold wrap64.
  apply Z.mod_mod_divide.
  exists (2 ^ (64 - k)). rewrite <- Z.pow_add_r by lia. by replace (64 - k + k) with 64 by lia.
Qed.

Lemma first_aligned_spec base a : (∃ k, 0 <= k < 64 ∧ a = 2 ^ k) →
  base <= first_aligned base a < base + a ∧ first_aligned base a mod a = 0.
Proof.
  intros Ha. assert (H0 : 0 < a) by (destruct Ha as (k & Hk & ->); apply Z.pow_pos_nonneg; lia).
  unfold first_aligned. rewrite mod_wrap by done. pose proof (Z.mod_pos_bound (- base) a H0).
  split; [lia|]. rewrite Zplus_mod_idemp_r, Z.add_opp_diag_r. apply Z.mod_0_l. lia.
Qed.

(** ** Taking *)

Lemma free_lookup p i rest : pool_ok p → sp_free p = i :: rest →
  ∃ b, sp_buffers p !! Z.to_nat i = Some b ∧ sb_index b = i.
Proof.
  intros Hok Hf. pose proof (pk_places p Hok) as Hp. rewrite Hf in Hp.
  assert (Hin : i ∈ map sb_index (sp_buffers p)) by (rewrite <- Hp; left).
  apply list_elem_of_fmap in Hin as (b & -> & (j & Hj)%list_elem_of_lookup).
  destruct (pk_buffers p Hok _ _ Hj) as (Hi & _). rewrite Hi, Nat2Z.id. by exists b.
Qed.

Lemma hand_out_ok p r p' : pool_ok p → hand_out p = (r, p') → pool_ok p' ∧ sp_gone p' = sp_gone p ∧
  match r with
  | Some b => sp_out p' = b :: sp_out p ∧ staging_valid b = true ∧ sp_buffers p !! Z.to_nat (sb_index b) = Some b
  | None => p' = p ∧ sp_free p = []
  end.
Proof.
  intros Hok E. unfold hand_out in E. destruct (sp_free p) as [|i rest] eqn:Hf; [by injection E as <- <-|].
  destruct (free_lookup _ _ _ Hok Hf) as (b & Hb & Hi). rewrite Hb in E. injection E as <- <-.
  rewrite <- Hi in Hb. split; [|split; [done|split; [done|split; [|done]]]].
  - split; try apply Hok; simpl.
    + constructor; [done|apply Hok].
    + rewrite <- (pk_places p Hok), Hf, <- Hi. simpl. solve_Permutation.
  - destruct (pk_buffers p Hok _ _ Hb) as (_ & _ & Hd & _). unfold staging_valid.
    apply negb_true_iff, Z.eqb_neq. lia.
Qed.

Lemma plan_slab_spec p per_slab bytesize : pool_ok p → plan_slab p = (per_slab, bytesize) →
  if decide (Z.of_nat (length (sp_buffers p)) = max_buffers (sp_params p) ∨ buffer_bytesize (sp_params p) = 0)
  then per_slab = 0
  else 1 <= per_slab ∧ Z.of_nat (length (sp_buffers p)) + per_slab <= max_buffers (sp_params p) ∧
       bytesize = per_slab * buffer_bytesize (sp_params p) + alignment (sp_params p) - 1.
Proof.
  intros Hok E. destruct (pk_params p Hok) as [Ha [Hb Hbm] Hc Ht]. pose proof (pk_ceiling p Hok) as Hn.
  assert (0 < alignment (sp_params p)) by (destruct Ha as (k & Hk & ->); apply Z.pow_pos_nonneg; lia).
  unfold plan_slab in E. set (q := sp_params p) in *. set (n := Z.of_nat (length (sp_buffers p))) in *.
  rewrite (wrap32_small n) in E by mlia. rewrite sub32_small in E by mlia.
  destruct (Z.eqb_spec (max_buffers q - n) 0) as [H0|H0].
  { injection E as <- <-. rewrite decide_True by lia. done. }
  destruct (Z.eqb_spec (buffer_bytesize q) 0) as [H1|H1].
  { injection E as <- <-. rewrite decide_True by lia. done. }
  rewrite decide_False by lia.
  set (whole := _ ⊕ _) in E. assert (0 <= whole) by (apply wrap64_is_size).
  rewrite (wrap32_small (Z.min _ _)) in E by mlia. injection E as <- <-.
  set (m := Z.max _ 1). assert (1 <= m <= max_buffers q - n) by lia. split; [lia|]. split; [lia|].
  assert (m * buffer_bytesize q <= max_buffers q * buffer_bytesize q) by (apply Z.mul_le_mono_nonneg_r; lia).
  unwrap. lia.
Qed.

(** ** Growing *)

Section Cut.
Context (p : StagingPool) (base bytesize per_slab : Z) (Hok : pool_ok p) (Hfresh : fresh_block base bytesize p).
Context (Hone : 0 <= per_slab).
Context (Hbytes : bytesize = per_slab * buffer_bytesize (sp_params p) + alignment (sp_params p) - 1).

Local Abbreviation q := (sp_params p).
Local Abbreviation n := (length (sp_buffers p)).
Local Abbreviation slab := (length (sp_slabs p)).
Local Abbreviation buffer i := (cut_buffer q (first_aligned base (alignment q)) n slab i).

Definition fresh_buffers : list StagingBuffer :=
  map (cut_buffer q (first_aligned base (alignment q)) n slab) (seq 0 (Z.to_nat per_slab)).

Lemma cut_in_slab i : (i < Z.to_nat per_slab)%nat →
  base <= sb_data (buffer i) ∧ sb_data (buffer i) + buffer_bytesize q <= base + bytesize ∧
  sb_data (buffer i) mod alignment q = 0.
Proof.
  intros Hi. destruct (pk_params p Hok) as [Ha [Hb Hbm] _ _]. pose proof (first_aligned_spec base _ Ha) as [Hfirst Hmod].
  cbn [sb_data cut_buffer]. set (first := first_aligned base (alignment q)) in *.
  assert (0 < alignment q) by (destruct Ha as (k & Hk & ->); apply Z.pow_pos_nonneg; lia).
  assert (Z.of_nat i * buffer_bytesize q + buffer_bytesize q <= per_slab * buffer_bytesize q) by nia.
  split; [nia|]. split; [lia|].
  rewrite add_multiple_mod; [done|lia|]. rewrite Z.mul_mod, Hbm, Z.mul_0_r by lia. apply Z.mod_0_l. lia.
Qed.

Lemma fresh_lookup i b : fresh_buffers !! i = Some b → (i < Z.to_nat per_slab)%nat ∧ b = buffer i.
Proof.
  unfold fresh_buffers. intros (j & -> & [-> Hi]%lookup_seq)%list_lookup_fmap_Some. done.
Qed.

Lemma fresh_apart_old i b i' b' : fresh_buffers !! i = Some b → sp_buffers p !! i' = Some b' → apart b b' ∧ apart b' b.
Proof.
  intros [Hi ->]%fresh_lookup Hb'. destruct (pk_buffers p Hok _ _ Hb') as (_ & Hsz & _ & _ & _ & s & Hs & Hlo & Hhi).
  destruct Hfresh as (_ & _ & Hap). rewrite Forall_lookup in Hap. specialize (Hap _ _ Hs).
  destruct (cut_in_slab i Hi) as (H1 & H2 & _). unfold apart. cbn [sb_bytesize cut_buffer]. lia.
Qed.

Lemma fresh_apart i j b b' : fresh_buffers !! i = Some b → fresh_buffers !! j = Some b' → i ≠ j → apart b b'.
Proof.
  intros [Hi ->]%fresh_lookup [Hj ->]%fresh_lookup Hne. unfold apart. cbn [sb_data sb_bytesize cut_buffer].
  destruct (pk_params p Hok) as [_ [Hb _] _ _]. destruct (decide (i < j)%nat); [left|right]; nia.
Qed.

Lemma grown_ok : Z.of_nat n + per_slab <= max_buffers q →
  pool_ok (mkPool q (sp_stopped p) (sp_slabs p ++ [mkSlab base bytesize]) (sp_buffers p ++ fresh_buffers)
             (sp_free p ++ map sb_index fresh_buffers) (sp_retired p) (sp_retired_code p) (sp_leaked p) (sp_out p) (sp_gone p)).
Proof.
  intros Hmax. split; simpl; try apply Hok.
  - unfold fresh_buffers. rewrite length_app, length_map, length_seq. lia.
  - intros i b Hib. apply lookup_app_Some in Hib as [Hib|[Hi [Hlt ->]%fresh_lookup]].
    + destruct (pk_buffers p Hok _ _ Hib) as (H1 & H2 & H3 & H4 & H0 & s & Hs & H5 & H6). split_and!; try done.
      exists s. split; [by apply lookup_app_l_Some|done].
    + destruct (cut_in_slab _ Hlt) as (H1 & H2 & H3). destruct Hfresh as (Hpos & _ & _).
      cbn [sb_index sb_bytesize sb_slab cut_buffer]. split; [simpl; lia|]. split; [done|]. split; [lia|]. split; [done|]. split; [simpl; lia|].
      exists (mkSlab base bytesize). cbn [sl_base sl_bytesize sp_slabs sb_slab cut_buffer].
      rewrite Nat2Z.id, lookup_app_r, Nat.sub_diag by lia. done.
  - intros i j b b' Hi Hj Hne. apply lookup_app_Some in Hi as [Hi|[Hi1 Hi2]], Hj as [Hj|[Hj1 Hj2]].
    + by apply (pk_apart p Hok i j).
    + by apply (fresh_apart_old _ _ _ _ Hj2 Hi).
    + by apply (fresh_apart_old _ _ _ _ Hi2 Hj).
    + apply (fresh_apart _ _ _ _ Hi2 Hj2). lia.
  - eapply Forall_impl; [apply (pk_known p Hok)|]. intros b Hb. by apply lookup_app_l_Some.
  - rewrite map_app, <- (pk_places p Hok). solve_Permutation.
Qed.

Lemma publish_ok r p' : publish base bytesize per_slab p = (r, p') → pool_ok p' ∧ sp_gone p' = sp_gone p ∧
  match r with
  | Some b => sp_out p' = b :: sp_out p ∧ staging_valid b = true
  | None => sp_out p' = sp_out p ∧ sp_free p = [] ∧ (1 <= per_slab → max_buffers q < Z.of_nat n + per_slab)
  end.
Proof.
  unfold publish. fold fresh_buffers. destruct (Z.leb_spec (Z.of_nat n + per_slab) (max_buffers q)) as [Hle|Hgt]; intros E.
  - apply (hand_out_ok _ _ _ (grown_ok Hle)) in E as (Hok' & Hg & Hr). split; [done|]. split; [done|].
    destruct r as [b|]; [by destruct Hr as (? & ? & _)|]. destruct Hr as [-> Hf]. simpl in Hf.
    apply app_nil in Hf as [Hf Hn]. split; [done|]. split; [done|]. intros H1.
    assert (Hl := f_equal length Hn). unfold fresh_buffers in Hl. rewrite !length_map, length_seq in Hl. simpl in Hl. lia.
  - apply (hand_out_ok _ _ _ Hok) in E as (Hok' & Hg & Hr). split; [done|]. split; [done|].
    destruct r as [b|]; [by destruct Hr as (? & ? & _)|]. destruct Hr as [-> Hf]. done.
Qed.
End Cut.

(** ** Giving back *)

Lemma places_length p : pool_ok p →
  (length (sp_free p) + length (sp_out p) + length (sp_gone p) = length (sp_buffers p))%nat.
Proof.
  intros Hok. pose proof (Permutation_length (pk_places p Hok)) as H. rewrite !length_app, !length_map in H. lia.
Qed.

Lemma known_buffer p b : pool_ok p → b ∈ sp_out p ++ sp_gone p → sp_buffers p !! Z.to_nat (sb_index b) = Some b.
Proof. intros Hok Hb. pose proof (pk_known p Hok) as H. rewrite Forall_forall in H. by apply H. Qed.

Lemma out_lt_buffers p b : pool_ok p → b ∈ sp_out p → (length (sp_free p) < length (sp_buffers p))%nat.
Proof.
  intros Hok Hb. pose proof (places_length p Hok). destruct (sp_out p) as [|x l]; [by apply not_elem_of_nil in Hb|].
  simpl in *. lia.
Qed.

Lemma release_out p b : pool_ok p → b ∈ sp_out p →
  pool_release b p = with_free (sp_free p ++ [sb_index b]) (remove_one b (sp_out p)) p.
Proof.
  intros Hok Hb. unfold pool_release. pose proof (out_lt_buffers p b Hok Hb).
  by rewrite (proj2 (Nat.leb_gt _ _)) by lia.
Qed.

Lemma remove_one_subset b l x : x ∈ remove_one b l → x ∈ l.
Proof.
  induction l as [|y l IH]; simpl; [done|]. destruct (decide (y = b)); [by right|].
  rewrite !elem_of_cons. tauto.
Qed.

Lemma pool_release_ok p b : pool_ok p → b ∈ sp_out p →
  pool_ok (pool_release b p) ∧ sp_out p ≡ₚ b :: sp_out (pool_release b p) ∧ sp_gone (pool_release b p) = sp_gone p.
Proof.
  intros Hok Hb. rewrite release_out by done. pose proof (remove_one_perm _ _ Hb) as Hp.
  split; [|split; [done|done]]. split; try apply Hok; simpl.
  - apply Forall_forall. intros x Hx. apply (known_buffer p x Hok). rewrite elem_of_app in *.
    destruct Hx as [Hx|]; [left; by eapply remove_one_subset|by right].
  - rewrite <- (pk_places p Hok), (Permutation_map sb_index Hp). simpl. solve_Permutation.
Qed.

Lemma retire_ok p b code : pool_ok p → b ∈ sp_out p → code ≠ Success →
  pool_ok (retire b code p) ∧ sp_out p ≡ₚ b :: sp_out (retire b code p) ∧ sp_gone (retire b code p) = b :: sp_gone p.
Proof.
  intros Hok Hb Hcode. pose proof (remove_one_perm _ _ Hb) as Hp. split; [|split; [done|done]].
  split; try apply Hok; simpl.
  - apply Forall_forall. intros x Hx. apply (known_buffer p x Hok). rewrite elem_of_app, elem_of_cons in Hx.
    rewrite elem_of_app. destruct Hx as [Hx|[->|Hx]]; [left; by eapply remove_one_subset|by left|by right].
  - rewrite <- (pk_places p Hok), (Permutation_map sb_index Hp). simpl. solve_Permutation.
  - pose proof (places_length p Hok) as Hl. pose proof (out_lt_buffers p b Hok Hb). pose proof (pk_ceiling p Hok).
    destruct (pk_params p Hok) as [_ _ Hc _]. rewrite (pk_retired p Hok).
    rewrite (Permutation_length Hp) in Hl. simpl in Hl. unwrap. lia.
  - constructor; [set_solver|]. eapply Forall_impl; [apply (pk_leaked p Hok)|]. simpl. set_solver.
  - intros _. by destruct (decide (sp_retired_code p = Success)).
Qed.

(** ** Executions

    [plans] are the slabs being pinned, with no lock held. *)

Lemma acquire_turn_ok wait p t p' : pool_ok p → acquire_turn wait p = (t, p') → pool_ok p' ∧ sp_gone p' = sp_gone p ∧
  sp_params p' = sp_params p ∧
  match t with
  | Answer code b => sp_out p' = (if staging_valid b then [b] else []) ++ sp_out p ∧ (staging_valid b = true → code = Success)
  | Grow per_slab bytesize => p' = p ∧ plan_slab p = (per_slab, bytesize) ∧ 1 <= per_slab ∧
      bytesize = per_slab * buffer_bytesize (sp_params p) + alignment (sp_params p) - 1
  | Wait => p' = p ∧ sp_out p ≠ []
  end.
Proof.
  intros Hok E. unfold acquire_turn in E. destruct (sp_stopped p); [by injection E as <- <-|].
  destruct (hand_out p) as [[b|] p1] eqn:Hh.
  { assert (Hps : sp_params p1 = sp_params p).
    { unfold hand_out in Hh. destruct (sp_free p); [done|]. by destruct (_ !! _); [injection Hh as _ <-|]. }
    apply (hand_out_ok _ _ _ Hok) in Hh as (Hok1 & Hg & Hout & Hv & _). injection E as <- <-. by rewrite Hv. }
  apply (hand_out_ok _ _ _ Hok) in Hh as (_ & _ & -> & Hf).
  destruct (plan_slab p) as [per_slab bytesize] eqn:Hpl. assert (Hplan := Hpl). apply (plan_slab_spec _ _ _ Hok) in Hplan.
  destruct (decide _) as [_|_].
  - subst per_slab. rewrite Z.eqb_refl in E. case_bool_decide as Hb; [by injection E as <- <-|].
    destruct (sp_retired p >=? _) eqn:Hr; [by injection E as <- <-|].
    destruct wait; injection E as <- <-; [|done]. do 4 (split; [done|]).
    rewrite Z.geb_leb in Hr. apply Z.leb_gt in Hr. rewrite (pk_retired p Hok) in Hr.
    pose proof (places_length p Hok) as Hl. rewrite Hf in Hl. simpl in Hl. destruct (sp_out p); [simpl in Hl; lia|done].
  - destruct Hplan as (H1 & _ & Hb). rewrite (proj2 (Z.eqb_neq _ _)) in E by lia. injection E as <- <-.
    by split_and!.
Qed.

Inductive step : StagingPool * list (Z * Z) → StagingPool * list (Z * Z) → Prop :=
| step_answer wait p plans code b p' : acquire_turn wait p = (Answer code b, p') → step (p, plans) (p', plans)
| step_wait p plans p' : acquire_turn true p = (Wait, p') → step (p, plans) (p', plans)
| step_grow wait p plans per_slab bytesize p' :
    acquire_turn wait p = (Grow per_slab bytesize, p') → step (p, plans) (p', (per_slab, bytesize) :: plans)
| step_publish p plans1 per_slab bytesize plans2 base : fresh_block base bytesize p →
    step (p, plans1 ++ (per_slab, bytesize) :: plans2) ((publish base bytesize per_slab p).2, plans1 ++ plans2)
| step_refused p plans1 plan plans2 : step (p, plans1 ++ plan :: plans2) (p, plans1 ++ plans2)
| step_release b p plans : b ∈ sp_out p → step (p, plans) (pool_release b p, plans)
| step_retire b code p plans : b ∈ sp_out p → code ≠ Success → step (p, plans) (retire b code p, plans)
| step_stop p plans : step (p, plans) (pool_stop p, plans).

Definition plan_ok (q : Params) (plan : Z * Z) : Prop :=
  1 <= plan.1 ∧ plan.2 = plan.1 * buffer_bytesize q + alignment q - 1.

Lemma publish_params base bytesize n p : sp_params (publish base bytesize n p).2 = sp_params p.
Proof.
  unfold publish, hand_out. destruct (_ <=? _); simpl;
    (destruct (sp_free _ ++ _) as [|i l] || destruct (sp_free p) as [|i l]); try done; by destruct (_ !! _).
Qed.

Lemma pool_step_ok p plans p' plans' : step (p, plans) (p', plans') → pool_ok p → Forall (plan_ok (sp_params p)) plans →
  pool_ok p' ∧ Forall (plan_ok (sp_params p')) plans'.
Proof.
  inversion 1 as [wait ? ? code b ? E|? ? ? E|wait ? ? n bytes ? E|? l1 n bytes l2 base Hfresh|? l1 pl l2|b ? ? Hb|b code ? ? Hb Hcode|? ?];
    subst; intros Hok Hplans.
  - destruct (acquire_turn_ok _ _ _ _ Hok E) as (? & _ & Hps & _). by rewrite Hps.
  - destruct (acquire_turn_ok _ _ _ _ Hok E) as (? & _ & Hps & _). by rewrite Hps.
  - destruct (acquire_turn_ok _ _ _ _ Hok E) as (? & _ & Hps & _ & _ & H1 & H2). rewrite Hps.
    split; [done|]. by constructor.
  - apply Forall_app in Hplans as [H1 [[Hn Hbytes] H2]%Forall_cons]. simpl in Hn, Hbytes. rewrite publish_params.
    split; [|by apply Forall_app]. destruct (publish base bytes n p) as [r p1] eqn:Hpub.
    by destruct (publish_ok p base bytes n Hok Hfresh ltac:(lia) Hbytes r p1 Hpub) as [? _].
  - split; [done|]. apply Forall_app in Hplans as [H1 [_ H2]%Forall_cons]. by apply Forall_app.
  - rewrite release_out by done. destruct (pool_release_ok p b Hok Hb) as [H1 _]. by rewrite release_out in H1.
  - by destruct (retire_ok p b code Hok Hb Hcode) as [? _].
  - split; [|done]. by destruct Hok.
Qed.

Lemma pool_steps_ok s s' : rtc step s s' → pool_ok s.1 ∧ Forall (plan_ok (sp_params s.1)) s.2 →
  pool_ok s'.1 ∧ Forall (plan_ok (sp_params s'.1)) s'.2.
Proof.
  induction 1 as [|[p plans] [p' plans'] s3 Hstep _ IH]; [done|]. intros [Hok Hpl]. apply IH. simpl in *.
  by eapply pool_step_ok.
Qed.

Lemma pool_step_params s s' : step s s' → sp_params s'.1 = sp_params s.1.
Proof.
  assert (Hturn : ∀ wait p t p', acquire_turn wait p = (t, p') → sp_params p' = sp_params p).
  { intros wait p t p' E. unfold acquire_turn, hand_out in E. destruct (sp_stopped p); [by injection E as _ <-|].
    destruct (sp_free p) as [|i rest]; [|destruct (sp_buffers p !! Z.to_nat i); [by injection E as _ <-|]];
      (destruct (plan_slab p) as [n bytes]; destruct (n =? 0); [|by injection E as _ <-];
       case_bool_decide; [by injection E as _ <-|]; destruct (_ >=? _); [by injection E as _ <-|];
       destruct wait; by injection E as _ <-). }
  destruct 1; simpl; first [by eapply Hturn|apply publish_params|done|idtac].
  unfold pool_release. by destruct (Nat.leb _ _).
Qed.

Lemma pool_steps_params s s' : rtc step s s' → sp_params s'.1 = sp_params s.1.
Proof. induction 1 as [|s1 s2 s3 H _ IH]; [done|]. by rewrite IH, (pool_step_params _ _ H). Qed.

Lemma taken_places p : pool_ok p → NoDup (sp_free p ++ map sb_index (sp_out p ++ sp_gone p)).
Proof.
  intros Hok. rewrite map_app, (pk_places p Hok). apply NoDup_alt. intros i j x Hi Hj.
  apply list_lookup_fmap_Some in Hi as (b & -> & Hb), Hj as (b' & E & Hb').
  destruct (pk_buffers p Hok _ _ Hb) as [Hx _], (pk_buffers p Hok _ _ Hb') as [Hy _]. lia.
Qed.

(** The parameters of a pool whose whole memory has addresses. *)
Definition sane (q : Params) : Prop :=
  0 <= buffer_bytesize q ∧ 0 <= alignment q ∧ is_unsigned (max_buffers q) ∧ 0 < max_buffers q ∧
  max_buffers q * (buffer_bytesize q + Z.max (alignment q) 1) + Z.max (alignment q) 1 < size_modulus.

(** C15: a buffer has one user.  Whatever threads take, return and retire buffers, and pin slabs at the same
    time: the pool never holds more buffers than its ceiling; each buffer taken or retired is an aligned
    piece, of the size asked for at least, of one of its slabs; it is not free, and it shares no byte with
    another buffer that is taken or retired; and the slab of a retired buffer is never freed. *)
Theorem staging_buffers_exclusive q p0 p plans :
  sane q → new_pool q = Ret p0 → rtc step (p0, []) (p, plans) →
  Z.of_nat (length (sp_buffers p)) <= max_buffers q ∧
  (∀ i j b b', (sp_out p ++ sp_gone p) !! i = Some b → (sp_out p ++ sp_gone p) !! j = Some b' → i ≠ j → apart b b') ∧
  (∀ b, b ∈ sp_out p ++ sp_gone p → (sb_index b ∉ sp_free p) ∧ buffer_bytesize q <= sb_bytesize b ∧
     sb_data b mod alignment (sp_params p) = 0 ∧
     ∃ s, sp_slabs p !! Z.to_nat (sb_slab b) = Some s ∧ sl_base s <= sb_data b ∧
          sb_data b + sb_bytesize b <= sl_base s + sl_bytesize s) ∧
  (∀ b, b ∈ sp_gone p → Z.to_nat (sb_slab b) ∉ freed p).
Proof.
  intros (Hb & Ha & Hm & Hpos & Ht) Hnew Hsteps.
  destruct (new_pool_ok q p0 Hb Ha Hm Hpos Ht Hnew) as (Hok0 & _ & _ & Hmax & Hsize).
  destruct (pool_steps_ok _ _ Hsteps) as [Hok _]; [done|]. pose proof (pool_steps_params _ _ Hsteps) as Hps. simpl in Hok, Hps.
  pose proof (taken_places p Hok) as Hnd. apply NoDup_app in Hnd as (_ & Hfree & Hnd).
  split; [rewrite <- Hmax, <- Hps; apply Hok|]. split; [|split].
  - intros i j b b' Hi Hj Hne.
    pose proof (known_buffer p b Hok (list_elem_of_lookup_2 _ _ _ Hi)) as Hb1.
    pose proof (known_buffer p b' Hok (list_elem_of_lookup_2 _ _ _ Hj)) as Hb2.
    eapply (pk_apart p Hok); [exact Hb1|exact Hb2|]. intros E. apply Hne.
    assert (b = b') as <- by congruence.
    eapply (NoDup_lookup _ i j); [exact Hnd| |]; apply list_lookup_fmap_Some; by exists b.
  - intros b Hin. pose proof (known_buffer p b Hok Hin) as Hb1.
    destruct (pk_buffers p Hok _ _ Hb1) as (_ & Hsz & _ & Hal & _ & Hs). split; [|split; [|done]].
    + intros Hf. apply (Hfree _ Hf). by apply list_elem_of_fmap_2.
    + rewrite Hsz, Hps. lia.
  - intros b Hin. pose proof (known_buffer p b Hok ltac:(by apply elem_of_app; right)) as Hb1.
    destruct (pk_buffers p Hok _ _ Hb1) as (_ & _ & _ & _ & H0 & _).
    unfold freed. rewrite list_elem_of_filter. intros [Hn _]. apply Hn. rewrite Z2Nat.id by done.
    pose proof (pk_leaked p Hok) as Hl. rewrite Forall_forall in Hl. by apply Hl.
Qed.

Lemma try_acquire_ok {V} (host_alloc : Z → V → ResponseCode * Z * V) p v code b p' v' :
  pool_ok p → (∀ base w, host_alloc (plan_slab p).2 v = (Success, base, w) → fresh_block base (plan_slab p).2 p) →
  try_acquire host_alloc p v = (code, b, p', v') →
  pool_ok p' ∧ sp_gone p' = sp_gone p ∧
  (if staging_valid b then code = Success ∧ sp_out p' = b :: sp_out p
   else sp_out p' = sp_out p ∧
        (code = Success → sp_stopped p = true ∨ sp_out p ≠ []) ∧
        (code ≠ Success →
           (code = UnknownError ∧ sp_buffers p = []) ∨
           (code = sp_retired_code p ∧ sp_out p = [] ∧ sp_gone p ≠ []) ∨
           ∃ bytes base w, host_alloc bytes v = (code, base, w))).
Proof.
  intros Hok Hhost E. unfold try_acquire in E. destruct (acquire_turn false p) as [t p1] eqn:Ht.
  pose proof (acquire_turn_ok _ _ _ _ Hok Ht) as (Hok1 & Hg1 & _ & Hspec). destruct t as [c b0|n bytes|].
  - injection E as <- <- <- <-. destruct Hspec as [Hout Hv]. split; [done|]. split; [done|].
    destruct (staging_valid b0) eqn:Hb0; [by auto|]. split; [done|].
    unfold acquire_turn in Ht. destruct (sp_stopped p) eqn:Hst; [injection Ht as <- _ _; split; [by left|done]|].
    destruct (hand_out p) as [[b1|] p2] eqn:Hh; apply (hand_out_ok _ _ _ Hok) in Hh as (_ & _ & Hh).
    { injection Ht as _ -> _. destruct Hh as (_ & Hh & _). congruence. }
    destruct Hh as [-> Hf]. destruct (plan_slab p) as [m bytes]. destruct (m =? 0); [|done].
    pose proof (places_length p Hok) as Hl. rewrite Hf in Hl. simpl in Hl.
    case_bool_decide as Hbuf; [injection Ht as <- _ _; split; [done|intros _; left; by rewrite Hbuf]|].
    rewrite Z.geb_leb, (pk_retired p Hok) in Ht. destruct (Z.leb_spec (Z.of_nat (length (sp_buffers p))) (Z.of_nat (length (sp_gone p)))) as [Hle|Hgt];
      injection Ht as <- _ _.
    + assert (sp_out p = []) by (apply length_zero_iff_nil; lia).
      assert (sp_gone p ≠ []) by (intros Hn; rewrite Hn in *; destruct (sp_buffers p); simpl in *; [done|lia]).
      split; [intros Hc|by auto]. by destruct (pk_code p Hok).
    + split; [intros _; right|done]. intros Hn. rewrite Hn in Hl. simpl in Hl. lia.
  - destruct Hspec as (-> & Hpl & H1 & Hbytes). rewrite Hpl in Hhost. simpl in Hhost. destruct (host_alloc bytes v) as [[c base] w] eqn:Hal.
    case_bool_decide as Hc; simpl in E.
    + destruct (publish base bytes n p) as [r p2] eqn:Hpub. injection E as <- <- <- <-. subst c. assert (Hn : 0 <= n) by lia.
      destruct (publish_ok p base bytes n Hok (Hhost _ _ eq_refl) Hn Hbytes r p2 Hpub) as (Hok2 & Hg & Hr).
      split; [done|]. split; [done|]. destruct r as [b0|]; simpl; [destruct Hr as [Hout ->]; auto|].
      destruct Hr as (Hout & _ & Hlt). split; [done|]. split; [|done]. intros _.
      exfalso. specialize (Hlt H1).
      unfold acquire_turn in Ht. destruct (sp_stopped p); [done|].
      destruct (hand_out p) as [[b1|] p3] eqn:Hh; [done|]. apply (hand_out_ok _ _ _ Hok) in Hh as (_ & _ & -> & _).
      destruct (plan_slab p) as [m bs] eqn:Hplan. apply (plan_slab_spec _ _ _ Hok) in Hplan.
      destruct (Z.eqb_spec m 0) as [->|Hm]; [case_bool_decide; [done|]; by destruct (_ >=? _)|].
      injection Ht as -> ->. destruct (decide _); lia.
    + injection E as <- <- <- <-. split; [done|]. split; [done|]. simpl. split; [done|].
      split; [done|]. intros _. right. right. by exists bytes, base, w.
  - destruct Hspec as [-> Hout]. injection E as <- <- <- <-. split; [done|]. split; [done|]. simpl. split; [done|]. split; [by right|done].
Qed.

Lemma hand_out_slabs p r p' : hand_out p = (r, p') → sp_slabs p' = sp_slabs p.
Proof.
  unfold hand_out. destruct (sp_free p) as [|i l]; [by intros [= _ <-]|].
  destruct (sp_buffers p !! Z.to_nat i); by intros [= _ <-].
Qed.

(** The slabs a take registers: the block the driver gave it, at most. *)
Lemma try_acquire_slabs {V} (host_alloc : Z → V → ResponseCode * Z * V) p v code b p' v' :
  try_acquire host_alloc p v = (code, b, p', v') →
  (sp_slabs p' = sp_slabs p ∧ (v' = v ∨ ∃ c bytes base, host_alloc bytes v = (c, base, v'))) ∨
  ∃ bytes base, host_alloc bytes v = (Success, base, v') ∧ sp_slabs p' = sp_slabs p ++ [mkSlab base bytes].
Proof.
  intros E. unfold try_acquire in E. destruct (acquire_turn false p) as [t p1] eqn:Ht.
  assert (Hs : sp_slabs p1 = sp_slabs p).
  { unfold acquire_turn in Ht. destruct (sp_stopped p); [by injection Ht as _ <-|].
    destruct (hand_out p) as [[b1|] p2] eqn:Hh; apply hand_out_slabs in Hh; [by injection Ht as _ <-|].
    destruct (plan_slab p2) as [n bytes]. destruct (n =? 0); [|by injection Ht as _ <-].
    case_bool_decide; [by injection Ht as _ <-|]. destruct (_ >=? _); by injection Ht as _ <-. }
  destruct t as [c b0|n bytes|]; [injection E as _ _ <- <-; auto| |injection E as _ _ <- <-; auto].
  destruct (host_alloc bytes v) as [[c base] w] eqn:Hal. case_bool_decide as Hc; simpl in E.
  - destruct (publish base bytes n p1) as [r p2] eqn:Hp. injection E as _ _ <- <-. subst c.
    unfold publish in Hp. apply hand_out_slabs in Hp. destruct (_ <=? _); simpl in Hp; rewrite Hp, Hs.
    + right. by exists bytes, base.
    + left. split; [done|]. right. by exists Success, bytes, base.
  - injection E as _ _ <- <-. left. split; [done|]. right. by exists c, bytes, base.
Qed.

(** Try_acquire, on every branch.  A valid buffer comes with Success and is now out; without one the pool
    is as it was, up to a slab.  Success without a buffer means the pool is stopped or some buffer is out
    to come back, so waiting is not for nothing; any other code means that nothing can come: the
    pool can hold no buffer, all of them are retired, for the reason the first one was, or the driver
    refused the memory, with its code. *)
Theorem try_acquire_spec {V} (host_alloc : Z → V → ResponseCode * Z * V) p v code b p' v' :
  pool_ok p → (∀ base w, host_alloc (plan_slab p).2 v = (Success, base, w) → fresh_block base (plan_slab p).2 p) →
  try_acquire host_alloc p v = (code, b, p', v') →
  pool_ok p' ∧ sp_gone p' = sp_gone p ∧
  (if staging_valid b then code = Success ∧ sp_out p' = b :: sp_out p
   else sp_out p' = sp_out p ∧
        (code = Success → sp_stopped p = true ∨ sp_out p ≠ []) ∧
        (code ≠ Success →
           (code = UnknownError ∧ sp_buffers p = []) ∨
           (code = sp_retired_code p ∧ sp_out p = [] ∧ sp_gone p ≠ []) ∨
           ∃ bytes base w, host_alloc bytes v = (code, base, w))).
Proof. apply try_acquire_ok. Qed.

(** ** A pool of two buffers, cut from one slab *)

Definition bump_alloc (bytes : Z) (next : Z) : ResponseCode * Z * Z := (Success, next, next + bytes).

Definition two_buffers : Params := mkParams 6000 16384 2 4096.

Definition example_pool : StagingPool := mkPool (mkParams 8192 16384 2 4096) false [] [] [] 0 Success ∅ [] [].

Example takes_until_empty :
  match try_acquire bump_alloc example_pool 10000 with
  | (c1, b1, p, v) =>
      match try_acquire bump_alloc p v with
      | (c2, b2, p, v) =>
          match try_acquire bump_alloc p v with
          | (c3, b3, p, v) => [c1; c2; c3] = [Success; Success; Success] ∧ [sb_data b1; sb_data b2; sb_data b3] = [12288; 20480; 0]
          end
      end
  end.
Proof. vm_compute. done. Qed.

Lemma example_new : sane two_buffers ∧ new_pool two_buffers = Ret example_pool.
Proof. split; [|reflexivity]. unfold sane. simpl. mlia. Qed.

Definition a_buffer : StagingBuffer := mkStaging 12288 8192 0 0.

Definition grown_pool : StagingPool := (publish 10000 20479 2 example_pool).2.

Lemma staging_buffers_exclusive_witness :
  (∀ b, b ∈ sp_gone (retire a_buffer DeviceDriverError grown_pool) → Z.to_nat (sb_slab b) ∉ freed (retire a_buffer DeviceDriverError grown_pool)) ∧
  sp_gone (retire a_buffer DeviceDriverError grown_pool) = [a_buffer].
Proof.
  destruct (staging_buffers_exclusive two_buffers example_pool (retire a_buffer DeviceDriverError grown_pool) [])
    as (_ & _ & _ & H).
  - apply example_new.
  - apply example_new.
  - eapply rtc_l; [apply (step_grow false _ _ 2 20479); reflexivity|].
    eapply rtc_l; [apply (step_publish _ [] 2 20479 [] 10000); unfold fresh_block, size_modulus; simpl; split_and!; [lia|lia|constructor]|].
    eapply rtc_l; [apply (step_retire a_buffer DeviceDriverError); [|discriminate]|apply rtc_refl].
    replace (sp_out _) with [a_buffer] by (vm_compute; reflexivity). left.
  - split; [exact H|]. vm_compute. reflexivity.
Defined.

Lemma try_acquire_spec_witness :
  pool_ok (try_acquire bump_alloc example_pool 10000).1.2.
Proof.
  destruct (try_acquire bump_alloc example_pool 10000) as [[[code b] p'] v'] eqn:E. simpl.
  apply (try_acquire_spec bump_alloc example_pool 10000 code b p' v'); [| |exact E].
  - destruct example_new as [(? & ? & ? & ? & ?) Hn]. by destruct (new_pool_ok two_buffers example_pool) as [? _].
  - intros base w [= <- <-]. split; [done|]. split; [by vm_compute|constructor].
Defined.
