(* ===== verification/DeviceWriter.v ===== *)
(** The copy path to devices (streamer/impl/device_io): the writer that opens devices and enqueues copies,
    the waiters that see them land, the pools of events that mark them, and one worker's client.

    The driver is a class: the calls of src/device/device.h, for any backend.  A waiter runs on a thread of
    its own: a schedule says which waiters finish a copy before each call of the client.  [dc_lent], the
    buffers the worker holds, is not in the code. *)

From stdpp Require Import sorting.
From S2P Require Import Prelude ResponseCode Text CompletionMapper InflightChunks Workload IoEngine StagingPool.

(** ** The driver *)

(** Handles are numbers, zero the null one. *)
Class Driver (V : Type) := {
  find_backend : DeviceType → V → bool * V;
  open_device : DeviceType → Z → V → ResponseCode * Z * V;
  bind_thread : Z → V → ResponseCode * V;
  stream_create : Z → V → ResponseCode * Z * V;
  stream_synchronize : Z → V → ResponseCode * V;
  event_create : Z → V → ResponseCode * Z * V;
  event_record : Z → Z → V → ResponseCode * V;
  event_synchronize : Z → V → ResponseCode * V;
  memcpy_h2d_async : Z → Z → Z → Z → V → ResponseCode * V;
  device_host_alloc : Z → Z → V → ResponseCode * Z * V;
  (** the blocks pinned, with their sizes *)
  pinned : V → list (Z * Z) }.

Definition clear_of (base bytes : Z) (x : Z * Z) : Prop := x.1 + x.2 <= base ∨ base + bytes <= x.1.

(** Pinned memory has addresses of its own, and only allocation pins. *)
Class DriverLaws (V : Type) `{!Driver V} : Prop := {
  find_backend_pins t v : pinned (find_backend t v).2 = pinned v;
  open_device_pins t id v : pinned (open_device t id v).2 = pinned v;
  bind_thread_pins d v : pinned (bind_thread d v).2 = pinned v;
  stream_create_pins d v : pinned (stream_create d v).2 = pinned v;
  stream_synchronize_pins s v : pinned (stream_synchronize s v).2 = pinned v;
  event_create_pins d v : pinned (event_create d v).2 = pinned v;
  event_record_pins x s v : pinned (event_record x s v).2 = pinned v;
  event_synchronize_pins x v : pinned (event_synchronize x v).2 = pinned v;
  memcpy_pins dst src n s v : pinned (memcpy_h2d_async dst src n s v).2 = pinned v;
  host_alloc_law d bytes v code base v' : device_host_alloc d bytes v = (code, base, v') →
    if decide (code = Success) then
      0 < base ∧ base + bytes <= size_modulus ∧ Forall (clear_of base bytes) (pinned v) ∧
      pinned v' = (base, bytes) :: pinned v
    else pinned v' = pinned v }.

(** ** Events *)

Record EventPool := mkEvents { ep_max : Z; ep_owned : Z; ep_free : list Z }.

Section Path.
Context {V : Type} `{!Driver V}.

(** Success with the null event: all are in flight. *)
Definition event_acquire (device : Z) (p : EventPool) (v : V) : ResponseCode * Z * EventPool * V :=
  match last (ep_free p) with
  | Some x => (Success, x, mkEvents (ep_max p) (ep_owned p) (removelast (ep_free p)), v)
  | None =>
      if ep_owned p >=? ep_max p then (Success, 0, p, v)
      else
        let '(code, x, v) := event_create device v in
        if negb (bool_decide (code = Success)) then (code, 0, p, v)
        else (Success, x, mkEvents (ep_max p) (ep_owned p + 1) (ep_free p), v)
  end.

Definition event_release (x : Z) (p : EventPool) : EventPool :=
  if x =? 0 then p else mkEvents (ep_max p) (ep_owned p) (ep_free p ++ [x]).

(** ** The state *)

(** A copy on a device's stream, and the request that is told when it lands. *)
Record Entry := mkEntry { en_buffer : StagingBuffer; en_event : Z; en_id : Z }.

Record Target := mkTarget { tg_device : Z; tg_stream : Z; tg_bound : bool; tg_waiting : list Entry }.

Record Writer := mkWriter { wr_opened : list DeviceType; wr_targets : list (Device * Target) }.

(** [dc_writer] is [None] for a client built without one.  [dc_copies] is the worker's queue. *)
Record Client := mkClient {
  dc_writer : option Writer; dc_driver : V; dc_params : Params; dc_pool : option (Z * StagingPool);
  dc_channels : list Device; dc_events : list (Device * EventPool); dc_bound : option Device;
  dc_copies : list (Z * ResponseCode); dc_schedule : list (list Device); dc_lent : list StagingBuffer }.

(** std::map by device. *)
Fixpoint of_device {A} (d : Device) (l : list (Device * A)) : option A :=
  match l with [] => None | (d', x) :: l => if device_eqb d d' then Some x else of_device d l end.

Fixpoint set_device {A} (d : Device) (x : A) (l : list (Device * A)) : list (Device * A) :=
  match l with [] => [] | (d', y) :: l => if device_eqb d d' then (d', x) :: l else (d', y) :: set_device d x l end.

Definition with_driver (v : V) (c : Client) : Client :=
  mkClient (dc_writer c) v (dc_params c) (dc_pool c) (dc_channels c) (dc_events c) (dc_bound c) (dc_copies c)
           (dc_schedule c) (dc_lent c).
Definition with_writer (w : Writer) (c : Client) : Client :=
  mkClient (Some w) (dc_driver c) (dc_params c) (dc_pool c) (dc_channels c) (dc_events c) (dc_bound c) (dc_copies c)
           (dc_schedule c) (dc_lent c).
Definition with_staging (p : Z * StagingPool) (c : Client) : Client :=
  mkClient (dc_writer c) (dc_driver c) (dc_params c) (Some p) (dc_channels c) (dc_events c) (dc_bound c) (dc_copies c)
           (dc_schedule c) (dc_lent c).
Definition with_channel (d : Device) (e : list (Device * EventPool)) (c : Client) : Client :=
  mkClient (dc_writer c) (dc_driver c) (dc_params c) (dc_pool c) (dc_channels c ++ [d]) e (dc_bound c) (dc_copies c)
           (dc_schedule c) (dc_lent c).
Definition with_events (e : list (Device * EventPool)) (c : Client) : Client :=
  mkClient (dc_writer c) (dc_driver c) (dc_params c) (dc_pool c) (dc_channels c) e (dc_bound c) (dc_copies c)
           (dc_schedule c) (dc_lent c).
Definition with_bound (d : Device) (c : Client) : Client :=
  mkClient (dc_writer c) (dc_driver c) (dc_params c) (dc_pool c) (dc_channels c) (dc_events c) (Some d) (dc_copies c)
           (dc_schedule c) (dc_lent c).
Definition with_copies_done (l : list (Z * ResponseCode)) (c : Client) : Client :=
  mkClient (dc_writer c) (dc_driver c) (dc_params c) (dc_pool c) (dc_channels c) (dc_events c) (dc_bound c) l
           (dc_schedule c) (dc_lent c).
Definition with_schedule (l : list (list Device)) (c : Client) : Client :=
  mkClient (dc_writer c) (dc_driver c) (dc_params c) (dc_pool c) (dc_channels c) (dc_events c) (dc_bound c) (dc_copies c)
           l (dc_lent c).
Definition with_lent (l : list StagingBuffer) (c : Client) : Client :=
  mkClient (dc_writer c) (dc_driver c) (dc_params c) (dc_pool c) (dc_channels c) (dc_events c) (dc_bound c) (dc_copies c)
           (dc_schedule c) l.

Definition target (d : Device) (c : Client) : option Target :=
  match dc_writer c with Some w => of_device d (wr_targets w) | None => None end.

Definition set_target (d : Device) (t : Target) (c : Client) : Client :=
  match dc_writer c with
  | Some w => with_writer (mkWriter (wr_opened w) (set_device d t (wr_targets w))) c
  | None => c
  end.

Definition update_pool (f : StagingPool → StagingPool) (c : Client) : Client :=
  match dc_pool c with Some (dev, p) => with_staging (dev, f p) c | None => c end.

Definition update_events (d : Device) (f : EventPool → EventPool) (c : Client) : Client :=
  match of_device d (dc_events c) with Some p => with_events (set_device d (f p) (dc_events c)) c | None => c end.

(** ** The waiter of one device finishes its oldest copy *)

Definition wait_for (d : Device) (c : Client) : Client :=
  match target d c with
  | None => c
  | Some t =>
      match tg_waiting t with
      | [] => c
      | e :: rest =>
          let '(code, v) := if tg_bound t then (Success, dc_driver c) else bind_thread (tg_device t) (dc_driver c) in
          let bound := bool_decide (code = Success) in
          let '(code, v) := if bound then event_synchronize (en_event e) v else (code, v) in
          let c := set_target d (mkTarget (tg_device t) (tg_stream t) bound rest) (with_driver v c) in
          let c := update_events d (event_release (en_event e)) c in
          if bool_decide (code = Success) then
            let c := update_pool (pool_release (en_buffer e)) c in
            with_copies_done (dc_copies c ++ [(en_id e, Success)]) c
          else
            let c := update_pool (retire (en_buffer e) DeviceDriverError) c in
            with_copies_done (dc_copies c ++ [(en_id e, DeviceDriverError)]) c
      end
  end.

(** What the waiters did since the last call. *)
Definition run_waiters (c : Client) : Client :=
  match dc_schedule c with
  | [] => c
  | ds :: rest => foldl (λ c d, wait_for d c) (with_schedule rest c) ds
  end.

(** ** Opening *)

Definition writer_open (d : Device) (w : Writer) (v : V) : ResponseCode * Writer * V :=
  match of_device d (wr_targets w) with
  | Some _ => (Success, w, v)
  | None =>
      let '(found, v) := if bool_decide (dev_type d ∈ wr_opened w) then (true, v) else find_backend (dev_type d) v in
      if negb found then (DeviceUnavailable, w, v)
      else
        let w := mkWriter (if bool_decide (dev_type d ∈ wr_opened w) then wr_opened w else dev_type d :: wr_opened w)
                          (wr_targets w) in
        let '(code, dev, v) := open_device (dev_type d) (dev_id d) v in
        if negb (bool_decide (code = Success)) then (code, w, v)
        else
          let '(code, v) := bind_thread dev v in
          if negb (bool_decide (code = Success)) then (code, w, v)
          else
            let '(code, stream, v) := stream_create dev v in
            if negb (bool_decide (code = Success)) then (code, w, v)
            else (Success, mkWriter (wr_opened w) (wr_targets w ++ [(d, mkTarget dev stream false [])]), v)
  end.

Definition has_channel (d : Device) (c : Client) : bool := existsb (device_eqb d) (dc_channels c).

Definition channel_for (d : Device) (c : Client) : ResponseCode * Client :=
  if has_channel d c then (Success, c)
  else
    match dc_writer c with
    | None => (DeviceUnavailable, c)
    | Some w =>
        let '(code, w, v) := writer_open d w (dc_driver c) in
        let c := with_driver v (with_writer w c) in
        if negb (bool_decide (code = Success)) then (code, c)
        else
          let events := match of_device d (dc_events c) with
                        | Some _ => dc_events c
                        | None => dc_events c ++ [(d, mkEvents (max_buffers (dc_params c)) 0 [])]
                        end in
          (Success, with_channel d events c)
    end.

Definition is_bound (d : Device) (c : Client) : bool :=
  match dc_bound c with Some d' => device_eqb d' d | None => false end.

Definition bind (d : Device) (c : Client) : outcome (ResponseCode * Client) :=
  if is_bound d c then Ret (Success, c)
  else
    match target d c with
    | None => Throw AssertFailed
    | Some t =>
        let '(code, v) := bind_thread (tg_device t) (dc_driver c) in
        let c := with_driver v c in
        if negb (bool_decide (code = Success)) then Ret (code, c) else Ret (Success, with_bound d c)
    end.

(** ** The client's calls *)

(** The pool is built on the first take, through the device it is for. *)
Definition the_pool (d : Device) (c : Client) : outcome (Z * StagingPool) :=
  match dc_pool c with
  | Some x => Ret x
  | None =>
      let! p := new_pool (dc_params c) in
      Ret (match target d c with Some t => tg_device t | None => 0 end, p)
  end.

Definition take (d : Device) (c : Client) : outcome (ResponseCode * StagingBuffer * Client) :=
  let '(code, c) := channel_for d c in
  if negb (bool_decide (code = Success)) then Ret (code, no_staging, c)
  else
    let! (code, c) := bind d c in
    if negb (bool_decide (code = Success)) then Ret (code, no_staging, c)
    else
      let! (dev, p) := the_pool d c in
      let '(code, b, p, v) := try_acquire (device_host_alloc dev) p (dc_driver c) in
      let c := with_driver v (with_staging (dev, p) c) in
      Ret (code, b, if staging_valid b then with_lent (b :: dc_lent c) c else c).

(** The buffer leaves the worker's hands. *)
Definition hand_over (b : StagingBuffer) (c : Client) : Client := with_lent (remove_one b (dc_lent c)) c.

(** DeviceWriter::write, for a copy whose pool and event exist. *)
Definition writer_write (d : Device) (b : StagingBuffer) (event skip bytesize destination id : Z) (c : Client) :
    ResponseCode * Client :=
  match target d c with
  | None => (InvalidParameterError, update_events d (event_release event) (update_pool (pool_release b) c))
  | Some t =>
      if (skip >? sb_bytesize b) || (bytesize >? sb_bytesize b ⊖ skip) then
        (InvalidParameterError, update_events d (event_release event) (update_pool (pool_release b) c))
      else
        let '(code, v) := memcpy_h2d_async destination (sb_data b + skip) bytesize (tg_stream t) (dc_driver c) in
        let enqueued := bool_decide (code = Success) in
        let '(code, v) := if enqueued then event_record event (tg_stream t) v else (code, v) in
        if bool_decide (code = Success) then
          (Success, set_target d (mkTarget (tg_device t) (tg_stream t) (tg_bound t) (tg_waiting t ++ [mkEntry b event id]))
                               (with_driver v c))
        else
          let '(drained, v) := if enqueued then stream_synchronize (tg_stream t) v else (Success, v) in
          let c := with_driver v c in
          if negb (bool_decide (drained = Success)) then
            (DeviceDriverError, update_events d (event_release event) (update_pool (retire b DeviceDriverError) c))
          else (code, update_events d (event_release event) (update_pool (pool_release b) c))
  end.

Definition write (d : Device) (b : StagingBuffer) (skip bytesize destination id : Z) (c : Client) :
    outcome (ResponseCode * Client) :=
  let c := hand_over b c in
  if negb (has_channel d c) then Ret (InvalidParameterError, update_pool (pool_release b) c)
  else
    let! (code, c) := bind d c in
    if negb (bool_decide (code = Success)) then Ret (code, update_pool (pool_release b) c)
    else
      match of_device d (dc_events c) with
      | None => Throw StdException
      | Some p =>
          let '(code, event, p, v) := event_acquire (match target d c with Some t => tg_device t | None => 0 end) p (dc_driver c) in
          let c := with_driver v (with_events (set_device d p (dc_events c)) c) in
          if negb (bool_decide (code = Success)) || (event =? 0) then
            Ret (if bool_decide (code = Success) then UnknownError else code, update_pool (pool_release b) c)
          else Ret (writer_write d b event skip bytesize destination id c)
      end.

Definition release (b : StagingBuffer) (c : Client) : outcome Client :=
  match dc_pool c with
  | None => Throw AssertFailed
  | Some _ => Ret (update_pool (pool_release b) (hand_over b c))
  end.

Definition slab_at (index : Z) (c : Client) : option (Z * Z) :=
  match dc_pool c with
  | None => None
  | Some (_, p) => match pool_slab_at index p with Some s => Some (sl_base s, sl_bytesize s) | None => None end
  end.

Definition waiting_entries (c : Client) : list Entry :=
  match dc_writer c with Some w => concat (map (λ x, tg_waiting x.2) (wr_targets w)) | None => [] end.

(** A device whose waiter has a copy to wait for. *)
Definition busy_device (c : Client) : option Device :=
  match dc_writer c with
  | Some w => fst <$> head (filter (λ x, tg_waiting x.2 ≠ []) (wr_targets w))
  | None => None
  end.

(** The worker's queue: try_pop, or pop, which sleeps until a waiter pushes. *)
Definition pop (wait : bool) (c : Client) : option (Z * ResponseCode) * Client :=
  let c := match dc_copies c, wait, busy_device c with
           | [], true, Some d => wait_for d c
           | _, _, _ => c
           end in
  match dc_copies c with
  | [] => (None, c)
  | x :: rest => (Some x, with_copies_done rest c)
  end.
End Path.

(** ** Maps by device *)

Lemma device_eqb_sym a b : device_eqb a b = device_eqb b a.
Proof. destruct a as [[] i], b as [[] j]; unfold device_eqb, is_host; simpl; try done. apply Z.eqb_sym. Qed.

Lemma device_eqb_trans a b x : device_eqb a b = true → device_eqb a x = device_eqb b x.
Proof.
  destruct a as [[] i], b as [[] j], x as [[] k]; unfold device_eqb, is_host; simpl; try done. by intros ->%Z.eqb_eq.
Qed.

Lemma of_device_eqb {A} a b (l : list (Device * A)) : device_eqb a b = true → of_device a l = of_device b l.
Proof. intros H. induction l as [|[d x] l IH]; simpl; [done|]. by rewrite (device_eqb_trans a b d H), IH. Qed.

Lemma of_device_split {A} d x (l : list (Device * A)) : of_device d l = Some x →
  ∃ l1 d' l2, l = l1 ++ (d', x) :: l2 ∧ ∀ y, set_device d y l = l1 ++ (d', y) :: l2.
Proof.
  induction l as [|[d' y] l IH]; simpl; [done|]. destruct (device_eqb d d').
  - intros [= ->]. by exists [], d', l.
  - intros (l1 & d2 & l2 & -> & H)%IH. exists ((d', y) :: l1), d2, l2. split; [done|]. intros z. simpl. by rewrite H.
Qed.

Lemma of_device_set {A} d d' y (l : list (Device * A)) : is_Some (of_device d' (set_device d y l)) ↔ is_Some (of_device d' l).
Proof.
  induction l as [|[k x] l IH]; simpl; [done|]. destruct (device_eqb d k); simpl; by destruct (device_eqb d' k).
Qed.

Lemma of_device_app {A} d (l l' : list (Device * A)) : is_Some (of_device d l) → of_device d (l ++ l') = of_device d l.
Proof. induction l as [|[k x] l IH]; simpl; [by intros [? ?]|]. by destruct (device_eqb d k). Qed.

Lemma of_device_snoc {A} d d' x (l : list (Device * A)) : device_eqb d d' = true → is_Some (of_device d (l ++ [(d', x)])).
Proof.
  intros H. induction l as [|[k y] l IH]; simpl; [rewrite H; eauto|]. by destruct (device_eqb d k); [eauto|].
Qed.

Fixpoint distinct (ks : list Device) : Prop :=
  match ks with [] => True | k :: ks => Forall (λ k', device_eqb k k' = false) ks ∧ distinct ks end.

Lemma set_device_keys {A} d y (l : list (Device * A)) : map fst (set_device d y l) = map fst l.
Proof. induction l as [|[k x] l IH]; simpl; [done|]. destruct (device_eqb d k); simpl; [done|by rewrite IH]. Qed.

Lemma of_device_elem {A} d x (l : list (Device * A)) : distinct (map fst l) → (d, x) ∈ l → of_device d l = Some x.
Proof.
  induction l as [|[k y] l IH]; simpl; [by intros _ ?%not_elem_of_nil|].
  intros [Hk Hl] [[= -> ->]|Hin]%elem_of_cons; [by rewrite device_eqb_refl|].
  rewrite Forall_forall in Hk. rewrite device_eqb_sym, Hk; [by apply IH|]. apply list_elem_of_fmap. by exists (d, x).
Qed.

Lemma distinct_snoc {A} d x (l : list (Device * A)) : distinct (map fst l) → of_device d l = None →
  distinct (map fst (l ++ [(d, x)])).
Proof.
  induction l as [|[k y] l IH]; simpl; [done|]. intros [Hk Hl]. destruct (device_eqb d k) eqn:Hdk; [done|]. intros Hn.
  split; [|by apply IH]. rewrite map_app. apply Forall_app. split; [done|]. constructor; [|constructor]. simpl.
  by rewrite device_eqb_sym.
Qed.

(** ** Every buffer out of the pool is with the worker or with a waiter *)

Section Laws.
Context {V : Type} `{!Driver V, !DriverLaws V}.
Implicit Types (c : Client (V := V)) (b : StagingBuffer).

Definition target_keys c : list Device := match dc_writer c with Some w => map fst (wr_targets w) | None => [] end.

(** One target per device, and a channel has its target and its events. *)
Record channels_ok c : Prop := {
  ch_keys : distinct (target_keys c);
  ch_open d : has_channel d c = true → is_Some (target d c) ∧ is_Some (of_device d (dc_events c)) }.

Lemma channels_frame c c' : dc_writer c' = dc_writer c → dc_channels c' = dc_channels c → dc_events c' = dc_events c →
  channels_ok c → channels_ok c'.
Proof.
  intros Hw Hc He [H1 H2]. split; unfold target_keys, has_channel, target in *; rewrite ?Hw, ?Hc, ?He; [done|].
  exact H2.
Qed.

(** [extra] are buffers in the hands of a call. *)
Record path_ok (extra : list StagingBuffer) c : Prop := {
  ck_params : sane (dc_params c) ∧ ∃ p, new_pool (dc_params c) = Ret p;
  ck_channels : channels_ok c;
  ck_pool : match dc_pool c with
            | None => extra = [] ∧ dc_lent c = [] ∧ waiting_entries c = []
            | Some (_, p) => pool_ok p ∧ sp_out p ≡ₚ extra ++ dc_lent c ++ map en_buffer (waiting_entries c) ∧
                Forall (λ s, (sl_base s, sl_bytesize s) ∈ pinned (dc_driver c)) (sp_slabs p)
            end }.

(** What opening and binding leave alone. *)
Record same_path c c' : Prop := {
  sm_params : dc_params c' = dc_params c; sm_pool : dc_pool c' = dc_pool c; sm_lent : dc_lent c' = dc_lent c;
  sm_waiting : waiting_entries c' = waiting_entries c; sm_copies : dc_copies c' = dc_copies c;
  sm_schedule : dc_schedule c' = dc_schedule c; sm_pinned : pinned (dc_driver c') = pinned (dc_driver c) }.

Lemma same_path_ok extra c c' : same_path c c' → channels_ok c' → path_ok extra c → path_ok extra c'.
Proof.
  intros [H1 H2 H3 H4 _ _ H5] Hch [Hp _ Hpool]. split; [by rewrite H1|done|]. rewrite H2, H3, H4, H5. done.
Qed.

Lemma same_path_trans c1 c2 c3 : same_path c1 c2 → same_path c2 c3 → same_path c1 c3.
Proof. intros [] []. split; congruence. Qed.

Lemma writer_open_ok d w v code w' v' : writer_open d w v = (code, w', v') →
  pinned v' = pinned v ∧ concat (map (λ x, tg_waiting x.2) (wr_targets w')) = concat (map (λ x, tg_waiting x.2) (wr_targets w)) ∧
  (∀ k, is_Some (of_device k (wr_targets w)) → of_device k (wr_targets w') = of_device k (wr_targets w)) ∧
  (code = Success → is_Some (of_device d (wr_targets w'))) ∧
  (distinct (map fst (wr_targets w)) → distinct (map fst (wr_targets w'))).
Proof.
  unfold writer_open. destruct (of_device d (wr_targets w)) as [t|] eqn:Ht; [intros [= <- <- <-]; rewrite Ht; eauto 6|].
  destruct (if bool_decide _ then _ else _) as [found v1] eqn:Hf.
  assert (H1 : pinned v1 = pinned v).
  { case_bool_decide; [by injection Hf as _ <-|]. pose proof (find_backend_pins (dev_type d) v) as H2. by rewrite Hf in H2. }
  destruct found; simpl; [|intros [= <- <- <-]; done].
  destruct (open_device _ _ _) as [[c2 dev] v2] eqn:Ho. pose proof (open_device_pins (dev_type d) (dev_id d) v1) as H2.
  rewrite Ho in H2. simpl in H2. destruct (bool_decide_reflect (c2 = Success)) as [Hc2|Hc2]; simpl; [|intros [= <- <- <-]; simpl; split; [congruence|done]].
  destruct (bind_thread _ _) as [c3 v3] eqn:Hb. pose proof (bind_thread_pins dev v2) as H3.
  rewrite Hb in H3. simpl in H3. destruct (bool_decide_reflect (c3 = Success)) as [Hc3|Hc3]; simpl; [|intros [= <- <- <-]; simpl; split; [congruence|done]].
  destruct (stream_create _ _) as [[c4 stream] v4] eqn:Hs. pose proof (stream_create_pins dev v3) as H4.
  rewrite Hs in H4. simpl in H4. destruct (bool_decide_reflect (c4 = Success)) as [Hc4|Hc4]; simpl; [|intros [= <- <- <-]; simpl; split; [congruence|done]].
  intros [= <- <- <-]. simpl. split; [congruence|]. split; [by rewrite map_app, concat_app, app_nil_r|].
  split; [intros k Hk; by apply of_device_app|]. split; [|intros Hk; by apply distinct_snoc].
  intros _. apply of_device_snoc, device_eqb_refl.
Qed.

Lemma channel_for_ok d c code c' : channels_ok c → channel_for d c = (code, c') →
  channels_ok c' ∧ same_path c c' ∧ (code = Success → has_channel d c' = true).
Proof.
  intros Hch E. unfold channel_for in E. destruct (has_channel d c) eqn:Hd; [by injection E as <- <-|].
  destruct (dc_writer c) as [w|] eqn:Hw; [|by injection E as <- <-].
  destruct (writer_open d w (dc_driver c)) as [[code1 w1] v1] eqn:Ho.
  apply writer_open_ok in Ho as (Hpin & Hwait & Hkeep & Hopen & Hkeys).
  assert (Hkeys1 : distinct (map fst (wr_targets w1))).
  { apply Hkeys. pose proof (ch_keys _ Hch) as Hk. unfold target_keys in Hk. by rewrite Hw in Hk. }
  assert (Hsame : same_path c (with_driver v1 (with_writer w1 c))).
  { split; try done. unfold waiting_entries. simpl. by rewrite Hw. }
  assert (Htarget : ∀ k, is_Some (target k c) → is_Some (of_device k (wr_targets w1))).
  { unfold target. rewrite Hw. intros k Hk. by rewrite Hkeep. }
  case_bool_decide as Hc; simpl in E; injection E as <- <-.
  - split; [|split; [by destruct Hsame|]].
    + split; [done|]. intros k Hk. unfold has_channel, target in *. simpl in *. rewrite existsb_app, orb_true_iff in Hk. simpl in Hk.
      rewrite orb_false_r in Hk. destruct Hk as [Hk|Hk].
      * destruct (ch_open _ Hch k Hk) as [Ht He]. split; [by apply Htarget|].
        destruct (of_device d (dc_events c)); [done|]. by rewrite of_device_app.
      * rewrite (of_device_eqb _ _ _ Hk). split; [by apply Hopen|]. rewrite (of_device_eqb _ _ _ Hk).
        destruct (of_device d (dc_events c)) eqn:He; [by rewrite He|]. apply of_device_snoc, device_eqb_refl.
    + intros _. unfold has_channel. simpl. rewrite existsb_app. simpl. by rewrite device_eqb_refl, orb_true_r.
  - split; [|split; [done|done]]. split; [done|]. intros k Hk. destruct (ch_open _ Hch k Hk) as [Ht He]. split; [by apply Htarget|done].
Qed.

Lemma bind_spec d c : channels_ok c → has_channel d c = true → ∃ code c', bind d c = Ret (code, c') ∧ same_path c c' ∧
  channels_ok c' ∧ has_channel d c' = true ∧ target d c' = target d c.
Proof.
  intros Hch Hd. unfold bind. destruct (is_bound d c); [by eexists _, _|].
  destruct (ch_open _ Hch d Hd) as [[t Ht] _]. rewrite Ht. destruct (bind_thread _ _) as [code v] eqn:Hb.
  pose proof (bind_thread_pins (tg_device t) (dc_driver c)) as Hpin. rewrite Hb in Hpin. simpl in Hpin.
  case_bool_decide; simpl; eexists _, _; (split; [reflexivity|]); (split; [by split|]); (split; [by destruct Hch|done]).
Qed.

Lemma set_target_waiting d t c : target d c = Some t → ∃ l1 l2, waiting_entries c = l1 ++ tg_waiting t ++ l2 ∧
  ∀ t', waiting_entries (set_target d t' c) = l1 ++ tg_waiting t' ++ l2.
Proof.
  unfold target, waiting_entries, set_target. destruct (dc_writer c) as [w|] eqn:Hw; [|done].
  intros (l1 & d' & l2 & -> & Hset)%of_device_split.
  exists (concat (map (λ x, tg_waiting x.2) l1)), (concat (map (λ x, tg_waiting x.2) l2)).
  split; [by rewrite map_app, concat_app|]. intros t'. simpl. by rewrite Hset, map_app, concat_app.
Qed.

Lemma set_target_channels d t c : channels_ok c → channels_ok (set_target d t c).
Proof.
  intros Hch. unfold set_target in *. destruct (dc_writer c) as [w|] eqn:Hw; [|done].
  split; [unfold target_keys; simpl; rewrite set_device_keys; pose proof (ch_keys _ Hch) as Hk; unfold target_keys in Hk; by rewrite Hw in Hk|].
  intros k Hk.
  destruct (ch_open _ Hch k Hk) as [Ht He]. split; [|done]. unfold target in *. rewrite Hw in Ht. simpl. by apply of_device_set.
Qed.

Lemma update_events_channels d f c : channels_ok c → channels_ok (update_events d f c).
Proof.
  intros Hch. unfold update_events in *. destruct (of_device d (dc_events c)) eqn:He; [|done].
  split; [apply (ch_keys _ Hch)|]. intros k Hk.
  destruct (ch_open _ Hch k Hk) as [Ht Hek]. split; [done|]. simpl. by apply of_device_set.
Qed.

(** What an update of the events changes: nothing the invariant is about. *)
Lemma update_events_same d f c : same_path c (update_events d f c).
Proof. unfold update_events. by destruct (of_device d (dc_events c)). Qed.

Lemma update_events_ok extra d f c : path_ok extra c → path_ok extra (update_events d f c).
Proof.
  intros Hok. eapply same_path_ok; [apply update_events_same|by apply update_events_channels, Hok|done].
Qed.

(** A buffer in hand goes back to the pool, or is retired. *)
Definition gives_back (f : StagingPool → StagingPool) b : Prop :=
  f = pool_release b ∨ f = retire b DeviceDriverError.

Lemma gives_back_ok f b p : gives_back f b → pool_ok p → b ∈ sp_out p →
  pool_ok (f p) ∧ sp_out p ≡ₚ b :: sp_out (f p) ∧ sp_slabs (f p) = sp_slabs p.
Proof.
  intros [->| ->] Hok Hb.
  - destruct (pool_release_ok p b Hok Hb) as (? & ? & _). split; [done|]. split; [done|]. by rewrite release_out.
  - by destruct (retire_ok p b DeviceDriverError Hok Hb) as (? & ? & _).
Qed.

Lemma update_pool_ok extra f b c : gives_back f b → path_ok (b :: extra) c →
  path_ok extra (update_pool f c) ∧ dc_lent (update_pool f c) = dc_lent c ∧
  waiting_entries (update_pool f c) = waiting_entries c ∧ dc_copies (update_pool f c) = dc_copies c.
Proof.
  intros Hf [Hp Hch Hpool]. unfold update_pool. destruct (dc_pool c) as [[dev p]|] eqn:Hpl; [|by destruct Hpool].
  destruct Hpool as (Hok & Hout & Hpin). split; [|done].
  destruct (gives_back_ok f b p Hf Hok) as (Hok' & Hout' & Hs'); [rewrite Hout; left|].
  split; [done|by apply (channels_frame c)|]. simpl. split; [done|]. split; [|by rewrite Hs'].
  apply (Permutation_cons_inv (a := b)). by rewrite <- Hout', Hout.
Qed.

(** A driver call that pins nothing. *)
Lemma with_driver_ok extra v c : pinned v = pinned (dc_driver c) → path_ok extra c → path_ok extra (with_driver v c).
Proof. intros Hv Hok. apply (same_path_ok extra c); [by split|by destruct Hok as [_ [] _]|done]. Qed.

Definition ids c : list Z := map en_id (waiting_entries c) ++ map fst (dc_copies c).

Lemma report_ok extra x c : path_ok extra c → path_ok extra (with_copies_done x c).
Proof. intros [Hp Hch Hpool]. split; [done|by apply (channels_frame c)|done]. Qed.

Lemma schedule_ok extra x c : path_ok extra c → path_ok extra (with_schedule x c).
Proof. intros [Hp Hch Hpool]. split; [done|by apply (channels_frame c)|done]. Qed.

(** The oldest copy of [d] leaves its stream. *)
Lemma dequeue_ok extra d t e rest bound c : path_ok extra c → target d c = Some t → tg_waiting t = e :: rest →
  path_ok (en_buffer e :: extra) (set_target d (mkTarget (tg_device t) (tg_stream t) bound rest) c) ∧
  map en_id (waiting_entries c) ≡ₚ
    en_id e :: map en_id (waiting_entries (set_target d (mkTarget (tg_device t) (tg_stream t) bound rest) c)).
Proof.
  intros [Hp Hch Hpool] Ht Hw. destruct (set_target_waiting d t c Ht) as (l1 & l2 & Hc & Hset). rewrite Hw in Hc.
  set (t' := mkTarget _ _ _ _). specialize (Hset t'). simpl in Hset.
  assert (Hwr : is_Some (dc_writer c)) by (unfold target in Ht; destruct (dc_writer c); [eauto|done]).
  destruct Hwr as [w Hwr].
  split; [|rewrite Hset, Hc, !map_app; simpl; solve_Permutation].
  split; [by unfold set_target; rewrite Hwr|by apply set_target_channels|].
  assert (Hsame : dc_pool (set_target d t' c) = dc_pool c ∧ dc_lent (set_target d t' c) = dc_lent c ∧
    dc_driver (set_target d t' c) = dc_driver c) by (unfold set_target; by rewrite Hwr).
  destruct Hsame as (-> & -> & ->). rewrite Hset. destruct (dc_pool c) as [[dev p]|].
  - destruct Hpool as (Hok & Hout & Hpin). split; [done|]. split; [|done]. rewrite Hout, Hc, !map_app. simpl. solve_Permutation.
  - destruct Hpool as (_ & _ & Hnone). rewrite Hc in Hnone. by destruct l1.
Qed.

Lemma set_target_rest d t c : dc_lent (set_target d t c) = dc_lent c ∧ dc_copies (set_target d t c) = dc_copies c ∧
  dc_driver (set_target d t c) = dc_driver c.
Proof. unfold set_target. by destruct (dc_writer c). Qed.

Lemma wait_for_ok extra d c : path_ok extra c →
  path_ok extra (wait_for d c) ∧ dc_lent (wait_for d c) = dc_lent c ∧ ids (wait_for d c) ≡ₚ ids c ∧
  (∀ t, target d c = Some t → tg_waiting t ≠ [] → dc_copies (wait_for d c) ≠ []) ∧
  (dc_copies (wait_for d c) = [] → wait_for d c = c).
Proof.
  intros Hok. unfold wait_for. destruct (target d c) as [t|] eqn:Ht; [|done].
  destruct (tg_waiting t) as [|e rest] eqn:Hw; [split_and!; try done; intros t' [= <-]; by rewrite Hw|].
  destruct (if tg_bound t then _ else _) as [code1 v1] eqn:Hb.
  assert (H1 : pinned v1 = pinned (dc_driver c)).
  { destruct (tg_bound t); [by injection Hb as _ <-|]. pose proof (bind_thread_pins (tg_device t) (dc_driver c)) as H. by rewrite Hb in H. }
  destruct (if bool_decide (code1 = Success) then _ else _) as [code2 v2] eqn:Hs.
  assert (H2 : pinned v2 = pinned (dc_driver c)).
  { case_bool_decide; [|by injection Hs as _ <-]. pose proof (event_synchronize_pins (en_event e) v1) as H3. rewrite Hs in H3. simpl in H3. congruence. }
  set (bound := bool_decide (code1 = Success)).
  apply (with_driver_ok _ v2 c H2) in Hok.
  destruct (dequeue_ok extra d t e rest bound (with_driver v2 c) Hok Ht Hw) as [Hok1 Hids].
  destruct (set_target_rest d (mkTarget (tg_device t) (tg_stream t) bound rest) (with_driver v2 c)) as (Hl1 & Hc1 & _).
  set (c1 := set_target d (mkTarget (tg_device t) (tg_stream t) bound rest) (with_driver v2 c)) in *.
  apply (update_events_ok _ d (event_release (en_event e))) in Hok1.
  destruct (update_events_same d (event_release (en_event e)) c1) as [_ _ Hl2 Hw2 Hc2 _ _].
  set (c2 := update_events d (event_release (en_event e)) c1) in *.
  assert (Hfin : ∀ f code, gives_back f (en_buffer e) →
    let c' := with_copies_done (dc_copies (update_pool f c2) ++ [(en_id e, code)]) (update_pool f c2) in
    path_ok extra c' ∧ dc_lent c' = dc_lent c ∧ ids c' ≡ₚ ids c ∧
    (∀ t', Some t = Some t' → tg_waiting t' ≠ [] → dc_copies c' ≠ []) ∧ (dc_copies c' = [] → c' = c)).
  { intros f code Hf c'. destruct (update_pool_ok extra f (en_buffer e) c2 Hf Hok1) as (Hok3 & Hl3 & Hw3 & Hc3).
    assert (Hcop : dc_copies c' = dc_copies c ++ [(en_id e, code)]) by (subst c'; simpl; rewrite Hc3, Hc2, Hc1; done).
    assert (Hwt : waiting_entries c' = waiting_entries c1) by (change (waiting_entries (update_pool f c2) = waiting_entries c1); congruence).
    split; [by apply report_ok|]. split; [simpl; rewrite Hl3, Hl2, Hl1; done|]. split.
    - unfold ids. rewrite Hcop, Hwt, map_app. change (waiting_entries c) with (waiting_entries (with_driver v2 c)). rewrite Hids. simpl. solve_Permutation.
    - rewrite Hcop. split; [intros _ _ _; by destruct (dc_copies c)|by destruct (dc_copies c)]. }
  destruct (bool_decide (code2 = Success)); apply Hfin; [by left|by right].
Qed.

Lemma foldl_waiters_ok extra ds : ∀ c, path_ok extra c →
  path_ok extra (foldl (λ c d, wait_for d c) c ds) ∧ dc_lent (foldl (λ c d, wait_for d c) c ds) = dc_lent c ∧
  ids (foldl (λ c d, wait_for d c) c ds) ≡ₚ ids c.
Proof.
  induction ds as [|d ds IH]; intros c Hok; simpl; [done|].
  destruct (wait_for_ok extra d c Hok) as (Hok1 & Hl1 & Hi1 & _). destruct (IH _ Hok1) as (? & Hl2 & Hi2).
  split; [done|]. split; [congruence|]. by rewrite Hi2.
Qed.

Lemma run_waiters_ok extra c : path_ok extra c →
  path_ok extra (run_waiters c) ∧ dc_lent (run_waiters c) = dc_lent c ∧ ids (run_waiters c) ≡ₚ ids c.
Proof.
  intros Hok. unfold run_waiters. destruct (dc_schedule c) as [|ds rest]; [done|].
  exact (foldl_waiters_ok extra ds _ (schedule_ok extra rest c Hok)).
Qed.

(** ** The client's calls *)

Lemma the_pool_ok extra d c : path_ok extra c → ∃ dev p, the_pool d c = Ret (dev, p) ∧ pool_ok p ∧
  sp_out p ≡ₚ extra ++ dc_lent c ++ map en_buffer (waiting_entries c) ∧
  Forall (λ s, (sl_base s, sl_bytesize s) ∈ pinned (dc_driver c)) (sp_slabs p).
Proof.
  intros [[(Hb & Ha & Hm & Hpos & Ht) [p Hp]] _ Hpool]. unfold the_pool. destruct (dc_pool c) as [[dev p']|]; [by exists dev, p'|].
  rewrite Hp. simpl. destruct Hpool as (-> & -> & ->). destruct (new_pool_ok _ _ Hb Ha Hm Hpos Ht Hp) as (Hok & Hout & _).
  eexists _, p. split; [reflexivity|]. split; [done|]. split; [by rewrite Hout|].
  unfold new_pool in Hp. destruct (normalised _); [|done]. injection Hp as <-. constructor.
Qed.

Lemma host_alloc_more dev bytes v code base v' : device_host_alloc dev bytes v = (code, base, v') →
  ∀ x, x ∈ pinned v → x ∈ pinned v'.
Proof. intros E%host_alloc_law x. destruct (decide (code = Success)); [destruct E as (_ & _ & _ & ->); by right|by rewrite E]. Qed.

Lemma try_acquire_pins dev p v code b p' v' : try_acquire (device_host_alloc dev) p v = (code, b, p', v') →
  Forall (λ s, (sl_base s, sl_bytesize s) ∈ pinned v) (sp_slabs p) →
  Forall (λ s, (sl_base s, sl_bytesize s) ∈ pinned v') (sp_slabs p').
Proof.
  intros E Hs. apply try_acquire_slabs in E as [[-> Hv]|(bytes & base & Hal & ->)].
  - destruct Hv as [->|(c & bytes & base & Hal)]; [done|]. eapply Forall_impl; [exact Hs|]. intros s. by eapply host_alloc_more.
  - apply Forall_app. split; [eapply Forall_impl; [exact Hs|]; intros s; by eapply host_alloc_more|].
    constructor; [|constructor]. apply host_alloc_law in Hal. rewrite decide_True in Hal by done.
    destruct Hal as (_ & _ & _ & ->). left.
Qed.

Lemma fresh_of_driver dev bytes v base v' p : device_host_alloc dev bytes v = (Success, base, v') →
  Forall (λ s, (sl_base s, sl_bytesize s) ∈ pinned v) (sp_slabs p) → fresh_block base bytes p.
Proof.
  intros E Hs. apply host_alloc_law in E. rewrite decide_True in E by done. destruct E as (Hpos & Hmax & Hclear & _).
  split; [done|]. split; [done|]. eapply Forall_impl; [exact Hs|]. intros s Hin. rewrite Forall_forall in Hclear.
  destruct (Hclear _ Hin); simpl in *; [by left|by right].
Qed.

Lemma take_spec d c : path_ok [] c → ∃ code b c', take d c = Ret (code, b, c') ∧ path_ok [] c' ∧ ids c' = ids c ∧
  dc_lent c' = (if decide (code = Success ∧ staging_valid b = true) then [b] else []) ++ dc_lent c.
Proof.
  intros Hok. unfold take. destruct (channel_for d c) as [code c1] eqn:Hc.
  apply channel_for_ok in Hc as (Hch1 & Hs1 & Hd1); [|apply Hok]. assert (Hok1 := same_path_ok _ _ _ Hs1 Hch1 Hok).
  assert (Hids1 : ids c1 = ids c) by (unfold ids; by rewrite (sm_waiting _ _ Hs1), (sm_copies _ _ Hs1)).
  assert (Hl1 := sm_lent _ _ Hs1).
  destruct (bool_decide_reflect (code = Success)) as [->|Hne]; simpl.
  2: { eexists _, _, _. split; [reflexivity|]. split; [done|]. split; [done|]. rewrite decide_False by tauto. done. }
  destruct (bind_spec d c1 Hch1 (Hd1 eq_refl)) as (code & c2 & -> & Hs2 & Hch2 & _). simpl.
  assert (Hok2 := same_path_ok _ _ _ Hs2 Hch2 Hok1).
  assert (Hids2 : ids c2 = ids c) by (rewrite <- Hids1; unfold ids; by rewrite (sm_waiting _ _ Hs2), (sm_copies _ _ Hs2)).
  assert (Hl2 := sm_lent _ _ Hs2).
  destruct (bool_decide_reflect (code = Success)) as [->|Hne]; simpl.
  2: { eexists _, _, _. split; [reflexivity|]. split; [done|]. split; [done|]. rewrite decide_False by tauto. simpl. congruence. }
  destruct (the_pool_ok _ d c2 Hok2) as (dev & p & -> & Hp & Hout & Hpins). simpl.
  destruct (try_acquire _ _ _) as [[[code b] p'] v'] eqn:Hacq.
  assert (Hpins' := try_acquire_pins _ _ _ _ _ _ _ Hacq Hpins).
  destruct (try_acquire_ok _ _ _ _ _ _ _ Hp (λ base w H, fresh_of_driver _ _ _ _ _ _ H Hpins) Hacq) as (Hp' & _ & Hb).
  destruct Hok2 as [Hpar Hch _].
  destruct (staging_valid b) eqn:Hv; simpl in Hout.
  - destruct Hb as [-> Hout']. eexists _, _, _. split; [reflexivity|]. split; [|split; [done|]].
    + split; [done|by apply (channels_frame c2)|]. simpl. split; [done|]. split; [|done].
      change (waiting_entries _) with (waiting_entries c2). by rewrite Hout', Hout.
    + rewrite decide_True by (by split). simpl. congruence.
  - destruct Hb as (Hout' & _ & _). eexists _, _, _. split; [reflexivity|]. split; [|split; [done|]].
    + split; [done|by apply (channels_frame c2)|]. simpl. split; [done|]. split; [|done]. change (waiting_entries _) with (waiting_entries c2).
      by rewrite Hout', Hout.
    + rewrite decide_False by (intros [_ ?]; congruence). simpl. congruence.
Qed.

Lemma hand_over_ok b c : path_ok [] c → b ∈ dc_lent c →
  path_ok [b] (hand_over b c) ∧ dc_lent c ≡ₚ b :: dc_lent (hand_over b c).
Proof.
  intros [Hp Hch Hpool] Hb. pose proof (remove_one_perm _ _ Hb) as Hl. split; [|done]. split; [done|by apply (channels_frame c)|]. simpl.
  destruct (dc_pool c) as [[dev p]|].
  - destruct Hpool as (Hok & Hout & Hpin). split; [done|]. split; [|done]. rewrite Hout. simpl. rewrite Hl at 1. done.
  - destruct Hpool as (_ & Hnone & _). rewrite Hnone in Hb. by apply not_elem_of_nil in Hb.
Qed.

Lemma release_spec b c : path_ok [] c → b ∈ dc_lent c → ∃ c', release b c = Ret c' ∧ path_ok [] c' ∧ ids c' = ids c ∧
  dc_lent c ≡ₚ b :: dc_lent c'.
Proof.
  intros Hok Hb. destruct (hand_over_ok b c Hok Hb) as [Hok1 Hl]. unfold release.
  destruct (dc_pool c) as [x|] eqn:Hpl.
  - destruct (update_pool_ok [] (pool_release b) b _ (or_introl eq_refl) Hok1) as (Hok2 & Hl2 & Hw2 & Hc2).
    eexists. split; [reflexivity|]. split; [done|]. split; [unfold ids; by rewrite Hw2, Hc2|]. by rewrite Hl2.
  - pose proof (ck_pool _ _ Hok1) as H. simpl in H. rewrite Hpl in H. by destruct H.
Qed.

(** A call that gives the buffer back and reports by its code. *)
Lemma refused_ok f b c : gives_back f b → path_ok [b] c →
  path_ok [] (update_pool f c) ∧ ids (update_pool f c) = ids c ∧ dc_lent (update_pool f c) = dc_lent c.
Proof.
  intros Hf Hok. destruct (update_pool_ok [] f b c Hf Hok) as (H1 & H2 & H3 & H4).
  split; [done|]. split; [unfold ids; congruence|done].
Qed.

Lemma refused_event_ok f g d b c : gives_back f b → path_ok [b] c →
  path_ok [] (update_events d g (update_pool f c)) ∧ ids (update_events d g (update_pool f c)) = ids c ∧
  dc_lent (update_events d g (update_pool f c)) = dc_lent c.
Proof.
  intros Hf Hok. destruct (refused_ok f b c Hf Hok) as (H1 & H2 & H3).
  destruct (update_events_same d g (update_pool f c)) as [_ _ Hl Hw Hc _ _].
  split; [by apply update_events_ok|]. split; [unfold ids in *; congruence|congruence].
Qed.

(** A copy joins a stream. *)
Lemma enqueue_copy_ok d t e bound c : path_ok [en_buffer e] c → target d c = Some t →
  let c' := set_target d (mkTarget (tg_device t) (tg_stream t) bound (tg_waiting t ++ [e])) c in
  path_ok [] c' ∧ ids c' ≡ₚ en_id e :: ids c ∧ dc_lent c' = dc_lent c.
Proof.
  intros [Hp Hch Hpool] Ht c'. destruct (set_target_waiting d t c Ht) as (l1 & l2 & Hc & Hset).
  specialize (Hset (mkTarget (tg_device t) (tg_stream t) bound (tg_waiting t ++ [e]))). fold c' in Hset. simpl in Hset.
  destruct (set_target_rest d (mkTarget (tg_device t) (tg_stream t) bound (tg_waiting t ++ [e])) c) as (Hl & Hcp & Hdr).
  fold c' in Hl, Hcp, Hdr.
  assert (Hsame : dc_pool c' = dc_pool c ∧ dc_params c' = dc_params c) by (subst c'; unfold set_target; by destruct (dc_writer c)).
  destruct Hsame as [Hpl Hpar]. split; [|split; [|done]].
  - split; [by rewrite Hpar|by apply set_target_channels|]. rewrite Hpl, Hl, Hdr, Hset. destruct (dc_pool c) as [[dev p]|].
    + destruct Hpool as (Hok & Hout & Hpin). split; [done|]. split; [|done]. rewrite Hout, Hc, !map_app. simpl. solve_Permutation.
    + by destruct Hpool.
  - unfold ids. rewrite Hset, Hcp, Hc, !map_app. simpl. solve_Permutation.
Qed.

Lemma writer_write_ok d b event skip bytes destination id c : path_ok [b] c →
  let '(code, c') := writer_write d b event skip bytes destination id c in
  path_ok [] c' ∧ ids c' ≡ₚ (if decide (code = Success) then [id] else []) ++ ids c ∧ dc_lent c' = dc_lent c.
Proof.
  intros Hok. unfold writer_write.
  assert (Hrefused : ∀ code c1 f, code ≠ Success → gives_back f b → path_ok [b] c1 → ids c1 = ids c → dc_lent c1 = dc_lent c →
    let c' := update_events d (event_release event) (update_pool f c1) in
    path_ok [] c' ∧ ids c' ≡ₚ (if decide (code = Success) then [id] else []) ++ ids c ∧ dc_lent c' = dc_lent c).
  { intros code c1 f Hc Hf Hok1 Hi Hl c'. destruct (refused_event_ok f (event_release event) d b c1 Hf Hok1) as (H1 & H2 & H3).
    split; [done|]. rewrite decide_False by done. simpl. subst c'. by rewrite H2, H3, Hi, Hl. }
  destruct (target d c) as [t|] eqn:Ht; [|apply Hrefused; try done; by left].
  destruct (_ || _); [apply (Hrefused InvalidParameterError c); try done; by left|].
  destruct (memcpy_h2d_async _ _ _ _ _) as [code1 v1] eqn:Hm.
  pose proof (memcpy_pins destination (sb_data b + skip) bytes (tg_stream t) (dc_driver c)) as H1. rewrite Hm in H1. simpl in H1.
  destruct (if bool_decide (code1 = Success) then event_record _ _ _ else _) as [code2 v2] eqn:He.
  assert (H2 : pinned v2 = pinned (dc_driver c)).
  { destruct (bool_decide_reflect (code1 = Success)); [|by injection He as _ <-].
    pose proof (event_record_pins event (tg_stream t) v1) as H3. rewrite He in H3. simpl in H3. congruence. }
  destruct (bool_decide_reflect (code2 = Success)) as [->|Hne].
  - destruct (enqueue_copy_ok d t (mkEntry b event id) (tg_bound t) (with_driver v2 c)) as (H3 & H4 & H5);
      [by apply with_driver_ok|done|]. split; [done|]. split; [by rewrite H4, decide_True|done].
  - destruct (if bool_decide (code1 = Success) then stream_synchronize _ _ else _) as [code3 v3] eqn:Hs.
    assert (H3 : pinned v3 = pinned (dc_driver c)).
    { destruct (bool_decide_reflect (code1 = Success)); [|by injection Hs as _ <-].
      pose proof (stream_synchronize_pins (tg_stream t) v2) as H3. rewrite Hs in H3. simpl in H3. congruence. }
    assert (Hok3 : path_ok [b] (with_driver v3 c)) by by apply with_driver_ok.
    destruct (bool_decide (code3 = Success)); simpl.
    + apply (Hrefused code2 (with_driver v3 c)); try done. by left.
    + apply (Hrefused DeviceDriverError (with_driver v3 c)); try done. by right.
Qed.

Lemma write_spec d b skip bytes destination id c : path_ok [] c → b ∈ dc_lent c →
  ∃ code c', write d b skip bytes destination id c = Ret (code, c') ∧ path_ok [] c' ∧
    ids c' ≡ₚ (if decide (code = Success) then [id] else []) ++ ids c ∧ dc_lent c ≡ₚ b :: dc_lent c'.
Proof.
  intros Hok Hb. destruct (hand_over_ok b c Hok Hb) as [Hok1 Hl]. unfold write.
  assert (Hi1 : ids (hand_over b c) = ids c) by done. revert Hok1 Hl Hi1. generalize (hand_over b c). intros c1 Hok1 Hl Hi1.
  assert (Hrefused : ∀ code c2, code ≠ Success → path_ok [b] c2 → ids c2 = ids c → dc_lent c2 = dc_lent c1 →
    path_ok [] (update_pool (pool_release b) c2) ∧
    ids (update_pool (pool_release b) c2) ≡ₚ (if decide (code = Success) then [id] else []) ++ ids c ∧
    dc_lent c ≡ₚ b :: dc_lent (update_pool (pool_release b) c2)).
  { intros code c2 Hc Hok2 Hi Hl2. destruct (refused_ok (pool_release b) b c2 (or_introl eq_refl) Hok2) as (H1 & H2 & H3).
    split; [done|]. rewrite decide_False, H2, H3, Hi, Hl2 by done. done. }
  destruct (has_channel d c1) eqn:Hd; simpl; [|by eexists _, _; split; [reflexivity|apply Hrefused]].
  destruct (bind_spec d c1 (ck_channels _ _ Hok1) Hd) as (code & c2 & -> & Hs2 & Hch2 & Hd2 & Ht2). simpl.
  assert (Hok2 := same_path_ok _ _ _ Hs2 Hch2 Hok1).
  assert (Hi2 : ids c2 = ids c) by (rewrite <- Hi1; unfold ids; by rewrite (sm_waiting _ _ Hs2), (sm_copies _ _ Hs2)).
  assert (Hl2 := sm_lent _ _ Hs2).
  destruct (bool_decide_reflect (code = Success)) as [->|Hne]; simpl; [|by eexists _, _; split; [reflexivity|apply Hrefused]].
  destruct (ch_open _ Hch2 d Hd2) as [_ [p Hp]]. rewrite Hp.
  destruct (event_acquire _ _ _) as [[[code event] p'] v] eqn:He.
  assert (Hv : pinned v = pinned (dc_driver c2)).
  { unfold event_acquire in He. destruct (last (ep_free p)); [by injection He as _ _ _ <-|].
    destruct (_ >=? _); [by injection He as _ _ _ <-|]. destruct (event_create _ _) as [[code1 x] v1] eqn:Hc.
    match type of Hc with event_create ?dev ?v0 = _ => pose proof (event_create_pins dev v0) as H1 end.
    rewrite Hc in H1. simpl in H1. destruct (bool_decide _); by injection He as _ _ _ <-. }
  set (c3 := with_driver v (with_events (set_device d p' (dc_events c2)) c2)).
  assert (Hok3 : path_ok [b] c3).
  { destruct Hok2 as [Hpar Hch Hpool]. split; [done| |].
    - split; [apply (ch_keys _ Hch)|]. intros k Hk. destruct (ch_open _ Hch k Hk) as [H1 H2]. split; [done|]. simpl. by apply of_device_set.
    - simpl. rewrite Hv. done. }
  destruct (negb _ || _) eqn:Hev.
  - eexists _, _. split; [reflexivity|]. apply Hrefused; try done. by destruct (bool_decide_reflect (code = Success)).
  - pose proof (writer_write_ok d b event skip bytes destination id c3 Hok3) as Hw.
    destruct (writer_write _ _ _ _ _ _ _ _) as [code' c']. destruct Hw as (H1 & H2 & H3).
    exists code', c'. split; [done|]. split; [done|]. split; [by rewrite H2, <- Hi2|]. rewrite H3. simpl. by rewrite Hl2.
Qed.

Lemma busy_device_None c : busy_device c = None → waiting_entries c = [].
Proof.
  unfold busy_device, waiting_entries. destruct (dc_writer c) as [w|]; [|done].
  induction (wr_targets w) as [|[d t] l IH]; simpl; [done|]. rewrite filter_cons. simpl.
  destruct (decide _) as [Hd|Hd]; [done|]. intros H. rewrite IH by done.
  destruct (tg_waiting t); [done|]. by destruct Hd.
Qed.

Lemma busy_device_Some c d : channels_ok c → busy_device c = Some d → ∃ t, target d c = Some t ∧ tg_waiting t ≠ [].
Proof.
  intros [Hk _]. unfold busy_device, target_keys, target in *. destruct (dc_writer c) as [w|]; [|done].
  destruct (filter _ _) as [|[d' t] l] eqn:Hf; simpl; [done|]. intros [= ->].
  assert (Hin : (d, t) ∈ filter (λ x, tg_waiting x.2 ≠ []) (wr_targets w)) by (rewrite Hf; left).
  apply list_elem_of_filter in Hin as [Hw Hin]. exists t. split; [by apply of_device_elem|done].
Qed.

Lemma pop_spec wait c : path_ok [] c → let '(r, c') := pop wait c in
  path_ok [] c' ∧ dc_lent c' = dc_lent c ∧
  match r with
  | Some (id, _) => ids c ≡ₚ id :: ids c'
  | None => ids c' = ids c ∧ (wait = true → ids c = [])
  end.
Proof.
  intros Hok. unfold pop.
  assert (Htake : ∀ c1, path_ok [] c1 → dc_lent c1 = dc_lent c → ids c1 ≡ₚ ids c → dc_copies c1 ≠ [] →
    let '(r, c') := match dc_copies c1 with [] => (None, c1) | x :: rest => (Some x, with_copies_done rest c1) end in
    path_ok [] c' ∧ dc_lent c' = dc_lent c ∧
    match r with
    | Some (id, _) => ids c ≡ₚ id :: ids c'
    | None => ids c' = ids c ∧ (wait = true → ids c = [])
    end).
  { intros c1 Hok1 Hl1 Hi1 Hne. destruct (dc_copies c1) as [|[id code] rest] eqn:Hc1; [done|].
    split; [by apply report_ok|]. split; [done|]. rewrite <- Hi1. unfold ids. rewrite Hc1. simpl. solve_Permutation. }
  destruct (dc_copies c) as [|x l] eqn:Hc.
  - destruct wait.
    + destruct (busy_device c) as [d|] eqn:Hb.
      * destruct (busy_device_Some c d (ck_channels _ _ Hok) Hb) as (t & Ht & Hw).
        destruct (wait_for_ok [] d c Hok) as (Hok1 & Hl1 & Hi1 & Hne & _). apply Htake; try done. by eapply Hne.
      * rewrite Hc. split; [done|]. split; [done|]. split; [done|]. intros _. unfold ids.
        by rewrite (busy_device_None c Hb), Hc.
    + rewrite Hc. done.
  - apply Htake; try done. by rewrite Hc.
Qed.

(** ** The client the asynchronous workers see *)

Record DeviceWriterClient := mkDeviceClient { the_client : Client (V := V); the_client_ok : path_ok [] the_client }.

Definition lift_client {A} (A0 : A) (o : outcome (A * Client)) (s : DeviceWriterClient) :
    (∀ a c', o = Ret (a, c') → path_ok [] c') → A * DeviceWriterClient :=
  match o with
  | Ret (a, c') => λ ok, (a, mkDeviceClient c' (ok a c' eq_refl))
  | Throw _ => λ _, (A0, s)
  end.

Lemma lift_client_Ret {A} (A0 : A) (o : outcome (A * Client)) (s : DeviceWriterClient) ok : (∃ a c', o = Ret (a, c')) →
  ∃ a (s' : DeviceWriterClient), o = Ret (a, the_client s') ∧ lift_client A0 o s ok = (a, s').
Proof. intros (a & c' & ->). by exists a, (mkDeviceClient c' (ok a c' eq_refl)). Qed.

(** Each call, after whatever the waiters did. *)
Definition take_turn d c : outcome ((ResponseCode * StagingBuffer) * Client) :=
  let! (code, b, c) := take d (run_waiters c) in Ret ((code, b), c).
Definition write_turn d b skip bytes destination id c : outcome (ResponseCode * Client) :=
  write d b skip bytes destination id (run_waiters c).
Definition release_turn b c : outcome (unit * Client) :=
  let! c := release b (run_waiters c) in Ret ((), c).
Definition pop_turn wait c : option (Z * ResponseCode) * Client := pop wait (run_waiters c).

Lemma take_turn_ok d c : path_ok [] c → ∃ code b c', take_turn d c = Ret ((code, b), c') ∧ path_ok [] c' ∧ ids c' ≡ₚ ids c ∧
  dc_lent c' = (if decide (code = Success ∧ staging_valid b = true) then [b] else []) ++ dc_lent c.
Proof.
  intros Hok. destruct (run_waiters_ok [] c Hok) as (Hok1 & Hl1 & Hi1). unfold take_turn.
  destruct (take_spec d _ Hok1) as (code & b & c' & -> & Hok2 & Hi2 & Hl2). simpl. exists code, b, c'.
  split; [done|]. split; [done|]. split; [by rewrite Hi2|]. by rewrite Hl2, Hl1.
Qed.

Lemma write_turn_ok d b skip bytes destination id c : path_ok [] c → b ∈ dc_lent c →
  ∃ code c', write_turn d b skip bytes destination id c = Ret (code, c') ∧ path_ok [] c' ∧
    ids c' ≡ₚ (if decide (code = Success) then [id] else []) ++ ids c ∧ dc_lent c ≡ₚ b :: dc_lent c'.
Proof.
  intros Hok Hb. destruct (run_waiters_ok [] c Hok) as (Hok1 & Hl1 & Hi1). unfold write_turn. rewrite <- Hl1 in Hb |- *.
  destruct (write_spec d b skip bytes destination id _ Hok1 Hb) as (code & c' & -> & Hok2 & Hi2 & Hl2).
  exists code, c'. split; [done|]. split; [done|]. by rewrite Hi2, Hi1.
Qed.

Lemma release_turn_ok b c : path_ok [] c → b ∈ dc_lent c →
  ∃ c', release_turn b c = Ret ((), c') ∧ path_ok [] c' ∧ ids c' ≡ₚ ids c ∧ dc_lent c ≡ₚ b :: dc_lent c'.
Proof.
  intros Hok Hb. destruct (run_waiters_ok [] c Hok) as (Hok1 & Hl1 & Hi1). unfold release_turn. rewrite <- Hl1 in Hb |- *.
  destruct (release_spec b _ Hok1 Hb) as (c' & -> & Hok2 & Hi2 & Hl2). simpl.
  exists c'. split; [done|]. split; [done|]. by rewrite Hi2.
Qed.

Lemma pop_turn_ok wait c : path_ok [] c → let '(r, c') := pop_turn wait c in
  path_ok [] c' ∧ dc_lent c' = dc_lent c ∧
  match r with
  | Some (id, _) => ids c ≡ₚ id :: ids c'
  | None => ids c' ≡ₚ ids c ∧ (wait = true → ids c = [])
  end.
Proof.
  intros Hok. destruct (run_waiters_ok [] c Hok) as (Hok1 & Hl1 & Hi1). unfold pop_turn.
  pose proof (pop_spec wait _ Hok1) as H. destruct (pop _ _) as [[[id code]|] c']; destruct H as (H1 & H2 & H3).
  - split; [done|]. split; [congruence|]. by rewrite <- Hi1.
  - split; [done|]. split; [congruence|]. destruct H3 as [H3 H4]. split; [by rewrite H3|].
    intros Hw. specialize (H4 Hw). apply Permutation_nil. by rewrite <- Hi1, H4.
Qed.

Lemma take_keeps d c : path_ok [] c → ∀ x c', take_turn d c = Ret (x, c') → path_ok [] c'.
Proof. intros Hok x c' E. destruct (take_turn_ok d c Hok) as (? & ? & ? & E' & H & _). rewrite E in E'. by injection E' as _ ->. Qed.

Lemma write_keeps d b skip bytes destination id c : path_ok [] c → b ∈ dc_lent c →
  ∀ x c', write_turn d b skip bytes destination id c = Ret (x, c') → path_ok [] c'.
Proof.
  intros Hok Hb x c' E. destruct (write_turn_ok d b skip bytes destination id c Hok Hb) as (? & ? & E' & H & _).
  rewrite E in E'. by injection E' as _ ->.
Qed.

Lemma release_keeps b c : path_ok [] c → b ∈ dc_lent c → ∀ x c', release_turn b c = Ret (x, c') → path_ok [] c'.
Proof.
  intros Hok Hb x c' E. destruct (release_turn_ok b c Hok Hb) as (? & E' & H & _). rewrite E in E'. by injection E' as _ ->.
Qed.

Lemma pop_keeps wait c : path_ok [] c → ∀ x c', Ret (pop_turn wait c) = Ret (x, c') → path_ok [] c'.
Proof. intros Hok x c' [= E]. pose proof (pop_turn_ok wait c Hok) as H. rewrite E in H. by destruct H. Qed.

(** A worker writes and gives back only what it was lent: another buffer is answered here with an error. *)
#[export] Instance device_writer_client : DeviceClient DeviceWriterClient := {
  client_take d s := lift_client (UnknownError, no_staging) (take_turn d (the_client s)) s (take_keeps d _ (the_client_ok s));
  client_write d b skip bytes destination id s :=
    match decide (b ∈ dc_lent (the_client s)) with
    | left Hb => lift_client UnknownError (write_turn d b skip bytes destination id (the_client s)) s
                   (write_keeps d b skip bytes destination id _ (the_client_ok s) Hb)
    | right _ => (UnknownError, s)
    end;
  client_release b s :=
    match decide (b ∈ dc_lent (the_client s)) with
    | left Hb => Ret (lift_client () (release_turn b (the_client s)) s (release_keeps b _ (the_client_ok s) Hb)).2
    | right _ => Throw AssertFailed
    end;
  client_slab_at i s := slab_at i (the_client s);
  copies_pop wait s := lift_client None (Ret (pop_turn wait (the_client s))) s (pop_keeps wait _ (the_client_ok s));
  copying s := merge_sort (≤) (ids (the_client s));
  lent s := dc_lent (the_client s) }.

Lemma sorted_same (l k : list Z) : l ≡ₚ k → merge_sort (≤) l = merge_sort (≤) k.
Proof.
  intros H. apply (Sorted_unique (≤)).
  - apply Sorted_merge_sort. apply _.
  - apply Sorted_merge_sort. apply _.
  - by rewrite !merge_sort_Permutation.
Qed.

Lemma client_take_turn d (s : DeviceWriterClient) : ∃ x s',
  take_turn d (the_client s) = Ret (x, the_client s') ∧ client_take d s = (x, s').
Proof.
  apply lift_client_Ret. destruct (take_turn_ok d _ (the_client_ok s)) as (code & b & c' & E & _). by eexists _, _.
Qed.

Lemma client_write_turn d b skip bytes destination id (s : DeviceWriterClient) : b ∈ lent s → ∃ code s',
  write_turn d b skip bytes destination id (the_client s) = Ret (code, the_client s') ∧
  client_write d b skip bytes destination id s = (code, s').
Proof.
  intros Hb. simpl in Hb. cbn [client_write device_writer_client]. destruct (decide _) as [Hb'|]; [|done].
  apply lift_client_Ret. destruct (write_turn_ok d b skip bytes destination id _ (the_client_ok s) Hb) as (code & c' & E & _).
  by eexists _, _.
Qed.

Lemma client_release_turn b (s : DeviceWriterClient) : b ∈ lent s → ∃ s',
  release_turn b (the_client s) = Ret ((), the_client s') ∧ client_release b s = Ret s'.
Proof.
  intros Hb. simpl in Hb. cbn [client_release device_writer_client]. destruct (decide _) as [Hb'|]; [|done].
  destruct (lift_client_Ret () (release_turn b (the_client s)) s (release_keeps b _ (the_client_ok s) Hb')) as ([] & s' & E & E').
  - destruct (release_turn_ok b _ (the_client_ok s) Hb) as (c' & E & _). by eexists _, _.
  - exists s'. by rewrite E'.
Qed.

Lemma client_pop_turn wait (s : DeviceWriterClient) : ∃ r s',
  pop_turn wait (the_client s) = (r, the_client s') ∧ copies_pop wait s = (r, s').
Proof.
  destruct (lift_client_Ret None (Ret (pop_turn wait (the_client s))) s (pop_keeps wait _ (the_client_ok s))) as (r & s' & [= E] & E').
  { destruct (pop_turn wait (the_client s)) as [r c']. by eexists _, _. }
  by exists r, s'.
Qed.

#[export] Instance device_client_laws : ClientLaws DeviceWriterClient.
Proof.
  split.
  - intros d s code b s' E. destruct (client_take_turn d s) as (x & s2 & Et & E2). rewrite E in E2. injection E2 as <- <-.
    destruct (take_turn_ok d _ (the_client_ok s)) as (code2 & b2 & c2 & Et2 & _ & Hi & Hl). rewrite Et in Et2.
    injection Et2 as -> -> <-. split; [by apply sorted_same|]. simpl. by rewrite Hl.
  - intros d b skip bytes destination id s code s' l E Hl. assert (Hb : b ∈ lent s) by (rewrite Hl; left).
    destruct (client_write_turn d b skip bytes destination id s Hb) as (code2 & s2 & Ew & E2). rewrite E in E2.
    injection E2 as <- <-.
    destruct (write_turn_ok d b skip bytes destination id _ (the_client_ok s) Hb) as (code3 & c3 & Ew2 & _ & Hi & Hl3).
    rewrite Ew in Ew2. injection Ew2 as -> <-. split.
    + simpl. by rewrite !merge_sort_Permutation.
    + simpl in *. apply (Permutation_cons_inv (a := b)). by rewrite <- Hl3, Hl.
  - intros b s l Hl. assert (Hb : b ∈ lent s) by (rewrite Hl; left).
    destruct (client_release_turn b s Hb) as (s2 & Er & E2). exists s2. split; [done|].
    destruct (release_turn_ok b _ (the_client_ok s) Hb) as (c3 & Er2 & _ & Hi & Hl3).
    rewrite Er in Er2. injection Er2 as <-. split; [by apply sorted_same|].
    simpl in *. apply (Permutation_cons_inv (a := b)). by rewrite <- Hl3, Hl.
  - intros wait s r s' E. destruct (client_pop_turn wait s) as (r2 & s2 & Ep & E2). rewrite E in E2. injection E2 as <- <-.
    pose proof (pop_turn_ok wait _ (the_client_ok s)) as H. rewrite Ep in H. destruct H as (_ & Hl & Hi).
    split; [done|]. destruct r as [[id code]|].
    + simpl. by rewrite !merge_sort_Permutation.
    + destruct Hi as [Hi Hn]. split; [by apply sorted_same|]. intros Hw. simpl. by rewrite (Hn Hw).
Qed.

(** C14: [DeviceWriterClient] keeps the promises of [DeviceClient], each call being the code's after
    whatever the waiters did.  Whatever the driver answers, failures to open, bind, record or wait
    included: a buffer taken is the worker's until it is given back or written; a write takes it from the worker on every path
    and its copy reports exactly when the write returned Success, once; waiting for a copy comes back
    empty only when none is under way; and no assertion fails. *)
Theorem device_client_refines : ClientLaws DeviceWriterClient ∧ ∀ s : DeviceWriterClient,
  (∀ d, ∃ x s', take_turn d (the_client s) = Ret (x, the_client s') ∧ client_take d s = (x, s')) ∧
  (∀ d b skip bytes destination id, b ∈ lent s → ∃ code s',
     write_turn d b skip bytes destination id (the_client s) = Ret (code, the_client s') ∧
     client_write d b skip bytes destination id s = (code, s')) ∧
  (∀ b, b ∈ lent s → ∃ s', release_turn b (the_client s) = Ret ((), the_client s') ∧ client_release b s = Ret s') ∧
  (∀ wait, ∃ r s', pop_turn wait (the_client s) = (r, the_client s') ∧ copies_pop wait s = (r, s')).
Proof.
  split; [apply _|]. intros s. split; [intros d; apply client_take_turn|]. split; [intros; by apply client_write_turn|].
  split; [intros b; apply client_release_turn|intros wait; apply client_pop_turn].
Qed.
End Laws.
