(* ===== verification/Reporting.v ===== *)
(** Answering for batches, as every worker does it: maps kept in key order, the report of a finished
    workload, and what answering some tasks of a batch does to it.

    [report_batches] is the report_workload of both kinds of asynchronous worker
    (streamer/impl/async_io/async_io_worker and streamer/impl/object_storage_worker). *)

From S2P Require Import Prelude ResponseCode SharedQueue Task ChunkSplitter Batch.

(** ** Maps kept in key order *)

Section Assoc.
Context {A : Type}.

Fixpoint assoc (k : Z) (l : list (Z * A)) : option A :=
  match l with [] => None | (k', x) :: l => if k =? k' then Some x else assoc k l end.

Fixpoint assoc_set (k : Z) (x : A) (l : list (Z * A)) : list (Z * A) :=
  match l with [] => [] | (k', y) :: l => if k =? k' then (k', x) :: l else (k', y) :: assoc_set k x l end.

Fixpoint assoc_remove (k : Z) (l : list (Z * A)) : list (Z * A) :=
  match l with [] => [] | (k', y) :: l => if k =? k' then l else (k', y) :: assoc_remove k l end.
End Assoc.

(** ** The report *)

Section Report.
Context {R : Type} `{!Responder R}.

(** report_workload: every batch is told its file's first error, or [code] when that is one. *)
Fixpoint report_batches (code : ResponseCode) (errors : gmap Z ResponseCode) (bs : list Batch) (w : world (R := R)) :
    outcome (list Batch * world (R := R)) :=
  match bs with
  | [] => Ret ([], w)
  | b :: bs =>
      let error := if decide (code = Success) then default Success (errors !! b_file_index b) else code in
      let! (b, w) := handle_error error b w in
      let! (bs, w) := report_batches code errors bs w in
      Ret (b :: bs, w)
  end.

End Report.

(** ** Lemmas on the maps *)

Section AssocLemmas.
Context {A : Type}.
Implicit Types (l : list (Z * A)).

Lemma assoc_split k x l : assoc k l = Some x → ∃ l1 l2, l = l1 ++ (k, x) :: l2 ∧ assoc k l1 = None.
Proof.
  induction l as [|[k' y] l IH]; simpl; [done|]. destruct (Z.eqb_spec k k') as [<-|Hne].
  - intros [= ->]. by exists [], l.
  - intros (l1 & l2 & -> & Hl)%IH. exists ((k', y) :: l1), l2. simpl. by rewrite (proj2 (Z.eqb_neq _ _)).
Qed.

Lemma assoc_app_None k l1 l2 : assoc k l1 = None → assoc k (l1 ++ l2) = assoc k l2.
Proof. induction l1 as [|[k' y] l1 IH]; simpl; [done|]. by destruct (k =? k'). Qed.

Lemma assoc_set_split k x y l1 l2 : assoc k l1 = None →
  assoc_set k y (l1 ++ (k, x) :: l2) = l1 ++ (k, y) :: l2.
Proof.
  induction l1 as [|[k' z] l1 IH]; simpl; [by rewrite Z.eqb_refl|]. destruct (k =? k'); [done|].
  intros H. by rewrite IH.
Qed.

Lemma assoc_remove_split k x l1 l2 : assoc k l1 = None → assoc_remove k (l1 ++ (k, x) :: l2) = l1 ++ l2.
Proof.
  induction l1 as [|[k' z] l1 IH]; simpl; [by rewrite Z.eqb_refl|]. destruct (k =? k'); [done|].
  intros H. by rewrite IH.
Qed.

Lemma assoc_set_eq k y l : is_Some (assoc k l) → assoc k (assoc_set k y l) = Some y.
Proof.
  intros [x (l1 & l2 & -> & Hl)%assoc_split]. rewrite (assoc_set_split _ x) by done.
  rewrite assoc_app_None by done. simpl. by rewrite Z.eqb_refl.
Qed.

Lemma assoc_set_ne k k' y l : k ≠ k' → assoc k (assoc_set k' y l) = assoc k l.
Proof.
  intros Hne. induction l as [|[k2 z] l IH]; simpl; [done|]. destruct (Z.eqb_spec k' k2) as [->|H2]; simpl.
  - by rewrite (proj2 (Z.eqb_neq k k2)).
  - by rewrite IH.
Qed.

Lemma assoc_remove_ne k k' l : k ≠ k' → assoc k (assoc_remove k' l) = assoc k l.
Proof.
  intros Hne. induction l as [|[k2 z] l IH]; simpl; [done|]. destruct (Z.eqb_spec k' k2) as [->|H2]; simpl.
  - by rewrite (proj2 (Z.eqb_neq k k2)).
  - by rewrite IH.
Qed.

Lemma assoc_elem k x l : assoc k l = Some x → (k, x) ∈ l.
Proof. intros (l1 & l2 & -> & _)%assoc_split. rewrite elem_of_app, elem_of_cons. auto. Qed.

Lemma assoc_None k l : assoc k l = None ↔ k ∉ map fst l.
Proof.
  induction l as [|[k' y] l IH]; simpl; [split; [intros _ ?%not_elem_of_nil; done|done]|].
  rewrite not_elem_of_cons. destruct (Z.eqb_spec k k'); [split; [done|intros [? _]; done]|]. rewrite IH. tauto.
Qed.

Lemma assoc_set_keys k y l : map fst (assoc_set k y l) = map fst l.
Proof. induction l as [|[k' z] l IH]; simpl; [done|]. destruct (k =? k'); simpl; [done|by rewrite IH]. Qed.
End AssocLemmas.

(** ** What an answer does *)

Section Answering.
Context {R : Type} `{!Responder R} (owner : nat → Z) (log0 : list Response).

Definition all_done (b : Batch) : Prop := Forall (λ t, t_finished t = true) (tasks b).

Lemma all_tasks_permutation bs1 bs2 : bs1 ≡ₚ bs2 → all_tasks bs1 ≡ₚ all_tasks bs2.
Proof. intros H. unfold all_tasks. by rewrite H. Qed.

Lemma system_ok_perm answered bs1 bs2 (x : world (R := R)) : bs1 ≡ₚ bs2 →
  system_ok owner log0 answered bs1 x → system_ok owner log0 answered bs2 x.
Proof.
  intros Hp [[Hc Hn Ha Hl Hr] Hb]. pose proof (all_tasks_permutation _ _ Hp) as Ht.
  split; [split; try done|by rewrite <- Hp].
  - by rewrite <- Ht.
  - intros k. by rewrite Ha, Ht.
Qed.

(** A failure is recorded under a code that is one. *)
Definition errors_ok (errors : gmap Z ResponseCode) : Prop := ∀ f c, errors !! f = Some c → c ≠ Success.

(** The file of [b] is already known to have failed. *)
Definition file_failed (errors : gmap Z ResponseCode) (b : Batch) : Prop := is_Some (errors !! b_file_index b).

Lemma handle_response_total answered before b after (x : world (R := R)) i t :
  system_ok owner log0 answered (before ++ b :: after) x → tasks b !! i = Some t →
  ∃ x' answered', handle_response Success (Some i) b x =
      Ret (set_tasks b (<[i := set_finished t]> (tasks b)) (unfinished b), x') ∧
    system_ok owner log0 answered' (before ++ set_tasks b (<[i := set_finished t]> (tasks b)) (unfinished b) :: after) x'.
Proof.
  intros Hs Ht. pose proof Hs as [_ Hb]. apply Forall_app in Hb as [_ Hb]. apply Forall_cons in Hb as [[Hown _] _].
  rewrite Forall_lookup in Hown. destruct (Hown _ _ Ht) as (r & Hr & Hf).
  unfold handle_response. simpl. rewrite Ht, Hr. rewrite ASSERT_true by by apply Z.eqb_eq. cbn [obind].
  pose proof Ht as (l1 & l2 & Hl & ->)%list_elem_of_split_length.
  destruct (finish_segment owner log0 answered before b after x Success l1 [t] l2 (unfinished b) Hs)
    as (x' & a' & E1 & Hs' & _); [by rewrite Hl|].
  simpl in E1. destruct (finish_task _ _ _ t x) as [[t' x1]|] eqn:E2; simpl in E1; [|done].
  injection E1 as -> ->. cbn [obind]. exists x', a'.
  rewrite Hl, insert_app_r_alt, Nat.sub_diag by lia. done.
Qed.

Lemma handle_error_done answered before b after (x : world (R := R)) error :
  system_ok owner log0 answered (before ++ b :: after) x → error ≠ Success ∨ all_done b →
  ∃ b' x' answered', handle_error error b x = Ret (b', x') ∧ all_done b' ∧ length (tasks b') = length (tasks b) ∧
    system_ok owner log0 answered' (before ++ b' :: after) x'.
Proof.
  intros Hs He. destruct (decide (error = Success)) as [->|Hne].
  - exists b, x, answered. unfold handle_error. rewrite decide_True by done.
    destruct He as [|Hd]; [done|]. by split_and!.
  - destruct (handle_error_ok _ _ _ _ _ _ _ _ Hs Hne) as (b' & x' & a' & E1 & Hs' & -> & _).
    eexists _, x', a'. split; [done|]. unfold all_done. simpl. rewrite length_map. split_and!; [|done|done].
    by apply Forall_map, Forall_true.
Qed.

Lemma report_batches_spec code errors bs : ∀ answered before after (x : world (R := R)),
  system_ok owner log0 answered (before ++ bs ++ after) x → errors_ok errors →
  code ≠ Success ∨ Forall (λ b, file_failed errors b ∨ all_done b) bs →
  ∃ bs' x' answered', report_batches code errors bs x = Ret (bs', x') ∧ Forall all_done bs' ∧
    system_ok owner log0 answered' (before ++ bs' ++ after) x'.
Proof.
  induction bs as [|b bs IH]; intros answered before after x Hs Herr Hcode; simpl.
  { exists [], x, answered. by split_and!. }
  set (error := if decide (code = Success) then default Success (errors !! b_file_index b) else code).
  destruct (handle_error_done answered before b (bs ++ after) x error) as (b' & x1 & a1 & -> & Hd & _ & Hs1); [done| |].
  { subst error. destruct (decide (code = Success)) as [->|Hne]; [|by left].
    destruct Hcode as [|Hc]; [done|]. apply Forall_cons in Hc as [[[c Hc]|Hc] _]; [|by right].
    left. rewrite Hc. simpl. by eapply Herr. }
  cbn [obind].
  destruct (IH a1 (before ++ [b']) after x1) as (bs' & x2 & a2 & -> & Hds & Hs2); [by rewrite <- app_assoc|done| |].
  { destruct Hcode as [|Hc]; [by left|right]. by apply Forall_cons in Hc as [_ ?]. }
  cbn [obind]. exists (b' :: bs'), x2, a2. split; [done|]. split; [by constructor|]. by rewrite <- app_assoc in Hs2.
Qed.

(** ** Some tasks of a batch *)

(** A batch some of whose tasks were answered. *)
Record advanced (b b' : Batch) : Prop := {
  ad_submission : b_submission_id b' = b_submission_id b;
  ad_file : b_file_index b' = b_file_index b;
  ad_chunks : chunks b' = chunks b;
  ad_length : length (tasks b') = length (tasks b);
  ad_tasks : ∀ j t, tasks b !! j = Some t → ∃ t', tasks b' !! j = Some t' ∧ info t' = info t ∧
    (t_finished t = true → t_finished t' = true) }.

Lemma advanced_refl b : advanced b b.
Proof. split; eauto. Qed.

Lemma advanced_trans b1 b2 b3 : advanced b1 b2 → advanced b2 b3 → advanced b1 b3.
Proof.
  intros [A1 A2 A3 A4 A5] [B1 B2 B3 B4 B5]. split; [congruence..|]. intros j t Ht.
  destruct (A5 _ _ Ht) as (t1 & Ht1 & E1 & F1). destruct (B5 _ _ Ht1) as (t2 & Ht2 & E2 & F2).
  exists t2. split; [done|]. split; [congruence|auto].
Qed.

Lemma advanced_one b i t : tasks b !! i = Some t →
  advanced b (set_tasks b (<[i := set_finished t]> (tasks b)) (unfinished b)).
Proof.
  intros Ht. split; simpl; [done|done|done|apply length_insert|].
  intros j t' Hj. destruct (decide (j = i)) as [->|Hne].
  - rewrite list_lookup_insert_eq by (by eapply lookup_lt_Some). exists (set_finished t). split; [done|].
    rewrite Ht in Hj. injection Hj as <-. done.
  - rewrite list_lookup_insert_ne by done. eauto.
Qed.

(** The tasks of [b'] from [i] on, [n] of them, that have bytes are finished. *)
Definition range_done (n i : nat) (b' : Batch) : Prop :=
  ∀ j t, (i <= j < i + n)%nat → tasks b' !! j = Some t → t_bytesize t ≠ 0 → t_finished t = true.

Definition record_error (ret : ResponseCode) (b : Batch) (errors : gmap Z ResponseCode) : gmap Z ResponseCode :=
  match errors !! b_file_index b with Some _ => errors | None => <[b_file_index b := ret]> errors end.

Lemma record_error_spec ret b errors : errors_ok errors → ret ≠ Success →
  errors_ok (record_error ret b errors) ∧ file_failed (record_error ret b errors) b ∧
  ∀ b', file_failed errors b' → file_failed (record_error ret b errors) b'.
Proof.
  intros He Hr. unfold record_error, file_failed. destruct (errors !! b_file_index b) as [c|] eqn:E1; [by rewrite E1|].
  split; [|split].
  - intros f c. destruct (decide (f = b_file_index b)) as [->|Hne].
    + rewrite lookup_insert_eq. by intros [= <-].
    + rewrite lookup_insert_ne by done. apply He.
  - rewrite lookup_insert_eq. eauto.
  - intros b' [c Hc]. destruct (decide (b_file_index b' = b_file_index b)) as [->|Hne]; [by rewrite lookup_insert_eq|].
    by rewrite lookup_insert_ne.
Qed.

Lemma pending_done k ts : Forall (λ t, t_finished t = true) ts → Task.pending k ts = 0%nat.
Proof.
  intros H. unfold Task.pending. rewrite filter_none; [done|]. intros t Ht [_ Hf].
  rewrite Forall_forall in H. by rewrite H in Hf.
Qed.

Lemma all_tasks_done bs : Forall all_done bs → Forall (λ t, t_finished t = true) (all_tasks bs).
Proof. intros H. unfold all_tasks. by apply Forall_concat, Forall_map. Qed.

(** With every batch answered, every request has its one response. *)
Lemma system_answered answered bs (x : world (R := R)) : system_ok owner log0 answered bs x → Forall all_done bs →
  ∃ l, responder_log (responder x) = log0 ++ l ∧ Forall2 (logged (requests x) owner) answered l ∧
    NoDup answered ∧ ∀ k, k ∈ answered ↔ is_Some (requests x !! k).
Proof.
  intros [[_ Hn Ha (l & Hl & Hf) _] _] Hd. exists l. split_and!; try done. intros k. rewrite Ha.
  rewrite pending_done by by apply all_tasks_done. tauto.
Qed.

End Answering.

(** ** An example: the two chunks of one file, used by the scenarios *)

Definition two_tasks : list Task :=
  [make_task 0 (make_info 0 512 0); make_task 1 (make_info 512 512 0)].

Definition two_requests : store :=
  {[0%nat := make_request 0 0 0 1 512 4096; 1%nat := make_request 512 0 1 1 512 4608]}.

Definition two_chunks : Batch :=
  mkBatch 7 0 0 false two_tasks [mkChunk 0 512 4096 0 1; mkChunk 512 512 4608 1 1] (mkRange 0 1024 1024) 0.

Lemma two_chunks_fresh : fresh (λ _, 7) [two_chunks] (mkWorld two_requests (make_queue 2 PERSISTENT)).
Proof.
  assert (Hown : Forall (owned 0 two_requests) two_tasks).
  { repeat constructor; eexists; (split; [vm_compute; reflexivity|reflexivity]). }
  assert (Hlook : ∀ k r, two_requests !! k = Some r → (k = 0%nat ∧ r = make_request 0 0 0 1 512 4096) ∨
    (k = 1%nat ∧ r = make_request 512 0 1 1 512 4608)).
  { unfold two_requests. intros k r [[<- <-]|[_ Hk]]%lookup_insert_Some; [by left|].
    apply lookup_singleton_Some in Hk as [<- <-]. by right. }
  split.
  - split; simpl.
    + intros k r [[-> ->]|[-> ->]]%Hlook; vm_compute; reflexivity.
    + reflexivity.
    + intros t Ht. change (t ∈ two_tasks) in Ht. rewrite Forall_forall in Hown. destruct (Hown t Ht) as (r & Hr & _).
      by exists r.
  - intros k [r [[-> ->]|[-> ->]]%Hlook]; vm_compute; discriminate.
  - apply Forall_singleton. split; [exact Hown|by apply Forall_forall].
  - vm_compute. repeat split; discriminate.
Qed.
