(* ===== verification/AsyncIoWorker.v ===== *)
(** The asynchronous reader of one mount (streamer/impl/async_io/async_io_worker): workloads become
    requests, requests become reads, completions become responses.

    The state is the worker's once its window is up, that is after capacity().  What is not here: the
    logging, the time-weighted depth (a statistic over the clock) and the bytes themselves, which
    [DirectPass] follows.  [retired] and [k_ends] are not in the code: they keep the batches of the workloads
    the worker has finished with, and for each workload that was reported the code and the engine as it was at that
    moment, so that what became of them can be stated. *)

From S2P Require Import Prelude ResponseCode Text SharedQueue Task ChunkSplitter Batch Workload Alignment.
From S2P Require Import CompletionMapper ScratchPool CapacityQueue InflightChunks DirectPass IoEngine Reporting.

(** ** State *)

(** [None] is no descriptor. *)
Record BatchFd := mkBatchFd { bf_fd : option Z; bf_direct : bool; bf_error : ResponseCode }.

Definition unopened : BatchFd := mkBatchFd None false Success.

Record Inflight := mkInflightWorkload {
  if_workload : Workload; if_fds : list BatchFd; if_remaining : Z; if_errors : gmap Z ResponseCode }.

Record QueuedChunk := mkQueuedChunk { qc_id : Z; qc_offset : Z; qc_bytesize : Z; qc_buffer : Z }.

Record Counters := mkCounters {
  ct_bytes_read : Z; ct_bounced_bytes : Z; ct_short_read_restages : Z; ct_transient_retries : Z; ct_achieved_depth : Z }.

Section Worker.
Context {R E D F : Type} `{!Responder R, !IoEngine E, !DeviceClient D, !Files F}.

(** [direct_strategy] and [register_buffers] are fixed when the worker is built; [path_of] is the path each
    batch was built with, by submission and file. *)
Context (direct_strategy register_buffers : bool) (path_of : Z → Z → text).

Record worker := mkWorker {
  k_block : Z; k_measured : bool; k_refused : bool; k_dead : bool; k_error : ResponseCode;
  k_scratch : option ScratchPool; k_copies : Z; k_waiting : list Z; k_chunks : InflightChunks;
  k_inflight : list (Z * Inflight); k_next : Z; k_issued : Z; k_stalled : Z;
  k_queue : CapacityQueue QueuedChunk; k_counters : Counters;
  k_engine : E; k_client : D; k_files : F; k_world : world (R := R); retired : list Batch;
  k_ends : list (ResponseCode * E) }.

Definition with_scratch x (w : worker) := mkWorker (k_block w) (k_measured w) (k_refused w) (k_dead w) (k_error w)
  x (k_copies w) (k_waiting w) (k_chunks w) (k_inflight w) (k_next w) (k_issued w) (k_stalled w) (k_queue w)
  (k_counters w) (k_engine w) (k_client w) (k_files w) (k_world w) (retired w) (k_ends w).
Definition with_copies x (w : worker) := mkWorker (k_block w) (k_measured w) (k_refused w) (k_dead w) (k_error w)
  (k_scratch w) x (k_waiting w) (k_chunks w) (k_inflight w) (k_next w) (k_issued w) (k_stalled w) (k_queue w)
  (k_counters w) (k_engine w) (k_client w) (k_files w) (k_world w) (retired w) (k_ends w).
Definition with_waiting x (w : worker) := mkWorker (k_block w) (k_measured w) (k_refused w) (k_dead w) (k_error w)
  (k_scratch w) (k_copies w) x (k_chunks w) (k_inflight w) (k_next w) (k_issued w) (k_stalled w) (k_queue w)
  (k_counters w) (k_engine w) (k_client w) (k_files w) (k_world w) (retired w) (k_ends w).
Definition with_chunks x (w : worker) := mkWorker (k_block w) (k_measured w) (k_refused w) (k_dead w) (k_error w)
  (k_scratch w) (k_copies w) (k_waiting w) x (k_inflight w) (k_next w) (k_issued w) (k_stalled w) (k_queue w)
  (k_counters w) (k_engine w) (k_client w) (k_files w) (k_world w) (retired w) (k_ends w).
Definition with_inflight x (w : worker) := mkWorker (k_block w) (k_measured w) (k_refused w) (k_dead w) (k_error w)
  (k_scratch w) (k_copies w) (k_waiting w) (k_chunks w) x (k_next w) (k_issued w) (k_stalled w) (k_queue w)
  (k_counters w) (k_engine w) (k_client w) (k_files w) (k_world w) (retired w) (k_ends w).
Definition with_issued x (w : worker) := mkWorker (k_block w) (k_measured w) (k_refused w) (k_dead w) (k_error w)
  (k_scratch w) (k_copies w) (k_waiting w) (k_chunks w) (k_inflight w) (k_next w) x (k_stalled w) (k_queue w)
  (k_counters w) (k_engine w) (k_client w) (k_files w) (k_world w) (retired w) (k_ends w).
Definition with_stalled x (w : worker) := mkWorker (k_block w) (k_measured w) (k_refused w) (k_dead w) (k_error w)
  (k_scratch w) (k_copies w) (k_waiting w) (k_chunks w) (k_inflight w) (k_next w) (k_issued w) x (k_queue w)
  (k_counters w) (k_engine w) (k_client w) (k_files w) (k_world w) (retired w) (k_ends w).
Definition with_queue x (w : worker) := mkWorker (k_block w) (k_measured w) (k_refused w) (k_dead w) (k_error w)
  (k_scratch w) (k_copies w) (k_waiting w) (k_chunks w) (k_inflight w) (k_next w) (k_issued w) (k_stalled w) x
  (k_counters w) (k_engine w) (k_client w) (k_files w) (k_world w) (retired w) (k_ends w).
Definition with_counters x (w : worker) := mkWorker (k_block w) (k_measured w) (k_refused w) (k_dead w) (k_error w)
  (k_scratch w) (k_copies w) (k_waiting w) (k_chunks w) (k_inflight w) (k_next w) (k_issued w) (k_stalled w)
  (k_queue w) x (k_engine w) (k_client w) (k_files w) (k_world w) (retired w) (k_ends w).
Definition with_engine x (w : worker) := mkWorker (k_block w) (k_measured w) (k_refused w) (k_dead w) (k_error w)
  (k_scratch w) (k_copies w) (k_waiting w) (k_chunks w) (k_inflight w) (k_next w) (k_issued w) (k_stalled w)
  (k_queue w) (k_counters w) x (k_client w) (k_files w) (k_world w) (retired w) (k_ends w).
Definition with_client x (w : worker) := mkWorker (k_block w) (k_measured w) (k_refused w) (k_dead w) (k_error w)
  (k_scratch w) (k_copies w) (k_waiting w) (k_chunks w) (k_inflight w) (k_next w) (k_issued w) (k_stalled w)
  (k_queue w) (k_counters w) (k_engine w) x (k_files w) (k_world w) (retired w) (k_ends w).
Definition with_files x (w : worker) := mkWorker (k_block w) (k_measured w) (k_refused w) (k_dead w) (k_error w)
  (k_scratch w) (k_copies w) (k_waiting w) (k_chunks w) (k_inflight w) (k_next w) (k_issued w) (k_stalled w)
  (k_queue w) (k_counters w) (k_engine w) (k_client w) x (k_world w) (retired w) (k_ends w).
Definition with_refused (w : worker) := mkWorker (k_block w) (k_measured w) true (k_dead w) (k_error w)
  (k_scratch w) (k_copies w) (k_waiting w) (k_chunks w) (k_inflight w) (k_next w) (k_issued w) (k_stalled w)
  (k_queue w) (k_counters w) (k_engine w) (k_client w) (k_files w) (k_world w) (retired w) (k_ends w).
Definition with_block x (w : worker) := mkWorker x true (k_refused w) (k_dead w) (k_error w)
  (k_scratch w) (k_copies w) (k_waiting w) (k_chunks w) (k_inflight w) (k_next w) (k_issued w) (k_stalled w)
  (k_queue w) (k_counters w) (k_engine w) (k_client w) (k_files w) (k_world w) (retired w) (k_ends w).
Definition with_dead code (w : worker) := mkWorker (k_block w) (k_measured w) (k_refused w) true code
  (k_scratch w) (k_copies w) (k_waiting w) (k_chunks w) (k_inflight w) (k_next w) (k_issued w) (k_stalled w)
  (k_queue w) (k_counters w) (k_engine w) (k_client w) (k_files w) (k_world w) (retired w) (k_ends w).
Definition with_world x (w : worker) := mkWorker (k_block w) (k_measured w) (k_refused w) (k_dead w) (k_error w)
  (k_scratch w) (k_copies w) (k_waiting w) (k_chunks w) (k_inflight w) (k_next w) (k_issued w) (k_stalled w)
  (k_queue w) (k_counters w) (k_engine w) (k_client w) (k_files w) x (retired w) (k_ends w).
Definition with_retired bs (w : worker) := mkWorker (k_block w) (k_measured w) (k_refused w) (k_dead w) (k_error w)
  (k_scratch w) (k_copies w) (k_waiting w) (k_chunks w) (k_inflight w) (k_next w) (k_issued w) (k_stalled w)
  (k_queue w) (k_counters w) (k_engine w) (k_client w) (k_files w) (k_world w) (retired w ++ bs) (k_ends w).
Definition with_end code (w : worker) := mkWorker (k_block w) (k_measured w) (k_refused w) (k_dead w) (k_error w)
  (k_scratch w) (k_copies w) (k_waiting w) (k_chunks w) (k_inflight w) (k_next w) (k_issued w) (k_stalled w) (k_queue w)
  (k_counters w) (k_engine w) (k_client w) (k_files w) (k_world w) (retired w) (k_ends w ++ [(code, k_engine w)]).
Definition with_next x (w : worker) := mkWorker (k_block w) (k_measured w) (k_refused w) (k_dead w) (k_error w)
  (k_scratch w) (k_copies w) (k_waiting w) (k_chunks w) (k_inflight w) x (k_issued w) (k_stalled w)
  (k_queue w) (k_counters w) (k_engine w) (k_client w) (k_files w) (k_world w) (retired w) (k_ends w).

(** ** Finishing a workload *)

Definition report_workload (code : ResponseCode) (wl : Inflight) (w : world (R := R)) :
    outcome (list Batch * world (R := R)) :=
  report_batches code (if_errors wl) (wl_batches (if_workload wl)) w.

Definition close_all (fds : list BatchFd) (f : F) : F :=
  foldl (λ f b, match bf_fd b with Some fd => close fd f | None => f end) f fds.

Definition finalize (id : Z) (code : ResponseCode) (w : worker) : outcome worker :=
  match assoc id (k_inflight w) with
  | None => Throw StdException
  | Some wl =>
      let! (bs, world) := report_workload code wl (k_world w) in
      let w := with_end code (with_retired bs (with_world world w)) in
      let w := with_files (close_all (if_fds wl) (k_files w)) w in
      Ret (with_inflight (assoc_remove id (k_inflight w)) w)
  end.

(** ** Finishing a chunk *)

(** The loop over the tasks of a chunk, from task [i]; an index past the end is out of bounds. *)
Fixpoint account_tasks (n i : nat) (ret : ResponseCode) (b : Batch) (errors : gmap Z ResponseCode)
    (w : world (R := R)) : outcome (Batch * gmap Z ResponseCode * world (R := R)) :=
  match n with
  | O => Ret (b, errors, w)
  | S n =>
      match tasks b !! i with
      | None => Throw StdException
      | Some task =>
          if t_bytesize task =? 0 then account_tasks n (S i) ret b errors w
          else if decide (ret = Success) then
            let! (b, w) := handle_response Success (Some i) b w in
            account_tasks n (S i) ret b errors w
          else
            let errors := match errors !! b_file_index b with
                          | Some _ => errors
                          | None => <[b_file_index b := ret]> errors
                          end in
            account_tasks n (S i) ret b errors w
      end
  end.

Definition set_batch (wl : Inflight) (i : nat) (b : Batch) (errors : gmap Z ResponseCode) : Inflight :=
  let v := if_workload wl in
  mkInflightWorkload
    (mkWorkload (<[i := b]> (wl_batches v)) (wl_object_storage v) (wl_device v) (direct_block v))
    (if_fds wl) (if_remaining wl) errors.

Definition set_remaining (wl : Inflight) (n : Z) : Inflight :=
  mkInflightWorkload (if_workload wl) (if_fds wl) n (if_errors wl).

Definition account_chunk (id : Z) (ret : ResponseCode) (free_slot : bool) (w : worker) : outcome worker :=
  let! e := entry id (k_chunks w) in
  let! client := (if staging_valid (staging e) then client_release (staging e) (k_client w) else Ret (k_client w)) in
  let! (c, t) := release id (k_chunks w) in
  let w := with_chunks t (with_client client w) in
  let w := if free_slot then with_queue (CapacityQueue.complete 1 (k_queue w)) w else w in
  match assoc (workload_id e) (k_inflight w) with
  | None => Ret w
  | Some wl =>
      let i := Z.to_nat (batch_index e) in
      match wl_batches (if_workload wl) !! i with
      | None => Throw StdException
      | Some b =>
          let! (b, errors, world) := account_tasks (Z.to_nat (task_count c)) (Z.to_nat (first_task c)) ret b
                                                   (if_errors wl) (k_world w) in
          let wl := set_batch wl i b errors in
          let w := with_world world (with_inflight (assoc_set (workload_id e) wl (k_inflight w)) w) in
          ASSERT (if_remaining wl >? 0) ;;!
          let wl := set_remaining wl (if_remaining wl ⊖ 1) in
          let w := with_inflight (assoc_set (workload_id e) wl (k_inflight w)) w in
          if if_remaining wl =? 0 then finalize (workload_id e) Success w else Ret w
      end
  end.

Definition issue_copy (id : Z) (e : InflightChunk) (device : Device) (w : worker) : bool * worker :=
  let '(code, client) := client_write device (staging e) (staging_skip e) (c_bytesize (chunk e))
                                      (c_buffer (chunk e)) id (k_client w) in
  let w := with_client client w in
  if decide (code = Success) then (true, with_copies (k_copies w ⊕ 1) w) else (false, w).

(** A batch's device is its workload's. *)
Definition complete_chunk (id : Z) (ret : ResponseCode) (w : worker) : outcome worker :=
  let! e := entry id (k_chunks w) in
  if bool_decide (ret = Success) && staging_valid (staging e) then
    match assoc (workload_id e) (k_inflight w) with
    | None => account_chunk id ret true w
    | Some wl =>
        let '(issued, w) := issue_copy id e (wl_device (if_workload wl)) w in
        let! t := set_staging id no_staging (k_chunks w) in
        let w := with_chunks t w in
        if issued then Ret (with_queue (CapacityQueue.complete 1 (k_queue w)) w)
        else account_chunk id DeviceTransferError true w
    end
  else account_chunk id ret true w.

Definition complete_copy (id : Z) (ret : ResponseCode) (w : worker) : outcome worker := account_chunk id ret false w.

(** [n] bounds the loop: each turn takes one issued copy off the count and none is added. *)
Fixpoint drain_copies (n : nat) (wait : bool) (w : worker) : outcome worker :=
  match n with
  | O => Ret w
  | S n =>
      match copies_pop wait (k_client w) with
      | (None, client) => Ret (with_client client w)
      | (Some (id, ret), client) =>
          let w := with_client client w in
          let! w := complete_copy id ret (with_copies (k_copies w ⊖ 1) w) in
          drain_copies n wait w
      end
  end.

Definition drain_issued_copies (wait : bool) (w : worker) : outcome worker :=
  drain_copies (Z.to_nat (k_copies w)) wait w.

(** ** Opening *)

Definition wants_direct (file_offset buffer : Z) (staged : bool) (w : worker) : bool :=
  if negb direct_strategy then false
  else if k_refused w then false
  else if staged then true
  else is_congruent file_offset buffer (k_block w).

Definition set_fd (wl : Inflight) (i : nat) (x : BatchFd) : Inflight :=
  mkInflightWorkload (if_workload wl) (<[i := x]> (if_fds wl)) (if_remaining wl) (if_errors wl).

Definition batch_path (wl : Inflight) (i : nat) : outcome text :=
  match wl_batches (if_workload wl) !! i with
  | Some b => Ret (path_of (b_submission_id b) (b_file_index b))
  | None => Throw StdException
  end.

(** The descriptor, or the error that stands for it; the batch's entry remembers either. *)
Definition fd_for (workload : Z) (wl : Inflight) (i : nat) (file_offset buffer : Z) (staged : bool) (w : worker) :
    outcome ((Z + ResponseCode) * worker) :=
  match if_fds wl !! i with
  | None => Throw StdException
  | Some x =>
      if negb (bool_decide (bf_error x = Success)) then Ret (inr (bf_error x), w)
      else
        match bf_fd x with
        | Some fd => Ret (inl fd, w)
        | None =>
            let! path := batch_path wl i in
            let store x w := with_inflight (assoc_set workload (set_fd wl i x) (k_inflight w)) w in
            let '(direct_fd, f) :=
              if wants_direct file_offset buffer staged w then open_for_read path true (k_files w)
              else (None, k_files w) in
            match direct_fd with
            | Some fd => Ret (inl fd, store (mkBatchFd (Some fd) true Success) (with_files f w))
            | None =>
                let '(buffered_fd, f) := open_for_read path false f in
                match buffered_fd with
                | Some fd => Ret (inl fd, store (mkBatchFd (Some fd) false Success) (with_files f w))
                | None => Ret (inr FileAccessError, store (mkBatchFd None false FileAccessError) (with_files f w))
                end
            end
        end
  end.

Definition probe_open (path : text) (w : worker) : ResponseCode * worker :=
  match open_for_read path false (k_files w) with
  | (None, f) => (FileAccessError, with_files f w)
  | (Some fd, f) => (Success, with_files (close fd f) w)
  end.

(** ** Staging *)

Inductive Staged := Yes | NoBuffer | Failed.

Definition stage_into_device_buffer (id : Z) (device : Device) (w : worker) : outcome (Staged * ResponseCode * worker) :=
  let '(code, buffer, client) := client_take device (k_client w) in
  let w := with_client client w in
  if negb (bool_decide (code = Success)) then Ret (Failed, code, w)
  else if negb (staging_valid buffer) then Ret (NoBuffer, Success, w)
  else
    let! t := set_staging id buffer (k_chunks w) in
    Ret (Yes, Success, with_chunks t w).

Definition reads_through_staging (device : Device) : bool :=
  match dev_type device with Cpu => false | Cuda => true end.

Definition registration_for (buffer : StagingBuffer) (pass : DirectPass) (w : worker) : Registration :=
  if negb register_buffers || negb (staging_valid buffer) || negb (dp_scratch pass =? 0) then no_registration
  else match client_slab_at (sb_slab buffer) (k_client w) with
       | None => no_registration
       | Some (base, bytesize) => mkRegistration base bytesize (sb_slab buffer)
       end.

(** ScratchPool::take, when the worker has a pool. *)
Definition take_scratch (w : worker) : option Z * worker :=
  match k_scratch w with
  | None => (None, w)
  | Some p => let '(b, p) := ScratchPool.take p in (b, with_scratch (Some p) w)
  end.

Definition give_scratch (b : Z) (w : worker) : outcome worker :=
  if b =? 0 then Ret w
  else match k_scratch w with
       | None => Throw StdException
       | Some p => let! p := give b p in Ret (with_scratch (Some p) w)
       end.

(** clear_bounce, the buffer going back to the pool. *)
Definition drop_bounce (id : Z) (w : worker) : outcome worker :=
  let '(b, t) := clear_bounce id (k_chunks w) in give_scratch b (with_chunks t w).

(** plan_direct_pass with the worker's pool: scratch is taken only for a pass that bounces. *)
Definition plan_pass (pending : Chunk) (staged : bool) (w : worker) : option DirectPass * worker :=
  match plan_direct_pass pending (k_block w) staged None with
  | Some pass => (Some pass, w)
  | None =>
      let '(taken, w) := take_scratch w in
      (plan_direct_pass pending (k_block w) staged taken, w)
  end.

(** From the descriptor on: place the chunk in its staging buffer, plan the pass, stage it. *)
Definition stage_read (id : Z) (e : InflightChunk) (fd : Z) (direct : bool) (w : worker) : outcome worker :=
  let staged := staging_valid (staging e) in
  let! t := (if direct && staged && (cursor e =? c_offset (chunk e))
             then set_staging_skip id (c_offset (chunk e) mod k_block w) (k_chunks w)
             else Ret (k_chunks w)) in
  let w := with_chunks t w in
  let! p := pending id (k_chunks w) in
  let '(plan, w) := if direct then plan_pass p staged w else (Some (buffered_pass p), w) in
  match plan with
  | None => complete_chunk id UnknownError w
  | Some pass =>
      let! t := (if negb (dp_scratch pass =? 0) || negb (dp_wanted pass =? 0)
                 then set_bounce id (dp_scratch pass) (dp_skip pass) (dp_wanted pass) (k_chunks w)
                 else Ret (k_chunks w)) in
      let w := with_chunks t w in
      let '(ret, engine) := stage (mkRead id (mkFileRef fd direct) (dp_offset pass) (dp_bytesize pass)
                                          (dp_buffer pass) (registration_for (staging e) pass w)) (k_engine w) in
      let w := with_engine engine w in
      if decide (ret = Success) then Ret w
      else
        let! w := drop_bounce id w in
        complete_chunk id ret w
  end.

(** From a request that has all the buffers it needs. *)
Definition open_and_stage (id : Z) (w : worker) : outcome worker :=
  let! e := entry id (k_chunks w) in
  match assoc (workload_id e) (k_inflight w) with
  | None => Throw StdException
  | Some wl =>
      let! before_open := pending id (k_chunks w) in
      let! (fd, w) := fd_for (workload_id e) wl (Z.to_nat (batch_index e)) (c_offset before_open)
                             (c_buffer before_open) (staging_valid (staging e)) w in
      match fd with
      | inr error => complete_chunk id error w
      | inl fd =>
          match assoc (workload_id e) (k_inflight w) with
          | None => Throw StdException
          | Some wl =>
              match if_fds wl !! Z.to_nat (batch_index e) with
              | None => Throw StdException
              | Some x => stage_read id e fd (bf_direct x) w
              end
          end
      end
  end.

Definition stage_pending (id : Z) (w : worker) : outcome worker :=
  let! e := entry id (k_chunks w) in
  match assoc (workload_id e) (k_inflight w) with
  | None =>
      let! (_, t) := release id (k_chunks w) in
      Ret (with_chunks t (with_queue (CapacityQueue.complete 1 (k_queue w)) w))
  | Some wl =>
      if negb (staging_valid (staging e)) && reads_through_staging (wl_device (if_workload wl)) then
        let! (staged, error, w) := stage_into_device_buffer id (wl_device (if_workload wl)) w in
        match staged with
        | Yes => open_and_stage id w
        | NoBuffer => Ret (with_waiting (k_waiting w ++ [id]) w)
        | Failed => complete_chunk id error w
        end
      else open_and_stage id w
  end.

Definition submit (c : QueuedChunk) (w : worker) : outcome worker := stage_pending (qc_id c) w.

(** One pass over what was waiting when it started. *)
Fixpoint resume_loop (n : nat) (w : worker) : outcome worker :=
  match n with
  | O => Ret w
  | S n =>
      match k_waiting w with
      | [] => Throw StdException
      | id :: rest => let! w := stage_pending id (with_waiting rest w) in resume_loop n w
      end
  end.

Definition resume_waiting (w : worker) : outcome worker := resume_loop (length (k_waiting w)) w.

(** ** Ending *)

Definition WaitTimeoutMs : Z := 50.
Definition MaxStalledFlushes : Z := 1024.

Definition engine_is_dead (code : ResponseCode) (w : worker) : worker :=
  if k_dead w then w else with_dead code w.

(** The wait for what the kernel holds; [n] bounds it by the engine's own promise. *)
Fixpoint quiesce_loop (n : nat) (w : worker) : outcome worker :=
  if k_issued w >? 0 then
    match n with
    | O => Throw StdException
    | S n =>
        let '(code, cs, engine) := wait_for_completions (depth (k_engine w)) Block (k_engine w) in
        let w := with_engine engine w in
        if negb (bool_decide (code = Success)) then Ret w
        else
          let count := Z.of_nat (length cs) in
          ASSERT (k_issued w >=? count) ;;!
          quiesce_loop n (with_issued (k_issued w ⊖ count) w)
    end
  else Ret w.

Definition quiesce_fuel (w : worker) : nat := S (length (issued_reads (k_engine w)) + patience (k_engine w)).

Definition quiesce (w : worker) : outcome worker :=
  let! w := drain_issued_copies true w in
  quiesce_loop (quiesce_fuel w) w.

Fixpoint finalize_all (n : nat) (code : ResponseCode) (w : worker) : outcome worker :=
  match n, k_inflight w with
  | S n, (id, _) :: _ => let! w := finalize id code w in finalize_all n code w
  | _, _ => Ret w
  end.

Fixpoint give_all (bs : list Z) (w : worker) : outcome worker :=
  match bs with [] => Ret w | b :: bs => let! w := give_scratch b w in give_all bs w end.

Fixpoint release_all (bs : list StagingBuffer) (w : worker) : outcome worker :=
  match bs with
  | [] => Ret w
  | b :: bs => let! client := client_release b (k_client w) in release_all bs (with_client client w)
  end.

Definition abort_all (code : ResponseCode) (w : worker) : outcome worker :=
  let w := if decide (code = FinishedError) then w else engine_is_dead code w in
  let w := with_queue (CapacityQueue.clear (k_queue w)) w in
  let! w := quiesce w in
  let! w := finalize_all (length (k_inflight w)) code w in
  let! w := (match k_scratch w with
             | None => Ret w
             | Some _ => let '(bs, t) := release_all_scratch (k_chunks w) in give_all bs (with_chunks t w)
             end) in
  let '(bs, t) := release_all_staging (k_chunks w) in
  let! w := release_all bs (with_chunks t w) in
  let w := with_chunks (clear (k_chunks w)) w in
  Ret (with_issued 0 (with_waiting [] w)).

(** ** Completions *)

Definition EINVAL : Z := 22.

Definition count_read (n : Z) (c : Counters) := mkCounters (ct_bytes_read c ⊕ n) (ct_bounced_bytes c)
  (ct_short_read_restages c) (ct_transient_retries c) (ct_achieved_depth c).
Definition count_bounced (n : Z) (c : Counters) := mkCounters (ct_bytes_read c) (ct_bounced_bytes c ⊕ n)
  (ct_short_read_restages c) (ct_transient_retries c) (ct_achieved_depth c).
Definition count_restage (c : Counters) := mkCounters (ct_bytes_read c) (ct_bounced_bytes c)
  (ct_short_read_restages c ⊕ 1) (ct_transient_retries c) (ct_achieved_depth c).
Definition count_transient (c : Counters) := mkCounters (ct_bytes_read c) (ct_bounced_bytes c)
  (ct_short_read_restages c) (ct_transient_retries c ⊕ 1) (ct_achieved_depth c).
Definition raise_depth (n : Z) (c : Counters) := mkCounters (ct_bytes_read c) (ct_bounced_bytes c)
  (ct_short_read_restages c) (ct_transient_retries c)
  (if n >? ct_achieved_depth c then wrap32 n else ct_achieved_depth c).

Definition no_file : FileRef := mkFileRef (-1) false.

Definition file_of (e : InflightChunk) (w : worker) : FileRef :=
  match assoc (workload_id e) (k_inflight w) with
  | None => no_file
  | Some wl =>
      match if_fds wl !! Z.to_nat (batch_index e) with
      | None => no_file
      | Some x => mkFileRef (default (-1) (bf_fd x)) (bf_direct x)
      end
  end.

(** The bytes are [DirectPass.land_pass]'s; here the count, the scratch and the counter. *)
Definition land_bounced_pass (id n : Z) (w : worker) : outcome (Z * worker) :=
  let! e := entry id (k_chunks w) in
  if (scratch e =? 0) && (scratch_skip e =? 0) && (scratch_wanted e =? 0) then Ret (n, w)
  else
    let useful := useful_bytes (scratch e) (scratch_skip e) (scratch_wanted e) n in
    let w := if (useful >? 0) && negb (scratch e =? 0)
             then with_counters (count_bounced useful (k_counters w)) w else w in
    let! w := drop_bounce id w in
    Ret (useful, w).

(** Success is a re-stage; anything else answers the chunk. *)
Definition demote_to_buffered (e : InflightChunk) (w : worker) : outcome (ResponseCode * worker) :=
  match assoc (workload_id e) (k_inflight w) with
  | None => Ret (UnknownError, w)
  | Some wl =>
      let i := Z.to_nat (batch_index e) in
      match if_fds wl !! i with
      | None => Ret (UnknownError, w)
      | Some x =>
          let! path := batch_path wl i in
          let '(opened, f) := open_for_read path false (k_files w) in
          match opened with
          | None => Ret (FileAccessError, with_files f w)
          | Some fd =>
              let '(replaced, kept, f) :=
                match bf_fd x with
                | None => (true, fd, f)
                | Some old => let '(ok, f) := dup2 fd old f in (ok, old, close fd f)
                end in
              let w := with_files f w in
              if negb replaced then Ret (FileAccessError, w)
              else
                let wl := set_fd wl i (mkBatchFd (Some kept) false (bf_error x)) in
                let w := with_inflight (assoc_set (workload_id e) wl (k_inflight w)) w in
                Ret (Success, with_refused w)
          end
      end
  end.

(** A failed read that is not to be retried: demoted and staged again when a direct read was refused. *)
Definition refused_or_failed (id res : Z) (file : FileRef) (w : worker) : outcome worker :=
  if direct file && (res =? - EINVAL) then
    let! e := entry id (k_chunks w) in
    let! (demoted, w) := demote_to_buffered e w in
    if decide (demoted = Success) then stage_pending id w else complete_chunk id demoted w
  else complete_chunk id (map_completion res file) w.

Definition handle_failure (id res : Z) (e : InflightChunk) (w : worker) : outcome worker :=
  let file := file_of e w in
  let! w := drop_bounce id w in
  if is_transient res then
    let '(allowed, t) := may_retry_transient id (k_chunks w) in
    let w := with_chunks t w in
    if allowed then stage_pending id (with_counters (count_transient (k_counters w)) w)
    else refused_or_failed id res file w
  else refused_or_failed id res file w.

Definition handle_read (id n : Z) (w : worker) : outcome worker :=
  let! (useful, w) := land_bounced_pass id n w in
  let w := with_counters (count_read useful (k_counters w)) w in
  let! (progress, t) := record id useful (k_chunks w) in
  let w := with_chunks t w in
  match progress with
  | Complete => complete_chunk id Success w
  | Eof => complete_chunk id EofError w
  | Partial => stage_pending id (with_counters (count_restage (k_counters w)) w)
  end.

Definition handle_completion (c : Completion) (w : worker) : outcome worker :=
  ASSERT (k_issued w >? 0) ;;!
  let w := with_issued (k_issued w ⊖ 1) w in
  match find (cp_id c) (k_chunks w) with
  | None => Ret w
  | Some e =>
      if failed c then handle_failure (cp_id c) (cp_res c) e w
      else handle_read (cp_id c) (bytes_transferred c) w
  end.

Fixpoint handle_completions (cs : list Completion) (w : worker) : outcome worker :=
  match cs with [] => Ret w | c :: cs => let! w := handle_completion c w in handle_completions cs w end.

(** ** The turn of the worker *)

Definition wait_mode (w : worker) : WaitMode :=
  let window_full := k_issued w >=? depth (k_engine w) in
  let nothing_to_stage := CapacityQueue.empty (k_queue w) && bool_decide (k_waiting w = []) in
  if (k_issued w >? 0) && (window_full || nothing_to_stage) then Block else NonBlocking.

Definition harvest (w : worker) : outcome worker :=
  let '(code, cs, engine) := wait_for_completions (depth (k_engine w)) (wait_mode w) (k_engine w) in
  let w := with_engine engine w in
  if negb (bool_decide (code = Success)) then abort_all code w else handle_completions cs w.

Definition drain_batch (stopped : bool) (w : worker) : outcome worker :=
  if stopped then abort_all FinishedError w
  else
    let! w := drain_issued_copies (k_issued w =? 0) w in
    let! w := resume_waiting w in
    let '(code, (issued, deferred), engine) := flush (k_engine w) in
    let w := with_engine engine w in
    if negb (bool_decide (code = Success)) then abort_all code (with_issued (k_issued w ⊕ issued) w)
    else
      let stalled := deferred && (issued =? 0) && (k_issued w =? 0) in
      let spent := stalled && (add32 (k_stalled w) 1 >? MaxStalledFlushes) in
      if spent then abort_all FsAsyncEngineError (with_stalled 0 w)
      else
        let w := with_stalled (if stalled then add32 (k_stalled w) 1 else 0) w in
        let w := with_issued (k_issued w ⊕ issued) w in
        let w := with_counters (raise_depth (k_issued w) (k_counters w)) w in
        harvest w.

(** pump: [n] bounds the loop by what is pending, since submitting queues nothing. *)
Fixpoint pump_loop (n : nat) (w : worker) : outcome worker :=
  match n with
  | O => Ret w
  | S n =>
      let '(c, q) := try_take (k_queue w) in
      match c with
      | None => Ret (with_queue q w)
      | Some c => let! w := submit c (with_queue q w) in pump_loop n w
      end
  end.

Definition pump (w : worker) : outcome worker := pump_loop (length (queued (k_queue w))) w.

Definition drain (stopped : bool) (w : worker) : outcome worker :=
  let! w := drain_batch stopped w in pump w.

Definition has_deferred_work (w : worker) : bool := (k_copies w >? 0) || negb (bool_decide (k_waiting w = [])).

Definition worker_idle (w : worker) : bool := CapacityQueue.idle (k_queue w) && negb (has_deferred_work w).

(** ** New work *)

Definition adopt_block (direct_block : Z) (w : worker) : worker :=
  if negb (k_measured w) && negb (direct_block =? 0) then
    match k_scratch w with
    | Some p => if direct_block >? block p then w else with_block direct_block w
    | None => with_block direct_block w
    end
  else w.

(** The zero-sized tasks of batch [b], from task [i]; [b] is the batch as answered so far. *)
Fixpoint answer_zero_sized (n i : nat) (b : Batch) (w : world (R := R)) : outcome (Batch * world (R := R)) :=
  match n with
  | O => Ret (b, w)
  | S n =>
      match tasks b !! i with
      | None => Throw StdException
      | Some task =>
          if t_bytesize task =? 0 then
            let! (b, w) := handle_response Success (Some i) b w in answer_zero_sized n (S i) b w
          else answer_zero_sized n (S i) b w
      end
  end.

Fixpoint queue_chunks (cs : list Chunk) (workload i : Z) (w : worker) : outcome worker :=
  match cs with
  | [] => Ret w
  | c :: cs =>
      let! (id, t) := add c workload i (k_chunks w) in
      let q := CapacityQueue.enqueue (mkQueuedChunk id (c_offset c) (c_bytesize c) (c_buffer c)) 1 (k_queue w) in
      queue_chunks cs workload i (with_queue q (with_chunks t w))
  end.

Definition answer_zero_sized_ranges (workload : Z) (i : nat) (w : worker) : outcome worker :=
  match assoc workload (k_inflight w) with
  | None => Throw StdException
  | Some wl =>
      match wl_batches (if_workload wl) !! i with
      | None => Throw StdException
      | Some b =>
          if existsb (λ t, t_bytesize t =? 0) (tasks b) then
            let '(code, w) := probe_open (path_of (b_submission_id b) (b_file_index b)) w in
            if decide (code = Success) then
              let! (b, world) := answer_zero_sized (length (tasks b)) 0 b (k_world w) in
              let wl := set_batch wl i b (if_errors wl) in
              Ret (with_world world (with_inflight (assoc_set workload wl (k_inflight w)) w))
            else
              let errors := match if_errors wl !! b_file_index b with
                            | Some _ => if_errors wl
                            | None => <[b_file_index b := code]> (if_errors wl)
                            end in
              Ret (with_inflight (assoc_set workload (set_batch wl i b errors) (k_inflight w)) w)
          else Ret w
      end
  end.

(** The loop over the batches of a workload, from batch [i]: how many chunks it queued. *)
Fixpoint queue_batches (bs : list Batch) (workload : Z) (i : nat) (queued_chunks : Z) (w : worker) :
    outcome (Z * worker) :=
  match bs with
  | [] => Ret (queued_chunks, w)
  | b :: bs =>
      let! w := answer_zero_sized_ranges workload i w in
      let! w := queue_chunks (chunks b) workload (Z.of_nat i) w in
      queue_batches bs workload (S i) (queued_chunks ⊕ Z.of_nat (length (chunks b))) w
  end.

Definition enqueue (v : Workload) (w : worker) : outcome worker :=
  if k_dead w then
    let! (bs, world) := report_workload (k_error w) (mkInflightWorkload v [] 0 ∅) (k_world w) in
    Ret (with_retired bs (with_world world w))
  else
    let w := adopt_block (direct_block v) w in
    let id := k_next w in
    let w := with_next (id ⊕ 1) w in
    ASSERT (bool_decide (assoc id (k_inflight w) = None)) ;;!
    let wl := mkInflightWorkload v (replicate (length (wl_batches v)) unopened) 0 ∅ in
    let w := with_inflight (k_inflight w ++ [(id, wl)]) w in
    let! (n, w) := queue_batches (wl_batches v) id 0 0 w in
    match assoc id (k_inflight w) with
    | None => Throw StdException
    | Some wl =>
        let w := with_inflight (assoc_set id (set_remaining wl n) (k_inflight w)) w in
        if n =? 0 then finalize id Success w else Ret w
    end.

(** execute, once the window is up: a workload is queued, and pumped and drained until all of it was
    submitted.  [stopped] is the pool's flag at each turn; [n] bounds the turns. *)
Fixpoint submit_all (n : nat) (stopped : nat → bool) (w : worker) : outcome worker :=
  if CapacityQueue.empty (k_queue w) then Ret w
  else
    match n with
    | O => Throw StdException
    | S n =>
        let! w := pump w in
        let! w := (if CapacityQueue.empty (k_queue w) then Ret w else drain_batch (stopped n) w) in
        submit_all n stopped w
    end.

Definition execute (n : nat) (stopped : nat → bool) (v : Workload) (w : worker) : outcome worker :=
  let! w := enqueue v w in
  let! w := submit_all n stopped w in
  if inflight (k_queue w) >=? capacity (k_queue w) then drain_batch (stopped n) w else Ret w.
End Worker.
