(* ===== verification/FsAsyncRouter.v ===== *)
(** Which reader serves each file of a file system submission, and on which engine
    (streamer/impl/async_io/fs_async_router).

    Files are grouped by mount; a file the asynchronous reader should not have is left to the synchronous one
    (-1).  The probes are those of MountCapabilities over the machine; the seams that replace them in tests are
    empty.  What other threads do meanwhile is [others] for the mounts and [others_dead] for the dead ones,
    which the engines' workers add to.  The strategy is asked once: it does not change once resolved
    (StrategyResolver).  Logging and the counters of the workers are left out. *)

From S2P Require Import Prelude ResponseCode Text Env Strategy StrategyResolver FsQueueDepth Alignment MountInfo.
From S2P Require Import MountCapabilities Task Workload AsyncIoWorker.

Definition dead_contains (device : Z) (dead : gset Z) : bool := bool_decide (device ∈ dead).
Definition dead_add (device : Z) (dead : gset Z) : gset Z := {[device]} ∪ dead.

Definition slash : ascii := "/"%char.

(** find_last_of the slash *)
Definition directory_of (path : text) : text :=
  match find_char slash (reverse path) with
  | None => txt "."
  | Some (_, before) => if decide (before = []) then txt "/" else reverse before
  end.

Record Groups := mkGroups {
  gr_by_file : list Z; gr_devices : list Z; gr_blocks : list Z; gr_depths : list Z; gr_registers : list bool }.

(** The two maps that live as long as the call: directory to group and device to group. *)
Record Grouping := mkGrouping { gg_groups : Groups; gg_by_directory : list (text * Z); gg_by_device : gmap Z Z }.

Fixpoint seen_directory (directory : text) (l : list (text * Z)) : option Z :=
  match l with [] => None | (d, group) :: l => if decide (d = directory) then Some group else seen_directory directory l end.

(** What the calls share: the dead mounts and the object that knows the mounts. *)
Record Router := mkRouter { ro_dead : gset Z; ro_mounts : MountCapabilities }.

Section Router.
Context {W : Type} `{!MountHost W}.
Context (types : gmap Z text) (env : environment) (page_size : Z).
Context (others : MountCapabilities → MountCapabilities) (others_dead : gset Z → gset Z).

Definition block_of (device : Z) (path : text) (r : Router) (w : W) : outcome Z * (Router * W) :=
  let '(answer, (m, w)) := MountCapabilities.direct_block env page_size others device path (ro_mounts r) w in
  ((let! x := answer in Ret x.2), (mkRouter (ro_dead r) m, w)).

(** ** Grouping *)

Context (depth : FsQueueDepth) (registers : option (text → bool)).

(** A new group, numbered in first-seen order. *)
Definition open_group (capability : MountCapability) (g : Grouping) : Z * Grouping :=
  let out := gg_groups g in
  let group := Z.of_nat (length (gr_devices out)) in
  let may_register := match registers with None => true | Some registers => registers (mc_fs_type capability) end in
  (group, mkGrouping
     (mkGroups (gr_by_file out) (gr_devices out ++ [mc_dev capability]) (gr_blocks out ++ [0])
               (gr_depths out ++ [for_type (mc_fs_type capability) depth]) (gr_registers out ++ [may_register]))
     (gg_by_directory g) (<[mc_dev capability := group]> (gg_by_device g))).

Definition group_of_capability (capability : MountCapability) (dead : gset Z) (g : Grouping) : Z * Grouping :=
  if dead_contains (mc_dev capability) dead then (-1, g)
  else if mc_memory_backed capability then (-1, g)
  else match gg_by_device g !! mc_dev capability with
       | Some group => (group, g)
       | None => open_group capability g
       end.

Definition remember_directory (directory : text) (group : Z) (g : Grouping) : Grouping :=
  mkGrouping (gg_groups g) (gg_by_directory g ++ [(directory, group)]) (gg_by_device g).

Definition group_of_directory (directory : text) (g : Grouping) (r : Router) (w : W) :
    outcome Z * (Grouping * (Router * W)) :=
  match seen_directory directory (gg_by_directory g) with
  | Some group => (Ret group, (g, (r, w)))
  | None =>
      let '(answer, (m, w)) := of_path types others directory (ro_mounts r) w in
      let r := mkRouter (others_dead (ro_dead r)) m in
      match answer with
      | Ret capability =>
          let '(group, g) := group_of_capability capability (ro_dead r) g in
          (Ret group, (remember_directory directory group g, (r, w)))
      | Throw (Code _) => (Ret (-1), (remember_directory directory (-1) g, (r, w)))
      | Throw e => (Throw e, (g, (r, w)))
      end
  end.

(** A range that is not empty and whose place in memory is not its place in the file. *)
Definition range_congruent (block : Z) (range : ReadRange) : bool :=
  (rr_size range =? 0) || is_congruent (rr_offset range) (rr_dst range) block.

Definition mount_serves (file : FileRanges) (device : Z) (r : Router) (w : W) : outcome bool * (Router * W) :=
  let '(support, (m, w)) := direct_support env page_size others device (fr_path file) (ro_mounts r) w in
  ((let! support := support in Ret (match support with SupportNo => false | _ => true end)), (mkRouter (ro_dead r) m, w)).

Definition reads_directly (file : FileRanges) (device : Z) (destination : Device) (r : Router) (w : W) :
    outcome bool * (Router * W) :=
  if reads_through_staging destination then mount_serves file device r w
  else
    let '(measured, (r, w)) := block_of device (fr_path file) r w in
    match (let! measured := measured in if negb (measured =? 0) then Ret measured else direct_block_size env) with
    | Throw e => (Throw e, (r, w))
    | Ret block => if forallb (range_congruent block) (fr_ranges file) then mount_serves file device r w else (Ret false, (r, w))
    end.

Definition with_groups (f : Groups → Groups) (g : Grouping) : Grouping :=
  mkGrouping (f (gg_groups g)) (gg_by_directory g) (gg_by_device g).

Definition set_block (group : nat) (block : Z) (out : Groups) : Groups :=
  mkGroups (gr_by_file out) (gr_devices out) (<[group := block]> (gr_blocks out)) (gr_depths out) (gr_registers out).

(** [by_file.assign(request.size(), -1)] and the entries set since: the files answered so far. *)
Definition add_file (group : Z) (out : Groups) : Groups :=
  mkGroups (gr_by_file out ++ [group]) (gr_devices out) (gr_blocks out) (gr_depths out) (gr_registers out).

(** The block of a group, from the first file that answers. *)
Definition learn_block (strategy : Strategy) (group : nat) (path : text) (g : Grouping) (r : Router) (w : W) :
    outcome Grouping * (Router * W) :=
  match gr_blocks (gg_groups g) !! group, gr_devices (gg_groups g) !! group with
  | Some block, Some device =>
      if (block =? 0) && is_direct strategy then
        let '(block, s) := block_of device path r w in
        ((let! block := block in Ret (with_groups (set_block group block) g)), s)
      else (Ret g, (r, w))
  | _, _ => (Throw StdException, (r, w))
  end.

(** One turn of the loop over the files. *)
Definition group_file (strategy : Strategy) (destination : Device) (file : FileRanges) (g : Grouping) (r : Router) (w : W) :
    outcome Grouping * (Router * W) :=
  if decide (fr_ranges file = []) then (Ret (with_groups (add_file (-1)) g), (r, w))
  else
    let '(group, (g, (r, w))) := group_of_directory (directory_of (fr_path file)) g r w in
    match group with
    | Throw e => (Throw e, (r, w))
    | Ret group =>
        if group <? 0 then (Ret (with_groups (add_file (-1)) g), (r, w))
        else
          let n := Z.to_nat group in
          let '(learned, (r, w)) := learn_block strategy n (fr_path file) g r w in
          match learned with
          | Throw e => (Throw e, (r, w))
          | Ret g =>
              if bool_decide (strategy = LibaioDirect) then
                match gr_devices (gg_groups g) !! n with
                | None => (Throw StdException, (r, w))
                | Some device =>
                    let '(direct, s) := reads_directly file device destination r w in
                    ((let! direct := direct in Ret (with_groups (add_file (if direct : bool then group else -1)) g)), s)
                end
              else (Ret (with_groups (add_file group) g), (r, w))
          end
    end.

Fixpoint group_files (strategy : Strategy) (destination : Device) (request : list FileRanges) (g : Grouping) (r : Router) (w : W) :
    outcome Grouping * (Router * W) :=
  match request with
  | [] => (Ret g, (r, w))
  | file :: request =>
      let '(result, (r, w)) := group_file strategy destination file g r w in
      match result with
      | Throw e => (Throw e, (r, w))
      | Ret g => group_files strategy destination request g r w
      end
  end.

Definition no_groups : Grouping := mkGrouping (mkGroups [] [] [] [] []) [] ∅.

Definition groups (resolver : Resolver) (request : list FileRanges) (destination : Device) (r : Router) (w : W) :
    outcome Groups * (Router * W) :=
  match resolved resolver with
  | Throw e => (Throw e, (r, w))
  | Ret strategy =>
      if negb (is_async strategy) then (Ret (mkGroups (map (λ _, -1) request) [] [] [] []), (r, w))
      else
        let '(result, s) := group_files strategy destination request no_groups r w in
        ((let! g := result in Ret (gg_groups g)), s)
  end.

(** ** The alignment of destinations *)

Fixpoint largest_block (paths : list text) (largest : Z) (measured : bool) (r : Router) (w : W) :
    outcome (Z * bool) * (Router * W) :=
  match paths with
  | [] => (Ret (largest, measured), (r, w))
  | path :: paths =>
      let '(answer, (m, w)) := of_path types others (directory_of path) (ro_mounts r) w in
      let r := mkRouter (ro_dead r) m in
      match answer with
      | Throw (Code _) => largest_block paths largest measured r w
      | Throw e => (Throw e, (r, w))
      | Ret capability =>
          if mc_memory_backed capability then largest_block paths largest measured r w
          else
            let '(block, (r, w)) := block_of (mc_dev capability) path r w in
            match block with
            | Throw (Code _) => largest_block paths largest measured r w
            | Throw e => (Throw e, (r, w))
            | Ret block =>
                if negb (block =? 0) then largest_block paths (Z.max largest block) true r w
                else largest_block paths largest measured r w
            end
      end
  end.

Definition direct_block_for (paths : list text) (r : Router) (w : W) : outcome (ResponseCode * Z) * (Router * W) :=
  let '(result, s) := largest_block paths 0 false r w in
  ((let! (largest, measured) := result in
    Ret (if measured : bool then (Success, largest) else (UnknownError, wrap64 page_size))), s).
End Router.

(** ** What the groups are *)

Section Groups.
Context {W : Type} `{!MountHost W}.
Context (types : gmap Z text) (env : environment) (page_size : Z).
Context (others : MountCapabilities → MountCapabilities) (others_dead : gset Z → gset Z).
Context (depth : FsQueueDepth) (registers : option (text → bool)).
Context (strategy : Strategy) (destination : Device).

Definition may_register (fs_type : text) : bool := match registers with None => true | Some f => f fs_type end.

(** The mount a group stands for: known, not in memory, not dead when the call began, read at the depth and
    with the registration of its type. *)
Definition group_ok (dead : gset Z) (m : MountCapabilities) (device block d : Z) (register : bool) : Prop :=
  (device ∉ dead) ∧ (∃ c, mc_mounts m !! device = Some c ∧ mc_memory_backed c = false ∧
    d = for_type (mc_fs_type c) depth ∧ register = may_register (mc_fs_type c)) ∧
  (block = 0 ∨ mc_direct m !! device = Some block).

(** What a file may be answered: [seen] is the group of its directory. *)
Definition file_ok (m : MountCapabilities) (devices : list Z) (seen : text → option Z) (file : FileRanges) (group : Z) : Prop :=
  group = -1 ∨
  0 <= group ∧ fr_ranges file ≠ [] ∧ seen (directory_of (fr_path file)) = Some group ∧
  ∃ device, devices !! Z.to_nat group = Some device ∧
    (strategy = LibaioDirect → reads_through_staging destination = false →
     ∃ block, (mc_direct m !! device = Some block ∨ direct_block_size env = Ret block) ∧
              ∀ range, range ∈ fr_ranges file → rr_size range ≠ 0 → is_congruent (rr_offset range) (rr_dst range) block = true).

Record grouping_ok (dead : gset Z) (m : MountCapabilities) (g : Grouping) (request : list FileRanges) : Prop := {
  go_blocks : length (gr_blocks (gg_groups g)) = length (gr_devices (gg_groups g));
  go_depths : length (gr_depths (gg_groups g)) = length (gr_devices (gg_groups g));
  go_registers : length (gr_registers (gg_groups g)) = length (gr_devices (gg_groups g));
  go_device : ∀ d k, gg_by_device g !! d = Some k ↔ 0 <= k ∧ gr_devices (gg_groups g) !! Z.to_nat k = Some d;
  go_directory : ∀ dir k, seen_directory dir (gg_by_directory g) = Some k →
    k = -1 ∨ 0 <= k < Z.of_nat (length (gr_devices (gg_groups g)));
  go_groups : ∀ i device block d register, gr_devices (gg_groups g) !! i = Some device → gr_blocks (gg_groups g) !! i = Some block →
    gr_depths (gg_groups g) !! i = Some d → gr_registers (gg_groups g) !! i = Some register → group_ok dead m device block d register;
  go_files : Forall2 (file_ok m (gr_devices (gg_groups g)) (λ dir, seen_directory dir (gg_by_directory g)))
                     request (gr_by_file (gg_groups g)) }.

Lemma seen_directory_snoc dir l d k : seen_directory dir (l ++ [(d, k)]) =
  match seen_directory dir l with Some x => Some x | None => if decide (d = dir) then Some k else None end.
Proof. induction l as [|[d' k'] l IH]; simpl; [done|]. by destruct (decide (d' = dir)). Qed.

Lemma group_ok_mono dead m m' device block d register : mc_mounts m ⊆ mc_mounts m' → mc_direct m ⊆ mc_direct m' →
  group_ok dead m device block d register → group_ok dead m' device block d register.
Proof.
  intros Hm Hd (Hn & (c & Hc & Hb) & Hblock). split; [done|]. split.
  - exists c. split; [|done]. by eapply lookup_weaken.
  - destruct Hblock as [?|?]; [by left|right]. by eapply lookup_weaken.
Qed.

Lemma file_ok_mono m m' devices devices' seen seen' file group : mc_direct m ⊆ mc_direct m' →
  (∃ k, devices' = devices ++ k) → (∀ dir k, seen dir = Some k → seen' dir = Some k) →
  file_ok m devices seen file group → file_ok m' devices' seen' file group.
Proof.
  intros Hm (k & ->) Hs [?|(H0 & Hr & Hd & device & Hl & Hc)]; [by left|right].
  split_and!; [done|done|auto|]. exists device. split; [by apply lookup_app_l_Some|]. intros Hst Hdest.
  destruct (Hc Hst Hdest) as (block & [Hb|Hb] & Hr'); exists block; split; auto. left. by eapply lookup_weaken.
Qed.

Lemma grouping_ok_mono dead m m' g request : mc_mounts m ⊆ mc_mounts m' → mc_direct m ⊆ mc_direct m' →
  grouping_ok dead m g request → grouping_ok dead m' g request.
Proof.
  intros Hm Hd [H1 H2 H3 H4 H5 H6 H7]. split; try done.
  - intros. eapply group_ok_mono; eauto.
  - eapply Forall2_impl; [exact H7|]. intros f k. apply file_ok_mono; [done| |done]. exists []. by rewrite app_nil_r.
Qed.

Lemma no_groups_ok dead m : grouping_ok dead m no_groups [].
Proof.
  split; try done. intros d k. simpl. rewrite lookup_empty. split; [done|]. intros [_ H]. by rewrite lookup_nil in H.
Qed.

(** A group is opened for a mount that has none. *)
Lemma open_group_ok dead m g request c : grouping_ok dead m g request →
  mc_mounts m !! mc_dev c = Some c → mc_memory_backed c = false → (mc_dev c ∉ dead) → gg_by_device g !! mc_dev c = None →
  let '(k, g') := open_group depth registers c g in
  grouping_ok dead m g' request ∧ 0 <= k < Z.of_nat (length (gr_devices (gg_groups g'))).
Proof.
  intros [H1 H2 H3 H4 H5 H6 H7] Hc Hb Hdead Hnew. unfold open_group. set (n := length (gr_devices (gg_groups g))) in *.
  split; [split|]; cbn; rewrite ?length_app; try (simpl; lia).
  - intros d k. destruct (decide (d = mc_dev c)) as [->|Hne].
    + rewrite lookup_insert_eq. split.
      * intros [= <-]. split; [lia|]. rewrite Nat2Z.id. by rewrite lookup_app_r, Nat.sub_diag.
      * intros [Hk Hl]. apply lookup_app_Some in Hl as [Hl|[Hge Hl]].
        { assert (gg_by_device g !! mc_dev c = Some k) by by apply H4. congruence. }
        apply list_lookup_singleton_Some in Hl as [? _]. f_equal. subst n. lia.
    + rewrite lookup_insert_ne, H4 by done. split; intros [Hk Hl]; (split; [done|]).
      * by apply lookup_app_l_Some.
      * apply lookup_app_Some in Hl as [Hl|[_ Hl]]; [done|]. apply list_lookup_singleton_Some in Hl as [_ ?]. congruence.
  - intros dir k Hk%H5. simpl. lia.
  - intros i device block d register Hi1 Hi2 Hi3 Hi4. destruct (decide (i < n)%nat) as [Hi|Hi].
    + rewrite lookup_app_l in Hi1, Hi2, Hi3 by lia. rewrite lookup_app_l in Hi4 by lia. by eapply H6.
    + apply lookup_app_Some in Hi1 as [Hi1|[Hge Hi1]]; [apply lookup_lt_Some in Hi1; lia|].
      rewrite lookup_app_r in Hi2, Hi3 by lia. rewrite lookup_app_r in Hi4 by lia. apply list_lookup_singleton_Some in Hi1 as [Hi1 <-].
      replace (i - length _)%nat with 0%nat in Hi2 by lia. replace (i - length _)%nat with 0%nat in Hi3 by lia.
      replace (i - length _)%nat with 0%nat in Hi4 by lia. injection Hi2 as <-. injection Hi3 as <-. injection Hi4 as <-.
      split; [done|]. split; [|by left]. by exists c.
  - eapply Forall2_impl; [exact H7|]. intros f k. apply file_ok_mono; [done|by eexists|done].
Qed.

(** Opening a group keeps the directories answered before it, and so does remembering one more. *)
Lemma remember_directory_ok dead m g request dir k : grouping_ok dead m g request →
  seen_directory dir (gg_by_directory g) = None →
  (k = -1 ∨ 0 <= k < Z.of_nat (length (gr_devices (gg_groups g)))) →
  grouping_ok dead m (remember_directory dir k g) request.
Proof.
  intros [H1 H2 H3 H4 H5 H6 H7] Hnew Hk. split; try done.
  - intros dir' k'. cbn. rewrite seen_directory_snoc. destruct (seen_directory dir' _) eqn:E; [intros [= <-]; eauto|].
    case_decide; [|done]. by intros [= <-].
  - cbn. eapply Forall2_impl; [exact H7|]. intros f x. apply file_ok_mono; [done|by exists []; rewrite app_nil_r|].
    intros dir' k' E. by rewrite seen_directory_snoc, E.
Qed.

(** What the object and the dead mounts go through during a call. *)
Definition advances (r r' : Router) : Prop :=
  rtc (mount_step types) (ro_mounts r) (ro_mounts r') ∧ ro_dead r ⊆ ro_dead r'.

Lemma advances_refl r : advances r r.
Proof. by split. Qed.

Lemma advances_trans r1 r2 r3 : advances r1 r2 → advances r2 r3 → advances r1 r3.
Proof. intros [H1 H2] [H3 H4]. split; [by etransitivity|set_solver]. Qed.

Lemma advances_ok r r' dead g request : advances r r' → mounts_ok (ro_mounts r) → grouping_ok dead (ro_mounts r) g request →
  mounts_ok (ro_mounts r') ∧ grouping_ok dead (ro_mounts r') g request.
Proof.
  intros [Hs _] Hm Hg. split; [by eapply mount_steps_ok|]. pose proof (mount_steps_grow _ _ _ Hs) as [? ?].
  by eapply grouping_ok_mono.
Qed.

Context (Hothers : ∀ m, rtc (mount_step types) m (others m)) (Hdead : ∀ d, d ⊆ others_dead d).

Lemma group_of_directory_ok dir dead g request r w : mounts_ok (ro_mounts r) → dead ⊆ ro_dead r →
  grouping_ok dead (ro_mounts r) g request →
  ∃ k g' r' w', group_of_directory types others others_dead depth registers dir g r w = (Ret k, (g', (r', w'))) ∧
    advances r r' ∧ grouping_ok dead (ro_mounts r') g' request ∧
    seen_directory dir (gg_by_directory g') = Some k ∧
    (k = -1 ∨ 0 <= k < Z.of_nat (length (gr_devices (gg_groups g')))).
Proof.
  intros Hm Hd Hg. unfold group_of_directory. destruct (seen_directory dir _) as [k|] eqn:Es.
  { exists k, g, r, w. split_and!; [done|apply advances_refl|done|done|]. by eapply go_directory. }
  destruct (of_path types others dir (ro_mounts r) w) as [answer [m w1]] eqn:Ep.
  destruct (of_path_spec _ _ Hothers _ _ _ _ _ _ Ep Hm) as [Hs Ha].
  set (r1 := mkRouter (others_dead (ro_dead r)) m).
  assert (Hadv : advances r r1) by (split; [done|apply Hdead]).
  destruct (advances_ok _ _ _ _ _ Hadv Hm Hg) as [Hm1 Hg1].
  assert (Hdone : ∀ k g', grouping_ok dead m g' request → gg_by_directory g' = gg_by_directory g →
    (k = -1 ∨ 0 <= k < Z.of_nat (length (gr_devices (gg_groups g')))) →
    grouping_ok dead m (remember_directory dir k g') request ∧
    seen_directory dir (gg_by_directory (remember_directory dir k g')) = Some k ∧
    (k = -1 ∨ 0 <= k < Z.of_nat (length (gr_devices (gg_groups (remember_directory dir k g')))))).
  { intros k g' Hg' E Hk. split; [by apply remember_directory_ok; [|rewrite E|]|]. split; [|done].
    cbn. by rewrite seen_directory_snoc, E, Es, decide_True. }
  destruct answer as [c|e]; [|subst e; exists (-1), (remember_directory dir (-1) g), r1, w1; split_and!; try done; apply Hdone; auto].
  destruct (group_of_capability depth registers c (ro_dead r1) g) as [k g'] eqn:Eg.
  exists k, (remember_directory dir k g'), r1, w1. split; [done|]. split; [done|].
  unfold group_of_capability, dead_contains in Eg.
  case_bool_decide as Hin; [injection Eg as <- <-; apply Hdone; auto|].
  destruct (mc_memory_backed c) eqn:Eb; [injection Eg as <- <-; apply Hdone; auto|].
  destruct (gg_by_device g !! mc_dev c) as [k'|] eqn:Ed.
  - injection Eg as <- <-. apply Hdone; [done|done|]. right. apply (go_device _ _ _ _ Hg) in Ed as [? ?%lookup_lt_Some]. lia.
  - pose proof (open_group_ok dead m g request c Hg1 Ha Eb) as Ho. rewrite Eg in Ho. destruct Ho as [Ho1 Ho2]; [|done|].
    + intros Hc. apply Hin. unfold r1 in *. cbn in *. by apply Hdead, Hd.
    + injection Eg as <- <-. apply Hdone; auto.
Qed.

Context (size0 : Z) (Henv : direct_block_size env = Ret size0).

Lemma override_returns : ∃ forced, direct_block_override env = Ret forced.
Proof. unfold direct_block_override. case_match; [eauto|]. exists size0. exact Henv. Qed.

Lemma direct_block_advances device path r w :
  ∃ code block m w', MountCapabilities.direct_block env page_size others device path (ro_mounts r) w = (Ret (code, block), (m, w')) ∧
    advances r (mkRouter (ro_dead r) m) ∧ (block = 0 ∨ mc_direct m !! device = Some block).
Proof.
  destruct override_returns as [forced Hf].
  destruct (direct_block_returns env page_size others device path (ro_mounts r) w forced Hf) as (code & block & m & w' & E).
  exists code, block, m, w'. split; [done|]. apply direct_block_settles in E as [Hm Hb]. split.
  - split; [|done]. destruct Hm as [->|[->|(b & ->)]]; [done|apply Hothers|]. eapply rtc_r; [apply Hothers|]. constructor.
  - destruct Hb as [[[= -> ->] _]|(b & Hb & [[= -> ->]|[= -> ->]])]; auto.
Qed.

Lemma block_of_ok device path r w : ∃ block r' w', block_of env page_size others device path r w = (Ret block, (r', w')) ∧
  advances r r' ∧ (block = 0 ∨ mc_direct (ro_mounts r') !! device = Some block).
Proof.
  destruct (direct_block_advances device path r w) as (code & block & m & w' & E & Ha & Hb).
  exists block, (mkRouter (ro_dead r) m), w'. unfold block_of. rewrite E. by split_and!.
Qed.

Lemma mount_serves_ok file device r w : ∃ b r' w', mount_serves env page_size others file device r w = (Ret b, (r', w')) ∧ advances r r'.
Proof.
  destruct (direct_block_advances device (fr_path file) r w) as (code & block & m & w' & E & Ha & _).
  unfold mount_serves, direct_support. rewrite E. simpl. by do 3 eexists.
Qed.

Lemma reads_directly_ok file device r w :
  ∃ b r' w', reads_directly env page_size others file device destination r w = (Ret b, (r', w')) ∧ advances r r' ∧
    (b = true → reads_through_staging destination = false →
     ∃ block, (mc_direct (ro_mounts r') !! device = Some block ∨ direct_block_size env = Ret block) ∧
              ∀ range, range ∈ fr_ranges file → rr_size range ≠ 0 → is_congruent (rr_offset range) (rr_dst range) block = true).
Proof.
  unfold reads_directly. destruct (reads_through_staging destination).
  { destruct (mount_serves_ok file device r w) as (b & r' & w' & -> & Ha). exists b, r', w'. split_and!; done. }
  destruct (block_of_ok device (fr_path file) r w) as (measured & r1 & w1 & E & Ha & Hb). rewrite E. cbn [obind].
  assert (∃ block, (if negb (measured =? 0) then Ret measured else direct_block_size env) = Ret block ∧
    (mc_direct (ro_mounts r1) !! device = Some block ∨ direct_block_size env = Ret block)) as (block & Eb & Hblock).
  { destruct (Z.eqb_spec measured 0); cbn [negb]; [exists size0; rewrite Henv; auto|]. exists measured. destruct Hb as [?|?]; [done|auto]. }
  rewrite Eb. destruct (forallb _ _) eqn:Ef; [|by exists false, r1, w1].
  destruct (mount_serves_ok file device r1 w1) as (b & r2 & w2 & -> & Ha2). exists b, r2, w2.
  split; [done|]. split; [by eapply advances_trans|]. intros _ _. exists block. split.
  - destruct Hblock as [Hblock|?]; [left|by right]. destruct Ha2 as [[_ Hd]%mount_steps_grow _]. by eapply lookup_weaken.
  - intros range Hin Hz. rewrite forallb_forall in Ef. apply list_elem_of_In, Ef in Hin. unfold range_congruent in Hin.
    by rewrite (proj2 (Z.eqb_neq _ _)) in Hin.
Qed.

Definition settled_block (r : Router) (block : Z) : Prop := block ≠ 0 ∧ ∃ device, mc_direct (ro_mounts r) !! device = Some block.

Lemma settled_blocks_mono r r' blocks : advances r r' → Forall (settled_block r) blocks → Forall (settled_block r') blocks.
Proof.
  intros [[_ Hd]%mount_steps_grow _] H. eapply Forall_impl; [exact H|]. intros b [Hb [device Hdev]]. split; [done|].
  exists device. by eapply lookup_weaken.
Qed.

Lemma largest_block_ok paths : ∀ largest measured r w, mounts_ok (ro_mounts r) →
  ∃ blocks r' w', largest_block types env page_size others paths largest measured r w =
    (Ret (foldl Z.max largest blocks, measured || negb (bool_decide (blocks = []))), (r', w')) ∧
    advances r r' ∧ Forall (settled_block r') blocks.
Proof.
  induction paths as [|path paths IH]; intros largest measured r w Hm; simpl.
  { exists [], r, w. rewrite orb_false_r. split_and!; [done|apply advances_refl|done]. }
  destruct (of_path types others (directory_of path) (ro_mounts r) w) as [answer [m w1]] eqn:Ep.
  destruct (of_path_spec _ _ Hothers _ _ _ _ _ _ Ep Hm) as [Hs Ha]. set (r1 := mkRouter (ro_dead r) m).
  assert (Hr1 : advances r r1) by by split. assert (Hm1 : mounts_ok (ro_mounts r1)) by by eapply mount_steps_ok.
  assert (Hskip : ∀ r2 w2, advances r r2 → mounts_ok (ro_mounts r2) →
    ∃ blocks r' w', largest_block types env page_size others paths largest measured r2 w2 =
      (Ret (foldl Z.max largest blocks, measured || negb (bool_decide (blocks = []))), (r', w')) ∧
      advances r r' ∧ Forall (settled_block r') blocks).
  { intros r2 w2 H2 Hm2. destruct (IH largest measured r2 w2 Hm2) as (blocks & r' & w' & E & Ha' & Hb).
    exists blocks, r', w'. split_and!; [done|by eapply advances_trans|done]. }
  destruct answer as [c|e]; [|subst e; by apply Hskip]. destruct (mc_memory_backed c); [by apply Hskip|].
  destruct (block_of_ok (mc_dev c) path r1 w1) as (block & r2 & w2 & -> & Ha2 & Hb2).
  pose proof (advances_trans _ _ _ Hr1 Ha2) as Ha12.
  assert (Hm2 : mounts_ok (ro_mounts r2)) by (destruct Ha2; by eapply mount_steps_ok).
  destruct (Z.eqb_spec block 0) as [|Hz]; cbn [negb]; [by apply Hskip|].
  destruct (IH (Z.max largest block) true r2 w2 Hm2) as (blocks & r' & w' & E & Ha' & Hb).
  exists (block :: blocks), r', w'. rewrite E. split_and!.
  - cbn. by rewrite orb_true_r.
  - by eapply advances_trans.
  - constructor; [|done]. destruct Hb2 as [|Hb2]; [done|]. split; [done|]. exists (mc_dev c).
    destruct Ha' as [[_ Hd]%mount_steps_grow _]. by eapply lookup_weaken.
Qed.

(** The alignment for destinations is the largest block measured for the mounts of the paths, or the page size
    and UnknownError where none was; asking never throws. *)
Lemma direct_block_for_correct paths r w : mounts_ok (ro_mounts r) →
  ∃ code block r' w', direct_block_for types env page_size others paths r w = (Ret (code, block), (r', w')) ∧ advances r r' ∧
    (code = UnknownError ∧ block = wrap64 page_size ∨
     code = Success ∧ ∃ blocks, blocks ≠ [] ∧ block = foldl Z.max 0 blocks ∧ Forall (settled_block r') blocks).
Proof.
  intros Hm. unfold direct_block_for. destruct (largest_block_ok paths 0 false r w Hm) as (blocks & r' & w' & -> & Ha & Hb).
  cbn [obind]. case_bool_decide as E; do 4 eexists; (split; [done|]); (split; [done|]); cbn [orb negb]; [by left|].
  right. split; [done|]. by exists blocks.
Qed.

Lemma learn_block_ok group path dead g request r w : grouping_ok dead (ro_mounts r) g request → mounts_ok (ro_mounts r) →
  (group < length (gr_devices (gg_groups g)))%nat →
  ∃ g' r' w', learn_block env page_size others strategy group path g r w = (Ret g', (r', w')) ∧ advances r r' ∧
    grouping_ok dead (ro_mounts r') g' request ∧ gr_devices (gg_groups g') = gr_devices (gg_groups g) ∧
    gg_by_directory g' = gg_by_directory g.
Proof.
  intros Hg Hm Hlt. unfold learn_block. pose proof Hg as [H1 H2 H3 H4 H5 H6 H7].
  destruct (lookup_lt_is_Some_2 (gr_devices (gg_groups g)) group) as [device Ed]; [done|].
  destruct (lookup_lt_is_Some_2 (gr_blocks (gg_groups g)) group) as [block Eb]; [lia|]. rewrite Eb, Ed.
  destruct (_ && _); [|exists g, r, w; split_and!; (done || apply advances_refl)].
  destruct (block_of_ok device path r w) as (b & r1 & w1 & E & Ha & Hb). rewrite E. cbn [obind].
  do 3 eexists. split; [done|]. split; [done|]. split; [|done]. clear H1 H2 H3 H4 H5 H6 H7.
  destruct (advances_ok _ _ _ _ _ Ha Hm Hg) as [_ [H1 H2 H3 H4 H5 H6 H7]]. split; cbn; rewrite ?length_insert; try done.
  intros i dev bl d register Hi1 Hi2 Hi3 Hi4. destruct (decide (i = group)) as [->|Hne].
  - rewrite list_lookup_insert_eq in Hi2 by (apply lookup_lt_Some in Eb; done). injection Hi2 as <-.
    assert (dev = device) as -> by congruence. destruct (lookup_lt_is_Some_2 (gr_blocks (gg_groups g)) group) as [bl Ebl]; [lia|].
    destruct (H6 _ _ _ _ _ Ed Ebl Hi3 Hi4) as (? & ? & _). split_and!; done.
  - rewrite list_lookup_insert_ne in Hi2 by done. by eapply H6.
Qed.

Lemma add_file_ok dead m g request file group : grouping_ok dead m g request →
  file_ok m (gr_devices (gg_groups g)) (λ dir, seen_directory dir (gg_by_directory g)) file group →
  grouping_ok dead m (with_groups (add_file group) g) (request ++ [file]).
Proof. intros [H1 H2 H3 H4 H5 H6 H7] Hf. split; try done. cbn. apply Forall2_app; [done|]. by constructor. Qed.

Lemma group_file_ok file dead g request r w : mounts_ok (ro_mounts r) → dead ⊆ ro_dead r →
  grouping_ok dead (ro_mounts r) g request →
  ∃ g' r' w', group_file types env page_size others others_dead depth registers strategy destination file g r w = (Ret g', (r', w')) ∧
    advances r r' ∧ grouping_ok dead (ro_mounts r') g' (request ++ [file]).
Proof.
  intros Hm Hd Hg. unfold group_file. destruct (decide (fr_ranges file = [])) as [Hr|Hr].
  { do 3 eexists. split; [done|]. split; [apply advances_refl|]. apply add_file_ok; [done|by left]. }
  destruct (group_of_directory_ok (directory_of (fr_path file)) dead g request r w Hm Hd Hg)
    as (k & g1 & r1 & w1 & -> & Ha1 & Hg1 & Hseen & Hk).
  pose proof (advances_ok _ _ _ _ _ Ha1 Hm Hg) as [Hm1 _].
  destruct (Z.ltb_spec k 0).
  { do 3 eexists. split; [done|]. split; [done|]. apply add_file_ok; [done|by left]. }
  destruct Hk as [?|Hk]; [lia|].
  destruct (learn_block_ok (Z.to_nat k) (fr_path file) dead g1 request r1 w1 Hg1 Hm1) as (g2 & r2 & w2 & -> & Ha2 & Hg2 & Edev & Edir); [lia|].
  pose proof (advances_ok _ _ _ _ _ Ha2 Hm1 Hg1) as [Hm2 _]. pose proof (advances_trans _ _ _ Ha1 Ha2) as Ha.
  destruct (lookup_lt_is_Some_2 (gr_devices (gg_groups g2)) (Z.to_nat k)) as [device Ek]; [rewrite Edev; lia|].
  rewrite <- Edir in Hseen. case_bool_decide as Hst.
  - rewrite Ek. destruct (reads_directly_ok file device r2 w2) as (b & r3 & w3 & E & Ha3 & Hb). rewrite E. cbn [obind].
    do 3 eexists. split; [done|]. split; [by eapply advances_trans|].
    destruct (advances_ok _ _ _ _ _ Ha3 Hm2 Hg2) as [_ Hg3]. apply add_file_ok; [done|]. destruct b; [right|by left].
    split_and!; [done|done|done|]. exists device. split; [done|]. intros _ Hdest. by apply Hb.
  - do 3 eexists. split; [done|]. split; [done|]. apply add_file_ok; [done|]. right. split_and!; [done|done|done|].
    exists device. split; [done|]. by intros ?.
Qed.

Lemma group_files_ok dead request : ∀ done_ g r w, mounts_ok (ro_mounts r) → dead ⊆ ro_dead r →
  grouping_ok dead (ro_mounts r) g done_ →
  ∃ g' r' w', group_files types env page_size others others_dead depth registers strategy destination request g r w = (Ret g', (r', w')) ∧
    advances r r' ∧ grouping_ok dead (ro_mounts r') g' (done_ ++ request).
Proof.
  induction request as [|file request IH]; intros done_ g r w Hm Hd Hg; simpl.
  { exists g, r, w. split; [done|]. split; [apply advances_refl|]. by rewrite app_nil_r. }
  destruct (group_file_ok file dead g done_ r w Hm Hd Hg) as (g1 & r1 & w1 & -> & Ha & Hg1).
  destruct (IH (done_ ++ [file]) g1 r1 w1) as (g2 & r2 & w2 & E & Ha2 & Hg2).
  - by destruct (advances_ok _ _ _ _ _ Ha Hm Hg).
  - destruct Ha as [_ Ha]. set_solver.
  - done.
  - exists g2, r2, w2. split; [done|]. split; [by eapply advances_trans|]. by rewrite <- app_assoc in Hg2.
Qed.

(** Grouping never fails a submission, and sends each file where it can be read.  Whatever the machine answers
    and other threads do: there is one answer per file; the groups are dense, one per mount, each of a mount that
    is known, not in memory and not dead when the call began, with the depth and the registration of its file
    system's type and a block that is the one measured for the mount, or zero; a file without ranges is left out;
    files beside each other that have a group have the same; and what libaio is given to read in place is
    congruent, range by range, for the mount's block or, where there is no measurement, the block of the process.
    The synchronous strategy has no groups and asks the machine nothing. *)
Theorem groups_correct resolver request r w : resolved resolver = Ret strategy → mounts_ok (ro_mounts r) →
  ∃ g r' w', groups types env page_size others others_dead depth registers resolver request destination r w = (Ret g, (r', w')) ∧
    advances r r' ∧
    (is_async strategy = false → gr_by_file g = map (λ _, -1) request ∧ gr_devices g = [] ∧ r' = r ∧ w' = w) ∧
    (∃ seen, Forall2 (file_ok (ro_mounts r') (gr_devices g) seen) request (gr_by_file g)) ∧
    NoDup (gr_devices g) ∧ length (gr_blocks g) = length (gr_devices g) ∧
    length (gr_depths g) = length (gr_devices g) ∧ length (gr_registers g) = length (gr_devices g) ∧
    (∀ i device block d register, gr_devices g !! i = Some device → gr_blocks g !! i = Some block →
       gr_depths g !! i = Some d → gr_registers g !! i = Some register →
       group_ok (ro_dead r) (ro_mounts r') device block d register).
Proof.
  intros Hr Hm. unfold groups. rewrite Hr. destruct (is_async strategy); cbn [negb].
  - destruct (group_files_ok (ro_dead r) request [] no_groups r w Hm) as (g & r' & w' & -> & Ha & [H1 H2 H3 H4 H5 H6 H7]);
      [done|apply no_groups_ok|].
    exists (gg_groups g), r', w'. split_and!; try done; [by eexists|].
    apply NoDup_alt. intros i j d Hi Hj. apply (inj Z.of_nat).
    assert (gg_by_device g !! d = Some (Z.of_nat i)) by (apply H4; rewrite Nat2Z.id; split; [lia|done]).
    assert (gg_by_device g !! d = Some (Z.of_nat j)) by (apply H4; rewrite Nat2Z.id; split; [lia|done]). congruence.
  - do 3 eexists. split; [done|]. split; [apply advances_refl|]. split; [done|]. cbn. split.
    + exists (λ _, None). induction request; constructor; [by left|done].
    + split_and!; try done. apply NoDup_nil_2.
Qed.
End Groups.

(** ** Two shards on one disk, and a machine that measures it once *)

Definition shards : list FileRanges :=
  [mkFileRanges (txt "/models/a") [mkReadRange 0 8192 40960]; mkFileRanges (txt "/models/b") [mkReadRange 100 10 40960];
   mkFileRanges (txt "/models/c") []].

Definition libaio_resolver : Resolver := mkResolver None (Some (txt "libaio_direct")) (Some LibaioDirect).
Definition fresh_router : Router := mkRouter ∅ new_mount_capabilities.

(** The first is read directly, the second is not congruent, the third asks for nothing. *)
Example groups_example :
  (groups {[66305 := txt "ext4"]} ∅ 4096 alone id (mkFsQueueDepth 64 [mkDepthEntry (txt "ext") 32]) None libaio_resolver shards host
     fresh_router (fresh_machine [0; 0])).1 =
  Ret (mkGroups [0; -1; -1] [66305] [4096] [32] [true]).
Proof. vm_compute. done. Qed.

Lemma groups_correct_witness :
  ∃ g, (groups {[66305 := txt "ext4"]} ∅ 4096 alone id (mkFsQueueDepth 64 [mkDepthEntry (txt "ext") 32]) None libaio_resolver shards host
     fresh_router (fresh_machine [0; 0])).1 = Ret g ∧ NoDup (gr_devices g).
Proof.
  assert (He : direct_block_size ∅ = Ret 65536) by (vm_compute; reflexivity).
  destruct (groups_correct {[66305 := txt "ext4"]} ∅ 4096 alone id (mkFsQueueDepth 64 [mkDepthEntry (txt "ext") 32]) None
              LibaioDirect host (λ m, rtc_refl _ m) (λ d x Hx, Hx) 65536 He libaio_resolver shards fresh_router (fresh_machine [0; 0]))
    as (g & r' & w' & E & _ & _ & _ & Hn & _).
  - reflexivity.
  - apply mounts_ok_new.
  - exists g. split; [by rewrite E|exact Hn].
Defined.
