(* ===== verification/AsyncIoScenario.v ===== *)
(** The asynchronous worker, run: an engine, a device client and a file system that follow a script, and
    what the worker does with two direct reads of one file that are both refused. *)

From S2P Require Import Prelude ResponseCode Text SharedQueue Task ChunkSplitter Batch Workload CompletionMapper.
From S2P Require Import ScratchPool CapacityQueue InflightChunks DirectPass IoEngine Reporting AsyncIoWorker.

(** ** A scripted engine: each wait answers the oldest issued reads with the next list of results, and one
    read in full once the script is over *)

Record ScriptedEngine := mkScripted {
  sc_depth : Z; sc_staged : list StagedRead; sc_issued : list StagedRead; sc_results : list (list Z) }.

Definition answer (x : Z * StagedRead) : Completion := mkCompletion (sr_id x.2) (Z.min x.1 (sr_bytesize x.2)).

Definition scripted_wait (e : ScriptedEngine) : ResponseCode * list Completion * ScriptedEngine :=
  match sc_results e with
  | rs :: rest =>
      let n := Nat.min (length rs) (length (sc_issued e)) in
      (Success, map answer (zip rs (sc_issued e)),
       mkScripted (sc_depth e) (sc_staged e) (drop n (sc_issued e)) rest)
  | [] =>
      match sc_issued e with
      | [] => (Success, [], e)
      | r :: rest => (Success, [answer (sr_bytesize r, r)], mkScripted (sc_depth e) (sc_staged e) rest [])
      end
  end.

#[export] Instance scripted_engine : IoEngine ScriptedEngine := {
  depth e := Z.max 1 (sc_depth e);
  stage r e := (Success, mkScripted (sc_depth e) (sc_staged e ++ [r]) (sc_issued e) (sc_results e));
  flush e := (Success, (Z.of_nat (length (sc_staged e)), false),
              mkScripted (sc_depth e) [] (sc_issued e ++ sc_staged e) (sc_results e));
  wait_for_completions _ _ e := scripted_wait e;
  staged_reads := sc_staged;
  issued_reads := sc_issued;
  patience e := length (sc_results e) }.

Lemma answers_zip rs l : Forall2 answers (map answer (zip rs l)) (list.take (Nat.min (length rs) (length l)) l).
Proof.
  revert l. induction rs as [|r rs IH]; intros [|x l]; simpl; constructor; [|by apply IH].
  split; simpl; [done|lia].
Qed.

#[export] Instance scripted_laws : EngineLaws ScriptedEngine.
Proof.
  split; simpl.
  - intros r e code e' [= <- <-]. by rewrite decide_True.
  - intros e code n d e' [= <- <- <- <-]. do 2 (split; [done|]). exists (sc_staged e). simpl. by rewrite app_nil_r.
  - intros _ _ e code cs e' E. unfold scripted_wait in E. destruct (sc_results e) as [|rs rest].
    + destruct (sc_issued e) as [|r l] eqn:Hi; injection E as <- <- <-; (do 4 (split; [done|])); simpl.
      * exists []. by rewrite Hi.
      * exists [r]. split; [done|]. constructor; [|constructor]. split; simpl; [done|lia].
    + injection E as <- <- <-. do 4 (split; [done|]). simpl.
      exists (list.take (Nat.min (length rs) (length (sc_issued e))) (sc_issued e)).
      split; [by rewrite take_drop|apply answers_zip].
  - intros e. lia.
  - intros _ e cs e' E _ Hne. unfold scripted_wait in E. destruct (sc_results e) as [|rs rest] eqn:Hr.
    + destruct (sc_issued e) as [|r l]; [done|]. injection E as <- <-. simpl. lia.
    + injection E as <- <-. simpl. rewrite length_drop. lia.
Qed.

(** ** No device, and files that always open *)

#[export] Instance no_device : DeviceClient unit := {
  client_take _ d := (DeviceUnavailable, no_staging, d);
  client_write _ _ _ _ _ _ d := (DeviceUnavailable, d);
  client_release _ _ := Throw AssertFailed;
  client_slab_at _ _ := None;
  copies_pop _ d := (None, d);
  copying _ := [];
  lent _ := [] }.

#[export] Instance no_device_laws : ClientLaws unit.
Proof.
  split; simpl.
  - intros ? [] ? ? [] [= <- <-]. done.
  - intros ? ? ? ? ? ? [] ? [] l _ H%Permutation_nil_l. done.
  - intros ? [] l H%Permutation_nil_l. done.
  - intros ? [] r [] [= <-]. done.
Qed.

(** The state is the next descriptor. *)
#[export] Instance always_open : Files Z := {
  open_for_read _ _ f := (Some f, f + 1);
  dup2 _ _ f := (true, f);
  close _ f := f }.

(** ** Two chunks of one file, read directly, on a mount that refuses the alignment *)

Definition one_file (_ _ : Z) : text := txt "/f".

Definition two_chunk_workload : Workload := mkWorkload [two_chunks] false host 512.

Definition direct_worker (results : list (list Z)) : worker (R := queue) :=
  mkWorker 512 true false false UnknownError (Some (mkPool 512 8192 [8192; 8704])) 0 [] new_table [] 1 0 0
    (make_capacity_queue 4) (mkCounters 0 0 0 0 0) (mkScripted 4 [] [] results) tt 3
    (mkWorld two_requests (make_queue 2 PERSISTENT)) [] [].

(** Submit the workload, then take [turns] turns. *)
Fixpoint turns (n : nat) (w : worker (R := queue) (E := ScriptedEngine) (D := unit) (F := Z)) :=
  match n with O => Ret w | S n => let! w := drain true false one_file false w in turns n w end.

Definition run (results : list (list Z)) (n : nat) :=
  let! w := execute true false one_file 4 (λ _, false) two_chunk_workload (direct_worker results) in turns n w.

Definition answered (o : outcome (worker (R := queue) (E := ScriptedEngine) (D := unit) (F := Z))) : list Response :=
  match o with Ret w => responses (responder (k_world w)) | Throw _ => [] end.

(** Two direct reads of one file that are in flight together and both refused for alignment do not
    both fall back.  The first refusal demotes the file and its read is staged again buffered; the second
    one, harvested after the descriptor's mode was changed, is judged as a failure of a buffered read: its
    range is answered FileAccessError, although the buffered reads of the same file succeed.  A single
    refusal, or two that the kernel delivers, are answered Success. *)
Theorem second_refusal_fails_the_file :
  answered (run [] 6) = [mkResponse 7 0 0 Success; mkResponse 7 0 1 Success] ∧
  answered (run [[- EINVAL]] 6) = [mkResponse 7 0 1 Success; mkResponse 7 0 0 Success] ∧
  answered (run [[- EINVAL; - EINVAL]] 6) = [mkResponse 7 0 0 Success; mkResponse 7 0 1 FileAccessError] ∧
  answered (run [[- EINVAL]; [- EINVAL]] 6) = [mkResponse 7 0 0 Success; mkResponse 7 0 1 FileAccessError].
Proof. vm_compute. done. Qed.
