(* ===== verification/DeviceScenario.v ===== *)
(** The copy path, run: a driver that does as it is told, the device client over it, and an asynchronous
    worker that reads one range for a device. *)

From S2P Require Import Prelude ResponseCode Text SharedQueue Task ChunkSplitter Batch Workload CompletionMapper.
From S2P Require Import ScratchPool CapacityQueue InflightChunks DirectPass IoEngine StagingPool DeviceWriter.
From S2P Require Import AsyncIoWorker AsyncIoScenario.

(** ** A driver: memory from a counter, handles that are all one, and events and streams that may be broken *)

Record ScriptedDriver := mkDriver {
  sd_next : Z; sd_record_fails : bool; sd_drain_fails : bool; sd_wait_fails : bool; sd_pinned : list (Z * Z) }.

Definition answer_with (fails : bool) (v : ScriptedDriver) : ResponseCode * ScriptedDriver :=
  (if fails then DeviceTransferError else Success, v).

#[export] Instance scripted_driver : Driver ScriptedDriver := {
  find_backend _ v := (true, v);
  open_device _ _ v := (Success, 1, v);
  bind_thread _ v := (Success, v);
  stream_create _ v := (Success, 1, v);
  stream_synchronize _ v := answer_with (sd_drain_fails v) v;
  event_create _ v := (Success, 1, v);
  event_record _ _ v := answer_with (sd_record_fails v) v;
  event_synchronize _ v := answer_with (sd_wait_fails v) v;
  memcpy_h2d_async _ _ _ _ v := (Success, v);
  device_host_alloc _ bytes v :=
    if (0 <? sd_next v) && (0 <=? bytes) && (sd_next v + bytes <=? size_modulus) &&
       bool_decide (Forall (λ x, x.1 + x.2 <= sd_next v) (sd_pinned v)) then
      (Success, sd_next v, mkDriver (sd_next v + bytes) (sd_record_fails v) (sd_drain_fails v) (sd_wait_fails v)
                             ((sd_next v, bytes) :: sd_pinned v))
    else (DeviceOutOfMemory, 0, v);
  pinned := sd_pinned }.

#[export] Instance scripted_driver_laws : DriverLaws ScriptedDriver.
Proof.
  split; try done. intros d bytes v code base v' E. simpl in E.
  destruct (_ && _) eqn:Hb; [|by injection E as <- <- <-]. injection E as <- <- <-.
  apply andb_true_iff in Hb as [Hb Hf%bool_decide_eq_true]. apply andb_true_iff in Hb as [Hb H3%Z.leb_le].
  apply andb_true_iff in Hb as [H1%Z.ltb_lt H2%Z.leb_le]. simpl. split; [done|]. split; [done|]. split; [|done].
  eapply Forall_impl; [exact Hf|]. intros x Hx. by left.
Qed.

(** ** The client, before it has named a device *)

Definition few_buffers : Params := mkParams 4096 16384 4 1.

Definition idle_client (v : ScriptedDriver) : Client :=
  mkClient (Some (mkWriter [] [])) v few_buffers None [] [] None [] [] [].

Lemma idle_client_ok v : path_ok [] (idle_client v).
Proof.
  split; simpl.
  - split; [unfold sane; simpl; mlia|]. by eexists.
  - by split.
  - done.
Qed.

Definition healthy : ScriptedDriver := mkDriver 4096 false false false [].

Lemma device_client_refines_witness : ClientLaws (DeviceWriterClient (V := ScriptedDriver)) ∧
  lent (mkDeviceClient (idle_client healthy) (idle_client_ok healthy)) = [].
Proof. split; [apply (device_client_refines (V := ScriptedDriver))|reflexivity]. Defined.

(** ** One range for a device *)

Definition device_batch : Batch :=
  mkBatch 7 0 0 false [make_task 0 (make_info 0 512 0)] [mkChunk 0 512 4096 0 1] (mkRange 0 512 512) 0.

Definition device_workload : Workload := mkWorkload [device_batch] false (cuda 0) 512.

Definition device_worker (v : ScriptedDriver) :
    worker (R := queue) (E := ScriptedEngine) (D := DeviceWriterClient (V := ScriptedDriver)) (F := Z) :=
  mkWorker 512 true false false UnknownError None 0 [] new_table [] 1 0 0
    (make_capacity_queue 4) (mkCounters 0 0 0 0 0) (mkScripted 4 [] [] []) (mkDeviceClient (idle_client v) (idle_client_ok v)) 3
    (mkWorld {[0%nat := make_request 0 0 0 1 512 4096]} (make_queue 1 PERSISTENT)) [] [].

Fixpoint device_turns (n : nat) (w : worker (R := queue) (E := ScriptedEngine) (D := DeviceWriterClient (V := ScriptedDriver)) (F := Z)) :=
  match n with O => Ret w | S n => let! w := drain false false one_file false w in device_turns n w end.

Definition load (v : ScriptedDriver) :=
  let! w := execute false false one_file 4 (λ _, false) device_workload (device_worker v) in device_turns 4 w.

(** What the submission was told, and the buffers retired with their reason. *)
Definition outcome_of (v : ScriptedDriver) : option (list Response * Z * ResponseCode) :=
  match load v with
  | Ret w =>
      match dc_pool (the_client (k_client w)) with
      | Some (_, p) => Some (responses (responder (k_world w)), sp_retired p, sp_retired_code p)
      | None => None
      end
  | Throw _ => None
  end.

(** A copy that may still be landing is reported as one that has ended.  When the event of a copy
    cannot be recorded and its stream cannot be drained, the writer retires the staging buffer and answers
    DeviceDriverError: the copy may still land.  The asynchronous worker answers the range
    DeviceTransferError all the same, the code that promises that the destination is free.  A waiter that
    cannot see the copy land is reported as DeviceDriverError; a copy that lands is Success. *)
Theorem undrained_copy_reported_as_ended :
  outcome_of healthy = Some ([mkResponse 7 0 0 Success], 0, Success) ∧
  outcome_of (mkDriver 4096 true true false []) = Some ([mkResponse 7 0 0 DeviceTransferError], 1, DeviceDriverError) ∧
  outcome_of (mkDriver 4096 false false true []) = Some ([mkResponse 7 0 0 DeviceDriverError], 1, DeviceDriverError).
Proof. vm_compute. done. Qed.
