(* ===== verification/AsyncIoAnswers.v ===== *)
(** What the asynchronous worker does to the batches it holds: every handler it calls succeeds, and a
    workload it is finished with has no unfinished task.

    [others] are the batches elsewhere in the streamer: in other workers and queues. *)

From S2P Require Import Prelude ResponseCode Text SharedQueue Task ChunkSplitter Batch Workload.
From S2P Require Import CompletionMapper ScratchPool CapacityQueue InflightChunks DirectPass IoEngine Reporting AsyncIoWorker.

Section Answers.
Context {R E D F : Type} `{!Responder R, !IoEngine E, !DeviceClient D, !Files F}.
Context (direct_strategy register_buffers : bool) (path_of : Z → Z → text).
Context (owner : nat → Z) (log0 : list Response) (others : list Batch).

Local Abbreviation worker := (worker (R := R) (E := E) (D := D) (F := F)).
Implicit Types (w : worker).

(** ** The batches *)

Definition mine (l : list (Z * Inflight)) : list Batch := concat (map (λ x, wl_batches (if_workload x.2)) l).

Record answering w : Prop := {
  an_system : ∃ answered, system_ok owner log0 answered (others ++ retired w ++ mine (k_inflight w)) (k_world w);
  an_retired : Forall all_done (retired w) }.

Lemma mine_app l1 l2 : mine (l1 ++ l2) = mine l1 ++ mine l2.
Proof. unfold mine. by rewrite map_app, concat_app. Qed.

(** ** The tasks of one chunk *)

Lemma account_tasks_success n : ∀ i b errors answered before after (x : world (R := R)),
  system_ok owner log0 answered (before ++ b :: after) x → (i + n <= length (tasks b))%nat →
  ∃ b' x' answered', account_tasks n i Success b errors x = Ret (b', errors, x') ∧ advanced b b' ∧
    range_done n i b' ∧ system_ok owner log0 answered' (before ++ b' :: after) x'.
Proof.
  induction n as [|n IH]; intros i b errors answered before after x Hs Hn; simpl.
  { exists b, x, answered. split_and!; [done|apply advanced_refl| |done]. intros j t Hj. lia. }
  destruct (lookup_lt_is_Some_2 (tasks b) i) as [t Ht]; [lia|]. rewrite Ht.
  destruct (Z.eqb_spec (t_bytesize t) 0) as [H0|H0].
  - destruct (IH (S i) b errors answered before after x Hs) as (b' & x' & a' & -> & Had & Hd & Hs'); [lia|].
    exists b', x', a'. split_and!; [done|done| |done]. intros j t' Hj Ht' Hb.
    destruct (decide (j = i)) as [->|Hne]; [|apply (Hd j); [lia|done|done]].
    destruct (ad_tasks _ _ Had _ _ Ht) as (t2 & Ht2 & Hi & _). assert (t2 = t') as -> by congruence.
    unfold t_bytesize in *. by rewrite Hi in Hb.
  - destruct (handle_response_total owner log0 _ _ _ _ _ _ _ Hs Ht) as (x1 & a1 & -> & Hs1). cbn [obind].
    set (b1 := set_tasks b (<[i:=set_finished t]> (tasks b)) (unfinished b)) in *.
    destruct (IH (S i) b1 errors a1 before after x1 Hs1) as (b' & x' & a' & -> & Had & Hd & Hs').
    { simpl. rewrite length_insert. lia. }
    exists b', x', a'. split_and!; [done|by eapply advanced_trans; [apply advanced_one|]| |done].
    intros j t' Hj Ht' Hb. destruct (decide (j = i)) as [->|Hne]; [|apply (Hd j); [lia|done|done]].
    destruct (ad_tasks _ _ Had i (set_finished t)) as (t2 & Ht2 & _ & Hf).
    { subst b1. simpl. by rewrite list_lookup_insert_eq by (by eapply lookup_lt_Some). }
    assert (t2 = t') as -> by congruence. by apply Hf.
Qed.

Lemma account_tasks_failure n : ∀ i ret b errors (x : world (R := R)),
  ret ≠ Success → errors_ok errors → (i + n <= length (tasks b))%nat →
  ∃ errors', account_tasks n i ret b errors x = Ret (b, errors', x) ∧ errors_ok errors' ∧
    (∀ b', file_failed errors b' → file_failed errors' b') ∧
    (file_failed errors' b ∨ ∀ j t, (i <= j < i + n)%nat → tasks b !! j = Some t → t_bytesize t = 0).
Proof.
  induction n as [|n IH]; intros i ret b errors x Hr He Hn; simpl.
  { exists errors. split_and!; [done|done|done|]. right. intros. lia. }
  destruct (lookup_lt_is_Some_2 (tasks b) i) as [t Ht]; [lia|]. rewrite Ht.
  destruct (Z.eqb_spec (t_bytesize t) 0) as [H0|H0].
  - destruct (IH (S i) ret b errors x Hr He) as (e' & -> & He' & Hm & Hd); [lia|].
    exists e'. split_and!; [done|done|done|]. destruct Hd as [|Hd]; [by left|right].
    intros j t' Hj Ht'. destruct (decide (j = i)) as [->|]; [congruence|]. apply (Hd j); [lia|done].
  - rewrite decide_False by done. fold (record_error ret b errors).
    destruct (record_error_spec ret b errors He Hr) as (He1 & Hf1 & Hm1).
    destruct (IH (S i) ret b (record_error ret b errors) x Hr He1) as (e' & -> & He' & Hm & _); [lia|].
    exists e'. split_and!; [done|done|auto|]. left. by apply Hm.
Qed.

(** Finalizing a workload retires its batches with no task unfinished. *)
Lemma finalize_spec id code wl w :
  answering w → assoc id (k_inflight w) = Some wl → errors_ok (if_errors wl) →
  code ≠ Success ∨ Forall (λ b, file_failed (if_errors wl) b ∨ all_done b) (wl_batches (if_workload wl)) →
  ∃ x bs, finalize id code w = Ret (with_inflight (assoc_remove id (k_inflight w))
              (with_files (close_all (if_fds wl) (k_files w)) (with_end code (with_retired bs (with_world x w))))) ∧
    answering (with_inflight (assoc_remove id (k_inflight w))
              (with_files (close_all (if_fds wl) (k_files w)) (with_end code (with_retired bs (with_world x w))))).
Proof.
  intros [[answered Hs] Hr] Hwl Herr Hcode. unfold finalize. rewrite Hwl. unfold report_workload.
  apply assoc_split in Hwl as (l1 & l2 & El & Hl1). rewrite El in Hs.
  rewrite mine_app in Hs. change (mine ((id, wl) :: l2)) with (wl_batches (if_workload wl) ++ mine l2) in Hs.
  destruct (report_batches_spec owner log0 code (if_errors wl) (wl_batches (if_workload wl)) answered
    (others ++ retired w ++ mine l1) (mine l2) (k_world w)) as (bs & x & a & -> & Hd & Hs'); [|done|done|].
  { by rewrite <- !app_assoc. }
  cbn [obind]. eexists x, bs. split; [reflexivity|]. split; simpl.
  - exists a. eapply system_ok_perm; [|exact Hs']. rewrite El, (assoc_remove_split _ _ _ _ Hl1), mine_app. solve_Permutation.
  - by apply Forall_app.
Qed.
End Answers.
