(* ===== verification/AsyncIoTracking.v ===== *)
(** The asynchronous worker's books: every live request belongs to a task of a live workload, every
    workload counts its live requests, every unanswered task has a live request or a recorded error, and
    every staging buffer lent to the worker is held by one request.  Answering a request keeps them. *)

From S2P Require Import Prelude ResponseCode Text SharedQueue Task ChunkSplitter Batch Workload.
From S2P Require Import CompletionMapper ScratchPool CapacityQueue InflightChunks DirectPass IoEngine Reporting AsyncIoWorker.
From S2P Require Import AsyncIoAnswers.

(** ** What the live requests hold, gathered *)

Section Gather.
Context {B : Type} (f : Z → InflightChunk → list B).

Definition gather (t : InflightChunks) : list B := concat (map (λ x, f x.1 x.2) (map_to_list (live t))).

Definition forget (id : Z) (t : InflightChunks) : InflightChunks := mkTable (next_request t) (delete id (live t)).

Lemma gather_insert id e (m : gmap Z InflightChunk) n n' : m !! id = None →
  gather (mkTable n (<[id := e]> m)) ≡ₚ f id e ++ gather (mkTable n' m).
Proof. intros H. unfold gather. simpl. by rewrite map_to_list_insert. Qed.

Lemma gather_forget id e t : find id t = Some e → gather t ≡ₚ f id e ++ gather (forget id t).
Proof.
  intros H. destruct t as [n m]. unfold find in H. simpl in H.
  rewrite <- (insert_delete_id m id e H) at 1. unfold forget. simpl.
  by rewrite (gather_insert _ _ _ n n) by apply lookup_delete_eq.
Qed.

Lemma gather_update id e e' t : find id t = Some e → gather (update id e' t) ≡ₚ f id e' ++ gather (forget id t).
Proof.
  intros H. unfold update, forget. rewrite <- insert_delete_eq.
  by rewrite (gather_insert _ _ _ _ (next_request t)) by apply lookup_delete_eq.
Qed.

Lemma gather_same id e e' t : find id t = Some e → f id e' = f id e → gather (update id e' t) ≡ₚ gather t.
Proof. intros H He. by rewrite (gather_update _ _ _ _ H), He, <- (gather_forget _ _ _ H). Qed.

Lemma elem_of_gather x t : x ∈ gather t ↔ ∃ id e, find id t = Some e ∧ x ∈ f id e.
Proof.
  unfold gather. rewrite list_elem_of_In, in_concat. setoid_rewrite <- list_elem_of_In. split.
  - intros (l & ([id e] & -> & He)%list_elem_of_fmap & Hx). exists id, e. split; [|done].
    by apply elem_of_map_to_list in He.
  - intros (id & e & He & Hx). exists (f id e). split; [|done]. apply list_elem_of_fmap. exists (id, e).
    split; [done|]. by apply elem_of_map_to_list.
Qed.
End Gather.

Definition live_ids : InflightChunks → list Z := gather (λ id _, [id]).
Definition held_buffers : InflightChunks → list StagingBuffer :=
  gather (λ _ e, if staging_valid (staging e) then [staging e] else []).
Definition of_workload (k : Z) : InflightChunks → list Z := gather (λ id e, if workload_id e =? k then [id] else []).

Lemma elem_of_live_ids id t : id ∈ live_ids t ↔ is_Some (find id t).
Proof.
  unfold live_ids. rewrite elem_of_gather. split.
  - intros (id' & e & He & ->%list_elem_of_singleton). eauto.
  - intros [e He]. exists id, e. split; [done|left].
Qed.

Lemma find_forget id t : find id (forget id t) = None.
Proof. apply lookup_delete_eq. Qed.

Lemma find_forget_ne id id' t : id ≠ id' → find id (forget id' t) = find id t.
Proof. intros H. by apply lookup_delete_ne. Qed.

Lemma find_forget_Some id id' t e : find id (forget id' t) = Some e → id ≠ id' ∧ find id t = Some e.
Proof. unfold find, forget. simpl. intros [Hne He]%lookup_delete_Some. done. Qed.

Lemma release_forget id t e : find id t = Some e → release id t = Ret (chunk e, forget id t).
Proof. intros He. unfold release. by rewrite (entry_Some _ _ _ He). Qed.

Lemma live_ids_NoDup t : NoDup (live_ids t).
Proof.
  unfold live_ids, gather. replace (concat (map (λ x, [x.1]) (map_to_list (live t)))) with (map fst (map_to_list (live t))).
  - apply NoDup_fst_map_to_list.
  - by induction (map_to_list (live t)) as [|x l IH]; simpl; [|rewrite IH].
Qed.

Section Tracking.
Context {R E D F : Type} `{!Responder R, !IoEngine E, !DeviceClient D, !ClientLaws D, !Files F}.
Context (direct_strategy register_buffers : bool) (path_of : Z → Z → text).
Context (owner : nat → Z) (log0 : list Response) (others : list Batch).

Local Abbreviation worker := (worker (R := R) (E := E) (D := D) (F := F)).
Implicit Types (w : worker).

(** Task [j] of batch [i] of workload [k] is read by a live request. *)
Definition claimed (t : InflightChunks) (k : Z) (i j : nat) : Prop :=
  ∃ id e, find id t = Some e ∧ workload_id e = k ∧ Z.to_nat (batch_index e) = i ∧
    (Z.to_nat (first_task (chunk e)) <= j < Z.to_nat (first_task (chunk e)) + Z.to_nat (task_count (chunk e)))%nat.

(** Every task of the workload is answered, or read, or failed with its file. *)
Definition covered (t : InflightChunks) (k : Z) (wl : Inflight) : Prop :=
  ∀ i b j task, wl_batches (if_workload wl) !! i = Some b → tasks b !! j = Some task → t_finished task = false →
    file_failed (if_errors wl) b ∨ (t_bytesize task ≠ 0 ∧ claimed t k i j).

(** A request belongs to a batch of a live workload and to tasks of that batch. *)
Definition belongs (l : list (Z * Inflight)) (e : InflightChunk) : Prop :=
  ∃ wl b, assoc (workload_id e) l = Some wl ∧ wl_batches (if_workload wl) !! Z.to_nat (batch_index e) = Some b ∧
    (Z.to_nat (first_task (chunk e)) + Z.to_nat (task_count (chunk e)) <= length (tasks b))%nat.

Record counted (t : InflightChunks) (k : Z) (wl : Inflight) : Prop := {
  cw_errors : errors_ok (if_errors wl);
  cw_fds : length (if_fds wl) = length (wl_batches (if_workload wl));
  cw_remaining : if_remaining wl = Z.of_nat (length (of_workload k t));
  cw_open : 0 < if_remaining wl < size_modulus;
  cw_covered : covered t k wl }.

Record tracked w : Prop := {
  tk_answering : answering owner log0 others w;
  tk_keys : NoDup (map fst (k_inflight w));
  tk_next : 0 < k_next w ∧ Forall (λ k, 0 < k < k_next w) (map fst (k_inflight w));
  tk_workloads : ∀ k wl, assoc k (k_inflight w) = Some wl → counted (k_chunks w) k wl;
  tk_entries : ∀ id e, find id (k_chunks w) = Some e → 0 < id < next_request (k_chunks w) ∧ belongs (k_inflight w) e;
  tk_lent : lent (k_client w) ≡ₚ held_buffers (k_chunks w);
  tk_scratch : k_scratch w = None → ∀ id e, find id (k_chunks w) = Some e → scratch e = 0 }.

(** What answering a request leaves alone. *)
Record steady w w' : Prop := {
  sd_block : k_block w' = k_block w; sd_measured : k_measured w' = k_measured w;
  sd_refused : k_refused w' = k_refused w; sd_dead : k_dead w' = k_dead w; sd_error : k_error w' = k_error w;
  sd_scratch : k_scratch w' = k_scratch w; sd_copies : k_copies w' = k_copies w;
  sd_waiting : k_waiting w' = k_waiting w; sd_next : k_next w' = k_next w; sd_issued : k_issued w' = k_issued w;
  sd_stalled : k_stalled w' = k_stalled w; sd_engine : k_engine w' = k_engine w;
  sd_copying : copying (k_client w') = copying (k_client w) }.

Lemma of_workload_forget k id e t : find id t = Some e →
  length (of_workload k t) = ((if (workload_id e =? k)%Z then 1 else 0) + length (of_workload k (forget id t)))%nat.
Proof.
  intros He. unfold of_workload. rewrite (Permutation_length (gather_forget _ _ _ _ He)), length_app.
  by destruct (workload_id e =? k).
Qed.

Lemma claimed_forget t k i j id e : find id t = Some e → claimed t k i j →
  claimed (forget id t) k i j ∨
  (workload_id e = k ∧ Z.to_nat (batch_index e) = i ∧
   (Z.to_nat (first_task (chunk e)) <= j < Z.to_nat (first_task (chunk e)) + Z.to_nat (task_count (chunk e)))%nat).
Proof.
  intros He (id' & e' & He' & Hk & Hi & Hj). destruct (decide (id' = id)) as [->|Hne].
  - right. assert (e' = e) as -> by congruence. done.
  - left. exists id', e'. by rewrite find_forget_ne.
Qed.

(** No live request is left for a workload none of whose requests count. *)
Lemma of_workload_nil k t : length (of_workload k t) = 0%nat → ∀ id e, find id t = Some e → workload_id e ≠ k.
Proof.
  intros H0 id e He Hk. assert (Hin : id ∈ of_workload k t).
  { apply elem_of_gather. exists id, e. split; [done|]. rewrite (proj2 (Z.eqb_eq _ _)) by done. left. }
  destruct (of_workload k t); [by apply not_elem_of_nil in Hin|done].
Qed.

(** ** Answering the tasks of one request *)

Definition settled (n i : nat) (errors : gmap Z ResponseCode) (b b' : Batch) : Prop :=
  range_done n i b' ∨ file_failed errors b ∨
  ∀ j t, (i <= j < i + n)%nat → tasks b !! j = Some t → t_bytesize t = 0.

Lemma mine_set_batch l1 k wl l2 i b : wl_batches (if_workload wl) !! i = Some b →
  ∃ bs1 bs2, mine (l1 ++ (k, wl) :: l2) = mine l1 ++ bs1 ++ b :: bs2 ++ mine l2 ∧
    ∀ b' errors, mine (l1 ++ (k, set_batch wl i b' errors) :: l2) = mine l1 ++ bs1 ++ b' :: bs2 ++ mine l2.
Proof.
  intros (bs1 & bs2 & Hb & ->)%list_elem_of_split_length. exists bs1, bs2.
  assert (Hcons : ∀ v, mine (l1 ++ (k, v) :: l2) = mine l1 ++ wl_batches (if_workload v) ++ mine l2)
    by (intros v; by rewrite mine_app).
  split; [|intros b' errors]; rewrite Hcons; simpl; rewrite Hb, ?insert_app_r_alt, ?Nat.sub_diag by lia; simpl;
    by rewrite <- app_assoc.
Qed.

Lemma answer_tasks w k wl i b ret n j :
  answering owner log0 others w → assoc k (k_inflight w) = Some wl →
  wl_batches (if_workload wl) !! i = Some b → errors_ok (if_errors wl) → (j + n <= length (tasks b))%nat →
  ∃ b' errors' x', account_tasks n j ret b (if_errors wl) (k_world w) = Ret (b', errors', x') ∧
    advanced b b' ∧ errors_ok errors' ∧ (∀ y, file_failed (if_errors wl) y → file_failed errors' y) ∧
    settled n j errors' b b' ∧
    answering owner log0 others (with_world x' (with_inflight (assoc_set k (set_batch wl i b' errors') (k_inflight w)) w)).
Proof.
  intros [[answered Hs] Hr] Hwl Hb He Hn. apply assoc_split in Hwl as (l1 & l2 & El & Hl1).
  destruct (mine_set_batch l1 k wl l2 i b Hb) as (bs1 & bs2 & Hm & Hset). rewrite El, Hm in Hs.
  destruct (decide (ret = Success)) as [->|Hne].
  - destruct (account_tasks_success owner log0 n j b (if_errors wl) answered (others ++ retired w ++ mine l1 ++ bs1)
                (bs2 ++ mine l2) (k_world w)) as (b' & x' & a' & E1 & Had & Hd & Hs'); [by rewrite <- !app_assoc|done|].
    exists b', (if_errors wl), x'. split_and!; [done|done|done|done|by left|].
    split; simpl; [|done]. exists a'. rewrite El, (assoc_set_split _ wl), Hset by done. by rewrite <- !app_assoc in Hs'.
  - destruct (account_tasks_failure n j ret b (if_errors wl) (k_world w) Hne He Hn) as (e' & E1 & He' & Hmono & Hd).
    exists b, e', (k_world w). split_and!; [done|apply advanced_refl|done|done|by right|].
    split; simpl; [|done]. exists answered. by rewrite El, (assoc_set_split _ wl), Hset by done.
Qed.

(** The workload of a request that was answered, without it. *)
Lemma covered_account t k wl id e b b' errors :
  covered t k wl → find id t = Some e → workload_id e = k →
  wl_batches (if_workload wl) !! Z.to_nat (batch_index e) = Some b → advanced b b' →
  (∀ y, file_failed (if_errors wl) y → file_failed errors y) →
  settled (Z.to_nat (task_count (chunk e))) (Z.to_nat (first_task (chunk e))) errors b b' →
  covered (forget id t) k (set_batch wl (Z.to_nat (batch_index e)) b' errors).
Proof.
  intros Hcov He Hk Hb Had Hmono Hset i b0 j task Hb0 Hj Hf. simpl in Hb0.
  destruct (decide (i = Z.to_nat (batch_index e))) as [->|Hne].
  - rewrite list_lookup_insert_eq in Hb0 by (by eapply lookup_lt_Some). injection Hb0 as <-.
    destruct (lookup_lt_is_Some_2 (tasks b) j) as [t0 Ht0]; [rewrite <- (ad_length _ _ Had); by eapply lookup_lt_Some|].
    destruct (ad_tasks _ _ Had _ _ Ht0) as (t1 & Ht1 & Hi & Hfin). assert (t1 = task) as -> by congruence.
    assert (Hf0 : t_finished t0 = false) by (destruct (t_finished t0); [by rewrite Hfin in Hf|done]).
    assert (Hbytes : t_bytesize t0 = t_bytesize task) by (unfold t_bytesize; by rewrite Hi).
    assert (Hfile : ∀ y, file_failed y b → file_failed y b') by (intros y [c Hc]; exists c; by rewrite (ad_file _ _ Had)).
    destruct (Hcov _ _ _ _ Hb Ht0 Hf0) as [Hfail|[Hne Hcl]]; [left; by apply Hfile, Hmono|].
    simpl. rewrite <- Hbytes. destruct (claimed_forget _ _ _ _ _ _ He Hcl) as [Hcl'|(_ & _ & Hrange)]; [by right|].
    destruct Hset as [Hdone|[Hfail|Hzero]].
    + rewrite (Hdone _ _ Hrange Ht1) in Hf; [done|by rewrite <- Hbytes].
    + left. by apply Hfile.
    + by rewrite (Hzero _ _ Hrange Ht0) in Hne.
  - rewrite list_lookup_insert_ne in Hb0 by done.
    destruct (Hcov _ _ _ _ Hb0 Hj Hf) as [Hfail|[Hbytes Hcl]]; [left; by apply Hmono|right]. split; [done|].
    destruct (claimed_forget _ _ _ _ _ _ He Hcl) as [|(_ & Hi & _)]; [done|congruence].
Qed.

Lemma covered_other t k wl id : covered t k wl → (∀ e, find id t = Some e → workload_id e ≠ k) →
  covered (forget id t) k wl.
Proof.
  intros Hcov Hother i b j task Hb Hj Hf. destruct (Hcov _ _ _ _ Hb Hj Hf) as [|[Hne Hcl]]; [by left|right].
  split; [done|]. destruct Hcl as (id' & e & He & Hk & Hrest). destruct (decide (id' = id)) as [->|Hid].
  - by destruct (Hother e).
  - exists id', e. by rewrite find_forget_ne.
Qed.

Lemma belongs_set l k wl i b b' errors n e :
  belongs l e → assoc k l = Some wl → wl_batches (if_workload wl) !! i = Some b → advanced b b' →
  belongs (assoc_set k (set_remaining (set_batch wl i b' errors) n) l) e.
Proof.
  intros (wl0 & b0 & H0 & Hb0 & Hlen) Hk Hb Had. destruct (decide (workload_id e = k)) as [Heq|Hne].
  - rewrite Heq in H0. assert (wl0 = wl) as -> by congruence.
    destruct (decide (Z.to_nat (batch_index e) = i)) as [Hi|Hi].
    + exists (set_remaining (set_batch wl i b' errors) n), b'. rewrite Heq, assoc_set_eq by eauto. split; [done|].
      simpl. rewrite Hi, list_lookup_insert_eq by (by eapply lookup_lt_Some). split; [done|].
      rewrite (ad_length _ _ Had). rewrite Hi in Hb0. by assert (b0 = b) as -> by congruence.
    + exists (set_remaining (set_batch wl i b' errors) n), b0. rewrite Heq, assoc_set_eq by eauto. split; [done|].
      simpl. by rewrite list_lookup_insert_ne.
  - exists wl0, b0. by rewrite assoc_set_ne.
Qed.
(** ** account_chunk *)

(** A workload all of whose chunks are accounted has nothing left that only a chunk could answer. *)
Lemma covered_nothing_left t k wl : covered t k wl → length (of_workload k t) = 0%nat →
  Forall (λ b, file_failed (if_errors wl) b ∨ all_done b) (wl_batches (if_workload wl)).
Proof.
  intros Hcov H0. apply Forall_lookup. intros i b Hb.
  destruct (if_errors wl !! b_file_index b) as [c|] eqn:Hc; [left; by exists c|right].
  apply Forall_lookup. intros j task Hj. destruct (t_finished task) eqn:Hf; [done|].
  destruct (Hcov _ _ _ _ Hb Hj Hf) as [[c' Hc']|[_ (id & e & He & Hk & _)]]; [congruence|].
  by destruct (of_workload_nil _ _ H0 _ _ He).
Qed.

Lemma assoc_NoDup_elem {A} (l : list (Z * A)) k x : NoDup (map fst l) → (k, x) ∈ l → assoc k l = Some x.
Proof.
  induction l as [|[k' y] l IH]; simpl; [by intros _ ?%not_elem_of_nil|].
  intros [Hk Hn]%NoDup_cons [[= -> ->]|Hin]%elem_of_cons; [by rewrite Z.eqb_refl|].
  destruct (Z.eqb_spec k k') as [->|_]; [|by apply IH]. destruct Hk. apply list_elem_of_fmap. by exists (k', x).
Qed.

Lemma assoc_remove_eq {A} k (l : list (Z * A)) : NoDup (map fst l) → assoc k (assoc_remove k l) = None.
Proof.
  intros Hn. destruct (assoc k l) as [x|] eqn:Ea.
  - apply assoc_split in Ea as (l1 & l2 & -> & H1). rewrite (assoc_remove_split _ _ _ _ H1), assoc_app_None by done.
    rewrite map_app in Hn. apply NoDup_app in Hn as (_ & _ & [Hk _]%NoDup_cons). by apply assoc_None.
  - clear Hn. induction l as [|[k' y] l IH]; simpl in *; [done|]. destruct (k =? k') eqn:Ek; [done|]. simpl. rewrite Ek. auto.
Qed.

Lemma assoc_remove_sublist {A} k (l : list (Z * A)) : map fst (assoc_remove k l) `sublist_of` map fst l.
Proof. induction l as [|[k' y] l IH]; simpl; [constructor|]. destruct (k =? k'); by constructor. Qed.

Lemma assoc_set_twice {A} k (x y : A) l : assoc_set k y (assoc_set k x l) = assoc_set k y l.
Proof.
  induction l as [|[k' z] l IH]; simpl; [done|]. destruct (k =? k') eqn:Ek; simpl; rewrite Ek; [done|by rewrite IH].
Qed.

Lemma counted_one_less t k wl id e b b' errors :
  counted t k wl → find id t = Some e → workload_id e = k →
  wl_batches (if_workload wl) !! Z.to_nat (batch_index e) = Some b → advanced b b' → errors_ok errors →
  (∀ y, file_failed (if_errors wl) y → file_failed errors y) →
  settled (Z.to_nat (task_count (chunk e))) (Z.to_nat (first_task (chunk e))) errors b b' →
  let wl' := set_remaining (set_batch wl (Z.to_nat (batch_index e)) b' errors) (if_remaining wl ⊖ 1) in
  if_remaining wl' = Z.of_nat (length (of_workload k (forget id t))) ∧ covered (forget id t) k wl' ∧
  (if_remaining wl' ≠ 0 → counted (forget id t) k wl').
Proof.
  intros [C1 C2 C3 C4 C5] He Hk Hb Had Herr Hmono Hset wl'.
  assert (Hr : if_remaining wl' = Z.of_nat (length (of_workload k (forget id t)))).
  { subst wl'. simpl. pose proof (of_workload_forget k _ _ _ He) as Hl. rewrite Hk, Z.eqb_refl in Hl.
    rewrite sub64_small by mlia. lia. }
  assert (Hcov : covered (forget id t) k wl') by (eapply covered_account; eauto).
  split; [done|]. split; [done|]. intros Hne. split; [done| |done| |done].
  - subst wl'. simpl. by rewrite length_insert.
  - split; [lia|]. subst wl'. simpl in *. rewrite sub64_small by mlia. lia.
Qed.

Lemma counted_other t k wl id : counted t k wl → (∀ e, find id t = Some e → workload_id e ≠ k) →
  counted (forget id t) k wl.
Proof.
  intros [C1 C2 C3 C4 C5] Hother. split; [done|done| |done|by apply covered_other].
  rewrite C3. destruct (find id t) as [e|] eqn:He.
  - rewrite (of_workload_forget k _ _ _ He), (proj2 (Z.eqb_neq _ _)); [done|by apply Hother].
  - unfold forget. unfold find in He. rewrite delete_id by done. by destruct t.
Qed.

Lemma belongs_remove l k wl e : belongs (assoc_set k wl l) e → workload_id e ≠ k →
  belongs (assoc_remove k (assoc_set k wl l)) e.
Proof. intros (wl0 & b0 & H0 & Hrest) Hne. exists wl0, b0. by rewrite assoc_remove_ne. Qed.

Lemma steady_trans w1 w2 w3 : steady w1 w2 → steady w2 w3 → steady w1 w3.
Proof. intros [] []. split; by etrans. Qed.

(** The books once [wl'] stands for workload [k], which lost request [id]. *)
Lemma tracked_intro w w' k id e wl' :
  tracked w → find id (k_chunks w) = Some e → workload_id e = k → is_Some (assoc k (k_inflight w)) →
  answering owner log0 others w' → k_chunks w' = forget id (k_chunks w) → steady w w' →
  lent (k_client w') ≡ₚ held_buffers (forget id (k_chunks w)) →
  (∀ e', belongs (k_inflight w) e' → belongs (assoc_set k wl' (k_inflight w)) e') →
  (k_inflight w' = assoc_set k wl' (k_inflight w) ∧ counted (forget id (k_chunks w)) k wl') ∨
  (k_inflight w' = assoc_remove k (assoc_set k wl' (k_inflight w)) ∧
    length (of_workload k (forget id (k_chunks w))) = 0%nat) →
  tracked w'.
Proof.
  intros [T1 T2 T3 T4 T5 T6 T7] He Hk Hin Ha Ht Hst Hlent Hbel Hcase.
  pose proof (sd_next _ _ Hst) as Hnext. pose proof (sd_scratch _ _ Hst) as Hs.
  assert (Hkeys : map fst (assoc_set k wl' (k_inflight w)) = map fst (k_inflight w)) by apply assoc_set_keys.
  assert (Hother : ∀ k' wl0, k' ≠ k → assoc k' (k_inflight w) = Some wl0 → counted (forget id (k_chunks w)) k' wl0).
  { intros k' wl0 Hne H0. apply counted_other; [by apply T4|]. intros e0 He0. congruence. }
  split; [done| | | | |by rewrite Ht|].
  - destruct Hcase as [[-> _]|[-> _]]; [by rewrite Hkeys|]. eapply sublist_NoDup; [|apply assoc_remove_sublist]. by rewrite Hkeys.
  - rewrite Hnext. destruct T3 as [T30 T3]. split; [done|]. rewrite Forall_forall in T3 |- *. intros k' Hk'. apply T3. rewrite <- Hkeys.
    destruct Hcase as [[Hc _]|[Hc _]]; rewrite Hc in Hk'; [done|].
    eapply elem_of_sublist; [|apply assoc_remove_sublist]. done.
  - rewrite Ht. intros k' wl0. destruct (decide (k' = k)) as [->|Hne]; destruct Hcase as [[-> Hc]|[-> _]].
    + rewrite assoc_set_eq by done. by intros [= <-].
    + rewrite assoc_remove_eq by (by rewrite Hkeys). done.
    + rewrite assoc_set_ne by done. by apply Hother.
    + rewrite assoc_remove_ne, assoc_set_ne by done. by apply Hother.
  - rewrite Ht. intros id' e' [Hid He']%find_forget_Some. destruct (T5 _ _ He') as [Hb1 Hb2]. split; [done|].
    destruct Hcase as [[-> _]|[-> H0]]; [by apply Hbel|]. apply belongs_remove; [by apply Hbel|].
    eapply of_workload_nil; [exact H0|]. by rewrite find_forget_ne.
  - rewrite Ht, Hs. intros Hn id' e' [_ He']%find_forget_Some. by eapply T7.
Qed.

(** Giving the buffer of a request back. *)
Lemma give_back w id e : tracked w → find id (k_chunks w) = Some e →
  ∃ client, (if staging_valid (staging e) then client_release (staging e) (k_client w) else Ret (k_client w)) = Ret client ∧
    copying client = copying (k_client w) ∧ lent client ≡ₚ held_buffers (forget id (k_chunks w)).
Proof.
  intros Htk He. pose proof (tk_lent _ Htk) as Hl. unfold held_buffers in *. rewrite (gather_forget _ _ _ _ He) in Hl.
  destruct (staging_valid (staging e)); [|by exists (k_client w)].
  destruct (release_law _ _ _ Hl) as (d & -> & Hc & Hd). by exists d.
Qed.

Lemma mine_set_workload k v v' l : if_workload v = if_workload v' → mine (assoc_set k v' l) = mine (assoc_set k v l).
Proof.
  intros Hv. unfold mine. induction l as [|[k' y] l IH]; simpl; [done|]. destruct (k =? k'); simpl; [by rewrite Hv|by rewrite IH].
Qed.

(** Answering a request never throws, keeps the books, and touches nothing else. *)
Lemma account_chunk_spec w id e ret free_slot :
  tracked w → find id (k_chunks w) = Some e →
  ∃ w', account_chunk id ret free_slot w = Ret w' ∧ tracked w' ∧ steady w w' ∧
    k_chunks w' = forget id (k_chunks w) ∧
    k_queue w' = (if free_slot then CapacityQueue.complete 1 (k_queue w) else k_queue w).
Proof.
  intros Htk He. unfold account_chunk. rewrite (entry_Some _ _ _ He). cbn [obind].
  destruct (give_back _ _ _ Htk He) as (client & -> & Hcopy & Hlent). cbn [obind].
  rewrite (release_forget _ _ _ He). cbn [obind].
  destruct (tk_entries _ Htk _ _ He) as [_ (wl & b & Hwl & Hb & Hlen)].
  set (w0 := if free_slot then _ else _).
  assert (Hin : k_inflight w0 = k_inflight w) by (subst w0; by destruct free_slot).
  assert (Hworld : k_world w0 = k_world w) by (subst w0; by destruct free_slot).
  assert (Hfiles : k_files w0 = k_files w) by (subst w0; by destruct free_slot).
  assert (Hret : retired w0 = retired w) by (subst w0; by destruct free_slot).
  assert (Hq : k_queue w0 = if free_slot then CapacityQueue.complete 1 (k_queue w) else k_queue w)
    by (subst w0; by destruct free_slot).
  assert (Hst : steady w w0) by (subst w0; destruct free_slot; by split).
  assert (Ht0 : k_chunks w0 = forget id (k_chunks w)) by (subst w0; by destruct free_slot).
  assert (Hl0 : lent (k_client w0) ≡ₚ held_buffers (forget id (k_chunks w))) by (subst w0; by destruct free_slot).
  assert (Ha0 : answering owner log0 others w0).
  { destruct (tk_answering _ Htk) as [A1 A2]. split; by rewrite ?Hin, ?Hworld, ?Hret. }
  clearbody w0. rewrite Hin, Hwl, Hb. pose proof (tk_workloads _ Htk _ _ Hwl) as Hcount.
  rewrite <- Hin in Hwl.
  destruct (answer_tasks w0 _ wl _ b ret (Z.to_nat (task_count (chunk e))) (Z.to_nat (first_task (chunk e))) Ha0 Hwl Hb)
    as (b' & errors & x & Eacc & Had & Herr & Hmono & Hset & Ha1); [by destruct Hcount|lia|].
  rewrite Eacc. cbn [obind]. cbn [if_remaining set_batch].
  destruct (counted_one_less _ _ _ _ _ _ _ _ Hcount He eq_refl Hb Had Herr Hmono Hset) as (Hr & Hcov & Hcnt).
  rewrite ASSERT_true by (destruct Hcount as [_ _ _ [? _] _]; by rewrite Z.gtb_ltb; apply Z.ltb_lt). cbn [obind].
  set (k := workload_id e) in *. set (wl1 := set_batch wl (Z.to_nat (batch_index e)) b' errors) in *.
  set (wl' := set_remaining wl1 (if_remaining wl ⊖ 1)) in *.
  cbn [k_inflight with_world with_inflight]. rewrite assoc_set_twice.
  set (w1 := with_inflight (assoc_set k wl' (k_inflight w)) _).
  assert (Ha2 : answering owner log0 others w1).
  { destruct Ha1 as [[a A1] A2]. split; [|exact A2]. exists a. simpl in A1 |- *.
    rewrite (mine_set_workload _ wl1) by done. by rewrite <- Hin. }
  assert (Hin1 : is_Some (assoc k (k_inflight w))) by (rewrite <- Hin; eauto).
  assert (Hbel : ∀ e', belongs (k_inflight w) e' → belongs (assoc_set k wl' (k_inflight w)) e').
  { intros e' He'. eapply belongs_set; eauto. by rewrite <- Hin. }
  assert (Hst1 : steady w w1) by (by apply (steady_trans _ w0); [|split]).
  destruct (Z.eqb_spec (if_remaining wl') 0) as [H0|H0].
  - assert (Hk1 : assoc k (k_inflight w1) = Some wl') by (by apply assoc_set_eq).
    destruct (finalize_spec owner log0 others k Success wl' w1 Ha2 Hk1 Herr) as (x2 & bs & -> & Ha3).
    { right. apply (covered_nothing_left (forget id (k_chunks w)) k); [done|lia]. }
    eexists. split; [done|]. assert (Hst2 : steady w (with_inflight (assoc_remove k (k_inflight w1)) w1)) by (by apply (steady_trans _ w1); [|split]).
    split_and!; [|by apply (steady_trans _ w1); [|split]|done|done].
    apply (tracked_intro w _ k id e wl'); try done; [by apply (steady_trans _ w1); [|split]|]. right. split; [done|lia].
  - exists w1. split; [done|]. split_and!; [|done|done|done].
    apply (tracked_intro w _ k id e wl'); try done. left. split; [done|]. by apply Hcnt.
Qed.
End Tracking.
