(* ===== verification/AsyncIoRunning.v ===== *)
(** The asynchronous worker at work: where every live request is, what each place holds, and that no
    handler ever throws.

    A live request is queued, staged or issued in the engine, waiting for a buffer, being copied, or in
    the hands of the turn: [reaped] are completions not handled yet, [hand] the requests being handled. *)

From S2P Require Import Prelude ResponseCode Text SharedQueue Task ChunkSplitter Batch Workload.
From S2P Require Import CompletionMapper ScratchPool CapacityQueue InflightChunks DirectPass IoEngine Reporting AsyncIoWorker.
From S2P Require Import AsyncIoAnswers AsyncIoTracking.

(** Distinct ids below a bound are fewer than the bound. *)
Lemma ids_bound (l : list Z) n : NoDup l → Forall (λ x, 0 < x < n) l → n < size_modulus →
  Z.of_nat (length l) < size_modulus.
Proof.
  intros Hn Hl Hb. assert (Hle : (length l <= Z.to_nat n)%nat); [|destruct l; simpl in *; [mlia|lia]].
  rewrite <- (length_seq (Z.to_nat n) 0), <- (length_map Z.of_nat).
  apply List.NoDup_incl_length; [by apply NoDup_ListNoDup|].
  intros x Hx%list_elem_of_In. rewrite Forall_forall in Hl. specialize (Hl _ Hx).
  apply in_map_iff. exists (Z.to_nat x). split; [lia|]. apply in_seq. lia.
Qed.

Lemma live_ids_forget id e t : find id t = Some e → live_ids t ≡ₚ id :: live_ids (forget id t).
Proof. intros H. unfold live_ids. by rewrite (gather_forget _ _ _ _ H). Qed.

Lemma live_ids_update id e e' t : find id t = Some e → live_ids (update id e' t) ≡ₚ live_ids t.
Proof. intros H. unfold live_ids. by apply (gather_same _ _ e). Qed.

Lemma pending_Ret id e t : find id t = Some e → ∃ p, pending id t = Ret p.
Proof. intros He. unfold pending. rewrite (entry_Some _ _ _ He). eauto. Qed.

Definition unbounced (e : InflightChunk) : Prop := scratch e = 0 ∧ scratch_skip e = 0 ∧ scratch_wanted e = 0.

Section Running.
Context {R E D F : Type} `{!Responder R, !IoEngine E, !EngineLaws E, !DeviceClient D, !ClientLaws D, !Files F}.
Context (direct_strategy register_buffers : bool) (path_of : Z → Z → text).
Context (owner : nat → Z) (log0 : list Response) (others : list Batch).

Local Abbreviation worker := (worker (R := R) (E := E) (D := D) (F := F)).
Implicit Types (w : worker) (t : InflightChunks).
Local Abbreviation tracked := (tracked owner log0 others).

Definition engine_ids w : list Z := map sr_id (staged_reads (k_engine w) ++ issued_reads (k_engine w)).
Definition queued_ids w : list Z := map (λ x, qc_id x.1) (queued (k_queue w)).

(** [bounced] are the requests in hand whose scratch is still recorded. *)
Record running_but (bounced reaped hand : list Z) w : Prop := {
  rn_tracked : tracked w;
  rn_places : queued_ids w ++ engine_ids w ++ reaped ++ hand ++ k_waiting w ++ copying (k_client w)
              ≡ₚ live_ids (k_chunks w);
  rn_bounce : ∀ id e, find id (k_chunks w) = Some e → id ∉ engine_ids w → id ∉ reaped → id ∉ bounced → unbounced e;
  rn_issued : k_issued w = Z.of_nat (length (issued_reads (k_engine w)) + length reaped);
  rn_copies : k_copies w = Z.of_nat (length (copying (k_client w)));
  rn_costs : Forall (λ x, x.2 = 1) (queued (k_queue w));
  rn_credit : CapacityQueue.inflight (k_queue w) =
    Z.of_nat (length (engine_ids w) + length reaped + length hand + length (k_waiting w));
  rn_room : 0 < next_request (k_chunks w) < size_modulus;
  rn_alive : k_dead w = false }.

Local Abbreviation running := (running_but []).

(** What a step of the turn leaves alone. *)
Record kept w w' : Prop := {
  kp_queued : queued (k_queue w') = queued (k_queue w);
  kp_capacity : capacity (k_queue w') = capacity (k_queue w);
  kp_reads : issued_reads (k_engine w') = issued_reads (k_engine w);
  kp_issued : k_issued w' = k_issued w;
  kp_dead : k_dead w' = k_dead w;
  kp_waiting : k_waiting w `prefix_of` k_waiting w' }.

Lemma kept_refl w : kept w w.
Proof. by split. Qed.

Lemma kept_trans w1 w2 w3 : kept w1 w2 → kept w2 w3 → kept w1 w3.
Proof. intros [] []. split; by etrans. Qed.

Lemma tracked_ext w w' : tracked w → k_world w' = k_world w → retired w' = retired w →
  k_inflight w' = k_inflight w → k_next w' = k_next w → k_chunks w' = k_chunks w →
  lent (k_client w') ≡ₚ lent (k_client w) → (k_scratch w' = None → k_scratch w = None) → tracked w'.
Proof.
  intros [[A1 A2] T2 T3 T4 T5 T6 T7] E1 E2 E3 E4 E5 E6 E7.
  split; rewrite ?E3, ?E4, ?E5; try done.
  - split; by rewrite ?E1, ?E2, ?E3.
  - by rewrite E6.
  - intros H. by apply T7, E7.
Qed.

Lemma length_of_workload_update k id e e' t : find id t = Some e → workload_id e' = workload_id e →
  length (of_workload k (update id e' t)) = length (of_workload k t).
Proof. intros He Hw. apply Permutation_length. unfold of_workload. apply (gather_same _ _ e); [done|]. by rewrite Hw. Qed.

Lemma find_update_cases id id' e' t x : find id' (update id e' t) = Some x →
  (id' = id ∧ x = e') ∨ (id' ≠ id ∧ find id' t = Some x).
Proof.
  destruct (decide (id' = id)) as [->|Hne]; [rewrite find_update; intros [= <-]; by left|].
  rewrite find_update_ne by done. by right.
Qed.

(** A request that keeps its tasks, whatever else of it changes. *)
Lemma tracked_update w w' id e e' : tracked w → find id (k_chunks w) = Some e →
  chunk e' = chunk e → workload_id e' = workload_id e → batch_index e' = batch_index e →
  k_chunks w' = update id e' (k_chunks w) → k_inflight w' = k_inflight w → k_world w' = k_world w →
  retired w' = retired w → k_next w' = k_next w →
  lent (k_client w') ≡ₚ (if staging_valid (staging e') then [staging e'] else []) ++ held_buffers (forget id (k_chunks w)) →
  (k_scratch w' = None → k_scratch w = None ∧ scratch e' = 0) → tracked w'.
Proof.
  intros [[A1 A2] T2 T3 T4 T5 T6 T7] He Hc Hw Hb Et Ei Ew Er En El Es.
  split; rewrite ?Ei, ?En, ?Et; try done.
  - split; by rewrite ?Ew, ?Er, ?Ei.
  - intros k wl Hk. destruct (T4 _ _ Hk) as [C1 C2 C3 C4 C5]. split; try done.
    + by rewrite (length_of_workload_update _ _ _ _ _ He).
    + intros i b j task Hi Hj Hf. destruct (C5 _ _ _ _ Hi Hj Hf) as [|[Hne (id0 & e0 & He0 & H1 & H2 & H3)]]; [by left|right].
      split; [done|]. destruct (decide (id0 = id)) as [->|Hid].
      * assert (e0 = e) as -> by congruence. exists id, e'. rewrite find_update, Hc, Hw, Hb. done.
      * exists id0, e0. by rewrite find_update_ne.
  - intros id' x [[-> ->]|[_ Hx]]%find_update_cases; [|by apply (T5 _ _ Hx)].
    destruct (T5 _ _ He) as [H1 (wl & b & H2 & H3 & H4)]. split; [done|].
    exists wl, b. by rewrite Hw, Hb, Hc.
  - rewrite El. unfold held_buffers. by rewrite (gather_update _ _ _ _ _ He).
  - intros Hn id' x [[_ ->]|[_ Hx]]%find_update_cases; destruct (Es Hn); [done|by eapply T7].
Qed.

Lemma running_live bounced reaped hand w id : running_but bounced reaped hand w → id ∈ hand → ∃ e, find id (k_chunks w) = Some e.
Proof.
  intros Hr Hid. assert (Hin : id ∈ live_ids (k_chunks w)).
  { rewrite <- (rn_places _ _ _ _ Hr), !elem_of_app. auto. }
  by apply elem_of_live_ids in Hin as [e He]; exists e.
Qed.

Lemma running_NoDup bounced reaped hand w : running_but bounced reaped hand w →
  NoDup (queued_ids w ++ engine_ids w ++ reaped ++ hand ++ k_waiting w ++ copying (k_client w)).
Proof. intros Hr. rewrite (rn_places _ _ _ _ Hr). apply live_ids_NoDup. Qed.

Lemma running_bound bounced reaped hand w : running_but bounced reaped hand w →
  Z.of_nat (length (queued_ids w) + length (engine_ids w) + length reaped + length hand + length (k_waiting w) +
            length (copying (k_client w))) < size_modulus.
Proof.
  intros Hr. pose proof (ids_bound _ (next_request (k_chunks w)) (running_NoDup _ _ _ _ Hr)) as Hb.
  rewrite !length_app in Hb. eapply Z.le_lt_trans; [|apply Hb; [|by apply (rn_room _ _ _ _ Hr)]]; [lia|].
  rewrite (rn_places _ _ _ _ Hr). apply Forall_forall. intros id [e He]%elem_of_live_ids.
  by destruct (tk_entries _ _ _ _ (rn_tracked _ _ _ _ Hr) _ _ He).
Qed.

Lemma complete_one n (q : CapacityQueue QueuedChunk) : CapacityQueue.inflight q = Z.of_nat (S n) → Z.of_nat (S n) < size_modulus →
  CapacityQueue.inflight (CapacityQueue.complete 1 q) = Z.of_nat n.
Proof.
  intros Hq Hb. unfold CapacityQueue.complete. simpl. rewrite Z.geb_leb, (proj2 (Z.leb_le _ _)) by lia.
  rewrite sub64_small by mlia. lia.
Qed.

(** A request in hand is accounted for: it holds no place any more. *)
Lemma running_accounted reaped hand w w' id e : running reaped (id :: hand) w → find id (k_chunks w) = Some e →
  tracked w' → steady w w' → k_chunks w' = forget id (k_chunks w) →
  k_queue w' = CapacityQueue.complete 1 (k_queue w) → running reaped hand w' ∧ kept w w'.
Proof.
  intros Hr He Ht Hst Hch Hq. pose proof (running_bound _ _ _ _ Hr) as Hb. simpl in Hb.
  assert (Heng : engine_ids w' = engine_ids w) by (unfold engine_ids; by rewrite (sd_engine _ _ Hst)).
  assert (Hqid : queued_ids w' = queued_ids w) by (unfold queued_ids; by rewrite Hq).
  split; [|split; rewrite ?Hq, ?(sd_engine _ _ Hst), ?(sd_issued _ _ Hst), ?(sd_dead _ _ Hst), ?(sd_waiting _ _ Hst); done].
  destruct Hr as [R1 R2 R3 R4 R5 R6 R7 R8 R9].
  split; rewrite ?Hch, ?Heng, ?Hqid, ?(sd_engine _ _ Hst), ?(sd_issued _ _ Hst), ?(sd_waiting _ _ Hst), ?(sd_copying _ _ Hst), ?(sd_dead _ _ Hst); try done.
  - rewrite (live_ids_forget _ _ _ He) in R2. apply (Permutation_cons_inv (a := id)). rewrite <- R2. solve_Permutation.
  - intros id' x [_ Hx]%find_forget_Some. by apply R3.
  - by rewrite (sd_copies _ _ Hst).
  - by rewrite Hq.
  - rewrite Hq. apply complete_one; [rewrite R7; simpl; f_equal; lia|lia].
Qed.

Lemma set_staging_spec id b t e : find id t = Some e →
  set_staging id b t = Ret (update id (mkInflight (chunk e) (cursor e) (InflightChunks.remaining e) (workload_id e)
    (batch_index e) (scratch e) (scratch_skip e) (scratch_wanted e) b (staging_skip e) (transient_retries e)) t).
Proof. intros He. unfold set_staging. by rewrite (entry_Some _ _ _ He). Qed.

(** complete_chunk: the request leaves the hand, answered or on its way to the device. *)
Lemma complete_chunk_ok reaped hand w id ret : running reaped (id :: hand) w →
  ∃ w', complete_chunk id ret w = Ret w' ∧ running reaped hand w' ∧ kept w w'.
Proof.
  intros Hr. destruct (running_live _ _ _ _ id Hr) as [e He]; [left|].
  assert (Hacc : ∀ ret, ∃ w', account_chunk id ret true w = Ret w' ∧ running reaped hand w' ∧ kept w w').
  { intros r. destruct (account_chunk_spec owner log0 others w id e r true (rn_tracked _ _ _ _ Hr) He) as (w' & -> & Ht & Hst & Hch & Hq).
    exists w'. split; [done|]. by eapply running_accounted. }
  unfold complete_chunk. rewrite (entry_Some _ _ _ He). cbn [obind].
  destruct (bool_decide (ret = Success) && staging_valid (staging e)) eqn:Hcopy; [|apply Hacc].
  apply andb_true_iff in Hcopy as [_ Hv].
  destruct (tk_entries _ _ _ _ (rn_tracked _ _ _ _ Hr) _ _ He) as [_ (wl & b & Hwl & Hb & Hlen)]. rewrite Hwl.
  unfold issue_copy. destruct (client_write _ _ _ _ _ _ _) as [code client] eqn:Hw.
  pose proof (tk_lent _ _ _ _ (rn_tracked _ _ _ _ Hr)) as Hl. unfold held_buffers in Hl.
  rewrite (gather_forget _ _ _ _ He), Hv in Hl. simpl in Hl.
  destruct (write_law _ _ _ _ _ _ _ _ _ _ Hw Hl) as [Hc Hl'].
  set (e' := mkInflight (chunk e) (cursor e) (InflightChunks.remaining e) (workload_id e) (batch_index e) (scratch e)
                    (scratch_skip e) (scratch_wanted e) no_staging (staging_skip e) (transient_retries e)).
  destruct (decide (code = Success)) as [->|Hne].
  - cbn [k_chunks with_copies with_client]. rewrite (set_staging_spec _ _ _ _ He). cbn [obind]. fold e'.
    eexists. split; [reflexivity|]. split; [|by split].
    pose proof (running_bound _ _ _ _ Hr) as Hbd. simpl in Hbd. destruct Hr as [R1 R2 R3 R4 R5 R6 R7 R8 R9].
    split; simpl; try done.
    + eapply (tracked_update w _ id e e'); try done. intros Hs. split; [done|]. by apply (tk_scratch _ _ _ _ R1 Hs _ _ He).
    + rewrite (live_ids_update _ _ _ _ He), <- R2, Hc. simpl. solve_Permutation.
    + intros id' x [[-> ->]|[_ Hx]]%find_update_cases; [by apply (R3 id e)|by apply R3].
    + rewrite R5, Hc. simpl. rewrite add64_small by mlia. lia.
    + unfold engine_ids in *. simpl in *. apply complete_one; [rewrite R7; f_equal; lia|lia].
  - cbn [k_chunks with_client]. rewrite (set_staging_spec _ _ _ _ He). cbn [obind]. fold e'.
    set (w1 := with_chunks _ _).
    assert (Hr1 : running reaped (id :: hand) w1).
    { destruct Hr as [R1 R2 R3 R4 R5 R6 R7 R8 R9]. split; simpl; try done.
      + eapply (tracked_update w _ id e e'); try done. intros Hs. split; [done|]. by apply (tk_scratch _ _ _ _ R1 Hs _ _ He).
      + by rewrite (live_ids_update _ _ _ _ He), <- R2, Hc.
      + intros id' x [[-> ->]|[_ Hx]]%find_update_cases; [by apply (R3 id e)|by apply R3].
      + by rewrite Hc. }
    destruct (account_chunk_spec owner log0 others w1 id e' DeviceTransferError true (rn_tracked _ _ _ _ Hr1))
      as (w' & -> & Ht & Hst & Hch & Hq); [apply find_update|].
    exists w'. split; [done|]. destruct (running_accounted _ _ _ _ _ _ Hr1 (find_update _ _ _) Ht Hst Hch Hq) as [H1 H2].
    split; [done|]. by apply (kept_trans _ w1); [split|].
Qed.
(** ** Changes of one record *)

Lemma running_ext bounced reaped hand w w' : running_but bounced reaped hand w → tracked w' →
  k_chunks w' = k_chunks w → k_engine w' = k_engine w → k_queue w' = k_queue w → k_waiting w' = k_waiting w →
  k_issued w' = k_issued w → k_copies w' = k_copies w → copying (k_client w') = copying (k_client w) →
  k_dead w' = k_dead w → running_but bounced reaped hand w'.
Proof.
  intros [R1 R2 R3 R4 R5 R6 R7 R8 R9] Ht E1 E2 E3 E4 E5 E6 E7 E8.
  split; unfold engine_ids, queued_ids in *; rewrite ?E1, ?E2, ?E3, ?E4, ?E5, ?E6, ?E7, ?E8; done.
Qed.

(** A live request whose own record changes. *)
Lemma running_update bounced bounced' reaped hand w w' id e e' :
  running_but bounced reaped hand w → tracked w' → find id (k_chunks w) = Some e →
  k_chunks w' = update id e' (k_chunks w) → k_engine w' = k_engine w → k_queue w' = k_queue w →
  k_waiting w' = k_waiting w → k_issued w' = k_issued w → k_copies w' = k_copies w →
  copying (k_client w') = copying (k_client w) → k_dead w' = k_dead w →
  (∀ x, x ∈ bounced → x = id ∨ x ∈ bounced') →
  (id ∉ engine_ids w → id ∉ reaped → id ∉ bounced' → unbounced e') → running_but bounced' reaped hand w'.
Proof.
  intros [R1 R2 R3 R4 R5 R6 R7 R8 R9] Ht He E1 E2 E3 E4 E5 E6 E7 E8 Hb Hu.
  split; unfold engine_ids, queued_ids in *; rewrite ?E1, ?E2, ?E3, ?E4, ?E5, ?E6, ?E7, ?E8; try done.
  - by rewrite (live_ids_update _ _ _ _ He).
  - intros id' x [[-> ->]|[Hne Hx]]%find_update_cases; [done|]. intros H1 H2 H3. apply (R3 _ _ Hx H1 H2).
    intros [?|?]%Hb; done.
Qed.

(** The request in hand goes back to waiting. *)
Lemma running_park reaped hand w id : running reaped (id :: hand) w →
  running reaped hand (with_waiting (k_waiting w ++ [id]) w).
Proof.
  intros [R1 R2 R3 R4 R5 R6 R7 R8 R9]. split; simpl; try done.
  - by eapply tracked_ext.
  - rewrite <- R2. change (queued_ids (with_waiting _ w)) with (queued_ids w).
    change (engine_ids (with_waiting _ w)) with (engine_ids w). solve_Permutation.
  - rewrite R7, length_app. simpl. f_equal. unfold engine_ids. simpl. lia.
Qed.

(** Giving the scratch of a request back. *)
Lemma drop_bounce_ok bounced reaped hand w id e : running_but (id :: bounced) reaped hand w → find id (k_chunks w) = Some e →
  ∃ w', drop_bounce id w = Ret w' ∧ running_but bounced reaped hand w' ∧ kept w w' ∧
    k_chunks w' = update id (with_bounce 0 0 0 e) (k_chunks w) ∧ k_inflight w' = k_inflight w.
Proof.
  intros Hr He. unfold drop_bounce, clear_bounce. rewrite He. unfold give_scratch.
  assert (Hgo : ∀ sc w', w' = with_scratch sc (with_chunks (update id (with_bounce 0 0 0 e) (k_chunks w)) w) →
    (sc = None → k_scratch w = None) → running_but bounced reaped hand w').
  { intros sc w' -> Hsc. eapply (running_update _ _ _ _ w _ id e (with_bounce 0 0 0 e)); try done.
    - eapply (tracked_update w _ id e (with_bounce 0 0 0 e)); try done.
      + apply (rn_tracked _ _ _ _ Hr).
      + simpl. pose proof (tk_lent _ _ _ _ (rn_tracked _ _ _ _ Hr)) as Hl. rewrite Hl.
        unfold held_buffers. by rewrite (gather_forget _ _ _ _ He).
      + simpl. intros Hn. split; [by apply Hsc|done].
    - intros x [->|?]%elem_of_cons; auto. }
  destruct (Z.eqb_spec (scratch e) 0) as [H0|H0].
  - eexists. split; [reflexivity|]. split; [|by split]. by apply (Hgo (k_scratch w)); [destruct w|].
  - cbn [k_scratch with_chunks]. destruct (k_scratch w) as [p|] eqn:Hp.
    + unfold give. rewrite ASSERT_true by (by apply negb_true_iff, Z.eqb_neq). cbn [obind].
      eexists. split; [reflexivity|]. split; [by eapply Hgo|by split].
    + destruct H0. by apply (tk_scratch _ _ _ _ (rn_tracked _ _ _ _ Hr) Hp _ _ He).
Qed.

(** ** Opening *)

Lemma tracked_set_fd w w' k wl i x : tracked w → assoc k (k_inflight w) = Some wl →
  k_inflight w' = assoc_set k (set_fd wl i x) (k_inflight w) → k_world w' = k_world w → retired w' = retired w →
  k_next w' = k_next w → k_chunks w' = k_chunks w → k_client w' = k_client w → k_scratch w' = k_scratch w → tracked w'.
Proof.
  intros [[[a A1] A2] T2 T3 T4 T5 T6 T7] Hk Ei Ew Er En Et Ec Es.
  split; rewrite ?Ei, ?En, ?Et, ?Ec, ?Es; try done.
  - split; [exists a; rewrite Ew, Er, Ei|by rewrite Er].
    rewrite (mine_set_workload _ wl) by done. apply assoc_split in Hk as (l1 & l2 & El & H1).
    by rewrite El, (assoc_set_split _ wl), <- El in *.
  - by rewrite assoc_set_keys.
  - by rewrite assoc_set_keys.
  - intros k' wl'. destruct (decide (k' = k)) as [->|Hne].
    + rewrite assoc_set_eq by eauto. intros [= <-]. destruct (T4 _ _ Hk) as [C1 C2 C3 C4 C5]. split; try done.
      simpl. by rewrite length_insert.
    + rewrite assoc_set_ne by done. apply T4.
  - intros id e He. destruct (T5 _ _ He) as [H1 (wl0 & b & H2 & H3 & H4)]. split; [done|].
    destruct (decide (workload_id e = k)) as [Hk'|Hne].
    + exists (set_fd wl i x), b. rewrite Hk', assoc_set_eq by eauto. rewrite Hk' in H2.
      assert (wl0 = wl) as -> by congruence. done.
    + exists wl0, b. by rewrite assoc_set_ne.
Qed.

Lemma tracked_files f w : tracked w → tracked (with_files f w).
Proof. intros Ht. by eapply tracked_ext. Qed.

Lemma fd_for_ok bounced reaped hand w k wl i offset buffer staged :
  running_but bounced reaped hand w → assoc k (k_inflight w) = Some wl → (i < length (wl_batches (if_workload wl)))%nat →
  ∃ r w' wl', fd_for direct_strategy path_of k wl i offset buffer staged w = Ret (r, w') ∧
    running_but bounced reaped hand w' ∧ kept w w' ∧ k_chunks w' = k_chunks w ∧
    assoc k (k_inflight w') = Some wl' ∧ is_Some (if_fds wl' !! i).
Proof.
  intros Hr Hwl Hi. pose proof (tk_workloads _ _ _ _ (rn_tracked _ _ _ _ Hr) _ _ Hwl) as [_ Hfds _ _ _].
  unfold fd_for, batch_path. destruct (lookup_lt_is_Some_2 (if_fds wl) i) as [x Hx]; [lia|]. rewrite Hx.
  destruct (lookup_lt_is_Some_2 _ _ Hi) as [b Hb]. rewrite Hb.
  assert (Hset : ∀ y f, let w' := with_inflight (assoc_set k (set_fd wl i y) (k_inflight w)) (with_files f w) in
    running_but bounced reaped hand w' ∧ kept w w' ∧ k_chunks w' = k_chunks w ∧
    assoc k (k_inflight w') = Some (set_fd wl i y) ∧ is_Some (if_fds (set_fd wl i y) !! i)).
  { intros y f w'. split_and!.
    - eapply running_ext; try done. eapply tracked_set_fd; try done. by apply (rn_tracked _ _ _ _ Hr).
    - by split.
    - done.
    - simpl. by rewrite assoc_set_eq by eauto.
    - simpl. rewrite list_lookup_insert_eq by lia. eauto. }
  assert (Hnow : ∀ r : Z + ResponseCode, ∃ r' w' wl', Ret (r, w) = Ret (r', w') ∧ running_but bounced reaped hand w' ∧ kept w w' ∧
    k_chunks w' = k_chunks w ∧ assoc k (k_inflight w') = Some wl' ∧ is_Some (if_fds wl' !! i)).
  { intros r. exists r, w, wl. split_and!; try done. }
  destruct (negb (bool_decide (bf_error x = Success))); [apply Hnow|].
  destruct (bf_fd x) as [fd|]; [apply Hnow|]. cbn [obind].
  destruct (if wants_direct _ _ _ _ _ then _ else _) as [[fd|] f].
  - eexists _, _, _. split; [reflexivity|]. apply Hset.
  - destruct (open_for_read _ _ f) as [[fd|] f'].
    + eexists _, _, _. split; [reflexivity|]. apply Hset.
    + eexists _, _, _. split; [reflexivity|]. apply Hset.
Qed.
(** ** Staging *)

Lemma plan_scratch p blk staged pass : plan_direct_pass p blk staged None = Some pass → dp_scratch pass = 0.
Proof. unfold plan_direct_pass. repeat case_match; intros [= <-]; done. Qed.

Lemma plan_pass_ok bounced reaped hand w p staged : running_but bounced reaped hand w →
  ∃ plan w', plan_pass p staged w = (plan, w') ∧ running_but bounced reaped hand w' ∧ kept w w' ∧
    k_chunks w' = k_chunks w ∧ ∀ pass, plan = Some pass → dp_scratch pass ≠ 0 → k_scratch w' ≠ None.
Proof.
  intros Hr. unfold plan_pass, take_scratch.
  destruct (plan_direct_pass p (k_block w) staged None) as [pass|] eqn:Hp.
  { exists (Some pass), w. split_and!; try done. intros ? [= <-] Hs. by rewrite (plan_scratch _ _ _ _ Hp) in Hs. }
  destruct (k_scratch w) as [pool|] eqn:Hpool.
  - destruct (ScratchPool.take pool) as [taken pool'].
    eexists _, _. split; [reflexivity|]. split_and!; try done.
    eapply running_ext; try done. apply (tracked_ext w); try done. apply (rn_tracked _ _ _ _ Hr).
  - eexists _, w. split; [reflexivity|]. rewrite Hp. by split_and!.
Qed.

(** The entry in hand, placed in its staging buffer or not. *)
Lemma set_skip_ok reaped hand w id e skip : running reaped (id :: hand) w → find id (k_chunks w) = Some e →
  staging_valid (staging e) = true →
  ∃ t, set_staging_skip id skip (k_chunks w) = Ret t ∧ running reaped (id :: hand) (with_chunks t w).
Proof.
  intros Hr He Hv. unfold set_staging_skip. rewrite (entry_Some _ _ _ He). cbn [obind]. rewrite ASSERT_true by done.
  cbn [obind]. eexists. split; [reflexivity|].
  set (e' := mkInflight _ _ _ _ _ _ _ _ _ _ _).
  apply (running_update [] [] _ _ w _ id e e'); try done.
  - apply (tracked_update w _ id e e'); try done; [apply (rn_tracked _ _ _ _ Hr)| |].
    + simpl. pose proof (tk_lent _ _ _ _ (rn_tracked _ _ _ _ Hr)) as Hl. rewrite Hl.
      unfold held_buffers. by rewrite (gather_forget _ _ _ _ He).
    + simpl. intros Hn. split; [done|]. by apply (tk_scratch _ _ _ _ (rn_tracked _ _ _ _ Hr) Hn _ _ He).
  - by intros x ?%not_elem_of_nil.
  - intros H1 H2 H3. by apply (rn_bounce _ _ _ _ Hr _ _ He).
Qed.

Lemma in_hand_unbounced reaped hand w id e : running reaped (id :: hand) w → find id (k_chunks w) = Some e → unbounced e.
Proof.
  intros Hr He. pose proof (running_NoDup _ _ _ _ Hr) as Hn.
  apply NoDup_app in Hn as (_ & _ & Hn). apply NoDup_app in Hn as (_ & Heng & Hn).
  apply NoDup_app in Hn as (_ & Hreap & _).
  apply (rn_bounce _ _ _ _ Hr _ _ He); [| |apply not_elem_of_nil].
  - intros H. apply (Heng _ H). rewrite !elem_of_app. right. left. left.
  - intros H. apply (Hreap _ H). left.
Qed.

(** Recording what the pass holds. *)
Lemma set_bounce_ok reaped hand w id pass : running reaped (id :: hand) w →
  (dp_scratch pass ≠ 0 → k_scratch w ≠ None) →
  ∃ t, (if negb (dp_scratch pass =? 0) || negb (dp_wanted pass =? 0)
        then set_bounce id (dp_scratch pass) (dp_skip pass) (dp_wanted pass) (k_chunks w) else Ret (k_chunks w)) = Ret t ∧
    running_but [id] reaped (id :: hand) (with_chunks t w).
Proof.
  intros Hr Hs. destruct (running_live _ _ _ _ id Hr) as [e He]; [left|].
  assert (Hu := in_hand_unbounced _ _ _ _ _ Hr He). destruct Hu as (H1 & H2 & H3).
  assert (Hweak : running_but [id] reaped (id :: hand) (with_chunks (k_chunks w) w)).
  { replace (with_chunks (k_chunks w) w) with w by by destruct w. destruct Hr as [R1 R2 R3 R4 R5 R6 R7 R8 R9].
    split; try done. intros id' x Hx Ha Hb _. apply (R3 _ _ Hx Ha Hb). apply not_elem_of_nil. }
  destruct (_ || _); [|by eexists].
  unfold set_bounce. rewrite (entry_Some _ _ _ He). cbn [obind]. rewrite H1, H3. simpl. eexists. split; [reflexivity|].
  set (e' := with_bounce _ _ _ e).
  apply (running_update [id] [id] _ _ _ _ id e e' Hweak); try done.
  - apply (tracked_update w _ id e e'); try done; [apply (rn_tracked _ _ _ _ Hr)| |].
    + simpl. pose proof (tk_lent _ _ _ _ (rn_tracked _ _ _ _ Hr)) as Hl. rewrite Hl.
      unfold held_buffers. by rewrite (gather_forget _ _ _ _ He).
    + simpl. intros Hn. split; [done|]. destruct (decide (dp_scratch pass = 0)); [done|]. by destruct Hs.
  - intros x ->%list_elem_of_singleton. by left.
  - intros _ _ []. left.
Qed.

(** stage answers: the request is the engine's, or still in hand. *)
Lemma stage_ok reaped hand w r code e' : running_but [sr_id r] reaped (sr_id r :: hand) w →
  stage r (k_engine w) = (code, e') →
  kept w (with_engine e' w) ∧
  (code = Success → running reaped hand (with_engine e' w)) ∧
  (code ≠ Success → running_but [sr_id r] reaped (sr_id r :: hand) (with_engine e' w)).
Proof.
  intros Hr Hst. destruct (stage_law _ _ _ _ Hst) as (Hd & Hi & Hs).
  split; [by split|]. destruct Hr as [R1 R2 R3 R4 R5 R6 R7 R8 R9]. split; intros Hc.
  - rewrite decide_True in Hs by done.
    assert (Heng : engine_ids (with_engine e' w) ≡ₚ sr_id r :: engine_ids w).
    { unfold engine_ids. simpl. rewrite Hs, Hi, !map_app. simpl. solve_Permutation. }
    split; simpl; try done.
    + by eapply tracked_ext.
    + rewrite <- R2, Heng. change (queued_ids (with_engine e' w)) with (queued_ids w). solve_Permutation.
    + intros id x Hx Hid Hre _. rewrite Heng in Hid. apply not_elem_of_cons in Hid as [Hne Hid].
      apply (R3 _ _ Hx Hid Hre). by intros ?%list_elem_of_singleton.
    + by rewrite Hi.
    + rewrite R7, (Permutation_length Heng). simpl. f_equal. lia.
  - rewrite decide_False, app_nil_r in Hs by done.
    assert (Heng : engine_ids (with_engine e' w) = engine_ids w) by (unfold engine_ids; simpl; by rewrite Hs, Hi).
    split; simpl; rewrite ?Heng, ?Hi; try done. by eapply tracked_ext.
Qed.
Lemma stage_read_ok reaped hand w id e fd dir : running reaped (id :: hand) w → find id (k_chunks w) = Some e →
  ∃ w', stage_read register_buffers id e fd dir w = Ret w' ∧ running reaped hand w' ∧ kept w w'.
Proof.
  intros Hr He. unfold stage_read.
  assert (Hskip : ∃ t, (if dir && staging_valid (staging e) && (cursor e =? c_offset (chunk e))
      then set_staging_skip id (c_offset (chunk e) mod k_block w) (k_chunks w) else Ret (k_chunks w)) = Ret t ∧
      running reaped (id :: hand) (with_chunks t w)).
  { destruct (dir && staging_valid (staging e) && (cursor e =? c_offset (chunk e))) eqn:Hc.
    - apply andb_true_iff in Hc as [[_ Hv]%andb_true_iff _]. by eapply set_skip_ok.
    - eexists. split; [done|]. by destruct w. }
  destruct Hskip as (t & -> & Hr1). cbn [obind]. set (w1 := with_chunks t w) in *.
  assert (Hk1 : kept w w1) by (by split). clearbody w1.
  destruct (running_live _ _ _ _ id Hr1) as [e1 He1]; [left|].
  destruct (pending_Ret _ _ _ He1) as [p ->]. cbn [obind].
  assert (Hplan : ∃ plan w2, (if dir then plan_pass p (staging_valid (staging e)) w1 else (Some (buffered_pass p), w1)) =
      (plan, w2) ∧ running reaped (id :: hand) w2 ∧ kept w1 w2 ∧ k_chunks w2 = k_chunks w1 ∧
      ∀ pass, plan = Some pass → dp_scratch pass ≠ 0 → k_scratch w2 ≠ None).
  { destruct dir; [by apply plan_pass_ok|]. eexists _, w1. split; [done|]. split_and!; try done. by intros pass [= <-]. }
  destruct Hplan as (plan & w2 & -> & Hr2 & Hk2 & _ & Hsc).
  assert (Hk02 : kept w w2) by (by eapply kept_trans).
  destruct plan as [pass|].
  - destruct (set_bounce_ok _ _ _ _ pass Hr2 (Hsc _ eq_refl)) as (t3 & -> & Hr3). cbn [obind].
    set (w3 := with_chunks t3 w2) in *. assert (Hk3 : kept w w3) by (by eapply kept_trans; [|split]).
    set (r := mkRead _ _ _ _ _ _). destruct (stage r (k_engine w3)) as [code e'] eqn:Hst.
    destruct (stage_ok reaped hand w3 r code e' Hr3 Hst) as (Hk4 & Hyes & Hno).
    assert (Hk04 : kept w (with_engine e' w3)) by (by eapply kept_trans).
    destruct (decide (code = Success)) as [Hc|Hc]; [eexists; split; [done|]; by split; [apply Hyes|]|].
    specialize (Hno Hc). destruct (running_live _ _ _ _ id Hno) as [e4 He4]; [left|].
    change (sr_id r) with id in Hno. destruct (drop_bounce_ok _ _ _ _ _ _ Hno He4) as (w5 & -> & Hr5 & Hk5 & _). cbn [obind].
    destruct (complete_chunk_ok _ _ _ _ code Hr5) as (w6 & -> & Hr6 & Hk6).
    exists w6. split; [done|]. split; [done|]. by do 2 (eapply kept_trans; [eassumption|]).
  - destruct (complete_chunk_ok _ _ _ _ UnknownError Hr2) as (w3 & -> & Hr3 & Hk3).
    exists w3. split; [done|]. split; [done|]. by eapply kept_trans.
Qed.

Lemma open_and_stage_ok reaped hand w id : running reaped (id :: hand) w →
  ∃ w', open_and_stage direct_strategy register_buffers path_of id w = Ret w' ∧ running reaped hand w' ∧ kept w w'.
Proof.
  intros Hr. destruct (running_live _ _ _ _ id Hr) as [e He]; [left|].
  unfold open_and_stage. rewrite (entry_Some _ _ _ He). cbn [obind].
  destruct (tk_entries _ _ _ _ (rn_tracked _ _ _ _ Hr) _ _ He) as [_ (wl & b & Hwl & Hb & _)]. rewrite Hwl.
  destruct (pending_Ret _ _ _ He) as [p ->]. cbn [obind].
  destruct (fd_for_ok [] reaped (id :: hand) w _ wl (Z.to_nat (batch_index e)) (c_offset p) (c_buffer p)
    (staging_valid (staging e)) Hr Hwl) as (r & w1 & wl1 & -> & Hr1 & Hk1 & Hch & Hwl1 & [x Hx]); [by eapply lookup_lt_Some|].
  cbn [obind]. destruct r as [fd|error].
  - rewrite Hwl1, Hx. destruct (stage_read_ok _ _ w1 id e fd (bf_direct x) Hr1) as (w2 & -> & Hr2 & Hk2); [by rewrite Hch|].
    exists w2. split; [done|]. split; [done|]. by eapply kept_trans.
  - destruct (complete_chunk_ok _ _ _ _ error Hr1) as (w2 & -> & Hr2 & Hk2).
    exists w2. split; [done|]. split; [done|]. by eapply kept_trans.
Qed.

(** A buffer for the request in hand. *)
Lemma take_ok reaped hand w id e dev code b client : running reaped (id :: hand) w → find id (k_chunks w) = Some e →
  staging_valid (staging e) = false → client_take dev (k_client w) = (code, b, client) →
  (¬ (code = Success ∧ staging_valid b = true) → running reaped (id :: hand) (with_client client w)) ∧
  (code = Success → staging_valid b = true → ∃ t, set_staging id b (k_chunks w) = Ret t ∧
    running reaped (id :: hand) (with_chunks t (with_client client w))).
Proof.
  intros Hr He Hv Htake. destruct (take_law _ _ _ _ _ Htake) as [Hc Hl]. pose proof (rn_tracked _ _ _ _ Hr) as Ht. split.
  - intros Hn. rewrite decide_False in Hl by done. eapply running_ext; try done. apply (tracked_ext w); try done.
  - intros Hs Hb. rewrite decide_True in Hl by done. rewrite (set_staging_spec _ _ _ _ He). eexists. split; [reflexivity|].
    set (e' := mkInflight _ _ _ _ _ _ _ _ _ _ _).
    apply (running_update [] [] _ _ w _ id e e'); try done.
    + apply (tracked_update w _ id e e'); try done.
      * simpl. rewrite Hl, (tk_lent _ _ _ _ Ht), Hb. unfold held_buffers.
        rewrite (gather_forget _ _ _ _ He), Hv. done.
      * intros Hn. split; [done|]. by apply (tk_scratch _ _ _ _ Ht Hn _ _ He).
    + by intros x ?%not_elem_of_nil.
    + intros H1 H2 H3. by apply (rn_bounce _ _ _ _ Hr _ _ He).
Qed.

(** stage_pending: the request leaves the hand for the engine, the wait list or its answer. *)
Lemma stage_pending_ok reaped hand w id : running reaped (id :: hand) w →
  ∃ w', stage_pending direct_strategy register_buffers path_of id w = Ret w' ∧ running reaped hand w' ∧ kept w w'.
Proof.
  intros Hr. destruct (running_live _ _ _ _ id Hr) as [e He]; [left|].
  unfold stage_pending. rewrite (entry_Some _ _ _ He). cbn [obind].
  destruct (tk_entries _ _ _ _ (rn_tracked _ _ _ _ Hr) _ _ He) as [_ (wl & b & Hwl & Hb & _)]. rewrite Hwl.
  destruct (negb (staging_valid (staging e)) && _) eqn:Hdev; [|by apply open_and_stage_ok].
  apply andb_true_iff in Hdev as [Hv%negb_true_iff _]. unfold stage_into_device_buffer.
  destruct (client_take _ _) as [[code buf] client] eqn:Htake.
  destruct (take_ok _ _ _ _ _ _ _ _ _ Hr He Hv Htake) as [Hno Hyes].
  set (w1 := with_client client w) in *. assert (Hk1 : kept w w1) by (by split).
  destruct (decide (code = Success)) as [->|Hc].
  - rewrite bool_decide_true by done. simpl. destruct (staging_valid buf) eqn:Hbuf; simpl.
    + destruct (Hyes eq_refl eq_refl) as (t & Et & Hr2). change (k_chunks w1) with (k_chunks w). rewrite Et. cbn [obind].
      destruct (open_and_stage_ok _ _ _ _ Hr2) as (w3 & -> & Hr3 & Hk3).
      exists w3. split; [done|]. split; [done|]. eapply kept_trans; [|exact Hk3]. by split.
    + eexists. split; [reflexivity|]. split; [apply (running_park _ _ w1), Hno; by intros [_ ?]|].
      split; try done. simpl. by exists [id].
  - rewrite bool_decide_false by done. simpl.
    destruct (complete_chunk_ok _ _ w1 _ code (Hno ltac:(by intros [? _]))) as (w2 & -> & Hr2 & Hk2).
    exists w2. split; [done|]. split; [done|]. by eapply kept_trans.
Qed.

(** resume_waiting: one pass over what was waiting. *)
Lemma resume_loop_ok reaped n : ∀ w, running reaped [] w → (n <= length (k_waiting w))%nat →
  ∃ w', resume_loop direct_strategy register_buffers path_of n w = Ret w' ∧ running reaped [] w' ∧
    queued (k_queue w') = queued (k_queue w) ∧ capacity (k_queue w') = capacity (k_queue w) ∧
    issued_reads (k_engine w') = issued_reads (k_engine w) ∧ k_issued w' = k_issued w ∧ k_dead w' = k_dead w.
Proof.
  induction n as [|n IH]; intros w Hr Hn; simpl; [by exists w|].
  destruct (k_waiting w) as [|id rest] eqn:Hw; [simpl in Hn; lia|].
  assert (Hr1 : running reaped [id] (with_waiting rest w)).
  { destruct Hr as [R1 R2 R3 R4 R5 R6 R7 R8 R9]. split; simpl; try done.
    - apply (tracked_ext w); done.
    - rewrite <- R2, Hw. change (queued_ids (with_waiting _ w)) with (queued_ids w).
      change (engine_ids (with_waiting _ w)) with (engine_ids w). simpl. solve_Permutation.
    - rewrite R7, Hw. unfold engine_ids. simpl. f_equal. lia. }
  destruct (stage_pending_ok _ _ _ _ Hr1) as (w1 & -> & Hr2 & [K1 K2 K3 K4 K5 [l K6]]). cbn [obind].
  destruct (IH w1 Hr2) as (w2 & -> & Hr3 & A1 & A2 & A3 & A4 & A5).
  { rewrite K6, length_app. simpl in *. lia. }
  exists w2. split; [done|]. split; [done|]. simpl in *. split_and!; congruence.
Qed.
End Running.
