(* ===== verification/AsyncIoTurn.v ===== *)
(** One turn of the asynchronous worker: completions, finished copies, submissions and the end of the
    engine never throw and keep the books; an ended worker has answered everything. *)

From S2P Require Import Prelude ResponseCode Text SharedQueue Task ChunkSplitter Batch Workload.
From S2P Require Import CompletionMapper ScratchPool CapacityQueue InflightChunks DirectPass IoEngine Reporting AsyncIoWorker.
From S2P Require Import AsyncIoAnswers AsyncIoTracking AsyncIoRunning.

Section Turn.
Context {R E D F : Type} `{!Responder R, !IoEngine E, !EngineLaws E, !DeviceClient D, !ClientLaws D, !Files F}.
Context (direct_strategy register_buffers : bool) (path_of : Z → Z → text).
Context (owner : nat → Z) (log0 : list Response) (others : list Batch).

Local Abbreviation worker := (worker (R := R) (E := E) (D := D) (F := F)).
Implicit Types (w : worker) (t : InflightChunks).
Local Abbreviation tracked := (tracked owner log0 others).
Local Abbreviation running_but := (running_but owner log0 others).
Local Abbreviation running := (running_but []).

(** ** Completions *)

(** A completion is taken up: its request is in hand, its scratch still recorded. *)
Lemma take_up reaped w id : running (id :: reaped) [] w →
  (k_issued w >? 0) = true ∧ running_but [id] reaped [id] (with_issued (k_issued w ⊖ 1) w).
Proof.
  intros Hr. pose proof (running_bound _ _ _ _ _ _ _ Hr) as Hb. simpl in Hb. destruct Hr as [R1 R2 R3 R4 R5 R6 R7 R8 R9].
  rewrite R4. split; [rewrite Z.gtb_ltb; apply Z.ltb_lt; simpl; lia|]. split; simpl; try done.
  - by apply (tracked_ext owner log0 others w).
  - rewrite <- R2. change (queued_ids (with_issued _ w)) with (queued_ids w).
    change (engine_ids (with_issued _ w)) with (engine_ids w). simpl. solve_Permutation.
  - intros id' x Hx He Hre Hne%not_elem_of_cons. apply (R3 _ _ Hx He); [|apply not_elem_of_nil].
    apply not_elem_of_cons. by destruct Hne.
  - assert (length (issued_reads (k_engine w)) <= length (engine_ids w))%nat
      by (unfold engine_ids; rewrite length_map, length_app; lia).
    rewrite sub64_small by mlia. lia.
  - rewrite R7. unfold engine_ids. simpl. f_equal. lia.
Qed.

(** An entry in hand that changes what no place depends on. *)
Lemma running_progress reaped w id e e' : running reaped [id] w → find id (k_chunks w) = Some e →
  chunk e' = chunk e → workload_id e' = workload_id e → batch_index e' = batch_index e → staging e' = staging e →
  unbounced e' → running reaped [id] (with_chunks (update id e' (k_chunks w)) w).
Proof.
  intros Hr He H1 H2 H3 H4 Hu. pose proof (rn_tracked _ _ _ _ _ _ _ Hr) as Ht.
  apply (running_update owner log0 others [] [] _ _ w _ id e e'); try done.
  - apply (tracked_update owner log0 others w _ id e e'); try done.
    + simpl. rewrite H4, (tk_lent _ _ _ _ Ht). unfold held_buffers. by rewrite (gather_forget _ _ _ _ He).
    + intros Hn. split; [done|]. by destruct Hu.
  - by intros x ?%not_elem_of_nil.
Qed.

Lemma running_counters c reaped hand w : running reaped hand w → running reaped hand (with_counters c w).
Proof.
  intros Hr. eapply running_ext; try done. apply (tracked_ext owner log0 others w); try done. apply (rn_tracked _ _ _ _ _ _ _ Hr).
Qed.

Lemma land_ok reaped w id n : running_but [id] reaped [id] w →
  ∃ useful w', land_bounced_pass id n w = Ret (useful, w') ∧ running reaped [id] w'.
Proof.
  intros Hr. destruct (running_live _ _ _ _ _ _ _ id Hr) as [e He]; [left|].
  unfold land_bounced_pass. rewrite (entry_Some _ _ _ He). cbn [obind].
  destruct ((scratch e =? 0) && (scratch_skip e =? 0) && (scratch_wanted e =? 0)) eqn:Hz.
  - apply andb_true_iff in Hz as [[H1%Z.eqb_eq H2%Z.eqb_eq]%andb_true_iff H3%Z.eqb_eq].
    exists n, w. split; [done|]. destruct Hr as [R1 R2 R3 R4 R5 R6 R7 R8 R9]. split; try done.
    intros id' x Hx Ha Hb _. destruct (decide (id' = id)) as [->|Hne].
    + assert (x = e) as -> by congruence. done.
    + apply (R3 _ _ Hx Ha Hb). by intros ?%list_elem_of_singleton.
  - set (useful := useful_bytes _ _ _ _). clearbody useful.
    set (w1 := if _ && _ then _ else w).
    assert (Hr1 : running_but [id] reaped [id] w1 ∧ k_chunks w1 = k_chunks w).
    { subst w1. destruct ((useful >? 0) && negb (scratch e =? 0)); [|by split]. split; [|done].
      eapply running_ext; try done. apply (tracked_ext owner log0 others w); try done. apply (rn_tracked _ _ _ _ _ _ _ Hr). }
    destruct Hr1 as [Hr1 Hch]. clearbody w1.
    destruct (drop_bounce_ok owner log0 others [] reaped [id] w1 id e Hr1) as (w2 & -> & Hr2 & _); [by rewrite Hch|].
    cbn [obind]. by eexists _, w2.
Qed.

Lemma handle_read_ok reaped w id n : running_but [id] reaped [id] w →
  ∃ w', handle_read direct_strategy register_buffers path_of id n w = Ret w' ∧ running reaped [] w'.
Proof.
  intros Hr. unfold handle_read. destruct (land_ok _ _ _ n Hr) as (useful & w1 & -> & Hr1). cbn [obind].
  apply (running_counters (count_read useful (k_counters w1))) in Hr1. set (w2 := with_counters _ w1) in *. clearbody w2.
  destruct (running_live _ _ _ _ _ _ _ id Hr1) as [e He]; [left|].
  pose proof (in_hand_unbounced _ _ _ _ _ _ _ _ Hr1 He) as Hu.
  unfold record. rewrite (entry_Some _ _ _ He). cbn [obind].
  assert (Hadv : ∀ m, running reaped [id] (with_chunks (update id (advance m e) (k_chunks w2)) w2))
    by (intros m; by apply (running_progress _ _ _ e)).
  assert (Hsame : running reaped [id] (with_chunks (k_chunks w2) w2)) by by destruct w2.
  destruct (useful >=? _); cbn [obind].
  - destruct (complete_chunk_ok _ _ _ _ _ _ _ Success (Hadv (InflightChunks.remaining e))) as (w3 & -> & H3 & _). by exists w3.
  - destruct (useful =? 0); cbn [obind].
    + destruct (complete_chunk_ok _ _ _ _ _ _ _ EofError Hsame) as (w3 & -> & H3 & _). by exists w3.
    + destruct (stage_pending_ok direct_strategy register_buffers path_of owner log0 others reaped [] _ id
        (running_counters (count_restage (k_counters (with_chunks (update id (advance useful e) (k_chunks w2)) w2))) _ _ _ (Hadv useful)))
        as (w3 & -> & H3 & _). by exists w3.
Qed.

Lemma demote_ok reaped hand w e : running reaped hand w →
  ∃ code w', demote_to_buffered path_of e w = Ret (code, w') ∧ running reaped hand w'.
Proof.
  intros Hr. pose proof (rn_tracked _ _ _ _ _ _ _ Hr) as Ht. unfold demote_to_buffered.
  destruct (assoc (workload_id e) (k_inflight w)) as [wl|] eqn:Hwl; [|by eexists _, w].
  destruct (if_fds wl !! Z.to_nat (batch_index e)) as [x|] eqn:Hx; [|by eexists _, w].
  pose proof (tk_workloads _ _ _ _ Ht _ _ Hwl) as [_ Hfds _ _ _].
  unfold batch_path. destruct (lookup_lt_is_Some_2 (wl_batches (if_workload wl)) (Z.to_nat (batch_index e))) as [b Hb];
    [rewrite <- Hfds; by eapply lookup_lt_Some|]. rewrite Hb. cbn [obind].
  assert (Hfiles : ∀ f, running reaped hand (with_files f w)).
  { intros f. eapply running_ext; try done. by apply (tracked_ext owner log0 others w). }
  destruct (open_for_read _ false (k_files w)) as [[fd|] f]; [|by eexists _, _].
  destruct (match bf_fd x with None => _ | Some _ => _ end) as [[replaced kept_fd] f'].
  destruct replaced; simpl; [|by eexists _, _].
  eexists _, _. split; [reflexivity|]. eapply running_ext; try done.
  by eapply (tracked_set_fd owner log0 others w _ (workload_id e) wl).
Qed.

Lemma refused_or_failed_ok reaped w id res file : running reaped [id] w →
  ∃ w', refused_or_failed direct_strategy register_buffers path_of id res file w = Ret w' ∧ running reaped [] w'.
Proof.
  intros Hr. unfold refused_or_failed. destruct (direct file && _).
  - destruct (running_live _ _ _ _ _ _ _ id Hr) as [e He]; [left|]. rewrite (entry_Some _ _ _ He). cbn [obind].
    destruct (demote_ok _ _ _ e Hr) as (code & w1 & -> & Hr1). cbn [obind]. destruct (decide (code = Success)).
    + destruct (stage_pending_ok direct_strategy register_buffers path_of _ _ _ _ _ _ _ Hr1) as (w2 & -> & H2 & _). by exists w2.
    + destruct (complete_chunk_ok _ _ _ _ _ _ _ code Hr1) as (w2 & -> & H2 & _). by exists w2.
  - destruct (complete_chunk_ok _ _ _ _ _ _ _ (map_completion res file) Hr) as (w2 & -> & H2 & _). by exists w2.
Qed.

Lemma handle_failure_ok reaped w id res e : running_but [id] reaped [id] w → find id (k_chunks w) = Some e →
  ∃ w', handle_failure direct_strategy register_buffers path_of id res e w = Ret w' ∧ running reaped [] w'.
Proof.
  intros Hr He. unfold handle_failure.
  destruct (drop_bounce_ok owner log0 others [] reaped [id] w id e Hr He) as (w1 & -> & Hr1 & _ & Hch & _). cbn [obind].
  destruct (is_transient res); [|by apply refused_or_failed_ok].
  assert (He1 : find id (k_chunks w1) = Some (with_bounce 0 0 0 e)) by (rewrite Hch; apply find_update).
  unfold may_retry_transient. rewrite He1. destruct (_ >=? MaxTransientRetries).
  - apply refused_or_failed_ok. by destruct w1.
  - assert (Hr2 : running reaped [id] (with_chunks (update id (count_retry (with_bounce 0 0 0 e)) (k_chunks w1)) w1))
      by (by apply (running_progress _ _ _ (with_bounce 0 0 0 e))).
    set (w2 := with_chunks _ w1) in *.
    destruct (stage_pending_ok direct_strategy register_buffers path_of _ _ _ _ _ _ _
      (running_counters (count_transient (k_counters w2)) _ _ _ Hr2)) as (w3 & -> & H3 & _). by exists w3.
Qed.

Lemma handle_completion_ok reaped w c : running (cp_id c :: reaped) [] w →
  ∃ w', handle_completion direct_strategy register_buffers path_of c w = Ret w' ∧ running reaped [] w'.
Proof.
  intros Hr. destruct (take_up _ _ _ Hr) as [Hpos Hr1]. unfold handle_completion. rewrite ASSERT_true by done. cbn [obind].
  destruct (running_live _ _ _ _ _ _ _ (cp_id c) Hr1) as [e He]; [left|]. rewrite He.
  destruct (failed c); [by apply handle_failure_ok|by apply handle_read_ok].
Qed.

Lemma handle_completions_ok cs : ∀ w, running (map cp_id cs) [] w →
  ∃ w', handle_completions direct_strategy register_buffers path_of cs w = Ret w' ∧ running [] [] w'.
Proof.
  induction cs as [|c cs IH]; intros w Hr; simpl; [by exists w|].
  destruct (handle_completion_ok _ _ _ Hr) as (w1 & -> & Hr1). cbn [obind]. by apply IH.
Qed.
(** ** Copies *)

(** What drain_copies needs: it also runs after the queue was cleared. *)
Record copies_ok w : Prop := {
  co_tracked : tracked w;
  co_copying : NoDup (copying (k_client w)) ∧ Forall (λ id, is_Some (find id (k_chunks w))) (copying (k_client w));
  co_count : k_copies w = Z.of_nat (length (copying (k_client w)));
  co_bound : k_copies w < size_modulus }.

(** [gone] copies were accounted, and nothing else changed. *)
Record drained (gone : list Z) w w' : Prop := {
  dd_engine : k_engine w' = k_engine w; dd_queue : k_queue w' = k_queue w; dd_waiting : k_waiting w' = k_waiting w;
  dd_issued : k_issued w' = k_issued w; dd_dead : k_dead w' = k_dead w; dd_error : k_error w' = k_error w;
  dd_next : next_request (k_chunks w') = next_request (k_chunks w);
  dd_copying : copying (k_client w) ≡ₚ gone ++ copying (k_client w');
  dd_live : live_ids (k_chunks w) ≡ₚ gone ++ live_ids (k_chunks w');
  dd_entries : ∀ id e, find id (k_chunks w') = Some e → find id (k_chunks w) = Some e }.

Lemma drained_refl w : drained [] w w.
Proof. by split. Qed.

Lemma drained_trans g1 g2 w1 w2 w3 : drained g1 w1 w2 → drained g2 w2 w3 → drained (g1 ++ g2) w1 w3.
Proof.
  intros [A1 A2 A3 A4 A5 A6' A6 A7 A8 A9] [B1 B2 B3 B4 B5 B6' B6 B7 B8 B9]. split; try congruence.
  - by rewrite A7, B7, app_assoc.
  - by rewrite A8, B8, app_assoc.
  - eauto.
Qed.

Lemma one_copy_ok w id ret client : copies_ok w → copies_pop false (k_client w) = (Some (id, ret), client) ∨
    copies_pop true (k_client w) = (Some (id, ret), client) →
  ∃ w', complete_copy id ret (with_copies (k_copies w ⊖ 1) (with_client client w)) = Ret w' ∧
    copies_ok w' ∧ drained [id] w w'.
Proof.
  intros [Ht [Hn Hl] Hc Hbd] Hpop.
  assert (Hlaw : lent client = lent (k_client w) ∧ copying (k_client w) ≡ₚ id :: copying client)
    by (destruct Hpop as [Hp|Hp]; apply (pop_law _ _ _ _ Hp)).
  destruct Hlaw as [Hlent Hcopy]. set (w1 := with_copies _ _).
  assert (Ht1 : tracked w1) by (apply (tracked_ext owner log0 others w); try done; simpl; by rewrite Hlent).
  rewrite Hcopy in Hn, Hl. apply NoDup_cons in Hn as [Hid Hn]. apply Forall_cons in Hl as [[e He] Hl].
  destruct (account_chunk_spec owner log0 others w1 id e ret false Ht1 He) as (w' & E1 & Ht' & Hst & Hch & Hq).
  exists w'. split; [exact E1|].
  assert (Hcp : copying (k_client w') = copying client) by apply (sd_copying _ _ Hst).
  assert (Hlen := Permutation_length Hcopy). simpl in Hlen.
  assert (Hc' : k_copies w' = Z.of_nat (length (copying client)))
    by (rewrite (sd_copies _ _ Hst); simpl; rewrite sub64_small by mlia; lia).
  split.
  - split; rewrite ?Hcp, ?Hch; [done| |done|rewrite Hc'; lia]. split; [done|].
    rewrite Forall_forall in Hl |- *. intros x Hx. simpl. rewrite find_forget_ne; [by apply Hl|]. by intros ->.
  - split; rewrite ?Hch; try apply Hst; try done.
    + by rewrite Hcp.
    + by apply (live_ids_forget _ e).
    + by intros id' x [_ Hx]%find_forget_Some.
Qed.

Lemma drain_copies_ok n wait : ∀ w, copies_ok w → (n <= length (copying (k_client w)))%nat →
  ∃ w' gone, drain_copies n wait w = Ret w' ∧ copies_ok w' ∧ drained gone w w' ∧
    (wait = true → n = length (copying (k_client w)) → copying (k_client w') = []).
Proof.
  induction n as [|n IH]; intros w Hw Hn; simpl.
  { exists w, []. split_and!; try done. intros _ H. by destruct (copying (k_client w)). }
  destruct (copies_pop wait (k_client w)) as [[[id ret]|] client] eqn:Hpop; pose proof (pop_law _ _ _ _ Hpop) as [Hl Hc].
  - destruct (one_copy_ok w id ret client Hw) as (w1 & -> & Hw1 & Hd1); [destruct wait; auto|]. cbn [obind].
    pose proof (Permutation_length (dd_copying _ _ _ Hd1)) as Hlen. simpl in Hlen.
    destruct (IH w1 Hw1) as (w2 & gone & -> & Hw2 & Hd2 & Hall); [lia|].
    exists w2, ([id] ++ gone). split; [done|]. split; [done|]. split; [by eapply drained_trans|].
    intros Hwait Heq. apply Hall; [done|lia].
  - destruct Hc as [Hc Hnone]. exists (with_client client w), []. split; [done|]. split; [|split].
    + destruct Hw as [H1 [H2 H3] H4 H5]. split; simpl; rewrite ?Hc; try done.
      apply (tracked_ext owner log0 others w); try done. simpl. by rewrite Hl.
    + split; simpl; rewrite ?Hc; done.
    + intros Hwait _. simpl. rewrite Hc. by apply Hnone.
Qed.

Lemma drain_issued_copies_ok wait w : copies_ok w →
  ∃ w' gone, drain_issued_copies wait w = Ret w' ∧ copies_ok w' ∧ drained gone w w' ∧
    (wait = true → copying (k_client w') = []).
Proof.
  intros Hw. unfold drain_issued_copies. rewrite (co_count _ Hw), Nat2Z.id.
  destruct (drain_copies_ok (length (copying (k_client w))) wait w Hw) as (w' & gone & H1 & H2 & H3 & H4); [done|].
  exists w', gone. split_and!; try done. intros. by apply H4.
Qed.

Lemma running_copies_ok reaped hand w : running reaped hand w → copies_ok w.
Proof.
  intros Hr. pose proof (running_NoDup _ _ _ _ _ _ _ Hr) as Hn. pose proof (running_bound _ _ _ _ _ _ _ Hr) as Hb.
  destruct Hr as [R1 R2 R3 R4 R5 R6 R7 R8 R9]. split; [done| |done|rewrite R5; lia].
  rewrite !app_assoc in Hn. apply NoDup_app in Hn as (_ & _ & Hn). split; [done|].
  apply Forall_forall. intros id Hid. apply elem_of_live_ids. rewrite <- R2, !elem_of_app. auto 10.
Qed.

Lemma running_drained reaped hand w w' gone : running reaped hand w → copies_ok w' → drained gone w w' →
  running reaped hand w'.
Proof.
  intros [R1 R2 R3 R4 R5 R6 R7 R8 R9] [C1 _ C3 _] [D1 D2 D3 D4 D5 D5' D6 D7 D8 D9].
  split; unfold engine_ids, queued_ids in *; rewrite ?D1, ?D2, ?D3, ?D4, ?D5, ?D6; try done.
  - apply (Permutation_app_inv_l gone). rewrite <- D8, <- R2, D7. solve_Permutation.
  - intros id e He. by apply R3, D9.
Qed.
(** ** The end of the engine *)

(** Nothing is issued any more, or the engine failed to say. *)
Definition engine_quiet (e : E) : Prop :=
  issued_reads e = [] ∨ ∃ most engine code cs, wait_for_completions most Block engine = (code, cs, e) ∧ code ≠ Success.

Definition quiet w : Prop := engine_quiet (k_engine w).

(** From [w] to [w'], every workload that was failed was reported while the engine held no read, or failed to say. *)
Definition failed_when_quiet w w' : Prop :=
  ∃ more, k_ends w' = k_ends w ++ more ∧ Forall (λ x, x.1 = Success ∨ engine_quiet x.2) more.

(** Nothing but the end of its last chunk reports a workload before the engine is given up. *)
Definition only_done w w' : Prop := ∃ more, k_ends w' = k_ends w ++ more ∧ Forall (λ x, x.1 = Success) more.

Lemma same_ends w w' : k_ends w' = k_ends w → only_done w w'.
Proof. exists []. by rewrite app_nil_r. Qed.

Lemma only_done_trans w1 w2 w3 : only_done w1 w2 → only_done w2 w3 → only_done w1 w3.
Proof.
  intros (l1 & E1 & H1) (l2 & E2 & H2). exists (l1 ++ l2). rewrite E2, E1, <- app_assoc. split; [done|]. by apply Forall_app.
Qed.

Lemma finalize_ends id code w w' : finalize id code w = Ret w' →
  k_ends w' = k_ends w ++ [(code, k_engine w)] ∧ k_engine w' = k_engine w.
Proof.
  unfold finalize. destruct (assoc id (k_inflight w)) as [wl|]; [|done]. intros H.
  destruct (report_workload code wl (k_world w)) as [[bs x]|] eqn:Er; [|done]. by injection H as <-.
Qed.

Lemma account_chunk_ends id ret slot w w' : account_chunk id ret slot w = Ret w' → only_done w w'.
Proof.
  intros H. unfold account_chunk in H. invert_ret H. destruct r1 as [c t]. cbn zeta in H.
  set (w1 := if slot then _ else _) in H.
  assert (H1 : k_ends w1 = k_ends w ∧ k_inflight w1 = k_inflight w) by (unfold w1; by destruct slot). clearbody w1. destruct H1 as [H1 _].
  destruct (assoc (workload_id r) (k_inflight w1)) as [wl|]; [|injection H as <-; by apply same_ends].
  destruct (wl_batches (if_workload wl) !! Z.to_nat (batch_index r)) as [b|]; [|done].
  invert_ret H. destruct r1 as [[b' errors] x]. invert_ret H. destruct (_ =? 0).
  - apply finalize_ends in H as [H _]. simpl in H. rewrite H1 in H. eexists. split; [exact H|]. by repeat constructor.
  - injection H as <-. by apply same_ends.
Qed.

Lemma drain_copies_ends n wait : ∀ w w', drain_copies n wait w = Ret w' → only_done w w'.
Proof.
  induction n as [|n IH]; intros w w'; simpl; [intros [= <-]; by apply same_ends|].
  destruct (copies_pop wait (k_client w)) as [[[id ret]|] client]; [|intros [= <-]; by apply same_ends].
  intros H. invert_ret H. apply (only_done_trans _ r); [|by apply IH]. by apply account_chunk_ends in Hr.
Qed.

Lemma finalize_all_ends code n : ∀ w w', finalize_all n code w = Ret w' →
  ∃ more, k_ends w' = k_ends w ++ more ∧ Forall (λ x, x = (code, k_engine w)) more.
Proof.
  induction n as [|n IH]; intros w w'; simpl; [intros [= <-]; exists []; by rewrite app_nil_r|].
  destruct (k_inflight w) as [|[id wl] l]; [intros [= <-]; exists []; by rewrite app_nil_r|].
  intros H. invert_ret H. apply finalize_ends in Hr as [E1 E2]. destruct (IH _ _ H) as (more & E3 & Hm).
  exists ((code, k_engine w) :: more). rewrite E3, E1, <- app_assoc. split; [done|]. constructor; [done|]. by rewrite <- E2.
Qed.


Lemma quiesce_loop_ok n : ∀ w,
  k_issued w = Z.of_nat (length (issued_reads (k_engine w))) → k_issued w < size_modulus →
  (length (issued_reads (k_engine w)) + patience (k_engine w) < n)%nat →
  ∃ engine issued, quiesce_loop n w = Ret (with_issued issued (with_engine engine w)) ∧
    quiet (with_issued issued (with_engine engine w)).
Proof.
  induction n as [|n IH]; intros w Hi Hb Hn; [lia|]. simpl. rewrite Z.gtb_ltb.
  destruct (Z.ltb_spec 0 (k_issued w)) as [Hpos|H0].
  2: { exists (k_engine w), (k_issued w). replace (with_issued _ _) with w by by destruct w. split; [done|].
       left. destruct (issued_reads (k_engine w)); [done|simpl in *; lia]. }
  destruct (wait_for_completions _ Block (k_engine w)) as [[code cs] engine] eqn:Hw.
  destruct (wait_law _ _ _ _ _ _ Hw) as (_ & _ & _ & _ & reaped & Hp & Hcs).
  destruct (decide (code = Success)) as [->|Hc].
  - rewrite bool_decide_true by done. cbn [negb].
    pose proof (Permutation_length Hp) as Hlen. rewrite length_app in Hlen. apply Forall2_length in Hcs.
    assert (Hne : issued_reads (k_engine w) ≠ []) by (intros H; rewrite H in *; simpl in *; lia).
    pose proof (wait_ends _ _ _ _ Hw (depth_law _) Hne) as Hdec.
    cbn [k_issued with_engine]. rewrite ASSERT_true by (rewrite Z.geb_leb; apply Z.leb_le; lia). cbn [obind].
    rewrite sub64_small by mlia.
    destruct (IH (with_issued (k_issued w - Z.of_nat (length cs)) (with_engine engine w)))
      as (engine' & issued' & H1 & H2); [simpl; lia|simpl; lia|simpl; lia|].
    exists engine', issued'. by split.
  - rewrite bool_decide_false by done. cbn [negb]. exists engine, (k_issued w). split; [by destruct w|].
    right. by eexists _, _, _, _.
Qed.

Lemma quiesce_ok w : copies_ok w → k_issued w = Z.of_nat (length (issued_reads (k_engine w))) →
  k_issued w < size_modulus →
  ∃ w' gone, quiesce w = Ret w' ∧ tracked w' ∧ copying (k_client w') = [] ∧ k_copies w' = 0 ∧ quiet w' ∧
    k_queue w' = k_queue w ∧ k_dead w' = k_dead w ∧ k_error w' = k_error w ∧ only_done w w' ∧
    drained gone w (with_issued (k_issued w) (with_engine (k_engine w) w')).
Proof.
  intros Hw Hi Hb. unfold quiesce.
  destruct (drain_issued_copies_ok true w Hw) as (w1 & gone & Edr & Hw1 & Hd & Hall). rewrite Edr. cbn [obind].
  apply drain_copies_ends in Edr.
  specialize (Hall eq_refl). pose proof (dd_engine _ _ _ Hd) as He.
  destruct (quiesce_loop_ok (quiesce_fuel w1) w1) as (engine & issued & -> & Hq).
  { by rewrite (dd_issued _ _ _ Hd), He. }
  { by rewrite (dd_issued _ _ _ Hd). }
  { unfold quiesce_fuel. lia. }
  exists (with_issued issued (with_engine engine w1)), gone. split; [done|].
  destruct Hd as [D1 D2 D3 D4 D5 D5' D6 D7 D8 D9]. split_and!; try done.
  - apply (tracked_ext owner log0 others w1); try done. apply Hw1.
  - simpl. by rewrite (co_count _ Hw1), Hall.
Qed.

(** Every workload is answered with the code. *)
Lemma finalize_all_ok code l : code ≠ Success → ∀ w, answering owner log0 others w → k_inflight w = l →
  NoDup (map fst l) → Forall (λ x, errors_ok (if_errors x.2)) l →
  ∃ w', finalize_all (length l) code w = Ret w' ∧ answering owner log0 others w' ∧ k_inflight w' = [] ∧
    steady w w' ∧ k_chunks w' = k_chunks w ∧ k_queue w' = k_queue w ∧ k_client w' = k_client w.
Proof.
  intros Hc. induction l as [|[k wl] l IH]; intros w Ha El Hn Herr; simpl.
  { exists w. by split_and!. }
  rewrite El. apply NoDup_cons in Hn as [Hk Hn]. apply Forall_cons in Herr as [Herr1 Herr].
  assert (Hwl : assoc k (k_inflight w) = Some wl) by (rewrite El; simpl; by rewrite Z.eqb_refl).
  destruct (finalize_spec owner log0 others k code wl w Ha Hwl Herr1 (or_introl Hc)) as (x & bs & -> & Ha1). cbn [obind].
  match type of Ha1 with answering _ _ _ ?z => set (w1 := z) in * end.
  destruct (IH w1 Ha1) as (w2 & -> & Ha2 & Hl2 & Hst & H1 & H2 & H3); [simpl; by rewrite El; simpl; rewrite Z.eqb_refl|done|done|].
  exists w2. split_and!; try done. by apply (steady_trans _ w1); [split|].
Qed.

Lemma give_all_ok bs : ∀ w, Forall (λ b, b ≠ 0) bs → k_scratch w ≠ None →
  ∃ p, give_all bs w = Ret (with_scratch (Some p) w).
Proof.
  induction bs as [|b bs IH]; intros w Hbs Hs; simpl.
  - destruct (k_scratch w) as [p|] eqn:Hp; [|done]. exists p. rewrite <- Hp. by destruct w.
  - apply Forall_cons in Hbs as [Hb Hbs]. unfold give_scratch. rewrite (proj2 (Z.eqb_neq b 0)) by done.
    destruct (k_scratch w) as [p|]; [|done]. unfold give. rewrite ASSERT_true by (by apply negb_true_iff, Z.eqb_neq).
    cbn [obind]. destruct (IH (with_scratch (Some (mkPool (block p) (memory p) (free p ++ [b]))) w) Hbs) as [p' ->]; [done|].
    by exists p'.
Qed.

Lemma release_all_ok bs : ∀ w, lent (k_client w) ≡ₚ bs →
  ∃ client, release_all bs w = Ret (with_client client w) ∧ lent client = [] ∧ copying client = copying (k_client w).
Proof.
  induction bs as [|b bs IH]; intros w Hl; simpl.
  - exists (k_client w). split_and!; [by destruct w|by apply Permutation_nil_r|done].
  - destruct (release_law _ _ _ Hl) as (client & -> & Hc & Hl'). cbn [obind].
    destruct (IH (with_client client w) Hl') as (client' & -> & H1 & H2). exists client'. split_and!; [done|done|].
    by rewrite H2.
Qed.
Lemma omap_if {A B} (f : A → B) (p : B → bool) l :
  omap (λ x, if p (f x) then Some (f x) else None) l = concat (map (λ x, if p (f x) then [f x] else []) l).
Proof. induction l as [|x l IH]; simpl; [done|]. rewrite <- IH. by destruct (p (f x)). Qed.

Lemma scratch_buffers t : Forall (λ b, b ≠ 0) (release_all_scratch t).1.
Proof.
  simpl. apply Forall_forall. intros b (x & _ & Hx)%list_elem_of_omap.
  destruct (Z.eqb_spec (scratch x.2) 0); [done|]. by injection Hx as <-.
Qed.

Lemma staging_buffers t : (release_all_staging t).1 ≡ₚ held_buffers t.
Proof. simpl. by rewrite omap_if. Qed.

Lemma held_without_scratch t : held_buffers (release_all_scratch t).2 ≡ₚ held_buffers t.
Proof.
  unfold held_buffers, gather. simpl. rewrite map_to_list_fmap.
  induction (map_to_list (live t)) as [|[id e] l IH]; simpl; [done|]. rewrite IH. by destruct (scratch e =? 0).
Qed.

Record ended w : Prop := {
  en_answering : answering owner log0 others w;
  en_inflight : k_inflight w = [];
  en_chunks : live (k_chunks w) = ∅;
  en_queue : queued (k_queue w) = [] ∧ CapacityQueue.inflight (k_queue w) = 0;
  en_waiting : k_waiting w = [];
  en_copying : copying (k_client w) = [] ∧ k_copies w = 0 ∧ lent (k_client w) = [];
  en_issued : k_issued w = 0 }.

Lemma abort_all_ok code w : running [] [] w → code ≠ Success →
  ∃ w', abort_all code w = Ret w' ∧ ended w' ∧ quiet w' ∧ (if decide (code = FinishedError) then k_dead w' = false else k_dead w' = true ∧ k_error w' = code) ∧
    next_request (k_chunks w') = next_request (k_chunks w) ∧ failed_when_quiet w w'.
Proof.
  intros Hr Hc. unfold abort_all. set (w0 := if decide _ then w else _).
  pose proof (running_bound _ _ _ _ _ _ _ Hr) as Hb. pose proof (rn_issued _ _ _ _ _ _ _ Hr) as Hi.
  assert (Hlen : (length (issued_reads (k_engine w)) <= length (engine_ids w))%nat)
    by (unfold engine_ids; rewrite length_map, length_app; lia).
  assert (Hw0 : copies_ok w0 ∧ k_engine w0 = k_engine w ∧ k_issued w0 = k_issued w ∧
                next_request (k_chunks w0) = next_request (k_chunks w) ∧ k_ends w0 = k_ends w ∧
      (if decide (code = FinishedError) then k_dead w0 = false else k_dead w0 = true ∧ k_error w0 = code)).
  { subst w0. destruct (decide (code = FinishedError)).
    - split_and!; try done; [by eapply running_copies_ok|apply Hr].
    - unfold engine_is_dead. rewrite (rn_alive _ _ _ _ _ _ _ Hr).
      destruct (running_copies_ok _ _ _ Hr) as [C1 C2 C3 C4]. split_and!; try done.
      split; try done. by apply (tracked_ext owner log0 others w). }
  clearbody w0. destruct Hw0 as (Hw0 & He0 & Hi0 & Hnext & Hends0 & Hd0).
  set (w1 := with_queue _ w0).
  assert (Hw1 : copies_ok w1).
  { destruct Hw0 as [C1 C2 C3 C4]. split; try done. by apply (tracked_ext owner log0 others w0). }
  destruct (quiesce_ok w1 Hw1) as (w2 & gone & -> & Ht2 & Hcp2 & Hk2 & Hq2 & Hqu2 & Hd2 & Her2 & Hends2 & Hdr).
  { simpl. rewrite He0, Hi0, Hi. simpl. lia. }
  { simpl. rewrite Hi0, Hi. simpl in *. lia. }
  cbn [obind]. pose proof Ht2 as [Ta Tk Tn Tw Te Tl Ts].
  destruct (finalize_all_ok code (k_inflight w2) Hc w2 Ta eq_refl Tk) as (w3 & Efin & Ha3 & Hl3 & Hst & Hch3 & Hqu3 & Hcl3).
  { apply Forall_forall. intros [k wl] Hin. apply (cw_errors _ _ _ (Tw k wl (assoc_NoDup_elem _ _ _ Tk Hin))). }
  rewrite Efin. cbn [obind]. apply finalize_all_ends in Efin.
  assert (Hscr : ∃ sc, (match k_scratch w3 with
      | None => Ret w3
      | Some _ => let '(bs, t) := release_all_scratch (k_chunks w3) in give_all bs (with_chunks t w3) end) =
      Ret (with_scratch sc (with_chunks (match k_scratch w3 with None => k_chunks w3
                                        | Some _ => (release_all_scratch (k_chunks w3)).2 end) w3))).
  { destruct (k_scratch w3) as [p|] eqn:Hp; [|exists None; rewrite <- Hp; by destruct w3].
    destruct (give_all_ok (release_all_scratch (k_chunks w3)).1 (with_chunks (release_all_scratch (k_chunks w3)).2 w3))
      as [p' Eg]; [apply scratch_buffers|simpl; by rewrite Hp|]. exists (Some p'). exact Eg. }
  destruct Hscr as [sc ->]. cbn [obind].
  set (w4 := with_scratch sc _).
  assert (Hlent4 : lent (k_client w4) ≡ₚ (release_all_staging (k_chunks w4)).1).
  { rewrite staging_buffers. subst w4. cbn [k_client k_chunks with_scratch with_chunks]. rewrite Hcl3.
    destruct (k_scratch w3); rewrite ?held_without_scratch, Hch3; exact Tl. }
  destruct (release_all_staging (k_chunks w4)) as [bs t] eqn:Hrs. simpl in Hlent4.
  destruct (release_all_ok bs (with_chunks t w4) Hlent4) as (client & -> & Hlent & Hcp). cbn [obind].
  eexists. split; [reflexivity|]. split; [|split; [|split; [|split]]].
  - split; simpl; try done.
    + destruct Ha3 as [A1 A2]. by split.
    + rewrite Hqu3, Hqu2. done.
    + rewrite Hcp. simpl. by rewrite Hcl3, (sd_copies _ _ Hst), Hcp2.
  - unfold quiet in *. simpl. by rewrite (sd_engine _ _ Hst).
  - simpl. rewrite (sd_dead _ _ Hst), (sd_error _ _ Hst), Hd2, Her2. exact Hd0.
  - simpl. unfold release_all_staging in Hrs. injection Hrs as _ <-. simpl.
    destruct (k_scratch w3); simpl; rewrite Hch3, <- Hnext; apply (dd_next _ _ _ Hdr).
  - destruct Hends2 as (l2 & E2 & H2), Efin as (l3 & E3 & H3). exists (l2 ++ l3). simpl. rewrite E3, E2, <- app_assoc.
    split; [by rewrite <- Hends0|]. apply Forall_app. split; [eapply Forall_impl; [exact H2|]; by left|].
    eapply Forall_impl; [exact H3|]. intros x ->. by right.
Qed.
(** ** The turn *)

(** Reads that went out are issued, and the count says so. *)
Lemma flush_ok w code n deferred engine : running [] [] w → flush (k_engine w) = (code, (n, deferred), engine) →
  running [] [] (with_issued (k_issued w ⊕ n) (with_engine engine w)).
Proof.
  intros Hr Hf. destruct (flush_law _ _ _ _ _ Hf) as (_ & _ & sent & Hs & Hi & ->).
  pose proof (running_bound _ _ _ _ _ _ _ Hr) as Hb. simpl in Hb. destruct Hr as [R1 R2 R3 R4 R5 R6 R7 R8 R9].
  set (w' := with_issued _ _).
  assert (Heng : engine_ids w' ≡ₚ engine_ids w).
  { unfold engine_ids. simpl. rewrite Hs, Hi, !map_app. solve_Permutation. }
  assert (Hli := Permutation_length Hi). rewrite length_app in Hli.
  assert (Hle := Permutation_length Heng).
  assert (Hin : (length (issued_reads engine) <= length (engine_ids w'))%nat)
    by (unfold engine_ids; simpl; rewrite length_map, length_app; lia).
  split; try done.
  - by apply (tracked_ext owner log0 others w).
  - change (live_ids (k_chunks w')) with (live_ids (k_chunks w)). rewrite <- R2, Heng. done.
  - intros id e He. rewrite Heng. by apply R3.
  - simpl. rewrite R4. simpl. rewrite add64_small by mlia. lia.
  - rewrite Hle. exact R7.
Qed.

Lemma issued_plus_0 w : running [] [] w → k_issued w ⊕ 0 = k_issued w.
Proof.
  intros Hr. pose proof (running_bound _ _ _ _ _ _ _ Hr) as Hb. pose proof (rn_issued _ _ _ _ _ _ _ Hr) as Hi.
  assert (length (issued_reads (k_engine w)) <= length (engine_ids w))%nat
    by (unfold engine_ids; rewrite length_map, length_app; lia).
  simpl in *. rewrite add64_small by mlia. lia.
Qed.

Lemma reaped_ids cs l : Forall2 answers cs l → map cp_id cs = map sr_id l.
Proof. induction 1 as [|c r cs l [Hid _] _ IH]; simpl; [done|]. by rewrite Hid, IH. Qed.

(** A wait moves reads from the engine to the turn. *)
Lemma wait_ok w most mode code cs engine : running [] [] w → wait_for_completions most mode (k_engine w) = (code, cs, engine) →
  running (map cp_id cs) [] (with_engine engine w).
Proof.
  intros Hr Hw. destruct (wait_law _ _ _ _ _ _ Hw) as (_ & Hs & _ & _ & reaped & Hi & Hcs).
  rewrite (reaped_ids _ _ Hcs). destruct Hr as [R1 R2 R3 R4 R5 R6 R7 R8 R9].
  assert (Heng : engine_ids w ≡ₚ engine_ids (with_engine engine w) ++ map sr_id reaped).
  { unfold engine_ids. simpl. rewrite Hs, Hi, !map_app. solve_Permutation. }
  assert (Hli := Permutation_length Hi). rewrite length_app in Hli.
  split; try done.
  - by apply (tracked_ext owner log0 others w).
  - rewrite <- R2, Heng. change (queued_ids (with_engine _ w)) with (queued_ids w). solve_Permutation.
  - intros id e He H1 H2 H3. apply (R3 _ _ He); [|apply not_elem_of_nil|done]. rewrite Heng. by apply not_elem_of_app.
  - simpl. rewrite R4, length_map. simpl. lia.
  - simpl. rewrite R7, (Permutation_length Heng), length_app, !length_map. simpl. f_equal. lia.
Qed.

(** How a turn ends: at work, or ended for good. *)
Definition after_turn (stopped : bool) w : Prop :=
  running [] [] w ∨ (ended w ∧ quiet w ∧ (stopped = true ∨ k_dead w = true) ∧ (k_dead w = true → k_error w ≠ Success)).

Lemma running_stalled x reaped hand w : running reaped hand w → running reaped hand (with_stalled x w).
Proof.
  intros Hr. eapply running_ext; try done. apply (tracked_ext owner log0 others w); try done. apply (rn_tracked _ _ _ _ _ _ _ Hr).
Qed.

Lemma harvest_ok w : running [] [] w →
  ∃ w', harvest direct_strategy register_buffers path_of w = Ret w' ∧
    (running [] [] w' ∨ (ended w' ∧ quiet w' ∧ k_dead w' = true ∧ k_error w' ≠ Success)).
Proof.
  intros Hr. unfold harvest. destruct (wait_for_completions _ _ _) as [[code cs] engine] eqn:Hw.
  pose proof (wait_ok _ _ _ _ _ _ Hr Hw) as Hr1. destruct (decide (code = Success)) as [->|Hc].
  - rewrite bool_decide_true by done. cbn [negb]. destruct (handle_completions_ok cs _ Hr1) as (w' & -> & Hr').
    exists w'. split; [done|]. by left.
  - rewrite bool_decide_false by done. cbn [negb]. destruct (wait_law _ _ _ _ _ _ Hw) as (_ & _ & Hf & Hcs & _).
    rewrite (Hcs Hc) in Hr1. destruct (abort_all_ok code _ Hr1 Hc) as (w' & -> & He & Hq & Hd & _).
    exists w'. split; [done|]. right. split; [done|]. split; [done|]. rewrite decide_False in Hd by done. destruct Hd as [Hd1 Hd2]. by rewrite Hd2.
Qed.

Lemma drain_batch_ok stopped w : running [] [] w →
  ∃ w', drain_batch direct_strategy register_buffers path_of stopped w = Ret w' ∧ after_turn stopped w' ∧
    (stopped = true → ended w' ∧ quiet w' ∧ failed_when_quiet w w').
Proof.
  intros Hr. unfold drain_batch. destruct stopped.
  { destruct (abort_all_ok FinishedError w Hr) as (w' & -> & He & Hq & Hd & _ & Hends); [done|].
    exists w'. split; [done|]. split; [|done]. right. rewrite decide_True in Hd by done. split_and!; [done|done|by left|congruence]. }
  assert (Hdone : ∀ w', running [] [] w' ∨ (ended w' ∧ quiet w' ∧ k_dead w' = true ∧ k_error w' ≠ Success) →
    after_turn false w' ∧ (false = true → ended w' ∧ quiet w' ∧ failed_when_quiet w w')) by (intros w' [H|(H1 & H2 & H3 & H4)]; split; [by left|done|right; auto 10|done]).
  destruct (drain_issued_copies_ok (k_issued w =? 0) w (running_copies_ok _ _ _ Hr)) as (w1 & gone & -> & Hc1 & Hd1 & _).
  pose proof (running_drained _ _ _ _ _ Hr Hc1 Hd1) as Hr1. cbn [obind]. unfold resume_waiting.
  destruct (resume_loop_ok direct_strategy register_buffers path_of owner log0 others [] _ w1 Hr1 (le_n _))
    as (w2 & -> & Hr2 & _). cbn [obind].
  destruct (flush (k_engine w2)) as [[code [n deferred]] engine] eqn:Hf. pose proof (flush_ok _ _ _ _ _ Hr2 Hf) as Hr3.
  assert (Habort : ∀ code x, running [] [] x → code ≠ Success → code ≠ FinishedError →
    ∃ w', abort_all code x = Ret w' ∧ after_turn false w' ∧ (false = true → ended w' ∧ quiet w' ∧ failed_when_quiet w w')).
  { intros c x Hx Hc Hcf. destruct (abort_all_ok c x Hx Hc) as (w' & -> & He & Hq & Hd & _).
    exists w'. split; [done|]. apply Hdone. right. rewrite decide_False in Hd by done. destruct Hd as [Hd2 Hd3]. split_and!; [done|done|done|by rewrite Hd3]. }
  destruct (decide (code = Success)) as [->|Hc].
  2: { rewrite bool_decide_false by done. cbn [negb]. apply Habort; [done|done|].
       by destruct (flush_law _ _ _ _ _ Hf) as (_ & ? & _). }
  rewrite bool_decide_true by done. cbn [negb].
  set (stalled := deferred && _ && _). destruct (stalled && _) eqn:Hspent.
  - apply Habort; [|done|done].
    assert (Hn : n = 0) by (subst stalled; apply andb_true_iff in Hspent as [[[_ ?%Z.eqb_eq]%andb_true_iff _]%andb_true_iff _]; done).
    subst n. apply running_stalled. rewrite issued_plus_0 in Hr3 by done. by destruct w2.
  - set (w4 := with_counters _ _). assert (Hr4 : running [] [] w4).
    { apply running_counters. change (running [] [] (with_stalled (if stalled then add32 (k_stalled w2) 1 else 0)
        (with_issued (k_issued w2 ⊕ n) (with_engine engine w2)))). by apply running_stalled. }
    destruct (harvest_ok w4 Hr4) as (w5 & E5 & H5). exists w5. split; [exact E5|]. by apply Hdone.
Qed.
(** ** Submitting *)

Lemma try_take_ok w : running [] [] w →
  match try_take (k_queue w) with
  | (None, q) => q = k_queue w
  | (Some c, q) => running [] [qc_id c] (with_queue q w) ∧ length (queued (k_queue w)) = S (length (queued q))
  end.
Proof.
  intros Hr. pose proof (running_bound _ _ _ _ _ _ _ Hr) as Hb. destruct Hr as [R1 R2 R3 R4 R5 R6 R7 R8 R9].
  unfold try_take, queued_ids in *. destruct (queued (k_queue w)) as [|[c cost] rest] eqn:Hq; [done|].
  destruct (_ && _); [done|]. apply Forall_cons in R6 as [Hcost R6]. simpl in Hcost. subst cost.
  split; [|done]. simpl in Hb. split; simpl; try done.
  - by apply (tracked_ext owner log0 others w).
  - rewrite <- R2. change (engine_ids (with_queue _ w)) with (engine_ids w). unfold queued_ids. simpl. solve_Permutation.
  - rewrite R7. change (engine_ids (with_queue _ w)) with (engine_ids w). simpl. rewrite add64_small by mlia. lia.
Qed.

Lemma pump_loop_ok n : ∀ w, running [] [] w →
  ∃ w', pump_loop direct_strategy register_buffers path_of n w = Ret w' ∧ running [] [] w'.
Proof.
  induction n as [|n IH]; intros w Hr; simpl; [by exists w|].
  pose proof (try_take_ok w Hr) as Ht. destruct (try_take (k_queue w)) as [[c|] q].
  - destruct Ht as [Ht _]. unfold submit.
    destruct (stage_pending_ok direct_strategy register_buffers path_of _ _ _ _ _ _ _ Ht) as (w1 & -> & Hr1 & _). cbn [obind].
    by apply IH.
  - subst q. exists w. split; [by destruct w|done].
Qed.

Lemma pump_ok w : running [] [] w →
  ∃ w', pump direct_strategy register_buffers path_of w = Ret w' ∧ running [] [] w'.
Proof. apply pump_loop_ok. Qed.

(** An ended worker has nothing to submit. *)
Lemma pump_ended w : ended w → pump direct_strategy register_buffers path_of w = Ret w.
Proof. intros He. unfold pump. destruct (en_queue _ He) as [-> _]. done. Qed.

(** An idle worker owes nothing: no request is live, so no workload is. *)
Lemma idle_owes_nothing w : running [] [] w → worker_idle w = true →
  k_inflight w = [] ∧ live (k_chunks w) = ∅ ∧ issued_reads (k_engine w) = [] ∧ staged_reads (k_engine w) = [].
Proof.
  intros Hr. unfold worker_idle, CapacityQueue.idle, CapacityQueue.empty, has_deferred_work.
  rewrite !andb_true_iff, negb_true_iff, orb_false_iff, negb_false_iff, !bool_decide_eq_true, Z.eqb_eq, Z.gtb_ltb, Z.ltb_ge.
  intros [[Hq Hi] [Hc Hw]]. destruct Hr as [R1 R2 R3 R4 R5 R6 R7 R8 R9].
  assert (Hcp : copying (k_client w) = []) by (destruct (copying (k_client w)); [done|simpl in *; lia]).
  assert (Heng : engine_ids w = []) by (destruct (engine_ids w); [done|simpl in *; lia]).
  unfold queued_ids in R2. rewrite Hq, Hcp, Heng, Hw in R2. simpl in R2. symmetry in R2. apply Permutation_nil_r in R2.
  assert (Hnone : ∀ id, find id (k_chunks w) = None).
  { intros id. destruct (find id (k_chunks w)) eqn:He; [|done]. assert (id ∈ live_ids (k_chunks w)) as Hin
      by (apply elem_of_live_ids; eauto). rewrite R2 in Hin. by apply not_elem_of_nil in Hin. }
  assert (Hl : live (k_chunks w) = ∅) by (apply map_empty; apply Hnone).
  unfold engine_ids in Heng. apply map_eq_nil, app_eq_nil in Heng as [Hs His]. split_and!; try done.
  destruct (k_inflight w) as [|[k wl] l] eqn:El; [done|].
  pose proof (tk_workloads _ _ _ _ R1 k wl) as Hk. rewrite El in Hk. simpl in Hk. rewrite Z.eqb_refl in Hk.
  destruct (Hk eq_refl) as [_ _ Hrem [Hpos _] _].
  destruct (of_workload k (k_chunks w)) as [|id ids] eqn:Ho; [simpl in *; lia|].
  assert (Hin : id ∈ of_workload k (k_chunks w)) by (rewrite Ho; left).
  apply elem_of_gather in Hin as (id' & e & He & _). by rewrite Hnone in He.
Qed.
End Turn.
