(* ===== verification/AsyncIoEnqueue.v ===== *)
(** Taking on a workload (AsyncIoWorker::enqueue): its zero-sized ranges are answered at once, its chunks
    become queued requests, and the books hold afterwards. *)

From S2P Require Import Prelude ResponseCode Text SharedQueue Task ChunkSplitter Batch Workload.
From S2P Require Import CompletionMapper ScratchPool CapacityQueue InflightChunks DirectPass IoEngine Reporting AsyncIoWorker.
From S2P Require Import AsyncIoAnswers AsyncIoTracking AsyncIoRunning AsyncIoTurn.

(** Task [j] is one of the tasks of [c]. *)
Definition in_span (c : Chunk) (j : nat) : Prop :=
  (Z.to_nat (first_task c) <= j < Z.to_nat (first_task c) + Z.to_nat (task_count c))%nat.

(** What a batch brings: chunks of its own tasks, that leave out none that has bytes. *)
Record batch_ready (b : Batch) : Prop := {
  br_cover : ∀ j task, tasks b !! j = Some task → t_bytesize task ≠ 0 → ∃ c, c ∈ chunks b ∧ in_span c j;
  br_inside : Forall (λ c, (Z.to_nat (first_task c) + Z.to_nat (task_count c) <= length (tasks b))%nat) (chunks b) }.

(** The batches of the streamer are ready: their chunks come from the splitter. *)
Lemma grouped_span s i ts cs j t : grouped s i ts cs → 0 <= i → ts !! j = Some t →
  ∃ c, c ∈ cs ∧ first_task c <= i + Z.of_nat j < first_task c + task_count c ∧ 0 <= first_task c.
Proof.
  intros Hg. revert j. induction Hg as [i|i g ts c cs Hc Hg IH]; intros j Hi Hj; [done|].
  destruct Hc as [_ _ Hf Hn]. destruct (decide (j < length g)%nat) as [Hlt|Hge].
  - exists c. split; [left|lia].
  - rewrite lookup_app_r in Hj by lia. destruct (IH (j - length g)%nat) as (c' & Hc' & H); [lia|done|].
    exists c'. split; [by right|lia].
Qed.

Lemma grouped_inside s i ts cs : grouped s i ts cs → 0 <= i →
  Forall (λ c, 0 <= first_task c ∧ 0 <= task_count c ∧ first_task c + task_count c <= i + Z.of_nat (length ts)) cs.
Proof.
  induction 1 as [i|i g ts c cs [_ _ Hf Hn] Hg IH]; intros Hi; constructor; rewrite length_app; [lia|].
  eapply Forall_impl; [apply IH; lia|]. simpl. lia.
Qed.

Lemma make_batch_ready s sid widx fidx obj ts chunk_bytesize b o e :
  make_batch s sid widx fidx obj ts chunk_bytesize = Ret b →
  0 < chunk_bytesize → 0 <= o → tiles t_offset t_bytesize o ts e → e + chunk_bytesize < size_modulus →
  Z.of_nat (length ts) < unsigned_modulus → Forall (cut chunk_bytesize) ts → Forall (info_ok s) ts → batch_ready b.
Proof.
  unfold make_batch. intros Hb Hc Ho Ht He Hl Hcut Hinfo.
  destruct (split_into_chunks_spec s chunk_bytesize ts o e Hc Ho Ht He Hl Hcut Hinfo) as (cs & E1 & Hcs).
  rewrite E1 in Hb. cbn [obind] in Hb. destruct (make_range _ _) as [r|]; [|done]. injection Hb as <-.
  destruct (decide (o = e)) as [->|Hne].
  - subst cs. split; simpl; [|constructor]. intros j t Hj H0.
    destruct (tiles_elem _ _ _ _ _ t Ht) as (H1 & H2 & H3); [by eapply list_elem_of_lookup_2|lia].
  - destruct Hcs as (Hg & _). split; simpl.
    + intros j t Hj _. destruct (grouped_span _ _ _ _ j t Hg) as (c & Hin & Hs & H0); [lia|done|].
      exists c. split; [done|]. unfold in_span. lia.
    + eapply Forall_impl; [apply (grouped_inside _ _ _ _ Hg); lia|]. simpl. lia.
Qed.

(** ** Chunks become requests *)

Section Grow.
Context (k i : Z).

(** The table and the queue with the requests of [cs] added. *)
Record grown (cs : list Chunk) (t : InflightChunks) (q : CapacityQueue QueuedChunk) (t' : InflightChunks)
    (q' : CapacityQueue QueuedChunk) : Prop := {
  gr_next : next_request t' = next_request t + Z.of_nat (length cs);
  gr_old : ∀ id e, find id t = Some e → find id t' = Some e;
  gr_new : ∀ id e, find id t' = Some e →
    find id t = Some e ∨ (next_request t <= id < next_request t' ∧ ∃ c, c ∈ cs ∧ e = start_entry c k i);
  gr_each : ∀ c, c ∈ cs → ∃ id, find id t' = Some (start_entry c k i);
  gr_count : ∀ k', length (of_workload k' t') = ((if decide (k' = k) then length cs else 0) + length (of_workload k' t))%nat;
  gr_ids : ∃ new, map (λ x, qc_id x.1) (queued q') = map (λ x, qc_id x.1) (queued q) ++ new ∧
    live_ids t' ≡ₚ new ++ live_ids t;
  gr_costs : Forall (λ x, x.2 = 1) (queued q) → Forall (λ x, x.2 = 1) (queued q');
  gr_queue : CapacityQueue.inflight q' = CapacityQueue.inflight q ∧ capacity q' = capacity q;
  gr_held : held_buffers t' ≡ₚ held_buffers t }.

Lemma grown_nil t q : grown [] t q t q.
Proof.
  split; try done; [simpl; lia|auto|intros c ?%not_elem_of_nil; done| |].
  - intros k'. by destruct (decide _).
  - exists []. by rewrite app_nil_r.
Qed.

Lemma grown_trans cs1 cs2 t1 q1 t2 q2 t3 q3 : grown cs1 t1 q1 t2 q2 → grown cs2 t2 q2 t3 q3 → grown (cs1 ++ cs2) t1 q1 t3 q3.
Proof.
  intros [A1 A2 A3 A4 A5 (n1 & A6 & A6') A7 [A8 A8'] A9] [B1 B2 B3 B4 B5 (n2 & B6 & B6') B7 [B8 B8'] B9].
  split; try congruence.
  - rewrite B1, A1, length_app. lia.
  - auto.
  - intros id e [H|(H1 & c & Hc & ->)]%B3.
    + apply A3 in H as [|(H1 & c & Hc & ->)]; [by left|right]. split; [lia|]. exists c. by rewrite elem_of_app; auto.
    + right. split; [lia|]. exists c. by rewrite elem_of_app; auto.
  - intros c [Hc|Hc]%elem_of_app; [|by apply B4]. destruct (A4 _ Hc) as [id Hid]. exists id. by apply B2.
  - intros k'. rewrite B5, A5, length_app. destruct (decide _); lia.
  - exists (n1 ++ n2). rewrite B6, A6, B6', A6'. split; [by rewrite app_assoc|]. solve_Permutation.
  - auto.
  - split; congruence.
  - by rewrite B9.
Qed.

Lemma add_ok c t q : (∀ id e, find id t = Some e → id < next_request t) → 0 <= next_request t →
  next_request t + 1 < size_modulus →
  ∃ t', add c k i t = Ret (next_request t, t') ∧
    grown [c] t q t' (CapacityQueue.enqueue (mkQueuedChunk (next_request t) (c_offset c) (c_bytesize c) (c_buffer c)) 1 q).
Proof.
  intros Hfresh H0 Hroom. set (id := next_request t).
  assert (Hid : find id t = None) by (destruct (find id t) eqn:He; [apply Hfresh in He; lia|done]).
  unfold add. fold id. rewrite ASSERT_true by (by apply bool_decide_true). cbn [obind].
  eexists. split; [reflexivity|]. rewrite (add64_small id 1) by (subst id; mlia).
  set (t' := mkTable _ _).
  assert (Hf : ∀ id', find id' t' = if decide (id' = id) then Some (start_entry c k i) else find id' t).
  { intros id'. unfold find. simpl. destruct (decide (id' = id)) as [->|Hne]; [by rewrite lookup_insert_eq|].
    by rewrite lookup_insert_ne. }
  assert (Hg : ∀ {B} (f : Z → InflightChunk → list B), gather f t' ≡ₚ f id (start_entry c k i) ++ gather f t).
  { intros B f. destruct t. by apply gather_insert. }
  split; simpl; try done.
  - intros id' e He. rewrite Hf. destruct (decide (id' = id)) as [->|]; [congruence|done].
  - intros id' e. rewrite Hf. destruct (decide (id' = id)) as [->|]; [|by left].
    intros [= <-]. right. split; [subst id; lia|]. exists c. split; [left|done].
  - intros c' ->%list_elem_of_singleton. exists id. rewrite Hf. by rewrite decide_True.
  - intros k'. unfold of_workload. rewrite (Permutation_length (Hg _ _)), length_app. simpl.
    destruct (Z.eqb_spec k k'), (decide (k' = k)); simpl; congruence || lia.
  - exists [id]. rewrite map_app. split; [done|]. apply Hg.
  - intros H. apply Forall_app. split; [done|]. by constructor.
  - unfold held_buffers. by rewrite Hg.
Qed.
End Grow.

Section Queue.
Context {R E D F : Type} `{!Responder R}.
Local Abbreviation worker := (worker (R := R) (E := E) (D := D) (F := F)).

Lemma queue_chunks_ok cs k i : ∀ w : worker,
  (∀ id e, find id (k_chunks w) = Some e → id < next_request (k_chunks w)) → 0 <= next_request (k_chunks w) →
  next_request (k_chunks w) + Z.of_nat (length cs) < size_modulus →
  ∃ t q, queue_chunks cs k i w = Ret (with_queue q (with_chunks t w)) ∧ grown k i cs (k_chunks w) (k_queue w) t q.
Proof.
  induction cs as [|c cs IH]; intros w Hfresh H0 Hroom; simpl in *.
  { exists (k_chunks w), (k_queue w). split; [by destruct w|apply grown_nil]. }
  destruct (add_ok k i c (k_chunks w) (k_queue w) Hfresh H0) as (t & -> & Hg); [lia|]. cbn [obind].
  set (q := CapacityQueue.enqueue _ 1 _) in *.
  destruct (IH (with_queue q (with_chunks t w))) as (t' & q' & -> & Hg'); simpl.
  - intros id e [He|[Hid _]]%(gr_new _ _ _ _ _ _ _ Hg); [|lia].
    apply Hfresh in He. rewrite (gr_next _ _ _ _ _ _ _ Hg). lia.
  - rewrite (gr_next _ _ _ _ _ _ _ Hg). lia.
  - rewrite (gr_next _ _ _ _ _ _ _ Hg). simpl. lia.
  - exists t', q'. split; [done|]. by apply (grown_trans k i [c] cs _ _ t q).
Qed.
End Queue.

Section Enqueue.
Context {R E D F : Type} `{!Responder R, !IoEngine E, !EngineLaws E, !DeviceClient D, !ClientLaws D, !Files F}.
Context (path_of : Z → Z → text).
Context (owner : nat → Z) (log0 : list Response) (others : list Batch).

Local Abbreviation worker := (worker (R := R) (E := E) (D := D) (F := F)).
Implicit Types (w : worker) (t : InflightChunks).
Local Abbreviation tracked := (tracked owner log0 others).
Local Abbreviation running := (running_but owner log0 others []).
Local Abbreviation answering := (answering owner log0 others).

(** ** Places, apart from the books *)

Record placed w : Prop := {
  pl_places : queued_ids w ++ engine_ids w ++ k_waiting w ++ copying (k_client w) ≡ₚ live_ids (k_chunks w);
  pl_bounce : ∀ id e, find id (k_chunks w) = Some e → id ∉ engine_ids w → unbounced e;
  pl_issued : k_issued w = Z.of_nat (length (issued_reads (k_engine w)));
  pl_copies : k_copies w = Z.of_nat (length (copying (k_client w)));
  pl_costs : Forall (λ x, x.2 = 1) (queued (k_queue w));
  pl_credit : CapacityQueue.inflight (k_queue w) = Z.of_nat (length (engine_ids w) + length (k_waiting w));
  pl_room : 0 < next_request (k_chunks w) < size_modulus;
  pl_alive : k_dead w = false }.

Lemma running_placed w : running [] [] w ↔ tracked w ∧ placed w.
Proof.
  split.
  - intros [R1 R2 R3 R4 R5 R6 R7 R8 R9]. split; [done|]. split; try done.
    + intros id e He Hid. apply (R3 _ _ He Hid); apply not_elem_of_nil.
    + rewrite R4. simpl. lia.
    + rewrite R7. simpl. lia.
  - intros [Ht [P1 P2 P3 P4 P5 P6 P7 P8]]. split; try done.
    + intros id e He Hid _ _. by apply (P2 _ _ He).
    + rewrite P3. simpl. lia.
    + rewrite P6. simpl. lia.
Qed.

Lemma placed_ext w w' : placed w → k_chunks w' = k_chunks w → k_engine w' = k_engine w → k_queue w' = k_queue w →
  k_waiting w' = k_waiting w → k_issued w' = k_issued w → k_copies w' = k_copies w →
  copying (k_client w') = copying (k_client w) → k_dead w' = k_dead w → placed w'.
Proof.
  intros [P1 P2 P3 P4 P5 P6 P7 P8] E1 E2 E3 E4 E5 E6 E7 E8.
  split; unfold engine_ids, queued_ids in *; rewrite ?E1, ?E2, ?E3, ?E4, ?E5, ?E6, ?E7, ?E8; done.
Qed.

Lemma placed_grown k i cs w t q : placed w → grown k i cs (k_chunks w) (k_queue w) t q → 0 < next_request t < size_modulus →
  placed (with_queue q (with_chunks t w)).
Proof.
  intros [P1 P2 P3 P4 P5 P6 P7 P8] [G1 G2 G3 G4 G5 (new & G6 & G6') G7 [G8 G8'] G9] Hroom. split; simpl; try done.
  - rewrite G6', <- P1. unfold queued_ids. simpl. rewrite G6.
    change (engine_ids (with_queue q (with_chunks t w))) with (engine_ids w). solve_Permutation.
  - intros id e [He|(_ & c & _ & ->)]%G3 Hid; [by apply (P2 _ _ He)|done].
  - auto.
  - by rewrite G8.
Qed.

(** ** Zero-sized ranges *)

Lemma answer_zero_sized_ok n : ∀ i b answered before after (x : world (R := R)),
  system_ok owner log0 answered (before ++ b :: after) x → (i + n <= length (tasks b))%nat →
  ∃ b' x' answered', answer_zero_sized n i b x = Ret (b', x') ∧ advanced b b' ∧
    (∀ j task, (i <= j < i + n)%nat → tasks b' !! j = Some task → t_bytesize task = 0 → t_finished task = true) ∧
    system_ok owner log0 answered' (before ++ b' :: after) x'.
Proof.
  induction n as [|n IH]; intros i b answered before after x Hs Hn; simpl.
  { exists b, x, answered. split_and!; [done|apply advanced_refl| |done]. intros j t Hj. lia. }
  destruct (lookup_lt_is_Some_2 (tasks b) i) as [t Ht]; [lia|]. rewrite Ht.
  destruct (Z.eqb_spec (t_bytesize t) 0) as [H0|H0].
  - destruct (handle_response_total owner log0 _ _ _ _ _ _ _ Hs Ht) as (x1 & a1 & -> & Hs1). cbn [obind].
    set (b1 := set_tasks b (<[i:=set_finished t]> (tasks b)) (unfinished b)) in *.
    destruct (IH (S i) b1 a1 before after x1 Hs1) as (b' & x' & a' & -> & Had & Hd & Hs').
    { simpl. rewrite length_insert. lia. }
    exists b', x', a'. split_and!; [done|by eapply advanced_trans; [apply advanced_one|]| |done].
    intros j t' Hj Ht' Hb. destruct (decide (j = i)) as [->|Hne]; [|apply (Hd j); [lia|done|done]].
    destruct (ad_tasks _ _ Had i (set_finished t)) as (t2 & Ht2 & _ & Hf).
    { subst b1. simpl. by rewrite list_lookup_insert_eq by (by eapply lookup_lt_Some). }
    assert (t2 = t') as -> by congruence. by apply Hf.
  - destruct (IH (S i) b answered before after x Hs) as (b' & x' & a' & -> & Had & Hd & Hs'); [lia|].
    exists b', x', a'. split_and!; [done|done| |done]. intros j t' Hj Ht' Hb.
    destruct (decide (j = i)) as [->|Hne]; [|apply (Hd j); [lia|done|done]].
    destruct (ad_tasks _ _ Had _ _ Ht) as (t2 & Ht2 & Hi & _). assert (t2 = t') as -> by congruence.
    unfold t_bytesize in *. by rewrite Hi in Hb.
Qed.

(** A zero-sized range is answered, or its file is known to have failed. *)
Definition zeros_settled (errors : gmap Z ResponseCode) (b : Batch) : Prop :=
  ∀ j task, tasks b !! j = Some task → t_finished task = false → t_bytesize task = 0 → file_failed errors b.

Lemma assoc_set_same {A} k (x : A) l : assoc k l = Some x → assoc_set k x l = l.
Proof. intros (l1 & l2 & -> & H)%assoc_split. by apply assoc_set_split. Qed.

Lemma set_batch_same wl i b : wl_batches (if_workload wl) !! i = Some b → set_batch wl i b (if_errors wl) = wl.
Proof. intros H. unfold set_batch. rewrite list_insert_id by done. by destruct wl as [[]]. Qed.

Lemma answer_ranges_ok w k wl i b : answering w → assoc k (k_inflight w) = Some wl →
  wl_batches (if_workload wl) !! i = Some b → errors_ok (if_errors wl) →
  ∃ b' errors x f, let wl' := set_batch wl i b' errors in
    let w' := with_world x (with_inflight (assoc_set k wl' (k_inflight w)) (with_files f w)) in
    answer_zero_sized_ranges path_of k i w = Ret w' ∧ answering w' ∧ advanced b b' ∧ errors_ok errors ∧
    (∀ y, file_failed (if_errors wl) y → file_failed errors y) ∧ zeros_settled errors b'.
Proof.
  intros Ha Hwl Hb Herr. unfold answer_zero_sized_ranges. rewrite Hwl, Hb.
  destruct (existsb _ (tasks b)) eqn:Hz.
  2: { exists b, (if_errors wl), (k_world w), (k_files w). cbn zeta. rewrite (set_batch_same _ _ _ Hb), (assoc_set_same _ _ _ Hwl).
       replace (with_world _ _) with w by by destruct w. split_and!; try done; [apply advanced_refl|].
       intros j task Hj _ H0. assert (Hex : existsb (λ y : Task, t_bytesize y =? 0) (tasks b) = true); [|congruence].
       apply existsb_exists. exists task. split; [by apply list_elem_of_In; eapply list_elem_of_lookup_2|by apply Z.eqb_eq]. }
  unfold probe_open. pose proof Ha as [[answered Hs] Hr]. pose proof Hwl as Hwl'. apply assoc_split in Hwl' as (l1 & l2 & El & Hl1).
  destruct (mine_set_batch l1 k wl l2 i b Hb) as (bs1 & bs2 & Hm & Hset). rewrite El, Hm in Hs.
  destruct (open_for_read _ false (k_files w)) as [[fd|] f].
  - cbn [fst snd]. rewrite decide_True by done.
    destruct (answer_zero_sized_ok (length (tasks b)) 0 b answered (others ++ retired w ++ mine l1 ++ bs1) (bs2 ++ mine l2)
                (k_world w)) as (b' & x & a' & E1 & Had & Hd & Hs'); [by rewrite <- !app_assoc|done|].
    change (k_world (with_files (close fd f) w)) with (k_world w). rewrite E1. cbn [obind].
    exists b', (if_errors wl), x, (close fd f). split; [done|]. split; [|split_and!; try done].
    + split; simpl; [|done]. exists a'. rewrite El, (assoc_set_split _ wl), Hset by done. by rewrite <- !app_assoc in Hs'.
    + intros j task Hj Hf H0. rewrite (Hd j task) in Hf; [done| |done|done].
      apply lookup_lt_Some in Hj. rewrite (ad_length _ _ Had) in Hj. lia.
  - cbn [fst snd]. rewrite decide_False by done. fold (record_error FileAccessError b (if_errors wl)).
    destruct (record_error_spec FileAccessError b (if_errors wl) Herr) as (He1 & Hf1 & Hm1); [done|].
    exists b, (record_error FileAccessError b (if_errors wl)), (k_world w), f. split; [by destruct w|].
    split; [|split_and!; try done; [apply advanced_refl|by intros ????]].
    split; simpl; [|done]. exists answered. by rewrite El, (assoc_set_split _ wl), Hset by done.
Qed.
(** ** The workload under construction *)

(** Of the batches [bs] of workload [k], those before [i] are accounted for and the rest untouched. *)
Record entering (bs : list Batch) (k : Z) (i : nat) t (wl : Inflight) : Prop := {
  et_errors : errors_ok (if_errors wl);
  et_fds : length (if_fds wl) = length (wl_batches (if_workload wl));
  et_length : length (wl_batches (if_workload wl)) = length bs;
  et_done : ∀ i' b j task, (i' < i)%nat → wl_batches (if_workload wl) !! i' = Some b → tasks b !! j = Some task →
    t_finished task = false → file_failed (if_errors wl) b ∨ (t_bytesize task ≠ 0 ∧ claimed t k i' j);
  et_rest : ∀ i', (i <= i')%nat → wl_batches (if_workload wl) !! i' = bs !! i' }.

Record queuing (bs : list Batch) (k : Z) (i : nat) w : Prop := {
  qg_answering : answering w;
  qg_keys : NoDup (map fst (k_inflight w));
  qg_next : 0 < k_next w ∧ Forall (λ k', 0 < k' < k_next w) (map fst (k_inflight w));
  qg_others : ∀ k' wl, k' ≠ k → assoc k' (k_inflight w) = Some wl → counted (k_chunks w) k' wl;
  qg_new : ∃ wl, assoc k (k_inflight w) = Some wl ∧ entering bs k i (k_chunks w) wl;
  qg_entries : ∀ id e, find id (k_chunks w) = Some e → 0 < id < next_request (k_chunks w) ∧ belongs (k_inflight w) e;
  qg_lent : lent (k_client w) ≡ₚ held_buffers (k_chunks w);
  qg_scratch : k_scratch w = None → ∀ id e, find id (k_chunks w) = Some e → scratch e = 0;
  qg_placed : placed w }.

Lemma claimed_old k i cs t q t' q' k' i' j : grown k i cs t q t' q' → claimed t k' i' j → claimed t' k' i' j.
Proof. intros Hg (id & e & He & H). exists id, e. split; [by apply (gr_old _ _ _ _ _ _ _ Hg)|done]. Qed.

Lemma counted_grown k i cs t q t' q' k' wl : grown k i cs t q t' q' → k' ≠ k → counted t k' wl → counted t' k' wl.
Proof.
  intros Hg Hne [C1 C2 C3 C4 C5]. split; try done.
  - by rewrite (gr_count _ _ _ _ _ _ _ Hg), decide_False.
  - intros i' b j task Hb Hj Hf. destruct (C5 _ _ _ _ Hb Hj Hf) as [|[H0 Hc]]; [by left|right].
    split; [done|]. by eapply claimed_old.
Qed.

(** Batch [i] with its zero-sized ranges settled and its chunks queued. *)
Lemma entering_step bs k i t q t' q' wl b b' errors : entering bs k i t wl → bs !! i = Some b → batch_ready b →
  advanced b b' → errors_ok errors → (∀ y, file_failed (if_errors wl) y → file_failed errors y) →
  zeros_settled errors b' → grown k (Z.of_nat i) (chunks b) t q t' q' →
  entering bs k (S i) t' (set_batch wl i b' errors).
Proof.
  intros [E1 E2 E3 E4 E5] Hb [Hcover _] Had Herr Hmono Hzero Hg. split; simpl.
  - done.
  - by rewrite length_insert.
  - by rewrite length_insert.
  - intros i' b0 j task Hi Hb0 Hj Hf. destruct (decide (i' = i)) as [->|Hne].
    + rewrite list_lookup_insert_eq in Hb0 by (by rewrite E3; eapply lookup_lt_Some). injection Hb0 as <-.
      destruct (decide (t_bytesize task = 0)) as [H0|H0]; [left; by apply (Hzero _ _ Hj Hf)|right]. split; [done|].
      destruct (lookup_lt_is_Some_2 (tasks b) j) as [t0 Ht0]; [rewrite <- (ad_length _ _ Had); by eapply lookup_lt_Some|].
      destruct (ad_tasks _ _ Had _ _ Ht0) as (t1 & Ht1 & Hinf & _). assert (t1 = task) as -> by congruence.
      destruct (Hcover j t0 Ht0) as (c & Hc & Hspan); [unfold t_bytesize in *; by rewrite <- Hinf|].
      destruct (gr_each _ _ _ _ _ _ _ Hg _ Hc) as [id Hid]. exists id, (start_entry c k (Z.of_nat i)).
      split; [done|]. split; [done|]. split; [simpl; lia|exact Hspan].
    + rewrite list_lookup_insert_ne in Hb0 by done.
      destruct (E4 i' b0 j task) as [H|[H0 Hc]]; [lia|done|done|done|left; by apply Hmono|right].
      split; [done|]. by eapply claimed_old.
  - intros i' Hi. rewrite list_lookup_insert_ne by lia. apply E5. lia.
Qed.

Lemma belongs_after l k wl i b b' errors e :
  belongs l e → assoc k l = Some wl → wl_batches (if_workload wl) !! i = Some b → advanced b b' →
  belongs (assoc_set k (set_batch wl i b' errors) l) e.
Proof.
  intros He Hk Hb Had. pose proof (belongs_set _ _ _ i b b' errors (if_remaining wl) e He Hk Hb Had) as H.
  by replace (set_remaining (set_batch wl i b' errors) (if_remaining wl)) with (set_batch wl i b' errors) in H.
Qed.

Lemma queuing_step bs k i w b : queuing bs k i w → bs !! i = Some b → batch_ready b →
  next_request (k_chunks w) + Z.of_nat (length (chunks b)) < size_modulus →
  ∃ w', (let! w := answer_zero_sized_ranges path_of k i w in queue_chunks (chunks b) k (Z.of_nat i) w) = Ret w' ∧
    queuing bs k (S i) w' ∧ k_dead w' = k_dead w ∧
    next_request (k_chunks w') = next_request (k_chunks w) + Z.of_nat (length (chunks b)) ∧
    length (of_workload k (k_chunks w')) = (length (chunks b) + length (of_workload k (k_chunks w)))%nat.
Proof.
  intros [Q1 Q2 Q3 Q4 (wl & Hwl & Hent) Q6 Q7 Q8 Q9] Hb Hready Hroom.
  assert (Hbi : wl_batches (if_workload wl) !! i = Some b) by (by rewrite (et_rest _ _ _ _ _ Hent)).
  destruct (answer_ranges_ok w k wl i b Q1 Hwl Hbi (et_errors _ _ _ _ _ Hent))
    as (b' & errors & x & f & E1 & Ha & Had & Herr & Hmono & Hzero).
  rewrite E1. cbn [obind]. set (wl' := set_batch wl i b' errors) in *. set (w1 := with_world x _) in *.
  destruct (queue_chunks_ok (chunks b) k (Z.of_nat i) w1) as (t & q & -> & Hg); [..|exact Hroom|].
  { intros id e He. by destruct (Q6 _ _ He) as [[_ ?] _]. }
  { simpl. destruct Q9. lia. }
  change (k_chunks w1) with (k_chunks w) in Hg. change (k_queue w1) with (k_queue w) in Hg.
  assert (Hent' : entering bs k (S i) t wl') by (by eapply entering_step).
  assert (Hnext := gr_next _ _ _ _ _ _ _ Hg). assert (Hkeys := assoc_set_keys k wl' (k_inflight w)).
  exists (with_queue q (with_chunks t w1)). split; [done|]. split; [|split_and!; [done|done|]].
  2: { simpl. by rewrite (gr_count _ _ _ _ _ _ _ Hg), decide_True. }
  split; simpl; rewrite ?Hkeys; try done.
  - destruct Ha as [A1 A2]. by split.
  - intros k' wl0 Hne. rewrite assoc_set_ne by done. intros H0. eapply counted_grown; eauto.
  - exists wl'. by rewrite assoc_set_eq by eauto.
  - intros id e [He|(Hid & c & Hc & ->)]%(gr_new _ _ _ _ _ _ _ Hg).
    + destruct (Q6 _ _ He) as [H1 H2]. split; [lia|]. by eapply belongs_after.
    + split; [destruct Q9; lia|]. exists wl', b'. simpl. rewrite assoc_set_eq by eauto. split; [done|].
      rewrite Nat2Z.id, list_lookup_insert_eq by (by eapply lookup_lt_Some). split; [done|].
      rewrite (ad_length _ _ Had). destruct Hready as [_ Hin]. rewrite Forall_forall in Hin. by apply Hin.
  - by rewrite (gr_held _ _ _ _ _ _ _ Hg).
  - intros Hn id e [He|(_ & c & _ & ->)]%(gr_new _ _ _ _ _ _ _ Hg); [by eapply Q8|done].
  - apply (placed_grown k (Z.of_nat i) (chunks b) w1); [by eapply placed_ext|done|]. destruct Q9. lia.
Qed.

Lemma queue_batches_ok bs k : ∀ rest i n w, queuing bs k i w → drop i bs = rest → Forall batch_ready rest →
  next_request (k_chunks w) + Z.of_nat (length (concat (map chunks rest))) < size_modulus →
  n = Z.of_nat (length (of_workload k (k_chunks w))) → n < next_request (k_chunks w) →
  ∃ n' w', queue_batches path_of rest k i n w = Ret (n', w') ∧ queuing bs k (i + length rest) w' ∧ k_dead w' = k_dead w ∧
    n' = Z.of_nat (length (of_workload k (k_chunks w'))) ∧ n' < size_modulus.
Proof.
  induction rest as [|b rest IH]; intros i n w Hq Hdrop Hready Hroom Hn Hlt; simpl.
  { exists n, w. rewrite Nat.add_0_r. split_and!; try done. simpl in Hroom. lia. }
  apply Forall_cons in Hready as [Hb Hready]. simpl in Hroom. rewrite length_app in Hroom.
  assert (Hbi : bs !! i = Some b).
  { rewrite <- (Nat.add_0_r i), <- lookup_drop, Hdrop. done. }
  destruct (queuing_step bs k i w b Hq Hbi Hb) as (w1 & E1 & Hq1 & Hd1 & Hnext & Hlen); [lia|].
  destruct (answer_zero_sized_ranges path_of k i w) as [w0|]; [|done]. cbn [obind] in E1 |- *. rewrite E1. cbn [obind].
  rewrite add64_small by mlia.
  destruct (IH (S i) (n + Z.of_nat (length (chunks b))) w1 Hq1) as (n' & w' & -> & Hq' & Hd' & Hn' & Hlt'); [|done|lia..|].
  { rewrite <- (Nat.add_1_r i), <- drop_drop, Hdrop. done. }
  exists n', w'. split; [done|]. replace (i + S (length rest))%nat with (S i + length rest)%nat by lia.
  split_and!; try done. by rewrite Hd'.
Qed.
(** The books once the whole workload is queued and counted. *)
Lemma queued_tracked bs k w wl n : queuing bs k (length bs) w → assoc k (k_inflight w) = Some wl →
  n = Z.of_nat (length (of_workload k (k_chunks w))) → 0 < n < size_modulus →
  tracked (with_inflight (assoc_set k (set_remaining wl n) (k_inflight w)) w).
Proof.
  intros [[[a Q1] Q1'] Q2 Q3 Q4 (wl0 & Hwl0 & [E1 E2 E3 E4 E5]) Q6 Q7 Q8 Q9] Hwl Hn Hpos.
  assert (wl0 = wl) as -> by congruence.
  split; simpl; rewrite ?assoc_set_keys; try done.
  - split; simpl; [|done]. exists a. by rewrite (mine_set_workload _ wl), (assoc_set_same _ _ _ Hwl).
  - intros k' wl'. destruct (decide (k' = k)) as [->|Hne].
    + rewrite assoc_set_eq by eauto. intros [= <-]. split; try done. intros i b j task Hb Hj Hf.
      apply (E4 i b j task); [|done..]. rewrite <- E3. by eapply lookup_lt_Some.
    + rewrite assoc_set_ne by done. by apply Q4.
  - intros id e He. destruct (Q6 _ _ He) as [H1 (wl1 & b & H2 & H3 & H4)]. split; [done|].
    destruct (decide (workload_id e = k)) as [Hk|Hne].
    + exists (set_remaining wl n), b. rewrite Hk in H2 |- *. rewrite assoc_set_eq by eauto.
      assert (wl1 = wl) as -> by congruence. done.
    + exists wl1, b. by rewrite assoc_set_ne.
Qed.

(** A workload with no chunk is finished at once. *)
Lemma queued_finalized bs k w wl : queuing bs k (length bs) w → assoc k (k_inflight w) = Some wl →
  length (of_workload k (k_chunks w)) = 0%nat →
  ∃ w', finalize k Success (with_inflight (assoc_set k (set_remaining wl 0) (k_inflight w)) w) = Ret w' ∧ running [] [] w'.
Proof.
  intros [[[a Q1] Q1'] Q2 Q3 Q4 (wl0 & Hwl0 & [E1 E2 E3 E4 E5]) Q6 Q7 Q8 Q9] Hwl H0.
  assert (wl0 = wl) as -> by congruence. set (wl' := set_remaining wl 0). set (w1 := with_inflight _ w).
  assert (Hk1 : assoc k (k_inflight w1) = Some wl') by (simpl; by rewrite assoc_set_eq by eauto).
  destruct (finalize_spec owner log0 others k Success wl' w1) as (x & bs' & -> & Ha'); [|done|done| |].
  { split; simpl; [|done]. exists a. by rewrite (mine_set_workload _ wl), (assoc_set_same _ _ _ Hwl). }
  { right. apply (covered_nothing_left (k_chunks w) k); [|done]. intros i b j task Hb Hj Hf.
    apply (E4 i b j task); [|done..]. rewrite <- E3. by eapply lookup_lt_Some. }
  eexists. split; [done|]. apply running_placed. split; [|by eapply placed_ext].
  assert (Hkeys : map fst (assoc_set k wl' (k_inflight w)) = map fst (k_inflight w)) by apply assoc_set_keys.
  assert (Hsub := assoc_remove_sublist k (assoc_set k wl' (k_inflight w))). rewrite Hkeys in Hsub.
  split; simpl; try done.
  - by eapply sublist_NoDup.
  - destruct Q3 as [Q30 Q3]. split; [done|]. rewrite Forall_forall in Q3 |- *. intros k' Hk'. apply Q3. by eapply elem_of_sublist.
  - intros k' wl1. destruct (decide (k' = k)) as [->|Hne].
    + by rewrite assoc_remove_eq by (by rewrite Hkeys).
    + rewrite assoc_remove_ne, assoc_set_ne by done. by apply Q4.
  - intros id e He. destruct (Q6 _ _ He) as [H1 (wl1 & b & H2 & H3)]. split; [done|].
    exists wl1, b. pose proof (of_workload_nil _ _ H0 _ _ He) as Hne. by rewrite assoc_remove_ne, assoc_set_ne.
Qed.
End Enqueue.

Section Accept.
Context {R E D F : Type} `{!Responder R, !IoEngine E, !EngineLaws E, !DeviceClient D, !ClientLaws D, !Files F}.
Context (path_of : Z → Z → text).
Context (owner : nat → Z) (log0 : list Response).

Local Abbreviation worker := (worker (R := R) (E := E) (D := D) (F := F)).
Implicit Types (w : worker).
Local Abbreviation running others := (running_but owner log0 others [] [] []).

(** The books do not depend on which batches are elsewhere, as long as all are accounted for. *)
Lemma tracked_elsewhere others others' w w' : tracked owner log0 others w → answering owner log0 others' w' →
  k_inflight w' = k_inflight w → k_next w' = k_next w → k_chunks w' = k_chunks w → k_client w' = k_client w →
  k_scratch w' = k_scratch w → tracked owner log0 others' w'.
Proof. intros [T1 T2 T3 T4 T5 T6 T7] Ha E1 E2 E3 E4 E5. split; rewrite ?E1, ?E2, ?E3, ?E4, ?E5; done. Qed.

Lemma adopt_block_same n w : ∃ b m, adopt_block n w = mkWorker b m (k_refused w) (k_dead w) (k_error w)
  (k_scratch w) (k_copies w) (k_waiting w) (k_chunks w) (k_inflight w) (k_next w) (k_issued w) (k_stalled w) (k_queue w)
  (k_counters w) (k_engine w) (k_client w) (k_files w) (k_world w) (retired w) (k_ends w).
Proof.
  destruct w. unfold adopt_block, with_block. simpl. repeat case_match; by eexists _, _.
Qed.

Lemma assoc_snoc_ne {A} k k' (x : A) l : k' ≠ k → assoc k' (l ++ [(k, x)]) = assoc k' l.
Proof.
  intros Hne. induction l as [|[k2 y] l IH]; simpl; [by rewrite (proj2 (Z.eqb_neq k' k))|]. by rewrite IH.
Qed.

Lemma assoc_app_Some {A} k (x : A) l1 l2 : assoc k l1 = Some x → assoc k (l1 ++ l2) = Some x.
Proof. induction l1 as [|[k2 y] l1 IH]; simpl; [done|]. by destruct (k =? k2). Qed.

(** A dead worker answers a new workload at once with what killed it. *)
Lemma report_dead others v w : answering owner log0 (wl_batches v ++ others) w → k_error w ≠ Success →
  ∃ bs x, report_workload (k_error w) (mkInflightWorkload v [] 0 ∅) (k_world w) = Ret (bs, x) ∧
    answering owner log0 others (with_retired bs (with_world x w)).
Proof.
  intros [[a Hs] Hr] Hc. unfold report_workload. simpl.
  destruct (report_batches_spec owner log0 (k_error w) ∅ (wl_batches v) a [] (others ++ retired w ++ mine (k_inflight w)) (k_world w))
    as (bs & x & a' & -> & Hd & Hs'); [by rewrite <- app_assoc in Hs|by intros f c|by left|].
  exists bs, x. split; [done|]. split; simpl; [|by apply Forall_app].
  exists a'. eapply system_ok_perm; [|exact Hs']. solve_Permutation.
Qed.

Lemma enqueue_ended others v w : ended owner log0 (wl_batches v ++ others) w → k_dead w = true → k_error w ≠ Success →
  ∃ bs x, enqueue path_of v w = Ret (with_retired bs (with_world x w)) ∧
    ended owner log0 others (with_retired bs (with_world x w)).
Proof.
  intros He Hd Hc. unfold enqueue. rewrite Hd.
  destruct (report_dead others v w (en_answering _ _ _ _ He) Hc) as (bs & x & -> & Ha).
  exists bs, x. split; [done|]. destruct He. by split.
Qed.

(** Taking on a workload whose batches were elsewhere. *)
Lemma enqueue_ok others v w :
  running (wl_batches v ++ others) w → Forall batch_ready (wl_batches v) → k_next w + 1 < size_modulus →
  next_request (k_chunks w) + Z.of_nat (length (concat (map chunks (wl_batches v)))) < size_modulus →
  ∃ w', enqueue path_of v w = Ret w' ∧ running others w'.
Proof.
  intros Hr Hready Hroom1 Hroom2. unfold enqueue. rewrite (rn_alive _ _ _ _ _ _ _ Hr).
  destruct (adopt_block_same (direct_block v) w) as (blk & m & ->). cbn [k_next k_inflight with_next].
  apply running_placed in Hr as [[[[a T1] T1'] T2 [T30 T3] T4 T5 T6 T7] Hp].
  assert (Hnew : assoc (k_next w) (k_inflight w) = None).
  { apply assoc_None. intros Hin. rewrite Forall_forall in T3. specialize (T3 _ Hin). simpl in T3. lia. }
  rewrite ASSERT_true by (by apply bool_decide_true). cbn [obind].
  rewrite add64_small by mlia. set (k := k_next w) in *.
  set (wl := mkInflightWorkload v _ 0 ∅). set (w1 := with_inflight _ _).
  assert (Hin1 : k_inflight w1 = k_inflight w ++ [(k, wl)]) by done.
  assert (Hq : queuing owner log0 others (wl_batches v) k 0 w1).
  { split; rewrite ?Hin1; try done.
    - split; [exists a; rewrite Hin1, mine_app|done]. eapply system_ok_perm; [|exact T1]. simpl.
      change (mine [(k, wl)]) with (wl_batches v ++ []). solve_Permutation.
    - rewrite map_app. apply NoDup_app. split; [done|]. split; [|apply NoDup_singleton].
      intros x Hx ->%list_elem_of_singleton. by apply assoc_None in Hnew.
    - change (k_next w1) with (k + 1). split; [lia|]. rewrite map_app. apply Forall_app. split.
      + eapply Forall_impl; [exact T3|]. simpl. intros; subst k; lia.
      + constructor; [simpl; lia|constructor].
    - intros k' wl' Hne. rewrite assoc_snoc_ne by done. apply T4.
    - exists wl. split; [rewrite assoc_app_None by done; simpl; by rewrite Z.eqb_refl|].
      split; try done; [by simpl; rewrite length_replicate|intros; lia].
    - intros id e He. destruct (T5 _ _ He) as [H1 (wl' & b & H2 & H3 & H4)]. split; [done|].
      exists wl', b. by rewrite (assoc_app_Some _ wl').
    - by eapply placed_ext. }
  assert (Hof : length (of_workload k (k_chunks w1)) = 0%nat).
  { change (k_chunks w1) with (k_chunks w). destruct (of_workload k (k_chunks w)) as [|id l] eqn:Ho; [done|].
    assert (Hid : id ∈ of_workload k (k_chunks w)) by (rewrite Ho; left).
    apply elem_of_gather in Hid as (id' & e & He & Hin). destruct (Z.eqb_spec (workload_id e) k) as [Hk|_]; [|by apply not_elem_of_nil in Hin].
    destruct (T5 _ _ He) as [_ (wl' & b & H2 & _)]. by rewrite Hk, Hnew in H2. }
  destruct (queue_batches_ok path_of owner log0 others (wl_batches v) k (wl_batches v) 0 0 w1 Hq) as (n & w2 & -> & Hq2 & _ & Hn & Hlt);
    [done|done|done|by rewrite Hof|destruct Hp; simpl; lia|]. cbn [obind].
  rewrite Nat.add_0_l in Hq2. destruct (qg_new _ _ _ _ _ _ _ Hq2) as (wl2 & Hwl2 & _). rewrite Hwl2.
  destruct (Z.eqb_spec n 0) as [->|Hne].
  - eapply queued_finalized; eauto. lia.
  - eexists. split; [done|]. apply running_placed. split; [eapply queued_tracked; eauto; lia|].
    eapply placed_ext; [exact (qg_placed _ _ _ _ _ _ _ Hq2)|done..].
Qed.
End Accept.
