(* ===== verification/AsyncIoLife.v ===== *)
(** The life of an asynchronous worker, as the pool drives it: workloads come in, chunks are submitted,
    turns are taken, and the pool may stop at any point, while other workers answer batches of their own.

    [life] interleaves those at the granularity of a turn; utils/threadpool calls [drain] only on a worker
    that is not idle, and hands over no workload once it is stopping. *)

From S2P Require Import Prelude ResponseCode Text SharedQueue Task ChunkSplitter Batch Workload.
From S2P Require Import CompletionMapper ScratchPool CapacityQueue InflightChunks DirectPass IoEngine Reporting AsyncIoWorker.
From S2P Require Import AsyncIoScenario AsyncIoAnswers AsyncIoTracking AsyncIoRunning AsyncIoTurn AsyncIoEnqueue.

Section Life.
Context {R E D F : Type} `{!Responder R, !IoEngine E, !EngineLaws E, !DeviceClient D, !ClientLaws D, !Files F}.
Context (direct_strategy register_buffers : bool) (path_of : Z → Z → text).
Context (owner : nat → Z) (log0 : list Response).

Local Abbreviation worker := (worker (R := R) (E := E) (D := D) (F := F)).
Implicit Types (w : worker).

(** The pool's stop flag, the batches that are not this worker's, and the worker. *)
Record state := mkState { stopping : bool; elsewhere : list Batch; the_worker : worker }.

(** A worker whose window just came up. *)
Record new_worker w : Prop := {
  nw_tables : k_chunks w = new_table ∧ k_inflight w = [] ∧ k_next w = 1;
  nw_queue : ∃ depth, k_queue w = make_capacity_queue depth;
  nw_idle : k_waiting w = [] ∧ k_copies w = 0 ∧ k_issued w = 0 ∧ retired w = [];
  nw_engine : staged_reads (k_engine w) = [] ∧ issued_reads (k_engine w) = [];
  nw_client : copying (k_client w) = [] ∧ lent (k_client w) = [];
  nw_alive : k_dead w = false }.

Definition start (s : state) : Prop :=
  new_worker (the_worker s) ∧
  ∃ answered, system_ok owner log0 answered (elsewhere s) (k_world (the_worker s)).

(** The ids left for workload [v]. *)
Definition room_for (v : Workload) w : Prop :=
  k_next w + 1 < size_modulus ∧
  next_request (k_chunks w) + Z.of_nat (length (concat (map chunks (wl_batches v)))) < size_modulus.

Inductive step : state → state → Prop :=
| step_enqueue v bs w w' :
    Forall batch_ready (wl_batches v) → room_for v w → enqueue path_of v w = Ret w' →
    step (mkState false (wl_batches v ++ bs) w) (mkState false bs w')
| step_pump stop bs w w' :
    pump direct_strategy register_buffers path_of w = Ret w' → step (mkState stop bs w) (mkState stop bs w')
| step_drain stop bs w w' :
    worker_idle w = false → drain_batch direct_strategy register_buffers path_of stop w = Ret w' →
    step (mkState stop bs w) (mkState stop bs w')
| step_stop stop bs w : step (mkState stop bs w) (mkState true bs w)
| step_elsewhere stop bs bs' w x :
    (∃ answered, system_ok owner log0 answered (bs' ++ retired w ++ mine (k_inflight w)) x) →
    step (mkState stop bs w) (mkState stop bs' (with_world x w)).

Inductive life : state → Prop :=
| life_start s : start s → life s
| life_step s s' : life s → step s s' → life s'.

(** At work, or ended because the engine died or the pool stops. *)
Definition sound (s : state) : Prop :=
  let w := the_worker s in
  running_but owner log0 (elsewhere s) [] [] [] w ∨
  (ended owner log0 (elsewhere s) w ∧ (stopping s = true ∨ k_dead w = true) ∧ (k_dead w = true → k_error w ≠ Success)).

Lemma start_sound s : start s → sound s.
Proof.
  intros [[(E1 & E2 & E3) [n E4] (E5 & E6 & E7 & E8) [E9 E10] [E11 E12] E13] [a Hs]]. left. apply running_placed.
  assert (Hnone : ∀ id e, find id (k_chunks (the_worker s)) ≠ Some e) by (intros id e; by rewrite E1).
  split; split; unfold queued_ids, engine_ids; rewrite ?E1, ?E2, ?E3, ?E4, ?E5, ?E6, ?E7, ?E9, ?E10, ?E11, ?E12; try done.
  - split; [|by rewrite E8]. exists a. rewrite E2, E8. simpl. by rewrite app_nil_r.
  - constructor.
Qed.

Lemma running_elsewhere bs bs' w x : running_but owner log0 bs [] [] [] w →
  (∃ answered, system_ok owner log0 answered (bs' ++ retired w ++ mine (k_inflight w)) x) →
  running_but owner log0 bs' [] [] [] (with_world x w).
Proof.
  intros Hr Hs. apply running_placed in Hr as [Ht Hp]. apply running_placed. split; [|by eapply placed_ext].
  eapply tracked_elsewhere; try done. destruct (tk_answering _ _ _ _ Ht). by split.
Qed.

Lemma ended_idle bs w : ended owner log0 bs w → worker_idle w = true.
Proof.
  intros [_ _ _ [H1 H2] H3 (_ & H4 & _) _]. unfold worker_idle, has_deferred_work, CapacityQueue.idle, CapacityQueue.empty.
  by rewrite H1, H2, H3, H4.
Qed.

Lemma step_sound s s' : sound s → step s s' → sound s'.
Proof.
  intros Hs Hst. destruct Hst as [v bs w w' Hready [Hr1 Hr2] E1|stop bs w w' E1|stop bs w w' Hidle E1|stop bs w|stop bs bs' w x Hx];
    unfold sound in *; simpl in *.
  - destruct Hs as [Hr|(He & [?|Hd] & Herr)]; [left|done|right].
    + destruct (enqueue_ok path_of owner log0 bs v w Hr Hready Hr1 Hr2) as (w2 & E2 & Hr').
      rewrite E1 in E2. by injection E2 as ->.
    + destruct (enqueue_ended path_of owner log0 bs v w He Hd (Herr Hd)) as (bs2 & x & E2 & He').
      rewrite E1 in E2. injection E2 as ->. split; [exact He'|]. split; [by right|exact Herr].
  - destruct Hs as [Hr|Hs]; [left|right].
    + destruct (pump_ok direct_strategy register_buffers path_of owner log0 bs w Hr) as (w2 & E2 & Hr').
      rewrite E1 in E2. by injection E2 as ->.
    + rewrite (pump_ended _ _ _ _ _ _ _ (proj1 Hs)) in E1. by injection E1 as <-.
  - destruct Hs as [Hr|[He _]]; [|by rewrite (ended_idle _ _ He) in Hidle].
    destruct (drain_batch_ok direct_strategy register_buffers path_of owner log0 bs stop w Hr) as (w2 & E2 & Hturn & _).
    rewrite E1 in E2. injection E2 as ->. destruct Hturn as [Hr'|(He & _ & H1 & H2)]; [by left|by right].
  - destruct Hs as [Hr|(He & _ & H)]; [by left|right]. auto.
  - destruct Hs as [Hr|([Ha ? ? ? ? ? ?] & H)]; [left; by eapply running_elsewhere|right].
    split; [|done]. split; try done. destruct Ha. by split.
Qed.

Lemma life_sound s : life s → sound s.
Proof. induction 1; [by apply start_sound|by eapply step_sound]. Qed.
Lemma sound_idle s : sound s → worker_idle (the_worker s) = true →
  answering owner log0 (elsewhere s) (the_worker s) ∧ k_inflight (the_worker s) = [].
Proof.
  intros [Hr|(He & _)] Hidle; [|by destruct He].
  split; [apply (tk_answering _ _ _ _ (rn_tracked _ _ _ _ _ _ _ Hr))|by apply (idle_owes_nothing owner log0 (elsewhere s))].
Qed.

(** C7: no handler of the asynchronous worker ever throws: whatever the engine, the device client, the
    file system and the other workers do within their promises, in every state the pool can bring it to,
    taking on a workload, submitting, and taking a turn all return - so no ASSERT of the worker or of the
    chunk table fires, none of its indexings is out of bounds, and the waits of a teardown end. *)
Theorem worker_never_throws s : life s →
  let w := the_worker s in
  (∀ v bs, stopping s = false → elsewhere s = wl_batches v ++ bs → Forall batch_ready (wl_batches v) → room_for v w →
     ∃ w', enqueue path_of v w = Ret w') ∧
  (∃ w', pump direct_strategy register_buffers path_of w = Ret w') ∧
  (worker_idle w = false → ∃ w', drain_batch direct_strategy register_buffers path_of (stopping s) w = Ret w').
Proof.
  intros Hs%life_sound w. split; [|split].
  - intros v bs Hstop He Hready [H1 H2]. destruct Hs as [Hr|(Hend & Hd & Herr)].
    + rewrite He in Hr. destruct (enqueue_ok path_of owner log0 bs v w Hr Hready H1 H2) as (w' & -> & _). by exists w'.
    + rewrite He in Hend. destruct Hd as [Hd|Hd]; [congruence|].
      destruct (enqueue_ended path_of owner log0 bs v w Hend Hd (Herr Hd)) as (bs' & x & -> & _). by eexists.
  - destruct Hs as [Hr|(Hend & _)].
    + destruct (pump_ok direct_strategy register_buffers path_of owner log0 _ w Hr) as (w' & -> & _). by exists w'.
    + rewrite (pump_ended _ _ _ _ _ _ _ Hend). by exists w.
  - intros Hidle. destruct Hs as [Hr|(Hend & _)].
    + destruct (drain_batch_ok direct_strategy register_buffers path_of owner log0 _ (stopping s) w Hr) as (w' & -> & _). by exists w'.
    + subst w. by rewrite (ended_idle _ _ Hend) in Hidle.
Qed.

(** C6: an idle worker owes nothing: whenever the worker reports idle it holds no workload, every batch
    it took on has all its tasks finished, and if the batches elsewhere are finished too, the responder
    holds exactly one response for every request - none lost, none repeated - with its final result. *)
Theorem idle_worker_owes_nothing s : life s → worker_idle (the_worker s) = true →
  k_inflight (the_worker s) = [] ∧ Forall all_done (retired (the_worker s)) ∧
  (Forall all_done (elsewhere s) → let x := k_world (the_worker s) in
   ∃ answered l, responder_log (responder x) = log0 ++ l ∧ Forall2 (logged (requests x) owner) answered l ∧
     NoDup answered ∧ ∀ k, k ∈ answered ↔ is_Some (requests x !! k)).
Proof.
  intros Hs%life_sound Hidle. destruct (sound_idle s Hs Hidle) as [[[a Ha] Hd] Hin]. split_and!; [done|done|].
  intros He x. rewrite Hin in Ha. exists a. apply (system_answered owner log0 a _ _ Ha).
  apply Forall_app. split; [done|]. by apply Forall_app.
Qed.

(** C8: stopping ends everything in one turn: the turn a stopping pool takes returns, leaves the worker
    idle with no workload, no buffer lent and every batch it ever took on finished.  And it waits before it reports: at
    the moment each workload was failed, the engine had no read issued to the kernel any more - unless the engine itself failed
    to say what became of its reads. *)
Theorem stop_ends_everything s : life s → stopping s = true → worker_idle (the_worker s) = false →
  ∃ w', drain_batch direct_strategy register_buffers path_of true (the_worker s) = Ret w' ∧
    worker_idle w' = true ∧ k_inflight w' = [] ∧ Forall all_done (retired w') ∧ live (k_chunks w') = ∅ ∧
    lent (k_client w') = [] ∧ quiet w' ∧
    ∃ more, k_ends w' = k_ends (the_worker s) ++ more ∧ Forall (λ x, x.1 = Success ∨ engine_quiet x.2) more.
Proof.
  intros Hs%life_sound Hstop Hidle. destruct Hs as [Hr|(Hend & _)]; [|by rewrite (ended_idle _ _ Hend) in Hidle].
  destruct (drain_batch_ok direct_strategy register_buffers path_of owner log0 _ true _ Hr) as (w' & -> & _ & He).
  destruct (He eq_refl) as (He' & Hq & Hends). exists w'. pose proof (ended_idle _ _ He').
  destruct He' as [[_ Ha] ? ? _ _ (_ & _ & ?) _]. by split_and!.
Qed.
End Life.

(** ** Witnesses: the worker of [AsyncIoScenario], from its first workload to idle *)

Definition first_state (results : list (list Z)) : state (R := queue) (E := ScriptedEngine) (D := unit) (F := Z) :=
  mkState false [two_chunks] (direct_worker results).

Lemma two_chunks_ready : batch_ready two_chunks.
Proof.
  split.
  - intros j task Hj Hb. destruct j as [|[|j]]; [..|done].
    + exists (mkChunk 0 512 4096 0 1). split; [left|vm_compute; lia].
    + exists (mkChunk 512 512 4608 1 1). split; [right; left|vm_compute; lia].
  - repeat constructor; vm_compute; lia.
Qed.

Local Abbreviation worker_life := (life true false one_file (λ _, 7) []).

Lemma first_life results : worker_life (first_state results).
Proof.
  apply life_start. split.
  - split; [done|by eexists|done|done|done|done].
  - eexists. apply (fresh_ok _ _ _ two_chunks_fresh).
Qed.

Definition result (o : outcome (worker (R := queue) (E := ScriptedEngine) (D := unit) (F := Z))) :=
  match o with Ret w => w | Throw _ => direct_worker [] end.

(** Taken on, submitted, and after one and two turns. *)
Definition accepted := result (enqueue one_file two_chunk_workload (direct_worker [])).
Definition submitted := result (pump true false one_file accepted).
Definition one_turn := result (drain_batch true false one_file false submitted).
Definition two_turns := result (drain_batch true false one_file false one_turn).

Lemma submitted_life : worker_life (mkState false [] submitted).
Proof.
  eapply life_step; [eapply life_step; [apply (first_life [])|]|].
  - apply (step_enqueue _ _ _ _ _ two_chunk_workload [] _ accepted);
      [apply Forall_singleton, two_chunks_ready|split; reflexivity|vm_compute; reflexivity].
  - apply step_pump. vm_compute. reflexivity.
Qed.

Lemma two_turns_life : worker_life (mkState false [] two_turns).
Proof.
  eapply life_step; [eapply life_step; [apply submitted_life|]|].
  - apply (step_drain _ _ _ _ _ _ _ _ one_turn); vm_compute; reflexivity.
  - apply (step_drain _ _ _ _ _ _ _ _ two_turns); vm_compute; reflexivity.
Qed.

Lemma worker_never_throws_witness :
  ∃ w', enqueue one_file two_chunk_workload (direct_worker []) = Ret w'.
Proof.
  destruct (worker_never_throws true false one_file (λ _, 7) [] (first_state []) (first_life [])) as [H _].
  apply (H two_chunk_workload []); [reflexivity|reflexivity| |split; reflexivity].
  apply Forall_singleton, two_chunks_ready.
Defined.

Lemma idle_worker_owes_nothing_witness :
  k_inflight two_turns = [] ∧
  responder_log (responder (k_world two_turns)) = [mkResponse 7 0 0 Success; mkResponse 7 0 1 Success] ∧
  ∃ answered, NoDup answered ∧ ∀ k, k ∈ answered ↔ is_Some (requests (k_world two_turns) !! k).
Proof.
  destruct (idle_worker_owes_nothing true false one_file (λ _, 7) [] (mkState false [] two_turns) two_turns_life)
    as (H1 & _ & H2); [vm_compute; reflexivity|].
  split; [exact H1|]. split; [vm_compute; reflexivity|].
  destruct (H2 (Forall_nil_2 _)) as (answered & l & _ & _ & Hn & Ha). exists answered. exact (conj Hn Ha).
Defined.

(** The pool stops with one chunk read and the other's read at the kernel: the failure is reported when that read is back. *)
Lemma stop_ends_everything_witness :
  length (issued_reads (k_engine one_turn)) = 1%nat ∧
  ∃ w', drain_batch true false one_file true one_turn = Ret w' ∧ worker_idle w' = true ∧
    map (λ x, (x.1, issued_reads x.2)) (k_ends w') = [(FinishedError, [])] ∧
    (∃ more, k_ends w' = k_ends one_turn ++ more ∧ Forall (λ x, x.1 = Success ∨ engine_quiet x.2) more) ∧
    responder_log (responder (k_world w')) = [mkResponse 7 0 0 Success; mkResponse 7 0 1 FinishedError].
Proof.
  split; [vm_compute; reflexivity|].
  destruct (stop_ends_everything true false one_file (λ _, 7) [] (mkState true [] one_turn)) as (w' & E & Hi & _ & _ & _ & _ & _ & Hends).
  - eapply life_step; [eapply life_step; [apply submitted_life|]|apply step_stop].
    apply (step_drain _ _ _ _ _ _ _ _ one_turn); vm_compute; reflexivity.
  - reflexivity.
  - vm_compute. reflexivity.
  - exists w'. split; [exact E|]. split; [exact Hi|].
    assert (H : map (λ x, (x.1, issued_reads x.2)) (k_ends w') = [(FinishedError, [])] ∧
      responder_log (responder (k_world w')) = [mkResponse 7 0 0 Success; mkResponse 7 0 1 FinishedError]).
    { clear Hends. revert E. vm_compute. by intros [= <-]. }
    exact (conj (proj1 H) (conj Hends (proj2 H))).
Defined.
