(* ===== verification/ObjectStorageRetry.v ===== *)
(** The retry policy of an object storage worker (streamer/impl/object_storage_worker/object_storage_retry):
    a deadline per chunk from its first attempt, jittered backoff, and the queue of delayed retries.

    Times and durations are ticks of the steady clock.  The jitter drawn for a delay is an argument. *)

From stdpp Require Import sorting.
From S2P Require Import Prelude.

(** ** State *)

Record RetryState := mkRetryState { rs_deadline : option Z; rs_count : Z }.

Definition fresh_attempt : RetryState := mkRetryState None 0.

(** [rt_delayed] is the multimap, in time order. *)
Record Retry := mkRetry { rt_timeout : Z; rt_delayed : list (Z * Z) }.

Definition new_retry (timeout : Z) : Retry := mkRetry timeout [].

(** ** Operations *)

Definition begin_attempt (st : RetryState) (now : Z) (r : Retry) : bool * RetryState :=
  let st := match rs_deadline st with
            | None => if rt_timeout r >? 0 then mkRetryState (Some (now + rt_timeout r)) (rs_count st) else st
            | Some _ => st
            end in
  ((rs_count st =? 0) || match rs_deadline st with Some d => now <? d | None => false end, st).

(** emplace puts equal keys in order of arrival. *)
Fixpoint emplace (t h : Z) (l : list (Z * Z)) : list (Z * Z) :=
  match l with
  | [] => [(t, h)]
  | (t', h') :: l => if t <? t' then (t, h) :: (t', h') :: l else (t', h') :: emplace t h l
  end.

(** [delay] is what the generator answers for the next count; [None] leaves everything as it was. *)
Definition schedule (st : RetryState) (handle now : Z) (delay : Z → Z) (r : Retry) : option (Z * Z) * RetryState * Retry :=
  match rs_deadline st with
  | None => (None, st, r)
  | Some d =>
      if now >=? d then (None, st, r)
      else
        let next := add32 (rs_count st) 1 in
        let retry_at := now + delay next in
        if retry_at >=? d then (None, st, r)
        else (Some (delay next, next), mkRetryState (rs_deadline st) next, mkRetry (rt_timeout r) (emplace retry_at handle (rt_delayed r)))
  end.

Definition next_due (r : Retry) : option Z := fst <$> head (rt_delayed r).

Definition pop_due (now : Z) (r : Retry) : option Z * Retry :=
  match rt_delayed r with
  | [] => (None, r)
  | (t, h) :: rest => if t >? now then (None, r) else (Some h, mkRetry (rt_timeout r) rest)
  end.

Definition retry_enabled (r : Retry) : bool := rt_timeout r >? 0.
Definition has_pending (r : Retry) : bool := negb (bool_decide (rt_delayed r = [])).
Definition clear_retry (r : Retry) : Retry := mkRetry (rt_timeout r) [].

(** The largest delay, in milliseconds: full jitter over exponential backoff draws from zero to this. *)
Definition retry_upper_ms (retry_count : Z) : Z :=
  let shift := Z.min (if retry_count >? 0 then retry_count - 1 else 0) 4 in
  Z.min 1000 (Z.shiftl 100 shift).

(** ** The queue keeps the time order, and arrival order at equal times *)

Definition in_time : Z * Z → Z * Z → Prop := λ x y, x.1 <= y.1.

Lemma emplace_perm t h l : emplace t h l ≡ₚ (t, h) :: l.
Proof.
  induction l as [|[t' h'] l IH]; simpl; [done|]. destruct (t <? t'); [done|]. rewrite IH. apply Permutation_swap.
Qed.

Lemma emplace_sorted t h l : StronglySorted in_time l → StronglySorted in_time (emplace t h l).
Proof.
  induction 1 as [|[t' h'] l Hl IH Hall]; simpl; [repeat constructor|]. destruct (Z.ltb_spec t t').
  - constructor; [by constructor|]. constructor; [unfold in_time; simpl; lia|].
    eapply Forall_impl; [exact Hall|]. unfold in_time. simpl. lia.
  - constructor; [done|]. rewrite emplace_perm. constructor; [unfold in_time; simpl; lia|done].
Qed.

(** What a delayed retry was promised: a time before its chunk's deadline. *)
Definition promised (deadline : Z → option Z) (r : Retry) : Prop :=
  StronglySorted in_time (rt_delayed r) ∧
  Forall (λ x, ∃ d, deadline x.2 = Some d ∧ x.1 < d) (rt_delayed r).

Lemma schedule_promised deadline st handle now delay r s st' r' :
  promised deadline r → deadline handle = rs_deadline st → schedule st handle now delay r = (s, st', r') →
  promised deadline r' ∧ rs_deadline st' = rs_deadline st ∧
  match s with
  | None => st' = st ∧ r' = r
  | Some (d, n) => n = add32 (rs_count st) 1 ∧ rs_count st' = n ∧ d = delay n ∧
      rt_delayed r' ≡ₚ (now + d, handle) :: rt_delayed r ∧ ∃ e, rs_deadline st = Some e ∧ now + d < e
  end.
Proof.
  intros [Hs Hf] Hd E. unfold schedule in E. destruct (rs_deadline st) as [e|] eqn:He; [|by injection E as <- <- <-].
  rewrite !Z.geb_leb in E. destruct (Z.leb_spec e now); [by injection E as <- <- <-|].
  destruct (Z.leb_spec e (now + delay (add32 (rs_count st) 1))) as [|Hlt]; injection E as <- <- <-; [done|].
  split; [|split; [done|]].
  - split; simpl; [by apply emplace_sorted|]. rewrite emplace_perm. constructor; [by exists e|done].
  - simpl. split; [done|]. split; [done|]. split; [done|]. split; [apply emplace_perm|by exists e].
Qed.

Lemma pop_due_promised deadline now r h r' : promised deadline r → pop_due now r = (h, r') →
  promised deadline r' ∧
  match h with
  | None => r' = r ∧ Forall (λ x, now < x.1) (rt_delayed r)
  | Some h => ∃ t, rt_delayed r = (t, h) :: rt_delayed r' ∧ t <= now
  end.
Proof.
  intros [Hs Hf] E. unfold pop_due in E. destruct (rt_delayed r) as [|[t x] rest] eqn:Hr.
  { injection E as <- <-. split; [unfold promised; by rewrite Hr|]. split; [done|constructor]. }
  apply StronglySorted_inv in Hs as [Hs Hall]. rewrite Z.gtb_ltb in E. destruct (Z.ltb_spec now t); injection E as <- <-.
  - split; [unfold promised; rewrite Hr; split; [by constructor|done]|]. split; [done|].
    constructor; [done|]. eapply Forall_impl; [exact Hall|]. unfold in_time. simpl. lia.
  - split; [split; [done|by inversion Hf]|]. simpl. by exists t.
Qed.

Lemma retry_upper_bound n : 0 <= n → 100 <= retry_upper_ms n <= 1000.
Proof.
  intros Hn. unfold retry_upper_ms. set (k := Z.min _ 4).
  assert (0 <= k <= 4) as Hk by (unfold k; rewrite Z.gtb_ltb; destruct (Z.ltb_spec 0 n); lia).
  assert (k = 0 ∨ k = 1 ∨ k = 2 ∨ k = 3 ∨ k = 4) as Hc by lia.
  by destruct Hc as [-> | [-> | [-> | [-> | ->]]]].
Qed.

(** ** One chunk's attempts *)

(** A chunk begins its first attempt; a failure schedules another, which waits in the queue until it is due and then begins, if
    it still may.  The lists are the times the retries were scheduled for and the times the attempts began, the option is
    the retry that waits; what is drawn for a delay, and what else is in the queue, is free at each step. *)
Inductive attempts (r : Retry) : RetryState → list Z → list Z → option Z → Prop :=
| at_first now st : begin_attempt fresh_attempt now r = (true, st) → attempts r st [] [now] None
| at_retry st planned begun handle failed delay queue s st' queue' due : attempts r st planned begun None →
    schedule st handle failed delay queue = (Some s, st', queue') → rt_delayed queue' ≡ₚ (due, handle) :: rt_delayed queue →
    attempts r st' (planned ++ [due]) begun (Some due)
| at_again st planned begun handle due queue queue' now st' : attempts r st planned begun (Some due) →
    rt_delayed queue = (due, handle) :: rt_delayed queue' → pop_due now queue = (Some handle, queue') →
    begin_attempt st now r = (true, st') → attempts r st' planned (begun ++ [now]) None.

(** The deadline that the first attempt set. *)
Definition deadline_of (r : Retry) (first : Z) : option Z := if rt_timeout r >? 0 then Some (first + rt_timeout r) else None.

Lemma schedule_before_deadline st handle failed delay queue s st' queue' due :
  schedule st handle failed delay queue = (Some s, st', queue') → rt_delayed queue' ≡ₚ (due, handle) :: rt_delayed queue →
  ∃ d, rs_deadline st = Some d ∧ rs_deadline st' = Some d ∧ due < d ∧ rs_count st' = add32 (rs_count st) 1.
Proof.
  unfold schedule. destruct (rs_deadline st) as [d|] eqn:Hd; [|done]. destruct (failed >=? d); [done|].
  rewrite Z.geb_leb. destruct (Z.leb_spec d (failed + delay (add32 (rs_count st) 1))) as [|Hlt]; [done|].
  intros [= <- <- <-]. simpl. rewrite emplace_perm. intros Hp. exists d. split_and!; [done|done| |done].
  apply (Permutation_app_inv_r _ [_] [_]) in Hp. apply Permutation_singleton_inj in Hp. injection Hp as <-. done.
Qed.

Lemma pop_due_time now queue queue' due handle : rt_delayed queue = (due, handle) :: rt_delayed queue' →
  pop_due now queue = (Some handle, queue') → due <= now.
Proof. unfold pop_due. intros -> E. rewrite Z.gtb_ltb in E. by destruct (Z.ltb_spec now due). Qed.

(** What the attempts so far keep. *)
Record attempts_ok (r : Retry) (st : RetryState) (planned begun : list Z) (waiting : option Z) (first : Z) (later due : list Z) : Prop := {
  ao_begun : begun = first :: later;
  ao_planned : planned = due ++ option_list waiting;
  ao_due : Forall2 Z.le due later;
  ao_count : rs_count st = Z.of_nat (length planned);
  ao_deadline : rs_deadline st = deadline_of r first;
  ao_before : Forall (λ t, 0 < rt_timeout r ∧ t < first + rt_timeout r) planned;
  ao_began : Forall (λ t, t < first + rt_timeout r) later }.

Lemma attempts_spec r st planned begun waiting : attempts r st planned begun waiting → Z.of_nat (length planned) < 2 ^ 32 →
  ∃ first later due, attempts_ok r st planned begun waiting first later due.
Proof.
  induction 1 as [now st E|st planned begun handle failed delay queue s st' queue' at_ _ IH Es Ep|
                  st planned begun handle at_ queue queue' now st' _ IH Eq Ed Eb]; intros Hlen.
  - exists now, [], []. unfold begin_attempt in E. simpl in E. unfold deadline_of.
    destruct (rt_timeout r >? 0) eqn:Ht; injection E as <-; split; simpl; unfold deadline_of; rewrite ?Ht; done || constructor.
  - rewrite length_app, Nat2Z.inj_add in Hlen. simpl length in Hlen.
    destruct IH as (first & later & due & [H1 H2 H3 H4 H5 H6 H7]); [lia|]. simpl in H2. rewrite app_nil_r in H2. subst due.
    destruct (schedule_before_deadline _ _ _ _ _ _ _ _ _ Es Ep) as (d & Hd & Hd' & Hlt & Hc).
    unfold deadline_of in H5. rewrite Hd, Z.gtb_ltb in H5. destruct (Z.ltb_spec 0 (rt_timeout r)) as [Ht|]; [|done]. injection H5 as ->.
    exists first, later, planned. split; try done.
    + rewrite Hc, H4, length_app. simpl. unwrap. lia.
    + unfold deadline_of. rewrite Z.gtb_ltb, (proj2 (Z.ltb_lt _ _) Ht). done.
    + apply Forall_app. split; [done|]. by constructor.
  - destruct IH as (first & later & due & [H1 H2 H3 H4 H5 H6 H7]); [done|]. simpl in H2.
    pose proof (pop_due_time _ _ _ _ _ Eq Ed) as Hdue.
    assert (Hpos : 0 < rt_timeout r ∧ rs_count st ≠ 0).
    { rewrite H2 in H6. apply Forall_app in H6 as [_ [[? _] _]%Forall_cons]. rewrite H4, H2, length_app. simpl. split; [done|lia]. }
    destruct Hpos as [Hpos Hne]. unfold begin_attempt in Eb. unfold deadline_of in *. rewrite Z.gtb_ltb in *.
    rewrite (proj2 (Z.ltb_lt _ _) Hpos) in H5. rewrite H5 in Eb. cbn in Eb.
    rewrite H5, (proj2 (Z.eqb_neq _ _) Hne) in Eb. cbn in Eb.
    destruct (Z.ltb_spec now (first + rt_timeout r)) as [Hn|]; [|done]. injection Eb as <-.
    exists first, (later ++ [now]), planned. split; try done.
    + by rewrite H1.
    + simpl. by rewrite app_nil_r.
    + rewrite H2. apply Forall2_app; [done|]. by constructor.
    + unfold deadline_of. by rewrite Z.gtb_ltb, (proj2 (Z.ltb_lt _ _) Hpos).
    + apply Forall_app. split; [done|]. by constructor.
Qed.

(** C29: a chunk is not retried past its deadline.  Its first attempt, however late, is allowed and starts the
    deadline, one timeout after it.  Every retry, also one that never gets to begin, is scheduled for a time before the
    deadline; the attempts begin in the order they were scheduled, none earlier than scheduled, and every one before the deadline, however
    late the queue lets it through; and with no timeout nothing is scheduled, so there is one attempt only.  (The count is
    32 bits wide: as long as it does not wrap, which would make a retry look like a first attempt.) *)
Theorem retries_before_the_deadline r st planned begun waiting :
  attempts r st planned begun waiting → Z.of_nat (length planned) < 2 ^ 32 →
  ∃ first later due, begun = first :: later ∧ planned = due ++ option_list waiting ∧
    Forall (λ t, t < first + rt_timeout r) planned ∧ Forall (λ t, t < first + rt_timeout r) later ∧ Forall2 Z.le due later ∧
    (rt_timeout r <= 0 → planned = [] ∧ later = []).
Proof.
  intros Ha Hlen. destruct (attempts_spec _ _ _ _ _ Ha Hlen) as (first & later & due & [H1 H2 H3 _ _ H6 H7]).
  exists first, later, due. split_and!; [done|done| |done|done|].
  - eapply Forall_impl; [exact H6|]. by intros t [_ ?].
  - intros Ht. destruct planned as [|t planned]; [|apply Forall_cons in H6 as [[? _] _]; lia]. split; [done|].
    symmetry in H2. apply app_eq_nil in H2 as [-> _]. by inversion H3.
Qed.

(** ** A chunk that fails three times: two retries begin, and it is too late for a third *)

Definition draw_100 (n : Z) : Z := 100 * n.

Lemma two_retries : attempts (new_retry 1000) (mkRetryState (Some 2000) 2) [1150; 1800] [1000; 1200; 1900] None.
Proof.
  apply (at_again _ (mkRetryState (Some 2000) 2) [1150; 1800] [1000; 1200] 7 1800 (mkRetry 1000 [(1800, 7)]) (new_retry 1000)); [|done..].
  apply (at_retry _ (mkRetryState (Some 2000) 1) [1150] [1000; 1200] 7 1600 draw_100 (new_retry 1000) (200, 2) _ (mkRetry 1000 [(1800, 7)]));
    [|done..].
  apply (at_again _ (mkRetryState (Some 2000) 1) [1150] [1000] 7 1150 (mkRetry 1000 [(1150, 7)]) (new_retry 1000)); [|done..].
  apply (at_retry _ (mkRetryState (Some 2000) 0) [] [1000] 7 1050 draw_100 (new_retry 1000) (100, 1) _ (mkRetry 1000 [(1150, 7)]));
    [|done..].
  by apply at_first.
Qed.

Lemma retries_before_the_deadline_witness :
  attempts (new_retry 1000) (mkRetryState (Some 2000) 2) [1150; 1800] [1000; 1200; 1900] None ∧
  (∃ first later due, [1000; 1200; 1900] = first :: later ∧ [1150; 1800] = due ++ option_list None ∧
     Forall (λ t, t < first + 1000) [1150; 1800] ∧ Forall2 Z.le due later) ∧
  schedule (mkRetryState (Some 2000) 2) 7 1920 draw_100 (new_retry 1000) = (None, mkRetryState (Some 2000) 2, new_retry 1000).
Proof.
  split; [exact two_retries|]. split; [|reflexivity].
  destruct (retries_before_the_deadline _ _ _ _ _ two_retries) as (first & later & due & H1 & H2 & H3 & _ & H4 & _); [reflexivity|].
  exists first, later, due. exact (conj H1 (conj H2 (conj H3 H4))).
Defined.
