(* ===== verification/ObjectStorageIo.v ===== *)
(** What an object storage worker relies on: its reader (streamer/impl/reader, over a storage plugin) and the
    copy path to the devices (streamer/impl/device_io), with the clock the retries go by.

    Each is a class of operations on a state of its own, which also decides how the backend, the driver and
    the other threads behave; its laws are the promises the source relies on.  The views are what the laws
    speak of: the reads the backend holds, the copies handed over, and the staging buffers that are out. *)

From S2P Require Import Prelude ResponseCode Text InflightChunks Workload.

(** One event of a response: the handle of the read, and how it ended. *)
Definition Event : Type := Z * ResponseCode.

(** [async_read] gets the location, the handle, the range (offset and length) and the destination; it
    returns the exception it threw, if it did.  [async_response] gets the most events wanted. *)
Class ObjectReader (B : Type) := {
  async_read : text → Z → Z → Z → Z → B → option exn * B;
  async_response : Z → B → ResponseCode * list Event * B;
  clock_now : B → Z * B;
  sleep_until : Z → B → B;
  draw_delay : B → Z → Z;
  reading : B → list Z }.

(** A read that was issued reports once.  A round hands out the events of some reads and may then say,
    with FinishedError events that belong to no read, that it has no more; a failed call reports nothing. *)
Class ReaderLaws (B : Type) `{!ObjectReader B} : Prop := {
  async_read_law location h offset bytes buffer r e r' : async_read location h offset bytes buffer r = (e, r') →
    reading r' ≡ₚ match e with Some _ => [] | None => [h] end ++ reading r;
  async_response_law most r code events r' : async_response most r = (code, events, r') →
    if decide (code = Success) then
      ∃ ended markers : list Event, events = ended ++ markers ∧ Forall (λ x, x.2 ≠ FinishedError) ended ∧
        Forall (λ x, x.2 = FinishedError) markers ∧ reading r ≡ₚ map fst ended ++ reading r'
    else reading r' = reading r;
  clock_law r : reading (clock_now r).2 = reading r;
  sleep_law t r : reading (sleep_until t r) = reading r }.

(** The writer opens and binds a device, the worker's own pool hands out buffers, the issuer takes a full
    one and reports on the worker's queue of finished copies; [pop_copy true] waits for one. *)
Class CopyPath (C : Type) := {
  open_device : Device → C → ResponseCode * C;
  bind_device : Device → C → ResponseCode * C;
  build_pool : Z → Z → C → C;
  acquire_buffer : C → ResponseCode * StagingBuffer * C;
  release_buffer : StagingBuffer → C → C;
  retire_buffer : StagingBuffer → ResponseCode → C → C;
  issue : Device → StagingBuffer → Z → Z → Z → C → C;
  pop_copy : bool → C → option Event * C;
  in_copy : C → list Z;
  held : C → list StagingBuffer }.

Class CopyLaws (C : Type) `{!CopyPath C} : Prop := {
  open_law d c code c' : open_device d c = (code, c') → in_copy c' = in_copy c ∧ held c' = held c;
  bind_law d c code c' : bind_device d c = (code, c') → in_copy c' = in_copy c ∧ held c' = held c;
  build_law bytes most c : in_copy (build_pool bytes most c) = in_copy c ∧ held (build_pool bytes most c) = held c;
  acquire_law c code b c' : acquire_buffer c = (code, b, c') →
    in_copy c' = in_copy c ∧
    held c' ≡ₚ (if decide (code = Success ∧ staging_valid b = true) then [b] else []) ++ held c;
  release_buffer_law b c l : held c ≡ₚ b :: l →
    in_copy (release_buffer b c) = in_copy c ∧ held (release_buffer b c) ≡ₚ l;
  retire_buffer_law b code c l : held c ≡ₚ b :: l →
    in_copy (retire_buffer b code c) = in_copy c ∧ held (retire_buffer b code c) ≡ₚ l;
  issue_law d b bytes destination h c l : held c ≡ₚ b :: l →
    in_copy (issue d b bytes destination h c) ≡ₚ h :: in_copy c ∧ held (issue d b bytes destination h c) ≡ₚ l;
  pop_copy_law wait c x c' : pop_copy wait c = (x, c') →
    held c' = held c ∧
    match x with
    | Some (h, _) => in_copy c ≡ₚ h :: in_copy c'
    | None => in_copy c' = in_copy c ∧ (wait = true → in_copy c = [])
    end }.
