(* ===== verification/ObjectStorageWorker.v ===== *)
(** The asynchronous worker of an object storage backend (streamer/impl/object_storage_worker): chunks become
    reads of the plugin, completions become responses, a failed read is tried again, and what a device is to
    get is read into a staging buffer and copied on.

    The state is the worker's once its window is up, that is after capacity(), which is in WindowBringUp.
    [ow_retired] is not in the code: it keeps the batches of the workloads the worker has finished with, so that
    what became of them can be stated.  Logging is left out. *)

From S2P Require Import Prelude ResponseCode Text SharedQueue Task ChunkSplitter Batch Workload.
From S2P Require Import CapacityQueue InflightChunks Reporting ObjectStorageRetry ObjectStorageIo.

(** ** State *)

Record ObjectChunk := mkObjectChunk { oc_handle : Z; oc_offset : Z; oc_bytesize : Z; oc_buffer : Z }.

(** A batch and a task are named by their indices. *)
Record TaskState := mkTaskState { ts_batch : nat; ts_task : nat; ts_error : ResponseCode }.

Record ChunkState := mkChunkState {
  cs_chunk : ObjectChunk; cs_first : nat; cs_count : Z; cs_retry : RetryState; cs_staging : StagingBuffer }.

Definition no_chunk : ChunkState := mkChunkState (mkObjectChunk 0 0 0 0) 0 0 fresh_attempt no_staging.

Record Inflight := mkInflight {
  oi_workload : Workload; oi_chunks : list ChunkState; oi_tasks : list TaskState;
  oi_errors : gmap Z ResponseCode; oi_remaining : Z }.

Definition CopyDepth : Z := 2.
Definition SaneWindowChunks : Z := 4096.

(** What the window is when the plugin does not say. *)
Definition unset_window : Z := size_modulus - 1.

Definition set_workload x (wl : Inflight) := mkInflight x (oi_chunks wl) (oi_tasks wl) (oi_errors wl) (oi_remaining wl).
Definition set_chunks x (wl : Inflight) := mkInflight (oi_workload wl) x (oi_tasks wl) (oi_errors wl) (oi_remaining wl).
Definition set_task_states x (wl : Inflight) := mkInflight (oi_workload wl) (oi_chunks wl) x (oi_errors wl) (oi_remaining wl).
Definition set_errors x (wl : Inflight) := mkInflight (oi_workload wl) (oi_chunks wl) (oi_tasks wl) x (oi_remaining wl).
Definition set_remaining x (wl : Inflight) := mkInflight (oi_workload wl) (oi_chunks wl) (oi_tasks wl) (oi_errors wl) x.

Definition set_batch (i : nat) (b : Batch) (wl : Inflight) : Inflight :=
  let v := oi_workload wl in
  set_workload (mkWorkload (<[i := b]> (wl_batches v)) (wl_object_storage v) (wl_device v) (direct_block v)) wl.

Definition set_chunk (i : nat) (cs : ChunkState) (wl : Inflight) : Inflight := set_chunks (<[i := cs]> (oi_chunks wl)) wl.

Definition set_error (i : nat) (code : ResponseCode) (wl : Inflight) : Inflight :=
  set_task_states (alter (λ ts, mkTaskState (ts_batch ts) (ts_task ts) code) i (oi_tasks wl)) wl.

Definition with_staging x (cs : ChunkState) := mkChunkState (cs_chunk cs) (cs_first cs) (cs_count cs) (cs_retry cs) x.
Definition with_attempts x (cs : ChunkState) := mkChunkState (cs_chunk cs) (cs_first cs) (cs_count cs) x (cs_staging cs).

Section Worker.
Context {R B C : Type} `{!Responder R, !ObjectReader B, !CopyPath C}.

(** What capacity() fixed, and what the worker was built with: [has_copy_path] when it has both a writer and an
    issuer; [location_of] is the object storage location of a batch, by submission and file. *)
Context (chunk_bytesize window_chunks max_responses : Z) (has_copy_path : bool) (location_of : Z → Z → text).

Record worker := mkWorker {
  ow_pool : bool; ow_retry : Retry; ow_waiting_retries : list Z; ow_waiting : list Z; ow_copies : Z;
  ow_inflight : list (Z * Inflight); ow_next : Z; ow_queue : CapacityQueue ObjectChunk; ow_reader : B;
  ow_path : C; ow_world : world (R := R); ow_retired : list Batch }.

Definition with_pool x (w : worker) := mkWorker x (ow_retry w) (ow_waiting_retries w) (ow_waiting w) (ow_copies w)
  (ow_inflight w) (ow_next w) (ow_queue w) (ow_reader w) (ow_path w) (ow_world w) (ow_retired w).
Definition with_retry x (w : worker) := mkWorker (ow_pool w) x (ow_waiting_retries w) (ow_waiting w) (ow_copies w)
  (ow_inflight w) (ow_next w) (ow_queue w) (ow_reader w) (ow_path w) (ow_world w) (ow_retired w).
Definition with_waiting_retries x (w : worker) := mkWorker (ow_pool w) (ow_retry w) x (ow_waiting w) (ow_copies w)
  (ow_inflight w) (ow_next w) (ow_queue w) (ow_reader w) (ow_path w) (ow_world w) (ow_retired w).
Definition with_waiting x (w : worker) := mkWorker (ow_pool w) (ow_retry w) (ow_waiting_retries w) x (ow_copies w)
  (ow_inflight w) (ow_next w) (ow_queue w) (ow_reader w) (ow_path w) (ow_world w) (ow_retired w).
Definition with_copies x (w : worker) := mkWorker (ow_pool w) (ow_retry w) (ow_waiting_retries w) (ow_waiting w) x
  (ow_inflight w) (ow_next w) (ow_queue w) (ow_reader w) (ow_path w) (ow_world w) (ow_retired w).
Definition with_inflight x (w : worker) := mkWorker (ow_pool w) (ow_retry w) (ow_waiting_retries w) (ow_waiting w)
  (ow_copies w) x (ow_next w) (ow_queue w) (ow_reader w) (ow_path w) (ow_world w) (ow_retired w).
Definition with_next x (w : worker) := mkWorker (ow_pool w) (ow_retry w) (ow_waiting_retries w) (ow_waiting w)
  (ow_copies w) (ow_inflight w) x (ow_queue w) (ow_reader w) (ow_path w) (ow_world w) (ow_retired w).
Definition with_queue x (w : worker) := mkWorker (ow_pool w) (ow_retry w) (ow_waiting_retries w) (ow_waiting w)
  (ow_copies w) (ow_inflight w) (ow_next w) x (ow_reader w) (ow_path w) (ow_world w) (ow_retired w).
Definition with_reader x (w : worker) := mkWorker (ow_pool w) (ow_retry w) (ow_waiting_retries w) (ow_waiting w)
  (ow_copies w) (ow_inflight w) (ow_next w) (ow_queue w) x (ow_path w) (ow_world w) (ow_retired w).
Definition with_path x (w : worker) := mkWorker (ow_pool w) (ow_retry w) (ow_waiting_retries w) (ow_waiting w)
  (ow_copies w) (ow_inflight w) (ow_next w) (ow_queue w) (ow_reader w) x (ow_world w) (ow_retired w).
Definition with_world x (w : worker) := mkWorker (ow_pool w) (ow_retry w) (ow_waiting_retries w) (ow_waiting w)
  (ow_copies w) (ow_inflight w) (ow_next w) (ow_queue w) (ow_reader w) (ow_path w) x (ow_retired w).
Definition with_retired x (w : worker) := mkWorker (ow_pool w) (ow_retry w) (ow_waiting_retries w) (ow_waiting w)
  (ow_copies w) (ow_inflight w) (ow_next w) (ow_queue w) (ow_reader w) (ow_path w) (ow_world w) (ow_retired w ++ x).

(** ** Which chunk a handle names *)

(** The last block that starts at [h] or before, in a map kept in the order of its keys. *)
Fixpoint block_of (h : Z) (l : list (Z * Inflight)) : option (Z * Inflight) :=
  match l with
  | [] => None
  | x :: l => if x.1 >? h then None else match block_of h l with Some y => Some y | None => Some x end
  end.

(** A new block, at its place in the order of the keys. *)
Fixpoint insert_block (base : Z) (wl : Inflight) (l : list (Z * Inflight)) : list (Z * Inflight) :=
  match l with
  | [] => [(base, wl)]
  | (k, x) :: l => if base <? k then (base, wl) :: (k, x) :: l else (k, x) :: insert_block base wl l
  end.

(** The base of the workload that owns [h], and the index of the chunk in it. *)
Definition locate (h : Z) (l : list (Z * Inflight)) : option (Z * nat) :=
  match block_of h l with
  | None => None
  | Some (base, wl) =>
      let rel := h ⊖ base in
      if rel >=? Z.of_nat (length (oi_chunks wl)) then None else Some (base, Z.to_nat rel)
  end.

(** What the iterator and the index of [locate] point to. *)
Definition chunk_at (base : Z) (i : nat) (w : worker) : outcome (Inflight * ChunkState) :=
  match assoc base (ow_inflight w) with
  | None => Throw StdException
  | Some wl => match oi_chunks wl !! i with None => Throw StdException | Some cs => Ret (wl, cs) end
  end.

Definition store_workload base wl (w : worker) : worker := with_inflight (assoc_set base wl (ow_inflight w)) w.

(** ** Finishing a workload *)

Definition report_workload (code : ResponseCode) (wl : Inflight) (x : world (R := R)) :
    outcome (list Batch * world (R := R)) :=
  report_batches code (oi_errors wl) (wl_batches (oi_workload wl)) x.

Definition finalize (base : Z) (code : ResponseCode) (w : worker) : outcome worker :=
  match assoc base (ow_inflight w) with
  | None => Throw StdException
  | Some wl =>
      let! (bs, x) := report_workload code wl (ow_world w) in
      Ret (with_inflight (assoc_remove base (ow_inflight w)) (with_retired bs (with_world x w)))
  end.

(** ** Finishing a chunk *)

(** One task of a span. *)
Definition report_task (i : nat) (ret : ResponseCode) (wl : Inflight) (x : world (R := R)) :
    outcome (Inflight * world (R := R)) :=
  match oi_tasks wl !! i with
  | None => Throw StdException
  | Some ts =>
      match wl_batches (oi_workload wl) !! ts_batch ts with
      | None => Throw StdException
      | Some b =>
          match tasks b !! ts_task ts with
          | None => Throw StdException
          | Some task =>
              if t_bytesize task =? 0 then Ret (wl, x)
              else
                let wl := set_error i ret wl in
                if decide (ret = Success) then
                  let! (b, x) := handle_response Success (Some (ts_task ts)) b x in
                  Ret (set_batch (ts_batch ts) b wl, x)
                else Ret (set_errors (record_error ret b (oi_errors wl)) wl, x)
          end
      end
  end.

Fixpoint report_span (n i : nat) (ret : ResponseCode) (wl : Inflight) (x : world (R := R)) :
    outcome (Inflight * world (R := R)) :=
  match n with
  | O => Ret (wl, x)
  | S n => let! (wl, x) := report_task i ret wl x in report_span n (S i) ret wl x
  end.

Definition issue_copy (base : Z) (i : nat) (wl : Inflight) (cs : ChunkState) (w : worker) : worker :=
  let w := with_queue (CapacityQueue.complete 1 (ow_queue w)) w in
  let w := store_workload base (set_chunk i (with_staging no_staging cs) wl) w in
  let c := cs_chunk cs in
  let path := issue (wl_device (oi_workload wl)) (cs_staging cs) (oc_bytesize c) (oc_buffer c) (oc_handle c) (ow_path w) in
  with_copies (ow_copies w ⊕ 1) (with_path path w).

(** From the buffer on: what is left to do for a chunk that waits for nothing more. *)
Definition end_chunk (base : Z) (i : nat) (ret : ResponseCode) (free_slot : bool) (w : worker) : outcome worker :=
  let! (wl, cs) := chunk_at base i w in
  let w := if staging_valid (cs_staging cs) then with_path (release_buffer (cs_staging cs) (ow_path w)) w else w in
  let wl := if staging_valid (cs_staging cs) then set_chunk i (with_staging no_staging cs) wl else wl in
  let w := if free_slot then with_queue (CapacityQueue.complete 1 (ow_queue w)) w else w in
  let! (wl, x) := report_span (Z.to_nat (cs_count cs)) (cs_first cs) ret wl (ow_world w) in
  ASSERT (oi_remaining wl >? 0) ;;!
  let wl := set_remaining (oi_remaining wl ⊖ 1) wl in
  let w := store_workload base wl (with_world x w) in
  if oi_remaining wl =? 0 then finalize base Success w else Ret w.

Definition complete_chunk (base : Z) (i : nat) (ret : ResponseCode) (free_slot : bool) (w : worker) : outcome worker :=
  let! (wl, cs) := chunk_at base i w in
  if bool_decide (ret = Success) && staging_valid (cs_staging cs) && free_slot then Ret (issue_copy base i wl cs w)
  else end_chunk base i ret free_slot w.

(** [n] bounds the loop: each turn takes one off the count of copies. *)
Fixpoint drain_loop (n : nat) (w : worker) : outcome worker :=
  match n with
  | O => Ret w
  | S n =>
      match pop_copy false (ow_path w) with
      | (None, path) => Ret (with_path path w)
      | (Some (h, ret), path) =>
          let w := with_copies (ow_copies w ⊖ 1) (with_path path w) in
          match locate h (ow_inflight w) with
          | None => drain_loop n w
          | Some (base, i) => let! w := complete_chunk base i ret false w in drain_loop n w
          end
      end
  end.

Definition drain_copies (w : worker) : outcome worker := drain_loop (Z.to_nat (ow_copies w)) w.

(** ** Submitting *)

Definition staging_pool_for (d : Device) (w : worker) : ResponseCode * worker :=
  if ow_pool w then (Success, w)
  else if negb has_copy_path then (DeviceUnavailable, w)
  else
    let '(code, path) := open_device d (ow_path w) in
    let w := with_path path w in
    if negb (bool_decide (code = Success)) then (code, w)
    else
      let '(bound, path) := bind_device d (ow_path w) in
      let w := with_path path w in
      if negb (bool_decide (bound = Success)) then (bound, w)
      else
        let window := if window_chunks =? unset_window then 0 else window_chunks in
        let max_buffers := add32 (wrap32 (Z.min window SaneWindowChunks)) CopyDepth in
        (Success, with_pool true (with_path (build_pool chunk_bytesize max_buffers (ow_path w)) w)).

Inductive Destination := Into (buffer : Z) | Park | Refused (code : ResponseCode).

(** Where the bytes of a chunk are read to: a staging buffer, which the chunk then holds, when a device gets them. *)
Definition destination_for (c : ObjectChunk) (base : Z) (i : nat) (wl : Inflight) (cs : ChunkState) (w : worker) :
    Destination * worker :=
  let d := wl_device (oi_workload wl) in
  if is_host d then (Into (oc_buffer c), w)
  else
    let '(ready, w) := staging_pool_for d w in
    if negb (bool_decide (ready = Success)) then (Refused ready, w)
    else
      let '(code, b, path) := acquire_buffer (ow_path w) in
      let w := with_path path w in
      if negb (bool_decide (code = Success)) then (Refused code, w)
      else if negb (staging_valid b) then (Park, w)
      else (Into (sb_data b), store_workload base (set_chunk i (with_staging b cs) wl) w).

Definition park (h : Z) (cs : ChunkState) (w : worker) : worker :=
  if rs_count (cs_retry cs) >? 0 then with_waiting_retries (ow_waiting_retries w ++ [h]) w
  else with_waiting (ow_waiting w ++ [h]) w.

Definition error_of (e : exn) : ResponseCode := match e with Code c => c | _ => UnknownError end.

(** The attempt, once there is a place to read to. *)
Definition attempt (c : ObjectChunk) (base : Z) (i : nat) (buffer : Z) (w : worker) : outcome worker :=
  let! (wl, cs) := chunk_at base i w in
  let '(now, reader) := if retry_enabled (ow_retry w) then clock_now (ow_reader w) else (0, ow_reader w) in
  let w := with_reader reader w in
  let '(allowed, st) := if retry_enabled (ow_retry w) then begin_attempt (cs_retry cs) now (ow_retry w)
                        else (true, cs_retry cs) in
  let w := store_workload base (set_chunk i (with_attempts st cs) wl) w in
  if negb allowed then complete_chunk base i FileAccessError true w
  else
    match oi_tasks wl !! cs_first cs with
    | None => Throw StdException
    | Some first =>
        match wl_batches (oi_workload wl) !! ts_batch first with
        | None => Throw StdException
        | Some b =>
            let '(thrown, reader) := async_read (location_of (b_submission_id b) (b_file_index b)) (oc_handle c)
                                                (oc_offset c) (oc_bytesize c) buffer (ow_reader w) in
            let w := with_reader reader w in
            match thrown with
            | None => Ret w
            | Some e => complete_chunk base i (error_of e) true w
            end
        end
    end.

Definition submit (c : ObjectChunk) (w : worker) : outcome worker :=
  match locate (oc_handle c) (ow_inflight w) with
  | None => Throw AssertFailed
  | Some (base, i) =>
      let! (wl, cs) := chunk_at base i w in
      ASSERT (cs_count cs >? 0) ;;!
      match oi_tasks wl !! cs_first cs with
      | None => Throw StdException
      | Some first =>
          ASSERT (bool_decide (ts_error first = Success)) ;;!
          let '(to, w) := destination_for c base i wl cs w in
          match to with
          | Refused code => complete_chunk base i code true w
          | Park => Ret (park (oc_handle c) cs w)
          | Into buffer => attempt c base i buffer w
          end
      end
  end.

(** One chunk that waited gets another chance; what it named may be gone. *)
Definition resume_one (h : Z) (w : worker) : outcome worker :=
  match locate h (ow_inflight w) with
  | None => Ret w
  | Some (base, i) => let! (_, cs) := chunk_at base i w in submit (cs_chunk cs) w
  end.

(** One pass over what was in the queue when it started. *)
Fixpoint resume_retries (n : nat) (w : worker) : outcome worker :=
  match n with
  | O => Ret w
  | S n =>
      match ow_waiting_retries w with
      | [] => Throw StdException
      | h :: rest => let! w := resume_one h (with_waiting_retries rest w) in resume_retries n w
      end
  end.

Fixpoint resume_first (n : nat) (w : worker) : outcome worker :=
  match n with
  | O => Ret w
  | S n =>
      match ow_waiting w with
      | [] => Throw StdException
      | h :: rest => let! w := resume_one h (with_waiting rest w) in resume_first n w
      end
  end.

Definition resume_waiting (w : worker) : outcome worker :=
  let! w := resume_retries (length (ow_waiting_retries w)) w in resume_first (length (ow_waiting w)) w.

(** [n] bounds the loop by what is delayed, since promoting delays nothing. *)
Fixpoint promote_loop (n : nat) (now : Z) (w : worker) : outcome worker :=
  match n with
  | O => Ret w
  | S n =>
      let '(due, r) := pop_due now (ow_retry w) in
      let w := with_retry r w in
      match due with
      | None => Ret w
      | Some h =>
          match locate h (ow_inflight w) with
          | None => Throw AssertFailed
          | Some (base, i) =>
              let! (_, cs) := chunk_at base i w in
              promote_loop n now (with_queue (enqueue_front (cs_chunk cs) 1 (ow_queue w)) w)
          end
      end
  end.

Definition promote_due_retries (w : worker) : outcome worker :=
  let '(now, reader) := clock_now (ow_reader w) in
  promote_loop (length (rt_delayed (ow_retry w))) now (with_reader reader w).

Definition pre_pump (w : worker) : outcome worker :=
  if retry_enabled (ow_retry w) then promote_due_retries w else Ret w.

(** ** Ending *)

(** The events of a round up to the marker: how many reads ended, and whether the marker was met. *)
Fixpoint before_marker (events : list Event) : nat * bool :=
  match events with
  | [] => (O, false)
  | (_, ret) :: events =>
      if decide (ret = FinishedError) then (O, true)
      else let '(n, marker) := before_marker events in (S n, marker)
  end.

Fixpoint complete_many (n : nat) (q : CapacityQueue ObjectChunk) : CapacityQueue ObjectChunk :=
  match n with O => q | S n => complete_many n (CapacityQueue.complete 1 q) end.

(** [n] bounds the loop by the credit: a turn that does not end the loop takes some.  Going past the bound, which the code
    would do as a wait without an end, throws. *)
Fixpoint quiesce_reads_loop (n : nat) (w : worker) : outcome (bool * worker) :=
  if inflight (ow_queue w) >? 0 then
    match n with
    | O => Throw StdException
    | S n =>
        let '(ret, events, reader) := async_response max_responses (ow_reader w) in
        let w := with_reader reader w in
        if negb (bool_decide (ret = Success)) then Ret (false, w)
        else
          let '(completed, marker) := before_marker events in
          let nothing_to_give := bool_decide (events = []) || marker in
          let w := with_queue (complete_many completed (ow_queue w)) w in
          if (completed =? 0)%nat && nothing_to_give then Ret (false, w) else quiesce_reads_loop n w
    end
  else Ret (true, w).

Definition quiesce_reads (w : worker) : outcome (bool * worker) := quiesce_reads_loop (Z.to_nat (inflight (ow_queue w))) w.

(** The same for the copies. *)
Fixpoint quiesce_copies_loop (n : nat) (w : worker) : outcome worker :=
  if ow_copies w >? 0 then
    match n with
    | O => Throw StdException
    | S n =>
        match pop_copy true (ow_path w) with
        | (None, path) => Ret (with_path path w)
        | (Some _, path) => quiesce_copies_loop n (with_copies (ow_copies w ⊖ 1) (with_path path w))
        end
    end
  else Ret w.

Definition quiesce_copies (w : worker) : outcome worker := quiesce_copies_loop (Z.to_nat (ow_copies w)) w.

(** The buffers of the chunks of one workload, given back or never used again. *)
Fixpoint give_back_chunks (reuse : bool) (code : ResponseCode) (l : list ChunkState) (path : C) : list ChunkState * C :=
  match l with
  | [] => ([], path)
  | cs :: l =>
      let '(cs, path) :=
        if staging_valid (cs_staging cs) then
          (with_staging no_staging cs,
           if reuse then release_buffer (cs_staging cs) path else retire_buffer (cs_staging cs) code path)
        else (cs, path) in
      let '(l, path) := give_back_chunks reuse code l path in
      (cs :: l, path)
  end.

Fixpoint give_back (reuse : bool) (code : ResponseCode) (l : list (Z * Inflight)) (path : C) : list (Z * Inflight) * C :=
  match l with
  | [] => ([], path)
  | (base, wl) :: l =>
      let '(chunks, path) := give_back_chunks reuse code (oi_chunks wl) path in
      let '(l, path) := give_back reuse code l path in
      ((base, set_chunks chunks wl) :: l, path)
  end.

Fixpoint finalize_all (n : nat) (code : ResponseCode) (w : worker) : outcome worker :=
  match n, ow_inflight w with
  | S n, (base, _) :: _ => let! w := finalize base code w in finalize_all n code w
  | _, _ => Ret w
  end.

(** abort_all up to where nothing is at the backend or the issuer any more; whether the reads all reported. *)
Definition abandon_pending (w : worker) : outcome (bool * worker) :=
  let w := with_retry (clear_retry (ow_retry w)) w in
  let w := with_queue (abort_pending (ow_queue w)) w in
  let parked := Z.of_nat (length (ow_waiting w)) ⊕ Z.of_nat (length (ow_waiting_retries w)) in
  let w := if parked >? 0 then with_queue (CapacityQueue.complete parked (ow_queue w)) w else w in
  let w := with_waiting_retries [] (with_waiting [] w) in
  let! (drained, w) := quiesce_reads w in
  let! w := quiesce_copies w in
  Ret (drained, w).

Definition abort_all (code : ResponseCode) (worker_continues : bool) (w : worker) : outcome worker :=
  let! (drained, w) := abandon_pending w in
  let w := if ow_pool w then
             let '(l, path) := give_back (drained || negb worker_continues) code (ow_inflight w) (ow_path w) in
             with_path path (with_inflight l w)
           else w in
  let! w := finalize_all (length (ow_inflight w)) code w in
  Ret (with_queue (CapacityQueue.clear (ow_queue w)) w).

(** The destructor: what it waits for.  What the reads answer is not used. *)
Definition tear_down (w : worker) : outcome worker :=
  let! (_, w) := quiesce_reads w in quiesce_copies w.

(** ** The turn of the worker *)

Definition holding_work (w : worker) : bool :=
  negb (bool_decide (ow_waiting w = [])) || negb (bool_decide (ow_waiting_retries w = [])) || (ow_copies w >? 0).

Definition has_deferred_work (w : worker) : bool :=
  has_pending (ow_retry w) || (ow_copies w >? 0) || negb (bool_decide (ow_waiting w = []))
  || negb (bool_decide (ow_waiting_retries w = [])).

Definition worker_idle (w : worker) : bool := CapacityQueue.idle (ow_queue w) && negb (has_deferred_work w).

(** A read that failed and may be tried again: scheduled, its buffer and its credit given back.  [None] is no
    retry. *)
Definition try_again (base : Z) (i : nat) (wl : Inflight) (cs : ChunkState) (w : worker) : option worker * worker :=
  let '(now, reader) := clock_now (ow_reader w) in
  let w := with_reader reader w in
  match schedule (cs_retry cs) (oc_handle (cs_chunk cs)) now (draw_delay reader) (ow_retry w) with
  | (None, _, _) => (None, w)
  | (Some _, st, r) =>
      let w := with_retry r w in
      let cs := with_attempts st cs in
      let path := if staging_valid (cs_staging cs) then release_buffer (cs_staging cs) (ow_path w) else ow_path w in
      let cs := if staging_valid (cs_staging cs) then with_staging no_staging cs else cs in
      let w := with_path path (store_workload base (set_chunk i cs wl) w) in
      (Some (with_queue (CapacityQueue.complete 1 (ow_queue w)) w), w)
  end.

(** One event; an unknown handle is a late completion and is dropped. *)
Definition handle_event (h : Z) (ret : ResponseCode) (w : worker) : outcome (bool * worker) :=
  match locate h (ow_inflight w) with
  | None => Ret (false, w)
  | Some (base, i) =>
      if decide (ret = RetryableFileAccessError) then
        let! (wl, cs) := chunk_at base i w in
        match try_again base i wl cs w with
        | (Some w, _) => Ret (true, w)
        | (None, w) => let! w := complete_chunk base i FileAccessError true w in Ret (true, w)
        end
      else
        let! w := complete_chunk base i ret true w in Ret (true, w)
  end.

(** Whether any event progressed, and whether the marker was met. *)
Fixpoint handle_events (events : list Event) (w : worker) : outcome (bool * bool * worker) :=
  match events with
  | [] => Ret (false, false, w)
  | (h, ret) :: events =>
      if decide (ret = FinishedError) then Ret (false, true, w)
      else
        let! (progressed, w) := handle_event h ret w in
        let! (more, marker, w) := handle_events events w in
        Ret (progressed || more, marker, w)
  end.

Definition twenty_ms : Z := 20000000.

(** The nap while a retry is all there is to wait for. *)
Definition nap (w : worker) : worker :=
  if retry_enabled (ow_retry w) && has_pending (ow_retry w) && CapacityQueue.empty (ow_queue w) then
    match next_due (ow_retry w) with
    | None => w
    | Some retry_at =>
        let '(now, reader) := clock_now (ow_reader w) in
        with_reader (sleep_until (Z.min retry_at (now + twenty_ms)) reader) w
    end
  else w.

Definition harvest (w : worker) : outcome worker :=
  let '(r, events, reader) := async_response max_responses (ow_reader w) in
  let w := with_reader reader w in
  if negb (bool_decide (r = Success)) then
    if bool_decide (r = FinishedError) && holding_work w then Ret w else abort_all r true w
  else
    let! (progressed, marker, w) := handle_events events w in
    let responder_drained := bool_decide (events = []) || marker in
    if negb progressed && responder_drained && negb (holding_work w) && negb (CapacityQueue.idle (ow_queue w))
    then abort_all FinishedError true w else Ret w.

Definition drain_batch (stopped : bool) (w : worker) : outcome worker :=
  if stopped then abort_all FinishedError false w
  else
    let! w := drain_copies w in
    let! w := resume_waiting w in
    if inflight (ow_queue w) =? 0 then Ret (nap w) else harvest w.

(** ** The turns of utils/capacity_worker *)

(** [n] bounds the loop by what is pending, since submitting queues nothing. *)
Fixpoint pump_loop (n : nat) (w : worker) : outcome worker :=
  match n with
  | O => Ret w
  | S n =>
      let '(c, q) := try_take (ow_queue w) in
      match c with
      | None => Ret (with_queue q w)
      | Some c => let! w := submit c (with_queue q w) in pump_loop n w
      end
  end.

Definition pump (w : worker) : outcome worker :=
  let! w := pre_pump w in pump_loop (length (queued (ow_queue w))) w.

Definition drain (stopped : bool) (w : worker) : outcome worker :=
  let! w := drain_batch stopped w in pump w.

(** ** New work *)

(** What enqueue fills in.  [as_memory] says which allocation fails, counted from here, if one does. *)
Record Assembly := mkAssembly {
  as_inflight : Inflight; as_queue : CapacityQueue ObjectChunk; as_world : world (R := R); as_memory : option nat }.

(** The answer of each step below: whether it went through or threw, and what there is then. *)
Definition allocate (a : Assembly) : bool * Assembly :=
  match as_memory a with
  | None => (true, a)
  | Some O => (false, a)
  | Some (S n) => (true, mkAssembly (as_inflight a) (as_queue a) (as_world a) (Some n))
  end.

Definition set_as_inflight x (a : Assembly) := mkAssembly x (as_queue a) (as_world a) (as_memory a).

Definition answer_zero_sized (j i : nat) (a : Assembly) : bool * Assembly :=
  match wl_batches (oi_workload (as_inflight a)) !! j with
  | None => (false, a)
  | Some b =>
      match handle_response Success (Some i) b (as_world a) with
      | Ret (b, x) => (true, mkAssembly (set_batch j b (as_inflight a)) (as_queue a) x (as_memory a))
      | Throw _ => (false, a)
      end
  end.

(** The tasks of batch [j], from task [i]. *)
Fixpoint add_tasks (ts : list Task) (j i : nat) (a : Assembly) : bool * Assembly :=
  match ts with
  | [] => (true, a)
  | t :: ts =>
      let '(ok, a) := allocate a in
      if negb ok then (false, a)
      else
        let wl := as_inflight a in
        let a := set_as_inflight (set_task_states (oi_tasks wl ++ [mkTaskState j i Success]) wl) a in
        let '(ok, a) := if t_bytesize t =? 0 then answer_zero_sized j i a else (true, a) in
        if negb ok then (false, a) else add_tasks ts j (S i) a
  end.

Fixpoint add_chunks (cs : list Chunk) (base : Z) (task_base next_chunk : nat) (a : Assembly) : bool * Assembly :=
  match cs with
  | [] => (true, a)
  | c :: cs =>
      if negb (c_bytesize c <=? chunk_bytesize) then (false, a)
      else
        let chunk := mkObjectChunk (base ⊕ Z.of_nat next_chunk) (c_offset c) (c_bytesize c) (c_buffer c) in
        let state := mkChunkState chunk (task_base + Z.to_nat (first_task c))%nat (task_count c) fresh_attempt no_staging in
        let a := set_as_inflight (set_chunk next_chunk state (as_inflight a)) a in
        let '(ok, a) := allocate a in
        if negb ok then (false, a)
        else
          let a := mkAssembly (as_inflight a) (CapacityQueue.enqueue chunk 1 (as_queue a)) (as_world a) (as_memory a) in
          add_chunks cs base task_base (S next_chunk) a
  end.

Fixpoint add_batches (bs : list Batch) (base : Z) (j next_chunk : nat) (a : Assembly) : bool * Assembly :=
  match bs with
  | [] => (true, a)
  | b :: bs =>
      let task_base := length (oi_tasks (as_inflight a)) in
      let '(ok, a) := add_tasks (tasks b) j 0 a in
      if negb ok then (false, a)
      else
        let '(ok, a) := add_chunks (chunks b) base task_base next_chunk a in
        if negb ok then (false, a) else add_batches bs base (S j) (next_chunk + length (chunks b))%nat a
  end.

Definition total_chunks (bs : list Batch) : nat := sum_list_with (λ b, length (chunks b)) bs.

(** The whole registration, but for the node of the map, the first allocation. *)
Definition assemble (base : Z) (v : Workload) (a : Assembly) : bool * Assembly :=
  let '(ok, a) := allocate a in
  if negb ok then (false, a)
  else
    let a := set_as_inflight (set_chunks (replicate (total_chunks (wl_batches v)) no_chunk) (as_inflight a)) a in
    let '(ok, a) := add_batches (wl_batches v) base 0 0 a in
    if negb ok then (false, a)
    else (true, set_as_inflight (set_remaining (Z.of_nat (total_chunks (wl_batches v))) (as_inflight a)) a).

(** The tasks of a workload without chunks: every one is answered. *)
Fixpoint answer_tasks (n i : nat) (b : Batch) (x : world (R := R)) : outcome (Batch * world (R := R)) :=
  match n with
  | O => Ret (b, x)
  | S n => let! (b, x) := handle_response Success (Some i) b x in answer_tasks n (S i) b x
  end.

Fixpoint answer_batches (bs : list Batch) (x : world (R := R)) : outcome (list Batch * world (R := R)) :=
  match bs with
  | [] => Ret ([], x)
  | b :: bs =>
      let! (b, x) := answer_tasks (length (tasks b)) 0 b x in
      let! (bs, x) := answer_batches bs x in
      Ret (b :: bs, x)
  end.

Definition enqueue (memory : option nat) (v : Workload) (w : worker) : outcome worker :=
  let total := total_chunks (wl_batches v) in
  if (total =? 0)%nat then
    let! (bs, x) := answer_batches (wl_batches v) (ow_world w) in
    let! (bs, x) := report_batches Success ∅ bs x in
    Ret (with_retired bs (with_world x w))
  else
    let base := ow_next w in
    let w := with_next (base ⊕ Z.of_nat total) w in
    match memory with
    | Some O => abort_all UnknownError true w
    | _ =>
        if bool_decide (is_Some (assoc base (ow_inflight w))) then abort_all UnknownError true w
        else
          let wl := mkInflight v [] [] ∅ 0 in
          let '(ok, a) := assemble base v (mkAssembly wl (ow_queue w) (ow_world w) (pred <$> memory)) in
          let w := with_world (as_world a) (with_queue (as_queue a) w) in
          let w := with_inflight (insert_block base (as_inflight a) (ow_inflight w)) w in
          if ok then Ret w else abort_all UnknownError true w
    end.

(** execute, once the window is up.  [stopped] is the pool's flag at each turn; [n] bounds the turns. *)
Fixpoint submit_all (n : nat) (stopped : nat → bool) (w : worker) : outcome worker :=
  if CapacityQueue.empty (ow_queue w) then Ret w
  else
    match n with
    | O => Throw StdException
    | S n =>
        let! w := pump w in
        let! w := (if CapacityQueue.empty (ow_queue w) then Ret w else drain_batch (stopped n) w) in
        submit_all n stopped w
    end.

Definition execute (n : nat) (stopped : nat → bool) (memory : option nat) (v : Workload) (w : worker) : outcome worker :=
  let! w := enqueue memory v w in
  let! w := submit_all n stopped w in
  if inflight (ow_queue w) >=? capacity (ow_queue w) then drain_batch (stopped n) w else Ret w.
End Worker.
