(* ===== verification/ObjectStorageBooks.v ===== *)
(** The object storage worker's books: where every unfinished chunk is, what its workload still waits for,
    and which staging buffers are out. *)

From S2P Require Import Prelude ResponseCode Text SharedQueue Task ChunkSplitter Batch Workload.
From S2P Require Import CapacityQueue InflightChunks Reporting ObjectStorageRetry ObjectStorageIo ObjectStorageWorker.

(** ** Blocks of handles *)

(** The blocks lie in order between [lo] and [hi], none empty. *)
Fixpoint blocks_ok (lo : Z) (l : list (Z * Inflight)) (hi : Z) : Prop :=
  match l with
  | [] => lo <= hi
  | (base, wl) :: l => lo <= base ∧ oi_chunks wl ≠ [] ∧ blocks_ok (base + Z.of_nat (length (oi_chunks wl))) l hi
  end.

(** [h] is chunk [i] of the workload at [base]. *)
Definition located (h : Z) (l : list (Z * Inflight)) (base : Z) (i : nat) : Prop :=
  ∃ wl, assoc base l = Some wl ∧ h = base + Z.of_nat i ∧ (i < length (oi_chunks wl))%nat.

Section Blocks.
Implicit Types (l : list (Z * Inflight)).

Lemma blocks_le lo l hi : blocks_ok lo l hi → lo <= hi.
Proof. revert lo. induction l as [|[base wl] l IH]; intros lo; simpl; [done|]. intros (Hlo & _ & H%IH). lia. Qed.

Lemma blocks_assoc lo l hi base wl : blocks_ok lo l hi → assoc base l = Some wl →
  lo <= base ∧ base + Z.of_nat (length (oi_chunks wl)) <= hi ∧ oi_chunks wl ≠ [].
Proof.
  revert lo. induction l as [|[b x] l IH]; intros lo; simpl; [done|]. intros (Hlo & Hne & Hl).
  destruct (Z.eqb_spec base b) as [->|].
  - intros [= ->]. apply blocks_le in Hl. done.
  - intros (H1 & H2 & H3)%(IH _ Hl). split; [lia|done].
Qed.

Lemma block_of_below lo l hi h : blocks_ok lo l hi → h < lo → block_of h l = None.
Proof.
  destruct l as [|[b x] l]; simpl; [done|]. intros (Hlo & _ & _) H. by rewrite Z.gtb_ltb, (proj2 (Z.ltb_lt _ _)) by lia.
Qed.

Lemma block_of_spec lo l hi h : blocks_ok lo l hi →
  match block_of h l with
  | Some (base, wl) => base <= h ∧ assoc base l = Some wl ∧
      ∀ base' wl', assoc base' l = Some wl' → base' <= h → base' ≠ base → base' + Z.of_nat (length (oi_chunks wl')) <= base
  | None => ∀ base' wl', assoc base' l = Some wl' → h < base'
  end.
Proof.
  revert lo. induction l as [|[b x] l IH]; intros lo; simpl; [done|]. intros (Hlo & Hne & Hl).
  rewrite Z.gtb_ltb. destruct (Z.ltb_spec h b).
  { intros base' wl'. destruct (Z.eqb_spec base' b) as [->|]; [lia|].
    intros (H1 & _)%(blocks_assoc _ _ _ _ _ Hl). lia. }
  specialize (IH _ Hl). destruct (block_of h l) as [[base wl]|].
  - destruct IH as (H1 & H2 & H3). destruct (blocks_assoc _ _ _ _ _ Hl H2) as (H4 & _).
    assert (0 < Z.of_nat (length (oi_chunks x))) by (destruct (oi_chunks x); simpl; [done|lia]).
    split; [done|]. destruct (Z.eqb_spec base b) as [->|]; [lia|]. split; [done|].
    intros base' wl'. destruct (Z.eqb_spec base' b) as [->|]; [intros [= <-]; lia|]. eauto.
  - split; [lia|]. rewrite Z.eqb_refl. split; [done|]. intros base' wl'.
    destruct (Z.eqb_spec base' b) as [->|]; [done|]. intros H1%IH. lia.
Qed.

Lemma locate_Some lo l hi h base i : 0 <= lo → hi < size_modulus → is_size h → blocks_ok lo l hi →
  locate h l = Some (base, i) ↔ located h l base i.
Proof.
  intros Hlo Hhi Hh Hl. pose proof (block_of_spec _ _ _ h Hl) as Hb. unfold locate, located.
  destruct (block_of h l) as [[b x]|].
  - destruct Hb as (H1 & H2 & H3). destruct (blocks_assoc _ _ _ _ _ Hl H2) as (H4 & H5 & _).
    rewrite sub64_small by (unfold is_size in *; lia). rewrite Z.geb_leb.
    destruct (Z.leb_spec (Z.of_nat (length (oi_chunks x))) (h - b)).
    + split; [done|]. intros (wl & Ha & -> & Hi). destruct (decide (base = b)) as [->|Hne].
      * rewrite H2 in Ha. injection Ha as ->. lia.
      * destruct (blocks_assoc _ _ _ _ _ Hl Ha). specialize (H3 _ _ Ha ltac:(lia) Hne). lia.
    + split.
      * intros [= <- <-]. exists x. split; [done|]. lia.
      * intros (wl & Ha & -> & Hi). destruct (decide (base = b)) as [->|Hne]; [do 2 f_equal; lia|].
        destruct (blocks_assoc _ _ _ _ _ Hl Ha). specialize (H3 _ _ Ha ltac:(lia) Hne). lia.
  - split; [done|]. intros (wl & Ha%Hb & -> & Hi). lia.
Qed.

Lemma located_unique lo l hi h base i base' i' : blocks_ok lo l hi → located h l base i → located h l base' i' →
  base = base' ∧ i = i'.
Proof.
  intros Hl (wl & Ha & -> & Hi) (wl' & Ha' & He & Hi').
  pose proof (block_of_spec _ _ _ (base + Z.of_nat i) Hl) as Hb.
  destruct (block_of _ l) as [[b x]|]; [|specialize (Hb _ _ Ha); lia]. destruct Hb as (H1 & H2 & H3).
  assert (∀ b' x' i', assoc b' l = Some x' → base + Z.of_nat i = b' + Z.of_nat i' → (i' < length (oi_chunks x'))%nat → b' = b) as Hb.
  { intros b' x' j Hx Hj Hlt. destruct (decide (b' = b)) as [|Hne]; [done|].
    specialize (H3 _ _ Hx ltac:(lia) Hne). lia. }
  pose proof (Hb _ _ _ Ha eq_refl Hi). pose proof (Hb _ _ _ Ha' He Hi'). assert (base = base') by congruence. lia.
Qed.

Lemma located_range lo l hi h base i : blocks_ok lo l hi → located h l base i → lo <= h < hi.
Proof. intros Hl (wl & Ha & -> & Hi). destruct (blocks_assoc _ _ _ _ _ Hl Ha). lia. Qed.

(** *** The shape of the blocks is all that matters *)

Definition shape l : list (Z * nat) := map (λ x, (x.1, length (oi_chunks x.2))) l.

Lemma blocks_shape lo l l' hi : shape l = shape l' → blocks_ok lo l hi → blocks_ok lo l' hi.
Proof.
  revert lo l'. induction l as [|[b x] l IH]; intros lo [|[b' x'] l']; simpl; try done.
  intros [= -> Hlen Hs] (H1 & H2 & H3). rewrite <- Hlen. split; [done|]. split; [|by apply IH].
  destruct (oi_chunks x'), (oi_chunks x); done.
Qed.

Lemma locate_shape h l l' : shape l = shape l' → locate h l = locate h l'.
Proof.
  intros Hs. unfold locate.
  assert (option_map (λ x, (x.1, length (oi_chunks x.2))) (block_of h l) =
          option_map (λ x, (x.1, length (oi_chunks x.2))) (block_of h l')) as Hb.
  { revert l' Hs. induction l as [|[b x] l IH]; intros [|[b' x'] l']; simpl; try done.
    intros [= <- Hlen Hs]. destruct (b >? h); [done|]. specialize (IH _ Hs).
    destruct (block_of h l) as [[]|], (block_of h l') as [[]|]; simpl in *; congruence. }
  destruct (block_of h l) as [[]|], (block_of h l') as [[]|]; simpl in *; try done. by injection Hb as -> ->.
Qed.

Lemma shape_set base wl wl' l : assoc base l = Some wl → length (oi_chunks wl') = length (oi_chunks wl) →
  shape (assoc_set base wl' l) = shape l.
Proof.
  intros (l1 & l2 & -> & H1)%assoc_split Hlen. rewrite (assoc_set_split _ wl) by done.
  unfold shape. rewrite !map_app. simpl. by rewrite Hlen.
Qed.

Lemma blocks_remove lo base l hi : blocks_ok lo l hi → blocks_ok lo (assoc_remove base l) hi.
Proof.
  revert lo. induction l as [|[b x] l IH]; intros lo; simpl; [done|]. intros (H1 & H2 & H3).
  destruct (base =? b).
  - destruct l as [|[b' x'] l]; simpl in *; [lia|]. destruct H3 as (? & ? & ?). split; [lia|done].
  - split; [done|]. split; [done|]. by apply IH.
Qed.

Lemma blocks_keys lo l hi base : blocks_ok lo l hi → assoc base (assoc_remove base l) = None.
Proof.
  revert lo. induction l as [|[b x] l IH]; intros lo; simpl; [done|]. intros (H1 & H2 & H3).
  destruct (Z.eqb_spec base b) as [->|Hne].
  - destruct (assoc b l) as [y|] eqn:Hy; [|done]. destruct (blocks_assoc _ _ _ _ _ H3 Hy).
    assert (0 < Z.of_nat (length (oi_chunks x))) by (destruct (oi_chunks x); simpl; [done|lia]). lia.
  - simpl. rewrite (proj2 (Z.eqb_neq base b)) by done. eauto.
Qed.

Lemma insert_block_last lo l hi wl : blocks_ok lo l hi → insert_block hi wl l = l ++ [(hi, wl)] ∧ assoc hi l = None.
Proof.
  revert lo. induction l as [|[b x] l IH]; intros lo; simpl; [done|]. intros (H1 & H2 & H3).
  pose proof (blocks_le _ _ _ H3).
  assert (0 < Z.of_nat (length (oi_chunks x))) by (destruct (oi_chunks x); simpl; [done|lia]).
  rewrite (proj2 (Z.ltb_ge hi b)) by lia. rewrite (proj2 (Z.eqb_neq hi b)) by lia.
  by destruct (IH _ H3) as [-> ?].
Qed.

Lemma blocks_insert lo l hi wl n : blocks_ok lo l hi → oi_chunks wl ≠ [] → n = hi + Z.of_nat (length (oi_chunks wl)) →
  blocks_ok lo (l ++ [(hi, wl)]) n.
Proof.
  intros Hl Hne ->. revert lo Hl. induction l as [|[b x] l IH]; intros lo; simpl; [by intros ?; split_and!|].
  intros (H1 & H2 & H3). split_and!; auto.
Qed.
End Blocks.

(** ** One workload *)

Definition in_span (cs : ChunkState) (n : nat) : Prop := (cs_first cs <= n < cs_first cs + Z.to_nat (cs_count cs))%nat.

(** A task needs no more: it was answered, or its file is known to have failed. *)
Definition settled (wl : Inflight) (ts : TaskState) : Prop :=
  ∃ b t, wl_batches (oi_workload wl) !! ts_batch ts = Some b ∧ tasks b !! ts_task ts = Some t ∧
    (t_finished t = true ∨ file_failed (oi_errors wl) b).

Definition in_block (base : Z) (wl : Inflight) (h : Z) : Prop := base <= h < base + Z.of_nat (length (oi_chunks wl)).

#[export] Instance in_block_dec base wl h : Decision (in_block base wl h).
Proof. unfold in_block. apply _. Defined.

(** Where the chunks and tasks are: handles in a row, spans apart, every task of a batch in the row of tasks;
    and a task without bytes is answered from the start. *)
Record layout_ok (base : Z) (wl : Inflight) : Prop := {
  lo_chunk : ∀ k cs, oi_chunks wl !! k = Some cs →
    oc_handle (cs_chunk cs) = base + Z.of_nat k ∧ 0 < cs_count cs ∧
    (cs_first cs + Z.to_nat (cs_count cs) <= length (oi_tasks wl))%nat;
  lo_apart : ∀ k1 k2 cs1 cs2 n, oi_chunks wl !! k1 = Some cs1 → oi_chunks wl !! k2 = Some cs2 →
    in_span cs1 n → in_span cs2 n → k1 = k2;
  lo_index : ∀ n ts, oi_tasks wl !! n = Some ts →
    ∃ b t, wl_batches (oi_workload wl) !! ts_batch ts = Some b ∧ tasks b !! ts_task ts = Some t ∧
      (t_bytesize t = 0 → t_finished t = true);
  lo_all : ∀ j b i t, wl_batches (oi_workload wl) !! j = Some b → tasks b !! i = Some t →
    ∃ n ts, oi_tasks wl !! n = Some ts ∧ ts_batch ts = j ∧ ts_task ts = i }.

(** [o] are the handles of the chunks that did not end yet, of any workload. *)
Record workload_ok (o : list Z) (base : Z) (wl : Inflight) : Prop := {
  wk_layout : layout_ok base wl;
  wk_settled : ∀ n ts, oi_tasks wl !! n = Some ts →
    settled wl ts ∨ ∃ k cs, oi_chunks wl !! k = Some cs ∧ in_span cs n ∧ base + Z.of_nat k ∈ o;
  wk_fresh : ∀ k cs n ts, oi_chunks wl !! k = Some cs → base + Z.of_nat k ∈ o → in_span cs n →
    oi_tasks wl !! n = Some ts → ts_error ts = Success;
  wk_errors : errors_ok (oi_errors wl);
  wk_count : oi_remaining wl = Z.of_nat (length (filter (in_block base wl) o)) }.

Lemma workload_ok_ext o o' base wl : filter (in_block base wl) o ≡ₚ filter (in_block base wl) o' →
  workload_ok o base wl → workload_ok o' base wl.
Proof.
  intros Hp [H1 H5 H6 H7 H8].
  assert (∀ k cs, oi_chunks wl !! k = Some cs → base + Z.of_nat k ∈ o ↔ base + Z.of_nat k ∈ o') as Hin.
  { intros k cs Hk%lookup_lt_Some. assert (in_block base wl (base + Z.of_nat k)) as Hb by (unfold in_block; lia).
    assert (∀ o : list Z, base + Z.of_nat k ∈ o ↔ base + Z.of_nat k ∈ filter (in_block base wl) o) as He.
    { intros o0. rewrite list_elem_of_filter. tauto. }
    rewrite (He o), (He o'). by rewrite Hp. }
  split; try done.
  - intros n ts Hn. destruct (H5 _ _ Hn) as [|(k & cs & Hk & Hs & Ho)]; [by left|right].
    exists k, cs. by rewrite <- (Hin _ _ Hk).
  - intros k cs n ts Hk Ho. rewrite <- (Hin _ _ Hk) in Ho. eauto.
  - by rewrite H8, Hp.
Qed.

(** What every operation on a workload leaves: its chunks and tasks where they are, no answer taken back. *)
Definition chunk_place (cs : ChunkState) : ObjectChunk * nat * Z := (cs_chunk cs, cs_first cs, cs_count cs).
Definition task_place (ts : TaskState) : nat * nat := (ts_batch ts, ts_task ts).

Record grown (wl wl' : Inflight) : Prop := {
  gr_chunks : map chunk_place (oi_chunks wl') = map chunk_place (oi_chunks wl);
  gr_tasks : map task_place (oi_tasks wl') = map task_place (oi_tasks wl);
  gr_batches : Forall2 advanced (wl_batches (oi_workload wl)) (wl_batches (oi_workload wl'));
  gr_device : wl_device (oi_workload wl') = wl_device (oi_workload wl);
  gr_errors : ∀ b, file_failed (oi_errors wl) b → file_failed (oi_errors wl') b;
  gr_remaining : oi_remaining wl' = oi_remaining wl }.

Lemma Forall2_advanced_refl bs : Forall2 advanced bs bs.
Proof. apply Forall_Forall2_diag, Forall_true, advanced_refl. Qed.

Lemma grown_refl wl : grown wl wl.
Proof. split; auto. apply Forall2_advanced_refl. Qed.

Lemma grows_trans wl1 wl2 wl3 : grown wl1 wl2 → grown wl2 wl3 → grown wl1 wl3.
Proof.
  intros [A1 A2 A3 A4 A5 A6] [B1 B2 B3 B4 B5 B6]. split; try congruence; [|by auto].
  eapply Forall2_trans; [|exact A3|exact B3]. intros b1 b2 b3. apply advanced_trans.
Qed.

Lemma grown_length wl wl' : grown wl wl' →
  length (oi_chunks wl') = length (oi_chunks wl) ∧ length (oi_tasks wl') = length (oi_tasks wl).
Proof.
  intros [A1 A2 _ _ _ _]. apply (f_equal length) in A1, A2. by rewrite !length_map in A1, A2.
Qed.

Lemma map_lookup_eq {A B} (f : A → B) l l' k x : map f l' = map f l → l' !! k = Some x →
  ∃ y, l !! k = Some y ∧ f y = f x.
Proof.
  revert l k. induction l' as [|x' l' IH]; intros [|y l] [|k]; simpl; try done; intros [= H1 H2].
  - intros [= ->]. eauto.
  - by apply IH.
Qed.

Lemma grown_chunk wl wl' k cs : grown wl wl' → oi_chunks wl' !! k = Some cs →
  ∃ cs0, oi_chunks wl !! k = Some cs0 ∧ cs_chunk cs = cs_chunk cs0 ∧ cs_first cs = cs_first cs0 ∧ cs_count cs = cs_count cs0.
Proof.
  intros Hg Hk. destruct (map_lookup_eq _ _ _ _ _ (gr_chunks _ _ Hg) Hk) as (cs0 & ? & He). exists cs0.
  injection He as ? ? ?. by split_and!.
Qed.

Lemma grown_task wl wl' n ts : grown wl wl' → oi_tasks wl' !! n = Some ts →
  ∃ ts0, oi_tasks wl !! n = Some ts0 ∧ ts_batch ts = ts_batch ts0 ∧ ts_task ts = ts_task ts0.
Proof.
  intros Hg Hk. destruct (map_lookup_eq _ _ _ _ _ (gr_tasks _ _ Hg) Hk) as (ts0 & ? & He). exists ts0.
  injection He as ? ?. by split_and!.
Qed.

Lemma grown_index wl wl' j b i t : grown wl wl' → wl_batches (oi_workload wl) !! j = Some b → tasks b !! i = Some t →
  ∃ b' t', wl_batches (oi_workload wl') !! j = Some b' ∧ tasks b' !! i = Some t' ∧ info t' = info t ∧
    (t_finished t = true → t_finished t' = true) ∧ (file_failed (oi_errors wl) b → file_failed (oi_errors wl') b').
Proof.
  intros Hg Hb Ht. destruct (Forall2_lookup_l _ _ _ _ _ (gr_batches _ _ Hg) Hb) as (b' & Hb' & Had).
  destruct (ad_tasks _ _ Had _ _ Ht) as (t' & Ht' & Hi & Hf). exists b', t'. split_and!; try done.
  intros Hfail%(gr_errors _ _ Hg). unfold file_failed in *. by rewrite (ad_file _ _ Had).
Qed.

Lemma grown_settled wl wl' ts ts' : grown wl wl' → ts_batch ts' = ts_batch ts → ts_task ts' = ts_task ts →
  settled wl ts → settled wl' ts'.
Proof.
  intros Hg H1 H2 (b & t & Hb & Ht & Hs). destruct (grown_index _ _ _ _ _ _ Hg Hb Ht) as (b' & t' & Hb' & Ht' & _ & Hf & He).
  exists b', t'. rewrite H1, H2. split_and!; [done|done|]. destruct Hs; auto.
Qed.

Lemma grown_span wl wl' k cs : grown wl wl' → oi_chunks wl' !! k = Some cs →
  ∃ cs0, oi_chunks wl !! k = Some cs0 ∧ ∀ n, in_span cs n ↔ in_span cs0 n.
Proof.
  intros Hg (cs0 & H & _ & Hf & Hc)%(grown_chunk _ _ _ _ Hg). exists cs0. split; [done|].
  intros n. unfold in_span. by rewrite Hf, Hc.
Qed.

Lemma grown_open wl wl' (o : list Z) base k cs n : grown wl wl' → oi_chunks wl !! k = Some cs → in_span cs n →
  base + Z.of_nat k ∈ o → ∃ k cs, oi_chunks wl' !! k = Some cs ∧ in_span cs n ∧ base + Z.of_nat k ∈ o.
Proof.
  intros Hg Hk Hs Ho. destruct (map_lookup_eq _ _ _ _ _ (eq_sym (gr_chunks _ _ Hg)) Hk) as (cs2 & Hk2 & He).
  exists k, cs2. injection He as _ He1 He2. split_and!; [done| |done]. unfold in_span in *. by rewrite He1, He2.
Qed.

Lemma grown_count wl wl' base n (o : list Z) : grown wl wl' →
  filter (in_block base (set_remaining n wl')) o = filter (in_block base wl) o.
Proof. intros [Hl _]%grown_length. apply list_filter_iff. intros h. unfold in_block. simpl. by rewrite Hl. Qed.

Lemma layout_grown base wl wl' n : layout_ok base wl → grown wl wl' → layout_ok base (set_remaining n wl').
Proof.
  intros [H1 H2 H3 H4] Hg. destruct (grown_length _ _ Hg) as [_ Hlt]. split; simpl.
  - intros k' cs' (cs0 & Hk0 & -> & -> & ->)%(grown_chunk _ _ _ _ Hg). rewrite Hlt. eauto.
  - intros k1 k2 cs1 cs2 i (cs1' & Hk1 & Hs1)%(grown_span _ _ _ _ Hg) (cs2' & Hk2 & Hs2)%(grown_span _ _ _ _ Hg).
    rewrite Hs1, Hs2. eauto.
  - intros i ts (ts0 & Hn & -> & ->)%(grown_task _ _ _ _ Hg). destruct (H3 _ _ Hn) as (b & t & Hb & Ht & Hz).
    destruct (grown_index _ _ _ _ _ _ Hg Hb Ht) as (b' & t' & Hb' & Ht' & Hi & Hf & _). exists b', t'.
    split_and!; [done|done|]. unfold t_bytesize in *. rewrite Hi. auto.
  - intros j b' i t' Hb' Ht'. destruct (Forall2_lookup_r _ _ _ _ _ (gr_batches _ _ Hg) Hb') as (b & Hb & Had).
    destruct (lookup_lt_is_Some_2 (tasks b) i) as [t Ht].
    { rewrite <- (ad_length _ _ Had). by eapply lookup_lt_Some. }
    destruct (H4 _ _ _ _ Hb Ht) as (m & ts & Hn & <- & <-).
    destruct (map_lookup_eq _ _ _ _ _ (eq_sym (gr_tasks _ _ Hg)) Hn) as (ts' & Hn' & He). injection He as He1 He2.
    by exists m, ts'.
Qed.

(** The books of a workload whose chunk [k] ended: its span is settled, and other tasks keep their errors. *)
Lemma workload_ok_closed o base wl wl' k cs :
  NoDup (base + Z.of_nat k :: o) → workload_ok (base + Z.of_nat k :: o) base wl → oi_chunks wl !! k = Some cs →
  grown wl wl' → errors_ok (oi_errors wl') →
  (∀ n ts, oi_tasks wl' !! n = Some ts → in_span cs n → settled wl' ts) →
  (∀ n, ¬ in_span cs n → oi_tasks wl' !! n = oi_tasks wl !! n) →
  workload_ok o base (set_remaining (oi_remaining wl - 1) wl').
Proof.
  intros Hnd [H1 H5 H6 H7 H8] Hk Hg Herr Hspan Hout. apply NoDup_cons in Hnd as [Hnot _]. split; simpl.
  - by eapply layout_grown.
  - intros n ts Hn. destruct (grown_task _ _ _ _ Hg Hn) as (ts0 & Hn0 & Hb & Ht).
    destruct (H5 _ _ Hn0) as [Hs|(k' & cs' & Hk' & Hs & [He|Ho]%elem_of_cons)].
    + left. destruct (grown_settled _ _ _ _ Hg Hb Ht Hs) as (b & t & ?). by exists b, t.
    + left. assert (k' = k) as -> by lia. assert (cs' = cs) as -> by congruence.
      destruct (Hspan _ _ Hn Hs) as (b & t & ?). by exists b, t.
    + right. by eapply grown_open.
  - intros k' cs' n ts Hk' Ho Hs Hn. destruct (grown_span _ _ _ _ Hg Hk') as (cs0 & Hk0 & Hsp). apply Hsp in Hs.
    rewrite Hout in Hn; [|].
    + eapply H6; [exact Hk0|by right|done|done].
    + intros Hs'. assert (k' = k) as -> by (eapply (lo_apart _ _ H1); eauto). done.
  - done.
  - rewrite (grown_count _ _ _ _ _ Hg), H8.
    rewrite filter_cons_True by (unfold in_block; apply lookup_lt_Some in Hk; lia). simpl. lia.
Qed.

(** An operation that ends nothing. *)
Lemma workload_ok_grown o base wl wl' : workload_ok o base wl → grown wl wl' →
  oi_errors wl' = oi_errors wl → oi_tasks wl' = oi_tasks wl → workload_ok o base wl'.
Proof.
  intros [H1 H5 H6 H7 H8] Hg He Ht. split; rewrite ?Ht, ?He; try done.
  - replace wl' with (set_remaining (oi_remaining wl') wl') by by destruct wl'. by eapply layout_grown.
  - intros n ts Hn. destruct (H5 _ _ Hn) as [Hs|(k' & cs' & Hk' & Hs & Ho)]; [left|right].
    + by eapply grown_settled.
    + by eapply grown_open.
  - intros k' cs' n ts Hk' Ho Hs. destruct (grown_span _ _ _ _ Hg Hk') as (cs0 & Hk0 & Hsp). apply Hsp in Hs. eauto.
  - rewrite (gr_remaining _ _ Hg), H8, <- (grown_count _ _ base (oi_remaining wl') o Hg). by destruct wl'.
Qed.

(** ** All workloads *)

Record ledger (o : list Z) (l : list (Z * Inflight)) (next : Z) : Prop := {
  lg_blocks : blocks_ok 1 l next;
  lg_next : next < size_modulus;
  lg_nodup : NoDup o;
  lg_open : ∀ h, h ∈ o → ∃ base i, located h l base i;
  lg_workloads : ∀ base wl, assoc base l = Some wl → workload_ok o base wl ∧ 0 < oi_remaining wl }.

Lemma ledger_perm o o' l next : o ≡ₚ o' → ledger o l next → ledger o' l next.
Proof.
  intros Hp [H1 H2 H3 H4 H5]. split; [done|done|by rewrite <- Hp|intros h; rewrite <- Hp; eauto|].
  intros base wl [Hw Hr]%H5. split; [|done]. eapply workload_ok_ext; [|exact Hw]. by rewrite Hp.
Qed.

Lemma ledger_size o l next h : ledger o l next → h < next → 0 <= h → is_size h.
Proof. intros [_ H _ _ _]. unfold is_size. lia. Qed.

Lemma ledger_locate o l next h : ledger o l next → h ∈ o →
  ∃ base i wl cs, locate h l = Some (base, i) ∧ h = base + Z.of_nat i ∧ assoc base l = Some wl ∧ oi_chunks wl !! i = Some cs.
Proof.
  intros [H1 H2 H3 H4 H5] (base & i & Hl)%H4. pose proof (located_range _ _ _ _ _ _ H1 Hl).
  pose proof Hl as (wl & Ha & He & [cs Hcs]%lookup_lt_is_Some_2). exists base, i, wl, cs. split_and!; [|done..].
  apply (locate_Some 1 _ next); try done. unfold is_size. lia.
Qed.

Lemma ledger_unlocated o l next h : ledger o l next → is_size h → locate h l = None → h ∉ o.
Proof. intros Hl Hs Hn (base & i & wl & cs & He & _)%(ledger_locate _ _ _ _ Hl). congruence. Qed.

(** Every open handle is a handle ever given, so there are not too many. *)
Lemma NoDup_range (l : list Z) a b : NoDup l → (∀ x, x ∈ l → a <= x < b) → Z.of_nat (length l) <= Z.max 0 (b - a).
Proof.
  intros Hnd Hr. assert (l ⊆+ seqZ a (b - a)) as Hs.
  { apply NoDup_submseteq; [done|]. intros x Hx%Hr. apply elem_of_seqZ. lia. }
  apply submseteq_length in Hs. rewrite length_seqZ in Hs. lia.
Qed.

Lemma ledger_length o l next : ledger o l next → Z.of_nat (length o) + 1 < size_modulus.
Proof.
  intros [H1 H2 H3 H4 H5]. pose proof (blocks_le _ _ _ H1).
  assert (Z.of_nat (length o) <= Z.max 0 (next - 1)); [|lia]. apply NoDup_range; [done|].
  intros h (base & i & Hl)%H4. by eapply located_range.
Qed.

Lemma workload_ok_forget h o base wl : ¬ in_block base wl h → workload_ok (h :: o) base wl → workload_ok o base wl.
Proof. intros Hn. apply workload_ok_ext. by rewrite filter_cons_False. Qed.

Lemma workload_ok_done o base wl h : workload_ok o base wl → oi_remaining wl = 0 → in_block base wl h → h ∉ o.
Proof.
  intros Hw Hr Hb Ho. pose proof (wk_count _ _ _ Hw) as Hc. rewrite Hr in Hc.
  assert (h ∈ filter (in_block base wl) o) as Hin by by apply list_elem_of_filter.
  destruct (filter (in_block base wl) o) as [|z zs]; [by apply elem_of_nil in Hin|simpl in Hc; lia].
Qed.

(** Two blocks share no handle. *)
Lemma blocks_apart lo l hi base wl base' wl' h : blocks_ok lo l hi → assoc base l = Some wl → assoc base' l = Some wl' →
  in_block base wl h → in_block base' wl' h → base = base'.
Proof.
  intros Hl Ha Ha' Hb Hb'. unfold in_block in *.
  apply (located_unique lo l hi h base (Z.to_nat (h - base)) base' (Z.to_nat (h - base')) Hl).
  - exists wl. split; [done|]. lia.
  - exists wl'. split; [done|]. lia.
Qed.

Lemma located_set h l base wl wl' b i : assoc base l = Some wl → length (oi_chunks wl') = length (oi_chunks wl) →
  located h l b i → located h (assoc_set base wl' l) b i.
Proof.
  intros Ha Hlen (x & Hx & -> & Hi). destruct (decide (b = base)) as [->|Hne].
  - exists wl'. rewrite assoc_set_eq by eauto. assert (x = wl) as -> by congruence. by rewrite Hlen.
  - exists x. by rewrite assoc_set_ne.
Qed.

(** One workload changes, and the handles [gone] of its own end. *)
Lemma ledger_set gone o l next base wl wl' : ledger (gone ++ o) l next → assoc base l = Some wl →
  (∀ h, h ∈ gone → in_block base wl h) → length (oi_chunks wl') = length (oi_chunks wl) →
  workload_ok o base wl' → 0 < oi_remaining wl' → ledger o (assoc_set base wl' l) next.
Proof.
  intros [H1 H2 H3 H4 H5] Ha Hgone Hlen Hw Hr. split; [|done|by apply NoDup_app in H3 as (_ & _ & ?)| |].
  - eapply blocks_shape; [|exact H1]. symmetry. by eapply shape_set.
  - intros h Hh. destruct (H4 h) as (b & i & Hl); [apply elem_of_app; by right|]. exists b, i. by eapply located_set.
  - intros b x. destruct (decide (b = base)) as [->|Hne].
    + rewrite assoc_set_eq by eauto. by intros [= <-].
    + rewrite assoc_set_ne by done. intros Hx. destruct (H5 _ _ Hx) as [Hok Hpos]. split; [|done].
      eapply workload_ok_ext; [|exact Hok]. rewrite filter_app, filter_none; [done|].
      intros h Hh%Hgone Hb. apply Hne. symmetry. by eapply blocks_apart.
Qed.

(** The last chunk of a workload ends, and the workload goes. *)
Lemma ledger_finish gone o l next base wl wl' : ledger (gone ++ o) l next → assoc base l = Some wl →
  (∀ h, h ∈ gone → in_block base wl h) → length (oi_chunks wl') = length (oi_chunks wl) →
  workload_ok o base wl' → oi_remaining wl' = 0 → ledger o (assoc_remove base l) next.
Proof.
  intros [H1 H2 H3 H4 H5] Ha Hgone Hlen Hw Hr. split; [by apply blocks_remove|done|by apply NoDup_app in H3 as (_ & _ & ?)| |].
  - intros h Hh. destruct (H4 h) as (b & i & x & Hx & He & Hi); [apply elem_of_app; by right|].
    exists b, i, x. rewrite assoc_remove_ne; [done|]. intros ->.
    assert (x = wl) as -> by congruence. apply (workload_ok_done _ _ _ h Hw Hr); [|done]. unfold in_block. lia.
  - intros b x Hx. assert (b ≠ base) as Hne.
    { intros ->. rewrite (blocks_keys _ _ _ _ H1) in Hx. done. }
    rewrite assoc_remove_ne in Hx by done. destruct (H5 _ _ Hx) as [Hok Hpos]. split; [|done].
    eapply workload_ok_ext; [|exact Hok]. rewrite filter_app, filter_none; [done|].
    intros h Hh%Hgone Hb. apply Hne. symmetry. by eapply blocks_apart.
Qed.

(** ** The staging buffers of the chunks *)

Definition chunk_staging (cs : ChunkState) : list StagingBuffer :=
  if staging_valid (cs_staging cs) then [cs_staging cs] else [].

Definition stagings_of (cs : list ChunkState) : list StagingBuffer := concat (map chunk_staging cs).
Definition stagings (l : list (Z * Inflight)) : list StagingBuffer := concat (map (λ x, stagings_of (oi_chunks x.2)) l).

Lemma stagings_of_app l l' : stagings_of (l ++ l') = stagings_of l ++ stagings_of l'.
Proof. unfold stagings_of. by rewrite map_app, concat_app. Qed.

Lemma stagings_app l l' : stagings (l ++ l') = stagings l ++ stagings l'.
Proof. unfold stagings. by rewrite map_app, concat_app. Qed.

Lemma stagings_cons x l : stagings (x :: l) = stagings_of (oi_chunks x.2) ++ stagings l.
Proof. done. Qed.

(** The buffers apart from those of one workload. *)
Lemma stagings_split base wl l : assoc base l = Some wl → ∃ rest, stagings l ≡ₚ stagings_of (oi_chunks wl) ++ rest ∧
  (∀ wl', stagings (assoc_set base wl' l) ≡ₚ stagings_of (oi_chunks wl') ++ rest) ∧ stagings (assoc_remove base l) ≡ₚ rest.
Proof.
  intros (l1 & l2 & -> & H)%assoc_split. exists (stagings l1 ++ stagings l2). split_and!.
  - rewrite stagings_app, stagings_cons. simpl. solve_Permutation.
  - intros wl'. rewrite (assoc_set_split _ wl) by done. rewrite stagings_app, stagings_cons. simpl. solve_Permutation.
  - by rewrite (assoc_remove_split _ wl), stagings_app by done.
Qed.

Lemma stagings_of_split k cs l : l !! k = Some cs → ∃ rest, stagings_of l ≡ₚ chunk_staging cs ++ rest ∧
  ∀ cs', stagings_of (<[k := cs']> l) ≡ₚ chunk_staging cs' ++ rest.
Proof.
  intros (l1 & l2 & -> & ->)%list_elem_of_split_length. exists (stagings_of l1 ++ stagings_of l2). split.
  - rewrite stagings_of_app. unfold stagings_of at 2. simpl. solve_Permutation.
  - intros cs'. rewrite insert_app_r_alt, Nat.sub_diag by lia. simpl. rewrite stagings_of_app.
    unfold stagings_of at 2. simpl. solve_Permutation.
Qed.

Lemma stagings_of_same l l' : map cs_staging l' = map cs_staging l → stagings_of l' = stagings_of l.
Proof.
  revert l. induction l' as [|x' l' IH]; intros [|x l]; simpl; try done. intros [= H1 H2%IH].
  unfold stagings_of, chunk_staging in *. simpl. by rewrite H1, H2.
Qed.

Lemma stagings_same base wl wl' l : assoc base l = Some wl → map cs_staging (oi_chunks wl') = map cs_staging (oi_chunks wl) →
  stagings (assoc_set base wl' l) ≡ₚ stagings l.
Proof.
  intros (rest & -> & Hs & _)%stagings_split He. by rewrite Hs, (stagings_of_same _ _ He).
Qed.

Lemma list_insert_map_staging k cs l : map cs_staging (<[k := cs]> l) = <[k := cs_staging cs]> (map cs_staging l).
Proof. apply (list_fmap_insert cs_staging). Qed.

(** [busy] are the handles of the chunks that may hold a buffer; without a pool there is none. *)
Record buffers (busy : list Z) (l : list (Z * Inflight)) (held : list StagingBuffer) (pool : bool) : Prop := {
  bf_busy : ∀ base wl k cs, assoc base l = Some wl → oi_chunks wl !! k = Some cs →
    staging_valid (cs_staging cs) = true → base + Z.of_nat k ∈ busy;
  bf_held : held ≡ₚ stagings l;
  bf_pool : pool = false → stagings l = [] }.

Lemma buffers_busy busy busy' l held pool : (∀ h, h ∈ busy → h ∈ busy') → buffers busy l held pool → buffers busy' l held pool.
Proof. intros Hb [H1 H2 H3]. split; eauto. Qed.

(** A workload changes, but for its buffers. *)
Lemma buffers_set busy l held pool base wl wl' : buffers busy l held pool → assoc base l = Some wl →
  map cs_staging (oi_chunks wl') = map cs_staging (oi_chunks wl) → buffers busy (assoc_set base wl' l) held pool.
Proof.
  intros [H1 H2 H3] Ha Hs. split.
  - intros b x k cs. destruct (decide (b = base)) as [->|Hne].
    + rewrite assoc_set_eq by eauto. intros [= <-] Hk Hv.
      destruct (map_lookup_eq _ _ _ _ _ Hs Hk) as (cs0 & Hk0 & He). rewrite <- He in Hv. eauto.
    + rewrite assoc_set_ne by done. eauto.
  - by rewrite H2, stagings_same by done.
  - intros Hp. apply Permutation_nil_r. rewrite stagings_same by done. by rewrite H3.
Qed.

(** One chunk gives its buffer up, or gets one. *)
Lemma buffers_set_chunk busy busy' l held held' pool base wl k cs cs' rest :
  buffers busy l held pool → assoc base l = Some wl → oi_chunks wl !! k = Some cs →
  (∀ h, h ∈ busy → h ∈ busy' ∨ h = base + Z.of_nat k) →
  (base + Z.of_nat k ∈ busy' ∨ staging_valid (cs_staging cs') = false) →
  (∀ b x j c, assoc b l = Some x → oi_chunks x !! j = Some c → b + Z.of_nat j = base + Z.of_nat k → b = base ∧ j = k) →
  held ≡ₚ chunk_staging cs ++ rest → held' ≡ₚ chunk_staging cs' ++ rest →
  (pool = false → staging_valid (cs_staging cs') = false) →
  buffers busy' (assoc_set base (set_chunk k cs' wl) l) held' pool.
Proof.
  intros [H1 H2 H3] Ha Hk Hsub Hb Huniq Hh Hh' Hpool.
  destruct (stagings_split _ _ _ Ha) as (r1 & Hr1 & Hset & _).
  destruct (stagings_of_split _ _ _ Hk) as (r2 & Hr2 & Hset2).
  assert (stagings (assoc_set base (set_chunk k cs' wl) l) ≡ₚ chunk_staging cs' ++ r2 ++ r1) as Hnew.
  { rewrite Hset. simpl. by rewrite Hset2, app_assoc. }
  assert (rest ≡ₚ r2 ++ r1) as Hrest.
  { apply (Permutation_app_inv_l (chunk_staging cs)). by rewrite <- Hh, H2, Hr1, Hr2, app_assoc. }
  split.
  - intros b x j c. destruct (decide (b = base)) as [->|Hne].
    + rewrite assoc_set_eq by eauto. intros [= <-]. simpl. intros Hj Hv.
      destruct (decide (j = k)) as [->|Hjk].
      * rewrite list_lookup_insert_eq in Hj by (by eapply lookup_lt_Some). injection Hj as <-.
        destruct Hb; [done|congruence].
      * rewrite list_lookup_insert_ne in Hj by done. destruct (Hsub _ (H1 _ _ _ _ Ha Hj Hv)); [done|lia].
    + rewrite assoc_set_ne by done. intros Hx Hj Hv. destruct (Hsub _ (H1 _ _ _ _ Hx Hj Hv)) as [|He]; [done|].
      by destruct (Huniq _ _ _ _ Hx Hj He).
  - by rewrite Hnew, Hh', Hrest.
  - intros Hp. apply Permutation_nil_r. rewrite Hnew. unfold chunk_staging. rewrite (Hpool Hp). simpl.
    pose proof (H3 Hp) as Hn. rewrite Hn in Hr1. symmetry in Hr1. apply Permutation_nil_r in Hr1 as [Hr1 ->]%app_eq_nil.
    rewrite Hr1 in Hr2. symmetry in Hr2. apply Permutation_nil_r in Hr2 as [_ ->]%app_eq_nil. done.
Qed.

Lemma buffers_finish busy l held pool base wl : buffers busy l held pool → assoc base l = Some wl →
  stagings_of (oi_chunks wl) = [] → (assoc base (assoc_remove base l) = None) →
  buffers busy (assoc_remove base l) held pool.
Proof.
  intros [H1 H2 H3] Ha Hs Hnone. destruct (stagings_split _ _ _ Ha) as (r & Hr & _ & Hrm). rewrite Hs in Hr. simpl in Hr.
  split.
  - intros b x k cs. destruct (decide (b = base)) as [->|Hne]; [congruence|]. rewrite assoc_remove_ne by done. eauto.
  - by rewrite Hrm, H2.
  - intros Hp. apply Permutation_nil_r. by rewrite Hrm, <- Hr, H3.
Qed.
