(* ===== verification/ObjectStorageChunks.v ===== *)
(** How the chunks of an object storage worker end, are copied, submitted, parked and tried again: each keeps
    the worker's books, none throws. *)

From S2P Require Import Prelude ResponseCode Text SharedQueue Task ChunkSplitter Batch Workload.
From S2P Require Import CapacityQueue InflightChunks Reporting ObjectStorageRetry ObjectStorageIo ObjectStorageWorker.
From S2P Require Import ObjectStorageBooks.

Lemma assoc_remove_set {A} k (y : A) l : assoc_remove k (assoc_set k y l) = assoc_remove k l.
Proof.
  induction l as [|[k' z] l IH]; simpl; [done|]. destruct (k =? k') eqn:Hk; simpl; rewrite Hk; [done|by rewrite IH].
Qed.

Lemma layout_grown_same base wl wl' : layout_ok base wl → grown wl wl' → layout_ok base wl'.
Proof.
  intros Hl Hg. replace wl' with (set_remaining (oi_remaining wl') wl') by by destruct wl'. by eapply layout_grown.
Qed.

Lemma Forall2_advanced_insert bs j b b' : bs !! j = Some b → advanced b b' → Forall2 advanced bs (<[j := b']> bs).
Proof.
  intros Hj Ha. rewrite <- (list_insert_id _ _ _ Hj) at 1. by apply Forall2_insert; [apply Forall2_advanced_refl|].
Qed.

Definition mine (l : list (Z * Inflight)) : list Batch := concat (map (λ x, wl_batches (oi_workload x.2)) l).

Lemma mine_of_app l1 l2 : mine (l1 ++ l2) = mine l1 ++ mine l2.
Proof. unfold mine. by rewrite map_app, concat_app. Qed.

(** A chunk of [wl] changes, but not its place. *)
Lemma grown_set_chunk wl k cs cs' : oi_chunks wl !! k = Some cs → chunk_place cs' = chunk_place cs →
  grown wl (set_chunk k cs' wl).
Proof.
  intros Hk Hp. split; simpl; auto; [|apply Forall2_advanced_refl].
  apply list_eq. intros j. destruct (decide (j = k)) as [->|Hne].
  - apply lookup_lt_Some in Hk as Hlt. etrans; [apply list_lookup_fmap|]. symmetry. etrans; [apply list_lookup_fmap|].
    rewrite list_lookup_insert_eq, Hk by done. simpl. by rewrite Hp.
  - etrans; [apply list_lookup_fmap|]. symmetry. etrans; [apply list_lookup_fmap|]. by rewrite list_lookup_insert_ne.
Qed.

Section Chunks.
Context {R B C : Type} `{!Responder R, !ObjectReader B, !CopyPath C, !ReaderLaws B, !CopyLaws C}.
Context (owner : nat → Z) (log0 : list Response) (others : list Batch) (said : list Z).

Local Abbreviation worker := (worker (R := R) (B := B) (C := C)).
Local Abbreviation system_ok := (system_ok owner log0).
Implicit Types (w : worker).

(** ** The tasks of a span *)

Lemma report_task_spec n ret wl ts a before after (x : world (R := R)) :
  system_ok a (before ++ wl_batches (oi_workload wl) ++ after) x → errors_ok (oi_errors wl) →
  oi_tasks wl !! n = Some ts →
  (∃ b t, wl_batches (oi_workload wl) !! ts_batch ts = Some b ∧ tasks b !! ts_task ts = Some t ∧
      (t_bytesize t = 0 → t_finished t = true)) →
  ∃ wl' x' a', report_task n ret wl x = Ret (wl', x') ∧ grown wl wl' ∧ errors_ok (oi_errors wl') ∧
    oi_chunks wl' = oi_chunks wl ∧ (∃ ts', oi_tasks wl' !! n = Some ts' ∧ settled wl' ts') ∧
    (∀ m, m ≠ n → oi_tasks wl' !! m = oi_tasks wl !! m) ∧
    system_ok a' (before ++ wl_batches (oi_workload wl') ++ after) x'.
Proof.
  intros Hs Herr Hn (b & t & Hb & Ht & Hz). unfold report_task. rewrite Hn, Hb, Ht.
  destruct (Z.eqb_spec (t_bytesize t) 0) as [H0|H0].
  { exists wl, x, a. split_and!; try done; [apply grown_refl|]. exists ts. split; [done|]. exists b, t. auto. }
  assert (∀ wl0, map task_place (oi_tasks (set_error n ret wl0)) = map task_place (oi_tasks wl0)) as Hplace.
  { intros wl0. simpl. apply list_eq. intros m. etrans; [apply list_lookup_fmap|]. symmetry.
    etrans; [apply list_lookup_fmap|]. destruct (decide (m = n)) as [->|Hne].
    - rewrite list_lookup_alter_eq. by destruct (oi_tasks wl0 !! n).
    - by rewrite list_lookup_alter_ne. }
  set (ts' := mkTaskState (ts_batch ts) (ts_task ts) ret).
  assert (oi_tasks (set_error n ret wl) !! n = Some ts') as Hn' by (simpl; by rewrite list_lookup_alter_eq, Hn).
  assert (∀ m, m ≠ n → oi_tasks (set_error n ret wl) !! m = oi_tasks wl !! m) as Hm.
  { intros m Hne. simpl. by rewrite list_lookup_alter_ne. }
  destruct (decide (ret = Success)) as [->|Hret].
  - pose proof Hb as (l1 & l2 & El & Ej)%list_elem_of_split_length. rewrite El in Hs.
    replace (before ++ (l1 ++ b :: l2) ++ after) with ((before ++ l1) ++ b :: (l2 ++ after)) in Hs
      by by rewrite <- !app_assoc.
    destruct (handle_response_total owner log0 _ _ _ _ _ _ _ Hs Ht) as (x' & a' & -> & Hs'). cbn [obind].
    set (b' := set_tasks b _ _) in *. eexists _, x', a'. split; [done|].
    assert (Forall2 advanced (wl_batches (oi_workload wl)) (<[ts_batch ts := b']> (wl_batches (oi_workload wl)))) as Hadv.
    { by eapply Forall2_advanced_insert, advanced_one. }
    split_and!.
    + split; [done|apply (Hplace wl)|done|done|auto|done].
    + done.
    + done.
    + exists ts'. split; [done|]. exists b', (set_finished t). simpl. rewrite list_lookup_insert_eq by (by eapply lookup_lt_Some).
      rewrite list_lookup_insert_eq by (by eapply lookup_lt_Some). auto.
    + done.
    + simpl. rewrite El, Ej, insert_app_r_alt, Nat.sub_diag by lia. simpl. by rewrite <- !app_assoc in *.
  - destruct (record_error_spec ret b (oi_errors wl) Herr Hret) as (He1 & Hf1 & Hm1).
    eexists _, x, a. split; [done|]. split_and!; try done.
    + split; [done|apply (Hplace wl)|apply Forall2_advanced_refl|done|done|done].
    + exists ts'. split; [done|]. exists b, t. auto.
Qed.

Lemma report_span_spec base n : ∀ i ret wl a before after (x : world (R := R)),
  system_ok a (before ++ wl_batches (oi_workload wl) ++ after) x → errors_ok (oi_errors wl) → layout_ok base wl →
  (i + n <= length (oi_tasks wl))%nat →
  ∃ wl' x' a', report_span n i ret wl x = Ret (wl', x') ∧ grown wl wl' ∧ errors_ok (oi_errors wl') ∧
    oi_chunks wl' = oi_chunks wl ∧
    (∀ m ts, (i <= m < i + n)%nat → oi_tasks wl' !! m = Some ts → settled wl' ts) ∧
    (∀ m, ¬ (i <= m < i + n)%nat → oi_tasks wl' !! m = oi_tasks wl !! m) ∧
    system_ok a' (before ++ wl_batches (oi_workload wl') ++ after) x'.
Proof.
  induction n as [|n IH]; intros i ret wl a before after x Hs Herr Hlay Hlen; simpl.
  { exists wl, x, a. split_and!; try done; [apply grown_refl|]. intros. lia. }
  destruct (lookup_lt_is_Some_2 (oi_tasks wl) i) as [ts Hn]; [lia|].
  destruct (report_task_spec i ret wl ts a before after x Hs Herr Hn (lo_index _ _ Hlay _ _ Hn))
    as (wl1 & x1 & a1 & -> & Hg1 & He1 & Hc1 & (ts1 & Hts1 & Hset1) & Hout1 & Hs1). cbn [obind].
  destruct (IH (S i) ret wl1 a1 before after x1 Hs1 He1) as (wl2 & x2 & a2 & -> & Hg2 & He2 & Hc2 & Hset2 & Hout2 & Hs2).
  { by eapply layout_grown_same. }
  { destruct (grown_length _ _ Hg1) as [_ ->]. lia. }
  exists wl2, x2, a2. split_and!; [done|by eapply grows_trans|done|congruence| | |done].
  - intros m ts2 Hm Hts2. destruct (decide (m = i)) as [->|Hne]; [|apply (Hset2 m); [lia|done]].
    rewrite Hout2 in Hts2 by lia. assert (ts2 = ts1) as -> by congruence. by eapply grown_settled.
  - intros m Hm. rewrite Hout2, Hout1 by lia. done.
Qed.

(** ** The books *)

Definition queued_handles w : list Z := map (λ x, oc_handle x.1) (queued (ow_queue w)).
Definition delayed_handles w : list Z := map snd (rt_delayed (ow_retry w)).

(** [hand] are the chunks the worker is dealing with, each with whether it has window credit; [live] are those
    being read. *)
Definition open_handles (hand : list (Z * bool)) (live : list Z) w : list Z :=
  map fst hand ++ queued_handles w ++ delayed_handles w ++ ow_waiting w ++ ow_waiting_retries w ++ live ++
  in_copy (ow_path w).

Definition credited (hand : list (Z * bool)) : nat := length (filter (λ x, x.2 = true) hand).

Record answering w : Prop := {
  an_system : ∃ answered, system_ok answered (others ++ ow_retired w ++ mine (ow_inflight w)) (ow_world w);
  an_retired : Forall all_done (ow_retired w) }.

(** [stale] are reads of workloads that were given up, which the backend may still report; [said] are reads it
    has reported and the worker has not looked at. *)
Record books (hand : list (Z * bool)) (live stale : list Z) w : Prop := {
  bk_ledger : ledger (open_handles hand live w) (ow_inflight w) (ow_next w);
  bk_reading : said ++ reading (ow_reader w) ≡ₚ live ++ stale;
  bk_stale : ∀ h, h ∈ stale → 0 <= h < ow_next w ∧ locate h (ow_inflight w) = None;
  bk_costs : Forall (λ x, x.2 = 1) (queued (ow_queue w));
  bk_credit : inflight (ow_queue w) =
    Z.of_nat (credited hand + length (ow_waiting w) + length (ow_waiting_retries w) + length live);
  bk_copies : ow_copies w = Z.of_nat (length (in_copy (ow_path w)));
  bk_buffers : buffers (map fst hand ++ live) (ow_inflight w) (held (ow_path w)) (ow_pool w);
  bk_answers : answering w }.

(** What ending or submitting a chunk leaves alone. *)
Record kept w w' : Prop := {
  kp_retry : ow_retry w' = ow_retry w;
  kp_next : ow_next w' = ow_next w;
  kp_queued : queued (ow_queue w') = queued (ow_queue w);
  kp_capacity : capacity (ow_queue w') = capacity (ow_queue w) }.

Lemma still_kept w : kept w w.
Proof. by split. Qed.

Lemma kept_then w1 w2 w3 : kept w1 w2 → kept w2 w3 → kept w1 w3.
Proof. intros [] []. split; congruence. Qed.

(** Where a chunk in hand is. *)
Record found w h base i wl cs : Prop := {
  fd_locate : locate h (ow_inflight w) = Some (base, i);
  fd_handle : h = base + Z.of_nat i;
  fd_workload : assoc base (ow_inflight w) = Some wl;
  fd_chunk : oi_chunks wl !! i = Some cs }.

Lemma books_found hand live stale w h c : books ((h, c) :: hand) live stale w → ∃ base i wl cs, found w h base i wl cs.
Proof.
  intros Hb. destruct (ledger_locate _ _ _ h (bk_ledger _ _ _ _ Hb)) as (base & i & wl & cs & ? & ? & ? & ?); [by left|].
  by exists base, i, wl, cs.
Qed.

Lemma found_chunk_at w h base i wl cs : found w h base i wl cs → chunk_at base i w = Ret (wl, cs).
Proof. intros [_ _ H1 H2]. unfold chunk_at. by rewrite H1, H2. Qed.

Lemma found_unique hand live stale w h base i wl cs : books hand live stale w → found w h base i wl cs →
  ∀ b x j c, assoc b (ow_inflight w) = Some x → oi_chunks x !! j = Some c → b + Z.of_nat j = h → b = base ∧ j = i.
Proof.
  intros Hb [_ -> H1 H2] b x j c Hx Hj He. eapply (located_unique 1 _ (ow_next w) (base + Z.of_nat i));
    [apply (lg_blocks _ _ _ (bk_ledger _ _ _ _ Hb))| |].
  - exists x. split_and!; [done|done|by eapply lookup_lt_Some].
  - exists wl. split_and!; [done|done|by eapply lookup_lt_Some].
Qed.

(** Storing a workload that did not move. *)
Lemma store_stale hand live stale w base wl wl' : books hand live stale w → assoc base (ow_inflight w) = Some wl →
  length (oi_chunks wl') = length (oi_chunks wl) →
  ∀ h, h ∈ stale → 0 <= h < ow_next w ∧ locate h (assoc_set base wl' (ow_inflight w)) = None.
Proof.
  intros Hb Ha Hlen h Hh%(bk_stale _ _ _ _ Hb). by rewrite (locate_shape _ _ (ow_inflight w)) by by eapply shape_set.
Qed.

Lemma remove_stale h l base lo hi : 0 <= lo → hi < size_modulus → is_size h → blocks_ok lo l hi →
  locate h l = None → locate h (assoc_remove base l) = None.
Proof.
  intros Hlo Hhi Hh Hl Hn. destruct (locate h (assoc_remove base l)) as [[b i]|] eqn:E1; [|done].
  apply (locate_Some lo _ hi) in E1; [|done..|by apply blocks_remove]. destruct E1 as (x & Hx & He & Hi).
  assert (b ≠ base) as Hne by (intros ->; rewrite (blocks_keys _ _ _ _ Hl) in Hx; done).
  rewrite assoc_remove_ne in Hx by done.
  assert (locate h l = Some (b, i)) as E2 by (apply (locate_Some lo _ hi); try done; by exists x). congruence.
Qed.

Lemma credited_cons h c hand : credited ((h, c) :: hand) = ((if c then 1 else 0) + credited hand)%nat.
Proof. unfold credited. by destruct c. Qed.

(** ** The end of a chunk *)

Lemma settled_batches o base wl : workload_ok o base wl → oi_remaining wl = 0 →
  Forall (λ b, file_failed (oi_errors wl) b ∨ all_done b) (wl_batches (oi_workload wl)).
Proof.
  intros Hw Hr. pose proof Hw as [Hlay Hset _ _ _]. apply Forall_lookup. intros j b Hb.
  destruct (oi_errors wl !! b_file_index b) as [c|] eqn:He; [left; by exists c|right].
  apply Forall_lookup. intros i t Ht. destruct (lo_all _ _ Hlay _ _ _ _ Hb Ht) as (n & ts & Hn & <- & <-).
  destruct (Hset _ _ Hn) as [(b' & t' & Hb' & Ht' & Hd)|(k & cs & Hk & _ & Ho)].
  - assert (b' = b) as -> by congruence. assert (t' = t) as -> by congruence.
    destruct Hd as [|[c Hc]]; [done|congruence].
  - exfalso. apply lookup_lt_Some in Hk. apply (workload_ok_done _ _ _ (base + Z.of_nat k) Hw Hr); [unfold in_block; lia|done].
Qed.

(** The workload's batches among all of them. *)
Lemma answering_workload a w base wl : system_ok a (others ++ ow_retired w ++ mine (ow_inflight w)) (ow_world w) →
  assoc base (ow_inflight w) = Some wl →
  ∃ before after, system_ok a (before ++ wl_batches (oi_workload wl) ++ after) (ow_world w) ∧
    (∀ wl' a' x, system_ok a' (before ++ wl_batches (oi_workload wl') ++ after) x →
       system_ok a' (others ++ ow_retired w ++ mine (assoc_set base wl' (ow_inflight w))) x) ∧
    (∀ bs a' x, system_ok a' (before ++ bs ++ after) x →
       system_ok a' (others ++ (ow_retired w ++ bs) ++ mine (assoc_remove base (ow_inflight w))) x).
Proof.
  intros Hs (l1 & l2 & El & Hl1)%assoc_split.
  exists (others ++ ow_retired w ++ mine l1), (mine l2). rewrite El in *. split_and!.
  - rewrite mine_of_app in Hs. rewrite <- !app_assoc. exact Hs.
  - intros wl' a' x. rewrite (assoc_set_split _ wl), mine_of_app by done. rewrite <- !app_assoc. done.
  - intros bs a' x. rewrite (assoc_remove_split _ wl), mine_of_app by done. apply system_ok_perm. solve_Permutation.
Qed.

Lemma end_workload_spec w base wl code : answering w → assoc base (ow_inflight w) = Some wl → errors_ok (oi_errors wl) →
  code ≠ Success ∨ Forall (λ b, file_failed (oi_errors wl) b ∨ all_done b) (wl_batches (oi_workload wl)) →
  ∃ bs x, finalize base code w = Ret (with_inflight (assoc_remove base (ow_inflight w)) (with_retired bs (with_world x w))) ∧
    answering (with_inflight (assoc_remove base (ow_inflight w)) (with_retired bs (with_world x w))).
Proof.
  intros [[a Hs] Hr] Ha Herr Hcode. destruct (answering_workload a w base wl Hs Ha) as (before & after & Hs1 & _ & Hback).
  unfold finalize. rewrite Ha. unfold report_workload.
  destruct (report_batches_spec owner log0 code (oi_errors wl) _ a before after _ Hs1 Herr Hcode)
    as (bs & x & a' & -> & Hd & Hs'). cbn [obind]. exists bs, x. split; [done|]. split; simpl.
  - exists a'. by apply Hback.
  - by apply Forall_app.
Qed.

Lemma complete_credit q n : inflight q = Z.of_nat (S n) → Z.of_nat (S n) < size_modulus →
  inflight (CapacityQueue.complete 1 q : CapacityQueue ObjectChunk) = Z.of_nat n.
Proof.
  intros Hq Hn. simpl. rewrite Hq, Z.geb_leb, (proj2 (Z.leb_le 1 _)) by lia. rewrite sub64_small; [lia|]. unfold is_size. lia.
Qed.

(** The credit there is has an open chunk behind it. *)
Lemma books_credit hand live stale w : books hand live stale w → inflight (ow_queue w) + 1 < size_modulus.
Proof.
  intros Hb. rewrite (bk_credit _ _ _ _ Hb). pose proof (ledger_length _ _ _ (bk_ledger _ _ _ _ Hb)) as Hl.
  unfold open_handles in Hl. rewrite !length_app, length_map in Hl.
  assert (credited hand <= length hand)%nat by apply length_filter. lia.
Qed.

Lemma buffers_held busy l held pool base wl k cs : buffers busy l held pool → assoc base l = Some wl →
  oi_chunks wl !! k = Some cs → ∃ rest, held ≡ₚ chunk_staging cs ++ rest.
Proof.
  intros [_ Hh _] (r1 & Hr1 & _ & _)%stagings_split (r2 & Hr2 & _)%stagings_of_split. exists (r2 ++ r1).
  by rewrite Hh, Hr1, Hr2, app_assoc.
Qed.

Lemma stagings_of_none l : (∀ k cs, l !! k = Some cs → staging_valid (cs_staging cs) = false) → stagings_of l = [].
Proof.
  induction l as [|c l IH]; intros Hl; [done|]. unfold stagings_of. simpl. fold (stagings_of l).
  unfold chunk_staging. rewrite (Hl 0%nat c eq_refl). apply IH. intros k cs Hk. by apply (Hl (S k)).
Qed.

(** A chunk without its buffer, which goes back to the pool. *)
Definition unstaged (cs : ChunkState) : ChunkState :=
  if staging_valid (cs_staging cs) then with_staging no_staging cs else cs.

Definition unstaged_path (cs : ChunkState) (path : C) : C :=
  if staging_valid (cs_staging cs) then release_buffer (cs_staging cs) path else path.

Lemma set_chunk_same wl i cs : oi_chunks wl !! i = Some cs → set_chunk i cs wl = wl.
Proof. intros Hi. destruct wl as [v l ts e n]. unfold set_chunk, set_chunks. simpl in *. by rewrite list_insert_id. Qed.

Lemma drop_buffer hand live stale w h fs base i wl cs :
  books ((h, fs) :: hand) live stale w → found w h base i wl cs →
  in_copy (unstaged_path cs (ow_path w)) = in_copy (ow_path w) ∧
  buffers (map fst hand ++ live) (assoc_set base (set_chunk i (unstaged cs) wl) (ow_inflight w))
    (held (unstaged_path cs (ow_path w))) (ow_pool w).
Proof.
  intros Hb Hf. pose proof Hf as [_ Hh Ha Hi]. pose proof (bk_buffers _ _ _ _ Hb) as Hbuf.
  destruct (buffers_held _ _ _ _ _ _ _ _ Hbuf Ha Hi) as (rest & Hrest).
  assert (in_copy (unstaged_path cs (ow_path w)) = in_copy (ow_path w) ∧
          held (unstaged_path cs (ow_path w)) ≡ₚ chunk_staging (unstaged cs) ++ rest ∧
          staging_valid (cs_staging (unstaged cs)) = false) as (Hcopy & Hheld & Hnone).
  { unfold unstaged_path, unstaged, chunk_staging in *. destruct (staging_valid (cs_staging cs)) eqn:Hv; simpl.
    - by destruct (release_buffer_law _ _ _ Hrest).
    - by rewrite Hv. }
  split; [done|]. eapply buffers_set_chunk; [exact Hbuf|done|done| |by right| |exact Hrest|exact Hheld|done].
  - simpl. intros x [->|]%elem_of_cons; [by right|by left].
  - rewrite <- Hh. by eapply found_unique.
Qed.

Lemma assoc_set_set {A} k (x y : A) l : assoc_set k x (assoc_set k y l) = assoc_set k x l.
Proof.
  induction l as [|[k' z] l IH]; simpl; [done|]. destruct (k =? k') eqn:Hk; simpl; rewrite Hk; [done|by rewrite IH].
Qed.

(** The report of a chunk's tasks, up to the question whether it was the workload's last. *)
Lemma end_chunk_reports hand live stale w h fs ret base i wl cs :
  books ((h, fs) :: hand) live stale w → found w h base i wl cs →
  ∃ wl3 x, let q := if fs then CapacityQueue.complete 1 (ow_queue w) else ow_queue w in
    let w2 := store_workload base wl3 (with_world x (with_queue q (with_path (unstaged_path cs (ow_path w)) w))) in
    end_chunk base i ret fs w = (if oi_remaining wl3 =? 0 then finalize base Success w2 else Ret w2) ∧
    workload_ok (open_handles hand live w) base wl3 ∧ 0 <= oi_remaining wl3 ∧
    oi_chunks wl3 = oi_chunks (set_chunk i (unstaged cs) wl) ∧ answering w2.
Proof.
  intros Hb Hf. pose proof Hf as [Hloc Hh Ha Hi]. pose proof (found_chunk_at _ _ _ _ _ _ Hf) as Hat.
  destruct (drop_buffer _ _ _ _ _ _ _ _ _ _ Hb Hf) as [Hcopy Hbuf].
  set (wl1 := set_chunk i (unstaged cs) wl) in *.
  pose proof (lg_workloads _ _ _ (bk_ledger _ _ _ _ Hb) _ _ Ha) as [Hw Hpos].
  assert (chunk_place (unstaged cs) = chunk_place cs) as Hplace by (unfold unstaged; by destruct (staging_valid _)).
  assert (grown wl wl1) as Hg1 by by eapply grown_set_chunk.
  assert (oi_chunks wl1 !! i = Some (unstaged cs)) as Hi1 by (simpl; rewrite list_lookup_insert_eq; [done|by eapply lookup_lt_Some]).
  destruct (lo_chunk _ _ (wk_layout _ _ _ Hw) _ _ Hi) as (Hhandle & Hcount & Hlen).
  destruct (an_system _ (bk_answers _ _ _ _ Hb)) as [a Hs].
  destruct (answering_workload a w base wl Hs Ha) as (before & after & Hs1 & Hset & _).
  destruct (report_span_spec base (Z.to_nat (cs_count cs)) (cs_first cs) ret wl1 a before after (ow_world w))
    as (wl2 & x & a2 & Hrep & Hg2 & He2 & Hc2 & Hdone & Hout & Hs2).
  { exact Hs1. } { apply (wk_errors _ _ _ Hw). } { by eapply layout_grown_same, Hg1; apply (wk_layout _ _ _ Hw). } { exact Hlen. }
  assert (oi_remaining wl2 = oi_remaining wl) as Hrem.
  { by rewrite (gr_remaining _ _ Hg2), (gr_remaining _ _ Hg1). }
  assert (oi_remaining wl2 ⊖ 1 = oi_remaining wl - 1) as Hsub.
  { rewrite Hrem. apply sub64_small. pose proof (wk_count _ _ _ Hw) as Hc.
    pose proof (ledger_length _ _ _ (bk_ledger _ _ _ _ Hb)) as Hl.
    pose proof (length_filter (in_block base wl) (open_handles ((h, fs) :: hand) live w)). unfold is_size. lia. }
  set (wl3 := set_remaining (oi_remaining wl - 1) wl2).
  set (q := if fs then CapacityQueue.complete 1 (ow_queue w) else ow_queue w).
  set (w1 := with_queue q (with_path (unstaged_path cs (ow_path w)) w)).
  set (w2 := store_workload base wl3 (with_world x w1)).
  assert (end_chunk base i ret fs w = if oi_remaining wl3 =? 0 then finalize base Success w2 else Ret w2) as ->.
  { unfold end_chunk. rewrite Hat. cbn [obind].
    replace (if staging_valid (cs_staging cs) then set_chunk i (with_staging no_staging cs) wl else wl) with wl1
      by (unfold wl1, unstaged; destruct (staging_valid _); [done|by apply set_chunk_same]).
    replace (if staging_valid (cs_staging cs) then with_path (release_buffer (cs_staging cs) (ow_path w)) w else w)
      with (with_path (unstaged_path cs (ow_path w)) w) by (unfold unstaged_path; destruct (staging_valid _); by destruct w).
    replace (if fs then with_queue _ _ else _) with w1 by (unfold w1, q; destruct fs; by destruct w).
    cbn [obind]. change (ow_world w1) with (ow_world w). rewrite Hrep. cbn [obind].
    rewrite Hsub. rewrite ASSERT_true by (rewrite Hrem, Z.gtb_ltb; by apply Z.ltb_lt). done. }
  assert (workload_ok (open_handles hand live w) base wl3) as Hw3.
  { unfold wl3. rewrite <- (gr_remaining _ _ Hg1). change (oi_remaining wl1) with (oi_remaining wl).
    eapply (workload_ok_closed _ base wl1 wl2 i (unstaged cs)); [|eapply workload_ok_grown; [|exact Hg1|done|done]|exact Hi1|done|done| |].
    - rewrite <- Hh. apply (lg_nodup _ _ _ (bk_ledger _ _ _ _ Hb)).
    - rewrite <- Hh. exact Hw.
    - intros m ts Hm Hsp. apply (Hdone m ts); [|done]. injection Hplace as _ Hp1 Hp2. unfold in_span in Hsp.
      by rewrite Hp1, Hp2 in Hsp.
    - intros m Hsp. apply Hout. injection Hplace as _ Hp1 Hp2. unfold in_span in Hsp. by rewrite Hp1, Hp2 in Hsp. }
  exists wl3, x. cbn zeta. fold q w1 w2. split_and!; [done|done|simpl; lia|exact Hc2|].
  split; [|apply (an_retired _ (bk_answers _ _ _ _ Hb))]. exists a2. by apply Hset.
Qed.

Lemma end_chunk_spec hand live stale w h fs ret base i wl cs :
  books ((h, fs) :: hand) live stale w → found w h base i wl cs →
  ∃ w', end_chunk base i ret fs w = Ret w' ∧ books hand live stale w' ∧ kept w w' ∧
    ow_waiting w' = ow_waiting w ∧ ow_waiting_retries w' = ow_waiting_retries w ∧
    ow_reader w' = ow_reader w ∧ in_copy (ow_path w') = in_copy (ow_path w) ∧ ow_copies w' = ow_copies w.
Proof.
  intros Hb Hf. pose proof Hf as [Hloc Hh Ha Hi].
  destruct (drop_buffer _ _ _ _ _ _ _ _ _ _ Hb Hf) as [Hcopy Hbuf]. set (wl1 := set_chunk i (unstaged cs) wl) in *.
  destruct (end_chunk_reports _ _ _ _ _ _ ret _ _ _ _ Hb Hf) as (wl3 & x & -> & Hw3 & Hrem & Hc3 & Hans2).
  set (q := if fs then _ else _) in *. set (w2 := store_workload base wl3 _) in *.
  assert (length (oi_chunks wl3) = length (oi_chunks wl)) as Hlen3 by (rewrite Hc3; apply length_insert).
  assert (open_handles hand live w2 = open_handles hand live w) as Hopen.
  { unfold open_handles, w2, q, queued_handles. simpl. rewrite Hcopy. by destruct fs. }
  assert (kept w w2) as Hkept by (unfold w2, q; split; simpl; by destruct fs).
  assert (inflight q = Z.of_nat (credited hand + length (ow_waiting w) + length (ow_waiting_retries w) + length live)) as Hcredit.
  { pose proof (bk_credit _ _ _ _ Hb) as Hc. rewrite credited_cons in Hc. pose proof (books_credit _ _ _ _ Hb).
    unfold q. destruct fs; [|done]. apply complete_credit; lia. }
  assert (Forall (λ x, x.2 = 1) (queued q)) as Hcosts by (unfold q; destruct fs; apply (bk_costs _ _ _ _ Hb)).
  assert (∀ h0, h0 ∈ [h] → in_block base wl h0) as Hgone.
  { intros h0 ->%list_elem_of_singleton. unfold in_block. apply lookup_lt_Some in Hi. lia. }
  assert (buffers (map fst hand ++ live) (assoc_set base wl3 (ow_inflight w)) (held (unstaged_path cs (ow_path w))) (ow_pool w)) as Hbuf3.
  { rewrite <- (assoc_set_set base wl3 wl1). eapply buffers_set; [exact Hbuf|apply assoc_set_eq; by eexists|].
    by rewrite Hc3. }
  assert (assoc base (ow_inflight w2) = Some wl3) as Ha2 by (apply assoc_set_eq; by eexists).
  destruct (Z.eqb_spec (oi_remaining wl3) 0) as [H0|H0].
  - destruct (end_workload_spec w2 base wl3 Success Hans2 Ha2) as (bs & x' & -> & Hans3).
    { apply (wk_errors _ _ _ Hw3). } { right. by eapply settled_batches. }
    eexists. split; [done|]. split; [|split; [destruct Hkept; by split|by split_and!]].
    assert (stagings_of (oi_chunks wl3) = []) as Hnone.
    { apply stagings_of_none. intros k c Hk. destruct (staging_valid (cs_staging c)) eqn:Hv; [exfalso|done].
      pose proof (bf_busy _ _ _ _ Hbuf3 base wl3 k c ltac:(apply assoc_set_eq; by eexists) Hk Hv) as Hin.
      apply (workload_ok_done _ _ _ (base + Z.of_nat k) Hw3 H0).
      - unfold in_block. apply lookup_lt_Some in Hk. lia.
      - unfold open_handles. apply elem_of_app in Hin as [Hin|Hin]; rewrite !elem_of_app; tauto. }
    pose proof (lg_blocks _ _ _ (bk_ledger _ _ _ _ Hb)) as Hblocks.
    assert (blocks_ok 1 (assoc_set base wl3 (ow_inflight w)) (ow_next w)) as Hblocks3.
    { eapply blocks_shape; [|exact Hblocks]. symmetry. by eapply shape_set. }
    split.
    + change (ledger (open_handles hand live w2) (assoc_remove base (assoc_set base wl3 (ow_inflight w))) (ow_next w)).
      rewrite Hopen, assoc_remove_set. by eapply (ledger_finish [h]); [apply (bk_ledger _ _ _ _ Hb)|..].
    + apply (bk_reading _ _ _ _ Hb).
    + intros h0 Hin. destruct (store_stale _ _ _ _ _ _ _ Hb Ha Hlen3 _ Hin) as [Hr Hn]. split; [done|].
      pose proof (lg_next _ _ _ (bk_ledger _ _ _ _ Hb)).
      eapply (remove_stale _ _ _ 1 (ow_next w)); [lia|done| |exact Hblocks3|done]. unfold is_size. lia.
    + exact Hcosts.
    + exact Hcredit.
    + change (ow_copies w = Z.of_nat (length (in_copy (unstaged_path cs (ow_path w))))). rewrite Hcopy. apply (bk_copies _ _ _ _ Hb).
    + by apply (buffers_finish _ _ _ _ _ wl3); [..|eapply blocks_keys].
    + exact Hans3.
  - eexists. split; [done|]. split; [|by split_and!].
    split.
    + change (ledger (open_handles hand live w2) (assoc_set base wl3 (ow_inflight w)) (ow_next w)). rewrite Hopen.
      eapply (ledger_set [h]); try done; [apply (bk_ledger _ _ _ _ Hb)|lia].
    + exact (bk_reading _ _ _ _ Hb).
    + exact (store_stale _ _ _ _ _ _ _ Hb Ha Hlen3).
    + exact Hcosts.
    + exact Hcredit.
    + change (ow_copies w = Z.of_nat (length (in_copy (unstaged_path cs (ow_path w))))). rewrite Hcopy. apply (bk_copies _ _ _ _ Hb).
    + exact Hbuf3.
    + exact Hans2.
Qed.

(** ** Changes that end nothing *)

Lemma ledger_grown o l next base wl wl' : ledger o l next → assoc base l = Some wl → grown wl wl' →
  oi_errors wl' = oi_errors wl → oi_tasks wl' = oi_tasks wl → ledger o (assoc_set base wl' l) next.
Proof.
  intros Hl Ha Hg He Ht. pose proof (lg_workloads _ _ _ Hl _ _ Ha) as [Hw Hpos].
  eapply (ledger_set []); [exact Hl|done| |by apply grown_length|by eapply workload_ok_grown|].
  - intros h Hh. by apply elem_of_nil in Hh.
  - by rewrite (gr_remaining _ _ Hg).
Qed.

Lemma answering_store w base wl wl' : answering w → assoc base (ow_inflight w) = Some wl →
  oi_workload wl' = oi_workload wl → answering (store_workload base wl' w).
Proof.
  intros [[a Hs] Hr] Ha He. destruct (answering_workload a w base wl Hs Ha) as (before & after & Hs1 & Hset & _).
  split; [|done]. exists a. apply Hset. by rewrite He.
Qed.

(** The retry state of a chunk, or its buffer: the rest of the books does not see it. *)
Lemma books_set_chunk hand live stale w h base i wl cs cs' path :
  books hand live stale w → found w h base i wl cs → chunk_place cs' = chunk_place cs →
  in_copy path = in_copy (ow_path w) →
  buffers (map fst hand ++ live) (assoc_set base (set_chunk i cs' wl) (ow_inflight w)) (held path) (ow_pool w) →
  books hand live stale (store_workload base (set_chunk i cs' wl) (with_path path w)).
Proof.
  intros Hb [_ Hh Ha Hi] Hp Hcopy Hbuf. pose proof (grown_set_chunk _ _ _ _ Hi Hp) as Hg. split.
  - unfold open_handles. simpl. rewrite Hcopy. eapply ledger_grown; [apply (bk_ledger _ _ _ _ Hb)|done..].
  - exact (bk_reading _ _ _ _ Hb).
  - exact (store_stale _ _ _ _ _ _ (set_chunk i cs' wl) Hb Ha (length_insert _ _ _)).
  - exact (bk_costs _ _ _ _ Hb).
  - exact (bk_credit _ _ _ _ Hb).
  - simpl. rewrite Hcopy. exact (bk_copies _ _ _ _ Hb).
  - exact Hbuf.
  - by apply (answering_store (with_path path w) base wl); [destruct (bk_answers _ _ _ _ Hb); split|..].
Qed.

Lemma books_set_attempts hand live stale w h base i wl cs st :
  books hand live stale w → found w h base i wl cs →
  books hand live stale (store_workload base (set_chunk i (with_attempts st cs) wl) w).
Proof.
  intros Hb Hf. replace w with (with_path (ow_path w) w) at 2 by by destruct w.
  eapply books_set_chunk; [done..|]. eapply buffers_set; [apply (bk_buffers _ _ _ _ Hb)|apply Hf|].
  destruct Hf as [_ _ _ Hi]. simpl. apply list_eq. intros j. etrans; [apply list_lookup_fmap|]. symmetry.
  etrans; [apply list_lookup_fmap|]. destruct (decide (j = i)) as [->|Hne]; [|by rewrite list_lookup_insert_ne].
  rewrite list_lookup_insert_eq by (by eapply lookup_lt_Some). by rewrite Hi.
Qed.

Lemma found_store w h base i wl cs cs' : found w h base i wl cs →
  found (store_workload base (set_chunk i cs' wl) w) h base i (set_chunk i cs' wl) cs'.
Proof.
  intros [Hl Hh Ha Hi]. split; simpl; [|done| |].
  - rewrite <- Hl. apply locate_shape. eapply shape_set; [done|]. simpl. apply length_insert.
  - apply assoc_set_eq. by eexists.
  - apply list_lookup_insert_eq. by eapply lookup_lt_Some.
Qed.

(** The copy path changes, but not what it holds. *)
Lemma books_path hand live stale w path : books hand live stale w →
  in_copy path = in_copy (ow_path w) → held path = held (ow_path w) → books hand live stale (with_path path w).
Proof.
  intros [H1 H2 H3 H4 H5 H6 H7 [H8 H9]] Hc Hh. split; try done.
  - unfold open_handles in *. simpl. by rewrite Hc.
  - simpl. by rewrite Hc.
  - simpl. by rewrite Hh.
Qed.

Lemma books_pool hand live stale w : books hand live stale w → books hand live stale (with_pool true w).
Proof. intros [H1 H2 H3 H4 H5 H6 [B1 B2 B3] [H8 H9]]. split; try done. Qed.

Lemma books_reader hand live stale w r : books hand live stale w → reading r = reading (ow_reader w) →
  books hand live stale (with_reader r w).
Proof. intros [H1 H2 H3 H4 H5 H6 H7 [H8 H9]] Hr. split; try done. simpl. by rewrite Hr. Qed.

(** ** Landing *)

Lemma size_succ n : Z.of_nat n + 1 < size_modulus → Z.of_nat n ⊕ 1 = Z.of_nat (S n).
Proof. intros Hn. rewrite add64_small; [lia|]. unfold is_size. lia. Qed.

Lemma issue_copy_spec hand live stale w h base i wl cs :
  books ((h, true) :: hand) live stale w → found w h base i wl cs → staging_valid (cs_staging cs) = true →
  oc_handle (cs_chunk cs) = h →
  books hand live stale (issue_copy base i wl cs w).
Proof.
  intros Hb Hf Hv Hhandle. pose proof Hf as [_ Hh Ha Hi]. pose proof (bk_buffers _ _ _ _ Hb) as Hbuf.
  destruct (buffers_held _ _ _ _ _ _ _ _ Hbuf Ha Hi) as (rest & Hrest). unfold chunk_staging in Hrest. rewrite Hv in Hrest.
  unfold issue_copy. rewrite Hhandle.
  destruct (issue_law (wl_device (oi_workload wl)) _ (oc_bytesize (cs_chunk cs)) (oc_buffer (cs_chunk cs)) h _ _ Hrest) as [Hc Hheld].
  set (path := issue _ _ _ _ _ _) in *. set (cs' := with_staging no_staging cs).
  assert (grown wl (set_chunk i cs' wl)) as Hg by by eapply grown_set_chunk.
  pose proof (books_credit _ _ _ _ Hb) as Hcr. pose proof (bk_credit _ _ _ _ Hb) as Hcredit. rewrite credited_cons in Hcredit.
  split; simpl.
  - eapply (ledger_perm (open_handles ((h, true) :: hand) live w)).
    + unfold open_handles. simpl. rewrite Hc. solve_Permutation.
    + eapply ledger_grown; [apply (bk_ledger _ _ _ _ Hb)|done..].
  - exact (bk_reading _ _ _ _ Hb).
  - exact (store_stale _ _ _ _ _ _ (set_chunk i cs' wl) Hb Ha (length_insert _ _ _)).
  - exact (bk_costs _ _ _ _ Hb).
  - apply complete_credit; lia.
  - rewrite Hc. simpl. rewrite (bk_copies _ _ _ _ Hb). apply size_succ.
    pose proof (ledger_length _ _ _ (bk_ledger _ _ _ _ Hb)) as Hl. unfold open_handles in Hl. rewrite !length_app in Hl. lia.
  - eapply buffers_set_chunk; [exact Hbuf|done|done| |by right| |by unfold chunk_staging; rewrite Hv|exact Hheld|done].
    + simpl. intros x [->|]%elem_of_cons; [by right|by left].
    + rewrite <- Hh. by eapply found_unique.
  - destruct (answering_store w base wl (set_chunk i cs' wl) (bk_answers _ _ _ _ Hb) Ha eq_refl) as [Hs Hr]. split; [exact Hs|exact Hr].
Qed.

Lemma complete_chunk_spec hand live stale w h ret base i wl cs :
  books ((h, true) :: hand) live stale w → found w h base i wl cs →
  ∃ w', complete_chunk base i ret true w = Ret w' ∧ books hand live stale w' ∧ kept w w' ∧
    ow_waiting w' = ow_waiting w ∧ ow_waiting_retries w' = ow_waiting_retries w ∧ ow_reader w' = ow_reader w.
Proof.
  intros Hb Hf. unfold complete_chunk. rewrite (found_chunk_at _ _ _ _ _ _ Hf). cbn [obind].
  destruct (bool_decide (ret = Success) && staging_valid (cs_staging cs) && true) eqn:Ec.
  - apply andb_true_iff in Ec as [[_ Hv]%andb_true_iff _]. eexists. split; [done|]. split; [|by split_and!].
    eapply issue_copy_spec; [done..|]. destruct Hf as [_ -> Ha Hi].
    pose proof (lg_workloads _ _ _ (bk_ledger _ _ _ _ Hb) _ _ Ha) as [Hw _].
    by apply (lo_chunk _ _ (wk_layout _ _ _ Hw)).
  - destruct (end_chunk_spec _ _ _ _ _ _ ret _ _ _ _ Hb Hf) as (w' & -> & ? & ? & ? & ? & ? & _). by exists w'.
Qed.

(** ** Taking up a chunk again *)

Lemma books_nodup hand live stale w : books hand live stale w → NoDup (open_handles hand live w).
Proof. intros Hb. apply (lg_nodup _ _ _ (bk_ledger _ _ _ _ Hb)). Qed.

Lemma found_handle hand live stale w h base i wl cs : books hand live stale w → found w h base i wl cs →
  oc_handle (cs_chunk cs) = h.
Proof.
  intros Hb [_ -> Ha Hi]. pose proof (lg_workloads _ _ _ (bk_ledger _ _ _ _ Hb) _ _ Ha) as [Hw _].
  by apply (lo_chunk _ _ (wk_layout _ _ _ Hw)).
Qed.

(** A chunk that just came to hand, from a place where no chunk has a buffer. *)
Lemma taken_up live stale w h c : books [(h, c)] live stale w →
  buffers live (ow_inflight w) (held (ow_path w)) (ow_pool w) →
  ∃ base i wl cs, found w h base i wl cs ∧ staging_valid (cs_staging cs) = false ∧ oc_handle (cs_chunk cs) = h.
Proof.
  intros Hb Hbuf. destruct (books_found _ _ _ _ _ _ Hb) as (base & i & wl & cs & Hf). exists base, i, wl, cs.
  split; [done|]. split; [|by eapply found_handle]. destruct (staging_valid (cs_staging cs)) eqn:Hv; [exfalso|done].
  pose proof (bf_busy _ _ _ _ Hbuf _ _ _ _ (fd_workload _ _ _ _ _ _ Hf) (fd_chunk _ _ _ _ _ _ Hf) Hv) as Hin.
  rewrite <- (fd_handle _ _ _ _ _ _ Hf) in Hin. pose proof (books_nodup _ _ _ _ Hb) as Hnd.
  apply NoDup_cons in Hnd as [Hnot _]. apply Hnot. change (h ∈ ([] ++ queued_handles w ++ delayed_handles w ++
    ow_waiting w ++ ow_waiting_retries w ++ live ++ in_copy (ow_path w))). rewrite !elem_of_app. tauto.
Qed.

(** From [w] to [w'], [h] goes from some queue to hand. *)
Lemma books_take_up live stale w w' h c :
  books [] live stale w → open_handles [(h, c)] live w' ≡ₚ open_handles [] live w →
  ow_inflight w' = ow_inflight w → ow_next w' = ow_next w → ow_reader w' = ow_reader w → ow_pool w' = ow_pool w →
  ow_world w' = ow_world w → ow_retired w' = ow_retired w → held (ow_path w') = held (ow_path w) →
  Forall (λ x, x.2 = 1) (queued (ow_queue w')) → ow_copies w' = Z.of_nat (length (in_copy (ow_path w'))) →
  inflight (ow_queue w') = Z.of_nat ((if c then 1 else 0) + length (ow_waiting w') + length (ow_waiting_retries w') + length live) →
  books [(h, c)] live stale w' ∧ buffers live (ow_inflight w') (held (ow_path w')) (ow_pool w').
Proof.
  intros [H1 H2 H3 H4 H5 H6 H7 [H8 H9]] Hopen Hi Hn Hr Hp Hw Hret Hheld Hcosts Hcopies Hcredit. split; [split|].
  - rewrite Hi, Hn. eapply ledger_perm; [|exact H1]. by symmetry.
  - by rewrite Hr.
  - by rewrite Hi, Hn.
  - done.
  - rewrite Hcredit. do 3 f_equal. by destruct c.
  - done.
  - rewrite Hi, Hp, Hheld. eapply buffers_busy; [|exact H7]. intros x Hx. simpl in *. by right.
  - split; rewrite ?Hi, ?Hw, ?Hret; done.
  - by rewrite Hi, Hp, Hheld.
Qed.

(** ** Copies that landed *)

Lemma drain_loop_spec n : ∀ live stale w, books [] live stale w → (n <= length (in_copy (ow_path w)))%nat →
  ∃ w', drain_loop n w = Ret w' ∧ books [] live stale w' ∧ kept w w'.
Proof.
  induction n as [|n IH]; intros live stale w Hb Hn; simpl; [by exists w|].
  destruct (pop_copy false (ow_path w)) as [[[h ret]|] path] eqn:E; destruct (pop_copy_law _ _ _ _ E) as [Hheld Hcopy];
    [|destruct Hcopy as [Hcopy _]; eexists; split; [done|]; split; [by apply books_path|done]].
  pose proof (bk_copies _ _ _ _ Hb) as Hcopies. rewrite Hcopy in Hcopies, Hn. simpl in Hcopies, Hn.
  pose proof (ledger_length _ _ _ (bk_ledger _ _ _ _ Hb)) as Hsize. unfold open_handles in Hsize.
  rewrite !length_app, Hcopy in Hsize. simpl in Hsize.
  set (w1 := with_copies (ow_copies w ⊖ 1) (with_path path w)).
  assert (books [(h, false)] live stale w1 ∧ buffers live (ow_inflight w1) (held (ow_path w1)) (ow_pool w1)) as [Hb1 Hbuf1].
  { apply (books_take_up live stale w w1 h false Hb); try done.
    - unfold open_handles. simpl. rewrite Hcopy. solve_Permutation.
    - apply (bk_costs _ _ _ _ Hb).
    - simpl. rewrite sub64_small by (unfold is_size; lia). lia.
    - simpl. apply (bk_credit _ _ _ _ Hb). }
  destruct (books_found _ _ _ _ _ _ Hb1) as (base & i & wl & cs & Hf).
  change (ow_inflight w) with (ow_inflight w1). rewrite (fd_locate _ _ _ _ _ _ Hf).
  unfold complete_chunk. rewrite (found_chunk_at _ _ _ _ _ _ Hf). cbn [obind]. rewrite andb_false_r.
  destruct (end_chunk_spec _ _ _ _ _ _ ret _ _ _ _ Hb1 Hf) as (w2 & -> & Hb2 & Hk2 & _ & _ & _ & Hc2 & _). cbn [obind].
  destruct (IH live stale w2 Hb2) as (w3 & -> & Hb3 & Hk3); [rewrite Hc2; simpl; lia|].
  exists w3. split_and!; [done|done|]. by apply (kept_then _ w2); [destruct Hk2; split|].
Qed.

Lemma drain_copies_spec live stale w : books [] live stale w →
  ∃ w', drain_copies w = Ret w' ∧ books [] live stale w' ∧ kept w w'.
Proof.
  intros Hb. apply drain_loop_spec; [done|]. rewrite (bk_copies _ _ _ _ Hb). lia.
Qed.

(** ** Retries that are due *)

Lemma promote_loop_spec n : ∀ now live stale w, books [] live stale w →
  ∃ w', promote_loop n now w = Ret w' ∧ books [] live stale w' ∧ ow_next w' = ow_next w ∧
    capacity (ow_queue w') = capacity (ow_queue w).
Proof.
  induction n as [|n IH]; intros now live stale w Hb; simpl; [by exists w|].
  destruct (pop_due now (ow_retry w)) as [[h|] r] eqn:E.
  - assert (∃ t, rt_delayed (ow_retry w) = (t, h) :: rt_delayed r) as [t Hd].
    { unfold pop_due in E. destruct (rt_delayed (ow_retry w)) as [|[t x] rest]; [done|].
      destruct (t >? now); [done|]. injection E as <- <-. by exists t. }
    destruct (books_take_up live stale w (with_retry r w) h false Hb) as [Hb1 Hbuf1]; try done.
    { unfold open_handles, delayed_handles. simpl. rewrite Hd. simpl. solve_Permutation. }
    { apply (bk_costs _ _ _ _ Hb). } { apply (bk_copies _ _ _ _ Hb). } { apply (bk_credit _ _ _ _ Hb). }
    destruct (taken_up _ _ _ _ _ Hb1 Hbuf1) as (base & i & wl & cs & Hf & Hv & Hh).
    change (ow_inflight w) with (ow_inflight (with_retry r w)).
    rewrite (fd_locate _ _ _ _ _ _ Hf), (found_chunk_at _ _ _ _ _ _ Hf). cbn [obind].
    match goal with |- context [promote_loop n now ?x] => set (w1 := x) end.
    destruct (IH now live stale w1) as (w2 & -> & Hb2 & Hn2 & Hc2); [|by exists w2].
    destruct Hb1 as [H1 H2 H3 H4 H5 H6 H7 [H8 H9]]. split; try done.
    + eapply ledger_perm; [|exact H1]. unfold open_handles, queued_handles. simpl. rewrite Hh. solve_Permutation.
    + simpl. by constructor.
  - assert (r = ow_retry w) as ->.
    { unfold pop_due in E. destruct (rt_delayed (ow_retry w)) as [|[t x] rest]; [by injection E|].
      destruct (t >? now); [by injection E|done]. }
    exists w. split; [|done]. by destruct w.
Qed.

Lemma pre_pump_spec live stale w : books [] live stale w →
  ∃ w', pre_pump w = Ret w' ∧ books [] live stale w' ∧ ow_next w' = ow_next w ∧
    capacity (ow_queue w') = capacity (ow_queue w).
Proof.
  intros Hb. unfold pre_pump. destruct (retry_enabled _); [|by exists w]. unfold promote_due_retries.
  pose proof (clock_law (ow_reader w)) as Hr. destruct (clock_now (ow_reader w)) as [now reader].
  apply (promote_loop_spec _ now live stale (with_reader reader w)). by apply books_reader.
Qed.
(** ** Submitting *)

Context (chunk_bytesize window_chunks : Z) (has_copy_path : bool) (location_of : Z → Z → text).

Local Abbreviation staging_pool_for := (staging_pool_for chunk_bytesize window_chunks has_copy_path).
Local Abbreviation destination_for := (destination_for chunk_bytesize window_chunks has_copy_path).
Local Abbreviation attempt := (attempt location_of).
Local Abbreviation submit := (submit chunk_bytesize window_chunks has_copy_path location_of).

(** What is not about buffers stays. *)
Record aside w w' : Prop := {
  as_kept : kept w w';
  as_waiting : ow_waiting w' = ow_waiting w;
  as_retries : ow_waiting_retries w' = ow_waiting_retries w;
  as_reader : ow_reader w' = ow_reader w }.

Lemma aside_refl w : aside w w.
Proof. by split. Qed.

Lemma staging_pool_for_spec d hand live stale w : books hand live stale w →
  ∃ code w', staging_pool_for d w = (code, w') ∧ books hand live stale w' ∧ aside w w' ∧
    ow_inflight w' = ow_inflight w ∧ (code = Success → ow_pool w' = true).
Proof.
  intros Hb. unfold ObjectStorageWorker.staging_pool_for. destruct (ow_pool w) eqn:Hp.
  { exists Success, w. split_and!; try done. }
  destruct (negb has_copy_path); [exists DeviceUnavailable, w; by split_and!|].
  destruct (open_device d (ow_path w)) as [code path] eqn:E1. destruct (open_law _ _ _ _ E1) as [Hc1 Hh1].
  pose proof (books_path _ _ _ _ _ Hb Hc1 Hh1) as Hb1.
  destruct (decide (code = Success)) as [->|Hne];
    [|rewrite bool_decide_false by done; exists code, (with_path path w); by split_and!].
  rewrite bool_decide_true by done. simpl. destruct (bind_device d path) as [bound path2] eqn:E2.
  destruct (bind_law _ _ _ _ E2) as [Hc2 Hh2]. pose proof (books_path _ _ _ _ path2 Hb1 Hc2 Hh2) as Hb2.
  destruct (decide (bound = Success)) as [->|Hne];
    [|rewrite bool_decide_false by done; eexists bound, _; by split_and!].
  rewrite bool_decide_true by done. simpl. eexists Success, _. split; [done|]. split; [|by split_and!].
  apply books_pool, books_path; [exact Hb2|apply build_law..].
Qed.

(** A chunk without a buffer need not be watched. *)
Lemma books_unbusy hand live stale w h c base i wl cs : books ((h, c) :: hand) live stale w → found w h base i wl cs →
  staging_valid (cs_staging cs) = false → buffers (map fst hand ++ live) (ow_inflight w) (held (ow_path w)) (ow_pool w).
Proof.
  intros Hb Hf Hv. destruct (bk_buffers _ _ _ _ Hb) as [B1 B2 B3]. split; try done.
  intros b x j d Hx Hj Hd. pose proof (B1 _ _ _ _ Hx Hj Hd) as Hin. simpl in Hin. apply elem_of_cons in Hin as [He|]; [|done].
  destruct (found_unique _ _ _ _ _ _ _ _ _ Hb Hf _ _ _ _ Hx Hj He) as [-> ->].
  destruct Hf as [_ _ Ha Hi]. congruence.
Qed.

Lemma destination_for_spec c hand live stale w h base i wl cs : books ((h, true) :: hand) live stale w →
  found w h base i wl cs → staging_valid (cs_staging cs) = false →
  ∃ to w' wl' cs', destination_for c base i wl cs w = (to, w') ∧ books ((h, true) :: hand) live stale w' ∧ aside w w' ∧
    found w' h base i wl' cs' ∧ (to = Park → staging_valid (cs_staging cs') = false).
Proof.
  intros Hb Hf Hv. unfold ObjectStorageWorker.destination_for.
  destruct (is_host _); [by exists (Into (oc_buffer c)), w, wl, cs|].
  destruct (staging_pool_for_spec (wl_device (oi_workload wl)) _ _ _ _ Hb) as (ready & w1 & -> & Hb1 & Ha1 & Hi1 & Hp1).
  assert (found w1 h base i wl cs) as Hf1 by (destruct Hf; split; by rewrite ?Hi1).
  destruct (decide (ready = Success)) as [->|Hne];
    [|rewrite bool_decide_false by done; by eexists (Refused ready), w1, wl, cs].
  rewrite bool_decide_true by done. simpl. destruct (acquire_buffer (ow_path w1)) as [[code b] path] eqn:E.
  destruct (acquire_law _ _ _ _ E) as [Hcopy Hheld].
  assert (aside w (with_path path w1)) as Ha2 by (destruct Ha1 as [[] ? ? ?]; by split).
  destruct (decide (code = Success ∧ staging_valid b = true)) as [[-> Hvb]|Hno].
  - rewrite Hvb. simpl. eexists _, _, _, (with_staging b cs). split; [done|]. split_and!.
    + eapply books_set_chunk; [exact Hb1|exact Hf1|done|done|].
      pose proof Hf1 as [_ Hh Ha Hi]. eapply buffers_set_chunk; [apply (bk_buffers _ _ _ _ Hb1)|done|done|auto| | | | |].
      * left. rewrite <- Hh. simpl. by left.
      * rewrite <- Hh. by eapply found_unique.
      * unfold chunk_staging. rewrite Hv. by instantiate (1 := held (ow_path w1)).
      * unfold chunk_staging. simpl. by rewrite Hvb.
      * rewrite Hp1 by done. done.
    + destruct Ha1 as [[] ? ? ?]; by split.
    + by apply (found_store (with_path path w1) h base i wl cs); destruct Hf1; split.
    + done.
  - assert (books ((h, true) :: hand) live stale (with_path path w1)) as Hb2.
    { destruct Hb1 as [H1 H2 H3 H4 H5 H6 [B1 B2 B3] [H8 H9]]. split; try done.
      - unfold open_handles in *. simpl. by rewrite Hcopy.
      - simpl. by rewrite Hcopy.
      - split; [done| |done]. simpl. by rewrite Hheld. }
    assert (found (with_path path w1) h base i wl cs) as Hf2 by (destruct Hf1; by split).
    destruct (bool_decide_reflect (code = Success)) as [->|Hne]; simpl.
    + destruct (staging_valid b) eqn:Hvb; [by destruct Hno|]. by eexists Park, _, wl, cs.
    + by eexists (Refused code), _, wl, cs.
Qed.

Lemma attempt_spec c buffer hand live stale w h base i wl cs : books ((h, true) :: hand) live stale w →
  found w h base i wl cs → oc_handle c = h →
  ∃ w' live', attempt c base i buffer w = Ret w' ∧ books hand live' stale w' ∧ kept w w' ∧
    ow_waiting w' = ow_waiting w ∧ ow_waiting_retries w' = ow_waiting_retries w.
Proof.
  intros Hb Hf Hc. unfold ObjectStorageWorker.attempt. rewrite (found_chunk_at _ _ _ _ _ _ Hf). cbn [obind].
  destruct (if retry_enabled (ow_retry w) then _ else _) as [now reader] eqn:E1.
  assert (reading reader = reading (ow_reader w)) as Hr.
  { destruct (retry_enabled _); [|by injection E1 as <- <-]. rewrite <- (clock_law (ow_reader w)). by rewrite E1. }
  cbn zeta. change (ow_retry (with_reader reader w)) with (ow_retry w).
  destruct (if retry_enabled (ow_retry w) then begin_attempt _ _ _ else _) as [allowed st].
  assert (found (with_reader reader w) h base i wl cs) as Hf0 by (destruct Hf; by split).
  pose proof (books_set_attempts _ _ _ _ _ _ _ _ _ st (books_reader _ _ _ _ _ Hb Hr) Hf0) as Hb1.
  pose proof (found_store _ _ _ _ _ _ (with_attempts st cs) Hf0) as Hf1.
  set (w1 := store_workload base _ _) in *.
  assert (kept w w1) as Hk1 by done.
  destruct (negb allowed).
  { destruct (complete_chunk_spec _ _ _ _ _ FileAccessError _ _ _ _ Hb1 Hf1) as (w2 & -> & Hb2 & Hk2 & ? & ? & _).
    exists w2, live. split; [done|]. split; [done|]. split; [by eapply kept_then|done]. }
  pose proof Hf as [_ Hh Ha Hi]. pose proof (lg_workloads _ _ _ (bk_ledger _ _ _ _ Hb) _ _ Ha) as [Hw _].
  destruct (lo_chunk _ _ (wk_layout _ _ _ Hw) _ _ Hi) as (_ & Hcount & Hlen).
  destruct (lookup_lt_is_Some_2 (oi_tasks wl) (cs_first cs)) as [ts Hts]; [lia|].
  destruct (lo_index _ _ (wk_layout _ _ _ Hw) _ _ Hts) as (b & t & Hbt & _ & _). rewrite Hts, Hbt, Hc.
  destruct (async_read _ _ _ _ _ _) as [thrown reader2] eqn:E2. apply async_read_law in E2.
  destruct thrown as [e|]; simpl in E2.
  - assert (books ((h, true) :: hand) live stale (with_reader reader2 w1)) as Hb2.
    { destruct Hb1 as [H1 H2 H3 H4 H5 H6 H7 [H8 H9]]. split; try done. simpl in *. by rewrite E2. }
    assert (found (with_reader reader2 w1) h base i (set_chunk i (with_attempts st cs) wl) (with_attempts st cs)) as Hf2
      by (destruct Hf1; by split).
    destruct (complete_chunk_spec _ _ _ _ _ (error_of e) _ _ _ _ Hb2 Hf2) as (w2 & -> & Hb3 & Hk2 & ? & ? & _).
    exists w2, live. split; [done|]. split; [done|]. split; [by apply (kept_then _ (with_reader reader2 w1))|done].
  - eexists _, (h :: live). split; [done|]. split; [|done].
    destruct Hb1 as [H1 H2 H3 H4 H5 H6 H7 [H8 H9]]. split; try done.
    + eapply ledger_perm; [|exact H1]. unfold open_handles. simpl. solve_Permutation.
    + simpl in *. rewrite E2, <- H2. solve_Permutation.
    + rewrite credited_cons in H5. simpl in *. lia.
    + eapply buffers_busy; [|exact H7]. intros x. simpl. rewrite !elem_of_cons, !elem_of_app, elem_of_cons. tauto.
Qed.

Lemma submit_spec c hand live stale w h base i wl cs : books ((h, true) :: hand) live stale w →
  found w h base i wl cs → staging_valid (cs_staging cs) = false → oc_handle c = h →
  ∃ w' live' p q, submit c w = Ret w' ∧ books hand live' stale w' ∧ kept w w' ∧
    ow_waiting w' = ow_waiting w ++ p ∧ ow_waiting_retries w' = ow_waiting_retries w ++ q.
Proof.
  intros Hb Hf Hv Hc. pose proof Hf as [Hl Hh Ha Hi]. unfold ObjectStorageWorker.submit.
  rewrite Hc, Hl, (found_chunk_at _ _ _ _ _ _ Hf). cbn [obind].
  pose proof (lg_workloads _ _ _ (bk_ledger _ _ _ _ Hb) _ _ Ha) as [Hw _].
  destruct (lo_chunk _ _ (wk_layout _ _ _ Hw) _ _ Hi) as (_ & Hcount & Hlen).
  rewrite ASSERT_true by (rewrite Z.gtb_ltb; by apply Z.ltb_lt). cbn [obind].
  destruct (lookup_lt_is_Some_2 (oi_tasks wl) (cs_first cs)) as [ts Hts]; [lia|]. rewrite Hts.
  assert (ts_error ts = Success) as Herr.
  { eapply (wk_fresh _ _ _ Hw); [exact Hi| |split; [done|lia]|done]. rewrite <- Hh. by left. }
  rewrite ASSERT_true by by apply bool_decide_eq_true. cbn [obind].
  destruct (destination_for_spec c _ _ _ _ _ _ _ _ _ Hb Hf Hv) as (to & w1 & wl1 & cs1 & -> & Hb1 & [Hk1 Hw1 Hr1 _] & Hf1 & Hv1).
  destruct to as [buffer| |code].
  - destruct (attempt_spec c buffer _ _ _ _ _ _ _ _ _ Hb1 Hf1 Hc) as (w2 & live' & -> & Hb2 & Hk2 & Hw2 & Hr2).
    exists w2, live', [], []. rewrite !app_nil_r. split_and!; [done|done|by eapply kept_then|congruence|congruence].
  - pose proof (books_unbusy _ _ _ _ _ _ _ _ _ _ Hb1 Hf1 (Hv1 eq_refl)) as Hbuf.
    assert (∀ w2, (w2 = with_waiting (ow_waiting w1 ++ [h]) w1 ∨ w2 = with_waiting_retries (ow_waiting_retries w1 ++ [h]) w1) →
      books hand live stale w2 ∧ kept w1 w2) as Hpark.
    { intros w2 Hw2. destruct Hb1 as [H1 H2 H3 H4 H5 H6 H7 [H8 H9]]. rewrite credited_cons in H5.
      split; [|by destruct Hw2 as [->| ->]]. destruct Hw2 as [->| ->]; split; try done.
      - eapply ledger_perm; [|exact H1]. unfold open_handles. simpl. solve_Permutation.
      - simpl. rewrite length_app. simpl. lia.
      - eapply ledger_perm; [|exact H1]. unfold open_handles. simpl. solve_Permutation.
      - simpl. rewrite length_app. simpl. lia. }
    unfold park. destruct (_ >? 0).
    + eexists _, live, [], [h]. split; [done|]. rewrite app_nil_r. destruct (Hpark (with_waiting_retries (ow_waiting_retries w1 ++ [h]) w1)) as [Hb2 Hk2]; [auto|].
      split_and!; [done|by eapply kept_then|done|simpl; congruence].
    + eexists _, live, [h], []. split; [done|]. rewrite app_nil_r. destruct (Hpark (with_waiting (ow_waiting w1 ++ [h]) w1)) as [Hb2 Hk2]; [auto|].
      split_and!; [done|by eapply kept_then|simpl; congruence|done].
  - destruct (complete_chunk_spec _ _ _ _ _ code _ _ _ _ Hb1 Hf1) as (w2 & -> & Hb2 & Hk2 & Hw2 & Hr2 & _).
    exists w2, live, [], []. rewrite !app_nil_r. split_and!; [done|done|by eapply kept_then|congruence|congruence].
Qed.

(** ** Chunks that waited *)

Local Abbreviation resume_one := (resume_one chunk_bytesize window_chunks has_copy_path location_of).
Local Abbreviation resume_retries := (resume_retries chunk_bytesize window_chunks has_copy_path location_of).
Local Abbreviation resume_first := (resume_first chunk_bytesize window_chunks has_copy_path location_of).
Local Abbreviation resume_waiting := (resume_waiting chunk_bytesize window_chunks has_copy_path location_of).

Lemma resume_one_spec live stale w h : books [(h, true)] live stale w →
  buffers live (ow_inflight w) (held (ow_path w)) (ow_pool w) →
  ∃ w' live' p q, resume_one h w = Ret w' ∧ books [] live' stale w' ∧ kept w w' ∧
    ow_waiting w' = ow_waiting w ++ p ∧ ow_waiting_retries w' = ow_waiting_retries w ++ q.
Proof.
  intros Hb Hbuf. destruct (taken_up _ _ _ _ _ Hb Hbuf) as (base & i & wl & cs & Hf & Hv & Hh).
  unfold ObjectStorageWorker.resume_one. rewrite (fd_locate _ _ _ _ _ _ Hf), (found_chunk_at _ _ _ _ _ _ Hf). cbn [obind].
  by eapply submit_spec.
Qed.

Lemma resume_retries_spec n : ∀ live stale w, books [] live stale w → (n <= length (ow_waiting_retries w))%nat →
  ∃ w' live' p, resume_retries n w = Ret w' ∧ books [] live' stale w' ∧ kept w w' ∧ ow_waiting w' = ow_waiting w ++ p.
Proof.
  induction n as [|n IH]; intros live stale w Hb Hn; simpl.
  { exists w, live, []. rewrite app_nil_r. by split_and!. }
  destruct (ow_waiting_retries w) as [|h rest] eqn:Hq; simpl in Hn; [lia|].
  destruct (books_take_up live stale w (with_waiting_retries rest w) h true Hb) as [Hb1 Hbuf1]; try done.
  { unfold open_handles. simpl. rewrite Hq. simpl. solve_Permutation. }
  { apply (bk_costs _ _ _ _ Hb). } { apply (bk_copies _ _ _ _ Hb). }
  { simpl. rewrite (bk_credit _ _ _ _ Hb), Hq. simpl. lia. }
  destruct (resume_one_spec _ _ _ _ Hb1 Hbuf1) as (w1 & live1 & p1 & q1 & -> & Hb2 & Hk1 & Hw1 & Hr1). cbn [obind].
  destruct (IH live1 stale w1 Hb2) as (w2 & live2 & p2 & -> & Hb3 & Hk2 & Hw2).
  { rewrite Hr1, length_app. simpl. lia. }
  exists w2, live2, (p1 ++ p2). split_and!; [done|done| |].
  - by apply (kept_then _ w1); [destruct Hk1; split|].
  - rewrite Hw2, Hw1, <- app_assoc. done.
Qed.

Lemma resume_first_spec n : ∀ live stale w, books [] live stale w → (n <= length (ow_waiting w))%nat →
  ∃ w' live', resume_first n w = Ret w' ∧ books [] live' stale w' ∧ kept w w'.
Proof.
  induction n as [|n IH]; intros live stale w Hb Hn; simpl; [by exists w, live|].
  destruct (ow_waiting w) as [|h rest] eqn:Hq; simpl in Hn; [lia|].
  destruct (books_take_up live stale w (with_waiting rest w) h true Hb) as [Hb1 Hbuf1]; try done.
  { unfold open_handles. simpl. rewrite Hq. simpl. solve_Permutation. }
  { apply (bk_costs _ _ _ _ Hb). } { apply (bk_copies _ _ _ _ Hb). }
  { simpl. rewrite (bk_credit _ _ _ _ Hb), Hq. simpl. lia. }
  destruct (resume_one_spec _ _ _ _ Hb1 Hbuf1) as (w1 & live1 & p1 & q1 & -> & Hb2 & Hk1 & Hw1 & Hr1). cbn [obind].
  destruct (IH live1 stale w1 Hb2) as (w2 & live2 & -> & Hb3 & Hk2).
  { rewrite Hw1, length_app. simpl. lia. }
  exists w2, live2. split_and!; [done|done|]. by apply (kept_then _ w1); [destruct Hk1; split|].
Qed.

Lemma resume_waiting_spec live stale w : books [] live stale w →
  ∃ w' live', resume_waiting w = Ret w' ∧ books [] live' stale w' ∧ kept w w'.
Proof.
  intros Hb. unfold ObjectStorageWorker.resume_waiting.
  destruct (resume_retries_spec _ _ _ _ Hb (Nat.le_refl _)) as (w1 & live1 & p & -> & Hb1 & Hk1 & _). cbn [obind].
  destruct (resume_first_spec _ _ _ _ Hb1 (Nat.le_refl _)) as (w2 & live2 & -> & Hb2 & Hk2).
  exists w2, live2. split_and!; [done|done|by eapply kept_then].
Qed.

End Chunks.
