(* ===== verification/ObjectStorageTurn.v ===== *)
(** The turns of an object storage worker: giving everything up, and taking what the backend reports.  Neither
    throws; the first leaves nothing behind, the second keeps the books. *)

From S2P Require Import Prelude ResponseCode Text SharedQueue Task ChunkSplitter Batch Workload.
From S2P Require Import CapacityQueue InflightChunks Reporting ObjectStorageRetry ObjectStorageIo ObjectStorageWorker.
From S2P Require Import ObjectStorageBooks ObjectStorageChunks.

Section Turn.
Context {R B C : Type} `{!Responder R, !ObjectReader B, !CopyPath C, !ReaderLaws B, !CopyLaws C}.
Context (max_responses : Z).
Context (owner : nat → Z) (log0 : list Response) (others : list Batch).

Local Abbreviation worker := (worker (R := R) (B := B) (C := C)).
Local Abbreviation books := (books owner log0 others).
Local Abbreviation answering := (answering owner log0 others).
Local Abbreviation abort_all := (abort_all max_responses).
Local Abbreviation quiesce_reads_loop := (quiesce_reads_loop max_responses).
Local Abbreviation quiesce_reads := (quiesce_reads max_responses).
Implicit Types (w : worker).

(** ** Giving everything up *)

(** What is enough to give everything up, also in the middle of taking a workload on. *)
Record abortable w : Prop := {
  ab_answers : answering w;
  ab_errors : Forall (λ x, errors_ok (oi_errors x.2)) (ow_inflight w);
  ab_held : held (ow_path w) ≡ₚ stagings (ow_inflight w);
  ab_pool : ow_pool w = false → stagings (ow_inflight w) = [];
  ab_copies : ow_copies w = Z.of_nat (length (in_copy (ow_path w)));
  ab_size : Z.of_nat (length (in_copy (ow_path w))) < size_modulus;
  ab_next : 1 <= ow_next w < size_modulus;
  ab_reads : ∀ h, h ∈ reading (ow_reader w) → 0 <= h < ow_next w;
  ab_credit : 0 <= inflight (ow_queue w) }.

Lemma blocks_elem lo l hi base wl : blocks_ok lo l hi → (base, wl) ∈ l → assoc base l = Some wl.
Proof.
  revert lo. induction l as [|[b x] l IH]; intros lo; simpl; [by intros _ ?%elem_of_nil|].
  intros (Hlo & Hne & Hl) [[= -> ->]|Hin]%elem_of_cons; [by rewrite Z.eqb_refl|].
  pose proof (IH _ Hl Hin) as Ha. destruct (blocks_assoc _ _ _ _ _ Hl Ha) as [Hb _].
  assert (0 < Z.of_nat (length (oi_chunks x))) by (destruct (oi_chunks x); simpl; [done|lia]).
  by rewrite (proj2 (Z.eqb_neq base b)) by lia.
Qed.

Lemma books_abortable hand live stale w : books [] hand live stale w → abortable w.
Proof.
  intros [H1 H2 H3 H4 H5 H6 [B1 B2 B3] H8]. pose proof (ledger_length _ _ _ H1) as Hl.
  pose proof (blocks_le _ _ _ (lg_blocks _ _ _ H1)). pose proof (lg_next _ _ _ H1).
  split; try done.
  - apply Forall_forall. intros [base wl] Hin%(blocks_elem _ _ _ _ _ (lg_blocks _ _ _ H1)).
    by destruct (lg_workloads _ _ _ H1 _ _ Hin) as [[] _].
  - unfold open_handles in Hl. rewrite !length_app in Hl. lia.
  - intros h. simpl in H2. rewrite H2. intros [Hh|Hh]%elem_of_app; [|by apply H3].
    destruct (lg_open _ _ _ H1 h) as (b & i & Hloc).
    { unfold open_handles. rewrite !elem_of_app. tauto. }
    pose proof (located_range _ _ _ _ _ _ (lg_blocks _ _ _ H1) Hloc). lia.
  - rewrite H5. lia.
Qed.

(** A round either ends the wait or takes credit: an answer with events whose first is not the marker has ended some read. *)
Lemma round_completes (events : list Event) completed marker : before_marker events = (completed, marker) →
  (completed =? 0)%nat && (bool_decide (events = []) || marker) = false → (0 < completed)%nat.
Proof.
  destruct events as [|[h ret] events]; simpl; [by intros [= <- <-]|].
  destruct (decide (ret = FinishedError)); [by intros [= <- <-]|]. destruct (before_marker events). intros [= <- <-] _. lia.
Qed.

Lemma complete_positive n (q : CapacityQueue ObjectChunk) : 0 <= inflight (CapacityQueue.complete n q).
Proof. unfold CapacityQueue.complete. simpl. destruct (_ >=? _); [|done]. apply Z.mod_pos_bound. mlia. Qed.

Lemma complete_many_takes n (q : CapacityQueue ObjectChunk) : 0 <= inflight q →
  queued (complete_many n q) = queued q ∧ capacity (complete_many n q) = capacity q ∧
  0 <= inflight (complete_many n q) <= Z.max 0 (inflight q - Z.of_nat n).
Proof.
  revert q. induction n as [|n IH]; intros q Hq; simpl; [split_and!; [done|done|lia|lia]|].
  assert (0 <= inflight (CapacityQueue.complete 1 q) <= Z.max 0 (inflight q - 1)) as Hc.
  { unfold CapacityQueue.complete. simpl. rewrite Z.geb_leb. destruct (Z.leb_spec 1 (inflight q)); [|lia].
    unfold sub64, wrap64. pose proof (Z.mod_le (inflight q - 1) size_modulus). munfold.
    pose proof (Z.mod_pos_bound (inflight q - 1) size_modulus). munfold. lia. }
  destruct (IH (CapacityQueue.complete 1 q)) as (H1 & H2 & H3); [lia|]. split_and!; [done|done|lia|lia].
Qed.

(** Waiting for the reads ends, only reads reports and gives credit back. *)
Lemma quiesce_reads_loop_spec n : ∀ w, 0 <= inflight (ow_queue w) <= Z.of_nat n →
  ∃ b q r, quiesce_reads_loop n w = Ret (b, with_queue q (with_reader r w)) ∧
  queued q = queued (ow_queue w) ∧ capacity q = capacity (ow_queue w) ∧
  ∀ h, h ∈ reading r → h ∈ reading (ow_reader w).
Proof.
  induction n as [|n IH]; intros w Hn; simpl; rewrite Z.gtb_ltb; (destruct (Z.ltb_spec 0 (inflight (ow_queue w))) as [Hpos|];
    [|exists true, (ow_queue w), (ow_reader w); split_and!; [by destruct w|done..]]); [lia|].
  destruct (async_response max_responses (ow_reader w)) as [[ret events] reader] eqn:E.
  apply async_response_law in E.
  assert (∀ h, h ∈ reading reader → h ∈ reading (ow_reader w)) as Hsub.
  { intros h Hh. destruct (decide (ret = Success)); [|by rewrite <- E].
    destruct E as (ended & markers & _ & _ & _ & ->). apply elem_of_app. by right. }
  destruct (negb (bool_decide (ret = Success))).
  { exists false, (ow_queue w), reader. split_and!; [by destruct w|done..]. }
  destruct (before_marker events) as [completed marker] eqn:Em.
  destruct (complete_many_takes completed (ow_queue w)) as (Hq1 & Hq2 & Hq3); [lia|].
  set (q := complete_many completed (ow_queue w)) in *.
  destruct (_ && _) eqn:Hend; [by exists false, q, reader|]. apply (round_completes _ _ _ Em) in Hend.
  destruct (IH (with_queue q (with_reader reader w))) as (b & q2 & r2 & -> & H1 & H2 & H3); [simpl; lia|].
  exists b, q2, r2. split_and!; [done| | |auto]; simpl in *; congruence.
Qed.

Lemma quiesce_copies_loop_spec n : ∀ w, n = length (in_copy (ow_path w)) → ow_copies w = Z.of_nat n →
  Z.of_nat n < size_modulus →
  ∃ path, quiesce_copies_loop n w = Ret (with_copies 0 (with_path path w)) ∧ held path = held (ow_path w) ∧ in_copy path = [].
Proof.
  induction n as [|n IH]; intros w Hn Hc Hsize; simpl; rewrite Hc, Z.gtb_ltb.
  - exists (ow_path w). split_and!; [destruct w; simpl in *; by subst|done|]. by destruct (in_copy (ow_path w)).
  - rewrite (proj2 (Z.ltb_lt 0 _)) by lia.
    destruct (pop_copy true (ow_path w)) as [[[h ret]|] path] eqn:E; destruct (pop_copy_law _ _ _ _ E) as [Hheld Hcopy].
    + destruct (IH (with_copies (ow_copies w ⊖ 1) (with_path path w))) as (p & Ep & Hh & Hp).
      * rewrite Hcopy in Hn. simpl in *. lia.
      * simpl. rewrite Hc. rewrite sub64_small; [lia|]. unfold is_size. lia.
      * lia.
      * exists p. rewrite Hc in Ep. rewrite Ep. split_and!; [done|simpl in *; congruence|done].
    + destruct Hcopy as [_ Hnil]. rewrite (Hnil eq_refl) in Hn. done.
Qed.

Lemma give_back_chunks_spec reuse code l : ∀ path rest, held path ≡ₚ stagings_of l ++ rest →
  ∃ l' path', give_back_chunks reuse code l path = (l', path') ∧ held path' ≡ₚ rest ∧ in_copy path' = in_copy path.
Proof.
  induction l as [|cs l IH]; intros path rest Hh; simpl; [by exists [], path|].
  unfold stagings_of in Hh. simpl in Hh. fold (stagings_of l) in Hh. unfold chunk_staging in Hh.
  destruct (staging_valid (cs_staging cs)) eqn:Hv; simpl in Hh.
  - set (path1 := if reuse then _ else _).
    assert (in_copy path1 = in_copy path ∧ held path1 ≡ₚ stagings_of l ++ rest) as [Hc1 Hh1].
    { unfold path1. destruct reuse; [by apply release_buffer_law|by apply retire_buffer_law]. }
    destruct (IH path1 rest Hh1) as (l' & path' & -> & H1 & H2). eexists _, path'. split_and!; [done|done|congruence].
  - destruct (IH path rest Hh) as (l' & path' & -> & H1 & H2). by eexists _, path'.
Qed.

Lemma give_back_spec reuse code l : ∀ path rest, held path ≡ₚ stagings l ++ rest →
  ∃ l' path', give_back reuse code l path = (l', path') ∧ held path' ≡ₚ rest ∧ in_copy path' = in_copy path ∧
    mine l' = mine l ∧ length l' = length l ∧
    (Forall (λ x, errors_ok (oi_errors x.2)) l → Forall (λ x, errors_ok (oi_errors x.2)) l').
Proof.
  induction l as [|[base wl] l IH]; intros path rest Hh; simpl; [by exists [], path|].
  rewrite stagings_cons, <- app_assoc in Hh. simpl in Hh.
  destruct (give_back_chunks_spec reuse code _ _ _ Hh) as (cs & path1 & -> & Hh1 & Hc1).
  destruct (IH path1 rest Hh1) as (l' & path' & -> & Hh2 & Hc2 & Hm & Hlen & Herr).
  eexists _, path'. split_and!; [done|done|congruence| |simpl; congruence|].
  - unfold mine in *. simpl. by rewrite Hm.
  - intros [He Hr]%Forall_cons. constructor; auto.
Qed.

Lemma finalize_all_spec n code : ∀ w, answering w → Forall (λ x, errors_ok (oi_errors x.2)) (ow_inflight w) →
  n = length (ow_inflight w) → code ≠ Success →
  ∃ bs x, finalize_all n code w = Ret (with_inflight [] (with_retired bs (with_world x w))) ∧
    answering (with_inflight [] (with_retired bs (with_world x w))).
Proof.
  induction n as [|n IH]; intros w Ha Herr Hn Hcode; simpl.
  { exists [], (ow_world w). assert (ow_inflight w = []) as Hi by by destruct (ow_inflight w).
    replace (with_inflight [] _) with w; [done|]. unfold with_inflight, with_retired, with_world. simpl. rewrite app_nil_r.
    destruct w. simpl in *. by rewrite Hi. }
  destruct (ow_inflight w) as [|[base wl] l] eqn:Hi; [done|]. apply Forall_cons in Herr as [He Herr].
  assert (assoc base (ow_inflight w) = Some wl) as Has by (rewrite Hi; simpl; by rewrite Z.eqb_refl).
  destruct (end_workload_spec owner log0 others w base wl code Ha Has He (or_introl Hcode)) as (bs & x & -> & Ha1). cbn [obind].
  set (w1 := with_inflight _ _) in *.
  assert (ow_inflight w1 = l) as Hi1 by (simpl; rewrite Hi; simpl; by rewrite Z.eqb_refl).
  destruct (IH w1 Ha1) as (bs2 & x2 & -> & Ha2); [by rewrite Hi1|by rewrite Hi1; simpl in Hn; lia|done|].
  exists (bs ++ bs2), x2. replace (with_inflight [] (with_retired (bs ++ bs2) (with_world x2 w))) with
    (with_inflight [] (with_retired bs2 (with_world x2 w1))); [done|].
  unfold w1, with_inflight, with_retired, with_world. simpl. by rewrite app_assoc.
Qed.

(** Nothing in hand, nothing queued, nothing lent: the state after everything was given up. *)
Record emptied w : Prop := {
  em_idle : worker_idle w = true;
  em_inflight : ow_inflight w = [];
  em_held : held (ow_path w) = [];
  em_copies : in_copy (ow_path w) = [] }.

Lemma abandon_pending_spec w : abortable w →
  ∃ drained w', abandon_pending max_responses w = Ret (drained, w') ∧
    ow_inflight w' = ow_inflight w ∧ ow_pool w' = ow_pool w ∧ ow_next w' = ow_next w ∧ ow_world w' = ow_world w ∧
    ow_retired w' = ow_retired w ∧ ow_waiting w' = [] ∧ ow_waiting_retries w' = [] ∧ rt_delayed (ow_retry w') = [] ∧
    ow_copies w' = 0 ∧ in_copy (ow_path w') = [] ∧ held (ow_path w') = held (ow_path w) ∧
    capacity (ow_queue w') = capacity (ow_queue w) ∧ (∀ h, h ∈ reading (ow_reader w') → h ∈ reading (ow_reader w)).
Proof.
  intros [_ _ _ _ Hcopies Hsize _ _ Hcredit]. unfold abandon_pending. set (w1 := with_waiting_retries [] _).
  assert (capacity (ow_queue w1) = capacity (ow_queue w) ∧ ow_path w1 = ow_path w ∧ ow_copies w1 = ow_copies w ∧
    ow_inflight w1 = ow_inflight w ∧ ow_pool w1 = ow_pool w ∧ ow_reader w1 = ow_reader w ∧ ow_next w1 = ow_next w ∧
    ow_world w1 = ow_world w ∧ ow_retired w1 = ow_retired w ∧ rt_delayed (ow_retry w1) = [] ∧ 0 <= inflight (ow_queue w1))
    as (Q1 & Q2 & Q3 & Q4 & Q5 & Q6 & Q7 & Q8 & Q9 & Q10 & Q13).
  { unfold w1. destruct (_ >? 0); split_and!; try done. apply complete_positive. }
  pose proof (eq_refl : ow_waiting w1 = []) as Q11. pose proof (eq_refl : ow_waiting_retries w1 = []) as Q12. clearbody w1.
  unfold ObjectStorageWorker.quiesce_reads.
  destruct (quiesce_reads_loop_spec (Z.to_nat (inflight (ow_queue w1))) w1) as (drained & q & r & -> & _ & Hcap & Hr);
    [rewrite Z2Nat.id by done; lia|]. cbn [obind].
  set (w2 := with_queue q (with_reader r w1)). pose proof (Q2 : ow_path w2 = ow_path w) as P2.
  pose proof (Q3 : ow_copies w2 = ow_copies w) as P3. unfold quiesce_copies. rewrite P3, Hcopies, Nat2Z.id.
  destruct (quiesce_copies_loop_spec (length (in_copy (ow_path w))) w2) as (path & -> & Hh & Hc);
    [by rewrite P2|by rewrite P3|done|]. cbn [obind].
  eexists drained, _. split; [done|]. simpl. rewrite Q1 in Hcap. rewrite Q6 in Hr. rewrite Hh, P2. by split_and!.
Qed.

(** The destructor waits for the reads and the copies, and the waits end. *)
Lemma tear_down_spec w : abortable w → ∃ w', tear_down max_responses w = Ret w' ∧ in_copy (ow_path w') = [].
Proof.
  intros [_ _ _ _ Hcopies Hsize _ _ Hcredit]. unfold tear_down, ObjectStorageWorker.quiesce_reads.
  destruct (quiesce_reads_loop_spec (Z.to_nat (inflight (ow_queue w))) w) as (b & q & r & -> & _); [rewrite Z2Nat.id by done; lia|].
  cbn [obind]. unfold quiesce_copies. change (ow_copies (with_queue q (with_reader r w))) with (ow_copies w).
  rewrite Hcopies, Nat2Z.id.
  destruct (quiesce_copies_loop_spec (length (in_copy (ow_path w))) (with_queue q (with_reader r w))) as (path & -> & _ & Hc); [done..|].
  by eexists.
Qed.

(** The buffers still with the chunks go back, when there is a pool at all. *)
Lemma give_back_all reuse code w : held (ow_path w) ≡ₚ stagings (ow_inflight w) →
  (ow_pool w = false → stagings (ow_inflight w) = []) → in_copy (ow_path w) = [] →
  Forall (λ x, errors_ok (oi_errors x.2)) (ow_inflight w) →
  ∃ l path, (if ow_pool w then let '(l, path) := give_back reuse code (ow_inflight w) (ow_path w) in with_path path (with_inflight l w)
             else w) = with_path path (with_inflight l w) ∧
    held path = [] ∧ in_copy path = [] ∧ mine l = mine (ow_inflight w) ∧ Forall (λ x, errors_ok (oi_errors x.2)) l.
Proof.
  intros Hh Hp Hc He. destruct (ow_pool w).
  - destruct (give_back_spec reuse code (ow_inflight w) (ow_path w) []) as (l & path & -> & H1 & H2 & H3 & H4 & H5);
      [by rewrite app_nil_r|].
    exists l, path. split_and!; [done|by apply Permutation_nil_r|congruence|done|auto].
  - exists (ow_inflight w), (ow_path w). split_and!; [by destruct w| |done|done|done].
    apply Permutation_nil_r. by rewrite Hh, Hp.
Qed.

Lemma abort_all_spec code worker_continues w : abortable w → code ≠ Success →
  ∃ w', abort_all code worker_continues w = Ret w' ∧ books [] [] [] (reading (ow_reader w')) w' ∧ emptied w' ∧
    ow_next w' = ow_next w ∧ capacity (ow_queue w') = capacity (ow_queue w).
Proof.
  intros Hab Hcode. unfold ObjectStorageWorker.abort_all.
  destruct (abandon_pending_spec w Hab) as (drained & w1 & -> & P1 & P2 & P3 & P4 & P5 & P6 & P7 & P8 & P9 & P10 & P11 & P12 & P13).
  cbn [obind].
  destruct Hab as [[[a Ha] Hret] Herr Hheld Hpool _ _ Hnext Hreads _].
  destruct (give_back_all (drained || negb worker_continues) code w1) as (l & path & -> & Hh & Hc & Hm & He);
    [by rewrite P11, P1|by rewrite P2, P1|done|by rewrite P1|].
  set (w2 := with_path path (with_inflight l w1)).
  assert (answering w2) as Hans2.
  { split; [exists a|]; simpl; rewrite ?Hm; repeat find_rewrite; done. }
  destruct (finalize_all_spec (length (ow_inflight w2)) code w2 Hans2 He eq_refl Hcode) as (bs & x & -> & Hans3). cbn [obind].
  eexists. split; [done|]. split; [split; simpl|split; [split; simpl|simpl; by split]]; try done.
  - unfold open_handles, queued_handles, delayed_handles. simpl. repeat find_rewrite.
    split; simpl; [lia|lia|constructor|by intros h ?%elem_of_nil|done].
  - intros h Hr. repeat find_rewrite. auto.
  - by repeat find_rewrite.
  - by repeat find_rewrite.
  - split; simpl; [done|by find_rewrite|done].
  - destruct Hans3 as [? ?]. by split.
  - unfold worker_idle, has_deferred_work, has_pending. simpl. by repeat find_rewrite.
Qed.

(** ** Taking what the backend reports *)

(** A read that was reported is one of a live chunk, which comes to hand, or of one given up. *)
Lemma books_hear said live stale w h : books (h :: said) [] live stale w →
  (∃ stale', books said [] live stale' w ∧ locate h (ow_inflight w) = None) ∨
  (∃ live', books said [(h, true)] live' stale w).
Proof.
  intros [H1 H2 H3 H4 H5 H6 H7 [H8 H9]]. assert (h ∈ live ++ stale) as Hin by (rewrite <- H2; by left).
  apply elem_of_app in Hin as [Hin|Hin].
  - right. apply elem_of_Permutation in Hin as [live' Hl]. exists live'. split; try done.
    + eapply ledger_perm; [|exact H1]. unfold open_handles. simpl. rewrite Hl. solve_Permutation.
    + apply (Permutation_cons_inv (a := h)). simpl in H2. rewrite H2, Hl. done.
    + rewrite H5, Hl. unfold credited. simpl. lia.
    + eapply buffers_busy; [|exact H7]. intros x. simpl. by rewrite Hl.
  - left. apply elem_of_Permutation in Hin as [stale' Hs]. exists stale'.
    split; [|apply H3; rewrite Hs; by left]. split; try done.
    + apply (Permutation_cons_inv (a := h)). simpl in H2. rewrite H2, Hs. solve_Permutation.
    + intros x Hx. apply H3. rewrite Hs. by right.
Qed.

Lemma try_again_spec said live stale w h base i wl cs :
  books said [(h, true)] live stale w → found w h base i wl cs →
  ∃ again w', try_again base i wl cs w = (again, w') ∧
    match again with
    | Some w2 => books said [] live stale w2 ∧ ow_next w2 = ow_next w ∧ capacity (ow_queue w2) = capacity (ow_queue w)
    | None => books said [(h, true)] live stale w' ∧ found w' h base i wl cs ∧ kept w w'
    end.
Proof.
  intros Hb Hf. pose proof (found_handle _ _ _ _ _ _ _ _ _ _ _ _ _ Hb Hf) as Hh.
  pose proof (clock_law (ow_reader w)) as Hr. unfold try_again. destruct (clock_now (ow_reader w)) as [now reader].
  simpl in Hr. rewrite Hh. change (ow_retry (with_reader reader w)) with (ow_retry w).
  destruct (schedule (cs_retry cs) h now (draw_delay reader) (ow_retry w)) as [[[s|] st] r] eqn:E.
  - assert (∃ t, rt_delayed r ≡ₚ (t, h) :: rt_delayed (ow_retry w)) as [t Ht].
    { unfold schedule in E. destruct (rs_deadline (cs_retry cs)); [|done]. destruct (now >=? _); [done|].
      destruct (_ >=? _); [done|]. injection E as <- <- <-. eexists. apply emplace_perm. }
    eexists (Some _), _. split; [done|].
    destruct (drop_buffer _ _ _ _ _ _ _ _ _ _ _ _ _ _ Hb Hf) as [Hcopy Hbuf].
    pose proof Hf as [_ Hhb Ha Hi].
    set (path := if staging_valid (cs_staging (with_attempts st cs)) then _ else _).
    set (cs1 := if staging_valid (cs_staging (with_attempts st cs)) then _ else _).
    assert (path = unstaged_path cs (ow_path w)) as Hpath by done. clearbody path. subst path.
    assert (chunk_place cs1 = chunk_place cs ∧ cs_staging cs1 = cs_staging (unstaged cs)) as [Hp1 Hs1].
    { unfold cs1, unstaged. simpl. by destruct (staging_valid (cs_staging cs)). }
    clearbody cs1. pose proof (grown_set_chunk _ _ _ _ Hi Hp1) as Hg.
    pose proof (books_credit _ _ _ _ _ _ _ _ Hb) as Hcr. pose proof (bk_credit _ _ _ _ _ _ _ _ Hb) as Hcredit.
    rewrite credited_cons in Hcredit. change (credited []) with 0%nat in Hcredit. simpl. split; [|done]. split; simpl.
    + eapply (ledger_perm (open_handles [(h, true)] live w)).
      * unfold open_handles, delayed_handles. simpl. rewrite Hcopy, (Permutation_map snd Ht). simpl. solve_Permutation.
      * eapply ledger_grown; [apply (bk_ledger _ _ _ _ _ _ _ _ Hb)|done..].
    + rewrite Hr. exact (bk_reading _ _ _ _ _ _ _ _ Hb).
    + exact (store_stale _ _ _ _ _ _ _ _ _ _ (set_chunk i cs1 wl) Hb Ha (length_insert _ _ _)).
    + exact (bk_costs _ _ _ _ _ _ _ _ Hb).
    + apply complete_credit; lia.
    + rewrite Hcopy. exact (bk_copies _ _ _ _ _ _ _ _ Hb).
    + rewrite <- (assoc_set_set base _ (set_chunk i (unstaged cs) wl)).
      eapply buffers_set; [exact Hbuf|apply assoc_set_eq; by eexists|]. simpl.
      by rewrite !list_insert_map_staging, Hs1.
    + destruct (answering_store _ _ _ w base wl (set_chunk i cs1 wl) (bk_answers _ _ _ _ _ _ _ _ Hb) Ha eq_refl) as [Hs Hret].
      split; [exact Hs|exact Hret].
  - eexists None, _. split; [done|]. split; [by apply books_reader|]. split; [destruct Hf; by split|by split].
Qed.

Lemma handle_event_spec said live stale w h ret : books (h :: said) [] live stale w →
  ∃ progressed w' live' stale', handle_event h ret w = Ret (progressed, w') ∧ books said [] live' stale' w' ∧
    ow_next w' = ow_next w ∧ capacity (ow_queue w') = capacity (ow_queue w).
Proof.
  intros Hb. unfold handle_event. destruct (books_hear _ _ _ _ _ Hb) as [(stale' & Hb1 & ->)|(live' & Hb1)].
  { by exists false, w, live, stale'. }
  destruct (books_found _ _ _ _ _ _ _ _ _ _ Hb1) as (base & i & wl & cs & Hf). rewrite (fd_locate _ _ _ _ _ _ Hf).
  destruct (decide (ret = RetryableFileAccessError)) as [->|Hne].
  - rewrite (found_chunk_at _ _ _ _ _ _ Hf). cbn [obind].
    destruct (try_again_spec _ _ _ _ _ _ _ _ _ Hb1 Hf) as (again & w1 & -> & Hagain). destruct again as [w2|].
    + destruct Hagain as (Hb2 & ? & ?). by exists true, w2, live', stale.
    + destruct Hagain as (Hb2 & Hf2 & [_ Hn2 _ Hc2]).
      destruct (complete_chunk_spec _ _ _ _ _ _ _ _ _ FileAccessError _ _ _ _ Hb2 Hf2) as (w3 & -> & Hb3 & [_ Hn3 _ Hc3] & _).
      cbn [obind]. exists true, w3, live', stale. split_and!; [done|done|congruence|congruence].
  - destruct (complete_chunk_spec _ _ _ _ _ _ _ _ _ ret _ _ _ _ Hb1 Hf) as (w3 & -> & Hb3 & [_ Hn3 _ Hc3] & _).
    cbn [obind]. by exists true, w3, live', stale.
Qed.

Lemma handle_events_spec (ended markers : list Event) : ∀ live stale w, books (map fst ended) [] live stale w →
  Forall (λ x, x.2 ≠ FinishedError) ended → Forall (λ x, x.2 = FinishedError) markers →
  ∃ progressed marker w' live' stale', handle_events (ended ++ markers) w = Ret (progressed, marker, w') ∧
    books [] [] live' stale' w' ∧ ow_next w' = ow_next w ∧ capacity (ow_queue w') = capacity (ow_queue w).
Proof.
  induction ended as [|[h ret] ended IH]; intros live stale w Hb He Hm; simpl.
  - destruct markers as [|[h ret] markers]; simpl; [by exists false, false, w, live, stale|].
    apply Forall_cons in Hm as [Hm _]. simpl in Hm. rewrite decide_True by done. by exists false, true, w, live, stale.
  - apply Forall_cons in He as [Hne He]. simpl in Hne. rewrite decide_False by done.
    change (books (h :: map fst ended) [] live stale w) in Hb.
    destruct (handle_event_spec _ _ _ _ _ ret Hb) as (p & w1 & live1 & stale1 & -> & Hb1 & Hn1 & Hc1). cbn [obind].
    destruct (IH _ _ _ Hb1 He Hm) as (p2 & m & w2 & live2 & stale2 & -> & Hb2 & Hn2 & Hc2). cbn [obind].
    eexists _, m, w2, live2, stale2. split_and!; [done|done|congruence|congruence].
Qed.

(** ** The turn *)

Context (chunk_bytesize window_chunks : Z) (has_copy_path : bool) (location_of : Z → Z → text).

Local Abbreviation harvest := (harvest max_responses).
Local Abbreviation drain_batch := (drain_batch chunk_bytesize window_chunks max_responses has_copy_path location_of).
Local Abbreviation pump_loop := (pump_loop chunk_bytesize window_chunks has_copy_path location_of).
Local Abbreviation pump := (pump chunk_bytesize window_chunks has_copy_path location_of).
Local Abbreviation drain := (drain chunk_bytesize window_chunks max_responses has_copy_path location_of).

(** Between two turns: the books are kept, whatever is being read. *)
Definition settled_books w : Prop := ∃ live stale, books [] [] live stale w.

(** One worker after another, of the same pool. *)
Definition same_worker w w' : Prop := ow_next w' = ow_next w ∧ capacity (ow_queue w') = capacity (ow_queue w).

Lemma abort_turn code worker_continues w : settled_books w → code ≠ Success →
  ∃ w', abort_all code worker_continues w = Ret w' ∧ settled_books w' ∧ same_worker w w' ∧ emptied w'.
Proof.
  intros (live & stale & Hb) Hcode.
  destruct (abort_all_spec code worker_continues w (books_abortable _ _ _ _ Hb) Hcode) as (w' & -> & Hb' & He & Hs).
  exists w'. split; [done|]. split; [by eexists [], _|done].
Qed.

Lemma harvest_spec w : settled_books w → ∃ w', harvest w = Ret w' ∧ settled_books w' ∧ same_worker w w'.
Proof.
  intros (live & stale & Hb). unfold ObjectStorageWorker.harvest.
  destruct (async_response max_responses (ow_reader w)) as [[r events] reader] eqn:E. apply async_response_law in E.
  destruct (decide (r = Success)) as [->|Hne].
  - rewrite bool_decide_true by done. cbn [negb]. destruct E as (ended & markers & -> & Hended & Hmarkers & Hperm).
    assert (books (map fst ended) [] live stale (with_reader reader w)) as Hb1.
    { destruct Hb as [H1 H2 H3 H4 H5 H6 H7 [H8 H9]]. split; try done. simpl in *. by rewrite <- Hperm. }
    destruct (handle_events_spec ended markers _ _ _ Hb1 Hended Hmarkers)
      as (p & m & w1 & live1 & stale1 & -> & Hb2 & Hn2 & Hc2). cbn [obind].
    assert (settled_books w1) as Hs1 by by exists live1, stale1.
    destruct (_ && _ && _ && _); [|by exists w1].
    destruct (abort_turn FinishedError true w1 Hs1) as (w2 & -> & Hs2 & [Hn3 Hc3] & _); [done|].
    exists w2. split_and!; [done|done|]. split; simpl in *; congruence.
  - rewrite bool_decide_false by done. simpl.
    assert (settled_books (with_reader reader w)) as Hs1 by (exists live, stale; by apply books_reader).
    destruct (_ && _); [by exists (with_reader reader w)|].
    destruct (abort_turn r true _ Hs1 Hne) as (w2 & -> & Hs2 & Hsame & _). by exists w2.
Qed.

Lemma nap_spec w : settled_books w → settled_books (nap w) ∧ same_worker w (nap w).
Proof.
  intros (live & stale & Hb). unfold nap. destruct (_ && _ && _); [|split; [by exists live, stale|done]].
  destruct (next_due (ow_retry w)) as [t|]; [|split; [by exists live, stale|done]].
  pose proof (clock_law (ow_reader w)) as Hr. destruct (clock_now (ow_reader w)) as [now reader].
  split; [|done]. exists live, stale. apply books_reader; [done|]. by rewrite sleep_law.
Qed.

Lemma drain_batch_spec stopped w : settled_books w →
  ∃ w', drain_batch stopped w = Ret w' ∧ settled_books w' ∧ same_worker w w' ∧ (stopped = true → emptied w').
Proof.
  intros (live & stale & Hb). unfold ObjectStorageWorker.drain_batch. destruct stopped.
  { destruct (abort_turn FinishedError false w) as (w' & -> & ? & ? & ?); [by exists live, stale|done|]. by exists w'. }
  destruct (drain_copies_spec _ _ _ _ _ _ _ Hb) as (w1 & -> & Hb1 & [_ Hn1 _ Hc1]). cbn [obind].
  destruct (resume_waiting_spec _ _ _ _ chunk_bytesize window_chunks has_copy_path location_of _ _ _ Hb1)
    as (w2 & live2 & -> & Hb2 & [_ Hn2 _ Hc2]). cbn [obind].
  assert (settled_books w2) as Hs2 by by exists live2, stale.
  destruct (inflight (ow_queue w2) =? 0).
  - destruct (nap_spec w2 Hs2) as [Hs3 [Hn3 Hc3]]. eexists. split; [done|]. split_and!; [done| |done]. split; congruence.
  - destruct (harvest_spec w2 Hs2) as (w3 & -> & Hs3 & [Hn3 Hc3]). exists w3. split_and!; [done|done| |done]. split; congruence.
Qed.

Lemma pump_loop_spec n : ∀ w, settled_books w → ∃ w', pump_loop n w = Ret w' ∧ settled_books w' ∧ same_worker w w'.
Proof.
  induction n as [|n IH]; intros w Hs; simpl; [by exists w|]. pose proof Hs as (live & stale & Hb).
  unfold try_take. destruct (queued (ow_queue w)) as [|[c cost] rest] eqn:Hq.
  { exists (with_queue (ow_queue w) w). destruct w. by split_and!. }
  destruct (_ && _).
  { exists (with_queue (ow_queue w) w). destruct w. by split_and!. }
  pose proof (bk_costs _ _ _ _ _ _ _ _ Hb) as Hcosts. rewrite Hq in Hcosts. apply Forall_cons in Hcosts as [Hcost Hcosts].
  simpl in Hcost. subst cost. set (q := mkCapacityQueue _ _ _). set (w1 := with_queue q w).
  pose proof (bk_credit _ _ _ _ _ _ _ _ Hb) as Hcr. pose proof (books_credit _ _ _ _ _ _ _ _ Hb) as Hsize.
  destruct (books_take_up owner log0 others [] live stale w w1 (oc_handle c) true Hb) as [Hb1 Hbuf1]; try done.
  { unfold open_handles, queued_handles. simpl. rewrite Hq. simpl. solve_Permutation. }
  { apply (bk_copies _ _ _ _ _ _ _ _ Hb). }
  { simpl. rewrite add64_small by (unfold is_size; lia). simpl in Hcr. lia. }
  destruct (taken_up _ _ _ _ _ _ _ _ _ Hb1 Hbuf1) as (base & i & wl & cs & Hf & Hv & _).
  destruct (submit_spec _ _ _ _ chunk_bytesize window_chunks has_copy_path location_of c _ _ _ _ _ _ _ _ _ Hb1 Hf Hv eq_refl)
    as (w2 & live2 & p & p2 & -> & Hb2 & [_ Hn2 _ Hc2] & _). cbn [obind].
  destruct (IH w2) as (w3 & -> & Hs3 & [Hn3 Hc3]); [by exists live2, stale|].
  exists w3. split_and!; [done|done|]. split; simpl in *; congruence.
Qed.

Lemma pump_spec w : settled_books w → ∃ w', pump w = Ret w' ∧ settled_books w' ∧ same_worker w w'.
Proof.
  intros (live & stale & Hb). unfold ObjectStorageWorker.pump.
  destruct (pre_pump_spec _ _ _ _ _ _ _ Hb) as (w1 & -> & Hb1 & Hn1 & Hc1). cbn [obind].
  destruct (pump_loop_spec (length (queued (ow_queue w1))) w1) as (w2 & -> & Hs2 & [Hn2 Hc2]); [by exists live, stale|].
  exists w2. split_and!; [done|done|]. split; congruence.
Qed.

Lemma drain_spec stopped w : settled_books w → ∃ w', drain stopped w = Ret w' ∧ settled_books w' ∧ same_worker w w'.
Proof.
  intros Hs. unfold ObjectStorageWorker.drain.
  destruct (drain_batch_spec stopped w Hs) as (w1 & -> & Hs1 & [Hn1 Hc1] & _). cbn [obind].
  destruct (pump_spec w1 Hs1) as (w2 & -> & Hs2 & [Hn2 Hc2]). exists w2. split_and!; [done|done|]. split; congruence.
Qed.
End Turn.
