(* ===== verification/ObjectStorageEnqueue.v ===== *)
(** Taking on a workload (ObjectStorageWorker::enqueue): what it registers when nothing fails, and that a
    failure on the way leaves nothing half done. *)

From S2P Require Import Prelude ResponseCode Text SharedQueue Task ChunkSplitter Batch Workload.
From S2P Require Import CapacityQueue InflightChunks Reporting ObjectStorageRetry ObjectStorageIo ObjectStorageWorker.
From S2P Require Import ObjectStorageBooks ObjectStorageChunks ObjectStorageTurn.

(** ** What a batch brings *)

(** Chunks of its own tasks, in a row, that leave out none that has bytes. *)
Fixpoint row (i : Z) (cs : list Chunk) (n : Z) : Prop :=
  match cs with
  | [] => i = n
  | c :: cs => first_task c = i ∧ 0 < task_count c ∧ row (i + task_count c) cs n
  end.

Definition batch_in_rows (b : Batch) : Prop :=
  ∃ n, row 0 (chunks b) n ∧ n <= Z.of_nat (length (tasks b)) ∧
    ∀ j task, tasks b !! j = Some task → n <= Z.of_nat j → t_bytesize task = 0.

Lemma row_le i cs n : row i cs n → i <= n.
Proof. revert i. induction cs as [|c cs IH]; intros i; simpl; [lia|]. intros (_ & H1 & H2%IH). lia. Qed.

(** ** What enqueue registers *)

Fixpoint flat_tasks (bs : list Batch) (j : nat) : list TaskState :=
  match bs with
  | [] => []
  | b :: bs => map (λ i, mkTaskState j i Success) (seq 0 (length (tasks b))) ++ flat_tasks bs (S j)
  end.

Definition chunk_of (base : Z) (task_base k : nat) (c : Chunk) : ChunkState :=
  mkChunkState (mkObjectChunk (base ⊕ Z.of_nat k) (c_offset c) (c_bytesize c) (c_buffer c))
    (task_base + Z.to_nat (first_task c)) (task_count c) fresh_attempt no_staging.

Fixpoint batch_chunks (cs : list Chunk) (base : Z) (task_base k : nat) : list ChunkState :=
  match cs with [] => [] | c :: cs => chunk_of base task_base k c :: batch_chunks cs base task_base (S k) end.

Fixpoint flat_chunks (bs : list Batch) (base : Z) (task_base k : nat) : list ChunkState :=
  match bs with
  | [] => []
  | b :: bs => batch_chunks (chunks b) base task_base k ++
               flat_chunks bs base (task_base + length (tasks b)) (k + length (chunks b))
  end.

Lemma batch_chunks_length cs base tb k : length (batch_chunks cs base tb k) = length cs.
Proof. revert k. induction cs as [|c cs IH]; intros k; simpl; [done|by rewrite IH]. Qed.

Lemma flat_chunks_length bs base : ∀ tb k, length (flat_chunks bs base tb k) = total_chunks bs.
Proof.
  induction bs as [|b bs IH]; intros tb k; simpl; [done|]. by rewrite length_app, batch_chunks_length, IH.
Qed.

Lemma map_seq_lookup {A} (f : nat → A) n i y : map f (seq 0 n) !! i = Some y ↔ (i < n)%nat ∧ y = f i.
Proof.
  change (map f (seq 0 n)) with (f <$> seq 0 n). rewrite list_lookup_fmap_Some. setoid_rewrite lookup_seq. split.
  - by intros (x & -> & -> & H).
  - intros [H ->]. by exists i.
Qed.

Lemma flat_tasks_lookup bs : ∀ j n ts, flat_tasks bs j !! n = Some ts ↔
  ∃ i b, ts = mkTaskState (j + i) (ts_task ts) Success ∧ bs !! i = Some b ∧ (ts_task ts < length (tasks b))%nat ∧
    n = (sum_list_with (λ b, length (tasks b)) (list.take i bs) + ts_task ts)%nat.
Proof.
  induction bs as [|b bs IH]; intros j n ts; simpl.
  { split; [done|]. intros (i & b & _ & H & _). done. }
  rewrite lookup_app. split.
  - destruct (_ !! n) as [ts'|] eqn:E.
    + intros [= ->]. apply map_seq_lookup in E as [Hlt ->].
      exists 0%nat, b. simpl. rewrite Nat.add_0_r. by split_and!.
    + apply lookup_ge_None in E. rewrite length_map, length_seq in *.
      intros (i & b' & -> & Hb & Hlt & Hn)%IH. exists (S i), b'. simpl in *. rewrite Nat.add_succ_r. split_and!; [done|done|done|lia].
  - intros ([|i] & b' & Ets & Hb & Hlt & ->); simpl in *.
    + injection Hb as ->. rewrite Ets. simpl.
      rewrite (proj2 (map_seq_lookup _ _ _ _) (conj Hlt eq_refl)). by rewrite Nat.add_0_r.
    + rewrite (proj2 (lookup_ge_None _ _)) by (rewrite length_map, length_seq; lia).
      apply IH. exists i, b'. rewrite length_map, length_seq. split_and!; [by rewrite Ets at 1; f_equal; lia|done|done|lia].
Qed.

(** ** Spans in order *)

Fixpoint spaced (lo : nat) (l : list ChunkState) (hi : nat) : Prop :=
  match l with
  | [] => (lo <= hi)%nat
  | cs :: l => (lo <= cs_first cs)%nat ∧ 0 < cs_count cs ∧ spaced (cs_first cs + Z.to_nat (cs_count cs)) l hi
  end.

Lemma spaced_app lo l mid l' hi : spaced lo l mid → spaced mid l' hi → spaced lo (l ++ l') hi.
Proof.
  revert lo. induction l as [|cs l IH]; intros lo; simpl.
  - destruct l' as [|cs' l']; simpl; [lia|]. intros H (H1 & H2). split; [lia|done].
  - intros (H1 & H2 & H3) H. eauto.
Qed.

Lemma spaced_lookup lo l hi k cs : spaced lo l hi → l !! k = Some cs →
  (lo <= cs_first cs)%nat ∧ 0 < cs_count cs ∧ (cs_first cs + Z.to_nat (cs_count cs) <= hi)%nat.
Proof.
  revert lo k. induction l as [|cs' l IH]; intros lo k; simpl; [done|]. intros (H1 & H2 & H3). destruct k as [|k]; simpl.
  - intros [= ->]. split_and!; [done|done|]. clear IH. revert H3. generalize (cs_first cs + Z.to_nat (cs_count cs))%nat.
    induction l as [|x l IH]; intros m; simpl; [done|]. intros (? & ? & H%IH). lia.
  - intros Hk. destruct (IH _ _ H3 Hk) as (? & ? & ?). split_and!; [lia|done|done].
Qed.

Lemma spaced_apart lo l hi k1 k2 cs1 cs2 n : spaced lo l hi → l !! k1 = Some cs1 → l !! k2 = Some cs2 →
  in_span cs1 n → in_span cs2 n → k1 = k2.
Proof.
  revert lo k1 k2. induction l as [|cs l IH]; intros lo k1 k2; simpl; [done|]. intros (H1 & H2 & H3).
  unfold in_span in *. destruct k1 as [|k1], k2 as [|k2]; simpl; [done| | |].
  - intros [= ->] Hk Hn1 Hn2. destruct (spaced_lookup _ _ _ _ _ H3 Hk) as (? & ? & ?). lia.
  - intros Hk [= ->] Hn1 Hn2. destruct (spaced_lookup _ _ _ _ _ H3 Hk) as (? & ? & ?). lia.
  - intros Hk1 Hk2 Hn1 Hn2. f_equal. eauto.
Qed.

Lemma batch_chunks_spec cs base tb : ∀ k i n m, row i cs n → 0 <= i → (tb + Z.to_nat n <= m)%nat →
  spaced (tb + Z.to_nat i) (batch_chunks cs base tb k) m ∧
  ∀ j, i <= Z.of_nat j < n → ∃ k' c, batch_chunks cs base tb k !! k' = Some c ∧ in_span c (tb + j).
Proof.
  induction cs as [|c cs IH]; intros k i n m; simpl.
  - intros -> Hi Hm. split; [done|]. lia.
  - intros (Hf & Hc & Hr) Hi Hm. pose proof (row_le _ _ _ Hr).
    destruct (IH (S k) _ _ m Hr ltac:(lia) Hm) as [Hsp Hcov]. split.
    + split; [lia|]. split; [done|]. rewrite Hf. by replace (tb + Z.to_nat i + Z.to_nat (task_count c))%nat with (tb + Z.to_nat (i + task_count c))%nat by lia.
    + intros j Hj. destruct (decide (Z.of_nat j < i + task_count c)).
      * exists 0%nat, (chunk_of base tb k c). split; [done|]. unfold in_span. simpl. lia.
      * destruct (Hcov j ltac:(lia)) as (k' & c' & Hk & Hs). by exists (S k'), c'.
Qed.

Lemma flat_chunks_spec bs base : ∀ tb k, Forall batch_in_rows bs →
  spaced tb (flat_chunks bs base tb k) (tb + sum_list_with (λ b, length (tasks b)) bs) ∧
  ∀ i b j t, bs !! i = Some b → tasks b !! j = Some t → t_bytesize t ≠ 0 →
    ∃ k' c, flat_chunks bs base tb k !! k' = Some c ∧ in_span c (tb + (sum_list_with (λ b, length (tasks b)) (list.take i bs) + j)).
Proof.
  induction bs as [|b bs IH]; intros tb k Hall; simpl; [split; [lia|done]|].
  apply Forall_cons in Hall as [(n & Hrow & Hn & Hz) Hall]. destruct (IH (tb + length (tasks b))%nat (k + length (chunks b))%nat Hall) as [Hsp Hcov].
  destruct (batch_chunks_spec (chunks b) base tb k 0 n (tb + length (tasks b)) Hrow) as [Hsp1 Hcov1]; [lia|lia|].
  rewrite Nat.add_0_r in Hsp1. split.
  - eapply spaced_app; [exact Hsp1|]. by rewrite Nat.add_assoc.
  - intros [|i] b' j t; simpl.
    + intros [= ->] Ht Hb. destruct (decide (n <= Z.of_nat j)) as [Hle|]; [by apply (Hz _ _ Ht) in Hle|].
      destruct (Hcov1 j) as (k' & c & Hk & Hs); [lia|]. exists k', c. split; [|done]. by apply lookup_app_l_Some.
    + intros Hb Ht Hbytes. destruct (Hcov _ _ _ _ Hb Ht Hbytes) as (k' & c & Hk & Hs).
      exists (length (batch_chunks (chunks b) base tb k) + k')%nat, c. split.
      * rewrite lookup_app_r by lia. by replace (_ + k' - _)%nat with k' by lia.
      * by rewrite <- Nat.add_assoc, Nat.add_assoc in *; rewrite !Nat.add_assoc in *.
Qed.

Lemma flat_chunks_handle bs base : ∀ tb k i c, flat_chunks bs base tb k !! i = Some c →
  oc_handle (cs_chunk c) = base ⊕ Z.of_nat (k + i) ∧ staging_valid (cs_staging c) = false.
Proof.
  assert (∀ cs tb k i c, batch_chunks cs base tb k !! i = Some c → oc_handle (cs_chunk c) = base ⊕ Z.of_nat (k + i) ∧ staging_valid (cs_staging c) = false) as Hb.
  { induction cs as [|x cs IH]; intros tb k [|i] c; simpl; try done.
    - intros [= <-]. by rewrite Nat.add_0_r.
    - intros H%IH. by rewrite Nat.add_succ_r. }
  induction bs as [|b bs IH]; intros tb k i c; simpl; [done|].
  intros [H|[Hlen H]]%lookup_app_Some; [by eapply Hb|]. apply IH in H. rewrite batch_chunks_length in *.
  by replace (k + length (chunks b) + (i - length (chunks b)))%nat with (k + i)%nat in H by lia.
Qed.

(** The batches of the streamer are so: their chunks come from the splitter. *)
Lemma grouped_row s i ts cs : grouped s i ts cs → row i cs (i + Z.of_nat (length ts)).
Proof.
  induction 1 as [i|i g ts c cs [(t & g' & -> & _) _ Hf Hn] Hg IH]; simpl; [lia|].
  split; [done|]. rewrite Hn. simpl. split; [lia|]. simpl in IH. rewrite length_app.
  by replace (i + Z.of_nat (S (length g' + length ts))) with (i + Z.of_nat (S (length g')) + Z.of_nat (length ts)) by lia.
Qed.

Lemma make_batch_in_rows s sid widx fidx obj ts chunk_bytesize b o e :
  make_batch s sid widx fidx obj ts chunk_bytesize = Ret b →
  0 < chunk_bytesize → 0 <= o → tiles t_offset t_bytesize o ts e → e + chunk_bytesize < size_modulus →
  Z.of_nat (length ts) < unsigned_modulus → Forall (cut chunk_bytesize) ts → Forall (info_ok s) ts → batch_in_rows b.
Proof.
  unfold make_batch. intros Hb Hc Ho Ht He Hl Hcut Hinfo.
  destruct (split_into_chunks_spec s chunk_bytesize ts o e Hc Ho Ht He Hl Hcut Hinfo) as (cs & E1 & Hcs).
  rewrite E1 in Hb. cbn [obind] in Hb. destruct (make_range _ _) as [r|]; [|done]. injection Hb as <-.
  destruct (decide (o = e)) as [->|Hne].
  - subst cs. exists 0. simpl. split_and!; [done|lia|]. intros j t Hj _.
    destruct (tiles_elem _ _ _ _ _ t Ht) as (H1 & H2 & H3); [by eapply list_elem_of_lookup_2|lia].
  - destruct Hcs as (Hg & _). exists (Z.of_nat (length ts)). simpl. apply grouped_row in Hg. split_and!; [done|lia|].
    intros j t Hj%lookup_lt_Some Hn. lia.
Qed.

(** ** Filling in *)

Section Assemble.
Context {R : Type} `{!Responder R} (chunk_bytesize : Z).
Context (owner : nat → Z) (log0 : list Response) (before : list Batch).

Local Abbreviation Assembly := (Assembly (R := R)).
Local Abbreviation batches a := (wl_batches (oi_workload (as_inflight a))).
Implicit Types (a : Assembly).

(** From [a] to [a'] tasks were answered, and nothing else was lost, whether it went through or not. *)
Record forward a a' : Prop := {
  fw_system : (∃ x, system_ok owner log0 x (before ++ batches a) (as_world a)) →
              ∃ x, system_ok owner log0 x (before ++ batches a') (as_world a');
  fw_batches : Forall2 advanced (batches a) (batches a');
  fw_device : wl_device (oi_workload (as_inflight a')) = wl_device (oi_workload (as_inflight a));
  fw_errors : oi_errors (as_inflight a') = oi_errors (as_inflight a);
  fw_unstaged : stagings_of (oi_chunks (as_inflight a)) = [] → stagings_of (oi_chunks (as_inflight a')) = [];
  fw_queue : inflight (as_queue a') = inflight (as_queue a) ∧ capacity (as_queue a') = capacity (as_queue a);
  fw_costs : Forall (λ x, x.2 = 1) (queued (as_queue a)) → Forall (λ x, x.2 = 1) (queued (as_queue a')) }.

Lemma forward_refl a : forward a a.
Proof. split; auto. apply Forall2_advanced_refl. Qed.

Lemma forward_trans a1 a2 a3 : forward a1 a2 → forward a2 a3 → forward a1 a3.
Proof.
  intros [A1 A2 A3 A4 A5 [A6 A6'] A7] [B1 B2 B3 B4 B5 [B6 B6'] B7]. split; auto; try congruence.
  - eapply Forall2_trans; [|exact A2|exact B2]. intros b1 b2 b3. apply advanced_trans.
  - split; congruence.
Qed.

Lemma allocate_spec a : ∃ ok a', allocate a = (ok, a') ∧ forward a a' ∧ as_inflight a' = as_inflight a ∧
  as_queue a' = as_queue a ∧ as_world a' = as_world a.
Proof.
  unfold allocate. destruct (as_memory a) as [[|n]|]; eexists _, _; (split; [done|]); (split; [|by split_and!]);
    try apply forward_refl. split; auto. apply Forall2_advanced_refl.
Qed.

(** The tasks without bytes of batch [j], before task [n], are answered. *)
Definition zeros_done (j n : nat) a : Prop :=
  ∀ b i t, batches a !! j = Some b → tasks b !! i = Some t → (i < n)%nat → t_bytesize t = 0 → t_finished t = true.

Lemma forward_zeros j n a a' : forward a a' → zeros_done j n a → zeros_done j n a'.
Proof.
  intros Hf Hz b' i t' Hb' Ht' Hi H0. destruct (Forall2_lookup_r _ _ _ _ _ (fw_batches _ _ Hf) Hb') as (b & Hb & Had).
  destruct (lookup_lt_is_Some_2 (tasks b) i) as [t Ht].
  { rewrite <- (ad_length _ _ Had). by eapply lookup_lt_Some. }
  destruct (ad_tasks _ _ Had _ _ Ht) as (t2 & Ht2 & Hinfo & Hfin). assert (t2 = t') as -> by congruence.
  unfold t_bytesize in *. rewrite Hinfo in H0. eauto.
Qed.

Lemma answer_zero_sized_spec j i a b t : batches a !! j = Some b → tasks b !! i = Some t →
  (∃ x, system_ok owner log0 x (before ++ batches a) (as_world a)) →
  ∃ a', answer_zero_sized j i a = (true, a') ∧ forward a a' ∧ as_queue a' = as_queue a ∧
    oi_tasks (as_inflight a') = oi_tasks (as_inflight a) ∧ oi_chunks (as_inflight a') = oi_chunks (as_inflight a) ∧
    (∃ b' t', batches a' !! j = Some b' ∧ tasks b' !! i = Some t' ∧ t_finished t' = true).
Proof.
  intros Hb Ht [x Hs]. unfold answer_zero_sized. rewrite Hb.
  pose proof Hb as (l1 & l2 & El & Ej)%list_elem_of_split_length. rewrite El, app_assoc in Hs.
  destruct (handle_response_total owner log0 _ _ _ _ _ _ _ Hs Ht) as (x' & a' & -> & Hs').
  set (b' := set_tasks b _ _) in *. eexists. split; [done|]. split_and!; try done.
  - split; simpl; auto.
    + intros _. exists a'. rewrite El, Ej, insert_app_r_alt, Nat.sub_diag by lia. simpl. by rewrite app_assoc.
    + by eapply Forall2_advanced_insert, advanced_one.
  - exists b', (set_finished t). simpl. rewrite list_lookup_insert_eq by (by eapply lookup_lt_Some).
    split; [done|]. by rewrite list_lookup_insert_eq by (by eapply lookup_lt_Some).
Qed.

Lemma forward_task a ts : forward a (set_as_inflight (set_task_states ts (as_inflight a)) a).
Proof. split; simpl; auto. apply Forall2_advanced_refl. Qed.

(** [rest] are the tasks of batch [j] from [i] on, as the batch was given. *)
Lemma add_tasks_spec b rest j : ∀ i a, drop i (tasks b) = rest →
  (∃ b', batches a !! j = Some b' ∧ advanced b b') →
  (∃ x, system_ok owner log0 x (before ++ batches a) (as_world a)) → zeros_done j i a →
  ∃ ok a', add_tasks rest j i a = (ok, a') ∧ forward a a' ∧
    (ok = true → as_queue a' = as_queue a ∧ oi_chunks (as_inflight a') = oi_chunks (as_inflight a) ∧
       zeros_done j (i + length rest) a' ∧
       oi_tasks (as_inflight a') = oi_tasks (as_inflight a) ++ map (λ i, mkTaskState j i Success) (seq i (length rest))).
Proof.
  induction rest as [|t rest IH]; intros i a Hd (b' & Hb' & Had) Hs Hz; simpl.
  { exists true, a. split; [done|]. split; [apply forward_refl|]. intros _. rewrite Nat.add_0_r, app_nil_r. by split_and!. }
  destruct (allocate_spec a) as (ok & a1 & -> & Hf1 & Hi1 & Hq1 & Hw1). destruct ok; simpl; [|by exists false, a1].
  rewrite Hi1. set (a2 := set_as_inflight _ a1).
  assert (forward a a2) as Hf2 by (eapply forward_trans; [exact Hf1|]; unfold a2; rewrite <- Hi1; apply forward_task).
  assert (tasks b !! i = Some t) as Ht by (rewrite <- (Nat.add_0_r i), <- lookup_drop, Hd; done).
  assert (drop (S i) (tasks b) = rest) as Hd'.
  { rewrite <- Nat.add_1_r, <- drop_drop, Hd. done. }
  destruct (ad_tasks _ _ Had _ _ Ht) as (t' & Ht' & Hinfo & _).
  pose proof (fw_system _ _ Hf2 Hs) as Hs2.
  assert (∃ a3, (if t_bytesize t =? 0 then answer_zero_sized j i a2 else (true, a2)) = (true, a3) ∧ forward a2 a3 ∧
    as_queue a3 = as_queue a2 ∧ oi_tasks (as_inflight a3) = oi_tasks (as_inflight a2) ∧
    oi_chunks (as_inflight a3) = oi_chunks (as_inflight a2) ∧ zeros_done j (S i) a3) as (a3 & -> & Hf3 & Hq3 & Ht3 & Hc3 & Hz3).
  { assert (batches a2 !! j = Some b') as Hb2 by (simpl; done). pose proof (forward_zeros _ _ _ _ Hf2 Hz) as Hz2.
    destruct (Z.eqb_spec (t_bytesize t) 0) as [H0|H0].
    - destruct (answer_zero_sized_spec j i a2 b' t' Hb2 Ht' Hs2) as (a3 & -> & Hf3 & ? & ? & ? & b3 & t3 & Hb3 & Ht3 & Hfin).
      exists a3. split_and!; try done. intros b4 i4 t4 Hb4 Ht4 Hi4. destruct (decide (i4 = i)) as [->|].
      + intros _. congruence.
      + apply (forward_zeros _ _ _ _ Hf3 Hz2 b4 i4 t4 Hb4 Ht4). lia.
    - exists a2. split_and!; try done; [apply forward_refl|]. intros b4 i4 t4 Hb4 Ht4 Hi4. destruct (decide (i4 = i)) as [->|].
      + assert (t4 = t') as -> by congruence. unfold t_bytesize in *. rewrite Hinfo. done.
      + apply (Hz2 b4 i4 t4 Hb4 Ht4). lia. }
  simpl. assert (forward a a3) as Hf by by eapply forward_trans.
  destruct (Forall2_lookup_l _ _ _ _ _ (fw_batches _ _ Hf) Hb') as (b3 & Hb3 & Had3).
  destruct (IH (S i) a3 Hd') as (ok & a4 & -> & Hf4 & Hok); [|by eapply fw_system|done|].
  { exists b3. split; [done|by eapply advanced_trans]. }
  exists ok, a4. split; [done|]. split; [by eapply forward_trans|]. intros H. destruct (Hok H) as (Hq4 & Hc4 & Hz4 & Ht4).
  split_and!; [by rewrite Hq4, Hq3|by rewrite Hc4, Hc3|by rewrite <- Nat.add_succ_comm|].
  rewrite Ht4, Ht3. simpl. by rewrite <- app_assoc.
Qed.

Lemma stagings_of_insert l k cs : stagings_of l = [] → staging_valid (cs_staging cs) = false → stagings_of (<[k := cs]> l) = [].
Proof.
  intros Hl Hcs. destruct (l !! k) as [c|] eqn:Hk.
  - destruct (stagings_of_split _ _ _ Hk) as (r & Hr & Hset). apply Permutation_nil_r. rewrite Hset.
    rewrite Hl in Hr. symmetry in Hr. apply Permutation_nil_r, app_eq_nil in Hr as [_ ->]. unfold chunk_staging. by rewrite Hcs.
  - by rewrite list_insert_ge by by apply lookup_ge_None.
Qed.

Lemma add_chunks_spec cs base tb : ∀ k a done_chunks n, k = length done_chunks →
  oi_chunks (as_inflight a) = done_chunks ++ replicate (length cs + n) no_chunk →
  ∃ ok a', add_chunks chunk_bytesize cs base tb k a = (ok, a') ∧ forward a a' ∧
    (ok = true → oi_tasks (as_inflight a') = oi_tasks (as_inflight a) ∧ batches a' = batches a ∧
      oi_chunks (as_inflight a') = done_chunks ++ batch_chunks cs base tb k ++ replicate n no_chunk ∧
      queued (as_queue a') = queued (as_queue a) ++ map (λ c, (cs_chunk c, 1)) (batch_chunks cs base tb k)).
Proof.
  induction cs as [|c cs IH]; intros k a done_chunks n Hk Hc; simpl.
  { exists true, a. split; [done|]. split; [apply forward_refl|]. intros _. by rewrite app_nil_r. }
  destruct (negb (c_bytesize c <=? chunk_bytesize)); [exists false, a; split; [done|]; split; [apply forward_refl|done]|].
  fold (chunk_of base tb k c). set (a1 := set_as_inflight _ a).
  assert (forward a a1) as Hf1.
  { split; simpl; auto; [apply Forall2_advanced_refl|]. intros H. by apply stagings_of_insert. }
  destruct (allocate_spec a1) as (ok & a2 & -> & Hf2 & Hi2 & Hq2 & Hw2).
  destruct ok; simpl; [|exists false, a2; split; [done|]; split; [by eapply forward_trans|done]].
  set (a3 := mkAssembly _ _ _ _).
  assert (forward a2 a3) as Hf3.
  { split; simpl; auto; [apply Forall2_advanced_refl|]. intros H. apply Forall_app. split; [done|by constructor]. }
  destruct (IH (S k) a3 (done_chunks ++ [chunk_of base tb k c]) n) as (ok & a4 & -> & Hf4 & Hok).
  { rewrite length_app. simpl. lia. }
  { simpl. rewrite Hi2. simpl. rewrite Hc. rewrite insert_app_r_alt by lia. rewrite <- Hk, Nat.sub_diag. simpl. by rewrite <- app_assoc. }
  exists ok, a4. split; [done|]. split; [eapply forward_trans; [|exact Hf4]; eapply forward_trans; [|exact Hf3]; by eapply forward_trans|].
  intros H. destruct (Hok H) as (Ht4 & Hb4 & Hc4 & Hq4). simpl in *. rewrite Hi2 in *. split_and!; [done|done| |].
  - rewrite Hc4, <- app_assoc. done.
  - rewrite Hq4, Hq2. simpl. by rewrite <- app_assoc.
Qed.

Lemma register_batches_spec bs base : ∀ j k a done_chunks n, k = length done_chunks →
  oi_chunks (as_inflight a) = done_chunks ++ replicate (total_chunks bs + n) no_chunk →
  (∀ i b, bs !! i = Some b → ∃ b', batches a !! (j + i)%nat = Some b' ∧ advanced b b') →
  (∃ x, system_ok owner log0 x (before ++ batches a) (as_world a)) →
  ∃ ok a', add_batches chunk_bytesize bs base j k a = (ok, a') ∧ forward a a' ∧
    (ok = true → oi_tasks (as_inflight a') = oi_tasks (as_inflight a) ++ flat_tasks bs j ∧
      oi_chunks (as_inflight a') = done_chunks ++ flat_chunks bs base (length (oi_tasks (as_inflight a))) k ++ replicate n no_chunk ∧
      queued (as_queue a') = queued (as_queue a) ++
        map (λ c, (cs_chunk c, 1)) (flat_chunks bs base (length (oi_tasks (as_inflight a))) k) ∧
      ∀ i b, bs !! i = Some b → zeros_done (j + i) (length (tasks b)) a').
Proof.
  induction bs as [|b bs IH]; intros j k a done_chunks n Hk Hc Hb Hs; simpl.
  { exists true, a. split; [done|]. split; [apply forward_refl|]. intros _. by rewrite !app_nil_r. }
  destruct (Hb 0%nat b eq_refl) as (b0 & Hb0 & Had0). rewrite Nat.add_0_r in Hb0.
  destruct (add_tasks_spec b (tasks b) j 0 a) as (ok & a1 & -> & Hf1 & Hok1); [by rewrite drop_0|by exists b0|done|intros ? ?; lia|].
  destruct ok; simpl; [|by exists false, a1]. destruct (Hok1 eq_refl) as (Hq1 & Hc1 & Hz1 & Ht1).
  destruct (add_chunks_spec (chunks b) base (length (oi_tasks (as_inflight a))) k a1 done_chunks (total_chunks bs + n) Hk)
    as (ok & a2 & -> & Hf2 & Hok2).
  { rewrite Hc1, Hc. simpl. by rewrite Nat.add_assoc. }
  assert (forward a a2) as Hf12 by by eapply forward_trans.
  destruct ok; simpl; [|by exists false, a2]. destruct (Hok2 eq_refl) as (Ht2 & Hbs2 & Hc2 & Hq2).
  assert (length (oi_tasks (as_inflight a2)) = (length (oi_tasks (as_inflight a)) + length (tasks b))%nat) as Hlen.
  { by rewrite Ht2, Ht1, length_app, length_map, length_seq. }
  destruct (IH (S j) (k + length (chunks b))%nat a2 (done_chunks ++ batch_chunks (chunks b) base (length (oi_tasks (as_inflight a))) k) n)
    as (ok & a3 & -> & Hf3 & Hok3).
  { rewrite length_app, batch_chunks_length. lia. }
  { by rewrite Hc2, <- app_assoc. }
  { intros i b' Hi. destruct (Hb (S i) b' Hi) as (b1 & Hb1 & Had1). rewrite Nat.add_succ_r in Hb1.
    destruct (Forall2_lookup_l _ _ _ _ _ (fw_batches _ _ Hf12) Hb1) as (b2 & Hb2 & Had2). exists b2.
    split; [done|by eapply advanced_trans]. }
  { by eapply fw_system. }
  exists ok, a3. split; [done|]. split; [by eapply forward_trans|]. intros H. destruct (Hok3 H) as (Ht3 & Hc3 & Hq3 & Hz3).
  rewrite Hlen in Hc3, Hq3. split_and!.
  - rewrite Ht3, Ht2, Ht1. by rewrite <- app_assoc.
  - rewrite Hc3. by rewrite <- !app_assoc.
  - rewrite Hq3, Hq2, Hq1. by rewrite map_app, <- app_assoc.
  - intros [|i] b' Hi; simpl in Hi.
    + injection Hi as <-. rewrite Nat.add_0_r. eapply forward_zeros; [exact Hf3|]. eapply forward_zeros; [exact Hf2|]. exact Hz1.
    + rewrite Nat.add_succ_r. by apply Hz3.
Qed.

Lemma stagings_of_replicate n : stagings_of (replicate n no_chunk) = [].
Proof. by induction n. Qed.

(** What a workload looks like when it was taken on. *)
Record assembled (base : Z) (v : Workload) (wl : Inflight) : Prop := {
  sm_tasks : oi_tasks wl = flat_tasks (wl_batches v) 0;
  sm_chunks : oi_chunks wl = flat_chunks (wl_batches v) base 0 0;
  sm_batches : Forall2 advanced (wl_batches v) (wl_batches (oi_workload wl));
  sm_zeros : ∀ j b i t, wl_batches (oi_workload wl) !! j = Some b → tasks b !! i = Some t →
    t_bytesize t = 0 → t_finished t = true;
  sm_errors : oi_errors wl = ∅;
  sm_remaining : oi_remaining wl = Z.of_nat (total_chunks (wl_batches v)) }.

Lemma assemble_spec base v q x memory :
  (∃ y, system_ok owner log0 y (before ++ wl_batches v) x) →
  let a := mkAssembly (mkInflight v [] [] ∅ 0) q x memory in
  ∃ ok a', assemble chunk_bytesize base v a = (ok, a') ∧ forward a a' ∧
    (ok = true → assembled base v (as_inflight a') ∧
      queued (as_queue a') = queued q ++ map (λ c, (cs_chunk c, 1)) (flat_chunks (wl_batches v) base 0 0)).
Proof.
  intros Hs a. unfold assemble. destruct (allocate_spec a) as (ok & a1 & -> & Hf1 & Hi1 & Hq1 & Hw1).
  destruct ok; simpl; [|by exists false, a1]. set (a2 := set_as_inflight _ a1).
  assert (forward a a2) as Hf2.
  { split; simpl; rewrite ?Hi1, ?Hq1, ?Hw1; auto; [apply Forall2_advanced_refl|]. intros _. apply stagings_of_replicate. }
  destruct (register_batches_spec (wl_batches v) base 0 0 a2 [] 0 eq_refl) as (ok & a3 & -> & Hf3 & Hok).
  { simpl. by rewrite Nat.add_0_r. }
  { intros i b Hi. simpl. rewrite Hi1. exists b. split; [done|apply advanced_refl]. }
  { by apply (fw_system _ _ Hf2). }
  assert (forward a a3) as Hf by by eapply forward_trans.
  destruct ok; simpl; [|by exists false, a3]. destruct (Hok eq_refl) as (Ht3 & Hc3 & Hq3 & Hz3).
  simpl in Ht3, Hc3, Hq3. rewrite Hi1 in Ht3, Hc3, Hq3. simpl in Ht3, Hc3, Hq3. rewrite app_nil_r in Hc3.
  eexists true, _. split; [done|]. split; [by destruct Hf; split|]. intros _. split; [|simpl; by rewrite Hq3, Hq1].
  split; simpl; try done.
  - exact (fw_batches _ _ Hf).
  - intros j b' i t' Hb' Ht' H0. destruct (Forall2_lookup_r _ _ _ _ _ (fw_batches _ _ Hf) Hb') as (b & Hb & Had).
    simpl in Hb. eapply (Hz3 j b Hb); [exact Hb'|exact Ht'| |done]. rewrite <- (ad_length _ _ Had). by eapply lookup_lt_Some.
  - exact (fw_errors _ _ Hf).
Qed.
End Assemble.

(** ** The books of the new workload *)

Lemma flat_tasks_length bs : ∀ j, length (flat_tasks bs j) = sum_list_with (λ b, length (tasks b)) bs.
Proof. induction bs as [|b bs IH]; intros j; simpl; [done|]. by rewrite length_app, length_map, length_seq, IH. Qed.

Lemma assembled_layout base v wl : assembled base v wl → Forall batch_in_rows (wl_batches v) →
  0 <= base → base + Z.of_nat (total_chunks (wl_batches v)) < size_modulus → layout_ok base wl.
Proof.
  intros [Ht Hc Hb Hz He Hr] Hrows Hbase Hsize. destruct (flat_chunks_spec (wl_batches v) base 0 0 Hrows) as [Hsp _].
  simpl in Hsp. split; rewrite ?Ht, ?Hc.
  - intros k cs Hk. destruct (flat_chunks_handle _ _ _ _ _ _ Hk) as [Hh _].
    destruct (spaced_lookup _ _ _ _ _ Hsp Hk) as (_ & H1 & H2). rewrite flat_tasks_length. split_and!; [|done|done].
    pose proof (lookup_lt_Some _ _ _ Hk) as Hlt. rewrite flat_chunks_length in Hlt.
    rewrite Hh. simpl. rewrite add64_small; [done|]. unfold is_size. lia.
  - intros k1 k2 cs1 cs2 n. by eapply spaced_apart.
  - intros n ts (i & b & Ets & Hi & Hlt & _)%flat_tasks_lookup. rewrite Ets. simpl.
    destruct (Forall2_lookup_l _ _ _ _ _ Hb Hi) as (b' & Hb' & Had).
    destruct (lookup_lt_is_Some_2 (tasks b') (ts_task ts)) as [t Htt]; [by rewrite (ad_length _ _ Had)|].
    exists b', t. split_and!; [done|done|]. by eapply Hz.
  - intros j b' i t Hb' Hti. destruct (Forall2_lookup_r _ _ _ _ _ Hb Hb') as (b & Hbj & Had).
    exists (sum_list_with (λ b, length (tasks b)) (list.take j (wl_batches v)) + i)%nat, (mkTaskState j i Success).
    split; [|done]. apply flat_tasks_lookup. exists j, b. simpl. split_and!; [done|done| |done].
    rewrite <- (ad_length _ _ Had). by eapply lookup_lt_Some.
Qed.

Lemma assembled_ok base v wl o : assembled base v wl → Forall batch_in_rows (wl_batches v) →
  0 <= base → base + Z.of_nat (total_chunks (wl_batches v)) < size_modulus →
  (∀ k, (k < total_chunks (wl_batches v))%nat → base + Z.of_nat k ∈ o) →
  length (filter (in_block base wl) o) = total_chunks (wl_batches v) → workload_ok o base wl.
Proof.
  intros Hm Hrows Hbase Hsize Hin Hcount. pose proof (assembled_layout _ _ _ Hm Hrows Hbase Hsize) as Hlay.
  destruct Hm as [Ht Hc Hb Hz He Hr]. destruct (flat_chunks_spec (wl_batches v) base 0 0 Hrows) as [_ Hcov]. split.
  - done.
  - intros n ts Hn. destruct (lo_index _ _ Hlay _ _ Hn) as (b' & t' & Hb' & Ht' & Hfin).
    destruct (Z.eqb_spec (t_bytesize t') 0) as [H0|H0]; [left; exists b', t'; auto|right].
    rewrite Ht in Hn. apply flat_tasks_lookup in Hn as (i & b & Ets & Hi & Hlt & ->). rewrite Ets in Hb'. simpl in Hb'.
    destruct (Forall2_lookup_l _ _ _ _ _ Hb Hi) as (b2 & Hb2 & Had). assert (b2 = b') as -> by congruence.
    destruct (lookup_lt_is_Some_2 (tasks b) (ts_task ts) Hlt) as [t Htt].
    destruct (ad_tasks _ _ Had _ _ Htt) as (t2 & Ht2 & Hinfo & _). assert (t2 = t') as -> by congruence.
    destruct (Hcov _ _ _ _ Hi Htt) as (k & c & Hk & Hs); [unfold t_bytesize in *; congruence|].
    exists k, c. rewrite Hc. split_and!; [done|done|]. apply Hin. apply lookup_lt_Some in Hk. by rewrite flat_chunks_length in Hk.
  - intros k cs n ts _ _ _ Hn. rewrite Ht in Hn. by apply flat_tasks_lookup in Hn as (i & b & -> & _).
  - rewrite He. intros f c. by rewrite lookup_empty.
  - by rewrite Hr, Hcount.
Qed.

(** ** Taking it on *)

Section Enqueue.
Context {R B C : Type} `{!Responder R, !ObjectReader B, !CopyPath C, !ReaderLaws B, !CopyLaws C}.
Context (owner : nat → Z) (log0 : list Response) (bs : list Batch) (chunk_bytesize max_responses : Z).

Local Abbreviation worker := (worker (R := R) (B := B) (C := C)).
Local Abbreviation enqueue := (enqueue chunk_bytesize max_responses).
Implicit Types (w : worker).

Lemma answer_tasks_spec n : ∀ i b a before after (x : world (R := R)),
  system_ok owner log0 a (before ++ b :: after) x → (i + n <= length (tasks b))%nat →
  ∃ b' x' a', answer_tasks n i b x = Ret (b', x') ∧ system_ok owner log0 a' (before ++ b' :: after) x' ∧ advanced b b' ∧
    ∀ j t, (i <= j < i + n)%nat → tasks b' !! j = Some t → t_finished t = true.
Proof.
  induction n as [|n IH]; intros i b a before after x Hs Hn; simpl.
  { exists b, x, a. split_and!; [done|done|apply advanced_refl|]. lia. }
  destruct (lookup_lt_is_Some_2 (tasks b) i) as [t Ht]; [lia|].
  destruct (handle_response_total owner log0 _ _ _ _ _ _ _ Hs Ht) as (x1 & a1 & -> & Hs1). cbn [obind].
  set (b1 := set_tasks b _ _) in *.
  destruct (IH (S i) b1 a1 before after x1 Hs1) as (b2 & x2 & a2 & -> & Hs2 & Had & Hdone); [simpl; rewrite length_insert; lia|].
  exists b2, x2, a2. split_and!; [done|done|by eapply advanced_trans; [apply advanced_one|]|].
  intros j t' Hj Ht'. destruct (decide (j = i)) as [->|Hne]; [|apply (Hdone j); [lia|done]].
  destruct (ad_tasks _ _ Had i (set_finished t)) as (t2 & Ht2 & _ & Hf).
  { simpl. by rewrite list_lookup_insert_eq by (by eapply lookup_lt_Some). }
  assert (t2 = t') as -> by congruence. by apply Hf.
Qed.

Lemma answer_batches_spec l : ∀ a before after (x : world (R := R)),
  system_ok owner log0 a (before ++ l ++ after) x →
  ∃ l' x' a', answer_batches l x = Ret (l', x') ∧ system_ok owner log0 a' (before ++ l' ++ after) x' ∧ Forall all_done l'.
Proof.
  induction l as [|b l IH]; intros a before after x Hs; simpl; [by exists [], x, a|].
  destruct (answer_tasks_spec (length (tasks b)) 0 b a before (l ++ after) x Hs) as (b' & x1 & a1 & -> & Hs1 & Had & Hdone); [lia|].
  cbn [obind]. destruct (IH a1 (before ++ [b']) after x1) as (l' & x2 & a2 & -> & Hs2 & Hd); [by rewrite <- app_assoc|].
  cbn [obind]. exists (b' :: l'), x2, a2. rewrite <- app_assoc in Hs2. split_and!; [done|done|]. constructor; [|done].
  apply Forall_lookup. intros j t Hj. apply (Hdone j); [|done]. apply lookup_lt_Some in Hj. rewrite <- (ad_length _ _ Had). lia.
Qed.

(** A workload without chunks is answered at once. *)
Lemma enqueue_empty memory v live stale w : books owner log0 (wl_batches v ++ bs) [] [] live stale w →
  total_chunks (wl_batches v) = 0%nat →
  ∃ w', enqueue memory v w = Ret w' ∧ books owner log0 bs [] [] live stale w' ∧ ow_next w' = ow_next w ∧
    ow_queue w' = ow_queue w.
Proof.
  intros Hb H0. unfold ObjectStorageWorker.enqueue. rewrite H0. simpl.
  pose proof Hb as [H1 H2 H3 H4 H5 H6 H7 [[a Ha] H9]].
  destruct (answer_batches_spec (wl_batches v) a [] (bs ++ ow_retired w ++ mine (ow_inflight w)) (ow_world w))
    as (l & x & a1 & -> & Hs1 & Hd1); [by rewrite <- app_assoc in Ha|]. cbn [obind].
  destruct (report_batches_spec owner log0 Success ∅ l a1 [] (bs ++ ow_retired w ++ mine (ow_inflight w)) x Hs1)
    as (l' & x' & a2 & -> & Hd2 & Hs2).
  { intros f c. by rewrite lookup_empty. }
  { right. eapply Forall_impl; [exact Hd1|]. by right. }
  cbn [obind]. eexists. split; [done|]. split; [|done]. split; try done. split; simpl.
  - exists a2. eapply system_ok_perm; [|exact Hs2]. simpl. solve_Permutation.
  - by apply Forall_app.
Qed.

Lemma located_app l wl base b i h : located h l b i → assoc base l = None → located h (l ++ [(base, wl)]) b i.
Proof.
  intros (x & Hx & He & Hi) Hn. exists x. split; [|done]. pose proof (assoc_split _ _ _ Hx) as (l1 & l2 & -> & H1).
  rewrite <- app_assoc, assoc_app_None by done. simpl. by rewrite Z.eqb_refl.
Qed.

Lemma assoc_app_last l base (wl x : Inflight) b : assoc b (l ++ [(base, wl)]) = Some x →
  assoc b l = Some x ∨ (b = base ∧ x = wl).
Proof.
  induction l as [|[k y] l IH]; simpl.
  - destruct (Z.eqb_spec b base) as [->|]; [intros [= ->]; by right|done].
  - destruct (b =? k); [by left|done].
Qed.

(** The ledger with a block of handles more. *)
Lemma ledger_grow o l next v wl : ledger o l next → assembled next v wl → Forall batch_in_rows (wl_batches v) →
  total_chunks (wl_batches v) ≠ 0%nat → next + Z.of_nat (total_chunks (wl_batches v)) < size_modulus →
  ledger (seqZ next (Z.of_nat (total_chunks (wl_batches v))) ++ o) (l ++ [(next, wl)])
    (next + Z.of_nat (total_chunks (wl_batches v))).
Proof.
  intros [H1 H2 H3 H4 H5] Hm Hrows Hn Hsize. pose proof (blocks_le _ _ _ H1) as Hle.
  set (n := total_chunks (wl_batches v)) in *.
  assert (length (oi_chunks wl) = n) as Hlen by (rewrite (sm_chunks _ _ _ Hm); apply flat_chunks_length).
  assert (oi_chunks wl ≠ []) as Hne by (intros He; by rewrite He in Hlen).
  pose proof (blocks_insert 1 l next wl (next + Z.of_nat n) H1 Hne ltac:(by rewrite Hlen)) as Hblocks.
  destruct (insert_block_last _ _ _ wl H1) as [_ Hnone].
  assert (∀ h, h ∈ o → h < next) as Hold.
  { intros h (b & i & Hl)%H4. pose proof (located_range _ _ _ _ _ _ H1 Hl). lia. }
  assert (∀ h, h ∈ seqZ next (Z.of_nat n) → next <= h < next + Z.of_nat n) as Hnew by (intros h Hh%elem_of_seqZ; lia).
  split; [done|done| | |].
  - apply NoDup_app. split_and!; [apply NoDup_seqZ| |done]. intros h Hh%Hnew Hh2%Hold. lia.
  - intros h [Hh%Hnew|(b & i & Hl)%H4]%elem_of_app; [|exists b, i; by apply located_app].
    exists next, (Z.to_nat (h - next)), wl. rewrite assoc_app_None by done. simpl. rewrite Z.eqb_refl. split_and!; [done|lia|lia].
  - intros b x [Hx|[-> ->]]%assoc_app_last.
    + destruct (H5 _ _ Hx) as [Hok Hpos]. split; [|done]. eapply workload_ok_ext; [|exact Hok].
      rewrite filter_app, (filter_none _ (seqZ next (Z.of_nat n))); [done|]. intros h Hh%Hnew Hbl. destruct (blocks_assoc _ _ _ _ _ H1 Hx) as (_ & Hhi & _).
      unfold in_block in Hbl. lia.
    + split; [|rewrite (sm_remaining _ _ _ Hm); lia]. eapply assembled_ok; [done|done|lia|done| |].
      * intros k Hk. apply elem_of_app. left. apply elem_of_seqZ. lia.
      * rewrite filter_app, (filter_all _ (seqZ next (Z.of_nat n))), (filter_none _ o).
        -- by rewrite app_nil_r, length_seqZ, Nat2Z.id.
        -- intros h Hh%Hold Hbl. unfold in_block in Hbl. lia.
        -- intros h Hh%Hnew. unfold in_block. lia.
Qed.

Lemma flat_chunks_handles v base : 0 <= base → base + Z.of_nat (total_chunks (wl_batches v)) < size_modulus →
  map (λ c, oc_handle (cs_chunk c)) (flat_chunks (wl_batches v) base 0 0) = seqZ base (Z.of_nat (total_chunks (wl_batches v))).
Proof.
  intros Hb Hs. apply list_eq. intros i. change (map ?f ?l) with (f <$> l). rewrite list_lookup_fmap.
  destruct (flat_chunks (wl_batches v) base 0 0 !! i) as [c|] eqn:E; simpl.
  - destruct (flat_chunks_handle _ _ _ _ _ _ E) as [-> _]. apply lookup_lt_Some in E. rewrite flat_chunks_length in E.
    symmetry. apply lookup_seqZ. simpl. rewrite add64_small; [lia|]. unfold is_size. lia.
  - apply lookup_ge_None in E. rewrite flat_chunks_length in E. symmetry. apply lookup_seqZ_ge. lia.
Qed.

(** The first allocation, of the map's node, is made before the workload is anywhere: when it fails the
    workload is dropped. *)
Definition lost (memory : option nat) (v : Workload) : bool :=
  match memory with Some O => negb (total_chunks (wl_batches v) =? 0)%nat | _ => false end.

Lemma assembled_books live stale w v a : books owner log0 (wl_batches v ++ bs) [] [] live stale w →
  Forall batch_in_rows (wl_batches v) → total_chunks (wl_batches v) ≠ 0%nat →
  ow_next w + Z.of_nat (total_chunks (wl_batches v)) < size_modulus →
  assembled (ow_next w) v (as_inflight a) →
  forward owner log0 (bs ++ ow_retired w ++ mine (ow_inflight w)) (mkAssembly (mkInflight v [] [] ∅ 0) (ow_queue w) (ow_world w) None) a →
  queued (as_queue a) = queued (ow_queue w) ++ map (λ c, (cs_chunk c, 1)) (flat_chunks (wl_batches v) (ow_next w) 0 0) →
  books owner log0 bs [] [] live stale
    (with_inflight (ow_inflight w ++ [(ow_next w, as_inflight a)])
      (with_world (as_world a) (with_queue (as_queue a) (with_next (ow_next w + Z.of_nat (total_chunks (wl_batches v))) w)))).
Proof.
  intros [H1 H2 H3 H4 H5 H6 [B1 B2 B3] [[y Hy] H9]] Hrows Hn Hsize Hm Hf Hq.
  pose proof (blocks_le _ _ _ (lg_blocks _ _ _ H1)) as Hle.
  pose proof (ledger_grow _ _ _ _ _ H1 Hm Hrows Hn Hsize) as Hledger.
  assert (stagings_of (oi_chunks (as_inflight a)) = []) as Hnone by by apply (fw_unstaged _ _ _ _ _ Hf).
  assert (stagings (ow_inflight w ++ [(ow_next w, as_inflight a)]) = stagings (ow_inflight w)) as Hst.
  { rewrite stagings_app, stagings_cons. simpl. by rewrite Hnone, !app_nil_r. }
  split; simpl.
  - eapply ledger_perm; [|exact Hledger]. unfold open_handles, queued_handles. simpl. rewrite Hq, map_app, map_map. simpl.
    rewrite flat_chunks_handles by lia. solve_Permutation.
  - done.
  - intros h Hh. destruct (H3 _ Hh) as [Hr Hl]. split; [lia|].
    pose proof (lg_next _ _ _ H1) as Hnext.
    destruct (locate h (ow_inflight w ++ [(ow_next w, as_inflight a)])) as [[b i]|] eqn:E; [exfalso|done].
    apply (locate_Some 1 _ (ow_next w + Z.of_nat (total_chunks (wl_batches v)))) in E;
      [|lia|done|unfold is_size; lia|apply (lg_blocks _ _ _ Hledger)].
    destruct E as (x & Hx & He & Hi). apply assoc_app_last in Hx as [Hx|[-> ->]]; [|lia].
    assert (locate h (ow_inflight w) = Some (b, i)) as E; [|congruence].
    apply (locate_Some 1 _ (ow_next w)); [lia|done|unfold is_size; lia|apply (lg_blocks _ _ _ H1)|]. by exists x.
  - by apply (fw_costs _ _ _ _ _ Hf).
  - rewrite (proj1 (fw_queue _ _ _ _ _ Hf)). done.
  - done.
  - split; [|by rewrite Hst|by rewrite Hst]. intros base wl k cs [Hx|[-> ->]]%assoc_app_last Hk Hv; [by eapply B1|].
    exfalso. destruct (stagings_of_split _ _ _ Hk) as (r & Hr & _). rewrite Hnone in Hr. unfold chunk_staging in Hr.
    rewrite Hv in Hr. by apply Permutation_nil_l in Hr.
  - split; simpl; [|done]. destruct (fw_system _ _ _ _ _ Hf) as [z Hz].
    { exists y. eapply system_ok_perm; [|exact Hy]. simpl. solve_Permutation. }
    exists z. eapply system_ok_perm; [|exact Hz]. rewrite mine_of_app. unfold mine at 3. simpl. solve_Permutation.
Qed.

(** Whatever was filled in when it threw, everything can be given up. *)
Lemma assembly_abortable live stale w v a next : books owner log0 (wl_batches v ++ bs) [] [] live stale w →
  forward owner log0 (bs ++ ow_retired w ++ mine (ow_inflight w)) (mkAssembly (mkInflight v [] [] ∅ 0) (ow_queue w) (ow_world w) None) a →
  ow_next w <= next < size_modulus →
  abortable owner log0 bs
    (with_inflight (ow_inflight w ++ [(ow_next w, as_inflight a)])
      (with_world (as_world a) (with_queue (as_queue a) (with_next next w)))).
Proof.
  intros Hb Hf Hn. destruct (books_abortable _ _ _ _ _ _ _ Hb) as [[[y Hy] A0] A1 A2 A3 A4 A5 A6 A7 A8].
  assert (stagings_of (oi_chunks (as_inflight a)) = []) as Hnone by by apply (fw_unstaged _ _ _ _ _ Hf).
  assert (stagings (ow_inflight w ++ [(ow_next w, as_inflight a)]) = stagings (ow_inflight w)) as Hst.
  { rewrite stagings_app, stagings_cons. simpl. by rewrite Hnone, !app_nil_r. }
  split; simpl; rewrite ?Hst; try done.
  - split; simpl; [|done]. destruct (fw_system _ _ _ _ _ Hf) as [z Hz].
    { exists y. eapply system_ok_perm; [|exact Hy]. simpl. solve_Permutation. }
    exists z. eapply system_ok_perm; [|exact Hz]. rewrite mine_of_app. unfold mine at 3. simpl. solve_Permutation.
  - apply Forall_app. split; [done|]. constructor; [|done]. simpl. rewrite (fw_errors _ _ _ _ _ Hf). simpl.
    intros f c. by rewrite lookup_empty.
  - lia.
  - intros h Hh%A7. lia.
  - by rewrite (proj1 (fw_queue _ _ _ _ _ Hf)).
Qed.

Lemma enqueue_spec memory v w : settled_books owner log0 (wl_batches v ++ bs) w → Forall batch_in_rows (wl_batches v) →
  ow_next w + Z.of_nat (total_chunks (wl_batches v)) < size_modulus →
  ∃ w', enqueue memory v w = Ret w' ∧ settled_books owner log0 (if lost memory v then wl_batches v ++ bs else bs) w' ∧
    ow_next w' = ow_next w + Z.of_nat (total_chunks (wl_batches v)) ∧ capacity (ow_queue w') = capacity (ow_queue w).
Proof.
  intros (live & stale & Hb) Hrows Hsize. destruct (decide (total_chunks (wl_batches v) = 0%nat)) as [H0|H0].
  { destruct (enqueue_empty memory v live stale w Hb H0) as (w' & -> & Hb' & Hn & Hq). exists w'.
    unfold lost. rewrite H0, Hn, Hq. split_and!; [done| |simpl; lia|done]. exists live, stale. by destruct memory as [[|]|]. }
  pose proof (bk_ledger _ _ _ _ _ _ _ _ Hb) as Hl. pose proof (blocks_le _ _ _ (lg_blocks _ _ _ Hl)) as Hle.
  unfold ObjectStorageWorker.enqueue. rewrite (proj2 (Nat.eqb_neq _ _) H0).
  rewrite add64_small by (unfold is_size; lia). set (next := ow_next w + Z.of_nat (total_chunks (wl_batches v))) in *.
  destruct (insert_block_last _ _ _ (as_inflight (mkAssembly (R := R) (mkInflight v [] [] ∅ 0) (ow_queue w) (ow_world w) None))
    (lg_blocks _ _ _ Hl)) as [_ Hnone].
  destruct (decide (memory = Some 0%nat)) as [->|Hmem].
  - assert (abortable owner log0 (wl_batches v ++ bs) (with_next next w)) as Hab.
    { destruct (books_abortable _ _ _ _ _ _ _ Hb) as [[A A0] A1 A2 A3 A4 A5 A6 A7 A8]. split; simpl; try done; [lia|].
      intros h Hh%A7. lia. }
    destruct (abort_all_spec max_responses owner log0 _ UnknownError true _ Hab) as (w' & -> & Hb' & _ & Hn & Hc); [done|].
    exists w'. unfold lost. rewrite (proj2 (Nat.eqb_neq _ _) H0). split_and!; [done|by eexists [], _|done|done].
  - replace (lost memory v) with false by (unfold lost; by destruct memory as [[|]|]).
    match goal with |- ∃ _, match memory with None => ?m | Some _ => _ end = _ ∧ _ =>
      replace (match memory with Some O => _ | _ => m end) with m by (by destruct memory as [[|]|]) end.
    change (ow_inflight (with_next next w)) with (ow_inflight w). rewrite Hnone, bool_decide_false by by intros [? ?].
    destruct (assemble_spec chunk_bytesize owner log0 (bs ++ ow_retired w ++ mine (ow_inflight w)) (ow_next w) v (ow_queue w)
      (ow_world w) (pred <$> memory)) as (ok & a & Ha & Hf & Hok).
    { destruct (bk_answers _ _ _ _ _ _ _ _ Hb) as [[y Hy] _]. exists y. eapply system_ok_perm; [|exact Hy]. solve_Permutation. }
    change (ow_queue (with_next next w)) with (ow_queue w). change (ow_world (with_next next w)) with (ow_world w).
    rewrite Ha. destruct (insert_block_last _ _ _ (as_inflight a) (lg_blocks _ _ _ Hl)) as [Hins _].
    change (ow_inflight (with_world (as_world a) (with_queue (as_queue a) (with_next next w)))) with (ow_inflight w).
    rewrite Hins.
    assert (forward owner log0 (bs ++ ow_retired w ++ mine (ow_inflight w))
      (mkAssembly (mkInflight v [] [] ∅ 0) (ow_queue w) (ow_world w) None) a) as Hf' by (destruct Hf; by split).
    destruct ok.
    + destruct (Hok eq_refl) as [Hm Hq]. eexists. split; [done|]. split; [|split; [done|]].
      * exists live, stale. by apply assembled_books.
      * apply (fw_queue _ _ _ _ _ Hf).
    + destruct (abort_all_spec max_responses owner log0 bs UnknownError true _
        (assembly_abortable live stale w v a next Hb Hf' ltac:(lia))) as (w' & -> & Hb' & _ & Hn & Hc); [done|].
      exists w'. split_and!; [done|by eexists [], _|done|]. rewrite Hc. apply (fw_queue _ _ _ _ _ Hf).
Qed.
End Enqueue.
