(* ===== verification/ObjectStorageScenario.v ===== *)
(** An object storage worker waiting for its reads: when it may say that the backend is done with its memory,
    and a run in which it says so too early.

    The instances of [ObjectReader] and [CopyPath] here are concrete: a plugin that answers by a script, and a
    device whose copies never finish on their own. *)

From S2P Require Import Prelude ResponseCode Text SharedQueue Task ChunkSplitter Batch Workload.
From S2P Require Import CapacityQueue InflightChunks StagingPool Reporting ObjectStorageRetry ObjectStorageIo ObjectStorageWorker.
From S2P Require Import ObjectStorageBooks ObjectStorageChunks ObjectStorageTurn ObjectStorageEnqueue.

(** ** Waiting for the reads *)

Section Quiesce.
Context {R B C : Type} `{!Responder R, !ObjectReader B, !CopyPath C, !ReaderLaws B, !CopyLaws C}.
Context (max_responses : Z) (owner : nat → Z) (log0 : list Response) (others : list Batch).

Local Abbreviation worker := (worker (R := R) (B := B) (C := C)).
Implicit Types (w : worker).

Lemma before_marker_count (ended markers : list Event) :
  Forall (λ x, x.2 ≠ FinishedError) ended → Forall (λ x, x.2 = FinishedError) markers →
  (before_marker (ended ++ markers)).1 = length ended.
Proof.
  intros He Hm. induction He as [|[h ret] ended Hne He IH]; simpl in *.
  - destruct Hm as [|[h ret] markers Hr Hm]; simpl in *; [done|]. by rewrite decide_True.
  - rewrite decide_False by done. rewrite <- IH. by destruct (before_marker _).
Qed.

Lemma complete_many_credit n : ∀ m (q : CapacityQueue ObjectChunk), inflight q = Z.of_nat (n + m) →
  Z.of_nat (n + m) < size_modulus → inflight (complete_many n q) = Z.of_nat m.
Proof.
  induction n as [|n IH]; intros m q Hq Hs; simpl; [done|]. apply IH; [|lia]. by apply complete_credit.
Qed.

Lemma quiesce_loop_drains n : ∀ w w', inflight (ow_queue w) = Z.of_nat (length (reading (ow_reader w))) →
  inflight (ow_queue w) < size_modulus → quiesce_reads_loop max_responses n w = Ret (true, w') → reading (ow_reader w') = [].
Proof.
  assert (∀ w, inflight (ow_queue w) = Z.of_nat (length (reading (ow_reader w))) → (inflight (ow_queue w) >? 0) = false →
    reading (ow_reader w) = []) as Hzero.
  { intros w Hc. rewrite Z.gtb_ltb, Z.ltb_ge, Hc. destruct (reading (ow_reader w)); simpl; [done|lia]. }
  induction n as [|n IH]; intros w w' Hc Hsize; simpl; (destruct (inflight (ow_queue w) >? 0) eqn:Hpos;
    [|intros [= <-]; auto]); [done|].
  destruct (async_response max_responses (ow_reader w)) as [[ret events] reader] eqn:E. apply async_response_law in E.
  destruct (decide (ret = Success)) as [->|Hne]; [|by rewrite bool_decide_false].
  rewrite bool_decide_true by done. cbn [negb]. destruct E as (ended & markers & -> & He & Hm & Hp).
  pose proof (before_marker_count ended markers He Hm) as Hcount.
  destruct (before_marker (ended ++ markers)) as [completed marker]. simpl in Hcount. subst completed.
  destruct (_ && _); [done|]. apply IH; simpl.
  - apply complete_many_credit.
    + by rewrite Hc, Hp, length_app, length_map.
    + rewrite Hc, Hp, length_app, length_map in Hsize. done.
  - rewrite (complete_many_credit _ (length (reading reader))).
    + rewrite Hc, Hp, length_app, length_map in Hsize. lia.
    + by rewrite Hc, Hp, length_app, length_map.
    + rewrite Hc, Hp, length_app, length_map in Hsize. done.
Qed.

Lemma quiesce_reads_drains live w w' : books owner log0 others [] [] live [] w →
  ow_waiting w = [] → ow_waiting_retries w = [] → quiesce_reads max_responses w = Ret (true, w') → reading (ow_reader w') = [].
Proof.
  intros Hb H1 H2. apply quiesce_loop_drains.
  - pose proof (bk_reading _ _ _ _ _ _ _ _ Hb) as Hr. simpl in Hr. rewrite app_nil_r in Hr.
    rewrite Hr, (bk_credit _ _ _ _ _ _ _ _ Hb), H1, H2. done.
  - pose proof (books_credit _ _ _ _ _ _ _ _ Hb). lia.
Qed.
End Quiesce.

(** ** A plugin that answers by a script *)

(** One answer: a failure of the call, or how some of the oldest reads ended (false asks for another attempt)
    and whether a FinishedError event follows.  A reader out of script reports all its reads. *)
Inductive Answered := Failure (code : ResponseCode) | Round (results : list bool) (marker : bool).

Record ScriptedReader := mkReader { sr_reading : list Z; sr_script : list Answered; sr_clock : Z }.

Definition event_of (h : Z) (good : bool) : Event := (h, if good then Success else RetryableFileAccessError).

Definition scripted_response (r : ScriptedReader) : ResponseCode * list Event * ScriptedReader :=
  match sr_script r with
  | [] =>
      match sr_reading r with
      | [] => (FinishedError, [], r)
      | _ => (Success, map (λ h, event_of h true) (sr_reading r), mkReader [] [] (sr_clock r))
      end
  | Failure code :: rest =>
      if decide (code = Success) then (UnknownError, [], r) else (code, [], mkReader (sr_reading r) rest (sr_clock r))
  | Round results marker :: rest =>
      let n := length results in
      (Success, zip_with event_of (sr_reading r) results ++ (if marker then [(0, FinishedError)] else []),
       mkReader (drop n (sr_reading r)) rest (sr_clock r))
  end.

#[export] Instance scripted_reader : ObjectReader ScriptedReader := {
  async_read _ h _ _ _ r := (None, mkReader (sr_reading r ++ [h]) (sr_script r) (sr_clock r));
  async_response _ r := scripted_response r;
  clock_now r := (sr_clock r, mkReader (sr_reading r) (sr_script r) (sr_clock r + 1));
  sleep_until t r := mkReader (sr_reading r) (sr_script r) (Z.max t (sr_clock r));
  draw_delay _ n := 10 * n;
  reading := sr_reading }.

Lemma zip_with_events l results : map fst (zip_with event_of l results) = list.take (length results) l ∧
  Forall (λ x, x.2 ≠ FinishedError) (zip_with event_of l results).
Proof.
  revert results. induction l as [|h l IH]; intros [|[] results]; simpl; try (split; [done|constructor]);
    destruct (IH results) as [-> ?]; (split; [done|by constructor]).
Qed.

#[export] Instance scripted_reader_laws : ReaderLaws ScriptedReader.
Proof.
  split; try done.
  - intros location h offset bytes buffer r e r' [= <- <-]. simpl. solve_Permutation.
  - intros most r code events r'. simpl. unfold scripted_response. destruct (sr_script r) as [|[code'|results marker] rest].
    + destruct (sr_reading r) as [|h l] eqn:Hr; intros [= <- <- <-]; [by rewrite decide_False|]. rewrite decide_True by done.
      exists (map (λ h, event_of h true) (h :: l)), []. rewrite app_nil_r. split_and!; [done| |constructor|].
      * by apply Forall_map, Forall_true.
      * rewrite map_map. change (h :: l ≡ₚ map (λ x, x) (h :: l) ++ []). by rewrite map_id, app_nil_r.
    + destruct (decide (code' = Success)); intros [= <- <- <-]; by rewrite decide_False.
    + intros [= <- <- <-]. rewrite decide_True by done. destruct (zip_with_events (sr_reading r) results) as [Hz Hf].
      eexists _, _. split; [done|]. split; [done|]. split; [destruct marker; by repeat constructor|].
      simpl. by rewrite Hz, take_drop.
Qed.

(** ** A device path with buffers of its own *)

(** The buffers that are free, those that are out, and the copies handed over. *)
Record ScriptedPath := mkPath { pt_free : list StagingBuffer; pt_held : list StagingBuffer; pt_copies : list Z }.

#[export] Instance scripted_path : CopyPath ScriptedPath := {
  open_device _ c := (Success, c);
  bind_device _ c := (Success, c);
  build_pool _ _ c := c;
  acquire_buffer c :=
    match pt_free c with
    | [] => (Success, no_staging, c)
    | b :: free => (Success, b, mkPath free (if staging_valid b then b :: pt_held c else pt_held c) (pt_copies c))
    end;
  release_buffer b c := mkPath (pt_free c ++ [b]) (remove_one b (pt_held c)) (pt_copies c);
  retire_buffer b _ c := mkPath (pt_free c) (remove_one b (pt_held c)) (pt_copies c);
  issue _ b _ _ h c := mkPath (pt_free c ++ [b]) (remove_one b (pt_held c)) (pt_copies c ++ [h]);
  pop_copy _ c :=
    match pt_copies c with
    | [] => (None, c)
    | h :: copies => (Some (h, Success), mkPath (pt_free c) (pt_held c) copies)
    end;
  in_copy := pt_copies;
  held := pt_held }.

#[export] Instance scripted_path_laws : CopyLaws ScriptedPath.
Proof.
  split; simpl; try done.
  - by intros d c code c' [= _ <-].
  - by intros d c code c' [= _ <-].
  - intros [[|b free] out copies] code b' c'; simpl; [by intros [= <- <- <-]|]. intros [= <- <- <-]. simpl. split; [done|].
    destruct (staging_valid b) eqn:Hv; [by rewrite decide_True|]. rewrite decide_False; [done|]. by intros [_ ?].
  - intros b c l Hl. split; [done|by apply remove_one_cons].
  - intros b code c l Hl. split; [done|by apply remove_one_cons].
  - intros d b bytes destination h c l Hl. split; [solve_Permutation|by apply remove_one_cons].
  - intros wait [free out [|h copies]] x c'; simpl; intros [= <- <-]; simpl; done.
Qed.

(** ** Late completions *)

(** Two workloads for a device, of one file each with two chunks; the plugin reports nothing at first. *)
Definition device_chunks (sid base : Z) (r : nat) : Batch :=
  mkBatch sid 0 0 true [make_task r (make_info 0 512 0); make_task (S r) (make_info 512 512 0)]
    [mkChunk 0 512 base 0 1; mkChunk 512 512 (base + 512) 1 1] (mkRange 0 1024 1024) 0.

Definition device_requests : store :=
  {[0%nat := make_request 0 0 0 1 512 4096; 1%nat := make_request 512 0 1 1 512 4608;
    2%nat := make_request 0 0 0 1 512 8192; 3%nat := make_request 512 0 1 1 512 8704]}.

Definition first_load : Workload := mkWorkload [device_chunks 7 4096 0] true (cuda 0) 0.
Definition second_load : Workload := mkWorkload [device_chunks 8 8192 2] true (cuda 0) 0.

Definition four_buffers : list StagingBuffer :=
  map (λ i, mkStaging (16384 + 4096 * i) 4096 i 0) [0; 1; 2; 3].

Local Abbreviation example_worker := (worker (R := queue) (B := ScriptedReader) (C := ScriptedPath)).

Definition object_worker (script : list Answered) : example_worker :=
  mkWorker false (new_retry 0) [] [] 0 [] 1 (make_capacity_queue 4) (mkReader [] script 0) (mkPath four_buffers [] [])
    (mkWorld device_requests (make_queue 4 PERSISTENT)) [].

Definition anywhere (_ _ : Z) : text := txt "s3://b/f".

(** Take [v] on and submit its chunks. *)
Definition take_on (v : Workload) (w : example_worker) : outcome example_worker :=
  let! w := enqueue 512 1 None v w in pump 512 4 true anywhere w.

Definition turn (w : example_worker) : outcome example_worker := drain_batch 512 4 1 true anywhere false w.

(** The plugin fails, so the first load is given up with its two reads at the backend; the second load is
    submitted. *)
Definition after_second_load : outcome example_worker :=
  let! w := take_on first_load (object_worker [Failure UnknownError; Failure UnknownError; Failure UnknownError; Round [true; true] false]) in
  let! w := turn w in
  take_on second_load w.

(** The wait for the reads can end early.  Two reads are at the backend when the worker gives a load up (the
    plugin fails, and fails again when asked to drain): they are left behind, and the worker goes on, as the
    comments say it may.  A second load is submitted, reads 3 and 4, each into a staging buffer.  The plugin
    fails again, and now reports the two reads left behind: [quiesce_reads] counts them against the credit of
    reads 3 and 4, answers that all is drained, and abort_all puts their two buffers back into the pool,
    while both reads are still at the backend, writing there. *)
Theorem late_completions_end_the_wait :
  ∃ w w', after_second_load = Ret w ∧ turn w = Ret w' ∧
    reading (ow_reader w) = [1; 2; 3; 4] ∧
    held (ow_path w) = [mkStaging 28672 4096 3 0; mkStaging 24576 4096 2 0] ∧ pt_free (ow_path w) = [] ∧
    reading (ow_reader w') = [3; 4] ∧
    held (ow_path w') = [] ∧ pt_free (ow_path w') = [mkStaging 24576 4096 2 0; mkStaging 28672 4096 3 0].
Proof.
  destruct after_second_load as [w|] eqn:E; [|vm_compute in E; discriminate].
  destruct (turn w) as [w'|] eqn:E'; [|vm_compute in E; injection E as <-; vm_compute in E'; discriminate].
  exists w, w'. split; [done|]. split; [done|]. vm_compute in E. injection E as <-. vm_compute in E'. injection E' as <-.
  vm_compute. by split_and!.
Qed.
