(* ===== verification/ObjectStorageLife.v ===== *)
(** The life of an object storage worker, as the pool drives it: workloads come in, chunks are submitted, turns
    are taken, and the pool may stop at any point, while other workers answer batches of their own.

    [life] interleaves those at the granularity of a turn, as [AsyncIoLife] does for the file system's
    worker; an allocation may fail anywhere in enqueue. *)

From S2P Require Import Prelude ResponseCode Text SharedQueue Task ChunkSplitter Batch Workload.
From S2P Require Import CapacityQueue InflightChunks Reporting ObjectStorageRetry ObjectStorageIo ObjectStorageWorker.
From S2P Require Import ObjectStorageBooks ObjectStorageChunks ObjectStorageTurn ObjectStorageEnqueue ObjectStorageScenario.

Section Life.
Context {R B C : Type} `{!Responder R, !ObjectReader B, !CopyPath C, !ReaderLaws B, !CopyLaws C}.
Context (chunk_bytesize window_chunks max_responses : Z) (has_copy_path : bool) (location_of : Z → Z → text).
Context (owner : nat → Z) (log0 : list Response).

Local Abbreviation worker := (worker (R := R) (B := B) (C := C)).
Local Abbreviation enqueue := (enqueue chunk_bytesize max_responses).
Local Abbreviation pump := (pump chunk_bytesize window_chunks has_copy_path location_of).
Local Abbreviation drain_batch := (drain_batch chunk_bytesize window_chunks max_responses has_copy_path location_of).
Implicit Types (w : worker).

(** The pool's stop flag, the batches that are not this worker's, and the worker. *)
Record state := mkState { stopping : bool; elsewhere : list Batch; the_worker : worker }.

(** A worker whose window just came up. *)
Record new_worker w : Prop := {
  nw_tables : ow_inflight w = [] ∧ ow_next w = 1 ∧ ow_retired w = [];
  nw_queue : ∃ window, ow_queue w = make_capacity_queue window;
  nw_idle : ow_waiting w = [] ∧ ow_waiting_retries w = [] ∧ rt_delayed (ow_retry w) = [] ∧ ow_copies w = 0;
  nw_reader : reading (ow_reader w) = [];
  nw_path : in_copy (ow_path w) = [] ∧ held (ow_path w) = [] }.

Definition start (s : state) : Prop :=
  new_worker (the_worker s) ∧
  ∃ answered, system_ok owner log0 answered (elsewhere s) (ow_world (the_worker s)).

(** The handles left for workload [v]. *)
Definition room_for (v : Workload) w : Prop :=
  ow_next w + Z.of_nat (total_chunks (wl_batches v)) < size_modulus.

Inductive step : state → state → Prop :=
| step_enqueue memory v bs w w' :
    Forall batch_in_rows (wl_batches v) → room_for v w → enqueue memory v w = Ret w' →
    step (mkState false (wl_batches v ++ bs) w) (mkState false (if lost memory v then wl_batches v ++ bs else bs) w')
| step_pump stop bs w w' : pump w = Ret w' → step (mkState stop bs w) (mkState stop bs w')
| step_drain stop bs w w' :
    worker_idle w = false → drain_batch stop w = Ret w' → step (mkState stop bs w) (mkState stop bs w')
| step_stop stop bs w : step (mkState stop bs w) (mkState true bs w)
| step_elsewhere stop bs bs' w x :
    (∃ answered, system_ok owner log0 answered (bs' ++ ow_retired w ++ mine (ow_inflight w)) x) →
    step (mkState stop bs w) (mkState stop bs' (with_world x w)).

Inductive life : state → Prop :=
| life_start s : start s → life s
| life_step s s' : life s → step s s' → life s'.

Lemma start_settled s : start s → settled_books owner log0 (elsewhere s) (the_worker s).
Proof.
  intros [[(E1 & E2 & E3) [n E4] (E5 & E6 & E7 & E8) E9 [E10 E11]] [a Ha]]. exists [], [].
  split; unfold open_handles, queued_handles, delayed_handles; rewrite ?E1, ?E2, ?E4, ?E5, ?E6, ?E7, ?E8, ?E9, ?E10, ?E11;
    try done; simpl.
  - split; simpl; [lia|reflexivity|constructor|by intros h ?%elem_of_nil|done].
  - by intros h ?%elem_of_nil.
  - split; [exists a|]; rewrite E3; [|done]. by rewrite E1, app_nil_r.
Qed.

Lemma step_settled s s' : settled_books owner log0 (elsewhere s) (the_worker s) → step s s' →
  settled_books owner log0 (elsewhere s') (the_worker s').
Proof.
  intros Hs Hst. destruct Hst as [memory v bs w w' Hrows Hroom E1|stop bs w w' E1|stop bs w w' Hidle E1|stop bs w|stop bs bs' w x Hx];
    simpl in *.
  - destruct (enqueue_spec owner log0 bs chunk_bytesize max_responses memory v w Hs Hrows Hroom) as (w2 & E2 & Hs2 & _).
    rewrite E1 in E2. by injection E2 as ->.
  - destruct (pump_spec _ _ _ chunk_bytesize window_chunks has_copy_path location_of w Hs) as (w2 & E2 & Hs2 & _).
    rewrite E1 in E2. by injection E2 as ->.
  - destruct (drain_batch_spec max_responses _ _ _ chunk_bytesize window_chunks has_copy_path location_of stop w Hs)
      as (w2 & E2 & Hs2 & _). rewrite E1 in E2. by injection E2 as ->.
  - done.
  - destruct Hs as (live & stale & [H1 H2 H3 H4 H5 H6 H7 [_ H9]]). exists live, stale. by split.
Qed.

Lemma life_settled s : life s → settled_books owner log0 (elsewhere s) (the_worker s).
Proof. induction 1; [by apply start_settled|by eapply step_settled]. Qed.

(** An idle worker has no chunk open, so no workload. *)
Lemma idle_books bs w : settled_books owner log0 bs w → worker_idle w = true →
  ow_inflight w = [] ∧ held (ow_path w) = [] ∧ in_copy (ow_path w) = [].
Proof.
  intros (live & stale & Hb) Hidle. unfold worker_idle, CapacityQueue.idle, CapacityQueue.empty, has_deferred_work, has_pending in Hidle.
  rewrite !andb_true_iff, !negb_true_iff, !orb_false_iff, !negb_false_iff, !bool_decide_eq_true, Z.eqb_eq, Z.gtb_ltb, Z.ltb_ge in Hidle.
  destruct Hidle as [[Hq Hc] [[[Hd Hcopies] Hw] Hr]].
  pose proof (bk_credit _ _ _ _ _ _ _ _ Hb) as Hcredit. pose proof (bk_copies _ _ _ _ _ _ _ _ Hb) as Hcount.
  rewrite Hw, Hr, Hc in Hcredit. simpl in Hcredit.
  assert (live = []) as -> by (destruct live; [done|simpl in Hcredit; lia]).
  assert (in_copy (ow_path w) = []) as Hcopy by (destruct (in_copy (ow_path w)); [done|simpl in Hcount; lia]).
  pose proof (bk_ledger _ _ _ _ _ _ _ _ Hb) as Hl. unfold open_handles, queued_handles, delayed_handles in Hl.
  rewrite Hq, Hd, Hw, Hr, Hcopy in Hl. simpl in Hl.
  assert (ow_inflight w = []) as Hin.
  { destruct (ow_inflight w) as [|[base wl] l] eqn:E; [done|]. destruct (lg_workloads _ _ _ Hl base wl) as [Hok Hpos].
    { simpl. by rewrite Z.eqb_refl. }
    pose proof (wk_count _ _ _ Hok) as Hz. simpl in Hz. lia. }
  split; [done|]. split; [|done]. apply Permutation_nil_r. rewrite (bf_held _ _ _ _ (bk_buffers _ _ _ _ _ _ _ _ Hb)). by rewrite Hin.
Qed.

(** C10: no handler of the object storage worker ever throws: whatever the plugin, the device path, the clock and
    the other workers do within their promises, and wherever an allocation fails in enqueue, in every state
    the pool can bring it to, taking on a workload, submitting, taking a turn, and the destructor all return - none of its
    ASSERTs on handles, tasks and counts fires, and the waits for the reads and for the copies that are out end, also
    on a client that reports nothing more: a wait longer than the credit or the copies out would throw. *)
Theorem object_worker_never_throws s : life s →
  let w := the_worker s in
  (∀ memory v bs, elsewhere s = wl_batches v ++ bs → Forall batch_in_rows (wl_batches v) → room_for v w →
     ∃ w', enqueue memory v w = Ret w') ∧
  (∃ w', pump w = Ret w') ∧ (∃ w', drain_batch (stopping s) w = Ret w') ∧
  (∃ w', tear_down max_responses w = Ret w' ∧ in_copy (ow_path w') = []).
Proof.
  intros Hs%life_settled w. split; [|split; [|split]].
  - intros memory v bs He Hrows Hroom. rewrite He in Hs.
    destruct (enqueue_spec owner log0 bs chunk_bytesize max_responses memory v w Hs Hrows Hroom) as (w2 & -> & _). by exists w2.
  - destruct (pump_spec _ _ _ chunk_bytesize window_chunks has_copy_path location_of w Hs) as (w2 & -> & _). by exists w2.
  - destruct (drain_batch_spec max_responses _ _ _ chunk_bytesize window_chunks has_copy_path location_of (stopping s) w Hs)
      as (w2 & -> & _). by exists w2.
  - destruct Hs as (live & stale & Hb). eapply tear_down_spec, books_abortable, Hb.
Qed.

(** C9: an idle object storage worker owes nothing: whenever it reports idle it holds no workload, no staging
    buffer and no copy, every batch it took on has all its tasks finished, and if the batches elsewhere are
    finished too, the responder holds exactly one response for every request, with its final result. *)
Theorem object_worker_idle_owes_nothing s : life s → worker_idle (the_worker s) = true →
  ow_inflight (the_worker s) = [] ∧ held (ow_path (the_worker s)) = [] ∧ in_copy (ow_path (the_worker s)) = [] ∧
  Forall all_done (ow_retired (the_worker s)) ∧
  (Forall all_done (elsewhere s) → let x := ow_world (the_worker s) in
   ∃ answered l, responder_log (responder x) = log0 ++ l ∧ Forall2 (logged (requests x) owner) answered l ∧
     NoDup answered ∧ ∀ k, k ∈ answered ↔ is_Some (requests x !! k)).
Proof.
  intros Hs%life_settled Hidle. destruct (idle_books _ _ Hs Hidle) as (Hin & Hheld & Hcopy).
  destruct Hs as (live & stale & Hb). destruct (bk_answers _ _ _ _ _ _ _ _ Hb) as [[a Ha] Hd].
  split_and!; try done. intros He x. rewrite Hin in Ha. exists a. apply (system_answered owner log0 a _ _ Ha).
  apply Forall_app. split; [done|]. by apply Forall_app.
Qed.

(** C11: stopping ends everything in one turn: the turn a stopping pool takes returns, its waits within the credit and
    the copies that are out (past them they would throw), and leaves the object storage worker idle, with no workload,
    no buffer and no copy, and every batch it ever took on finished. *)
Theorem object_worker_stop_ends_everything s : life s →
  ∃ w', drain_batch true (the_worker s) = Ret w' ∧ worker_idle w' = true ∧ ow_inflight w' = [] ∧
    Forall all_done (ow_retired w') ∧ held (ow_path w') = [] ∧ in_copy (ow_path w') = [].
Proof.
  intros Hs%life_settled.
  destruct (drain_batch_spec max_responses _ _ _ chunk_bytesize window_chunks has_copy_path location_of true _ Hs)
    as (w' & -> & (live & stale & Hb) & _ & He). destruct (He eq_refl) as [H1 H2 H3 H4].
  exists w'. split_and!; try done. apply (bk_answers _ _ _ _ _ _ _ _ Hb).
Qed.

(** When the wait for the reads says they are done, they are: in any state the pool can bring the worker
    to, if no read at the backend was left behind by a load given up (each still has its chunk) and no chunk is
    parked, a [quiesce_reads] that answers true leaves the backend with no read of this worker, so that no
    memory it was given is written any more. *)
Theorem drained_means_done s w' : life s → let w := the_worker s in
  Forall (λ h, locate h (ow_inflight w) ≠ None) (reading (ow_reader w)) →
  ow_waiting w = [] → ow_waiting_retries w = [] → quiesce_reads max_responses w = Ret (true, w') → reading (ow_reader w') = [].
Proof.
  intros Hs%life_settled w Hall. destruct Hs as (live & stale & Hb).
  assert (stale = []) as ->; [|by eapply quiesce_reads_drains].
  destruct stale as [|h stale]; [done|]. rewrite Forall_forall in Hall.
  destruct (bk_stale _ _ _ _ _ _ _ _ Hb h ltac:(by left)) as [_ Hn]. destruct (Hall h); [|done].
  pose proof (bk_reading _ _ _ _ _ _ _ _ Hb) as Hr. simpl in Hr. fold w in Hr. rewrite Hr. apply elem_of_app. right. by left.
Qed.
End Life.

(** ** Witnesses: two chunks of one file, read to host memory; the first read fails once and is tried again *)

Local Abbreviation host_state := (state (R := queue) (B := ScriptedReader) (C := ScriptedPath)).
Local Abbreviation host_life := (life 512 4 1 true anywhere (λ _, 7) []).

Definition host_load : Workload := mkWorkload [two_chunks] true host 0.

Definition host_worker : worker (R := queue) (B := ScriptedReader) (C := ScriptedPath) :=
  mkWorker false (new_retry 1000) [] [] 0 [] 1 (make_capacity_queue 4) (mkReader [] [Round [false; true] true] 0)
    (mkPath [] [] []) (mkWorld two_requests (make_queue 2 PERSISTENT)) [].

Definition result (o : outcome (worker (R := queue) (B := ScriptedReader) (C := ScriptedPath))) :=
  match o with Ret w => w | Throw _ => host_worker end.

Definition accepted := result (enqueue 512 1 None host_load host_worker).
Definition submitted := result (pump 512 4 true anywhere accepted).
Definition one_failed := result (drain_batch 512 4 1 true anywhere false submitted).
Definition after_nap := result (drain_batch 512 4 1 true anywhere false one_failed).
Definition tried_again := result (pump 512 4 true anywhere after_nap).
Definition all_read := result (drain_batch 512 4 1 true anywhere false tried_again).

Lemma two_chunks_in_rows : batch_in_rows two_chunks.
Proof.
  exists 2. split; [by repeat split|]. split; [done|]. intros j task Hj Hn. apply lookup_lt_Some in Hj. simpl in Hj. lia.
Qed.

Lemma first_host_life : host_life (mkState false [two_chunks] host_worker).
Proof.
  apply life_start. split.
  - split; [done|by eexists|done|done|done].
  - eexists. apply (fresh_ok _ _ _ two_chunks_fresh).
Qed.

Lemma submitted_host_life : host_life (mkState false [] submitted).
Proof.
  eapply life_step; [eapply life_step; [apply first_host_life|]|].
  - apply (step_enqueue _ _ _ _ _ _ _ None host_load [] _ accepted);
      [apply Forall_singleton, two_chunks_in_rows|reflexivity|vm_compute; reflexivity].
  - apply step_pump. vm_compute. reflexivity.
Qed.

Lemma all_read_life : host_life (mkState false [] all_read).
Proof.
  eapply life_step; [eapply life_step; [eapply life_step; [eapply life_step; [apply submitted_host_life|]|]|]|].
  - apply (step_drain _ _ _ _ _ _ _ _ _ _ one_failed); vm_compute; reflexivity.
  - apply (step_drain _ _ _ _ _ _ _ _ _ _ after_nap); vm_compute; reflexivity.
  - apply (step_pump _ _ _ _ _ _ _ _ _ _ tried_again). vm_compute. reflexivity.
  - apply (step_drain _ _ _ _ _ _ _ _ _ _ all_read); vm_compute; reflexivity.
Qed.

Lemma object_worker_never_throws_witness :
  (∃ w', enqueue 512 1 (Some 3%nat) host_load host_worker = Ret w') ∧
  ∃ w', drain_batch 512 4 1 true anywhere false submitted = Ret w'.
Proof.
  split.
  - apply (proj1 (object_worker_never_throws 512 4 1 true anywhere (λ _, 7) [] _ first_host_life) (Some 3%nat) host_load []);
      [reflexivity| |reflexivity]. apply Forall_singleton, two_chunks_in_rows.
  - cut (∀ w, host_life (mkState false [] w) → ∃ w', drain_batch 512 4 1 true anywhere false w = Ret w').
    { intros H. apply (H submitted submitted_host_life). }
    intros w Hw. apply (object_worker_never_throws 512 4 1 true anywhere (λ _, 7) [] _ Hw).
Defined.

Lemma object_worker_idle_owes_nothing_witness :
  rt_delayed (ow_retry one_failed) ≠ [] ∧ ow_inflight all_read = [] ∧
  responder_log (responder (ow_world all_read)) = [mkResponse 7 0 1 Success; mkResponse 7 0 0 Success] ∧
  ∃ answered, NoDup answered ∧ ∀ k, k ∈ answered ↔ is_Some (requests (ow_world all_read) !! k).
Proof.
  split; [vm_compute; discriminate|].
  cut (∀ w, host_life (mkState false [] w) → worker_idle w = true → ow_inflight w = [] ∧
    ∃ answered, NoDup answered ∧ ∀ k, k ∈ answered ↔ is_Some (requests (ow_world w) !! k)).
  { intros H. destruct (H all_read all_read_life) as [H1 H2]; [vm_compute; reflexivity|].
    split; [exact H1|]. split; [vm_compute; reflexivity|exact H2]. }
  intros w Hw Hi. destruct (object_worker_idle_owes_nothing 512 4 1 true anywhere (λ _, 7) [] _ Hw Hi) as (H1 & _ & _ & _ & H2).
  split; [exact H1|]. destruct (H2 (Forall_nil_2 _)) as (answered & l & _ & _ & Hn & Ha). exists answered. exact (conj Hn Ha).
Defined.

(** The pool stops with both reads at the backend. *)
Lemma object_worker_stop_ends_everything_witness :
  ∃ w', drain_batch 512 4 1 true anywhere true submitted = Ret w' ∧ worker_idle w' = true ∧
    responder_log (responder (ow_world w')) = [mkResponse 7 0 0 FinishedError; mkResponse 7 0 1 FinishedError].
Proof.
  cut (∀ w, host_life (mkState false [] w) → ∃ w', drain_batch 512 4 1 true anywhere true w = Ret w' ∧ worker_idle w' = true).
  { intros H. destruct (H submitted submitted_host_life) as (w' & E & Hi).
    exists w'. split; [exact E|]. split; [exact Hi|]. revert E. vm_compute. by intros [= <-]. }
  intros w Hw. destruct (object_worker_stop_ends_everything 512 4 1 true anywhere (λ _, 7) [] _ Hw) as (w' & E & Hi & _).
  exists w'. exact (conj E Hi).
Defined.

Lemma drained_means_done_witness :
  reading (ow_reader submitted) = [1; 2] ∧ ∃ w', quiesce_reads 1 submitted = Ret (true, w') ∧ reading (ow_reader w') = [].
Proof.
  split; [vm_compute; reflexivity|].
  cut (∀ w w', host_life (mkState false [] w) → Forall (λ h, locate h (ow_inflight w) ≠ None) (reading (ow_reader w)) →
    ow_waiting w = [] → ow_waiting_retries w = [] → quiesce_reads 1 w = Ret (true, w') → reading (ow_reader w') = []).
  { intros H. eexists. split; [vm_compute; reflexivity|]. apply (H submitted _ submitted_host_life).
    - repeat constructor; vm_compute; discriminate.
    - vm_compute. reflexivity.
    - vm_compute. reflexivity.
    - vm_compute. reflexivity. }
  intros w w' Hw. apply (drained_means_done 512 4 1 true anywhere (λ _, 7) [] _ w' Hw).
Defined.
