(* ===== verification/DeviceIssuer.v ===== *)
(** The device issuer (streamer/impl/device_io/device_issuer): one lane per device, whose thread issues the copies of
    the synchronous readers.

    A lane is a draining worker and the copies its stream has not finished; what opening a device, writing a copy
    and the stream answer are arguments of the steps.  The events record when a buffer went back to its pool and
    when the completion was called. *)

From S2P Require Import Prelude ResponseCode Workload InflightChunks DeviceWriter ThreadPool DrainingWorker.

(** DeviceIssuer::Request; [rq_pool] and [rq_on_done] name the pool and the completion. *)
Record Request := mkRequest {
  rq_pool : Z; rq_buffer : StagingBuffer; rq_bytesize : Z; rq_destination : Z; rq_on_done : Z }.

#[export] Instance Request_inhabited : Inhabited Request := populate (mkRequest 0 no_staging 0 0 0).

Inductive Event := Released (r : Request) | Retired (r : Request) | Reported (r : Request) (code : ResponseCode).

(** How DeviceWriterClient::write ends: the copy is on the stream, or it is not and the buffer is back, or nothing
    says that it is not and the buffer is retired. *)
Inductive Written := Enqueued | Refused (code : ResponseCode) | Undrained.

(** release or retire, then the completion: device_issuer.cc calls them in this order. *)
Definition finished_copy (r : Request) (code : ResponseCode) : list Event := [Released r; Reported r code].
Definition lost_copy (r : Request) : list Event := [Retired r; Reported r DeviceDriverError].

(** [ln_stream] are the copies issued and not finished, oldest first; the history: the finished ones, those that
    could not be issued, and the events. *)
Record Lane := mkLane {
  ln_device : Device; ln_worker : DrainingWorker Request; ln_stream : list Request;
  ln_landed : list Request; ln_refused : list Request; ln_events : list Event }.

(** [di_unreachable] are the events of submissions to devices that could not be opened. *)
Record DeviceIssuer := mkIssuer { di_lanes : list Lane; di_unreachable : list Event }.

Definition no_lanes : DeviceIssuer := mkIssuer [] [].

Definition new_lane (device : Device) : Lane := mkLane device new_draining [] [] [] [].

(** lane_for: the position of the lane, found or new; [opened] is what client->open answers. *)
Definition lane_for (device : Device) (opened : ResponseCode) (s : DeviceIssuer) : ResponseCode * option nat * DeviceIssuer :=
  match list_find (λ l, device_eqb (ln_device l) device = true) (di_lanes s) with
  | Some (i, _) => (Success, Some i, s)
  | None =>
      if bool_decide (opened = Success) then (Success, Some (length (di_lanes s)), mkIssuer (di_lanes s ++ [new_lane device]) (di_unreachable s))
      else (opened, None, s)
  end.

Definition with_worker (w : DrainingWorker Request) (l : Lane) : Lane :=
  mkLane (ln_device l) w (ln_stream l) (ln_landed l) (ln_refused l) (ln_events l).

Definition set_lane (i : nat) (l : Lane) (s : DeviceIssuer) : DeviceIssuer := mkIssuer (<[i := l]> (di_lanes s)) (di_unreachable s).

Definition submit (device : Device) (opened : ResponseCode) (r : Request) (s : DeviceIssuer) : outcome DeviceIssuer :=
  let '(code, lane, s) := lane_for device opened s in
  match lane with
  | None => Ret (mkIssuer (di_lanes s) (di_unreachable s ++ finished_copy r code))
  | Some i =>
      match di_lanes s !! i with
      | None => Throw StdException
      | Some l => let! w := draining_push r (ln_worker l) in Ret (set_lane i (with_worker w l) s)
      end
  end.

(** The handler on the lane's thread. *)
Definition issue (r : Request) (written : Written) (l : Lane) : Lane :=
  let w := handler_returns r (ln_worker l) in
  match written with
  | Enqueued => mkLane (ln_device l) w (ln_stream l ++ [r]) (ln_landed l) (ln_refused l) (ln_events l)
  | Refused code => mkLane (ln_device l) w (ln_stream l) (ln_landed l) (ln_refused l ++ [r]) (ln_events l ++ finished_copy r code)
  | Undrained => mkLane (ln_device l) w (ln_stream l) (ln_landed l) (ln_refused l ++ [r]) (ln_events l ++ lost_copy r)
  end.

(** The stream waiter, at the oldest copy of the stream: [waited] is how its bind and its wait ended. *)
Definition land (waited : ResponseCode) (l : Lane) : Lane :=
  match ln_stream l with
  | [] => l
  | r :: stream =>
      mkLane (ln_device l) (ln_worker l) stream (ln_landed l ++ [r]) (ln_refused l)
        (ln_events l ++ if bool_decide (waited = Success) then finished_copy r Success else lost_copy r)
  end.

Definition issuer_running (s : DeviceIssuer) : bool := existsb (λ l, running (ln_worker l)) (di_lanes s).
Definition issued (s : DeviceIssuer) : Z := foldl (λ total l, add32 total (Z.of_nat (handled (ln_worker l)))) 0 (di_lanes s).
Definition devices (s : DeviceIssuer) : Z := wrap32 (Z.of_nat (length (di_lanes s))).

(** A draining worker's own steps: all but a push and the end of its handler. *)
Definition own_step (w w' : DrainingWorker Request) : Prop :=
  draining_step w w' ∧ dw_pushed w' = dw_pushed w ∧ dw_done w' = dw_done w.

Inductive issuer_step : DeviceIssuer → DeviceIssuer → Prop :=
| is_submit device opened r s s' : submit device opened r s = Ret s' → issuer_step s s'
| is_worker i l w s : di_lanes s !! i = Some l → own_step (ln_worker l) w → issuer_step s (set_lane i (with_worker w l) s)
| is_issue i l r written s : di_lanes s !! i = Some l → dw_place (ln_worker l) = Handling r → issuer_step s (set_lane i (issue r written l) s)
| is_land i l code s : di_lanes s !! i = Some l → issuer_step s (set_lane i (land code l) s).

(** ** Lemmas *)

Definition reports (events : list Event) : list Request := omap (λ e, match e with Reported r _ => Some r | _ => None end) events.
Definition settled (events : list Event) : list Request := omap (λ e, match e with Reported _ _ => None | Released r | Retired r => Some r end) events.

(** Wherever a completion stands in the history, what stands right before it is that its buffer went back to the pool, or,
    for a copy that failed and may still land, that the buffer was retired. *)
Definition settled_first (events : list Event) : Prop := ∀ before r code after, events = before ++ Reported r code :: after →
  ∃ earlier, before = earlier ++ [Released r] ∨ (before = earlier ++ [Retired r] ∧ code ≠ Success).

Record lane_ok (l : Lane) : Prop := {
  lk_worker : draining_ok (ln_worker l);
  lk_issued : dw_done (ln_worker l) ≡ₚ ln_landed l ++ ln_stream l ++ ln_refused l;
  lk_order : ln_landed l ++ ln_stream l `sublist_of` dw_done (ln_worker l);
  lk_reports : reports (ln_events l) ≡ₚ ln_landed l ++ ln_refused l;
  lk_releases : settled (ln_events l) = reports (ln_events l);
  lk_first : settled_first (ln_events l) }.

Record issuer_ok (s : DeviceIssuer) : Prop := {
  ik_lanes : Forall lane_ok (di_lanes s);
  ik_devices : ∀ i j l l', di_lanes s !! i = Some l → di_lanes s !! j = Some l' → device_eqb (ln_device l) (ln_device l') = true → i = j;
  ik_unreachable : settled (di_unreachable s) = reports (di_unreachable s) ∧ settled_first (di_unreachable s) }.

(** What one copy adds. *)
Definition adds (r : Request) (more : list Event) : Prop := (∃ code, more = finished_copy r code) ∨ more = lost_copy r.

Lemma adds_reports r more events : adds r more → reports (events ++ more) = reports events ++ [r].
Proof. intros [[code ->]| ->]; unfold reports; by rewrite omap_app. Qed.

Lemma adds_settled r more events : adds r more → settled (events ++ more) = settled events ++ [r].
Proof. intros [[code ->]| ->]; unfold settled; by rewrite omap_app. Qed.

Lemma settled_first_nil : settled_first [].
Proof. by intros [|??] r code after. Qed.

Lemma settled_first_pair events e r code : settled_first events →
  e = Released r ∨ (e = Retired r ∧ code ≠ Success) → settled_first (events ++ [e; Reported r code]).
Proof.
  intros H He before r' code' after E. rewrite (app_assoc events [e] [Reported r code] : events ++ [e; _] = _) in E.
  destruct after as [|x after _] using rev_ind.
  - apply app_inj_tail in E as [<- [= -> ->]]. exists events. by destruct He as [->|[-> ?]]; [left|right].
  - rewrite app_comm_cons, app_assoc in E. apply app_inj_tail in E as [E _].
    destruct after as [|y after _] using rev_ind.
    + apply app_inj_tail in E as [_ E]. by destruct He as [->|[-> _]].
    + rewrite app_comm_cons, app_assoc in E. apply app_inj_tail in E as [-> _]. by eapply H.
Qed.

Lemma adds_first r more events : adds r more → settled_first events → settled_first (events ++ more).
Proof. intros [[code ->]| ->] H; apply settled_first_pair; auto. Qed.

Lemma adds_finished r code : adds r (finished_copy r code).
Proof. left. by exists code. Qed.

Lemma adds_lost r : adds r (lost_copy r).
Proof. by right. Qed.

#[local] Hint Resolve adds_finished adds_lost : core.

Lemma new_lane_ok device : lane_ok (new_lane device).
Proof. split; try done; [apply new_draining_ok|apply settled_first_nil]. Qed.

Lemma with_worker_ok w l : lane_ok l → draining_ok w → dw_done w = dw_done (ln_worker l) → lane_ok (with_worker w l).
Proof. intros [H1 H2 H3 H4 H5 H6] Hw E. by split; cbn; rewrite ?E. Qed.

(** A copy that never reached the stream, and one that left it. *)
Lemma refused_copy_ok r more l : lane_ok l → dw_place (ln_worker l) = Handling r → adds r more →
  lane_ok (mkLane (ln_device l) (handler_returns r (ln_worker l)) (ln_stream l) (ln_landed l) (ln_refused l ++ [r]) (ln_events l ++ more)).
Proof.
  intros [H1 H2 H3 H4 H5 H6] Hpl Ha. pose proof (return_ok r _ H1 Hpl) as Hw. split; cbn; try done.
  - by rewrite H2, <- !app_assoc.
  - by apply sublist_inserts_r.
  - by rewrite (adds_reports r), H4, <- app_assoc.
  - by rewrite (adds_settled r), (adds_reports r), H5.
  - by eapply adds_first.
Qed.

Lemma issue_ok r written l : lane_ok l → dw_place (ln_worker l) = Handling r → lane_ok (issue r written l).
Proof.
  intros Hl Hpl. destruct written as [|code|]; [|by apply refused_copy_ok; auto..].
  pose proof Hl as [H1 H2 H3 H4 H5 H6]. pose proof (return_ok r _ H1 Hpl) as Hw. split; cbn; try done.
  - rewrite H2, <- !app_assoc. do 2 apply Permutation_app_head. apply Permutation_app_comm.
  - rewrite app_assoc. by apply sublist_app.
Qed.

Lemma stream_land_ok waited l : lane_ok l → lane_ok (land waited l).
Proof.
  intros Hl. unfold land. destruct (ln_stream l) as [|r stream] eqn:Es; [done|].
  set (more := if bool_decide (waited = Success) then finished_copy r Success else lost_copy r).
  assert (Ha : adds r more) by (unfold more; case_bool_decide; auto).
  destruct Hl as [H1 H2 H3 H4 H5 H6]. rewrite Es in *. split; cbn; try done.
  - by rewrite <- app_assoc.
  - by rewrite <- app_assoc.
  - rewrite (adds_reports r), H4, <- !app_assoc by done. apply Permutation_app_head, Permutation_app_comm.
  - by rewrite (adds_settled r), (adds_reports r), H5.
  - by eapply adds_first.
Qed.

Lemma set_lane_ok i l l' s : issuer_ok s → di_lanes s !! i = Some l → ln_device l' = ln_device l → lane_ok l' → issuer_ok (set_lane i l' s).
Proof.
  intros [H1 H2 H3] Hi Hd Hl. split; cbn; [by apply Forall_insert| |done].
  assert (Hback : ∀ j x, <[i := l']> (di_lanes s) !! j = Some x → ∃ y, di_lanes s !! j = Some y ∧ ln_device y = ln_device x).
  { intros j x Hj. apply list_lookup_insert_Some in Hj as [(<- & <- & _)|[_ Hj]]; [by exists l|by exists x]. }
  intros j k x y Hj Hk He. apply Hback in Hj as (x' & Hj & Ex), Hk as (y' & Hk & Ey).
  apply (H2 j k x' y' Hj Hk). by rewrite Ex, Ey.
Qed.

Lemma lane_for_ok device opened s : issuer_ok s → ∃ code lane s', lane_for device opened s = (code, lane, s') ∧ issuer_ok s' ∧
  match lane with
  | Some i => ∃ l, di_lanes s' !! i = Some l ∧ device_eqb (ln_device l) device = true
  | None => s' = s ∧ code = opened ∧ opened ≠ Success
  end.
Proof.
  intros Hs. unfold lane_for. destruct (list_find _ _) as [[i l]|] eqn:Ef.
  - apply list_find_Some in Ef as (Hi & Hd & _). do 3 eexists. split; [done|]. split; [done|]. by exists l.
  - apply list_find_None in Ef. case_bool_decide as E; [|by exists opened, None, s].
    do 3 eexists. split; [done|]. destruct Hs as [H1 H2 H3]. split.
    + split; cbn; [apply Forall_app; split; [done|apply Forall_singleton, new_lane_ok]| |done].
      intros i j l l' Hi Hj He. rewrite Forall_forall in Ef.
      apply lookup_app_Some in Hi as [Hi|[Hi0 Hi]], Hj as [Hj|[Hj0 Hj]].
      * by eapply H2.
      * apply list_lookup_singleton_Some in Hj as [_ <-]. apply list_elem_of_lookup_2 in Hi. by destruct (Ef l Hi).
      * apply list_lookup_singleton_Some in Hi as [_ <-]. apply list_elem_of_lookup_2 in Hj. destruct (Ef l' Hj).
        by rewrite device_eqb_sym.
      * apply list_lookup_singleton_Some in Hi as [? _], Hj as [? _]. lia.
    + exists (new_lane device). cbn. split; [by apply list_lookup_middle|]. apply device_eqb_refl.
Qed.

Lemma issuer_submit_ok device opened r s s' : issuer_ok s → submit device opened r s = Ret s' → issuer_ok s'.
Proof.
  intros Hs E. unfold submit in E. destruct (lane_for_ok device opened s Hs) as (code & lane & s1 & El & Hs1 & Hlane). rewrite El in E.
  destruct lane as [i|].
  - destruct Hlane as (l & Hi & _). rewrite Hi in E. invert_ret E. injection E as <-.
    pose proof (Forall_lookup_1 _ _ _ _ (ik_lanes _ Hs1) Hi) as Hl.
    apply (set_lane_ok i l); [done|done|done|]. apply with_worker_ok; [done|by eapply push_keeps_ok, Hr; apply lk_worker|].
    unfold draining_push in Hr. invert_ret Hr. by injection Hr as <-.
  - destruct Hlane as (-> & -> & _). injection E as <-. destruct Hs as [H1 H2 [H3 H4]]. split; [done|done|]. cbn.
    rewrite (adds_settled r), (adds_reports r), H3 by auto. split; [done|]. eapply adds_first; [apply adds_finished|done].
Qed.

Lemma issuer_step_ok s s' : issuer_ok s → issuer_step s s' → issuer_ok s'.
Proof.
  intros Hs Hst. destruct Hst as [device opened r s s' E|i l w s Hi (Hw & _ & Hd)|i l r written s Hi Hpl|i l code s Hi].
  - by eapply issuer_submit_ok.
  - pose proof (Forall_lookup_1 _ _ _ _ (ik_lanes _ Hs) Hi) as Hl. apply (set_lane_ok i l); [done|done|done|].
    apply with_worker_ok; [done| |done]. by eapply draining_step_ok, Hw; apply lk_worker.
  - pose proof (Forall_lookup_1 _ _ _ _ (ik_lanes _ Hs) Hi) as Hl. apply (set_lane_ok i l); [done|done| |by apply issue_ok].
    by destruct written.
  - pose proof (Forall_lookup_1 _ _ _ _ (ik_lanes _ Hs) Hi) as Hl. apply (set_lane_ok i l); [done|done| |by apply stream_land_ok].
    unfold land. by destruct (ln_stream l).
Qed.

Lemma issuer_reachable_ok s : rtc issuer_step no_lanes s → issuer_ok s.
Proof.
  assert (H0 : issuer_ok no_lanes) by (split; [constructor|done|split; [done|apply settled_first_nil]]).
  revert H0. generalize no_lanes. intros s0 H0 Hr. induction Hr as [|s0 s1 s Hst _ IH]; [done|]. by apply IH, (issuer_step_ok s0).
Qed.

(** A submission with a device that opens always finds its lane. *)
Lemma submit_queues device opened r s : issuer_ok s → Forall (λ l, dw_stopped (ln_worker l) = false) (di_lanes s) →
  ∃ s', submit device opened r s = Ret s'.
Proof.
  intros Hs Hst. unfold submit, lane_for. destruct (list_find _ _) as [[i l]|] eqn:Ef.
  - apply list_find_Some in Ef as (Hi & _). rewrite Hi. unfold draining_push, dq_push.
    pose proof (Forall_lookup_1 _ _ _ _ (ik_lanes _ Hs) Hi) as Hl. rewrite (do_open _ (lk_worker _ Hl)), (Forall_lookup_1 _ _ _ _ Hst Hi).
    by eexists.
  - case_bool_decide; [|by eexists]. cbn [di_lanes]. rewrite list_lookup_middle by done. by eexists.
Qed.

(** ** Properties *)


(** ** Two copies to one device, one of them refused *)

Module Copies.
Definition copy (n : Z) : Request := mkRequest n (mkStaging (4096 * n) 4096 n 0) 512 (8192 * n) n.

Lemma copies_run : ∃ s l, rtc issuer_step no_lanes s ∧ di_lanes s !! 0%nat = Some l ∧
  ln_events l = [Retired (copy 2); Reported (copy 2) DeviceDriverError] ∧ ln_stream l = [copy 1] ∧
  di_unreachable s = [Released (copy 3); Reported (copy 3) DeviceUnavailable].
Proof.
  eexists _, _. split.
  - eapply rtc_l; [apply (is_submit (cuda 0) Success (copy 1)); reflexivity|].
    eapply rtc_l; [apply (is_submit (cuda 0) Success (copy 2)); reflexivity|].
    eapply rtc_l; [apply (is_submit (cuda 1) DeviceUnavailable (copy 3)); reflexivity|].
    eapply rtc_l; [eapply (is_worker 0%nat); [reflexivity|split; [apply ds_post; cbn; lia|done]]|].
    eapply rtc_l; [eapply (is_worker 0%nat); [reflexivity|split; [apply ds_post; cbn; lia|done]]|].
    eapply rtc_l; [eapply (is_worker 0%nat); [reflexivity|split; [eapply ds_wait; reflexivity|done]]|].
    eapply rtc_l; [eapply (is_worker 0%nat); [reflexivity|split; [eapply ds_pop; reflexivity|done]]|].
    eapply rtc_l; [eapply (is_issue 0%nat _ (copy 1) Enqueued); reflexivity|].
    eapply rtc_l; [eapply (is_worker 0%nat); [reflexivity|split; [eapply ds_wait; reflexivity|done]]|].
    eapply rtc_l; [eapply (is_worker 0%nat); [reflexivity|split; [eapply ds_pop; reflexivity|done]]|].
    eapply rtc_l; [eapply (is_issue 0%nat _ (copy 2) Undrained); reflexivity|]. apply rtc_refl.
  - vm_compute. by split_and!.
Qed.

End Copies.
