(* ===== verification/DeviceRead.v ===== *)
(** The synchronous reader with a device destination (Batch::execute and read_to_device in
    streamer/impl/batch, Workload::execute).

    The batch is read block by block into staging buffers, each handed to the issuer and copied on from there;
    ranges are answered as their bytes land.  The copy path is the interface of ObjectStorageIo; a completion is
    a callback that touches three atomics only this thread reads, so it is applied when they are looked at.  A
    computation that waits forever is [None]. *)

From S2P Require Import Prelude ResponseCode SharedQueue Task ChunkSplitter Batch BatchExecute InflightChunks Workload ObjectStorageIo.

(** One stream per device is first in, first out: a copy that landed reports only when those handed over before
    it have.  A copy that could not be issued may report earlier. *)
Class OrderedCopies (C : Type) `{!CopyPath C} : Prop := {
  issue_order d b bytes destination h c : in_copy (issue d b bytes destination h c) = in_copy c ++ [h];
  pop_order wait c h code c' : pop_copy wait c = (Some (h, code), c') →
    ∃ l k, in_copy c = l ++ h :: k ∧ in_copy c' = l ++ k ∧ (code = Success → l = []);
  others_order c c' : (∃ d code, open_device d c = (code, c')) ∨ (∃ d code, bind_device d c = (code, c')) ∨
    (∃ code b, acquire_buffer c = (code, b, c')) ∨ (∃ b, c' = release_buffer b c) ∨ (∃ wait, pop_copy wait c = (None, c')) →
    in_copy c' = in_copy c }.

Section DeviceRead.
Context {R : Type} `{!Responder R} {C : Type} `{!CopyPath C}.
Context (block : Z).                      (** the buffers' size, StagingPool::buffer_bytesize *)
Context (sync_block : Z).                 (** fs_sync_read_block_bytesize *)
Context (reads : nat → outcome ()) (stops : nat → bool).
Context (device : Device).

(** [d_exec] is the host's part: its trace is of the copies that landed.  [d_submitted] are the copies handed
    over, oldest first; [d_filled] the reads into staging buffers. *)
Record dexec := mkDexec {
  d_exec : exec (R := R); d_copies : C; d_landed : Z; d_failure : ResponseCode; d_retired : Z;
  d_submitted : list read_call; d_filled : list read_call }.

Definition DX (A : Type) : Type := dexec → option (dexec * outcome A).

Definition dret {A} (a : A) : DX A := λ d, Some (d, Ret a).
Definition dthrow {A} (e : exn) : DX A := λ d, Some (d, Throw e).
Definition dbind {A B} (m : DX A) (k : A → DX B) : DX B := λ d,
  match m d with
  | Some (d', Ret a) => k a d'
  | Some (d', Throw e) => Some (d', Throw e)
  | None => None
  end.
Notation "'ddo!' a ':=' m 'in' k" := (dbind m (λ a, k))
  (at level 10, a pattern, m at level 100, k at level 200).

Definition with_exec (x : exec) (d : dexec) : dexec :=
  mkDexec x (d_copies d) (d_landed d) (d_failure d) (d_retired d) (d_submitted d) (d_filled d).
Definition with_copies (c : C) (d : dexec) : dexec :=
  mkDexec (d_exec d) c (d_landed d) (d_failure d) (d_retired d) (d_submitted d) (d_filled d).

Definition lift {A} (m : X A) : DX A := λ d, let '(x, r) := m (d_exec d) in Some (with_exec x d, r).

(** ** Completions *)

Definition with_trace (trace : list read_call) (x : exec (R := R)) : exec :=
  mkExec (x_batch x) (x_world x) (x_reads x) (x_stops x) trace.

(** The callback: the first failure is kept; a copy counts as landed only while there is none. *)
Definition on_done (h : Z) (ret : ResponseCode) (d : dexec) : dexec :=
  if negb (bool_decide (ret = Success)) then
    mkDexec (d_exec d) (d_copies d) (d_landed d) (if decide (d_failure d = Success) then ret else d_failure d)
            (d_retired d + 1) (d_submitted d) (d_filled d)
  else if bool_decide (d_failure d = Success) then
    mkDexec (with_trace (x_trace (d_exec d) ++ match d_submitted d !! Z.to_nat h with Some c => [c] | None => [] end) (d_exec d))
            (d_copies d) (add32 (d_landed d) 1) (d_failure d) (d_retired d + 1) (d_submitted d) (d_filled d)
  else
    mkDexec (d_exec d) (d_copies d) (d_landed d) (d_failure d) (d_retired d + 1) (d_submitted d) (d_filled d).

(** The completions there have been by now. *)
Fixpoint completions (fuel : nat) (d : dexec) : dexec :=
  match fuel with
  | O => d
  | S fuel =>
      match pop_copy false (d_copies d) with
      | (None, c) => with_copies c d
      | (Some (h, ret), c) => completions fuel (on_done h ret (with_copies c d))
      end
  end.

(** The guard: [n] waits on the semaphore, which a completion posts to. *)
Fixpoint drain (fuel n : nat) (d : dexec) : option dexec :=
  match n with
  | O => Some d
  | S n' =>
      if 0 <? d_retired d then
        match fuel with
        | O => None
        | S fuel => drain fuel n' (mkDexec (d_exec d) (d_copies d) (d_landed d) (d_failure d) (d_retired d - 1) (d_submitted d) (d_filled d))
        end
      else
        match fuel, pop_copy true (d_copies d) with
        | S fuel, (Some (h, ret), c) => drain fuel n (on_done h ret (with_copies c d))
        | _, _ => None
        end
  end.

(** ** Reading *)

Definition acquire : DX StagingBuffer := λ d,
  let '(code, buffer, c) := acquire_buffer (d_copies d) in
  let d := with_copies c d in
  if negb (bool_decide (code = Success)) then Some (d, Throw (Code code))
  else if negb (staging_valid buffer) then Some (d, Throw (Code FinishedError))
  else Some (d, Ret buffer).

(** The read, with the guard that gives the buffer back when it throws. *)
Definition fill_buffer (offset bytesize : Z) (buffer : StagingBuffer) : DX () := λ d,
  match reader_call reads (d_exec d) with
  | (x, Ret _) =>
      Some (mkDexec x (d_copies d) (d_landed d) (d_failure d) (d_retired d) (d_submitted d)
                    (d_filled d ++ [mkCall offset bytesize (sb_data buffer)]), Ret ())
  | (x, Throw e) => Some (with_copies (release_buffer buffer (d_copies d)) (with_exec x d), Throw e)
  end.

Definition submit (offset bytesize destination : Z) (buffer : StagingBuffer) : DX () := λ d,
  let h := Z.of_nat (length (d_submitted d)) in
  Some (mkDexec (d_exec d) (issue device buffer bytesize destination h (d_copies d)) (d_landed d) (d_failure d) (d_retired d)
                (d_submitted d ++ [mkCall offset bytesize destination]) (d_filled d), Ret ()).

(** Answers what has reached the device by now. *)
Definition answer_landed (start end_ : Z) : DX () := λ d,
  let d := completions (length (d_submitted d)) d in
  lift (notify (Z.min (start ⊕ (d_landed d ⊗ block)) end_)) d.

Fixpoint copy_loop (fuel : nat) (start end_ destination offset : Z) : DX () :=
  match fuel with
  | O => λ _, None
  | S fuel =>
      if offset <? end_ then
        ddo! stopped := lift (sample_stopped stops) in
        if stopped : bool then dret ()
        else
          ddo! buffer := acquire in
          let bytesize := Z.min block (end_ ⊖ offset) in
          ddo! _ := fill_buffer offset bytesize buffer in
          ddo! _ := submit offset bytesize (destination + (offset - start)) buffer in
          ddo! _ := answer_landed start end_ in
          copy_loop fuel start end_ destination (offset ⊕ bytesize)
      else dret ()
  end.

(** The waits of the guard run on every way out. *)
Definition guarded (m : DX ()) : DX () := λ d,
  match m d with
  | None => None
  | Some (d, r) =>
      match drain (2 * length (d_submitted d)) (length (d_submitted d)) d with None => None | Some d => Some (d, r) end
  end.

Definition read_to_device : DX () := λ d0,
  let b := x_batch (d_exec d0) in
  match tasks b with
  | [] => Some (d0, Ret ())
  | t :: _ =>
      match destination (requests (x_world (d_exec d0))) t with
      | Throw e => Some (d0, Throw e)
      | Ret destination =>
          (ddo! _ := lift (reader_call reads) in
           ddo! _ := guarded (copy_loop (S (Z.to_nat (Batch.size (range b)))) (start (range b)) (range_end (range b)) destination (start (range b))) in
           ddo! worst := (λ d, Some (d, Ret (d_failure d))) in
           if negb (bool_decide (worst = Success)) then dthrow (Code worst)
           else lift (read_end stops (range b))) d0
      end
  end.

(** The body of the try block; [staging] is whether there are buffers and an issuer. *)
Definition device_body (staging : bool) : DX () :=
  ddo! _ := (λ d, Some (d, ASSERT (negb (is_object_storage (x_batch (d_exec d)))))) in
  ddo! _ := lift (reader_call reads) in
  if is_host device then lift (read sync_block reads stops)
  else if staging then read_to_device
  else dthrow (Code UnsupportedDeviceType).

Definition execute_batch (staging : bool) : DX () := λ d0,
  match device_body staging d0 with
  | None => None
  | Some (d, r) =>
      let x := d_exec d in
      match handle_error (caught r) (x_batch x) (x_world x) with
      | Ret (b, w) => Some (with_exec (mkExec b w (x_reads x) (x_stops x) (x_trace x)) d, Ret ())
      | Throw e => Some (d, Throw e)
      end
  end.
End DeviceRead.

(** ** The invariant *)

Section Invariant.
Context {R : Type} `{!Responder R} {C : Type} `{!CopyPath C, !CopyLaws C, !OrderedCopies C}.
Context (block : Z) (reads : nat → outcome ()) (stops : nat → bool) (device : Device).
Context (owner : nat → Z) (log0 : list Response) (before after : list Batch) (ts0 : list Task) (r0 : Range)
        (s0 : store) (buffer0 : Z).
Context (Hblock : 0 < block) (Hstart : 0 <= start r0) (Hbound : range_end r0 + block < size_modulus)
        (Hsize : Batch.size r0 = range_end r0 - start r0) (Hfew : range_end r0 - start r0 < block * (unsigned_modulus - 1))
        (Hends : Forall (λ t, t_end t <= range_end r0) ts0)
        (Hstops : ∀ i j, (i <= j)%nat → stops i = true → stops j = true)
        (Hreads : ∀ i, reads i ≠ Throw (Code Success)).
Implicit Types (d : dexec (R := R) (C := C)) (x : exec (R := R)).

Abbreviation reading_to := (BatchExecute.reading owner log0 before after ts0 r0 s0 buffer0).
Abbreviation failed_with := (failed owner log0 before after ts0 r0 s0 buffer0).

(** Where the first [n] blocks end, and the [i]-th block. *)
Definition reach (n : Z) : Z := Z.min (start r0 + n * block) (range_end r0).

Definition nth_block (i : Z) : read_call :=
  mkCall (start r0 + i * block) (Z.min block (range_end r0 - (start r0 + i * block))) (buffer0 + i * block).

(** The handles from [a] to [n]. *)
Definition handles (a n : Z) : list Z := map Z.of_nat (seq (Z.to_nat a) (Z.to_nat (n - a))).

Definition submitted d : Z := Z.of_nat (length (d_submitted d)).

(** [out]: the buffers this thread holds; [waited]: how many times the guard has waited. *)
Record copying (out : list StagingBuffer) (waited : Z) d : Prop := {
  cp_reading : reading_to (reach (d_landed d)) (d_exec d);
  cp_submitted : ∀ i c, d_submitted d !! i = Some c → c = nth_block (Z.of_nat i) ∧ start r0 + Z.of_nat i * block < range_end r0;
  cp_landed : 0 <= d_landed d <= submitted d;
  cp_flight : d_failure d = Success → in_copy (d_copies d) = handles (d_landed d) (submitted d);
  cp_retired : d_retired d + Z.of_nat (length (in_copy (d_copies d))) + waited = submitted d;
  cp_posted : 0 <= d_retired d;
  cp_held : held (d_copies d) ≡ₚ out;
  cp_filled : Forall (λ c, rc_bytesize c <= block) (d_filled d) }.

Lemma handles_head a n h l : handles a n = h :: l → 0 <= a → h = a ∧ a < n ∧ l = handles (a + 1) n.
Proof.
  unfold handles. intros E Ha. destruct (Z.to_nat (n - a)) as [|k] eqn:Ek; [done|].
  cbn [seq map] in E. injection E as <- <-. split_and!; [lia|lia|].
  replace (Z.to_nat (n - (a + 1))) with k by lia. by replace (Z.to_nat (a + 1)) with (S (Z.to_nat a)) by lia.
Qed.

Lemma handles_snoc a n : 0 <= a <= n → handles a n ++ [n] = handles a (n + 1).
Proof.
  intros H. unfold handles. replace (Z.to_nat (n + 1 - a)) with (Z.to_nat (n - a) + 1)%nat by lia.
  rewrite seq_app, map_app. cbn. do 2 f_equal. lia.
Qed.

Lemma submitted_few out waited d : copying out waited d → submitted d < unsigned_modulus.
Proof.
  intros Hd. unfold submitted. destruct (d_submitted d) as [|c l] eqn:E using rev_ind; [done|].
  destruct (cp_submitted _ _ _ Hd (length l) c) as [_ Hlt].
  { rewrite E. by rewrite lookup_app_r, Nat.sub_diag by lia. }
  rewrite length_app. simpl. nia.
Qed.

Lemma reading_ext m x x' : x_batch x = x_batch x' → x_world x = x_world x' → x_trace x = x_trace x' →
  reading_to m x → reading_to m x'.
Proof. intros E1 E2 E3 [H1 H2 H3 H4 H5 H6 H7 H8]. rewrite E1, E2, E3 in *. by split. Qed.

(** The next copy lands: it continues what has landed. *)
Lemma landed_grows n x : 0 <= n → start r0 + n * block < range_end r0 → reading_to (reach n) x →
  reading_to (reach (n + 1)) (with_trace (x_trace x ++ [nth_block n]) x).
Proof.
  intros Hn Hlt Hx. assert (E : reach n = start r0 + n * block) by (unfold reach; lia).
  assert (E1 : reach (n + 1) = reach n + rc_bytesize (nth_block n)) by (unfold reach, nth_block; cbn; lia).
  assert (Hle : reach n <= reach (n + 1) <= range_end r0) by (unfold reach in *; lia).
  pose proof (reading_mono owner log0 before after ts0 r0 s0 buffer0 (reach n) (reach (n + 1)) x Hx ltac:(lia) ltac:(lia)) as Hm.
  destruct Hx as [H1 H2 H3 H4 H5 H6 H7 H8]. split; cbn; try done.
  - lia.
  - rewrite E1. apply tiles_snoc; [done|by rewrite E|]. unfold nth_block. cbn. lia.
  - apply Forall_app. split; [done|]. constructor; [|constructor]. unfold nth_block. cbn. lia.
Qed.

(** A completion is taken into account. *)
Lemma completion_ok out waited d wait h ret c : copying out waited d → pop_copy wait (d_copies d) = (Some (h, ret), c) →
  copying out waited (on_done h ret (with_copies c d)).
Proof.
  intros Hd Hpop. pose proof (submitted_few _ _ _ Hd) as Hfew'. destruct Hd as [H1 H2 H3 H4 H5 H6 H7 H8].
  pose proof (pop_copy_law _ _ _ _ Hpop) as [Hheld _]. apply pop_order in Hpop as (l & k & E1 & E2 & Hs).
  assert (Hlen : length (in_copy (d_copies d)) = S (length (in_copy c))) by (rewrite E1, E2, !length_app; simpl; lia).
  unfold on_done. case_bool_decide as Hret; cbn [negb].
  - rewrite (Hs Hret) in *. cbn [app] in *. cbn [d_failure with_copies]. case_bool_decide as Hf.
    + specialize (H4 Hf). rewrite E1 in H4. symmetry in H4. apply handles_head in H4 as (-> & Hlt & ->); [|lia].
      destruct (lookup_lt_is_Some_2 (d_submitted d) (Z.to_nat (d_landed d))) as [call Ec]; [unfold submitted in *; lia|].
      destruct (H2 _ _ Ec) as [-> Hroom]. rewrite Z2Nat.id in Hroom by lia. unfold submitted in *.
      cbn [d_landed with_copies]. rewrite add32_small by mlia. split; cbn; rewrite ?Ec, ?Z2Nat.id by lia; try done.
      * by apply landed_grows; [lia| |].
      * unfold submitted. cbn. lia.
      * unfold submitted. cbn. lia.
      * lia.
      * by rewrite Hheld.
    + split; cbn; try done; [unfold submitted in *; cbn; lia|lia|by rewrite Hheld].
  - split; cbn; try done; [|unfold submitted in *; cbn; lia|lia|by rewrite Hheld]. intros Hf. by case_decide.
Qed.
(** What the completions leave alone. *)
Definition same_side d d' : Prop := d_submitted d' = d_submitted d ∧ x_stops (d_exec d') = x_stops (d_exec d).

Lemma on_done_same h ret c d : same_side d (on_done h ret (with_copies c d)).
Proof. unfold on_done. repeat case_match; done. Qed.

Lemma same_side_trans d1 d2 d3 : same_side d1 d2 → same_side d2 d3 → same_side d1 d3.
Proof. intros [E1 E2] [E3 E4]. split; congruence. Qed.

Lemma completions_ok out waited fuel : ∀ d, copying out waited d →
  copying out waited (completions fuel d) ∧ same_side d (completions fuel d).
Proof.
  induction fuel as [|fuel IH]; intros d Hd; simpl; [by split|].
  destruct (pop_copy false (d_copies d)) as [[[h ret]|] c] eqn:E.
  - destruct (IH (on_done h ret (with_copies c d))) as [H1 H2]; [by eapply completion_ok|].
    split; [done|]. eapply same_side_trans; [apply on_done_same|done].
  - assert (Ec : in_copy c = in_copy (d_copies d)) by (apply (others_order (d_copies d) c); eauto 10).
    pose proof (pop_copy_law _ _ _ _ E) as [Eh _]. split; [|done].
    destruct Hd as [H1 H2 H3 H4 H5 H6 H7 H8]. split; cbn; rewrite ?Ec, ?Eh; done.
Qed.

(** The guard's waits end, and then no copy of this batch is in flight. *)
Lemma drain_ok out fuel : ∀ n waited d, copying out waited d → Z.of_nat n + waited = submitted d →
  (n + length (in_copy (d_copies d)) <= fuel)%nat →
  ∃ d', drain fuel n d = Some d' ∧ copying out (submitted d') d' ∧ same_side d d'.
Proof.
  induction fuel as [|fuel IH]; intros [|n] waited d Hd Hn Hfuel; try lia.
  - exists d. split; [done|]. split; [|done]. by replace (submitted d) with waited by lia.
  - exists d. split; [done|]. split; [|done]. by replace (submitted d) with waited by lia.
  - cbn [drain]. pose proof Hd as [H1 H2 H3 H4 H5 H6 H7 H8]. destruct (Z.ltb_spec 0 (d_retired d)).
    + match goal with |- context [drain fuel n ?x] => set (d1 := x) end.
      destruct (IH n (waited + 1) d1) as (d' & E & Hd' & Hs); [|cbn; unfold submitted in *; cbn; lia|cbn; lia|by exists d'].
      split; cbn; try done; unfold submitted in *; cbn; lia.
    + destruct (pop_copy true (d_copies d)) as [[[h ret]|] c] eqn:E.
      * pose proof (completion_ok _ _ _ _ _ _ _ Hd E) as Hd1. pose proof (on_done_same h ret c d) as [Es1 Es2].
        assert (Hlen : length (in_copy (d_copies d)) = S (length (in_copy (d_copies (on_done h ret (with_copies c d)))))).
        { apply pop_order in E as (l & k & E1 & E2 & _).
          assert (d_copies (on_done h ret (with_copies c d)) = c) as -> by (unfold on_done; repeat case_match; done).
          rewrite E1, E2, !length_app. simpl. lia. }
        destruct (IH (S n) waited _ Hd1) as (d' & E' & Hd' & Hs); [unfold submitted in *; rewrite Es1; lia|lia|].
        exists d'. split; [done|]. split; [done|]. by eapply same_side_trans.
      * pose proof (pop_copy_law _ _ _ _ E) as [_ [_ Hempty]]. rewrite Hempty in H5 by done. simpl in H5. lia.
Qed.

Lemma copying_exec out waited d x : copying out waited d → reading_to (reach (d_landed d)) x → copying out waited (with_exec x d).
Proof. intros [H1 H2 H3 H4 H5 H6 H7 H8] Hx. by split. Qed.

Lemma reach_add landed n : start r0 <= range_end r0 → 0 <= landed <= n → (n = 0 ∨ start r0 + (n - 1) * block < range_end r0) →
  Z.min (start r0 ⊕ (landed ⊗ block)) (range_end r0) = reach landed.
Proof.
  intros Hle Hl Hn. assert (0 <= landed * block ∧ start r0 + landed * block < size_modulus) as [? ?].
  { split; [nia|]. assert (landed * block <= n * block) by nia. destruct Hn as [->|Hn]; lia. }
  rewrite mul64_small, add64_small by mlia. done.
Qed.
Lemma last_room out waited d : copying out waited d →
  submitted d = 0 ∨ start r0 + (submitted d - 1) * block < range_end r0.
Proof.
  intros Hd. unfold submitted. destruct (d_submitted d) as [|c l] eqn:E using rev_ind; [by left|right].
  destruct (cp_submitted _ _ _ Hd (length l) c) as [_ Hlt]; [rewrite E; by rewrite lookup_app_r, Nat.sub_diag by lia|].
  rewrite length_app. simpl. replace (Z.of_nat (length l + 1) - 1) with (Z.of_nat (length l)) by lia. done.
Qed.

Lemma copying_within out waited d : copying out waited d → start r0 <= range_end r0.
Proof. intros Hd. pose proof (rd_within _ _ _ _ _ _ _ _ _ _ (cp_reading _ _ _ Hd)). lia. Qed.

Definition fails (r : outcome ()) : Prop := match r with Ret _ => True | Throw e => e ≠ Code Success end.

Lemma answer_landed_ok out d : copying out 0 d →
  ∃ d' r, answer_landed block (start r0) (range_end r0) d = Some (d', r) ∧ copying out 0 d' ∧ same_side d d' ∧ fails r.
Proof.
  intros Hd. unfold answer_landed, lift. destruct (completions_ok out 0 (length (d_submitted d)) d Hd) as [H1 [Es Hstop]].
  set (d1 := completions _ d) in *. clearbody d1.
  rewrite (reach_add (d_landed d1) (submitted d1)); [|by eapply copying_within|apply (cp_landed _ _ _ H1)|by eapply last_room].
  pose proof (notify_spec owner log0 before after ts0 r0 s0 buffer0 Hends (reach (d_landed d1)) (d_exec d1) (cp_reading _ _ _ H1)) as Hn.
  assert (Hx : ∀ x r, notify (reach (d_landed d1)) (d_exec d1) = (x, r) → x_stops x = x_stops (d_exec d1) ∧ (∀ e, r = Throw e → x = d_exec d1)).
  { unfold notify. intros x r. destruct (finished_until _ _ _ _) as [[b w]|e]; intros [= <- <-]; (split; [done|congruence]). }
  destruct (notify _ _) as [x [u|e]] eqn:En; destruct (Hx _ _ eq_refl) as [Hs1 Hs2];
    do 2 eexists; (split; [done|]); split_and!; try done.
  - apply copying_exec; [done|apply Hn].
  - split; [done|]. cbn. congruence.
  - rewrite (Hs2 e eq_refl). by apply copying_exec; [|apply H1].
  - split; [done|]. cbn. congruence.
  - apply Hn.
Qed.

(** One block that was read is handed over. *)
Lemma submit_ok out buffer d offset : copying (buffer :: out) 0 d → start r0 + submitted d * block < range_end r0 →
  offset = start r0 + submitted d * block →
  ∃ d', submit device offset (Z.min block (range_end r0 ⊖ offset)) (buffer0 + (offset - start r0)) buffer d = Some (d', Ret ()) ∧
    copying out 0 d' ∧ submitted d' = submitted d + 1 ∧ x_stops (d_exec d') = x_stops (d_exec d).
Proof.
  intros Hd Hroom ->. pose proof (submitted_few _ _ _ Hd) as Hf. pose proof Hd as [H1 H2 H3 H4 H5 H6 H7 H8].
  unfold submit. eexists. split; [done|].
  assert (Hn : 0 <= submitted d) by (unfold submitted; lia). assert (0 <= submitted d * block) by nia.
  rewrite sub64_small by mlia.
  set (h := Z.of_nat (length (d_submitted d))). change (submitted d) with h in *.
  destruct (issue_law device buffer (Z.min block (range_end r0 - (start r0 + h * block))) (buffer0 + (start r0 + h * block - start r0)) h
              (d_copies d) out H7) as [_ Hheld].
  pose proof (issue_order device buffer (Z.min block (range_end r0 - (start r0 + h * block))) (buffer0 + (start r0 + h * block - start r0)) h
              (d_copies d)) as Hin.
  assert (Hlen : ∀ c : read_call, Z.of_nat (length (d_submitted d ++ [c])) = h + 1) by (intros c; rewrite length_app; simpl; lia).
  split; [|split; [unfold submitted; cbn; apply Hlen|done]].
  split; unfold submitted; cbn; rewrite ?Hlen; try done.
  - intros i c Hi. apply lookup_app_Some in Hi as [Hi|[Hge Hi]]; [by apply H2|].
    apply list_lookup_singleton_Some in Hi as [Hi <-]. replace i with (length (d_submitted d)) by lia. fold h.
    split; [|done]. unfold nth_block. f_equal. lia.
  - lia.
  - intros E. by rewrite Hin, H4, handles_snoc by (done || lia).
  - rewrite Hin, length_app. simpl. lia.
Qed.

Lemma acquire_ok out d : copying out 0 d →
  ∃ d' r, acquire d = Some (d', r) ∧ d_submitted d' = d_submitted d ∧ d_exec d' = d_exec d ∧
    match r with Ret b => copying (b :: out) 0 d' | Throw e => copying out 0 d' ∧ e ≠ Code Success end.
Proof.
  intros [H1 H2 H3 H4 H5 H6 H7 H8]. unfold acquire. destruct (acquire_buffer (d_copies d)) as [[code b] c] eqn:E.
  apply acquire_law in E as [Ein Eh].
  case_bool_decide as Hc; cbn [negb].
  - destruct (staging_valid b) eqn:Hv; cbn [negb]; do 2 eexists; (split; [done|]); (split; [done|]); (split; [done|]).
    + rewrite decide_True in Eh by done. split; cbn; rewrite ?Ein; try done. rewrite Eh. simpl. by constructor.
    + rewrite decide_False in Eh by (by intros [_ ?]). split; [|done]. split; cbn; rewrite ?Ein; try done. by rewrite Eh.
  - do 2 eexists. do 3 (split; [done|]). rewrite decide_False in Eh by (by intros [? _]).
    split; [|congruence]. split; cbn; rewrite ?Ein; try done. by rewrite Eh.
Qed.

Lemma fill_buffer_ok out buffer d offset bytesize : copying (buffer :: out) 0 d → bytesize <= block →
  ∃ d' r, fill_buffer reads offset bytesize buffer d = Some (d', r) ∧ d_submitted d' = d_submitted d ∧
    x_stops (d_exec d') = x_stops (d_exec d) ∧
    match r with Ret _ => copying (buffer :: out) 0 d' | Throw e => copying out 0 d' ∧ e ≠ Code Success end.
Proof.
  intros [H1 H2 H3 H4 H5 H6 H7 H8] Hb. unfold fill_buffer, reader_call. pose proof (Hreads (x_reads (d_exec d))) as Hr.
  destruct (reads _) as [u|e]; do 2 eexists; (split; [done|]); (split; [done|]); (split; [done|]).
  - split; cbn; try done; [by eapply reading_ext; [| | |exact H1]|]. apply Forall_app. split; [done|]. by constructor; [|constructor].
  - destruct (release_buffer_law buffer (d_copies d) out H7) as [Ein Eh].
    split; [|congruence]. split; cbn; rewrite ?Ein; try done. by eapply reading_ext; [| | |exact H1].
Qed.
Abbreviation loop := (copy_loop block reads stops device).

Lemma copy_loop_ok out fuel : ∀ offset d, copying out 0 d → offset = reach (submitted d) →
  range_end r0 - offset < Z.of_nat fuel →
  ∃ d' r, loop fuel (start r0) (range_end r0) buffer0 offset d = Some (d', r) ∧ copying out 0 d' ∧
    match r with
    | Ret _ => reach (submitted d') = range_end r0 ∨ saw_stop stops (d_exec d')
    | Throw e => e ≠ Code Success
    end.
Proof.
  induction fuel as [|fuel IH]; intros offset d Hd Ho Hfuel.
  { unfold reach in Ho. lia. }
  cbn [copy_loop]. destruct (Z.ltb_spec offset (range_end r0)) as [Hlt|Hge].
  2: { exists d, (Ret ()). split; [done|]. split; [done|]. left. unfold reach in *. lia. }
  assert (Eo : offset = start r0 + submitted d * block) by (unfold reach in Ho; lia).
  unfold dbind at 1, lift at 1. cbn [sample_stopped].
  pose proof (sample_spec stops owner log0 before after ts0 r0 s0 buffer0 _ _ (cp_reading _ _ _ Hd)) as Hs.
  cbn [sample_stopped] in Hs. destruct Hs as [Hx Hsaw].
  set (x1 := mkExec _ _ _ _ _) in *. pose proof (copying_exec _ _ _ _ Hd Hx) as Hd1.
  destruct (stops (x_stops (d_exec d))) eqn:Es.
  { exists (with_exec x1 d), (Ret ()). split; [done|]. split; [done|]. right. by apply Hsaw. }
  clear Hsaw. set (d1 := with_exec x1 d) in *. assert (Es1 : submitted d1 = submitted d) by done. clearbody d1.
  unfold dbind at 1. destruct (acquire_ok out d1 Hd1) as (d2 & [b|e] & -> & Esub2 & _ & H2).
  2: { exists d2, (Throw e). destruct H2. by split_and!. }
  assert (Hb : Z.min block (range_end r0 ⊖ offset) <= block) by lia.
  unfold dbind at 1. destruct (fill_buffer_ok out b d2 offset _ H2 Hb) as (d3 & [[]|e] & -> & Esub3 & _ & H3).
  2: { exists d3, (Throw e). destruct H3. by split_and!. }
  assert (Es3 : submitted d3 = submitted d) by (unfold submitted in *; congruence).
  unfold dbind at 1. destruct (submit_ok out b d3 offset H3) as (d4 & -> & H4 & Es4 & _); [rewrite Es3; lia|rewrite Es3; lia|].
  unfold dbind at 1. destruct (answer_landed_ok out d4 H4) as (d5 & [[]|e] & -> & H5 & [Es5 _] & Hr5).
  2: { exists d5, (Throw e). by split_and!. }
  assert (E5 : submitted d5 = submitted d + 1) by (unfold submitted in *; rewrite Es5; lia).
  assert (Enext : offset ⊕ Z.min block (range_end r0 ⊖ offset) = reach (submitted d5)).
  { rewrite E5. unfold submitted in *. rewrite sub64_small, add64_small by mlia. unfold reach. lia. }
  rewrite Enext. apply IH; [done|done|]. unfold reach. rewrite E5. lia.
Qed.

(** Every copy has retired when the guard is done. *)
Lemma guarded_ok out offset fuel d : copying out 0 d → offset = reach (submitted d) → range_end r0 - offset < Z.of_nat fuel →
  ∃ d' r, guarded (loop fuel (start r0) (range_end r0) buffer0 offset) d = Some (d', r) ∧
    copying out (submitted d') d' ∧ in_copy (d_copies d') = [] ∧
    match r with
    | Ret _ => reach (submitted d') = range_end r0 ∨ saw_stop stops (d_exec d')
    | Throw e => e ≠ Code Success
    end.
Proof.
  intros Hd Ho Hfuel. unfold guarded. destruct (copy_loop_ok out fuel offset d Hd Ho Hfuel) as (d1 & r & -> & H1 & Hr).
  destruct (drain_ok out (2 * length (d_submitted d1)) (length (d_submitted d1)) 0 d1 H1) as (d2 & -> & H2 & [Es Est]).
  - unfold submitted. lia.
  - pose proof (cp_retired _ _ _ H1). pose proof (cp_posted _ _ _ H1). unfold submitted in *. lia.
  - exists d2, r. split; [done|]. split; [done|]. split.
    + pose proof (cp_retired _ _ _ H2). pose proof (cp_posted _ _ _ H2). apply nil_length_inv. lia.
    + destruct r as [u|e]; [|done]. unfold submitted in *. rewrite Es. destruct Hr as [?|(i & Hi & Hsi)]; [by left|right].
      exists i. split; [lia|done].
Qed.

(** What was handed over is the first blocks of the range, each for its place, and all of it has retired; every
    buffer is back; no read was longer than a buffer. *)
Definition copies_ok (out : list StagingBuffer) d : Prop :=
  in_copy (d_copies d) = [] ∧ held (d_copies d) ≡ₚ out ∧ Forall (λ c, rc_bytesize c <= block) (d_filled d) ∧
  (∀ i c, d_submitted d !! i = Some c → c = nth_block (Z.of_nat i) ∧ start r0 + Z.of_nat i * block < range_end r0).

(** What the batch leaves: the range is on the device and answered, or a failure other than Success. *)
Definition device_done (out : list StagingBuffer) d (r : outcome ()) : Prop :=
  copies_ok out d ∧
  match r with
  | Ret _ => reading_to (range_end r0) (d_exec d) ∧ all_finished (d_exec d) ∧ d_failure d = Success
  | Throw e => failed_with e (d_exec d)
  end.

Lemma copying_copies_ok out waited d : copying out waited d → in_copy (d_copies d) = [] → copies_ok out d.
Proof. intros [H1 H2 H3 H4 H5 H6 H7 H8] Hin. by split_and!. Qed.

(** Nothing of the batch was read yet. *)
Definition fresh (out : list StagingBuffer) d : Prop :=
  reading_to (start r0) (d_exec d) ∧ in_copy (d_copies d) = [] ∧ held (d_copies d) ≡ₚ out ∧ d_landed d = 0 ∧
  d_failure d = Success ∧ d_retired d = 0 ∧ d_submitted d = [] ∧ d_filled d = [].

Lemma fresh_copying out d : fresh out d → copying out 0 d.
Proof.
  intros (H1 & H2 & H3 & H4 & H5 & H6 & H7 & H8). pose proof (rd_within _ _ _ _ _ _ _ _ _ _ H1).
  split; unfold submitted; rewrite ?H2, ?H4, ?H5, ?H6, ?H7, ?H8; try done. replace (reach 0) with (start r0); [done|].
  unfold reach. lia.
Qed.

Lemma after_copies out d : copying out (submitted d) d → in_copy (d_copies d) = [] → d_failure d = Success →
  reach (submitted d) = range_end r0 ∨ saw_stop stops (d_exec d) →
  ∃ d' r, lift (read_end stops r0) d = Some (d', r) ∧ device_done out d' r.
Proof.
  intros Hd Hin Hf Hend. assert (El : d_landed d = submitted d).
  { pose proof (cp_flight _ _ _ Hd Hf) as Hh. rewrite Hin in Hh. pose proof (cp_landed _ _ _ Hd).
    unfold handles in Hh. symmetry in Hh. apply map_eq_nil in Hh. apply (f_equal length) in Hh. rewrite length_seq in Hh. simpl in Hh. lia. }
  pose proof (cp_reading _ _ _ Hd) as Hx. rewrite El in Hx.
  pose proof (read_end_spec stops owner log0 before after ts0 r0 s0 buffer0 Hends Hstops (d_exec d)) as He.
  assert (Hc : copies_ok out d) by by eapply copying_copies_ok.
  unfold lift. destruct (read_end stops r0 (d_exec d)) as [x r] eqn:Ex. exists (with_exec x d), r. split; [done|].
  split; [exact Hc|]. assert (Hpre : (∃ m', reading_to m' (d_exec d)) ∧ (reading_to (range_end r0) (d_exec d) ∨ saw_stop stops (d_exec d))).
  { split; [eauto|]. destruct Hend as [<- |?]; auto. }
  specialize (He Hpre). destruct r as [u|e]; [|done]. destruct He. by split_and!.
Qed.

Lemma read_to_device_ok out t ts d : fresh out d → tasks (x_batch (d_exec d)) = t :: ts →
  destination (requests (x_world (d_exec d))) t = Ret buffer0 →
  ∃ d' r, read_to_device block reads stops device d = Some (d', r) ∧ device_done out d' r.
Proof.
  intros Hf Hts Hdest. pose proof (fresh_copying _ _ Hf) as Hd. pose proof Hf as (Hx & Hin & _ & Hl & Hfail & _ & Hsub & _).
  pose proof (rd_within _ _ _ _ _ _ _ _ _ _ Hx) as Hw. unfold read_to_device. rewrite Hts, Hdest.
  rewrite (rd_range _ _ _ _ _ _ _ _ _ _ Hx). unfold dbind at 1, lift at 1.
  pose proof (reader_call_spec reads owner log0 before after ts0 r0 s0 buffer0 Hreads (start r0) (d_exec d) Hx) as Hcall.
  destruct (reader_call reads (d_exec d)) as [x [[]|e]] eqn:Ec.
  2: { do 2 eexists. split; [done|]. split; [exact (copying_copies_ok out 0 d Hd Hin)|done]. }
  assert (E0 : start r0 = reach (submitted d)) by (unfold submitted, reach; rewrite Hsub; simpl; lia).
  assert (Hd1 : copying out 0 (with_exec x d)).
  { apply copying_exec; [done|]. rewrite Hl. by replace (reach 0) with (start r0) by (unfold reach; lia). }
  unfold dbind at 1. destruct (guarded_ok out (start r0) (S (Z.to_nat (Batch.size r0))) _ Hd1 E0) as (d2 & r & -> & H2 & Hin2 & Hr); [lia|].
  assert (Hx2 : ∃ m, reading_to m (d_exec d2)) by (eexists; apply (cp_reading _ _ _ H2)).
  destruct r as [u|e].
  2: { do 2 eexists. split; [done|]. split; [by eapply copying_copies_ok|by split]. }
  unfold dbind at 1. case_bool_decide as Hfail2; cbn [negb].
  - by apply after_copies.
  - do 2 eexists. split; [done|]. split; [by eapply copying_copies_ok|]. split; [congruence|done].
Qed.
Context (sync_block : Z) (Hsync : 0 < sync_block) (Hroom : range_end r0 + sync_block < size_modulus).

Lemma device_body_ok out staging t ts d : fresh out d → tasks (x_batch (d_exec d)) = t :: ts →
  destination (requests (x_world (d_exec d))) t = Ret buffer0 →
  ∃ d' r, device_body block sync_block reads stops device staging d = Some (d', r) ∧
    copies_ok out d' ∧ (is_host device = true → d_copies d' = d_copies d) ∧
    match r with
    | Ret _ => reading_to (range_end r0) (d_exec d') ∧ all_finished (d_exec d') ∧ (is_host device = false → d_failure d' = Success)
    | Throw e => failed_with e (d_exec d')
    end.
Proof.
  intros Hf Hts Hdest. pose proof (copying_copies_ok out 0 d (fresh_copying _ _ Hf)) as Hc. pose proof Hf as (Hx & Hin & Hrest).
  specialize (Hc Hin). unfold device_body, dbind at 1.
  destruct (is_object_storage (x_batch (d_exec d))); cbn [negb ASSERT].
  { do 2 eexists. split; [done|]. split; [done|]. split; [done|]. split; [done|eauto]. }
  unfold dbind at 1, lift at 1.
  pose proof (reader_call_spec reads owner log0 before after ts0 r0 s0 buffer0 Hreads (start r0) (d_exec d) Hx) as Hcall.
  unfold reader_call in *. destruct (reads (x_reads (d_exec d))) as [[]|e].
  2: { do 2 eexists. split; [done|]. split; [done|]. split; done. }
  set (x := mkExec _ _ _ _ _) in *. set (d1 := with_exec x d).
  assert (Hf1 : fresh out d1) by (split; [done|exact (proj2 Hf)]).
  destruct (is_host device) eqn:Hd.
  - pose proof (read_spec sync_block reads stops owner log0 before after ts0 r0 s0 buffer0 Hsync Hstart Hroom Hsize Hends Hstops Hreads
                  t ts x Hcall Hts Hdest) as Hr.
    unfold lift, d1. cbn [d_exec with_exec]. destruct (read sync_block reads stops x) as [x' [u|e]];
      do 2 eexists; (split; [done|]); (split; [done|]); (split; [done|]); [|done]. destruct Hr. by split_and!.
  - destruct staging.
    + destruct (read_to_device_ok out t ts d1 Hf1 Hts Hdest) as (d' & r & -> & Hc' & Hr).
      exists d', r. split; [done|]. split; [done|]. split; [done|]. destruct r; [|done]. destruct Hr as (? & ? & ?). by split_and!.
    + do 2 eexists. split; [done|]. split; [done|]. split; [done|]. split; [done|eauto].
Qed.

(** C20: Batch::execute answers for every task of the batch wherever it goes, whatever the reader, the pool, the
    issuer and the device answer and whenever the stop flag is raised: it returns, with every task finished and
    the accounting of responses preserved, no copy of the batch still in flight and every staging buffer given
    back or handed over.  What the trace holds reached its destination: blocks from the start of the range on,
    each in place - for a device, the copies that landed.  A request is reported successful only if all its
    bytes in this batch did, and when execute ends with Success the whole range did. *)
Theorem execute_batch_correct out staging b w c answered t ts :
  system_ok owner log0 answered (before ++ b :: after) w →
  requests w = s0 → range b = r0 → tasks b = ts0 → unfinished b = 0%nat → start r0 <= range_end r0 →
  ts0 = t :: ts → destination (requests w) t = Ret buffer0 → in_copy c = [] → held c ≡ₚ out →
  ∃ d m code, execute_batch block sync_block reads stops device staging (mkDexec (mkExec b w 0 0 []) c 0 Success 0 [] []) =
      Some (d, Ret ()) ∧ all_finished (d_exec d) ∧
    (∃ answered', system_ok owner log0 answered' (before ++ x_batch (d_exec d) :: after) (x_world (d_exec d))) ∧
    copies_ok out d ∧
    tiles rc_offset rc_bytesize (start r0) (x_trace (d_exec d)) m ∧ m <= range_end r0 ∧
    Forall (λ c, rc_buffer c = buffer0 + (rc_offset c - start r0)) (x_trace (d_exec d)) ∧
    (∀ t, t ∈ ts0 → t_finished t = false → m < t_end t →
       ∃ r, requests (x_world (d_exec d)) !! request t = Some r ∧ r_ret r = code ∧ code ≠ Success) ∧
    (code = Success → m = range_end r0 ∧ ∀ k r, requests w !! k = Some r →
       ∃ r', requests (x_world (d_exec d)) !! k = Some r' ∧ r_ret r' = r_ret r).
Proof.
  intros Hs Hw Hr Hts Hu Hle Ht0 Hd Hin Hheld.
  pose proof (fresh_reading owner log0 before after ts0 r0 s0 buffer0 b w 0 0 answered Hs Hw Hr Hts Hu Hle) as Hx.
  destruct (device_body_ok out staging t ts (mkDexec (mkExec b w 0 0 []) c 0 Success 0 [] [])) as (d & r & E & Hc & _ & Hb);
    [by split_and!|simpl; congruence|done|].
  unfold execute_batch. rewrite E.
  destruct (answer_all owner log0 before after ts0 r0 s0 buffer0 Hends (d_exec d) r) as (b' & w' & m & E' & H1 & H2 & H3 & H4 & H5 & H6 & H7).
  { destruct r; [|done]. destruct Hb as (? & ? & _). by split. }
  rewrite E'. eexists _, m, (caught r). split; [done|]. rewrite Hw. by split_and!.
Qed.
End Invariant.
