(* ===== verification/FileSystemWorker.v ===== *)
(** The synchronous file system worker (streamer/impl/filesystem_worker, Workload::execute): one per thread of the
    pool, with staging buffers of its own for device destinations.

    Each batch opens its own file, so what the reader and the stop flag do is a function of the batch's place in
    the workload and of the call; the copy path goes on from batch to batch. *)

From S2P Require Import Prelude ResponseCode SharedQueue Task ChunkSplitter Batch BatchExecute InflightChunks Workload StagingPool ObjectStorageIo DeviceRead.

Section Worker.
Context {R : Type} `{!Responder R} {C : Type} `{!CopyPath C}.
Context (block sync_block : Z) (has_path : bool).   (** _block_bytesize, and whether there are a writer and an issuer *)
Context (reads : nat → nat → outcome ()) (stops : nat → nat → bool).

Definition BuffersPerThread : Z := 3.

(** The worker's own state: whether its pool was built. *)
Record FileSystemWorker := mkFileSystemWorker { fw_pool : bool }.

(** The code, and what becomes of the pool. *)
Definition staging_for (device : Device) (fw : FileSystemWorker) (c : C) : ResponseCode * FileSystemWorker * C :=
  if negb has_path then (DeviceUnavailable, fw, c)
  else if block =? 0 then (InvalidParameterError, fw, c)
  else if fw_pool fw then (Success, fw, c)
  else
    let '(code, c) := open_device device c in
    if negb (bool_decide (code = Success)) then (code, fw, c)
    else
      let '(code, c) := bind_device device c in
      if negb (bool_decide (code = Success)) then (code, fw, c)
      else (Success, mkFileSystemWorker true, build_pool block BuffersPerThread c).

(** The loop of Workload::execute; [None] is a wait without an end. *)
Fixpoint execute_batches (device : Device) (staging : bool) (i : nat) (bs : list Batch) (w : world (R := R)) (c : C) :
    option (outcome () * (list Batch * world (R := R) * C)) :=
  match bs with
  | [] => Some (Ret (), ([], w, c))
  | b :: bs =>
      match execute_batch block sync_block (reads i) (stops i) device staging
              (mkDexec (mkExec b w 0 0 []) c 0 Success 0 [] []) with
      | None => None
      | Some (d, Throw e) => Some (Throw e, (x_batch (d_exec d) :: bs, x_world (d_exec d), d_copies d))
      | Some (d, Ret _) =>
          match execute_batches device staging (S i) bs (x_world (d_exec d)) (d_copies d) with
          | None => None
          | Some (r, (bs, w, c)) => Some (r, (x_batch (d_exec d) :: bs, w, c))
          end
      end
  end.

Definition execute_workload (staging : bool) (wl : Workload) (w : world (R := R)) (c : C) :
    option (outcome () * (list Batch * world (R := R) * C)) :=
  match wl_batches wl with
  | [] => Some (Ret (), ([], w, c))
  | bs => if wl_object_storage wl then Some (Throw AssertFailed, (bs, w, c)) else execute_batches (wl_device wl) staging 0 bs w c
  end.

(** FileSystemWorker::execute *)
Definition worker_execute (wl : Workload) (fw : FileSystemWorker) (w : world (R := R)) (c : C) :
    option (outcome () * (list Batch * world (R := R) * C) * FileSystemWorker) :=
  if is_host (wl_device wl) then
    match execute_workload false wl w c with None => None | Some x => Some (x, fw) end
  else
    let '(code, fw, c) := staging_for (wl_device wl) fw c in
    if negb (bool_decide (code = Success)) then
      match fail_batches code (wl_batches wl) w with
      | Ret (bs, w) => Some (Ret (), (bs, w, c), fw)
      | Throw e => Some (Throw e, (wl_batches wl, w, c), fw)
      end
    else match execute_workload true wl w c with None => None | Some x => Some (x, fw) end.

(** drain does nothing, and the worker is always idle. *)
Definition fs_drain (fw : FileSystemWorker) : FileSystemWorker := fw.
Definition fs_idle (fw : FileSystemWorker) : bool := true.
End Worker.

(** ** What a workload leaves *)

Section Answers.
Context {R : Type} `{!Responder R} {C : Type} `{!CopyPath C, !CopyLaws C, !OrderedCopies C}.
Context (block sync_block : Z) (has_path : bool) (reads : nat → nat → outcome ()) (stops : nat → nat → bool).
Context (owner : nat → Z) (log0 : list Response) (out : list StagingBuffer).

(** A batch as the streamer builds it: nothing answered yet, some tasks, in a range that is theirs and that the
    blocks do not carry past 64 bits. *)
Record readable (b : Batch) : Prop := {
  ra_fresh : unfinished b = 0%nat;
  ra_some : tasks b ≠ [];
  ra_range : 0 <= start (range b) <= range_end (range b);
  ra_size : Batch.size (range b) = range_end (range b) - start (range b);
  ra_bound : range_end (range b) + block < size_modulus ∧ range_end (range b) + sync_block < size_modulus;
  ra_few : range_end (range b) - start (range b) < block * (unsigned_modulus - 1);
  ra_ends : Forall (λ t, t_end t <= range_end (range b)) (tasks b) }.

Context (Hsync : 0 < sync_block) (Hstops : ∀ i j k, (j <= k)%nat → stops i j = true → stops i k = true)
        (Hreads : ∀ i j, reads i j ≠ Throw (Code Success)).

Lemma first_destination answered before b after w t ts : system_ok owner log0 answered (before ++ b :: after) w →
  tasks b = t :: ts → ∃ buffer, destination (requests w) t = Ret buffer.
Proof.
  intros [_ Hb] Ht. apply Forall_app in Hb as [_ Hb]. apply Forall_cons in Hb as [[Hown _] _].
  rewrite Ht, Forall_cons in Hown. destruct Hown as [(r & Hr & _) _]. unfold destination. rewrite Hr. eauto.
Qed.

Definition quiet (c : C) : Prop := in_copy c = [] ∧ held c ≡ₚ out.

Lemma execute_batches_ok device staging (Hblock : 0 < block) bs : ∀ i answered before after w c,
  system_ok owner log0 answered (before ++ bs ++ after) w → Forall readable bs → quiet c →
  ∃ bs' w' c' answered', execute_batches block sync_block reads stops device staging i bs w c = Some (Ret (), (bs', w', c')) ∧
    system_ok owner log0 answered' (before ++ bs' ++ after) w' ∧ Forall (λ t, t_finished t = true) (all_tasks bs') ∧ quiet c'.
Proof.
  induction bs as [|b bs IH]; intros i answered before after w c Hs Hr [Hin Hheld]; simpl.
  { exists [], w, c, answered. split_and!; done. }
  apply Forall_cons in Hr as [[H1 H2 H3 H4 [H5 H5'] H6 H7] Hr].
  destruct (tasks b) as [|t ts] eqn:Et; [done|].
  destruct (first_destination answered before b (bs ++ after) w t ts Hs Et) as [buffer Hd].
  destruct (execute_batch_correct block (reads i) (stops i) device owner log0 before (bs ++ after) (t :: ts) (range b) (requests w) buffer
              Hblock (proj1 H3) H5 H4 H6 H7 (Hstops i) (Hreads i) sync_block Hsync H5' out staging b w c answered t ts)
    as (d & m & code & E & Hf & (a1 & Hs1) & (Hin1 & Hheld1 & _) & _); try done; [apply H3|].
  rewrite E. destruct (IH (S i) a1 (before ++ [x_batch (d_exec d)]) after (x_world (d_exec d)) (d_copies d))
    as (bs' & w' & c' & a2 & E2 & Hs2 & Hf2 & Hq); [by rewrite <- app_assoc|done|by split|].
  rewrite E2. rewrite <- app_assoc in Hs2. do 4 eexists. split; [done|]. split; [exact Hs2|]. split; [|done].
  unfold all_tasks in *. simpl. by apply Forall_app.
Qed.

Lemma staging_for_ok device fw c code fw' c' : staging_for block has_path device fw c = (code, fw', c') → quiet c →
  quiet c' ∧ (code = Success → block ≠ 0).
Proof.
  unfold staging_for, quiet. destruct has_path; cbn [negb]; [|by intros [= <- <- <-]].
  destruct (Z.eqb_spec block 0); [by intros [= <- <- <-]|]. destruct (fw_pool fw); [by intros [= <- <- <-]|].
  destruct (open_device device c) as [code1 c1] eqn:E1. apply open_law in E1 as [Ei1 Eh1].
  case_bool_decide; cbn [negb]; [|intros [= <- <- <-]; by rewrite Ei1, Eh1].
  destruct (bind_device device c1) as [code2 c2] eqn:E2. apply bind_law in E2 as [Ei2 Eh2].
  case_bool_decide; cbn [negb]; intros [= <- <- <-]; [destruct (build_law block BuffersPerThread c2) as [-> ->]|];
    by rewrite Ei2, Eh2, Ei1, Eh1.
Qed.

(** Why there is no way to a device, and the code that says so: no copy path, no block to read into, or a device that does not
    open or bind. *)
Inductive no_way (device : Device) (fw : FileSystemWorker) (c : C) : ResponseCode → Prop :=
| no_copy_path : has_path = false → no_way device fw c DeviceUnavailable
| no_block : has_path = true → block = 0 → no_way device fw c InvalidParameterError
| not_opened code : has_path = true → block ≠ 0 → fw_pool fw = false →
    (open_device device c).1 = code → code ≠ Success → no_way device fw c code
| not_bound code : has_path = true → block ≠ 0 → fw_pool fw = false → (open_device device c).1 = Success →
    (bind_device device (open_device device c).2).1 = code → code ≠ Success → no_way device fw c code.

Lemma no_way_staging device fw c code : no_way device fw c code →
  code ≠ Success ∧ ∃ c', staging_for block has_path device fw c = (code, fw, c').
Proof.
  unfold staging_for. destruct 1 as [->| -> ->|code -> Hb Hf Ho Hc|code -> Hb Hf Ho Hbind Hc]; simpl.
  - split; [done|]. by exists c.
  - split; [done|]. by exists c.
  - rewrite (proj2 (Z.eqb_neq _ _) Hb), Hf. destruct (open_device device c) as [x c1]. simpl in Ho. subst x.
    rewrite bool_decide_false by done. split; [done|]. by exists c1.
  - rewrite (proj2 (Z.eqb_neq _ _) Hb), Hf. destruct (open_device device c) as [x c1]. simpl in Ho, Hbind. subst x. simpl.
    destruct (bind_device device c1) as [y c2]. simpl in Hbind. subst y. rewrite bool_decide_false by done. split; [done|]. by exists c2.
Qed.

(** C21: The synchronous worker answers everything it is given.  Whatever the reader, the device and the copy path do
    and whenever the pool stops, execute returns: every task of every batch of the workload is finished with the
    accounting of responses preserved, no copy is left in flight, and no staging buffer is kept.  And where there is no
    way to the device - no copy path, no block, a device that does not open or bind - the workload is failed rather
    than read: every request that waited for a task of it has the code of that as its result, nothing else of the
    requests changes, no pool is built, and what the reader or the stop flag would do makes no difference. *)
Theorem worker_execute_answers answered before after w (wl : Workload) fw c :
  system_ok owner log0 answered (before ++ wl_batches wl ++ after) w → Forall readable (wl_batches wl) →
  wl_object_storage wl = false → 0 <= block → (is_host (wl_device wl) = true → 0 < block) → quiet c →
  ∃ bs' w' c' fw' answered',
    worker_execute block sync_block has_path reads stops wl fw w c = Some (Ret (), (bs', w', c'), fw') ∧
    system_ok owner log0 answered' (before ++ bs' ++ after) w' ∧ Forall (λ t, t_finished t = true) (all_tasks bs') ∧ quiet c' ∧
    ∀ code, is_host (wl_device wl) = false → no_way (wl_device wl) fw c code →
      list_effect code (all_tasks (wl_batches wl)) (requests w) (requests w') ∧ fw' = fw ∧
      ∀ reads' stops', worker_execute block sync_block has_path reads' stops' wl fw w c = Some (Ret (), (bs', w', c'), fw').
Proof.
  intros Hs Hr Ho H0 Hhost Hq.
  assert (Hrun : ∀ staging c1, quiet c1 → 0 < block → ∃ bs' w' c' answered',
    execute_workload block sync_block reads stops staging wl w c1 = Some (Ret (), (bs', w', c')) ∧
    system_ok owner log0 answered' (before ++ bs' ++ after) w' ∧ Forall (λ t, t_finished t = true) (all_tasks bs') ∧ quiet c').
  { intros staging c1 Hq1 Hb. unfold execute_workload. destruct (wl_batches wl) as [|b bs] eqn:Eb.
    - exists [], w, c1, answered. by split_and!.
    - rewrite Ho. by eapply execute_batches_ok. }
  unfold worker_execute. destruct (is_host (wl_device wl)) eqn:Hd.
  - destruct (Hrun false c Hq (Hhost eq_refl)) as (bs' & w' & c' & a & -> & ? & ? & ?). do 5 eexists. by split_and!.
  - destruct (staging_for block has_path (wl_device wl) fw c) as [[code fw'] c1] eqn:Est.
    destruct (staging_for_ok _ _ _ _ _ _ Est Hq) as [Hq1 Hb1]. case_bool_decide as Hc; cbn [negb].
    + destruct (Hrun true c1 Hq1) as (bs' & w' & c' & a & -> & ? & ? & ?); [specialize (Hb1 Hc); lia|]. do 5 eexists.
      split_and!; [done..|]. intros code' _ [Hne [c2 E]]%no_way_staging. rewrite Est in E. by injection E as -> _ _.
    + destruct (fail_batches_spec owner log0 code (wl_batches wl) answered before after w Hs Hc) as (bs' & w' & a & -> & Hs' & Hf & He).
      do 5 eexists. split_and!; [done..|]. intros code' _ [Hne [c2 E]]%no_way_staging. rewrite Est in E. by injection E as -> -> _.
Qed.
End Answers.

(** ** A path whose copies retire in order, with the codes of a script *)

Record CodedPath := mkCoded { cd_free : list StagingBuffer; cd_held : list StagingBuffer; cd_copies : list Z; cd_codes : list ResponseCode }.

#[export] Instance coded_path : CopyPath CodedPath := {
  open_device _ c := (Success, c);
  bind_device _ c := (Success, c);
  build_pool _ _ c := c;
  acquire_buffer c :=
    match cd_free c with
    | [] => (Success, no_staging, c)
    | b :: free => (Success, b, mkCoded free (if staging_valid b then b :: cd_held c else cd_held c) (cd_copies c) (cd_codes c))
    end;
  release_buffer b c := mkCoded (cd_free c ++ [b]) (remove_one b (cd_held c)) (cd_copies c) (cd_codes c);
  retire_buffer b _ c := mkCoded (cd_free c) (remove_one b (cd_held c)) (cd_copies c) (cd_codes c);
  issue _ b _ _ h c := mkCoded (cd_free c ++ [b]) (remove_one b (cd_held c)) (cd_copies c ++ [h]) (cd_codes c);
  pop_copy _ c :=
    match cd_copies c with
    | [] => (None, c)
    | h :: copies => (Some (h, default Success (head (cd_codes c))), mkCoded (cd_free c) (cd_held c) copies (tail (cd_codes c)))
    end;
  in_copy := cd_copies;
  held := cd_held }.

#[export] Instance coded_path_laws : CopyLaws CodedPath.
Proof.
  split; simpl; try done.
  - by intros d c code c' [= _ <-].
  - by intros d c code c' [= _ <-].
  - intros [[|b free] out copies codes] code b' c'; simpl; [by intros [= <- <- <-]|]. intros [= <- <- <-]. simpl. split; [done|].
    destruct (staging_valid b) eqn:Hv; [by rewrite decide_True|]. rewrite decide_False; [done|]. by intros [_ ?].
  - intros b c l Hl. split; [done|by apply remove_one_cons].
  - intros b code c l Hl. split; [done|by apply remove_one_cons].
  - intros d b bytes destination h c l Hl. split; [solve_Permutation|by apply remove_one_cons].
  - intros wait [free out [|h copies] codes] x c'; simpl; intros [= <- <-]; simpl; done.
Qed.

#[export] Instance coded_path_ordered : OrderedCopies CodedPath.
Proof.
  split; simpl; try done.
  - intros wait [free out [|h' copies] codes] h code c'; simpl; [done|]. intros [= <- <- <-]. by exists [], copies.
  - intros [free out copies codes] c'. simpl. intros [(d & code & [= _ <-])|[(d & code & [= _ <-])|[(code & b & E)|[(b & ->)|(wait & E)]]]]; try done.
    + destruct free as [|b0 free]; injection E as <- <- <-; done.
    + destruct copies; [by injection E as <-|done].
Qed.

(** Two buffers of 4 bytes for the two blocks of a batch whose requests are of 8 and 4 bytes; the second copy fails. *)
Definition second_copy_fails : CodedPath := mkCoded [mkStaging 4096 4 0 0; mkStaging 8192 4 1 0] [] [] [Success; DeviceTransferError].
Definition device_load : Workload := mkWorkload [example_batch] false (cuda 0) 0.
Definition reads_well (_ _ : nat) : outcome () := Ret ().
Definition runs_on (_ _ : nat) : bool := false.

Lemma example_readable : readable 4 4 example_batch.
Proof. split; try done; cbn; try (munfold; lia). repeat constructor; vm_compute; discriminate. Qed.

(** Both requests are failed: the second block is part of the first request, and the empty one behind it waits for it.  Without
    a copy path both are failed with the code of that, whatever the reader would read. *)
Lemma worker_execute_answers_witness :
  (∃ bs' w' c' fw', worker_execute 4 4 true reads_well runs_on device_load (mkFileSystemWorker false) example_world second_copy_fails =
      Some (Ret (), (bs', w', c'), fw') ∧
    Forall (λ t, t_finished t = true) (all_tasks bs') ∧ in_copy c' = [] ∧
    responses (responder w') = [mkResponse 7 0 0 DeviceTransferError; mkResponse 7 0 1 DeviceTransferError]) ∧
  ∃ bs' w' c' fw', (∀ reads stops, worker_execute 4 4 false reads stops device_load (mkFileSystemWorker false) example_world second_copy_fails =
      Some (Ret (), (bs', w', c'), fw')) ∧
    list_effect DeviceUnavailable (all_tasks (wl_batches device_load)) (requests example_world) (requests w').
Proof.
  assert (H : ∀ has_path, ∃ bs' w' c' fw',
    worker_execute 4 4 has_path reads_well runs_on device_load (mkFileSystemWorker false) example_world second_copy_fails =
      Some (Ret (), (bs', w', c'), fw') ∧ Forall (λ t, t_finished t = true) (all_tasks bs') ∧ quiet [] c' ∧
    (has_path = false →
      list_effect DeviceUnavailable (all_tasks (wl_batches device_load)) (requests example_world) (requests w') ∧
      ∀ reads stops, worker_execute 4 4 has_path reads stops device_load (mkFileSystemWorker false) example_world second_copy_fails =
        Some (Ret (), (bs', w', c'), fw'))).
  { intros has_path. destruct (worker_execute_answers 4 4 has_path reads_well runs_on (λ _, 7) [] []) with
      (answered := @nil nat) (before := @nil Batch) (after := @nil Batch) (w := example_world) (wl := device_load)
      (fw := mkFileSystemWorker false) (c := second_copy_fails) as (bs' & w' & c' & fw' & a & E & _ & Hf & Hq & Hno).
    - lia.
    - done.
    - done.
    - exact (Batch.fresh_ok _ _ _ example_fresh).
    - constructor; [apply example_readable|constructor].
    - reflexivity.
    - lia.
    - done.
    - by split.
    - exists bs', w', c', fw'. split; [exact E|]. split; [exact Hf|]. split; [exact Hq|]. intros Hp.
      destruct (Hno DeviceUnavailable) as (H1 & _ & H2); [reflexivity|by apply no_copy_path|]. exact (conj H1 H2). }
  split.
  - destruct (H true) as (bs' & w' & c' & fw' & E & Hf & [Hq _] & _). exists bs', w', c', fw'.
    split; [exact E|]. split; [exact Hf|]. split; [exact Hq|]. revert E. vm_compute. by intros [= <- <- <- <-].
  - destruct (H false) as (bs' & w' & c' & fw' & _ & _ & _ & Hno). destruct (Hno eq_refl) as [H1 H2].
    exists bs', w', c', fw'. exact (conj H2 H1).
Defined.

(** The first copy landed, and nothing else counts. *)
Lemma execute_batch_correct_witness :
  ∃ d, execute_batch 4 4 (reads_well 0) (runs_on 0) (cuda 0) true (mkDexec (mkExec example_batch example_world 0 0 []) second_copy_fails 0 Success 0 [] []) =
      Some (d, Ret ()) ∧ all_finished (d_exec d) ∧ x_trace (d_exec d) = [mkCall 4 4 104] ∧
    d_submitted d = [mkCall 4 4 104; mkCall 8 4 108] ∧ d_failure d = DeviceTransferError.
Proof.
  destruct (execute_batch_correct 4 (reads_well 0) (runs_on 0) (cuda 0) (λ _, 7) [] [] [] example_tasks (mkRange 4 8 12) example_store 104)
    with (sync_block := 4) (out := @nil StagingBuffer) (staging := true) (b := example_batch) (w := example_world) (c := second_copy_fails)
         (answered := @nil nat) (t := make_task 0 (make_info 4 4 0)) (ts := tail example_tasks) as (d & m & code & E & Hf & _).
  - lia.
  - simpl. lia.
  - reflexivity.
  - reflexivity.
  - reflexivity.
  - repeat constructor; vm_compute; discriminate.
  - done.
  - done.
  - lia.
  - reflexivity.
  - exact (Batch.fresh_ok _ _ _ example_fresh).
  - reflexivity.
  - reflexivity.
  - reflexivity.
  - reflexivity.
  - simpl. lia.
  - reflexivity.
  - vm_compute. reflexivity.
  - reflexivity.
  - reflexivity.
  - exists d. split; [exact E|]. split; [exact Hf|]. revert E. vm_compute. by intros [= <-].
Defined.
