(* ===== verification/WindowBringUp.v ===== *)
(** Bringing a window up: CapacityWorker::execute before the queue exists, with capacity and discard of both kinds
    of asynchronous worker (utils/capacity_worker, streamer/impl/async_io/async_io_worker,
    streamer/impl/object_storage_worker).

    What an engine factory, an allocation, a plugin and the copy path answer are arguments.  A workload that finds
    no window is answered here; the workers' models begin once there is one. *)

From S2P Require Import Prelude ResponseCode Text Env SharedQueue Task ChunkSplitter Batch Workload.
From S2P Require Import FsQueueDepth Alignment ScratchPool EngineFactory DirectPass StagingPool FsConfig Reporting Submission.

(** The answer of capacity in CapacityWorker::execute: a window, or the workload was discarded. *)
Inductive BroughtUp (A : Type) := Up (window : A) | Discarded (batches : list Batch).
Arguments Up {A}.
Arguments Discarded {A}.

(** ** Asynchronous file system reads *)

Definition DefaultCopyDepth : Z := 2.

(** What capacity leaves for the rest of the worker. *)
Record Window := mkWindow {
  wd_settings : AsyncIoSettings; wd_depth : Z; wd_buffers : Params; wd_copy_depth : Z; wd_scratch : option ScratchPool }.

Section Bring.
Context {R : Type} `{!Responder R}.

(** [st_told] counts the calls of the listener. *)
Record EngineState := mkEngineState { es_dead : bool; es_error : ResponseCode; es_told : nat }.

Definition engine_unknown : EngineState := mkEngineState false UnknownError 0.

Definition engine_is_dead (code : ResponseCode) (s : EngineState) : EngineState :=
  if es_dead s then s else mkEngineState true code (S (es_told s)).

Section AsyncIo.
Context (env : environment) (page_size : Z) (direct : bool) (block : Z) (register_buffers : bool).
Context (node_wide_depth : Z) (config : Config).
Context (factory : AsyncIoConfig → option Z).              (** the depth of the engine that was built *)
Context (memalign : Z → Z → option Z).

Definition device_slab_bytesize : outcome Z :=
  getenv_positive env (size_modulus - 1) "RUNAI_STREAMER_DEVICE_SLAB_BYTESIZE" 16777216 1.

Definition device_buffers (chunk_bytesize slab max_buffers : Z) : Params :=
  let buffer := staging_bytesize chunk_bytesize block direct in
  mkParams buffer (Z.max buffer slab) max_buffers (if direct then block else 1).

Definition capacity (first : Workload) (s : EngineState) : EngineState * outcome Window :=
  if bool_decide (wl_batches first = []) then (s, Throw (Code EmptyRequestError))
  else
    match host_async_io_settings env page_size config node_wide_depth with
    | Throw e => (s, Throw e)
    | Ret settings =>
        match factory (mkIoConfig (as_depth settings) (as_chunk_bytesize settings) block register_buffers) with
        | None => (engine_is_dead FsAsyncEngineError s, Throw (Code FsAsyncEngineError))
        | Some depth =>
            match device_slab_bytesize with
            | Throw e => (s, Throw e)
            | Ret slab =>
                match getenv_positive env (unsigned_modulus - 1) "RUNAI_STREAMER_INTERNAL_DEVICE_COPY_DEPTH" DefaultCopyDepth 0 with
                | Throw e => (s, Throw e)
                | Ret copy_depth =>
                    let buffers := device_buffers (as_chunk_bytesize settings) slab (add32 depth copy_depth) in
                    if negb direct then (s, Ret (mkWindow settings depth buffers copy_depth None))
                    else
                      match make_pool memalign (Z.to_nat depth) block with
                      | Ret pool => (s, Ret (mkWindow settings depth buffers copy_depth (Some pool)))
                      | Throw (Code _) => (engine_is_dead FsAsyncEngineError s, Throw (Code FsAsyncEngineError))
                      | Throw e => (s, Throw e)
                      end
                end
            end
        end
    end.

Definition discard (v : Workload) (s : EngineState) (w : world (R := R)) : outcome (list Batch * world (R := R)) :=
  let code := if bool_decide (wl_batches v = []) then EmptyRequestError else es_error s in
  report_batches code ∅ (wl_batches v) w.

(** execute while there is no queue; [allocated] is whether the queue could be allocated. *)
Definition bring_up (allocated : bool) (v : Workload) (s : EngineState) (w : world (R := R)) :
    outcome (BroughtUp Window * EngineState * world (R := R)) :=
  let '(s, window) := capacity v s in
  match window with
  | Ret window => if allocated then Ret (Up window, s, w)
                  else let! (bs, w) := discard v s w in Ret (Discarded bs, s, w)
  | Throw _ => let! (bs, w) := discard v s w in Ret (Discarded bs, s, w)
  end.
End AsyncIo.

(** ** Object storage reads *)

Definition CopyDepth : Z := 2.
Definition SaneWindowChunks : Z := 4096.
Definition unbounded : Z := size_modulus - 1.

(** [rs_client] is whether a client was built; the code of a build that failed is kept for discard. *)
Record ReaderState := mkReaderState {
  rs_client : bool; rs_error : ResponseCode; rs_chunk_bytesize : Z; rs_max_responses : Z; rs_window_chunks : Z }.

Definition no_reader : ReaderState := mkReaderState false Success default_chunk_bytesize 1 0.

Section ObjectStorage.
Context (env : environment) (config : Config).

Definition window_chunks (window_bytes chunk_bytesize : Z) : Z :=
  if window_bytes =? unbounded then unbounded else Z.max 1 (window_bytes / chunk_bytesize).

Definition object_capacity (built : outcome ()) (max_inflight_bytes : Z) (first : Workload) (s : ReaderState) : ReaderState * outcome Z :=
  if bool_decide (wl_batches first = []) then (s, Throw (Code EmptyRequestError))
  else
    let up (s : ReaderState) :=
      let window := window_chunks max_inflight_bytes (rs_chunk_bytesize s) in
      (mkReaderState (rs_client s) (rs_error s) (rs_chunk_bytesize s) (rs_max_responses s) window, Ret window) in
    if rs_client s then up s
    else
      let chunk := Z.max 1 (cf_s3_block_bytesize config) in
      match getenv_positive env (unsigned_modulus - 1) "RUNAI_STREAMER_INTERNAL_MAX_RESPONSES" 1 1 with
      | Throw e => (mkReaderState false (rs_error s) chunk (rs_max_responses s) (rs_window_chunks s), Throw e)
      | Ret max_responses =>
          match built with
          | Ret _ => up (mkReaderState true (rs_error s) chunk max_responses (rs_window_chunks s))
          | Throw (Code c) => (mkReaderState false c chunk max_responses (rs_window_chunks s), Throw (Code c))
          | Throw e => (mkReaderState false (rs_error s) chunk max_responses (rs_window_chunks s), Throw e)
          end
      end.

Definition discard_code (v : Workload) (s : ReaderState) : ResponseCode :=
  if bool_decide (wl_batches v = []) then EmptyRequestError
  else if negb (bool_decide (rs_error s = Success)) then rs_error s else UnknownError.

Definition object_discard (v : Workload) (s : ReaderState) (w : world (R := R)) : outcome (list Batch * ReaderState * world (R := R)) :=
  let! (bs, w) := report_batches (discard_code v s) ∅ (wl_batches v) w in
  Ret (bs, mkReaderState (rs_client s) Success (rs_chunk_bytesize s) (rs_max_responses s) (rs_window_chunks s), w).

Definition object_bring_up (built : outcome ()) (max_inflight_bytes : Z) (allocated : bool) (v : Workload) (s : ReaderState)
    (w : world (R := R)) : outcome (BroughtUp Z * ReaderState * world (R := R)) :=
  let '(s, window) := object_capacity built max_inflight_bytes v s in
  match window with
  | Ret window => if allocated then Ret (Up window, s, w)
                  else let! (bs, s, w) := object_discard v s w in Ret (Discarded bs, s, w)
  | Throw _ => let! (bs, s, w) := object_discard v s w in Ret (Discarded bs, s, w)
  end.

(** staging_pool_for, while there is no pool; [opened] and [bound] are the copy path's answers. *)
Definition staging_params (s : ReaderState) : Params :=
  let window := if rs_window_chunks s =? unbounded then 0 else rs_window_chunks s in
  mkParams (rs_chunk_bytesize s) (rs_chunk_bytesize s) (add32 (wrap32 (Z.min window SaneWindowChunks)) CopyDepth) 1.

Definition staging_pool_for (has_copy_path : bool) (opened bound : ResponseCode) (s : ReaderState) : ResponseCode * option Params :=
  if negb has_copy_path then (DeviceUnavailable, None)
  else if negb (bool_decide (opened = Success)) then (opened, None)
  else if negb (bool_decide (bound = Success)) then (bound, None)
  else (Success, Some (staging_params s)).
End ObjectStorage.
End Bring.

(** ** A workload that finds no window is answered *)

(** What every use of the state of the engine keeps: discard has a failure to report, and the listener is told once,
    when the engine dies. *)
Definition engine_state_ok (s : EngineState) : Prop := es_error s ≠ Success ∧ es_told s = (if es_dead s then 1 else 0)%nat.

Lemma engine_unknown_ok : engine_state_ok engine_unknown.
Proof. by split. Qed.

Lemma engine_is_dead_ok code s : code ≠ Success → engine_state_ok s →
  engine_state_ok (engine_is_dead code s) ∧ es_dead (engine_is_dead code s) = true.
Proof.
  intros Hc Hs. unfold engine_is_dead. destruct (es_dead s) eqn:Hd; [by split|]. destruct Hs as [He Ht].
  rewrite Hd in Ht. split; [split; [done|]|done]. cbn. by rewrite Ht.
Qed.

(** The window the rest of the worker can be built on. *)
Record window_ok (direct : bool) (block : Z) (enforced : Config) (built : AsyncIoConfig → option Z) (register : bool)
    (w : Window) : Prop := {
  wk_depth : built (mkIoConfig (as_depth (wd_settings w)) (as_chunk_bytesize (wd_settings w)) block register) = Some (wd_depth w);
  wk_asked : MinDepth <= as_depth (wd_settings w) <= MaxDepth;
  wk_chunk : 0 < as_chunk_bytesize (wd_settings w) <= cf_fs_async_chunk_bytesize enforced;
  wk_buffer : as_chunk_bytesize (wd_settings w) <= buffer_bytesize (wd_buffers w) <= slab_bytesize (wd_buffers w);
  wk_block : direct = true → (block | buffer_bytesize (wd_buffers w)) ∧
             as_chunk_bytesize (wd_settings w) + block - 1 <= buffer_bytesize (wd_buffers w) ∧ alignment (wd_buffers w) = block;
  wk_buffers : is_unsigned (wd_depth w + wd_copy_depth w) → wd_depth w <= max_buffers (wd_buffers w);
  wk_scratch : if direct then ∃ pool, wd_scratch w = Some pool ∧ length (free pool) = Z.to_nat (wd_depth w)
               else wd_scratch w = None }.

(** A buffer holds the chunk and the room an aligned read of it needs at both ends. *)
Lemma staging_bytesize_fits chunk block direct :
  0 < chunk → 1 <= block → chunk + 2 * block <= 2 ^ 63 →
  chunk <= staging_bytesize chunk block direct ∧
  (direct = true → (block | staging_bytesize chunk block direct) ∧ chunk + block - 1 <= staging_bytesize chunk block direct).
Proof.
  intros Hc Hb Hs. unfold staging_bytesize. destruct direct; cbn [negb]; [|split; [lia|done]].
  assert (E1 : chunk ⊕ block ⊖ 1 = chunk + block - 1) by (unwrap; lia). rewrite E1.
  assert (E2 : chunk + block - 1 ⊕ block ⊖ 1 = chunk + block - 1 + block - 1) by (unwrap; lia). rewrite E2.
  set (worst := chunk + block - 1). set (q := (worst + block - 1) / block).
  assert (worst <= q * block <= worst + block - 1).
  { pose proof (Z.div_mod (worst + block - 1) block ltac:(lia)) as Hq. pose proof (Z.mod_pos_bound (worst + block - 1) block ltac:(lia)).
    subst q. lia. }
  assert (E3 : q ⊗ block = q * block) by (unwrap; subst worst; lia). rewrite E3.
  split; [subst worst; lia|]. intros _. split; [by exists q|]. subst worst. lia.
Qed.

Lemma make_pool_slots memalign count blk pool : make_pool memalign count blk = Ret pool → length (free pool) = count.
Proof.
  unfold make_pool. destruct (decide (count = 0%nat)) as [->|Hn]; [by intros [= <-]|].
  destruct (memalign _ _); [|done]. intros [= <-]. cbn. unfold slices. by rewrite length_map, length_seq.
Qed.

Section Theorems.
Context (env : environment) (page_size : Z) (direct : bool) (block : Z) (register : bool) (node_wide_depth : Z).
Context (config : Config) (factory : AsyncIoConfig → option Z) (memalign : Z → Z → option Z) (enforced : bool).
Context (Hconfig : config_ok enforced config) (Hchunk : cf_fs_async_chunk_bytesize config <= 2 ^ 62).
Context (Hblock : 1 <= block <= 2 ^ 61) (Hnode : is_unsigned node_wide_depth) (Hpage : 0 < max_read_bytesize page_size).
Context (Hfactory : ∀ c depth, factory c = Some depth → is_unsigned depth).

Let capacity := capacity env page_size direct block register node_wide_depth config factory memalign.

(** capacity leaves a window that fits, or an error and a state discard can report. *)
Lemma capacity_spec first s : engine_state_ok s →
  ∃ s' out, capacity first s = (s', out) ∧ engine_state_ok s' ∧
    match out with
    | Ret w => s' = s ∧ window_ok direct block config factory register w
    | Throw _ => s' = s ∨ (es_dead s' = true ∧ (es_dead s = false → es_error s' = FsAsyncEngineError))
    end.
Proof.
  intros Hs. unfold capacity, WindowBringUp.capacity.
  assert (Hdead : engine_state_ok (engine_is_dead FsAsyncEngineError s) ∧ (es_dead (engine_is_dead FsAsyncEngineError s) = true ∧
    (es_dead s = false → es_error (engine_is_dead FsAsyncEngineError s) = FsAsyncEngineError))).
  { destruct (engine_is_dead_ok FsAsyncEngineError s) as [H1 H2]; [done|done|]. split; [done|]. split; [done|].
    intros Hd. unfold engine_is_dead. by rewrite Hd. }
  destruct Hdead as [Hdead Hcode].
  destruct (bool_decide _); [by eexists _, _; split; [reflexivity|]; split; [done|left]|].
  destruct (host_async_io_settings _ _ _ _) as [st|e] eqn:Hst; [|by eexists _, _; split; [reflexivity|]; split; [done|left]].
  destruct (factory _) as [depth|] eqn:Hf; [|by eexists _, _; split; [reflexivity|]; split; [done|right]].
  destruct (device_slab_bytesize env) as [slab|e]; [|by eexists _, _; split; [reflexivity|]; split; [done|left]].
  destruct (getenv_positive _ _ _ _ _) as [copy|e] eqn:Hcp; [|by eexists _, _; split; [reflexivity|]; split; [done|left]].
  assert (Hok : ∀ scratch, (if direct then ∃ pool, scratch = Some pool ∧ length (free pool) = Z.to_nat depth else scratch = None) →
    window_ok direct block config factory register
      (mkWindow st depth (device_buffers direct block (as_chunk_bytesize st) slab (add32 depth copy)) copy scratch)).
  { intros scratch Hscratch.
    destruct (async_io_settings_bounds env enforced config node_wide_depth (max_read_bytesize page_size) st)
      as (Hd & _ & _ & _ & Hc1 & Hc2); [done|done|done|done|].
    apply getenv_positive_bounds in Hcp; [|done].
    destruct (staging_bytesize_fits (as_chunk_bytesize st) block direct) as [Hfit Hal]; [lia|lia|lia|].
    split; cbn; [done|done|lia|lia| |intros Hu; apply Hfactory in Hf; rewrite add32_small by done; lia|done].
    intros ->. destruct (Hal eq_refl). done. }
  destruct direct eqn:Ed; cbn [negb].
  - destruct (make_pool _ _ _) as [pool|e] eqn:Hp.
    + eexists _, _. split; [done|]. split; [done|]. split; [done|]. apply Hok. exists pool. split; [done|].
      by eapply make_pool_slots.
    + assert (e = Code UnknownError) as ->.
      { unfold make_pool in Hp. destruct (decide _); [done|]. destruct (memalign _ _); congruence. }
      by eexists _, _; split; [reflexivity|]; split; [done|right].
  - eexists _, _. split; [done|]. split; [done|]. split; [done|]. by apply Hok.
Qed.

Section Answers.
Context {R : Type} `{!Responder R}.
Context (owner : nat → Z) (log0 : list Response).

(** C36: Whatever bringing the window up meets - settings that cannot be read, an engine that cannot be built, no
    memory for the scratch buffers or the queue - execute returns: there is a window whose buffers hold a chunk, are
    cut at the block of a direct mount, and are at least one per read in flight, or every task of the workload has
    been answered and none twice. The listener is told of a dead engine once, and only then. *)
Theorem window_or_answers allocated v s answered (x : world (R := R)) :
  engine_state_ok s → system_ok owner log0 answered (wl_batches v) x →
  ∃ out s' x',
    bring_up env page_size direct block register node_wide_depth config factory memalign allocated v s x = Ret (out, s', x') ∧
    engine_state_ok s' ∧ (es_dead s = true → es_dead s' = true) ∧
    match out with
    | Up w => x' = x ∧ s' = s ∧ window_ok direct block config factory register w
    | Discarded bs => Forall all_done bs ∧ ∃ answered', system_ok owner log0 answered' bs x'
    end.
Proof.
  intros Hs Hx. destruct (capacity_spec v s Hs) as (s' & out & Hc & Hs' & Hout).
  assert (Hd : es_dead s = true → es_dead s' = true) by (destruct out; [by destruct Hout as [-> _]|by destruct Hout as [->|[? _]]]).
  assert (Hdis : ∃ bs x' answered', discard v s' x = Ret (bs, x') ∧ Forall all_done bs ∧ system_ok owner log0 answered' bs x').
  { unfold discard. set (code := if bool_decide _ then _ else _).
    destruct (report_batches_spec owner log0 code ∅ (wl_batches v) answered [] [] x) as (bs & x' & a' & Hr & Hdone & Hsys).
    - by rewrite app_nil_r.
    - done.
    - left. subst code. destruct (bool_decide _); [done|]. apply Hs'.
    - exists bs, x', a'. by rewrite app_nil_r in Hsys. }
  unfold bring_up. unfold capacity in Hc. rewrite Hc. destruct Hdis as (bs & x' & a' & Hr & Hdone & Hsys).
  destruct out as [w|e]; [destruct allocated|].
  - by eexists _, _, _.
  - rewrite Hr. cbn [obind]. exists (Discarded bs), s', x'. by eauto 10.
  - rewrite Hr. cbn [obind]. exists (Discarded bs), s', x'. by eauto 10.
Qed.
End Answers.
End Theorems.

(** ** The window of an object storage worker *)

Definition reader_ok (s : ReaderState) : Prop := 1 <= rs_chunk_bytesize s ∧ 1 <= rs_max_responses s.

Lemma no_reader_discards_unknown v : wl_batches v ≠ [] → discard_code v no_reader = UnknownError.
Proof. intros Hv. unfold discard_code. by rewrite bool_decide_false. Qed.

Lemma window_chunks_spec bytes chunk : 0 <= bytes <= unbounded → 1 <= chunk →
  1 <= window_chunks bytes chunk <= unbounded ∧
  (bytes ≠ unbounded → chunk <= bytes → window_chunks bytes chunk * chunk <= bytes < (window_chunks bytes chunk + 1) * chunk).
Proof.
  intros Hb Hc. unfold window_chunks. destruct (Z.eqb_spec bytes unbounded) as [->|Hne]; [unfold unbounded; mlia|].
  pose proof (Z.div_mod bytes chunk ltac:(lia)) as Hd. pose proof (Z.mod_pos_bound bytes chunk ltac:(lia)) as Hm.
  assert (0 <= bytes / chunk <= bytes) by (split; [apply Z.div_pos; lia|apply Z.div_le_upper_bound; nia]).
  split; [unfold unbounded in *; mlia|]. intros _ Hcb. assert (1 <= bytes / chunk) by (apply Z.div_le_lower_bound; lia).
  rewrite Z.max_r by lia. lia.
Qed.

(** The pool of a worker has the copies' buffers and one per chunk of the window, up to the guard; the sum of two
    unsigned counts does not wrap. *)
Theorem staging_pool_bounded s : 1 <= rs_window_chunks s <= unbounded →
  let p := staging_params s in
  CopyDepth <= max_buffers p <= SaneWindowChunks + CopyDepth ∧
  (rs_window_chunks s <= SaneWindowChunks → max_buffers p = rs_window_chunks s + CopyDepth) ∧
  (rs_window_chunks s = unbounded → max_buffers p = CopyDepth).
Proof.
  intros Hw. unfold staging_params, SaneWindowChunks, CopyDepth, unbounded in *. cbn [max_buffers].
  destruct (Z.eqb_spec (rs_window_chunks s) (size_modulus - 1)) as [E|E].
  - rewrite E. split; [vm_compute; split; congruence|]. split; [mlia|done].
  - set (n := Z.min _ _). assert (0 <= n <= 4096) by (subst n; mlia). rewrite wrap32_small by mlia. rewrite add32_small by mlia.
    split; [lia|]. split; [intros; subst n; lia|done].
Qed.

Section Object.
Context (env : environment) (config : Config).

Lemma object_capacity_spec built bytes first s :
  reader_ok s → 0 <= bytes <= unbounded → (rs_client s = false → rs_error s = Success) →
  ∃ s' out, object_capacity env config built bytes first s = (s', out) ∧ reader_ok s' ∧
    match out with
    | Ret window => rs_client s' = true ∧ rs_window_chunks s' = window ∧ 1 <= window <= unbounded ∧
                    (bytes ≠ unbounded → rs_chunk_bytesize s' <= bytes → window * rs_chunk_bytesize s' <= bytes)
    | Throw _ => rs_client s' = rs_client s ∧ (wl_batches first ≠ [] → rs_client s = false ∧
                 (discard_code first s' = UnknownError ∨ ∃ c, built = Throw (Code c) ∧ discard_code first s' = c))
    end.
Proof.
  intros [Hc Hm] Hb He. unfold object_capacity. destruct (bool_decide_reflect (wl_batches first = [])) as [Hv|Hv].
  { eexists _, _. split; [reflexivity|]. by split. }
  assert (Hup : ∀ client chunk responses, 1 <= chunk → 1 <= responses →
    let window := window_chunks bytes chunk in
    reader_ok (mkReaderState client (rs_error s) chunk responses window) ∧ 1 <= window <= unbounded ∧
    (bytes ≠ unbounded → chunk <= bytes → window * chunk <= bytes)).
  { intros client chunk responses Hk Hr window. destruct (window_chunks_spec bytes chunk Hb Hk) as [Hw Hf]. split; [by split|].
    split; [done|]. intros H1 H2. by apply Hf. }
  destruct (rs_client s) eqn:Ec; cbn zeta.
  { destruct (Hup true (rs_chunk_bytesize s) (rs_max_responses s) Hc Hm) as (H1 & H2 & H3).
    eexists _, _. split; [reflexivity|]. split; [done|]. split; [done|]. by split. }
  specialize (He eq_refl).
  assert (Hk : 1 <= Z.max 1 (cf_s3_block_bytesize config)) by lia.
  assert (Hunknown : ∀ chunk responses window, discard_code first (mkReaderState false Success chunk responses window) = UnknownError).
  { intros. unfold discard_code. by rewrite bool_decide_false. }
  destruct (getenv_positive _ _ _ _ _) as [responses|e] eqn:Hp.
  - apply getenv_positive_bounds in Hp; [|done]. destruct built as [[]|[c| |]].
    + destruct (Hup true _ responses Hk ltac:(lia)) as (H1 & H2 & H3).
      eexists _, _. split; [reflexivity|]. split; [done|]. split; [done|]. by split.
    + eexists _, _. split; [reflexivity|]. split; [split; cbn; lia|]. split; [done|]. intros _. split; [done|].
      unfold discard_code. rewrite bool_decide_false by done. cbn. destruct (decide (c = Success)) as [->|Hne]; [by left|].
      right. exists c. by rewrite bool_decide_false.
    + eexists _, _. split; [reflexivity|]. split; [split; cbn; lia|]. split; [done|]. intros _. split; [done|]. left. by rewrite He.
    + eexists _, _. split; [reflexivity|]. split; [split; cbn; lia|]. split; [done|]. intros _. split; [done|]. left. by rewrite He.
  - eexists _, _. split; [reflexivity|]. split; [split; cbn; lia|]. split; [done|]. intros _. split; [done|]. left. by rewrite He.
Qed.
End Object.

(** What a worker keeps between two workloads while it has no window. *)
Definition reader_between (s : ReaderState) : Prop := reader_ok s ∧ rs_error s = Success.

Section ObjectAnswers.
Context {R : Type} `{!Responder R}.
Context (env : environment) (config : Config) (owner : nat → Z) (log0 : list Response).

(** A workload that finds no client is answered, with the code of the build when there is one, and leaves nothing
    behind: the next one tries again. The window a client brings up holds at least one chunk and never more bytes than
    the plugin takes, unless a single chunk is already more. *)
Theorem client_window_or_answers built bytes allocated v s answered (x : world (R := R)) :
  reader_between s → 0 <= bytes <= unbounded → system_ok owner log0 answered (wl_batches v) x → (∀ c, built = Throw (Code c) → c ≠ Success) →
  ∃ out s' x', object_bring_up env config built bytes allocated v s x = Ret (out, s', x') ∧ reader_between s' ∧
    match out with
    | Up window => x' = x ∧ rs_client s' = true ∧ rs_window_chunks s' = window ∧ 1 <= window <= unbounded ∧
                   (bytes ≠ unbounded → rs_chunk_bytesize s' <= bytes → window * rs_chunk_bytesize s' <= bytes)
    | Discarded bs => Forall all_done bs ∧ ∃ answered', system_ok owner log0 answered' bs x'
    end.
Proof.
  intros [Hs He] Hb Hx Hbuilt.
  destruct (object_capacity_spec env config built bytes v s Hs Hb (λ _, He)) as (s1 & out & Hc & Hs1 & Hout).
  assert (Hcode : discard_code v s1 ≠ Success).
  { unfold discard_code. destruct (bool_decide _); [done|]. by destruct (bool_decide_reflect (rs_error s1 = Success)). }
  assert (Hdis : ∃ bs s' x' answered', object_discard v s1 x = Ret (bs, s', x') ∧ reader_between s' ∧ Forall all_done bs ∧
                   system_ok owner log0 answered' bs x').
  { destruct (report_batches_spec owner log0 (discard_code v s1) ∅ (wl_batches v) answered [] [] x) as (bs & x' & a' & Hr & Hd & Hsys).
    - by rewrite app_nil_r.
    - done.
    - by left.
    - unfold object_discard. rewrite Hr. eexists _, _, _, _. split; [reflexivity|]. split; [by split|]. split; [done|].
      by rewrite app_nil_r in Hsys. }
  unfold object_bring_up. rewrite Hc. destruct Hdis as (bs & s2 & x' & a' & Hr & Hs2 & Hd & Hsys).
  destruct out as [window|e]; [destruct allocated|].
  - eexists _, _, _. split; [reflexivity|]. split; [|by split]. split; [done|].
    unfold object_capacity in Hc. clear -Hc He. repeat case_match; simplify_eq; done.
  - rewrite Hr. cbn [obind]. eexists _, _, _. split; [reflexivity|]. split; [done|]. by eauto.
  - rewrite Hr. cbn [obind]. eexists _, _, _. split; [reflexivity|]. split; [done|]. by eauto.
Qed.
End ObjectAnswers.

(** ** Examples *)
Module Windows.
Definition config0 : Config := mkConfig 16 8 8388608 2097152 8388608 default_fs_strategy_candidates (of_value 64) [txt "nfs"] true 0.
Definition load : Workload := mkWorkload [example_batch] false host 0.

(** A direct engine of the depth that was asked for: buffers of 8 MiB and two blocks, two more than the engine's depth. *)
Example direct_window :
  let factory c := Some (ic_depth c) in
  match bring_up ∅ 4096 true 4096 true 64 config0 factory (λ _ _, Some 65536) true load engine_unknown example_world with
  | Ret (Up w, s, _) => wd_depth w = 64 ∧ wd_buffers w = mkParams 8392704 16777216 66 4096 ∧ s = engine_unknown
  | _ => False
  end.
Proof. vm_compute. done. Qed.

(** A second workload on a host whose engine cannot be built: the listener was told the first time. *)
Lemma window_or_answers_witness : ∃ bs s' w',
  bring_up ∅ 4096 true 4096 true 64 config0 (λ _, None) (λ _ _, Some 65536) true load (engine_is_dead FsAsyncEngineError engine_unknown)
    example_world = Ret (Discarded bs, s', w') ∧
  Forall all_done bs ∧ es_told s' = 1%nat ∧ responses (responder w') = [mkResponse 7 0 0 FsAsyncEngineError; mkResponse 7 0 1 FsAsyncEngineError].
Proof.
  unshelve epose proof (window_or_answers ∅ 4096 true 4096 true 64 config0 (λ _, None) (λ _ _, Some 65536) true _ _ _ _ _ _
    (λ _, 7) [] true load (engine_is_dead FsAsyncEngineError engine_unknown) [] example_world _ _) as (out & s' & x' & E & Hs & Hd & Hout).
  - split; cbn; try done; repeat constructor; done.
  - done.
  - done.
  - done.
  - vm_compute. reflexivity.
  - done.
  - by split.
  - exact (Batch.fresh_ok _ _ _ example_fresh).
  - destruct out as [w|bs].
    + exfalso. revert E. vm_compute. discriminate.
    + exists bs, s', x'. split; [exact E|]. destruct Hout as [Hdone _]. split; [exact Hdone|].
      destruct Hs as [_ Ht]. split; [by rewrite Ht, Hd|]. revert E. vm_compute. by intros [= _ _ <-].
Defined.

(** The plugin is missing; the next workload finds a client whose window is 64 MiB of 8 MiB chunks. *)
Lemma client_window_or_answers_witness : ∃ bs s' w',
  object_bring_up ∅ config0 (Throw (Code S3NotSupported)) 67108864 true load no_reader example_world = Ret (Discarded bs, s', w') ∧
  Forall all_done bs ∧ object_capacity ∅ config0 (Ret ()) 67108864 load s' = (mkReaderState true Success 8388608 1 8, Ret 8).
Proof.
  destruct (client_window_or_answers ∅ config0 (λ _ : nat, 7) [] (Throw (Code S3NotSupported)) 67108864 true load no_reader
    (@nil nat) example_world) as (out & s' & x' & E & Hs & Hout).
  - by split.
  - done.
  - exact (Batch.fresh_ok _ _ _ example_fresh).
  - by intros c [= <-].
  - destruct out as [w|bs].
    + exfalso. revert E. vm_compute. discriminate.
    + exists bs, s', x'. split; [exact E|]. split; [apply Hout|]. revert E. vm_compute. by intros [= _ <- _].
Defined.
End Windows.
