(* ===== verification/Semver.v ===== *)
(** Version numbers (utils/semver): the check of the C library a plugin makes before it opens. *)

From S2P Require Import Prelude ResponseCode Text.

(** Three unsigned short numbers. *)
Record Semver := mkSemver { major : Z; minor : Z; patch : Z }.

Definition short_modulus : Z := 65536.
Definition wrap16 (n : Z) : Z := n mod short_modulus.

Definition dot : ascii := "."%char.

(** std::getline over a stream: nothing is read behind a last separator. *)
Fixpoint drop_last_empty (l : list text) : list text :=
  match l with
  | [] => []
  | [e] => if bool_decide (e = []) then [] else [e]
  | e :: l => e :: drop_last_empty l
  end.

Definition semver_stoul (str : text) : outcome Z :=
  let! r := Text.stoul str in
  ASSERT (r.2 =? length str)%nat ;;! Ret r.1.

Definition part (split : list text) (i : nat) : outcome Z :=
  match split !! i with Some e => semver_stoul e | None => Ret 0 end.

Definition semver_of_text (str : text) : outcome Semver :=
  let rest := drop_while (λ c, negb (is_digit c)) str in
  ASSERT (0 <? length rest)%nat ;;!
  let nstr := take_while (λ c, is_digit c || bool_decide (c = dot)) rest in
  let split := drop_last_empty (split_on dot nstr) in
  ASSERT ((0 <? length split) && (length split <=? 3))%nat ;;!
  let! x := part split 0 in
  let! y := part split 1 in
  let! z := part split 2 in
  Ret (mkSemver (wrap16 x) (wrap16 y) (wrap16 z)).

(** operator<< *)
Definition print_semver (v : Semver) : text := print_Z (major v) ++ dot :: print_Z (minor v) ++ dot :: print_Z (patch v).

Definition semver_eqb (lhs rhs : Semver) : bool :=
  (major lhs =? major rhs) && (minor lhs =? minor rhs) && (patch lhs =? patch rhs).

Definition semver_gtb (lhs rhs : Semver) : bool :=
  if negb (major lhs =? major rhs) then major lhs >? major rhs
  else if negb (minor lhs =? minor rhs) then minor lhs >? minor rhs
  else patch lhs >? patch rhs.

Definition semver_geb (lhs rhs : Semver) : bool := semver_eqb lhs rhs || semver_gtb lhs rhs.
Definition semver_leb (lhs rhs : Semver) : bool := negb (semver_gtb lhs rhs).

(** ** Order and text *)

Definition is_short (n : Z) : Prop := 0 <= n < short_modulus.
Definition version_ok (v : Semver) : Prop := is_short (major v) ∧ is_short (minor v) ∧ is_short (patch v).

(** The number a version stands for. *)
Definition rank (v : Semver) : Z := (major v * short_modulus + minor v) * short_modulus + patch v.

(** The comparisons are those of one number. *)
Theorem comparisons_are_of_the_rank lhs rhs : version_ok lhs → version_ok rhs →
  semver_eqb lhs rhs = (rank lhs =? rank rhs) ∧ semver_gtb lhs rhs = (rank lhs >? rank rhs) ∧
  semver_geb lhs rhs = (rank lhs >=? rank rhs) ∧ semver_leb lhs rhs = (rank lhs <=? rank rhs).
Proof.
  destruct lhs as [a b c], rhs as [a' b' c']. unfold version_ok, is_short, short_modulus, rank, short_modulus. simpl. intros (Ha & Hb & Hc) (Ha' & Hb' & Hc').
  assert (Heq : semver_eqb (mkSemver a b c) (mkSemver a' b' c') = ((a * 65536 + b) * 65536 + c =? (a' * 65536 + b') * 65536 + c')).
  { unfold semver_eqb. simpl. apply eq_true_iff_eq. rewrite !andb_true_iff, !Z.eqb_eq. lia. }
  assert (Hgt : semver_gtb (mkSemver a b c) (mkSemver a' b' c') = ((a * 65536 + b) * 65536 + c >? (a' * 65536 + b') * 65536 + c')).
  { unfold semver_gtb. simpl. destruct (Z.eqb_spec a a') as [->|]; simpl.
    - destruct (Z.eqb_spec b b') as [->|]; simpl; apply eq_true_iff_eq; rewrite !Z.gtb_lt; lia.
    - apply eq_true_iff_eq. rewrite !Z.gtb_lt. lia. }
  split; [done|]. split; [done|]. unfold semver_geb, semver_leb. rewrite Heq, Hgt.
  split; apply eq_true_iff_eq; rewrite ?orb_true_iff, ?negb_true_iff, ?Z.eqb_eq, ?Z.gtb_lt, ?Z.geb_le, ?Z.leb_le.
  - lia.
  - rewrite Z.gtb_ltb, Z.ltb_ge. lia.
Qed.

Lemma digits_not_dot t : forallb is_digit t = true → dot ∉ t.
Proof. intros H Hin. rewrite forallb_forall in H. specialize (H dot (proj1 (list_elem_of_In _ _) Hin)). by vm_compute in H. Qed.

Lemma split_three x y z : dot ∉ x → dot ∉ y → dot ∉ z → split_on dot (x ++ dot :: y ++ dot :: z) = [x; y; z].
Proof. intros Hx Hy Hz. by rewrite (split_on_app _ x), (split_on_app _ y), split_on_single. Qed.

Lemma drop_while_none_head p x rest : x ≠ [] → match x with c :: _ => p c = false | [] => True end → drop_while p (x ++ rest) = x ++ rest.
Proof. destruct x as [|c x]; [done|]. intros _ Hc. by apply drop_while_head. Qed.

Lemma print_Z_digits n : is_size n → forallb is_digit (print_Z n) = true ∧ print_Z n ≠ [] ∧ stoul (print_Z n) = Ret (n, length (print_Z n)).
Proof. intros H. destruct (print_Z_spec n H) as (H1 & H2 & H3). split; [done|]. split; [done|]. by apply stoul_print. Qed.

Lemma semver_stoul_print n : is_size n → semver_stoul (print_Z n) = Ret n.
Proof. intros H. unfold semver_stoul. destruct (print_Z_digits n H) as (_ & _ & ->). simpl. by rewrite Nat.eqb_refl. Qed.

Lemma numbers_and_dots t : forallb is_digit t = true → forallb (λ c, is_digit c || bool_decide (c = dot)) t = true.
Proof. induction t as [|c t IH]; [done|]. simpl. intros [-> ?]%andb_true_iff. simpl. auto. Qed.

Definition reads (t : text) (n : Z) : Prop := forallb is_digit t = true ∧ t ≠ [] ∧ semver_stoul t = Ret n.

Lemma semver_of_parts name x y z a b c : forallb (λ c, negb (is_digit c)) name = true → reads x a → reads y b → reads z c →
  semver_of_text (name ++ x ++ dot :: y ++ dot :: z) = Ret (mkSemver (wrap16 a) (wrap16 b) (wrap16 c)).
Proof.
  intros Hname (Dx & Nx & Sx) (Dy & Ny & Sy) (Dz & Nz & Sz). unfold semver_of_text. rewrite drop_while_app by done.
  rewrite drop_while_none_head; [|done|by destruct x as [|d t]; [|simpl in Dx; apply andb_true_iff in Dx as [-> _]]].
  rewrite (take_while_full (λ c, is_digit c || bool_decide (c = dot))).
  - rewrite (proj2 (Nat.ltb_lt _ _)) by (rewrite !length_app; simpl; lia). cbn [obind].
    rewrite split_three by (by apply digits_not_dot). cbn [drop_last_empty]. rewrite bool_decide_false by done.
    unfold part. simpl. by rewrite Sx, Sy, Sz.
  - rewrite !forallb_app. simpl. rewrite !forallb_app. simpl. by rewrite !numbers_and_dots.
Qed.

(** A version is read back from any text that begins without a digit and goes on with what operator<< prints. *)
Theorem semver_roundtrip v name : version_ok v → forallb (λ c, negb (is_digit c)) name = true →
  semver_of_text (name ++ print_semver v) = Ret v.
Proof.
  intros (Ha & Hb & Hc) Hname. assert (Hr : ∀ n, is_short n → reads (print_Z n) n).
  { unfold is_short, short_modulus. intros n Hn. assert (is_size n) by mlia. destruct (print_Z_digits n) as (H1 & H2 & _); [done|].
    split; [done|]. split; [done|]. by apply semver_stoul_print. }
  unfold print_semver. rewrite (semver_of_parts name _ _ _ (major v) (minor v) (patch v)) by auto.
  unfold wrap16. rewrite !Z.mod_small by done. by destruct v.
Qed.

Example glibc_version : semver_of_text (txt "glibc 2.31") = Ret (mkSemver 2 31 0).
Proof. vm_compute. done. Qed.

(** A part past 65535 is cut to an unsigned short, so a version can be read as an older one. *)
Example narrowed : semver_of_text (txt "2.65536.1") = Ret (mkSemver 2 0 1).
Proof. vm_compute. done. Qed.
