(* ===== verification/S3Client.v ===== *)
(** The client of the S3 plugin (s3/client, s3/client_configuration): its endpoint, its credentials, one ranged request
    per read with one response, and the listing of a prefix.

    What the SDK answers - defaults, profiles, request outcomes and pages - is an argument, as is the window derived in
    floating point from the target throughput. *)

From stdpp Require Import gmap.
From S2P Require Import Prelude ResponseCode Text Env SharedQueue StorageUri Credentials BackendApi ClientMgr.

(** ** Endpoints *)

Inductive Scheme := HTTPS | HTTP.

#[export] Instance Scheme_eq_dec : EqDecision Scheme.
Proof. solve_decision. Defined.

Fixpoint same_letters (str prefix : text) {struct prefix} : bool :=
  match prefix, str with
  | [], _ => true
  | _ :: _, [] => false
  | p :: prefix, c :: str => bool_decide (to_lower c = to_lower p) && same_letters str prefix
  end.

Definition starts_with_ci (str prefix : text) : bool :=
  if (length str <? length prefix)%nat then false else same_letters str prefix.

Record EndpointParseResult := mkEndpoint { ep_host : text; ep_scheme : option Scheme }.

Definition https_prefix : text := txt "https://".
Definition http_prefix : text := txt "http://".

Definition parse_endpoint_scheme (endpoint : text) : EndpointParseResult :=
  if starts_with_ci endpoint https_prefix then mkEndpoint (drop (length https_prefix) endpoint) (Some HTTPS)
  else if starts_with_ci endpoint http_prefix then mkEndpoint (drop (length http_prefix) endpoint) (Some HTTP)
  else mkEndpoint endpoint None.

(** ** Failed requests *)

(** Aws::Client::CoreErrors, the ones that are told apart. *)
Inductive CoreErrors :=
  INVALID_PARAMETER_VALUE | MISSING_PARAMETER | REQUEST_TIME_TOO_SKEWED | CLIENT_SIGNING_FAILURE | USER_CANCELLED | OtherError.

Definition application_retryable_error (aws_should_retry : bool) (http_status : Z) (error_type : CoreErrors) : bool :=
  if http_status <? 0 then
    match error_type with
    | INVALID_PARAMETER_VALUE | MISSING_PARAMETER | REQUEST_TIME_TOO_SKEWED | CLIENT_SIGNING_FAILURE | USER_CANCELLED => false
    | OtherError => true
    end
  else if http_status >=? 500 then true
  else if (http_status >=? 400) && (http_status <? 500) then (http_status =? 408) || (http_status =? 429)
  else aws_should_retry.

(** ** Credentials *)

Record S3ClientBase := mkBase {
  cb_key : option text; cb_secret : option text; cb_token : option text; cb_region : option text;
  cb_endpoint : option text; cb_chunk_bytesize : Z }.

Definition read_param (param : text * option text) (b : S3ClientBase) : S3ClientBase :=
  let '(key, value) := param in
  let '(mkBase k s t r e c) := b in
  if bool_decide (key = ACCESS_KEY_ID_KEY) then mkBase value s t r e c
  else if bool_decide (key = SECRET_ACCESS_KEY_KEY) then mkBase k value t r e c
  else if bool_decide (key = SESSION_TOKEN_KEY) then mkBase k s value r e c
  else if bool_decide (key = REGION_KEY) then mkBase k s t value e c
  else b.

Definition client_base (config : ObjectClientConfig) : S3ClientBase :=
  fold_left (λ b param, read_param param b) (oc_initial_params config)
    (mkBase None None None None (oc_endpoint_url config) (oc_chunk_bytesize config)).

(** The explicit credentials, or the default provider chain of the SDK. *)
Definition client_credentials (b : S3ClientBase) : option (text * text * text) :=
  match cb_key b, cb_secret b with
  | Some key, Some secret => Some (key, secret, default [] (cb_token b))
  | _, _ => None
  end.

Definition verify_credentials_member (member value : option text) : bool :=
  match member with
  | Some m => match value with None => false | Some v => if negb (bool_decide (m = v)) then false else true end
  | None => match value with Some _ => false | None => true end
  end.

Definition verify_base (b : S3ClientBase) (config : ObjectClientConfig) : bool :=
  let other := client_base config in
  verify_credentials_member (cb_key b) (cb_key other) && verify_credentials_member (cb_secret b) (cb_secret other) &&
  verify_credentials_member (cb_token b) (cb_token other) && verify_credentials_member (cb_region b) (cb_region other) &&
  verify_credentials_member (cb_endpoint b) (cb_endpoint other).

(** ** The configuration of the SDK *)

Record ClientConfiguration := mkClientConfiguration {
  cc_partSize : Z; cc_maxRetries : option Z; cc_maxConnections : Z; cc_target_gbps : Z; cc_requestTimeoutMs : Z;
  cc_lowSpeedLimit : Z; cc_endpointOverride : text; cc_scheme : Scheme; cc_useVirtualAddressing : bool; cc_region : text;
  cc_caFile : text }.

Section Configuration.
Context (env : environment).

(** [sdk] holds the defaults of the SDK; [None] for the retries is its own strategy. *)
Definition client_configuration (sdk : ClientConfiguration) : outcome ClientConfiguration :=
  let! part_size := getenv_ulong env "RUNAI_STREAMER_S3_CLIENT_PART_SIZE" 0 in
  let! max_retries := try_getenv_ulong env "RUNAI_STREAMER_S3_MAX_RETRIES" in
  let! max_connections := getenv_ulong env "RUNAI_STREAMER_S3_MAX_CONNECTIONS" 0 in
  let! target_gbps := getenv_ulong env "RUNAI_STREAMER_S3_TARGET_GBPS" 0 in
  let! request_timeout_ms := getenv_ulong env "RUNAI_STREAMER_S3_REQUEST_TIMEOUT_MS" 1000 in
  let! low_speed_limit := getenv_ulong env "RUNAI_STREAMER_S3_LOW_SPEED_LIMIT" 0 in
  Ret (mkClientConfiguration
    (if part_size =? 0 then cc_partSize sdk else part_size)
    (match max_retries with Some n => Some n | None => cc_maxRetries sdk end)
    (if max_connections =? 0 then cc_maxConnections sdk else max_connections)
    (if target_gbps =? 0 then cc_target_gbps sdk else target_gbps)
    (if request_timeout_ms =? 0 then cc_requestTimeoutMs sdk else request_timeout_ms)
    (if low_speed_limit =? 0 then cc_lowSpeedLimit sdk else low_speed_limit)
    (cc_endpointOverride sdk) (cc_scheme sdk) (cc_useVirtualAddressing sdk) (cc_region sdk) (cc_caFile sdk)).

(** [derived] is the product of the throughput, the latency and the margin. *)
Definition inflight_window_bytes (derived : Z → Z) (chunk_bytesize target_gbps : Z) : outcome Z :=
  let! mib := getenv_ulong env "RUNAI_STREAMER_S3_MAX_INFLIGHT_MIB" 0 in
  if negb (mib =? 0) then Ret (mib ⊗ 1024 ⊗ 1024)
  else Ret (Z.max (derived target_gbps) (2 ⊗ chunk_bytesize)).
End Configuration.

(** ** The client *)

(** There is a queue of responses from the first read on. *)
Record S3Client := mkS3Client {
  cl_base : S3ClientBase; cl_stop : bool; cl_application_retries_enabled : bool; cl_config : ClientConfiguration;
  cl_max_inflight_bytes : Z; cl_responder : option (shared_queue BackendResponse) }.

Definition set_endpoint (endpoint : option text) (c : ClientConfiguration) : outcome ClientConfiguration :=
  match endpoint with
  | None => Ret c
  | Some endpoint =>
      let parsed := parse_endpoint_scheme endpoint in
      if match ep_host parsed with [] => true | h :: _ => bool_decide (h = ":"%char) end then Throw (Code FileAccessError)
      else Ret (mkClientConfiguration (cc_partSize c) (cc_maxRetries c) (cc_maxConnections c) (cc_target_gbps c) (cc_requestTimeoutMs c)
                  (cc_lowSpeedLimit c) (ep_host parsed) (default (cc_scheme c) (ep_scheme parsed)) (cc_useVirtualAddressing c)
                  (cc_region c) (cc_caFile c))
  end.

(** [profile] is the ca_bundle of the shared configuration, and [exists_] Fd::exists. *)
Definition set_ca_file (env : environment) (profile : text) (exists_ : text → bool) (c : ClientConfiguration) : outcome ClientConfiguration :=
  let file := match try_getenv_string env "AWS_CA_BUNDLE" with
              | Some file => file
              | None => if bool_decide (profile = []) then cc_caFile c else profile
              end in
  if negb (bool_decide (file = [])) && negb (exists_ file) then Throw (Code CaFileNotFound)
  else Ret (mkClientConfiguration (cc_partSize c) (cc_maxRetries c) (cc_maxConnections c) (cc_target_gbps c) (cc_requestTimeoutMs c)
              (cc_lowSpeedLimit c) (cc_endpointOverride c) (cc_scheme c) (cc_useVirtualAddressing c) (cc_region c) file).

Definition new_s3_client (env : environment) (sdk : ClientConfiguration) (derived : Z → Z) (profile : text) (exists_ : text → bool)
    (config : ObjectClientConfig) : outcome S3Client :=
  let base := client_base config in
  let! timeout := getenv_ulong env "RUNAI_STREAMER_S3_TIMEOUT" 0 in
  let! c := client_configuration env sdk in
  let! c := set_endpoint (cb_endpoint base) c in
  let! virtual := try_getenv_bool env "RUNAI_STREAMER_S3_USE_VIRTUAL_ADDRESSING" in
  let c := mkClientConfiguration (cc_partSize c) (cc_maxRetries c) (cc_maxConnections c) (cc_target_gbps c) (cc_requestTimeoutMs c)
             (cc_lowSpeedLimit c) (cc_endpointOverride c) (cc_scheme c) (default (cc_useVirtualAddressing c) virtual)
             (default (cc_region c) (cb_region base)) (cc_caFile c) in
  let! c := set_ca_file env profile exists_ c in
  let! window := inflight_window_bytes env derived (cb_chunk_bytesize base) (cc_target_gbps c) in
  Ret (mkS3Client base false (timeout >? 0) c window None).

(** ** Reads *)

(** A ranged request, for the bytes of one chunk. *)
Record GetObject := mkGetObject {
  go_bucket : text; go_key : text; go_range : text; go_buffer : Z; go_bytesize : Z; go_request_id : Z }.

Definition range_text (offset bytesize : Z) : text :=
  txt "bytes=" ++ print_Z offset ++ txt "-" ++ print_Z (offset ⊕ bytesize ⊖ 1).

Definition set_responder (q : shared_queue BackendResponse) (c : S3Client) : S3Client :=
  mkS3Client (cl_base c) (cl_stop c) (cl_application_retries_enabled c) (cl_config c) (cl_max_inflight_bytes c) (Some q).

Definition expect_one (responder : option (shared_queue BackendResponse)) : shared_queue BackendResponse :=
  match responder with
  | None => make_queue 1 FINISH_ON_DRAIN
  | Some q => increment 1 q
  end.

(** async_read in the steps that other threads may come between: the flag is read, and may end the call; the responder is made or
    told, and the request sent; the flag is read again for the answer. *)
Definition read_entry (c : S3Client) : option ResponseCode := if cl_stop c then Some FinishedError else None.

Definition send_read (path : text) (offset length destination_buffer request_id : Z) (c : S3Client) : S3Client * outcome GetObject :=
  let c := set_responder (expect_one (cl_responder c)) c in
  match parse_uri path with
  | None => (c, Throw StdException)
  | Some uri => (c, Ret (mkGetObject (bucket uri) (StorageUri.path uri) (range_text offset length) destination_buffer length request_id))
  end.

Definition read_result (c : S3Client) : ResponseCode := if cl_stop c then FinishedError else Success.

(** GetObjectOutcome: the length the service reported, or the error. *)
Inductive GetObjectOutcome :=
| GotObject (content_length : Z)
| GetFailed (should_retry : bool) (http_status : Z) (error_type : CoreErrors).

(** static_cast<long long> *)
Definition to_long (n : Z) : Z := if n <? 2 ^ 63 then n else n - size_modulus.

(** The callback of a request. *)
Definition response_of (application_retries_enabled : bool) (request : GetObject) (outcome : GetObjectOutcome) : BackendResponse :=
  match outcome with
  | GotObject content_length =>
      mkBackendResponse (go_request_id request)
        (if negb (content_length =? to_long (go_bytesize request)) then FileTruncatedError else Success)
  | GetFailed should_retry http_status error_type =>
      let retryable := application_retries_enabled && application_retryable_error should_retry http_status error_type in
      mkBackendResponse (go_request_id request) (if retryable then RetryableFileAccessError else FileAccessError)
  end.

Definition complete (request : GetObject) (outcome : GetObjectOutcome) (c : S3Client) : S3Client :=
  match cl_responder c with
  | None => c
  | Some q => set_responder (SharedQueue.push (response_of (cl_application_retries_enabled c) request outcome) 0 q) c
  end.

(** stop sets the flag, and then stops the responder if there is one at that moment. *)
Definition set_stop (c : S3Client) : S3Client :=
  mkS3Client (cl_base c) true (cl_application_retries_enabled c) (cl_config c) (cl_max_inflight_bytes c) (cl_responder c).

Definition stop_responder (c : S3Client) : S3Client :=
  mkS3Client (cl_base c) (cl_stop c) (cl_application_retries_enabled c) (cl_config c) (cl_max_inflight_bytes c)
    (SharedQueue.stop <$> cl_responder c).

Definition stop (c : S3Client) : S3Client := stop_responder (set_stop c).

(** async_read_response up to the wait: a result ends the call there. *)
Definition response_entry (c : S3Client) : option BackendResponse :=
  match cl_responder c with
  | None => Some (backend_response_of_code FinishedError)
  | Some q => pop_entry q
  end.

(** And after it: the token is taken and the response popped. *)
Definition response_taken (c : S3Client) : outcome (BackendResponse * S3Client) :=
  match cl_responder c with
  | None => Ret (backend_response_of_code FinishedError, c)
  | Some q => let! (r, q) := pop_locked (set_ready (pred (ready q)) q) in Ret (r, set_responder q c)
  end.

(** ** Listing *)

(** A page: the objects, and the token of the next page when the result is truncated. *)
Record ListPage := mkListPage { pg_contents : list (text * Z); pg_next : option text }.

Definition page_results (uri_prefix : text) (page : ListPage) : list (text * Z) :=
  map (λ o, (uri_prefix ++ o.1, o.2)) (List.filter (λ o, negb (bool_decide (last o.1 = Some slash))) (pg_contents page)).

(** [service] answers ListObjectsV2 for a continuation token; [n] bounds the pages. *)
Fixpoint list_pages (n : nat) (service : option text → option ListPage) (uri_prefix : text) (token : option text)
    (results : list (text * Z)) : option (ResponseCode * list (text * Z)) :=
  match n with
  | O => None
  | S n =>
      match service token with
      | None => Some (FileAccessError, results)
      | Some page =>
          let results := results ++ page_results uri_prefix page in
          match pg_next page with
          | Some next => list_pages n service uri_prefix (Some next) results
          | None => Some (Success, results)
          end
      end
  end.

(** The request: bucket, prefix, and the delimiter unless the listing is recursive. *)
Definition list_request (uri : StorageUri) (is_recursive : bool) : text * text * option text :=
  (bucket uri, StorageUri.path uri, if is_recursive then None else Some (txt "/")).

Definition list_files (n : nat) (service : text * text * option text → option text → option ListPage) (prefix : text)
    (is_recursive : bool) : outcome (option (ResponseCode * list (text * Z))) :=
  match parse_uri prefix with
  | None => Throw StdException
  | Some uri => Ret (list_pages n (service (list_request uri is_recursive)) (scheme uri ++ txt "://" ++ bucket uri ++ txt "/") None [])
  end.

(** ** What the client keeps *)

Lemma same_letters_spec prefix : ∀ str, same_letters str prefix = true ↔ ∃ p rest, str = p ++ rest ∧ lowered p = lowered prefix.
Proof.
  induction prefix as [|x prefix IH]; intros str; simpl.
  - split; [intros _; by exists [], str|done].
  - destruct str as [|c str]; [split; [done|]; intros ([|y p] & rest & E & Hl); [by simpl in Hl|done]|].
    rewrite andb_true_iff, bool_decide_eq_true, IH. split.
    + intros [Hc (p & rest & -> & Hl)]. exists (c :: p), rest. split; [done|]. unfold lowered in *. simpl. by rewrite Hc, Hl.
    + intros ([|y p] & rest & E & Hl); [done|]. injection E as <- ->. unfold lowered in *. simpl in Hl. injection Hl as Hc Hl.
      split; [done|]. by exists p, rest.
Qed.

Lemma starts_with_ci_spec str prefix : starts_with_ci str prefix = true ↔ ∃ p rest, str = p ++ rest ∧ lowered p = lowered prefix.
Proof.
  unfold starts_with_ci. destruct (Nat.ltb_spec (length str) (length prefix)) as [Hl|Hl]; [|apply same_letters_spec].
  split; [done|]. intros (p & rest & -> & E). exfalso. apply (f_equal length) in E. unfold lowered in E. rewrite !length_map in E.
  rewrite length_app in Hl. lia.
Qed.

Lemma strip_ci str prefix : starts_with_ci str prefix = true →
  ∃ p, str = p ++ drop (length prefix) str ∧ lowered p = lowered prefix.
Proof.
  intros (p & rest & -> & E)%starts_with_ci_spec. exists p. split; [|done].
  assert (length prefix = length p) as -> by (apply (f_equal length) in E; unfold lowered in E; rewrite !length_map in E; lia).
  by rewrite drop_app_length.
Qed.

Definition prefix_of_scheme (s : Scheme) : text := match s with HTTPS => https_prefix | HTTP => http_prefix end.

(** The host is what is behind the scheme, whatever the case of its letters, and an endpoint without a scheme is kept as
    it is: nothing else is taken away. *)
Theorem endpoint_scheme_stripped endpoint :
  let parsed := parse_endpoint_scheme endpoint in
  match ep_scheme parsed with
  | Some s => ∃ p, endpoint = p ++ ep_host parsed ∧ lowered p = prefix_of_scheme s
  | None => ep_host parsed = endpoint ∧ ∀ s p rest, lowered p = prefix_of_scheme s → endpoint ≠ p ++ rest
  end.
Proof.
  unfold parse_endpoint_scheme. destruct (starts_with_ci endpoint https_prefix) eqn:Hs; [by destruct (strip_ci _ _ Hs) as (p & E & Hl); exists p|].
  destruct (starts_with_ci endpoint http_prefix) eqn:Hh; [by destruct (strip_ci _ _ Hh) as (p & E & Hl); exists p|].
  simpl. split; [done|]. intros s p rest Hp ->.
  assert (starts_with_ci (p ++ rest) (prefix_of_scheme s) = true).
  { apply starts_with_ci_spec. exists p, rest. split; [done|]. rewrite Hp. by destruct s. }
  destruct s; simpl in *; congruence.
Qed.

Lemma verify_member_spec member value : verify_credentials_member member value = true ↔ member = value.
Proof.
  unfold verify_credentials_member. destruct member as [m|], value as [v|]; try done.
  destruct (bool_decide_reflect (m = v)) as [->|Hne]; simpl; [done|]. split; [done|]. intros [= ->]. done.
Qed.

(** What tells two clients apart for the manager. *)
Definition identity (b : S3ClientBase) : option text * option text * option text * option text * option text :=
  (cb_key b, cb_secret b, cb_token b, cb_region b, cb_endpoint b).

Lemma verify_base_spec b config : verify_base b config = true ↔ identity b = identity (client_base config).
Proof.
  unfold verify_base, identity. rewrite !andb_true_iff, !verify_member_spec. split; [by intros ((((-> & ->) & ->) & ->) & ->)|].
  by intros [= -> -> -> -> ->].
Qed.

#[export] Instance s3_managed : ManagedClient S3Client ObjectClientConfig := {
  verify_credentials c config := verify_base (cl_base c) config; stop_client := stop }.

(** A client is reused exactly for a configuration that would build one with the same credentials, region and endpoint,
    so explicit credentials are never served by the ones of another request. *)
Theorem reuse_keeps_credentials env sdk derived profile exists_ old config c :
  new_s3_client env sdk derived profile exists_ old = Ret c →
  (verify_credentials c config = true ↔ identity (client_base old) = identity (client_base config)) ∧
  (verify_credentials c config = true → client_credentials (cl_base c) = client_credentials (client_base config)).
Proof.
  intros H. assert (cl_base c = client_base old) as Hb by (unfold new_s3_client in H; invert_ret H; by injection H as <-).
  simpl. rewrite Hb. split; [apply verify_base_spec|]. intros Hv%verify_base_spec. unfold identity in Hv. injection Hv as H1 H2 H3 H4 H5.
  unfold client_credentials. by rewrite H1, H2, H3.
Qed.

(** The pages of a listing, from a token on. *)
Inductive pages_from (service : option text → option ListPage) : option text → list ListPage → Prop :=
| last_page token page : service token = Some page → pg_next page = None → pages_from service token [page]
| more_pages token page next pages : service token = Some page → pg_next page = Some next →
    pages_from service (Some next) pages → pages_from service token (page :: pages).

Lemma list_pages_all service uri_prefix pages : ∀ token results n, pages_from service token pages → (length pages <= n)%nat →
  list_pages n service uri_prefix token results = Some (Success, results ++ concat (map (page_results uri_prefix) pages)).
Proof.
  induction pages as [|page pages IH]; intros token results [|n] H Hn; simpl in Hn; try lia; [inversion H|inversion H|].
  cbn [list_pages]. inversion H as [? ? Hs Hx|? ? next ? Hs Hx Hp]; subst; rewrite Hs, Hx; simpl.
  - by rewrite app_nil_r.
  - rewrite (IH _ _ n Hp) by lia. by rewrite <- app_assoc.
Qed.

(** A listing of a service whose pages end has every object of every page, once and in order, but for the markers of
    directories; it lists the children alone exactly when it is not recursive. *)
Theorem listing_is_complete n service uri is_recursive pages :
  pages_from (service (list_request uri is_recursive)) None pages → (length pages <= n)%nat → parse_uri (print_uri uri) = Some uri →
  list_files n service (print_uri uri) is_recursive =
    Ret (Some (Success, concat (map (page_results (scheme uri ++ txt "://" ++ bucket uri ++ txt "/")) pages))) ∧
  Forall (λ o, ∃ name size, o = (scheme uri ++ txt "://" ++ bucket uri ++ txt "/" ++ name, size) ∧ last name ≠ Some slash)
    (concat (map (page_results (scheme uri ++ txt "://" ++ bucket uri ++ txt "/")) pages)).
Proof.
  intros Hp Hn Hu. unfold list_files. rewrite Hu, (list_pages_all _ _ pages) by done. split; [done|].
  apply Forall_concat, Forall_map, Forall_true. intros page. unfold page_results. apply Forall_map, List.Forall_forall.
  intros [name size] [_ Hl]%filter_In. apply negb_true_iff, bool_decide_eq_false in Hl. exists name, size. split; [|done].
  cbn [fst snd]. by rewrite <- !app_assoc.
Qed.

(** stop reaches the clients nobody uses too, and the flag is not part of what pop compares: while clear is refused because
    another reader holds a client, the next reader is handed a stopped one, which refuses every read. *)
Theorem stopped_client_is_reused (m : Manager (Client := S3Client)) config ptr c :
  begin (unused_clients m) = Some ptr → clients m !! ptr = Some c → verify_credentials c config = true →
  unused_clients m ≠ dom (clients m) → unused_kept m →
  ∃ m' c', reuse config (clear (ClientMgr.stop (Config := ObjectClientConfig) m)) = Some (Some ptr, m') ∧ clients m' !! ptr = Some c' ∧
    read_entry c' = Some FinishedError.
Proof.
  intros Hb Hc Hv Hne Hk. set (m1 := ClientMgr.stop m). assert (Hk1 : unused_kept m1).
  { intros p Hp. unfold m1. simpl. rewrite dom_fmap_L. by apply Hk. }
  rewrite clear_spec, decide_False by (done || (unfold m1; simpl; rewrite dom_fmap_L; congruence)).
  exists (mkManager (unused_clients m ∖ {[ptr]}) (clients m1)), (stop c). split; [|split].
  - unfold reuse. change (unused_clients m1) with (unused_clients m). destruct (begin_some _ _ Hb) as [Hin _].
    destruct (base.size (unused_clients m)) as [|n] eqn:Hn; [apply size_empty_inv in Hn; set_solver|]. cbn [reuse_loop].
    change (unused_clients m1) with (unused_clients m). rewrite Hb. unfold m1 at 1. cbn [ClientMgr.stop clients]. rewrite lookup_fmap, Hc. simpl.
    simpl in Hv. by rewrite Hv.
  - simpl. by rewrite lookup_fmap, Hc.
  - done.
Qed.
