(* ===== verification/ObjectPlugin.v ===== *)
(** The entry points of the S3 plugin (s3/s3): the backend, its clients behind the manager, their reads and completions.
    The plugins for GCS and Azure have the same entry points over their own clients.

    A C library version, the initialisation of the SDK, addresses and new clients are arguments. *)

From stdpp Require Import gmap.
From S2P Require Import Prelude ResponseCode Text SharedQueue BackendApi ClientMgr S3Client Semver.

(** ** The backend *)

Definition min_glibc_semver : outcome Semver :=
  match description 5 with Some t => semver_of_text (txt t) | None => Throw StdException end.

(** [chunk_size] is try_getenv of the chunk size, and [init] S3Init, once per process. *)
Definition obj_open_backend (glibc_version : outcome Semver) (chunk_size : outcome (option Z)) (init : outcome ()) : ResponseCode :=
  match (let! glibc := glibc_version in
         let! least := min_glibc_semver in
         if semver_gtb least glibc then Ret GlibcPrerequisite
         else let! _ := chunk_size in let! _ := init in Ret Success) with
  | Ret code => code
  | Throw _ => S3NotSupported
  end.

Definition obj_close_backend : ResponseCode := Success.

Inductive ShutdownPolicy := ON_PROCESS_EXIT | ON_STREAMER_SHUTDOWN.

#[export] Instance ShutdownPolicy_eq_dec : EqDecision ShutdownPolicy.
Proof. solve_decision. Defined.

Definition obj_get_backend_shutdown_policy : ShutdownPolicy := ON_PROCESS_EXIT.

Definition max_inflight_key : text := txt "max_inflight_bytes".

(** The code, what is written to the caller's buffer, and the length it gets back. *)
Definition obj_get_backend_config (max_inflight_bytes : Z) (null_argument : bool) (key : text) (buffer_len : Z) :
    ResponseCode * option text * Z :=
  if null_argument then (UnknownError, None, buffer_len)
  else if bool_decide (key = max_inflight_key) then
    let tmp := print_Z max_inflight_bytes in
    let n := Z.of_nat (length tmp) in
    if n >=? 32 then (UnknownError, None, buffer_len)
    else
      let needed := n + 1 in
      if buffer_len <? needed then (UnknownError, None, needed)
      else (Success, Some (tmp ++ [NUL]), n)
  else (UnknownError, None, buffer_len).

(** ** The clients *)

(** The clients of the process, and the window of the last one that was created. *)
Record S3Plugin := mkPlugin { pl_clients : Manager (Client := S3Client); pl_max_inflight_bytes : Z }.

Definition new_plugin : S3Plugin := mkPlugin new_manager (size_modulus - 1).

(** pop: [build] is the constructor of the client, and [address] where it is put.  [None] is the use of a client that is
    gone. *)
Definition pop_client (build : ObjectClientConfig → outcome S3Client) (address : Z) (config : ObjectClientConfig) (p : S3Plugin) :
    option (outcome Z * S3Plugin) :=
  match reuse config (pl_clients p) with
  | None => None
  | Some (Some ptr, m) => Some (Ret ptr, mkPlugin m (pl_max_inflight_bytes p))
  | Some (None, m) =>
      match build config with
      | Throw e => Some (Throw e, mkPlugin m (pl_max_inflight_bytes p))
      | Ret client => Some (Ret address, mkPlugin (register_client address client m) (pl_max_inflight_bytes p))
      end
  end.

Definition obj_create_client (build : ObjectClientConfig → outcome S3Client) (address : Z) (config : ObjectClientConfig) (p : S3Plugin) :
    option (ResponseCode * option Z * S3Plugin) :=
  match pop_client build address config p with
  | None => None
  | Some (Throw _, p) => Some (UnknownError, None, p)
  | Some (Ret ptr, p) =>
      match clients (pl_clients p) !! ptr with
      | None => None
      | Some client => Some (Success, Some ptr, mkPlugin (pl_clients p) (cl_max_inflight_bytes client))
      end
  end.

Definition on_clients (f : Manager (Client := S3Client) → Manager (Client := S3Client)) (p : S3Plugin) : S3Plugin :=
  mkPlugin (f (pl_clients p)) (pl_max_inflight_bytes p).

Definition obj_remove_client (client_handle : option Z) (p : S3Plugin) : ResponseCode * S3Plugin :=
  match client_handle with
  | Some client => (Success, on_clients (ClientMgr.push client) p)
  | None => (Success, p)
  end.

Definition obj_remove_all_clients (p : S3Plugin) : ResponseCode * S3Plugin := (Success, on_clients clear p).

Definition obj_cancel_all_reads (p : S3Plugin) : ResponseCode * S3Plugin :=
  (Success, on_clients (ClientMgr.stop (Config := ObjectClientConfig)) p).

(** ** Reads *)

(** [answer] is async_read of the client. *)
Definition obj_request_read (null_client : bool) (answer : outcome ResponseCode) : ResponseCode :=
  if null_client then UnknownError
  else match answer with Ret code => code | Throw _ => UnknownError end.

(** [popped] is async_read_response of the client; one event is retrieved. *)
Definition obj_wait_for_completions (null_client null_output : bool) (max_events_to_retrieve : Z) (popped : outcome BackendResponse) :
    ResponseCode * option BackendResponse :=
  if null_client then (UnknownError, None)
  else if max_events_to_retrieve =? 0 then (UnknownError, None)
  else if null_output then (UnknownError, None)
  else match popped with Ret response => (Success, Some response) | Throw _ => (UnknownError, None) end.

Definition obj_list_files (null_argument : bool) (buffer : Z) (answer : outcome (ResponseCode * list (text * Z))) :
    ResponseCode * option (option FileList * Z) := impl_obj_list_files null_argument buffer answer.

(** ** What the entry points answer *)

Lemma min_glibc : min_glibc_semver = Ret (mkSemver 2 28 0).
Proof. vm_compute. reflexivity. Qed.

(** The backend opens exactly on a C library that is recent enough, whatever is set for the chunk size. *)
Theorem backend_opens_on_recent_glibc v chunk_size init : version_ok v →
  (obj_open_backend (Ret v) chunk_size init = GlibcPrerequisite ↔ rank v < rank (mkSemver 2 28 0)) ∧
  (obj_open_backend (Ret v) chunk_size init = Success ↔ rank (mkSemver 2 28 0) <= rank v ∧ (∃ c, chunk_size = Ret c) ∧ init = Ret ()).
Proof.
  intros Hv. unfold obj_open_backend. rewrite min_glibc. cbn [obind].
  destruct (comparisons_are_of_the_rank (mkSemver 2 28 0) v) as (_ & Hgt & _); [by vm_compute|done|]. rewrite Hgt.
  destruct (Z.gtb_spec (rank (mkSemver 2 28 0)) (rank v)) as [Hl|Hl].
  - split; [split; [intros _; lia|done]|]. split; [done|]. intros [H _]. lia.
  - destruct chunk_size as [c|e]; cbn [obind].
    + destruct init as [[]|e]; cbn [obind]; (split; [split; [done|intros; lia]|]).
      * split; [|done]. intros _. split; [lia|]. split; [by exists c|done].
      * split; [done|]. by intros (_ & _ & ?).
    + split; [split; [done|intros; lia]|]. split; [done|]. by intros (_ & [c ?] & _).
Qed.

(** The code the constructor of a client throws, such as CaFileNotFound, does not leave the plugin. *)
Theorem client_errors_are_unknown build address config p code handle p' :
  obj_create_client build address config p = Some (code, handle, p') →
  (code = Success ∧ (∃ ptr client, handle = Some ptr ∧ clients (pl_clients p') !! ptr = Some client ∧
                     pl_max_inflight_bytes p' = cl_max_inflight_bytes client)) ∨
  (code = UnknownError ∧ handle = None ∧ ∃ e, build config = Throw e).
Proof.
  unfold obj_create_client, pop_client. destruct (reuse config (pl_clients p)) as [[[ptr|] m]|]; [|destruct (build config) as [client|e]|done].
  - simpl. destruct (clients m !! ptr) as [client|] eqn:Hc; [|done]. intros [= <- <- <-]. left. split; [done|]. by exists ptr, client.
  - simpl. rewrite lookup_insert_eq. intros [= <- <- <-]. left. split; [done|]. exists address, client. simpl. by rewrite lookup_insert_eq.
  - intros [= <- <- <-]. right. by eauto.
Qed.
