(* ===== verification/S3Wrapper.v ===== *)
(** The streamer's side of a storage plugin (common/s3_wrapper, streamer/impl/s3): the parameters of a client, the one
    backend handle of the process, and the reader an object storage worker drives.

    What the dynamic linker and the plugin answer is an argument. *)

From stdpp Require Import gmap.
From S2P Require Import Prelude ResponseCode Text Env SharedQueue StorageUri Credentials Batches Submission BackendApi ObjectStorageIo.
From S2P Require Import ClientMgr S3Client ObjectPlugin.

(** ** The parameters of a client *)

Record WrapperParams := mkParams {
  wp_chunk_bytesize : Z; wp_uri : option StorageUri; wp_credentials : Credentials; wp_concurrent_readers : Z; wp_endpoint : text }.

Definition wrapper_endpoint (env : environment) (credentials : Credentials) : outcome text :=
  match endpoint credentials with
  | Some ep => Ret ep
  | None =>
      let endpoint := getenv_string env "AWS_ENDPOINT_URL_S3" [] in
      let endpoint := if bool_decide (endpoint = []) then getenv_string env "AWS_ENDPOINT_URL" [] else endpoint in
      if negb (bool_decide (endpoint = [])) then
        let! override_endpoint_flag := getenv_bool env "RUNAI_STREAMER_OVERRIDE_ENDPOINT_URL" true in
        Ret (if override_endpoint_flag then endpoint else [])
      else Ret []
  end.

Definition wrapper_params (env : environment) (uri : StorageUri) (credentials : Credentials) (chunk_bytesize concurrent_readers : Z) :
    outcome WrapperParams :=
  let! endpoint := wrapper_endpoint env credentials in
  Ret (mkParams chunk_bytesize (Some uri) credentials concurrent_readers endpoint).

Definition to_config (p : WrapperParams) : ObjectClientConfig :=
  mkClientConfig (if bool_decide (wp_endpoint p = []) then None else Some (wp_endpoint p)) (wp_chunk_bytesize p)
    (map (λ kv, (kv.1, Some kv.2)) (to_object_client_config (wp_credentials p) [])) (wp_concurrent_readers p).

(** ** The backend handle *)

Definition so_name (p : Plugin) : string :=
  match p with GCS => "libstreamergcs.so" | Azure => "libstreamerazure.so" | S3 => "libstreamers3.so" end.

(** No URI stands for S3. *)
Definition get_libstreamers_plugin_type (uri : option StorageUri) : Plugin :=
  match uri with
  | Some uri => if is_gcs uri then GCS else if is_azure uri then Azure else S3
  | None => S3
  end.

Section Handle.
(** Whether a library opens, which symbols it has, what obj_open_backend answers, and the policy it states ([None] for
    neither of the two). *)
Context (dlopen : string → bool) (dlsym : Plugin → string → bool) (open_backend : Plugin → ResponseCode).
Context (policy : Plugin → option ShutdownPolicy).

Definition open_object_storage_impl (uri : option StorageUri) : outcome Plugin :=
  let plugin_type := get_libstreamers_plugin_type uri in
  if dlopen (so_name plugin_type) then Ret plugin_type
  else Throw (Code (match plugin_type with GCS => GCSNotSupported | S3 => S3NotSupported | Azure => AzureBlobNotSupported end)).

Definition required_symbols : list string := [
  "obj_open_backend"; "obj_close_backend"; "obj_create_client"; "obj_remove_client"; "obj_remove_all_clients";
  "obj_cancel_all_reads"; "obj_request_read"; "obj_wait_for_completions"; "obj_list_files"; "obj_free_file_list";
  "obj_get_backend_shutdown_policy"; "obj_get_backend_config" ]%string.

Fixpoint require (symbols : list string) (plugin : Plugin) : outcome () :=
  match symbols with
  | [] => Ret ()
  | name :: symbols => if dlsym plugin name then require symbols plugin else Throw (Code ObjPluginLoadError)
  end.

Definition resolve_api (plugin : Plugin) : outcome () := require required_symbols plugin.

(** The constructor of BackendHandle; a handle is the plugin it was opened for. *)
Definition backend_handle (uri : option StorageUri) : outcome Plugin :=
  let! plugin := open_object_storage_impl uri in
  let! _ := resolve_api plugin in
  let ret := open_backend plugin in
  if negb (bool_decide (ret = Success)) then Throw (Code ret) else Ret plugin.

Inductive ManageBackendHandleOp := CREATE | DESTROY.

(** The static of the process: not initialised yet, or a pointer that may be null. *)
Inductive StaticHandle := Uninitialised | Initialised (handle : option Plugin).

Definition created (uri : option StorageUri) (op : ManageBackendHandleOp) (s : StaticHandle) : StaticHandle * outcome (option Plugin) :=
  match s with
  | Uninitialised => match backend_handle uri with Ret plugin => (Initialised (Some plugin), Ret (Some plugin)) | Throw e => (s, Throw e) end
  | Initialised None =>
      match op with
      | CREATE => match backend_handle uri with Ret plugin => (Initialised (Some plugin), Ret (Some plugin)) | Throw e => (s, Throw e) end
      | DESTROY => (s, Ret None)
      end
  | Initialised (Some plugin) => (s, Ret (Some plugin))
  end.

Definition manage_backend_handle (uri : option StorageUri) (op : ManageBackendHandleOp) (s : StaticHandle) :
    StaticHandle * outcome (option Plugin) :=
  let '(s, handle) := created uri op s in
  match handle, op with
  | Ret (Some plugin), DESTROY =>
      if bool_decide (policy plugin = Some ON_STREAMER_SHUTDOWN) then (Initialised None, Ret None) else (s, Ret (Some plugin))
  | _, _ => (s, handle)
  end.

(** What a call leaves; [forward] is whether the plugin was called (remove_all_clients, cancel_all_reads). *)
Definition wrapper_shutdown (s : StaticHandle) : StaticHandle * bool :=
  let '(s, handle) := manage_backend_handle None CREATE s in
  match handle with
  | Throw _ => (s, false)
  | Ret None => (s, false)
  | Ret (Some _) => ((manage_backend_handle None DESTROY s).1, true)
  end.

Definition wrapper_stop (s : StaticHandle) : StaticHandle * bool :=
  let '(s, handle) := manage_backend_handle None CREATE s in
  match handle with
  | Ret (Some _) => (s, true)
  | _ => (s, false)
  end.

(** The constructor of a wrapper: [create_client] is the answer of the plugin for a configuration. *)
Definition new_wrapper (create_client : Plugin → ObjectClientConfig → ResponseCode) (params : WrapperParams) (s : StaticHandle) :
    StaticHandle * outcome Plugin :=
  let '(s, handle) := manage_backend_handle (wp_uri params) CREATE s in
  match handle with
  | Throw e => (s, Throw e)
  | Ret None => (s, Throw AssertFailed)
  | Ret (Some plugin) =>
      let ret := create_client plugin (to_config params) in
      if negb (bool_decide (ret = Success)) then (s, Throw (Code ret)) else (s, Ret plugin)
  end.
End Handle.

(** ** Reads and completions *)

(** std::strtoull in base 10: no digits is zero, and what does not fit is the largest value. *)
Definition strtoull (t : text) : Z :=
  match stoul t with
  | Ret (v, _) => v
  | Throw _ =>
      let body := drop_while is_space t in
      let body := match body with c :: rest => if (code c =? 45) || (code c =? 43) then rest else body | [] => [] end in
      match take_while is_digit body with [] => 0 | _ => size_modulus - 1 end
  end.

Definition window_buffer_bytesize : Z := 32.

(** [answer] is obj_get_backend_config for the key and the length of the buffer; the rest of the buffer is zeros. *)
Definition max_inflight_bytes (answer : text → Z → ResponseCode * option text * Z) : Z :=
  let '(ret, written, _) := answer (txt "max_inflight_bytes") window_buffer_bytesize in
  if negb (bool_decide (ret = Success)) then size_modulus - 1
  else
    let buf := default [] written ++ replicate (Z.to_nat window_buffer_bytesize) NUL in
    strtoull (c_string (take 31 buf ++ [NUL])).

(** [wait] is obj_wait_for_completions for the most events wanted. *)
Definition async_read_response (wait : Z → ResponseCode * list BackendResponse) (max_events_to_retrieve : Z) :
    outcome (ResponseCode * list BackendResponse) :=
  if max_events_to_retrieve =? 0 then Ret (Success, [])
  else
    let '(ret, events) := wait max_events_to_retrieve in
    if bool_decide (ret = Success) then
      ASSERT (Z.of_nat (length events) <=? max_events_to_retrieve) ;;! Ret (ret, events)
    else Ret (ret, []).

(** The reader of a worker: S3::async_read and S3::async_response. *)
Definition reader_async_read (response_code : ResponseCode) : option exn :=
  if negb (bool_decide (response_code = Success)) then Some (Code response_code) else None.

Definition reader_async_response (answer : outcome (ResponseCode * list BackendResponse)) : outcome (ResponseCode * list Event) :=
  let! r := answer in
  let '(response_code, events) := r in
  if negb (bool_decide (response_code = Success)) then Ret (response_code, [])
  else Ret (Success, map (λ e, (br_handle e, br_ret e)) events).

(** ** From the credentials of a streamer to the client of a plugin *)

Definition known_keys : list text := [ACCESS_KEY_ID_KEY; SECRET_ACCESS_KEY_KEY; SESSION_TOKEN_KEY; REGION_KEY].

Definition field (key : text) (b : S3ClientBase) : option text :=
  if bool_decide (key = ACCESS_KEY_ID_KEY) then cb_key b
  else if bool_decide (key = SECRET_ACCESS_KEY_KEY) then cb_secret b
  else if bool_decide (key = SESSION_TOKEN_KEY) then cb_token b
  else cb_region b.

Lemma read_param_field key key' value b : key ∈ known_keys →
  field key (read_param (key', value) b) = (if bool_decide (key = key') then value else field key b) ∧
  cb_endpoint (read_param (key', value) b) = cb_endpoint b ∧ cb_chunk_bytesize (read_param (key', value) b) = cb_chunk_bytesize b.
Proof.
  intros Hk. destruct b as [k s t r e c]. unfold read_param. unfold known_keys in Hk. rewrite !elem_of_cons in Hk.
  destruct (bool_decide_reflect (key' = ACCESS_KEY_ID_KEY)) as [->|H1]; [|destruct (bool_decide_reflect (key' = SECRET_ACCESS_KEY_KEY)) as [->|H2];
    [|destruct (bool_decide_reflect (key' = SESSION_TOKEN_KEY)) as [->|H3]; [|destruct (bool_decide_reflect (key' = REGION_KEY)) as [->|H4]]]];
    (split; [|done]); destruct Hk as [->|[->|[->|[->|Hk%elem_of_nil]]]]; try done;
    rewrite bool_decide_false; congruence || done.
Qed.

Lemma fold_params_field params : ∀ key b, key ∈ known_keys → NoDup (map fst params) →
  let b' := fold_left (λ b param, read_param param b) params b in
  field key b' = (match list_to_map (M := gmap text (option text)) params !! key with Some value => value | None => field key b end) ∧
  cb_endpoint b' = cb_endpoint b ∧ cb_chunk_bytesize b' = cb_chunk_bytesize b.
Proof.
  induction params as [|[key' value] params IH]; intros key b Hk Hn; [done|]. apply NoDup_cons in Hn as [Hin Hn].
  destruct (IH key (read_param (key', value) b) Hk Hn) as (H1 & H2 & H3). destruct (read_param_field key key' value b Hk) as (F1 & F2 & F3).
  cbn [fold_left]. cbv zeta. rewrite H1, H2, H3, F2, F3. split; [|done].
  change (list_to_map ((key', value) :: params)) with (<[key':=value]> (list_to_map params : gmap text (option text))). rewrite F1.
  destruct (bool_decide_reflect (key = key')) as [->|Hne]; [|by rewrite lookup_insert_ne].
  rewrite lookup_insert_eq. by rewrite not_elem_of_list_to_map_1.
Qed.

Lemma config_params_nodup (c : Credentials) : NoDup (map fst (map (λ kv : text * text, (kv.1, Some kv.2)) (to_object_client_config c []))).
Proof. rewrite map_map. simpl. apply filter_nodup, in_order_nodup. Qed.

Lemma config_params_lookup (c : Credentials) key : key ≠ ENDPOINT_KEY →
  (list_to_map (map (λ kv : text * text, (kv.1, Some kv.2)) (to_object_client_config c [])) : gmap text (option text)) !! key = Some <$> c !! key.
Proof.
  intros Hk. apply option_eq. intros value. rewrite <- elem_of_list_to_map by apply config_params_nodup.
  rewrite list_elem_of_fmap. simpl. split.
  - intros ((k & v) & [= -> ->] & Hin). apply list_elem_of_filter in Hin as [_ Hin]. simpl. apply in_order_elem in Hin. by rewrite Hin.
  - destruct (c !! key) as [v|] eqn:Hc; intros [= <-]. exists (key, v). split; [done|]. apply list_elem_of_filter.
    split; [done|]. by apply in_order_elem.
Qed.

(** What a streamer was told reaches the client of the plugin unchanged: the key, the secret, the token and the region of
    its credentials, the endpoint that was settled for it, and the size of its chunks; and so a client is reused exactly
    by wrappers with the same ones. *)
Theorem client_gets_the_credentials p :
  let b := client_base (to_config p) in
  let c := wp_credentials p in
  identity b = (c !! ACCESS_KEY_ID_KEY, c !! SECRET_ACCESS_KEY_KEY, c !! SESSION_TOKEN_KEY, c !! REGION_KEY,
                if bool_decide (wp_endpoint p = []) then None else Some (wp_endpoint p)) ∧
  cb_chunk_bytesize b = wp_chunk_bytesize p.
Proof.
  intros b c. unfold b, client_base. set (params := oc_initial_params (to_config p)).
  set (b0 := mkBase None None None None (oc_endpoint_url (to_config p)) (oc_chunk_bytesize (to_config p))).
  assert (H : ∀ key, key ∈ known_keys → field key (fold_left (λ b param, read_param param b) params b0) = c !! key ∧
    cb_endpoint (fold_left (λ b param, read_param param b) params b0) = cb_endpoint b0 ∧
    cb_chunk_bytesize (fold_left (λ b param, read_param param b) params b0) = cb_chunk_bytesize b0).
  { intros key Hk. destruct (fold_params_field params key b0 Hk) as (H1 & H2 & H3); [apply config_params_nodup|]. split; [|done].
    rewrite H1. unfold params. simpl. rewrite config_params_lookup.
    - destruct (wp_credentials p !! key) eqn:E; simpl; [done|]. unfold field. by repeat case_bool_decide.
    - intros ->. unfold known_keys in Hk. repeat (apply elem_of_cons in Hk as [Hk|Hk]; [discriminate Hk|]). by apply elem_of_nil in Hk. }
  set (b1 := fold_left _ params b0) in *. clearbody b1.
  assert (Hin : ACCESS_KEY_ID_KEY ∈ known_keys ∧ SECRET_ACCESS_KEY_KEY ∈ known_keys ∧ SESSION_TOKEN_KEY ∈ known_keys ∧ REGION_KEY ∈ known_keys)
    by (unfold known_keys; set_solver).
  destruct Hin as (I1 & I2 & I3 & I4). destruct (H _ I1) as (F1 & He & Hc), (H _ I2) as (F2 & _), (H _ I3) as (F3 & _), (H _ I4) as (F4 & _).
  split; [|done]. unfold identity. rewrite <- F1, <- F2, <- F3, <- F4, He. done.
Qed.

(** ** The window a plugin advertises *)

Lemma c_string_digits t rest : forallb is_digit t = true → c_string (t ++ NUL :: rest) = t.
Proof.
  intros H. apply c_string_app. intros Hin. rewrite forallb_forall in H. specialize (H NUL (proj1 (list_elem_of_In _ _) Hin)). by vm_compute in H.
Qed.

Lemma print_digits_length fuel : ∀ n acc, (length (print_digits fuel n acc) <= fuel + length acc)%nat.
Proof. induction fuel as [|fuel IH]; intros n acc; cbn [print_digits]; [lia|]. case_match; simpl; [lia|]. etransitivity; [apply IH|]. simpl. lia. Qed.

(** The window a plugin writes as text is the number the streamer reads back, for every size, the one that stands for no
    limit included; and what a plugin does not know is no limit. *)
Theorem window_roundtrip n : is_size n →
  max_inflight_bytes (obj_get_backend_config n false) = n ∧
  (∀ key, key ≠ max_inflight_key → (obj_get_backend_config n false key 32).1.1 = UnknownError) ∧
  (∀ key len, (obj_get_backend_config n true key len).1.1 = UnknownError).
Proof.
  intros Hn. destruct (print_Z_spec n Hn) as (Hd & Hne & _). pose proof (stoul_print n Hn) as Hs.
  assert (Hlen : (length (print_Z n) <= 20)%nat) by (apply (print_digits_length 20 n [])).
  split; [|split].
  - unfold max_inflight_bytes, obj_get_backend_config. rewrite bool_decide_true by done. change (txt "max_inflight_bytes") with max_inflight_key.
    unfold window_buffer_bytesize. set (t := print_Z n) in *. clearbody t.
    rewrite Z.geb_leb, (proj2 (Z.leb_gt _ _)) by lia. rewrite (proj2 (Z.ltb_ge _ _)) by lia. rewrite bool_decide_true by done. cbn [negb default].
    change (id (t ++ [NUL])) with (t ++ [NUL]). rewrite <- app_assoc. cbn [app].
    rewrite take_app, (take_ge t) by lia. destruct (31 - length t)%nat as [|k] eqn:Hk; [lia|].
    cbn [take]. rewrite <- app_assoc. cbn [app].
    rewrite c_string_digits by done. unfold strtoull. by rewrite Hs.
  - intros key Hk. unfold obj_get_backend_config. by rewrite bool_decide_false.
  - done.
Qed.

(** ** The one handle of the process *)

Section HandleFacts.
Context (dlopen : string → bool) (dlsym : Plugin → string → bool) (open_backend : Plugin → ResponseCode).
Context (policy : Plugin → option ShutdownPolicy).

Let handle_of := backend_handle dlopen dlsym open_backend.
Let manage := manage_backend_handle dlopen dlsym open_backend policy.

Lemma require_spec symbols plugin : require dlsym symbols plugin = Ret () ∨ require dlsym symbols plugin = Throw (Code ObjPluginLoadError).
Proof. induction symbols as [|s symbols IH]; simpl; [by left|]. destruct (dlsym plugin s); [done|by right]. Qed.

Lemma require_all symbols plugin : require dlsym symbols plugin = Ret () ↔ Forall (λ s, dlsym plugin s = true) symbols.
Proof.
  induction symbols as [|s symbols IH]; simpl; [split; [by constructor|done]|]. rewrite Forall_cons.
  destruct (dlsym plugin s); [rewrite IH; split; [by split|by intros [_ ?]]|]. split; [done|by intros [? _]].
Qed.

(** A handle is opened for the plugin of the URI, and only with its library, every one of the twelve entry points, and its
    backend; otherwise the code says which of the three is missing. *)
Theorem backend_handle_errors uri :
  let plugin := get_libstreamers_plugin_type uri in
  match backend_handle dlopen dlsym open_backend uri with
  | Ret p => p = plugin ∧ dlopen (so_name plugin) = true ∧ Forall (λ s, dlsym plugin s = true) required_symbols ∧ open_backend plugin = Success
  | Throw e =>
      e = (if negb (dlopen (so_name plugin)) then Code (match plugin with GCS => GCSNotSupported | S3 => S3NotSupported | Azure => AzureBlobNotSupported end)
           else if forallb (dlsym plugin) required_symbols then Code (open_backend plugin) else Code ObjPluginLoadError)
  end.
Proof.
  intros plugin. unfold backend_handle, open_object_storage_impl, resolve_api. fold plugin. destruct (dlopen (so_name plugin)); cbn [negb obind]; [|done].
  destruct (require_spec required_symbols plugin) as [E|E]; rewrite E; cbn [obind].
  - apply require_all in E. assert (forallb (dlsym plugin) required_symbols = true) as ->.
    { apply forallb_forall. intros s Hs. rewrite List.Forall_forall in E. by apply E. }
    by destruct (bool_decide_reflect (open_backend plugin = Success)).
  - assert (forallb (dlsym plugin) required_symbols = false) as ->; [|done]. apply not_true_is_false. intros Hf.
    rewrite (proj2 (require_all _ _)) in E; [done|]. apply List.Forall_forall. intros s Hs. by apply (proj1 (forallb_forall _ _) Hf).
Qed.

(** What happens to the handle in a process: wrappers are made, and streamers are stopped and shut down. *)
Inductive HandleUse := MakeWrapper (uri : option StorageUri) | StopStreamer | ShutDownStreamer.

Definition use_handle (u : HandleUse) (s : StaticHandle) : StaticHandle :=
  match u with
  | MakeWrapper uri => (manage uri CREATE s).1
  | StopStreamer => (wrapper_stop dlopen dlsym open_backend policy s).1
  | ShutDownStreamer => (wrapper_shutdown dlopen dlsym open_backend policy s).1
  end.

Lemma manage_keeps uri op plugin : policy plugin = Some ON_PROCESS_EXIT →
  manage uri op (Initialised (Some plugin)) = (Initialised (Some plugin), Ret (Some plugin)).
Proof. intros Hp. unfold manage, manage_backend_handle. simpl. destruct op; [done|]. rewrite Hp. by rewrite bool_decide_false. Qed.

Lemma use_keeps uses plugin : policy plugin = Some ON_PROCESS_EXIT →
  fold_left (λ s u, use_handle u s) uses (Initialised (Some plugin)) = Initialised (Some plugin).
Proof.
  intros Hp. induction uses as [|u uses IH]; [done|]. cbn [fold_left]. rewrite <- IH at 2. f_equal.
  destruct u as [uri| |]; cbn [use_handle].
  - by rewrite manage_keeps.
  - unfold wrapper_stop. fold manage. by rewrite manage_keeps.
  - unfold wrapper_shutdown. fold manage. rewrite manage_keeps by done. by rewrite manage_keeps.
Qed.

(** C33: The first plugin a process opens is the one every later wrapper gets, whatever its URI names and whatever streamers
    came and went in between, for a plugin that stays until the process exits, as all three do; with a policy of its own
    a plugin goes with the streamer, and the next URI chooses again. *)
Theorem first_plugin_serves_the_process uri uri' plugin uses :
  handle_of uri = Ret plugin →
  (policy plugin = Some ON_PROCESS_EXIT →
   (manage uri' CREATE (fold_left (λ s u, use_handle u s) (MakeWrapper uri :: uses) Uninitialised)).2 = Ret (Some plugin)) ∧
  (policy plugin = Some ON_STREAMER_SHUTDOWN →
   ∀ plugin', handle_of uri' = Ret plugin' →
   (manage uri' CREATE (fold_left (λ s u, use_handle u s) [MakeWrapper uri; StopStreamer; ShutDownStreamer] Uninitialised)).2 = Ret (Some plugin')).
Proof.
  intros Hh. assert (E : use_handle (MakeWrapper uri) Uninitialised = Initialised (Some plugin)).
  { simpl. unfold manage, manage_backend_handle. simpl. unfold handle_of in Hh. by rewrite Hh. }
  split.
  - intros Hp. cbn [fold_left]. rewrite E, use_keeps by done. by rewrite manage_keeps.
  - intros Hp plugin' Hh'. cbn [fold_left]. rewrite E. unfold handle_of in Hh'.
    unfold use_handle, wrapper_stop, wrapper_shutdown, manage, manage_backend_handle. cbn [created fst snd].
    rewrite bool_decide_true by done. cbn [created fst snd]. by rewrite Hh'.
Qed.
End HandleFacts.

(** ** Examples *)
Module Plugins.
Definition s3_uri : option StorageUri := parse_uri (txt "s3://bucket/model").
Definition gcs_uri : option StorageUri := parse_uri (txt "gs://bucket/model").
Definition exits (_ : Plugin) : option ShutdownPolicy := Some obj_get_backend_shutdown_policy.

(** A streamer read from S3 and is gone; the next one reads from GCS, through the plugin of S3. *)
Lemma first_plugin_serves_the_process_witness :
  get_libstreamers_plugin_type gcs_uri = GCS ∧
  (manage_backend_handle (λ _, true) (λ _ _, true) (λ _, Success) exits gcs_uri CREATE
    (fold_left (λ s u, use_handle (λ _, true) (λ _ _, true) (λ _, Success) exits u s) [MakeWrapper s3_uri; StopStreamer; ShutDownStreamer]
       Uninitialised)).2 = Ret (Some S3).
Proof.
  split; [vm_compute; reflexivity|].
  assert (H : backend_handle (λ _, true) (λ _ _, true) (λ _, Success) s3_uri = Ret S3) by (vm_compute; reflexivity).
  exact (proj1 (first_plugin_serves_the_process (λ _, true) (λ _ _, true) (λ _, Success) exits s3_uri gcs_uri S3
    [StopStreamer; ShutDownStreamer] H) eq_refl).
Defined.

Lemma window_roundtrip_witness : max_inflight_bytes (obj_get_backend_config 18446744073709551615 false) = 18446744073709551615.
Proof. apply (window_roundtrip 18446744073709551615). split; [discriminate|reflexivity]. Defined.

(** Stopping a streamer that never read from an object store opens the plugin of S3 for the process. *)
Example stop_opens_s3 :
  use_handle (λ _, true) (λ _ _, true) (λ _, Success) exits StopStreamer Uninitialised = Initialised (Some S3).
Proof. vm_compute. done. Qed.
End Plugins.
