(* ===== verification/S3Reader.v ===== *)
(** The reader of an object storage worker over the S3 plugin: the calls of streamer/impl/s3, the wrapper, the plugin and
    its client composed, with the SDK completing requests on threads of its own.

    The theorems of the object storage worker are proved for any reader that keeps [ReaderLaws]; this one does while no stop
    of the clients is cut in two by a read ([timely]).  [read_chunk_ok] and [read_responses_ok] say what holds of every
    schedule, and the examples what a stop that comes in between does. *)

From S2P Require Import Prelude ResponseCode Text SharedQueue StorageUri BackendApi ObjectStorageIo S3Client ObjectPlugin S3Wrapper.

(** ** The composed reader *)

(** What happens on other threads: the SDK completes one of the requests it holds, or a streamer stops the clients, which sets
    the flag of the client first and stops its responder later. *)
Inductive Happening := Completes (request : nat) (outcome : GetObjectOutcome) | SetsStop | StopsResponder.

(** Around one call: what happens before it; in a read, after the flag was read and before the responder is told of it - or made, by
    the first read of the client - and after the request was sent and before the flag is read again; in a call that waits, while
    it does, and the outcome of the request that wakes it if nothing did. *)
Record Call := mkCall {
  before_call : list Happening; after_check : list Happening; after_first_check : list Happening; before_return : list Happening;
  while_waiting : list Happening; woken_by : GetObjectOutcome }.

Definition quiet_call : Call := mkCall [] [] [] [] [] (GotObject 0).

Definition between (call : Call) (c : S3Client) : list Happening :=
  match cl_responder c with Some _ => after_check call | None => after_first_check call end.

(** [sr_pending] are the requests the SDK holds.  What the laws speak of, and the code does not keep: [sr_owed] are the reads that were
    accepted and not reported, [sr_refused] those that were sent and then refused by a call that left the responder open. *)
Record S3Reader := mkS3Reader {
  sr_client : S3Client; sr_pending : list GetObject; sr_owed : list Z; sr_refused : list Z; sr_calls : list Call; sr_now : Z }.

Definition set_client (client : S3Client) (r : S3Reader) : S3Reader :=
  mkS3Reader client (sr_pending r) (sr_owed r) (sr_refused r) (sr_calls r) (sr_now r).
Definition set_pending (pending : list GetObject) (r : S3Reader) : S3Reader :=
  mkS3Reader (sr_client r) pending (sr_owed r) (sr_refused r) (sr_calls r) (sr_now r).
Definition set_reads (owed refused : list Z) (r : S3Reader) : S3Reader :=
  mkS3Reader (sr_client r) (sr_pending r) owed refused (sr_calls r) (sr_now r).

(** A stop stops the responder only after it set the flag. *)
Definition happen (h : Happening) (r : S3Reader) : S3Reader :=
  match h with
  | SetsStop => set_client (set_stop (sr_client r)) r
  | StopsResponder => if cl_stop (sr_client r) then set_client (stop_responder (sr_client r)) r else r
  | Completes i outcome =>
      match sr_pending r !! i with
      | None => r
      | Some request => set_client (complete request outcome (sr_client r)) (set_pending (delete i (sr_pending r)) r)
      end
  end.

Definition happenings (hs : list Happening) (r : S3Reader) : S3Reader := fold_left (λ r h, happen h r) hs r.

Definition begin_call (r : S3Reader) : Call * S3Reader :=
  let call := match sr_calls r with [] => quiet_call | call :: _ => call end in
  (call, happenings (before_call call) (mkS3Reader (sr_client r) (sr_pending r) (sr_owed r) (sr_refused r) (tail (sr_calls r)) (sr_now r))).

(** The SDK never holds as many requests as the responder can count: it completes one first. *)
Definition make_room (call : Call) (r : S3Reader) : S3Reader :=
  if Z.of_nat (length (sr_pending r)) + 1 <? unsigned_modulus then r else happen (Completes 0 (woken_by call)) r.

Definition responder_open (c : S3Client) : bool := match cl_responder c with Some q => negb (stopped q) | None => false end.

(** What becomes of a read that was sent, with the answer of the call. *)
Definition sent_read (handle : Z) (owed : list Z) (r : S3Reader) : S3Reader :=
  if bool_decide (read_result (sr_client r) = Success) then set_reads (handle :: owed) (sr_refused r) r
  else set_reads owed (if responder_open (sr_client r) then handle :: sr_refused r else sr_refused r) r.

(** S3Client::async_read, with what other threads do in between. *)
Definition client_async_read (call : Call) (location : text) (handle offset bytesize buffer : Z) (r : S3Reader) :
    outcome ResponseCode * S3Reader :=
  match read_entry (sr_client r) with
  | Some code => (Ret code, r)
  | None =>
      let r := happenings (between call (sr_client r)) r in
      let '(client, request) := send_read location offset bytesize buffer handle (sr_client r) in
      let r := set_client client r in
      match request with
      | Throw e => (Throw e, r)
      | Ret request =>
          let r' := happenings (before_return call) (set_pending (sr_pending r ++ [request]) r) in
          (Ret (read_result (sr_client r')), sent_read handle (sr_owed r) r')
      end
  end.

(** S3::async_read, down to the client.  The location is the text of a StorageUri: another one throws there. *)
Definition read_chunk (location : text) (handle offset bytesize buffer : Z) (r : S3Reader) : option exn * S3Reader :=
  match parse_uri location with
  | None => (Some StdException, r)
  | Some _ =>
      let '(call, r) := begin_call r in
      let '(answer, r) := client_async_read call location handle offset bytesize buffer (make_room call r) in
      (reader_async_read (obj_request_read false answer), r)
  end.

(** async_read_response of the client.  A call that waits and that nothing woke is woken by the next completion. *)
Definition next_response (call : Call) (r : S3Reader) : outcome (BackendResponse * S3Client) * S3Reader :=
  match response_entry (sr_client r) with
  | Some response => (Ret (response, sr_client r), r)
  | None =>
      let r := happenings (while_waiting call) r in
      let r := match cl_responder (sr_client r) with
               | Some q => if (ready q =? 0)%nat then happen (Completes 0 (woken_by call)) r else r
               | None => r
               end in
      (response_taken (sr_client r), r)
  end.

Fixpoint remove_handle (h : Z) (l : list Z) : list Z :=
  match l with [] => [] | x :: l => if x =? h then l else x :: remove_handle h l end.

(** A read is reported: one that was accepted, or else one that was refused. *)
Definition report_read (h : Z) (reads : list Z * list Z) : list Z * list Z :=
  if bool_decide (h ∈ reads.1) then (remove_handle h reads.1, reads.2) else (reads.1, remove_handle h reads.2).

(** S3::async_response over the wrapper and the plugin. *)
Definition read_responses (most : Z) (r : S3Reader) : ResponseCode * list Event * S3Reader :=
  let '(call, r) := begin_call r in
  if most =? 0 then (Success, [], r)
  else
    let '(taken, r) := next_response call r in
    let client := match taken with Ret (_, client) => client | Throw _ => sr_client r end in
    let wait _ := let '(code, event) := obj_wait_for_completions false false most (let! x := taken in Ret x.1) in (code, option_list event) in
    let answer := reader_async_response (async_read_response wait most) in
    let '(code, events) := match answer with Ret x => x | Throw _ => (UnknownError, []) end in
    let reported := map fst (List.filter (λ e : Event, negb (bool_decide (e.2 = FinishedError))) events) in
    let '(owed, refused) := foldr report_read (sr_owed r, sr_refused r) reported in
    (code, events, set_reads owed refused (set_client client r)).

(** ** What the reader keeps *)

(** The queue of a client that was not stopped: one response is expected of each request the SDK holds, a token is posted for
    each response that waits, and together they are the reads that may still be reported. *)
Record queue_ok (q : shared_queue BackendResponse) (pending : list GetObject) (reads : list Z) : Prop := {
  qk_mode : mode q = FINISH_ON_DRAIN;
  qk_running : running q = Z.of_nat (length pending) ∧ is_unsigned (Z.of_nat (length pending));
  qk_tokens : ready q = length (responses q);
  qk_reads : reads ≡ₚ map br_handle (responses q) ++ map go_request_id pending;
  qk_codes : Forall (λ x, br_ret x ≠ FinishedError) (responses q) }.

(** A responder is stopped only after the flag is set; one that is open will report [reads]. *)
Definition reader_with (reads : list Z) (r : S3Reader) : Prop :=
  match cl_responder (sr_client r) with
  | Some q => if stopped q then cl_stop (sr_client r) = true else queue_ok q (sr_pending r) reads
  | None => sr_pending r = [] ∧ reads = []
  end.

Definition reader_ok (r : S3Reader) : Prop := reader_with (sr_owed r ++ sr_refused r) r.

(** There is room to count one more request. *)
Definition roomy (r : S3Reader) : Prop := responder_open (sr_client r) = true → is_unsigned (Z.of_nat (length (sr_pending r)) + 1).

Lemma reader_with_perm reads reads' r : reads ≡ₚ reads' → reader_with reads r → reader_with reads' r.
Proof.
  unfold reader_with. intros Hp. destruct (cl_responder (sr_client r)) as [q|]; [|intros [? ->]; split; [done|by apply Permutation_nil_r]].
  destruct (stopped q); [done|]. intros [H1 H2 H3 H4 H5]. split; try done. by rewrite <- Hp.
Qed.

Lemma response_of_spec retries request outcome :
  br_handle (response_of retries request outcome) = go_request_id request ∧ br_ret (response_of retries request outcome) ≠ FinishedError.
Proof. destruct outcome; simpl; (split; [done|]); by case_match. Qed.

Lemma push_keeps_stopped (x : BackendResponse) b q : stopped (SharedQueue.push x b q) = stopped q.
Proof. unfold SharedQueue.push, push_locked. simpl. destruct (stopped q) eqn:Hs; [done|]. by destruct (_ >? 0). Qed.

Lemma stop_stops (q : shared_queue BackendResponse) : stopped (SharedQueue.stop q) = true.
Proof. unfold SharedQueue.stop, stop_locked. by destruct (negb _). Qed.

Lemma push_ok retries request outcome q i pending reads : stopped q = false → queue_ok q pending reads → pending !! i = Some request →
  queue_ok (SharedQueue.push (response_of retries request outcome) 0 q) (delete i pending) reads.
Proof.
  intros Ho [Hm [Hr Hu] Ht Hw Hc] Hi. destruct (response_of_spec retries request outcome) as [Hh Hne].
  pose proof (delete_Permutation _ _ _ Hi) as Hp. pose proof (Permutation_length Hp) as Hl. simpl in Hl.
  assert (E : SharedQueue.push (response_of retries request outcome) 0 q =
    mkQueue (mode q) (sub32 (running q) 1) (responses q ++ [response_of retries request outcome]) (S (ready q)) false
      (total_bytesize q ⊕ 0) (successful q && bool_decide (code_of (response_of retries request outcome) = Success)) (unexpected_push_error q)).
  { unfold SharedQueue.push, push_locked. simpl. rewrite Ho. rewrite Z.gtb_ltb, (proj2 (Z.ltb_lt _ _)) by lia. done. }
  rewrite E. split; simpl; [done| | | |].
  - split; [|mlia]. rewrite Hr. unwrap. lia.
  - rewrite length_app. simpl. lia.
  - rewrite Hw, map_app, <- app_assoc. apply Permutation_app_head.
    transitivity (map go_request_id (request :: delete i pending)); [by apply Permutation_map|]. simpl. by rewrite Hh.
  - apply Forall_app. by repeat constructor.
Qed.

(** What other threads do keeps the books, and does not touch the reads. *)
Lemma happen_with h reads r : reader_with reads r → reader_with reads (happen h r).
Proof.
  unfold reader_with. intros Hok. destruct h as [i outcome| |]; simpl.
  - destruct (sr_pending r !! i) as [request|] eqn:Hi; [|done]. simpl. unfold complete.
    destruct (cl_responder (sr_client r)) as [q|] eqn:Hq; simpl.
    + rewrite push_keeps_stopped. destruct (stopped q) eqn:Hs; [done|]. by apply push_ok.
    + rewrite Hq. destruct Hok as [Hp _]. by rewrite Hp in Hi.
  - change (cl_responder (set_stop (sr_client r))) with (cl_responder (sr_client r)).
    destruct (cl_responder (sr_client r)) as [q|]; [|done]. by destruct (stopped q).
  - destruct (cl_stop (sr_client r)) eqn:Hs; [|by rewrite Hs]. simpl. destruct (cl_responder (sr_client r)) as [q|]; simpl; [|done]. by rewrite stop_stops.
Qed.

Lemma happenings_with hs : ∀ reads r, reader_with reads r → reader_with reads (happenings hs r).
Proof. induction hs as [|h hs IH]; intros reads r Hok; [done|]. apply (IH reads (happen h r)). by apply happen_with. Qed.

Lemma happenings_reads hs : ∀ r, sr_owed (happenings hs r) = sr_owed r ∧ sr_refused (happenings hs r) = sr_refused r ∧ sr_calls (happenings hs r) = sr_calls r.
Proof.
  induction hs as [|h hs IH]; intros r; [done|]. destruct (IH (happen h r)) as (E1 & E2 & E3).
  change (happenings (h :: hs) r) with (happenings hs (happen h r)). rewrite E1, E2, E3.
  destruct h; simpl; by repeat case_match.
Qed.

Lemma roomy_happen h r : roomy r → roomy (happen h r).
Proof.
  unfold roomy, responder_open. intros Hr. destruct h as [i outcome| |]; simpl.
  - destruct (sr_pending r !! i) as [request|] eqn:Hi; [|done]. simpl. unfold complete.
    destruct (cl_responder (sr_client r)) as [q|] eqn:Hq; simpl; [|by rewrite Hq].
    rewrite push_keeps_stopped. intros Ho%Hr. apply delete_Permutation, Permutation_length in Hi. simpl in Hi.
    clear Hr. munfold. lia.
  - done.
  - destruct (cl_stop (sr_client r)); [|done]. simpl. destruct (cl_responder (sr_client r)) as [q|]; simpl; [|done]. by rewrite stop_stops.
Qed.

Lemma roomy_happenings hs : ∀ r, roomy r → roomy (happenings hs r).
Proof. induction hs as [|h hs IH]; intros r Hr; [done|]. by apply (IH (happen h r)), roomy_happen. Qed.

Lemma make_room_spec call reads r : reader_with reads r →
  reader_with reads (make_room call r) ∧ roomy (make_room call r) ∧ sr_owed (make_room call r) = sr_owed r ∧
  sr_refused (make_room call r) = sr_refused r ∧ sr_calls (make_room call r) = sr_calls r.
Proof.
  intros Hok. unfold make_room. destruct (Z.ltb_spec (Z.of_nat (length (sr_pending r)) + 1) unsigned_modulus) as [Hl|Hl].
  { split_and!; try done. intros _. mlia. }
  destruct (happenings_reads [Completes 0 (woken_by call)] r) as (E1 & E2 & E3). split_and!; [by apply happen_with| |done|done|done].
  unfold roomy, responder_open. cbn [happen]. unfold reader_with in Hok.
  destruct (sr_pending r) as [|request l] eqn:Hp; [cbn in Hl; munfold; lia|]. cbn. unfold complete.
  destruct (cl_responder (sr_client r)) as [q|] eqn:Hq; cbn; [|by rewrite Hq]. rewrite push_keeps_stopped. intros Ho. rewrite negb_true_iff in Ho.
  rewrite Ho in Hok. destruct (qk_running _ _ _ Hok) as [_ Hu]. cbn [length] in Hu. mlia.
Qed.

Lemma begin_call_spec r call r' : begin_call r = (call, r') → reader_ok r →
  reader_ok r' ∧ sr_owed r' = sr_owed r ∧ sr_refused r' = sr_refused r ∧ sr_calls r' = tail (sr_calls r).
Proof.
  intros [= _ <-] Hok. match goal with |- reader_ok (happenings ?hs ?x) ∧ _ => destruct (happenings_reads hs x) as (E1 & E2 & E3);
    assert (H : reader_with (sr_owed r ++ sr_refused r) (happenings hs x)) by by apply happenings_with end.
  unfold reader_ok. rewrite E1, E2, E3. by split_and!.
Qed.

(** Sending a read adds it to the reads, and to the requests of the SDK. *)
Lemma send_with location uri handle offset bytesize buffer reads r client request : parse_uri location = Some uri →
  reader_with reads r → roomy r → send_read location offset bytesize buffer handle (sr_client r) = (client, request) →
  ∃ x, request = Ret x ∧ reader_with (handle :: reads) (set_pending (sr_pending r ++ [x]) (set_client client r)) ∧
    cl_stop client = cl_stop (sr_client r) ∧
    cl_responder client = Some (expect_one (cl_responder (sr_client r))).
Proof.
  unfold send_read. intros Hu Hok Hroom. rewrite Hu. intros [= <- <-]. eexists. split; [done|]. split; [|done].
  unfold reader_with, roomy, responder_open in *. simpl. destruct (cl_responder (sr_client r)) as [q|]; simpl.
  - destruct (stopped q) eqn:Hs; [done|]. specialize (Hroom eq_refl). destruct Hok as [Hm [Hr Hun] Ht Hw Hc]. split; simpl; [done| |done| |done].
    + rewrite length_app. simpl. rewrite Nat2Z.inj_add. change (Z.of_nat 1) with 1. rewrite Hr. split; [|done]. unwrap. lia.
    + rewrite Hw, map_app. simpl. solve_Permutation.
  - destruct Hok as [Hp ->]. rewrite Hp. split; simpl; [done|split; [done|mlia]|done|done|constructor].
Qed.

Lemma sent_read_spec handle owed refused r : reader_with (handle :: owed ++ refused) r → sr_refused r = refused →
  reader_ok (sent_read handle owed r) ∧
  sr_owed (sent_read handle owed r) = (if bool_decide (read_result (sr_client r) = Success) then [handle] else []) ++ owed.
Proof.
  intros Hok Hf. unfold sent_read. case_bool_decide as Hres.
  - split; [|done]. unfold reader_ok. simpl. rewrite Hf. exact Hok.
  - split; [|done]. unfold reader_ok, responder_open. simpl. rewrite Hf. unfold reader_with in *. simpl.
    destruct (cl_responder (sr_client r)) as [q|]; [|by destruct Hok]. destruct (stopped q); simpl; [done|].
    destruct Hok as [H1 H2 H3 H4 H5]. split; try done. rewrite <- H4. solve_Permutation.
Qed.

Lemma read_result_success c : bool_decide (read_result c = Success) = negb (cl_stop c).
Proof. unfold read_result. by destruct (cl_stop c). Qed.

Lemma read_chunk_ok location handle offset bytesize buffer r e r' :
  reader_ok r → read_chunk location handle offset bytesize buffer r = (e, r') →
  reader_ok r' ∧ sr_owed r' = match e with Some _ => [] | None => [handle] end ++ sr_owed r.
Proof.
  intros Hok. unfold read_chunk. destruct (parse_uri location) as [uri|] eqn:Hu; [|by intros [= <- <-]].
  destruct (begin_call r) as [call r1] eqn:Hb. destruct (begin_call_spec _ _ _ Hb Hok) as (Hok1 & Ho1 & _ & _).
  destruct (make_room_spec call _ r1 Hok1) as (Hok2 & Hroom & Ho2 & Hf2 & _). set (r2 := make_room call r1) in *. clearbody r2.
  rewrite <- Ho2, <- Hf2 in Hok2. rewrite <- Ho1, <- Ho2. clear Hok Hok1 Ho1 Ho2 Hf2 Hb.
  unfold client_async_read, read_entry. destruct (cl_stop (sr_client r2)); [by intros [= <- <-]|].
  destruct (happenings_reads (between call (sr_client r2)) r2) as (Ho3 & Hf3 & _).
  pose proof (happenings_with (between call (sr_client r2)) _ _ Hok2) as Hok3. pose proof (roomy_happenings (between call (sr_client r2)) _ Hroom) as Hroom3.
  set (r3 := happenings (between call (sr_client r2)) r2) in *. clearbody r3.
  destruct (send_read location offset bytesize buffer handle (sr_client r3)) as [client request] eqn:Es.
  destruct (send_with _ _ _ _ _ _ _ _ _ _ Hu Hok3 Hroom3 Es) as (x & -> & Hok4 & _).
  apply (happenings_with (before_return call)) in Hok4.
  destruct (happenings_reads (before_return call) (set_pending (sr_pending r3 ++ [x]) (set_client client r3))) as (_ & Hf5 & _).
  change (sr_pending (set_client client r3)) with (sr_pending r3). change (sr_owed (set_client client r3)) with (sr_owed r3).
  set (r5 := happenings (before_return call) _) in *. clearbody r5. simpl in Hf5. rewrite <- Ho3 in Hok4. rewrite <- Hf3, <- Hf5 in Hok4.
  intros [= <- <-]. destruct (sent_read_spec handle (sr_owed r3) _ r5 Hok4 eq_refl) as [Hok5 Ho5]. split; [done|]. rewrite Ho5, Ho3.
  unfold reader_async_read, obj_request_read. by case_bool_decide.
Qed.

(** A call that waits is woken: an open responder that expects a response has one, or the SDK holds a request. *)
Lemma open_reads q pending reads : queue_ok q pending reads → finished q = bool_decide (reads = []).
Proof.
  intros [_ [Hr _] _ Hw _]. unfold finished. rewrite Hr.
  pose proof (Permutation_length Hw) as Hl. rewrite length_app, !length_map in Hl.
  destruct (responses q) as [|x l]; simpl in *.
  - rewrite andb_true_r. destruct (Z.eqb_spec (Z.of_nat (length pending)) 0); symmetry;
      [apply bool_decide_eq_true; destruct reads; [done|simpl in *; lia]|apply bool_decide_eq_false; intros ->; simpl in *; lia].
  - rewrite andb_false_r. symmetry. apply bool_decide_eq_false. intros ->. simpl in Hl. lia.
Qed.

Lemma remove_handle_perm h l : h ∈ l → l ≡ₚ h :: remove_handle h l.
Proof.
  induction l as [|x l IH]; intros Hin; [by apply elem_of_nil in Hin|]. simpl. destruct (Z.eqb_spec x h) as [->|Hne]; [done|].
  apply elem_of_cons in Hin as [->|Hin]; [done|]. rewrite (IH Hin) at 1. by apply Permutation_swap.
Qed.

(** What a call that found no end gets: the end after all, or the oldest response. *)
Definition took (reads : list Z) (x : BackendResponse) (client : S3Client) (r : S3Reader) : Prop :=
  if decide (br_ret x = FinishedError) then reader_with reads (set_client client r)
  else ∃ rest, reads ≡ₚ br_handle x :: rest ∧ reader_with rest (set_client client r).

Lemma take_open reads r q : cl_responder (sr_client r) = Some q → stopped q = false → queue_ok q (sr_pending r) reads → responses q ≠ [] →
  ∃ x client, response_taken (sr_client r) = Ret (x, client) ∧ took reads x client r.
Proof.
  intros Hq Hs [Hm Hr Ht Hw Hc] Hne. unfold response_taken. rewrite Hq. unfold pop_locked. simpl. rewrite Hs.
  destruct (responses q) as [|x l] eqn:Hresp; [done|]. simpl. eexists x, _. split; [done|].
  apply Forall_cons in Hc as [Hx Hc]. unfold took. rewrite decide_False by done. simpl in Hw.
  exists (map br_handle l ++ map go_request_id (sr_pending r)). split; [done|]. unfold reader_with. simpl.
  split; simpl; [done|done|by rewrite Ht|done|done].
Qed.

Lemma take_stopped reads r q : cl_responder (sr_client r) = Some q → stopped q = true → reader_with reads r →
  ∃ x client, response_taken (sr_client r) = Ret (x, client) ∧ took reads x client r.
Proof.
  unfold reader_with. intros Hq Hs Hok. rewrite Hq, Hs in Hok. unfold response_taken. rewrite Hq. unfold pop_locked. simpl. rewrite Hs. simpl.
  eexists _, _. split; [done|]. unfold took. rewrite decide_True by done. unfold reader_with.
  cbn [sr_client set_client cl_responder set_responder set_ready stopped]. rewrite Hs. exact Hok.
Qed.

Lemma next_response_ok call reads r taken r' : reader_with reads r → next_response call r = (taken, r') →
  ∃ x client, taken = Ret (x, client) ∧ took reads x client r' ∧ sr_owed r' = sr_owed r ∧ sr_refused r' = sr_refused r ∧ sr_calls r' = sr_calls r.
Proof.
  intros Hok. unfold next_response. destruct (response_entry (sr_client r)) as [response|] eqn:He.
  - intros [= <- <-]. exists response, (sr_client r). split; [done|]. split; [|done]. unfold took. rewrite decide_True; [by destruct r|].
    unfold response_entry, pop_entry in He. destruct (cl_responder (sr_client r)) as [q|]; [|by injection He as <-].
    destruct (stopped q); [by injection He as <-|]. destruct (_ && _); [by injection He as <-|done].
  - unfold response_entry in He. destruct (cl_responder (sr_client r)) as [q|] eqn:Hq; [|done]. unfold pop_entry in He.
    destruct (stopped q) eqn:Hst; [done|]. pose proof Hok as Hok0. unfold reader_with in Hok0. rewrite Hq, Hst in Hok0.
    rewrite (qk_mode _ _ _ Hok0), bool_decide_true, (open_reads _ _ _ Hok0) in He by done. simpl in He.
    destruct (bool_decide_reflect (reads = [])) as [|Hreads]; [done|]. clear He Hok0 Hst Hq q.
    pose proof (happenings_with (while_waiting call) _ _ Hok) as Hok1. destruct (happenings_reads (while_waiting call) r) as (E1 & E2 & E3).
    set (r1 := happenings (while_waiting call) r) in *. clearbody r1. rewrite <- E1, <- E2, <- E3. clear Hok E1 E2 E3.
    pose proof Hok1 as Hok2. unfold reader_with in Hok2. destruct (cl_responder (sr_client r1)) as [q|] eqn:Hq; [|by destruct Hok2].
    destruct (stopped q) eqn:Hst.
    + set (r2 := if (ready q =? 0)%nat then _ else r1). assert (reader_with reads r2 ∧ (∃ q2, cl_responder (sr_client r2) = Some q2 ∧ stopped q2 = true) ∧
        sr_owed r2 = sr_owed r1 ∧ sr_refused r2 = sr_refused r1 ∧ sr_calls r2 = sr_calls r1) as (H1 & (q2 & H2 & H3) & H4 & H5 & H6).
      { unfold r2. destruct (ready q =? 0)%nat; [|by eauto 10]. destruct (happenings_reads [Completes 0 (woken_by call)] r1) as (F1 & F2 & F3).
        split; [by apply happen_with|]. split; [|done]. simpl. destruct (sr_pending r1) as [|y l]; simpl; [by exists q|].
        unfold complete. rewrite Hq. simpl. eexists. split; [done|]. by rewrite push_keeps_stopped. }
      intros [= <- <-]. destruct (take_stopped reads r2 q2 H2 H3 H1) as (x & client & -> & Ht). exists x, client. by split_and!.
    + destruct (Nat.eqb_spec (ready q) 0) as [Hz|Hz].
      * assert (Hpend : ∃ request l, sr_pending r1 = request :: l).
        { pose proof (qk_reads _ _ _ Hok2) as Hw. rewrite (qk_tokens _ _ _ Hok2) in Hz. destruct (responses q); [|done]. simpl in Hw.
          destruct (sr_pending r1) as [|request l]; [by apply Permutation_nil_r in Hw|by eexists _, _]. }
        destruct Hpend as (request & l & Hp). assert (Hi : sr_pending r1 !! 0%nat = Some request) by by rewrite Hp.
        pose proof (push_ok (cl_application_retries_enabled (sr_client r1)) request (woken_by call) q 0 _ _ Hst Hok2 Hi) as Hpush.
        destruct (happenings_reads [Completes 0 (woken_by call)] r1) as (F1 & F2 & F3). cbn [happenings fold_left] in F1, F2, F3.
        assert (Hq2 : cl_responder (sr_client (happen (Completes 0 (woken_by call)) r1)) =
          Some (SharedQueue.push (response_of (cl_application_retries_enabled (sr_client r1)) request (woken_by call)) 0 q)).
        { cbn [happen]. rewrite Hi. simpl. unfold complete. by rewrite Hq. }
        destruct (take_open reads _ _ Hq2) as (x & client & Et & Ht).
        -- by rewrite push_keeps_stopped.
        -- cbn [happen]. rewrite Hi. exact Hpush.
        -- intros Hnil. pose proof (qk_tokens _ _ _ Hpush) as Htok. rewrite Hnil in Htok. simpl in Htok.
           unfold SharedQueue.push, push_locked in Htok. simpl in Htok. rewrite Hst in Htok.
           rewrite Z.gtb_ltb, (proj2 (Z.ltb_lt _ _)) in Htok; [done|]. rewrite (proj1 (qk_running _ _ _ Hok2)), Hp. simpl. lia.
        -- intros [= <- <-]. exists x, client. by split_and!.
      * destruct (take_open reads r1 q Hq Hst Hok2) as (x & client & Et & Ht).
        { intros Hnil. apply Hz. by rewrite (qk_tokens _ _ _ Hok2), Hnil. }
        intros [= <- <-]. exists x, client. by split_and!.
Qed.

Lemma report_read_perm h owed refused rest : owed ++ refused ≡ₚ h :: rest →
  let '(owed', refused') := report_read h (owed, refused) in
  owed' ++ refused' ≡ₚ rest ∧ (refused = [] → refused' = [] ∧ owed ≡ₚ h :: owed').
Proof.
  intros Hp. unfold report_read. simpl. assert (Hin : h ∈ owed ++ refused) by (rewrite Hp; by left).
  case_bool_decide as Ho.
  - pose proof (remove_handle_perm _ _ Ho) as E. split; [|done]. apply (inj (cons h)).
    transitivity (owed ++ refused); [|exact Hp]. rewrite app_comm_cons. symmetry. by apply Permutation_app_tail.
  - apply elem_of_app in Hin as [?|Hin]; [done|]. pose proof (remove_handle_perm _ _ Hin) as E. split.
    + apply (inj (cons h)). transitivity (owed ++ refused); [|exact Hp]. rewrite Permutation_middle. symmetry. by apply Permutation_app_head.
    + intros ->. by apply elem_of_nil in Hin.
Qed.

(** What a call reports: one event, which is the end of a read that was sent unless it says there is no more. *)
Lemma read_responses_ok most r code events r' : reader_ok r → 0 <= most → read_responses most r = (code, events, r') →
  reader_ok r' ∧ code = Success ∧
  ∃ ended markers : list Event, events = ended ++ markers ∧ Forall (λ x, x.2 ≠ FinishedError) ended ∧
    Forall (λ x, x.2 = FinishedError) markers ∧ sr_owed r ++ sr_refused r ≡ₚ map fst ended ++ sr_owed r' ++ sr_refused r' ∧
    (sr_refused r = [] → sr_refused r' = [] ∧ sr_owed r ≡ₚ map fst ended ++ sr_owed r').
Proof.
  intros Hok Hmost. unfold read_responses. destruct (begin_call r) as [call r1] eqn:Hb.
  destruct (begin_call_spec _ _ _ Hb Hok) as (Hok1 & <- & <- & _). clear Hok Hb r.
  destruct (Z.eqb_spec most 0) as [|Hne].
  { intros [= <- <- <-]. split; [done|]. split; [done|]. exists [], []. split_and!; [done|constructor|constructor|done|done]. }
  destruct (next_response call r1) as [taken r2] eqn:Hn.
  destruct (next_response_ok _ _ _ _ _ Hok1 Hn) as (x & client & -> & Hx & E1 & E2 & _). rewrite <- E1, <- E2 in Hx |- *. cbn [obind].
  unfold obj_wait_for_completions, async_read_response. rewrite (proj2 (Z.eqb_neq most 0)) by done. cbn [option_list].
  rewrite bool_decide_true by done. rewrite (proj2 (Z.leb_le _ _)) by (simpl; lia). cbn. unfold took in Hx.
  destruct (decide (br_ret x = FinishedError)) as [Hf|Hf].
  - do 2 (case_bool_decide; [|done]; cbn). intros [= <- <- <-]. split; [exact Hx|]. split; [done|].
    exists [], [(br_handle x, br_ret x)]. split_and!; [done|constructor|by repeat constructor|done|done].
  - case_bool_decide; [|done]. cbn. case_bool_decide; [done|]. cbn. destruct Hx as (rest & Hp & Hrest).
    pose proof (report_read_perm _ _ _ _ Hp) as Hrep. destruct (report_read (br_handle x) (sr_owed r2, sr_refused r2)) as [owed refused].
    destruct Hrep as [Hperm Hnone]. intros [= <- <- <-]. split; [|split; [done|]].
    + unfold reader_ok. simpl. eapply reader_with_perm; [by symmetry; exact Hperm|exact Hrest].
    + exists [(br_handle x, br_ret x)], []. split_and!; [done|by repeat constructor|constructor| |done]. simpl. rewrite Hp. by constructor.
Qed.

(** ** Stops that come between *)

Definition sets_stop (h : Happening) : bool := match h with SetsStop => true | _ => false end.
Definition stops_responder (h : Happening) : bool := match h with StopsResponder => true | _ => false end.

(** Each stop that begins in [hs] also stops the responder in [hs]. *)
Fixpoint stops_complete (hs : list Happening) : bool :=
  match hs with
  | [] => true
  | h :: hs => (if sets_stop h then existsb stops_responder hs else true) && stops_complete hs
  end.

(** No stop is cut in two by a read that it began in: it is over before the read returns, and it does not begin between the check
    of a client's first read and the making of its responder, which it would miss. *)
Definition timely_call (call : Call) : bool :=
  stops_complete (after_check call ++ before_return call) && negb (existsb sets_stop (after_first_check call)).

Definition timely (r : S3Reader) : Prop := Forall timely_call (sr_calls r).

(** The flag, and whether the responder is stopped, when there is one. *)
Definition flag_step (s : bool * bool) (h : Happening) : bool * bool :=
  match h with SetsStop => (true, s.2) | StopsResponder => (s.1, s.1 || s.2) | Completes _ _ => s end.

Lemma happenings_flags hs : ∀ r q, cl_responder (sr_client r) = Some q →
  ∃ q', cl_responder (sr_client (happenings hs r)) = Some q' ∧
    (cl_stop (sr_client (happenings hs r)), stopped q') = fold_left flag_step hs (cl_stop (sr_client r), stopped q).
Proof.
  induction hs as [|h hs IH]; intros r q Hq; [by exists q|]. change (happenings (h :: hs) r) with (happenings hs (happen h r)). cbn [fold_left].
  assert (∃ q1, cl_responder (sr_client (happen h r)) = Some q1 ∧
    (cl_stop (sr_client (happen h r)), stopped q1) = flag_step (cl_stop (sr_client r), stopped q) h) as (q1 & H1 & H2).
  { destruct h as [i outcome| |]; cbn [happen flag_step].
    - destruct (sr_pending r !! i); [|by exists q]. simpl. unfold complete. rewrite Hq. simpl. eexists. split; [done|]. by rewrite push_keeps_stopped.
    - exists q. split; [exact Hq|done].
    - destruct (cl_stop (sr_client r)) eqn:Hs; cbn [fst snd orb]; [|exists q; split; [done|by rewrite Hs]]. simpl. rewrite Hq. simpl. eexists.
      split; [done|]. by rewrite Hs, stop_stops. }
  destruct (IH _ _ H1) as (q' & H3 & H4). exists q'. split; [done|]. by rewrite H4, H2.
Qed.

Lemma happenings_none hs : ∀ r, cl_responder (sr_client r) = None → sr_pending r = [] →
  cl_responder (sr_client (happenings hs r)) = None ∧ sr_pending (happenings hs r) = [] ∧
  cl_stop (sr_client (happenings hs r)) = cl_stop (sr_client r) || existsb sets_stop hs.
Proof.
  induction hs as [|h hs IH]; intros r Hq Hp; [by rewrite orb_false_r|]. change (happenings (h :: hs) r) with (happenings hs (happen h r)).
  assert (cl_responder (sr_client (happen h r)) = None ∧ sr_pending (happen h r) = [] ∧
    cl_stop (sr_client (happen h r)) = cl_stop (sr_client r) || sets_stop h) as (H1 & H2 & H3).
  { destruct h as [i outcome| |]; cbn [happen sets_stop].
    - rewrite Hp. simpl. by rewrite orb_false_r.
    - split; [exact Hq|]. split; [exact Hp|]. by rewrite orb_true_r.
    - destruct (cl_stop (sr_client r)) eqn:Hs; [|by rewrite Hs]. simpl. by rewrite Hq. }
  destruct (IH _ H1 H2) as (H4 & H5 & H6). split; [done|]. split; [done|]. by rewrite H6, H3, <- orb_assoc.
Qed.

Lemma flags_stopped hs : ∀ f s, (s = true ∨ (f = true ∧ existsb stops_responder hs = true)) → (fold_left flag_step hs (f, s)).2 = true.
Proof.
  induction hs as [|h hs IH]; intros f s Hs; cbn [fold_left]; [by destruct Hs as [->|[_ ?]]|].
  destruct h; cbn [flag_step fst snd] in *; apply IH; destruct Hs as [->|[-> He]]; cbn [existsb stops_responder orb] in *; auto.
  left. by rewrite orb_true_r.
Qed.

Lemma flags_complete hs s : stops_complete hs = true → (fold_left flag_step hs (false, s)).1 = true → (fold_left flag_step hs (false, s)).2 = true.
Proof.
  revert s. induction hs as [|h hs IH]; intros s; cbn [fold_left stops_complete]; [done|]. intros [H1 H2]%andb_true_iff.
  destruct h; cbn [flag_step fst snd sets_stop orb] in *; [by apply IH| |by apply IH]. intros _. apply flags_stopped. by right.
Qed.

Lemma stops_complete_tail l1 l2 : stops_complete (l1 ++ l2) = true → stops_complete l2 = true.
Proof. induction l1 as [|h l1 IH]; [done|]. simpl. intros [_ H]%andb_true_iff. by apply IH. Qed.

(** The call that a reader makes next, and the calls that are left. *)
Lemma begin_call_timely r call r1 : begin_call r = (call, r1) → timely r → timely r1 ∧ timely_call call.
Proof.
  intros [= <- <-] Ht. unfold timely in *. rewrite (proj2 (proj2 (happenings_reads _ _))). simpl.
  destruct (sr_calls r) as [|c l]; [by split|]. by apply Forall_cons in Ht as [? ?].
Qed.

(** A timely read leaves no responder open that it was refused by. *)
Lemma refused_closed call r q : reader_with (sr_owed r ++ sr_refused r) r → timely_call call → cl_stop (sr_client r) = false →
  let r3 := happenings (between call (sr_client r)) r in
  ∀ r4, cl_stop (sr_client r4) = cl_stop (sr_client r3) → cl_responder (sr_client r4) = Some (expect_one (cl_responder (sr_client r3))) →
  let r5 := happenings (before_return call) r4 in
  cl_responder (sr_client r5) = Some q → cl_stop (sr_client r5) = true → stopped q = true.
Proof.
  intros Hok Hcall Hs r3 r4 Hs4 Hq4 r5 Hq5 Hs5. apply Is_true_eq_true, andb_true_iff in Hcall as [Hcomp Hf]. apply negb_true_iff in Hf.
  destruct (happenings_flags (before_return call) _ _ Hq4) as (q' & Hq' & Hflags). fold r5 in Hq', Hflags. rewrite Hq' in Hq5. injection Hq5 as ->.
  apply (f_equal fst) in Hflags as H1. apply (f_equal snd) in Hflags as H2. simpl in H1, H2. rewrite H2. rewrite Hs5 in H1. clear Hflags H2.
  rewrite Hs4 in H1 |- *. unfold r3, between in *. destruct (cl_responder (sr_client r)) as [q0|] eqn:Hq.
  - destruct (happenings_flags (after_check call) r q0 Hq) as (q3 & Hq3 & Hflags). rewrite Hq3 in H1 |- *. simpl in H1 |- *.
    rewrite Hs in Hflags. rewrite Hflags, <- fold_left_app in H1 |- *. by apply flags_complete.
  - unfold reader_with in Hok. rewrite Hq in Hok. destruct Hok as [Hp _].
    destruct (happenings_none (after_first_check call) r Hq Hp) as (Hq3 & _ & Hs3). rewrite Hs, Hf in Hs3. rewrite Hs3 in H1 |- *. simpl in H1 |- *.
    apply flags_complete; [|done]. by apply stops_complete_tail in Hcomp.
Qed.

Lemma read_chunk_timely location handle offset bytesize buffer r e r' : reader_ok r → timely r → sr_refused r = [] →
  read_chunk location handle offset bytesize buffer r = (e, r') → timely r' ∧ sr_refused r' = [].
Proof.
  intros Hok Ht Hf. unfold read_chunk. destruct (parse_uri location) as [uri|] eqn:Hu; [|by intros [= <- <-]].
  destruct (begin_call r) as [call r1] eqn:Hb. destruct (begin_call_spec _ _ _ Hb Hok) as (Hok1 & Ho1 & Hf1 & _).
  destruct (begin_call_timely _ _ _ Hb Ht) as [Ht1 Htc]. destruct (make_room_spec call _ r1 Hok1) as (Hok2 & _ & Ho2 & Hf2 & Hc2).
  set (r2 := make_room call r1) in *. clearbody r2. rewrite <- Ho2, <- Hf2 in Hok2. rewrite Hf in Hf1. rewrite Hf1 in Hf2.
  unfold timely in *. rewrite <- Hc2 in Ht1. unfold client_async_read, read_entry.
  destruct (cl_stop (sr_client r2)) eqn:Hs2; [by intros [= <- <-]|].
  destruct (happenings_reads (between call (sr_client r2)) r2) as (_ & Hf3 & Hc3).
  pose proof (refused_closed call r2) as Hclosed. cbn zeta in Hclosed. set (r3 := happenings (between call (sr_client r2)) r2) in *.
  unfold send_read. rewrite Hu. intros [= _ <-]. match goal with |- context [happenings (before_return call) ?x] => set (r4 := x) end.
  destruct (happenings_reads (before_return call) r4) as (_ & Hf5 & Hc5).
  destruct (happenings_flags (before_return call) r4 (expect_one (cl_responder (sr_client r3))) eq_refl) as (q & Hq & _).
  specialize (Hclosed q Hok2 Htc Hs2 r4 eq_refl eq_refl Hq). set (r5 := happenings (before_return call) r4) in *.
  assert (Hc : sr_calls r5 = sr_calls r2) by (rewrite Hc5; exact Hc3). assert (Hn : sr_refused r5 = []) by (rewrite Hf5; simpl; by rewrite Hf3).
  unfold sent_read. rewrite read_result_success. destruct (cl_stop (sr_client r5)) eqn:Hs5; simpl; rewrite Hc; [|done].
  unfold responder_open. by rewrite Hq, (Hclosed eq_refl).
Qed.

Lemma read_responses_timely most r code events r' : reader_ok r → timely r → read_responses most r = (code, events, r') → timely r'.
Proof.
  intros Hok Ht. unfold read_responses. destruct (begin_call r) as [call r1] eqn:Hb.
  destruct (begin_call_timely _ _ _ Hb Ht) as [Ht1 _]. destruct (begin_call_spec _ _ _ Hb Hok) as (Hok1 & _).
  destruct (most =? 0); [by intros [= _ _ <-]|]. destruct (next_response call r1) as [taken r2] eqn:Hn.
  destruct (next_response_ok _ _ _ _ _ Hok1 Hn) as (x & client & -> & _ & _ & _ & Hc). unfold timely in *. rewrite <- Hc in Ht1.
  repeat (case_match; simplify_eq; simpl in * ); intros; simplify_eq; exact Ht1.
Qed.

(** ** The laws of a reader *)

(** What holds between the calls when every stop is timely. *)
Definition reader_good (r : S3Reader) : Prop := reader_ok r ∧ timely r ∧ sr_refused r = [].

Definition Reader : Type := { r : S3Reader | reader_good r }.

Definition reader_step {A} (op : S3Reader → A * S3Reader) (ok : ∀ r, reader_good r → reader_good (op r).2) (r : Reader) : A * Reader :=
  ((op (proj1_sig r)).1, exist _ (op (proj1_sig r)).2 (ok _ (proj2_sig r))).

Lemma read_chunk_keeps location h offset bytesize buffer r : reader_good r → reader_good (read_chunk location h offset bytesize buffer r).2.
Proof.
  intros (Hok & Ht & Hf). destruct (read_chunk location h offset bytesize buffer r) as [e r'] eqn:E. split; [by apply (read_chunk_ok _ _ _ _ _ _ _ _ Hok E)|].
  by apply (read_chunk_timely _ _ _ _ _ _ _ _ Hok Ht Hf E).
Qed.

Lemma read_responses_keeps most r : reader_good r → reader_good (read_responses (Z.max 0 most) r).2.
Proof.
  intros (Hok & Ht & Hf). destruct (read_responses (Z.max 0 most) r) as [[code events] r'] eqn:E.
  destruct (read_responses_ok _ _ _ _ _ Hok (Z.le_max_l _ _) E) as (Hok' & _ & ended & markers & _ & _ & _ & _ & Hrefused).
  split; [done|]. split; [by apply (read_responses_timely _ _ _ _ _ Hok Ht E)|by apply Hrefused].
Qed.

Definition set_now (now : Z) (r : S3Reader) : S3Reader :=
  mkS3Reader (sr_client r) (sr_pending r) (sr_owed r) (sr_refused r) (sr_calls r) now.

Lemma set_now_keeps f r : reader_good r → reader_good (set_now (f r) r).
Proof. done. Qed.

(** The most events wanted is an unsigned number; the clock passes, and the delay of a retry is drawn, as they like. *)
#[export] Instance s3_object_reader : ObjectReader Reader := {
  async_read location h offset bytesize buffer := reader_step (read_chunk location h offset bytesize buffer) (read_chunk_keeps _ _ _ _ _);
  async_response most := reader_step (read_responses (Z.max 0 most)) (read_responses_keeps most);
  clock_now := reader_step (λ r, (sr_now r, set_now (sr_now r + 1) r)) (set_now_keeps (λ r, sr_now r + 1));
  sleep_until t r := (reader_step (λ r, ((), set_now (Z.max t (sr_now r)) r)) (set_now_keeps (λ r, Z.max t (sr_now r))) r).2;
  draw_delay _ most := most;
  reading r := sr_owed (proj1_sig r) }.

(** C32: The S3 plugin, under the wrapper and the reader of the streamer, keeps the promises the object storage worker was
    verified against, whatever the SDK completes and whenever - before a call, at any point of one, or to end a wait - and
    whenever the clients are stopped outside a read: a read that was accepted is reported at most once and stays owed until it is,
    one that was refused is never reported, and a call reports at most reads that it owes and then that there is no more.  A stop
    that begins within a read is in two halves, and the theorem asks of the schedule ([timely]) that such a stop is over before the
    read returns, and that none begins between the check of the flag by a client's first read and the making of its responder:
    that one misses the responder, and the read it refused is reported after all ([first_read_misses_the_stop]). *)
Theorem s3_plugin_is_an_object_reader : ReaderLaws Reader.
Proof.
  split.
  - intros location h offset bytesize buffer [r Hr] e r' E. injection E as E1 E2. subst r'. simpl. pose proof Hr as (Hok & _).
    destruct (read_chunk location h offset bytesize buffer r) as [e' r2] eqn:Er. simpl in *. subst e'.
    destruct (read_chunk_ok _ _ _ _ _ _ _ _ Hok Er) as [_ ->]. done.
  - intros most [r Hr] code events r' E. injection E as E1 E2. subst r'. simpl. pose proof Hr as (Hok & _ & Hf).
    destruct (read_responses (Z.max 0 most) r) as [[code' events'] r2] eqn:Er. simpl in *. injection E1 as -> ->.
    destruct (read_responses_ok _ _ _ _ _ Hok (Z.le_max_l _ _) Er) as (_ & -> & ended & markers & H1 & H2 & H3 & _ & H4).
    rewrite decide_True by done. exists ended, markers. split_and!; [done..|]. by apply H4.
  - by intros [r Hr].
  - by intros t [r Hr].
Qed.

(** ** Examples *)
Module Reads.
Definition sdk : ClientConfiguration := mkClientConfiguration 8388608 None 25 10 1000 1 [] HTTPS true [] [].
Definition client : S3Client := mkS3Client (mkBase None None None None None 8388608) false true sdk 187500000 None.
Definition reads_of (calls : list Call) : S3Reader := mkS3Reader client [] [] [] calls 0.
Definition location : text := txt "s3://bucket/model".

(** Two chunks; the second one lands first, the first one is throttled and may be read again, and then there is no more. *)
Example out_of_order :
  let calls := [quiet_call; quiet_call; mkCall [Completes 1 (GotObject 100)] [] [] [] [] (GotObject 0);
                mkCall [] [] [] [] [] (GetFailed false 429 OtherError); quiet_call] in
  let r := (read_chunk location 7 0 100 4096 (reads_of calls)).2 in
  let r := (read_chunk location 8 100 100 4196 r).2 in
  let '(_, first, r) := read_responses 1 r in
  let '(_, second, r) := read_responses 1 r in
  let '(_, third, r) := read_responses 1 r in
  timely (reads_of calls) ∧ first = [(8, Success)] ∧ second = [(7, RetryableFileAccessError)] ∧ third = [(0, FinishedError)] ∧ sr_owed r = [].
Proof. vm_compute. split; [by repeat constructor|done]. Qed.

(** The clients are stopped after the request was sent: the read is refused, and its completion is not reported. *)
Example stopped_midway :
  let calls := [mkCall [] [] [] [SetsStop; StopsResponder] [] (GotObject 0); mkCall [Completes 0 (GotObject 100)] [] [] [] [] (GotObject 0)] in
  let '(e, r) := read_chunk location 7 0 100 4096 (reads_of calls) in
  timely (reads_of calls) ∧
  e = Some (Code FinishedError) ∧ map go_range (sr_pending r) = [txt "bytes=0-99"] ∧ (read_responses 1 r).1 = (Success, [(0, FinishedError)]).
Proof. vm_compute. split; [by repeat constructor|done]. Qed.

(** And so is a second read that the stop comes before the sending of: the responder is there to be stopped. *)
Example second_read_meets_the_stop :
  let calls := [quiet_call; mkCall [] [SetsStop; StopsResponder] [] [] [] (GotObject 0); mkCall [Completes 1 (GotObject 100)] [] [] [] [] (GotObject 0)] in
  let r := (read_chunk location 7 0 100 4096 (reads_of calls)).2 in
  let '(e, r) := read_chunk location 8 100 100 4196 r in
  timely (reads_of calls) ∧ e = Some (Code FinishedError) ∧ length (sr_pending r) = 2%nat ∧ (read_responses 1 r).1 = (Success, [(0, FinishedError)]).
Proof. vm_compute. split; [by repeat constructor|done]. Qed.

(** A stop between the check of the first read and the making of the responder finds none to stop.  The read is sent and refused, and
    the responder that was made for it reports it after all; nor does it wake anybody who waits for it. *)
Example first_read_misses_the_stop :
  let calls := [mkCall [] [] [SetsStop; StopsResponder] [] [] (GotObject 0); quiet_call] in
  let '(e, r) := read_chunk location 7 0 100 4096 (reads_of calls) in
  e = Some (Code FinishedError) ∧ sr_refused r = [7] ∧ responder_open (sr_client r) = true ∧
  (read_responses 1 r).1 = (Success, [(7, FileTruncatedError)]).
Proof. vm_compute. done. Qed.

(** A stop that is between its two halves when the read returns lets the completion of the refused read through as well. *)
Example half_a_stop :
  let calls := [mkCall [] [] [] [SetsStop] [] (GotObject 0); mkCall [] [] [] [] [] (GotObject 100); mkCall [StopsResponder] [] [] [] [] (GotObject 0)] in
  let '(e, r) := read_chunk location 7 0 100 4096 (reads_of calls) in
  let '(_, first, r) := read_responses 1 r in
  e = Some (Code FinishedError) ∧ first = [(7, Success)] ∧ (read_responses 1 r).1 = (Success, [(0, FinishedError)]).
Proof. vm_compute. done. Qed.
End Reads.
