(* ===== verification/Fd.v ===== *)
(** Reading through a descriptor (utils/fd) and the synchronous file reader over it (streamer/impl/file).

    The file is its bytes and the descriptor its position; what each read(2) does - be interrupted, fail, or transfer up to
    so many bytes - is a list of answers, after which the kernel transfers all it is asked for. *)

From S2P Require Import Prelude ResponseCode.

(** ** The kernel *)

Inductive OsAnswer := Interrupted | Refused | Transfers (most : Z).

(** What one read(2) returns: -1 with EINTR or another errno, or a count. *)
Inductive OsResult := Eintr | OsError | Count (n : Z).

Inductive FileKind := Regular | Block | Character | Directory | Fifo | Socket | OtherKind.

Section Fd.
Context {A : Type}.

Record Descriptor := mkDescriptor { ds_kind : FileKind; ds_content : list A; ds_position : Z; ds_answers : list OsAnswer }.

Definition ds_size (d : Descriptor) : Z := Z.of_nat (length (ds_content d)).
(** The st_size of fstat(2): the length of a regular file, zero for a device. *)
Definition fd_size (d : Descriptor) : Z := match ds_kind d with Regular => ds_size d | _ => 0 end.

Definition ds_left (d : Descriptor) : Z := Z.max 0 (ds_size d - ds_position d).

(** The bytes of a region, at the addresses from [buffer] on. *)
Definition store (buffer : Z) (bytes : list A) (mem : Z → A) : Z → A :=
  λ a, if (buffer <=? a) && (a <? buffer + Z.of_nat (length bytes)) then default (mem a) (bytes !! Z.to_nat (a - buffer)) else mem a.

Definition bytes_at (position n : Z) (content : list A) : list A := take (Z.to_nat n) (drop (Z.to_nat position) content).

(** A read that transfers anything transfers at least one byte, and none only at the end or when none is wanted. *)
Definition os_read (buffer count : Z) (d : Descriptor) (mem : Z → A) : OsResult * Descriptor * (Z → A) :=
  let answers := tail (ds_answers d) in
  let transfer most :=
    let n := Z.min count (Z.min (Z.max 1 most) (ds_left d)) in
    (Count n, mkDescriptor (ds_kind d) (ds_content d) (ds_position d + n) answers, store buffer (bytes_at (ds_position d) n (ds_content d)) mem) in
  match ds_answers d with
  | Interrupted :: _ => (Eintr, mkDescriptor (ds_kind d) (ds_content d) (ds_position d) answers, mem)
  | Refused :: _ => (OsError, mkDescriptor (ds_kind d) (ds_content d) (ds_position d) answers, mem)
  | Transfers most :: _ => transfer most
  | [] => transfer count
  end.

(** ** Fd::read *)

Inductive ReadMode := Exactly | Eof | UpTo.

#[export] Instance ReadMode_eq_dec : EqDecision ReadMode.
Proof. solve_decision. Defined.

Definition CHUNK_SIZE : Z := 16384.

(** The loop; [None] when the fuel is gone. *)
Fixpoint fd_read_loop (fuel : nat) (size data : Z) (mode : ReadMode) (chunk_size total : Z) (d : Descriptor) (mem : Z → A) :
    option (outcome Z * Descriptor * (Z → A)) :=
  if negb (total <? size) then Some (Ret total, d, mem)
  else
    match fuel with
    | O => None
    | S fuel =>
        let '(count, d, mem) := os_read (data + total) (Z.min chunk_size (size - total)) d mem in
        match count with
        | Eintr => fd_read_loop fuel size data mode chunk_size total d mem
        | OsError => Some (Throw AssertFailed, d, mem)
        | Count n =>
            if n =? 0 then Some (if bool_decide (mode = Eof) then Ret total else Throw AssertFailed, d, mem)
            else if bool_decide (mode = UpTo) then Some (Ret (total + n), d, mem)
            else fd_read_loop fuel size data mode chunk_size (total + n) d mem
        end
    end.

(** Each turn uses an answer or transfers a byte. *)
Definition read_fuel (size : Z) (d : Descriptor) : nat := S (Z.to_nat size + length (ds_answers d)).

Definition fd_read_chunked (size data : Z) (mode : ReadMode) (chunk_size : Z) (d : Descriptor) (mem : Z → A) :
    option (outcome Z * Descriptor * (Z → A)) :=
  match fd_read_loop (read_fuel size d) size data mode chunk_size 0 d mem with
  | Some (Ret total, d, mem) =>
      Some (if bool_decide (mode = Exactly) && negb (total =? size) then Throw AssertFailed else Ret total, d, mem)
  | r => r
  end.

Definition fd_read (size data : Z) (mode : ReadMode) (d : Descriptor) (mem : Z → A) : option (outcome Z * Descriptor * (Z → A)) :=
  fd_read_chunked size data mode CHUNK_SIZE d mem.

(** [lseek_ok] is whether lseek(2) succeeds. *)
Definition fd_seek (offset : Z) (lseek_ok : bool) (d : Descriptor) : outcome Descriptor :=
  ASSERT (offset <=? fd_size d) ;;!
  ASSERT lseek_ok ;;!
  Ret (mkDescriptor (ds_kind d) (ds_content d) offset (ds_answers d)).

(** ** Opening *)

Definition EINVAL : Z := 22.

(** The descriptor that is handed out or the errno, and the descriptors that were closed on the way: [opened] is open(2),
    [stat] the fstat of what it opened. *)
Definition open_for_read (opened : Z + Z) (stat : FileKind + Z) : (Z + Z) * list Z :=
  match opened with
  | inr error => (inr error, [])
  | inl fd =>
      match stat with
      | inr error => (inr error, [fd])
      | inl Regular | inl Block | inl Character => (inl fd, [])
      | inl _ => (inr EINVAL, [fd])
      end
  end.

(** ** File *)

Definition file_open (opened : Z + Z) (stat : FileKind + Z) : outcome Z :=
  match (open_for_read opened stat).1 with inl fd => Ret fd | inr _ => Throw (Code FileAccessError) end.

Definition file_seek (offset : Z) (lseek_ok : bool) (d : Descriptor) : outcome Descriptor :=
  match fd_seek offset lseek_ok d with Ret d => Ret d | Throw _ => Throw (Code EofError) end.

Definition file_read (block_size bytesize buffer : Z) (d : Descriptor) (mem : Z → A) : option (outcome () * Descriptor * (Z → A)) :=
  match fd_read_chunked bytesize buffer Eof block_size d mem with
  | None => None
  | Some (Throw _, d, mem) => Some (Throw (Code FileAccessError), d, mem)
  | Some (Ret result, d, mem) => Some (if negb (result =? bytesize) then Throw (Code EofError) else Ret (), d, mem)
  end.

(** ** What a read delivers *)

Lemma store_app buffer l1 l2 mem a :
  store (buffer + Z.of_nat (length l1)) l2 (store buffer l1 mem) a = store buffer (l1 ++ l2) mem a.
Proof.
  unfold store. rewrite length_app, Nat2Z.inj_add, Z.add_assoc. destruct (Z.leb_spec buffer a) as [H1|H1]; simpl.
  - destruct (Z.ltb_spec a (buffer + Z.of_nat (length l1))) as [H2|H2].
    + rewrite (proj2 (Z.leb_gt _ _)), (proj2 (Z.ltb_lt _ _)) by lia. simpl. rewrite lookup_app_l by lia. done.
    + rewrite (proj2 (Z.leb_le _ _)) by lia. simpl. rewrite lookup_app_r by lia.
      replace (Z.to_nat (a - (buffer + Z.of_nat (length l1)))) with (Z.to_nat (a - buffer) - length l1)%nat by lia.
      done.
  - by rewrite (proj2 (Z.leb_gt (buffer + _) a)) by lia.
Qed.

Lemma bytes_at_length position n content : 0 <= position → 0 <= n → position + n <= Z.of_nat (length content) →
  Z.of_nat (length (bytes_at position n content)) = n.
Proof. intros. unfold bytes_at. rewrite length_take, length_drop. lia. Qed.

Lemma bytes_at_app position n m content : 0 <= position → 0 <= n → 0 <= m →
  bytes_at position n content ++ bytes_at (position + n) m content = bytes_at position (n + m) content.
Proof.
  intros. unfold bytes_at. rewrite !Z2Nat.inj_add by lia. rewrite <- drop_drop. by rewrite take_take_drop.
Qed.

Lemma bytes_at_end position content : Z.of_nat (length content) <= position → ∀ n, bytes_at position n content = [].
Proof. intros H n. unfold bytes_at. rewrite drop_ge by lia. by rewrite take_nil. Qed.

Definition no_failure (answers : list OsAnswer) : Prop := Forall (λ a, a ≠ Refused) answers.

(** The loop delivers all that is wanted or all there is, whatever the interruptions and the short counts. *)
Lemma fd_read_loop_spec mode chunk_size size data : 1 <= chunk_size → mode ≠ UpTo → ∀ fuel total d mem,
  0 <= total <= size → 0 <= ds_position d → no_failure (ds_answers d) → (Z.to_nat (size - total) + length (ds_answers d) < fuel)%nat →
  let n := Z.min (size - total) (ds_left d) in
  ∃ d' mem', fd_read_loop fuel size data mode chunk_size total d mem =
      Some (if bool_decide (mode = Exactly ∧ n < size - total) then Throw AssertFailed else Ret (total + n), d', mem') ∧
    ds_content d' = ds_content d ∧ ds_kind d' = ds_kind d ∧ no_failure (ds_answers d') ∧ ds_position d' = ds_position d + n ∧
    ∀ a, mem' a = store (data + total) (bytes_at (ds_position d) n (ds_content d)) mem a.
Proof.
  intros Hchunk Hmode. induction fuel as [|fuel IH]; intros total d mem Ht Hp Hf Hfuel n; [lia|]. cbn [fd_read_loop].
  assert (Hnil : ∀ b m a, store b [] m a = m a).
  { intros b m a. unfold store. destruct ((b <=? a) && _) eqn:E; [|done]. apply andb_true_iff in E as [E1%Z.leb_le E2%Z.ltb_lt]. simpl in E2. lia. }
  destruct (Z.ltb_spec total size) as [Hl|Hl]; cbn [negb].
  2:{ assert (n = 0) as -> by (unfold n, ds_left; lia). exists d, mem. rewrite bool_decide_false by lia.
      split; [by rewrite Z.add_0_r|]. split; [done|]. split; [done|]. split; [done|]. split; [lia|]. intros a. unfold bytes_at. simpl. by rewrite Hnil. }
  assert (Htransfer : ∀ most answers, no_failure answers → (Z.to_nat (size - total) + length answers <= fuel)%nat →
    let m := Z.min (Z.min chunk_size (size - total)) (Z.min (Z.max 1 most) (ds_left d)) in
    let d1 := mkDescriptor (ds_kind d) (ds_content d) (ds_position d + m) answers in
    let mem1 := store (data + total) (bytes_at (ds_position d) m (ds_content d)) mem in
    ∃ d' mem', (if m =? 0 then Some (if bool_decide (mode = Eof) then Ret total else Throw AssertFailed, d1, mem1)
                else if bool_decide (mode = UpTo) then Some (Ret (total + m), d1, mem1)
                else fd_read_loop fuel size data mode chunk_size (total + m) d1 mem1) =
      Some (if bool_decide (mode = Exactly ∧ n < size - total) then Throw AssertFailed else Ret (total + n), d', mem') ∧
    ds_content d' = ds_content d ∧ ds_kind d' = ds_kind d ∧ no_failure (ds_answers d') ∧ ds_position d' = ds_position d + n ∧
    ∀ a, mem' a = store (data + total) (bytes_at (ds_position d) n (ds_content d)) mem a).
  { intros most answers Hans Hfl m d1 mem1. destruct (Z.eqb_spec m 0) as [Hz|Hz].
    - assert (ds_left d = 0 ∧ n = 0) as [Hleft ->] by (unfold n, m, ds_left in *; lia). exists d1, mem1.
      assert (Hm : mode = Eof ∨ mode = Exactly) by (destruct mode; naive_solver). rewrite Z.add_0_r.
      split; [destruct Hm as [-> | ->]; [reflexivity|rewrite (bool_decide_true (_ ∧ _)) by (split; [done|lia]); reflexivity]|].
      unfold d1, mem1. rewrite Hz. split; [done|]. split; [done|]. split; [done|]. split; [simpl; lia|]. done.
    - rewrite (bool_decide_false (mode = UpTo)) by done.
      assert (Hm : 0 < m <= ds_left d ∧ m <= size - total) by (unfold m, ds_left in *; lia).
      assert (Hleft : ds_left d1 = ds_left d - m) by (unfold d1, ds_left, ds_size in *; simpl; lia).
      destruct (IH (total + m) d1 mem1) as (d' & mem' & E & Hc & Hk & Hno & Hpos & Hmem); [lia|unfold d1; simpl; lia|done|unfold d1; simpl; lia|].
      rewrite Hleft in E, Hpos, Hmem. replace (Z.min (size - (total + m)) (ds_left d - m)) with (n - m) in E, Hpos, Hmem by (unfold n; lia).
      exists d', mem'. split.
      + rewrite E, (bool_decide_ext _ (mode = Exactly ∧ n < size - total)) by (split; intros [? ?]; (split; [done|lia])).
        by replace (total + m + (n - m)) with (total + n) by lia.
      + split; [done|]. split; [done|]. split; [done|]. split; [rewrite Hpos; unfold d1; simpl; lia|]. intros a. rewrite Hmem. unfold d1, mem1. simpl.
        assert (Hlen : Z.of_nat (length (bytes_at (ds_position d) m (ds_content d))) = m) by (apply bytes_at_length; unfold ds_left, ds_size in *; lia).
        replace (data + (total + m)) with (data + total + Z.of_nat (length (bytes_at (ds_position d) m (ds_content d)))) by lia.
        rewrite store_app, bytes_at_app by (unfold n; lia). f_equal. f_equal. lia. }
  unfold os_read. destruct (ds_answers d) as [|[| |most] answers] eqn:Hans; cbn [tail].
  - apply Htransfer; [constructor|simpl in *; lia].
  - apply Forall_cons in Hf as [_ Hf]. apply (IH total (mkDescriptor (ds_kind d) (ds_content d) (ds_position d) answers) mem); [lia|done|done|simpl in *; lia].
  - by apply Forall_cons in Hf as [Hf _].
  - apply Forall_cons in Hf as [_ Hf]. apply Htransfer; [done|simpl in *; lia].
Qed.

(** A read that fails says so: the loop goes on over interruptions, and the bytes before the failure stay. *)
Lemma fd_read_loop_failure mode chunk_size size data before after : Forall (eq Interrupted) before → ∀ fuel total d mem,
  total < size → ds_answers d = before ++ Refused :: after → (length before < fuel)%nat →
  fd_read_loop fuel size data mode chunk_size total d mem =
    Some (Throw AssertFailed, mkDescriptor (ds_kind d) (ds_content d) (ds_position d) after, mem).
Proof.
  induction 1 as [|answer before <- Hbefore IH]; intros fuel total d mem Ht Hans Hf; destruct fuel as [|fuel]; try (simpl in *; lia);
    cbn [fd_read_loop]; rewrite (proj2 (Z.ltb_lt _ _)) by done; cbn [negb]; unfold os_read; rewrite Hans; cbn [app tail].
  - done.
  - by apply (IH fuel total (mkDescriptor (ds_kind d) (ds_content d) (ds_position d) (before ++ Refused :: after)) mem); [done|done|simpl in Hf; lia].
Qed.

(** ** The reader over it *)

(** What [seek] then [read] do for a range of the file. *)
Definition read_range (block_size offset bytesize buffer : Z) (d : Descriptor) (mem : Z → A) : option (outcome () * Descriptor * (Z → A)) :=
  match file_seek offset true d with
  | Throw e => Some (Throw e, d, mem)
  | Ret d => file_read block_size bytesize buffer d mem
  end.

Lemma file_seek_regular offset d : ds_kind d = Regular →
  file_seek offset true d = if offset <=? ds_size d then Ret (mkDescriptor (ds_kind d) (ds_content d) offset (ds_answers d)) else Throw (Code EofError).
Proof. intros Hk. unfold file_seek, fd_seek, fd_size. rewrite Hk. by destruct (_ <=? _). Qed.

(** A read from where the descriptor is: what is left of the file decides how it ends. *)
Lemma file_read_spec block_size bytesize buffer d mem :
  1 <= block_size → 0 <= ds_position d → 0 <= bytesize → no_failure (ds_answers d) →
  ∃ d' mem', file_read block_size bytesize buffer d mem = Some (if bytesize <=? ds_left d then Ret () else Throw (Code EofError), d', mem') ∧
    ds_content d' = ds_content d ∧ ds_kind d' = ds_kind d ∧ no_failure (ds_answers d') ∧
    ds_position d' = ds_position d + Z.min bytesize (ds_left d) ∧
    ∀ a, mem' a = store buffer (bytes_at (ds_position d) (Z.min bytesize (ds_left d)) (ds_content d)) mem a.
Proof.
  intros Hb Hp Hs Hf. unfold file_read, fd_read_chunked, read_fuel.
  destruct (fd_read_loop_spec Eof block_size bytesize buffer Hb ltac:(done) (S (Z.to_nat bytesize + length (ds_answers d))) 0 d mem)
    as (d' & mem' & E & Hc & Hk & Hno & Hpos & Hm); [lia|done|done|lia|].
  rewrite bool_decide_false in E by (by intros [? _]). rewrite E. exists d', mem'. rewrite Z.sub_0_r, Z.add_0_r in *.
  split; [|done]. cbn. f_equal. f_equal. f_equal.
  destruct (Z.leb_spec bytesize (ds_left d)); [rewrite (proj2 (Z.eqb_eq _ _)) by lia|rewrite (proj2 (Z.eqb_neq _ _)) by lia]; done.
Qed.

(** Reading a range of a regular file: when no read fails, whatever the interruptions, the short counts and the block size, a range
    inside the file is delivered whole - its bytes at the buffer, nothing else of the memory touched, the position after it -
    and a range that the file does not hold is EofError, never a short success. *)
Theorem range_is_read_whole block_size offset bytesize buffer d mem :
  ds_kind d = Regular → 1 <= block_size → 0 <= offset → 0 <= bytesize → no_failure (ds_answers d) →
  ∃ d' mem', read_range block_size offset bytesize buffer d mem =
      Some (if offset + bytesize <=? ds_size d then Ret () else Throw (Code EofError), d', mem') ∧
    (offset + bytesize <= ds_size d →
      ds_position d' = offset + bytesize ∧
      ∀ a, mem' a = store buffer (bytes_at offset bytesize (ds_content d)) mem a).
Proof.
  intros Hk Hb Ho Hs Hf. unfold read_range. rewrite (file_seek_regular offset d Hk). destruct (Z.leb_spec offset (ds_size d)) as [Hl|Hl].
  2:{ exists d, mem. rewrite (proj2 (Z.leb_gt _ _)) by lia. split; [done|lia]. }
  destruct (file_read_spec block_size bytesize buffer (mkDescriptor (ds_kind d) (ds_content d) offset (ds_answers d)) mem)
    as (d' & mem' & E & _ & _ & _ & Hpos & Hm); [done|done|done|done|]. rewrite E. exists d', mem'. unfold ds_left, ds_size in *.
  cbn [ds_content ds_position] in *. split.
  - do 3 f_equal. destruct (Z.leb_spec bytesize (Z.max 0 (Z.of_nat (length (ds_content d)) - offset))),
      (Z.leb_spec (offset + bytesize) (Z.of_nat (length (ds_content d)))); (done || lia).
  - intros Hin. split; [lia|]. intros a. rewrite Hm. do 2 f_equal. lia.
Qed.

(** A read that fails is the file's error, whatever was transferred before it. *)
Theorem failed_read_is_the_files block_size bytesize buffer d mem before after :
  0 < bytesize → ds_answers d = before ++ Refused :: after → Forall (eq Interrupted) before →
  ∃ d', file_read block_size bytesize buffer d mem = Some (Throw (Code FileAccessError), d', mem).
Proof.
  intros Hs Hans Hb. unfold file_read, fd_read_chunked. rewrite (fd_read_loop_failure Eof block_size bytesize buffer before after Hb);
    [by eexists|done|done|]. unfold read_fuel. rewrite Hans, length_app. simpl. lia.
Qed.

(** A block device is accepted by [open_for_read] and then refused at every offset but the first: its st_size is zero. *)
Theorem block_device_past_its_size block_size offset bytesize buffer d mem opened :
  ds_kind d = Block → 0 < offset →
  open_for_read (inl opened) (inl (ds_kind d)) = (inl opened, []) ∧
  read_range block_size offset bytesize buffer d mem = Some (Throw (Code EofError), d, mem).
Proof.
  intros Hk Ho. unfold read_range, file_seek, fd_seek, fd_size. rewrite Hk. rewrite (proj2 (Z.leb_gt _ _)) by lia. done.
Qed.
End Fd.

(** The descriptor open(2) gave is handed out or closed, and only one of the two. *)
Theorem opened_is_handed_or_closed fd stat :
  (open_for_read (inl fd) stat = (inl fd, []) ∧ file_open (inl fd) stat = Ret fd) ∨
  (∃ error, open_for_read (inl fd) stat = (inr error, [fd]) ∧ file_open (inl fd) stat = Throw (Code FileAccessError)).
Proof. destruct stat as [[]|error]; simpl; eauto. Qed.

Module Ranges.

(** Interruptions, a short count and a block size of three. *)
Definition ten : list Z := [10; 11; 12; 13; 14; 15; 16; 17; 18; 19].
Definition rough : Descriptor := mkDescriptor Regular ten 0 [Interrupted; Transfers 2; Interrupted; Transfers 1].

Example reads_five : option_map (λ '(r, d, mem), (r, ds_position d, map mem [99; 100; 101; 102; 103; 104; 105]))
    (read_range 3 4 5 100 rough (λ _, 0)) = Some (Ret (), 9, [0; 14; 15; 16; 17; 18; 0]).
Proof. vm_compute. reflexivity. Qed.

Example short_file : option_map (λ '(r, d, mem), r) (read_range 3 8 5 100 rough (λ _, 0)) = Some (Throw (Code EofError)).
Proof. vm_compute. reflexivity. Qed.

Lemma range_is_read_whole_witness : ∃ d' mem',
  read_range 3 4 5 100 rough (λ _, 0) = Some (if 4 + 5 <=? ds_size rough then Ret () else Throw (Code EofError), d', mem') ∧
  (4 + 5 <= ds_size rough → ds_position d' = 4 + 5 ∧ ∀ a, mem' a = store 100 (bytes_at 4 5 (ds_content rough)) (λ _, 0) a).
Proof.
  apply (range_is_read_whole 3 4 5 100 rough (λ _, 0)); [reflexivity|lia|lia|lia|].
  repeat (apply Forall_cons; split; [discriminate|]). apply Forall_nil. exact I.
Defined.

End Ranges.
