(* ===== verification/FileRead.v ===== *)
(** The synchronous reader of a batch (BatchExecute) over a file (Fd): the calls it makes, made on a descriptor.

    BatchExecute shows which calls the reader gets, contiguous and each to the place of its first byte, and Fd what a call
    does; here the two meet. *)

From S2P Require Import Prelude ResponseCode SharedQueue Task ChunkSplitter Batch BatchExecute Fd.

Section Calls.
Context {A : Type} (block_size : Z).

(** The reads, until one throws. *)
Fixpoint read_calls (calls : list read_call) (d : Descriptor (A := A)) (mem : Z → A) : option (outcome () * Descriptor * (Z → A)) :=
  match calls with
  | [] => Some (Ret (), d, mem)
  | c :: calls =>
      match file_read block_size (rc_bytesize c) (rc_buffer c) d mem with
      | Some (Ret _, d, mem) => read_calls calls d mem
      | r => r
      end
  end.

(** The seek to the start of the range, and the reads. *)
Definition read_batch (range_start : Z) (calls : list read_call) (d : Descriptor (A := A)) (mem : Z → A) : option (outcome () * Descriptor * (Z → A)) :=
  match file_seek range_start true d with
  | Throw e => Some (Throw e, d, mem)
  | Ret d => read_calls calls d mem
  end.

Lemma store_ext buffer (bytes : list A) mem mem' a : (∀ x, mem x = mem' x) → store buffer bytes mem a = store buffer bytes mem' a.
Proof. intros H. unfold store. by rewrite !H. Qed.

Lemma read_calls_spec calls : ∀ from upto buffer d mem, 1 <= block_size → 0 <= from <= ds_size d → no_failure (ds_answers d) →
  ds_position d = from → tiles rc_offset rc_bytesize from calls upto → Forall (λ c, rc_buffer c = buffer + (rc_offset c - from)) calls →
  ∃ d' mem', read_calls calls d mem = Some (if upto <=? ds_size d then Ret () else Throw (Code EofError), d', mem') ∧
    (upto <= ds_size d → ds_position d' = upto) ∧
    ∀ a, mem' a = store buffer (bytes_at from (Z.min upto (ds_size d) - from) (ds_content d)) mem a.
Proof.
  induction calls as [|c calls IH]; intros from upto buffer d mem Hb Hf Hno Hp Ht Hbuf.
  - apply tiles_nil_inv in Ht as <-. exists d, mem. rewrite (proj2 (Z.leb_le _ _)) by lia. split; [done|]. split; [done|].
    intros a. rewrite Z.min_l, Z.sub_diag by lia. unfold store, bytes_at. simpl. destruct (_ && _) eqn:E; [|done].
    apply andb_true_iff in E as [?%Z.leb_le ?%Z.ltb_lt]. lia.
  - apply tiles_cons_inv in Ht as (Ho & Hlen & Ht). pose proof (tiles_le _ _ _ _ _ Ht) as Hle. apply Forall_cons in Hbuf as [Hc Hbuf]. cbn [read_calls].
    destruct (file_read_spec block_size (rc_bytesize c) (rc_buffer c) d mem) as (d1 & mem1 & E & Hcont & Hk & Hno1 & Hp1 & Hm1); [done|lia|done|done|].
    rewrite E. assert (Hsize : ds_size d1 = ds_size d) by (unfold ds_size; by rewrite Hcont). unfold ds_left in *. rewrite Hp in *.
    assert (Hb1 : rc_buffer c = buffer) by lia. rewrite Hb1 in Hm1. rewrite Z.max_r in * by lia.
    destruct (Z.leb_spec (rc_bytesize c) (ds_size d - from)) as [Hin|Hout].
    + rewrite Z.min_l in Hp1, Hm1 by lia.
      destruct (IH (from + rc_bytesize c) upto (buffer + rc_bytesize c) d1 mem1) as (d2 & mem2 & E2 & Hp2 & Hm2); [done|lia|done|done|done| |].
      { eapply Forall_impl; [exact Hbuf|]. intros x Hx. cbn beta in *. lia. }
      rewrite E2, Hsize in *. exists d2, mem2. split; [done|]. split; [exact Hp2|]. intros a. rewrite Hm2, Hcont.
      rewrite (store_ext _ _ mem1 _ _ Hm1). assert (Hl : Z.of_nat (length (bytes_at from (rc_bytesize c) (ds_content d))) = rc_bytesize c)
        by (apply bytes_at_length; unfold ds_size in *; lia).
      rewrite <- Hl at 1. rewrite store_app, bytes_at_app by lia. do 2 f_equal. lia.
    + exists d1, mem1. rewrite (proj2 (Z.leb_gt upto (ds_size d))) by lia. split; [done|]. split; [lia|]. intros a. rewrite Hm1. do 2 f_equal. lia.
Qed.

(** C40: the reads of a batch fill its memory from the file.  Whatever block size, interruptions and short counts, contiguous
    reads from the start of the range, each to the place of its first byte, end in success when the file holds the range:
    then the memory has the bytes of the range at its place and is otherwise untouched.  On a file that is shorter they end in
    EofError, with the bytes there are in their place. *)
Theorem batch_is_read_from_the_file range_start upto buffer calls d mem :
  ds_kind d = Regular → 1 <= block_size → 0 <= range_start → no_failure (ds_answers d) →
  tiles rc_offset rc_bytesize range_start calls upto → Forall (λ c, rc_buffer c = buffer + (rc_offset c - range_start)) calls →
  ∃ d' mem', read_batch range_start calls d mem = Some (if upto <=? ds_size d then Ret () else Throw (Code EofError), d', mem') ∧
    ∀ a, mem' a = store buffer (bytes_at range_start (Z.max 0 (Z.min upto (ds_size d) - range_start)) (ds_content d)) mem a.
Proof.
  intros Hk Hb Hs Hno Ht Hbuf. unfold read_batch. rewrite (file_seek_regular range_start d Hk). pose proof (tiles_le _ _ _ _ _ Ht) as Hle.
  destruct (Z.leb_spec range_start (ds_size d)) as [Hin|Hout].
  - destruct (read_calls_spec calls range_start upto buffer (mkDescriptor (ds_kind d) (ds_content d) range_start (ds_answers d)) mem)
      as (d' & mem' & E & _ & Hm); [done|unfold ds_size in *; simpl; lia|done|done|done|done|].
    rewrite E. exists d', mem'. split; [done|]. intros a. rewrite Hm. unfold ds_size in *. cbn [ds_content] in *. rewrite Z.max_r by lia. done.
  - exists d, mem. rewrite (proj2 (Z.leb_gt _ _)) by lia. split; [done|]. intros a. rewrite Z.max_l by lia. unfold store, bytes_at. simpl.
    destruct (_ && _) eqn:E; [|done]. apply andb_true_iff in E as [?%Z.leb_le ?%Z.ltb_lt]. lia.
Qed.
End Calls.

Module BatchReads.

(** Two blocks of three bytes and a remainder. *)
Definition calls : list read_call := [mkCall 1 3 100; mkCall 4 3 103; mkCall 7 2 106].

Lemma calls_tile : tiles rc_offset rc_bytesize 1 calls 9.
Proof. repeat (constructor; [reflexivity|discriminate|]). constructor. Qed.

Example whole : option_map (λ '(r, d, mem), (r, map mem [99; 100; 101; 102; 103; 104; 105; 106; 107; 108])) (read_batch 2 1 calls Ranges.rough (λ _, 0)) =
  Some (Ret (), [0; 11; 12; 13; 14; 15; 16; 17; 18; 0]).
Proof. vm_compute. reflexivity. Qed.

Lemma batch_is_read_from_the_file_witness : ∃ d' mem',
  read_batch 2 1 calls Ranges.rough (λ _, 0) = Some (if 9 <=? ds_size Ranges.rough then Ret () else Throw (Code EofError), d', mem') ∧
  ∀ a, mem' a = store 100 (bytes_at 1 (Z.max 0 (Z.min 9 (ds_size Ranges.rough) - 1)) (ds_content Ranges.rough)) (λ _, 0) a.
Proof.
  apply (batch_is_read_from_the_file 2 1 9 100 calls Ranges.rough (λ _, 0)); [reflexivity|lia|lia| |apply calls_tile|].
  - repeat (apply Forall_cons; split; [discriminate|]). apply Forall_nil. exact I.
  - repeat (apply Forall_cons; split; [reflexivity|]). apply Forall_nil. exact I.
Defined.

End BatchReads.
