(* ===== verification/PartedRead.v ===== *)
(** One range of an object read in parts, each of them a request of its own (gcs/client, azure/client).

    The parts are sent in a loop that a stop may end, and complete in any order on other threads; a counter and a flag that
    the callbacks share make one response of them. *)

From stdpp Require Import gmap.
From S2P Require Import Prelude ResponseCode Text Env SharedQueue BackendApi.

(** ** What the configurations of the two clients share *)

(** A variable that is set to something. *)
Definition env_value (env : environment) (variable : string) : option text :=
  let v := getenv_string env variable [] in if bool_decide (v = []) then None else Some v.

Lemma env_value_not_empty env variable : env_value env variable ≠ Some [].
Proof. unfold env_value. case_bool_decide; [done|]. by intros [= E]. Qed.

Definition mul32 (x y : Z) : Z := wrap32 (x * y).

(** ** The parts *)

Record Part := mkPart { pt_offset : Z; pt_bytesize : Z; pt_buffer : Z }.

#[export] Instance Part_eq_dec : EqDecision Part.
Proof. solve_decision. Defined.

(** [whole]: a cache serves the range in a single read. *)
Definition num_chunks (whole : bool) (length chunk_bytesize : Z) : Z :=
  if whole then 1 else Z.max 1 (length / chunk_bytesize).

(** The loop, from part [i] on: [stops i] is the flag as the loop finds it before part [i].  [None] when the fuel is gone. *)
Fixpoint part_loop (fuel : nat) (stops : Z → bool) (size chunk_bytesize i total offset buffer : Z) : option (list Part) :=
  if (i <? size) && negb (stops i) then
    match fuel with
    | O => None
    | S fuel =>
        let bytesize := if i =? size ⊖ 1 then total else chunk_bytesize in
        parts ← part_loop fuel stops size chunk_bytesize (add32 i 1) (total ⊖ bytesize) (offset ⊕ bytesize) (buffer + bytesize);
        Some (mkPart offset bytesize buffer :: parts)
    end
  else Some [].

Definition part_fuel (size : Z) : nat := Z.to_nat size.

(** ** Their completions *)

(** The counter of the parts that have not succeeded, and whether none failed yet. *)
Record PartProgress := mkPartProgress { pr_counter : Z; pr_is_success : bool }.

Definition new_progress (size : Z) : PartProgress := mkPartProgress (wrap32 size) true.

(** The callback of a part: the response it pushes, if any. *)
Definition on_part (request_id : Z) (code : ResponseCode) (p : PartProgress) : PartProgress * option BackendResponse :=
  if bool_decide (code = Success) then
    let running := pr_counter p in
    (mkPartProgress (sub32 running 1) (pr_is_success p), if running =? 1 then Some (mkBackendResponse request_id Success) else None)
  else
    let previous := pr_is_success p in
    (mkPartProgress (pr_counter p) false, if previous then Some (mkBackendResponse request_id code) else None).

(** The responses to the completions of the parts, in the order they come. *)
Fixpoint on_parts (request_id : Z) (codes : list ResponseCode) (p : PartProgress) : list BackendResponse :=
  match codes with
  | [] => []
  | code :: codes =>
      let '(p, response) := on_part request_id code p in
      option_list response ++ on_parts request_id codes p
  end.

(** The responder of the client, which is made for the first read. *)
Definition expect_response (responder : option (shared_queue BackendResponse)) : shared_queue BackendResponse :=
  match responder with None => make_queue 1 FINISH_ON_DRAIN | Some q => increment 1 q end.

Definition push_all (responses : list BackendResponse) (q : shared_queue BackendResponse) : shared_queue BackendResponse :=
  fold_left (λ q r, SharedQueue.push r 0 q) responses q.

(** ** What the parts read *)

(** The parts of the range [offset, offset + length), that is the [i]-th of [size]. *)
Definition part_of (size chunk_bytesize offset length buffer i : Z) : Part :=
  mkPart (offset + i * chunk_bytesize) (if i =? size - 1 then length - i * chunk_bytesize else chunk_bytesize) (buffer + i * chunk_bytesize).

Lemma part_loop_spec stops size chunk_bytesize offset length buffer :
  0 < size < unsigned_modulus → 0 <= chunk_bytesize → 0 <= offset → (size - 1) * chunk_bytesize <= length → offset + length < size_modulus →
  (∀ i, stops i = false) → ∀ fuel i, 0 <= i <= size → (Z.to_nat (size - i) <= fuel)%nat →
  part_loop fuel stops size chunk_bytesize i (if i =? size then 0 else length - i * chunk_bytesize)
    (if i =? size then offset + length else offset + i * chunk_bytesize) (if i =? size then buffer + length else buffer + i * chunk_bytesize) =
    Some (map (part_of size chunk_bytesize offset length buffer) (seqZ i (size - i))).
Proof.
  intros Hs Hc Ho Hl Hm Hstop. induction fuel as [|fuel IH]; intros i Hi Hf.
  - assert (i = size) as -> by lia. cbn [part_loop]. rewrite (proj2 (Z.ltb_ge _ _)) by lia. cbn [andb]. by rewrite Z.sub_diag.
  - cbn [part_loop]. rewrite Hstop. destruct (Z.ltb_spec i size) as [Hlt|Hge]; cbn [andb negb].
    2:{ assert (i = size) as -> by lia. by rewrite Z.sub_diag. }
    rewrite (proj2 (Z.eqb_neq i size)) by lia. rewrite seqZ_cons by lia. cbn [map].
    assert (Hic : i * chunk_bytesize <= (size - 1) * chunk_bytesize) by nia. assert (0 <= i * chunk_bytesize) by nia.
    assert (Hsmall : size_modulus = 18446744073709551616 ∧ unsigned_modulus = 4294967296) by done.
    rewrite (sub64_small size 1), (add32_small i 1) by (unfold is_size, is_unsigned; lia).
    unfold part_of at 1. destruct (Z.eqb_spec i (size - 1)) as [Hlast|Hmid].
    + rewrite sub64_small, add64_small by (unfold is_size; lia). specialize (IH (i + 1)). assert (i + 1 = size) as Hi1 by lia.
      rewrite (proj2 (Z.eqb_eq _ _) Hi1) in IH. rewrite Z.sub_diag.
      replace (offset + i * chunk_bytesize + (length - i * chunk_bytesize)) with (offset + length) by lia.
      replace (buffer + i * chunk_bytesize + (length - i * chunk_bytesize)) with (buffer + length) by lia.
      rewrite IH by lia. cbn. replace (Z.pred (size - i)) with (size - (i + 1)) by lia. by rewrite <- Z.add_1_r.
    + assert ((i + 1) * chunk_bytesize <= (size - 1) * chunk_bytesize) by nia.
      rewrite sub64_small, add64_small by (unfold is_size; lia). specialize (IH (i + 1)).
      rewrite (proj2 (Z.eqb_neq (i + 1) size)) in IH by lia.
      replace (length - i * chunk_bytesize - chunk_bytesize) with (length - (i + 1) * chunk_bytesize) by lia.
      replace (offset + i * chunk_bytesize + chunk_bytesize) with (offset + (i + 1) * chunk_bytesize) by lia.
      replace (buffer + i * chunk_bytesize + chunk_bytesize) with (buffer + (i + 1) * chunk_bytesize) by lia.
      rewrite IH by lia. cbn. replace (Z.pred (size - i)) with (size - (i + 1)) by lia. by rewrite <- Z.add_1_r.
Qed.

Definition parts_of_range (whole : bool) (chunk_bytesize offset length buffer : Z) : option (list Part) :=
  let size := num_chunks whole length chunk_bytesize in
  part_loop (part_fuel size) (λ _, false) size chunk_bytesize 0 length offset buffer.

Definition covers (p : Part) (x : Z) : Prop := pt_offset p <= x < pt_offset p + pt_bytesize p.

Lemma num_chunks_bounds whole length chunk_bytesize : 0 < chunk_bytesize → 0 <= length →
  1 <= num_chunks whole length chunk_bytesize ∧ (num_chunks whole length chunk_bytesize - 1) * chunk_bytesize <= length ∧
  (whole = false → chunk_bytesize <= length →
    num_chunks whole length chunk_bytesize * chunk_bytesize <= length < (num_chunks whole length chunk_bytesize + 1) * chunk_bytesize).
Proof.
  intros Hc Hl. unfold num_chunks. destruct whole; [lia|]. pose proof (Z.mul_div_le length chunk_bytesize Hc).
  pose proof (Z.mul_succ_div_gt length chunk_bytesize Hc). assert (0 <= length / chunk_bytesize) by (apply Z.div_pos; lia).
  split; [lia|]. split; [nia|]. intros _ Hle. assert (1 <= length / chunk_bytesize) by (apply Z.div_le_lower_bound; lia). nia.
Qed.

(** The part a byte is in. *)
Lemma part_index size chunk_bytesize offset length buffer j x : 0 < chunk_bytesize → 0 <= j < size →
  covers (part_of size chunk_bytesize offset length buffer j) x → j = Z.min (size - 1) ((x - offset) / chunk_bytesize).
Proof.
  unfold covers, part_of. simpl. intros Hc Hj Hcov. destruct (Z.eqb_spec j (size - 1)) as [->|Hne].
  - assert (size - 1 <= (x - offset) / chunk_bytesize) by (apply Z.div_le_lower_bound; lia). lia.
  - rewrite <- (Z.div_unique (x - offset) chunk_bytesize j (x - offset - j * chunk_bytesize)) by lia. lia.
Qed.

(** A range that is read in parts is read whole and once: every byte of it is in exactly one part, at the address it has
    in the buffer, and no part reads outside of it; each part but the last has the chunk size, and the last is shorter than
    two chunks unless a cache takes the range in one. *)
Theorem parts_tile_the_range whole chunk_bytesize offset length buffer :
  0 < chunk_bytesize → 0 <= offset → 0 <= length → offset + length < size_modulus →
  num_chunks whole length chunk_bytesize < unsigned_modulus →
  ∃ parts, parts_of_range whole chunk_bytesize offset length buffer = Some parts ∧
    (∀ x, offset <= x < offset + length → ∃ i p, parts !! i = Some p ∧ covers p x ∧ pt_buffer p - buffer = pt_offset p - offset ∧
      ∀ j q, parts !! j = Some q → covers q x → j = i) ∧
    Forall (λ p, offset <= pt_offset p ∧ 0 <= pt_bytesize p ∧ pt_offset p + pt_bytesize p <= offset + length ∧
      (whole = false → chunk_bytesize <= length → chunk_bytesize <= pt_bytesize p < 2 * chunk_bytesize)) parts.
Proof.
  intros Hc Ho Hl Hm Hu. unfold parts_of_range. set (size := num_chunks whole length chunk_bytesize) in *.
  destruct (num_chunks_bounds whole length chunk_bytesize Hc Hl) as (H1 & H2 & H3). fold size in H1, H2, H3.
  pose proof (part_loop_spec (λ _, false) size chunk_bytesize offset length buffer ltac:(lia) ltac:(lia) Ho H2 Hm (λ _, eq_refl)
    (part_fuel size) 0 ltac:(lia) ltac:(unfold part_fuel; lia)) as E.
  rewrite (proj2 (Z.eqb_neq 0 size)), Z.mul_0_l, !Z.add_0_r, !Z.sub_0_r in E by lia. rewrite E. eexists. split; [done|]. split.
  - intros x Hx. set (i := Z.min (size - 1) ((x - offset) / chunk_bytesize)).
    assert (Hi0 : 0 <= (x - offset) / chunk_bytesize) by (apply Z.div_pos; lia).
    pose proof (Z.mul_div_le (x - offset) chunk_bytesize Hc) as Hd1. pose proof (Z.mul_succ_div_gt (x - offset) chunk_bytesize Hc) as Hd2.
    exists (Z.to_nat i), (part_of size chunk_bytesize offset length buffer i). split; [|split; [|split]].
    + rewrite list_lookup_fmap, lookup_seqZ_lt by lia. simpl. do 2 f_equal. lia.
    + unfold covers, part_of. simpl. destruct (Z.eqb_spec i (size - 1)); nia.
    + unfold part_of. simpl. lia.
    + intros j q Hj Hcov. apply list_lookup_fmap_Some in Hj as (k & -> & [-> Hk]%lookup_seqZ). cbn [Z.add] in *.
      unfold i. rewrite <- (part_index size chunk_bytesize offset length buffer (Z.of_nat j) x) by (done || lia). lia.
  - apply Forall_map, Forall_seqZ. intros i Hi. unfold part_of. cbn [pt_offset pt_bytesize].
    assert (i * chunk_bytesize <= (size - 1) * chunk_bytesize) by nia. split; [nia|].
    destruct (Z.eqb_spec i (size - 1)) as [->|Hne]; [split; [nia|]; split; [nia|]; intros Hw Hle; specialize (H3 Hw Hle); nia|].
    assert ((i + 1) * chunk_bytesize <= (size - 1) * chunk_bytesize) by nia. split; [lia|]. split; [lia|]. lia.
Qed.

(** The bytes from [offset] up to [last], and as many of the buffer, read one after another: each part begins where the one before
    it ended, in the object and in the buffer. *)
Inductive tiles (last : Z) : Z → Z → list Part → Prop :=
| tiles_end buffer : tiles last last buffer []
| tiles_part offset bytesize buffer parts : 0 <= bytesize → tiles last (offset + bytesize) (buffer + bytesize) parts →
    tiles last offset buffer (mkPart offset bytesize buffer :: parts).

(** Where part [i] begins; past the last one, the end of the range. *)
Definition begins (size chunk_bytesize length i : Z) : Z := if i =? size then length else i * chunk_bytesize.

Lemma part_of_tiles size chunk_bytesize offset length buffer : 0 < size → 0 <= chunk_bytesize → (size - 1) * chunk_bytesize <= length →
  ∀ n i, 0 <= i → i + Z.of_nat n = size →
  tiles (offset + length) (offset + begins size chunk_bytesize length i) (buffer + begins size chunk_bytesize length i)
    (map (part_of size chunk_bytesize offset length buffer) (seqZ i (Z.of_nat n))).
Proof.
  intros Hs Hc Hl. induction n as [|n IH]; intros i Hi Hn; unfold begins.
  - rewrite (proj2 (Z.eqb_eq i size)) by lia. constructor.
  - rewrite (proj2 (Z.eqb_neq i size)) by lia. rewrite seqZ_cons by lia. cbn [map]. unfold part_of at 1.
    specialize (IH (i + 1) ltac:(lia) ltac:(lia)). unfold begins in IH.
    replace (Z.pred (Z.of_nat (S n))) with (Z.of_nat n) by lia. rewrite Z.add_1_r in IH.
    constructor; destruct (Z.eqb_spec i (size - 1)) as [->|Hne].
    + lia.
    + done.
    + rewrite (proj2 (Z.eqb_eq _ _)) in IH by lia. by replace (offset + (size - 1) * chunk_bytesize + (length - (size - 1) * chunk_bytesize)) with
        (offset + length) by lia; replace (buffer + (size - 1) * chunk_bytesize + (length - (size - 1) * chunk_bytesize)) with (buffer + length) by lia.
    + rewrite (proj2 (Z.eqb_neq _ _)) in IH by lia. rewrite Z.mul_succ_l, !Z.add_assoc in IH. exact IH.
Qed.

(** The parts of a range: as many as it has chunks, and they tile it. *)
Lemma parts_of_range_spec whole chunk_bytesize offset length buffer :
  0 < chunk_bytesize → 0 <= offset → 0 <= length → offset + length < size_modulus →
  num_chunks whole length chunk_bytesize < unsigned_modulus →
  ∃ parts, parts_of_range whole chunk_bytesize offset length buffer = Some parts ∧
    Z.of_nat (List.length parts) = num_chunks whole length chunk_bytesize ∧ tiles (offset + length) offset buffer parts.
Proof.
  intros Hc Ho Hl Hm Hu. unfold parts_of_range. set (size := num_chunks whole length chunk_bytesize) in *.
  destruct (num_chunks_bounds whole length chunk_bytesize Hc Hl) as (H1 & H2 & _). fold size in H1, H2.
  pose proof (part_loop_spec (λ _, false) size chunk_bytesize offset length buffer ltac:(lia) ltac:(lia) Ho H2 Hm (λ _, eq_refl)
    (part_fuel size) 0 ltac:(lia) ltac:(unfold part_fuel; lia)) as E.
  rewrite (proj2 (Z.eqb_neq 0 size)), Z.mul_0_l, !Z.add_0_r, !Z.sub_0_r in E by lia. rewrite E. eexists. split; [done|].
  split; [rewrite length_map, length_seqZ; lia|].
  pose proof (part_of_tiles size chunk_bytesize offset length buffer ltac:(lia) ltac:(lia) H2 (Z.to_nat size) 0 ltac:(lia) ltac:(lia)) as Ht.
  unfold begins in Ht. rewrite (proj2 (Z.eqb_neq 0 size)), Z.mul_0_l, !Z.add_0_r, Z2Nat.id in Ht by lia. exact Ht.
Qed.

(** ** One response *)

Definition first_failure (codes : list ResponseCode) : option ResponseCode := List.find (λ c, negb (bool_decide (c = Success))) codes.


Lemma on_parts_spec request_id codes : ∀ k b, Z.of_nat (length codes) <= k → 0 < k < unsigned_modulus →
  (b = false → Z.of_nat (length codes) < k) →
  on_parts request_id codes (mkPartProgress k b) =
    if b then match first_failure codes with
              | Some c => [mkBackendResponse request_id c]
              | None => if Z.of_nat (length codes) =? k then [mkBackendResponse request_id Success] else []
              end
    else [].
Proof.
  assert (Hu : unsigned_modulus = 4294967296) by done.
  induction codes as [|code codes IH]; intros k b Hk Hp Hb.
  - destruct b; [|done]. cbn [length first_failure List.find on_parts]. destruct (Z.eqb_spec (Z.of_nat 0) k); [lia|done].
  - cbn [on_parts length] in *. unfold on_part. cbn [pr_counter pr_is_success]. destruct (bool_decide_reflect (code = Success)) as [->|Hne].
    + change (first_failure (Success :: codes)) with (first_failure codes). rewrite sub32_small by (unfold is_unsigned; lia).
      destruct (Z.eqb_spec k 1) as [->|Hk1].
      * assert (codes = []) as -> by (destruct codes; [done|cbn [length] in *; lia]). destruct b; [done|].
        specialize (Hb eq_refl). cbn in Hb. lia.
      * cbn [option_list app]. rewrite IH by (try intros ->; try specialize (Hb eq_refl); lia). destruct b; [|done].
        destruct (first_failure codes) as [c|]; [done|].
        destruct (Z.eqb_spec (Z.of_nat (length codes)) (k - 1)), (Z.eqb_spec (Z.of_nat (S (length codes))) k); try done; lia.
    + rewrite IH by (intros; lia). unfold first_failure. cbn [List.find]. rewrite (bool_decide_false (code = Success)) by done. by destruct b.
Qed.

(** Whatever the order the parts complete in, a range has at most one response: the code of the first part that failed,
    or Success once every one of its parts has succeeded.  A range that a stop cut short is never answered with Success. *)
Theorem range_answered_once request_id size codes :
  0 < size < unsigned_modulus → Z.of_nat (length codes) <= size →
  on_parts request_id codes (new_progress size) =
    match first_failure codes with
    | Some c => [mkBackendResponse request_id c]
    | None => if Z.of_nat (length codes) =? size then [mkBackendResponse request_id Success] else []
    end.
Proof.
  intros Hs Hl. unfold new_progress. rewrite wrap32_small by (unfold is_unsigned; lia). by apply (on_parts_spec request_id codes size true).
Qed.

Lemma push_running r q : stopped q = false → 0 < running q < unsigned_modulus →
  responses (SharedQueue.push r 0 q) = responses q ++ [r] ∧ stopped (SharedQueue.push r 0 q) = false ∧
  running (SharedQueue.push r 0 q) = running q - 1.
Proof.
  intros Hs Hr. unfold SharedQueue.push, push_locked. simpl. rewrite Hs. rewrite Z.gtb_ltb, (proj2 (Z.ltb_lt _ _)) by lia. simpl.
  split; [done|]. split; [done|]. rewrite sub32_small by (unfold is_unsigned; lia). done.
Qed.

Lemma expect_response_spec responder :
  (∀ q, responder = Some q → stopped q = false ∧ 0 <= running q < unsigned_modulus - 1) →
  let q := expect_response responder in
  stopped q = false ∧ 0 < running q < unsigned_modulus ∧ running q = match responder with Some q => running q + 1 | None => 1 end.
Proof.
  intros Hq. destruct responder as [q0|]; [|done]. destruct (Hq q0 eq_refl) as [Hst Hb]. simpl.
  rewrite add32_small by (unfold is_unsigned; lia). split; [done|lia].
Qed.

(** All the parts of a range have completed: the queue has its response. *)
Lemma range_answer_queued request_id size codes q :
  0 < size < unsigned_modulus → Z.of_nat (length codes) = size → stopped q = false → 0 < running q < unsigned_modulus →
  let q' := push_all (on_parts request_id codes (new_progress size)) q in
  running q' = running q - 1 ∧ responses q' = responses q ++ [mkBackendResponse request_id (default Success (first_failure codes))].
Proof.
  intros Hs Hl Hst Hb. rewrite range_answered_once by lia. rewrite (proj2 (Z.eqb_eq _ _) Hl).
  destruct (first_failure codes) as [c|]; cbn [push_all fold_left]; [destruct (push_running (mkBackendResponse request_id c) q Hst Hb) as (? & _ & ?)|
    destruct (push_running (mkBackendResponse request_id Success) q Hst Hb) as (? & _ & ?)]; done.
Qed.

(** What a stop leaves is the beginning of the range: the parts that were sent are the first ones. *)
Theorem stopped_range_is_a_prefix fuel stops size chunk_bytesize : ∀ i total offset buffer sent parts,
  part_loop fuel stops size chunk_bytesize i total offset buffer = Some sent →
  part_loop fuel (λ _, false) size chunk_bytesize i total offset buffer = Some parts → sent `prefix_of` parts.
Proof.
  induction fuel as [|fuel IH]; intros i total offset buffer sent parts; cbn [part_loop]; rewrite andb_true_r.
  - destruct (i <? size); [done|]. cbn [andb]. intros [= <-] [= <-]. done.
  - destruct (i <? size); cbn [andb]; [|intros [= <-] [= <-]; done].
    destruct (stops i); cbn [negb]; [intros [= <-] _; apply prefix_nil|].
    set (n := if i =? size ⊖ 1 then total else chunk_bytesize).
    destruct (part_loop fuel stops _ _ _ _ _ _) as [l1|] eqn:E1; [|done]. intros [= <-].
    destruct (part_loop fuel (λ _, false) _ _ _ _ _ _) as [l2|] eqn:E2; [|done]. intros [= <-].
    apply prefix_cons. by apply (IH _ _ _ _ _ _ E1 E2).
Qed.

Module Parts.

(** Thirteen bytes in chunks of four: the last part has five. *)
Example thirteen : parts_of_range false 4 100 13 4096 = Some [mkPart 100 4 4096; mkPart 104 4 4100; mkPart 108 5 4104].
Proof. vm_compute. reflexivity. Qed.

Example below_a_chunk : parts_of_range false 4 100 3 4096 = Some [mkPart 100 3 4096].
Proof. vm_compute. reflexivity. Qed.

Example stopped_after_one : part_loop 3 (λ i, 1 <=? i) 3 4 0 13 100 4096 = Some [mkPart 100 4 4096].
Proof. vm_compute. reflexivity. Qed.

Example second_failure_is_silent :
  on_parts 7 [Success; EofError; FileAccessError] (new_progress 3) = [mkBackendResponse 7 EofError].
Proof. vm_compute. reflexivity. Qed.

Lemma parts_tile_the_range_witness : ∃ parts, parts_of_range false 4 100 13 4096 = Some parts ∧
  (∀ x, 100 <= x < 100 + 13 → ∃ i p, parts !! i = Some p ∧ covers p x ∧ pt_buffer p - 4096 = pt_offset p - 100 ∧
    ∀ j q, parts !! j = Some q → covers q x → j = i) ∧
  Forall (λ p, 100 <= pt_offset p ∧ 0 <= pt_bytesize p ∧ pt_offset p + pt_bytesize p <= 100 + 13 ∧
    (false = false → 4 <= 13 → 4 <= pt_bytesize p < 2 * 4)) parts.
Proof. apply (parts_tile_the_range false 4 100 13 4096); [lia|lia|lia|reflexivity|reflexivity]. Defined.

Lemma range_answered_once_witness :
  on_parts 7 [Success; EofError; FileAccessError] (new_progress 3) = [mkBackendResponse 7 EofError].
Proof. apply (range_answered_once 7 3 [Success; EofError; FileAccessError]); [split; reflexivity|discriminate]. Defined.

End Parts.
