(* ===== verification/AzCacheLoader.v ===== *)
(** The loader of a cache provider for the Azure client (azure/azcache_provider): which library is taken, when it counts as
    usable, and the handle that the loaders of a process share.

    The environment, the file system and the dynamic linker are arguments.  The handle is a shared_ptr of every loader and a
    weak_ptr of the process, so it lives as long as a loader holds it; the constructors and destructors of loaders are
    critical sections of one mutex, which makes every interleaving a sequence of the steps below. *)

From stdpp Require Import gmap.
From S2P Require Import Prelude ResponseCode Text Env.

(** ** The configuration *)

Inductive CacheMode := Disabled | Required | Auto.

#[export] Instance CacheMode_eq_dec : EqDecision CacheMode.
Proof. solve_decision. Defined.

Definition parse_cache_mode (val : text) : CacheMode :=
  let lower := lowered val in
  if bool_decide (lower = txt "0") then Disabled
  else if bool_decide (lower = txt "1") then Required
  else Auto.

Record CacheProviderConfig := mkCacheConfig { pc_lib_path : text; pc_mode : CacheMode }.

Definition CACHE_PROVIDER_PACKAGE : text := txt "py_dacs_client".
Definition CACHE_PROVIDER_LIB : text := txt "libStorageDirect.so".
Definition DEFAULT_CACHE_PROVIDER_PATH : text :=
  txt "/opt/cache-client/usr/local/lib/python3.10/dist-packages/py_dacs_client/libStorageDirect.so".
Definition RUNAI_AZURE_CACHE_ENABLED_ENV : string := "RUNAI_STREAMER_EXPERIMENTAL_AZURE_CACHE_ENABLED".
Definition RUNAI_AZURE_CACHE_LIB_ENV : string := "RUNAI_STREAMER_EXPERIMENTAL_AZURE_CACHE_LIB".

(** An absolute path, as the names on the way to it. *)
Definition path_text (path : list text) : text := concat (map (λ name, "/"%char :: name) path).
Definition parent_path (path : list text) : list text := removelast path.

(** [azure_so] is the canonical path of the plugin, where there is one. *)
Definition autodiscover_cache_lib (azure_so : option (list text)) (exists_ : text → bool) : text :=
  match azure_so with
  | None => []
  | Some azure_so =>
      let site_packages := parent_path (parent_path (parent_path (parent_path azure_so))) in
      let candidate := path_text (site_packages ++ [CACHE_PROVIDER_PACKAGE; CACHE_PROVIDER_LIB]) in
      if exists_ candidate then candidate else []
  end.

Definition config_from_env (env : environment) (is_regular_file exists_ : text → bool) (azure_so : option (list text)) :
    CacheProviderConfig :=
  let mode := match try_getenv_string env RUNAI_AZURE_CACHE_ENABLED_ENV with Some v => parse_cache_mode v | None => Auto end in
  let candidate_path :=
    match try_getenv_string env RUNAI_AZURE_CACHE_LIB_ENV with
    | Some lib_path => if bool_decide (lib_path = []) then DEFAULT_CACHE_PROVIDER_PATH else lib_path
    | None => DEFAULT_CACHE_PROVIDER_PATH
    end in
  let lib_path := if negb (bool_decide (mode = Disabled)) && is_regular_file candidate_path then candidate_path else [] in
  let lib_path :=
    if bool_decide (lib_path = []) && negb (bool_decide (mode = Disabled)) then autodiscover_cache_lib azure_so exists_ else lib_path in
  mkCacheConfig lib_path mode.

(** ** The library *)

(** What the linker finds in a library: its ABI version, and which of the two functions it exports. *)
Record Library := mkLibrary { lb_version : option Z; lb_blob_read : bool; lb_shutdown : bool }.

Definition RUNAI_CACHE_ABI_VERSION : Z := 1.

(** Which of its pointers are set. *)
Record CacheLibHandle := mkHandle { lh_lib_handle : bool; lh_read_fn : bool; lh_close_fn : bool; lh_lib_path : text }.

(** The handle, and how many times the library was opened and not closed again. *)
Definition new_handle (dlopen : text → option Library) (path : text) (mode : CacheMode) : outcome CacheLibHandle * Z :=
  let unusable := if bool_decide (mode = Required) then Throw (Code InvalidParameterError) else Ret (mkHandle false false false path) in
  match dlopen path with
  | None => (unusable, 0)
  | Some library =>
      match lb_version library with
      | None => (unusable, 1 - 1)
      | Some lib_version =>
          if negb (lib_version =? RUNAI_CACHE_ABI_VERSION) then (unusable, 1 - 1)
          else if negb (lb_blob_read library) then (unusable, 1 - 1)
          else (Ret (mkHandle true true (lb_shutdown library) path), 1)
      end
  end.

(** ** The process *)

(** The handles that live, the loaders and the handle each holds, the weak pointer, and the libraries whose shutdown was
    called, the last first. *)
Record Process := mkProcess {
  ps_handles : gmap nat CacheLibHandle; ps_loaders : gmap nat (option nat); ps_shared : option nat; ps_shutdowns : list text }.

Definition new_process : Process := mkProcess ∅ ∅ None [].

Definition is_held (h : nat) (p : Process) : bool :=
  existsb (λ '(_, held), bool_decide (held = Some h)) (map_to_list (ps_loaders p)).

(** lock of the weak pointer: the handle is gone once nothing holds it. *)
Definition lock (p : Process) : option (nat * CacheLibHandle) :=
  match ps_shared p with
  | Some h => if is_held h p then (λ handle, (h, handle)) <$> ps_handles p !! h else None
  | None => None
  end.

(** A loader, at [loader]; a handle it creates is put at [fresh].  Whether it is enabled. *)
Definition new_loader (dlopen : text → option Library) (config : CacheProviderConfig) (loader fresh : nat) (p : Process) :
    outcome bool * Process :=
  let hold h p := mkProcess (ps_handles p) (<[loader := h]> (ps_loaders p)) (ps_shared p) (ps_shutdowns p) in
  if bool_decide (pc_mode config = Disabled) then (Ret false, hold None p)
  else if bool_decide (pc_lib_path config = []) then
    if bool_decide (pc_mode config = Required) then (Throw (Code InvalidParameterError), p) else (Ret false, hold None p)
  else
    let create :=
      match (new_handle dlopen (pc_lib_path config) (pc_mode config)).1 with
      | Throw e => (Throw e, p)
      | Ret handle =>
          (Ret (lh_read_fn handle),
           hold (Some fresh) (mkProcess (<[fresh := handle]> (ps_handles p)) (ps_loaders p) (Some fresh) (ps_shutdowns p)))
      end in
    match lock p with
    | Some (h, handle) =>
        if lh_lib_handle handle && bool_decide (lh_lib_path handle = pc_lib_path config) then (Ret (lh_read_fn handle), hold (Some h) p)
        else create
    | None => create
    end.

(** The destructor of a loader, and of the handle that nothing holds any more. *)
Definition drop_loader (loader : nat) (p : Process) : Process :=
  let p' := mkProcess (ps_handles p) (delete loader (ps_loaders p)) (ps_shared p) (ps_shutdowns p) in
  match ps_loaders p !! loader with
  | Some (Some h) =>
      if is_held h p' then p'
      else
        mkProcess (delete h (ps_handles p')) (ps_loaders p') (ps_shared p')
          (match ps_handles p !! h with
           | Some handle => if lh_lib_handle handle && lh_close_fn handle then lh_lib_path handle :: ps_shutdowns p else ps_shutdowns p
           | None => ps_shutdowns p
           end)
  | _ => p'
  end.

(** A read: [bytes_read] is what the library's function returns. *)
Definition loader_read (enabled : bool) (bytes_read length : Z) : bool :=
  if negb enabled then false
  else if (bytes_read <? 0) || negb (bytes_read =? length) then false
  else true.

(** ** One handle for all loaders *)

Lemma is_held_spec h p : is_held h p = true ↔ ∃ l, ps_loaders p !! l = Some (Some h).
Proof.
  unfold is_held. rewrite existsb_exists. split.
  - intros ([l held] & Hin & E%bool_decide_eq_true). subst. exists l. by apply elem_of_map_to_list, list_elem_of_In.
  - intros [l Hl]. exists (l, Some h). split; [by apply list_elem_of_In, elem_of_map_to_list|]. by apply bool_decide_eq_true.
Qed.

(** The loaders of a process that all name the library [lib]; what the linker answers may change between them. *)
Inductive step (lib : text) : Process → Process → Prop :=
| create_step dlopen config loader fresh p : ps_loaders p !! loader = None → ps_handles p !! fresh = None →
    pc_lib_path config ∈ [lib; []] → step lib p (new_loader dlopen config loader fresh p).2
| drop_step loader p : is_Some (ps_loaders p !! loader) → step lib p (drop_loader loader p).

Definition reachable (lib : text) (p : Process) : Prop := rtc (step lib) new_process p.

Record process_ok (lib : text) (p : Process) : Prop := {
  ok_exists l h : ps_loaders p !! l = Some (Some h) → is_Some (ps_handles p !! h);
  ok_held h handle : ps_handles p !! h = Some handle → ∃ l, ps_loaders p !! l = Some (Some h);
  ok_read h handle : ps_handles p !! h = Some handle → lh_lib_handle handle = lh_read_fn handle;
  ok_path h handle : ps_handles p !! h = Some handle → lh_lib_path handle = lib;
  ok_shared h handle : ps_handles p !! h = Some handle → lh_lib_handle handle = true → ps_shared p = Some h }.

Lemma new_handle_ok dlopen path mode handle : (new_handle dlopen path mode).1 = Ret handle →
  lh_lib_handle handle = lh_read_fn handle ∧ lh_lib_path handle = path ∧ (mode = Required → lh_read_fn handle = true).
Proof.
  assert (Hun : (if bool_decide (mode = Required) then Throw (Code InvalidParameterError) else Ret (mkHandle false false false path)) = Ret handle →
    lh_lib_handle handle = lh_read_fn handle ∧ lh_lib_path handle = path ∧ (mode = Required → lh_read_fn handle = true)).
  { case_bool_decide; [done|]. intros [= <-]. done. }
  unfold new_handle. destruct (dlopen path) as [library|]; [|done]. destruct (lb_version library) as [v|]; [|done].
  destruct (negb (v =? _)); [done|]. destruct (negb _); [done|]. intros [= <-]. done.
Qed.

(** What a loader's constructor does: nothing, a loader without a handle, one more holder of the shared handle, or a new
    handle that is shared from now on. *)
Lemma new_loader_cases dlopen config loader fresh p out p' : new_loader dlopen config loader fresh p = (out, p') →
  (p' = p ∧ out = Throw (Code InvalidParameterError)) ∨
  (p' = mkProcess (ps_handles p) (<[loader := None]> (ps_loaders p)) (ps_shared p) (ps_shutdowns p) ∧ out = Ret false ∧ pc_mode config ≠ Required) ∨
  (∃ h handle, lock p = Some (h, handle) ∧ lh_lib_handle handle = true ∧ lh_lib_path handle = pc_lib_path config ∧ out = Ret (lh_read_fn handle) ∧
     p' = mkProcess (ps_handles p) (<[loader := Some h]> (ps_loaders p)) (ps_shared p) (ps_shutdowns p)) ∨
  (∃ handle, (∀ h old, lock p = Some (h, old) → lh_lib_handle old = true → lh_lib_path old ≠ pc_lib_path config) ∧
     pc_lib_path config ≠ [] ∧ (new_handle dlopen (pc_lib_path config) (pc_mode config)).1 = Ret handle ∧ out = Ret (lh_read_fn handle) ∧
     p' = mkProcess (<[fresh := handle]> (ps_handles p)) (<[loader := Some fresh]> (ps_loaders p)) (Some fresh) (ps_shutdowns p)).
Proof.
  unfold new_loader. case_bool_decide as Hd; [intros [= <- <-]; right; left; split; [done|]; by rewrite Hd|].
  case_bool_decide as Hl; [case_bool_decide as Hr; intros [= <- <-]; [by left|right; by left]|].
  assert (Hc : ∀ r, (match (new_handle dlopen (pc_lib_path config) (pc_mode config)).1 with
    | Throw e => (Throw e, p)
    | Ret handle => (Ret (lh_read_fn handle), mkProcess (<[fresh := handle]> (ps_handles p)) (<[loader := Some fresh]> (ps_loaders p)) (Some fresh) (ps_shutdowns p))
    end) = r → (r = (Throw (Code InvalidParameterError), p) ∨ ∃ handle, (new_handle dlopen (pc_lib_path config) (pc_mode config)).1 = Ret handle ∧
      r = (Ret (lh_read_fn handle), mkProcess (<[fresh := handle]> (ps_handles p)) (<[loader := Some fresh]> (ps_loaders p)) (Some fresh) (ps_shutdowns p)))).
  { intros r <-. destruct (new_handle dlopen (pc_lib_path config) (pc_mode config)).1 as [handle|e] eqn:E; [right; by exists handle|left].
    unfold new_handle in E. destruct (dlopen _) as [library|]; [destruct (lb_version library); [destruct (negb _); [|destruct (negb _)]|]|];
      simpl in E; try case_bool_decide; by simplify_eq. }
  destruct (lock p) as [[h handle]|] eqn:Hlock.
  - destruct (lh_lib_handle handle && bool_decide (lh_lib_path handle = pc_lib_path config)) eqn:Hreuse.
    + apply andb_true_iff in Hreuse as [Hh Hp%bool_decide_eq_true]. intros [= <- <-]. right; right; left. by exists h, handle.
    + intros E. destruct (Hc _ E) as [E'|(new & Hn & E')]; injection E' as -> ->; [by left|]. right; right; right. exists new.
      split; [|done]. intros h' old [= <- <-] Hold Hp. rewrite Hold, bool_decide_true in Hreuse by done. done.
  - intros E. destruct (Hc _ E) as [E'|(new & Hn & E')]; injection E' as -> ->; [by left|]. right; right; right. exists new. done.
Qed.

Section Invariant.
Context (lib : text).

Lemma process_ok_new : process_ok lib new_process.
Proof. split; simpl; intros *; by rewrite lookup_empty. Qed.

Lemma lock_good p h handle : process_ok lib p → ps_handles p !! h = Some handle → lh_lib_handle handle = true → lock p = Some (h, handle).
Proof.
  intros Hok Hh Hl. unfold lock. rewrite (ok_shared _ _ Hok _ _ Hh Hl). rewrite (proj2 (is_held_spec h p)) by by apply (ok_held _ _ Hok h handle).
  by rewrite Hh.
Qed.

Lemma process_ok_hold p loader held : process_ok lib p → ps_loaders p !! loader = None →
  (∀ h, held = Some h → is_Some (ps_handles p !! h)) →
  process_ok lib (mkProcess (ps_handles p) (<[loader := held]> (ps_loaders p)) (ps_shared p) (ps_shutdowns p)).
Proof.
  intros Hok Hl Hh. split; simpl.
  - intros l h. rewrite lookup_insert_Some. intros [[-> ->]|[_ Hlh]]; [by apply Hh|by apply (ok_exists _ _ Hok l)].
  - intros h handle (l & Hlh)%(ok_held _ _ Hok). exists l. rewrite lookup_insert_ne; [done|]. intros ->. congruence.
  - apply (ok_read _ _ Hok).
  - apply (ok_path _ _ Hok).
  - apply (ok_shared _ _ Hok).
Qed.

Lemma process_ok_create p loader fresh handle : process_ok lib p → ps_loaders p !! loader = None → ps_handles p !! fresh = None →
  lh_lib_handle handle = lh_read_fn handle → lh_lib_path handle = lib →
  (∀ h old, ps_handles p !! h = Some old → lh_lib_handle old = false) →
  process_ok lib (mkProcess (<[fresh := handle]> (ps_handles p)) (<[loader := Some fresh]> (ps_loaders p)) (Some fresh) (ps_shutdowns p)).
Proof.
  intros Hok Hl Hf Hr Hp Hnone. split; simpl.
  - intros l h. rewrite lookup_insert_Some. intros [[-> [= ->]]|[_ Hlh]]; [by rewrite lookup_insert_eq|].
    apply (ok_exists _ _ Hok l) in Hlh. rewrite lookup_insert_is_Some'. by right.
  - intros h old. rewrite lookup_insert_Some. intros [[-> ->]|[_ Hh]]; [exists loader; by rewrite lookup_insert_eq|].
    apply (ok_held _ _ Hok) in Hh as [l Hlh]. exists l. rewrite lookup_insert_ne; [done|]. intros ->. congruence.
  - intros h old. rewrite lookup_insert_Some. intros [[-> ->]|[_ Hh]]; [done|by apply (ok_read _ _ Hok h)].
  - intros h old. rewrite lookup_insert_Some. intros [[-> ->]|[_ Hh]]; [done|by apply (ok_path _ _ Hok h)].
  - intros h old. rewrite lookup_insert_Some. intros [[-> ->]|[_ Hh]]; [done|]. by rewrite (Hnone _ _ Hh).
Qed.

Lemma process_ok_drop p loader : process_ok lib p → process_ok lib (drop_loader loader p).
Proof.
  intros Hok. unfold drop_loader. set (p' := mkProcess _ (delete _ _) _ _).
  assert (Hexists : ∀ l h, ps_loaders p' !! l = Some (Some h) → is_Some (ps_handles p !! h)).
  { intros l h. simpl. rewrite lookup_delete_Some. intros [_ Hl]. by apply (ok_exists _ _ Hok l). }
  assert (Hheld : ∀ h handle, ps_handles p !! h = Some handle → ps_loaders p !! loader ≠ Some (Some h) → ∃ l, ps_loaders p' !! l = Some (Some h)).
  { intros h handle (l & Hl)%(ok_held _ _ Hok) Hne. exists l. simpl. rewrite lookup_delete_ne; [done|]. by intros ->. }
  destruct (ps_loaders p !! loader) as [[h|]|] eqn:Hl.
  - destruct (is_held h p') eqn:Hh.
    + split; [apply Hexists| |apply (ok_read _ _ Hok)|apply (ok_path _ _ Hok)|apply (ok_shared _ _ Hok)].
      intros h' handle Hh'. destruct (decide (h' = h)) as [->|Hne]; [by apply is_held_spec|]. apply (Hheld _ _ Hh'). congruence.
    + split; simpl.
      * intros l h' Hlh. rewrite lookup_delete_ne; [by apply (Hexists l)|]. intros <-.
        assert (is_held h p' = true) by (apply is_held_spec; by exists l). congruence.
      * intros h' handle [Hne Hh']%lookup_delete_Some. apply (Hheld _ _ Hh'). congruence.
      * intros h' handle [_ Hh']%lookup_delete_Some. by apply (ok_read _ _ Hok h').
      * intros h' handle [_ Hh']%lookup_delete_Some. by apply (ok_path _ _ Hok h').
      * intros h' handle [_ Hh']%lookup_delete_Some. by apply (ok_shared _ _ Hok h').
  - split; [apply Hexists| |apply (ok_read _ _ Hok)|apply (ok_path _ _ Hok)|apply (ok_shared _ _ Hok)].
    intros h' handle Hh'. by apply (Hheld _ _ Hh').
  - split; [apply Hexists| |apply (ok_read _ _ Hok)|apply (ok_path _ _ Hok)|apply (ok_shared _ _ Hok)].
    intros h' handle Hh'. by apply (Hheld _ _ Hh').
Qed.

Lemma process_ok_step p p' : process_ok lib p → step lib p p' → process_ok lib p'.
Proof.
  intros Hok Hs. revert Hok. destruct Hs as [dlopen config loader fresh q Hl Hf Hc|loader q _]; intros Hok; [|by apply process_ok_drop].
  destruct (new_loader dlopen config loader fresh q) as [out r] eqn:E.
  destruct (new_loader_cases _ _ _ _ _ _ _ E) as [[-> _]|[(-> & _)|[(h & handle & Hlock & _ & _ & _ & ->)|(handle & Hno & Hne & Hn & _ & ->)]]]; simpl.
  - done.
  - by apply process_ok_hold.
  - apply process_ok_hold; [done|done|]. intros ? [= <-]. unfold lock in Hlock. destruct (ps_shared q) as [x|]; [|done].
    destruct (is_held x q); [|done]. destruct (ps_handles q !! x) as [y|] eqn:Hx; [|done]. injection Hlock as -> _. by rewrite Hx.
  - apply new_handle_ok in Hn as (Hr & Hp & _). rewrite !elem_of_cons in Hc.
    assert (Hpath : pc_lib_path config = lib) by (destruct Hc as [?|[?|[]%not_elem_of_nil]]; done).
    apply process_ok_create; try done; [congruence|]. intros h old Hh. destruct (lh_lib_handle old) eqn:Hlib; [|done].
    exfalso. apply (Hno h old); [by apply lock_good|done|]. by rewrite (ok_path _ _ Hok h old Hh).
Qed.

Lemma process_reachable_ok p : reachable lib p → process_ok lib p.
Proof.
  intros H. unfold reachable in H. remember new_process as p0. assert (Hok : process_ok lib p0) by (subst; apply process_ok_new). clear Heqp0.
  induction H as [p|p q r Hs _ IH]; [done|]. apply IH. by apply (process_ok_step p).
Qed.
End Invariant.

(** A loader that must have the cache has it: in the required mode the constructor either fails with
    InvalidParameterError or leaves an enabled loader, whatever library, version and symbols it finds and whether the
    handle is new or shared. *)
Theorem required_is_enabled_or_fails lib p dlopen config loader fresh :
  reachable lib p → pc_lib_path config ∈ [lib; []] → pc_mode config = Required →
  (new_loader dlopen config loader fresh p).1 ∈ [Ret true; Throw (Code InvalidParameterError)].
Proof.
  intros Hr%process_reachable_ok _ Hm. destruct (new_loader dlopen config loader fresh p) as [out p'] eqn:E.
  destruct (new_loader_cases _ _ _ _ _ _ _ E) as [[_ ->]|[(_ & _ & Hne)|[(h & handle & Hlock & Hlib & _ & -> & _)|(handle & _ & _ & Hn & -> & _)]]]; simpl.
  - by right; left.
  - done.
  - apply elem_of_cons. left. f_equal. unfold lock in Hlock. destruct (ps_shared p) as [x|]; [|done]. destruct (is_held x p); [|done].
    destruct (ps_handles p !! x) as [y|] eqn:Hx; [|done]. injection Hlock as -> ->. by rewrite <- (ok_read _ _ Hr _ _ Hx).
  - apply elem_of_cons. left. f_equal. apply new_handle_ok in Hn as (_ & _ & Hn). by rewrite Hn.
Qed.

(** A library that is opened and not used is closed again, in every mode. *)
Theorem unusable_library_is_closed dlopen path mode :
  let '(handle, opened) := new_handle dlopen path mode in
  opened = 1 ↔ ∃ h, handle = Ret h ∧ lh_lib_handle h = true.
Proof.
  unfold new_handle. assert (Hun : (0 = 1 ↔ ∃ h, (if bool_decide (mode = Required) then Throw (Code InvalidParameterError) else Ret (mkHandle false false false path)) = Ret h ∧ lh_lib_handle h = true)).
  { split; [done|]. intros (h & E & Hh). case_bool_decide; [done|]. by injection E as <-. }
  destruct (dlopen path) as [library|]; [|done]. destruct (lb_version library) as [v|]; [|done].
  destruct (negb (v =? _)); [done|]. destruct (negb _); [done|]. split; [intros _; by eexists|done].
Qed.

(** Loaders that name the same library share one handle of it, and its shutdown is called by the last of them: none that
    is left is enabled. *)
Theorem shutdown_by_the_last_loader lib p loader :
  reachable lib p →
  (∀ l1 l2 h1 h2 handle1 handle2, ps_loaders p !! l1 = Some (Some h1) → ps_loaders p !! l2 = Some (Some h2) →
    ps_handles p !! h1 = Some handle1 → ps_handles p !! h2 = Some handle2 → lh_read_fn handle1 = true → lh_read_fn handle2 = true → h1 = h2) ∧
  (ps_shutdowns (drop_loader loader p) ≠ ps_shutdowns p →
    ps_shutdowns (drop_loader loader p) = lib :: ps_shutdowns p ∧
    ∀ l h handle, ps_loaders (drop_loader loader p) !! l = Some (Some h) → ps_handles (drop_loader loader p) !! h = Some handle → lh_read_fn handle = false).
Proof.
  intros Hok%process_reachable_ok. split.
  - intros l1 l2 h1 h2 handle1 handle2 _ _ Hh1 Hh2 Hr1 Hr2.
    rewrite <- (ok_read _ _ Hok h1 handle1) in Hr1 by done. rewrite <- (ok_read _ _ Hok h2 handle2) in Hr2 by done.
    pose proof (ok_shared _ _ Hok _ _ Hh1 Hr1). pose proof (ok_shared _ _ Hok _ _ Hh2 Hr2). congruence.
  - unfold drop_loader. set (p' := mkProcess _ (delete _ _) _ _). destruct (ps_loaders p !! loader) as [[h|]|] eqn:Hl; [|done|done].
    destruct (is_held h p') eqn:Hh; [done|]. simpl. destruct (ps_handles p !! h) as [handle|] eqn:Hhandle; [|done].
    destruct (lh_lib_handle handle && lh_close_fn handle) eqn:Hc; [|done]. intros _. apply andb_true_iff in Hc as [Hlib _].
    rewrite (ok_path _ _ Hok h handle Hhandle). split; [done|]. intros l h2 handle2 _ [Hne Hh2]%lookup_delete_Some.
    destruct (lh_read_fn handle2) eqn:Hr2; [|done]. rewrite <- (ok_read _ _ Hok h2 handle2) in Hr2 by done.
    pose proof (ok_shared _ _ Hok _ _ Hhandle Hlib). pose proof (ok_shared _ _ Hok _ _ Hh2 Hr2). congruence.
Qed.

(** A read through the cache succeeds only with every byte that was asked for. *)
Theorem cache_read_is_whole enabled bytes_read length : loader_read enabled bytes_read length = true → enabled = true ∧ bytes_read = length ∧ 0 <= bytes_read.
Proof.
  unfold loader_read. destruct enabled; [|done]. simpl. destruct (Z.ltb_spec bytes_read 0), (Z.eqb_spec bytes_read length); simpl; (done || lia).
Qed.

(** The library next to the plugin, in the same site-packages. *)
Theorem discovered_next_to_the_plugin site exists_ :
  autodiscover_cache_lib (Some (site ++ map txt ["runai_model_streamer"; "libstreamer"; "lib"; "libstreamerazure.so"])) exists_ =
    let candidate := path_text (site ++ [CACHE_PROVIDER_PACKAGE; CACHE_PROVIDER_LIB]) in if exists_ candidate then candidate else [].
Proof.
  unfold autodiscover_cache_lib, parent_path. cbn [map]. set (a := txt _). set (b := txt _). set (c := txt _). set (d := txt _).
  replace (site ++ [a; b; c; d]) with ((((site ++ [a]) ++ [b]) ++ [c]) ++ [d]) by by rewrite <- !app_assoc.
  by rewrite !removelast_last.
Qed.

Module Libraries.

Definition provider : Library := mkLibrary (Some 1) true true.
Definition linker (path : text) : option Library :=
  if bool_decide (path = txt "/a.so") || bool_decide (path = txt "/b.so") then Some provider else None.

Definition add (mode : CacheMode) (path : string) (loader fresh : nat) (p : Process) : Process :=
  (new_loader linker (mkCacheConfig (txt path) mode) loader fresh p).2.

(** Loaders of one library. *)
Definition two : Process := add Auto "/a.so" 2 11 (add Required "/a.so" 1 10 new_process).

Lemma two_reachable : reachable (txt "/a.so") two.
Proof.
  eapply rtc_l; [apply (create_step _ linker (mkCacheConfig (txt "/a.so") Required) 1 10); [reflexivity|reflexivity|by left]|].
  apply rtc_once. apply (create_step _ linker (mkCacheConfig (txt "/a.so") Auto) 2 11); [reflexivity|reflexivity|by left].
Qed.

Example shutdown_once : ps_shutdowns (drop_loader 2 two) = [] ∧ ps_shutdowns (drop_loader 1 (drop_loader 2 two)) = [txt "/a.so"].
Proof. split; vm_compute; reflexivity. Qed.

Lemma required_is_enabled_or_fails_witness :
  (new_loader (λ _, None) (mkCacheConfig (txt "/a.so") Required) 3 12 two).1 ∈ [Ret true; Throw (Code InvalidParameterError)].
Proof. apply (required_is_enabled_or_fails (txt "/a.so")); [apply two_reachable|by left|reflexivity]. Defined.

Lemma shutdown_by_the_last_loader_witness :
  (∀ l1 l2 h1 h2 handle1 handle2, ps_loaders two !! l1 = Some (Some h1) → ps_loaders two !! l2 = Some (Some h2) →
    ps_handles two !! h1 = Some handle1 → ps_handles two !! h2 = Some handle2 → lh_read_fn handle1 = true → lh_read_fn handle2 = true → h1 = h2) ∧
  (ps_shutdowns (drop_loader 1 two) ≠ ps_shutdowns two →
    ps_shutdowns (drop_loader 1 two) = txt "/a.so" :: ps_shutdowns two ∧
    ∀ l h handle, ps_loaders (drop_loader 1 two) !! l = Some (Some h) → ps_handles (drop_loader 1 two) !! h = Some handle → lh_read_fn handle = false).
Proof. apply (shutdown_by_the_last_loader (txt "/a.so") two 1). apply two_reachable. Defined.

(** A loader of another library comes in between: the first library gets a second handle, and its shutdown is called while a
    loader still reads through it. *)
Definition three : Process := add Auto "/a.so" 3 12 (add Auto "/b.so" 2 11 (add Auto "/a.so" 1 10 new_process)).

Example shut_down_in_use :
  ps_shutdowns (drop_loader 1 three) = [txt "/a.so"] ∧
  ps_loaders (drop_loader 1 three) !! 3%nat = Some (Some 12%nat) ∧
  ps_handles (drop_loader 1 three) !! 12%nat = Some (mkHandle true true true (txt "/a.so")).
Proof. split; [|split]; vm_compute; reflexivity. Qed.

End Libraries.
