(* ===== verification/AzureClient.v ===== *)
(** The client of the Azure plugin and what is its own in the plugin's entry points (azure/client, azure/client_configuration,
    azure/azure).

    The SDK, the environment and the cache loader are arguments, and so is the window derived in floating point.  The values
    of a client's parameters are C strings, not null. *)

From stdpp Require Import gmap.
From S2P Require Import Prelude ResponseCode Text Env SharedQueue StorageUri BackendApi ClientMgr PartedRead Semver.

(** ** The configuration *)

Record AzureConfiguration := mkAzureConfiguration {
  ac_account_name : option text; ac_account_key : option text; ac_sas_token : option text; ac_endpoint_suffix : text;
  ac_max_concurrency : Z }.

(** The share of the hardware threads; [None] is a division by zero. *)
Definition azure_concurrency (nprocs concurrent_readers process_group_size : Z) : option Z :=
  let default_max_concurrency := if nprocs =? 0 then 8 else 1 in
  let worker_concurrency := Z.max 1 concurrent_readers in
  let divisor := mul32 worker_concurrency process_group_size in
  if divisor =? 0 then None else Some (Z.max default_max_concurrency (mul32 nprocs 2 / divisor)).

Definition azure_configuration (env : environment) (nprocs concurrent_readers : Z) : outcome (option AzureConfiguration) :=
  let account_key := env_value env "AZURE_STORAGE_ACCOUNT_KEY" in
  let sas_token := env_value env "AZURE_STORAGE_SAS_TOKEN" in
  let endpoint_suffix := default (txt "blob.core.windows.net") (env_value env "AZURE_STORAGE_ENDPOINT_SUFFIX") in
  let account_name := env_value env "AZURE_STORAGE_ACCOUNT_NAME" in
  let! process_group_size := getenv_positive env (unsigned_modulus - 1) "RUNAI_STREAMER_PROCESS_GROUP_SIZE" 1 1 in
  Ret (match azure_concurrency nprocs concurrent_readers process_group_size with
       | None => None
       | Some max_concurrency => Some (mkAzureConfiguration account_name account_key sas_token endpoint_suffix max_concurrency)
       end).

(** ** Credentials *)

Record AzureParams := mkAzureParams { az_chunk_bytesize : Z; az_initial_params : list (text * text); az_concurrent_readers : Z }.

(** What a client is told apart by: account name, account key, SAS token and endpoint suffix. *)
Record AzureIdentity := mkIdentity { ai_account_name : option text; ai_account_key : option text; ai_sas_token : option text; ai_endpoint_suffix : text }.

#[export] Instance AzureIdentity_eq_dec : EqDecision AzureIdentity.
Proof. solve_decision. Defined.

Definition identity_of (c : AzureConfiguration) : AzureIdentity :=
  mkIdentity (ac_account_name c) (ac_account_key c) (ac_sas_token c) (ac_endpoint_suffix c).

Definition set_param (key value : text) (i : AzureIdentity) : AzureIdentity :=
  let '(mkIdentity n k s e) := i in
  if bool_decide (key = txt "account_name") then mkIdentity (Some value) k s e
  else if bool_decide (key = txt "account_key") then mkIdentity n (Some value) s e
  else if bool_decide (key = txt "sas_token") then mkIdentity n k (Some value) e
  else if bool_decide (key = txt "endpoint_suffix") then mkIdentity n k s value
  else i.

(** The constructor's loop: an empty value is skipped. *)
Definition client_identity (params : list (text * text)) (i : AzureIdentity) : AzureIdentity :=
  fold_left (λ i param, if bool_decide (param.2 = []) then i else set_param param.1 param.2 i) params i.

(** The loop of verify_credentials. *)
Definition verified_identity (params : list (text * text)) (i : AzureIdentity) : AzureIdentity :=
  fold_left (λ i param, set_param param.1 param.2 i) params i.

(** How the service is reached: the URL, with nothing, a key, or the default credential. *)
Inductive AzureAuth := BySas (url : text) | ByKey (url account key : text) | ByDefault (url : text).

Definition service_url (account endpoint_suffix : text) : text := txt "https://" ++ account ++ txt "." ++ endpoint_suffix.

Definition question_mark : ascii := ascii_of_N 63.

Definition azure_auth (i : AzureIdentity) : outcome AzureAuth :=
  match ai_account_name i with
  | None => Throw (Code InvalidParameterError)
  | Some account =>
      let url := service_url account (ai_endpoint_suffix i) in
      match ai_sas_token i with
      | Some token =>
          let token := match token with c :: rest => if bool_decide (c = question_mark) then rest else token | [] => token end in
          Ret (BySas (url ++ question_mark :: token))
      | None => match ai_account_key i with Some key => Ret (ByKey url account key) | None => Ret (ByDefault url) end
      end
  end.

(** ** The client *)

Record AzureClient := mkAzureClient {
  ax_identity : AzureIdentity; ax_stop : bool; ax_chunk_bytesize : Z; ax_max_inflight_bytes : Z; ax_max_concurrency : Z;
  ax_cache_enabled : bool; ax_auth : AzureAuth; ax_responder : option (shared_queue BackendResponse) }.

(** [derived] is the product of the margin, the threads and the chunk size, [connect] the construction of the SDK's client
    and [cache] that of the cache loader, which tells whether it is enabled. *)
Definition new_azure_client (env : environment) (nprocs : Z) (derived : Z → Z → Z) (connect : AzureAuth → outcome ()) (cache : outcome bool)
    (config : AzureParams) : outcome (option AzureClient) :=
  let! c := azure_configuration env nprocs (az_concurrent_readers config) in
  match c with
  | None => Ret None
  | Some c =>
      let window := Z.max (derived (ac_max_concurrency c) (az_chunk_bytesize config)) (2 ⊗ az_chunk_bytesize config) in
      let identity := client_identity (az_initial_params config) (identity_of c) in
      catch_all
        (let! auth := azure_auth identity in
         let! _ := connect auth in
         let! enabled := cache in
         Ret (Some (mkAzureClient identity false (az_chunk_bytesize config) window (ac_max_concurrency c) enabled auth None)))
        (λ _, Throw (Code InvalidParameterError))
  end.

(** The configuration it is compared with is read from the environment again; [None] as above. *)
Definition azure_verify (env : environment) (nprocs : Z) (c : AzureClient) (config : AzureParams) : outcome (option bool) :=
  let! temp := azure_configuration env nprocs (az_concurrent_readers config) in
  Ret ((λ temp, bool_decide (ax_identity c = verified_identity (az_initial_params config) (identity_of temp))) <$> temp).

Definition set_responder (q : shared_queue BackendResponse) (c : AzureClient) : AzureClient :=
  mkAzureClient (ax_identity c) (ax_stop c) (ax_chunk_bytesize c) (ax_max_inflight_bytes c) (ax_max_concurrency c) (ax_cache_enabled c)
    (ax_auth c) (Some q).

Definition azure_stop (c : AzureClient) : AzureClient :=
  mkAzureClient (ax_identity c) true (ax_chunk_bytesize c) (ax_max_inflight_bytes c) (ax_max_concurrency c) (ax_cache_enabled c)
    (ax_auth c) (SharedQueue.stop <$> ax_responder c).

(** ** Reads *)

(** A download of a part of a blob. *)
Record BlobRead := mkBlobRead { bl_account : text; bl_container : text; bl_blob : text; bl_part : Part }.

(** [stops i] is whether stop was called before part [i] is sent, and [stops_last] before the call returns.  [None] is a loop
    that does not end. *)
Definition azure_async_read (stops : Z → bool) (stops_last : bool) (path : text) (offset length destination_buffer : Z) (c : AzureClient) :
    AzureClient * outcome (option (ResponseCode * list BlobRead)) :=
  let c := set_responder (expect_response (ax_responder c)) c in
  let size := num_chunks (ax_cache_enabled c) length (ax_chunk_bytesize c) in
  match parse_uri path with
  | None => (c, Throw StdException)
  | Some uri =>
      (c, Ret (parts ← part_loop (part_fuel size) (λ i, ax_stop c || stops i) size (ax_chunk_bytesize c) 0 length offset destination_buffer;
               Some (if ax_stop c || stops_last then FinishedError else Success,
                     map (mkBlobRead (default [] (ai_account_name (ax_identity c))) (bucket uri) (StorageUri.path uri)) parts)))
  end.

(** How the task of a download ends: with the cache a failed read is an exception of its own. *)
Inductive TaskEnd := Downloaded | RequestFailed (status_code : Z) | OtherException.

Definition task_end (cache_enabled cache_ok : bool) (sdk : TaskEnd) : TaskEnd :=
  if cache_enabled then (if cache_ok then Downloaded else OtherException) else sdk.

Definition RangeNotSatisfiable : Z := 416.

(** execute: the code the callback gets. *)
Definition task_code (e : TaskEnd) : ResponseCode :=
  match e with
  | Downloaded => Success
  | RequestFailed status_code => if status_code =? RangeNotSatisfiable then EofError else FileAccessError
  | OtherException => FileAccessError
  end.

(** The callbacks of the parts of a request, in the order the parts end. *)
Definition azure_complete (request_id size : Z) (ends : list TaskEnd) (c : AzureClient) : AzureClient :=
  match ax_responder c with
  | None => c
  | Some q => set_responder (push_all (on_parts request_id (map task_code ends) (new_progress size)) q) c
  end.

(** ** Listing *)

(** The blobs of a page, each a name and a size, but for the markers of directories. *)
Definition process_page (uri_prefix : text) (blobs results : list (text * Z)) : list (text * Z) :=
  results ++ map (λ blob, (uri_prefix ++ blob.1, blob.2)) (List.filter (λ blob, negb (bool_decide (last blob.1 = Some slash))) blobs).

(** [service] answers a container, the prefix where there is one, and the delimiter of a listing that is not recursive, with
    the pages or an exception. *)
Definition azure_list_files (service : text → option text → option text → outcome (list (list (text * Z)))) (prefix : text) (is_recursive : bool) :
    outcome (ResponseCode * list (text * Z)) :=
  match parse_uri prefix with
  | None => Throw StdException
  | Some uri =>
      let uri_prefix := scheme uri ++ txt "://" ++ bucket uri ++ txt "/" in
      let! pages := service (bucket uri) (if bool_decide (StorageUri.path uri = []) then None else Some (StorageUri.path uri))
                      (if is_recursive then None else Some (txt "/")) in
      Ret (Success, fold_left (λ results blobs, process_page uri_prefix blobs results) pages [])
  end.

(** ** The entry points *)

Definition azure_open_backend (least glibc_version : outcome Semver) (chunk_size : outcome (option Z)) : ResponseCode :=
  match (let! glibc := glibc_version in
         let! least := least in
         if semver_gtb least glibc then Ret GlibcPrerequisite else let! _ := chunk_size in Ret Success) with
  | Ret code => code
  | Throw _ => FileAccessError
  end.

(** [popped] is what the manager's pop returns, with the window of the client; the plugin remembers the last window. *)
Definition azure_create_client (popped : outcome (Z * Z)) (window : Z) : ResponseCode * option Z * Z :=
  match popped with
  | Ret (ptr, max_inflight_bytes) => (Success, Some ptr, max_inflight_bytes)
  | Throw (Code error) => (error, None, window)
  | Throw _ => (FileAccessError, None, window)
  end.

(** [answer] is async_read of the client; what it throws leaves the entry point. *)
Definition azure_request_read (null_client : bool) (answer : outcome ResponseCode) : outcome ResponseCode :=
  if null_client then Ret InvalidParameterError else answer.

Inductive ObjectWaitMode := NON_BLOCKING | BLOCK | TIMED_BLOCK.

#[export] Instance ObjectWaitMode_eq_dec : EqDecision ObjectWaitMode.
Proof. solve_decision. Defined.

(** [arriving] is what async_read_response returns, one call after another; a call that waits for ever is the end of the
    list, and [None] the wait. *)
Fixpoint wait_loop (events : nat) (first : bool) (wait_mode : ObjectWaitMode) (arriving : list BackendResponse) : option (list BackendResponse) :=
  match events with
  | O => Some []
  | S events =>
      match arriving with
      | [] => None
      | response :: arriving =>
          if bool_decide (br_ret response = FinishedError) then Some [response]
          else if bool_decide (wait_mode = NON_BLOCKING) && first then Some [response]
          else (cons response) <$> wait_loop events false wait_mode arriving
      end
  end.

Definition azure_wait_for_completions (null_client : bool) (max_events_to_retrieve : Z) (wait_mode : ObjectWaitMode)
    (arriving : list BackendResponse) : option (ResponseCode * list BackendResponse) :=
  if null_client then Some (InvalidParameterError, [])
  else (λ events, (Success, events)) <$> wait_loop (Z.to_nat max_events_to_retrieve) true wait_mode arriving.

(** ** The share of the threads *)

(** The threads of all the clients of all the processes of the group stay within two per hardware thread, or one per
    client: as long as the product of the two counts fits an unsigned, there is a share, it is at least one, and no more
    than the clients' part. *)
Theorem azure_threads_are_shared nprocs concurrent_readers group :
  0 <= nprocs → nprocs * 2 < unsigned_modulus → 0 <= concurrent_readers → 1 <= group → Z.max 1 concurrent_readers * group < unsigned_modulus →
  ∃ share, azure_concurrency nprocs concurrent_readers group = Some share ∧ 1 <= share ∧
    (0 < nprocs → share * (Z.max 1 concurrent_readers * group) <= Z.max (nprocs * 2) (Z.max 1 concurrent_readers * group)).
Proof.
  intros Hn Hn2 Hr Hg Hp. unfold azure_concurrency, mul32. rewrite !wrap32_small by (unfold is_unsigned; nia).
  set (d := Z.max 1 concurrent_readers * group) in *. assert (1 <= d) by (unfold d; nia).
  rewrite (proj2 (Z.eqb_neq d 0)) by lia. eexists. split; [done|]. pose proof (Z.mul_div_le (nprocs * 2) d ltac:(lia)).
  assert (0 <= nprocs * 2 / d) by (apply Z.div_pos; lia).
  split; [destruct (nprocs =? 0); lia|]. intros Hpos. rewrite (proj2 (Z.eqb_neq nprocs 0)) by lia. nia.
Qed.

(** A group size that makes the product of the counts wrap to zero divides by zero. *)
Theorem azure_share_of_a_wrapped_group nprocs : azure_concurrency nprocs 2 (2 ^ 31) = None.
Proof. reflexivity. Qed.

(** ** The credentials a client keeps *)

Lemma identities_agree params : ∀ i, Forall (λ p : text * text, p.2 ≠ []) params → client_identity params i = verified_identity params i.
Proof.
  unfold client_identity, verified_identity. induction params as [|p params IH]; intros i Hne; [done|].
  apply Forall_cons in Hne as [Hp Hne]. cbn [fold_left]. rewrite bool_decide_false by done. by apply IH.
Qed.

Lemma new_azure_client_identity env nprocs derived connect cache config c : new_azure_client env nprocs derived connect cache config = Ret (Some c) →
  ∃ conf, azure_configuration env nprocs (az_concurrent_readers config) = Ret (Some conf) ∧
    ax_identity c = client_identity (az_initial_params config) (identity_of conf).
Proof.
  unfold new_azure_client. destruct (azure_configuration env nprocs _) as [[conf|]|e]; cbn [obind]; [|done|done].
  intros H. exists conf. split; [done|]. unfold catch_all in H. destruct (azure_auth _) as [auth|e]; cbn [obind] in H; [|done].
  destruct (connect auth) as [u|e]; cbn [obind] in H; [|done]. destruct (cache) as [b|e]; cbn [obind] in H; [|done]. by injection H as <-.
Qed.

(** A client is reused for a configuration whose parameters have values exactly when it would be built with the same account,
    key, token and endpoint. *)
Theorem azure_reuse_keeps_credentials env nprocs derived connect cache config c c' answer :
  new_azure_client env nprocs derived connect cache config = Ret (Some c') →
  Forall (λ p, p.2 ≠ []) (az_initial_params config) →
  azure_verify env nprocs c config = Ret (Some answer) → (answer = true ↔ ax_identity c = ax_identity c').
Proof.
  intros Hc' Hne Hv. destruct (new_azure_client_identity _ _ _ _ _ _ _ Hc') as (conf & Hconf & Hi').
  unfold azure_verify in Hv. rewrite Hconf in Hv. cbn [obind] in Hv. injection Hv as <-.
  by rewrite bool_decide_eq_true, Hi', identities_agree.
Qed.

(** A client that was built with an empty key is never reused, not even for the configuration it was built from: the
    constructor leaves an empty value unset, and verify_credentials does not. *)
Theorem empty_value_is_never_verified env nprocs derived connect cache config c answer :
  new_azure_client env nprocs derived connect cache config = Ret (Some c) → az_initial_params config = [(txt "account_key", [])] →
  azure_verify env nprocs c config = Ret (Some answer) → answer = false.
Proof.
  intros Hc Hp Hv. destruct (new_azure_client_identity _ _ _ _ _ _ _ Hc) as (conf & Hconf & Hi).
  unfold azure_verify in Hv. rewrite Hconf, Hi, Hp in Hv. cbn [obind] in Hv. injection Hv as <-.
  assert (Hk : ac_account_key conf ≠ Some []).
  { unfold azure_configuration in Hconf. destruct (getenv_positive _ _ _ _ _) as [g|e]; cbn [obind] in Hconf; [|done].
    destruct (azure_concurrency _ _ _); [|done]. injection Hconf as <-. cbn [ac_account_key]. apply env_value_not_empty. }
  apply bool_decide_eq_false. unfold identity_of. simpl. congruence.
Qed.

(** ** One answer for a read *)

(** C38: a read of an object through the Azure client is answered once.  When nothing stops it, the call is a success, and its
    downloads are of the blob that was asked for and tile the range: the first begins where the range and the buffer begin, each
    other where the one before it ends in both, and the last ends where the range ends.  After the downloads have ended - in any
    order, each in any way - the queue has one more response: Success when every part was downloaded, else the code of the first part that failed. *)
Theorem azure_read_is_answered_once path uri offset length destination_buffer request_id c :
  parse_uri path = Some uri → ax_stop c = false → 0 < ax_chunk_bytesize c → 0 <= offset → 0 <= length → offset + length < size_modulus →
  num_chunks (ax_cache_enabled c) length (ax_chunk_bytesize c) < unsigned_modulus →
  (∀ q, ax_responder c = Some q → stopped q = false ∧ 0 <= running q < unsigned_modulus - 1) →
  ∃ c' reads q, azure_async_read (λ _, false) false path offset length destination_buffer c = (c', Ret (Some (Success, reads))) ∧
    ax_responder c' = Some q ∧ running q = match ax_responder c with Some q => running q + 1 | None => 1 end ∧
    tiles (offset + length) offset destination_buffer (map bl_part reads) ∧
    Forall (λ r, bl_account r = default [] (ai_account_name (ax_identity c)) ∧ bl_container r = bucket uri ∧ bl_blob r = StorageUri.path uri) reads ∧
    Z.of_nat (List.length reads) = num_chunks (ax_cache_enabled c) length (ax_chunk_bytesize c) ∧
    ∀ ends, List.length ends = List.length reads →
      ∃ q', ax_responder (azure_complete request_id (Z.of_nat (List.length reads)) ends c') = Some q' ∧ running q' = running q - 1 ∧
        responses q' = responses q ++ [mkBackendResponse request_id (default Success (first_failure (map task_code ends)))].
Proof.
  intros Hu Hs Hc Ho Hl Hm Hn Hq. unfold azure_async_read.
  destruct (parts_of_range_spec (ax_cache_enabled c) (ax_chunk_bytesize c) offset length destination_buffer Hc Ho Hl Hm Hn) as (parts & Hp & Hlen & Ht).
  destruct (expect_response_spec (ax_responder c) Hq) as (Hst & Hb & Hrun). set (q := expect_response (ax_responder c)) in *.
  cbn [set_responder ax_cache_enabled ax_chunk_bytesize ax_stop ax_identity]. rewrite Hs, Hu. cbn [orb].
  change (part_loop _ (λ _, false) _ _ _ _ _ _) with (parts_of_range (ax_cache_enabled c) (ax_chunk_bytesize c) offset length destination_buffer).
  rewrite Hp. eexists _, _, q. split; [reflexivity|]. split; [done|]. split; [done|].
  split; [rewrite map_map; cbn [bl_part]; by rewrite map_id|]. split; [by apply Forall_map, Forall_true|].
  split; [by rewrite length_map|]. intros ends. rewrite length_map. intros Hends.
  unfold azure_complete. cbn [set_responder ax_responder].
  eexists. split; [reflexivity|]. apply range_answer_queued; [|rewrite length_map; lia|done|done].
  rewrite Hlen. destruct (num_chunks_bounds (ax_cache_enabled c) length (ax_chunk_bytesize c) Hc Hl). lia.
Qed.

(** ** Waiting *)

(** A blocking wait that returns has filled the buffer, or ended with FinishedError: the events it has are not returned as
    soon as there is one. *)
Theorem azure_wait_fills_the_buffer events first arriving got :
  wait_loop events first BLOCK arriving = Some got →
  got `prefix_of` arriving ∧ (length got = events ∨ ∃ r, last got = Some r ∧ br_ret r = FinishedError).
Proof.
  revert first arriving got. induction events as [|events IH]; intros first arriving got; cbn [wait_loop].
  - intros [= <-]. split; [apply prefix_nil|by left].
  - destruct arriving as [|r arriving]; [done|]. case_bool_decide as Hr.
    + intros [= <-]. split; [apply prefix_cons, prefix_nil|]. right. by exists r.
    + rewrite bool_decide_false by done. cbn [andb]. destruct (wait_loop events false BLOCK arriving) as [rest|] eqn:E; [|done].
      intros [= <-]. destruct (IH _ _ _ E) as [Hp Hl]. split; [by apply prefix_cons|]. destruct Hl as [Hl|(x & Hl & Hx)]; [left; simpl; lia|].
      right. exists x. split; [|done]. rewrite last_cons, Hl. done.
Qed.

(** A wait that is not to block waits for the first event all the same. *)
Theorem azure_non_blocking_waits max_events_to_retrieve : 0 < max_events_to_retrieve →
  azure_wait_for_completions false max_events_to_retrieve NON_BLOCKING [] = None.
Proof. intros H. unfold azure_wait_for_completions. destruct (Z.to_nat _) eqn:E; [lia|done]. Qed.

(** A URI that parses has a path, so a listing always asks for a prefix. *)
Lemma parse_uri_path uri u : parse_uri uri = Some u → StorageUri.path u ≠ [].
Proof.
  unfold parse_uri. generalize schemes as l. induction l as [|s l IH]; [done|]. cbn [parse_with].
  destruct (match_scheme s uri) as [v|] eqn:E; [|exact IH]. intros [= <-]. by apply match_scheme_Some in E as (_ & _ & _ & Hp & _).
Qed.

(** A listing has every blob of every page once, in order, with the container before its name. *)
Theorem azure_listing_is_complete service prefix uri (is_recursive : bool) pages :
  parse_uri prefix = Some uri →
  service (bucket uri) (Some (StorageUri.path uri)) (if is_recursive then None else Some (txt "/")) = Ret pages →
  azure_list_files service prefix is_recursive =
    Ret (Success, map (λ blob : text * Z, (scheme uri ++ txt "://" ++ bucket uri ++ txt "/" ++ blob.1, blob.2))
                    (List.filter (λ blob : text * Z, negb (bool_decide (last blob.1 = Some slash))) (concat pages))).
Proof.
  intros Hu Hs. unfold azure_list_files. rewrite Hu. apply parse_uri_path in Hu as Hne. rewrite bool_decide_false by done. rewrite Hs. cbn [obind].
  do 2 f_equal. set (l := [] : list (text * Z)). assert (l = []) as Hl by done. clearbody l.
  transitivity (l ++ map (λ blob : text * Z, (scheme uri ++ txt "://" ++ bucket uri ++ txt "/" ++ blob.1, blob.2))
    (List.filter (λ blob : text * Z, negb (bool_decide (last blob.1 = Some slash))) (concat pages))); [|by rewrite Hl].
  clear Hl Hs. revert l. induction pages as [|page pages IH]; intros l; cbn [fold_left concat]; [by rewrite app_nil_r|].
  rewrite IH. unfold process_page. rewrite List.filter_app, map_app, <- app_assoc. f_equal. f_equal.
  apply map_ext. intros blob. by rewrite <- !app_assoc.
Qed.

(** ** The clients of the process *)

Section Managed.
(** The configuration that the environment of the process gives for a number of readers. *)
Context (conf : Z → AzureConfiguration).

#[export] Instance azure_managed : ManagedClient AzureClient AzureParams := {
  verify_credentials c config :=
    bool_decide (ax_identity c = verified_identity (az_initial_params config) (identity_of (conf (az_concurrent_readers config))));
  stop_client := azure_stop }.

Lemma azure_managed_verifies env nprocs c config :
  azure_configuration env nprocs (az_concurrent_readers config) = Ret (Some (conf (az_concurrent_readers config))) →
  azure_verify env nprocs c config = Ret (Some (verify_credentials c config)).
Proof. intros H. unfold azure_verify. by rewrite H. Qed.

(** What is given back is kept for the next reader, the clients go when none is used, and all are stopped. *)
Definition azure_remove_client (client_handle : option Z) (m : Manager (Client := AzureClient)) : ResponseCode * Manager (Client := AzureClient) :=
  match client_handle with Some client => (Success, ClientMgr.push client m) | None => (Success, m) end.
Definition azure_remove_all_clients (m : Manager (Client := AzureClient)) : ResponseCode * Manager (Client := AzureClient) := (Success, clear m).
Definition azure_cancel_all_reads (m : Manager (Client := AzureClient)) : ResponseCode * Manager (Client := AzureClient) :=
  (Success, ClientMgr.stop (Config := AzureParams) m).

(** The client that an empty key was given to is given back, asked for again with the same parameters, and dropped. *)
Theorem empty_value_is_never_reused c config ptr m :
  az_initial_params config = [(txt "account_key", [])] → ac_account_key (conf (az_concurrent_readers config)) ≠ Some [] →
  ax_identity c = client_identity (az_initial_params config) (identity_of (conf (az_concurrent_readers config))) →
  unused_clients m = ∅ → clients m = {[ptr := c]} →
  reuse config (azure_remove_client (Some ptr) m).2 = Some (None, new_manager).
Proof.
  destruct m as [unused all]. cbn [unused_clients clients]. intros Hp Hk Hi -> ->. unfold azure_remove_client, reuse, ClientMgr.push. cbn [snd unused_clients clients].
  replace ({[ptr]} ∪ ∅ : gset Z) with ({[ptr]} : gset Z) by set_solver. rewrite size_singleton. cbn [reuse_loop unused_clients clients].
  unfold begin at 1. rewrite elements_singleton. cbn [foldr]. rewrite lookup_singleton_eq.
  cbn [verify_credentials azure_managed]. rewrite bool_decide_false.
  - replace ({[ptr]} ∖ {[ptr]} : gset Z) with (∅ : gset Z) by set_solver. rewrite delete_singleton_eq. unfold begin. rewrite elements_empty. done.
  - rewrite Hi, Hp. unfold identity_of. simpl. congruence.
Qed.
End Managed.

Module Blobs.

Definition env : environment := {["AZURE_STORAGE_ACCOUNT_NAME" := txt "acct"]}.
Definition config : AzureParams := mkAzureParams 4 [(txt "account_key", [])] 2.
Definition built (config : AzureParams) : outcome (option AzureClient) :=
  new_azure_client env 16 (λ n chunk, n * chunk) (λ _, Ret ()) (Ret false) config.

Definition client : AzureClient :=
  mkAzureClient (mkIdentity (Some (txt "acct")) None None (txt "blob.core.windows.net")) false 4 64 16 false
    (ByDefault (txt "https://acct.blob.core.windows.net")) None.

Example built_client : built config = Ret (Some client).
Proof. vm_compute. reflexivity. Qed.

Example not_its_own : azure_verify env 16 client config = Ret (Some false).
Proof. vm_compute. reflexivity. Qed.

(** Two of three events are there, and the wait goes on. *)
Example still_waiting : azure_wait_for_completions false 3 BLOCK [mkBackendResponse 1 Success; mkBackendResponse 2 Success] = None.
Proof. vm_compute. reflexivity. Qed.

Lemma azure_threads_are_shared_witness : ∃ share, azure_concurrency 64 16 2 = Some share ∧ 1 <= share ∧
  (0 < 64 → share * (Z.max 1 16 * 2) <= Z.max (64 * 2) (Z.max 1 16 * 2)).
Proof. apply (azure_threads_are_shared 64 16 2); [lia|reflexivity|lia|lia|reflexivity]. Defined.

Lemma azure_read_is_answered_once_witness :
  ∃ c' reads q, azure_async_read (λ _, false) false (txt "az://box/blob") 100 13 4096 client = (c', Ret (Some (Success, reads))) ∧
    ax_responder c' = Some q ∧ running q = 1 ∧ tiles (100 + 13) 100 4096 (map bl_part reads) ∧
    Forall (λ r, bl_account r = default [] (ai_account_name (ax_identity client)) ∧ bl_container r = txt "box" ∧ bl_blob r = txt "blob") reads ∧
    Z.of_nat (length reads) = 3 ∧
    ∀ ends, length ends = length reads →
      ∃ q', ax_responder (azure_complete 7 (Z.of_nat (length reads)) ends c') = Some q' ∧ running q' = running q - 1 ∧
        responses q' = responses q ++ [mkBackendResponse 7 (default Success (first_failure (map task_code ends)))].
Proof.
  apply (azure_read_is_answered_once (txt "az://box/blob") (mkUri (txt "az") (txt "box") (txt "blob")) 100 13 4096 7 client);
    [vm_compute; reflexivity|reflexivity|reflexivity|discriminate|discriminate|reflexivity|reflexivity|discriminate].
Defined.

End Blobs.
