(* ===== verification/GcsClient.v ===== *)
(** The client of the GCS plugin and what is its own in the plugin's entry points (gcs/client, gcs/client_configuration,
    gcs/gcs).

    The SDK, the environment and the files it names are arguments, and so is the window derived in floating point.  The
    stream of a request that succeeds delivers bytes and then ends. *)

From stdpp Require Import gmap.
From S2P Require Import Prelude ResponseCode Text Env SharedQueue StorageUri BackendApi ClientMgr PartedRead Fd.

(** ** The configuration *)

Definition kKeyFileEnv : string := "RUNAI_STREAMER_GCS_CREDENTIAL_FILE".
Definition kAdcFileEnv : string := "GOOGLE_APPLICATION_CREDENTIALS".
Definition kSdkTracingEnv : string := "GOOGLE_CLOUD_CPP_ENABLE_TRACING".

(** [unreadable] is the error of a file that access(2) refuses. *)
Definition credentials_source (env : environment) (unreadable : text → option text) : text :=
  match env_value env kKeyFileEnv with
  | Some key_file => txt "service account key file " ++ key_file ++ txt " (" ++ txt kKeyFileEnv ++ txt ")"
  | None =>
      match env_value env kAdcFileEnv with
      | Some adc_file =>
          txt "application default credentials file " ++ adc_file ++ txt " (" ++ txt kAdcFileEnv ++ txt ")" ++
          (match unreadable adc_file with Some error => txt " - not readable: " ++ error | None => [] end)
      | None => txt "application default credentials - the gcloud well-known file if present, otherwise the metadata server"
      end
  end.

(** The options that are set: the stall timeout in seconds, the stall rate, the traced components, the contents of the key. *)
Record GcsConfiguration := mkGcsConfiguration {
  gc_use_grpc : bool; gc_max_concurrency : Z; gc_stall_timeout : option Z; gc_stall_rate : option Z;
  gc_traced : option (list text); gc_credentials : text; gc_key : option text }.

Definition gcs_concurrency (nprocs concurrent_readers max_connections : Z) : Z :=
  if negb (max_connections =? 0) then wrap32 max_connections
  else
    let default_max_concurrency := if nprocs =? 0 then 8 else 1 in
    let worker_concurrency := Z.max 1 concurrent_readers in
    Z.max default_max_concurrency (mul32 nprocs 2 / worker_concurrency).

(** A count of std::chrono::milliseconds is signed. *)
Definition to_rep (n : Z) : Z := if n <? 2 ^ 63 then n else n - size_modulus.

Definition gcs_configuration (env : environment) (unreadable : text → option text) (contents : text → option text) (nprocs concurrent_readers : Z) :
    outcome GcsConfiguration :=
  let! use_grpc := getenv_bool env "RUNAI_STREAMER_GCS_USE_GRPC" false in
  let! max_connections := getenv_ulong env "RUNAI_STREAMER_S3_MAX_CONNECTIONS" 0 in
  let! request_timeout_ms := getenv_ulong env "RUNAI_STREAMER_S3_REQUEST_TIMEOUT_MS" 600000 in
  let! low_speed_limit := getenv_ulong env "RUNAI_STREAMER_S3_LOW_SPEED_LIMIT" 0 in
  let! trace_gcs := getenv_bool env "RUNAI_STREAMER_S3_TRACE" false in
  let! key :=
    match env_value env kKeyFileEnv with
    | None => Ret None
    | Some file => match contents file with Some key => Ret (Some key) | None => Throw (Code InvalidParameterError) end
    end in
  Ret (mkGcsConfiguration use_grpc (gcs_concurrency nprocs concurrent_readers max_connections)
    (if request_timeout_ms =? 0 then None else Some (Z.quot (to_rep request_timeout_ms) 1000))
    (if low_speed_limit =? 0 then None else Some low_speed_limit)
    (if trace_gcs : bool then match env_value env kSdkTracingEnv with None => Some (map txt ["rpc"; "auth"; "http"]) | Some _ => None end else None)
    (credentials_source env unreadable) key).

(** ** The client *)

Record GCSClient := mkGCSClient {
  gx_stop : bool; gx_config : GcsConfiguration; gx_chunk_bytesize : Z; gx_max_inflight_bytes : Z;
  gx_responder : option (shared_queue BackendResponse) }.

Definition new_gcs_client (config : outcome GcsConfiguration) (derived : Z → Z → Z) (chunk_bytesize : Z) : outcome GCSClient :=
  let! c := config in
  Ret (mkGCSClient false c chunk_bytesize (Z.max (derived (gc_max_concurrency c) chunk_bytesize) (2 ⊗ chunk_bytesize)) None).

Definition gcs_verify (c : GCSClient) : bool := true.

Definition set_responder (q : shared_queue BackendResponse) (c : GCSClient) : GCSClient :=
  mkGCSClient (gx_stop c) (gx_config c) (gx_chunk_bytesize c) (gx_max_inflight_bytes c) (Some q).

Definition gcs_stop (c : GCSClient) : GCSClient :=
  mkGCSClient true (gx_config c) (gx_chunk_bytesize c) (gx_max_inflight_bytes c) (SharedQueue.stop <$> gx_responder c).

(** ** The bytes of a part *)

Section Stream.
Context {A : Type}.

(** read of the stream, until it delivers less than it was asked for; [bytes] is what the stream has left. *)
Fixpoint stream_loop (fuel : nat) (dest_buffer bytesize bytes_received : Z) (bytes : list A) (mem : Z → A) : option (Z * (Z → A)) :=
  match fuel with
  | O => None
  | S fuel =>
      let delivered := take (Z.to_nat bytesize) bytes in
      let mem := store dest_buffer delivered mem in
      let bytes_received := bytes_received + Z.of_nat (length delivered) in
      if Z.of_nat (length delivered) =? bytesize then
        stream_loop fuel dest_buffer bytesize bytes_received (drop (Z.to_nat bytesize) bytes) mem
      else Some (bytes_received, mem)
  end.

(** How a part ends. *)
Inductive Status := Ok | SdkError | DataLoss.

#[export] Instance Status_eq_dec : EqDecision Status.
Proof. solve_decision. Defined.

(** [sdk_ok] is the status of the stream once it is closed. *)
Definition write_stream_to_buffer (bytes : list A) (sdk_ok : bool) (dest_buffer bytesize : Z) (mem : Z → A) : option (Status * (Z → A)) :=
  '(bytes_received, mem) ← stream_loop (S (length bytes)) dest_buffer bytesize 0 bytes mem;
  Some (if negb sdk_ok then SdkError else if negb (bytes_received =? bytesize) then DataLoss else Ok, mem).
End Stream.

(** ** Reads *)

(** A request for a part of an object: the range is half open. *)
Record ObjectRead := mkObjectRead { or_bucket : text; or_object : text; or_first : Z; or_end : Z; or_part : Part }.

Definition object_read (uri : StorageUri) (p : Part) : ObjectRead :=
  mkObjectRead (bucket uri) (StorageUri.path uri) (pt_offset p) (pt_offset p ⊕ pt_bytesize p) p.

(** [stops i] is whether stop was called before part [i] is sent, and [stops_last] before the call returns.  [None] is a loop
    that does not end. *)
Definition gcs_async_read (stops : Z → bool) (stops_last : bool) (path : text) (offset length destination_buffer : Z) (c : GCSClient) :
    GCSClient * outcome (option (ResponseCode * list ObjectRead)) :=
  let c := set_responder (expect_response (gx_responder c)) c in
  let size := num_chunks false length (gx_chunk_bytesize c) in
  match parse_uri path with
  | None => (c, Throw StdException)
  | Some uri =>
      (c, Ret (parts ← part_loop (part_fuel size) (λ i, gx_stop c || stops i) size (gx_chunk_bytesize c) 0 length offset destination_buffer;
               Some (if gx_stop c || stops_last then FinishedError else Success, map (object_read uri) parts)))
  end.

Definition part_code (s : Status) : ResponseCode := if bool_decide (s = Ok) then Success else FileAccessError.

(** The callbacks of the parts of a request, in the order the parts end. *)
Definition gcs_complete (request_id size : Z) (ends : list Status) (c : GCSClient) : GCSClient :=
  match gx_responder c with
  | None => c
  | Some q => set_responder (push_all (on_parts request_id (map part_code ends) (new_progress size)) q) c
  end.

(** ** Listing *)

(** The loop over the objects, each a name and a size or the status of a page that failed. *)
Fixpoint list_objects (uri_prefix : text) (objects : list (option (text * Z))) (results : list (text * Z)) : ResponseCode * list (text * Z) :=
  match objects with
  | [] => (Success, results)
  | None :: _ => (FileAccessError, results)
  | Some (name, size) :: objects =>
      if bool_decide (last name = Some slash) then list_objects uri_prefix objects results
      else list_objects uri_prefix objects (results ++ [(uri_prefix ++ name, size)])
  end.

(** [service] answers a bucket, a prefix and the delimiter of a listing that is not recursive. *)
Definition gcs_list_files (service : text → text → option text → list (option (text * Z))) (prefix : text) (is_recursive : bool) :
    outcome (ResponseCode * list (text * Z)) :=
  match parse_uri prefix with
  | None => Throw StdException
  | Some uri =>
      Ret (list_objects (scheme uri ++ txt "://" ++ bucket uri ++ txt "/")
             (service (bucket uri) (StorageUri.path uri) (if is_recursive then None else Some (txt "/"))) [])
  end.

(** ** The entry points *)

(** [popped] is what the manager's pop returns, with the window of the client; the plugin remembers the last window. *)
Definition gcs_create_client (popped : outcome (Z * Z)) (window : Z) : ResponseCode * option Z * Z :=
  match popped with
  | Ret (ptr, max_inflight_bytes) => (Success, Some ptr, max_inflight_bytes)
  | Throw (Code error) => (error, None, window)
  | Throw _ => (FileAccessError, None, window)
  end.

Definition gcs_request_read (null_client : bool) (answer : outcome ResponseCode) : ResponseCode :=
  if null_client then UnknownError else match answer with Ret code => code | Throw _ => UnknownError end.

Definition gcs_wait_for_completions (null_client null_output : bool) (max_events_to_retrieve : Z) (popped : outcome BackendResponse) :
    ResponseCode * option BackendResponse :=
  if null_client then (UnknownError, None)
  else if max_events_to_retrieve =? 0 then (UnknownError, None)
  else if null_output then (UnknownError, None)
  else match popped with Ret response => (Success, Some response) | Throw _ => (UnknownError, None) end.

(** ** What a part delivers *)

Section Whole.
Context {A : Type}.

Lemma store_outside dest (bytes : list A) mem a : a < dest ∨ dest + Z.of_nat (length bytes) <= a → store dest bytes mem a = mem a.
Proof.
  intros H. unfold store. destruct (Z.leb_spec dest a), (Z.ltb_spec a (dest + Z.of_nat (length bytes))); simpl; (done || lia).
Qed.

Lemma stream_loop_spec bytesize dest : 0 < bytesize → ∀ fuel received (bytes : list A) mem, (length bytes < fuel)%nat →
  ∃ mem', stream_loop fuel dest bytesize received bytes mem = Some (received + Z.of_nat (length bytes), mem') ∧
    (∀ a, a < dest ∨ dest + bytesize <= a → mem' a = mem a) ∧
    (Z.of_nat (length bytes) <= bytesize → ∀ a, mem' a = store dest bytes mem a).
Proof.
  intros Hb. induction fuel as [|fuel IH]; intros received bytes mem Hf; [lia|]. cbn [stream_loop].
  set (got := take (Z.to_nat bytesize) bytes). assert (Hg : Z.of_nat (length got) = Z.min bytesize (Z.of_nat (length bytes))) by (unfold got; rewrite length_take; lia).
  assert (Hout : ∀ a, a < dest ∨ dest + bytesize <= a → store dest got mem a = mem a) by (intros a Ha; apply store_outside; lia).
  destruct (Z.eqb_spec (Z.of_nat (length got)) bytesize) as [Hfull|Hshort].
  - destruct (IH (received + Z.of_nat (length got)) (drop (Z.to_nat bytesize) bytes) (store dest got mem)) as (mem' & E & Ho & Hin);
      [rewrite length_drop; lia|]. rewrite length_drop in E, Hin. exists mem'. rewrite E. split; [do 2 f_equal; lia|]. split.
    + intros a Ha. rewrite Ho by done. by apply Hout.
    + intros Hle a. rewrite Hin by lia. unfold got. rewrite take_ge, drop_ge by lia. apply store_outside. simpl. lia.
  - exists (store dest got mem). split; [do 2 f_equal; lia|]. split; [done|]. intros _ a. unfold got. by rewrite take_ge by lia.
Qed.

(** A part of an object is Ok only with every byte that was asked for: the loop ends, the SDK's error comes before a short
    or long count, a part that is Ok has its bytes at its place in the buffer, and nothing outside of that place is written
    however many bytes the service sends. *)
Theorem part_is_whole_or_fails (bytes : list A) sdk_ok dest_buffer bytesize mem : 0 < bytesize →
  ∃ status mem', write_stream_to_buffer bytes sdk_ok dest_buffer bytesize mem = Some (status, mem') ∧
    (status = Ok ↔ sdk_ok = true ∧ Z.of_nat (length bytes) = bytesize) ∧ (status = SdkError ↔ sdk_ok = false) ∧
    (status = Ok → ∀ a, mem' a = store dest_buffer bytes mem a) ∧
    (∀ a, a < dest_buffer ∨ dest_buffer + bytesize <= a → mem' a = mem a).
Proof.
  intros Hb. unfold write_stream_to_buffer.
  destruct (stream_loop_spec bytesize dest_buffer Hb (S (length bytes)) 0 bytes mem ltac:(lia)) as (mem' & E & Ho & Hin).
  rewrite E. simpl. rewrite Z.add_0_l in *. eexists _, mem'. split; [reflexivity|].
  destruct sdk_ok; simpl; [destruct (Z.eqb_spec (Z.of_nat (length bytes)) bytesize) as [He|Hne]; simpl|].
  - split; [done|]. split; [done|]. split; [intros _; apply Hin; lia|done].
  - split; [split; [done|by intros [_ ?]]|]. split; [done|]. split; [done|done].
  - split; [split; [done|by intros [? _]]|]. split; [done|]. split; [done|done].
Qed.
End Whole.

(** A read of an object through the GCS client is split into parts that tile the range, and answered once, with Success when every part was whole and FileAccessError
    otherwise. *)
Theorem gcs_read_is_answered_once path uri offset length destination_buffer request_id c :
  parse_uri path = Some uri → gx_stop c = false → 0 < gx_chunk_bytesize c → 0 <= offset → 0 <= length → offset + length < size_modulus →
  num_chunks false length (gx_chunk_bytesize c) < unsigned_modulus →
  (∀ q, gx_responder c = Some q → stopped q = false ∧ 0 <= running q < unsigned_modulus - 1) →
  ∃ c' reads q, gcs_async_read (λ _, false) false path offset length destination_buffer c = (c', Ret (Some (Success, reads))) ∧
    gx_responder c' = Some q ∧ tiles (offset + length) offset destination_buffer (map or_part reads) ∧
    ∀ ends, List.length ends = List.length reads →
      ∃ q', gx_responder (gcs_complete request_id (Z.of_nat (List.length reads)) ends c') = Some q' ∧ running q' = running q - 1 ∧
        responses q' = responses q ++ [mkBackendResponse request_id (if forallb (λ s, bool_decide (s = Ok)) ends then Success else FileAccessError)].
Proof.
  intros Hu Hs Hc Ho Hl Hm Hn Hq. unfold gcs_async_read.
  destruct (parts_of_range_spec false (gx_chunk_bytesize c) offset length destination_buffer Hc Ho Hl Hm Hn) as (parts & Hp & Hlen & Ht).
  destruct (expect_response_spec (gx_responder c) Hq) as (Hst & Hb & Hrun). set (q := expect_response (gx_responder c)) in *.
  cbn [set_responder gx_chunk_bytesize gx_stop]. rewrite Hs, Hu. cbn [orb].
  change (part_loop _ (λ _, false) _ _ _ _ _ _) with (parts_of_range false (gx_chunk_bytesize c) offset length destination_buffer).
  rewrite Hp. eexists _, _, q. split; [reflexivity|]. split; [done|].
  split; [rewrite map_map; cbn [object_read or_part]; by rewrite map_id|]. intros ends. rewrite length_map. intros Hends.
  unfold gcs_complete. cbn [set_responder gx_responder]. eexists. split; [reflexivity|].
  assert (Hcode : default Success (first_failure (map part_code ends)) = if forallb (λ s, bool_decide (s = Ok)) ends then Success else FileAccessError).
  { clear. induction ends as [|[] ends IH]; [done|exact IH|done|done]. }
  rewrite <- Hcode. apply range_answer_queued; [|rewrite length_map; lia|done|done].
  rewrite Hlen. destruct (num_chunks_bounds false length (gx_chunk_bytesize c) Hc Hl). lia.
Qed.

(** ** The configuration *)

(** There is a thread for the reads, unless the number of connections that is asked for is a multiple of 2^32: it is read
    wide and kept in an unsigned. *)
Theorem gcs_has_a_thread nprocs concurrent_readers max_connections : 0 <= nprocs → 0 <= max_connections →
  0 <= gcs_concurrency nprocs concurrent_readers max_connections ∧
  (gcs_concurrency nprocs concurrent_readers max_connections = 0 ↔ max_connections ≠ 0 ∧ max_connections mod unsigned_modulus = 0).
Proof.
  intros Hn Hm. unfold gcs_concurrency, wrap32. destruct (Z.eqb_spec max_connections 0) as [->|Hne]; simpl.
  - set (x := mul32 nprocs 2 / _). split; [destruct (nprocs =? 0); lia|]. split; [destruct (nprocs =? 0); lia|by intros [? _]].
  - pose proof (Z.mod_pos_bound max_connections unsigned_modulus eq_refl). split; [lia|]. naive_solver.
Qed.

(** A timeout below a second becomes none. *)
Theorem short_timeout_is_zero env unreadable contents nprocs readers c ms :
  getenv_ulong env "RUNAI_STREAMER_S3_REQUEST_TIMEOUT_MS" 600000 = Ret ms → 0 < ms < 1000 →
  gcs_configuration env unreadable contents nprocs readers = Ret c → gc_stall_timeout c = Some 0.
Proof.
  intros Ht Hms H. unfold gcs_configuration in H. rewrite Ht in H. invert_ret H. injection H as <-. cbn [gc_stall_timeout].
  match goal with E : Ret ms = Ret _ |- _ => injection E as <- end.
  rewrite (proj2 (Z.eqb_neq ms 0)) by lia. unfold to_rep. rewrite (proj2 (Z.ltb_lt _ _)) by lia. rewrite Z.quot_small by lia. done.
Qed.

(** A listing has every object once, in order, but for the markers of directories, up to the page that fails. *)
Theorem gcs_listing_is_complete uri_prefix objects failed_then : ∀ results,
  list_objects uri_prefix (map Some objects ++ failed_then) results =
    list_objects uri_prefix failed_then (results ++ map (λ o, (uri_prefix ++ o.1, o.2))
      (List.filter (λ o : text * Z, negb (bool_decide (last o.1 = Some slash))) objects)) ∧
  (∀ rest, failed_then = None :: rest → (list_objects uri_prefix (map Some objects ++ failed_then) results).1 = FileAccessError) ∧
  (failed_then = [] → (list_objects uri_prefix (map Some objects ++ failed_then) results).1 = Success).
Proof.
  assert (H : ∀ results, list_objects uri_prefix (map Some objects ++ failed_then) results =
    list_objects uri_prefix failed_then (results ++ map (λ o, (uri_prefix ++ o.1, o.2))
      (List.filter (λ o : text * Z, negb (bool_decide (last o.1 = Some slash))) objects))).
  { induction objects as [|[name size] objects IH]; intros results; [by rewrite app_nil_r|]. cbn [map app list_objects List.filter fst].
    case_bool_decide; cbn [negb map]; rewrite IH; [done|]. by rewrite <- app_assoc. }
  intros results. split; [apply H|]. rewrite H. split; [by intros rest ->|by intros ->].
Qed.

(** ** The clients of the process *)

#[export] Instance gcs_managed : ManagedClient GCSClient ObjectClientConfig := { verify_credentials c _ := gcs_verify c; stop_client := gcs_stop }.

Definition gcs_remove_client (client_handle : option Z) (m : Manager (Client := GCSClient)) : ResponseCode * Manager (Client := GCSClient) :=
  match client_handle with Some client => (Success, ClientMgr.push client m) | None => (Success, m) end.
Definition gcs_remove_all_clients (m : Manager (Client := GCSClient)) : ResponseCode * Manager (Client := GCSClient) := (Success, clear m).
Definition gcs_cancel_all_reads (m : Manager (Client := GCSClient)) : ResponseCode * Manager (Client := GCSClient) :=
  (Success, ClientMgr.stop (Config := ObjectClientConfig) m).

(** A client that nobody uses is always reused, whatever it is asked for with: no client is built while there is one. *)
Theorem gcs_client_is_always_reused config m : unused_kept m → unused_clients m ≠ ∅ →
  ∃ ptr, begin (unused_clients m) = Some ptr ∧ reuse config m = Some (Some ptr, mkManager (unused_clients m ∖ {[ptr]}) (clients m)).
Proof.
  intros Hk Hne. destruct (begin (unused_clients m)) as [ptr|] eqn:Hb.
  - exists ptr. split; [done|]. destruct (begin_some _ _ Hb) as [Hin _]. unfold reuse.
    destruct (base.size (unused_clients m)) as [|n] eqn:Hn; [apply size_empty_inv in Hn; set_solver|]. cbn [reuse_loop]. rewrite Hb.
    apply Hk in Hin. apply elem_of_dom in Hin as [c Hc]. rewrite Hc. done.
  - exfalso. apply Hne. unfold begin in Hb. destruct (elements (unused_clients m)) eqn:E; [by apply elements_empty_inv, leibniz_equiv in E|done].
Qed.

Module Objects.

Example exact : write_stream_to_buffer [1; 2; 3] true 100 3 (λ _, 0) ≠ None ∧
  option_map (λ '(s, mem), (s, map mem [99; 100; 101; 102; 103])) (write_stream_to_buffer [1; 2; 3] true 100 3 (λ _, 0)) = Some (Ok, [0; 1; 2; 3; 0]).
Proof. split; [discriminate|vm_compute; reflexivity]. Qed.

(** A service that ignores the range: the part fails, and stays in its place. *)
Example too_long : option_map (λ '(s, mem), (s, map mem [102; 103; 104])) (write_stream_to_buffer [1; 2; 3; 4; 5] true 100 3 (λ _, 0)) = Some (DataLoss, [3; 0; 0]).
Proof. vm_compute. reflexivity. Qed.

Lemma part_is_whole_or_fails_witness :
  ∃ status mem', write_stream_to_buffer [1; 2; 3] true 100 3 (λ _, 0) = Some (status, mem') ∧
    (status = Ok ↔ true = true ∧ Z.of_nat (length [1; 2; 3]) = 3) ∧ (status = SdkError ↔ true = false) ∧
    (status = Ok → ∀ a, mem' a = store 100 [1; 2; 3] (λ _, 0) a) ∧ (∀ a, a < 100 ∨ 100 + 3 <= a → mem' a = 0).
Proof. apply (part_is_whole_or_fails [1; 2; 3] true 100 3 (λ _, 0)). reflexivity. Defined.

Definition client : GCSClient := mkGCSClient false (mkGcsConfiguration false 8 None None None [] None) 4 64 None.

Lemma gcs_read_is_answered_once_witness :
  ∃ c' reads q, gcs_async_read (λ _, false) false (txt "gs://box/object") 100 13 4096 client = (c', Ret (Some (Success, reads))) ∧
    gx_responder c' = Some q ∧ tiles (100 + 13) 100 4096 (map or_part reads) ∧
    ∀ ends, length ends = length reads →
      ∃ q', gx_responder (gcs_complete 7 (Z.of_nat (length reads)) ends c') = Some q' ∧ running q' = running q - 1 ∧
        responses q' = responses q ++ [mkBackendResponse 7 (if forallb (λ s, bool_decide (s = Ok)) ends then Success else FileAccessError)].
Proof.
  apply (gcs_read_is_answered_once (txt "gs://box/object") (mkUri (txt "gs") (txt "box") (txt "object")) 100 13 4096 7 client);
    [vm_compute; reflexivity|reflexivity|reflexivity|discriminate|discriminate|reflexivity|reflexivity|discriminate].
Defined.

End Objects.
