(* ===== verification/CudaDevice.v ===== *)
(** The CUDA backend (device/cuda, device/backends): the driver library that is loaded, its results as response codes, the
    devices it opens, and the operations of a device.

    The driver's entry points and the C library's allocator are one class of calls with laws; the copy path is proved over
    the class [Driver] of DeviceWriter, and the backend is shown to be one. *)

From S2P Require Import Prelude ResponseCode Text Workload DeviceWriter.

(** ** The library *)

Definition symbols : list (string * option string) := [
  ("cuInit", None); ("cuDriverGetVersion", None); ("cuGetErrorName", None); ("cuGetErrorString", None);
  ("cuDeviceGetCount", None); ("cuDeviceGet", None); ("cuDeviceGetAttribute", None); ("cuDevicePrimaryCtxRetain", None);
  ("cuDevicePrimaryCtxRelease_v2", Some "cuDevicePrimaryCtxRelease"); ("cuCtxSetCurrent", None); ("cuCtxGetCurrent", None);
  ("cuMemGetInfo_v2", Some "cuMemGetInfo");
  ("cuMemHostAlloc", None); ("cuMemFreeHost", None); ("cuMemHostRegister_v2", Some "cuMemHostRegister"); ("cuMemHostUnregister", None);
  ("cuMemAlloc_v2", Some "cuMemAlloc"); ("cuMemFree_v2", Some "cuMemFree");
  ("cuStreamCreate", None); ("cuStreamDestroy_v2", Some "cuStreamDestroy"); ("cuStreamSynchronize", None); ("cuStreamQuery", None);
  ("cuStreamWaitEvent", None);
  ("cuEventCreate", None); ("cuEventDestroy_v2", Some "cuEventDestroy"); ("cuEventRecord", None); ("cuEventQuery", None);
  ("cuEventSynchronize", None);
  ("cuMemcpyHtoDAsync_v2", Some "cuMemcpyHtoDAsync"); ("cuMemcpyDtoDAsync_v2", Some "cuMemcpyDtoDAsync"); ("cuMemsetD8Async", None)]%string.

(** The name a symbol is bound to; [exported] is dlsym. *)
Definition resolve (exported : string → bool) (versioned : string) (plain : option string) : option string :=
  if exported versioned then Some versioned
  else match plain with Some p => if exported p then Some p else None | None => None end.

(** Every symbol is tried. *)
Fixpoint load_symbols (exported : string → bool) (l : list (string * option string)) : bool * list (option string) :=
  match l with
  | [] => (true, [])
  | (versioned, plain) :: l =>
      let fn := resolve exported versioned plain in
      let '(ok, fns) := load_symbols exported l in
      (bool_decide (is_Some fn) && ok, fn :: fns)
  end.

(** Whether there is a driver: [dlopen] answers what a library exports, and [cuInit] whether it succeeds. *)
Definition load (dlopen : string → option (string → bool)) (cuInit : bool) : bool :=
  match (match dlopen "libcuda.so.1"%string with Some handle => Some handle | None => dlopen "libcuda.so"%string end) with
  | None => false
  | Some exported => if negb (load_symbols exported symbols).1 then false else cuInit
  end.

(** ** Results *)

(** The results that are told apart. *)
Inductive CUresult :=
  CUDA_SUCCESS | NO_DEVICE | INVALID_DEVICE | DEVICE_NOT_LICENSED | OUT_OF_MEMORY | NOT_INITIALIZED | DEINITIALIZED | INVALID_CONTEXT |
  CONTEXT_IS_DESTROYED | SYSTEM_DRIVER_MISMATCH | SYSTEM_NOT_READY | INVALID_VALUE | INVALID_HANDLE | NOT_READY | OtherResult (n : Z).

#[export] Instance CUresult_eq_dec : EqDecision CUresult.
Proof. solve_decision. Defined.

Definition to_response_code (result : CUresult) (unclassified : ResponseCode) : ResponseCode :=
  match result with
  | CUDA_SUCCESS => Success
  | NO_DEVICE => DeviceUnavailable
  | INVALID_DEVICE | DEVICE_NOT_LICENSED => InvalidDevice
  | OUT_OF_MEMORY => DeviceOutOfMemory
  | NOT_INITIALIZED | DEINITIALIZED | INVALID_CONTEXT | CONTEXT_IS_DESTROYED | SYSTEM_DRIVER_MISMATCH | SYSTEM_NOT_READY => DeviceDriverError
  | INVALID_VALUE | INVALID_HANDLE => InvalidParameterError
  | NOT_READY | OtherResult _ => unclassified
  end.

Definition report (result : CUresult) (unclassified : ResponseCode) : ResponseCode :=
  if bool_decide (result = CUDA_SUCCESS) then Success else to_response_code result unclassified.

(** ** The driver *)

Inductive Attribute := UnifiedAddressing | PageableAccessUsesHostPageTables.

Inductive Call :=
| DeviceGetCount | DeviceGet (ordinal : Z) | DeviceGetAttribute (name : Attribute) (device : Z) | PrimaryCtxRetain (device : Z)
| PrimaryCtxRelease (device : Z) | CtxSetCurrent (context : Z)
| MemHostAlloc (bytesize : Z) | MemFreeHost (ptr : Z) | MemHostRegister (ptr bytesize : Z) | MemHostUnregister (ptr : Z)
| AlignedAlloc (alignment bytesize : Z) | Free (ptr : Z)
| MemAlloc (bytesize : Z) | MemFree (ptr : Z)
| StreamCreate | StreamDestroy (stream : Z) | StreamSynchronize (stream : Z) | StreamQuery (stream : Z) | StreamWaitEvent (stream event : Z)
| EventCreate | EventDestroy (event : Z) | EventRecord (event stream : Z) | EventQuery (event : Z) | EventSynchronize (event : Z)
| MemcpyHtoDAsync (dst src bytesize stream : Z) | MemcpyDtoDAsync (dst src bytesize stream : Z) | MemsetD8Async (dst value bytesize stream : Z).

(** The calls that give or take host memory. *)
Definition host_memory_call (c : Call) : bool :=
  match c with MemHostAlloc _ | MemFreeHost _ | AlignedAlloc _ _ | Free _ => true | _ => false end.

(** A call answers a result and, where it has one, a value. *)
Class CudaCalls (D : Type) := {
  cu : Call → D → CUresult * Z * D;
  (** the blocks of host memory that were given and not taken back, the last first *)
  host_memory : D → list (Z * Z) }.

(** A block that an allocation gives: memory of its own. *)
Definition new_block (base bytes : Z) (blocks : list (Z * Z)) : Prop :=
  0 < base ∧ base + bytes <= size_modulus ∧ Forall (clear_of base bytes) blocks ∧ Forall (λ b, b.1 ≠ base) blocks.

Class CudaLaws (D : Type) `{!CudaCalls D} : Prop := {
  cu_keeps_memory c d : host_memory_call c = false → host_memory (cu c d).2 = host_memory d;
  cu_host_alloc bytes d r base d' : cu (MemHostAlloc bytes) d = (r, base, d') →
    if decide (r = CUDA_SUCCESS) then new_block base bytes (host_memory d) ∧ host_memory d' = (base, bytes) :: host_memory d
    else host_memory d' = host_memory d;
  cu_aligned_alloc alignment bytes d r base d' : cu (AlignedAlloc alignment bytes) d = (r, base, d') →
    if decide (base = 0) then host_memory d' = host_memory d
    else new_block base bytes (host_memory d) ∧ host_memory d' = (base, bytes) :: host_memory d;
  cu_free ptr d : host_memory (cu (Free ptr) d).2 = filter (λ b, b.1 ≠ ptr) (host_memory d);
  cu_free_host ptr d r x d' : cu (MemFreeHost ptr) d = (r, x, d') →
    host_memory d' = if decide (r = CUDA_SUCCESS) then filter (λ b, b.1 ≠ ptr) (host_memory d) else host_memory d }.

Inductive PinnedMode := Allocate | Register.

#[export] Instance PinnedMode_eq_dec : EqDecision PinnedMode.
Proof. solve_decision. Defined.

Definition pinned_mode (variable : option text) : PinnedMode :=
  if bool_decide (default (txt "allocate") variable = txt "register") then Register else Allocate.

Inductive Status := Ready | NotReady.

Section Backend.
Context {D : Type} `{!CudaCalls D}.

(** ** A device *)

Record CudaDevice := mkCudaDevice { cd_device : Z; cd_context : Z }.

(** A call whose result is reported. *)
Definition reported (unclassified : ResponseCode) (c : Call) (d : D) : ResponseCode * Z * D :=
  let '(r, x, d) := cu c d in (report r unclassified, x, d).

Definition cuda_bind_thread (dev : CudaDevice) (d : D) : ResponseCode * D :=
  let '(code, _, d) := reported DeviceDriverError (CtxSetCurrent (cd_context dev)) d in (code, d).

Definition get_attribute (a : Attribute) (dev : CudaDevice) (d : D) : ResponseCode * Z * D :=
  reported DeviceDriverError (DeviceGetAttribute a (cd_device dev)) d.

Context (mode : PinnedMode) (page : Z).

Definition rounded_up (bytesize : Z) : Z := (bytesize ⊕ page ⊖ 1) / page ⊗ page.

(** The code and the pointer, null when there is none. *)
Definition host_alloc (bytesize : Z) (d : D) : ResponseCode * Z * D :=
  if bool_decide (mode = Allocate) then
    let '(r, ptr, d) := cu (MemHostAlloc bytesize) d in
    (report r DeviceOutOfMemory, if bool_decide (r = CUDA_SUCCESS) then ptr else 0, d)
  else
    let rounded := rounded_up bytesize in
    let '(_, memory, d) := cu (AlignedAlloc page rounded) d in
    if memory =? 0 then (DeviceOutOfMemory, 0, d)
    else
      let '(result, _, d) := cu (MemHostRegister memory rounded) d in
      if negb (bool_decide (result = CUDA_SUCCESS)) then
        let '(_, _, d) := cu (Free memory) d in (report result DeviceOutOfMemory, 0, d)
      else (Success, memory, d).

Definition host_free (ptr : Z) (d : D) : ResponseCode * D :=
  if ptr =? 0 then (Success, d)
  else if bool_decide (mode = Allocate) then let '(code, _, d) := reported DeviceDriverError (MemFreeHost ptr) d in (code, d)
  else
    let '(code, _, d) := reported DeviceDriverError (MemHostUnregister ptr) d in
    let '(_, _, d) := cu (Free ptr) d in (code, d).

Definition device_alloc (bytesize : Z) (d : D) : ResponseCode * Z * D := reported DeviceOutOfMemory (MemAlloc bytesize) d.
Definition device_free (ptr : Z) (d : D) : ResponseCode * Z * D := reported DeviceDriverError (MemFree ptr) d.

Definition cuda_stream_create (d : D) : ResponseCode * Z * D := reported DeviceTransferError StreamCreate d.
Definition stream_destroy (stream : Z) (d : D) : ResponseCode * Z * D := reported DeviceTransferError (StreamDestroy stream) d.
Definition cuda_stream_synchronize (stream : Z) (d : D) : ResponseCode * Z * D := reported DeviceTransferError (StreamSynchronize stream) d.
Definition stream_wait_event (stream event : Z) (d : D) : ResponseCode * Z * D := reported DeviceTransferError (StreamWaitEvent stream event) d.
Definition cuda_event_create (d : D) : ResponseCode * Z * D := reported DeviceTransferError EventCreate d.
Definition event_destroy (event : Z) (d : D) : ResponseCode * Z * D := reported DeviceTransferError (EventDestroy event) d.
Definition cuda_event_record (event stream : Z) (d : D) : ResponseCode * Z * D := reported DeviceTransferError (EventRecord event stream) d.
Definition cuda_event_synchronize (event : Z) (d : D) : ResponseCode * Z * D := reported DeviceTransferError (EventSynchronize event) d.
Definition cuda_memcpy_h2d_async (dst src bytesize stream : Z) (d : D) : ResponseCode * Z * D :=
  reported DeviceTransferError (MemcpyHtoDAsync dst src bytesize stream) d.
Definition memcpy_d2d_async (dst src bytesize stream : Z) (d : D) : ResponseCode * Z * D :=
  reported DeviceTransferError (MemcpyDtoDAsync dst src bytesize stream) d.
Definition memset_async (dst value bytesize stream : Z) (d : D) : ResponseCode * Z * D :=
  reported DeviceTransferError (MemsetD8Async dst value bytesize stream) d.

(** A query, of a stream or of an event: [None] is a status that is left as it was. *)
Definition query (c : Call) (d : D) : ResponseCode * option Status * D :=
  let '(result, _, d) := cu c d in
  if bool_decide (result = NOT_READY) then (Success, Some NotReady, d)
  else
    let code := report result DeviceTransferError in
    (code, if bool_decide (code = Success) then Some Ready else None, d).

Definition stream_query (stream : Z) : D → ResponseCode * option Status * D := query (StreamQuery stream).
Definition event_query (event : Z) : D → ResponseCode * option Status * D := query (EventQuery event).

(** ** The backend *)

(** [cb_retained] are the devices whose primary context is held, [cb_requested] how much of each block of host memory was
    asked for: neither is in the code. *)
Record CudaBackend := mkBackend {
  cb_driver : D; cb_loaded : bool; cb_devices : list (Z * CudaDevice); cb_retained : list Z; cb_requested : list Z }.

Definition with_cuda (d : D) (b : CudaBackend) : CudaBackend :=
  mkBackend d (cb_loaded b) (cb_devices b) (cb_retained b) (cb_requested b).

Fixpoint cached (ordinal : Z) (l : list (Z * CudaDevice)) : option CudaDevice :=
  match l with [] => None | (o, dev) :: l => if o =? ordinal then Some dev else cached ordinal l end.

Definition device_count (b : CudaBackend) : ResponseCode * Z * CudaBackend :=
  let '(code, devices, d) := reported DeviceDriverError DeviceGetCount (cb_driver b) in
  (code, if bool_decide (code = Success) then Z.max 0 devices else 0, with_cuda d b).

(** A device is named by its ordinal, a null one is zero.  [memory_left] is false when the device or its entry in the map
    cannot be allocated; the exception leaves the function. *)
Definition open_ordinal (memory_left : bool) (ordinal : Z) (b : CudaBackend) : outcome (ResponseCode * Z) * CudaBackend :=
  match cached ordinal (cb_devices b) with
  | Some _ => (Ret (Success, ordinal + 1), b)
  | None =>
      let '(code, handle, d) := reported InvalidDevice (DeviceGet ordinal) (cb_driver b) in
      let b := with_cuda d b in
      if negb (bool_decide (code = Success)) then (Ret (code, 0), b)
      else
        let '(code, context, d) := reported DeviceDriverError (PrimaryCtxRetain handle) (cb_driver b) in
        let b := with_cuda d b in
        if negb (bool_decide (code = Success)) then (Ret (code, 0), b)
        else if memory_left then
          (Ret (Success, ordinal + 1),
           mkBackend d (cb_loaded b) (cb_devices b ++ [(ordinal, mkCudaDevice handle context)]) (cb_retained b ++ [handle]) (cb_requested b))
        else
          let '(_, _, d) := cu (PrimaryCtxRelease handle) (cb_driver b) in (Throw StdException, with_cuda d b)
  end.

(** The destructor of the backend is that of its devices. *)
Definition drop_device (dev : CudaDevice) (d : D) : D := (cu (PrimaryCtxRelease (cd_device dev)) d).2.

(** ** The backend as the driver of the copy path *)

(** backend_for, and the one backend of the process. *)
Definition backend_for (type : DeviceType) (b : CudaBackend) : bool * CudaBackend :=
  (match type with Cuda => cb_loaded b | Cpu => false end, b).

Definition on_cuda (f : D → ResponseCode * Z * D) (b : CudaBackend) : ResponseCode * Z * CudaBackend :=
  let '(code, x, d) := f (cb_driver b) in (code, x, with_cuda d b).

Definition drop_value (r : ResponseCode * Z * CudaBackend) : ResponseCode * CudaBackend := (r.1.1, r.2).

Definition requested_block (block : Z * Z) (requested : Z) : Z * Z := (block.1, Z.min block.2 requested).

(** [Driver] has no exceptions, so a device is opened here while there is memory for it; [open_ordinal] has the other case, and
    [contexts_held_once] covers it. *)
#[export] Instance cuda_driver : Driver CudaBackend := {
  find_backend := backend_for;
  open_device _ ordinal b :=
    match open_ordinal true ordinal b with (Ret (code, dev), b) => (code, dev, b) | (Throw _, b) => (UnknownError, 0, b) end;
  bind_thread dev b :=
    match cached (dev - 1) (cb_devices b) with
    | Some device => let '(code, d) := cuda_bind_thread device (cb_driver b) in (code, with_cuda d b)
    | None => (DeviceDriverError, b)
    end;
  stream_create _ := on_cuda cuda_stream_create;
  stream_synchronize stream b := drop_value (on_cuda (cuda_stream_synchronize stream) b);
  event_create _ := on_cuda cuda_event_create;
  event_record event stream b := drop_value (on_cuda (cuda_event_record event stream) b);
  event_synchronize event b := drop_value (on_cuda (cuda_event_synchronize event) b);
  memcpy_h2d_async dst src bytesize stream b := drop_value (on_cuda (cuda_memcpy_h2d_async dst src bytesize stream) b);
  device_host_alloc _ bytesize b :=
    let '(code, ptr, d) := host_alloc bytesize (cb_driver b) in
    (code, ptr, mkBackend d (cb_loaded b) (cb_devices b) (cb_retained b)
                  (if bool_decide (code = Success) then bytesize :: cb_requested b else cb_requested b));
  pinned b := zip_with requested_block (host_memory (cb_driver b)) (cb_requested b) }.


(** ** What the backend keeps *)

Context `{!CudaLaws D}.

Lemma report_success r unclassified : unclassified ≠ Success → (report r unclassified = Success ↔ r = CUDA_SUCCESS).
Proof. intros Hu. unfold report. case_bool_decide as H; [done|]. split; [|done]. by destruct r. Qed.

Lemma reported_memory unclassified c d : host_memory_call c = false → host_memory (reported unclassified c d).2 = host_memory d.
Proof. intros H. unfold reported. pose proof (cu_keeps_memory c d H). by destruct (cu c d) as [[r x] d']. Qed.

Lemma on_cuda_memory unclassified c b : host_memory_call c = false →
  pinned (on_cuda (reported unclassified c) b).2 = pinned b.
Proof.
  intros H. unfold on_cuda. pose proof (reported_memory unclassified c (cb_driver b) H) as E.
  destruct (reported unclassified c (cb_driver b)) as [[code x] d]. simpl in *. by rewrite E.
Qed.

Lemma open_ordinal_memory memory_left ordinal b :
  host_memory (cb_driver (open_ordinal memory_left ordinal b).2) = host_memory (cb_driver b) ∧
  cb_requested (open_ordinal memory_left ordinal b).2 = cb_requested b.
Proof.
  unfold open_ordinal. destruct (cached ordinal (cb_devices b)); [done|].
  pose proof (reported_memory InvalidDevice (DeviceGet ordinal) (cb_driver b) eq_refl) as E1.
  destruct (reported InvalidDevice (DeviceGet ordinal) (cb_driver b)) as [[c1 handle] d1]. simpl in *.
  destruct (negb _); [done|]. pose proof (reported_memory DeviceDriverError (PrimaryCtxRetain handle) d1 eq_refl) as E2.
  destruct (reported DeviceDriverError (PrimaryCtxRetain handle) d1) as [[c2 context] d2]. simpl in *. rewrite E1 in E2.
  destruct (negb _); [done|]. destruct memory_left; [done|]. pose proof (cu_keeps_memory (PrimaryCtxRelease handle) d2 eq_refl) as E3.
  destruct (cu (PrimaryCtxRelease handle) d2) as [[r x] d3]. simpl in *. by rewrite E3.
Qed.

(** What host_alloc gives is memory of its own, and a failure gives none. *)
Lemma host_alloc_allocate bytesize d code ptr d' : mode = Allocate → host_alloc bytesize d = (code, ptr, d') →
  if decide (code = Success) then new_block ptr bytesize (host_memory d) ∧ host_memory d' = (ptr, bytesize) :: host_memory d
  else host_memory d' = host_memory d ∧ ptr = 0.
Proof.
  intros Hm. unfold host_alloc. rewrite Hm, bool_decide_true by done. destruct (cu (MemHostAlloc bytesize) d) as [[r x] d1] eqn:E.
  apply cu_host_alloc in E. intros [= <- <- <-]. case_bool_decide as Hr.
  - subst. rewrite decide_True in E by done. by rewrite decide_True.
  - rewrite decide_False in E by done. rewrite decide_False; [done|]. by rewrite report_success.
Qed.

Lemma filter_not_base base (blocks : list (Z * Z)) : Forall (λ b, b.1 ≠ base) blocks → filter (λ b, b.1 ≠ base) blocks = blocks.
Proof.
  induction 1 as [|b blocks Hb _ IH]; [done|]. rewrite filter_cons_True by done. by rewrite IH.
Qed.

(** With registered memory the block holds what was asked for, up to a page; a block that cannot be registered is freed. *)
Theorem registered_memory_is_whole bytesize d code ptr d' : mode = Register → 0 < page → 0 <= bytesize → bytesize + page <= size_modulus →
  host_alloc bytesize d = (code, ptr, d') →
  if decide (code = Success) then
    ∃ rounded, bytesize <= rounded < bytesize + page ∧ rounded mod page = 0 ∧ new_block ptr rounded (host_memory d) ∧
      host_memory d' = (ptr, rounded) :: host_memory d
  else host_memory d' = host_memory d ∧ ptr = 0.
Proof.
  intros Hm Hp Hb Hmax. unfold host_alloc. rewrite Hm, bool_decide_false by done.
  assert (Hround : ∃ rounded, rounded_up bytesize = rounded ∧ bytesize <= rounded < bytesize + page ∧ rounded mod page = 0).
  { exists ((bytesize + page - 1) / page * page). pose proof (Z.mul_div_le (bytesize + page - 1) page Hp).
    pose proof (Z.mul_succ_div_gt (bytesize + page - 1) page Hp). split; [|split; [lia|by apply Z.mod_mul; lia]].
    unfold rounded_up. assert (E : bytesize ⊕ page ⊖ 1 = bytesize + page - 1).
    { unfold add64, sub64, wrap64. rewrite Zminus_mod_idemp_l. apply Z.mod_small. lia. }
    rewrite E. apply mul64_small. unfold is_size. lia. }
  destruct Hround as (rounded & -> & Hr & Hmod). destruct (cu (AlignedAlloc page rounded) d) as [[r0 memory] d1] eqn:E1.
  apply cu_aligned_alloc in E1. destruct (Z.eqb_spec memory 0) as [->|Hne].
  { intros [= <- <- <-]. rewrite decide_True in E1 by done. by rewrite decide_False. }
  rewrite decide_False in E1 by done. destruct E1 as [Hnew Hd1].
  pose proof (cu_keeps_memory (MemHostRegister memory rounded) d1 eq_refl) as E2.
  destruct (cu (MemHostRegister memory rounded) d1) as [[result x] d2]. simpl in E2. case_bool_decide as Hres; simpl.
  - intros [= <- <- <-]. rewrite decide_True by done. exists rounded. split; [done|]. split; [done|]. split; [done|]. by rewrite E2.
  - pose proof (cu_free memory d2) as E3. destruct (cu (Free memory) d2) as [[r3 x3] d3]. simpl in E3. intros [= <- <- <-].
    rewrite decide_False by by rewrite report_success. split; [|done]. rewrite E3, E2, Hd1.
    rewrite filter_cons_False by (simpl; tauto). apply filter_not_base. apply Hnew.
Qed.

Lemma zip_clear base bytes (blocks : list (Z * Z)) : ∀ requested, Forall (clear_of base bytes) blocks →
  Forall (clear_of base bytes) (zip_with requested_block blocks requested).
Proof.
  intros requested H. revert requested. induction H as [|b blocks Hb _ IH]; intros [|r requested]; simpl; [constructor..|].
  constructor; [|apply IH]. unfold clear_of, requested_block in *. simpl. lia.
Qed.

(** Host memory of either kind: a block of its own that holds what was asked for, and only a failure gives none.  Registered
    memory is rounded up to pages, which must not wrap. *)
Lemma host_alloc_block bytesize d code ptr d' : 0 < page → mode = Allocate ∨ 0 <= bytesize ∧ bytesize + page <= size_modulus →
  host_alloc bytesize d = (code, ptr, d') →
  if decide (code = Success) then
    ∃ given, bytesize <= given ∧ new_block ptr given (host_memory d) ∧ host_memory d' = (ptr, given) :: host_memory d
  else host_memory d' = host_memory d.
Proof.
  intros Hp Hb E. destruct (decide (mode = Allocate)) as [Hm|Hm].
  - apply host_alloc_allocate in E; [|done]. destruct (decide (code = Success)); [|by destruct E].
    exists bytesize. by destruct E.
  - destruct Hb as [|[Hb0 Hb]]; [done|]. assert (Hr : mode = Register) by (destruct mode; done).
    apply registered_memory_is_whole in E; [|done..]. destruct (decide (code = Success)); [|by destruct E].
    destruct E as (rounded & Hle & _ & H1 & H2). exists rounded. split; [lia|done].
Qed.

(** No call but an allocation changes what is pinned. *)
Record only_allocation_pins : Prop := {
  oa_find t b : pinned (find_backend t b).2 = pinned b;
  oa_open t id b : pinned (open_device t id b).2 = pinned b;
  oa_bind dev b : pinned (bind_thread dev b).2 = pinned b;
  oa_stream_create dev b : pinned (stream_create dev b).2 = pinned b;
  oa_stream_synchronize stream b : pinned (stream_synchronize stream b).2 = pinned b;
  oa_event_create dev b : pinned (event_create dev b).2 = pinned b;
  oa_event_record event stream b : pinned (event_record event stream b).2 = pinned b;
  oa_event_synchronize event b : pinned (event_synchronize event b).2 = pinned b;
  oa_memcpy dst src n stream b : pinned (memcpy_h2d_async dst src n stream b).2 = pinned b }.

Lemma only_allocation_pins_cuda : only_allocation_pins.
Proof.
  split.
  - done.
  - intros t ordinal b. simpl. destruct (open_ordinal_memory true ordinal b) as [E1 E2].
    destruct (open_ordinal true ordinal b) as [[[code dev]|e] b']; simpl in *; by rewrite E1, E2.
  - intros dev b. simpl. destruct (cached (dev - 1) (cb_devices b)) as [device|]; [|done]. unfold cuda_bind_thread.
    pose proof (reported_memory DeviceDriverError (CtxSetCurrent (cd_context device)) (cb_driver b) eq_refl) as E.
    destruct (reported DeviceDriverError (CtxSetCurrent (cd_context device)) (cb_driver b)) as [[code x] d]. simpl in *. by rewrite E.
  - intros dev b. by apply on_cuda_memory.
  - intros stream b. by apply on_cuda_memory.
  - intros dev b. by apply on_cuda_memory.
  - intros event stream b. by apply on_cuda_memory.
  - intros event b. by apply on_cuda_memory.
  - intros dst src n stream b. by apply on_cuda_memory.
Qed.

Lemma cuda_allocation dev bytes b code base b' : 0 < page → mode = Allocate ∨ 0 <= bytes ∧ bytes + page <= size_modulus →
  device_host_alloc dev bytes b = (code, base, b') →
  if decide (code = Success) then
    0 < base ∧ base + bytes <= size_modulus ∧ Forall (clear_of base bytes) (pinned b) ∧ pinned b' = (base, bytes) :: pinned b
  else pinned b' = pinned b.
Proof.
  intros Hp Hb. simpl. destruct (host_alloc bytes (cb_driver b)) as [[c ptr] d] eqn:E. intros [= <- <- <-].
  apply host_alloc_block in E; [|done..]. simpl. destruct (decide (c = Success)) as [->|Hne].
  - destruct E as (given & Hle & (H1 & H2 & H3 & _) & Hd). rewrite bool_decide_true by done. rewrite Hd.
    split; [done|]. split; [lia|]. split; [|simpl; unfold requested_block at 1; simpl; by rewrite Z.min_r by lia].
    apply zip_clear. eapply Forall_impl; [exact H3|]. unfold clear_of. intros x. lia.
  - by rewrite bool_decide_false, E by done.
Qed.

(** C39: the CUDA backend is a driver of the copy path: pinned memory it gives has addresses of its own, with all the bytes that
    were asked for, and no other call - opening devices, streams, events, copies, failed ones too - gives or takes any.  With
    allocated pinned memory this is so whatever is asked for, so what is proved of the copy path over a driver holds over CUDA; with
    registered memory it is so for every request that the rounding to pages does not carry past the address space. *)
Theorem cuda_backend_is_a_driver : 0 < page →
  (mode = Allocate → DriverLaws CudaBackend) ∧ only_allocation_pins ∧
  ∀ dev bytes b code base b', 0 <= bytes → bytes + page <= size_modulus → device_host_alloc dev bytes b = (code, base, b') →
    if decide (code = Success) then
      0 < base ∧ base + bytes <= size_modulus ∧ Forall (clear_of base bytes) (pinned b) ∧ pinned b' = (base, bytes) :: pinned b
    else pinned b' = pinned b.
Proof.
  intros Hp. pose proof only_allocation_pins_cuda as Hpins. split; [|split; [done|intros; eapply cuda_allocation; eauto]].
  intros Hm. destruct Hpins. split; try done. intros. eapply cuda_allocation; eauto.
Qed.

(** ** Contexts *)

(** The devices of a backend, after any sequence of openings. *)
Fixpoint open_all (calls : list (bool * Z)) (b : CudaBackend) : CudaBackend :=
  match calls with [] => b | (memory_left, ordinal) :: calls => open_all calls (open_ordinal memory_left ordinal b).2 end.

Lemma cached_None ordinal l : cached ordinal l = None ↔ ordinal ∉ map fst l.
Proof.
  induction l as [|[o dev] l IH]; simpl; [split; [intros _ H; by apply not_elem_of_nil in H|done]|].
  rewrite not_elem_of_cons. destruct (Z.eqb_spec o ordinal) as [->|Hne]; [split; [done|by intros []]|]. rewrite IH. naive_solver.
Qed.

Lemma cached_app ordinal l1 l2 dev : cached ordinal l1 = Some dev → cached ordinal (l1 ++ l2) = Some dev.
Proof. induction l1 as [|[o x] l1 IH]; simpl; [done|]. by destruct (o =? ordinal). Qed.

Definition contexts_ok (b : CudaBackend) : Prop :=
  cb_retained b = map (λ p, cd_device p.2) (cb_devices b) ∧ NoDup (map fst (cb_devices b)).

Lemma open_ordinal_spec memory_left ordinal b out b' : contexts_ok b → open_ordinal memory_left ordinal b = (out, b') →
  contexts_ok b' ∧ (∀ o dev, cached o (cb_devices b) = Some dev → cached o (cb_devices b') = Some dev) ∧
  (∀ dev, out = Ret (Success, dev) → dev = ordinal + 1 ∧ is_Some (cached ordinal (cb_devices b'))) ∧
  (is_Some (cached ordinal (cb_devices b)) → b' = b ∧ out = Ret (Success, ordinal + 1)).
Proof.
  intros [Hr Hn] E. unfold open_ordinal in E. destruct (cached ordinal (cb_devices b)) as [dev|] eqn:Hc.
  { injection E as <- <-. split; [done|]. split; [done|]. split; [intros ? [= <-]; by rewrite Hc|done]. }
  destruct (reported InvalidDevice (DeviceGet ordinal) (cb_driver b)) as [[c1 handle] d1]. simpl in E.
  case_bool_decide as H1; simpl in E.
  2:{ injection E as <- <-. split; [done|]. split; [done|]. split; [intros ? E; injection E; congruence|by intros []]. }
  destruct (reported DeviceDriverError (PrimaryCtxRetain handle) d1) as [[c2 context] d2]. simpl in E.
  case_bool_decide as H2; simpl in E.
  2:{ injection E as <- <-. split; [done|]. split; [done|]. split; [intros ? E; injection E; congruence|by intros []]. }
  destruct memory_left.
  - injection E as <- <-. split; [split; simpl; [by rewrite Hr, map_app|]|split; [|split; [|by intros []]]].
    + rewrite map_app. apply NoDup_app. split; [done|]. split; [|apply NoDup_singleton]. intros o Ho ->%list_elem_of_singleton.
      by apply cached_None in Hc.
    + intros o dev Ho. simpl. by apply cached_app.
    + intros dev [= <-]. split; [done|]. simpl. clear Hr Hn. induction (cb_devices b) as [|[o x] l IH]; simpl in *; [by rewrite Z.eqb_refl; eexists|].
      destruct (o =? ordinal); [done|]. by apply IH.
  - destruct (cu (PrimaryCtxRelease handle) d2) as [[r x] d3]. injection E as <- <-. split; [done|]. split; [done|]. split; [done|by intros []].
Qed.

(** Whatever is opened and whatever fails, the backend holds the context of each of its devices once, and of no other; a
    device that is open stays open and is not opened again. *)
Theorem contexts_held_once calls : ∀ b, contexts_ok b →
  contexts_ok (open_all calls b) ∧ ∀ o dev, cached o (cb_devices b) = Some dev → cached o (cb_devices (open_all calls b)) = Some dev.
Proof.
  induction calls as [|[memory_left ordinal] calls IH]; intros b Hb; [done|]. cbn [open_all].
  destruct (open_ordinal memory_left ordinal b) as [out b'] eqn:E. destruct (open_ordinal_spec _ _ _ _ _ Hb E) as (Hb' & Hk & _).
  destruct (IH b' Hb') as [H1 H2]. split; [done|]. intros o dev Ho. by apply H2, Hk.
Qed.
End Backend.
Arguments CudaBackend : clear implicits.

(** ** The library *)

(** The library counts as loaded only when each symbol is there under one of its names, and a fallback is taken for the
    plain name alone. *)
Theorem load_symbols_complete exported l : (load_symbols exported l).1 = true ↔
  Forall (λ s : string * option string, exported s.1 = true ∨ ∃ p, s.2 = Some p ∧ exported p = true) l.
Proof.
  induction l as [|[versioned plain] l IH]; [by split; [constructor|]|]. rewrite Forall_cons, <- IH. cbn [load_symbols].
  destruct (load_symbols exported l) as [ok fns]. simpl. rewrite andb_true_iff, bool_decide_eq_true.
  assert (Hr : is_Some (resolve exported versioned plain) ↔ exported versioned = true ∨ ∃ p, plain = Some p ∧ exported p = true).
  { unfold resolve. destruct (exported versioned); [split; [by left|by eexists]|]. destruct plain as [p|].
    - destruct (exported p) eqn:Hp; split; [intros _; right; by exists p|by eexists|by intros []|]. intros [?|(p' & [= <-] & ?)]; congruence.
    - split; [by intros []|]. by intros [?|(p' & ? & _)]. }
  by rewrite Hr.
Qed.

(** A result is Success for the streamer only when it is for the driver, and a copy that fails is never taken for a buffer
    that was refused unless the driver says so. *)
Theorem results_are_told_apart result unclassified : unclassified ≠ Success →
  (to_response_code result unclassified = Success ↔ result = CUDA_SUCCESS) ∧
  (unclassified ≠ DeviceOutOfMemory → (to_response_code result unclassified = DeviceOutOfMemory ↔ result = OUT_OF_MEMORY)).
Proof. intros Hu. split; [|intros Ho]; destruct result; simpl; (done || (split; [done|done])). Qed.

Module Scripted.

(** A driver whose memory comes from a counter, and that refuses to register memory when it is told to. *)
Record ScriptedCuda := mkScripted { sc_next : Z; sc_blocks : list (Z * Z); sc_registers : bool }.

Definition allocate (bytes : Z) (d : ScriptedCuda) : option ScriptedCuda :=
  if (0 <? sc_next d) && (sc_next d + bytes <=? size_modulus) &&
     bool_decide (Forall (λ b, b.1 + b.2 <= sc_next d ∧ b.1 ≠ sc_next d) (sc_blocks d)) then
    Some (mkScripted (sc_next d + Z.max 1 bytes) ((sc_next d, bytes) :: sc_blocks d) (sc_registers d))
  else None.

Definition release (ptr : Z) (d : ScriptedCuda) : ScriptedCuda :=
  mkScripted (sc_next d) (filter (λ b, b.1 ≠ ptr) (sc_blocks d)) (sc_registers d).

#[export] Instance scripted_cuda : CudaCalls ScriptedCuda := {
  cu c d :=
    match c with
    | MemHostAlloc bytes => match allocate bytes d with Some d' => (CUDA_SUCCESS, sc_next d, d') | None => (OUT_OF_MEMORY, 0, d) end
    | AlignedAlloc _ bytes => match allocate bytes d with Some d' => (CUDA_SUCCESS, sc_next d, d') | None => (CUDA_SUCCESS, 0, d) end
    | Free ptr | MemFreeHost ptr => (CUDA_SUCCESS, 0, release ptr d)
    | MemHostRegister _ _ => (if sc_registers d then CUDA_SUCCESS else OUT_OF_MEMORY, 0, d)
    | _ => (CUDA_SUCCESS, 1, d)
    end;
  host_memory := sc_blocks }.

Lemma scripted_allocate_spec bytes d d' : allocate bytes d = Some d' →
  new_block (sc_next d) bytes (sc_blocks d) ∧ sc_blocks d' = (sc_next d, bytes) :: sc_blocks d ∧ sc_next d ≠ 0.
Proof.
  unfold allocate. destruct (_ && _) eqn:E; [|done]. intros [= <-].
  apply andb_true_iff in E as [[H1%Z.ltb_lt H2%Z.leb_le]%andb_true_iff H3%bool_decide_eq_true].
  split; [|by split; [|lia]]. split; [done|]. split; [done|]. split; (eapply Forall_impl; [exact H3|]); intros b [? ?]; [by left|done].
Qed.

#[export] Instance scripted_cuda_laws : CudaLaws ScriptedCuda.
Proof.
  split.
  - by intros [] d.
  - intros bytes d r base d'. simpl. destruct (allocate bytes d) as [d1|] eqn:E; intros [= <- <- <-]; [|done].
    rewrite decide_True by done. apply scripted_allocate_spec in E. naive_solver.
  - intros alignment bytes d r base d'. simpl. destruct (allocate bytes d) as [d1|] eqn:E; intros [= <- <- <-]; [|done].
    apply scripted_allocate_spec in E as (H1 & H2 & H3). by rewrite decide_False.
  - done.
  - intros ptr d r x d'. simpl. intros [= <- <- <-]. done.
Qed.

Definition fresh : ScriptedCuda := mkScripted 4096 [] false.
Definition backend : CudaBackend ScriptedCuda := mkBackend fresh true [] [] [].

(** A block that cannot be registered is given back. *)
Example not_registered : host_alloc Register 4096 5000 fresh = (DeviceOutOfMemory, 0, mkScripted 12288 [] false).
Proof. vm_compute. reflexivity. Qed.

(** At the end of the address space the rounding wraps: nothing is allocated for all those bytes. *)
Example rounded_to_nothing : rounded_up 4096 (size_modulus - 1) = 0.
Proof. vm_compute. reflexivity. Qed.

(** Registered memory, for 5000 bytes: two pages are given, of which what was asked for is pinned. *)
Definition registering : CudaBackend ScriptedCuda := mkBackend (mkScripted 4096 [] true) true [] [] [].

Lemma cuda_backend_is_a_driver_witness : @DriverLaws (CudaBackend ScriptedCuda) (cuda_driver Allocate 4096) ∧
  ∃ b', @device_host_alloc _ (cuda_driver Register 4096) 1 5000 registering = (Success, 4096, b') ∧
    host_memory (cb_driver b') = [(4096, 8192)] ∧ @pinned _ (cuda_driver Register 4096) b' = [(4096, 5000)].
Proof.
  split; [apply (cuda_backend_is_a_driver (D := ScriptedCuda) Allocate 4096); reflexivity|].
  eexists. split; [vm_compute; reflexivity|]. split; [reflexivity|].
  destruct (cuda_backend_is_a_driver (D := ScriptedCuda) Register 4096 eq_refl) as (_ & _ & H).
  specialize (H 1 5000 registering _ _ _ ltac:(discriminate) ltac:(discriminate) eq_refl). rewrite decide_True in H by reflexivity.
  apply H.
Defined.

Lemma contexts_held_once_witness : contexts_ok (open_all [(true, 0); (false, 1); (true, 0); (true, 1)] backend) ∧
  ∀ o dev, cached o (cb_devices backend) = Some dev → cached o (cb_devices (open_all [(true, 0); (false, 1); (true, 0); (true, 1)] backend)) = Some dev.
Proof. apply (contexts_held_once [(true, 0); (false, 1); (true, 0); (true, 1)] backend). split; [reflexivity|constructor]. Defined.

Example two_devices : map fst (cb_devices (open_all [(true, 0); (false, 1); (true, 0); (true, 1)] backend)) = [0; 1].
Proof. vm_compute. reflexivity. Qed.

End Scripted.
