(* ===== verification/AsyncIoStats.v ===== *)
(** What a streamer remembers of its submissions, and the counters of its workers (streamer/impl/async_io/async_io_stats).

    Every method holds the mutex for all of its body, so each is one function.  The average depth, a floating point quotient
    of two of the counters, is left out. *)

From S2P Require Import Prelude ResponseCode Text Strategy.

(** ** Submissions *)

Record FileStrategy := mkFileStrategy { fs_path : text; fs_strategy : Strategy }.

Record SubmissionStats := mkStats { ss_submission_id : Z; ss_files : list FileStrategy; ss_shared_engine_mounts : Z }.

Definition no_stats : SubmissionStats := mkStats 0 [] 0.

Definition print_stats (stats : SubmissionStats) : text :=
  let async_files := Z.of_nat (length (List.filter (λ f, is_async (fs_strategy f)) (ss_files stats))) in
  txt "submission " ++ print_Z (ss_submission_id stats) ++
  (if ss_shared_engine_mounts stats >? 0 then txt ", mounts sharing an engine " ++ print_Z (ss_shared_engine_mounts stats) else []) ++
  (if bool_decide (ss_files stats = []) then []
   else txt ", files " ++ print_Z (Z.of_nat (length (ss_files stats))) ++ txt " (" ++ print_Z async_files ++ txt " through an engine)").

(** [submissions] are the oldest first. *)
Record AsyncIoStats := mkAsyncIoStats { st_submissions : list SubmissionStats; st_total : SubmissionStats; st_dropped : Z }.

Definition new_stats : AsyncIoStats := mkAsyncIoStats [] no_stats 0.

Definition MaxSubmissions : Z := 64.

Definition record_stats (stats : SubmissionStats) (s : AsyncIoStats) : AsyncIoStats :=
  let total := mkStats (ss_submission_id (st_total s)) [] (Z.max (ss_shared_engine_mounts (st_total s)) (ss_shared_engine_mounts stats)) in
  let submissions := st_submissions s ++ [stats] in
  if Z.of_nat (length submissions) >? MaxSubmissions then mkAsyncIoStats (tail submissions) total (st_dropped s ⊕ 1)
  else mkAsyncIoStats submissions total (st_dropped s).

Definition find_stats (submission_id : Z) (s : AsyncIoStats) : option SubmissionStats :=
  List.find (λ stats, ss_submission_id stats =? submission_id) (st_submissions s).

(** What async_request records once every workload is dispatched: [by_file] are the groups of the files, the synchronous
    reader's below zero. *)
Definition submission_stats (submission_id shared_engine_mounts : Z) (object_storage : bool) (paths : list text) (by_file : list Z) (strategy : Strategy) :
    SubmissionStats :=
  mkStats submission_id
    (if object_storage then []
     else imap (λ i path, mkFileStrategy path (if default (-1) (by_file !! i) <? 0 then SyncBuffered else strategy)) paths)
    shared_engine_mounts.

(** ** Workers *)

Record AsyncIoCounters := mkCounters {
  ct_bytes_read : Z; ct_bounced_bytes : Z; ct_short_read_restages : Z; ct_transient_retries : Z; ct_achieved_depth : Z;
  ct_inflight_nanos : Z; ct_observed_nanos : Z }.

Definition no_counters : AsyncIoCounters := mkCounters 0 0 0 0 0 0 0.

Definition add_counters (a b : AsyncIoCounters) : AsyncIoCounters :=
  mkCounters (ct_bytes_read a ⊕ ct_bytes_read b) (ct_bounced_bytes a ⊕ ct_bounced_bytes b) (ct_short_read_restages a ⊕ ct_short_read_restages b)
    (ct_transient_retries a ⊕ ct_transient_retries b) (Z.max (ct_achieved_depth a) (ct_achieved_depth b))
    (ct_inflight_nanos a ⊕ ct_inflight_nanos b) (ct_observed_nanos a ⊕ ct_observed_nanos b).

(** ** The last submissions *)

Definition record_all (l : list SubmissionStats) : AsyncIoStats := fold_left (λ s stats, record_stats stats s) l new_stats.

Lemma record_all_app l stats : record_all (l ++ [stats]) = record_stats stats (record_all l).
Proof. unfold record_all. by rewrite fold_left_app. Qed.

(** The last sixty-four submissions are remembered, the others are counted, and the total is the most mounts any of them
    shared. *)
Theorem last_submissions_are_remembered l : Z.of_nat (length l) < size_modulus →
  st_submissions (record_all l) = drop (length l - 64) l ∧ st_dropped (record_all l) = Z.max 0 (Z.of_nat (length l) - 64) ∧
  st_total (record_all l) = mkStats 0 [] (foldr (λ s m, Z.max (ss_shared_engine_mounts s) m) 0 l).
Proof.
  induction l as [|stats l IH] using rev_ind; [done|]. rewrite length_app. cbn [length]. intros Hl. rewrite record_all_app.
  destruct IH as (H1 & H2 & H3); [lia|]. unfold record_stats. rewrite H1, H2, H3. cbn [ss_shared_engine_mounts ss_submission_id].
  assert (Hmax : Z.max (foldr (λ s m, Z.max (ss_shared_engine_mounts s) m) 0 l) (ss_shared_engine_mounts stats) =
    foldr (λ s m, Z.max (ss_shared_engine_mounts s) m) 0 (l ++ [stats])).
  { rewrite foldr_app. cbn [foldr]. clear. induction l as [|s l IH]; cbn [foldr]; lia. }
  rewrite Hmax, length_app, length_drop. cbn [length]. unfold MaxSubmissions.
  destruct (Z.gtb_spec (Z.of_nat (length l - (length l - 64) + 1)) 64) as [Hgt|Hle]; cbn [st_submissions st_dropped st_total].
  - split; [|split; [rewrite add64_small by (unfold is_size; lia); lia|done]].
    assert (Hlen : (64 <= length l)%nat) by lia. replace (length l + 1 - 64)%nat with (S (length l - 64)) by lia.
    rewrite drop_app_le by lia. destruct (drop (length l - 64) l) as [|x rest] eqn:E; [apply (f_equal length) in E; rewrite length_drop in E; simpl in E; lia|].
    cbn [tail app]. f_equal. replace (S (length l - 64)) with (1 + (length l - 64))%nat by lia.
    rewrite Nat.add_comm, <- drop_drop, E. done.
  - split; [|split; [lia|done]]. rewrite !(proj2 (Nat.sub_0_le _ _)) by lia. done.
Qed.

(** Counters of workers can be added in any order. *)
Theorem counters_add_up a b c :
  add_counters a b = add_counters b a ∧ add_counters (add_counters a b) c = add_counters a (add_counters b c).
Proof.
  unfold add_counters. cbn. split; f_equal; unfold add64, wrap64; try (f_equal; lia); try lia;
    rewrite Zplus_mod_idemp_l, Zplus_mod_idemp_r; f_equal; lia.
Qed.

Example printed : print_stats (mkStats 7 [mkFileStrategy (txt "/a") SyncBuffered] 2) =
  txt "submission 7, mounts sharing an engine 2, files 1 (0 through an engine)".
Proof. vm_compute. reflexivity. Qed.

Lemma last_submissions_are_remembered_witness : let l := map (λ i, mkStats i [] (i mod 3)) (seqZ 0 70) in
  st_submissions (record_all l) = drop (length l - 64) l ∧ st_dropped (record_all l) = Z.max 0 (Z.of_nat (length l) - 64) ∧
  st_total (record_all l) = mkStats 0 [] (foldr (λ s m, Z.max (ss_shared_engine_mounts s) m) 0 l).
Proof. intros l. apply (last_submissions_are_remembered l). reflexivity. Defined.
