(* ===== verification/Semaphore.v ===== *)
(** The semaphore the queues and the waiting threads are built on (utils/semaphore): POSIX semaphores behind loops that
    signals do not leave.

    The value is the semaphore's; what goes wrong in the calls that are made - a signal, or another error - is a list of
    answers, after which a call is answered by the value. *)

From S2P Require Import Prelude ResponseCode.

Inductive Trouble := EINTR | OtherErrno.

Record Semaphore := mkSemaphore { sm_value : Z; sm_trouble : list Trouble }.

Definition new_semaphore (value : Z) : Semaphore := mkSemaphore value [].

(** SEM_VALUE_MAX *)
Definition sem_value_max : Z := 2147483647.

Definition sem_post (s : Semaphore) : outcome Semaphore :=
  ASSERT (sm_value s <? sem_value_max) ;;!
  Ret (mkSemaphore (sm_value s + 1) (sm_trouble s)).

(** How a call ends that takes a token: with it, without one, or with an error; [None] is a call that waits for ever. *)
Inductive Taken := Token | NoToken.

(** The loops; [empty] is the answer to a call that finds no token: none for sem_wait, EAGAIN for sem_trywait, and ETIMEDOUT
    for a wait whose deadline passes. *)
Fixpoint take_loop (trouble : list Trouble) (value : Z) (empty : option Taken) : option (outcome Taken * Semaphore) :=
  match trouble with
  | EINTR :: trouble => take_loop trouble value empty
  | OtherErrno :: trouble => Some (Throw AssertFailed, mkSemaphore value trouble)
  | [] =>
      if 0 <? value then Some (Ret Token, mkSemaphore (value - 1) [])
      else match empty with Some answer => Some (Ret answer, mkSemaphore value []) | None => None end
  end.

Definition has_token (t : Taken) : bool := match t with Token => true | NoToken => false end.

Definition taken (r : option (outcome Taken * Semaphore)) : option (outcome bool * Semaphore) :=
  (λ '(t, s), (let! t := t in Ret (has_token t), s)) <$> r.

Definition sem_wait (s : Semaphore) : option (outcome () * Semaphore) :=
  (λ '(t, s), (let! _ := t in Ret (), s)) <$> take_loop (sm_trouble s) (sm_value s) None.

Definition try_wait (s : Semaphore) : option (outcome bool * Semaphore) := taken (take_loop (sm_trouble s) (sm_value s) (Some NoToken)).

(** With either clock: the wait goes on to the same deadline after a signal. *)
Definition wait_for_token (s : Semaphore) : option (outcome bool * Semaphore) := taken (take_loop (sm_trouble s) (sm_value s) (Some NoToken)).

(** Seconds and nanoseconds of a point in time, in nanoseconds. *)
Definition to_timespec (tp : Z) : Z * Z := let secs := Z.quot tp 1000000000 in (secs, tp - secs * 1000000000).

(** ** Signals do not matter *)

Lemma take_loop_signals trouble value empty : Forall (eq EINTR) trouble → take_loop trouble value empty = take_loop [] value empty.
Proof. by induction 1 as [|t trouble <- _ IH]. Qed.

(** However many signals arrive, a wait ends only by taking a token, a try takes one when there is one, and neither takes two. *)
Theorem waits_take_one_token s : Forall (eq EINTR) (sm_trouble s) → 0 <= sm_value s →
  (sem_wait s = if 0 <? sm_value s then Some (Ret (), new_semaphore (sm_value s - 1)) else None) ∧
  (try_wait s = Some (Ret (0 <? sm_value s), new_semaphore (Z.max 0 (sm_value s - 1)))) ∧ wait_for_token s = try_wait s.
Proof.
  intros Hs Hv. unfold sem_wait, wait_for_token, try_wait, taken. rewrite (take_loop_signals _ _ None), (take_loop_signals _ _ (Some NoToken)) by done. cbn [take_loop]. unfold new_semaphore.
  destruct s as [v trouble]. cbn [sm_value] in *. destruct (Z.ltb_spec 0 v) as [H|H].
  - rewrite Z.max_r by lia. done.
  - assert (v = 0) as -> by lia. done.
Qed.

(** A post is matched by one wait. *)
Theorem post_then_wait s s' : 0 <= sm_value s → sm_trouble s = [] → sem_post s = Ret s' → sem_wait s' = Some (Ret (), s).
Proof.
  intros Hv Ht H. unfold sem_post in H. destruct (sm_value s <? sem_value_max); [|done]. simpl in H. injection H as <-.
  destruct s as [v trouble]. simpl in *. subst. unfold sem_wait. simpl. rewrite (proj2 (Z.ltb_lt _ _)) by lia. simpl. by rewrite Z.add_simpl_r.
Qed.

(** The deadline the kernel gets is a normalised one of the same time. *)
Theorem timespec_is_normal tp : 0 <= tp → let '(secs, nsecs) := to_timespec tp in
  0 <= nsecs < 1000000000 ∧ 0 <= secs ∧ secs * 1000000000 + nsecs = tp.
Proof.
  intros H. unfold to_timespec. rewrite Z.quot_div_nonneg by lia. pose proof (Z.mul_div_le tp 1000000000 eq_refl).
  pose proof (Z.mul_succ_div_gt tp 1000000000 eq_refl). pose proof (Z.div_pos tp 1000000000 H eq_refl). lia.
Qed.

Example interrupted_twice : sem_wait (mkSemaphore 1 [EINTR; EINTR]) = Some (Ret (), mkSemaphore 0 []).
Proof. reflexivity. Qed.

Lemma waits_take_one_token_witness :
  sem_wait (mkSemaphore 2 [EINTR]) = Some (Ret (), new_semaphore 1) ∧ try_wait (mkSemaphore 2 [EINTR]) = Some (Ret true, new_semaphore 1) ∧
  wait_for_token (mkSemaphore 2 [EINTR]) = try_wait (mkSemaphore 2 [EINTR]).
Proof. apply (waits_take_one_token (mkSemaphore 2 [EINTR])); [repeat constructor|discriminate]. Defined.
